(* ===== verification/_CoqProject ===== *)
-Q . S2P
Prelude.v
SortedLists.v
RustStr.v
RustText.v
Ids.v
AgentLists.v
Notification.v
Handoff.v
Event.v
Ledger.v
Policy.v
ChatWire.v
Exchange.v
Model.v
History.v
Samples.v
Convergence.v
Sync.v
Network.v
Domain.v
JobState.v
Wire.v
Database.v
Views.v
Tx.v
TxLaws.v
StoreRefinement.v
StoreExchange.v
Acts.v
Turns.v
Admin.v
HandoffStore.v
Address.v
Values.v
Provider.v
Ops.v
Messages.v
ChatHook.v
StoreRuns.v
StoreSamples.v
SourcePaths.v
Policies.v
Dashboard.v
Terminal.v
Decoder.v
Service.v
Clients.v
Programs.v
JobDisk.v
JobStore.v
JobService.v
JobSteps.v
JobFunctions.v
JobReserve.v
JobRuns.v
Jsonc.v
JsoncTree.v
JsoncEdit.v
JsoncRuns.v
JsoncStrip.v
JsoncTotal.v
BuildDisk.v
Builds.v
BuildSteps.v
BuildFunctions.v
BuildRuns.v
BuildSelection.v
Frame.v
FrameDraws.v
Painter.v
FrameRuns.v
ChatSync.v
SyncNetwork.v
SyncRuns.v
Runner.v
RunnerSteps.v
RunnerRuns.v
ChatServe.v
Mcp.v
McpRuns.v
