(* ===== verification/Prelude.v ===== *)
(** * domyjob, a verified model

    domyjob lets a person and their AI agents use several machines as one: it runs commands on other
    machines as jobs, keeps a chat among agents that every machine holds a copy of, and registers
    itself as a service and with the clients of language models.  This library models the Rust sources
    under src/crates/domyjob-core/src (abbreviated [core/]) and src/crates/domyjob/src (abbreviated
    [app/]) and proves what makes them correct.

    ** The parts and how they interact

    A machine writes events - messages, answers, receipts, directory entries - into its ledger.  The rules of
    a ledger are generic: [core/chat/ledger.rs] works on any implementation of the trait [Ledger], and
    [core/chat/exchange.rs] on any [Outbox]; there are two implementations, the in-memory model that the
    program's own tests use ([core/chat/model.rs]) and the store on disk ([app/chat/store/]), which keeps
    its tables in the database redb.  Two machines exchange batches of events until both have seen what
    the other may show.  The commands of the chat ([app/chat/ops.rs]) are transactions of the store.

    A job is a directory.  Nodes (one process per request) and supervisors (one process per running job)
    share the directories of the job store ([app/store.rs]) through files and file locks only; any of them may
    fail or be killed at any point.  The state of a job is the state machine of [core/state.rs].

    Around these stand parsers and printers that decide what reaches the parts above: identifiers, paths,
    control frames, the keys of a terminal, service definitions, and JSON with comments edited in place.

    ** Files and what they model

    Shared: Prelude (results, machine integers, orders), SortedLists, RustStr, RustText (what the
    code uses of Rust's [str], slices, [BTreeSet] and [BTreeMap]), Programs (processes that share a world).

    The chat, as its rules: Ids (core/chat/id.rs), AgentLists (card.rs), Event (event.rs),
    Notification (notification.rs, notification/stop.rs), Handoff (handoff.rs, handoff/), Policy (policy.rs), Ledger
    (ledger.rs, ledger/parent_identity.rs, with the class [Ledger] and its laws [LedgerLaws]), ChatWire
    (core/chat_wire.rs), Exchange (exchange.rs, with the class [Outbox]), Model (model.rs, an instance of both),
    and on top of Model: History, Convergence, Sync, Network, with the examples of Samples.

    The chat, as it is stored: Keys (the text keys of app/chat/store/tables.rs), Database (the tables and
    what is asked of redb: class [Redb] with laws [RedbLaws]), Views (store/views.rs), Tx (store/tx.rs,
    store/handoff.rs, store.rs), TxLaws, StoreRefinement, StoreExchange (the simulation of Model), Acts
    (transaction bodies and the class [Admissible] of those that keep a ledger), Turns
    (store/notifications.rs, store/turns.rs), Admin (store/admin.rs), HandoffStore, StoreRuns (the life
    of a store), StoreSamples (a database in memory).  Commands: Address (app/chat/address.rs), Ops and
    Messages (app/chat/ops.rs and below), Provider (app/chat/provider.rs), Values (JSON values).

    The chat, as it is synchronized: ChatSync (app/chat/sync.rs, as programs over the store, the channels to the
    peers and the clock), SyncNetwork (an exchange among machines that keep writing and exchanging: each program
    runs against the network of Network), SyncRuns (what a synchronization reports, whatever it is answered),
    ChatServe (app/chat/serve.rs: the service and its followers, one per peer).  The agents that answer asks by
    themselves: Runner (app/chat/runner.rs: dispatching, launching and working, with the locks of an agent),
    RunnerSteps (what each process keeps to), RunnerRuns (all of them together, on one store).  The server for the
    clients of language models: Mcp (app/mcp.rs: requests, the table of tools, the threads of calls), McpRuns (all
    interleavings of its threads).

    Jobs: Domain (core/domain.rs), JobState (core/state.rs, core/job_protocol.rs), Wire (core/wire.rs,
    core/ingress.rs), JobDisk (the directories, files and locks, one operation of the system per step),
    JobStore (app/store.rs, app/state_io.rs, app/lock.rs, app/workspace.rs: each function a program of such
    operations), JobService (app/app.rs and the node of app/transport.rs), JobSteps (what every process keeps to),
    JobFunctions, JobReserve (each function keeps to it), JobRuns (all of them together).  Policies holds the resource budgets, process groups and the worker's handoff.

    Builds: BuildDisk (the directory of installed builds, its locks and records), Builds (app/builds.rs with
    app/retention.rs and parts of app/platform/), BuildSteps, BuildFunctions (what each process keeps to, by
    the same rules of rely and guarantee), BuildRuns (all of them together), BuildSelection (what a prune removes).

    Texts: SourcePaths, Dashboard, Terminal, Decoder, Service, Clients (the files of core/ of these names), and
    commented JSON: Jsonc (core/jsonc.rs on the bytes of a text), JsoncTree (documents as trees), JsoncEdit, JsoncRuns,
    JsoncStrip, JsoncTotal (what the operations do to the tree).

    The terminal interface: Frame (app/tui/frame.rs), FrameDraws (what drawing keeps), Painter (app/tui/output.rs,
    app/platform/terminal.rs and the terminal that reads what they write), FrameRuns (what the user sees).
    ** What the theorems show

    - Convergence and the network: what a machine derives from its events depends on their set only
      ([Convergence.replicas_converge]); whatever is delayed, lost, duplicated or reordered, a machine
      holds of another exactly exports of what that one wrote ([Network.network_exports_only]), and once
      exchanging changes nothing more all have seen everything ([Network.network_converges],
      [Network.network_settles]).
    - Synchronization: when an exchange ends as synced, each side has all the other had written before it began
      ([SyncNetwork.synced_peers_hold_each_others_events]); a synchronization asks a bounded number of
      batches and reports each peer at most once, as its link is recorded ([SyncRuns.sync_reports_each_peer_once]).
      A follower has at most one wait under way and pauses as is due ([ChatServe.follower_paces_itself]).
    - Workers of agents: in every interleaving of processes that dispatch and work, with failures and kills, an
      ask that a dispatch looked at is seen by a worker ([RunnerRuns.dispatched_asks_are_attended]), and turns of
      an agent never overlap ([RunnerRuns.turns_are_worked_on_alone]).
    - The MCP server: in every interleaving of its threads, whatever its client sends, a reading is recorded only
      after its answer went out whole and uncancelled ([McpRuns.reads_are_recorded_after_delivery]), and calls are
      let in after the handshake, at most 32, one at a time under an identifier
      ([McpRuns.calls_are_admitted_in_turn]); its loop ends with its input ([McpRuns.server_reads_to_the_end]).
    - The rules of a ledger: who may resolve an ask, what is offered to whom, how receiving accounts for
      each event, that history is causal ([Ledger.*], [Sync.*], [Exchange.*], [Convergence.*]).
    - The store on disk refines the in-memory ledger ([StoreRuns.store_refines_model]), a transaction
      happens wholly or not at all ([StoreRuns.transaction_is_atomic]), and what is proved of the model holds of
      what is stored ([StoreRuns.stores_converge], [StoreRuns.usage_is_what_is_stored]).
    - The job store under concurrency and failure: by rely and guarantee over the interleavings of any
      number of nodes and supervisors, a published job is whole ([JobRuns.published_jobs_are_whole]) and
      no job is lost ([JobRuns.jobs_are_never_lost]).  The state machine of a job refines the
      protocol its clients see ([JobState.job_refines_protocol]) and ends ([JobState.job_lifecycle]).
    - Installed builds: in every interleaving of processes that publish, hold, install, pin and prune builds, a
      build in use loses nothing ([BuildRuns.builds_in_use_are_kept]), an admitted program is there when it is
      launched ([BuildRuns.every_launch_finds_its_program]), and a prune removes exactly the idle builds beyond
      the two started last ([BuildSelection.prune_removes_the_oldest_idle]).
    - Texts: round trips of identifiers, frames and messages; escaping that is read back
      ([Service.*]); the decoder of keys refines its specification ([Decoder.decoder_refines_spec]); setting a
      member of a commented JSON document edits its tree and nothing else
      ([JsoncRuns.set_member_edits_the_tree]), is idempotent, always answers, and stripping is exact.
    - The terminal interface: drawing stays inside its area and keeps wide glyphs whole
      ([FrameRuns.drawing_stays_inside]), and what was drawn is what is on the screen
      ([FrameRuns.screen_shows_the_frame]).
    ** Parameters and what is assumed of them

    Code outside src/ is a parameter.  serde_json and blake3 in the chat are the class [Codec]
    (Event), and with JSON records [StoreCodec] (Database); redb is [Redb] with [RedbLaws]: a table reads
    back what was last written to it, iterates in the order of its keys, and a transaction that does not
    commit leaves nothing.  The clock, the working directory and the names of the operating system are the record
    [Environment] (Ops).  [str::to_lowercase] is an argument where it is used.  Readers and printers of JSON are
    arguments in Provider, Wire and Clients, and the class [JsonLibrary] with [JsonLibraryLaws] for commented
    JSON: blanks are no value, and the text of a string is one string token that is read back.  For jobs,
    [JobLibraries] holds serde_json, blake3, tar and [to_lowercase], with the laws that what is written is read
    back and that what is read is well formed; what the system answers to an operation (which one fails, before or
    after it took effect, in which order a directory is listed, what random bytes come) is a [Choice] that
    the theorems quantify over; commands, watchers, limits and the chat are questions [Outside] with any answer.
    Every such class has an instance on which the witnesses run.

    ** Interfaces

    [Ledger]/[LedgerLaws] and [Outbox] stand between the rules of the chat and its two stores, [Redb]/[RedbLaws]
    between the store and the database, [Admissible] between the bodies of transactions and the proof
    that a store stays a ledger, and the rely-guarantee triple of Programs between the functions of the job
    store and the theorems about their interleavings.

    ** Bounds and fuel

    Machine integers are [N] with their widths written out; additions saturate or are checked as in the code.
    Loops over the bytes of a text take the number of bytes as fuel, since each round consumes one.  The
    rounds of a supervisor that waits ([rounds] of JobService) count how often it is woken: a supervisor
    that has used its rounds is one that still waits, and the theorems hold for any number.  [set_member] calls itself at most
    once ([JsoncTotal.set_member_total]).  [sync_rounds] is shown to settle ([Network.network_settles]).

    ** Simplifications

    In the job store temporary files of atomic writes are not represented, the lock files and directories
    of the store itself (not of a job) are taken to exist, and the identifier of a submission is not
    published twice, which is how [JobId]s are made; a supervisor's log is a file that is appended to.
    Random identifiers are answers of the system.  What an operation of the chat answers a call of the MCP server,
    and how it leaves the store, is any answer and any store; what is recorded afterwards is that of Messages.  Of the installed builds there is one directory [versions];
    copying an executable into place is one step, and so is removing a build, which may leave any part of it;
    what [read_dir] presents is any list, since its entries may be old.

    ** Not modelled, and why

    [Store::reset] and the growth of the database file (a direct call of the system); the waiting loop of
    asking and the rendering of answers for people (output only); running processes, SSH and the
    bootstrap of a machine, archives of sources, the views of the terminal interface and its event loop
    (input and output around the modelled parts); the tools under src/xtask, the proof harnesses and the fuzz
    targets (not part of the program).

    ** Plan

    Next: the capture and transfer of sources ([app/source.rs]), the bootstrap of a machine ([app/transport.rs]),
    the views of the terminal interface, and the removal of a member in commented JSON. *)

From Stdlib Require Import NArith ZArith Lia String Ascii Sorted.
From stdpp Require Import base gmap list strings sorting.

Open Scope N_scope.

Declare Scope rust_scope.
Delimit Scope rust_scope with rust.
Open Scope rust_scope.

(** ** Results: Rust's [Result<T, E>] *)

Inductive result (T E : Type) : Type :=
| Ok (value : T)
| Err (error : E).
Arguments Ok {T E} _.
Arguments Err {T E} _.

Notation "'let?' x ':=' e 'in' k" :=
  (match e with Ok x => k | Err er_ => Err er_ end)
  (at level 10, x pattern, e at level 200, k at level 200) : rust_scope.

#[export] Instance result_eq_dec {T E} `{EqDecision T, EqDecision E} : EqDecision (result T E).
Proof. solve_decision. Defined.

Definition is_ok {T E} (r : result T E) : bool :=
  match r with Ok _ => true | Err _ => false end.

Definition map_err {T E F} (f : E -> F) (r : result T E) : result T F :=
  match r with Ok t => Ok t | Err e => Err (f e) end.

Definition map_ok {T U E} (f : T -> U) (r : result T E) : result U E :=
  match r with Ok t => Ok (f t) | Err e => Err e end.

Definition ok_or {T E} (o : option T) (e : E) : result T E :=
  match o with Some t => Ok t | None => Err e end.

(** [iter.map(f).collect::<Result<Vec<_>, _>>()]: the first error wins. *)
Fixpoint try_map {A B E} (f : A -> result B E) (l : list A) : result (list B) E :=
  match l with
  | [] => Ok []
  | x :: l =>
      match f x with
      | Err e => Err e
      | Ok y => match try_map f l with Ok ys => Ok (y :: ys) | Err e => Err e end
      end
  end.

Lemma try_map_ok {A B E} (f : A -> result B E) l ys :
  try_map f l = Ok ys <-> Forall2 (fun x y => f x = Ok y) l ys.
Proof.
  revert ys. induction l as [|x l IH]; intros ys; cbn.
  - split; [intros [= <-]; constructor|by intros ->%Forall2_nil_inv_l].
  - split.
    + destruct (f x) as [y|e] eqn:Hx; [|done]. destruct (try_map f l) as [zs|e]; [|done].
      intros [= <-]. constructor; [done|by apply IH].
    + intros (y & zs & Hx & Hl & ->)%Forall2_cons_inv_l. rewrite Hx. by rewrite (proj2 (IH zs) Hl).
Qed.

Lemma is_ok_true {T E} (r : result T E) : is_ok r = true <-> exists t, r = Ok t.
Proof. destruct r as [t|e]; cbn; [split; eauto | split; [done | by intros [??]]]. Qed.

Lemma map_err_ok {T E F} (f : E -> F) (r : result T E) t :
  map_err f r = Ok t <-> r = Ok t.
Proof. destruct r; cbn; naive_solver. Qed.

Lemma ok_or_ok {T E} (o : option T) (e : E) t : ok_or o e = Ok t <-> o = Some t.
Proof. destruct o; cbn; naive_solver. Qed.

(** ** Machine integers

    Unsigned integers are [N]; the width shows in the bound each checked or
    saturating operation is given.  [usize] is 64 bits wide. *)

Definition u8_max : N := 255.
Definition u16_max : N := 65535.
Definition u32_max : N := 4294967295.
Definition u64_max : N := 18446744073709551615.
Definition usize_max : N := u64_max.

Definition checked_add (max a b : N) : option N :=
  if a + b <=? max then Some (a + b) else None.
Definition checked_sub (a b : N) : option N :=
  if b <=? a then Some (a - b) else None.
Definition checked_mul (max a b : N) : option N :=
  if a * b <=? max then Some (a * b) else None.
Definition saturating_add (max a b : N) : N := N.min (a + b) max.
Definition saturating_sub (a b : N) : N := a - b.
Definition saturating_mul (max a b : N) : N := N.min (a * b) max.

(** [uN::from_be_bytes] and [uN::to_be_bytes] on [w] bytes *)
Definition from_be_bytes (l : list N) : N := fold_left (fun acc b => acc * 256 + b) l 0.
Fixpoint to_be_bytes (w : nat) (n : N) : list N :=
  match w with
  | O => []
  | S w => (n / 256 ^ N.of_nat w) mod 256 :: to_be_bytes w n
  end.

(** [(lo..=hi).contains(x)] *)
Definition in_range (lo hi x : N) : bool := (lo <=? x) && (x <=? hi).

Lemma in_range_spec lo hi x : in_range lo hi x = true <-> lo <= x <= hi.
Proof. unfold in_range. rewrite andb_true_iff, !N.leb_le. done. Qed.

Lemma checked_add_Some max a b c :
  checked_add max a b = Some c <-> c = a + b /\ c <= max.
Proof.
  unfold checked_add. destruct (N.leb_spec (a + b) max); split.
  - by intros [= <-].
  - by intros [-> _].
  - done.
  - intros [-> ?]. lia.
Qed.

Lemma checked_add_None max a b : checked_add max a b = None <-> max < a + b.
Proof. unfold checked_add. destruct (N.leb_spec (a + b) max); split; intros; done || lia. Qed.

Lemma checked_sub_Some a b c : checked_sub a b = Some c <-> b <= a /\ c = a - b.
Proof.
  unfold checked_sub. destruct (N.leb_spec b a); split.
  - by intros [= <-].
  - by intros [_ ->].
  - done.
  - intros [? _]. lia.
Qed.

Lemma checked_sub_None a b : checked_sub a b = None <-> a < b.
Proof. unfold checked_sub. destruct (N.leb_spec b a); split; intros; done || lia. Qed.

(** [NonZeroU64]: the bounds are part of the value. *)
Record NonZeroU64 := mkNonZeroU64 {
  nz_get : N;
  nz_ok : Is_true ((0 <? nz_get) && (nz_get <=? u64_max))
}.

(** ** Values identified by an injective projection *)

Lemma inj_eq_dec {A B} `{EqDecision B} (f : A -> B) (Hf : forall x y, f x = f y -> x = y) :
  EqDecision A.
Proof.
  intros x y. destruct (decide (f x = f y)) as [E|E].
  - left. by apply Hf.
  - right. intros ->. done.
Defined.

Lemma nz_inj x y : nz_get x = nz_get y -> x = y.
Proof. destruct x as [x Hx], y as [y Hy]; cbn. intros ->. f_equal. apply proof_irrel. Qed.

#[export] Instance NonZeroU64_eq_dec : EqDecision NonZeroU64 := inj_eq_dec nz_get nz_inj.

Definition NonZeroU64_new (n : N) : option NonZeroU64 :=
  match decide (Is_true ((0 <? n) && (n <=? u64_max))) with
  | left H => Some (mkNonZeroU64 n H)
  | right _ => None
  end.

Lemma NonZeroU64_new_get x : NonZeroU64_new (nz_get x) = Some x.
Proof.
  unfold NonZeroU64_new. case_decide as H.
  - f_equal. by apply nz_inj.
  - destruct x; done.
Qed.

Lemma NonZeroU64_new_Some n x : NonZeroU64_new n = Some x <-> nz_get x = n.
Proof.
  split; [|intros <-; apply NonZeroU64_new_get].
  unfold NonZeroU64_new. case_decide; [|done]. by intros [= <-].
Qed.

Lemma nz_bounds x : 0 < nz_get x <= u64_max.
Proof.
  destruct x as [x Hx]; cbn. apply Is_true_true in Hx.
  rewrite andb_true_iff, N.ltb_lt, N.leb_le in Hx. done.
Qed.

Lemma NonZeroU64_new_is_Some n : 0 < n <= u64_max -> exists x, NonZeroU64_new n = Some x.
Proof.
  intros [H1 H2]. unfold NonZeroU64_new. case_decide as Hd; [eauto|].
  exfalso. apply Hd. apply Is_true_true.
  by rewrite andb_true_iff, N.ltb_lt, N.leb_le.
Qed.

#[export] Instance NonZeroU64_countable : Countable NonZeroU64.
Proof. exact (inj_countable nz_get NonZeroU64_new NonZeroU64_new_get). Defined.

(** ** Total orders: Rust's derived [Ord] *)

Class Ord (A : Type) := cmp : A -> A -> comparison.

Class OrdLaws (A : Type) `{Ord A} := {
  cmp_eq_iff : forall x y : A, cmp x y = Eq <-> x = y;
  cmp_opp : forall x y : A, cmp y x = CompOpp (cmp x y);
  cmp_lt_trans : forall x y z : A, cmp x y = Lt -> cmp y z = Lt -> cmp x z = Lt
}.

Definition cmp_lt {A} `{Ord A} (x y : A) : Prop := cmp x y = Lt.
Definition cmp_ltb {A} `{Ord A} (x y : A) : bool :=
  match cmp x y with Lt => true | _ => false end.
Definition cmp_leb {A} `{Ord A} (x y : A) : bool :=
  match cmp x y with Gt => false | _ => true end.

#[export] Instance N_Ord : Ord N := N.compare.
#[export] Instance N_OrdLaws : OrdLaws N.
Proof.
  split; unfold cmp, N_Ord.
  - apply N.compare_eq_iff.
  - intros. apply N.compare_antisym.
  - intros x y z. rewrite !N.compare_lt_iff. lia.
Qed.

(** Strings compare bytewise. *)
#[export] Instance string_Ord : Ord string := String.compare.

Lemma string_compare_lt_trans x y z :
  String.compare x y = Lt -> String.compare y z = Lt -> String.compare x z = Lt.
Proof.
  revert y z. induction x as [|a x IH]; intros [|b y] [|c z]; cbn; try done.
  unfold Ascii.compare. intros Hxy Hyz.
  destruct (N.compare_spec (N_of_ascii a) (N_of_ascii b)) as [E1|E1|E1]; try done;
  destruct (N.compare_spec (N_of_ascii b) (N_of_ascii c)) as [E2|E2|E2]; try done.
  - rewrite E1, E2, N.compare_refl. eauto.
  - rewrite E1. apply N.compare_lt_iff in E2. by rewrite E2.
  - rewrite <- E2. apply N.compare_lt_iff in E1. by rewrite E1.
  - assert (E : (N_of_ascii a < N_of_ascii c)%N) by lia.
    apply N.compare_lt_iff in E. by rewrite E.
Qed.

#[export] Instance string_OrdLaws : OrdLaws string.
Proof.
  split; unfold cmp, string_Ord.
  - intros x y. split; [apply String.compare_eq_iff|]. intros ->.
    induction y as [|a y IH]; [done|]. cbn. unfold Ascii.compare. by rewrite N.compare_refl.
  - intros x y. rewrite String.compare_antisym.
    destruct (String.compare y x); done.
  - apply string_compare_lt_trans.
Qed.

(** The lexicographic order a derived [Ord] gives to two fields. *)
#[export] Instance pair_Ord {A B} `{Ord A, Ord B} : Ord (A * B) :=
  fun x y => match cmp x.1 y.1 with Eq => cmp x.2 y.2 | c => c end.

#[export] Instance pair_OrdLaws {A B} `{OrdLaws A, OrdLaws B} : OrdLaws (A * B).
Proof.
  split; unfold cmp, pair_Ord.
  - intros [a b] [a' b']; cbn. destruct (cmp a a') eqn:E.
    + apply cmp_eq_iff in E as ->. rewrite cmp_eq_iff. naive_solver.
    + split; [done|]. intros [= -> ->]. by rewrite (proj2 (cmp_eq_iff a' a') eq_refl) in E.
    + split; [done|]. intros [= -> ->]. by rewrite (proj2 (cmp_eq_iff a' a') eq_refl) in E.
  - intros [a b] [a' b']; cbn. rewrite (cmp_opp a a'). destruct (cmp a a'); cbn; try done.
    apply cmp_opp.
  - intros [a b] [a' b'] [a'' b'']; cbn. intros Hxy Hyz.
    destruct (cmp a a') eqn:E1; try done; destruct (cmp a' a'') eqn:E2; try done.
    + apply cmp_eq_iff in E1 as ->. rewrite E2. eauto using cmp_lt_trans.
    + apply cmp_eq_iff in E1 as ->. by rewrite E2.
    + apply cmp_eq_iff in E2 as <-. by rewrite E1.
    + by rewrite (cmp_lt_trans _ _ _ E1 E2).
Qed.

(** Tuples are ordered lexicographically. *)
Lemma pair_cmp_lt {A B} `{OrdLaws A, OrdLaws B} (a a' : A) (b b' : B) :
  cmp_lt (a, b) (a', b') <-> cmp_lt a a' \/ a = a' /\ cmp_lt b b'.
Proof.
  unfold cmp_lt. cbn. unfold cmp at 1, pair_Ord. cbn. rewrite <- (cmp_eq_iff a a').
  destruct (cmp a a') eqn:E; naive_solver.
Qed.

(** A newtype is ordered as what it wraps. *)
Lemma OrdLaws_inj {A B} `{OrdLaws B} (f : A -> B) (Hf : forall x y, f x = f y -> x = y) :
  @OrdLaws A (fun x y => cmp (f x) (f y)).
Proof.
  split.
  - intros x y. change (cmp (f x) (f y) = Eq <-> x = y).
    rewrite cmp_eq_iff. split; [apply Hf | by intros ->].
  - intros x y. apply (cmp_opp (f x) (f y)).
  - intros x y z. apply (cmp_lt_trans (f x) (f y) (f z)).
Qed.

#[export] Instance NonZeroU64_Ord : Ord NonZeroU64 := fun x y => cmp (nz_get x) (nz_get y).
#[export] Instance NonZeroU64_OrdLaws : OrdLaws NonZeroU64 := OrdLaws_inj nz_get nz_inj.

Section order.
Context {A : Type} `{OrdLaws A}.
Implicit Types (x y z : A) (l : list A).

Lemma cmp_refl x : cmp x x = Eq.
Proof. by apply cmp_eq_iff. Qed.

Lemma cmp_lt_irrefl x : ~ cmp_lt x x.
Proof. unfold cmp_lt. by rewrite cmp_refl. Qed.

Lemma cmp_gt_lt x y : cmp x y = Gt <-> cmp y x = Lt.
Proof. rewrite (cmp_opp x y). destruct (cmp x y); done. Qed.

#[export] Instance cmp_lt_strict : StrictOrder (@cmp_lt A _).
Proof.
  split.
  - intros x. apply cmp_lt_irrefl.
  - intros x y z. apply cmp_lt_trans.
Qed.

#[export] Instance cmp_lt_dec : RelDecision (@cmp_lt A _).
Proof. intros x y. unfold cmp_lt. apply _. Defined.

Lemma cmp_ltb_lt x y : cmp_ltb x y = true <-> cmp_lt x y.
Proof. unfold cmp_ltb, cmp_lt. destruct (cmp x y); done. Qed.

Lemma cmp_leb_le x y : cmp_leb x y = true <-> ~ cmp_lt y x.
Proof.
  unfold cmp_leb, cmp_lt. rewrite (cmp_opp x y). destruct (cmp x y); cbn; naive_solver.
Qed.

Lemma cmp_total x y : cmp_lt x y \/ x = y \/ cmp_lt y x.
Proof.
  destruct (cmp x y) eqn:E.
  - apply cmp_eq_iff in E. auto.
  - auto.
  - apply cmp_gt_lt in E. auto.
Qed.

Lemma cmp_lt_asym x y : cmp_lt x y -> ~ cmp_lt y x.
Proof. intros H1 H2. apply (cmp_lt_irrefl x). by transitivity y. Qed.

End order.

Create HintDb rust discriminated.
#[export] Hint Resolve cmp_refl cmp_lt_irrefl : rust.
