(* ===== verification/SortedLists.v ===== *)
(** Ordered slices and sets: [slice::windows], [slice::binary_search], [slice::sort],
    [Vec::dedup] and the iteration order of [BTreeSet] and [BTreeMap], with the facts about
    strictly increasing lists that the components share. *)

From Stdlib Require Import NArith Lia String Sorted.
From stdpp Require Import base gmap list strings sorting.
From S2P Require Import Prelude.

(** ** [slice::windows(2)] *)

Fixpoint windows2 {A} (l : list A) : list (A * A) :=
  match l with
  | x :: ((y :: _) as rest) => (x, y) :: windows2 rest
  | _ => []
  end.

Definition any_window2 {A} (p : A -> A -> bool) (l : list A) : bool :=
  existsb (fun w => p w.1 w.2) (windows2 l).

(** ** [BTreeSet]: strictly increasing lists *)

Fixpoint btree_insert {A} `{Ord A} (x : A) (l : list A) : list A :=
  match l with
  | [] => [x]
  | y :: rest =>
      match cmp x y with
      | Lt => x :: l
      | Eq => l
      | Gt => y :: btree_insert x rest
      end
  end.

(** [collect::<BTreeSet<_>>()] then [into_iter()] *)
Definition btree_collect {A} `{Ord A} (l : list A) : list A :=
  foldr btree_insert [] l.

(** ** [slice::binary_search]: halve the slice until the key is met. *)
Fixpoint binary_search_fuel {A} `{Ord A} (fuel : nat) (l : list A) (x : A) : bool :=
  match fuel with
  | O => false
  | S fuel =>
      let mid := Nat.div2 (length l) in
      match l !! mid with
      | None => false
      | Some y =>
          match cmp y x with
          | Eq => true
          | Lt => binary_search_fuel fuel (drop (S mid) l) x
          | Gt => binary_search_fuel fuel (take mid l) x
          end
      end
  end.

(** The slice loses at least one element per round, so its length is fuel enough. *)
Definition binary_search {A} `{Ord A} (l : list A) (x : A) : bool :=
  binary_search_fuel (length l) l x.

(** ** [slice::sort] and [Vec::dedup] *)

Fixpoint sort_insert {A} `{Ord A} (x : A) (l : list A) : list A :=
  match l with
  | [] => [x]
  | y :: rest => if cmp_leb x y then x :: l else y :: sort_insert x rest
  end.
Definition sort {A} `{Ord A} (l : list A) : list A := foldr sort_insert [] l.

Fixpoint dedup {A} `{EqDecision A} (l : list A) : list A :=
  match l with
  | x :: ((y :: _) as rest) =>
      if decide (x = y) then dedup rest else x :: dedup rest
  | _ => l
  end.

Section sorted.
Context {A : Type} `{OrdLaws A}.
Implicit Types (x y : A) (l : list A).

Lemma any_window2_false (p : A -> A -> bool) l :
  any_window2 p l = false <-> Sorted (fun x y => p x y = false) l.
Proof.
  unfold any_window2. induction l as [|x [|y l] IH].
  - split; [constructor | done].
  - split; [repeat constructor | done].
  - change (windows2 (x :: y :: l)) with ((x, y) :: windows2 (y :: l)).
    cbn [existsb]. rewrite orb_false_iff, IH. cbn. split.
    + intros [Hp Hs]. constructor; [done | by constructor].
    + intros Hs. inversion Hs as [|?? Hs' Hh]; subst. inversion Hh; subst. done.
Qed.

Lemma ge_false x y : negb (cmp_ltb x y) = false <-> cmp_lt x y.
Proof. rewrite negb_false_iff. apply cmp_ltb_lt. Qed.

(** No window with [first >= second]: the slice is strictly increasing. *)
Lemma windows_increasing l :
  any_window2 (fun x y => negb (cmp_ltb x y)) l = false <-> StronglySorted cmp_lt l.
Proof.
  rewrite any_window2_false. split.
  - intros Hs. apply Sorted_StronglySorted; [intros ???; apply cmp_lt_strict|].
    eapply Sorted_ind with (P := fun l => Sorted cmp_lt l); [constructor| |exact Hs].
    intros a l' _ IH Hh. constructor; [done|]. inversion Hh; constructor. by apply ge_false.
  - intros Hs%StronglySorted_Sorted.
    induction Hs as [|a l' Hs IH Hh]; constructor; [done|].
    inversion Hh; constructor. by apply ge_false.
Qed.

Lemma increasing_NoDup l : StronglySorted cmp_lt l -> NoDup l.
Proof.
  induction 1 as [|x l Hs IH Hf]; constructor; [|done].
  intros Hin. rewrite Forall_forall in Hf. apply (cmp_lt_irrefl x), Hf. done.
Qed.

Lemma btree_insert_elem x l y : y ∈ btree_insert x l <-> y = x \/ y ∈ l.
Proof.
  induction l as [|z l IH]; cbn; [set_solver|].
  destruct (cmp x z) eqn:E.
  - apply cmp_eq_iff in E as ->. set_solver.
  - set_solver.
  - rewrite !elem_of_cons, IH. tauto.
Qed.

Lemma btree_insert_sorted x l :
  StronglySorted cmp_lt l -> StronglySorted cmp_lt (btree_insert x l).
Proof.
  induction 1 as [|z l Hs IH Hf]; cbn; [repeat constructor|].
  destruct (cmp x z) eqn:E.
  - by constructor.
  - constructor; [by constructor|]. constructor; [done|].
    eapply Forall_impl; [exact Hf|]. intros w Hw. by transitivity z.
  - constructor; [done|]. apply Forall_forall. intros w [->|Hw]%btree_insert_elem.
    + by apply cmp_gt_lt.
    + rewrite Forall_forall in Hf. auto.
Qed.

Lemma btree_collect_elem l y : y ∈ btree_collect l <-> y ∈ l.
Proof.
  induction l as [|x l IH]; cbn; [done|]. rewrite btree_insert_elem, IH, elem_of_cons. done.
Qed.

Lemma btree_collect_sorted l : StronglySorted cmp_lt (btree_collect l).
Proof. induction l; cbn; [constructor | by apply btree_insert_sorted]. Qed.

Lemma btree_collect_nonempty l : l <> [] -> btree_collect l <> [].
Proof.
  destruct l as [|x l]; [done|]. intros _ E.
  assert (Hx : x ∈ btree_collect (x :: l)) by (apply btree_collect_elem; set_solver).
  rewrite E in Hx. set_solver.
Qed.

(** Two strictly increasing lists with the same elements are the same list. *)
Lemma increasing_ext l1 l2 :
  StronglySorted cmp_lt l1 -> StronglySorted cmp_lt l2 ->
  (forall x, x ∈ l1 <-> x ∈ l2) -> l1 = l2.
Proof.
  intros Hs1. revert l2. induction Hs1 as [|x l1 Hs1 IH Hf1]; intros l2 Hs2 Heq.
  - destruct l2 as [|y l2]; [done|]. exfalso. specialize (Heq y). set_solver.
  - destruct Hs2 as [|y l2 Hs2 Hf2]; [exfalso; specialize (Heq x); set_solver|].
    rewrite Forall_forall in Hf1, Hf2.
    assert (x = y) as <-.
    { destruct (cmp_total x y) as [Hlt|[?|Hlt]]; [|done|].
      - assert (Hx : x ∈ y :: l2) by (apply Heq; set_solver).
        apply elem_of_cons in Hx as [->|Hx]; [done|].
        exfalso. eapply cmp_lt_asym; [exact Hlt|]. auto.
      - assert (Hy : y ∈ x :: l1) by (apply Heq; set_solver).
        apply elem_of_cons in Hy as [->|Hy]; [done|].
        exfalso. eapply cmp_lt_asym; [exact Hlt|]. auto. }
    f_equal. apply IH; [done|]. intros z. specialize (Heq z).
    rewrite !elem_of_cons in Heq. split; intros Hz.
    + destruct (proj1 Heq (or_intror Hz)) as [->|?]; [|done].
      exfalso. apply (cmp_lt_irrefl x). auto.
    + destruct (proj2 Heq (or_intror Hz)) as [->|?]; [|done].
      exfalso. apply (cmp_lt_irrefl x). auto.
Qed.

Lemma increasing_lookup_lt l i j x y :
  StronglySorted cmp_lt l -> l !! i = Some x -> l !! j = Some y -> (i < j)%nat -> cmp_lt x y.
Proof.
  intros Hs. revert i j. induction Hs as [|z l Hs IH Hf]; intros [|i] [|j]; cbn; try done; try lia.
  - intros [= ->] Hj _. rewrite Forall_forall in Hf. apply Hf.
    by eapply list_elem_of_lookup_2.
  - intros Hi Hj Hij. eapply IH; [done|exact Hj|lia].
Qed.

Lemma increasing_take_drop l n :
  StronglySorted cmp_lt l -> StronglySorted cmp_lt (take n l) /\ StronglySorted cmp_lt (drop n l).
Proof.
  intros Hs. revert n. induction Hs as [|z l Hs IH Hf]; intros [|n]; cbn; repeat split;
    try constructor; try done; try apply IH.
  eapply Forall_impl_strong; [|exact Hf] || apply Forall_take; done.
Qed.

Lemma binary_search_fuel_spec fuel l x :
  (length l <= fuel)%nat -> StronglySorted cmp_lt l ->
  binary_search_fuel fuel l x = true <-> x ∈ l.
Proof.
  revert l. induction fuel as [|fuel IH]; intros l Hlen Hs.
  - destruct l; [|cbn in Hlen; lia]. cbn. set_solver.
  - cbn [binary_search_fuel]. set (mid := Nat.div2 (length l)).
    destruct (l !! mid) as [y|] eqn:Hmid.
    2:{ apply lookup_ge_None_1 in Hmid. destruct l as [|z l]; [set_solver|].
        pose proof (Nat.lt_div2 (length (z :: l))) as Hlt. cbn in Hlt, Hmid. unfold mid in Hmid.
        cbn in Hmid. lia. }
    pose proof (lookup_lt_Some _ _ _ Hmid) as Hlt.
    destruct (increasing_take_drop l mid Hs) as [Ht _].
    destruct (increasing_take_drop l (S mid) Hs) as [_ Hd].
    assert (Hmem : x ∈ l <-> x ∈ take mid l \/ x = y \/ x ∈ drop (S mid) l).
    { rewrite <- (take_drop_middle _ _ _ Hmid) at 1. rewrite elem_of_app, elem_of_cons. tauto. }
    assert (Hbelow : forall z, z ∈ take mid l -> cmp_lt z y).
    { intros z [i Hi]%list_elem_of_lookup. apply lookup_take_Some in Hi as [Hi Hlt'].
      eapply increasing_lookup_lt; [exact Hs|exact Hi|exact Hmid|lia]. }
    assert (Habove : forall z, z ∈ drop (S mid) l -> cmp_lt y z).
    { intros z [i Hi]%list_elem_of_lookup. rewrite lookup_drop in Hi.
      eapply increasing_lookup_lt; [exact Hs|exact Hmid|exact Hi|lia]. }
    destruct (cmp y x) eqn:E.
    + apply cmp_eq_iff in E as ->. tauto.
    + rewrite IH; [|rewrite length_drop; lia|done]. rewrite Hmem. split; [tauto|].
      intros [Hx|[->|Hx]]; [|by rewrite cmp_refl in E|done].
      exfalso. eapply cmp_lt_asym; [exact E|]. auto.
    + apply cmp_gt_lt in E. rewrite IH; [|rewrite length_take; lia|done]. rewrite Hmem.
      split; [tauto|]. intros [Hx|[->|Hx]]; [done|by apply cmp_lt_irrefl in E|].
      exfalso. eapply cmp_lt_asym; [exact E|]. by apply Habove.
Qed.

(** On a strictly increasing slice, [binary_search] finds exactly the members. *)
Lemma binary_search_spec l x :
  StronglySorted cmp_lt l -> binary_search l x = true <-> x ∈ l.
Proof. intros Hs. by apply binary_search_fuel_spec. Qed.

End sorted.

(** ** [sort] and [dedup] *)

Section sort.
Context {A : Type} `{EqDecision A, OrdLaws A}.
Implicit Types (x y : A) (l : list A).

Definition cmp_le x y : Prop := ~ cmp_lt y x.

Lemma sort_insert_perm x l : sort_insert x l ≡ₚ x :: l.
Proof.
  induction l as [|y l IH]; cbn; [done|]. destruct (cmp_leb x y); [done|].
  rewrite IH. apply Permutation_swap.
Qed.

Lemma sort_perm l : sort l ≡ₚ l.
Proof. induction l as [|x l IH]; cbn; [done|]. by rewrite sort_insert_perm, IH. Qed.

Lemma sort_insert_HdRel x y l : cmp_le y x -> HdRel cmp_le y l -> HdRel cmp_le y (sort_insert x l).
Proof.
  intros Hx Hl. destruct Hl as [|z l Hz]; cbn; [by constructor|].
  destruct (cmp_leb x z); by constructor.
Qed.

Lemma sort_insert_sorted x l : Sorted cmp_le l -> Sorted cmp_le (sort_insert x l).
Proof.
  induction 1 as [|y l Hs IH Hh]; cbn; [repeat constructor|].
  destruct (cmp_leb x y) eqn:E.
  - apply cmp_leb_le in E. constructor; [by constructor|]. by constructor.
  - constructor; [done|]. apply sort_insert_HdRel; [|done].
    intros Hlt. apply not_true_iff_false in E. apply E, cmp_leb_le.
    by apply cmp_lt_asym.
Qed.

Lemma sort_sorted l : Sorted cmp_le (sort l).
Proof. induction l; cbn; [constructor | by apply sort_insert_sorted]. Qed.

Lemma cmp_le_ne_lt x y : cmp_le x y -> x <> y -> cmp_lt x y.
Proof. intros Hle Hne. destruct (cmp_total x y) as [|[|]]; done. Qed.

(** Neighbours that differ in a sorted list increase strictly. *)
Lemma sorted_ne_increasing l :
  Sorted cmp_le l -> Sorted (fun x y => bool_decide (x = y) = false) l -> StronglySorted cmp_lt l.
Proof.
  intros Hs Hn. apply Sorted_StronglySorted; [intros ???; apply cmp_lt_strict|].
  induction Hs as [|x l Hs IH Hh]; [constructor|].
  inversion Hn as [|?? Hn' Hhn]; subst. constructor; [by apply IH|].
  destruct Hh as [|y l Hle]; constructor. inversion Hhn; subst.
  apply cmp_le_ne_lt; [done|]. by eapply bool_decide_eq_false_1.
Qed.

(** The duplicate test on sorted neighbours decides [NoDup]. *)
Lemma sort_windows_NoDup l :
  any_window2 (fun x y => bool_decide (x = y)) (sort l) = false <-> NoDup l.
Proof.
  rewrite any_window2_false.
  assert (E : NoDup l <-> NoDup (sort l)) by (by rewrite (sort_perm l)).
  rewrite E. clear E. split.
  - intros Hn. apply increasing_NoDup, sorted_ne_increasing; [apply sort_sorted | done].
  - induction (sort l) as [|x l' IH]; [constructor|]. rewrite NoDup_cons. intros [Hx Hl].
    constructor; [by apply IH|]. destruct l' as [|y l']; constructor.
    apply bool_decide_eq_false_2. intros ->. apply Hx. left.
Qed.

Lemma dedup_elem l x : x ∈ dedup l <-> x ∈ l.
Proof.
  induction l as [|y [|z l] IH]; [done|done|].
  change (dedup (y :: z :: l)) with (if decide (y = z) then dedup (z :: l) else y :: dedup (z :: l)).
  case_decide as E.
  - subst z. rewrite IH, !elem_of_cons. tauto.
  - rewrite elem_of_cons, IH, (elem_of_cons _ x y). tauto.
Qed.

Lemma dedup_head x l : exists l', dedup (x :: l) = x :: l'.
Proof.
  revert x. induction l as [|y l IH]; intros x; [by exists []|].
  change (dedup (x :: y :: l)) with (if decide (x = y) then dedup (y :: l) else x :: dedup (y :: l)).
  case_decide as E; [subst y; apply IH | eauto].
Qed.

Lemma dedup_increasing l : Sorted cmp_le l -> StronglySorted cmp_lt (dedup l).
Proof.
  intros Hs. apply Sorted_StronglySorted; [intros ???; apply cmp_lt_strict|].
  induction Hs as [|x l Hs IH Hh]; [constructor|].
  destruct l as [|y l]; [by repeat constructor|].
  change (dedup (x :: y :: l)) with (if decide (x = y) then dedup (y :: l) else x :: dedup (y :: l)).
  case_decide as E; [done|]. constructor; [done|].
  destruct (dedup_head y l) as [l' ->]. inversion Hh; subst. constructor. by apply cmp_le_ne_lt.
Qed.

(** Sorting and removing neighbours that repeat yields the set's increasing list. *)
Lemma dedup_sort l : dedup (sort l) = btree_collect l.
Proof.
  apply increasing_ext.
  - apply dedup_increasing, sort_sorted.
  - apply btree_collect_sorted.
  - intros x. rewrite dedup_elem, btree_collect_elem. by rewrite (sort_perm l).
Qed.

End sort.
