(* ===== verification/RustStr.v ===== *)
(** Rust strings: [str] is its UTF-8 byte sequence, a Stdlib [string] whose [ascii] cells are the
    bytes.  Characters are Unicode scalar values in [N].  Holds the [str] and [char] methods the
    sources call, hexadecimal formatting, and [Validated], the newtype the [validated_string!]
    macro generates.  [chars] is total: on bytes no [str] holds it yields U+FFFD. *)

From Stdlib Require Import NArith Lia String Ascii.
From stdpp Require Import base gmap list strings.
From S2P Require Import Prelude.

(** ** Bytes *)

Definition bytes (s : string) : list N := map N_of_ascii (list_ascii_of_string s).
Definition of_bytes (l : list N) : string := string_of_list_ascii (map ascii_of_N l).

(** [str::len] *)
Definition str_len (s : string) : N := N.of_nat (String.length s).

Lemma of_bytes_bytes s : of_bytes (bytes s) = s.
Proof.
  unfold of_bytes, bytes. rewrite map_map.
  rewrite (map_ext _ (fun a => a)); [|intros a; apply ascii_N_embedding].
  rewrite map_id. apply string_of_list_ascii_of_string.
Qed.

Lemma bytes_of_bytes l : Forall (fun b => b < 256) l -> bytes (of_bytes l) = l.
Proof.
  intros Hl. unfold of_bytes, bytes. rewrite list_ascii_of_string_of_list_ascii, map_map.
  induction Hl as [|b l Hb Hl IH]; cbn; [done|]. rewrite IH. f_equal. by apply N_ascii_embedding.
Qed.

Lemma bytes_inj s t : bytes s = bytes t -> s = t.
Proof. intros E. by rewrite <- (of_bytes_bytes s), E, of_bytes_bytes. Qed.

Lemma length_bytes s : length (bytes s) = String.length s.
Proof. unfold bytes. rewrite length_map. induction s; cbn; auto. Qed.

Lemma str_len_bytes s : str_len s = N.of_nat (length (bytes s)).
Proof. unfold str_len. by rewrite length_bytes. Qed.

Lemma bytes_cons a s : bytes (String a s) = N_of_ascii a :: bytes s.
Proof. done. Qed.

Lemma app_cons a s t : String.app (String a s) t = String a (String.app s t).
Proof. done. Qed.

Lemma app_empty t : String.app EmptyString t = t.
Proof. done. Qed.

Lemma bytes_app s t : bytes (String.app s t) = bytes s ++ bytes t.
Proof.
  induction s as [|a s IH]; [done|].
  change (N_of_ascii a :: bytes (String.append s t) = N_of_ascii a :: (bytes s ++ bytes t)).
  f_equal. exact IH.
Qed.

(** ** Byte classes ([u8::is_ascii_digit], ...) *)

Definition is_ascii_digit (b : N) : bool := in_range 48 57 b.
Definition is_ascii_lowercase (b : N) : bool := in_range 97 122 b.
Definition is_ascii_uppercase (b : N) : bool := in_range 65 90 b.
Definition is_ascii_alphabetic (b : N) : bool := is_ascii_lowercase b || is_ascii_uppercase b.
Definition is_ascii_alphanumeric (b : N) : bool := is_ascii_alphabetic b || is_ascii_digit b.
(** [matches!(byte, b'a'..=b'f')] *)
Definition is_a_to_f (b : N) : bool := in_range 97 102 b.
Definition is_ascii_hexdigit (b : N) : bool := is_ascii_digit b || in_range 65 70 b || is_a_to_f b.
Definition to_ascii_lowercase (b : N) : N := if is_ascii_uppercase b then b + 32 else b.
Definition to_ascii_uppercase (b : N) : N := if is_ascii_lowercase b then b - 32 else b.

(** The code of a one-character literal, [b'x'] or ['x']. *)
Definition byte_of (a : ascii) : N := N_of_ascii a.
Definition one_of (literals : string) (b : N) : bool := existsb (N.eqb b) (bytes literals).

(** ** Characters *)

(** [char::from_u32] *)
Definition is_scalar (c : N) : bool :=
  (c <? 55296) || ((57343 <? c) && (c <? 1114112)).
Definition char_from_u32 (c : N) : option N := if is_scalar c then Some c else None.

Definition encode_char (c : N) : list N :=
  if c <? 128 then [c]
  else if c <? 2048 then [192 + c / 64; 128 + c mod 64]
  else if c <? 65536 then [224 + c / 4096; 128 + (c / 64) mod 64; 128 + c mod 64]
  else [240 + c / 262144; 128 + (c / 4096) mod 64; 128 + (c / 64) mod 64; 128 + c mod 64].

Definition len_utf8 (c : N) : N := N.of_nat (length (encode_char c)).

Definition of_chars (cs : list N) : string := of_bytes (concat (map encode_char cs)).

Definition continuation (b : N) : bool := in_range 128 191 b.
Definition replacement : N := 65533.

(** The first character and the bytes after it; [None] on a malformed or overlong sequence. *)
Definition next_char (l : list N) : option (N * list N) :=
  match l with
  | [] => None
  | b0 :: r0 =>
      if b0 <? 128 then Some (b0, r0) else
      match r0 with
      | [] => None
      | b1 :: r1 =>
          if in_range 194 223 b0 && continuation b1
          then Some ((b0 - 192) * 64 + (b1 - 128), r1) else
          match r1 with
          | [] => None
          | b2 :: r2 =>
              let c3 := (b0 - 224) * 4096 + (b1 - 128) * 64 + (b2 - 128) in
              if in_range 224 239 b0 && continuation b1 && continuation b2
                 && (2048 <=? c3) && is_scalar c3
              then Some (c3, r2) else
              match r2 with
              | [] => None
              | b3 :: r3 =>
                  let c4 := (b0 - 240) * 262144 + (b1 - 128) * 4096 + (b2 - 128) * 64 + (b3 - 128) in
                  if in_range 240 244 b0 && continuation b1 && continuation b2 && continuation b3
                     && (65536 <=? c4) && is_scalar c4
                  then Some (c4, r3) else None
              end
          end
      end
  end.

Fixpoint decode_fuel (fuel : nat) (l : list N) : list (option N) :=
  match fuel, l with
  | S fuel, b :: rest =>
      match next_char l with
      | Some (c, rest') => Some c :: decode_fuel fuel rest'
      | None => None :: decode_fuel fuel rest
      end
  | _, _ => []
  end.

(** Every character takes at least one byte, so the byte count is fuel enough. *)
Definition decode (l : list N) : list (option N) := decode_fuel (length l) l.

(** [core::str::from_utf8(l).is_ok()] *)
Definition utf8_valid (l : list N) : bool := forallb (fun c => match c with Some _ => true | None => false end) (decode l).

(** [str::chars] *)
Definition chars (s : string) : list N :=
  map (fun c => match c with Some c => c | None => replacement end) (decode (bytes s)).

(** [char::is_control]: the category Cc. *)
Definition is_control (c : N) : bool := (c <=? 31) || in_range 127 159 c.

(** [char::is_whitespace]: the property White_Space. *)
Definition is_whitespace (c : N) : bool :=
  in_range 9 13 c || (c =? 32) || (c =? 133) || (c =? 160) || (c =? 5760)
  || in_range 8192 8202 c || (c =? 8232) || (c =? 8233) || (c =? 8239) || (c =? 8287)
  || (c =? 12288).

Fixpoint drop_while {A} (p : A -> bool) (l : list A) : list A :=
  match l with
  | x :: rest => if p x then drop_while p rest else l
  | [] => []
  end.
Definition trim_end_list {A} (p : A -> bool) (l : list A) : list A := rev (drop_while p (rev l)).

(** [str::trim], on the characters *)
Definition trim_chars (cs : list N) : list N := trim_end_list is_whitespace (drop_while is_whitespace cs).

(** ** Splitting *)

(** [str::split_once] and [str::rsplit_once] on an ASCII separator *)
Fixpoint split_once (sep : ascii) (s : string) : option (string * string) :=
  match s with
  | EmptyString => None
  | String a rest =>
      if Ascii.eqb a sep then Some (EmptyString, rest)
      else match split_once sep rest with
           | Some (before, after) => Some (String a before, after)
           | None => None
           end
  end.

Fixpoint rsplit_once (sep : ascii) (s : string) : option (string * string) :=
  match s with
  | EmptyString => None
  | String a rest =>
      match rsplit_once sep rest with
      | Some (before, after) => Some (String a before, after)
      | None => if Ascii.eqb a sep then Some (EmptyString, rest) else None
      end
  end.

(** [str::strip_prefix] *)
Fixpoint strip_prefix (prefix s : string) : option string :=
  match prefix, s with
  | EmptyString, _ => Some s
  | String a prefix, String b s => if Ascii.eqb a b then strip_prefix prefix s else None
  | String _ _, EmptyString => None
  end.

(** [str::split(sep)] *)
Fixpoint split (sep : ascii) (s : string) : list string :=
  match s with
  | EmptyString => [EmptyString]
  | String a rest =>
      if Ascii.eqb a sep then EmptyString :: split sep rest
      else match split sep rest with
           | part :: parts => String a part :: parts
           | [] => [String a EmptyString]
           end
  end.

Definition contains_ascii (a : ascii) (s : string) : bool :=
  existsb (Ascii.eqb a) (list_ascii_of_string s).

Lemma rsplit_once_none sep s :
  contains_ascii sep s = false -> rsplit_once sep s = None.
Proof.
  unfold contains_ascii. induction s as [|a s IH]; cbn; [done|].
  rewrite orb_false_iff, Ascii.eqb_sym. intros [-> Hs]. by rewrite IH.
Qed.

Lemma rsplit_once_app sep before after :
  contains_ascii sep after = false ->
  rsplit_once sep (String.app before (String sep after)) = Some (before, after).
Proof.
  intros Hs. induction before as [|a before IH].
  - rewrite app_empty. cbn. by rewrite rsplit_once_none, Ascii.eqb_refl.
  - rewrite app_cons. cbn. by rewrite IH.
Qed.

Lemma rsplit_once_inv sep s before after :
  rsplit_once sep s = Some (before, after) ->
  s = String.app before (String sep after) /\ contains_ascii sep after = false.
Proof.
  unfold contains_ascii. revert before.
  induction s as [|a s IH]; intros before; cbn; [done|].
  destruct (rsplit_once sep s) as [[b' a']|] eqn:E.
  - intros [= <- <-]. destruct (IH b' eq_refl) as [-> Ha].
    by rewrite app_cons.
  - destruct (Ascii.eqb_spec a sep) as [->|]; [|done]. intros [= <- <-]. cbn. split; [done|].
    clear IH. revert E. induction s as [|c s IH]; cbn; [done|].
    destruct (rsplit_once sep s) as [[]|]; [done|].
    rewrite (Ascii.eqb_sym sep c). destruct (Ascii.eqb c sep); [done|]. intros _. by apply IH.
Qed.

Lemma strip_prefix_app p s : strip_prefix p (String.app p s) = Some s.
Proof.
  induction p as [|a p IH]; [done|]. rewrite app_cons. cbn. by rewrite Ascii.eqb_refl.
Qed.

Lemma strip_prefix_inv p s t : strip_prefix p s = Some t -> s = String.app p t.
Proof.
  revert s. induction p as [|a p IH]; intros s; cbn; [by intros [= ->]|].
  destruct s as [|b s]; [done|]. destruct (Ascii.eqb_spec a b) as [->|]; [|done].
  intros E. rewrite app_cons. f_equal. by apply IH.
Qed.

(** A byte predicate that refuses a byte keeps it out of the string. *)
Lemma forallb_not_contains (p : N -> bool) (sep : ascii) s :
  p (N_of_ascii sep) = false -> forallb p (bytes s) = true -> contains_ascii sep s = false.
Proof.
  unfold contains_ascii, bytes. intros Hsep. induction s as [|a s IH]; cbn; [done|].
  rewrite andb_true_iff, orb_false_iff. intros [Ha Hs]. split; [|by apply IH].
  destruct (Ascii.eqb_spec sep a) as [<-|]; congruence.
Qed.

(** ** Hexadecimal *)

Definition hex_digit (d : N) : ascii := ascii_of_N (if d <? 10 then 48 + d else 87 + d).

(** [{:0w x}]: [w] lowercase digits, most significant first, for a value below [16^w] *)
Fixpoint hex_fixed (w : nat) (n : N) : string :=
  match w with
  | O => EmptyString
  | S w => String (hex_digit ((n / 16 ^ N.of_nat w) mod 16)) (hex_fixed w n)
  end.

(** [char::to_digit(16)] *)
Definition hex_value (b : N) : option N :=
  if is_ascii_digit b then Some (b - 48)
  else if is_a_to_f b then Some (b - 87)
  else if in_range 65 70 b then Some (b - 55)
  else None.

Fixpoint parse_hex (acc : N) (l : list N) : option N :=
  match l with
  | [] => Some acc
  | b :: rest =>
      match hex_value b with
      | Some d => if acc * 16 + d <=? u64_max then parse_hex (acc * 16 + d) rest else None
      | None => None
      end
  end.

(** [u64::from_str_radix(text, 16)]: an optional [+], then at least one digit, no overflow *)
Definition u64_from_str_radix16 (s : string) : option N :=
  match bytes s with
  | [] => None
  | b :: rest =>
      if b =? 43 then match rest with [] => None | _ => parse_hex 0 rest end
      else parse_hex 0 (b :: rest)
  end.

Lemma hex_digit_code d : d < 16 -> N_of_ascii (hex_digit d) = if d <? 10 then 48 + d else 87 + d.
Proof.
  intros Hd. unfold hex_digit. apply N_ascii_embedding.
  destruct (N.ltb_spec d 10); lia.
Qed.

Lemma hex_value_digit d : d < 16 -> hex_value (N_of_ascii (hex_digit d)) = Some d.
Proof.
  intros Hd. rewrite hex_digit_code by done. unfold hex_value, is_ascii_digit, is_a_to_f, in_range.
  destruct (N.ltb_spec d 10).
  - replace ((48 <=? 48 + d) && (48 + d <=? 57)) with true
      by (symmetry; rewrite andb_true_iff, !N.leb_le; lia). f_equal. lia.
  - replace ((48 <=? 87 + d) && (87 + d <=? 57)) with false
      by (symmetry; rewrite andb_false_iff, !N.leb_gt; lia).
    replace ((97 <=? 87 + d) && (87 + d <=? 102)) with true
      by (symmetry; rewrite andb_true_iff, !N.leb_le; lia). f_equal. lia.
Qed.

Lemma hex_digit_lower d : d < 16 ->
  is_ascii_digit (N_of_ascii (hex_digit d)) || is_a_to_f (N_of_ascii (hex_digit d)) = true.
Proof.
  intros Hd. rewrite hex_digit_code by done. unfold is_ascii_digit, is_a_to_f, in_range.
  rewrite orb_true_iff, !andb_true_iff, !N.leb_le.
  destruct (N.ltb_spec d 10); lia.
Qed.

Lemma length_hex_fixed w n : String.length (hex_fixed w n) = w.
Proof. induction w; cbn; auto. Qed.

Lemma hex_fixed_lower w n :
  forallb (fun b => is_ascii_digit b || is_a_to_f b) (bytes (hex_fixed w n)) = true.
Proof.
  induction w as [|w IH]; [done|]. cbn [hex_fixed]. rewrite bytes_cons. cbn [forallb].
  rewrite IH, andb_true_r. apply hex_digit_lower. by apply N.mod_lt.
Qed.

Lemma parse_hex_fixed w acc n :
  acc * 16 ^ N.of_nat w + n mod 16 ^ N.of_nat w <= u64_max ->
  parse_hex acc (bytes (hex_fixed w n)) = Some (acc * 16 ^ N.of_nat w + n mod 16 ^ N.of_nat w).
Proof.
  revert acc. induction w as [|w IH]; intros acc.
  - cbn. rewrite N.mod_1_r. intros _. f_equal. lia.
  - cbn [hex_fixed]. rewrite bytes_cons. cbn [parse_hex].
    rewrite hex_value_digit by (by apply N.mod_lt).
    set (q := 16 ^ N.of_nat w).
    assert (Hq : q <> 0) by (apply N.pow_nonzero; done).
    assert (E : 16 ^ N.of_nat (S w) = q * 16).
    { rewrite Nat2N.inj_succ, N.pow_succ_r'. unfold q. lia. }
    rewrite E.
    assert (Em : n mod (q * 16) = n mod q + q * ((n / q) mod 16)).
    { apply N.Div0.mod_mul_r. }
    rewrite Em. intros Hb.
    assert (Hd : (n / q) mod 16 < 16) by (by apply N.mod_lt).
    assert (Hr : n mod q < q) by (by apply N.mod_lt).
    remember ((n / q) mod 16) as d eqn:Ed. remember (n mod q) as r eqn:Er.
    assert (Hq1 : 1 <= q) by lia.
    assert (Hle : (acc * 16 + d) * q + r <= u64_max) by nia.
    assert (Hacc : acc * 16 + d <= u64_max) by nia.
    apply N.leb_le in Hacc. rewrite Hacc.
    rewrite IH; fold q; rewrite <- Er; [f_equal; lia | done].
Qed.

Lemma u64_from_str_radix16_fixed w n :
  (0 < w)%nat -> n < 16 ^ N.of_nat w -> n <= u64_max ->
  u64_from_str_radix16 (hex_fixed w n) = Some n.
Proof.
  intros Hw Hn Hmax. destruct w as [|w]; [lia|].
  pose proof (parse_hex_fixed (S w) 0 n) as Hp.
  rewrite N.mul_0_l, N.add_0_l, N.mod_small in Hp by done. specialize (Hp Hmax).
  unfold u64_from_str_radix16. cbn [hex_fixed] in *. rewrite bytes_cons in *.
  assert (Hd : (n / 16 ^ N.of_nat w) mod 16 < 16) by (by apply N.mod_lt).
  replace (N_of_ascii (hex_digit ((n / 16 ^ N.of_nat w) mod 16)) =? 43) with false; [done|].
  symmetry. apply N.eqb_neq. rewrite hex_digit_code by done. clear.
  generalize ((n / 16 ^ N.of_nat w) mod 16). intros d. destruct (d <? 10); lia.
Qed.

Lemma hex_digit_value b d :
  is_ascii_digit b || is_a_to_f b = true -> hex_value b = Some d -> d < 16 /\ hex_digit d = ascii_of_N b.
Proof.
  unfold hex_value, is_ascii_digit, is_a_to_f, in_range, hex_digit.
  destruct (N.leb_spec 48 b), (N.leb_spec b 57), (N.leb_spec 97 b), (N.leb_spec b 102); cbn;
    try done; try lia; intros _ [= <-].
  - replace (b - 48 <? 10) with true by (symmetry; apply N.ltb_lt; lia).
    split; [lia|]. f_equal. lia.
  - replace (b - 87 <? 10) with false by (symmetry; apply N.ltb_ge; lia).
    split; [lia|]. f_equal. lia.
Qed.

Lemma parse_hex_inv s acc n :
  forallb (fun b => is_ascii_digit b || is_a_to_f b) (bytes s) = true ->
  parse_hex acc (bytes s) = Some n ->
  hex_fixed (String.length s) n = s /\ n / 16 ^ N.of_nat (String.length s) = acc.
Proof.
  revert acc. induction s as [|a s IH]; intros acc.
  - cbn. intros _ [= ->]. by rewrite N.div_1_r.
  - rewrite bytes_cons. cbn [forallb parse_hex]. rewrite andb_true_iff. intros [Ha Hs].
    destruct (hex_value (N_of_ascii a)) as [d|] eqn:Hd; [|done].
    destruct (acc * 16 + d <=? u64_max); [|done]. intros Hp.
    destruct (IH _ Hs Hp) as [Hh Hq]. clear IH.
    destruct (hex_digit_value _ _ Ha Hd) as [Hlt Hdig]. rewrite ascii_N_embedding in Hdig.
    cbn [String.length hex_fixed].
    set (q := 16 ^ N.of_nat (String.length s)) in *.
    assert (Hq0 : q <> 0) by (apply N.pow_nonzero; done).
    assert (E : 16 ^ N.of_nat (S (String.length s)) = q * 16).
    { rewrite Nat2N.inj_succ, N.pow_succ_r'. unfold q. lia. }
    rewrite E, <- N.Div0.div_div, Hq, Hh.
    replace (acc * 16 + d) with (d + acc * 16) by lia.
    rewrite N.Div0.mod_add, N.mod_small, N.div_add, (N.div_small d 16) by (done || lia).
    by rewrite Hdig.
Qed.

Lemma u64_from_str_radix16_inv s n :
  forallb (fun b => is_ascii_digit b || is_a_to_f b) (bytes s) = true ->
  u64_from_str_radix16 s = Some n -> hex_fixed (String.length s) n = s.
Proof.
  intros Hs. unfold u64_from_str_radix16. destruct (bytes s) as [|b rest] eqn:Hb; [done|].
  destruct (N.eqb_spec b 43) as [->|_]; [done|]. rewrite <- Hb in *.
  intros Hp. by destruct (parse_hex_inv _ _ _ Hs Hp).
Qed.

#[global] Arguments hex_fixed : simpl never.

(** ** [validated_string!]: a newtype over [String] whose values passed a check *)

Record Validated {E : Type} (check : string -> result unit E) := mkValidated {
  as_str : string;
  as_str_ok : Is_true (is_ok (check as_str))
}.
Arguments mkValidated {E check} _ _.
Arguments as_str {E check} _.
Arguments as_str_ok {E check} _.

Lemma is_ok_of {T E} (r : result T E) t : r = Ok t -> Is_true (is_ok r).
Proof. intros ->. exact I. Defined.

Definition Validated_of {E} {check : string -> result unit E} (value : string)
    (r : result unit E) : check value = r -> result (Validated check) E :=
  match r with
  | Ok u => fun H => Ok (mkValidated value (is_ok_of _ u H))
  | Err e => fun _ => Err e
  end.

(** [TryFrom<String>] of the macro *)
Definition Validated_try_from {E} (check : string -> result unit E) (value : string) :
  result (Validated check) E := Validated_of value (check value) eq_refl.

Section validated.
Context {E : Type} {check : string -> result unit E}.
Implicit Types v : Validated check.

Lemma as_str_inj v w : as_str v = as_str w -> v = w.
Proof. destruct v as [s Hs], w as [t Ht]; cbn. intros ->. f_equal. apply proof_irrel. Qed.

#[export] Instance Validated_eq_dec : EqDecision (Validated check) := inj_eq_dec as_str as_str_inj.
#[export] Instance Validated_Ord : Ord (Validated check) := fun v w => cmp (as_str v) (as_str w).
#[export] Instance Validated_OrdLaws : OrdLaws (Validated check) := OrdLaws_inj as_str as_str_inj.

Lemma Validated_of_ok value r (H : check value = r) v :
  Validated_of value r H = Ok v <-> as_str v = value.
Proof.
  destruct r as [u|e]; cbn; split.
  - by intros [= <-].
  - intros <-. f_equal. by apply as_str_inj.
  - done.
  - intros <-. pose proof (as_str_ok v) as Hv. by rewrite H in Hv.
Qed.

Lemma Validated_try_from_ok value v :
  Validated_try_from check value = Ok v <-> as_str v = value.
Proof. apply Validated_of_ok. Qed.

Lemma Validated_of_err value r (H : check value = r) e :
  Validated_of value r H = Err e <-> r = Err e.
Proof. destruct r; cbn; split; congruence. Qed.

Lemma Validated_try_from_err value e :
  Validated_try_from check value = Err e <-> check value = Err e.
Proof. apply Validated_of_err. Qed.

Lemma Validated_try_from_total value :
  is_ok (Validated_try_from check value) = is_ok (check value).
Proof.
  destruct (Validated_try_from check value) as [v|e] eqn:Ev.
  - apply Validated_try_from_ok in Ev as <-. symmetry. apply Is_true_true, as_str_ok.
  - apply Validated_try_from_err in Ev. by rewrite Ev.
Qed.

Lemma as_str_check v : is_ok (check (as_str v)) = true.
Proof. apply Is_true_true, as_str_ok. Qed.

Definition Validated_decode (s : string) : option (Validated check) :=
  match Validated_try_from check s with Ok v => Some v | Err _ => None end.

Lemma Validated_decode_as_str v : Validated_decode (as_str v) = Some v.
Proof.
  unfold Validated_decode. destruct (Validated_try_from check (as_str v)) as [w|e] eqn:Ev.
  - apply Validated_try_from_ok in Ev. f_equal. by apply as_str_inj.
  - apply Validated_try_from_err in Ev. pose proof (as_str_check v) as H. by rewrite Ev in H.
Qed.

#[export] Instance Validated_countable : Countable (Validated check).
Proof. exact (inj_countable as_str Validated_decode Validated_decode_as_str). Defined.

End validated.

(** ** [str::contains] of a text, and the text after a prefix *)

Definition starts_with (prefix s : string) : bool :=
  match strip_prefix prefix s with Some _ => true | None => false end.

Fixpoint str_contains (needle s : string) : bool :=
  starts_with needle s
  || match s with EmptyString => false | String _ rest => str_contains needle rest end.
