(* ===== verification/RustText.v ===== *)
(** Text as bytes: UTF-8, decoded and encoded as std does, which byte sequences are valid, and that encoding and
    decoding are inverse; then numbers as text: formatting, [str::parse] and trimming of decimal numbers. *)

From Stdlib Require Import NArith ZArith Lia String Ascii.
From stdpp Require Import base gmap list strings pretty.
From S2P Require Import Prelude RustStr.

(** [lia] with division and remainder by constants. *)
Ltac dlia := zify; Z.to_euclidean_division_equations; lia.

Lemma encode_char_bytes c : is_scalar c = true -> Forall (fun b => b < 256) (encode_char c).
Proof.
  unfold is_scalar. rewrite orb_true_iff, andb_true_iff, !N.ltb_lt. intros Hc. unfold encode_char.
  destruct (N.ltb_spec c 128); [|destruct (N.ltb_spec c 2048); [|destruct (N.ltb_spec c 65536)]];
    repeat (constructor; [dlia|]); constructor.
Qed.

Lemma in_range_true lo hi x : lo <= x <= hi -> in_range lo hi x = true.
Proof. apply in_range_spec. Qed.
Lemma in_range_false lo hi x : x < lo \/ hi < x -> in_range lo hi x = false.
Proof. intros H. apply not_true_is_false. rewrite in_range_spec. lia. Qed.

Lemma next_char_encode c l : is_scalar c = true -> next_char (encode_char c ++ l) = Some (c, l).
Proof.
  intros Hs. pose proof Hs as Hc. unfold is_scalar in Hc.
  rewrite orb_true_iff, andb_true_iff, !N.ltb_lt in Hc. unfold encode_char.
  destruct (N.ltb_spec c 128) as [H1|H1].
  { cbn. by rewrite (proj2 (N.ltb_lt _ _) H1). }
  destruct (N.ltb_spec c 2048) as [H2|H2].
  { cbn [app next_char]. rewrite (proj2 (N.ltb_ge _ _)) by dlia. unfold continuation.
    rewrite !in_range_true by dlia. cbn [andb]. do 2 f_equal. dlia. }
  destruct (N.ltb_spec c 65536) as [H3|H3].
  { cbn [app next_char]. rewrite (proj2 (N.ltb_ge _ _)) by dlia. unfold continuation.
    rewrite (in_range_false 194) by dlia. cbn [andb]. rewrite !in_range_true by dlia. cbn [andb].
    match goal with |- context [is_scalar ?x] => replace x with c by dlia end.
    rewrite Hs, (proj2 (N.leb_le 2048 c)) by dlia. done. }
  cbn [app next_char]. rewrite (proj2 (N.ltb_ge _ _)) by dlia. unfold continuation.
  rewrite (in_range_false 194), (in_range_false 224) by dlia. cbn [andb].
  rewrite !in_range_true by dlia. cbn [andb].
  match goal with |- context [(65536 <=? ?x) && _] => replace x with c by dlia end.
  rewrite Hs, (proj2 (N.leb_le 65536 c)) by dlia. done.
Qed.

Lemma encode_char_cons c : exists b r, encode_char c = b :: r.
Proof. unfold encode_char. repeat case_match; eauto. Qed.

Lemma decode_fuel_encode cs fuel :
  forallb is_scalar cs = true -> (length (concat (map encode_char cs)) <= fuel)%nat ->
  decode_fuel fuel (concat (map encode_char cs)) = map Some cs.
Proof.
  revert fuel. induction cs as [|c cs IH]; intros fuel; [by destruct fuel|]. cbn [forallb map concat].
  rewrite andb_true_iff, length_app. intros [Hc Hcs] Hf.
  pose proof (next_char_encode c (concat (map encode_char cs)) Hc) as Hn.
  destruct (encode_char_cons c) as (b & r & Hb). rewrite Hb in *. cbn [length] in Hf.
  destruct fuel as [|fuel]; [lia|]. cbn [app decode_fuel] in *. rewrite Hn. f_equal. apply IH; [done|].
  lia.
Qed.

Lemma encoded_bytes cs :
  forallb is_scalar cs = true -> Forall (fun b => b < 256) (concat (map encode_char cs)).
Proof.
  induction cs as [|c cs IH]; cbn; [constructor|]. rewrite andb_true_iff. intros [Hc Hcs].
  apply Forall_app. split; [by apply encode_char_bytes|by apply IH].
Qed.

Lemma chars_of_chars cs : forallb is_scalar cs = true -> chars (of_chars cs) = cs.
Proof.
  intros Hcs. unfold chars, of_chars, decode.
  rewrite bytes_of_bytes, decode_fuel_encode by (done || by apply encoded_bytes).
  rewrite map_map. apply map_id.
Qed.

Lemma utf8_valid_of_chars cs : forallb is_scalar cs = true -> utf8_valid (bytes (of_chars cs)) = true.
Proof.
  intros Hcs. unfold utf8_valid, of_chars, decode.
  rewrite bytes_of_bytes, decode_fuel_encode by (done || by apply encoded_bytes).
  clear Hcs. by induction cs.
Qed.

Lemma next_char_scalar l c rest : next_char l = Some (c, rest) -> is_scalar c = true.
Proof.
  unfold next_char. destruct l as [|b0 r0]; [done|].
  destruct (N.ltb_spec b0 128) as [H|H].
  { intros [= <- <-]. unfold is_scalar. by rewrite (proj2 (N.ltb_lt _ _)) by lia. }
  destruct r0 as [|b1 r1]; [done|]. unfold continuation.
  destruct (in_range 194 223 b0 && in_range 128 191 b1) eqn:E2.
  { apply andb_true_iff in E2 as [E0 E1]. apply in_range_spec in E0, E1. intros [= <- <-].
    unfold is_scalar. by rewrite (proj2 (N.ltb_lt _ 55296)) by lia. }
  destruct r1 as [|b2 r2]; [done|].
  match goal with |- context [if ?b then Some (?x, r2) else _] => destruct b eqn:E3 end.
  { apply andb_true_iff in E3 as [_ E3]. by intros [= <- <-]. }
  destruct r2 as [|b3 r3]; [done|].
  match goal with |- context [if ?b then Some (?x, r3) else _] => destruct b eqn:E4 end; [|done].
  apply andb_true_iff in E4 as [_ E4]. by intros [= <- <-].
Qed.

Lemma chars_scalar s : forallb is_scalar (chars s) = true.
Proof.
  unfold chars, decode. generalize (length (bytes s)) at 1. intros fuel.
  generalize (bytes s). induction fuel as [|fuel IH]; intros l; [done|].
  cbn [decode_fuel]. destruct l as [|b rest]; [done|].
  destruct (next_char (b :: rest)) as [[c rest']|] eqn:E; cbn [map forallb]; rewrite IH, andb_true_r.
  - by eapply next_char_scalar.
  - done.
Qed.

(** ** Definitions *)

(** The bytes that may follow the first byte of a character of three or four bytes. *)
Definition second_of_three (b0 b1 : N) : bool :=
  if b0 =? 224 then in_range 160 191 b1
  else if b0 =? 237 then in_range 128 159 b1
  else in_range 225 239 b0 && continuation b1.
Definition second_of_four (b0 b1 : N) : bool :=
  if b0 =? 240 then in_range 144 191 b1
  else if b0 =? 244 then in_range 128 143 b1
  else in_range 241 243 b0 && continuation b1.

(** The bytes of the next character, or of the longest start of one, and whether it is whole. *)
Definition next_chunk (b0 : N) (rest : list N) : nat * bool :=
  if b0 <? 128 then (0%nat, true) else
  match rest with
  | [] => (0%nat, false)
  | b1 :: rest =>
      if in_range 194 223 b0 then if continuation b1 then (1%nat, true) else (0%nat, false) else
      let three := second_of_three b0 b1 in
      let four := second_of_four b0 b1 in
      if negb (three || four) then (0%nat, false) else
      match rest with
      | [] => (1%nat, false)
      | b2 :: rest =>
          if negb (continuation b2) then (1%nat, false) else
          if three then (2%nat, true) else
          match rest with
          | [] => (2%nat, false)
          | b3 :: _ => if continuation b3 then (3%nat, true) else (2%nat, false)
          end
      end
  end.

(** Each longest start of a character that is not one becomes one U+FFFD. *)
Fixpoint lossy_fuel (fuel : nat) (l : list N) : list N :=
  match fuel, l with
  | S fuel, b0 :: rest =>
      let '(more, whole) := next_chunk b0 rest in
      (if whole then b0 :: take more rest else encode_char replacement) ++ lossy_fuel fuel (drop more rest)
  | _, _ => []
  end.
(** A chunk has at least one byte, so the byte count is fuel enough. *)
Definition from_utf8_lossy (l : list N) : list N := lossy_fuel (length l) l.

(** [text.replace("\r\n", "\n")] *)
Fixpoint replace_crlf (l : list N) : list N :=
  match l with
  | 13 :: ((10 :: _) as rest) => replace_crlf rest
  | b :: rest => b :: replace_crlf rest
  | [] => []
  end.

(** [str::parse::<u64>]: an optional plus sign and decimal digits, within the type. *)
Fixpoint parse_decimal (value : N) (digits : list N) : option N :=
  match digits with
  | [] => Some value
  | b :: digits =>
      if negb (is_ascii_digit b) then None else
      let value := value * 10 + (b - 48) in
      if value <=? u64_max then parse_decimal value digits else None
  end.
Definition u64_from_str (text : list N) : option N :=
  match text with
  | [] => None
  | sign :: digits =>
      if sign =? 43 then match digits with [] => None | _ => parse_decimal 0 digits end
      else parse_decimal 0 (sign :: digits)
  end.

(** [u64::to_string], as bytes *)
Definition u64_to_string (n : N) : list N := bytes (pretty n).

(** [std::str::from_utf8(bytes)?.trim().parse()] *)
Definition number_of_bytes (content : list N) : option N :=
  if utf8_valid content
  then u64_from_str (bytes (of_chars (trim_chars (chars (of_bytes content)))))
  else None.

(** ** Lemmas *)

Lemma lossy_fuel_length fuel l : (length (lossy_fuel fuel l) <= 3 * length l)%nat.
Proof.
  revert l. induction fuel as [|fuel IH]; intros [|b0 rest]; cbn [lossy_fuel length]; try lia.
  destruct (next_chunk b0 rest) as [more whole]. rewrite length_app.
  specialize (IH (drop more rest)). rewrite length_drop in IH.
  destruct whole; cbn [length]; [rewrite length_take|change (length (encode_char replacement)) with 3%nat]; lia.
Qed.

Lemma from_utf8_lossy_length l : (length (from_utf8_lossy l) <= 3 * length l)%nat.
Proof. apply lossy_fuel_length. Qed.

Lemma replace_crlf_length l : (length (replace_crlf l) <= length l)%nat.
Proof.
  induction l as [|b l IH]; [done|]. cbn [replace_crlf length].
  repeat (case_match; cbn [length] in *; subst; try lia).
Qed.

Lemma parse_decimal_app d1 d2 v :
  parse_decimal v (d1 ++ d2) = (parse_decimal v d1 ≫= fun v => parse_decimal v d2).
Proof.
  revert v. induction d1 as [|b d1 IH]; intros v; cbn [parse_decimal app]; [done|].
  destruct (negb _); [done|]. destruct (_ <=? _); [apply IH|done].
Qed.

(** The digits of a number, most significant first. *)
Lemma decimal_digits n : 0 < n -> exists ds : list N,
  Forall (fun b => is_ascii_digit b = true) ds /\ ds <> [] /\
  (forall s, bytes (pretty_N_go n s) = ds ++ bytes s) /\ (n <= u64_max -> parse_decimal 0 ds = Some n).
Proof.
  induction (N.lt_wf_0 n) as [n _ IH]. intros Hn.
  assert (Hdig : forall d, d < 10 -> bytes (String (pretty_N_char d) "") = [48 + d]).
  { intros d Hd. assert (Hc : d = 0 \/ d = 1 \/ d = 2 \/ d = 3 \/ d = 4 \/ d = 5 \/ d = 6 \/ d = 7 \/ d = 8 \/ d = 9) by lia.
    by repeat destruct Hc as [-> | Hc]; [..|subst d]. }
  assert (Hgo : forall s, pretty_N_go n s = pretty_N_go (n / 10) (String (pretty_N_char (n mod 10)) s))
    by (intros s; by rewrite pretty_N_go_step).
  assert (Hmod : n mod 10 < 10) by (apply N.mod_lt; lia).
  pose proof (N.div_mod n 10 ltac:(lia)) as Hdiv. set (m := n mod 10) in *. set (k := n / 10) in *. clearbody m k.
  assert (Hb : forall s, bytes (String (pretty_N_char m) s) = [48 + m] ++ bytes s).
  { intros s. rewrite <- (Hdig _ Hmod). done. }
  assert (Hone : is_ascii_digit (48 + m) = true) by (apply in_range_spec; lia).
  destruct (N.eq_dec k 0) as [Hz|Hz].
  - exists [48 + m]. split; [by constructor|]. split; [done|]. split.
    + intros s. rewrite Hgo, Hz, pretty_N_go_0. apply Hb.
    + intros Hle. cbn [parse_decimal]. rewrite Hone. cbn [negb].
      rewrite (proj2 (N.leb_le _ _)) by (unfold u64_max in *; lia).
      f_equal. lia.
  - assert (Hlt : k < n) by lia.
    destruct (IH k Hlt ltac:(lia)) as (ds & Hds & Hne & Hby & Hp).
    exists (ds ++ [48 + m]). split; [apply Forall_app; split; [done|by constructor]|].
    split; [by destruct ds|]. split.
    + intros s. rewrite Hgo, Hby, Hb. by rewrite <- app_assoc.
    + intros Hle.
      rewrite parse_decimal_app, Hp by lia. cbn [mbind option_bind parse_decimal]. rewrite Hone. cbn [negb].
      rewrite (proj2 (N.leb_le _ _)) by lia. f_equal. lia.
Qed.

Lemma u64_text n : n <= u64_max ->
  Forall (fun b => is_ascii_digit b = true) (u64_to_string n) /\ u64_to_string n <> [] /\
  parse_decimal 0 (u64_to_string n) = Some n.
Proof.
  intros Hle. unfold u64_to_string, pretty, pretty_N. case_decide as Hz.
  { subst n. by repeat constructor. }
  destruct (decimal_digits n ltac:(lia)) as (ds & Hds & Hne & Hby & Hp). rewrite Hby.
  change (bytes "") with (@nil N). rewrite app_nil_r. auto.
Qed.

Lemma decode_digits l : Forall (fun b => is_ascii_digit b = true) l -> decode l = map Some l.
Proof.
  unfold decode. induction 1 as [|b l Hb _ IH]; [done|]. cbn [length decode_fuel next_char map].
  apply in_range_spec in Hb. rewrite (proj2 (N.ltb_lt b 128)) by lia. by rewrite IH.
Qed.

(** A number that was written is read back. *)
Lemma number_read_back n : n <= u64_max -> number_of_bytes (u64_to_string n) = Some n.
Proof.
  intros Hle. destruct (u64_text n Hle) as (Hd & Hne & Hp). unfold number_of_bytes.
  set (l := u64_to_string n) in *.
  assert (Hvalid : utf8_valid l = true).
  { unfold utf8_valid. rewrite decode_digits by done. clear. by induction l. }
  rewrite Hvalid.
  assert (Hsmall : Forall (fun b => b < 256) l).
  { eapply Forall_impl; [exact Hd|]. intros b Hb. apply in_range_spec in Hb. lia. }
  assert (Hbytes : bytes (of_bytes l) = l) by (by apply bytes_of_bytes).
  assert (Hchars : chars (of_bytes l) = l).
  { unfold chars. rewrite Hbytes, decode_digits by done. rewrite map_map. apply map_id. }
  rewrite Hchars.
  assert (Hnw : forall k, Forall (fun b => is_ascii_digit b = true) k -> drop_while is_whitespace k = k).
  { intros [|b k]; [done|]. intros [Hb _]%Forall_cons. cbn [drop_while]. apply in_range_spec in Hb.
    assert (is_whitespace b = false) as ->; [|done]. unfold is_whitespace, in_range.
    repeat (rewrite orb_false_iff; split); try (apply N.eqb_neq; lia);
      apply andb_false_iff; rewrite !N.leb_gt; lia. }
  unfold trim_chars, trim_end_list. rewrite (Hnw l) by done. rewrite (Hnw (rev l)) by (by apply List.Forall_rev).
  rewrite rev_involutive.
  assert (Hchars_of : of_chars l = of_bytes l).
  { unfold of_chars. f_equal. clear -Hd. induction Hd as [|b l Hb _ IH]; [done|]. cbn [map concat].
    rewrite IH. apply in_range_spec in Hb. unfold encode_char.
    rewrite (proj2 (N.ltb_lt b 128)) by lia. done. }
  rewrite Hchars_of, Hbytes. unfold u64_from_str. destruct l as [|b k]; [done|].
  apply Forall_cons in Hd as [Hb _]. apply in_range_spec in Hb.
  by rewrite (proj2 (N.eqb_neq b 43)) by lia.
Qed.
