(* ===== verification/Ids.v ===== *)
(** chat/id.rs: machine identities, agent and event identifiers, conversations, bounded texts
    and audiences, with their validation, their textual form and their order. *)

From Stdlib Require Import NArith Lia String Ascii Sorted.
From stdpp Require Import base gmap list strings.
From S2P Require Import Prelude SortedLists RustStr.

(** ** Definitions *)

Record Invalid := mkInvalid { Invalid_what : string }.
#[export] Instance Invalid_eq_dec : EqDecision Invalid.
Proof. solve_decision. Defined.

Definition lower_hex (text : string) (length : N) : bool :=
  (str_len text =? length)
  && forallb (fun byte => is_ascii_digit byte || is_a_to_f byte) (bytes text).

Definition check (valid : bool) (what : string) : result unit Invalid :=
  if valid then Ok tt else Err (mkInvalid what).

Definition Origin_check (text : string) : result unit Invalid :=
  check (lower_hex text 32) "machine identity".
Abbreviation Origin := (Validated Origin_check).
Definition Origin_try_from (value : string) : result Origin Invalid :=
  Validated_try_from Origin_check value.

Lemma lower_hex_fixed w n : lower_hex (hex_fixed w n) (N.of_nat w) = true.
Proof.
  unfold lower_hex, str_len. by rewrite length_hex_fixed, N.eqb_refl, hex_fixed_lower.
Qed.

Lemma Origin_check_hex n : Is_true (is_ok (Origin_check (hex_fixed 32 n))).
Proof. unfold Origin_check. change 32 with (N.of_nat 32). by rewrite lower_hex_fixed. Qed.

(** [format!("{:032x}", u128::from_be_bytes(bytes))] *)
Definition Origin_from_entropy (entropy : list N) : Origin :=
  mkValidated (hex_fixed 32 (from_be_bytes entropy)) (Origin_check_hex _).

Definition lower (byte : N) : bool := is_ascii_lowercase byte || is_ascii_digit byte.

Definition valid_handle (text : string) : bool :=
  in_range 1 64 (str_len text)
  && match bytes text with first :: _ => lower first | [] => false end
  && forallb (fun byte => lower byte || one_of ".-_" byte) (bytes text).

Definition AgentName_check (text : string) : result unit Invalid :=
  check (valid_handle text) "agent name".
Abbreviation AgentName := (Validated AgentName_check).
Definition AgentName_try_from (value : string) : result AgentName Invalid :=
  Validated_try_from AgentName_check value.

Definition RoomName_check (text : string) : result unit Invalid :=
  check (valid_handle text) "room name".
Abbreviation RoomName := (Validated RoomName_check).
Definition RoomName_try_from (value : string) : result RoomName Invalid :=
  Validated_try_from RoomName_check value.

Definition split_pair {A B} (try_a : string -> result A Invalid) (try_b : string -> result B Invalid)
    (text : string) (separator : ascii) (what : string) : result (A * B) Invalid :=
  let? (first, second) := ok_or (rsplit_once separator text) (mkInvalid what) in
  let? a := try_a first in
  let? b := try_b second in
  Ok (a, b).

Record AgentId := AgentId_new { AgentId_name : AgentName; AgentId_origin : Origin }.

Definition AgentId_try_from (text : string) : result AgentId Invalid :=
  let? (name, origin) := split_pair AgentName_try_from Origin_try_from text "@" "agent address" in
  Ok (AgentId_new name origin).

Definition AgentId_fmt (value : AgentId) : string :=
  String.app (as_str (AgentId_name value)) (String "@" (as_str (AgentId_origin value))).

Record EventId := EventId_new { EventId_origin : Origin; EventId_seq : NonZeroU64 }.

Definition EventId_try_from (text : string) : result EventId Invalid :=
  let? (origin, sequence) := ok_or (rsplit_once ":" text) (mkInvalid "event ID") in
  if negb (lower_hex sequence 16) then Err (mkInvalid "event ID") else
  let? seq := ok_or (match u64_from_str_radix16 sequence with
                     | Some value => NonZeroU64_new value
                     | None => None
                     end) (mkInvalid "event ID") in
  let? origin := Origin_try_from origin in
  Ok (EventId_new origin seq).

(** [write!(formatter, "{}:{:016x}", self.origin, self.seq)] *)
Definition EventId_fmt (value : EventId) : string :=
  String.app (as_str (EventId_origin value))
    (String ":" (hex_fixed 16 (nz_get (EventId_seq value)))).

Record RoomId := RoomId_new { RoomId_origin : Origin; RoomId_name : RoomName }.

Definition RoomId_fmt (value : RoomId) : string :=
  String.app "room:"
    (String.app (as_str (RoomId_origin value)) (String ":" (as_str (RoomId_name value)))).

(** Derived equality and order: field by field. *)
Definition AgentId_fields (a : AgentId) : AgentName * Origin := (AgentId_name a, AgentId_origin a).
Definition EventId_fields (e : EventId) : Origin * NonZeroU64 := (EventId_origin e, EventId_seq e).
Definition RoomId_fields (r : RoomId) : Origin * RoomName := (RoomId_origin r, RoomId_name r).

Lemma AgentId_fields_inj a b : AgentId_fields a = AgentId_fields b -> a = b.
Proof. destruct a, b; cbn. by intros [= -> ->]. Qed.
Lemma EventId_fields_inj a b : EventId_fields a = EventId_fields b -> a = b.
Proof. destruct a, b; cbn. by intros [= -> ->]. Qed.
Lemma RoomId_fields_inj a b : RoomId_fields a = RoomId_fields b -> a = b.
Proof. destruct a, b; cbn. by intros [= -> ->]. Qed.

#[export] Instance AgentId_eq_dec : EqDecision AgentId := inj_eq_dec _ AgentId_fields_inj.
#[export] Instance EventId_eq_dec : EqDecision EventId := inj_eq_dec _ EventId_fields_inj.
#[export] Instance RoomId_eq_dec : EqDecision RoomId := inj_eq_dec _ RoomId_fields_inj.

#[export] Instance AgentId_countable : Countable AgentId.
Proof.
  by refine (inj_countable' AgentId_fields (fun p => AgentId_new p.1 p.2) _); intros [].
Defined.
#[export] Instance EventId_countable : Countable EventId.
Proof.
  by refine (inj_countable' EventId_fields (fun p => EventId_new p.1 p.2) _); intros [].
Defined.
#[export] Instance RoomId_countable : Countable RoomId.
Proof.
  by refine (inj_countable' RoomId_fields (fun p => RoomId_new p.1 p.2) _); intros [].
Defined.

#[export] Instance AgentId_Ord : Ord AgentId := fun a b => cmp (AgentId_fields a) (AgentId_fields b).
#[export] Instance AgentId_OrdLaws : OrdLaws AgentId := OrdLaws_inj _ AgentId_fields_inj.
#[export] Instance EventId_Ord : Ord EventId := fun a b => cmp (EventId_fields a) (EventId_fields b).
#[export] Instance EventId_OrdLaws : OrdLaws EventId := OrdLaws_inj _ EventId_fields_inj.

(** The private fields are only ever set in increasing order. *)
Record DirectPair := mkDirectPair {
  DirectPair_first : AgentId;
  DirectPair_second : AgentId;
  DirectPair_ok : Is_true (cmp_ltb DirectPair_first DirectPair_second)
}.

Definition DirectPair_between (one other : AgentId) : result DirectPair Invalid :=
  match decide (Is_true (cmp_ltb one other)) with
  | left H => Ok (mkDirectPair one other H)
  | right _ =>
      match decide (Is_true (cmp_ltb other one)) with
      | left H => Ok (mkDirectPair other one H)
      | right _ => Err (mkInvalid "direct conversation")
      end
  end.

Definition DirectPair_includes (pair : DirectPair) (agent : AgentId) : bool :=
  bool_decide (DirectPair_first pair = agent) || bool_decide (DirectPair_second pair = agent).

Definition DirectPair_other (pair : DirectPair) (agent : AgentId) : option AgentId :=
  if decide (DirectPair_first pair = agent) then Some (DirectPair_second pair)
  else if decide (DirectPair_second pair = agent) then Some (DirectPair_first pair)
  else None.

Definition DirectPair_agents (pair : DirectPair) : AgentId * AgentId :=
  (DirectPair_first pair, DirectPair_second pair).

Inductive Conversation :=
| Conversation_Direct (agents : DirectPair)
| Conversation_Room (room : RoomId).

Lemma DirectPair_agents_inj p q : DirectPair_agents p = DirectPair_agents q -> p = q.
Proof. destruct p, q; cbn. intros [= -> ->]. f_equal. apply proof_irrel. Qed.
#[export] Instance DirectPair_eq_dec : EqDecision DirectPair := inj_eq_dec _ DirectPair_agents_inj.
#[export] Instance Conversation_eq_dec : EqDecision Conversation.
Proof. solve_decision. Defined.

Definition Conversation_direct (one other : AgentId) : result Conversation Invalid :=
  map_ok Conversation_Direct (DirectPair_between one other).

Definition Conversation_admits_author (conversation : Conversation) (agent : AgentId) : bool :=
  match conversation with
  | Conversation_Direct agents => DirectPair_includes agents agent
  | Conversation_Room _ => true
  end.

Definition Conversation_try_from (text : string) : result Conversation Invalid :=
  match strip_prefix "dm:" text with
  | Some agents =>
      let? (first, second) :=
        split_pair AgentId_try_from AgentId_try_from agents "," "conversation" in
      let? direct := DirectPair_between first second in
      if decide (DirectPair_first direct = first) then Ok (Conversation_Direct direct)
      else Err (mkInvalid "conversation")
  | None =>
      let? room := ok_or (strip_prefix "room:" text) (mkInvalid "conversation") in
      let? (origin, name) := split_pair Origin_try_from RoomName_try_from room ":" "conversation" in
      Ok (Conversation_Room (RoomId_new origin name))
  end.

Definition Conversation_fmt (value : Conversation) : string :=
  match value with
  | Conversation_Direct agents =>
      String.app "dm:" (String.app (AgentId_fmt (DirectPair_first agents))
                          (String "," (AgentId_fmt (DirectPair_second agents))))
  | Conversation_Room room => RoomId_fmt room
  end.

(** [text.trim() == text] compares the texts; [chars] determines a text of valid UTF-8. *)
Definition valid_text (text : string) (max : N) (multiline : bool) : bool :=
  negb (str_len text =? 0)
  && (str_len text <=? max)
  && bool_decide (trim_chars (chars text) = chars text)
  && negb (existsb (fun character => is_control character && negb (multiline && (character =? 10)))
             (chars text)).

Definition Line_check (max : N) (text : string) : result unit Invalid :=
  if valid_text text max false then Ok tt else Err (mkInvalid "single-line text").
Abbreviation Line max := (Validated (Line_check max)).
Definition Line_try_from (max : N) (text : string) : result (Line max) Invalid :=
  Validated_try_from (Line_check max) text.

Definition Paragraph_check (max : N) (text : string) : result unit Invalid :=
  if valid_text text max true then Ok tt else Err (mkInvalid "paragraph").
Abbreviation Paragraph max := (Validated (Paragraph_check max)).
Definition Paragraph_try_from (max : N) (text : string) : result (Paragraph max) Invalid :=
  Validated_try_from (Paragraph_check max) text.

Definition MAX_TEXT : N := 64 * 1024.

Definition Text_check (text : string) : result unit Invalid :=
  check ((str_len text <=? MAX_TEXT)
         && negb (bool_decide (trim_chars (chars text) = []))
         && negb (existsb (N.eqb 0) (chars text)))
        "message text".
Abbreviation Text := (Validated Text_check).
Definition Text_try_from (value : string) : result Text Invalid :=
  Validated_try_from Text_check value.

Definition MAX_AUDIENCE : N := 64.

Definition audience_valid (members : list Origin) : bool :=
  negb ((N.of_nat (length members) =? 0)
        || (MAX_AUDIENCE <? N.of_nat (length members))
        || any_window2 (fun first second => negb (cmp_ltb first second)) members).

Record Audience := mkAudience {
  Audience_members : list Origin;
  Audience_ok : Is_true (audience_valid Audience_members)
}.

Definition Audience_try_from (members : list Origin) : result Audience Invalid :=
  match decide (Is_true (audience_valid members)) with
  | left H => Ok (mkAudience members H)
  | right _ => Err (mkInvalid "audience")
  end.

(** [TryFrom<BTreeSet<Origin>>]: the set is the increasing list its iteration yields. *)
Definition Audience_try_from_set (members : list Origin) : result Audience Invalid :=
  Audience_try_from members.

Definition Audience_includes (audience : Audience) (origin : Origin) : bool :=
  binary_search (Audience_members audience) origin.

Lemma Audience_members_inj a b : Audience_members a = Audience_members b -> a = b.
Proof. destruct a, b; cbn. intros ->. f_equal. apply proof_irrel. Qed.
#[export] Instance Audience_eq_dec : EqDecision Audience := inj_eq_dec _ Audience_members_inj.

(** ** Texts without separators *)

Lemma check_ok valid what : is_ok (check valid what) = valid.
Proof. by destruct valid. Qed.

Lemma lower_hex_not_contains sep text length :
  is_ascii_digit (byte_of sep) || is_a_to_f (byte_of sep) = false ->
  lower_hex text length = true -> contains_ascii sep text = false.
Proof.
  unfold lower_hex. intros Hsep. rewrite andb_true_iff. intros [_ Hf].
  eapply forallb_not_contains; [|exact Hf]. exact Hsep.
Qed.

Lemma Origin_lower_hex (o : Origin) : lower_hex (as_str o) 32 = true.
Proof. pose proof (as_str_check o) as H. unfold Origin_check in H. by rewrite check_ok in H. Qed.

Lemma Origin_not_contains (sep : ascii) (o : Origin) :
  is_ascii_digit (byte_of sep) || is_a_to_f (byte_of sep) = false ->
  contains_ascii sep (as_str o) = false.
Proof. intros Hsep. eapply lower_hex_not_contains; [done|]. apply Origin_lower_hex. Qed.

Lemma RoomName_handle (n : RoomName) : valid_handle (as_str n) = true.
Proof. pose proof (as_str_check n) as H. unfold RoomName_check in H. by rewrite check_ok in H. Qed.

Lemma AgentName_handle (n : AgentName) : valid_handle (as_str n) = true.
Proof. pose proof (as_str_check n) as H. unfold AgentName_check in H. by rewrite check_ok in H. Qed.

Lemma valid_handle_not_contains (sep : ascii) text :
  lower (byte_of sep) || one_of ".-_" (byte_of sep) = false ->
  valid_handle text = true -> contains_ascii sep text = false.
Proof.
  unfold valid_handle. intros Hsep. rewrite !andb_true_iff. intros [_ Hf].
  eapply forallb_not_contains; [|exact Hf]. exact Hsep.
Qed.

Lemma RoomName_not_contains (sep : ascii) (n : RoomName) :
  lower (byte_of sep) || one_of ".-_" (byte_of sep) = false ->
  contains_ascii sep (as_str n) = false.
Proof. intros Hsep. eapply valid_handle_not_contains; [done|]. apply RoomName_handle. Qed.

Lemma contains_ascii_app sep s t :
  contains_ascii sep (String.app s t) = contains_ascii sep s || contains_ascii sep t.
Proof.
  unfold contains_ascii. induction s as [|a s IH]; [done|].
  rewrite app_cons. cbn. by rewrite IH, orb_assoc.
Qed.

(** ** [split_pair] inverts joining with the separator *)

Section split_pair.
Context {A B : Type} (try_a : string -> result A Invalid) (try_b : string -> result B Invalid).
Context (show_a : A -> string) (show_b : B -> string) (sep : ascii).
Hypothesis a_iff : forall s a, try_a s = Ok a <-> show_a a = s.
Hypothesis b_iff : forall s b, try_b s = Ok b <-> show_b b = s.
Hypothesis b_sep : forall b, contains_ascii sep (show_b b) = false.

Lemma split_pair_iff text what a b :
  split_pair try_a try_b text sep what = Ok (a, b) <->
  String.app (show_a a) (String sep (show_b b)) = text.
Proof.
  unfold split_pair. split.
  - destruct (rsplit_once sep text) as [[first second]|] eqn:E; cbn; [|done].
    apply rsplit_once_inv in E as [-> _].
    destruct (try_a first) as [a'|] eqn:Ea; [|done].
    destruct (try_b second) as [b'|] eqn:Eb; [|done].
    intros [= <- <-]. apply a_iff in Ea as <-. by apply b_iff in Eb as <-.
  - intros <-. rewrite rsplit_once_app by done. cbn.
    by rewrite (proj2 (a_iff _ a)), (proj2 (b_iff _ b)).
Qed.
End split_pair.

(** ** Parsing and printing identifiers are inverse *)

Lemma AgentId_canonical s a : AgentId_try_from s = Ok a <-> AgentId_fmt a = s.
Proof.
  pose proof (split_pair_iff AgentName_try_from Origin_try_from as_str as_str "@"
    (fun s a => Validated_try_from_ok s a) (fun s a => Validated_try_from_ok s a)
    (fun o => Origin_not_contains "@" o eq_refl) s "agent address") as Hp.
  unfold AgentId_try_from, AgentId_fmt. destruct a as [name origin]; cbn.
  rewrite <- Hp. destruct (split_pair _ _ _ _ _) as [[n o]|e]; split; try done;
    by intros [= -> ->].
Qed.

Lemma EventId_canonical s e : EventId_try_from s = Ok e <-> EventId_fmt e = s.
Proof.
  unfold EventId_try_from, EventId_fmt. split.
  - destruct (rsplit_once ":" s) as [[origin sequence]|] eqn:E; cbn; [|done].
    apply rsplit_once_inv in E as [-> _].
    destruct (lower_hex sequence 16) eqn:Hhex; cbn; [|done].
    destruct (u64_from_str_radix16 sequence) as [value|] eqn:Hu; cbn; [|done].
    destruct (NonZeroU64_new value) as [seq|] eqn:Hseq; cbn; [|done].
    destruct (Origin_try_from origin) as [o|] eqn:Ho; [|done]. intros [= <-]. cbn.
    apply Validated_try_from_ok in Ho as ->. apply NonZeroU64_new_Some in Hseq as <-.
    unfold lower_hex in Hhex. apply andb_true_iff in Hhex as [Hlen Hf].
    apply N.eqb_eq in Hlen. unfold str_len in Hlen.
    apply u64_from_str_radix16_inv in Hu; [|done].
    replace (String.length sequence) with 16%nat in Hu by lia. by rewrite Hu.
  - intros <-. destruct e as [origin seq]; cbn.
    assert (Hhex : lower_hex (hex_fixed 16 (nz_get seq)) 16 = true)
      by apply (lower_hex_fixed 16).
    rewrite rsplit_once_app by (eapply lower_hex_not_contains; [reflexivity|exact Hhex]).
    cbn [ok_or]. rewrite Hhex. cbn [negb]. pose proof (nz_bounds seq) as [Hpos Hmax].
    rewrite u64_from_str_radix16_fixed by (lia || (unfold u64_max in Hmax; cbn; lia)).
    rewrite NonZeroU64_new_get. cbn [ok_or].
    unfold Origin_try_from. by rewrite (proj2 (Validated_try_from_ok (as_str origin) origin)).
Qed.

Lemma cmp_ltb_asym (a b : AgentId) : Is_true (cmp_ltb a b) -> ~ Is_true (cmp_ltb b a).
Proof. rewrite !Is_true_true, !cmp_ltb_lt. apply cmp_lt_asym. Qed.

Lemma DirectPair_between_sorted p :
  DirectPair_between (DirectPair_first p) (DirectPair_second p) = Ok p.
Proof.
  unfold DirectPair_between. case_decide as H.
  - f_equal. by apply DirectPair_agents_inj.
  - by destruct p.
Qed.

Lemma DirectPair_between_comm a b : DirectPair_between a b = DirectPair_between b a.
Proof.
  unfold DirectPair_between.
  destruct (decide (Is_true (cmp_ltb a b))) as [H1|H1],
    (decide (Is_true (cmp_ltb b a))) as [H2|H2]; try done.
  destruct (cmp_ltb_asym _ _ H1 H2).
Qed.

Lemma DirectPair_between_ok a b p :
  DirectPair_between a b = Ok p <->
  (DirectPair_agents p = (a, b) \/ DirectPair_agents p = (b, a)).
Proof.
  split.
  - unfold DirectPair_between. case_decide; [intros [= <-]; auto|].
    case_decide; [intros [= <-]; auto|done].
  - unfold DirectPair_agents. intros [[= <- <-]|[= <- <-]]; [|rewrite DirectPair_between_comm];
      apply DirectPair_between_sorted.
Qed.

Lemma DirectPair_between_is_ok a b : is_ok (DirectPair_between a b) = true <-> a <> b.
Proof.
  assert (E : is_ok (DirectPair_between a b) = cmp_ltb a b || cmp_ltb b a).
  { unfold DirectPair_between.
    destruct (decide (Is_true (cmp_ltb a b))) as [H1|H1]; cbn.
    - apply Is_true_true in H1. by rewrite H1.
    - destruct (cmp_ltb a b); [done|].
      destruct (decide (Is_true (cmp_ltb b a))) as [H2|H2]; cbn; by destruct (cmp_ltb b a). }
  rewrite E, orb_true_iff, !cmp_ltb_lt. split.
  - intros [H|H] ->; by apply cmp_lt_irrefl in H.
  - destruct (cmp_total a b) as [|[|]]; tauto.
Qed.

Lemma AgentId_fmt_no_comma a : contains_ascii "," (AgentId_fmt a) = false.
Proof.
  unfold AgentId_fmt. rewrite contains_ascii_app. apply orb_false_iff. split.
  - eapply valid_handle_not_contains; [reflexivity|apply AgentName_handle].
  - unfold contains_ascii. cbn. by apply (Origin_not_contains ",").
Qed.

Lemma DirectPair_text_iff s p :
  (let? (first, second) := split_pair AgentId_try_from AgentId_try_from s "," "conversation" in
   let? direct := DirectPair_between first second in
   if decide (DirectPair_first direct = first) then Ok (Conversation_Direct direct)
   else Err (mkInvalid "conversation")) = Ok (Conversation_Direct p) <->
  String.app (AgentId_fmt (DirectPair_first p)) (String "," (AgentId_fmt (DirectPair_second p))) = s.
Proof.
  pose proof (fun a b => split_pair_iff AgentId_try_from AgentId_try_from AgentId_fmt AgentId_fmt ","
    AgentId_canonical AgentId_canonical AgentId_fmt_no_comma s "conversation" a b) as Hp.
  split.
  - destruct (split_pair _ _ _ _ _) as [[first second]|e]; [|done].
    destruct (DirectPair_between first second) as [direct|] eqn:Hd; [|done].
    case_decide as Hf; [|done]. intros [= <-]. apply Hp. do 2 f_equal; [done|].
    apply DirectPair_between_ok in Hd as [Hd|Hd]; injection Hd as H1 H2; congruence.
  - intros Hs. apply Hp in Hs. rewrite Hs, DirectPair_between_sorted. by rewrite decide_True.
Qed.

Lemma Conversation_canonical s c : Conversation_try_from s = Ok c <-> Conversation_fmt c = s.
Proof.
  pose proof (fun t a b => split_pair_iff Origin_try_from RoomName_try_from as_str as_str ":"
    (fun s a => Validated_try_from_ok s a) (fun s a => Validated_try_from_ok s a)
    (fun n => RoomName_not_contains ":" n eq_refl) t "conversation" a b) as Hroom.
  unfold Conversation_try_from. destruct (strip_prefix "dm:" s) as [rest|] eqn:Hdm.
  - apply strip_prefix_inv in Hdm as ->. destruct c as [p|room].
    + rewrite DirectPair_text_iff. cbn [Conversation_fmt]. split; [by intros ->|].
      intros E. apply (f_equal (strip_prefix "dm:")) in E. rewrite !strip_prefix_app in E.
      by injection E.
    + cbn [Conversation_fmt]. split; [|done].
      destruct (split_pair _ _ _ _ _) as [[first second]|]; [|done].
      destruct (DirectPair_between first second); [|done]. by case_decide.
  - destruct (strip_prefix "room:" s) as [rest|] eqn:Hr; cbn [ok_or].
    + apply strip_prefix_inv in Hr as ->. destruct c as [p|[origin name]].
      * cbn [Conversation_fmt]. split; [|done].
        by destruct (split_pair _ _ _ _ _) as [[o n]|].
      * cbn [Conversation_fmt]. unfold RoomId_fmt. cbn [RoomId_origin RoomId_name].
        specialize (Hroom rest). split.
        -- destruct (split_pair _ _ _ _ _) as [[o n]|]; [|done]. intros [= -> ->].
           f_equal. by apply Hroom.
        -- intros E. apply (f_equal (strip_prefix "room:")) in E. rewrite !strip_prefix_app in E.
           injection E as E. apply Hroom in E. by rewrite E.
    + split; [done|]. intros <-. destruct c as [p|room]; cbn [Conversation_fmt] in *.
      * by rewrite strip_prefix_app in Hdm.
      * unfold RoomId_fmt in Hr. by rewrite strip_prefix_app in Hr.
Qed.

(** ** Audiences *)

Lemma audience_valid_spec l :
  audience_valid l = true <->
  l <> [] /\ (length l <= 64)%nat /\ StronglySorted cmp_lt l.
Proof.
  unfold audience_valid. rewrite negb_true_iff, !orb_false_iff, windows_increasing.
  rewrite N.eqb_neq, N.ltb_ge. unfold MAX_AUDIENCE.
  destruct l as [|o l]; cbn [length]; split; intros; destruct_and?; repeat split; try done; lia.
Qed.

Lemma Audience_increasing a : StronglySorted cmp_lt (Audience_members a).
Proof.
  destruct a as [l Hl]; cbn. apply Is_true_true, audience_valid_spec in Hl. tauto.
Qed.

Lemma Audience_includes_iff a o : Audience_includes a o = true <-> o ∈ Audience_members a.
Proof. apply binary_search_spec, Audience_increasing. Qed.

Lemma Audience_try_from_ok l a : Audience_try_from l = Ok a <-> Audience_members a = l.
Proof.
  unfold Audience_try_from. split.
  - case_decide; [|done]. by intros [= <-].
  - intros <-. case_decide as H; [f_equal; by apply Audience_members_inj | by destruct a].
Qed.

Lemma Audience_try_from_total l :
  is_ok (Audience_try_from l) = audience_valid l.
Proof.
  unfold Audience_try_from. case_decide as H; cbn; symmetry.
  - by apply Is_true_true.
  - apply not_true_is_false. by rewrite <- Is_true_true.
Qed.

(** ** Pairs *)

Lemma DirectPair_includes_iff p x :
  DirectPair_includes p x = true <-> x = DirectPair_first p \/ x = DirectPair_second p.
Proof.
  unfold DirectPair_includes. rewrite orb_true_iff, !bool_decide_eq_true. naive_solver.
Qed.

Lemma DirectPair_distinct p : DirectPair_first p <> DirectPair_second p.
Proof.
  destruct p as [a b Hlt]; cbn. intros ->. apply Is_true_true, cmp_ltb_lt in Hlt.
  by apply cmp_lt_irrefl in Hlt.
Qed.

Lemma DirectPair_other_iff p x y :
  DirectPair_other p x = Some y <->
  DirectPair_agents p = (x, y) \/ DirectPair_agents p = (y, x).
Proof.
  pose proof (DirectPair_distinct p) as Hne.
  unfold DirectPair_other, DirectPair_agents. repeat case_decide; split; naive_solver.
Qed.

(** ** Properties *)

(** The textual form of agent addresses, event identifiers and conversations is canonical.
    Parsing accepts a text exactly when it is the printed form of the value it returns, so
    printing then parsing is the identity, and no two texts name the same value. *)
Theorem identifiers_canonical :
  (forall text agent, AgentId_try_from text = Ok agent <-> AgentId_fmt agent = text) /\
  (forall text event, EventId_try_from text = Ok event <-> EventId_fmt event = text) /\
  (forall text conversation,
     Conversation_try_from text = Ok conversation <-> Conversation_fmt conversation = text).
Proof.
  split; [|split]; intros text v.
  - apply AgentId_canonical.
  - apply EventId_canonical.
  - apply Conversation_canonical.
Qed.

(** A direct conversation does not depend on who opens it, exists exactly between two
    different agents, and each member sees the other one and nobody else. *)
Theorem direct_pair_symmetric (one other : AgentId) :
  DirectPair_between one other = DirectPair_between other one /\
  (is_ok (DirectPair_between one other) = true <-> one <> other) /\
  forall p, DirectPair_between one other = Ok p ->
    (forall agent, DirectPair_includes p agent = true <-> agent = one \/ agent = other) /\
    DirectPair_other p one = Some other /\ DirectPair_other p other = Some one.
Proof.
  split; [apply DirectPair_between_comm|]. split.
  - apply DirectPair_between_is_ok.
  - intros p Hp. apply DirectPair_between_ok in Hp. split.
    + intros agent. rewrite DirectPair_includes_iff. unfold DirectPair_agents in Hp. naive_solver.
    + rewrite !DirectPair_other_iff. tauto.
Qed.

(** An audience built from any set of machines exists exactly when the set has one to 64
    members, and its binary search answers membership in that set. *)
Theorem audience_of_set (origins : list Origin) :
  let members := btree_collect origins in
  (is_ok (Audience_try_from_set members) = true <->
     origins <> [] /\ (length members <= 64)%nat) /\
  forall a, Audience_try_from_set members = Ok a ->
    forall o, Audience_includes a o = true <-> o ∈ origins.
Proof.
  cbn. unfold Audience_try_from_set. split.
  - rewrite Audience_try_from_total, audience_valid_spec.
    pose proof (btree_collect_sorted origins) as Hs. split.
    + intros (Hne & Hl & _). split; [|done]. intros ->. done.
    + intros [Hne Hl]. split; [by apply btree_collect_nonempty | done].
  - intros a Ha o. rewrite Audience_includes_iff. apply Audience_try_from_ok in Ha as ->.
    apply btree_collect_elem.
Qed.

(** ** Witnesses on concrete identities *)

Definition sample_origin (digit : N) : Origin := Origin_from_entropy (replicate 16 (digit * 17)).

Example sample_origin_text :
  as_str (sample_origin 10) = "aaaaaaaaaaaaaaaaaaaaaaaaaaaaaaaa"%string.
Proof. reflexivity. Qed.

Example conversation_example :
  map_ok Conversation_fmt (Conversation_try_from "room:cccccccccccccccccccccccccccccccc:release")
  = Ok "room:cccccccccccccccccccccccccccccccc:release"%string.
Proof. vm_compute. reflexivity. Qed.

Example conversation_refused :
  is_ok (Conversation_try_from "room:x:y") = false /\ is_ok (Conversation_try_from "dm:abc") = false.
Proof. vm_compute. done. Qed.
