(* ===== verification/AgentLists.v ===== *)
(** chat/card.rs: tools, tags, normalized skills and the cards of agents and machines, with the relevance of a
    card to a query; then the sorted, duplicate-free, bounded lists that rooms and audiences are made of. *)

From Stdlib Require Import NArith Lia String Ascii Sorted.
From stdpp Require Import base gmap list strings pretty.
From S2P Require Import Prelude SortedLists RustStr Ids.

(** ** Definitions *)

Inductive Tool := Tool_Claude | Tool_Codex | Tool_Opencode.

Definition Tool_ALL : list Tool := [Tool_Claude; Tool_Codex; Tool_Opencode].

Definition Tool_as_str (tool : Tool) : string :=
  match tool with
  | Tool_Claude => "claude"
  | Tool_Codex => "codex"
  | Tool_Opencode => "opencode"
  end.

Inductive Mode := Mode_Managed | Mode_Interactive.

Inductive Access := Access_Read | Access_Write.

Definition valid_tag (text : string) : bool :=
  let plain byte := is_ascii_lowercase byte || is_ascii_digit byte in
  in_range 1 32 (str_len text)
  && match bytes text with first :: _ => plain first | [] => false end
  && forallb (fun byte => plain byte || one_of "+#.-" byte) (bytes text).

Definition Tag_check (text : string) : result unit Invalid :=
  if valid_tag text then Ok tt else Err (mkInvalid "skill tag").
Abbreviation Tag := (Validated Tag_check).
Definition Tag_try_from (value : string) : result Tag Invalid := Validated_try_from Tag_check value.

Definition skills_valid (tags : list Tag) : bool :=
  negb ((16 <? N.of_nat (length tags))
        || any_window2 (fun first second => negb (cmp_ltb first second)) tags).

Record Skills := mkSkills { Skills_tags : list Tag; Skills_ok : Is_true (skills_valid Skills_tags) }.

Definition Skills_try_from (tags : list Tag) : result Skills Invalid :=
  match decide (Is_true (skills_valid tags)) with
  | left H => Ok (mkSkills tags H)
  | right _ => Err (mkInvalid "skills")
  end.

Definition Skills_collect (tags : list Tag) : result Skills Invalid :=
  Skills_try_from (dedup (sort tags)).

Definition Skills_is_empty (skills : Skills) : bool :=
  match Skills_tags skills with [] => true | _ => false end.

Record Card := mkCard {
  display_name : Line 64;
  role : option (Line 64);
  description : option (Paragraph 1024);
  skills : Skills;
  project : option (Line 128);
  status : option (Line 128);
  tool : Tool;
  mode : Mode;
  access : Access
}.

Inductive Relevance := Relevance_Skill | Relevance_Name | Relevance_Role | Relevance_Text.

Section relevance.
(** [str::to_lowercase] follows Unicode's case tables, which the standard library carries. *)
Context (to_lowercase : string -> string).

Definition Card_relevance (card : Card) (name : AgentName) (query : string) : option Relevance :=
  let query := to_lowercase (of_chars (trim_chars (chars query))) in
  if str_len query =? 0 then Some Relevance_Text else
  let contains text := str_contains query (to_lowercase text) in
  if existsb (fun tag => bool_decide (as_str tag = query)) (Skills_tags (skills card))
  then Some Relevance_Skill
  else if contains (as_str name) || contains (as_str (display_name card))
  then Some Relevance_Name
  else if match role card with Some role => contains (as_str role) | None => false end
  then Some Relevance_Role
  else if existsb contains
            (option_list (as_str <$> description card)
             ++ option_list (as_str <$> project card)
             ++ option_list (as_str <$> status card)
             ++ map as_str (Skills_tags (skills card)))
  then Some Relevance_Text
  else None.
End relevance.

Inductive Os := Os_Macos | Os_Linux | Os_Windows | Os_Other.

Record MachineCard := mkMachineCard { label : Line 64; os : Os }.

(** ** Decidable equality *)

#[export] Instance Tool_eq_dec : EqDecision Tool.
Proof. solve_decision. Defined.
#[export] Instance Mode_eq_dec : EqDecision Mode.
Proof. solve_decision. Defined.
#[export] Instance Access_eq_dec : EqDecision Access.
Proof. solve_decision. Defined.
#[export] Instance Os_eq_dec : EqDecision Os.
Proof. solve_decision. Defined.

Lemma Skills_tags_inj a b : Skills_tags a = Skills_tags b -> a = b.
Proof. destruct a, b; cbn. intros ->. f_equal. apply proof_irrel. Qed.
#[export] Instance Skills_eq_dec : EqDecision Skills := inj_eq_dec _ Skills_tags_inj.
#[export] Instance Card_eq_dec : EqDecision Card.
Proof. solve_decision. Defined.
#[export] Instance MachineCard_eq_dec : EqDecision MachineCard.
Proof. solve_decision. Defined.

(** ** Lemmas *)

Lemma skills_valid_spec l :
  skills_valid l = true <-> (length l <= 16)%nat /\ StronglySorted cmp_lt l.
Proof.
  unfold skills_valid. rewrite negb_true_iff, orb_false_iff, windows_increasing, N.ltb_ge.
  split; intros [??]; split; try done; lia.
Qed.

Lemma Skills_try_from_ok l s : Skills_try_from l = Ok s <-> Skills_tags s = l.
Proof.
  unfold Skills_try_from. split.
  - case_decide; [|done]. by intros [= <-].
  - intros <-. case_decide as H; [f_equal; by apply Skills_tags_inj | by destruct s].
Qed.

Lemma Skills_try_from_total l : is_ok (Skills_try_from l) = skills_valid l.
Proof.
  unfold Skills_try_from. case_decide as H; cbn; symmetry.
  - by apply Is_true_true.
  - apply not_true_is_false. by rewrite <- Is_true_true.
Qed.

(** ** Properties *)

(** [Skills::collect] normalizes any sequence of tags: it succeeds exactly when the sequence
    has at most 16 different tags, and its result is the increasing list of those tags, whatever
    their order and repetitions; a sequence with the same set of tags gives the same skills. *)
Theorem skills_collect_normalizes (tags : list Tag) :
  (is_ok (Skills_collect tags) = true <-> (length (btree_collect tags) <= 16)%nat) /\
  (forall s, Skills_collect tags = Ok s -> Skills_tags s = btree_collect tags) /\
  (forall tags', (forall tag, tag ∈ tags <-> tag ∈ tags') ->
     Skills_collect tags' = Skills_collect tags).
Proof.
  unfold Skills_collect. split; [|split].
  - rewrite Skills_try_from_total, skills_valid_spec, dedup_sort.
    pose proof (btree_collect_sorted tags). tauto.
  - intros s Hs. apply Skills_try_from_ok in Hs. by rewrite Hs, dedup_sort.
  - intros tags' Heq. rewrite !dedup_sort. f_equal. apply increasing_ext;
      [apply btree_collect_sorted..|]. intros x. by rewrite !btree_collect_elem, Heq.
Qed.

Example valid_tag_bounds :
  valid_tag "c++" = true /\ valid_tag "-rust" = false /\ valid_tag EmptyString = false
  /\ valid_tag "Rust" = false.
Proof. vm_compute. done. Qed.

(** ** Definitions *)

Definition MAX_EVENT_BYTES : N := 400 * 1024.
Definition MAX_CHAIN : N := 8.
Definition MAX_MEMBERS : N := 64.

(** The test both lists share: the length bound, then no two equal neighbours once sorted. *)
Definition agent_list_valid (min max : N) (agents : list AgentId) : bool :=
  in_range min max (N.of_nat (length agents))
  && negb (any_window2 (fun first second => bool_decide (first = second)) (sort agents)).

Record AgentList (min max : N) := mkAgentList {
  AgentList_agents : list AgentId;
  AgentList_ok : Is_true (agent_list_valid min max AgentList_agents)
}.
Arguments mkAgentList {min max} _ _.
Arguments AgentList_agents {min max} _.
Arguments AgentList_ok {min max} _.

Definition AgentList_try_from (min max : N) (what : string) (agents : list AgentId) :
  result (AgentList min max) Invalid :=
  match decide (Is_true (agent_list_valid min max agents)) with
  | left H => Ok (mkAgentList agents H)
  | right _ => Err (mkInvalid what)
  end.

Definition AgentList_contains {min max} (list : AgentList min max) (agent : AgentId) : bool :=
  bool_decide (agent ∈ AgentList_agents list).

Definition AgentList_is_empty {min max} (list : AgentList min max) : bool :=
  match AgentList_agents list with [] => true | _ => false end.

Abbreviation Chain := (AgentList 0 MAX_CHAIN).
Definition Chain_try_from : list AgentId -> result Chain Invalid :=
  AgentList_try_from 0 MAX_CHAIN "delegation chain".

(** [#[derive(Default)]] *)
Definition Chain_default : Chain := @mkAgentList 0 MAX_CHAIN [] I.

Abbreviation Members := (AgentList 1 MAX_MEMBERS).
Definition Members_try_from : list AgentId -> result Members Invalid :=
  AgentList_try_from 1 MAX_MEMBERS "room members".

Definition Chain_extended (chain : Chain) (waiting : AgentId) : result Chain Invalid :=
  Chain_try_from (AgentList_agents chain ++ [waiting]).

Definition MILLIS_PER_SECOND : N := 1000.
Definition SECONDS_PER_MINUTE : N := 60.
Definition SECONDS_PER_HOUR : N := 3600.
Definition SECONDS_PER_DAY : N := 86400.

Record Stamp := Stamp_from_unix_millis { Stamp_millis : N }.
Record Age := mkAge { Age_seconds : N }.

Definition Stamp_age (stamp now : Stamp) : Age :=
  mkAge (saturating_sub (Stamp_millis now) (Stamp_millis stamp) / MILLIS_PER_SECOND).

Definition Age_fmt (age : Age) : string :=
  let seconds := Age_seconds age in
  if seconds <? SECONDS_PER_MINUTE then String.app (pretty seconds) "s ago"
  else if seconds <? SECONDS_PER_HOUR
  then String.app (pretty (seconds / SECONDS_PER_MINUTE)) "m ago"
  else if seconds <? SECONDS_PER_DAY
  then String.app (pretty (seconds / SECONDS_PER_HOUR)) "h ago"
  else String.app (pretty (seconds / SECONDS_PER_DAY)) "d ago".

(** [policy::audience]: the machines of some agents, collected in a [BTreeSet]. *)
Definition policy_audience (agents : list AgentId) : result Audience Invalid :=
  Audience_try_from_set (btree_collect (map AgentId_origin agents)).

(** ** Decidable equality *)

Lemma AgentList_agents_inj {min max} (a b : AgentList min max) :
  AgentList_agents a = AgentList_agents b -> a = b.
Proof. destruct a, b; cbn. intros ->. f_equal. apply proof_irrel. Qed.
#[export] Instance AgentList_eq_dec {min max} : EqDecision (AgentList min max) :=
  inj_eq_dec _ AgentList_agents_inj.
#[export] Instance Stamp_eq_dec : EqDecision Stamp.
Proof. solve_decision. Defined.

(** ** Lemmas *)

Lemma agent_list_valid_spec min max l :
  agent_list_valid min max l = true <->
  min <= N.of_nat (length l) <= max /\ NoDup l.
Proof.
  unfold agent_list_valid.
  rewrite andb_true_iff, in_range_spec, negb_true_iff, sort_windows_NoDup. done.
Qed.

Lemma AgentList_try_from_ok min max what l a :
  AgentList_try_from min max what l = Ok a <-> AgentList_agents a = l.
Proof.
  unfold AgentList_try_from. split.
  - case_decide; [|done]. by intros [= <-].
  - intros <-. case_decide as H; [f_equal; by apply AgentList_agents_inj | by destruct a].
Qed.

Lemma AgentList_try_from_total min max what l :
  is_ok (AgentList_try_from min max what l) = agent_list_valid min max l.
Proof.
  unfold AgentList_try_from. case_decide as H; cbn; symmetry.
  - by apply Is_true_true.
  - apply not_true_is_false. by rewrite <- Is_true_true.
Qed.

Lemma AgentList_spec {min max} (a : AgentList min max) :
  min <= N.of_nat (length (AgentList_agents a)) <= max /\ NoDup (AgentList_agents a).
Proof. apply agent_list_valid_spec. destruct a; cbn. by apply Is_true_true. Qed.

Lemma AgentList_contains_iff {min max} (a : AgentList min max) x :
  AgentList_contains a x = true <-> x ∈ AgentList_agents a.
Proof. apply bool_decide_eq_true. Qed.

Lemma policy_audience_includes agents a o :
  policy_audience agents = Ok a ->
  Audience_includes a o = true <-> exists x, x ∈ agents /\ AgentId_origin x = o.
Proof.
  intros Ha. apply Audience_try_from_ok in Ha. rewrite Audience_includes_iff, Ha.
  rewrite btree_collect_elem, list_elem_of_fmap. naive_solver.
Qed.

(** ** Properties *)

(** Extending a delegation chain appends the waiting agent, and succeeds exactly when the
    chain has fewer than eight agents and does not hold that agent yet. *)
Theorem chain_extended_spec (chain : Chain) (waiting : AgentId) :
  (is_ok (Chain_extended chain waiting) = true <->
     (length (AgentList_agents chain) < 8)%nat /\ AgentList_contains chain waiting = false) /\
  forall longer, Chain_extended chain waiting = Ok longer ->
    AgentList_agents longer = AgentList_agents chain ++ [waiting].
Proof.
  unfold Chain_extended, Chain_try_from. split.
  - rewrite AgentList_try_from_total, agent_list_valid_spec, length_app, NoDup_app.
    rewrite <- not_true_iff_false, AgentList_contains_iff.
    destruct (AgentList_spec chain) as [_ Hn]. unfold MAX_CHAIN. cbn [length].
    split.
    + intros [Hl (_ & Hd & _)]. split; [lia|]. intros Hin. apply (Hd _ Hin). set_solver.
    + intros [Hl Hd]. split; [lia|]. split; [done|]. split; [set_solver|].
      apply NoDup_singleton.
  - intros longer Hl. by apply AgentList_try_from_ok in Hl.
Qed.

Example age_boundaries :
  map (fun millis => Age_fmt (Stamp_age (Stamp_from_unix_millis 0) (Stamp_from_unix_millis millis)))
    [999; 1000; 59999; 60000; 3599999; 3600000; 86399999; 86400000]
  = ["0s ago"; "1s ago"; "59s ago"; "1m ago"; "59m ago"; "1h ago"; "23h ago"; "1d ago"]%string.
Proof. vm_compute. reflexivity. Qed.
