(* ===== verification/Notification.v ===== *)
(** chat/notification.rs and chat/notification/stop.rs: the delivery lattice, stop decisions,
    question escalation, activity and the notices messages carry. *)

From Stdlib Require Import NArith Lia String Ascii.
From stdpp Require Import base gmap list strings.
From S2P Require Import Prelude SortedLists RustStr Ids AgentLists.

(** ** Definitions *)

Definition MAX_FALLBACK_SECONDS : N := 600.
Definition STALLED_MILLIS : N := 120 * MILLIS_PER_SECOND.
Definition MAX_CONTEXT_BYTES : N := 4096.
Definition MAX_SUMMARY_BYTES : N := 512.
Definition MAX_CONTEXT_MESSAGES : N := 8.
Definition MAX_STATUS_BYTES : N := 128.
Definition MAX_SUBJECT_BYTES : N := 128.
Definition MAX_EXPECTED_BYTES : N := 256.

Inductive Delivery :=
| Delivery_Pending | Delivery_Delivered | Delivery_Read | Delivery_Acknowledged.

(** [#[default]] *)
Definition Delivery_default : Delivery := Delivery_Pending.

Inductive ResponseDelivery := ResponseDelivery_Original | ResponseDelivery_Replaced.

Definition reading_after_delivery (delivery : ResponseDelivery) (cancelled : bool) : bool :=
  match delivery with ResponseDelivery_Original => true | _ => false end && negb cancelled.

Definition Delivery_rank (delivery : Delivery) : N :=
  match delivery with
  | Delivery_Pending => 0
  | Delivery_Delivered => 1
  | Delivery_Read => 2
  | Delivery_Acknowledged => 3
  end.

Definition Delivery_observe (delivery receipt : Delivery) : Delivery :=
  if Delivery_rank receipt <=? Delivery_rank delivery then delivery else receipt.

Inductive StopDecision := StopDecision_Allow | StopDecision_Block.

Inductive Acknowledgment := Acknowledgment_Pending | Acknowledgment_Confirmed.

Definition stop_decide (urgent : bool) (acknowledgment : Acknowledgment) : StopDecision :=
  if urgent && match acknowledgment with Acknowledgment_Pending => true | _ => false end
  then StopDecision_Block else StopDecision_Allow.

Definition stop_decision (urgent : bool) (delivery : Delivery) : StopDecision :=
  let acknowledgment :=
    match delivery with
    | Delivery_Acknowledged => Acknowledgment_Confirmed
    | _ => Acknowledgment_Pending
    end in
  stop_decide urgent acknowledgment.

Inductive QuestionState := QuestionState_Waiting | QuestionState_Answered | QuestionState_Escalated.

Definition escalation_due (created wait_millis now : N) (state : QuestionState) : bool :=
  match state with QuestionState_Waiting => true | _ => false end
  && match checked_sub now created with Some elapsed => wait_millis <=? elapsed | None => false end.

Inductive ActivityState := ActivityState_Working | ActivityState_Waiting | ActivityState_Stalled.

Definition activity_state (state : ActivityState) (latest now stale_after : N) : ActivityState :=
  if stale_after <=? saturating_sub now latest then ActivityState_Stalled else state.

Record Activity := mkActivity {
  Activity_state : ActivityState;
  Activity_at : Stamp;
  Activity_status : option (Line MAX_STATUS_BYTES)
}.

(** The private delay is only ever set within its bounds. *)
Record Question := mkQuestion {
  Question_expected : Line MAX_EXPECTED_BYTES;
  Question_after_seconds : N;
  Question_fallback : AgentId;
  Question_ok : Is_true (in_range 1 MAX_FALLBACK_SECONDS Question_after_seconds)
}.

Definition Question_new (expected : Line MAX_EXPECTED_BYTES) (after_seconds : N)
    (fallback : AgentId) : result Question Invalid :=
  match decide (Is_true (in_range 1 MAX_FALLBACK_SECONDS after_seconds)) with
  | left H => Ok (mkQuestion expected after_seconds fallback H)
  | right _ => Err (mkInvalid "question fallback delay")
  end.

Record RawQuestion := mkRawQuestion {
  RawQuestion_expected : Line MAX_EXPECTED_BYTES;
  RawQuestion_after_seconds : N;
  RawQuestion_fallback : AgentId
}.

Definition Question_try_from (value : RawQuestion) : result Question Invalid :=
  Question_new (RawQuestion_expected value) (RawQuestion_after_seconds value)
    (RawQuestion_fallback value).

Definition RawQuestion_from (value : Question) : RawQuestion :=
  mkRawQuestion (Question_expected value) (Question_after_seconds value) (Question_fallback value).

Definition Question_wait_millis (question : Question) : N :=
  saturating_mul u64_max (Question_after_seconds question) MILLIS_PER_SECOND.

Record Notice := mkNotice {
  Notice_recipients : Members;
  Notice_urgent : bool;
  Notice_subject : option (Line MAX_SUBJECT_BYTES);
  Notice_question : option Question
}.

Definition summary_fits (used next limit : N) : bool :=
  match checked_add usize_max used next with Some total => total <=? limit | None => false end.

(** ** Decidable equality *)

#[export] Instance Delivery_eq_dec : EqDecision Delivery.
Proof. solve_decision. Defined.
#[export] Instance StopDecision_eq_dec : EqDecision StopDecision.
Proof. solve_decision. Defined.
#[export] Instance QuestionState_eq_dec : EqDecision QuestionState.
Proof. solve_decision. Defined.
#[export] Instance ActivityState_eq_dec : EqDecision ActivityState.
Proof. solve_decision. Defined.
#[export] Instance Activity_eq_dec : EqDecision Activity.
Proof. solve_decision. Defined.
Lemma RawQuestion_from_inj a b : RawQuestion_from a = RawQuestion_from b -> a = b.
Proof.
  destruct a, b; cbn. intros [= -> -> ->]. f_equal. apply proof_irrel.
Qed.
#[export] Instance RawQuestion_eq_dec : EqDecision RawQuestion.
Proof. solve_decision. Defined.
#[export] Instance Question_eq_dec : EqDecision Question := inj_eq_dec _ RawQuestion_from_inj.
#[export] Instance Notice_eq_dec : EqDecision Notice.
Proof. solve_decision. Defined.

(** ** Lemmas: [observe] is the join of a total order with bottom [Pending] *)

Lemma Delivery_rank_inj a b : Delivery_rank a = Delivery_rank b -> a = b.
Proof. by destruct a, b. Qed.

Lemma Delivery_observe_rank a b :
  Delivery_rank (Delivery_observe a b) = N.max (Delivery_rank a) (Delivery_rank b).
Proof. by destruct a, b. Qed.

#[export] Instance Delivery_observe_comm : Comm eq Delivery_observe.
Proof. by intros [] []. Qed.
#[export] Instance Delivery_observe_assoc : Assoc eq Delivery_observe.
Proof. by intros [] [] []. Qed.
#[export] Instance Delivery_observe_idemp : IdemP eq Delivery_observe.
Proof. by intros []. Qed.
#[export] Instance Delivery_observe_left_id : LeftId eq Delivery_Pending Delivery_observe.
Proof. by intros []. Qed.

(** ** Properties *)

(** Receipts merge as a join-semilattice with bottom [Pending]: whatever order receipts
    arrive in, and however often each is repeated, folding [observe] over them yields the same
    delivery, whose rank is the highest rank observed. *)
Theorem receipts_merge_in_any_order (start : Delivery) (receipts receipts' : list Delivery) :
  (forall d, d ∈ receipts <-> d ∈ receipts') ->
  foldl Delivery_observe start receipts = foldl Delivery_observe start receipts' /\
  forall d, d ∈ start :: receipts ->
    Delivery_rank d <= Delivery_rank (foldl Delivery_observe start receipts).
Proof.
  assert (Hub : forall l s d, d ∈ s :: l -> Delivery_rank d <= Delivery_rank (foldl Delivery_observe s l)).
  { induction l as [|r l IH]; intros s d Hd; cbn.
    - apply elem_of_cons in Hd as [->|Hd]; [lia | set_solver].
    - pose proof (IH (Delivery_observe s r) (Delivery_observe s r) ltac:(left)) as Hs.
      rewrite Delivery_observe_rank in Hs.
      apply elem_of_cons in Hd as [->|[->|Hd]%elem_of_cons]; [lia|lia|].
      apply IH. by right. }
  assert (Hin : forall l s, foldl Delivery_observe s l ∈ s :: l).
  { induction l as [|r l IH]; intros s; cbn; [left|].
    specialize (IH (Delivery_observe s r)). apply elem_of_cons in IH as [->|IH].
    - unfold Delivery_observe. case_match; set_solver.
    - set_solver. }
  intros Heq. split; [|by apply Hub]. apply Delivery_rank_inj, N.le_antisymm; apply Hub.
  - pose proof (Hin receipts start) as H. rewrite !elem_of_cons in *. rewrite <- Heq. done.
  - pose proof (Hin receipts' start) as H. rewrite !elem_of_cons in *. rewrite Heq. done.
Qed.

Lemma receipts_merge_in_any_order_witness :
  foldl Delivery_observe Delivery_Pending [Delivery_Read; Delivery_Delivered]
  = foldl Delivery_observe Delivery_Pending [Delivery_Delivered; Delivery_Read; Delivery_Read].
Proof.
  apply (receipts_merge_in_any_order Delivery_Pending [Delivery_Read; Delivery_Delivered]
           [Delivery_Delivered; Delivery_Read; Delivery_Read]).
  intros d. rewrite !elem_of_cons. split; intros; destruct_or?; auto.
Defined.

(** An urgent notice blocks stopping until it is acknowledged, and nothing else does;
    a question escalates exactly when it is still waiting and the clock, which may have gone
    backwards, shows the whole delay passed since it was asked. *)
Theorem stop_and_escalation (urgent : bool) (delivery : Delivery) (question : Question)
    (created now : N) (state : QuestionState) :
  (stop_decision urgent delivery = StopDecision_Block <->
     urgent = true /\ delivery <> Delivery_Acknowledged) /\
  (escalation_due created (Question_wait_millis question) now state = true <->
     state = QuestionState_Waiting /\
     created + 1000 * Question_after_seconds question <= now).
Proof.
  split.
  - destruct urgent, delivery; cbn; naive_solver.
  - pose proof (Question_ok question) as Hs. apply Is_true_true, in_range_spec in Hs.
    unfold Question_wait_millis, saturating_mul, MILLIS_PER_SECOND, MAX_FALLBACK_SECONDS,
      u64_max in *.
    rewrite N.min_l by lia. unfold escalation_due. rewrite andb_true_iff.
    destruct (checked_sub now created) as [elapsed|] eqn:E.
    + apply checked_sub_Some in E as [Hle ->]. rewrite N.leb_le.
      destruct state; split; intros [? ?]; try done; split; try done; lia.
    + apply checked_sub_None in E. split; [by intros []|]. lia.
Qed.
