(* ===== verification/Handoff.v ===== *)
(** chat/handoff.rs, handoff/metadata.rs and handoff/decision.rs: handoff metadata, descriptors,
    the decision to read a body, the permit it grants and the observation it records. *)

From Stdlib Require Import NArith Lia String Ascii.
From stdpp Require Import base gmap list strings.
From S2P Require Import Prelude SortedLists RustStr Ids AgentLists.

(** ** Definitions *)

Definition HANDOFF_MAX_CONTEXT_BYTES : N := 256.
Definition MAX_BODY_BYTES : N := MAX_TEXT.

(** [context!(Project)] and [context!(Scope)] *)
Record Project := mkProject { Project_line : Line HANDOFF_MAX_CONTEXT_BYTES }.
Definition Project_try_from (value : string) : result Project Invalid :=
  map_ok mkProject (Line_try_from HANDOFF_MAX_CONTEXT_BYTES value).
Record Scope := mkScope { Scope_line : Line HANDOFF_MAX_CONTEXT_BYTES }.
Definition Scope_try_from (value : string) : result Scope Invalid :=
  map_ok mkScope (Line_try_from HANDOFF_MAX_CONTEXT_BYTES value).

Record TeamId := mkTeamId { TeamId_room : RoomId }.

Definition TeamId_try_from (value : string) : result TeamId Invalid :=
  let? conversation := Conversation_try_from value in
  match conversation with
  | Conversation_Room room => Ok (mkTeamId room)
  | Conversation_Direct _ => Err (mkInvalid "handoff team")
  end.

Definition TeamId_fmt (value : TeamId) : string := RoomId_fmt (TeamId_room value).

Inductive Target :=
| Target_Agent (agent : AgentId)
| Target_Team (team : TeamId).

Definition read_limit_valid (value : N) : bool := negb ((value =? 0) || (MAX_BODY_BYTES <? value)).

Record ReadLimit := mkReadLimit {
  ReadLimit_bytes : N;
  ReadLimit_ok : Is_true (read_limit_valid ReadLimit_bytes)
}.

Definition ReadLimit_MAX : ReadLimit := mkReadLimit MAX_BODY_BYTES I.

Definition ReadLimit_try_from (value : N) : result ReadLimit Invalid :=
  match decide (Is_true (read_limit_valid value)) with
  | left H => Ok (mkReadLimit value H)
  | right _ => Err (mkInvalid "handoff read limit")
  end.

Inductive ReadRefusal :=
| ReadRefusal_Project | ReadRefusal_Scope | ReadRefusal_Descriptor | ReadRefusal_Reader
| ReadRefusal_Limit | ReadRefusal_Body | ReadRefusal_Audience | ReadRefusal_Order.

(** *** handoff/decision.rs *)

Inductive DescriptorMatch := DescriptorMatch_Exact | DescriptorMatch_Foreign.
Inductive ReaderGrant := ReaderGrant_Named | ReaderGrant_Absent.
Inductive DeliveryOutcome := DeliveryOutcome_OriginalBody | DeliveryOutcome_Replaced.

Definition observation_after_delivery (delivery : DeliveryOutcome) (cancelled : bool) : bool :=
  match delivery with DeliveryOutcome_OriginalBody => true | _ => false end && negb cancelled.

Record ReadFacts := mkReadFacts {
  project_matches : bool;
  scope_matches : bool;
  ReadFacts_descriptor : DescriptorMatch;
  ReadFacts_reader : ReaderGrant
}.

Definition read_decision (facts : ReadFacts) (body_bytes limit : N) : result unit ReadRefusal :=
  if negb (project_matches facts) then Err ReadRefusal_Project else
  if negb (scope_matches facts) then Err ReadRefusal_Scope else
  match ReadFacts_descriptor facts with
  | DescriptorMatch_Foreign => Err ReadRefusal_Descriptor
  | DescriptorMatch_Exact =>
      match ReadFacts_reader facts with
      | ReaderGrant_Absent => Err ReadRefusal_Reader
      | ReaderGrant_Named =>
          if (limit =? 0) || (MAX_BODY_BYTES <? limit) then Err ReadRefusal_Limit else
          if (body_bytes =? 0) || (limit <? body_bytes) then Err ReadRefusal_Body else
          Ok tt
      end
  end.

Record ObservationFacts := mkObservationFacts {
  parent_matches : bool;
  issuer_matches : bool;
  audience_matches : bool;
  ObservationFacts_reader : ReaderGrant;
  parent_clock : N;
  observation_clock : N
}.

Definition observation_decision (facts : ObservationFacts) : result unit ReadRefusal :=
  if negb (parent_matches facts) then Err ReadRefusal_Descriptor else
  if negb (issuer_matches facts)
     || match ObservationFacts_reader facts with ReaderGrant_Named => false | _ => true end
  then Err ReadRefusal_Reader else
  if negb (audience_matches facts) then Err ReadRefusal_Audience else
  if observation_clock facts <=? parent_clock facts then Err ReadRefusal_Order else
  Ok tt.

(** *** handoff/metadata.rs *)

Definition named_reader (intended_recipient : Target) (permitted_readers : Members) : bool :=
  match intended_recipient with
  | Target_Agent agent => AgentList_contains permitted_readers agent
  | Target_Team _ => true
  end.

Definition metadata_valid (sender : AgentId) (intended_recipient : Target)
    (permitted_readers : Members) (audience : Audience) : bool :=
  named_reader intended_recipient permitted_readers
  && bool_decide (policy_audience (sender :: AgentList_agents permitted_readers) = Ok audience).

(** The private fields are only ever set by [Metadata::new]. *)
Record Metadata := mkMetadata {
  Metadata_sender : AgentId;
  Metadata_intended_recipient : Target;
  Metadata_project : Project;
  Metadata_scope : Scope;
  Metadata_permitted_readers : Members;
  Metadata_audience : Audience;
  Metadata_ok : Is_true (metadata_valid Metadata_sender Metadata_intended_recipient
                           Metadata_permitted_readers Metadata_audience)
}.

Lemma metadata_valid_intro sender intended_recipient permitted_readers audience :
  named_reader intended_recipient permitted_readers = true ->
  policy_audience (sender :: AgentList_agents permitted_readers) = Ok audience ->
  Is_true (metadata_valid sender intended_recipient permitted_readers audience).
Proof.
  intros H1 H2. unfold metadata_valid. rewrite H1. by rewrite bool_decide_eq_true_2.
Qed.

Definition Metadata_of sender intended_recipient project scope permitted_readers
    (admitted : named_reader intended_recipient permitted_readers = true)
    (audience : result Audience Invalid) :
  policy_audience (sender :: AgentList_agents permitted_readers) = audience ->
  result Metadata Invalid :=
  match audience with
  | Err e => fun _ => Err e
  | Ok audience => fun H =>
      Ok (mkMetadata sender intended_recipient project scope permitted_readers audience
            (metadata_valid_intro _ _ _ _ admitted H))
  end.

Definition Metadata_admitted sender intended_recipient (context : Project * Scope)
    permitted_readers (admitted : bool) :
  named_reader intended_recipient permitted_readers = admitted -> result Metadata Invalid :=
  match admitted with
  | false => fun _ => Err (mkInvalid "handoff intended recipient must be a named reader")
  | true => fun admitted =>
      Metadata_of sender intended_recipient context.1 context.2 permitted_readers admitted
        (policy_audience (sender :: AgentList_agents permitted_readers)) eq_refl
  end.

Definition Metadata_new (sender : AgentId) (intended_recipient : Target)
    (context : Project * Scope) (permitted_readers : Members) : result Metadata Invalid :=
  Metadata_admitted sender intended_recipient context permitted_readers
    (named_reader intended_recipient permitted_readers) eq_refl.

Record RawMetadata := mkRawMetadata {
  RawMetadata_sender : AgentId;
  RawMetadata_intended_recipient : Target;
  RawMetadata_project : Project;
  RawMetadata_scope : Scope;
  RawMetadata_permitted_readers : Members
}.

Definition Metadata_try_from (raw : RawMetadata) : result Metadata Invalid :=
  Metadata_new (RawMetadata_sender raw) (RawMetadata_intended_recipient raw)
    (RawMetadata_project raw, RawMetadata_scope raw) (RawMetadata_permitted_readers raw).

Definition RawMetadata_from (value : Metadata) : RawMetadata :=
  mkRawMetadata (Metadata_sender value) (Metadata_intended_recipient value)
    (Metadata_project value) (Metadata_scope value) (Metadata_permitted_readers value).

(** *** Decidable equality *)

#[export] Instance ReadRefusal_eq_dec : EqDecision ReadRefusal.
Proof. solve_decision. Defined.
#[export] Instance Project_eq_dec : EqDecision Project.
Proof. solve_decision. Defined.
#[export] Instance Scope_eq_dec : EqDecision Scope.
Proof. solve_decision. Defined.
#[export] Instance TeamId_eq_dec : EqDecision TeamId.
Proof. solve_decision. Defined.
#[export] Instance Target_eq_dec : EqDecision Target.
Proof. solve_decision. Defined.
#[export] Instance RawMetadata_eq_dec : EqDecision RawMetadata.
Proof. solve_decision. Defined.

Lemma Metadata_audience_spec m :
  policy_audience (Metadata_sender m :: AgentList_agents (Metadata_permitted_readers m))
  = Ok (Metadata_audience m).
Proof.
  pose proof (Metadata_ok m) as H. unfold metadata_valid in H.
  apply Is_true_true, andb_true_iff in H as [_ H]. by apply bool_decide_eq_true_1 in H.
Qed.

Lemma RawMetadata_from_inj a b : RawMetadata_from a = RawMetadata_from b -> a = b.
Proof.
  intros E. pose proof (Metadata_audience_spec a) as Ha. pose proof (Metadata_audience_spec b) as Hb.
  destruct a, b; cbn in *. injection E as -> -> -> -> ->. rewrite Ha in Hb.
  injection Hb as ->. f_equal. apply proof_irrel.
Qed.
#[export] Instance Metadata_eq_dec : EqDecision Metadata := inj_eq_dec _ RawMetadata_from_inj.

Lemma ReadLimit_bytes_inj a b : ReadLimit_bytes a = ReadLimit_bytes b -> a = b.
Proof. destruct a, b; cbn. intros ->. f_equal. apply proof_irrel. Qed.
#[export] Instance ReadLimit_eq_dec : EqDecision ReadLimit := inj_eq_dec _ ReadLimit_bytes_inj.

(** *** Descriptors *)

Definition descriptor_valid (id : EventId) (metadata : Metadata) : bool :=
  bool_decide (EventId_origin id = AgentId_origin (Metadata_sender metadata)).

Record Descriptor := mkDescriptor {
  Descriptor_id : EventId;
  Descriptor_metadata : Metadata;
  Descriptor_body_limit : ReadLimit;
  Descriptor_ok : Is_true (descriptor_valid Descriptor_id Descriptor_metadata)
}.

Record RawDescriptor := mkRawDescriptor {
  RawDescriptor_id : EventId;
  RawDescriptor_metadata : Metadata;
  RawDescriptor_body_bytes : ReadLimit
}.

Definition Descriptor_try_from (raw : RawDescriptor) : result Descriptor Invalid :=
  match decide (Is_true (descriptor_valid (RawDescriptor_id raw) (RawDescriptor_metadata raw))) with
  | right _ => Err (mkInvalid "handoff sender origin")
  | left H =>
      Ok (mkDescriptor (RawDescriptor_id raw) (RawDescriptor_metadata raw)
            (RawDescriptor_body_bytes raw) H)
  end.

Definition RawDescriptor_from (value : Descriptor) : RawDescriptor :=
  mkRawDescriptor (Descriptor_id value) (Descriptor_metadata value) (Descriptor_body_limit value).

#[export] Instance RawDescriptor_eq_dec : EqDecision RawDescriptor.
Proof. solve_decision. Defined.
Lemma RawDescriptor_from_inj a b : RawDescriptor_from a = RawDescriptor_from b -> a = b.
Proof. destruct a, b; cbn. intros [= -> -> ->]. f_equal. apply proof_irrel. Qed.
#[export] Instance Descriptor_eq_dec : EqDecision Descriptor := inj_eq_dec _ RawDescriptor_from_inj.

Definition Descriptor_new (id : EventId) (metadata : Metadata) (text : Text) :
  result Descriptor Invalid :=
  let? body_bytes := ReadLimit_try_from (str_len (as_str text)) in
  Descriptor_try_from (mkRawDescriptor id metadata body_bytes).

Definition Descriptor_body_bytes (descriptor : Descriptor) : N :=
  ReadLimit_bytes (Descriptor_body_limit descriptor).

Definition reader_grant (descriptor : Descriptor) (reader : AgentId) : ReaderGrant :=
  if AgentList_contains (Metadata_permitted_readers (Descriptor_metadata descriptor)) reader
  then ReaderGrant_Named else ReaderGrant_Absent.

Record Permit := mkPermit { Permit_descriptor : Descriptor; Permit_reader : AgentId }.

Definition Descriptor_authorize (self : Descriptor) (reader : AgentId) (selected : Descriptor)
    (limit : ReadLimit) : result Permit ReadRefusal :=
  let facts := {|
    project_matches := bool_decide (Metadata_project (Descriptor_metadata self)
                                    = Metadata_project (Descriptor_metadata selected));
    scope_matches := bool_decide (Metadata_scope (Descriptor_metadata self)
                                  = Metadata_scope (Descriptor_metadata selected));
    ReadFacts_descriptor :=
      if decide (self = selected) then DescriptorMatch_Exact else DescriptorMatch_Foreign;
    ReadFacts_reader := reader_grant self reader
  |} in
  let? _ := read_decision facts (Descriptor_body_bytes self) (ReadLimit_bytes limit) in
  Ok (mkPermit self reader).

Record Observation := mkObservation { Observation_handoff : EventId; Observation_reader : AgentId }.
#[export] Instance Observation_eq_dec : EqDecision Observation.
Proof. solve_decision. Defined.

Definition Descriptor_admit_observation (self : Descriptor) (observation : Observation)
    (issuer : AgentId * Audience) (clocks : N * N) : result unit ReadRefusal :=
  observation_decision {|
    parent_matches := bool_decide (Descriptor_id self = Observation_handoff observation);
    issuer_matches := bool_decide (issuer.1 = Observation_reader observation);
    audience_matches := bool_decide (issuer.2 = Metadata_audience (Descriptor_metadata self));
    ObservationFacts_reader := reader_grant self (Observation_reader observation);
    parent_clock := clocks.1;
    observation_clock := clocks.2
  |}.

Definition Permit_check_body (permit : Permit) (id : EventId) (metadata : Metadata) (text : Text) :
  result unit ReadRefusal :=
  if negb (bool_decide (Descriptor_id (Permit_descriptor permit) = id))
     || negb (bool_decide (Descriptor_metadata (Permit_descriptor permit) = metadata))
     || negb (Descriptor_body_bytes (Permit_descriptor permit) =? str_len (as_str text))
  then Err ReadRefusal_Descriptor else Ok tt.

Definition Permit_observation (permit : Permit) : Observation :=
  mkObservation (Descriptor_id (Permit_descriptor permit)) (Permit_reader permit).

(** ** Lemmas *)

Lemma reader_grant_named d r :
  reader_grant d r = ReaderGrant_Named <->
  r ∈ AgentList_agents (Metadata_permitted_readers (Descriptor_metadata d)).
Proof.
  unfold reader_grant. rewrite <- AgentList_contains_iff.
  by destruct (AgentList_contains _ _).
Qed.

Lemma read_decision_ok facts bytes limit :
  read_decision facts bytes limit = Ok tt <->
  project_matches facts = true /\ scope_matches facts = true /\
  ReadFacts_descriptor facts = DescriptorMatch_Exact /\
  ReadFacts_reader facts = ReaderGrant_Named /\
  0 < limit <= MAX_BODY_BYTES /\ 0 < bytes <= limit.
Proof.
  unfold read_decision. destruct facts as [[] [] [] []]; cbn; try (split; naive_solver).
  destruct (N.eqb_spec limit 0), (N.ltb_spec MAX_BODY_BYTES limit); cbn;
    try (split; [done | intros; destruct_and?; lia]).
  destruct (N.eqb_spec bytes 0), (N.ltb_spec limit bytes); cbn;
    try (split; [done | intros; destruct_and?; lia]).
  split; [|done]. intros _. repeat split; lia.
Qed.

Lemma observation_decision_ok facts :
  observation_decision facts = Ok tt <->
  parent_matches facts = true /\ issuer_matches facts = true /\
  ObservationFacts_reader facts = ReaderGrant_Named /\ audience_matches facts = true /\
  parent_clock facts < observation_clock facts.
Proof.
  unfold observation_decision. destruct facts as [[] [] [] [] pc oc]; cbn; try (split; naive_solver).
  destruct (N.leb_spec oc pc); split; try done.
  intros; destruct_and?; lia.
Qed.

Lemma ReadLimit_bounds l : 0 < ReadLimit_bytes l <= MAX_BODY_BYTES.
Proof.
  pose proof (ReadLimit_ok l) as H. apply Is_true_true in H. unfold read_limit_valid in H.
  rewrite negb_true_iff, orb_false_iff, N.eqb_neq, N.ltb_ge in H. lia.
Qed.

Lemma ReadLimit_try_from_ok n l : ReadLimit_try_from n = Ok l <-> ReadLimit_bytes l = n.
Proof.
  unfold ReadLimit_try_from. split.
  - case_decide; [|done]. by intros [= <-].
  - intros <-. case_decide as H; [f_equal; by apply ReadLimit_bytes_inj | by destruct l].
Qed.

Lemma Descriptor_new_ok id metadata text d :
  Descriptor_new id metadata text = Ok d <->
  Descriptor_id d = id /\ Descriptor_metadata d = metadata /\
  Descriptor_body_bytes d = str_len (as_str text).
Proof.
  unfold Descriptor_new, Descriptor_body_bytes. split.
  - destruct (ReadLimit_try_from _) as [l|] eqn:El; [|done]. apply ReadLimit_try_from_ok in El.
    unfold Descriptor_try_from. case_decide; [|done]. by intros [= <-].
  - intros (<- & <- & Hb). rewrite (proj2 (ReadLimit_try_from_ok _ _) Hb).
    unfold Descriptor_try_from; cbn. case_decide as H.
    + f_equal. by apply RawDescriptor_from_inj.
    + by destruct d.
Qed.

Lemma Metadata_new_spec sender target context readers :
  match Metadata_new sender target context readers with
  | Ok m =>
      RawMetadata_from m = mkRawMetadata sender target context.1 context.2 readers
  | Err e =>
      named_reader target readers = false \/
      policy_audience (sender :: AgentList_agents readers) = Err e
  end.
Proof.
  assert (Hof : forall admitted r (H : policy_audience (sender :: AgentList_agents readers) = r),
    match Metadata_of sender target context.1 context.2 readers admitted r H with
    | Ok m => RawMetadata_from m = mkRawMetadata sender target context.1 context.2 readers
    | Err e => policy_audience (sender :: AgentList_agents readers) = Err e
    end) by (by intros admitted [a|e] H).
  assert (Had : forall b (H : named_reader target readers = b),
    match Metadata_admitted sender target context readers b H with
    | Ok m => RawMetadata_from m = mkRawMetadata sender target context.1 context.2 readers
    | Err e => named_reader target readers = false \/
               policy_audience (sender :: AgentList_agents readers) = Err e
    end).
  { intros [] H; cbn; [|by left].
    specialize (Hof H _ eq_refl). destruct (Metadata_of _ _ _ _ _ _ _ _); auto. }
  apply Had.
Qed.

(** ** Properties *)

(** A reader is granted a handoff exactly when the selected descriptor is the stored one, the
    reader is one of its permitted readers and the body fits the read limit.  The permit then
    accepts exactly the body the descriptor announces, and the observation it records is admitted
    for a read by that reader after the handoff, to the handoff's own audience, and for no other
    issuer, audience or earlier clock. *)
Theorem handoff_read_authorized (stored selected : Descriptor) (reader : AgentId)
    (limit : ReadLimit) :
  (is_ok (Descriptor_authorize stored reader selected limit) = true <->
     stored = selected /\
     reader ∈ AgentList_agents (Metadata_permitted_readers (Descriptor_metadata stored)) /\
     Descriptor_body_bytes stored <= ReadLimit_bytes limit) /\
  forall permit, Descriptor_authorize stored reader selected limit = Ok permit ->
    (forall id metadata text,
       Permit_check_body permit id metadata text = Ok tt <->
       Descriptor_new id metadata text = Ok stored) /\
    (forall issuer audience clock now,
       Descriptor_admit_observation stored (Permit_observation permit) (issuer, audience) (clock, now)
         = Ok tt <->
       issuer = reader /\ audience = Metadata_audience (Descriptor_metadata stored) /\ clock < now).
Proof.
  assert (Hiff : forall p, Descriptor_authorize stored reader selected limit = Ok p <->
    p = mkPermit stored reader /\ stored = selected /\
    reader ∈ AgentList_agents (Metadata_permitted_readers (Descriptor_metadata stored)) /\
    Descriptor_body_bytes stored <= ReadLimit_bytes limit).
  { intros p. unfold Descriptor_authorize.
    match goal with |- context [read_decision ?f ?b ?l] => set (F := f);
      destruct (read_decision F b l) as [[]|e] eqn:E end.
    - apply read_decision_ok in E as (_ & _ & Hd & Hr & _ & Hb). cbn in Hd, Hr.
      apply reader_grant_named in Hr. case_decide; [|done]. split; [|by intros [-> _]].
      intros [= <-]. split; [done|]. split; [done|]. split; [done|]. lia.
    - split; [done|]. intros (_ & Hs & Hr & Hb). exfalso.
      enough (read_decision F (Descriptor_body_bytes stored) (ReadLimit_bytes limit) = Ok tt) by congruence.
      apply read_decision_ok. subst selected. unfold F. cbn.
      rewrite !bool_decide_eq_true_2, decide_True by done.
      pose proof (ReadLimit_bounds limit). pose proof (ReadLimit_bounds (Descriptor_body_limit stored)).
      repeat split; try done; try lia; [by apply reader_grant_named|].
      unfold Descriptor_body_bytes. lia. }
  split.
  - rewrite is_ok_true. setoid_rewrite Hiff. naive_solver.
  - intros p Hp. apply Hiff in Hp as (-> & _ & Hr & _). split.
    + intros id metadata text. rewrite Descriptor_new_ok. unfold Permit_check_body. cbn.
      destruct (bool_decide_reflect (Descriptor_id stored = id)),
        (bool_decide_reflect (Descriptor_metadata stored = metadata)),
        (N.eqb_spec (Descriptor_body_bytes stored) (str_len (as_str text))); cbn; naive_solver.
    + intros issuer audience clock now. unfold Descriptor_admit_observation.
      rewrite observation_decision_ok. cbn. rewrite !bool_decide_eq_true, reader_grant_named.
      naive_solver.
Qed.

(** The audience of handoff metadata is exactly the machines of its sender and of its permitted
    readers, its intended recipient is one of those readers when it names an agent, and metadata
    survive the conversion to their raw form and back. *)
Theorem metadata_audience_is_readers (metadata : Metadata) :
  (forall origin,
     Audience_includes (Metadata_audience metadata) origin = true <->
     exists agent,
       agent ∈ Metadata_sender metadata :: AgentList_agents (Metadata_permitted_readers metadata) /\
       AgentId_origin agent = origin) /\
  (forall agent, Metadata_intended_recipient metadata = Target_Agent agent ->
     AgentList_contains (Metadata_permitted_readers metadata) agent = true) /\
  Metadata_try_from (RawMetadata_from metadata) = Ok metadata.
Proof.
  pose proof (Metadata_audience_spec metadata) as Ha.
  assert (Htarget : named_reader (Metadata_intended_recipient metadata)
                      (Metadata_permitted_readers metadata) = true).
  { pose proof (Metadata_ok metadata) as H. unfold metadata_valid in H.
    by apply Is_true_true, andb_true_iff in H as [H _]. }
  split; [|split].
  - intros origin. by apply policy_audience_includes.
  - intros agent E. by rewrite E in Htarget.
  - pose proof (Metadata_new_spec (Metadata_sender metadata) (Metadata_intended_recipient metadata)
      (Metadata_project metadata, Metadata_scope metadata) (Metadata_permitted_readers metadata)) as H.
    unfold Metadata_try_from. cbn. destruct (Metadata_new _ _ _ _) as [m|e].
    + f_equal. by apply RawMetadata_from_inj.
    + exfalso. destruct H; congruence.
Qed.
