(* ===== verification/Event.v ===== *)
(** chat/event.rs, lines 88-121 and 163-601: message intents, outcomes, the bodies of events, the
    checks an event passes before it exists, its order, its export to a peer, and sealing. *)

From Stdlib Require Import NArith Lia String Ascii Sorted.
From stdpp Require Import base gmap list strings.
From S2P Require Import Prelude SortedLists RustStr Ids AgentLists Notification Handoff.

(** ** Definitions *)

Inductive Intent :=
| Intent_Send
| Intent_Ask (responder : AgentId) (chain : Chain)
| Intent_Reply (request : EventId).

Inductive Outcome := Outcome_Failed | Outcome_Interrupted | Outcome_Unavailable | Outcome_Withdrawn.

Definition Outcome_as_str (outcome : Outcome) : string :=
  match outcome with
  | Outcome_Failed => "failed"
  | Outcome_Interrupted => "interrupted"
  | Outcome_Unavailable => "unavailable"
  | Outcome_Withdrawn => "withdrawn"
  end.

Inductive Body :=
| Body_Profile (agent : AgentName) (card : Card)
| Body_Left (agent : AgentName)
| Body_Machine (card : MachineCard)
| Body_Room (name : RoomName) (topic : option (Line 256)) (members : Members)
| Body_RoomClosed (name : RoomName)
| Body_Message (conversation : Conversation) (from : AgentName) (text : Text)
    (audience : Audience) (intent : Intent) (at_ : Stamp) (notice : option Notice)
| Body_Handoff (metadata : Metadata) (text : Text) (at_ : Stamp)
| Body_HandoffRead (observation : Observation) (audience : Audience)
| Body_Receipt (request : EventId) (conversation : Conversation) (audience : Audience)
    (agent : AgentName) (delivery : Delivery)
| Body_Activity (agent : AgentName) (activity : Activity)
| Body_TurnStarted (request : EventId) (conversation : Conversation) (audience : Audience)
    (agent : AgentName)
| Body_Resolved (request : EventId) (conversation : Conversation) (audience : Audience)
    (agent : AgentName) (outcome : Outcome)
| Body_Omitted.

Definition Body_thread (body : Body) : option (Conversation * Audience) :=
  match body with
  | Body_Message conversation _ _ audience _ _ _
  | Body_TurnStarted _ conversation audience _
  | Body_Resolved _ conversation audience _ _
  | Body_Receipt _ conversation audience _ _ => Some (conversation, audience)
  | Body_Profile _ _ | Body_Left _ | Body_Machine _ | Body_Room _ _ _ | Body_RoomClosed _
  | Body_Activity _ _ | Body_Handoff _ _ _ | Body_HandoffRead _ _ | Body_Omitted => None
  end.

Definition Body_audience (body : Body) : option Audience :=
  match body with
  | Body_Handoff metadata _ _ => Some (Metadata_audience metadata)
  | Body_HandoffRead _ audience => Some audience
  | _ => option_map snd (Body_thread body)
  end.

Definition Body_conversation (body : Body) : option Conversation := option_map fst (Body_thread body).

Definition Body_request (body : Body) : option EventId :=
  match body with
  | Body_HandoffRead observation _ => Some (Observation_handoff observation)
  | Body_Message _ _ _ _ (Intent_Reply request) _ _
  | Body_TurnStarted request _ _ _
  | Body_Resolved request _ _ _ _
  | Body_Receipt request _ _ _ _ => Some request
  | _ => None
  end.

Definition Body_author (body : Body) : option AgentName :=
  match body with
  | Body_Message _ agent _ _ _ _ _
  | Body_Profile agent _
  | Body_Left agent
  | Body_TurnStarted _ _ _ agent
  | Body_Resolved _ _ _ agent _
  | Body_Receipt _ _ _ agent _
  | Body_Activity agent _ => Some agent
  | Body_Handoff metadata _ _ => Some (AgentId_name (Metadata_sender metadata))
  | Body_HandoffRead observation _ => Some (AgentId_name (Observation_reader observation))
  | Body_Machine _ | Body_Room _ _ _ | Body_RoomClosed _ | Body_Omitted => None
  end.

Definition valid_ask (sender : AgentId) (conversation : Conversation) (audience : Audience)
    (ask : AgentId * Chain) : bool :=
  let '(responder, chain) := ask in
  negb (bool_decide (responder = sender))
  && negb (AgentList_contains chain responder)
  && negb (AgentList_contains chain sender)
  && Audience_includes audience (AgentId_origin responder)
  && match conversation with
     | Conversation_Direct pair_ => bool_decide (DirectPair_other pair_ sender = Some responder)
     | Conversation_Room _ => true
     end.

Definition valid_thread (conversation : Conversation) (audience : Audience) (author : AgentId) :
  bool :=
  match conversation with
  | Conversation_Direct pair_ =>
      let '(first, second) := DirectPair_agents pair_ in
      let '(first, second) := (AgentId_origin first, AgentId_origin second) in
      DirectPair_includes pair_ author
      && match cmp first second with
         | Eq => match Audience_members audience with
                 | [only] => bool_decide (only = first)
                 | _ => false
                 end
         | Lt => match Audience_members audience with
                 | [lower; upper] => bool_decide (lower = first) && bool_decide (upper = second)
                 | _ => false
                 end
         | Gt => match Audience_members audience with
                 | [lower; upper] => bool_decide (lower = second) && bool_decide (upper = first)
                 | _ => false
                 end
         end
  | Conversation_Room _ => true
  end.

Definition valid_notice (sender : AgentId) (thread : Conversation * Audience) (intent : Intent)
    (notice : Notice) : bool :=
  let '(conversation, audience) := thread in
  negb (AgentList_contains (Notice_recipients notice) sender
        || existsb (fun agent =>
             negb (Audience_includes audience (AgentId_origin agent))
             || match conversation with
                | Conversation_Direct pair_ => negb (DirectPair_includes pair_ agent)
                | Conversation_Room _ => false
                end) (AgentList_agents (Notice_recipients notice))
        || match Notice_question notice with
           | Some question =>
               bool_decide (Question_fallback question = sender)
               || negb match intent with
                       | Intent_Ask _ chain =>
                           negb (AgentList_contains chain (Question_fallback question))
                       | _ => false
                       end
           | None => false
           end
        || match intent with
           | Intent_Ask responder _ => negb (AgentList_contains (Notice_recipients notice) responder)
           | _ => false
           end).

(** The checks of [Event::new], in their order.  [clock == u64::MAX] is written [<=] so that the
    bound of the type is part of the check; on 64-bit values it is the same test. *)
Definition Event_check (id : EventId) (clock : N) (body : Body) : result unit Invalid :=
  if (clock =? 0) || (u64_max <=? clock) then Err (mkInvalid "event clock") else
  if match body with
     | Body_Handoff metadata _ _ =>
         negb (bool_decide (AgentId_origin (Metadata_sender metadata) = EventId_origin id))
     | _ => false
     end then Err (mkInvalid "handoff sender origin") else
  if match body with
     | Body_HandoffRead observation audience =>
         negb (bool_decide (AgentId_origin (Observation_reader observation) = EventId_origin id))
         || negb (Audience_includes audience (EventId_origin id))
     | _ => false
     end then Err (mkInvalid "handoff observation author or audience") else
  if match Body_thread body with
     | Some (conversation, audience) =>
         let author := option_map (fun name => AgentId_new name (EventId_origin id))
                         (Body_author body) in
         negb (Audience_includes audience (EventId_origin id))
         || negb match author with
                 | Some author => valid_thread conversation audience author
                 | None => false
                 end
     | None => false
     end then Err (mkInvalid "conversation author or audience") else
  if match body with
     | Body_Message conversation from _ audience (Intent_Ask responder chain) _ _ =>
         let sender := AgentId_new from (EventId_origin id) in
         negb (valid_ask sender conversation audience (responder, chain))
     | _ => false
     end then Err (mkInvalid "ask responder, conversation, or delegation chain") else
  if match body with
     | Body_Message conversation from _ audience intent _ (Some notice) =>
         let sender := AgentId_new from (EventId_origin id) in
         negb (valid_notice sender (conversation, audience) intent notice)
     | _ => false
     end then Err (mkInvalid "message notification recipients") else
  if match body with
     | Body_Receipt _ _ _ _ Delivery_Pending => true
     | _ => false
     end
  then Err (mkInvalid "a receipt must record delivery, reading, or acknowledgment") else
  Ok tt.

(** The private fields are only ever set together by [Event::new] (and by [omitted]). *)
Record Event := mkEvent {
  Event_id : EventId;
  Event_clock : N;
  Event_body : Body;
  Event_ok : Is_true (is_ok (Event_check Event_id Event_clock Event_body))
}.

Definition Event_of (id : EventId) (clock : N) (body : Body) (checked : result unit Invalid) :
  Event_check id clock body = checked -> result Event Invalid :=
  match checked with
  | Err e => fun _ => Err e
  | Ok u => fun H => Ok (mkEvent id clock body (is_ok_of _ u H))
  end.

Definition Event_new (id : EventId) (clock : N) (body : Body) : result Event Invalid :=
  Event_of id clock body (Event_check id clock body) eq_refl.

Record RawEvent := mkRawEvent {
  RawEvent_origin : Origin;
  RawEvent_seq : NonZeroU64;
  RawEvent_clock : N;
  RawEvent_body : Body
}.

Definition Event_try_from (raw : RawEvent) : result Event Invalid :=
  Event_new (EventId_new (RawEvent_origin raw) (RawEvent_seq raw)) (RawEvent_clock raw)
    (RawEvent_body raw).

Definition RawEvent_from (event : Event) : RawEvent :=
  mkRawEvent (EventId_origin (Event_id event)) (EventId_seq (Event_id event)) (Event_clock event)
    (Event_body event).

Definition Event_origin (event : Event) : Origin := EventId_origin (Event_id event).

Definition Event_author (event : Event) : option AgentId :=
  option_map (fun name => AgentId_new name (Event_origin event)) (Body_author (Event_body event)).

Definition Event_order (event : Event) : N * (Origin * NonZeroU64) :=
  (Event_clock event, (Event_origin event, EventId_seq (Event_id event))).

Lemma Event_check_clock id clock body :
  is_ok (Event_check id clock body) = true -> 0 < clock < u64_max.
Proof.
  unfold Event_check. destruct (N.eqb_spec clock 0), (N.leb_spec u64_max clock); cbn; try done.
  lia.
Qed.

Lemma Event_check_omitted id clock body :
  Is_true (is_ok (Event_check id clock body)) -> Is_true (is_ok (Event_check id clock Body_Omitted)).
Proof.
  rewrite !Is_true_true. intros H%Event_check_clock. unfold Event_check.
  destruct (N.eqb_spec clock 0), (N.leb_spec u64_max clock); cbn; try done; lia.
Qed.

Definition Event_omitted (event : Event) : Event :=
  mkEvent (Event_id event) (Event_clock event) Body_Omitted
    (Event_check_omitted _ _ _ (Event_ok event)).

Definition Event_export (event : Event) (peer : Origin) : Event :=
  match Body_audience (Event_body event) with
  | Some audience => if negb (Audience_includes audience peer) then Event_omitted event else event
  | None => event
  end.

(** *** Decidable equality *)

#[export] Instance Intent_eq_dec : EqDecision Intent.
Proof. solve_decision. Defined.
#[export] Instance Outcome_eq_dec : EqDecision Outcome.
Proof. solve_decision. Defined.
#[export] Instance Body_eq_dec : EqDecision Body.
Proof. solve_decision. Defined.
#[export] Instance RawEvent_eq_dec : EqDecision RawEvent.
Proof. solve_decision. Defined.

Lemma Event_inj (a b : Event) :
  Event_id a = Event_id b -> Event_clock a = Event_clock b -> Event_body a = Event_body b -> a = b.
Proof. destruct a, b; cbn. intros -> -> ->. f_equal. apply proof_irrel. Qed.

Lemma RawEvent_from_inj a b : RawEvent_from a = RawEvent_from b -> a = b.
Proof.
  intros [= Ho Hs Hc Hb]. apply Event_inj; [|done..].
  destruct (Event_id a), (Event_id b); cbn in *; by subst.
Qed.
#[export] Instance Event_eq_dec : EqDecision Event := inj_eq_dec _ RawEvent_from_inj.

(** *** Sealing

    [serde_json::to_string] and [blake3::hash] are the libraries' functions. *)

Class Codec := {
  to_string : Event -> option string;
  blake3_hash : list N -> list N
}.

(** [Digest([u8; 32])] *)
Record Digest := Digest_from_bytes { Digest_as_bytes : list N }.
#[export] Instance Digest_eq_dec : EqDecision Digest.
Proof. solve_decision. Defined.

Definition Digest_of `{Codec} (encoded : list N) : Digest := Digest_from_bytes (blake3_hash encoded).

Record Sealed := mkSealed {
  Sealed_event : Event;
  Sealed_encoded : string;
  Sealed_digest : Digest
}.
#[export] Instance Sealed_eq_dec : EqDecision Sealed.
Proof. solve_decision. Defined.

Definition Sealed_new `{Codec} (event : Event) : result Sealed Invalid :=
  let? encoded := ok_or (to_string event) (mkInvalid "event encoding") in
  if MAX_EVENT_BYTES <? str_len encoded then Err (mkInvalid "event exceeds its size limit") else
  let digest := Digest_of (bytes encoded) in
  Ok (mkSealed event encoded digest).

(** ** What a well-formed event is

    A declarative reading of the checks, in terms of membership rather than of searches in
    sorted lists. *)

Definition thread_spec (conversation : Conversation) (audience : Audience) (author : AgentId) : Prop :=
  match conversation with
  | Conversation_Direct agents =>
      (author = DirectPair_first agents \/ author = DirectPair_second agents) /\
      forall origin, origin ∈ Audience_members audience <->
        origin = AgentId_origin (DirectPair_first agents) \/
        origin = AgentId_origin (DirectPair_second agents)
  | Conversation_Room _ => True
  end.

Definition ask_spec (sender : AgentId) (conversation : Conversation) (audience : Audience)
    (responder : AgentId) (chain : Chain) : Prop :=
  responder <> sender /\
  responder ∉ AgentList_agents chain /\ sender ∉ AgentList_agents chain /\
  AgentId_origin responder ∈ Audience_members audience /\
  match conversation with
  | Conversation_Direct agents => DirectPair_other agents sender = Some responder
  | Conversation_Room _ => True
  end.

Definition notice_spec (sender : AgentId) (conversation : Conversation) (audience : Audience)
    (intent : Intent) (notice : Notice) : Prop :=
  let recipients := AgentList_agents (Notice_recipients notice) in
  sender ∉ recipients /\
  (forall recipient, recipient ∈ recipients ->
     AgentId_origin recipient ∈ Audience_members audience /\
     match conversation with
     | Conversation_Direct agents =>
         recipient = DirectPair_first agents \/ recipient = DirectPair_second agents
     | Conversation_Room _ => True
     end) /\
  (forall question, Notice_question notice = Some question ->
     Question_fallback question <> sender /\
     exists responder chain, intent = Intent_Ask responder chain /\
       Question_fallback question ∉ AgentList_agents chain) /\
  (forall responder chain, intent = Intent_Ask responder chain -> responder ∈ recipients).

Definition event_spec (id : EventId) (clock : N) (body : Body) : Prop :=
  let author name := AgentId_new name (EventId_origin id) in
  0 < clock < u64_max /\
  match body with
  | Body_Message conversation from _ audience intent _ notice =>
      EventId_origin id ∈ Audience_members audience /\
      thread_spec conversation audience (author from) /\
      (forall responder chain, intent = Intent_Ask responder chain ->
         ask_spec (author from) conversation audience responder chain) /\
      (forall n, notice = Some n -> notice_spec (author from) conversation audience intent n)
  | Body_Receipt _ conversation audience agent delivery =>
      EventId_origin id ∈ Audience_members audience /\
      thread_spec conversation audience (author agent) /\ delivery <> Delivery_Pending
  | Body_TurnStarted _ conversation audience agent
  | Body_Resolved _ conversation audience agent _ =>
      EventId_origin id ∈ Audience_members audience /\
      thread_spec conversation audience (author agent)
  | Body_Handoff metadata _ _ => AgentId_origin (Metadata_sender metadata) = EventId_origin id
  | Body_HandoffRead observation audience =>
      AgentId_origin (Observation_reader observation) = EventId_origin id /\
      EventId_origin id ∈ Audience_members audience
  | _ => True
  end.

(** ** Lemmas *)

Lemma Event_of_ok id clock body r (H : Event_check id clock body = r) e :
  Event_of id clock body r H = Ok e <->
  Event_id e = id /\ Event_clock e = clock /\ Event_body e = body.
Proof.
  destruct r as [u|err]; cbn.
  - split; [by intros [= <-]|]. intros (<- & <- & <-). f_equal. by apply Event_inj.
  - split; [done|]. intros (<- & <- & <-). pose proof (Event_ok e) as Hok. by rewrite H in Hok.
Qed.

Lemma Event_new_ok id clock body e :
  Event_new id clock body = Ok e <->
  Event_id e = id /\ Event_clock e = clock /\ Event_body e = body.
Proof. apply Event_of_ok. Qed.

Lemma Event_new_total id clock body :
  is_ok (Event_new id clock body) = is_ok (Event_check id clock body).
Proof.
  unfold Event_new.
  assert (H : forall r (H : Event_check id clock body = r),
    is_ok (Event_of id clock body r H) = is_ok r) by (by intros []).
  apply H.
Qed.

Lemma Event_bounds e : 0 < Event_clock e < u64_max.
Proof. eapply Event_check_clock, Is_true_true, (Event_ok e). Qed.

Lemma pair_of_members (x y : Origin) (a : Audience) :
  cmp_lt x y ->
  (match Audience_members a with
   | [lower; upper] => bool_decide (lower = x) && bool_decide (upper = y)
   | _ => false
   end = true <-> forall o, o ∈ Audience_members a <-> o = x \/ o = y).
Proof.
  intros Hxy. transitivity (Audience_members a = [x; y]).
  - destruct (Audience_members a) as [|l [|u [|w t]]]; try done.
    rewrite andb_true_iff, !bool_decide_eq_true. naive_solver.
  - split; [intros ->; set_solver|]. intros Heq. apply increasing_ext.
    + apply Audience_increasing.
    + repeat constructor. done.
    + set_solver.
Qed.

Lemma valid_thread_spec conversation audience author :
  valid_thread conversation audience author = true <-> thread_spec conversation audience author.
Proof.
  destruct conversation as [p|room]; [|done]. unfold valid_thread, thread_spec. cbn.
  rewrite andb_true_iff, DirectPair_includes_iff. apply and_iff_compat_l.
  set (x := AgentId_origin (DirectPair_first p)). set (y := AgentId_origin (DirectPair_second p)).
  destruct (cmp x y) eqn:E.
  - apply cmp_eq_iff in E as <-. transitivity (Audience_members audience = [x]).
    + destruct (Audience_members audience) as [|o [|? ?]]; try done.
      rewrite bool_decide_eq_true. naive_solver.
    + split; [intros ->; set_solver|]. intros Heq. apply increasing_ext.
      * apply Audience_increasing.
      * repeat constructor.
      * set_solver.
  - by apply pair_of_members.
  - rewrite pair_of_members by (by apply cmp_gt_lt). naive_solver.
Qed.

Lemma valid_ask_spec sender conversation audience responder chain :
  valid_ask sender conversation audience (responder, chain) = true <->
  ask_spec sender conversation audience responder chain.
Proof.
  unfold valid_ask, ask_spec. rewrite !andb_true_iff, !negb_true_iff, bool_decide_eq_false.
  rewrite <- !not_true_iff_false, !AgentList_contains_iff, Audience_includes_iff.
  destruct conversation; [rewrite bool_decide_eq_true|]; naive_solver.
Qed.

Lemma valid_notice_spec sender conversation audience intent notice :
  valid_notice sender (conversation, audience) intent notice = true <->
  notice_spec sender conversation audience intent notice.
Proof.
  unfold valid_notice, notice_spec.
  rewrite negb_true_iff, !orb_false_iff, !Logic.and_assoc.
  rewrite <- (not_true_iff_false (AgentList_contains _ sender)), AgentList_contains_iff.
  apply and_iff_compat_l. apply Morphisms_Prop.and_iff_morphism; [|apply Morphisms_Prop.and_iff_morphism].
  - rewrite <- not_true_iff_false, existsb_exists. setoid_rewrite orb_true_iff.
    setoid_rewrite negb_true_iff. setoid_rewrite <- not_true_iff_false.
    setoid_rewrite Audience_includes_iff. setoid_rewrite <- list_elem_of_In. split.
    + intros Hno r Hr. split.
      * destruct (decide (AgentId_origin r ∈ Audience_members audience)); [done|].
        exfalso. apply Hno. eauto.
      * destruct conversation as [p|]; [|done]. apply DirectPair_includes_iff.
        destruct (DirectPair_includes p r) eqn:E; [done|]. exfalso. apply Hno. exists r.
        rewrite E. auto.
    + intros Hall (r & Hr & Hbad). destruct (Hall r Hr) as [Hin Hp].
      destruct Hbad as [Hbad|Hbad]; [done|]. destruct conversation as [p|]; [|done].
      apply DirectPair_includes_iff in Hp. by rewrite Hp in Hbad.
  - destruct (Notice_question notice) as [q|]; [|split; [done|naive_solver]].
    rewrite orb_false_iff, bool_decide_eq_false, negb_false_iff. split.
    + intros [Hne Hi] ? [= <-]. split; [done|]. destruct intent; try done.
      do 2 eexists. split; [done|]. apply negb_true_iff, not_true_iff_false in Hi.
      by rewrite AgentList_contains_iff in Hi.
    + intros H. destruct (H q eq_refl) as (Hne & r & ch & -> & Hn). split; [done|].
      by rewrite negb_true_iff, <- not_true_iff_false, AgentList_contains_iff.
  - destruct intent; try (split; [done|naive_solver]).
    rewrite negb_false_iff, AgentList_contains_iff. naive_solver.
Qed.

Lemma guard_ok {T Er} (b : bool) (e : Er) (r : result T Er) :
  is_ok (if b then Err e else r) = true <-> b = false /\ is_ok r = true.
Proof. destruct b; cbn; naive_solver. Qed.

Lemma Event_check_spec id clock body :
  is_ok (Event_check id clock body) = true <-> event_spec id clock body.
Proof.
  unfold Event_check, event_spec. rewrite !guard_ok.
  rewrite orb_false_iff, N.eqb_neq, N.leb_gt.
  apply Morphisms_Prop.and_iff_morphism; [lia|].
  destruct body as [| | | | |c from t a [|r ch|q] at_ [n|]| | |q c a ag []| | | |];
    cbn -[valid_ask valid_notice valid_thread];
    rewrite ?orb_false_iff, ?negb_false_iff, ?bool_decide_eq_true, ?Audience_includes_iff,
      ?valid_thread_spec, ?valid_ask_spec, ?valid_notice_spec;
    naive_solver.
Qed.

(** The peers an event is meant for. *)
Definition visible (event : Event) (peer : Origin) : Prop :=
  forall audience, Body_audience (Event_body event) = Some audience ->
    peer ∈ Audience_members audience.

Lemma Event_omitted_visible event peer : visible (Event_omitted event) peer.
Proof. done. Qed.

Lemma Event_export_cases event peer :
  (Event_export event peer = event /\ visible event peer) \/
  (Event_export event peer = Event_omitted event /\ ~ visible event peer).
Proof.
  unfold Event_export, visible. destruct (Body_audience (Event_body event)) as [a|]; [|by left].
  destruct (Audience_includes a peer) eqn:E; cbn; [left|right]; (split; [done|]).
  - by intros ? [= <-]; apply Audience_includes_iff.
  - intros H. specialize (H a eq_refl). apply Audience_includes_iff in H. congruence.
Qed.

(** ** Properties *)

(** C26: [Event::new] builds an event exactly when it is well formed: its clock leaves room for a
    successor, the machine that signs it is in its audience, its author belongs to the
    conversation and a direct conversation has exactly the audience of its two machines, an ask
    goes to somebody else who is in the audience and outside the chain of waiting agents, a
    notice names only recipients the conversation reaches, a receipt records some delivery and a
    handoff comes from its sender's machine.  The event holds exactly the given parts, and
    events survive the conversion to their raw form and back. *)
Theorem event_new_admits (id : EventId) (clock : N) (body : Body) :
  (is_ok (Event_new id clock body) = true <-> event_spec id clock body) /\
  (forall event, Event_new id clock body = Ok event <->
     Event_id event = id /\ Event_clock event = clock /\ Event_body event = body) /\
  (forall event, Event_try_from (RawEvent_from event) = Ok event).
Proof.
  split; [|split].
  - rewrite Event_new_total. apply Event_check_spec.
  - apply Event_new_ok.
  - intros event. apply Event_new_ok. cbn. by destruct (Event_id event).
Qed.

(** C24: export is confidential and stable.  A peer outside an event's audience gets an event
    without content; what it gets always keeps the identifier, the clock and therefore the order
    of the original; everyone else gets the event itself; and exporting again, to the same peer
    or after an omission, changes nothing. *)
Theorem export_confidential (event : Event) (peer : Origin) :
  let exported := Event_export event peer in
  Event_order exported = Event_order event /\ Event_id exported = Event_id event /\
  visible exported peer /\
  (exported = event <-> visible event peer) /\
  (exported <> event -> Event_body exported = Body_Omitted) /\
  Event_export exported peer = exported.
Proof.
  cbn. destruct (Event_export_cases event peer) as [[-> Hv]|[-> Hv]].
  - repeat split; try done. destruct (Event_export_cases event peer) as [[-> _]|[_ []]]; done.
  - do 3 (split; [done|]). split; [|done]. split; [|by intros ?%Hv].
    intros <-. apply Event_omitted_visible.
Qed.
