(* ===== verification/Ledger.v ===== *)
(** chat/ledger.rs and ledger/parent_identity.rs: the interface of an event ledger, how an event
    is judged against what the ledger holds, and the operations that append local events and
    receive those of a peer.  The operations are written against the class [Ledger]; its laws,
    [LedgerLaws], are what their theorems rely on and what an implementation proves. *)

From Stdlib Require Import NArith Lia String Ascii.
From stdpp Require Import base gmap list strings.
From S2P Require Import Prelude SortedLists RustStr Ids AgentLists Notification Handoff Event.

(** ** Definitions *)

Record Cursor := mkCursor { seen : N; Cursor_clock : N }.
#[export] Instance Cursor_eq_dec : EqDecision Cursor.
Proof. solve_decision. Defined.

(** [#[derive(Default)]] *)
Definition Cursor_default : Cursor := mkCursor 0 0.

Inductive Parent :=
| Parent_Present (event : Event)
| Parent_Opaque
| Parent_Missing.

(** [parent_identity::matches] *)
Definition parent_identity_matches (parent : option EventId) (request : EventId) : bool :=
  match parent with
  | Some id => bool_decide (id = request)
  | None => true
  end.

Definition Parent_matches (parent : Parent) (request : EventId) : bool :=
  let identity := match parent with
                  | Parent_Present parent => Some (Event_id parent)
                  | Parent_Opaque | Parent_Missing => None
                  end in
  parent_identity_matches identity request.

Inductive Ending := Ending_Answered | Ending_Ended (outcome : Outcome).
#[export] Instance Ending_eq_dec : EqDecision Ending.
Proof. solve_decision. Defined.

Record Resolution := mkResolution {
  Resolution_event : EventId;
  Resolution_clock : N;
  Resolution_ending : Ending;
  Resolution_asker : AgentId;
  Resolution_responder : AgentId
}.
#[export] Instance Resolution_eq_dec : EqDecision Resolution.
Proof. solve_decision. Defined.

(** The key [precedes] compares. *)
Definition Resolution_key (r : Resolution) : N * (Origin * NonZeroU64) :=
  (Resolution_clock r, (EventId_origin (Resolution_event r), EventId_seq (Resolution_event r))).

Definition Resolution_precedes (self other : Resolution) : bool :=
  cmp_ltb (Resolution_key self) (Resolution_key other).

Definition MAX_ROOM_TOPIC_BYTES : N := 256.

Record Room := mkRoom { Room_topic : option (Line MAX_ROOM_TOPIC_BYTES); Room_members : Members }.
#[export] Instance Room_eq_dec : EqDecision Room.
Proof. solve_decision. Defined.

Inductive Rejection :=
| Rejection_MissingDependency (event request : EventId)
| Rejection_Gap (origin : Origin) (expected : N)
| Rejection_Conflict (event : EventId)
| Rejection_ClockRegression (event : EventId)
| Rejection_Mismatch (event : EventId)
| Rejection_Unauthorized (event : EventId)
| Rejection_ResourceLimit
| Rejection_WrongPeer
| Rejection_AheadOfHistory
| Rejection_Inconsistent.
#[export] Instance Rejection_eq_dec : EqDecision Rejection.
Proof. solve_decision. Defined.

Inductive Change :=
| Change_Nothing
| Change_Profile (agent : AgentId) (card : option Card)
| Change_Machine (card : MachineCard)
| Change_Room (id : RoomId) (room : option Room)
| Change_Ask (responder : AgentId)
| Change_Started (request : EventId) (agent : AgentId)
| Change_Resolution (request : EventId) (resolution : Resolution) (wins : bool)
| Change_Receipt (request : EventId) (agent : AgentId) (delivery : Delivery)
| Change_Activity (agent : AgentId) (activity : Activity)
| Change_HandoffRead (request : EventId) (agent : AgentId).

Record Admitted_ := mkAdmitted { Admitted_cursor : Cursor; Admitted_change : Change }.

Inductive Decision_ := Decision_Duplicate | Decision_Append (admitted : Admitted_).

(** [pub trait Ledger]: [commit] takes [&mut self], so it also returns the ledger it leaves. *)
Class Ledger (L E : Type) := {
  Ledger_local : L -> Origin;
  Ledger_cursor : L -> Origin -> result Cursor E;
  Ledger_digest : L -> EventId -> result (option Digest) E;
  Ledger_parent : L -> EventId -> result Parent E;
  Ledger_resolution : L -> EventId -> result (option Resolution) E;
  Ledger_clock : L -> result N E;
  Ledger_has_room : L -> result bool E;
  Ledger_commit : L -> Sealed -> Admitted_ -> L * result unit E
}.

Inductive Failure (E : Type) :=
| Failure_Store (error : E)
| Failure_Rejected (rejection : Rejection)
| Failure_Invalid (invalid : Invalid).
Arguments Failure_Store {E} _.
Arguments Failure_Rejected {E} _.
Arguments Failure_Invalid {E} _.

Definition same_thread (event : Event) (conversation : Conversation) (audience : Audience)
    (parent : Event) : bool :=
  bool_decide (Body_conversation (Event_body parent) = Some conversation)
  && bool_decide (Body_audience (Event_body parent) = Some audience)
  && (Event_clock parent <? Event_clock event).

Definition ask_of (parent : Event) : option (AgentId * AgentId) :=
  match Event_body parent with
  | Body_Message _ from _ _ (Intent_Ask responder _) _ _ =>
      Some (AgentId_new from (Event_origin parent), responder)
  | _ => None
  end.

Record Candidate := mkCandidate { Candidate_ending : Ending; Candidate_author : AgentId }.

Definition Candidate_authorized (self : Candidate) (asker responder : AgentId) : bool :=
  match Candidate_ending self with
  | Ending_Ended Outcome_Withdrawn => bool_decide (Candidate_author self = asker)
  | Ending_Answered | Ending_Ended _ => bool_decide (Candidate_author self = responder)
  end.

Definition mismatch {E} (event : Event) : Failure E :=
  Failure_Rejected (Rejection_Mismatch (Event_id event)).

Definition plain_reply {E} (event : Event) (ending : Ending) : result Change (Failure E) :=
  match ending with
  | Ending_Answered => Ok Change_Nothing
  | Ending_Ended _ => Err (mismatch event)
  end.

Record ThreadParent := mkThreadParent {
  ThreadParent_conversation : Conversation;
  ThreadParent_audience : Audience;
  ThreadParent_agent : AgentId;
  ThreadParent_parent : Event
}.

Definition receipt_change (event : Event) (request : EventId) (delivery : Delivery)
    (context : ThreadParent) : result Change Rejection :=
  let addressed :=
    match Event_body (ThreadParent_parent context) with
    | Body_Message _ _ _ _ _ _ (Some notice) =>
        AgentList_contains (Notice_recipients notice) (ThreadParent_agent context)
    | Body_Message _ _ _ _ _ _ None =>
        negb (bool_decide (Event_author (ThreadParent_parent context)
                           = Some (ThreadParent_agent context)))
    | _ => false
    end in
  if negb addressed
     || negb (same_thread event (ThreadParent_conversation context)
                (ThreadParent_audience context) (ThreadParent_parent context))
  then Err (Rejection_Mismatch (Event_id event))
  else Ok (Change_Receipt request (ThreadParent_agent context) delivery).

Section operations.
Context `{codec : Codec} {L E : Type} `{ledger_ops : !Ledger L E}.

Definition checked_parent (ledger : L) (event : Event) (request : EventId) :
  result Parent (Failure E) :=
  let? parent := map_err Failure_Store (Ledger_parent ledger request) in
  if negb (Parent_matches parent request) then Err (mismatch event) else
  Ok parent.

Definition resolve (ledger : L) (event : Event) (request : EventId) (candidate : Candidate) :
  result Change (Failure E) :=
  match Body_conversation (Event_body event), Body_audience (Event_body event) with
  | Some conversation, Some audience =>
      let? current := map_err Failure_Store (Ledger_resolution ledger request) in
      let? parent := checked_parent ledger event request in
      let finish (asker responder : AgentId) :=
        if negb (Candidate_authorized candidate asker responder) then
          match Candidate_ending candidate with
          | Ending_Answered => Ok Change_Nothing
          | Ending_Ended _ => Err (mismatch event)
          end
        else
          let resolution := {|
            Resolution_event := Event_id event;
            Resolution_clock := Event_clock event;
            Resolution_ending := Candidate_ending candidate;
            Resolution_asker := asker;
            Resolution_responder := responder
          |} in
          let wins := match current with
                      | None => true
                      | Some known => Resolution_precedes resolution known
                      end in
          Ok (Change_Resolution request resolution wins) in
      match parent with
      | Parent_Missing => Err (Failure_Rejected (Rejection_MissingDependency (Event_id event) request))
      | Parent_Present parent =>
          if negb (same_thread event conversation audience parent) then Err (mismatch event) else
          match ask_of parent with
          | Some (asker, responder) => finish asker responder
          | None => plain_reply event (Candidate_ending candidate)
          end
      | Parent_Opaque =>
          match current with
          | Some known => finish (Resolution_asker known) (Resolution_responder known)
          | None => plain_reply event (Candidate_ending candidate)
          end
      end
  | _, _ => Ok Change_Nothing
  end.

Definition thread_parent (ledger : L) (event : Event) (request : EventId) :
  result (option ThreadParent) (Failure E) :=
  match Body_conversation (Event_body event), Body_audience (Event_body event),
        Event_author event with
  | Some conversation, Some audience, Some agent =>
      let? parent := checked_parent ledger event request in
      match parent with
      | Parent_Missing => Err (Failure_Rejected (Rejection_MissingDependency (Event_id event) request))
      | Parent_Opaque => Ok None
      | Parent_Present parent => Ok (Some (mkThreadParent conversation audience agent parent))
      end
  | _, _, _ => Ok None
  end.

Definition started (ledger : L) (event : Event) (request : EventId) : result Change (Failure E) :=
  let? context := thread_parent ledger event request in
  match context with
  | None => Ok Change_Nothing
  | Some context =>
      match ask_of (ThreadParent_parent context) with
      | Some (_, responder) =>
          if bool_decide (responder = ThreadParent_agent context)
             && same_thread event (ThreadParent_conversation context)
                  (ThreadParent_audience context) (ThreadParent_parent context)
          then Ok (Change_Started request (ThreadParent_agent context))
          else Err (mismatch event)
      | None => Err (mismatch event)
      end
  end.

Definition receipt (ledger : L) (event : Event) (request : EventId) (delivery : Delivery) :
  result Change (Failure E) :=
  let? context := thread_parent ledger event request in
  match context with
  | None => Ok Change_Nothing
  | Some context => map_err Failure_Rejected (receipt_change event request delivery context)
  end.

Definition handoff_read (ledger : L) (event : Event) (observation : Observation)
    (audience : Audience) : result Change (Failure E) :=
  let? author := ok_or (Event_author event) (mismatch event) in
  let? parent := checked_parent ledger event (Observation_handoff observation) in
  match parent with
  | Parent_Missing =>
      Err (Failure_Rejected
             (Rejection_MissingDependency (Event_id event) (Observation_handoff observation)))
  | Parent_Opaque => Err (mismatch event)
  | Parent_Present parent =>
      match Event_body parent with
      | Body_Handoff metadata text _ =>
          let? descriptor := map_err (fun _ => mismatch event)
                               (Descriptor_new (Event_id parent) metadata text) in
          let? _ := map_err (fun _ => mismatch event)
                      (Descriptor_admit_observation descriptor observation (author, audience)
                         (Event_clock parent, Event_clock event)) in
          Ok (Change_HandoffRead (Observation_handoff observation)
                (Observation_reader observation))
      | _ => Err (mismatch event)
      end
  end.

Definition change (ledger : L) (event : Event) : result Change (Failure E) :=
  let origin := Event_origin event in
  match Event_body event with
  | Body_Omitted | Body_Handoff _ _ _ | Body_Message _ _ _ _ Intent_Send _ _ => Ok Change_Nothing
  | Body_Profile agent card => Ok (Change_Profile (AgentId_new agent origin) (Some card))
  | Body_Left agent => Ok (Change_Profile (AgentId_new agent origin) None)
  | Body_Activity agent activity => Ok (Change_Activity (AgentId_new agent origin) activity)
  | Body_Receipt request _ _ _ delivery => receipt ledger event request delivery
  | Body_HandoffRead observation audience => handoff_read ledger event observation audience
  | Body_Machine card => Ok (Change_Machine card)
  | Body_Room name topic members =>
      Ok (Change_Room (RoomId_new origin name) (Some (mkRoom topic members)))
  | Body_RoomClosed name => Ok (Change_Room (RoomId_new origin name) None)
  | Body_Message _ _ _ _ (Intent_Ask responder _) _ _ => Ok (Change_Ask responder)
  | Body_Message _ from _ _ (Intent_Reply request) _ _ =>
      let author := AgentId_new from origin in
      resolve ledger event request (mkCandidate Ending_Answered author)
  | Body_TurnStarted request _ _ _ => started ledger event request
  | Body_Resolved request _ _ agent outcome =>
      resolve ledger event request (mkCandidate (Ending_Ended outcome) (AgentId_new agent origin))
  end.

Definition admit_sealed (ledger : L) (sealed : Sealed) : result Decision_ (Failure E) :=
  let event := Sealed_event sealed in
  let? cursor := map_err Failure_Store (Ledger_cursor ledger (Event_origin event)) in
  let seq := nz_get (EventId_seq (Event_id event)) in
  if seq <=? seen cursor then
    let? stored := map_err Failure_Store (Ledger_digest ledger (Event_id event)) in
    match stored with
    | Some stored =>
        if decide (stored = Sealed_digest sealed) then Ok Decision_Duplicate
        else Err (Failure_Rejected (Rejection_Conflict (Event_id event)))
    | None => Err (Failure_Rejected (Rejection_Conflict (Event_id event)))
    end
  else
  let? expected := ok_or (checked_add u64_max (seen cursor) 1)
                     (Failure_Invalid (mkInvalid "sequence exhausted")) in
  if negb (seq =? expected)
  then Err (Failure_Rejected (Rejection_Gap (Event_origin event) expected)) else
  if Event_clock event <=? Cursor_clock cursor
  then Err (Failure_Rejected (Rejection_ClockRegression (Event_id event))) else
  let? change := change ledger event in
  Ok (Decision_Append (mkAdmitted (mkCursor seq (Event_clock event)) change)).

Definition commit (ledger : L) (sealed : Sealed) : L * result bool (Failure E) :=
  match admit_sealed ledger sealed with
  | Err e => (ledger, Err e)
  | Ok Decision_Duplicate => (ledger, Ok false)
  | Ok (Decision_Append admitted) =>
      let '(ledger, committed) := Ledger_commit ledger sealed admitted in
      match map_err Failure_Store committed with
      | Err e => (ledger, Err e)
      | Ok _ => (ledger, Ok true)
      end
  end.

Definition append_event (ledger : L) (body : Body) : result Sealed (Failure E) :=
  let origin := Ledger_local ledger in
  let? cursor := map_err Failure_Store (Ledger_cursor ledger origin) in
  let exhausted := Failure_Invalid (mkInvalid "local sequence or clock exhausted") in
  let? seq := ok_or (match checked_add u64_max (seen cursor) 1 with
                     | Some seq => NonZeroU64_new seq
                     | None => None
                     end) exhausted in
  let? clock := map_err Failure_Store (Ledger_clock ledger) in
  let? clock := ok_or (match checked_add u64_max (N.max clock (Cursor_clock cursor)) 1 with
                       | Some clock => if clock <? u64_max then Some clock else None
                       | None => None
                       end) exhausted in
  let? event := map_err Failure_Invalid (Event_new (EventId_new origin seq) clock body) in
  map_err Failure_Invalid (Sealed_new event).

Definition append (ledger : L) (body : Body) : L * result Event (Failure E) :=
  match append_event ledger body with
  | Err e => (ledger, Err e)
  | Ok sealed =>
      match commit ledger sealed with
      | (ledger, Err e) => (ledger, Err e)
      | (ledger, Ok false) =>
          (ledger, Err (Failure_Rejected (Rejection_Conflict (Event_id (Sealed_event sealed)))))
      | (ledger, Ok true) => (ledger, Ok (Sealed_event sealed))
      end
  end.

Record Received := mkReceived {
  Received_seen : N;
  Received_appended : N;
  Received_rejected : option Rejection
}.

(** One iteration of [receive]'s loop, up to its [match outcome]. *)
Definition receive_one (ledger : L) (origin : Origin) (event : Event) : L * result bool (Failure E) :=
  if negb (bool_decide (Event_origin event = origin)) || bool_decide (origin = Ledger_local ledger)
  then (ledger, Err (Failure_Rejected (Rejection_Unauthorized (Event_id event))))
  else
    match map_err Failure_Invalid (Sealed_new event) with
    | Err e => (ledger, Err e)
    | Ok sealed =>
        match admit_sealed ledger sealed with
        | Err e => (ledger, Err e)
        | Ok Decision_Duplicate => (ledger, Ok false)
        | Ok (Decision_Append admitted) =>
            match map_err Failure_Store (Ledger_has_room ledger) with
            | Err e => (ledger, Err e)
            | Ok false => (ledger, Err (Failure_Rejected Rejection_ResourceLimit))
            | Ok true =>
                let '(ledger, committed) := Ledger_commit ledger sealed admitted in
                match map_err Failure_Store committed with
                | Err e => (ledger, Err e)
                | Ok _ => (ledger, Ok true)
                end
            end
        end
    end.

Fixpoint receive_loop (ledger : L) (origin : Origin) (events : list Event) (appended : N) :
  L * result (N * option Rejection) E :=
  match events with
  | [] => (ledger, Ok (appended, None))
  | event :: events =>
      let '(ledger, outcome) := receive_one ledger origin event in
      match outcome with
      | Ok true => receive_loop ledger origin events (saturating_add usize_max appended 1)
      | Ok false => receive_loop ledger origin events appended
      | Err (Failure_Store error) => (ledger, Err error)
      | Err (Failure_Rejected rejection) => (ledger, Ok (appended, Some rejection))
      | Err (Failure_Invalid _) =>
          (ledger, Ok (appended, Some (Rejection_Mismatch (Event_id event))))
      end
  end.

Definition receive (ledger : L) (origin : Origin) (events : list Event) : L * result Received E :=
  let '(ledger, outcome) := receive_loop ledger origin events 0 in
  match outcome with
  | Err error => (ledger, Err error)
  | Ok (appended, rejected) =>
      (ledger,
       let? cursor := Ledger_cursor ledger origin in
       Ok (mkReceived (seen cursor) appended rejected))
  end.
End operations.

(** ** Laws: what a ledger promises about [commit] *)

Class LedgerLaws `{Codec} (L E : Type) `{!Ledger L E} : Prop := {
  commit_local : forall l s a l' r, Ledger_commit l s a = (l', r) -> Ledger_local l' = Ledger_local l;
  commit_cursor : forall l s a l', Ledger_commit l s a = (l', Ok tt) ->
    forall origin, Ledger_cursor l' origin =
      if decide (origin = Event_origin (Sealed_event s)) then Ok (Admitted_cursor a)
      else Ledger_cursor l origin;
  commit_digest : forall l s a l', Sealed_new (Sealed_event s) = Ok s ->
    Ledger_commit l s a = (l', Ok tt) ->
    forall id, Ledger_digest l' id =
      if decide (id = Event_id (Sealed_event s)) then Ok (Some (Sealed_digest s))
      else Ledger_digest l id
}.

(** ** Lemmas *)

Lemma Sealed_new_event `{!Codec} e s : Sealed_new e = Ok s -> Sealed_event s = e.
Proof.
  unfold Sealed_new. destruct (ok_or _ _); [|done]. case_match; [done|]. by intros [= <-].
Qed.

Definition seq_of (event : Event) : N := nz_get (EventId_seq (Event_id event)).

Section lemmas.
Context `{codec : Codec} {L E : Type} `{ledger_ops : !Ledger L E}.
Implicit Types (l : L) (s : Sealed).

Lemma admit_duplicate_iff l s :
  admit_sealed l s = Ok Decision_Duplicate <->
  exists c, Ledger_cursor l (Event_origin (Sealed_event s)) = Ok c /\
    seq_of (Sealed_event s) <= seen c /\
    Ledger_digest l (Event_id (Sealed_event s)) = Ok (Some (Sealed_digest s)).
Proof.
  unfold admit_sealed. destruct (Ledger_cursor _ _) as [c|e]; cbn; [|split; [done|by intros (? & ? & _)]].
  destruct (N.leb_spec (nz_get (EventId_seq (Event_id (Sealed_event s)))) (seen c)) as [Hle|Hlt].
  - destruct (Ledger_digest _ _) as [[d|]|e]; cbn.
    + case_decide as Hd; split; try done.
      * intros _. subst d. by exists c.
      * by intros (c' & _ & _ & [= ->]).
    + split; [done|]. by intros (? & _ & _ & ?).
    + split; [done|]. by intros (? & _ & _ & ?).
  - split.
    + destruct (ok_or _ _); [|done]. destruct (negb _); [done|]. case_match; [done|].
      by destruct (change _ _).
    + intros (c' & [= ->] & Hle & _). unfold seq_of in Hle. lia.
Qed.

Lemma admit_append_iff l s a :
  admit_sealed l s = Ok (Decision_Append a) <->
  exists c ch, Ledger_cursor l (Event_origin (Sealed_event s)) = Ok c /\
    seq_of (Sealed_event s) = seen c + 1 /\ Cursor_clock c < Event_clock (Sealed_event s) /\
    change l (Sealed_event s) = Ok ch /\
    a = mkAdmitted (mkCursor (seq_of (Sealed_event s)) (Event_clock (Sealed_event s))) ch.
Proof.
  unfold admit_sealed, seq_of. set (e := Sealed_event s).
  pose proof (nz_bounds (EventId_seq (Event_id e))) as Hb.
  destruct (Ledger_cursor _ _) as [c|err]; cbn; [|naive_solver].
  destruct (N.leb_spec (nz_get (EventId_seq (Event_id e))) (seen c)) as [Hle|Hlt].
  - split; [|intros (? & ? & [= ->] & ? & _); lia].
    destruct (Ledger_digest _ _) as [[d|]|err]; cbn; try done. by case_decide.
  - destruct (checked_add u64_max (seen c) 1) as [n|] eqn:Hn; cbn.
    + apply checked_add_Some in Hn as [-> _].
      destruct (N.eqb_spec (nz_get (EventId_seq (Event_id e))) (seen c + 1)) as [Heq|Hne]; cbn;
        [|split; [done|naive_solver]].
      destruct (N.leb_spec (Event_clock e) (Cursor_clock c)) as [Hc|Hc].
      * split; [done|]. intros (? & ? & [= ->] & _ & ? & _). lia.
      * destruct (change l e) as [ch|err]; cbn; [|naive_solver]. split.
        -- intros [= <-]. naive_solver.
        -- intros (? & ? & [= <-] & _ & _ & [= <-] & ->). done.
    + apply checked_add_None in Hn. split; [done|]. intros (? & ? & [= <-] & ? & _). lia.
Qed.

Lemma commit_true l s l' :
  commit l s = (l', Ok true) <->
  exists a, admit_sealed l s = Ok (Decision_Append a) /\ Ledger_commit l s a = (l', Ok tt).
Proof.
  unfold commit. destruct (admit_sealed l s) as [[|a]|e].
  - split; [done|]. by intros (? & ? & _).
  - destruct (Ledger_commit l s a) as [l1 [[]|e]] eqn:E0; cbn; split.
    + intros [= ->]. by exists a.
    + intros (a' & [= <-] & Hc). congruence.
    + done.
    + intros (a' & [= <-] & Hc). congruence.
  - split; [done|]. by intros (? & ? & _).
Qed.

Lemma append_event_ok l body s :
  append_event l body = Ok s ->
  exists c k, Ledger_cursor l (Ledger_local l) = Ok c /\ Ledger_clock l = Ok k /\
    Event_body (Sealed_event s) = body /\ Event_origin (Sealed_event s) = Ledger_local l /\
    seq_of (Sealed_event s) = seen c + 1 /\
    Event_clock (Sealed_event s) = N.max k (Cursor_clock c) + 1 /\
    Sealed_new (Sealed_event s) = Ok s.
Proof.
  unfold append_event. destruct (Ledger_cursor _ _) as [c|e]; cbn; [|done].
  destruct (checked_add u64_max (seen c) 1) as [n|] eqn:Hn; cbn; [|done].
  destruct (NonZeroU64_new n) as [seq|] eqn:Hseq; cbn; [|done].
  destruct (Ledger_clock l) as [k|e]; cbn; [|done].
  destruct (checked_add u64_max (N.max k (Cursor_clock c)) 1) as [clock|] eqn:Hk; cbn; [|done].
  destruct (N.ltb_spec clock u64_max); cbn; [|done].
  destruct (Event_new _ _ _) as [event|e] eqn:He; cbn; [|done].
  destruct (Sealed_new event) as [s'|e] eqn:Hs; cbn; [|done]. intros [= <-].
  apply Event_new_ok in He as (Hid & Hclock & Hbody).
  apply checked_add_Some in Hn as [-> _]. apply checked_add_Some in Hk as [-> _].
  apply NonZeroU64_new_Some in Hseq.
  rewrite (Sealed_new_event _ _ Hs). exists c, k. unfold Event_origin, seq_of. rewrite Hid. done.
Qed.

Lemma receive_one_true l o e l' :
  receive_one l o e = (l', Ok true) ->
  Event_origin e = o /\ o <> Ledger_local l /\
  exists s a, Sealed_new e = Ok s /\ Sealed_event s = e /\
    admit_sealed l s = Ok (Decision_Append a) /\ Ledger_commit l s a = (l', Ok tt).
Proof.
  unfold receive_one. case_bool_decide as Ho; [|done]. case_bool_decide as Hl; [done|]. cbn.
  destruct (Sealed_new e) as [s|] eqn:Hs; [|done]. cbn.
  destruct (admit_sealed l s) as [[|a]|] eqn:Ha; [done| |done].
  destruct (Ledger_has_room l) as [[]|]; cbn; [|done|done].
  destruct (Ledger_commit l s a) as [l1 [[]|]] eqn:Hc; cbn; [|done]. intros [= ->].
  split; [done|]. split; [done|]. exists s, a. repeat split; try done.
  by eapply Sealed_new_event.
Qed.

Lemma receive_one_false l o e l' :
  receive_one l o e = (l', Ok false) ->
  l' = l /\ Event_origin e = o /\ o <> Ledger_local l /\
  exists s, Sealed_new e = Ok s /\ Sealed_event s = e /\ admit_sealed l s = Ok Decision_Duplicate.
Proof.
  unfold receive_one. case_bool_decide as Ho; [|done]. case_bool_decide as Hl; [done|]. cbn.
  destruct (Sealed_new e) as [s|] eqn:Hs; [|done]. cbn.
  destruct (admit_sealed l s) as [[|a]|] eqn:Ha; [| |done].
  - intros [= <-]. repeat split; try done. exists s. repeat split; try done.
    by eapply Sealed_new_event.
  - destruct (Ledger_has_room l) as [[]|]; cbn; [|done|done].
    by destruct (Ledger_commit l s a) as [l1 [[]|]].
Qed.

(** A receipt that fails for any reason but the store's leaves the ledger alone. *)
Lemma receive_one_refused l o e l' f :
  receive_one l o e = (l', Err f) -> l' = l \/ exists error, f = Failure_Store error.
Proof.
  unfold receive_one. case_match; [naive_solver|].
  destruct (Sealed_new e) as [s|] eqn:Hs; cbn; [|naive_solver].
  destruct (admit_sealed l s) as [[|a]|]; [done| |naive_solver].
  destruct (Ledger_has_room l) as [[]|]; cbn; [|naive_solver|naive_solver].
  destruct (Ledger_commit l s a) as [l1 [[]|]]; cbn; naive_solver.
Qed.

Context `{laws : !LedgerLaws L E}.

Lemma receive_one_cursor l o e l' c :
  Ledger_cursor l o = Ok c -> receive_one l o e = (l', Ok true) ->
  seq_of e = seen c + 1 /\ Cursor_clock c < Event_clock e /\
  Ledger_cursor l' o = Ok (mkCursor (seq_of e) (Event_clock e)) /\
  (forall o', o' <> o -> Ledger_cursor l' o' = Ledger_cursor l o') /\
  Ledger_local l' = Ledger_local l.
Proof.
  intros Hc (<- & Hl & s & a & Hs & <- & Ha & Hcommit)%receive_one_true.
  apply admit_append_iff in Ha as (c' & ch & Hc' & Hseq & Hclock & _ & ->).
  rewrite Hc in Hc'. injection Hc' as <-.
  repeat split; try done.
  - rewrite (commit_cursor _ _ _ _ Hcommit). by rewrite decide_True.
  - intros o' Ho'. rewrite (commit_cursor _ _ _ _ Hcommit). by rewrite decide_False.
  - by eapply commit_local.
Qed.

Lemma receive_loop_local l o events n l' r :
  receive_loop l o events n = (l', r) -> Ledger_local l' = Ledger_local l.
Proof.
  assert (Hone : forall l e l' r, receive_one l o e = (l', r) -> Ledger_local l' = Ledger_local l).
  { intros l0 e l1 r0. unfold receive_one. repeat (case_match; try by intros [= <- _]).
    all: intros [= <- _]; by eapply commit_local. }
  revert l n. induction events as [|e events IH]; intros l n; cbn; [by intros [= <- _]|].
  destruct (receive_one l o e) as [l1 outcome] eqn:Ho. apply Hone in Ho as Hl.
  destruct outcome as [[]|[]]; try (by intros [= <- _]); intros Hr%IH; congruence.
Qed.

Lemma receive_loop_accounts o events : forall l n c l' n' rejected,
  Ledger_cursor l o = Ok c -> n <= seen c ->
  receive_loop l o events n = (l', Ok (n', rejected)) ->
  exists c', Ledger_cursor l' o = Ok c' /\ seen c' + n = seen c + n' /\ n <= n' /\
    n' <= n + N.of_nat (length events) /\ Cursor_clock c <= Cursor_clock c' /\
    (forall o', o' <> o -> Ledger_cursor l' o' = Ledger_cursor l o') /\
    (rejected = None -> forall e, e ∈ events -> Event_origin e = o /\ seq_of e <= seen c').
Proof.
  induction events as [|e events IH]; intros l n c l' n' rejected Hc Hn.
  { intros [= <- <- <-]. exists c. repeat split; try done; try lia; set_solver. }
  cbn [receive_loop]. destruct (receive_one l o e) as [l1 outcome] eqn:Ho.
  destruct outcome as [[]|f].
  - destruct (receive_one_cursor _ _ _ _ _ Hc Ho) as (Hseq & Hclock & Hc1 & Hother & _).
    apply receive_one_true in Ho as (Horigin & _).
    pose proof (nz_bounds (EventId_seq (Event_id e))) as Hb.
    assert (Hsat : saturating_add usize_max n 1 = n + 1).
    { unfold saturating_add, usize_max. unfold seq_of in Hseq. lia. }
    rewrite Hsat. intros H. eapply IH in H; [|exact Hc1|cbn; lia].
    destruct H as (c' & Hc' & Hs & Hle & Hlen & Hcl & Ho' & Hall). cbn in Hs, Hcl.
    exists c'. cbn [length]. do 5 (split; [done || lia|]). split.
    + intros o' Hne. by rewrite Ho', Hother.
    + intros Hr e' [->|He']%elem_of_cons; [split; [done|lia]|by apply Hall].
  - apply receive_one_false in Ho as (-> & Horigin & _ & s & _ & He & Hdup). subst e.
    apply admit_duplicate_iff in Hdup as (c1 & Hc1 & Hle1 & _).
    rewrite Horigin, Hc in Hc1. injection Hc1 as <-. intros H. eapply IH in H; [|done..].
    destruct H as (c' & Hc' & Hs & Hle & Hlen & Hcl & Ho' & Hall).
    exists c'. cbn [length]. do 5 (split; [done || lia|]). split; [done|].
    intros Hr e' [->|He']%elem_of_cons; [split; [done|lia]|by apply Hall].
  - apply receive_one_refused in Ho as [->|[error ->]]; [|done].
    destruct f; intros [= <- <- <-]; exists c; repeat split; try done; lia.
Qed.

Lemma duplicate_stable l o e l' s :
  admit_sealed l s = Ok Decision_Duplicate -> receive_one l o e = (l', Ok true) ->
  admit_sealed l' s = Ok Decision_Duplicate.
Proof.
  rewrite !admit_duplicate_iff. intros (c & Hc & Hle & Hd) Hone.
  apply receive_one_true in Hone as (<- & _ & s' & a & Hs' & <- & Ha & Hcommit).
  apply admit_append_iff in Ha as (c' & ch & Hc' & Hseq & _ & _ & ->).
  rewrite (commit_cursor _ _ _ _ Hcommit), (commit_digest _ _ _ _ Hs' Hcommit).
  destruct (decide (Event_id (Sealed_event s) = Event_id (Sealed_event s'))) as [E0|Hne].
  - exfalso. unfold Event_origin, seq_of in *. rewrite E0 in *. rewrite Hc in Hc'.
    injection Hc' as <-. lia.
  - case_decide as Ho; [|by eauto]. rewrite <- Ho, Hc in Hc'. injection Hc' as <-.
    eexists. split; [done|]. cbn. split; [lia|done].
Qed.

Lemma receive_loop_duplicates o events : forall l n l' n',
  receive_loop l o events n = (l', Ok (n', None)) ->
  (forall s, admit_sealed l s = Ok Decision_Duplicate -> admit_sealed l' s = Ok Decision_Duplicate) /\
  forall e, e ∈ events -> Event_origin e = o /\ o <> Ledger_local l /\
    exists s, Sealed_new e = Ok s /\ admit_sealed l' s = Ok Decision_Duplicate.
Proof.
  induction events as [|e events IH]; intros l n l' n'; cbn [receive_loop].
  { intros [= <- _]. split; [done|]. set_solver. }
  destruct (receive_one l o e) as [l1 outcome] eqn:Hone. intros H.
  destruct outcome as [[]|[]]; try done; apply IH in H as [Hst Hall].
  - split; [by eauto using duplicate_stable|].
    pose proof (receive_one_true _ _ _ _ Hone) as (Ho & Hl & s & a & Hs & <- & Ha & Hcommit).
    pose proof (commit_local _ _ _ _ _ Hcommit) as Hloc.
    intros e' [->|He']%elem_of_cons; [|rewrite <- Hloc; by apply Hall].
    split; [done|]. split; [done|]. exists s. split; [done|]. apply Hst, admit_duplicate_iff.
    apply admit_append_iff in Ha as (c' & ch & Hc' & Hseq & _ & _ & ->).
    rewrite (commit_cursor _ _ _ _ Hcommit), (commit_digest _ _ _ _ Hs Hcommit).
    rewrite !decide_True by done. eexists. split; [done|]. cbn. split; [lia|done].
  - apply receive_one_false in Hone as (-> & Ho & Hl & s & Hs & <- & Hdup).
    split; [done|]. intros e' [->|He']%elem_of_cons; [|by apply Hall]. eauto 6.
Qed.

Lemma receive_loop_again o events l n :
  (forall e, e ∈ events -> Event_origin e = o /\ o <> Ledger_local l /\
    exists s, Sealed_new e = Ok s /\ admit_sealed l s = Ok Decision_Duplicate) ->
  receive_loop l o events n = (l, Ok (n, None)).
Proof.
  induction events as [|e events IH]; [done|]. intros Hall. cbn [receive_loop].
  destruct (Hall e ltac:(left)) as (Ho & Hl & s & Hs & Hdup).
  assert (Hone : receive_one l o e = (l, Ok false)).
  { unfold receive_one. rewrite bool_decide_eq_true_2, bool_decide_eq_false_2 by done. cbn.
    rewrite Hs. cbn. by rewrite Hdup. }
  rewrite Hone. apply IH. intros e' He'. apply Hall. by right.
Qed.
End lemmas.

(** *** Authority *)

(** The author a resolving body claims. *)
Lemma Event_author_message e c n t a i st no :
  Event_body e = Body_Message c n t a i st no ->
  Event_author e = Some (AgentId_new n (Event_origin e)).
Proof. unfold Event_author. by intros ->. Qed.

Section authority.
Context `{codec : Codec} {L E : Type} `{ledger_ops : !Ledger L E}.

Lemma checked_parent_ok l e request p :
  checked_parent l e request = Ok p <->
  Ledger_parent l request = Ok p /\
  forall parent, p = Parent_Present parent -> Event_id parent = request.
Proof.
  unfold checked_parent. destruct (Ledger_parent l request) as [p'|err]; cbn; [|naive_solver].
  destruct p' as [parent| |]; cbn; [case_bool_decide|..]; cbn; naive_solver.
Qed.

Lemma same_thread_iff e c a p :
  same_thread e c a p = true <->
  Body_conversation (Event_body p) = Some c /\ Body_audience (Event_body p) = Some a /\
  Event_clock p < Event_clock e.
Proof.
  unfold same_thread. rewrite !andb_true_iff, !bool_decide_eq_true, N.ltb_lt. naive_solver.
Qed.

Definition in_thread (event parent : Event) : Prop :=
  Body_conversation (Event_body parent) = Body_conversation (Event_body event) /\
  Body_audience (Event_body parent) = Body_audience (Event_body event) /\
  Event_clock parent < Event_clock event.

(** What a resolution records, given the ask it resolves. *)
Definition authorized_resolution (event : Event) (request : EventId) (parent : Event)
    (res : Resolution) : Prop :=
  Event_id parent = request /\ in_thread event parent /\
  ask_of parent = Some (Resolution_asker res, Resolution_responder res) /\
  Resolution_event res = Event_id event /\ Resolution_clock res = Event_clock event /\
  Event_author event =
    Some (match Resolution_ending res with
          | Ending_Ended Outcome_Withdrawn => Resolution_asker res
          | _ => Resolution_responder res
          end).

Lemma resolve_present l e request cand parent :
  Ledger_parent l request = Ok (Parent_Present parent) ->
  Event_author e = Some (Candidate_author cand) ->
  (exists c a, Body_conversation (Event_body e) = Some c /\ Body_audience (Event_body e) = Some a) ->
  forall req res wins, resolve l e request cand = Ok (Change_Resolution req res wins) ->
  exists current, Ledger_resolution l request = Ok current /\
    req = request /\ authorized_resolution e request parent res /\
    Resolution_ending res = Candidate_ending cand /\
    wins = match current with None => true | Some known => Resolution_precedes res known end.
Proof.
  intros Hp Hauthor (c & a & Hc & Ha) req res wins. unfold resolve. rewrite Hc, Ha.
  destruct (Ledger_resolution l request) as [current|err]; cbn; [|done].
  destruct (checked_parent l e request) as [p|err] eqn:Hcp; [|done].
  apply checked_parent_ok in Hcp as [Hp' Hid]. rewrite Hp in Hp'. injection Hp' as <-.
  destruct (same_thread e c a parent) eqn:Hst; cbn; [|done]. apply same_thread_iff in Hst.
  destruct (ask_of parent) as [[asker responder]|] eqn:Hask;
    [|by destruct (Candidate_ending cand)].
  destruct (Candidate_authorized cand asker responder) eqn:Hauth; cbn;
    [|by destruct (Candidate_ending cand)].
  intros [= <- <- <-]. exists current. split; [done|]. split; [done|].
  split; [|done]. split; [by apply Hid|]. split; [rewrite <- Hc, <- Ha in Hst; exact Hst|].
  cbn. split; [done|]. split; [done|]. split; [done|]. rewrite Hauthor. f_equal.
  unfold Candidate_authorized in Hauth.
  destruct (Candidate_ending cand) as [|[]]; by apply bool_decide_eq_true_1 in Hauth.
Qed.

Lemma resolve_request l e request cand req res wins :
  resolve l e request cand = Ok (Change_Resolution req res wins) -> req = request.
Proof.
  unfold resolve, plain_reply. repeat (case_match; try done); by intros [= <- _ _].
Qed.

(** The only refusals a body's content can meet. *)
Definition content_failure (e : Event) (f : Failure E) : Prop :=
  match f with
  | Failure_Rejected (Rejection_MissingDependency event _) | Failure_Rejected (Rejection_Mismatch event) =>
      event = Event_id e
  | Failure_Store _ => True
  | _ => False
  end.

Lemma checked_parent_err l e request f :
  checked_parent l e request = Err f -> content_failure e f.
Proof.
  unfold checked_parent. destruct (Ledger_parent l request); cbn; [|by intros [= <-]].
  case_match; [|done]. by intros [= <-].
Qed.

Lemma resolve_err l e request cand f :
  resolve l e request cand = Err f -> content_failure e f.
Proof.
  assert (Hplain : forall f, plain_reply e (Candidate_ending cand) = Err f -> content_failure e f).
  { unfold plain_reply. intros f'. case_match; [done|]. by intros [= <-]. }
  unfold resolve. repeat (case_match; try done); try (by intros [= <-]);
    try (apply Hplain); try (intros [= <-]; by eapply checked_parent_err).
  all: destruct (Ledger_resolution l request); simplify_eq/=; by intros [= <-].
Qed.

Lemma thread_parent_err l e request f :
  thread_parent l e request = Err f -> content_failure e f.
Proof.
  unfold thread_parent. repeat (case_match; try done); try (by intros [= <-]).
  intros [= <-]. by eapply checked_parent_err.
Qed.

Lemma change_err l e f : change l e = Err f -> content_failure e f.
Proof.
  unfold change. destruct (Event_body e) as [| | | | |c from t a [| |]| | | | | | |]; try done.
  - apply resolve_err.
  - unfold handoff_read. destruct (Event_author e); cbn; [|by intros [= <-]].
    destruct (checked_parent _ _ _) as [p|] eqn:Hp;
      [|intros [= <-]; by eapply checked_parent_err].
    destruct p as [parent| |]; try (by intros [= <-]).
    destruct (Event_body parent); try (by intros [= <-]).
    destruct (Descriptor_new _ _ _); cbn; [|by intros [= <-]].
    destruct (Descriptor_admit_observation _ _ _ _); cbn; [done|by intros [= <-]].
  - unfold receipt. destruct (thread_parent _ _ _) as [[ctx|]|] eqn:Ht;
      [|done|intros [= <-]; by eapply thread_parent_err].
    unfold receipt_change. case_match; cbn; [|done]. by intros [= <-].
  - unfold started. destruct (thread_parent _ _ _) as [[ctx|]|] eqn:Ht;
      [|done|intros [= <-]; by eapply thread_parent_err].
    destruct (ask_of _) as [[? ?]|]; [case_match|]; try done; by intros [= <-].
  - apply resolve_err.
Qed.

Lemma ok_or_err {T X} (o : option T) (x y : X) : ok_or o x = Err y -> y = x.
Proof. destruct o; cbn; [done|]. by intros [= <-]. Qed.

Lemma append_event_err l body f :
  append_event l body = Err f ->
  match f with Failure_Rejected _ => False | _ => True end.
Proof.
  unfold append_event. destruct (Ledger_cursor _ _); cbn; [|by intros [= <-]].
  destruct (ok_or _ _) as [?|f1] eqn:E1; [|apply ok_or_err in E1 as ->; by intros [= <-]].
  destruct (Ledger_clock l); cbn; [|by intros [= <-]].
  clear E1. destruct (ok_or _ _) as [?|f2] eqn:E2; cbn; [|intros [= <-]; by apply ok_or_err in E2 as ->].
  destruct (Event_new _ _ _); cbn; [|by intros [= <-]].
  destruct (Sealed_new _); cbn; [done|by intros [= <-]].
Qed.
End authority.

(** ** Properties *)

(** An event is a duplicate exactly when its origin's history already reached its sequence
    number and holds the same digest there, and is appended exactly when it is the next one of its
    origin, advances its origin's clock and its content is admissible; the origin's cursor then
    moves to that event.  An event at an occupied place with another digest is a conflict, and
    one beyond the next place a gap. *)
Theorem admit_characterized `{codec : Codec} {L E} `{ledger : !Ledger L E} (l : L) (s : Sealed) :
  let event := Sealed_event s in
  (admit_sealed l s = Ok Decision_Duplicate <->
     exists c, Ledger_cursor l (Event_origin event) = Ok c /\ seq_of event <= seen c /\
       Ledger_digest l (Event_id event) = Ok (Some (Sealed_digest s))) /\
  (forall a, admit_sealed l s = Ok (Decision_Append a) <->
     exists c ch, Ledger_cursor l (Event_origin event) = Ok c /\
       seq_of event = seen c + 1 /\ Cursor_clock c < Event_clock event /\
       change l event = Ok ch /\
       a = mkAdmitted (mkCursor (seq_of event) (Event_clock event)) ch) /\
  (forall c, Ledger_cursor l (Event_origin event) = Ok c ->
     (forall d, seq_of event <= seen c -> Ledger_digest l (Event_id event) = Ok d ->
        d <> Some (Sealed_digest s) ->
        admit_sealed l s = Err (Failure_Rejected (Rejection_Conflict (Event_id event)))) /\
     (seen c + 1 < seq_of event ->
        admit_sealed l s = Err (Failure_Rejected (Rejection_Gap (Event_origin event) (seen c + 1))))).
Proof.
  cbn. split; [apply admit_duplicate_iff|]. split; [apply admit_append_iff|].
  intros c Hc. unfold admit_sealed. rewrite Hc. cbn. unfold seq_of.
  pose proof (nz_bounds (EventId_seq (Event_id (Sealed_event s)))) as Hb. split.
  - intros d Hle Hd Hne. rewrite (proj2 (N.leb_le _ _) Hle), Hd. cbn.
    destruct d as [d|]; [|done]. rewrite decide_False; congruence.
  - intros Hgap. rewrite (proj2 (N.leb_gt _ _)) by lia. unfold checked_add.
    rewrite (proj2 (N.leb_le _ _)) by lia. cbn.
    by rewrite (proj2 (N.eqb_neq _ _)) by lia.
Qed.

(** A machine's own history advances by Lamport's rule.  An appended event carries the given
    body, is the next one of the local origin, and its clock exceeds both the clock of everything
    the ledger has seen and the origin's previous clock; the ledger's cursor moves to it and no
    other origin's cursor moves.  The ledger can only refuse a local event for what it answers to
    (a missing or mismatched request), never for its place in the history, and a refusal leaves
    the ledger as it was. *)
Theorem append_advances `{codec : Codec} {L E} `{ledger : !Ledger L E} `{laws : !LedgerLaws L E}
    (l l' : L) (body : Body) (r : result Event (Failure E))
    (appended : append l body = (l', r)) :
  match r with
  | Ok e =>
      Event_body e = body /\ Event_origin e = Ledger_local l /\ Ledger_local l' = Ledger_local l /\
      (exists c k, Ledger_cursor l (Ledger_local l) = Ok c /\ Ledger_clock l = Ok k /\
         seq_of e = seen c + 1 /\ Cursor_clock c < Event_clock e /\ k < Event_clock e) /\
      Ledger_cursor l' (Ledger_local l) = Ok (mkCursor (seq_of e) (Event_clock e)) /\
      (forall o, o <> Ledger_local l -> Ledger_cursor l' o = Ledger_cursor l o)
  | Err (Failure_Rejected rejection) =>
      l' = l /\
      (forall origin expected, rejection <> Rejection_Gap origin expected) /\
      (forall e, rejection <> Rejection_Conflict e /\ rejection <> Rejection_ClockRegression e)
  | Err (Failure_Invalid _) => l' = l
  | Err (Failure_Store _) => True
  end.
Proof.
  revert appended. unfold append. destruct (append_event l body) as [s|f] eqn:Hs.
  - apply append_event_ok in Hs as (c & k & Hc & Hk & Hbody & Ho & Hseq & Hclock & _).
    unfold commit. destruct (admit_sealed l s) as [[|a]|f] eqn:Ha.
    + apply admit_duplicate_iff in Ha as (c' & Hc' & Hle & _). rewrite Ho, Hc in Hc'.
      injection Hc' as <-. lia.
    + apply admit_append_iff in Ha as (c' & ch & _ & _ & _ & _ & ->).
      destruct (Ledger_commit l s _) as [l1 [[]|err]] eqn:Hcommit; cbn; intros [= <- <-]; [|done].
      pose proof (commit_cursor _ _ _ _ Hcommit) as Hcur.
      split; [done|]. split; [done|]. split; [by eapply commit_local|].
      split; [exists c, k; repeat split; try done; lia|]. split.
      * rewrite Hcur. by rewrite decide_True.
      * intros o Hne. rewrite Hcur. rewrite decide_False; congruence.
    + intros [= <- <-]. revert Ha. unfold admit_sealed. rewrite Ho, Hc. cbn.
      pose proof (nz_bounds (EventId_seq (Event_id (Sealed_event s)))) as Hb.
      unfold seq_of in Hseq. rewrite (proj2 (N.leb_gt _ _)) by lia. unfold checked_add.
      rewrite (proj2 (N.leb_le _ _)) by lia. cbn. rewrite Hseq, N.eqb_refl. cbn.
      rewrite (proj2 (N.leb_gt _ _)) by lia.
      destruct (change l (Sealed_event s)) as [ch|f'] eqn:Hch; [done|]. intros [= <-].
      apply change_err in Hch. destruct f' as [|[]|]; done.
  - intros [= <- <-]. apply append_event_err in Hs. by destruct f.
Qed.

(** Receiving a peer's events only ever extends that peer's history, one event at a time:
    the cursor moves by exactly the number of appended events, no other cursor moves, nothing is
    accepted in the name of the local machine, and when nothing was rejected every event of the
    batch came from that peer and lies within its history now. *)
Theorem receive_accounts `{codec : Codec} {L E} `{ledger : !Ledger L E} `{laws : !LedgerLaws L E}
    (l l' : L) (o : Origin) (events : list Event) (r : Received) (c : Cursor)
    (before : Ledger_cursor l o = Ok c)
    (received : receive l o events = (l', Ok r)) :
  (exists c', Ledger_cursor l' o = Ok c' /\ seen c' = Received_seen r /\
     Cursor_clock c <= Cursor_clock c') /\
  Received_seen r = seen c + Received_appended r /\
  Received_appended r <= N.of_nat (length events) /\
  (forall o', o' <> o -> Ledger_cursor l' o' = Ledger_cursor l o') /\
  (o = Ledger_local l -> l' = l /\ Received_appended r = 0) /\
  (Received_rejected r = None ->
     forall e, e ∈ events -> Event_origin e = o /\ seq_of e <= Received_seen r).
Proof.
  revert received. unfold receive. destruct (receive_loop l o events 0) as [l1 [[n rej]|]] eqn:Hl;
    [|done].
  destruct (receive_loop_accounts o events l 0 c _ _ _ before (N.le_0_l _) Hl)
    as (c' & Hc' & Hs & _ & Hlen & Hmono & Hother & Hall).
  rewrite Hc'. cbn. intros [= <- <-]. cbn. split; [by eauto|]. split; [lia|]. split; [lia|].
  split; [done|]. split; [|done].
  intros ->. destruct events as [|e events]; cbn in Hl; [by injection Hl as <- <- _|].
  unfold receive_one in Hl.
  rewrite (bool_decide_eq_true_2 (Ledger_local l = Ledger_local l)) in Hl by done.
  rewrite orb_true_r in Hl. by injection Hl as <- <- _.
Qed.

(** Receiving is idempotent: once a batch was received without a rejection, receiving it again
    appends nothing, rejects nothing and leaves the ledger unchanged. *)
Theorem receive_idempotent `{codec : Codec} {L E} `{ledger : !Ledger L E} `{laws : !LedgerLaws L E}
    (l l' : L) (o : Origin) (events : list Event) (r : Received)
    (received : receive l o events = (l', Ok r)) (accepted : Received_rejected r = None) :
  receive l' o events = (l', Ok (mkReceived (Received_seen r) 0 None)).
Proof.
  revert received. unfold receive at 1.
  destruct (receive_loop l o events 0) as [l1 [[n rej]|]] eqn:Hl; [|done].
  destruct (Ledger_cursor l1 o) as [c|] eqn:Hc; [|done]. cbn. intros [= <- <-]. cbn in accepted.
  subst rej. pose proof (receive_loop_local _ _ _ _ _ _ Hl) as Hloc.
  apply receive_loop_duplicates in Hl as [_ Hall].
  unfold receive. rewrite receive_loop_again by (rewrite Hloc; done). by rewrite Hc.
Qed.

(** C23: only the parties of an ask can end it.  When an event changes the resolution of a request
    whose content the ledger holds, that request is an ask of the same conversation and audience
    that precedes the event; an answer, a failure, an interruption or an unavailability comes from
    the agent that was asked, and only a withdrawal comes from the one that asked. *)
Theorem resolution_authorized `{codec : Codec} {L E} `{ledger : !Ledger L E}
    (l : L) (e parent : Event) (request : EventId) (res : Resolution) (wins : bool)
    (changed : change l e = Ok (Change_Resolution request res wins))
    (present : Ledger_parent l request = Ok (Parent_Present parent)) :
  authorized_resolution e request parent res /\
  Body_request (Event_body e) = Some request /\
  exists current, Ledger_resolution l request = Ok current /\
    wins = match current with None => true | Some known => Resolution_precedes res known end.
Proof.
  assert (Hgoal : forall cand req,
    Body_request (Event_body e) = Some req ->
    Event_author e = Some (Candidate_author cand) ->
    (exists c a, Body_conversation (Event_body e) = Some c /\ Body_audience (Event_body e) = Some a) ->
    resolve l e req cand = Ok (Change_Resolution request res wins) ->
    authorized_resolution e request parent res /\
    Body_request (Event_body e) = Some request /\
    exists current, Ledger_resolution l request = Ok current /\
      wins = match current with None => true | Some known => Resolution_precedes res known end).
  { intros cand req Hreq Hauthor Hthread Hres.
    pose proof (resolve_request _ _ _ _ _ _ _ Hres) as <-.
    destruct (resolve_present l e request cand parent present Hauthor Hthread _ _ _ Hres)
      as (current & Hcur & _ & Hauth & _ & Hw). eauto 6. }
  revert changed. unfold change.
  destruct (Event_body e) as [| | | | |c from t a [| |req]| | | | | | |] eqn:Hb; try done.
  - apply (Hgoal (mkCandidate Ending_Answered (AgentId_new from (Event_origin e)))).
    + done.
    + unfold Event_author. by rewrite Hb.
    + cbn. eauto.
  - unfold handoff_read. repeat (case_match; try done).
  - unfold receipt. destruct (thread_parent _ _ _) as [[ctx|]|]; try done.
    unfold receipt_change. by case_match.
  - unfold started. destruct (thread_parent _ _ _) as [[ctx|]|]; try done.
    destruct (ask_of _) as [[]|]; [by case_match|done].
  - apply Hgoal.
    + done.
    + unfold Event_author. by rewrite Hb.
    + cbn. eauto.
Qed.
