(* ===== verification/Policy.v ===== *)
(** chat/policy.rs: the refusals a machine makes before it writes an event, and the storage
    limits.  [policy::audience] is in AgentLists.v. *)

From Stdlib Require Import NArith Lia String Ascii.
From stdpp Require Import base gmap list strings.
From S2P Require Import Prelude SortedLists RustStr Ids AgentLists Event Ledger.

(** ** Definitions *)

Inductive Refusal :=
| Refusal_SelfAsk
| Refusal_Cycle (responder : AgentId)
| Refusal_TooDeep
| Refusal_NotMember (agent : AgentId)
| Refusal_AlreadyResolved
| Refusal_Full
| Refusal_Invalid (invalid : Invalid).

Definition delegated (turn : Chain) (waiting : AgentId) : result Chain Refusal :=
  if MAX_CHAIN <=? N.of_nat (length (AgentList_agents turn)) then Err Refusal_TooDeep else
  map_err Refusal_Invalid (Chain_extended turn waiting).

Definition check_ask (sender responder : AgentId) (chain : Chain) : result unit Refusal :=
  if bool_decide (sender = responder) then Err Refusal_SelfAsk else
  if AgentList_contains chain responder || AgentList_contains chain sender
  then Err (Refusal_Cycle responder) else
  Ok tt.

Definition check_member (room : Room) (agent : AgentId) : result unit Refusal :=
  if AgentList_contains (Room_members room) agent then Ok tt else Err (Refusal_NotMember agent).

Definition check_resolution (current : option Resolution) (local : Origin) : result unit Refusal :=
  match current with
  | Some winner =>
      if bool_decide (EventId_origin (Resolution_event winner) = local)
      then Err Refusal_AlreadyResolved else Ok tt
  | None => Ok tt
  end.

Record Usage := mkUsage { events : N; Usage_bytes : N }.

Inductive Priority := Priority_Ordinary | Priority_Ending.

Definition ORDINARY_LIMIT : Usage := mkUsage 200000 (512 * 1024 * 1024).
Definition ENDING_LIMIT : Usage := mkUsage 220000 (576 * 1024 * 1024).
Definition RECEIVED_LIMIT : Usage := mkUsage 400000 (1024 * 1024 * 1024).

Definition below (usage limit : Usage) : bool :=
  (events usage <? events limit) && (Usage_bytes usage <? Usage_bytes limit).

Definition check_capacity (usage : Usage) (priority : Priority) : result unit Refusal :=
  let limit := match priority with
               | Priority_Ordinary => ORDINARY_LIMIT
               | Priority_Ending => ENDING_LIMIT
               end in
  if below usage limit then Ok tt else Err Refusal_Full.

Definition fits_received (usage : Usage) : bool := below usage RECEIVED_LIMIT.

(** ** Properties *)

(** The policy refuses an ask exactly when [Event::new] would refuse it for its parties and its
    chain, so a machine never writes an ask its own checks let through and the event's checks
    do not, provided the responder is reachable; and delegating appends the waiting agent unless
    the chain is full or already holds it. *)
Theorem policy_agrees_with_events (sender responder waiting : AgentId) (chain : Chain)
    (conversation : Conversation) (audience : Audience) :
  valid_ask sender conversation audience (responder, chain) =
    is_ok (check_ask sender responder chain)
    && Audience_includes audience (AgentId_origin responder)
    && match conversation with
       | Conversation_Direct agents => bool_decide (DirectPair_other agents sender = Some responder)
       | Conversation_Room _ => true
       end /\
  match delegated chain waiting with
  | Ok longer => AgentList_agents longer = AgentList_agents chain ++ [waiting]
  | Err Refusal_TooDeep => length (AgentList_agents chain) = 8%nat
  | Err _ => waiting ∈ AgentList_agents chain
  end.
Proof.
  split.
  - unfold valid_ask, check_ask. rewrite (bool_decide_ext (sender = responder) (responder = sender))
      by done.
    by destruct (bool_decide _), (AgentList_contains chain responder),
      (AgentList_contains chain sender).
  - unfold delegated, Chain_extended, Chain_try_from. destruct (AgentList_spec chain) as [Hl Hn].
    unfold MAX_CHAIN in *. destruct (N.leb_spec 8 (N.of_nat (length (AgentList_agents chain)))) as [H|H];
      [lia|].
    destruct (AgentList_try_from _ _ _ _) as [a|e] eqn:E; cbn.
    + by apply AgentList_try_from_ok in E.
    + destruct (decide (waiting ∈ AgentList_agents chain)) as [|Hnin]; [done|exfalso].
      apply (f_equal is_ok) in E. rewrite AgentList_try_from_total in E.
      cbn in E. apply not_true_iff_false in E. apply E, agent_list_valid_spec.
      rewrite length_app. cbn [length]. split; [lia|].
      apply NoDup_app. split; [done|]. split; [set_solver|]. apply NoDup_singleton.
Qed.

(** Ordinary writing stops before ending asks does: whatever usage still admits an ordinary
    event admits an ending, every usage that admits an ending still fits what may be received,
    and at its limits each refuses. *)
Theorem capacity_leaves_room_for_endings (usage : Usage) :
  (check_capacity usage Priority_Ordinary = Ok tt -> check_capacity usage Priority_Ending = Ok tt) /\
  (check_capacity usage Priority_Ending = Ok tt -> fits_received usage = true) /\
  (check_capacity usage Priority_Ordinary = Ok tt <->
     events usage < 200000 /\ Usage_bytes usage < 512 * 1024 * 1024) /\
  (check_capacity usage Priority_Ending = Ok tt <->
     events usage < 220000 /\ Usage_bytes usage < 576 * 1024 * 1024).
Proof.
  assert (Hb : forall u l, below u l = true <->
            events u < events l /\ Usage_bytes u < Usage_bytes l).
  { intros u l. unfold below. by rewrite andb_true_iff, !N.ltb_lt. }
  assert (Hc : forall l, (if below usage l then Ok tt else Err Refusal_Full) = Ok tt <->
            below usage l = true) by (intros l; by destruct (below usage l)).
  unfold check_capacity, fits_received. rewrite !Hc, !Hb.
  unfold ORDINARY_LIMIT, ENDING_LIMIT, RECEIVED_LIMIT. cbn [events Usage_bytes].
  repeat split; lia.
Qed.
