(* ===== verification/ChatWire.v ===== *)
(** chat_wire.rs: batches of consecutive events and the messages two machines exchange. *)

From Stdlib Require Import NArith Lia String Ascii Sorted.
From stdpp Require Import base gmap list strings.
From S2P Require Import Prelude SortedLists RustStr Ids AgentLists Event Ledger.

(** ** Definitions *)

Definition MAX_BATCH : N := 256.

(** [first.id().seq().checked_add(1) != Some(second.id().seq())] and the other two tests *)
Definition inconsecutive (first second : Event) : bool :=
  negb (bool_decide (Event_origin first = Event_origin second))
  || negb (match checked_add u64_max (seq_of first) 1 with
           | Some next => next =? seq_of second
           | None => false
           end)
  || (Event_clock second <=? Event_clock first).

Definition batch_valid (events : list Event) : bool :=
  negb ((MAX_BATCH <? N.of_nat (length events)) || any_window2 inconsecutive events).

Record Batch := mkBatch {
  Batch_events : list Event;
  Batch_more : bool;
  Batch_ok : Is_true (batch_valid Batch_events)
}.

Definition Batch_new (events : list Event) (more : bool) : result Batch Invalid :=
  match decide (Is_true (batch_valid events)) with
  | right _ => Err (mkInvalid "chat batch must hold consecutive events of one origin")
  | left H => Ok (mkBatch events more H)
  end.

(** [#[derive(Default)]] *)
Definition Batch_default : Batch := mkBatch [] false I.

Record RawBatch := mkRawBatch { RawBatch_events : list Event; RawBatch_more : bool }.

Definition Batch_try_from (raw : RawBatch) : result Batch Invalid :=
  Batch_new (RawBatch_events raw) (RawBatch_more raw).
Definition RawBatch_from (batch : Batch) : RawBatch :=
  mkRawBatch (Batch_events batch) (Batch_more batch).

Record Offer := mkOffer {
  Offer_from : Origin;
  Offer_to : Origin;
  Offer_after : N;
  Offer_seen : N;
  Offer_batch : Batch
}.

Record Answer := mkAnswer {
  Answer_from : Origin;
  Answer_seen : N;
  Answer_batch : Batch;
  Answer_rejected : option Rejection
}.

Inductive ChatRequest :=
| ChatRequest_Identity
| ChatRequest_Exchange (offer : Offer)
| ChatRequest_Wait (from to : Origin) (seen : N).

Inductive ChatReply :=
| ChatReply_Identity (origin : Origin)
| ChatReply_Exchanged (answer : Answer)
| ChatReply_Changed
| ChatReply_Heartbeat
| ChatReply_Rejected (rejection : Rejection).

(** ** Equality *)

#[export] Instance RawBatch_eq_dec : EqDecision RawBatch.
Proof. solve_decision. Defined.
Lemma RawBatch_from_inj a b : RawBatch_from a = RawBatch_from b -> a = b.
Proof. destruct a, b; cbn. intros [= -> ->]. f_equal. apply proof_irrel. Qed.
#[export] Instance Batch_eq_dec : EqDecision Batch := inj_eq_dec _ RawBatch_from_inj.
#[export] Instance Offer_eq_dec : EqDecision Offer.
Proof. solve_decision. Defined.
#[export] Instance ChatRequest_eq_dec : EqDecision ChatRequest.
Proof. solve_decision. Defined.

(** ** Lemmas *)

(** [first] is followed by [second] in the history of one origin. *)
Definition follows (first second : Event) : Prop :=
  Event_origin first = Event_origin second /\ seq_of second = seq_of first + 1 /\
  Event_clock first < Event_clock second.

Lemma inconsecutive_false first second : inconsecutive first second = false <-> follows first second.
Proof.
  unfold inconsecutive, follows.
  rewrite !orb_false_iff, !negb_false_iff, bool_decide_eq_true, N.leb_gt.
  pose proof (nz_bounds (EventId_seq (Event_id second))) as Hb.
  change (nz_get (EventId_seq (Event_id second))) with (seq_of second) in Hb.
  destruct (checked_add u64_max (seq_of first) 1) as [n|] eqn:E.
  - apply checked_add_Some in E as [-> _]. rewrite N.eqb_eq. naive_solver.
  - apply checked_add_None in E. split; [by intros [[_ ?] _]|]. intros (_ & ? & _). lia.
Qed.

(** [events] is a stretch of one origin's history: sequence numbers go up by one. *)
Definition stretch (events : list Event) : Prop :=
  forall i j first second, (i < j)%nat -> events !! i = Some first -> events !! j = Some second ->
    Event_origin first = Event_origin second /\
    seq_of second = seq_of first + N.of_nat (j - i) /\
    Event_clock first < Event_clock second.

Lemma stretch_nil : stretch [].
Proof. by intros i j first second _ Hi. Qed.

Lemma stretch_cons e events :
  stretch (e :: events) <->
  stretch events /\ (forall f, head events = Some f -> follows e f).
Proof.
  split.
  - intros H. split.
    + intros i j a b Hij Ha Hb. exact (H (S i) (S j) a b ltac:(lia) Ha Hb).
    + intros f Hf. destruct events as [|f' events]; [done|]. injection Hf as ->.
      destruct (H 0%nat 1%nat e f ltac:(lia) eq_refl eq_refl) as (? & ? & ?). by repeat split.
  - intros [Ht Hh] i j a b Hij Ha Hb. destruct i as [|i], j as [|j]; try lia; cbn in Ha, Hb.
    + injection Ha as <-. destruct events as [|f events]; [done|].
      destruct (Hh f eq_refl) as (Ho & Hs & Hc). destruct j as [|j]; [injection Hb as <-|].
      { by repeat split. }
      destruct (Ht 0%nat (S j) f b ltac:(lia) eq_refl Hb) as (Ho' & Hs' & Hc').
      repeat split; [congruence|lia|lia].
    + exact (Ht i j a b ltac:(lia) Ha Hb).
Qed.

Lemma sorted_follows_stretch events :
  Sorted (fun x y => inconsecutive x y = false) events <-> stretch events.
Proof.
  induction events as [|e events IH]; [split; [intros; apply stretch_nil|constructor]|].
  rewrite stretch_cons, <- IH. split.
  - intros Hs. inversion Hs as [|?? Hs' Hh]; subst. split; [done|]. intros f Hf.
    destruct events; [done|]. injection Hf as ->. inversion Hh; subst. by apply inconsecutive_false.
  - intros [Hs Hf]. constructor; [done|]. destruct events; constructor.
    apply inconsecutive_false. by apply Hf.
Qed.

Lemma batch_valid_spec events :
  batch_valid events = true <-> (length events <= 256)%nat /\ stretch events.
Proof.
  unfold batch_valid. rewrite negb_true_iff, orb_false_iff, any_window2_false, N.ltb_ge.
  rewrite sorted_follows_stretch. unfold MAX_BATCH. split; intros [? ?]; split; try done; lia.
Qed.

Lemma Batch_new_ok events more b :
  Batch_new events more = Ok b <-> Batch_events b = events /\ Batch_more b = more.
Proof.
  unfold Batch_new. split.
  - case_decide; [|done]. by intros [= <-].
  - destruct b as [es m Hb]. cbn. intros [<- <-]. case_decide; [|done]. do 2 f_equal.
    apply proof_irrel.
Qed.

Lemma Batch_new_total events more : is_ok (Batch_new events more) = batch_valid events.
Proof.
  unfold Batch_new. case_decide as H; cbn; symmetry.
  - by apply Is_true_true.
  - apply not_true_is_false. by rewrite <- Is_true_true.
Qed.

Lemma Batch_stretch b : stretch (Batch_events b).
Proof.
  destruct b as [es m Hb]; cbn. apply Is_true_true, batch_valid_spec in Hb. tauto.
Qed.

(** ** Properties *)

(** A batch holds at most 256 events, and exactly those lists are batches whose events are a
    stretch of one origin's history: same origin, sequence numbers without gaps and increasing
    clocks between any two of its events, near or far.  Batches survive the conversion to their raw
    form and back. *)
Theorem batch_is_a_stretch (events : list Event) (more : bool) :
  (is_ok (Batch_new events more) = true <-> (length events <= 256)%nat /\ stretch events) /\
  (forall b, Batch_new events more = Ok b -> Batch_events b = events /\ Batch_more b = more) /\
  (forall b, Batch_try_from (RawBatch_from b) = Ok b).
Proof.
  split; [|split].
  - rewrite Batch_new_total. apply batch_valid_spec.
  - intros b. apply Batch_new_ok.
  - intros b. by apply Batch_new_ok.
Qed.
