(* ===== verification/Exchange.v ===== *)
(** chat/exchange.rs: how a ledger fills a bounded batch for a peer, and the three steps of an
    exchange: offering, responding and accepting. *)

From Stdlib Require Import NArith Lia String Ascii Sorted.
From stdpp Require Import base gmap list strings.
From S2P Require Import Prelude SortedLists RustStr Ids AgentLists Event Ledger ChatWire.

(** ** Definitions *)

Definition BATCH_BYTES : N := 896 * 1024.

Record Outgoing := mkOutgoing {
  Outgoing_events : list Event;
  Outgoing_bytes : N;
  Outgoing_more : bool
}.

(** [#[derive(Default)]] *)
Definition Outgoing_default : Outgoing := mkOutgoing [] 0 false.

Class Outbox (L E : Type) `{!Ledger L E} := {
  Outbox_outgoing : L -> Origin -> N -> Outgoing -> Outgoing * result unit E;
  Outbox_ack : L -> Origin -> result N E;
  Outbox_record_ack : L -> Origin -> N -> L * result unit E
}.

Definition Outgoing_offer (self : Outgoing) (sealed : Sealed) : Outgoing * bool :=
  let bytes := saturating_add usize_max
                 (saturating_add usize_max (Outgoing_bytes self) (str_len (Sealed_encoded sealed))) 1 in
  if (MAX_BATCH <=? N.of_nat (length (Outgoing_events self)))
     || (negb (match Outgoing_events self with [] => true | _ => false end) && (BATCH_BYTES <? bytes))
  then (mkOutgoing (Outgoing_events self) (Outgoing_bytes self) true, false)
  else (mkOutgoing (Outgoing_events self ++ [Sealed_event sealed]) bytes (Outgoing_more self), true).

Definition Outgoing_into_batch (self : Outgoing) : result Batch Invalid :=
  Batch_new (Outgoing_events self) (Outgoing_more self).

Definition offer_event `{codec : Codec} (batch : Outgoing) (event : Event) (peer : Origin) :
  Outgoing * result bool Invalid :=
  match Sealed_new (Event_export event peer) with
  | Err e => (batch, Err e)
  | Ok sealed => let '(batch, taken) := Outgoing_offer batch sealed in (batch, Ok taken)
  end.

Record Progress := mkProgress {
  Progress_received : Received;
  Progress_refused : option Rejection;
  Progress_more : bool
}.

Section exchange.
Context `{codec : Codec} {L E : Type} `{ledger_ops : !Ledger L E} `{outbox_ops : !Outbox L E}.

Definition outgoing (ledger : L) (peer : Origin) (after : N) : result (result Batch Rejection) E :=
  match Outbox_outgoing ledger peer after Outgoing_default with
  | (_, Err e) => Err e
  | (batch, Ok _) =>
      Ok (map_err (fun _ => Rejection_Inconsistent) (Outgoing_into_batch batch))
  end.

Definition offer (ledger : L) (peer : Origin) : result (result Offer Rejection) E :=
  let? after := Outbox_ack ledger peer in
  let? cursor := Ledger_cursor ledger peer in
  let seen := seen cursor in
  let? batch := outgoing ledger peer after in
  Ok (map_ok (mkOffer (Ledger_local ledger) peer after seen) batch).

Definition respond (ledger : L) (offer : Offer) : L * result (result Answer Rejection) E :=
  if negb (bool_decide (Offer_to offer = Ledger_local ledger))
     || bool_decide (Offer_from offer = Ledger_local ledger)
  then (ledger, Ok (Err Rejection_WrongPeer)) else
  match Ledger_cursor ledger (Ledger_local ledger) with
  | Err e => (ledger, Err e)
  | Ok cursor =>
      if seen cursor <? Offer_seen offer then (ledger, Ok (Err Rejection_AheadOfHistory)) else
      match receive ledger (Offer_from offer) (Batch_events (Offer_batch offer)) with
      | (ledger, Err e) => (ledger, Err e)
      | (ledger, Ok received) =>
          match Outbox_record_ack ledger (Offer_from offer) (Offer_seen offer) with
          | (ledger, Err e) => (ledger, Err e)
          | (ledger, Ok _) =>
              (ledger,
               let? batch := outgoing ledger (Offer_from offer) (Offer_seen offer) in
               Ok (map_ok (fun batch => mkAnswer (Ledger_local ledger) (Received_seen received) batch
                                          (Received_rejected received)) batch))
          end
      end
  end.

Definition accept (ledger : L) (offer : Offer) (answer : Answer) :
  L * result (result Progress Rejection) E :=
  if negb (bool_decide (Answer_from answer = Offer_to offer))
  then (ledger, Ok (Err Rejection_WrongPeer)) else
  match Ledger_cursor ledger (Ledger_local ledger) with
  | Err e => (ledger, Err e)
  | Ok cursor =>
      if seen cursor <? Answer_seen answer then (ledger, Ok (Err Rejection_AheadOfHistory)) else
      match receive ledger (Answer_from answer) (Batch_events (Answer_batch answer)) with
      | (ledger, Err e) => (ledger, Err e)
      | (ledger, Ok received) =>
          match Outbox_record_ack ledger (Answer_from answer) (Answer_seen answer) with
          | (ledger, Err e) => (ledger, Err e)
          | (ledger, Ok _) =>
              let sent_all := match Answer_rejected answer with None => true | _ => false end in
              let got_all := match Received_rejected received with None => true | _ => false end in
              (ledger,
               Ok (Ok (mkProgress received (Answer_rejected answer)
                         ((Batch_more (Offer_batch offer) && sent_all)
                          || (Batch_more (Answer_batch answer) && got_all)))))
          end
      end
  end.
End exchange.

(** *** What every step respects *)

(** A relation that commits and acknowledgments respect holds across every operation. *)
Section respected.
Context `{codec : Codec} {L E : Type} `{ledger_ops : !Ledger L E} `{outbox_ops : !Outbox L E}.
Context (R : L -> L -> Prop) `{!PreOrder R}.
Hypothesis respects_commit : forall l s a l', Ledger_commit l s a = (l', Ok tt) -> R l l'.
Hypothesis respects_ack : forall l peer seen l', Outbox_record_ack l peer seen = (l', Ok tt) -> R l l'.

Lemma append_respects l body l' e : append l body = (l', Ok e) -> R l l'.
Proof.
  unfold append, commit. destruct (append_event l body) as [s|]; [|done].
  destruct (admit_sealed l s) as [[|a]|]; [done| |done].
  destruct (Ledger_commit l s a) as [l1 [[]|]] eqn:Hc; [|done]. intros [= <- _]. by eapply respects_commit.
Qed.

Lemma receive_loop_respects o events : forall l n l' r, receive_loop l o events n = (l', Ok r) -> R l l'.
Proof.
  induction events as [|e events IH]; intros l n l' r; cbn [receive_loop]; [by intros [= <- _]|].
  destruct (receive_one l o e) as [l1 [[]|f]] eqn:Hone.
  - apply receive_one_true in Hone as (_ & _ & s & a & _ & _ & _ & Hc%respects_commit). intros H%IH. by etrans.
  - apply receive_one_false in Hone as [-> _]. apply IH.
  - apply receive_one_refused in Hone as [->|[error ->]]; [|done]. by destruct f; intros [= <- _].
Qed.

Lemma receive_respects l o events l' r : receive l o events = (l', Ok r) -> R l l'.
Proof.
  unfold receive. destruct (receive_loop l o events 0) as [l1 [[n rej]|]] eqn:Hl; [|done].
  apply receive_loop_respects in Hl. by intros [= <- _].
Qed.

Lemma respond_respects l request l' r : respond l request = (l', Ok r) -> R l l'.
Proof.
  unfold respond. destruct (negb _ || _); [by intros [= <- _]|]. destruct (Ledger_cursor _ _); [|done].
  destruct (_ <? _); [by intros [= <- _]|]. destruct (receive l _ _) as [l1 [rec|]] eqn:Hr; [|done].
  apply receive_respects in Hr. destruct (Outbox_record_ack l1 _ _) as [l2 [[]|]] eqn:Ha; [|done].
  apply respects_ack in Ha. destruct (outgoing _ _ _); intros [= <- _]. by etrans.
Qed.

Lemma accept_respects l request answer l' r : accept l request answer = (l', Ok r) -> R l l'.
Proof.
  unfold accept. destruct (negb _); [by intros [= <- _]|]. destruct (Ledger_cursor _ _); [|done].
  destruct (_ <? _); [by intros [= <- _]|]. destruct (receive l _ _) as [l1 [rec|]] eqn:Hr; [|done].
  apply receive_respects in Hr. destruct (Outbox_record_ack l1 _ _) as [l2 [[]|]] eqn:Ha; [|done].
  apply respects_ack in Ha. intros [= <- _]. by etrans.
Qed.
End respected.

(** ** Filling a batch *)

(** The loop an outbox runs: offer events until one is not taken. *)
Fixpoint offer_all `{codec : Codec} (batch : Outgoing) (events : list Event) (peer : Origin) : Outgoing :=
  match events with
  | [] => batch
  | event :: events =>
      match offer_event batch event peer with
      | (batch, Ok true) => offer_all batch events peer
      | (batch, Ok false) | (batch, Err _) => batch
      end
  end.

(** ** Lemmas *)

Section fill.
Context `{codec : Codec}.

(** Bytes an event takes in a batch: its encoding and one separator. *)
Definition wire_size (event : Event) : N :=
  match to_string event with Some encoded => str_len encoded + 1 | None => 0 end.

Definition wire_sizes (events : list Event) : N := foldr (fun e n => wire_size e + n) 0 events.

Lemma wire_sizes_app l1 l2 : wire_sizes (l1 ++ l2) = wire_sizes l1 + wire_sizes l2.
Proof. unfold wire_sizes. induction l1 as [|e l1 IH]; cbn; [done|]. rewrite IH. lia. Qed.

Lemma wire_sizes_one e : wire_sizes [e] = wire_size e.
Proof. cbn. lia. Qed.

Lemma Sealed_new_size e s :
  Sealed_new e = Ok s -> wire_size e = str_len (Sealed_encoded s) + 1 /\
    str_len (Sealed_encoded s) <= MAX_EVENT_BYTES.
Proof.
  unfold Sealed_new, wire_size. destruct (to_string e) as [enc|]; cbn; [|done].
  destruct (N.ltb_spec MAX_EVENT_BYTES (str_len enc)); [done|]. by intros [= <-].
Qed.

(** What holds of a batch while it is filled. *)
Definition filling (b : Outgoing) : Prop :=
  Outgoing_more b = false /\ (length (Outgoing_events b) <= 256)%nat /\
  Outgoing_bytes b = wire_sizes (Outgoing_events b) /\
  (wire_sizes (Outgoing_events b) <= BATCH_BYTES \/
   (length (Outgoing_events b) = 1%nat /\ wire_sizes (Outgoing_events b) <= MAX_EVENT_BYTES + 1)).

Lemma offer_event_filling b event peer :
  filling b ->
  match offer_event b event peer with
  | (b', Ok true) =>
      filling b' /\ Outgoing_events b' = Outgoing_events b ++ [Event_export event peer]
  | (b', Ok false) =>
      Outgoing_events b' = Outgoing_events b /\ Outgoing_more b' = true /\ Outgoing_events b <> []
  | (b', Err _) => b' = b /\ is_ok (Sealed_new (Event_export event peer)) = false
  end.
Proof.
  intros (Hmore & Hlen & Hbytes & Hsize). unfold offer_event.
  destruct (Sealed_new (Event_export event peer)) as [s|e] eqn:Hs; [|done].
  pose proof (Sealed_new_event _ _ Hs) as He. apply Sealed_new_size in Hs as [Hw Hmax].
  unfold Outgoing_offer. rewrite Hbytes.
  assert (Hsat : saturating_add usize_max (saturating_add usize_max (wire_sizes (Outgoing_events b))
             (str_len (Sealed_encoded s))) 1
           = wire_sizes (Outgoing_events b) + wire_size (Event_export event peer)).
  { unfold saturating_add, usize_max, u64_max, BATCH_BYTES, MAX_EVENT_BYTES in *. lia. }
  rewrite Hsat. unfold MAX_BATCH.
  destruct (N.leb_spec 256 (N.of_nat (length (Outgoing_events b)))) as [Hfull|Hroom]; cbn.
  { repeat split; try done. intros E. rewrite E in Hfull. cbn in Hfull. lia. }
  destruct (Outgoing_events b) as [|e0 es] eqn:Hevs; cbn [negb andb].
  - rewrite He. cbn. split; [|done]. unfold filling. cbn. rewrite Hmore, Hw.
    split; [done|]. split; [lia|]. split; [lia|]. right. split; [done|]. lia.
  - destruct (N.ltb_spec BATCH_BYTES (wire_sizes (e0 :: es) + wire_size (Event_export event peer)))
      as [Hbig|Hfits]; cbn [orb].
    + done.
    + rewrite He. cbn [Outgoing_events Outgoing_bytes Outgoing_more]. split; [|done].
      unfold filling. cbn [Outgoing_events Outgoing_bytes Outgoing_more].
      rewrite Hmore, wire_sizes_app, wire_sizes_one, length_app. cbn [length] in *. split; [done|]. split; [lia|]. split; [lia|]. by left.
Qed.

Lemma offer_all_spec events peer : forall b, filling b ->
  exists k, (k <= length events)%nat /\
    Outgoing_events (offer_all b events peer)
      = Outgoing_events b ++ map (fun e => Event_export e peer) (take k events) /\
    filling (mkOutgoing (Outgoing_events (offer_all b events peer))
               (wire_sizes (Outgoing_events (offer_all b events peer))) false) /\
    (Outgoing_more (offer_all b events peer) = true ->
       (k < length events)%nat /\ Outgoing_events (offer_all b events peer) <> []) /\
    (Outgoing_more (offer_all b events peer) = false -> k = length events \/
       exists e, events !! k = Some e /\ is_ok (Sealed_new (Event_export e peer)) = false).
Proof.
  induction events as [|event events IH]; intros b Hb; cbn [offer_all].
  { exists 0%nat. cbn. rewrite app_nil_r. destruct Hb as (Hmore & Hlen & Hbytes & Hsize).
    rewrite Hmore. repeat split; try done. by left. }
  pose proof (offer_event_filling b event peer Hb) as Hoffer.
  destruct (offer_event b event peer) as [b' [[]|e]].
  - destruct Hoffer as [Hb' Hevs]. destruct (IH b' Hb') as (k & Hk & Hall & Hfill & Hm & Hn).
    exists (S k). rewrite Hevs in Hall. cbn [length take map]. rewrite Hall, <- app_assoc.
    split; [lia|]. split; [done|]. rewrite Hall, <- app_assoc in Hfill, Hm. split; [done|].
    split; [intros H; destruct (Hm H); split; [lia|done]|].
    intros H. destruct (Hn H) as [->|?]; [by left|by right].
  - destruct Hoffer as (Hevs & Hmore & Hne). exists 0%nat. cbn. rewrite Hevs, app_nil_r, Hmore.
    destruct Hb as (_ & Hlen & _ & Hsize). split; [lia|]. split; [done|].
    split; [by repeat split|]. split; [|done]. intros _. split; [lia|done].
  - destruct Hoffer as [-> Herr]. exists 0%nat. cbn. rewrite app_nil_r.
    destruct Hb as (Hmore & Hlen & Hbytes & Hsize). rewrite Hmore.
    repeat split; try done; try lia. right. eauto.
Qed.
End fill.

(** ** Properties *)

(** Filling a batch for a peer from the history it has not acknowledged takes a prefix of that
    history, exported for the peer; the batch holds at most 256 events and, unless it is a single
    event, at most [BATCH_BYTES] on the wire; it announces more exactly when events that could be
    sent were left out; and it always makes progress: it is only empty when there is nothing to
    send or the first event cannot be encoded. *)
Theorem filled_batch_bounded `{codec : Codec} (events : list Event) (peer : Origin) :
  let filled := offer_all Outgoing_default events peer in
  exists k, (k <= length events)%nat /\
    Outgoing_events filled = map (fun e => Event_export e peer) (take k events) /\
    (length (Outgoing_events filled) <= 256)%nat /\
    (wire_sizes (Outgoing_events filled) <= BATCH_BYTES \/ length (Outgoing_events filled) = 1%nat) /\
    (Outgoing_more filled = true -> (0 < k < length events)%nat) /\
    (Outgoing_more filled = false -> k = length events \/
       exists e, events !! k = Some e /\ is_ok (Sealed_new (Event_export e peer)) = false).
Proof.
  cbn. assert (Hb : filling Outgoing_default).
  { repeat split; try done; [cbn; lia|]. left. done. }
  destruct (offer_all_spec events peer _ Hb) as (k & Hk & Hall & (_ & Hlen & _ & Hsize) & Hm & Hn).
  exists k. cbn in Hlen, Hsize. split; [done|]. split; [done|]. split; [done|].
  split; [destruct Hsize as [?|[? _]]; auto|]. split; [|done].
  intros H. destruct (Hm H) as [Hlt Hne]. split; [|done]. destruct k; [|lia].
  exfalso. apply Hne. rewrite Hall. done.
Qed.
