(* ===== verification/Model.v ===== *)
(** chat/model.rs: the in-memory ledger.  It implements [Ledger] and [Outbox]; its laws are proved
    here, and with them the theorems of Ledger.v and Exchange.v apply to it.  A [BTreeMap] is a
    finite map, iterated in the order of its keys. *)

From Stdlib Require Import NArith Lia String Ascii Sorted.
From stdpp Require Import base gmap list strings.
From S2P Require Import Prelude SortedLists RustStr Ids AgentLists Notification Handoff Event.
From S2P Require Import Ledger ChatWire Exchange.

(** ** Definitions *)

(** The keys of a [BTreeMap] in order, and the values in the order of their keys. *)
Definition btree_keys {K V} `{Countable K, Ord K} (m : gmap K V) : list K :=
  sort (map fst (map_to_list m)).
Definition btree_values {K V} `{Countable K, Ord K} (m : gmap K V) : list V :=
  omap (fun key => m !! key) (btree_keys m).

Record Model := mkModel {
  origin : Origin;
  events : gmap EventId Sealed;
  cursors : gmap Origin Cursor;
  clock : N;
  acks : gmap Origin N;
  resolutions : gmap EventId Resolution;
  profiles : gmap AgentId Card;
  machines : gmap Origin MachineCard;
  rooms : gmap RoomId Room;
  open_asks : gset (AgentId * EventId);
  started_by : gmap EventId AgentId;
  deliveries : gmap (EventId * AgentId) Delivery;
  activities : gmap AgentId Activity;
  handoff_reads : gset (EventId * AgentId)
}.

Definition Model_new (origin : Origin) : Model :=
  mkModel origin ∅ ∅ 0 ∅ ∅ ∅ ∅ ∅ ∅ ∅ ∅ ∅ ∅.

(** Assignments to the fields. *)
Definition set_history m events' cursors' clock' :=
  mkModel (origin m) events' cursors' clock' (acks m) (resolutions m) (profiles m) (machines m)
    (rooms m) (open_asks m) (started_by m) (deliveries m) (activities m) (handoff_reads m).
Definition set_acks m acks' :=
  mkModel (origin m) (events m) (cursors m) (clock m) acks' (resolutions m) (profiles m) (machines m)
    (rooms m) (open_asks m) (started_by m) (deliveries m) (activities m) (handoff_reads m).
Definition set_resolutions m open' resolutions' :=
  mkModel (origin m) (events m) (cursors m) (clock m) (acks m) resolutions' (profiles m) (machines m)
    (rooms m) open' (started_by m) (deliveries m) (activities m) (handoff_reads m).
Definition set_directory m profiles' machines' rooms' activities' :=
  mkModel (origin m) (events m) (cursors m) (clock m) (acks m) (resolutions m) profiles' machines'
    rooms' (open_asks m) (started_by m) (deliveries m) activities' (handoff_reads m).
Definition set_progress m started' deliveries' reads' :=
  mkModel (origin m) (events m) (cursors m) (clock m) (acks m) (resolutions m) (profiles m)
    (machines m) (rooms m) (open_asks m) started' deliveries' (activities m) reads'.

(** The [match admitted.change] of [commit]. *)
Definition Model_apply (m : Model) (event : Event) (change : Change) : Model :=
  match change with
  | Change_Nothing => m
  | Change_HandoffRead request agent =>
      set_progress m (started_by m) (deliveries m) ({[(request, agent)]} ∪ handoff_reads m)
  | Change_Receipt request agent delivery =>
      let key := (request, agent) in
      let current := default Delivery_default (deliveries m !! key) in
      set_progress m (started_by m) (<[key := Delivery_observe current delivery]> (deliveries m))
        (handoff_reads m)
  | Change_Activity agent activity =>
      set_directory m (profiles m) (machines m) (rooms m) (<[agent := activity]> (activities m))
  | Change_Profile agent (Some card) =>
      set_directory m (<[agent := card]> (profiles m)) (machines m) (rooms m) (activities m)
  | Change_Profile agent None =>
      set_directory m (delete agent (profiles m)) (machines m) (rooms m) (activities m)
  | Change_Machine card =>
      set_directory m (profiles m) (<[Event_origin event := card]> (machines m)) (rooms m)
        (activities m)
  | Change_Room id (Some room) =>
      set_directory m (profiles m) (machines m) (<[id := room]> (rooms m)) (activities m)
  | Change_Room id None =>
      set_directory m (profiles m) (machines m) (delete id (rooms m)) (activities m)
  | Change_Ask responder =>
      set_resolutions m ({[(responder, Event_id event)]} ∪ open_asks m) (resolutions m)
  | Change_Started request agent =>
      set_progress m (<[request := agent]> (started_by m)) (deliveries m) (handoff_reads m)
  | Change_Resolution request resolution wins =>
      if wins then
        set_resolutions m (open_asks m ∖ {[(Resolution_responder resolution, request)]})
          (<[request := resolution]> (resolutions m))
      else m
  end.

Definition Model_commit (m : Model) (sealed : Sealed) (admitted : Admitted_) : Model :=
  let event := Sealed_event sealed in
  let m := set_history m
             (<[Event_id event := sealed]> (events m))
             (<[Event_origin event := Admitted_cursor admitted]> (cursors m))
             (N.max (clock m) (Event_clock event)) in
  Model_apply m event (Admitted_change admitted).

Definition Model_cursor (m : Model) (origin : Origin) : Cursor :=
  default Cursor_default (cursors m !! origin).

Definition Model_parent (m : Model) (id : EventId) : Parent :=
  match Sealed_event <$> (events m !! id) with
  | Some event => match Event_body event with
                  | Body_Omitted => Parent_Opaque
                  | _ => Parent_Present event
                  end
  | None => Parent_Missing
  end.

(** [Infallible] has no value. *)
#[export] Instance Model_Ledger : Ledger Model Empty_set := {
  Ledger_local := origin;
  Ledger_cursor m o := Ok (Model_cursor m o);
  Ledger_digest m id := Ok (Sealed_digest <$> (events m !! id));
  Ledger_parent m id := Ok (Model_parent m id);
  Ledger_resolution m request := Ok (resolutions m !! request);
  Ledger_clock m := Ok (clock m);
  Ledger_has_room _ := Ok true;
  Ledger_commit m sealed admitted := (Model_commit m sealed admitted, Ok tt)
}.

(** The model's own events after a sequence number, in order. *)
Definition own_events (m : Model) (after : N) : list Event :=
  map Sealed_event
    (List.filter (fun sealed => after <? seq_of (Sealed_event sealed))
       (List.filter (fun sealed => bool_decide (Event_origin (Sealed_event sealed) = origin m))
          (btree_values (events m)))).

Definition Model_record_ack (m : Model) (peer : Origin) (seen_ : N) : Model :=
  let local := match cursors m !! origin m with Some cursor => seen cursor | None => 0 end in
  let ack := default 0 (acks m !! peer) in
  set_acks m (<[peer := N.max ack (N.min seen_ local)]> (acks m)).

Section codec.
Context `{codec : Codec}.

#[export] Instance Model_Outbox : Outbox Model Empty_set := {
  Outbox_outgoing m peer after batch := (offer_all batch (own_events m after) peer, Ok tt);
  Outbox_ack m peer := Ok (default 0 (acks m !! peer));
  Outbox_record_ack m peer seen := (Model_record_ack m peer seen, Ok tt)
}.

Definition Model_write (m : Model) (body : Body) : Model * result Event (Failure Empty_set) :=
  append m body.

Definition Model_offer (m : Model) (peer : Origin) : result Offer Rejection :=
  match offer (E := Empty_set) m peer with Ok r => r | Err e => match e with end end.
Definition Model_respond (m : Model) (request : Offer) : Model * result Answer Rejection :=
  let '(m, r) := respond (E := Empty_set) m request in
  (m, match r with Ok r => r | Err e => match e with end end).
Definition Model_accept (m : Model) (request : Offer) (answer : Answer) :
  Model * result Progress Rejection :=
  let '(m, r) := accept (E := Empty_set) m request answer in
  (m, match r with Ok r => r | Err e => match e with end end).

(** The loop of [sync_with]: [last] is the progress of the last round. *)
Fixpoint sync_rounds (m peer : Model) (rounds : nat) (last : option Progress) :
  Model * Model * result (option Progress) Rejection :=
  match rounds with
  | O => (m, peer, Ok last)
  | S rounds =>
      match Model_offer m (origin peer) with
      | Err e => (m, peer, Err e)
      | Ok request =>
          match Model_respond peer request with
          | (peer, Err e) => (m, peer, Err e)
          | (peer, Ok answer) =>
              match Model_accept m request answer with
              | (m, Err e) => (m, peer, Err e)
              | (m, Ok progress) =>
                  if negb (Progress_more progress) then (m, peer, Ok (Some progress))
                  else sync_rounds m peer rounds (Some progress)
              end
          end
      end
  end.

Definition sync_with (m peer : Model) (rounds : nat) : Model * Model * result Progress Rejection :=
  let '(m, peer, r) := sync_rounds m peer rounds None in
  (m, peer, let? last := r in ok_or last Rejection_Inconsistent).
End codec.

(** [events.sort_by(|first, second| first.order().cmp(&second.order()))] *)
Definition order_Ord : Ord Event := fun first second => cmp (Event_order first) (Event_order second).
Definition Model_ordered (m : Model) : list Event :=
  @sort Event order_Ord (map Sealed_event (btree_values (events m))).
