(* ===== verification/History.v ===== *)
(** The histories the in-memory ledger of Model.v can reach: every operation is a sequence of
    commits of admitted events and of acknowledgments, and what those preserve. *)

From Stdlib Require Import NArith Lia String Ascii Sorted Relations.
From stdpp Require Import base gmap list strings relations.
From S2P Require Import Prelude SortedLists RustStr Ids AgentLists Notification Handoff Event.
From S2P Require Import Ledger ChatWire Exchange Model.

(** ** The laws of a ledger hold of the model *)

Lemma Model_apply_history m e ch :
  origin (Model_apply m e ch) = origin m /\ events (Model_apply m e ch) = events m /\
  cursors (Model_apply m e ch) = cursors m /\ clock (Model_apply m e ch) = clock m /\
  acks (Model_apply m e ch) = acks m.
Proof. destruct ch as [|? []| |? []| | |? ? []| | |]; done. Qed.

Lemma Model_commit_history m s a :
  let m' := Model_commit m s a in
  origin m' = origin m /\ events m' = <[Event_id (Sealed_event s) := s]> (events m) /\
  cursors m' = <[Event_origin (Sealed_event s) := Admitted_cursor a]> (cursors m) /\
  clock m' = N.max (clock m) (Event_clock (Sealed_event s)) /\ acks m' = acks m.
Proof.
  cbn. unfold Model_commit.
  match goal with |- context [Model_apply ?x ?e ?c] =>
    destruct (Model_apply_history x e c) as (-> & -> & -> & -> & ->) end.
  done.
Qed.

Lemma Model_cursor_commit m s a o :
  Model_cursor (Model_commit m s a) o =
    if decide (o = Event_origin (Sealed_event s)) then Admitted_cursor a else Model_cursor m o.
Proof.
  unfold Model_cursor. destruct (Model_commit_history m s a) as (_ & _ & -> & _).
  case_decide as Ho.
  - subst o. by rewrite lookup_insert_eq.
  - by rewrite lookup_insert_ne by congruence.
Qed.

#[export] Instance Model_LedgerLaws `{Codec} : LedgerLaws Model Empty_set.
Proof.
  split.
  - intros l s a l' r [= <- _]. apply Model_commit_history.
  - intros l s a l' [= <-] o. cbn. rewrite Model_cursor_commit. by case_decide.
  - intros l s a l' _ [= <-] id. cbn.
    destruct (Model_commit_history l s a) as (_ & -> & _). case_decide as Hid.
    + subst id. by rewrite lookup_insert_eq.
    + by rewrite lookup_insert_ne by congruence.
Qed.

(** ** Steps *)

Section steps.
Context `{codec : Codec}.

Inductive step : Model -> Model -> Prop :=
| step_commit m s a :
    Sealed_new (Sealed_event s) = Ok s -> admit_sealed (E := Empty_set) m s = Ok (Decision_Append a) ->
    step m (Model_commit m s a)
| step_ack m peer seen :
    step m (Model_record_ack m peer seen).

Lemma write_steps m body m' r : Model_write m body = (m', r) -> rtc step m m'.
Proof.
  unfold Model_write, append. destruct (append_event m body) as [s|f] eqn:Hs; [|by intros [= <- _]].
  apply append_event_ok in Hs as (_ & _ & _ & _ & _ & _ & _ & _ & Hs). unfold commit.
  destruct (admit_sealed m s) as [[|a]|f] eqn:Ha; [by intros [= <- _]| |by intros [= <- _]].
  cbn. intros [= <- _]. apply rtc_once. by constructor.
Qed.

Lemma receive_loop_steps o es : forall m n m' r,
  receive_loop (E := Empty_set) m o es n = (m', r) -> rtc step m m'.
Proof.
  induction es as [|e es IH]; intros m n m' r; cbn [receive_loop]; [by intros [= <- _]|].
  destruct (receive_one m o e) as [m1 outcome] eqn:Hone.
  destruct outcome as [[]|f].
  - apply receive_one_true in Hone as (_ & _ & s & a & Hs & He & Ha & Hc). cbn in Hc.
    injection Hc as <-. intros H%IH. eapply rtc_l; [|exact H]. constructor; [by rewrite He|done].
  - apply receive_one_false in Hone as [-> _]. apply IH.
  - apply receive_one_refused in Hone as [->|[[] _]]. destruct f as [[]| |]; by intros [= <- _].
Qed.

Lemma receive_steps o es m m' r : receive (E := Empty_set) m o es = (m', r) -> rtc step m m'.
Proof.
  unfold receive. destruct (receive_loop m o es 0) as [m1 [[n rej]|e]] eqn:Hl;
    apply receive_loop_steps in Hl; by intros [= <- _].
Qed.

Lemma respond_steps m request m' r : Model_respond m request = (m', r) -> rtc step m m'.
Proof.
  unfold Model_respond, respond. destruct (negb _ || _); [by intros [= <- _]|].
  cbn [Ledger_cursor Model_Ledger]. destruct (_ <? _); [by intros [= <- _]|].
  destruct (receive m _ _) as [m1 [rec|[]]] eqn:Hr. apply receive_steps in Hr. cbn.
  intros [= <- _]. eapply rtc_r; [exact Hr|]. constructor.
Qed.

Lemma accept_steps m request answer m' r : Model_accept m request answer = (m', r) -> rtc step m m'.
Proof.
  unfold Model_accept, accept. destruct (negb _); [by intros [= <- _]|].
  cbn [Ledger_cursor Model_Ledger]. destruct (_ <? _); [by intros [= <- _]|].
  destruct (receive m _ _) as [m1 [rec|[]]] eqn:Hr. apply receive_steps in Hr. cbn.
  intros [= <- _]. eapply rtc_r; [exact Hr|]. constructor.
Qed.

Lemma sync_steps rounds : forall m peer last m' peer' r,
  sync_rounds m peer rounds last = (m', peer', r) -> rtc step m m' /\ rtc step peer peer'.
Proof.
  induction rounds as [|rounds IH]; intros m peer last m' peer' r; cbn [sync_rounds];
    [by intros [= <- <- _]|].
  destruct (Model_offer m (origin peer)) as [request|e]; [|by intros [= <- <- _]].
  destruct (Model_respond peer request) as [peer1 [answer|e]] eqn:Hp; apply respond_steps in Hp;
    [|by intros [= <- <- _]].
  destruct (Model_accept m request answer) as [m1 [progress|e]] eqn:Hm; apply accept_steps in Hm;
    [|by intros [= <- <- _]].
  case_match; [by intros [= <- <- _]|]. intros [H1 H2]%IH. split; by etrans.
Qed.

(** What a program can do to a model: write, receive, respond, accept, synchronize. *)
Inductive reachable (o : Origin) : Model -> Prop :=
| reachable_new : reachable o (Model_new o)
| reachable_write m body m' r :
    reachable o m -> Model_write m body = (m', r) -> reachable o m'
| reachable_receive m from es m' r :
    reachable o m -> receive (E := Empty_set) m from es = (m', r) -> reachable o m'
| reachable_respond m request m' r :
    reachable o m -> Model_respond m request = (m', r) -> reachable o m'
| reachable_accept m request answer m' r :
    reachable o m -> Model_accept m request answer = (m', r) -> reachable o m'.

Lemma reachable_steps o m : reachable o m -> rtc step (Model_new o) m.
Proof.
  induction 1; [done|..]; (etrans; [done|]);
    eauto using write_steps, receive_steps, respond_steps, accept_steps.
Qed.

(** *** The invariant of a history *)

Definition stored (E : gmap EventId Sealed) (e : Event) : Prop :=
  exists s, E !! Event_id e = Some s /\ Sealed_event s = e.

Record history (m : Model) : Prop := {
  h_key : forall id s, events m !! id = Some s ->
    Event_id (Sealed_event s) = id /\ Sealed_new (Sealed_event s) = Ok s;
  h_seen : forall id, is_Some (events m !! id) <->
    nz_get (EventId_seq id) <= seen (Model_cursor m (EventId_origin id));
  h_clock : forall e, stored (events m) e ->
    Event_clock e <= Cursor_clock (Model_cursor m (Event_origin e)) /\
    (seq_of e = seen (Model_cursor m (Event_origin e)) ->
     Event_clock e = Cursor_clock (Model_cursor m (Event_origin e)));
  h_inc : forall e1 e2, stored (events m) e1 -> stored (events m) e2 ->
    Event_origin e1 = Event_origin e2 -> seq_of e1 < seq_of e2 -> Event_clock e1 < Event_clock e2;
  h_max : forall o, Cursor_clock (Model_cursor m o) <= clock m;
  h_reached : clock m = 0 \/ exists e, stored (events m) e /\ Event_clock e = clock m;
  h_cursor : forall o c, cursors m !! o = Some c -> 0 < seen c /\ seen c <= u64_max;
  h_closed : forall e r, stored (events m) e -> Body_request (Event_body e) = Some r ->
    exists parent, stored (events m) parent /\ Event_id parent = r
}.

Lemma checked_parent_model (m : Model) e r p :
  checked_parent (E := Empty_set) m e r = Ok p -> p = Model_parent m r.
Proof. intros [Hp _]%checked_parent_ok. by injection Hp as <-. Qed.

Lemma change_request_known (m : Model) e ch r :
  change (E := Empty_set) m e = Ok ch -> Body_request (Event_body e) = Some r ->
  Model_parent m r <> Parent_Missing.
Proof.
  assert (Hres : forall cand, (exists c a, Body_conversation (Event_body e) = Some c /\
      Body_audience (Event_body e) = Some a) ->
      resolve (E := Empty_set) m e r cand = Ok ch -> Model_parent m r <> Parent_Missing).
  { intros cand (c & a & Hc & Ha). unfold resolve. rewrite Hc, Ha. cbn [Ledger_resolution Model_Ledger map_err].
    destruct (checked_parent m e r) as [p|] eqn:Hp; [|done]. apply checked_parent_model in Hp. rewrite <- Hp.
    by destruct p. }
  assert (Hth : forall ctx, (exists c a n, Body_conversation (Event_body e) = Some c /\
      Body_audience (Event_body e) = Some a /\ Event_author e = Some n) ->
      thread_parent (E := Empty_set) m e r = Ok ctx -> Model_parent m r <> Parent_Missing).
  { intros ctx (c & a & n & Hc & Ha & Hn). unfold thread_parent. rewrite Hc, Ha, Hn.
    destruct (checked_parent m e r) as [p|] eqn:Hp; [|done]. apply checked_parent_model in Hp. rewrite <- Hp.
    by destruct p. }
  unfold change. unfold Event_author in Hth.
  destruct (Event_body e) as [| | | | |c from t a [| |req]| |obs aud| | | | |]; cbn in *; try done.
  - intros H [= ->]. eapply Hres; [|exact H]. eauto.
  - unfold handoff_read. destruct (Event_author e); cbn [ok_or]; [|done]. intros H [= <-]. revert H.
    destruct (checked_parent m e _) as [p|] eqn:Hp; [|done]. apply checked_parent_model in Hp. rewrite <- Hp.
    by destruct p.
  - intros H [= ->]. unfold receipt in H. destruct (thread_parent m e r) eqn:Ht; [|done].
    eapply Hth; [|done]. eauto 6.
  - intros H [= ->]. unfold started in H. destruct (thread_parent m e r) eqn:Ht; [|done].
    eapply Hth; [|done]. eauto 6.
  - intros H [= ->]. eapply Hres; [|exact H]. eauto.
Qed.

Lemma stored_insert E s e :
  E !! Event_id (Sealed_event s) = None ->
  stored (<[Event_id (Sealed_event s) := s]> E) e <-> e = Sealed_event s \/ stored E e.
Proof.
  intros Hfresh. unfold stored. split.
  - intros (s' & Hs' & <-).
    destruct (decide (Event_id (Sealed_event s) = Event_id (Sealed_event s'))) as [Heq|Hne].
    + rewrite <- Heq, lookup_insert_eq in Hs'. injection Hs' as ->. by left.
    + rewrite lookup_insert_ne in Hs' by done. eauto.
  - intros [->|(s' & Hs' & <-)].
    + exists s. by rewrite lookup_insert_eq.
    + exists s'. rewrite lookup_insert_ne; [done|]. intros Heq. congruence.
Qed.

Lemma stored_id_inj (E : gmap EventId Sealed) e1 e2 :
  stored E e1 -> stored E e2 -> Event_id e1 = Event_id e2 -> e1 = e2.
Proof. intros (s1 & H1 & <-) (s2 & H2 & <-) Heq. rewrite Heq in H1. congruence. Qed.

Lemma id_of_seq (e1 e2 : Event) :
  Event_origin e1 = Event_origin e2 -> seq_of e1 = seq_of e2 -> Event_id e1 = Event_id e2.
Proof.
  unfold Event_origin, seq_of. destruct (Event_id e1), (Event_id e2); cbn.
  intros -> Hs%nz_inj. by rewrite Hs.
Qed.

Lemma history_stored m e : history m -> stored (events m) e -> events m !! Event_id e <> None.
Proof. intros _ (s & Hs & _). congruence. Qed.

Lemma history_stored_seen m e :
  history m -> stored (events m) e -> seq_of e <= seen (Model_cursor m (Event_origin e)).
Proof. intros Hm (s & Hs & _). apply (h_seen m Hm). eauto. Qed.

Lemma Model_parent_present m id e :
  history m -> (Model_parent m id = Parent_Present e <->
    stored (events m) e /\ Event_id e = id /\ Event_body e <> Body_Omitted).
Proof.
  intros Hm. unfold Model_parent. destruct (events m !! id) as [s|] eqn:Hs; cbn.
  - destruct (h_key m Hm _ _ Hs) as [Hid _]. split.
    + intros H. assert (Sealed_event s = e /\ Event_body (Sealed_event s) <> Body_Omitted) as [<- Hb].
      { destruct (Event_body (Sealed_event s)) eqn:Hb; try done; by injection H as <-. }
      split; [|done]. exists s. by rewrite Hid.
    + intros ((s' & Hs' & <-) & Hid' & Hb). rewrite Hid', Hs in Hs'. injection Hs' as ->.
      by destruct (Event_body (Sealed_event s')).
  - split; [done|]. intros ((s' & Hs' & <-) & Hid' & _). congruence.
Qed.

Lemma append_fresh m s a :
  history m -> admit_sealed (E := Empty_set) m s = Ok (Decision_Append a) ->
  events m !! Event_id (Sealed_event s) = None /\
  seq_of (Sealed_event s) = seen (Model_cursor m (Event_origin (Sealed_event s))) + 1 /\
  Cursor_clock (Model_cursor m (Event_origin (Sealed_event s))) < Event_clock (Sealed_event s) /\
  change (E := Empty_set) m (Sealed_event s) = Ok (Admitted_change a) /\
  Admitted_cursor a = mkCursor (seq_of (Sealed_event s)) (Event_clock (Sealed_event s)).
Proof.
  intros Hm Ha. apply admit_append_iff in Ha as (c & ch & [= <-] & Hseq & Hclock & Hch & ->).
  split; [|done]. apply eq_None_not_Some. rewrite (h_seen m Hm). unfold seq_of in Hseq.
  unfold Event_origin in Hseq. lia.
Qed.

Lemma history_commit m s a :
  history m -> Sealed_new (Sealed_event s) = Ok s ->
  admit_sealed (E := Empty_set) m s = Ok (Decision_Append a) -> history (Model_commit m s a).
Proof.
  intros Hm Hsealed Ha. destruct (append_fresh _ _ _ Hm Ha) as (Hfresh & Hseq & Hclock & Hch & Hcur).
  set (e := Sealed_event s) in *.
  destruct (Model_commit_history m s a) as (_ & Hev & Hcs & Hck & _). fold e in Hev, Hcs, Hck.
  pose proof (Model_cursor_commit m s a) as Hc. fold e in Hc. rewrite Hcur in Hc, Hcs.
  assert (Hst : forall e', stored (events (Model_commit m s a)) e' <-> e' = e \/ stored (events m) e').
  { intros e'. rewrite Hev. by apply stored_insert. }
  pose proof (nz_bounds (EventId_seq (Event_id e))) as Hb.
  split.
  - intros id s'. rewrite Hev. destruct (decide (id = Event_id e)) as [->|Hne].
    + rewrite lookup_insert_eq. intros [= <-]. done.
    + rewrite lookup_insert_ne by done. apply (h_key m Hm).
  - intros id. rewrite Hev, Hc. destruct (decide (id = Event_id e)) as [->|Hne].
    + rewrite lookup_insert_eq, decide_True by done. cbn. unfold seq_of. split; [lia|by eauto].
    + rewrite lookup_insert_ne by done. rewrite (h_seen m Hm). case_decide as Ho; [|done].
      cbn. rewrite Ho. split; [lia|]. intros Hle.
      destruct (decide (nz_get (EventId_seq id) = seq_of e)) as [Heq|]; [|lia].
      exfalso. apply Hne. destruct id as [o n]. unfold Event_origin, seq_of in *. cbn in Ho, Heq.
      apply nz_inj in Heq. subst. by destruct (Event_id e).
  - intros e' [->|He']%Hst; rewrite Hc.
    + rewrite decide_True by done. cbn. done.
    + pose proof (history_stored_seen _ _ Hm He') as Hle. destruct (h_clock m Hm _ He') as [Hcl Heq].
      case_decide as Ho; [|done]. cbn. rewrite Ho in *. split; lia.
  - intros e1 e2 [->|H1]%Hst [->|H2]%Hst Ho Hlt; [lia|..].
    + pose proof (history_stored_seen _ _ Hm H2). rewrite <- Ho in *. lia.
    + destruct (h_clock m Hm _ H1) as [Hcl _]. rewrite Ho in *. lia.
    + by apply (h_inc m Hm).
  - intros o. rewrite Hc, Hck. pose proof (h_max m Hm o). case_decide; cbn; lia.
  - right. rewrite Hck. destruct (N.le_gt_cases (clock m) (Event_clock e)) as [Hle|Hgt].
    + exists e. split; [apply Hst; by left|]. lia.
    + destruct (h_reached m Hm) as [H0|(e' & He' & Hcl)]; [lia|].
      exists e'. split; [apply Hst; by right|]. lia.
  - intros o c. rewrite Hcs. destruct (decide (o = Event_origin e)) as [->|Hne].
    + rewrite lookup_insert_eq. intros [= <-]. exact Hb.
    + rewrite lookup_insert_ne by done. apply (h_cursor m Hm).
  - intros e' r [->|He']%Hst Hr.
    + pose proof (change_request_known _ _ _ _ Hch Hr) as Hp. unfold Model_parent in Hp.
      destruct (events m !! r) as [sp|] eqn:Hsp; [|done].
      destruct (h_key m Hm _ _ Hsp) as [Hid _]. exists (Sealed_event sp).
      split; [|done]. apply Hst. right. exists sp. by rewrite Hid.
    + destruct (h_closed m Hm _ _ He' Hr) as (p & Hp & Hid). exists p. split; [|done].
      apply Hst. by right.
Qed.

Lemma history_step m m' : step m m' -> history m -> history m'.
Proof.
  intros [m0 s a Hs Ha|m0 peer n] Hm; [by apply history_commit|]. by destruct Hm; split.
Qed.

Lemma history_new o : history (Model_new o).
Proof.
  split; cbn; try done.
  - intros id. unfold Model_cursor. cbn. rewrite !lookup_empty. cbn.
    pose proof (nz_bounds (EventId_seq id)). split; [by intros [? ?]|intros; lia].
  - intros e (s & Hs & _). done.
  - intros e1 e2 (s & Hs & _). done.
  - by left.
  - intros e r (s & Hs & _). done.
Qed.

Lemma reachable_history o m : reachable o m -> history m.
Proof.
  intros Hr%reachable_steps. pose proof (history_new o) as Hn.
  induction Hr as [|m1 m2 m3 H12 H23 IH]; [done|]. eauto using history_step.
Qed.
End steps.
