(* ===== verification/Samples.v ===== *)
(** Two machines, two agents and an ask between them: concrete events, an encoding to run them with, and the
    theorems of Ledger.v on a run in which machine A asks, the machines synchronize, and A withdraws while B answers. *)

From Stdlib Require Import NArith Lia String Ascii.
From stdpp Require Import base gmap list strings.
From S2P Require Import Prelude SortedLists RustStr Ids AgentLists Notification Handoff Event Ledger.
From S2P Require Import ChatWire Exchange Model History.

(** An encoding and a hash to run the examples with. *)
Definition sample_codec : Codec := {|
  to_string e := Some (EventId_fmt (Event_id e));
  blake3_hash l := l
|}.

Definition machine_a : Origin := sample_origin 10.
Definition machine_b : Origin := sample_origin 11.

Definition alice : AgentName := @mkValidated _ AgentName_check "alice" I.
Definition bob : AgentName := @mkValidated _ AgentName_check "bob" I.
Definition alice_a : AgentId := AgentId_new alice machine_a.
Definition bob_b : AgentId := AgentId_new bob machine_b.

Definition alice_bob : DirectPair := mkDirectPair alice_a bob_b I.
Definition both : Audience := mkAudience [machine_a; machine_b] I.
Definition hello : Text := @mkValidated _ Text_check "hello" I.

Definition nz (n : N) (H : Is_true ((0 <? n) && (n <=? u64_max))) : NonZeroU64 := mkNonZeroU64 n H.
Definition ask_id : EventId := EventId_new machine_a (nz 1 I).

Definition ask_body : Body :=
  Body_Message (Conversation_Direct alice_bob) alice hello both (Intent_Ask bob_b Chain_default)
    (Stamp_from_unix_millis 0) None.
Definition answer_body : Body :=
  Body_Message (Conversation_Direct alice_bob) bob hello both (Intent_Reply ask_id)
    (Stamp_from_unix_millis 1) None.
Definition withdrawal_body : Body :=
  Body_Resolved ask_id (Conversation_Direct alice_bob) both alice Outcome_Withdrawn.
Definition receipt_body : Body :=
  Body_Receipt ask_id (Conversation_Direct alice_bob) both bob Delivery_Read.

Section scenario.
#[local] Existing Instance sample_codec.

(** Machine A asks, the machines synchronize, then A withdraws while B answers. *)
Definition a0 : Model := (Model_write (Model_new machine_a) ask_body).1.
Definition ab1 : Model * Model := (sync_with a0 (Model_new machine_b) 4).1.
Definition a1 : Model := ab1.1.
Definition b1 : Model := ab1.2.
Definition a2 : Model := (Model_write a1 withdrawal_body).1.
Definition b2 : Model := (Model_write (Model_write b1 receipt_body).1 answer_body).1.
Definition ab3 : Model * Model := (sync_with a2 b2 4).1.
Definition a3 : Model := ab3.1.
Definition b3 : Model := ab3.2.

Example scenario_runs :
  size (events a3) = 4%nat /\
  bool_decide (events a3 = events b3) = true /\
  option_map Resolution_ending (resolutions a3 !! ask_id) = Some (Ending_Ended Outcome_Withdrawn) /\
  deliveries a3 !! (ask_id, bob_b) = Some Delivery_Read /\
  bool_decide ((bob_b, ask_id) ∈ open_asks b1) = true /\
  bool_decide ((bob_b, ask_id) ∈ open_asks b3) = false.
Proof. vm_compute. done. Qed.
End scenario.

#[local] Existing Instance sample_codec.

(** The batch machine A offers machine B first. *)
Definition first_events : list Event :=
  match Model_offer a0 machine_b with Ok offer => Batch_events (Offer_batch offer) | Err _ => [] end.
Definition b_after : Model := (receive (E := Empty_set) (Model_new machine_b) machine_a first_events).1.

Lemma first_received :
  receive (E := Empty_set) (Model_new machine_b) machine_a first_events
  = (b_after, Ok (mkReceived 1 1 None)).
Proof.
  rewrite (surjective_pairing (receive (Model_new machine_b) machine_a first_events)).
  unfold b_after. apply (f_equal (pair _)). vm_compute. reflexivity.
Qed.

Lemma append_advances_witness :
  exists e, (append (E := Empty_set) (Model_new machine_a) ask_body).2 = Ok e /\ 0 < Event_clock e.
Proof.
  pose proof (append_advances (E := Empty_set) (Model_new machine_a)
    (append (E := Empty_set) (Model_new machine_a) ask_body).1 ask_body
    (append (E := Empty_set) (Model_new machine_a) ask_body).2 (surjective_pairing _)) as H.
  destruct ((append (E := Empty_set) (Model_new machine_a) ask_body).2) as [e|f] eqn:E.
  - exists e. split; [done|]. destruct H as (_ & _ & _ & (c & k & _ & _ & _ & _ & Hk) & _). lia.
  - exfalso. apply (f_equal is_ok) in E. vm_compute in E. discriminate.
Defined.

Lemma receive_accounts_witness :
  length first_events = 1%nat /\
  forall e, e ∈ first_events -> Event_origin e = machine_a /\ seq_of e <= 1.
Proof.
  split; [vm_compute; reflexivity|].
  assert (Hc : Ledger_cursor (E := Empty_set) (Model_new machine_b) machine_a = Ok Cursor_default)
    by (vm_compute; reflexivity).
  pose proof (receive_accounts (E := Empty_set) _ _ _ _ _ _ Hc first_received)
    as (_ & _ & _ & _ & _ & H).
  exact (H eq_refl).
Defined.

Lemma receive_idempotent_witness :
  receive (E := Empty_set) b_after machine_a first_events = (b_after, Ok (mkReceived 1 0 None)).
Proof. exact (receive_idempotent (E := Empty_set) _ _ _ _ _ first_received eq_refl). Defined.

(** The answer machine B writes, and the ask it answers. *)
Definition answer_event : Event := mkEvent (EventId_new machine_b (nz 1 I)) 2 answer_body I.
Definition ask_event : Event := mkEvent ask_id 1 ask_body I.

Lemma resolution_authorized_witness :
  exists res, change (E := Empty_set) b1 answer_event = Ok (Change_Resolution ask_id res true) /\
    authorized_resolution answer_event ask_id ask_event res.
Proof.
  assert (Hp : Ledger_parent (E := Empty_set) b1 ask_id = Ok (Parent_Present ask_event)).
  { assert (E : bool_decide ((Sealed_event <$> events b1 !! ask_id) = Some ask_event) = true)
      by (vm_compute; reflexivity).
    apply bool_decide_eq_true_1 in E. cbn. unfold Model_parent. by rewrite E. }
  assert (E : match change (E := Empty_set) b1 answer_event with
              | Ok (Change_Resolution r _ true) => bool_decide (r = ask_id)
              | _ => false
              end = true) by (vm_compute; reflexivity).
  destruct (change (E := Empty_set) b1 answer_event) as [[| | | | | |r res []| | |]|] eqn:Ech;
    try discriminate E.
  apply bool_decide_eq_true_1 in E. subst r. exists res. split; [done|].
  exact (proj1 (resolution_authorized (E := Empty_set) b1 answer_event ask_event ask_id res true Ech Hp)).
Defined.
