(* ===== verification/Convergence.v ===== *)
(** Convergence of the in-memory ledger: everything a model derives from its events - which asks
    are open, how each ended, who started, what was delivered and read, and the directory - is a
    function of the set of events it holds, whatever the order they were written or received in.

    Each derived field has a view: a declarative reading of the stored events.  A commit extends
    the events and the field together, and a view determines its field. *)

From Stdlib Require Import NArith Lia String Ascii Sorted Relations.
From stdpp Require Import base gmap list strings relations.
From S2P Require Import Prelude SortedLists RustStr Ids AgentLists Notification Handoff Event.
From S2P Require Import Ledger ChatWire Exchange Model Samples History.

(** ** Views *)

(** The ending a body gives to the request it resolves. *)
Definition ending_of (body : Body) : option Ending :=
  match body with
  | Body_Message _ _ _ _ (Intent_Reply _) _ _ => Some Ending_Answered
  | Body_Resolved _ _ _ _ outcome => Some (Ending_Ended outcome)
  | _ => None
  end.

(** [res] is what event [e] resolves of the ask [parent], with identifier [r]. *)
Definition resolves (r : EventId) (e parent : Event) (res : Resolution) : Prop :=
  Body_request (Event_body e) = Some r /\ ending_of (Event_body e) = Some (Resolution_ending res) /\
  authorized_resolution e r parent res.

Definition starts (r : EventId) (e parent : Event) (agent : AgentId) : Prop :=
  (exists c a n, Event_body e = Body_TurnStarted r c a n) /\
  Event_id parent = r /\ in_thread e parent /\ Event_author e = Some agent /\
  option_map snd (ask_of parent) = Some agent.

(** The agents a message expects receipts from. *)
Definition addressed (parent : Event) (agent : AgentId) : Prop :=
  match Event_body parent with
  | Body_Message _ _ _ _ _ _ (Some notice) => agent ∈ AgentList_agents (Notice_recipients notice)
  | Body_Message _ _ _ _ _ _ None => Event_author parent <> Some agent
  | _ => False
  end.

Definition receives (r : EventId) (e parent : Event) (agent : AgentId) (d : Delivery) : Prop :=
  (exists c a n, Event_body e = Body_Receipt r c a n d) /\
  Event_id parent = r /\ in_thread e parent /\ Event_author e = Some agent /\
  addressed parent agent.

Definition reads (r : EventId) (e : Event) (agent : AgentId) : Prop :=
  exists a, Event_body e = Body_HandoffRead (mkObservation r agent) a.

(** What an event writes at a key of the directory: a value, a removal, or nothing. *)
Definition writes_profile (k : AgentId) (e : Event) : option (option Card) :=
  match Event_body e with
  | Body_Profile n card => if decide (AgentId_new n (Event_origin e) = k) then Some (Some card) else None
  | Body_Left n => if decide (AgentId_new n (Event_origin e) = k) then Some None else None
  | _ => None
  end.
Definition writes_machine (k : Origin) (e : Event) : option (option MachineCard) :=
  match Event_body e with
  | Body_Machine card => if decide (Event_origin e = k) then Some (Some card) else None
  | _ => None
  end.
Definition writes_room (k : RoomId) (e : Event) : option (option Room) :=
  match Event_body e with
  | Body_Room n t ms =>
      if decide (RoomId_new (Event_origin e) n = k) then Some (Some (mkRoom t ms)) else None
  | Body_RoomClosed n => if decide (RoomId_new (Event_origin e) n = k) then Some None else None
  | _ => None
  end.
Definition writes_activity (k : AgentId) (e : Event) : option (option Activity) :=
  match Event_body e with
  | Body_Activity n act => if decide (AgentId_new n (Event_origin e) = k) then Some (Some act) else None
  | _ => None
  end.

(** The last write of the origin a key belongs to. *)
Definition latest {V} (E : gmap EventId Sealed) (w : Event -> option (option V)) (v : option V) : Prop :=
  (exists e, stored E e /\ w e = Some v /\
     forall e', stored E e' -> w e' <> None -> seq_of e' <= seq_of e) \/
  (v = None /\ forall e, stored E e -> w e = None).

(** A value that is the best of its candidates, or absent without candidates. *)
Definition best {V} (better : V -> V -> Prop) (candidate : V -> Prop) (o : option V) : Prop :=
  match o with
  | Some v => candidate v /\ forall v', candidate v' -> v' = v \/ better v v'
  | None => forall v, ~ candidate v
  end.

(** Endings in order: by clock, then by machine, then by sequence number. *)
Definition ends_before (a b : Resolution) : Prop :=
  Resolution_clock a < Resolution_clock b \/
  Resolution_clock a = Resolution_clock b /\
    (cmp_lt (EventId_origin (Resolution_event a)) (EventId_origin (Resolution_event b)) \/
     EventId_origin (Resolution_event a) = EventId_origin (Resolution_event b) /\
       nz_get (EventId_seq (Resolution_event a)) < nz_get (EventId_seq (Resolution_event b))).

Definition resolution_candidate E r res :=
  exists e parent, stored E e /\ stored E parent /\ resolves r e parent res.
Definition start_candidate E r agent :=
  exists e parent, stored E e /\ stored E parent /\ starts r e parent agent.
Definition receipt_candidate E (k : EventId * AgentId) d :=
  exists e parent, stored E e /\ stored E parent /\ receives k.1 e parent k.2 d.

(** Everything the model derives, as read off its events. *)
Record derived (m : Model) : Prop := {
  d_resolutions : forall r,
    best (fun a b => Resolution_precedes a b = true) (resolution_candidate (events m) r)
      (resolutions m !! r);
  d_open : forall responder id, (responder, id) ∈ open_asks m <->
    (exists ask, stored (events m) ask /\ Event_id ask = id /\
       option_map snd (ask_of ask) = Some responder) /\ resolutions m !! id = None;
  d_started : forall r, best (fun _ _ => False) (start_candidate (events m) r) (started_by m !! r);
  d_deliveries : forall k,
    best (fun a b => Delivery_rank b < Delivery_rank a) (receipt_candidate (events m) k)
      (deliveries m !! k);
  d_reads : forall r agent, (r, agent) ∈ handoff_reads m <->
    exists e, stored (events m) e /\ reads r e agent;
  d_profiles : forall k, latest (events m) (writes_profile k) (profiles m !! k);
  d_machines : forall k, latest (events m) (writes_machine k) (machines m !! k);
  d_rooms : forall k, latest (events m) (writes_room k) (rooms m !! k);
  d_activities : forall k, latest (events m) (writes_activity k) (activities m !! k)
}.

(** ** Views determine their fields *)

Lemma best_unique {V} (better : V -> V -> Prop) P o1 o2 :
  (forall a b, better a b -> better b a -> False) ->
  best better P o1 -> best better P o2 -> o1 = o2.
Proof.
  intros Hasym. destruct o1 as [v1|], o2 as [v2|]; cbn.
  - intros [H1 H1'] [H2 H2']. destruct (H1' _ H2) as [->|Hb1]; [done|].
    destruct (H2' _ H1) as [->|Hb2]; [done|]. destruct (Hasym _ _ Hb1 Hb2).
  - intros [H1 _] H2. destruct (H2 _ H1).
  - intros H1 [H2 _]. destruct (H1 _ H2).
  - done.
Qed.

(** All writers of a key share an origin. *)
Definition one_origin {V} (w : Event -> option (option V)) : Prop :=
  exists o, forall e, w e <> None -> Event_origin e = o.

Lemma latest_unique {V} E (w : Event -> option (option V)) v1 v2 :
  one_origin w -> latest E w v1 -> latest E w v2 -> v1 = v2.
Proof.
  intros [o Ho] [(e1 & He1 & Hw1 & Hm1)|[-> Hn1]] [(e2 & He2 & Hw2 & Hm2)|[-> Hn2]].
  - assert (Hid : Event_id e1 = Event_id e2).
    { apply id_of_seq.
      - rewrite (Ho e1), (Ho e2); congruence.
      - apply N.le_antisymm; [apply Hm2|apply Hm1]; congruence. }
    rewrite (stored_id_inj _ _ _ He1 He2 Hid) in Hw1. congruence.
  - rewrite (Hn2 _ He1) in Hw1. done.
  - rewrite (Hn1 _ He2) in Hw2. done.
  - done.
Qed.

Lemma writes_profile_origin k : one_origin (writes_profile k).
Proof. exists (AgentId_origin k). intros e. unfold writes_profile. repeat case_match; naive_solver. Qed.
Lemma writes_machine_origin k : one_origin (writes_machine k).
Proof. exists k. intros e. unfold writes_machine. repeat case_match; naive_solver. Qed.
Lemma writes_room_origin k : one_origin (writes_room k).
Proof. exists (RoomId_origin k). intros e. unfold writes_room. repeat case_match; naive_solver. Qed.
Lemma writes_activity_origin k : one_origin (writes_activity k).
Proof. exists (AgentId_origin k). intros e. unfold writes_activity. repeat case_match; naive_solver. Qed.

Lemma precedes_asym a b :
  Resolution_precedes a b = true -> Resolution_precedes b a = true -> False.
Proof. unfold Resolution_precedes. rewrite !cmp_ltb_lt. apply cmp_lt_asym. Qed.

Lemma precedes_iff a b : Resolution_precedes a b = true <-> ends_before a b.
Proof.
  unfold Resolution_precedes, Resolution_key, ends_before.
  rewrite cmp_ltb_lt, !pair_cmp_lt. by unfold cmp_lt at 1 3, cmp, N_Ord, NonZeroU64_Ord.
Qed.

(** Two models that derive from the same events derive the same. *)
Lemma derived_unique m1 m2 :
  derived m1 -> derived m2 -> events m1 = events m2 ->
  resolutions m1 = resolutions m2 /\ open_asks m1 = open_asks m2 /\
  started_by m1 = started_by m2 /\ deliveries m1 = deliveries m2 /\
  handoff_reads m1 = handoff_reads m2 /\ profiles m1 = profiles m2 /\
  machines m1 = machines m2 /\ rooms m1 = rooms m2 /\ activities m1 = activities m2.
Proof.
  intros D1 D2 E.
  assert (Hres : resolutions m1 = resolutions m2).
  { apply map_eq. intros r. pose proof (d_resolutions _ D1 r) as H1. rewrite E in H1.
    exact (best_unique _ _ _ _ precedes_asym H1 (d_resolutions _ D2 r)). }
  split; [done|]. split.
  { apply set_eq. intros [responder id]. rewrite (d_open _ D1), (d_open _ D2), E, Hres. done. }
  split.
  { apply map_eq. intros r. pose proof (d_started _ D1 r) as H1. rewrite E in H1.
    refine (best_unique _ _ _ _ _ H1 (d_started _ D2 r)). done. }
  split.
  { apply map_eq. intros k. pose proof (d_deliveries _ D1 k) as H1. rewrite E in H1.
    refine (best_unique _ _ _ _ _ H1 (d_deliveries _ D2 k)). cbn. lia. }
  split.
  { apply set_eq. intros [r a]. rewrite (d_reads _ D1), (d_reads _ D2), E. done. }
  split; [|split; [|split]]; apply map_eq; intros k.
  - eapply latest_unique; [apply writes_profile_origin| |apply (d_profiles _ D2)].
    rewrite <- E. apply (d_profiles _ D1).
  - eapply latest_unique; [apply writes_machine_origin| |apply (d_machines _ D2)].
    rewrite <- E. apply (d_machines _ D1).
  - eapply latest_unique; [apply writes_room_origin| |apply (d_rooms _ D2)].
    rewrite <- E. apply (d_rooms _ D1).
  - eapply latest_unique; [apply writes_activity_origin| |apply (d_activities _ D2)].
    rewrite <- E. apply (d_activities _ D1).
Qed.

(** ** Extending a view *)

Lemma best_same {V} (better : V -> V -> Prop) P P' o :
  (forall v, P' v <-> P v) -> best better P o -> best better P' o.
Proof. intros HP. destruct o as [v|]; cbn; [setoid_rewrite HP|setoid_rewrite HP]; done. Qed.

(** One more candidate [v]; the field becomes [w]. *)
Lemma best_insert {V} (better : V -> V -> Prop) P P' o v w :
  (forall v', P' v' <-> P v' \/ v' = v) -> best better P o ->
  (forall a b c, better a b -> better b c -> better a c) ->
  match o with
  | None => w = v
  | Some k => (w = v /\ (v = k \/ better v k)) \/ (w = k /\ (v = k \/ better k v))
  end ->
  best better P' (Some w).
Proof.
  intros HP Ho Htrans Hw. cbn. setoid_rewrite HP. destruct o as [k|]; cbn in Ho.
  - destruct Ho as [Hk Hbest]. destruct Hw as [[-> Hv]|[-> Hv]].
    + split; [by right|]. intros v' [Hv'| ->]; [|by left]. destruct (Hbest _ Hv') as [->|Hb].
      * destruct Hv as [->|Hv]; [by left|by right].
      * right. destruct Hv as [->|Hv]; [done|by eapply Htrans].
    + split; [by left|]. intros v' [Hv'| ->]; [by apply Hbest|]. destruct Hv as [->|Hv]; auto.
  - subst w. split; [by right|]. intros v' [Hv'| ->]; [by destruct (Ho _ Hv')|by left].
Qed.

(** The changes each body can make. *)
Definition kind_of (e : Event) (ch : Change) : Prop :=
  match Event_body e with
  | Body_Profile n card => ch = Change_Profile (AgentId_new n (Event_origin e)) (Some card)
  | Body_Left n => ch = Change_Profile (AgentId_new n (Event_origin e)) None
  | Body_Machine card => ch = Change_Machine card
  | Body_Room n t ms => ch = Change_Room (RoomId_new (Event_origin e) n) (Some (mkRoom t ms))
  | Body_RoomClosed n => ch = Change_Room (RoomId_new (Event_origin e) n) None
  | Body_Message _ _ _ _ (Intent_Ask responder _) _ _ => ch = Change_Ask responder
  | Body_Message _ _ _ _ (Intent_Reply _) _ _ | Body_Resolved _ _ _ _ _ =>
      ch = Change_Nothing \/ exists r res w, ch = Change_Resolution r res w
  | Body_HandoffRead o _ => ch = Change_HandoffRead (Observation_handoff o) (Observation_reader o)
  | Body_Receipt _ _ _ _ _ => ch = Change_Nothing \/ exists r ag d, ch = Change_Receipt r ag d
  | Body_Activity n act => ch = Change_Activity (AgentId_new n (Event_origin e)) act
  | Body_TurnStarted _ _ _ _ => ch = Change_Nothing \/ exists r ag, ch = Change_Started r ag
  | Body_Message _ _ _ _ Intent_Send _ _ | Body_Handoff _ _ _ | Body_Omitted => ch = Change_Nothing
  end.

Lemma kind_reads e ch r ag : kind_of e ch -> ch = Change_HandoffRead r ag <-> reads r e ag.
Proof.
  unfold kind_of, reads. intros Hk.
  destruct (Event_body e) as [| | | | |c from t au [| |req]| |[h rd] au| | | | |];
    cbn in Hk; split; naive_solver.
Qed.

Lemma kind_ask e ch r : kind_of e ch -> ch = Change_Ask r <-> option_map snd (ask_of e) = Some r.
Proof.
  unfold kind_of, ask_of. intros Hk.
  destruct (Event_body e) as [| | | | |c from t au [| |req]| | | | | | |]; cbn; split; naive_solver.
Qed.

Lemma kind_profile e ch k v :
  kind_of e ch -> ch = Change_Profile k v <-> writes_profile k e = Some v.
Proof.
  unfold kind_of, writes_profile. intros Hk.
  destruct (Event_body e) as [| | | | |c from t au [| |req]| | | | | | |];
    try case_decide; split; naive_solver.
Qed.

Lemma kind_machine e ch k v :
  kind_of e ch -> (exists card, ch = Change_Machine card /\ k = Event_origin e /\ v = Some card) <->
    writes_machine k e = Some v.
Proof.
  unfold kind_of, writes_machine. intros Hk.
  destruct (Event_body e) as [| | | | |c from t au [| |req]| | | | | | |];
    try case_decide; split; naive_solver.
Qed.

Lemma kind_room e ch k v : kind_of e ch -> ch = Change_Room k v <-> writes_room k e = Some v.
Proof.
  unfold kind_of, writes_room. intros Hk.
  destruct (Event_body e) as [| | | | |c from t au [| |req]| | | | | | |];
    try case_decide; split; naive_solver.
Qed.

Lemma kind_activity e ch k v :
  kind_of e ch -> (exists act, ch = Change_Activity k act /\ v = Some act) <->
    writes_activity k e = Some v.
Proof.
  unfold kind_of, writes_activity. intros Hk.
  destruct (Event_body e) as [| | | | |c from t au [| |req]| | | | | | |];
    try case_decide; split; naive_solver.
Qed.

Section commit.
Context `{codec : Codec}.
Context (m : Model) (s : Sealed) (a : Admitted_).
Context (Hm : history m) (Hd : derived m).
Context (Hsealed : Sealed_new (Sealed_event s) = Ok s).
Context (Ha : admit_sealed (E := Empty_set) m s = Ok (Decision_Append a)).

Let e0 := Sealed_event s.
Let E' := <[Event_id e0 := s]> (events m).
Let ch := Admitted_change a.

Lemma fresh : events m !! Event_id e0 = None.
Proof. by destruct (append_fresh _ _ _ Hm Ha). Qed.
Lemma change_e0 : change (E := Empty_set) m e0 = Ok ch.
Proof. by destruct (append_fresh _ _ _ Hm Ha) as (_ & _ & _ & ? & _). Qed.

Lemma stored_new e : stored E' e <-> e = e0 \/ stored (events m) e.
Proof. apply stored_insert, fresh. Qed.

Lemma stored_fresh e : stored (events m) e -> Event_id e <> Event_id e0.
Proof. intros (s' & Hs' & _) Heq. rewrite Heq, fresh in Hs'. done. Qed.

Lemma older e : stored (events m) e -> Event_origin e = Event_origin e0 -> seq_of e < seq_of e0.
Proof.
  intros He Ho. pose proof (history_stored_seen _ _ Hm He) as Hle. rewrite Ho in Hle.
  destruct (append_fresh _ _ _ Hm Ha) as (_ & Hseq & _). fold e0 in Hseq. lia.
Qed.

(** Pairs of an event and its parent: a new pair has the new event and a stored parent. *)
Lemma pairs_new (P : Event -> Event -> Prop) :
  (forall e p, P e p -> Body_request (Event_body e) = Some (Event_id p)) ->
  (forall e p, P e p -> Event_clock p < Event_clock e) ->
  (exists e p, stored E' e /\ stored E' p /\ P e p) <->
  (exists e p, stored (events m) e /\ stored (events m) p /\ P e p) \/
  (exists p, stored (events m) p /\ P e0 p).
Proof.
  intros Hreq Hlt. setoid_rewrite stored_new. split.
  - intros (e & p & [->|He] & [->|Hp] & HP).
    + apply Hlt in HP. lia.
    + eauto.
    + apply Hreq in HP. destruct (h_closed m Hm _ _ He HP) as (p & Hp & Hid).
      by destruct (stored_fresh _ Hp).
    + left. eauto 6.
  - intros [(e & p & He & Hp & HP)|(p & Hp & HP)].
    + exists e, p. auto.
    + exists e0, p. auto.
Qed.

Lemma latest_new {V} (w : Event -> option (option V)) v :
  one_origin w -> latest (events m) w v ->
  latest E' w (match w e0 with Some v' => v' | None => v end).
Proof.
  intros [o Ho] Hl. unfold latest. setoid_rewrite stored_new.
  destruct (w e0) as [v'|] eqn:Hw.
  - left. exists e0. split; [by left|]. split; [done|]. intros e' [->|He'] Hne; [done|].
    assert (Event_origin e' = Event_origin e0) by (rewrite (Ho e'), (Ho e0); congruence).
    pose proof (older _ He' H). lia.
  - destruct Hl as [(e & He & Hwe & Hmax)|[-> Hnone]].
    + left. exists e. split; [by right|]. split; [done|]. intros e' [->|He'] Hne; [done|by apply Hmax].
    + right. split; [done|]. intros e [->|He]; [done|by apply Hnone].
Qed.

(** *** What a change says of its event *)

Lemma stored_present p :
  stored (events m) p -> Event_body p <> Body_Omitted -> Model_parent m (Event_id p) = Parent_Present p.
Proof. intros Hp Hb. by apply Model_parent_present. Qed.

Lemma checked_present e p :
  stored (events m) p -> Event_body p <> Body_Omitted ->
  checked_parent (E := Empty_set) m e (Event_id p) = Ok (Parent_Present p).
Proof.
  intros Hp Hb. apply checked_parent_ok. cbn. rewrite stored_present by done. naive_solver.
Qed.

Lemma ask_not_omitted p x : ask_of p = Some x -> Event_body p <> Body_Omitted.
Proof. unfold ask_of. intros H Hb. by rewrite Hb in H. Qed.

(** A resolution the model knows is of an ask it holds. *)
Lemma known_present r known :
  resolutions m !! r = Some known -> exists p, Model_parent m r = Parent_Present p.
Proof.
  intros Hr. pose proof (d_resolutions m Hd r) as Hb. rewrite Hr in Hb.
  destruct Hb as [(e & p & He & Hp & _ & _ & Hid & _ & Hask & _) _].
  exists p. rewrite <- Hid. apply stored_present; [done|]. by eapply ask_not_omitted.
Qed.

Definition wins_over (r : EventId) (res : Resolution) : bool :=
  match resolutions m !! r with None => true | Some known => Resolution_precedes res known end.

Lemma resolve_present_iff e r cand p :
  stored (events m) p -> Event_id p = r -> Event_author e = Some (Candidate_author cand) ->
  (exists c a, Body_conversation (Event_body e) = Some c /\ Body_audience (Event_body e) = Some a) ->
  forall res, authorized_resolution e r p res -> Resolution_ending res = Candidate_ending cand ->
  resolve (E := Empty_set) m e r cand = Ok (Change_Resolution r res (wins_over r res)).
Proof.
  intros Hp <- Hauthor (c & a' & Hc & Ha') res (_ & (Hc' & Ha'' & Hlt) & Hask & Hev & Hcl & Hau) Hend.
  unfold resolve. rewrite Hc, Ha'. cbn [Ledger_resolution Model_Ledger map_err].
  rewrite checked_present by (eauto using ask_not_omitted).
  assert (Hst : same_thread e c a' p = true).
  { apply same_thread_iff. rewrite Hc', Ha'', Hc, Ha'. done. }
  rewrite Hst, Hask. cbn [negb].
  assert (Hok : Candidate_authorized cand (Resolution_asker res) (Resolution_responder res) = true).
  { unfold Candidate_authorized. rewrite Hauthor in Hau. injection Hau as ->. rewrite Hend.
    by destruct (Candidate_ending cand) as [|[]]; rewrite bool_decide_eq_true_2. }
  rewrite Hok. cbn [negb]. unfold wins_over. destruct res; cbn in *. by subst.
Qed.

Lemma resolve_inv e r cand r' res w :
  Event_author e = Some (Candidate_author cand) ->
  (exists c a, Body_conversation (Event_body e) = Some c /\ Body_audience (Event_body e) = Some a) ->
  resolve (E := Empty_set) m e r cand = Ok (Change_Resolution r' res w) ->
  r' = r /\ w = wins_over r res /\ Resolution_ending res = Candidate_ending cand /\
  exists p, stored (events m) p /\ authorized_resolution e r p res.
Proof.
  intros Hauthor Hthread Hres.
  assert (Hp : exists p, Model_parent m r = Parent_Present p).
  { revert Hres. destruct Hthread as (c & a' & Hc & Ha'). unfold resolve. rewrite Hc, Ha'.
    cbn [Ledger_resolution Model_Ledger map_err].
    destruct (checked_parent m e r) as [p|] eqn:Hp; [|done]. apply checked_parent_model in Hp.
    rewrite <- Hp. destruct p as [p| |]; [by eauto| |done].
    destruct (resolutions m !! r) as [known|] eqn:Hk; [|by destruct (Candidate_ending cand)].
    destruct (known_present _ _ Hk) as [p' Hp']. congruence. }
  destruct Hp as [p Hp].
  assert (Hlp : Ledger_parent (E := Empty_set) m r = Ok (Parent_Present p))
    by exact (f_equal (@Ok Parent Empty_set) Hp).
  destruct (resolve_present m e r cand p Hlp Hauthor Hthread _ _ _ Hres)
    as (cur & [= <-] & -> & Hau & Hend & ->).
  repeat split; try done. exists p. split; [|done]. by apply Model_parent_present in Hp as [? _].
Qed.

Lemma change_resolution_iff r res w :
  ch = Change_Resolution r res w <->
  (exists p, stored (events m) p /\ resolves r e0 p res) /\ w = wins_over r res.
Proof.
  pose proof change_e0 as Hch. unfold change in Hch. unfold resolves.
  assert (Hgoal : forall cand r0,
    Event_author e0 = Some (Candidate_author cand) ->
    (exists c a, Body_conversation (Event_body e0) = Some c /\ Body_audience (Event_body e0) = Some a) ->
    Body_request (Event_body e0) = Some r0 -> ending_of (Event_body e0) = Some (Candidate_ending cand) ->
    resolve (E := Empty_set) m e0 r0 cand = Ok ch ->
    (ch = Change_Resolution r res w <->
     (exists p, stored (events m) p /\ Body_request (Event_body e0) = Some r /\
        ending_of (Event_body e0) = Some (Resolution_ending res) /\
        authorized_resolution e0 r p res) /\ w = wins_over r res)).
  { intros cand r0 Hau Hth Hreq Hend Hres. split.
    - intros Hc. rewrite Hc in Hres.
      destruct (resolve_inv _ _ _ _ _ _ Hau Hth Hres) as (-> & -> & He & p & Hp & Hauth).
      split; [|done]. exists p. by rewrite Hend, He.
    - intros [(p & Hp & Hreq' & Hend' & Hauth) ->]. rewrite Hreq' in Hreq. injection Hreq as <-.
      rewrite Hend' in Hend. injection Hend as Hend.
      pose proof (resolve_present_iff e0 r cand p Hp (proj1 Hauth) Hau Hth res Hauth Hend) as Hr.
      congruence. }
  destruct (Event_body e0) as [| | | | |c from t au [| |req]| | | | | | |] eqn:Hb; cbn [ending_of] in *;
    try (injection Hch as <-; split; [done|naive_solver]).
  - refine (Hgoal _ _ _ _ _ _ Hch); try done.
    + unfold Event_author. by rewrite Hb.
    + cbn. eauto.
  - split; [|naive_solver]. intros Hc. rewrite Hc in Hch. exfalso. revert Hch. unfold handoff_read.
    repeat (case_match; try done).
  - split; [|naive_solver]. intros Hc. rewrite Hc in Hch. exfalso. revert Hch. unfold receipt.
    destruct (thread_parent _ _ _) as [[ctx|]|]; try done. unfold receipt_change. by case_match.
  - split; [|naive_solver]. intros Hc. rewrite Hc in Hch. exfalso. revert Hch. unfold started.
    destruct (thread_parent _ _ _) as [[ctx|]|]; try done.
    destruct (ask_of _) as [[]|]; [by case_match|done].
  - refine (Hgoal _ _ _ _ _ _ Hch); try done.
    + unfold Event_author. by rewrite Hb.
    + cbn. eauto.
Qed.

Lemma thread_parent_some e r ctx :
  thread_parent (E := Empty_set) m e r = Ok (Some ctx) <->
  Body_conversation (Event_body e) = Some (ThreadParent_conversation ctx) /\
  Body_audience (Event_body e) = Some (ThreadParent_audience ctx) /\
  Event_author e = Some (ThreadParent_agent ctx) /\
  stored (events m) (ThreadParent_parent ctx) /\ Event_id (ThreadParent_parent ctx) = r /\
  Event_body (ThreadParent_parent ctx) <> Body_Omitted.
Proof.
  unfold thread_parent. split.
  - destruct (Body_conversation _) as [c|]; [|done]. destruct (Body_audience _) as [au|]; [|done].
    destruct (Event_author e) as [n|]; [|done].
    destruct (checked_parent m e r) as [p|] eqn:Hp; [|done]. apply checked_parent_model in Hp.
    destruct p as [p| |]; try done. intros [= <-]. cbn. symmetry in Hp.
    apply Model_parent_present in Hp; [|done]. tauto.
  - intros (-> & -> & -> & Hp & <- & Hb). rewrite checked_present by done. by destruct ctx.
Qed.

Lemma in_thread_same_thread e c au p :
  Body_conversation (Event_body e) = Some c -> Body_audience (Event_body e) = Some au ->
  same_thread e c au p = true <-> in_thread e p.
Proof. intros Hc Hau. rewrite same_thread_iff. unfold in_thread. by rewrite Hc, Hau. Qed.

Lemma started_iff r ag :
  started (E := Empty_set) m e0 r = Ok (Change_Started r ag) <->
  (exists c au, Body_conversation (Event_body e0) = Some c /\ Body_audience (Event_body e0) = Some au) /\
  exists p, stored (events m) p /\ Event_id p = r /\ in_thread e0 p /\
    Event_author e0 = Some ag /\ option_map snd (ask_of p) = Some ag.
Proof.
  unfold started. split.
  - destruct (thread_parent m e0 r) as [[ctx|]|] eqn:Ht; [|done|done].
    apply thread_parent_some in Ht as (Hc & Hau & Hn & Hp & Hid & Hb).
    destruct (ask_of _) as [[asker responder]|] eqn:Hask; [|done].
    case_bool_decide as Hr; [|done]. cbn [andb].
    destruct (same_thread _ _ _ _) eqn:Hst; [|done]. intros [= <-].
    apply (in_thread_same_thread _ _ _ _ Hc Hau) in Hst. split; [by eauto|].
    exists (ThreadParent_parent ctx). do 4 (split; [done|]). by rewrite Hask, <- Hr.
  - intros [(c & au & Hc & Hau) (p & Hp & Hid & Hst & Hn & Hask)].
    destruct (ask_of p) as [[asker responder]|] eqn:Hap; [|done]. injection Hask as ->.
    assert (Ht : thread_parent (E := Empty_set) m e0 r = Ok (Some (mkThreadParent c au ag p))).
    { apply thread_parent_some. cbn. repeat split; try done. by eapply ask_not_omitted. }
    rewrite Ht. cbn [ThreadParent_parent ThreadParent_agent ThreadParent_conversation
                     ThreadParent_audience].
    rewrite Hap, bool_decide_eq_true_2 by done.
    by rewrite (proj2 (in_thread_same_thread _ _ _ _ Hc Hau)).
Qed.

Lemma addressed_iff p ag :
  match Event_body p with
  | Body_Message _ _ _ _ _ _ (Some notice) => AgentList_contains (Notice_recipients notice) ag
  | Body_Message _ _ _ _ _ _ None => negb (bool_decide (Event_author p = Some ag))
  | _ => false
  end = true <-> addressed p ag.
Proof.
  unfold addressed. destruct (Event_body p) as [| | | | |? ? ? ? ? ? [n|]| | | | | | |]; try done.
  - apply AgentList_contains_iff.
  - rewrite negb_true_iff, bool_decide_eq_false. done.
Qed.

Lemma receipt_iff r ag d :
  receipt (E := Empty_set) m e0 r d = Ok (Change_Receipt r ag d) <->
  (exists c au, Body_conversation (Event_body e0) = Some c /\ Body_audience (Event_body e0) = Some au) /\
  exists p, stored (events m) p /\ Event_id p = r /\ in_thread e0 p /\
    Event_author e0 = Some ag /\ addressed p ag.
Proof.
  unfold receipt. split.
  - destruct (thread_parent m e0 r) as [[ctx|]|] eqn:Ht; [|done|done].
    apply thread_parent_some in Ht as (Hc & Hau & Hn & Hp & Hid & Hb). unfold receipt_change.
    match goal with |- context [negb ?b || _] => destruct b eqn:Hadr end; [|done]. cbn [negb orb].
    destruct (same_thread _ _ _ _) eqn:Hst; [|done]. cbn. intros [= <-].
    apply (in_thread_same_thread _ _ _ _ Hc Hau) in Hst. apply addressed_iff in Hadr.
    split; [by eauto|]. exists (ThreadParent_parent ctx). by do 4 (split; [done|]).
  - intros [(c & au & Hc & Hau) (p & Hp & Hid & Hst & Hn & Hadr)].
    assert (Ht : thread_parent (E := Empty_set) m e0 r = Ok (Some (mkThreadParent c au ag p))).
    { apply thread_parent_some. cbn. repeat split; try done. intros Hb. unfold addressed in Hadr.
      by rewrite Hb in Hadr. }
    rewrite Ht. unfold receipt_change. cbn [ThreadParent_parent ThreadParent_agent
      ThreadParent_conversation ThreadParent_audience].
    rewrite (proj2 (addressed_iff _ _) Hadr), (proj2 (in_thread_same_thread _ _ _ _ Hc Hau)) by done.
    done.
Qed.

(** The changes each body can make. *)
Lemma change_started_iff r ag :
  ch = Change_Started r ag <-> exists p, stored (events m) p /\ starts r e0 p ag.
Proof.
  pose proof change_e0 as Hch. unfold starts. split.
  - intros Hc. rewrite Hc in Hch. revert Hch. unfold change.
    destruct (Event_body e0) as [| | | | |c from t au [| |req]| | | | |req c au n| |] eqn:Hb; try done.
    + unfold resolve, plain_reply. repeat (case_match; try done).
    + unfold handoff_read. repeat (case_match; try done).
    + unfold receipt. destruct (thread_parent _ _ _) as [[ctx|]|]; try done.
      unfold receipt_change. by case_match.
    + intros Hs. assert (req = r) as ->.
      { revert Hs. unfold started. repeat (case_match; try done). by intros [= -> _]. }
      apply started_iff in Hs as [_ (p & Hp & Hid & Hst & Hn & Hask)]. exists p. eauto 9.
    + unfold resolve, plain_reply. repeat (case_match; try done).
  - intros (p & Hp & (c & au & n & Hb) & Hid & Hst & Hn & Hask). unfold change in Hch.
    rewrite Hb in Hch. assert (Hs : started (E := Empty_set) m e0 r = Ok (Change_Started r ag)).
    { apply started_iff. split; [rewrite Hb; cbn; eauto|]. eauto 7. }
    congruence.
Qed.

Lemma change_receipt_iff r ag d :
  ch = Change_Receipt r ag d <-> exists p, stored (events m) p /\ receives r e0 p ag d.
Proof.
  pose proof change_e0 as Hch. unfold receives. split.
  - intros Hc. rewrite Hc in Hch. revert Hch. unfold change.
    destruct (Event_body e0) as [| | | | |c from t au [| |req]| | |req c au n d'| | | |] eqn:Hb; try done.
    + unfold resolve, plain_reply. repeat (case_match; try done).
    + unfold handoff_read. repeat (case_match; try done).
    + intros Hs. assert (req = r /\ d' = d) as [-> ->].
      { revert Hs. unfold receipt. destruct (thread_parent _ _ _) as [[ctx|]|]; try done.
        unfold receipt_change. destruct (negb _ || _); [done|]. by intros [= -> _ ->]. }
      apply receipt_iff in Hs as [_ (p & Hp & Hid & Hst & Hn & Hask)]. exists p. eauto 9.
    + unfold started. destruct (thread_parent _ _ _) as [[ctx|]|]; try done.
      destruct (ask_of _) as [[]|]; [by case_match|done].
    + unfold resolve, plain_reply. repeat (case_match; try done).
  - intros (p & Hp & (c & au & n & Hb) & Hid & Hst & Hn & Hadr). unfold change in Hch.
    rewrite Hb in Hch. assert (Hs : receipt (E := Empty_set) m e0 r d = Ok (Change_Receipt r ag d)).
    { apply receipt_iff. split; [rewrite Hb; cbn; eauto|]. eauto 7. }
    congruence.
Qed.

Lemma change_kind : kind_of e0 ch.
Proof.
  pose proof change_e0 as Hch. unfold change in Hch. unfold kind_of.
  assert (Hres : forall r cand, resolve (E := Empty_set) m e0 r cand = Ok ch ->
    ch = Change_Nothing \/ exists r res w, ch = Change_Resolution r res w).
  { intros r cand. unfold resolve, plain_reply. repeat (case_match; try done); intros [= <-]; eauto. }
  destruct (Event_body e0) as [| | | | |c from t au [| |req]| | |req c au n d| | | |];
    try congruence; try (by eapply Hres).
  - revert Hch. unfold handoff_read. repeat (case_match; try done). by intros [= <-].
  - revert Hch. unfold receipt. destruct (thread_parent _ _ _) as [[ctx|]|]; [| |done].
    + unfold receipt_change. destruct (negb _ || _); [done|]. intros [= <-]. eauto.
    + intros [= <-]. by left.
  - revert Hch. unfold started. destruct (thread_parent _ _ _) as [[ctx|]|]; [| |done].
    + destruct (ask_of _) as [[? ?]|]; [|done]. destruct (bool_decide _ && _); [|done].
      intros [= <-]. eauto.
    + intros [= <-]. by left.
Qed.

(** *** Every view is preserved *)

Let m' := Model_commit m s a.

Lemma events_m' : events m' = E'.
Proof. apply Model_commit_history. Qed.

Lemma candidate_new r res :
  resolution_candidate E' r res <->
  resolution_candidate (events m) r res \/ ch = Change_Resolution r res (wins_over r res).
Proof.
  unfold resolution_candidate. rewrite (pairs_new (fun e p => resolves r e p res)).
  - rewrite change_resolution_iff. tauto.
  - intros e p (Hr & _ & Hid & _). by rewrite Hid.
  - intros e p (_ & _ & _ & (_ & _ & ?) & _). done.
Qed.

Lemma start_new r ag :
  start_candidate E' r ag <-> start_candidate (events m) r ag \/ ch = Change_Started r ag.
Proof.
  unfold start_candidate. rewrite (pairs_new (fun e p => starts r e p ag)).
  - by rewrite change_started_iff.
  - intros e p ((c & au & n & ->) & Hid & _). by rewrite Hid.
  - intros e p (_ & _ & (_ & _ & ?) & _). done.
Qed.

Lemma receipt_new k d :
  receipt_candidate E' k d <-> receipt_candidate (events m) k d \/ ch = Change_Receipt k.1 k.2 d.
Proof.
  unfold receipt_candidate. rewrite (pairs_new (fun e p => receives k.1 e p k.2 d)).
  - by rewrite change_receipt_iff.
  - intros e p ((c & au & n & ->) & Hid & _). by rewrite Hid.
  - intros e p (_ & _ & (_ & _ & ?) & _). done.
Qed.

Lemma resolutions_m' :
  resolutions m' = match ch with
                   | Change_Resolution r res true => <[r := res]> (resolutions m)
                   | _ => resolutions m
                   end.
Proof.
  unfold m', Model_commit. fold ch. by destruct ch as [|? []| |? []| | |? ? []| | |].
Qed.

(** Without a new candidate for [r] the field at [r] does not move. *)
Lemma resolutions_other r :
  (forall res w, ch <> Change_Resolution r res w) -> resolutions m' !! r = resolutions m !! r.
Proof.
  intros Hne. rewrite resolutions_m'. destruct ch as [| | | | | |r0 res0 []| | |] eqn:Ech; try done.
  rewrite lookup_insert_ne; [done|]. intros ->. by destruct (Hne res0 true).
Qed.

Lemma candidate_key_fresh r known res :
  resolution_candidate (events m) r known ->
  Resolution_event res = Event_id e0 -> Resolution_key known <> Resolution_key res.
Proof.
  intros (e & p & He & _ & _ & _ & _ & _ & _ & Hev & _) Hres Hkey.
  apply (stored_fresh _ He). rewrite <- Hev, <- Hres. unfold Resolution_key in Hkey.
  injection Hkey as _ Ho Hs. by destruct (Resolution_event known), (Resolution_event res); cbn in *; subst.
Qed.

Lemma derived_resolutions r :
  best (fun x y => Resolution_precedes x y = true) (resolution_candidate (events m') r)
    (resolutions m' !! r).
Proof.
  rewrite events_m'. pose proof (d_resolutions m Hd r) as Hold.
  assert (Hcase : (exists res w, ch = Change_Resolution r res w) \/
                  (forall res w, ch <> Change_Resolution r res w)).
  { destruct ch as [| | | | | |r0 res0 w| | |]; try (right; done).
    destruct (decide (r0 = r)) as [->|]; [left; eauto|right; congruence]. }
  destruct Hcase as [(res & w & Hch)|Hne].
  - pose proof (proj1 (change_resolution_iff _ _ _) Hch) as [(p & Hp & Hr) ->].
    pose proof resolutions_m' as Hm'. rewrite Hch in Hm'.
    assert (Hnew : forall v, resolution_candidate E' r v <-> resolution_candidate (events m) r v \/ v = res).
    { intros v. rewrite candidate_new, Hch. split; [|naive_solver].
      intros [?|[= ?]]; [by left|by right]. }
    assert (Hw : resolutions m' !! r = Some (if wins_over r res then res else
                 default res (resolutions m !! r))).
    { rewrite Hm'. unfold wins_over. destruct (resolutions m !! r) as [known|] eqn:Hk.
      - destruct (Resolution_precedes res known); [by rewrite lookup_insert_eq|done].
      - by rewrite lookup_insert_eq. }
    rewrite Hw. eapply best_insert; [exact Hnew|exact Hold| |].
    + intros x y z. unfold Resolution_precedes. rewrite !cmp_ltb_lt. apply cmp_lt_trans.
    + unfold wins_over. destruct (resolutions m !! r) as [known|]; [|done].
      destruct Hold as [Hknown _]. cbn.
      destruct (Resolution_precedes res known) eqn:Hpre; [left; auto|right].
      split; [done|]. right. unfold Resolution_precedes in *. apply cmp_ltb_lt.
      destruct (cmp_total (Resolution_key known) (Resolution_key res)) as [?|[Heq|Hgt]]; [done|exfalso..].
      * destruct Hr as (_ & _ & _ & _ & _ & Hev & _).
        by apply (candidate_key_fresh r known res) in Heq; auto.
      * apply cmp_ltb_lt in Hgt. congruence.
  - rewrite resolutions_other by done. eapply best_same; [|exact Hold].
    intros v. rewrite candidate_new. split; [|by left]. intros [?|Hch]; [done|].
    by apply Hne in Hch.
Qed.

Lemma no_early_resolution : resolutions m !! Event_id e0 = None.
Proof.
  destruct (resolutions m !! Event_id e0) as [known|] eqn:Hk; [|done].
  pose proof (d_resolutions m Hd (Event_id e0)) as Hb. rewrite Hk in Hb.
  destruct Hb as [(e & p & _ & Hp & _ & _ & Hid & _) _]. by destruct (stored_fresh _ Hp).
Qed.

(** The asks a commit leaves open. *)
Lemma open_m' :
  open_asks m' = match ch with
                 | Change_Ask responder => {[(responder, Event_id e0)]} ∪ open_asks m
                 | Change_Resolution r res true => open_asks m ∖ {[(Resolution_responder res, r)]}
                 | _ => open_asks m
                 end.
Proof.
  unfold m', Model_commit. fold ch. by destruct ch as [|? []| |? []| | |? ? []| | |].
Qed.

Lemma ask_new responder id :
  (exists ask, stored E' ask /\ Event_id ask = id /\ option_map snd (ask_of ask) = Some responder) <->
  (exists ask, stored (events m) ask /\ Event_id ask = id /\
     option_map snd (ask_of ask) = Some responder) \/
  (id = Event_id e0 /\ ch = Change_Ask responder).
Proof.
  setoid_rewrite stored_new. rewrite (kind_ask _ _ _ change_kind). split.
  - intros (ask & [->|Hask] & Hid & Hr); [by right|left; eauto].
  - intros [(ask & Hask & Hid & Hr)|[-> Hr]]; eauto.
Qed.

(** A winning resolution names the responder of the ask it resolves. *)
Lemma resolution_responder r res ask responder :
  (exists p, stored (events m) p /\ resolves r e0 p res) ->
  stored (events m) ask -> Event_id ask = r -> option_map snd (ask_of ask) = Some responder ->
  Resolution_responder res = responder.
Proof.
  intros (p & Hp & _ & _ & Hid & _ & Hask & _) Ha' Hid' Hr.
  rewrite (stored_id_inj _ _ _ Ha' Hp) in Hr by congruence. rewrite Hask in Hr. by injection Hr.
Qed.

Lemma derived_open responder id :
  (responder, id) ∈ open_asks m' <->
  (exists ask, stored (events m') ask /\ Event_id ask = id /\
     option_map snd (ask_of ask) = Some responder) /\ resolutions m' !! id = None.
Proof.
  rewrite events_m', ask_new, open_m'. pose proof (d_open m Hd responder id) as Hold.
  pose proof no_early_resolution as Hearly.
  rewrite resolutions_m'. pose proof change_resolution_iff as Hcr.
  destruct ch as [| | | |r0| |r0 res0 []| | |] eqn:Ech;
    try (rewrite Hold; split; [tauto|intros [[?|[_ [=]]] ?]; tauto]).
  - rewrite elem_of_union, elem_of_singleton, Hold. split.
    + intros [[= -> ->]|[Hask Hr]]; [split; [by right|done]|]. split; [by left|done].
    + intros [[Hask|[-> [= ->]]] Hr]; [by right|by left].
  - rewrite elem_of_difference, elem_of_singleton, Hold.
    destruct (decide (r0 = id)) as [->|Hne].
    + rewrite lookup_insert_eq. split; [|by intros [_ ?]].
      intros [((ask & Hask & Hid & Hr) & _) Hneq]. exfalso. apply Hneq. f_equal.
      symmetry. eapply resolution_responder; try done.
      by apply (Hcr id res0 true).
    + rewrite lookup_insert_ne by done. split; [naive_solver|].
      intros [[?|[_ [=]]] ?]. split; [done|]. intros [= _ ->]. done.
Qed.

Lemma derived_started r :
  best (fun _ _ => False) (start_candidate (events m') r) (started_by m' !! r).
Proof.
  rewrite events_m'. pose proof (d_started m Hd r) as Hold.
  assert (Hm' : started_by m' = match ch with
                                | Change_Started r ag => <[r := ag]> (started_by m)
                                | _ => started_by m
                                end).
  { unfold m', Model_commit. fold ch. by destruct ch as [|? []| |? []| | |? ? []| | |]. }
  pose proof (fun ag => proj1 (change_started_iff r ag)) as Hcs.
  pose proof (start_new r) as Hnew. rewrite Hm'.
  destruct ch as [| | | | |r0 ag0| | | |];
    try (eapply best_same; [|exact Hold]; intros v; rewrite Hnew; naive_solver).
  destruct (decide (r0 = r)) as [->|Hne].
  - rewrite lookup_insert_eq. eapply (best_insert _ _ _ _ ag0); [|exact Hold|done|].
    + intros v. rewrite Hnew. naive_solver.
    + destruct (started_by m !! r) as [k|]; [|done]. left. split; [done|]. left.
      destruct Hold as [(e & p & _ & Hp & _ & Hid & _ & _ & Hask) _].
      destruct (Hcs ag0 eq_refl) as (p' & Hp' & _ & Hid' & _ & _ & Hask').
      rewrite (stored_id_inj _ _ _ Hp Hp') in Hask by congruence. congruence.
  - rewrite lookup_insert_ne by done. eapply best_same; [|exact Hold].
    intros v. rewrite Hnew. naive_solver.
Qed.

Lemma derived_deliveries k :
  best (fun x y => Delivery_rank y < Delivery_rank x) (receipt_candidate (events m') k)
    (deliveries m' !! k).
Proof.
  rewrite events_m'. pose proof (d_deliveries m Hd k) as Hold.
  assert (Hm' : deliveries m' =
    match ch with
    | Change_Receipt r ag d =>
        <[(r, ag) := Delivery_observe (default Delivery_default (deliveries m !! (r, ag))) d]>
          (deliveries m)
    | _ => deliveries m
    end).
  { unfold m', Model_commit. fold ch. by destruct ch as [|? []| |? []| | |? ? []| | |]. }
  pose proof (receipt_new k) as Hnew. rewrite Hm'. destruct k as [r ag].
  destruct ch as [| | | | | | |r0 ag0 d0| |];
    try (eapply best_same; [|exact Hold]; intros v; rewrite Hnew; naive_solver).
  destruct (decide ((r0, ag0) = (r, ag))) as [[= -> ->]|Hne].
  - rewrite lookup_insert_eq. eapply (best_insert _ _ _ _ d0); [|exact Hold|cbn; lia|].
    + intros v. rewrite Hnew. cbn. naive_solver.
    + destruct (deliveries m !! (r, ag)) as [d|]; cbn; [|by destruct d0].
      unfold Delivery_observe. destruct (N.leb_spec (Delivery_rank d0) (Delivery_rank d)) as [Hle|Hlt].
      * right. split; [done|]. destruct (decide (d0 = d)) as [->|Hd']; [by left|right].
        assert (Delivery_rank d0 <> Delivery_rank d) by (intros ?%Delivery_rank_inj; done). lia.
      * left. auto.
  - rewrite lookup_insert_ne by done. eapply best_same; [|exact Hold].
    intros v. rewrite Hnew. cbn. split; [|by left]. intros [?|[= -> -> _]]; done.
Qed.

Lemma derived_reads r ag :
  (r, ag) ∈ handoff_reads m' <-> exists e, stored (events m') e /\ reads r e ag.
Proof.
  rewrite events_m'. setoid_rewrite stored_new.
  assert (Hm' : handoff_reads m' = match ch with
                                   | Change_HandoffRead r ag => {[(r, ag)]} ∪ handoff_reads m
                                   | _ => handoff_reads m
                                   end).
  { unfold m', Model_commit. fold ch. by destruct ch as [|? []| |? []| | |? ? []| | |]. }
  pose proof (kind_reads _ _ r ag change_kind) as Hk. pose proof (d_reads m Hd r ag) as Hold.
  transitivity (ch = Change_HandoffRead r ag \/ (r, ag) ∈ handoff_reads m).
  - rewrite Hm'. destruct ch; set_solver.
  - rewrite Hk, Hold. naive_solver.
Qed.

(** The directory: a field of the commit at [k] is what the new event writes there, or as before. *)
Lemma profiles_m' k :
  profiles m' !! k = match writes_profile k e0 with Some v => v | None => profiles m !! k end.
Proof.
  pose proof (fun v => kind_profile _ _ k v change_kind) as Hw. unfold m', Model_commit. fold ch.
  destruct (writes_profile k e0) as [v|].
  - rewrite (proj2 (Hw v) eq_refl). destruct v; cbn; [apply lookup_insert_eq|apply lookup_delete_eq].
  - destruct ch as [|k0 []| |? []| | |? ? []| | |]; try done; cbn;
      [rewrite lookup_insert_ne|rewrite lookup_delete_ne]; try done; intros ->;
      discriminate (proj1 (Hw _) eq_refl).
Qed.

Lemma machines_m' k :
  machines m' !! k = match writes_machine k e0 with Some v => v | None => machines m !! k end.
Proof.
  pose proof (fun v => kind_machine _ _ k v change_kind) as Hw. unfold m', Model_commit. fold ch.
  destruct (writes_machine k e0) as [v|].
  - destruct (proj2 (Hw v) eq_refl) as (card & -> & -> & ->). apply lookup_insert_eq.
  - destruct ch as [|k0 []|card|? []| | |? ? []| | |]; try done; cbn.
    rewrite lookup_insert_ne; [done|]. intros <-.
    discriminate (proj1 (Hw (Some card)) ltac:(by eauto)).
Qed.

Lemma rooms_m' k :
  rooms m' !! k = match writes_room k e0 with Some v => v | None => rooms m !! k end.
Proof.
  pose proof (fun v => kind_room _ _ k v change_kind) as Hw. unfold m', Model_commit. fold ch.
  destruct (writes_room k e0) as [v|].
  - rewrite (proj2 (Hw v) eq_refl). destruct v; cbn; [apply lookup_insert_eq|apply lookup_delete_eq].
  - destruct ch as [|? []| |k0 []| | |? ? []| | |]; try done; cbn;
      [rewrite lookup_insert_ne|rewrite lookup_delete_ne]; try done; intros ->;
      discriminate (proj1 (Hw _) eq_refl).
Qed.

Lemma activities_m' k :
  activities m' !! k = match writes_activity k e0 with Some v => v | None => activities m !! k end.
Proof.
  pose proof (fun v => kind_activity _ _ k v change_kind) as Hw. unfold m', Model_commit. fold ch.
  destruct (writes_activity k e0) as [v|].
  - destruct (proj2 (Hw v) eq_refl) as (act & -> & ->). apply lookup_insert_eq.
  - destruct ch as [|? []| |? []| | |? ? []| |k0 act|]; try done; cbn.
    rewrite lookup_insert_ne; [done|]. intros ->.
    discriminate (proj1 (Hw (Some act)) ltac:(by eauto)).
Qed.

Lemma derived_commit : derived m'.
Proof.
  split.
  - apply derived_resolutions.
  - apply derived_open.
  - apply derived_started.
  - apply derived_deliveries.
  - apply derived_reads.
  - intros k. rewrite events_m', profiles_m'.
    apply latest_new; [apply writes_profile_origin|apply (d_profiles m Hd)].
  - intros k. rewrite events_m', machines_m'.
    apply latest_new; [apply writes_machine_origin|apply (d_machines m Hd)].
  - intros k. rewrite events_m', rooms_m'.
    apply latest_new; [apply writes_room_origin|apply (d_rooms m Hd)].
  - intros k. rewrite events_m', activities_m'.
    apply latest_new; [apply writes_activity_origin|apply (d_activities m Hd)].
Qed.
End commit.

(** ** Reachable models derive from their events *)

Section reach.
Context `{codec : Codec}.

Lemma derived_new o : derived (Model_new o).
Proof.
  assert (Hno : forall e, ~ stored (∅ : gmap EventId Sealed) e).
  { intros e (s & Hs & _). by rewrite lookup_empty in Hs. }
  split; cbn; intros; rewrite ?lookup_empty; cbn.
  - intros v (e & p & He & _). by apply Hno in He.
  - split; [set_solver|]. intros [(ask & Hask & _) _]. by apply Hno in Hask.
  - intros v (e & p & He & _). by apply Hno in He.
  - intros v (e & p & He & _). by apply Hno in He.
  - split; [set_solver|]. intros (e & He & _). by apply Hno in He.
  - right. split; [done|]. intros e He. by apply Hno in He.
  - right. split; [done|]. intros e He. by apply Hno in He.
  - right. split; [done|]. intros e He. by apply Hno in He.
  - right. split; [done|]. intros e He. by apply Hno in He.
Qed.

Lemma derived_step m m' : step m m' -> history m -> derived m -> derived m'.
Proof.
  intros [m0 s a Hs Ha|m0 peer n] Hm Hd; [by apply derived_commit|]. by destruct Hd; split.
Qed.

Lemma reachable_derived o m : reachable o m -> history m /\ derived m.
Proof.
  intros Hr%reachable_steps. pose proof (history_new o) as Hn. pose proof (derived_new o) as Hd.
  induction Hr as [|m1 m2 m3 H12 H23 IH]; [done|].
  eapply IH; eauto using history_step, derived_step.
Qed.

Lemma cursor_unique m1 m2 o :
  history m1 -> history m2 -> events m1 = events m2 -> Model_cursor m1 o = Model_cursor m2 o.
Proof.
  intros H1 H2 E.
  assert (Hle : forall m m', history m -> history m' -> events m = events m' ->
            seen (Model_cursor m o) <= seen (Model_cursor m' o)).
  { intros m m' Hm Hm' Hev. destruct (N.eq_dec (seen (Model_cursor m o)) 0) as [->|Hnz]; [lia|].
    assert (Hmax : seen (Model_cursor m o) <= u64_max).
    { unfold Model_cursor in *. destruct (cursors m !! o) eqn:Hc; cbn in *; [|lia].
      by destruct (h_cursor m Hm _ _ Hc). }
    destruct (NonZeroU64_new_is_Some (seen (Model_cursor m o))) as [n Hn]; [lia|].
    apply NonZeroU64_new_Some in Hn.
    assert (Hs : is_Some (events m !! EventId_new o n)) by (apply (h_seen m Hm); cbn; lia).
    rewrite Hev in Hs. apply (h_seen m' Hm') in Hs. cbn in Hs. lia. }
  assert (Hseen : seen (Model_cursor m1 o) = seen (Model_cursor m2 o)).
  { apply N.le_antisymm; by apply Hle. }
  destruct (N.eq_dec (seen (Model_cursor m1 o)) 0) as [Hz|Hnz].
  - assert (Hd : forall m, history m -> seen (Model_cursor m o) = 0 -> Model_cursor m o = Cursor_default).
    { intros m Hm. unfold Model_cursor. destruct (cursors m !! o) eqn:Hc; cbn; [|done].
      apply (h_cursor m Hm) in Hc. lia. }
    rewrite (Hd _ H1 Hz), (Hd _ H2); congruence.
  - assert (Hlast : exists e, stored (events m1) e /\ Event_origin e = o /\
              seq_of e = seen (Model_cursor m1 o)).
    { assert (Hmax : seen (Model_cursor m1 o) <= u64_max).
      { unfold Model_cursor in *. destruct (cursors m1 !! o) eqn:Hc; cbn in *; [|lia].
        by destruct (h_cursor m1 H1 _ _ Hc). }
      destruct (NonZeroU64_new_is_Some (seen (Model_cursor m1 o))) as [n Hn]; [lia|].
      apply NonZeroU64_new_Some in Hn.
      assert (Hs : is_Some (events m1 !! EventId_new o n)) by (apply (h_seen m1 H1); cbn; lia).
      destruct Hs as [s Hs]. destruct (h_key m1 H1 _ _ Hs) as [Hid _]. exists (Sealed_event s).
      unfold Event_origin, seq_of. rewrite Hid. split; [|done]. exists s. by rewrite Hid. }
    destruct Hlast as (e & He & Ho & Hseq). subst o.
    destruct (h_clock m1 H1 _ He) as [_ Hc1]. rewrite E in He.
    destruct (h_clock m2 H2 _ He) as [_ Hc2]. rewrite Hseen in Hseq.
    specialize (Hc2 Hseq). rewrite <- Hseen in Hseq. specialize (Hc1 Hseq).
    destruct (Model_cursor m1 _), (Model_cursor m2 _); cbn in *; congruence.
Qed.

Lemma clock_unique m1 m2 :
  history m1 -> history m2 -> events m1 = events m2 -> clock m1 = clock m2.
Proof.
  intros H1 H2 E.
  assert (Hle : forall m m', history m -> history m' -> events m = events m' -> clock m <= clock m').
  { intros m m' Hm Hm' Hev. destruct (h_reached m Hm) as [->|(e & He & <-)]; [lia|].
    rewrite Hev in He. destruct (h_clock m' Hm' _ He) as [Hc _].
    pose proof (h_max m' Hm' (Event_origin e)). lia. }
  apply N.le_antisymm; by apply Hle.
Qed.

(** Synchronizing is responding and accepting. *)
Lemma sync_reachable rounds : forall o o' m peer last m' peer' r,
  reachable o m -> reachable o' peer -> sync_rounds m peer rounds last = (m', peer', r) ->
  reachable o m' /\ reachable o' peer'.
Proof.
  induction rounds as [|rounds IH]; intros o o' m peer last m' peer' r Hm Hp; cbn [sync_rounds];
    [by intros [= <- <- _]|].
  destruct (Model_offer m (origin peer)) as [request|e]; [|by intros [= <- <- _]].
  destruct (Model_respond peer request) as [peer1 [answer|e]] eqn:Hr;
    pose proof (reachable_respond _ _ _ _ _ Hp Hr) as Hp1; [|by intros [= <- <- _]].
  destruct (Model_accept m request answer) as [m1 [progress|e]] eqn:Ha;
    pose proof (reachable_accept _ _ _ _ _ _ Hm Ha) as Hm1; [|by intros [= <- <- _]].
  case_match; [by intros [= <- <- _]|]. by apply IH.
Qed.
End reach.

(** ** Properties *)

(** C1: the replicated chat converges.  Two models that hold the same events agree on everything
    derived from them - how every ask ended, which asks are open and who started them, what was
    delivered and which handoffs were read, the profiles, machines, rooms and activities, every
    origin's cursor and the Lamport clock - whatever machines they are, and in whatever order,
    batches and repetitions those events were written and received. *)
Theorem replicas_converge `{codec : Codec} (o1 o2 : Origin) (m1 m2 : Model)
    (r1 : reachable o1 m1) (r2 : reachable o2 m2) (same : events m1 = events m2) :
  resolutions m1 = resolutions m2 /\ open_asks m1 = open_asks m2 /\
  started_by m1 = started_by m2 /\ deliveries m1 = deliveries m2 /\
  handoff_reads m1 = handoff_reads m2 /\ profiles m1 = profiles m2 /\
  machines m1 = machines m2 /\ rooms m1 = rooms m2 /\ activities m1 = activities m2 /\
  clock m1 = clock m2 /\ forall o, Model_cursor m1 o = Model_cursor m2 o.
Proof.
  apply reachable_derived in r1 as [H1 D1]. apply reachable_derived in r2 as [H2 D2].
  destruct (derived_unique _ _ D1 D2 same) as (? & ? & ? & ? & ? & ? & ? & ? & ?).
  do 9 (split; [done|]). split; [by apply clock_unique|]. intros o. by apply cursor_unique.
Qed.

(** C20: the earliest authorized ending of an ask wins, and only that one.  A request's resolution
    is the answer, failure or withdrawal held by the model that comes first by clock, then by
    machine, then by sequence number, among those its parties were entitled to make; a request is
    unresolved exactly when there is none. *)
Theorem earliest_resolution_wins `{codec : Codec} (o : Origin) (m : Model) (r : EventId)
    (reached : reachable o m) :
  (forall res, resolutions m !! r = Some res <->
     resolution_candidate (events m) r res /\
     forall other, resolution_candidate (events m) r other ->
       other = res \/ ends_before res other) /\
  (resolutions m !! r = None <-> forall res, ~ resolution_candidate (events m) r res).
Proof.
  apply reachable_derived in reached as [_ D]. pose proof (d_resolutions m D r) as Hb.
  setoid_rewrite <- precedes_iff. split.
  - intros res. split; [intros E; by rewrite E in Hb|]. intros Hres.
    exact (best_unique _ _ _ (Some res) precedes_asym Hb Hres).
  - split; [intros E; by rewrite E in Hb|]. intros Hno.
    exact (best_unique _ _ _ None precedes_asym Hb Hno).
Qed.

(** The open asks are the stored asks nobody has ended: an agent has an open ask exactly when
    the model holds an ask addressed to it and holds no authorized ending of it. *)
Theorem open_asks_are_unresolved `{codec : Codec} (o : Origin) (m : Model)
    (responder : AgentId) (id : EventId) (reached : reachable o m) :
  (responder, id) ∈ open_asks m <->
    (exists ask, stored (events m) ask /\ Event_id ask = id /\
       option_map snd (ask_of ask) = Some responder) /\
    forall res, ~ resolution_candidate (events m) id res.
Proof.
  apply reachable_derived in reached as [_ D]. rewrite (d_open m D).
  pose proof (d_resolutions m D id) as Hb. apply and_iff_compat_l. split.
  - intros E. by rewrite E in Hb.
  - intros Hno. exact (best_unique _ _ _ None precedes_asym Hb Hno).
Qed.

(** C25: what a recipient acknowledged of a message is the furthest receipt of that recipient the
    model holds for it, and nothing when it holds none; only addressed agents of the same
    conversation, after the message, have receipts. *)
Theorem delivery_is_furthest_receipt `{codec : Codec} (o : Origin) (m : Model)
    (request : EventId) (agent : AgentId) (reached : reachable o m) :
  match deliveries m !! (request, agent) with
  | Some d =>
      d <> Delivery_Pending /\ receipt_candidate (events m) (request, agent) d /\
      forall d', receipt_candidate (events m) (request, agent) d' ->
        Delivery_rank d' <= Delivery_rank d
  | None => forall d, ~ receipt_candidate (events m) (request, agent) d
  end.
Proof.
  apply reachable_derived in reached as [_ D]. pose proof (d_deliveries m D (request, agent)) as Hb.
  destruct (deliveries m !! (request, agent)) as [d|]; [|exact Hb]. destruct Hb as [Hc Hbest].
  split; [|split; [done|]].
  - destruct Hc as (e & p & _ & _ & (c & a & n & Hbody) & _).
    pose proof (Event_ok e) as Hok. apply Is_true_true, Event_check_spec in Hok.
    rewrite Hbody in Hok. by destruct Hok as (_ & _ & _ & Hne).
  - intros d' Hd'. destruct (Hbest _ Hd') as [->|?]; lia.
Qed.

(** C21: a model's history has no holes and no loose ends.  For every origin it holds exactly the
    events with sequence numbers one to the cursor's, with strictly increasing clocks the last of
    which is the cursor's; its own clock is the maximum of all clocks it holds; every stored event
    has a sealed form within the size limit; and whatever an event answers to is stored too. *)
Theorem history_is_causal `{codec : Codec} (o : Origin) (m : Model) (reached : reachable o m) :
  history m.
Proof. by apply reachable_history in reached. Qed.

(** ** Witnesses *)

Section witnesses.
#[local] Existing Instance sample_codec.

Lemma a0_reachable : reachable machine_a a0.
Proof. exact (reachable_write _ _ _ _ _ (reachable_new _) (surjective_pairing _)). Qed.

Lemma sync_with_reachable o o' m peer rounds :
  reachable o m -> reachable o' peer ->
  reachable o (sync_with m peer rounds).1.1 /\ reachable o' (sync_with m peer rounds).1.2.
Proof.
  intros Hm Hp. unfold sync_with.
  destruct (sync_rounds m peer rounds None) as [[m' peer'] r] eqn:E. by eapply sync_reachable.
Qed.

Lemma ab3_reachable : reachable machine_a a3 /\ reachable machine_b b3.
Proof.
  destruct (sync_with_reachable _ _ _ _ 4 a0_reachable (reachable_new machine_b)) as [H1 H2].
  apply sync_with_reachable.
  - exact (reachable_write _ _ _ _ _ H1 (surjective_pairing _)).
  - refine (reachable_write _ _ _ _ _ _ (surjective_pairing _)).
    exact (reachable_write _ _ _ _ _ H2 (surjective_pairing _)).
Qed.

Lemma replicas_converge_witness : resolutions a3 = resolutions b3 /\ machine_a <> machine_b.
Proof.
  split; [|by vm_compute].
  apply (replicas_converge machine_a machine_b a3 b3 (proj1 ab3_reachable) (proj2 ab3_reachable)).
  assert (E : bool_decide (events a3 = events b3) = true) by (vm_compute; reflexivity).
  exact (bool_decide_eq_true_1 _ E).
Defined.

Lemma earliest_resolution_wins_witness :
  (forall res, ~ resolution_candidate (events a0) ask_id res) /\
  exists res, resolutions a3 !! ask_id = Some res /\ resolution_candidate (events a3) ask_id res.
Proof.
  split.
  - apply (earliest_resolution_wins machine_a a0 ask_id a0_reachable). vm_compute. reflexivity.
  - assert (H : bool_decide (is_Some (resolutions a3 !! ask_id)) = true) by (vm_compute; reflexivity).
    apply bool_decide_eq_true_1 in H as [res Hres]. exists res. split; [done|].
    apply (earliest_resolution_wins machine_a a3 ask_id (proj1 ab3_reachable)) in Hres as [Hc _].
    exact Hc.
Defined.

Lemma open_asks_are_unresolved_witness :
  (bob_b, ask_id) ∈ open_asks a0 /\ forall res, ~ resolution_candidate (events a0) ask_id res.
Proof.
  assert (E : bool_decide ((bob_b, ask_id) ∈ open_asks a0) = true) by (vm_compute; reflexivity).
  apply bool_decide_eq_true_1 in E. split; [exact E|].
  apply (open_asks_are_unresolved machine_a a0 bob_b ask_id a0_reachable). exact E.
Defined.

Lemma delivery_is_furthest_receipt_witness :
  receipt_candidate (events a3) (ask_id, bob_b) Delivery_Read.
Proof.
  pose proof (delivery_is_furthest_receipt machine_a a3 ask_id bob_b (proj1 ab3_reachable)) as H.
  assert (E : deliveries a3 !! (ask_id, bob_b) = Some Delivery_Read) by (vm_compute; reflexivity).
  rewrite E in H. apply H.
Defined.

Lemma history_is_causal_witness : history a3 /\ size (events a3) = 4%nat.
Proof.
  split; [exact (history_is_causal machine_a a3 (proj1 ab3_reachable))|vm_compute; reflexivity].
Defined.
End witnesses.
