(* ===== verification/Sync.v ===== *)
(** What the in-memory ledger offers a peer: its own events after the peer's acknowledgment form a
    stretch of its history, so an offer is always a valid batch, holds only what the peer may see,
    and acknowledgments never run ahead of the history. *)

From Stdlib Require Import NArith Lia String Ascii Sorted Relations.
From stdpp Require Import base gmap list strings relations.
From S2P Require Import Prelude SortedLists RustStr Ids AgentLists Notification Handoff Event.
From S2P Require Import Ledger ChatWire Exchange Model Samples History.

(** ** Iterating a map in the order of its keys *)

Section keys.
Context {K V : Type} `{Countable K, OrdLaws K}.
Implicit Types (m : gmap K V).

Lemma btree_keys_elem m k : k ∈ btree_keys m <-> is_Some (m !! k).
Proof.
  unfold btree_keys. rewrite sort_perm, list_elem_of_fmap. split.
  - intros ([k' v] & -> & Hkv). apply elem_of_map_to_list in Hkv. cbn. eauto.
  - intros [v Hv]. exists (k, v). by rewrite elem_of_map_to_list.
Qed.

Lemma btree_keys_sorted m : StronglySorted cmp_lt (btree_keys m).
Proof.
  unfold btree_keys. apply sorted_ne_increasing; [apply sort_sorted|].
  apply any_window2_false, sort_windows_NoDup, NoDup_fst_map_to_list.
Qed.
End keys.

Lemma filter_sorted {A} (R : A -> A -> Prop) (p : A -> bool) l :
  StronglySorted R l -> StronglySorted R (List.filter p l).
Proof.
  induction 1 as [|x l Hs IH Hf]; cbn; [constructor|]. destruct (p x); [|done].
  constructor; [done|]. apply Forall_forall. intros y Hy.
  apply list_elem_of_In, filter_In in Hy as [Hy _]. rewrite Forall_forall in Hf.
  apply Hf. by apply list_elem_of_In.
Qed.

Lemma sorted_of_neighbours {A} (R : A -> A -> Prop) l :
  (forall i x y, l !! i = Some x -> l !! S i = Some y -> R x y) -> Sorted R l.
Proof.
  induction l as [|x l IH]; intros H; constructor.
  - apply IH. intros i. apply (H (S i)).
  - destruct l as [|y l]; constructor. by apply (H 0%nat).
Qed.

(** ** The model's own events *)

Section own.
Context `{codec : Codec}.

Definition own_id (m : Model) (after : N) (id : EventId) : bool :=
  bool_decide (EventId_origin id = origin m) && (after <? nz_get (EventId_seq id)).

Lemma own_events_ids m after : history m ->
  map Event_id (own_events m after) = List.filter (own_id m after) (btree_keys (events m)).
Proof.
  intros Hm. unfold own_events, btree_values.
  assert (Hall : forall k, k ∈ btree_keys (events m) -> is_Some (events m !! k))
    by (intros k; apply btree_keys_elem).
  induction (btree_keys (events m)) as [|k l IH]; [done|]. cbn.
  destruct (Hall k ltac:(left)) as [s Hs]. rewrite Hs. cbn.
  destruct (h_key m Hm _ _ Hs) as [Hid _]. specialize (IH (fun k' Hk' => Hall k' ltac:(by right))).
  unfold own_id at 1. rewrite <- Hid. unfold Event_origin at 1.
  destruct (bool_decide (EventId_origin (Event_id (Sealed_event s)) = origin m)); cbn; [|done].
  unfold seq_of at 1. destruct (after <? _); cbn; [|done]. by rewrite IH.
Qed.

Lemma own_events_stored m after e : history m ->
  e ∈ own_events m after <->
  stored (events m) e /\ Event_origin e = origin m /\ after < seq_of e.
Proof.
  intros Hm. unfold own_events. rewrite list_elem_of_fmap. split.
  - intros (s & -> & Hs). apply list_elem_of_In in Hs. rewrite !filter_In in Hs.
    destruct Hs as [[Hs Ho] Hseq]. apply bool_decide_eq_true_1 in Ho. apply N.ltb_lt in Hseq.
    split; [|done]. apply list_elem_of_In in Hs. unfold btree_values in Hs.
    apply list_elem_of_omap in Hs as (k & _ & Hk). destruct (h_key m Hm _ _ Hk) as [Hid _].
    exists s. by rewrite Hid.
  - intros ((s & Hs & <-) & Ho & Hseq). exists s. split; [done|]. apply list_elem_of_In.
    rewrite !filter_In. split; [|by apply N.ltb_lt]. split; [|by apply bool_decide_eq_true_2].
    apply list_elem_of_In. unfold btree_values. apply list_elem_of_omap.
    exists (Event_id (Sealed_event s)). split; [|done]. apply btree_keys_elem. eauto.
Qed.

Lemma own_events_sorted m after : history m ->
  StronglySorted cmp_lt (map Event_id (own_events m after)).
Proof.
  intros Hm. rewrite own_events_ids by done. apply filter_sorted, btree_keys_sorted.
Qed.

Lemma own_seq_lt (m : Model) e1 e2 :
  Event_origin e1 = origin m -> Event_origin e2 = origin m ->
  cmp_lt (Event_id e1) (Event_id e2) <-> seq_of e1 < seq_of e2.
Proof.
  unfold Event_origin, seq_of. destruct (Event_id e1) as [o1 n1], (Event_id e2) as [o2 n2].
  cbn. intros -> ->. unfold cmp_lt, cmp, EventId_Ord. cbn. unfold cmp, pair_Ord. cbn.
  rewrite cmp_refl. unfold cmp, NonZeroU64_Ord, N_Ord. apply N.compare_lt_iff.
Qed.

(** The own events are a stretch of history that starts right after [after]. *)
Lemma own_events_stretch m after : history m -> stretch (own_events m after).
Proof.
  intros Hm. apply sorted_follows_stretch, sorted_of_neighbours. intros i x y Hx Hy.
  apply inconsecutive_false.
  assert (Hin : forall j z, own_events m after !! j = Some z ->
            stored (events m) z /\ Event_origin z = origin m /\ after < seq_of z).
  { intros j z Hz. apply own_events_stored; [done|]. by eapply list_elem_of_lookup_2. }
  destruct (Hin _ _ Hx) as (Hsx & Hox & Hax). destruct (Hin _ _ Hy) as (Hsy & Hoy & Hay).
  pose proof (own_events_sorted m after Hm) as Hs.
  assert (Hlt : forall j k z w, own_events m after !! j = Some z -> own_events m after !! k = Some w ->
            (j < k)%nat -> seq_of z < seq_of w).
  { intros j k z w Hz Hw Hjk. apply (own_seq_lt m);
      [by destruct (Hin _ _ Hz) as (_ & ? & _)|by destruct (Hin _ _ Hw) as (_ & ? & _)|].
    eapply increasing_lookup_lt; [exact Hs| | |exact Hjk]; by rewrite list_lookup_fmap, ?Hz, ?Hw. }
  pose proof (Hlt _ _ _ _ Hx Hy ltac:(lia)) as Hxy.
  assert (Hnext : seq_of y = seq_of x + 1).
  { destruct (N.eq_dec (seq_of y) (seq_of x + 1)) as [|Hne]; [done|exfalso].
    pose proof (nz_bounds (EventId_seq (Event_id y))) as Hb. fold (seq_of y) in Hb.
    destruct (NonZeroU64_new_is_Some (seq_of x + 1)) as [n Hn]; [lia|].
    apply NonZeroU64_new_Some in Hn.
    assert (Hz : is_Some (events m !! EventId_new (origin m) n)).
    { apply (h_seen m Hm). cbn. pose proof (history_stored_seen _ _ Hm Hsy) as Hle.
      rewrite Hoy in Hle. lia. }
    destruct Hz as [s Hz]. destruct (h_key m Hm _ _ Hz) as [Hid _].
    assert (Hzs : Sealed_event s ∈ own_events m after).
    { apply own_events_stored; [done|]. unfold Event_origin, seq_of. rewrite Hid. cbn.
      split; [exists s; by rewrite Hid|]. split; [done|]. lia. }
    apply list_elem_of_lookup in Hzs as [j Hj].
    assert (Hseq : seq_of (Sealed_event s) = seq_of x + 1) by (unfold seq_of at 1; by rewrite Hid).
    destruct (decide (j <= i)%nat) as [Hle|Hgt].
    - destruct (decide (j = i)) as [->|]; [rewrite Hx in Hj; injection Hj as ->; lia|].
      pose proof (Hlt _ _ _ _ Hj Hx ltac:(lia)). lia.
    - destruct (decide (j = S i)) as [->|]; [rewrite Hy in Hj; injection Hj as ->; lia|].
      pose proof (Hlt _ _ _ _ Hy Hj ltac:(lia)). lia. }
  split; [congruence|]. split; [done|]. apply (h_inc m Hm); congruence || done.
Qed.

(** The first own event after a cursor is the one that follows it. *)
Lemma own_events_next m e : history m -> stored (events m) e -> Event_origin e = origin m ->
  exists rest, own_events m (seq_of e - 1) = e :: rest.
Proof.
  intros Hm He Ho. pose proof (nz_bounds (EventId_seq (Event_id e))) as Hb. fold (seq_of e) in Hb.
  assert (Hin : e ∈ own_events m (seq_of e - 1)).
  { apply own_events_stored; [done|]. split; [done|]. split; [done|]. lia. }
  pose proof (own_events_stretch m (seq_of e - 1) Hm) as Hst.
  destruct (own_events m (seq_of e - 1)) as [|e0 rest] eqn:Hown; [by apply elem_of_nil in Hin|].
  exists rest. f_equal. apply list_elem_of_lookup in Hin as [[|i] Hi]; [by injection Hi|]. exfalso.
  assert (H0 : e0 ∈ own_events m (seq_of e - 1)) by (rewrite Hown; left).
  apply own_events_stored in H0 as (_ & _ & H0); [|done].
  destruct (Hst 0%nat (S i) e0 e) as (_ & Hs & _); [lia|done|done|]. lia.
Qed.

Lemma filter_above (l : list Sealed) after n : after <= n ->
  List.filter (fun s => n <? seq_of (Sealed_event s)) l =
  List.filter (fun s => n <? seq_of (Sealed_event s)) (List.filter (fun s => after <? seq_of (Sealed_event s)) l).
Proof.
  intros Hle. induction l as [|s l IH]; [done|]. cbn.
  destruct (N.ltb_spec n (seq_of (Sealed_event s))), (N.ltb_spec after (seq_of (Sealed_event s)));
    cbn; rewrite ?IH; try done; [|lia|].
  - rewrite (proj2 (N.ltb_lt n _)) by done. done.
  - by rewrite (proj2 (N.ltb_ge n _)) by done.
Qed.

Lemma own_events_above m after n : after <= n ->
  own_events m n = List.filter (fun e => n <? seq_of e) (own_events m after).
Proof.
  intros Hle. unfold own_events. rewrite (filter_above _ after n Hle).
  induction (List.filter (fun s => after <? seq_of (Sealed_event s)) _) as [|s l IH]; [done|].
  cbn. by destruct (n <? seq_of (Sealed_event s)); cbn; rewrite IH.
Qed.

(** The events after a cursor are the one that follows it and those after that. *)
Lemma own_events_step m e : history m -> stored (events m) e -> Event_origin e = origin m ->
  own_events m (seq_of e - 1) = e :: own_events m (seq_of e).
Proof.
  intros Hm He Ho. destruct (own_events_next m e Hm He Ho) as [rest Hrest].
  rewrite (own_events_above m (seq_of e - 1) (seq_of e)), Hrest by lia. cbn.
  rewrite N.ltb_irrefl. f_equal. pose proof (own_events_stretch m (seq_of e - 1) Hm) as Hst.
  rewrite Hrest in Hst. assert (Hin : forall x, x ∈ rest -> seq_of e < seq_of x).
  { intros x Hx. apply list_elem_of_lookup in Hx as [i Hi].
    destruct (Hst 0%nat (S i) e x) as (_ & Hs & _); [lia|done|done|]. lia. }
  clear Hrest Hst. induction rest as [|x rest IH]; [done|]. cbn.
  rewrite (proj2 (N.ltb_lt _ _)) by (apply Hin; by left). f_equal. apply IH.
  intros y Hy. apply Hin. by right.
Qed.

Lemma own_events_end m after : history m -> seen (Model_cursor m (origin m)) <= after -> own_events m after = [].
Proof.
  intros Hm Hle. destruct (own_events m after) as [|e l] eqn:Hl; [done|].
  assert (He : e ∈ own_events m after) by (rewrite Hl; left).
  apply own_events_stored in He as (Hs & Ho & Hlt); [|done].
  pose proof (history_stored_seen _ _ Hm Hs). rewrite Ho in *. lia.
Qed.

Lemma stretch_export l peer k :
  stretch l -> stretch (map (fun e => Event_export e peer) (take k l)).
Proof.
  intros Hl i j a b Hij Ha Hb. rewrite list_lookup_fmap in Ha, Hb.
  destruct (take k l !! i) as [x|] eqn:Hx; [|done]. destruct (take k l !! j) as [y|] eqn:Hy; [|done].
  cbn in Ha, Hb. injection Ha as <-. injection Hb as <-.
  apply lookup_take_Some in Hx as [Hx _]. apply lookup_take_Some in Hy as [Hy _].
  destruct (Hl i j x y Hij Hx Hy) as (Ho & Hs & Hc).
  assert (Hexp : forall e, Event_id (Event_export e peer) = Event_id e /\
            Event_clock (Event_export e peer) = Event_clock e).
  { intros e. by destruct (Event_export_cases e peer) as [[-> _]|[-> _]]. }
  unfold Event_origin, seq_of in *. destruct (Hexp x) as [-> ->], (Hexp y) as [-> ->]. done.
Qed.

(** *** Acknowledgments *)

Definition ack_of (m : Model) (p : Origin) : N := default 0 (acks m !! p).

Lemma ack_of_record m peer claimed p :
  ack_of (Model_record_ack m peer claimed) p =
    if decide (p = peer)
    then N.max (ack_of m peer) (N.min claimed (seen (Model_cursor m (origin m))))
    else ack_of m p.
Proof.
  unfold ack_of, Model_record_ack. cbn. unfold Model_cursor.
  replace (match cursors m !! origin m with Some cursor => seen cursor | None => 0 end)
    with (seen (default Cursor_default (cursors m !! origin m))) by (by destruct (cursors m !! origin m)).
  case_decide as Hp.
  - subst p. by rewrite lookup_insert_eq.
  - by rewrite lookup_insert_ne by congruence.
Qed.

Lemma step_acks m m' :
  step m m' -> history m ->
  (forall p, ack_of m p <= seen (Model_cursor m (origin m))) ->
  (forall p, ack_of m' p <= seen (Model_cursor m' (origin m'))).
Proof.
  intros [m0 s a Hs Ha|m0 peer n] Hm Hle p.
  - destruct (append_fresh _ _ _ Hm Ha) as (_ & Hseq & _ & _ & Hcur).
    rewrite Model_cursor_commit. unfold ack_of.
    destruct (Model_commit_history m0 s a) as (-> & _ & _ & _ & ->). specialize (Hle p).
    unfold ack_of in Hle. case_decide as Ho; [|done]. rewrite Hcur. cbn. rewrite Ho in Hle. lia.
  - rewrite ack_of_record. change (seen (Model_cursor (Model_record_ack m0 peer n)
      (origin (Model_record_ack m0 peer n)))) with (seen (Model_cursor m0 (origin m0))).
    pose proof (Hle p). pose proof (Hle peer). case_decide; lia.
Qed.

Lemma cursor_mono_steps m m' : rtc step m m' -> history m ->
  forall o, seen (Model_cursor m o) <= seen (Model_cursor m' o).
Proof.
  induction 1 as [|m1 m2 m3 H12 H23 IH]; intros Hm o; [done|].
  etrans; [|apply IH; by eapply history_step]. destruct H12 as [m0 s a Hs Ha|m0 peer n]; [|done].
  destruct (append_fresh _ _ _ Hm Ha) as (_ & Hseq & _ & _ & Hcur). rewrite Model_cursor_commit.
  case_decide; [|done]. subst o. rewrite Hcur. cbn. lia.
Qed.

Lemma reachable_acks o m :
  reachable o m -> forall p, ack_of m p <= seen (Model_cursor m (origin m)).
Proof.
  intros Hr%reachable_steps. pose proof (history_new o) as Hn.
  assert (H0 : forall p, ack_of (Model_new o) p <= seen (Model_cursor (Model_new o) (origin (Model_new o)))).
  { intros p. unfold ack_of. cbn. rewrite lookup_empty. cbn. lia. }
  induction Hr as [|m1 m2 m3 H12 H23 IH]; [done|]. apply IH; eauto using history_step, step_acks.
Qed.
(** What [outgoing] takes from the model's own events. *)
Lemma outgoing_filled m peer after : history m ->
  exists b k,
    outgoing (E := Empty_set) m peer after = Ok (Ok b) /\
    Batch_events b = map (fun e => Event_export e peer) (take k (own_events m after)) /\
    (Batch_more b = false -> k = length (own_events m after) \/
       exists e, own_events m after !! k = Some e /\
         is_ok (Sealed_new (Event_export e peer)) = false) /\
    (forall e rest, own_events m after = e :: rest ->
       is_ok (Sealed_new (Event_export e peer)) = true -> (0 < k)%nat) /\
    (Batch_more b = true -> (0 < k < length (own_events m after))%nat).
Proof.
  intros Hm. unfold outgoing. cbn [Model_Outbox Outbox_outgoing].
  assert (Hb : filling Outgoing_default).
  { repeat split; try done; [cbn; lia|]. left. done. }
  destruct (offer_all_spec (own_events m after) peer _ Hb)
    as (k & Hk & Hevs & (_ & Hlen & _ & _) & Htrue & Hmore). cbn in Hlen.
  set (filled := offer_all Outgoing_default (own_events m after) peer) in *.
  unfold Outgoing_into_batch.
  destruct (Batch_new (Outgoing_events filled) (Outgoing_more filled)) as [b|e] eqn:Hbatch.
  - apply Batch_new_ok in Hbatch as [Hbe Hbm]. exists b, k. rewrite Hbe, Hbm, Hevs.
    split; [done|]. split; [done|]. split; [done|]. split.
    2: { intros [Hlt Hne]%Htrue. split; [|done]. destruct k; [by rewrite Hevs in Hne|lia]. }
    intros e rest Hown Hok.
    destruct k as [|k]; [|lia]. exfalso. destruct (Outgoing_more filled).
    + destruct (Htrue eq_refl) as [_ Hne]. by rewrite Hevs in Hne.
    + destruct (Hmore eq_refl) as [Hl|(e' & He' & Hbad)]; rewrite Hown in *; [done|].
      cbn in He'. injection He' as <-. congruence.
  - exfalso. apply (f_equal is_ok) in Hbatch. rewrite Batch_new_total in Hbatch. cbn in Hbatch.
    apply not_true_iff_false in Hbatch. apply Hbatch, batch_valid_spec. split; [lia|].
    rewrite Hevs. cbn. apply stretch_export. by apply own_events_stretch.
Qed.

Lemma outgoing_batch m peer after : history m ->
  exists b k,
    outgoing (E := Empty_set) m peer after = Ok (Ok b) /\
    Batch_events b = map (fun e => Event_export e peer) (take k (own_events m after)) /\
    (Batch_more b = false -> k = length (own_events m after) \/
       exists e, own_events m after !! k = Some e /\
         is_ok (Sealed_new (Event_export e peer)) = false) /\
    (forall e rest, own_events m after = e :: rest ->
       is_ok (Sealed_new (Event_export e peer)) = true -> (0 < k)%nat).
Proof. intros Hm. destruct (outgoing_filled m peer after Hm) as (b & k & H1 & H2 & H3 & H4 & _). eauto 10. Qed.

Lemma Model_offer_filled m peer b : outgoing (E := Empty_set) m peer (ack_of m peer) = Ok (Ok b) ->
  Model_offer m peer = Ok (mkOffer (origin m) peer (ack_of m peer) (seen (Model_cursor m peer)) b).
Proof.
  intros Ho. unfold Model_offer, offer. cbn [Outbox_ack Ledger_cursor Model_Ledger Model_Outbox].
  fold (ack_of m peer). by rewrite Ho.
Qed.

Lemma Model_offer_batch m peer : history m ->
  exists b k,
    Model_offer m peer
    = Ok (mkOffer (origin m) peer (ack_of m peer) (seen (Model_cursor m peer)) b) /\
    Batch_events b = map (fun e => Event_export e peer) (take k (own_events m (ack_of m peer))) /\
    (Batch_more b = false -> k = length (own_events m (ack_of m peer)) \/
       exists e, own_events m (ack_of m peer) !! k = Some e /\
         is_ok (Sealed_new (Event_export e peer)) = false) /\
    (forall e rest, own_events m (ack_of m peer) = e :: rest ->
       is_ok (Sealed_new (Event_export e peer)) = true -> (0 < k)%nat).
Proof.
  intros Hm. destruct (outgoing_batch m peer (ack_of m peer) Hm) as (b & k & Ho & H).
  exists b, k. split; [|exact H]. by apply Model_offer_filled.
Qed.

(** The own events after a number are those with the numbers that follow it. *)
Lemma own_events_first m after e rest : history m -> own_events m after = e :: rest ->
  seq_of e = after + 1 /\ rest = own_events m (after + 1).
Proof.
  intros Hm Hl. assert (He : e ∈ own_events m after) by (rewrite Hl; left).
  apply own_events_stored in He as (Hs & Ho & Hlt); [|done].
  pose proof (nz_bounds (EventId_seq (Event_id e))) as Hb. fold (seq_of e) in Hb.
  destruct (NonZeroU64_new_is_Some (after + 1)) as [n Hn]; [lia|]. apply NonZeroU64_new_Some in Hn.
  assert (Hz : is_Some (events m !! EventId_new (origin m) n)).
  { apply (h_seen m Hm). cbn. pose proof (history_stored_seen _ _ Hm Hs) as Hle. rewrite Ho in Hle. lia. }
  destruct Hz as [s Hz]. destruct (h_key m Hm _ _ Hz) as [Hid _].
  assert (Hseq : seq_of (Sealed_event s) = after + 1) by (unfold seq_of; by rewrite Hid).
  assert (Hstep : own_events m (after + 1 - 1) = Sealed_event s :: own_events m (after + 1)).
  { rewrite <- Hseq. apply own_events_step; [done| |unfold Event_origin; by rewrite Hid]. exists s. by rewrite Hid. }
  replace (after + 1 - 1) with after in Hstep by lia. rewrite Hl in Hstep. by injection Hstep as -> ->.
Qed.

Lemma own_events_numbered m e : history m -> forall i after, own_events m after !! i = Some e ->
  seq_of e = after + N.of_nat i + 1.
Proof.
  intros Hm. induction i as [|i IH]; intros after; destruct (own_events m after) as [|e0 rest] eqn:Hl; try done;
    destruct (own_events_first m after e0 rest Hm Hl) as [Hseq ->].
  - intros [= <-]. lia.
  - intros H%IH. lia.
Qed.

Lemma own_events_at m after i e : history m -> own_events m after !! i = Some e ->
  stored (events m) e /\ Event_origin e = origin m /\ seq_of e = after + N.of_nat i + 1.
Proof.
  intros Hm He. pose proof (own_events_numbered m e Hm i after He).
  apply list_elem_of_lookup_2, own_events_stored in He as (Hs & Ho & _); done.
Qed.
End own.

(** ** Properties *)

(** C22: An offer never fails, leaves nothing out and never leaks.  A reachable model offers a peer the export, for
    that peer, of its own events with the numbers that follow the last one the peer has acknowledged, without a gap;
    every event in the batch is one the peer may see or is emptied of its content.  All the others that were not
    acknowledged are in the batch too, unless the offer says that there is more or the next event cannot be encoded;
    and when it says that there is more, the next event exists and at least one is on its way. *)
Theorem offer_is_exported_stretch `{codec : Codec} (o : Origin) (m : Model) (peer : Origin)
    (reached : reachable o m) :
  exists offer sent,
    Model_offer m peer = Ok offer /\
    Offer_from offer = origin m /\ Offer_to offer = peer /\
    Offer_after offer = ack_of m peer /\ Offer_seen offer = seen (Model_cursor m peer) /\
    let next e := stored (events m) e /\ Event_origin e = origin m /\
      seq_of e = ack_of m peer + N.of_nat (length sent) + 1 in
    Batch_events (Offer_batch offer) = map (fun e => Event_export e peer) sent /\
    (forall i e, sent !! i = Some e ->
       stored (events m) e /\ Event_origin e = origin m /\ seq_of e = ack_of m peer + N.of_nat i + 1) /\
    (forall e, e ∈ Batch_events (Offer_batch offer) -> visible e peer) /\
    (forall e, stored (events m) e -> Event_origin e = origin m -> ack_of m peer < seq_of e ->
       e ∈ sent \/ Batch_more (Offer_batch offer) = true \/
       exists e', next e' /\ is_ok (Sealed_new (Event_export e' peer)) = false) /\
    (Batch_more (Offer_batch offer) = true -> sent <> [] /\ exists e, next e).
Proof.
  apply reachable_history in reached as Hm.
  destruct (outgoing_filled m peer (ack_of m peer) Hm) as (b & k & Ho & Hevs & Hmore & _ & Htrue).
  set (own := own_events m (ack_of m peer)) in *. eexists _, (take k own).
  split; [by apply Model_offer_filled|]. cbn. do 4 (split; [done|]). split; [done|].
  assert (Hnext : forall i e, own !! i = Some e -> i = length (take k own) ->
    stored (events m) e /\ Event_origin e = origin m /\ seq_of e = ack_of m peer + N.of_nat (length (take k own)) + 1).
  { intros i e He <-. by apply own_events_at. }
  split; [|split; [|split]].
  - intros i e [He _]%lookup_take_Some. by apply own_events_at.
  - rewrite Hevs. intros e (x & -> & _)%list_elem_of_fmap.
    destruct (Event_export_cases x peer) as [[-> Hv]|[-> _]]; [done|apply Event_omitted_visible].
  - intros e Hs Heo Hlt. assert (Hin : e ∈ own) by (by apply own_events_stored).
    destruct (Batch_more b); [by right; left|]. destruct (Hmore eq_refl) as [->|(e' & He' & Hbad)].
    + left. by rewrite firstn_all.
    + right; right. exists e'. split; [|done]. apply (Hnext k); [done|]. apply lookup_lt_Some in He'. rewrite length_take. lia.
  - intros Hk%Htrue. split.
    + intros E%(f_equal length). rewrite length_take in E. cbn in E. lia.
    + destruct (lookup_lt_is_Some_2 own k) as [e He]; [lia|]. exists e. apply (Hnext k); [done|]. rewrite length_take. lia.
Qed.

(** Acknowledgments only move forward and never beyond the local history.  In a reachable
    model every peer's acknowledgment is at most the number of the last local event, and recording
    what a peer claims to have seen raises its acknowledgment to that claim, cut to the local
    history, never lowers any, and leaves the events and cursors alone. *)
Theorem acknowledgments_bounded `{codec : Codec} (o : Origin) (m : Model) (peer : Origin)
    (claimed : N) (reached : reachable o m) :
  let m' := Model_record_ack m peer claimed in
  let local := seen (Model_cursor m (origin m)) in
  (forall p, ack_of m p <= local) /\
  (forall p, ack_of m p <= ack_of m' p <= local) /\
  ack_of m' peer = N.max (ack_of m peer) (N.min claimed local) /\
  events m' = events m /\ cursors m' = cursors m.
Proof.
  cbn. pose proof (reachable_acks _ _ reached) as Hle. split; [done|].
  split; [|by rewrite ack_of_record, decide_True].
  intros p. rewrite ack_of_record. pose proof (Hle p). pose proof (Hle peer). case_decide; subst; lia.
Qed.

(** ** Witnesses *)

Section witnesses.
#[local] Existing Instance sample_codec.

Lemma offer_is_exported_stretch_witness :
  exists offer, Model_offer a0 machine_b = Ok offer /\ Offer_to offer = machine_b.
Proof.
  destruct (offer_is_exported_stretch machine_a a0 machine_b) as (offer & sent & Hoffer & _ & Hto & _).
  - exact (reachable_write _ _ _ _ _ (reachable_new _) (surjective_pairing _)).
  - exists offer. split; [exact Hoffer|exact Hto].
Defined.

Lemma acknowledgments_bounded_witness : ack_of (Model_record_ack a0 machine_b 7) machine_b = 1.
Proof.
  pose proof (acknowledgments_bounded machine_a a0 machine_b 7
    (reachable_write _ _ _ _ _ (reachable_new _) (surjective_pairing _))) as (_ & _ & H & _).
  rewrite H. vm_compute. reflexivity.
Defined.
End witnesses.
