(* ===== verification/Network.v ===== *)
(** A network of machines that run chat/exchange.rs over the in-memory ledger of chat/model.rs.
    Messages may be delayed, lost, duplicated and reordered.  Whatever happens, a machine holds of
    another one exactly exports of what that one wrote; and once exchanging changes nothing any
    more, everybody holds everything. *)

From Stdlib Require Import NArith Lia String Ascii Sorted Relations.
From stdpp Require Import base gmap list strings relations.
From S2P Require Import Prelude SortedLists RustStr Ids AgentLists Notification Handoff Event.
From S2P Require Import Ledger ChatWire Exchange Model Samples History Sync.

(** ** Definitions *)

(** Every machine's ledger. *)
Definition Nodes : Type := Origin -> Model.

Definition update (n : Nodes) (o : Origin) (m : Model) : Nodes :=
  fun o' => if decide (o' = o) then m else n o'.

(** What the commands check before they write: the message they answer is there to be read. *)
Definition answers_readable (m : Model) (body : Body) : Prop :=
  forall request, Body_request body = Some request ->
    exists parent, Model_parent m request = Parent_Present parent.

Section network.
Context `{codec : Codec} (machines : list Origin).

(** The machines, the offers made and the answers given, each with the offer it answers. *)
Inductive network : Nodes -> list Offer -> list (Offer * Answer) -> Prop :=
| network_new : network Model_new [] []
| network_write n offers answers o body :
    network n offers answers -> o ∈ machines -> answers_readable (n o) body ->
    network (update n o (Model_write (n o) body).1) offers answers
| network_offer n offers answers o peer offer :
    network n offers answers -> o ∈ machines -> o <> peer -> Model_offer (n o) peer = Ok offer ->
    network n (offer :: offers) answers
| network_respond n offers answers o offer m r :
    network n offers answers -> o ∈ machines -> offer ∈ offers -> Model_respond (n o) offer = (m, r) ->
    network (update n o m) offers
      (match r with Ok answer => (offer, answer) :: answers | Err _ => answers end)
| network_accept n offers answers offer answer m r :
    network n offers answers -> Offer_from offer ∈ machines -> (offer, answer) ∈ answers ->
    Model_accept (n (Offer_from offer)) offer answer = (m, r) ->
    network (update n (Offer_from offer) m) offers answers.

(** No exchange between any two of them changes anything. *)
Definition quiet (n : Nodes) : Prop :=
  forall o peer, o ∈ machines -> peer ∈ machines -> o <> peer -> (sync_rounds (n o) (n peer) 1 None).1 = (n o, n peer).

(** One round of exchange, and the rounds that change something. *)
Definition round (n : Nodes) (o peer : Origin) : Nodes :=
  let after := (sync_rounds (n o) (n peer) 1 None).1 in
  update (update n peer after.2) o after.1.

Inductive exchange (n n' : Nodes) : Prop :=
| exchange_round o peer :
    o ∈ machines -> peer ∈ machines -> o <> peer ->
    (sync_rounds (n o) (n peer) 1 None).1 <> (n o, n peer) ->
    n' = round n o peer -> exchange n n'.

(** ** Lemmas *)

(** *** What a ledger makes of an event depends on the event it answers only *)

Notation change := (change (E := Empty_set)).

Lemma change_free m e : Body_request (Event_body e) = None -> is_ok (change m e) = true.
Proof.
  unfold Ledger.change.
  by destruct (Event_body e) as [| | | | |c from t a [| |req]| |obs aud| | | | |].
Qed.

Lemma checked_readable m e r q :
  Model_parent m r = Parent_Present q ->
  checked_parent (E := Empty_set) m e r
  = if bool_decide (Event_id q = r) then Ok (Parent_Present q) else Err (mismatch e).
Proof.
  intros Hq. unfold checked_parent. cbn [Ledger_parent Model_Ledger map_err]. rewrite Hq. cbn.
  unfold parent_identity_matches. by case_bool_decide.
Qed.

Lemma resolve_present_ok m e r cand q :
  Model_parent m r = Parent_Present q ->
  is_ok (resolve (E := Empty_set) m e r cand) = true <->
  match Body_conversation (Event_body e), Body_audience (Event_body e) with
  | Some c, Some a =>
      Event_id q = r /\ same_thread e c a q = true /\
      match Candidate_ending cand with
      | Ending_Answered => True
      | Ending_Ended _ =>
          match ask_of q with
          | Some (asker, responder) => Candidate_authorized cand asker responder = true
          | None => False
          end
      end
  | _, _ => True
  end.
Proof.
  intros Hq. unfold resolve. destruct (Body_conversation (Event_body e)) as [c|]; [|done].
  destruct (Body_audience (Event_body e)) as [a|]; [|done].
  cbn [Ledger_resolution Model_Ledger map_err]. rewrite (checked_readable _ _ _ _ Hq).
  case_bool_decide as Hid; [|split; [done|by intros [? _]]].
  destruct (same_thread e c a q); cbn; [|split; [done|by intros (_ & ? & _)]].
  destruct (ask_of q) as [[asker responder]|].
  - destruct (Candidate_authorized cand asker responder); cbn.
    + split; [|done]. intros _. split; [done|]. split; [done|]. by destruct (Candidate_ending cand).
    + destruct (Candidate_ending cand); cbn; split; (done || by intros (_ & _ & ?)).
  - unfold plain_reply. destruct (Candidate_ending cand); cbn; split; (done || by intros (_ & _ & ?)).
Qed.

Lemma thread_present m e r q :
  Model_parent m r = Parent_Present q ->
  thread_parent (E := Empty_set) m e r
  = match Body_conversation (Event_body e), Body_audience (Event_body e), Event_author e with
    | Some c, Some a, Some agent =>
        if bool_decide (Event_id q = r) then Ok (Some (mkThreadParent c a agent q))
        else Err (mismatch e)
    | _, _, _ => Ok None
    end.
Proof.
  intros Hq. unfold thread_parent. destruct (Body_conversation (Event_body e)), (Body_audience (Event_body e)),
    (Event_author e); try done. rewrite (checked_readable _ _ _ _ Hq). by case_bool_decide.
Qed.

(** An event that answers a readable one is accepted everywhere or nowhere. *)
Lemma change_present m1 m2 e r q :
  Body_request (Event_body e) = Some r ->
  Model_parent m1 r = Parent_Present q -> Model_parent m2 r = Parent_Present q ->
  is_ok (change m1 e) = true -> is_ok (change m2 e) = true.
Proof.
  intros Hr H1 H2. unfold Ledger.change.
  destruct (Event_body e) as [| | | | |c from t a [| |req]| |obs aud|req c a ag d| |req c a ag|req c a ag oc|] eqn:Hb;
    try done; cbn in Hr; injection Hr as <-.
  - rewrite !resolve_present_ok by done. done.
  - unfold handoff_read. destruct (ok_or _ _); [|done].
    by rewrite (checked_readable _ _ _ _ H1), (checked_readable _ _ _ _ H2).
  - unfold receipt. by rewrite (thread_present _ _ _ _ H1), (thread_present _ _ _ _ H2).
  - unfold started. by rewrite (thread_present _ _ _ _ H1), (thread_present _ _ _ _ H2).
  - rewrite !resolve_present_ok by done. done.
Qed.

(** It is later than what it answers, and for the same machines. *)
Lemma change_thread m e r q :
  Body_request (Event_body e) = Some r -> Model_parent m r = Parent_Present q ->
  is_ok (change m e) = true ->
  Event_clock q < Event_clock e /\ Body_audience (Event_body q) = Body_audience (Event_body e).
Proof.
  intros Hr Hq. unfold Ledger.change.
  destruct (Event_body e) as [| | | | |c from t a [| |req]| |obs aud|req c a ag d| |req c a ag|req c a ag oc|] eqn:Hb;
    try done; cbn in Hr; injection Hr as <-.
  - rewrite resolve_present_ok by done. rewrite Hb. cbn. rewrite same_thread_iff. tauto.
  - unfold handoff_read. destruct (ok_or _ _) as [author|]; [|done].
    rewrite (checked_readable _ _ _ _ Hq). case_bool_decide; [|done].
    destruct (Event_body q) as [| | | | | |metadata text st| | | | | |] eqn:Hbq; try done.
    destruct (Descriptor_new _ _ _) as [d|] eqn:Hd; [|done]. apply Descriptor_new_ok in Hd.
    cbn [map_err]. destruct (Descriptor_admit_observation _ _ _ _) as [[]|] eqn:Ho; [|done].
    apply observation_decision_ok in Ho. cbn in Ho. rewrite !bool_decide_eq_true in Ho.
    destruct Ho as (_ & _ & _ & Ha & Hc). split; [done|]. cbn. destruct Hd as (_ & Hmd & _).
    rewrite Hmd in Ha. by rewrite Ha.
  - unfold receipt. rewrite (thread_present _ _ _ _ Hq). unfold Event_author. rewrite Hb. cbn.
    case_bool_decide; [|done]. unfold receipt_change. cbn.
    destruct (same_thread e c a q) eqn:Hs; [|by rewrite orb_true_r].
    apply same_thread_iff in Hs. tauto.
  - unfold started. rewrite (thread_present _ _ _ _ Hq). unfold Event_author. rewrite Hb. cbn.
    case_bool_decide; [|done]. cbn. destruct (ask_of q) as [[? ?]|]; [|done].
    destruct (same_thread e c a q) eqn:Hs; [|by rewrite andb_false_r].
    apply same_thread_iff in Hs. tauto.
  - rewrite resolve_present_ok by done. rewrite Hb. cbn. rewrite same_thread_iff. tauto.
Qed.

(** *** What the operations do to the stored events *)

(** Nothing is lost, and what is new is one of [P]. *)
Record extends (P : Sealed -> Prop) (m m' : Model) : Prop := {
  x_origin : origin m' = origin m;
  x_acks : acks m' = acks m;
  x_old : forall id s, events m !! id = Some s -> events m' !! id = Some s;
  x_new : forall id s, events m' !! id = Some s -> events m !! id = Some s \/ P s
}.

Lemma extends_refl P m : extends P m m.
Proof. split; auto. Qed.

Lemma extends_trans P m1 m2 m3 : extends P m1 m2 -> extends P m2 m3 -> extends P m1 m3.
Proof.
  intros [O1 A1 H1 N1] [O2 A2 H2 N2]. split; [congruence|congruence|eauto|].
  intros id s [H|H]%N2; [by apply N1|by right].
Qed.

Lemma extends_weaken (P Q : Sealed -> Prop) m m' : (forall s, P s -> Q s) -> extends P m m' -> extends Q m m'.
Proof. intros HPQ [O A H N]. split; [done..|]. intros id s [|]%N; eauto. Qed.

Lemma commit_extends m s a :
  history m -> admit_sealed (E := Empty_set) m s = Ok (Decision_Append a) ->
  extends (eq s) m (Model_commit m s a).
Proof.
  intros Hm Ha. destruct (append_fresh _ _ _ Hm Ha) as (Hfresh & _).
  destruct (Model_commit_history m s a) as (Ho & Hev & _ & _ & Hk). split; [done|done| |].
  - intros id s' Hs'. rewrite Hev, lookup_insert_ne; [done|]. congruence.
  - intros id s'. rewrite Hev. destruct (decide (Event_id (Sealed_event s) = id)) as [<-|].
    + rewrite lookup_insert_eq. intros [= <-]. by right.
    + rewrite lookup_insert_ne by done. by left.
Qed.

(** What receiving adds comes from the batch. *)
Definition from_batch (from : Origin) (es : list Event) (s : Sealed) : Prop :=
  exists e, e ∈ es /\ Sealed_new e = Ok s /\ Sealed_event s = e /\ Event_origin e = from.

Lemma receive_one_extends m from e m' r :
  history m -> receive_one (E := Empty_set) m from e = (m', r) ->
  history m' /\ extends (from_batch from [e]) m m'.
Proof.
  intros Hm Hr. destruct r as [[]|f].
  - apply receive_one_true in Hr as (Ho & _ & s & a & Hs & He & Ha & Hc). cbn in Hc.
    injection Hc as <-. subst e. split; [by apply history_commit|].
    apply (extends_weaken (eq s)); [|by apply commit_extends]. intros s' <-.
    exists (Sealed_event s). split; [left|]. done.
  - apply receive_one_false in Hr as [-> _]. split; [done|apply extends_refl].
  - apply receive_one_refused in Hr as [->|[[] _]]. split; [done|apply extends_refl].
Qed.

Lemma receive_loop_extends from es : forall m k m' r,
  history m -> receive_loop (E := Empty_set) m from es k = (m', r) ->
  history m' /\ extends (from_batch from es) m m'.
Proof.
  induction es as [|e es IH]; intros m k m' r Hm; cbn [receive_loop].
  { intros [= <- _]. split; [done|apply extends_refl]. }
  destruct (receive_one m from e) as [m1 outcome] eqn:Hone.
  apply receive_one_extends in Hone as [Hm1 Hx]; [|done].
  assert (Hfirst : extends (from_batch from (e :: es)) m m1).
  { eapply extends_weaken; [|exact Hx]. intros s (x & Hx' & H). exists x.
    apply list_elem_of_singleton in Hx' as ->. split; [left|done]. }
  assert (Hrest : forall m2, extends (from_batch from es) m1 m2 ->
    extends (from_batch from (e :: es)) m m2).
  { intros m2 H2. eapply extends_trans; [exact Hfirst|]. eapply extends_weaken; [|exact H2].
    intros s (x & Hin & H). exists x. split; [by right|done]. }
  destruct outcome as [[]|f].
  - intros [Hm' Hx']%IH; [|done]. auto.
  - intros [Hm' Hx']%IH; [|done]. auto.
  - destruct f as [[]| |]; intros [= <- _]; auto.
Qed.

Lemma receive_extends m from es m' r :
  history m -> receive (E := Empty_set) m from es = (m', r) ->
  history m' /\ extends (from_batch from es) m m' /\
  forall rec, r = Ok rec -> Received_seen rec = seen (Model_cursor m' from).
Proof.
  intros Hm. unfold receive. destruct (receive_loop m from es 0) as [m1 [[k rej]|[]]] eqn:Hl.
  apply receive_loop_extends in Hl as [Hm1 Hx]; [|done]. cbn. intros [= <- <-].
  split; [done|]. split; [done|]. by intros rec [= <-].
Qed.

Lemma write_extends m body m' r :
  history m -> Model_write m body = (m', r) ->
  history m' /\ extends (fun s => Event_origin (Sealed_event s) = origin m /\
    Event_body (Sealed_event s) = body /\ is_ok (change m (Sealed_event s)) = true) m m'.
Proof.
  intros Hm. unfold Model_write, append. destruct (append_event m body) as [s|f] eqn:Hs.
  2: { intros [= <- _]. split; [done|apply extends_refl]. }
  unfold commit. destruct (admit_sealed m s) as [[|a]|f] eqn:Ha;
    [intros [= <- _]; split; [done|apply extends_refl]| |intros [= <- _]; split; [done|apply extends_refl]].
  cbn. intros [= <- _].
  pose proof (append_fresh _ _ _ Hm Ha) as (_ & _ & _ & Hch & _).
  apply append_event_ok in Hs as (c & k & _ & _ & Hbody & Ho & _ & _ & Hsealed).
  split; [by apply history_commit|].
  eapply extends_weaken; [|by apply commit_extends]. intros s' <-. by rewrite Hch.
Qed.

(** Acknowledging leaves the events alone. *)
Lemma record_ack_history m peer k : history m -> history (Model_record_ack m peer k).
Proof. intros Hm. by destruct Hm; split. Qed.

Lemma respond_cases m offer m' r :
  history m -> Model_respond m offer = (m', r) ->
  (m' = m /\ (exists e, r = Err e) /\
   (Offer_to offer <> origin m \/ Offer_from offer = origin m \/
    seen (Model_cursor m (origin m)) < Offer_seen offer)) \/
  (Offer_to offer = origin m /\ Offer_from offer <> origin m /\
   Offer_seen offer <= seen (Model_cursor m (origin m)) /\
   exists m1 rec b k,
     receive (E := Empty_set) m (Offer_from offer) (Batch_events (Offer_batch offer)) = (m1, Ok rec) /\
     m' = Model_record_ack m1 (Offer_from offer) (Offer_seen offer) /\
     r = Ok (mkAnswer (origin m) (Received_seen rec) b (Received_rejected rec)) /\
     Batch_events b
     = map (fun e => Event_export e (Offer_from offer)) (take k (own_events m' (Offer_seen offer)))).
Proof.
  intros Hm. unfold Model_respond, respond. cbn [Ledger_local Model_Ledger].
  destruct (bool_decide_reflect (Offer_to offer = origin m)) as [Hto|]; cbn [negb orb].
  2: { intros [= <- <-]. left. split; [done|]. split; [by eexists|]. auto. }
  destruct (bool_decide_reflect (Offer_from offer = origin m)) as [|Hfrom].
  { intros [= <- <-]. left. split; [done|]. split; [by eexists|]. auto. }
  cbn [Ledger_cursor Model_Ledger].
  destruct (N.ltb_spec (seen (Model_cursor m (origin m))) (Offer_seen offer)) as [|Hle].
  { intros [= <- <-]. left. split; [done|]. split; [by eexists|]. auto. }
  destruct (receive m (Offer_from offer) (Batch_events (Offer_batch offer))) as [m1 [rec|[]]] eqn:Hr.
  pose proof (receive_extends _ _ _ _ _ Hm Hr) as (Hm1 & Hx & _).
  cbn [Outbox_record_ack Model_Outbox].
  set (m2 := Model_record_ack m1 (Offer_from offer) (Offer_seen offer)).
  assert (Hm2 : history m2) by (by apply record_ack_history).
  destruct (outgoing_batch m2 (Offer_from offer) (Offer_seen offer) Hm2) as (b & k & Ho & Hb & _).
  rewrite Ho. cbn. intros [= <- <-]. right. split; [done|]. split; [done|]. split; [done|].
  exists m1, rec, b, k. split; [done|]. split; [done|]. split; [|done].
  change (origin m2) with (origin m1). by rewrite (x_origin _ _ _ Hx).
Qed.

Lemma accept_cases m offer answer m' r :
  history m -> Model_accept m offer answer = (m', r) ->
  (m' = m /\ (Answer_from answer <> Offer_to offer \/
              seen (Model_cursor m (origin m)) < Answer_seen answer)) \/
  (Answer_from answer = Offer_to offer /\ Answer_seen answer <= seen (Model_cursor m (origin m)) /\
   exists m1 rec,
     receive (E := Empty_set) m (Answer_from answer) (Batch_events (Answer_batch answer)) = (m1, Ok rec) /\
     m' = Model_record_ack m1 (Answer_from answer) (Answer_seen answer)).
Proof.
  intros Hm. unfold Model_accept, accept.
  destruct (bool_decide_reflect (Answer_from answer = Offer_to offer)) as [Hf|]; cbn [negb];
    [|intros [= <- _]; left; auto].
  cbn [Ledger_cursor Ledger_local Model_Ledger].
  destruct (N.ltb_spec (seen (Model_cursor m (origin m))) (Answer_seen answer)) as [|Hle];
    [intros [= <- _]; left; auto|].
  destruct (receive m (Answer_from answer) (Batch_events (Answer_batch answer))) as [m1 [rec|[]]] eqn:Hr.
  cbn. intros [= <- _]. right. split; [done|]. split; [done|]. exists m1, rec. done.
Qed.

(** *** The invariant *)

(** Everything a machine holds of another is the export of something that machine holds. *)
Definition exported (n : Nodes) (from to : Origin) (e : Event) : Prop :=
  exists e0, stored (events (n from)) e0 /\ Event_origin e0 = from /\ e = Event_export e0 to.

Record Inv (n : Nodes) : Prop := {
  i_member : forall o e, stored (events (n o)) e -> o ∈ machines;
  i_origin : forall o, origin (n o) = o;
  i_history : forall o, history (n o);
  i_view : forall o e, stored (events (n o)) e -> Event_origin e <> o -> exported n (Event_origin e) o e;
  i_acks : forall o p, o <> p -> ack_of (n o) p <= seen (Model_cursor (n p) o);
  i_answers : forall o e r, stored (events (n o)) e -> Event_origin e = o ->
    Body_request (Event_body e) = Some r ->
    exists q, Model_parent (n o) r = Parent_Present q /\ is_ok (change (n o) e) = true
}.

Definition offer_ok (n : Nodes) (offer : Offer) : Prop :=
  Offer_from offer <> Offer_to offer /\
  (forall e, e ∈ Batch_events (Offer_batch offer) -> exported n (Offer_from offer) (Offer_to offer) e) /\
  Offer_seen offer <= seen (Model_cursor (n (Offer_from offer)) (Offer_to offer)).

Definition answer_ok (n : Nodes) (offer : Offer) (answer : Answer) : Prop :=
  Answer_from answer = Offer_to offer /\ Offer_from offer <> Offer_to offer /\
  (forall e, e ∈ Batch_events (Answer_batch answer) -> exported n (Offer_to offer) (Offer_from offer) e) /\
  Answer_seen answer <= seen (Model_cursor (n (Offer_to offer)) (Offer_from offer)).

(** The machines of [n'] hold at least what those of [n] do. *)
Definition grows (n n' : Nodes) : Prop :=
  forall o id s, events (n o) !! id = Some s -> events (n' o) !! id = Some s.

Lemma grows_update n o m : (forall id s, events (n o) !! id = Some s -> events m !! id = Some s) ->
  grows n (update n o m).
Proof. intros H o' id s. unfold update. case_decide; [subst o'; apply H|done]. Qed.

Lemma grows_stored n n' o e : grows n n' -> stored (events (n o)) e -> stored (events (n' o)) e.
Proof. intros H (s & Hs & He). exists s. split; [by apply H|done]. Qed.

Lemma grows_exported n n' f t e : grows n n' -> exported n f t e -> exported n' f t e.
Proof. intros H (e0 & Hs & Ho & He). exists e0. eauto using grows_stored. Qed.

(** The last event a cursor has seen. *)
Lemma seen_event m o : history m -> seen (Model_cursor m o) <> 0 ->
  exists e, stored (events m) e /\ Event_origin e = o /\ seq_of e = seen (Model_cursor m o).
Proof.
  intros Hm Hne.
  assert (Hb : seen (Model_cursor m o) <= u64_max).
  { unfold Model_cursor in *. destruct (cursors m !! o) as [c|] eqn:Hc; cbn in *; [|lia].
    apply (h_cursor m Hm) in Hc. lia. }
  destruct (NonZeroU64_new_is_Some (seen (Model_cursor m o))) as [k Hk]; [lia|].
  apply NonZeroU64_new_Some in Hk.
  assert (His : is_Some (events m !! EventId_new o k)) by (apply (h_seen m Hm); cbn; lia).
  destruct His as [s Hs]. destruct (h_key m Hm _ _ Hs) as [Hid _]. exists (Sealed_event s).
  unfold Event_origin, seq_of. rewrite Hid. cbn. split; [|done]. exists s. by rewrite Hid.
Qed.

(** The cursor of an origin is the number of its events. *)
Lemma cursor_mono m m' o : history m -> history m' ->
  (forall id s, events m !! id = Some s -> events m' !! id = Some s) ->
  seen (Model_cursor m o) <= seen (Model_cursor m' o).
Proof.
  intros Hm Hm' Hold. destruct (N.eq_dec (seen (Model_cursor m o)) 0) as [->|Hne]; [lia|].
  destruct (seen_event m o Hm Hne) as (e & (s & Hs & <-) & Ho & <-). rewrite <- Ho.
  apply history_stored_seen; [done|]. exists s. split; [by apply Hold|done].
Qed.

Lemma present_mono m m' r q : history m -> history m' ->
  (forall id s, events m !! id = Some s -> events m' !! id = Some s) ->
  Model_parent m r = Parent_Present q -> Model_parent m' r = Parent_Present q.
Proof.
  intros Hm Hm' Hold. rewrite !Model_parent_present by done. intros ((s & Hs & He) & H).
  split; [|done]. exists s. split; [by apply Hold|done].
Qed.
Lemma update_same n o m : update n o m o = m.
Proof. unfold update. by rewrite decide_True. Qed.
Lemma update_other n o m o' : o' <> o -> update n o m o' = n o'.
Proof. intros H. unfold update. by rewrite decide_False. Qed.

(** An event a machine may come to hold. *)
Definition acquired (n : Nodes) (o : Origin) (s : Sealed) : Prop :=
  let e := Sealed_event s in
  (Event_origin e = o /\ is_ok (change (n o) e) = true /\
   forall r, Body_request (Event_body e) = Some r -> exists q, Model_parent (n o) r = Parent_Present q) \/
  (Event_origin e <> o /\ exported n (Event_origin e) o e).

Lemma Inv_update n o m :
  Inv n -> o ∈ machines -> history m -> origin m = o ->
  (forall id s, events (n o) !! id = Some s -> events m !! id = Some s) ->
  (forall id s, events m !! id = Some s -> events (n o) !! id = Some s \/ acquired n o s) ->
  (forall p, o <> p -> ack_of m p <= seen (Model_cursor (n p) o)) ->
  Inv (update n o m).
Proof.
  intros Hn Hmem Hm Ho Hold Hnew Hacks. pose proof (i_history n Hn) as Hh.
  pose proof (grows_update n o m Hold) as Hg. split.
  - intros o' e. unfold update. case_decide; [by intros _; subst o'|apply (i_member n Hn)].
  - intros o'. unfold update. case_decide; [congruence|apply (i_origin n Hn)].
  - intros o'. unfold update. case_decide; [done|apply Hh].
  - intros o' e He Hne. apply (grows_exported n); [done|].
    destruct (decide (o' = o)) as [->|Ho']; [|rewrite update_other in He by done; by apply (i_view n Hn)].
    rewrite update_same in He. destruct He as (s & Hs & <-).
    destruct (Hnew _ _ Hs) as [H|[[? _]|[_ H]]]; [|done|done].
    apply (i_view n Hn); [|done]. by exists s.
  - intros o' p Hne. destruct (decide (o' = o)) as [->|Ho'].
    + rewrite update_same, update_other by done. by apply Hacks.
    + rewrite (update_other _ _ _ o') by done. etrans; [by apply (i_acks n Hn)|].
      unfold update. case_decide; [subst p|done]. by apply cursor_mono.
  - intros o' e r He Hoe Hr. destruct (decide (o' = o)) as [->|Ho'].
    2: { rewrite update_other in * by done. by eapply (i_answers n Hn). }
    rewrite update_same in *. destruct He as (s & Hs & <-).
    destruct (Hnew _ _ Hs) as [H|[(_ & Hok & Hread)|[Hne _]]]; [| |done].
    + destruct (i_answers n Hn o (Sealed_event s) r) as (q & Hq & Hok); [by exists s|done|done|].
      assert (Hq' : Model_parent m r = Parent_Present q) by (eapply present_mono; [apply Hh|done..]).
      exists q. split; [done|]. exact (change_present _ _ _ _ _ Hr Hq Hq' Hok).
    + destruct (Hread r Hr) as (q & Hq).
      assert (Hq' : Model_parent m r = Parent_Present q) by (eapply present_mono; [apply Hh|done..]).
      exists q. split; [done|]. exact (change_present _ _ _ _ _ Hr Hq Hq' Hok).
Qed.

(** Receiving a batch of exports. *)
Lemma from_batch_acquired n o from es s :
  from <> o -> (forall e, e ∈ es -> exported n from o e) -> from_batch from es s -> acquired n o s.
Proof.
  intros Hne Hes (e & Hin & _ & <- & <-). right. split; [done|]. by apply Hes.
Qed.

Lemma Inv_receive n o from es m1 rec seen_ :
  Inv n -> o ∈ machines -> from <> o -> (forall e, e ∈ es -> exported n from o e) ->
  receive (E := Empty_set) (n o) from es = (m1, Ok rec) ->
  seen_ <= seen (Model_cursor (n from) o) ->
  Inv (update n o (Model_record_ack m1 from seen_)) /\
  grows n (update n o (Model_record_ack m1 from seen_)).
Proof.
  intros Hn Hmem Hne Hes Hr Hseen. pose proof (i_history n Hn o) as Hm.
  pose proof (receive_extends _ _ _ _ _ Hm Hr) as (Hm1 & Hx & _).
  split; [|apply grows_update, Hx]. apply Inv_update; [done|done|by apply record_ack_history| | | |].
  - change (origin m1 = o). rewrite (x_origin _ _ _ Hx). apply (i_origin n Hn).
  - apply Hx.
  - intros id s [H|H]%(x_new _ _ _ Hx); [by left|right]. by eapply from_batch_acquired.
  - intros p Hp. rewrite ack_of_record. unfold ack_of. rewrite !(x_acks _ _ _ Hx).
    pose proof (i_acks n Hn o p Hp) as Ha. unfold ack_of in Ha. case_decide; [|done]. subst p. lia.
Qed.

Lemma messages_grow n n' : Inv n -> Inv n' -> grows n n' ->
  (forall offer, offer_ok n offer -> offer_ok n' offer) /\
  (forall offer answer, answer_ok n offer answer -> answer_ok n' offer answer).
Proof.
  intros Hn Hn' Hg.
  assert (Hc : forall o p, seen (Model_cursor (n o) p) <= seen (Model_cursor (n' o) p)).
  { intros o p. apply cursor_mono; [apply (i_history n Hn)|apply (i_history n' Hn')|apply Hg]. }
  split.
  - intros offer (Hne & Hes & Hs). split; [done|]. split; [eauto using grows_exported|].
    etrans; [exact Hs|apply Hc].
  - intros offer answer (Hf & Hne & Hes & Hs). split; [done|]. split; [done|].
    split; [eauto using grows_exported|]. etrans; [exact Hs|apply Hc].
Qed.

Lemma own_exported n o m peer after k :
  history m -> origin m = o -> (forall e, stored (events m) e -> stored (events (n o)) e) ->
  forall e, e ∈ map (fun e => Event_export e peer) (take k (own_events m after)) -> exported n o peer e.
Proof.
  intros Hm Ho Hst e (e0 & -> & Hin)%list_elem_of_fmap. apply elem_of_take in Hin as (i & Hin & _).
  apply list_elem_of_lookup_2, own_events_stored in Hin as (Hs & He & _); [|done].
  exists e0. split; [by apply Hst|]. split; [congruence|done].
Qed.

Lemma Inv_same n o : Inv n -> o ∈ machines -> Inv (update n o (n o)) /\ grows n (update n o (n o)).
Proof.
  intros Hn Hmem. split; [|by apply grows_update]. apply Inv_update; [done|done| | |done|by left|].
  - apply (i_history n Hn).
  - apply (i_origin n Hn).
  - intros p. apply (i_acks n Hn).
Qed.

Lemma write_inv n o body :
  Inv n -> o ∈ machines -> answers_readable (n o) body ->
  Inv (update n o (Model_write (n o) body).1) /\ grows n (update n o (Model_write (n o) body).1).
Proof.
  intros Hn Hmem Hread. destruct (Model_write (n o) body) as [m r] eqn:Hw. cbn.
  apply write_extends in Hw as [Hm' Hx]; [|apply (i_history n Hn)].
  split; [|apply grows_update, Hx]. apply Inv_update; [done|done|done| |apply Hx| |].
  - rewrite (x_origin _ _ _ Hx). apply (i_origin n Hn).
  - intros id s [H|(Hos & Hb & Hok)]%(x_new _ _ _ Hx); [by left|right; left].
    rewrite (i_origin n Hn) in Hos. split; [done|]. split; [done|]. by rewrite Hb.
  - intros p Hp. unfold ack_of. rewrite (x_acks _ _ _ Hx). by apply (i_acks n Hn).
Qed.

Lemma offer_fresh n o peer offer : Inv n -> o <> peer -> Model_offer (n o) peer = Ok offer ->
  offer_ok n offer /\ Offer_from offer = o /\ Offer_to offer = peer.
Proof.
  intros Hn Hne Hoffer. pose proof (i_history n Hn o) as Hm. pose proof (i_origin n Hn o) as Ho.
  destruct (Model_offer_batch (n o) peer Hm) as (b & k & Hb & Hevs & _).
  rewrite Hoffer in Hb. injection Hb as ->. unfold offer_ok. cbn. rewrite Ho. split; [|done].
  split; [done|]. split; [|done]. rewrite Hevs. by apply own_exported.
Qed.

Lemma respond_inv n o offer m r :
  Inv n -> o ∈ machines -> offer_ok n offer -> Model_respond (n o) offer = (m, r) ->
  Inv (update n o m) /\ grows n (update n o m) /\
  forall answer, r = Ok answer -> answer_ok (update n o m) offer answer.
Proof.
  intros Hn Hmem (Hne & Hes & Hs) Hr.
  pose proof (i_history n Hn o) as Hm. pose proof (i_origin n Hn o) as Ho.
  destruct (respond_cases _ _ _ _ Hm Hr)
    as [(-> & [e ->] & _)|(Hto & Hfrom & _ & m1 & rec & b & k & Hrec & -> & -> & Hb)].
  { pose proof (Inv_same n o Hn Hmem) as [? ?]. done. }
  rewrite Ho in *. rewrite Hto in *.
  destruct (Inv_receive n o _ _ _ _ _ Hn Hmem Hne Hes Hrec Hs) as [Hn' Hg].
  split; [done|]. split; [done|]. intros answer [= <-].
  unfold answer_ok. cbn. split; [done|]. rewrite Hto. split; [done|].
  set (m2 := Model_record_ack m1 (Offer_from offer) (Offer_seen offer)) in *.
  pose proof (receive_extends _ _ _ _ _ Hm Hrec) as (Hm1 & Hx & Hseen). split.
  - rewrite Hb. apply own_exported with (m := m2); [by apply record_ack_history| |by rewrite update_same].
    change (origin m1 = o). by rewrite (x_origin _ _ _ Hx).
  - rewrite update_same, (Hseen _ eq_refl). done.
Qed.

Lemma accept_inv n offer answer m r :
  Inv n -> Offer_from offer ∈ machines -> answer_ok n offer answer ->
  Model_accept (n (Offer_from offer)) offer answer = (m, r) ->
  Inv (update n (Offer_from offer) m) /\ grows n (update n (Offer_from offer) m).
Proof.
  set (o := Offer_from offer). intros Hn Hmem (Hfrom & Hne & Hes & Hs) Ha. fold o in Hne, Hes, Hs.
  pose proof (i_history n Hn o) as Hm.
  destruct (accept_cases _ _ _ _ _ Hm Ha) as [[-> _]|(_ & _ & m1 & rec & Hrec & ->)];
    [by apply Inv_same|].
  rewrite Hfrom in *.
  exact (Inv_receive n o (Offer_to offer) _ _ _ (Answer_seen answer) Hn Hmem (not_eq_sym Hne) Hes Hrec Hs).
Qed.

Lemma network_inv n offers answers : network n offers answers ->
  Inv n /\ (forall offer, offer ∈ offers -> offer_ok n offer) /\
  (forall offer answer, (offer, answer) ∈ answers -> answer_ok n offer answer).
Proof.
  assert (Hstep : forall n n' (offers : list Offer) (answers : list (Offer * Answer)), Inv n -> Inv n' -> grows n n' ->
    (forall offer, offer ∈ offers -> offer_ok n offer) ->
    (forall offer answer, (offer, answer) ∈ answers -> answer_ok n offer answer) ->
    Inv n' /\ (forall offer, offer ∈ offers -> offer_ok n' offer) /\
    (forall offer answer, (offer, answer) ∈ answers -> answer_ok n' offer answer)).
  { intros n1 n2 ofs ans H1 H2 Hg Hof Han. destruct (messages_grow n1 n2 H1 H2 Hg) as [M1 M2].
    split; [done|]. split; intros *; [intros ?%Hof; by apply M1|intros ?%Han; by apply M2]. }
  induction 1 as [|n offers answers o body _ (Hn & Hof & Han) Hmem Hread
    |n offers answers o peer offer _ (Hn & Hof & Han) Hmem Hne Hoffer
    |n offers answers o offer m r _ (Hn & Hof & Han) Hmem Hin Hr
    |n offers answers offer answer m r _ (Hn & Hof & Han) Hmem Hin Ha].
  - split; [|split; intros *; by intros ?%elem_of_nil]. split.
    + by intros o e (s & Hs & _).
    + done.
    + intros o. apply history_new.
    + intros o e (s & Hs & _). done.
    + intros o p _. unfold ack_of, Model_cursor. cbn. rewrite !lookup_empty. cbn. lia.
    + intros o e r (s & Hs & _). done.
  - destruct (write_inv n o body Hn Hmem Hread). eauto.
  - split; [done|]. split; [|done]. intros offer' [->|Hin]%elem_of_cons; [|by apply Hof].
    by destruct (offer_fresh n o peer offer Hn Hne Hoffer).
  - destruct (respond_inv n o offer m r Hn Hmem (Hof _ Hin) Hr) as (Hn' & Hg & Hans).
    destruct (Hstep n _ offers answers Hn Hn' Hg Hof Han) as (_ & H1 & H2).
    split; [done|]. split; [done|]. destruct r as [answer|]; [|done].
    intros offer' answer' [[= -> ->]|Hin']%elem_of_cons; [by apply Hans|by apply H2].
  - destruct (accept_inv n offer answer m r Hn Hmem (Han _ _ Hin) Ha). eauto.
Qed.

(** *** Quiescence *)

Lemma i_seen n o p : Inv n -> o <> p -> seen (Model_cursor (n p) o) <= seen (Model_cursor (n o) o).
Proof.
  intros Hn Hne. pose proof (i_history n Hn p) as Hp. pose proof (i_history n Hn o) as Ho.
  destruct (N.eq_dec (seen (Model_cursor (n p) o)) 0) as [->|Hz]; [lia|].
  destruct (seen_event (n p) o Hp Hz) as (e & He & Hoe & <-).
  destruct (i_view n Hn p e He) as (e0 & He0 & Hoe0 & Heq); [congruence|].
  rewrite Hoe in He0, Hoe0. pose proof (history_stored_seen (n o) e0 Ho He0) as Hle. rewrite Hoe0 in Hle.
  assert (Hs : seq_of e = seq_of e0) by (rewrite Heq; by destruct (Event_export_cases e0 p) as [[-> _]|[-> _]]).
  by rewrite Hs.
Qed.

(** What a round that changes nothing shows. *)
Lemma quiet_round n o p : Inv n -> quiet n -> o ∈ machines -> p ∈ machines -> o <> p ->
  ack_of (n o) p = seen (Model_cursor (n p) o) /\
  exists b k m1 rec,
    Batch_events b = map (fun e => Event_export e p) (take k (own_events (n o) (ack_of (n o) p))) /\
    (forall e rest, own_events (n o) (ack_of (n o) p) = e :: rest ->
       is_ok (Sealed_new (Event_export e p)) = true -> (0 < k)%nat) /\
    receive (E := Empty_set) (n p) o (Batch_events b) = (m1, Ok rec) /\ events m1 = events (n p).
Proof.
  intros Hn Hq Hmo Hmp Hne. pose proof (i_history n Hn) as Hh. pose proof (i_origin n Hn) as Ho.
  specialize (Hq o p Hmo Hmp Hne). cbn [sync_rounds] in Hq. rewrite (Ho p) in Hq.
  destruct (Model_offer_batch (n o) p (Hh o)) as (b & k & Hoffer & Hevs & _ & Hk).
  rewrite Hoffer in Hq. rewrite (Ho o) in *.
  set (off := mkOffer o p (ack_of (n o) p) (seen (Model_cursor (n o) p)) b) in *.
  destruct (Model_respond (n p) off) as [p' r] eqn:Hr.
  apply respond_cases in Hr as [(-> & _ & Hbad)|(_ & _ & _ & m1 & rec & b' & k' & Hrec & -> & -> & _)];
    [rewrite (Ho p) in Hbad; cbn in Hbad; pose proof (i_seen n p o Hn (not_eq_sym Hne));
      destruct Hbad as [|[|]]; [done|done|lia]| |apply Hh].
  rewrite (Ho p) in Hq. set (ans := mkAnswer p (Received_seen rec) b' (Received_rejected rec)) in *.
  destruct (Model_accept (n o) off ans) as [o' r'] eqn:Ha.
  assert (Hstates : o' = n o /\ Model_record_ack m1 o (seen (Model_cursor (n o) p)) = n p).
  { destruct r' as [progress|]; [destruct (negb (Progress_more progress))|]; cbn in Hq; by injection Hq. }
  destruct Hstates as [-> Hp]. cbn [Offer_from Offer_seen Offer_batch off] in Hrec.
  pose proof (receive_extends _ _ _ _ _ (Hh p) Hrec) as (_ & _ & Hseen). specialize (Hseen _ eq_refl).
  assert (Hc : Received_seen rec = seen (Model_cursor (n p) o)) by (rewrite Hseen, <- Hp; done).
  split.
  - apply N.le_antisymm; [by apply (i_acks n Hn)|].
    pose proof (i_seen n o p Hn Hne) as Hle.
    apply accept_cases in Ha as [[_ Hbad]|(_ & _ & m2 & rec' & Hrec' & Hno)]; [| |apply Hh].
    + rewrite (Ho o) in Hbad. destruct Hbad as [|Hlt]; [done|]. unfold ans in Hlt. cbn [Answer_seen] in Hlt. lia.
    + rewrite Hno, ack_of_record. cbn [Answer_from ans]. rewrite decide_True by done. cbn [Answer_seen].
      pose proof (receive_extends _ _ _ _ _ (Hh o) Hrec') as (Hm2 & Hx & _).
      rewrite (x_origin _ _ _ Hx), (Ho o).
      pose proof (cursor_mono (n o) m2 o (Hh o) Hm2 (x_old _ _ _ Hx)).
      unfold ans. cbn [Answer_seen]. lia.
  - exists b, k, m1, rec. split; [done|]. split; [done|]. split; [done|]. by rewrite <- Hp.
Qed.

Lemma next_clock n o p e :
  Inv n -> o <> p -> stored (events (n o)) e -> Event_origin e = o ->
  seq_of e = seen (Model_cursor (n p) o) + 1 ->
  Cursor_clock (Model_cursor (n p) o) < Event_clock e.
Proof.
  intros Hn Hne He Ho Hseq. pose proof (i_history n Hn) as Hh.
  destruct (N.eq_dec (seen (Model_cursor (n p) o)) 0) as [Hz|Hz].
  - pose proof (Event_bounds e). unfold Model_cursor in *.
    destruct (cursors (n p) !! o) as [c|] eqn:Hc; cbn in *; [|lia].
    apply (h_cursor _ (Hh p)) in Hc. lia.
  - destruct (seen_event (n p) o (Hh p) Hz) as (e' & He' & Ho' & Hs').
    destruct (i_view n Hn p e' He') as (e0 & He0 & Hoe0 & Heq); [congruence|].
    rewrite Ho' in He0, Hoe0.
    assert (H0 : seq_of e' = seq_of e0 /\ Event_clock e' = Event_clock e0).
    { rewrite Heq. by destruct (Event_export_cases e0 p) as [[-> _]|[-> _]]. }
    destruct (h_clock _ (Hh p) e' He') as [_ Hc]. rewrite Ho' in Hc. rewrite <- Hc by done.
    rewrite (proj2 H0). apply (h_inc _ (Hh o)); [done|done|congruence|]. lia.
Qed.

(** The next event a peer misses is one it accepts, once it holds what the event answers. *)
Lemma next_admitted n o p e :
  Inv n -> o <> p -> stored (events (n o)) e -> Event_origin e = o ->
  seq_of e = seen (Model_cursor (n p) o) + 1 ->
  is_ok (Sealed_new (Event_export e p)) = true ->
  (forall q, stored (events (n o)) q -> Event_clock q < Event_clock e -> visible q p ->
     Event_body q <> Body_Omitted -> stored (events (n p)) q) ->
  exists s a, Sealed_new (Event_export e p) = Ok s /\
    admit_sealed (E := Empty_set) (n p) s = Ok (Decision_Append a).
Proof.
  intros Hn Hne He Ho Hseq Hfits Hparents. pose proof (i_history n Hn) as Hh.
  destruct (Sealed_new (Event_export e p)) as [s|] eqn:Hs; [|done]. exists s.
  pose proof (Sealed_new_event _ _ Hs) as Hse.
  assert (Hchange : exists ch, change (n p) (Sealed_event s) = Ok ch).
  { rewrite Hse. destruct (Event_export_cases e p) as [[-> Hvis]|[-> _]]; [|by eexists].
    destruct (Body_request (Event_body e)) as [r|] eqn:Hr.
    2: { pose proof (change_free (n p) e Hr) as H. destruct (change (n p) e); [eauto|done]. }
    destruct (i_answers n Hn o e r He Ho Hr) as (q & Hq & Hok).
    destruct (change_thread _ _ _ _ Hr Hq Hok) as [Hclock Haud].
    assert (Hqp : Model_parent (n p) r = Parent_Present q).
    { apply Model_parent_present in Hq as (Hqs & Hid & Hb); [|done].
      apply Model_parent_present; [done|]. split; [|done]. apply Hparents; [done..| |done].
      intros aud. rewrite Haud. apply Hvis. }
    pose proof (change_present _ _ _ _ _ Hr Hq Hqp Hok) as H. destruct (change (n p) e); [eauto|done]. }
  assert (Hexp : Event_id (Event_export e p) = Event_id e /\ Event_clock (Event_export e p) = Event_clock e).
  { by destruct (Event_export_cases e p) as [[-> _]|[-> _]]. }
  destruct Hexp as [Hid Hclk]. destruct Hchange as [ch Hch]. eexists. split; [done|].
  apply admit_append_iff. exists (Model_cursor (n p) o), ch. rewrite Hse in *. unfold Event_origin, seq_of in *.
  rewrite Hid, Hclk. split; [by rewrite Ho|]. split; [done|]. split; [|done].
  by apply next_clock.
Qed.

(** ** What has been exchanged when exchanging changes nothing *)

(** The first event of the batch that is missing goes in. *)
Lemma receive_first m from e es m' rec s a :
  history m -> from <> origin m -> Event_origin e = from ->
  Sealed_new e = Ok s -> admit_sealed (E := Empty_set) m s = Ok (Decision_Append a) ->
  receive (E := Empty_set) m from (e :: es) = (m', Ok rec) -> events m' !! Event_id e = Some s.
Proof.
  intros Hm Hne Ho Hs Ha. pose proof (Sealed_new_event _ _ Hs) as Hse.
  unfold receive. cbn [receive_loop].
  assert (Hone : receive_one (E := Empty_set) m from e = (Model_commit m s a, Ok true)).
  { unfold receive_one. rewrite bool_decide_eq_true_2 by done.
    rewrite bool_decide_eq_false_2 by done. cbn [negb orb]. rewrite Hs. cbn [map_err]. rewrite Ha. done. }
  rewrite Hone. destruct (receive_loop (Model_commit m s a) from es _) as [m1 [[k rej]|[]]] eqn:Hl.
  apply receive_loop_extends in Hl as [_ Hx]; [|apply history_commit; by rewrite ?Hse].
  intros [= <- _]. apply (x_old _ _ _ Hx).
  destruct (Model_commit_history m s a) as (_ & -> & _). rewrite <- Hse. by rewrite lookup_insert_eq.
Qed.

(** An encoder under which an event without its content is no longer than with it. *)
Definition omitted_fits : Prop :=
  forall e, is_ok (Sealed_new e) = true -> is_ok (Sealed_new (Event_omitted e)) = true.

(** Below a cursor everything is there. *)
Lemma held_below n o p e :
  Inv n -> o <> p -> stored (events (n o)) e -> Event_origin e = o ->
  seq_of e <= seen (Model_cursor (n p) o) -> stored (events (n p)) (Event_export e p).
Proof.
  intros Hn Hne (s & Hs & Hse) Ho Hle. pose proof (i_history n Hn) as Hh. rewrite <- Ho in Hle.
  destruct (proj2 (h_seen _ (Hh p) (Event_id e)) Hle) as [s' Hs'].
  destruct (h_key _ (Hh p) _ _ Hs') as [Hid _]. set (e' := Sealed_event s') in *.
  assert (He' : stored (events (n p)) e') by (exists s'; by rewrite Hid).
  assert (Ho' : Event_origin e' = o) by (unfold Event_origin in *; by rewrite Hid).
  destruct (i_view n Hn p e' He') as (e0 & (s0 & Hs0 & Hse0) & _ & Heq); [congruence|].
  assert (Hid0 : Event_id e0 = Event_id e).
  { rewrite <- Hid, Heq. by destruct (Event_export_cases e0 p) as [[-> _]|[-> _]]. }
  rewrite Ho', Hid0, Hs in Hs0. injection Hs0 as ->. assert (e0 = e) as -> by congruence.
  by rewrite <- Heq.
Qed.

(** Nothing can be missing once what is older is there: a round would bring it. *)
Lemma held_next n o p e :
  Inv n -> quiet n -> p ∈ machines -> o <> p -> stored (events (n o)) e -> Event_origin e = o ->
  seq_of e = seen (Model_cursor (n p) o) + 1 ->
  is_ok (Sealed_new (Event_export e p)) = true ->
  (forall q, stored (events (n o)) q -> Event_clock q < Event_clock e -> visible q p ->
     Event_body q <> Body_Omitted -> stored (events (n p)) q) ->
  stored (events (n p)) (Event_export e p).
Proof.
  intros Hn Hq Hmp Hne He Ho Hseq Hfits Hready.
  destruct (next_admitted n o p e Hn Hne He Ho Hseq Hfits Hready) as (s & a & Hs & Ha).
  destruct (quiet_round n o p Hn Hq (i_member n Hn _ _ He) Hmp Hne) as (Hack & b & k & m1 & rec & Hb & Hk & Hrec & Hev).
  destruct (own_events_next (n o) e (i_history n Hn o) He) as [rest Hrest]; [by rewrite (i_origin n Hn)|].
  assert (Hown : own_events (n o) (ack_of (n o) p) = e :: rest).
  { rewrite Hack. rewrite <- Hrest. f_equal. lia. }
  specialize (Hk _ _ Hown Hfits). rewrite Hown in Hb. destruct k as [|k]; [lia|].
  cbn [take map] in Hb. rewrite Hb in Hrec.
  assert (Hid : Event_id (Event_export e p) = Event_id e).
  { by destruct (Event_export_cases e p) as [[-> _]|[-> _]]. }
  assert (Hin : events (n p) !! Event_id (Event_export e p) = Some s).
  { rewrite <- Hev. eapply receive_first; [apply (i_history n Hn p)| | |exact Hs|exact Ha|exact Hrec].
    - by rewrite (i_origin n Hn).
    - unfold Event_origin. by rewrite Hid. }
  exists s. split; [done|]. by apply Sealed_new_event.
Qed.

Lemma quiet_holds n : omitted_fits -> Inv n -> quiet n ->
  forall clock o p e, Event_clock e < clock -> p ∈ machines -> o <> p ->
    stored (events (n o)) e -> Event_origin e = o -> stored (events (n p)) (Event_export e p).
Proof.
  intros Hfit Hn Hq clock. pose proof (i_history n Hn) as Hh.
  induction (N.lt_wf_0 clock) as [clock _ IH]. intros o p e Hlt Hmp Hne He Ho.
  assert (Hready : forall q, stored (events (n o)) q -> Event_clock q < Event_clock e -> visible q p ->
    Event_body q <> Body_Omitted -> stored (events (n p)) q).
  { intros q Hqs Hqc Hvis Hb.
    destruct (decide (Event_origin q = o)) as [Hqo|Hqo].
    - pose proof (IH (Event_clock e) Hlt o p q Hqc Hmp Hne Hqs Hqo) as H.
      destruct (Event_export_cases q p) as [[Heq _]|[_ Hnv]]; [by rewrite Heq in H|done].
    - destruct (i_view n Hn o q Hqs Hqo) as (q0 & Hq0 & Hq0o & Heq).
      destruct (Event_export_cases q0 o) as [[He0 _]|[He0 _]]; rewrite He0 in Heq; [|by rewrite Heq in Hb].
      subst q0. destruct (decide (Event_origin q = p)) as [Hqp|Hqp]; [by rewrite <- Hqp|].
      pose proof (IH (Event_clock e) Hlt (Event_origin q) p q Hqc Hmp Hqp Hq0 eq_refl) as H.
      destruct (Event_export_cases q p) as [[Hx _]|[_ Hnv]]; [by rewrite Hx in H|done]. }
  assert (Hfits : is_ok (Sealed_new (Event_export e p)) = true).
  { destruct He as (s & Hs & Hse). destruct (h_key _ (Hh o) _ _ Hs) as [_ Hok]. rewrite Hse in Hok.
    destruct (Event_export_cases e p) as [[-> _]|[-> _]]; [|apply Hfit]; by rewrite Hok. }
  destruct (N.le_gt_cases (seq_of e) (seen (Model_cursor (n p) o))) as [Hle|Hgt]; [by eapply held_below|].
  destruct (N.eq_dec (seq_of e) (seen (Model_cursor (n p) o) + 1)) as [Hseq|Hseq]; [by eapply held_next|].
  exfalso. pose proof (history_stored_seen (n o) e (Hh o) He) as Hse. rewrite Ho in Hse.
  pose proof (nz_bounds (EventId_seq (Event_id e))) as Hb. fold (seq_of e) in Hb.
  destruct (NonZeroU64_new_is_Some (seen (Model_cursor (n p) o) + 1)) as [k Hk]; [lia|].
  apply NonZeroU64_new_Some in Hk.
  destruct (proj2 (h_seen _ (Hh o) (EventId_new o k))) as [s1 Hs1]; [cbn; lia|].
  destruct (h_key _ (Hh o) _ _ Hs1) as [Hid _]. set (e1 := Sealed_event s1) in *.
  assert (He1 : stored (events (n o)) e1) by (exists s1; by rewrite Hid).
  assert (Ho1 : Event_origin e1 = o) by (unfold Event_origin; by rewrite Hid).
  assert (Hs1' : seq_of e1 = seen (Model_cursor (n p) o) + 1) by (unfold seq_of; by rewrite Hid).
  assert (Hc1 : Event_clock e1 < Event_clock e) by (apply (h_inc _ (Hh o)); [done|done|congruence|lia]).
  pose proof (IH (Event_clock e) Hlt o p e1 Hc1 Hmp Hne He1 Ho1) as H.
  apply (history_stored_seen (n p) _ (Hh p)) in H. revert H.
  destruct (Event_export_cases e1 p) as [[-> _]|[-> _]]; cbn; rewrite ?Ho1; unfold Event_origin, seq_of in *;
    cbn; rewrite ?Hid; cbn; lia.
Qed.

(** ** Exchanging settles *)

(** What a machine makes of a message of [from]: nothing goes back, and if anything changes then
    something of [from] moves on. *)
Record moves (from : Origin) (m m' : Model) : Prop := {
  v_cursor : forall o, seen (Model_cursor m o) <= seen (Model_cursor m' o);
  v_local : seen (Model_cursor m' (origin m)) = seen (Model_cursor m (origin m));
  v_origin : origin m' = origin m;
  v_acks : forall o, ack_of m o <= ack_of m' o /\ (is_Some (acks m !! o) -> is_Some (acks m' !! o));
  v_some : m' = m \/ seen (Model_cursor m from) < seen (Model_cursor m' from) \/
    ack_of m from < ack_of m' from \/ (acks m !! from = None /\ is_Some (acks m' !! from))
}.

Lemma moves_refl from m : moves from m m.
Proof. split; auto; lia. Qed.

Lemma moves_trans from m1 m2 m3 : moves from m1 m2 -> moves from m2 m3 -> moves from m1 m3.
Proof.
  intros [C1 L1 O1 A1 S1] [C2 L2 O2 A2 S2]. rewrite O1 in L2.
  pose proof (C1 from). pose proof (C2 from). destruct (A1 from) as [? Hs1], (A2 from) as [? Hs2].
  split; [intros o; etrans; eauto|congruence|congruence| |].
  - intros o. destruct (A1 o) as [? ?], (A2 o) as [? ?]. split; [lia|auto].
  - destruct S1 as [->|[|[|[? ?]]]]; [exact S2|right; left; lia|right; right; left; lia|].
    right. right. right. auto.
Qed.

Lemma moves_receive from m es m' rec :
  history m -> from <> origin m -> receive (E := Empty_set) m from es = (m', Ok rec) -> moves from m m'.
Proof.
  intros Hm Hne Hr. pose proof (receive_extends _ _ _ _ _ Hm Hr) as (Hm' & Hx & _).
  assert (Hloop : forall es m k m' k' rej, receive_loop (E := Empty_set) m from es k = (m', Ok (k', rej)) ->
    (forall o, o <> from -> Model_cursor m' o = Model_cursor m o) /\
    (m' = m \/ seen (Model_cursor m from) < seen (Model_cursor m' from))).
  { clear. induction es as [|e es IH]; intros m k m' k' rej; cbn [receive_loop].
    { intros [= <- _ _]. auto. }
    destruct (receive_one m from e) as [m1 [[]|f]] eqn:Hone.
    - intros [Ho Hs]%IH.
      assert (Hc0 : Ledger_cursor (E := Empty_set) m from = Ok (Model_cursor m from)) by done.
      destruct (receive_one_cursor _ _ _ _ _ Hc0 Hone) as (Hseq & _ & Hc & Hother & _).
      change (Ledger_cursor m1 from) with (Ok (E := Empty_set) (Model_cursor m1 from)) in Hc.
      injection Hc as Hc. split.
      + intros o Hne. rewrite (Ho o Hne). specialize (Hother o Hne).
        change (Ok (E := Empty_set) (Model_cursor m1 o) = Ok (Model_cursor m o)) in Hother.
        by injection Hother.
      + right. assert (seen (Model_cursor m1 from) = seen (Model_cursor m from) + 1) as Hs1.
        { rewrite Hc. cbn. by rewrite <- Hseq. }
        destruct Hs as [->|]; lia.
    - apply receive_one_false in Hone as [-> _]. apply IH.
    - apply receive_one_refused in Hone as [->|[[] _]]. destruct f as [[]| |]; intros [= <- _ _]; auto. }
  unfold receive in Hr. destruct (receive_loop m from es 0) as [m1 [[k rej]|[]]] eqn:Hl.
  injection Hr as <- _. destruct (Hloop _ _ _ _ _ _ Hl) as [Ho Hs].
  split; [|by rewrite Ho by done|apply Hx| |tauto].
  - intros o. apply cursor_mono; [done..|apply Hx].
  - intros o. unfold ack_of. by rewrite (x_acks _ _ _ Hx).
Qed.

Lemma moves_record from m k : moves from m (Model_record_ack m from k).
Proof.
  split; [done|done|done| |].
  - intros o. rewrite ack_of_record. cbn. split; [case_decide; [subst o; lia|done]|].
    intros Ho. destruct (decide (o = from)) as [->|]; [rewrite lookup_insert_eq; eauto|].
    by rewrite lookup_insert_ne.
  - destruct (acks m !! from) as [a|] eqn:Ha.
    2: { right. right. right. cbn. rewrite lookup_insert_eq. eauto. }
    rewrite ack_of_record, decide_True by done. set (b := N.min _ _).
    destruct (N.le_gt_cases b (ack_of m from)); [left|right; right; left; lia].
    assert (Hack : ack_of m from = a) by (unfold ack_of; by rewrite Ha).
    pose proof (ack_of_record m from k from) as Hr. unfold ack_of at 1, Model_record_ack in Hr. cbn in Hr.
    rewrite lookup_insert_eq, decide_True in Hr by done. cbn in Hr. fold b in Hr.
    unfold Model_record_ack. rewrite Hr, N.max_l, Hack, insert_id by done. by destruct m.
Qed.

Lemma respond_moves m offer m' r :
  history m -> Model_respond m offer = (m', r) -> moves (Offer_from offer) m m'.
Proof.
  intros Hm Hr. destruct (respond_cases _ _ _ _ Hm Hr)
    as [(-> & _)|(_ & Hfrom & _ & m1 & rec & b & k & Hrec & -> & _)]; [apply moves_refl|].
  eapply moves_trans; [by eapply moves_receive|apply moves_record].
Qed.

Lemma accept_moves m offer answer m' r :
  history m -> Offer_to offer <> origin m -> Model_accept m offer answer = (m', r) ->
  moves (Offer_to offer) m m'.
Proof.
  intros Hm Hne Ha. destruct (accept_cases _ _ _ _ _ Hm Ha)
    as [(-> & _)|(Hfrom & _ & m1 & rec & Hrec & ->)]; [apply moves_refl|].
  rewrite Hfrom in *. eapply moves_trans; [by eapply moves_receive|apply moves_record].
Qed.

(** A round is an offer, an answer to it and its acceptance. *)
Lemma round_spec n o p : Inv n -> o ∈ machines -> p ∈ machines -> o <> p ->
  Inv (round n o p) /\ grows n (round n o p) /\
  moves o (n p) (round n o p p) /\ moves p (n o) (round n o p o).
Proof.
  intros Hn Hmo Hmp Hne. pose proof (i_history n Hn) as Hh. pose proof (i_origin n Hn) as Ho.
  unfold round. cbn [sync_rounds]. rewrite (Ho p), update_same.
  rewrite update_other, update_same by done.
  destruct (Model_offer_batch (n o) p (Hh o)) as (b & k & Hoffer & _). rewrite Hoffer.
  destruct (offer_fresh n o p _ Hn Hne Hoffer) as (Hok & Hf & Ht). set (offer := mkOffer _ _ _ _ _) in *.
  destruct (Model_respond (n p) offer) as [p' r] eqn:Hr.
  destruct (respond_inv n p offer p' r Hn Hmp Hok Hr) as (Hn1 & Hg1 & Hans).
  pose proof (respond_moves _ _ _ _ (Hh p) Hr) as Hv. rewrite Hf in Hv.
  destruct r as [answer|err]; cbn [fst snd].
  - destruct (Model_accept (n o) offer answer) as [o' r'] eqn:Ha.
    assert (Hfst : forall progress, (if negb (Progress_more progress) then (o', p', Ok (Some progress))
      else (o', p', Ok (E := Rejection) (Some progress))).1 = (o', p')) by (by intros progress; case_match).
    assert (Hs : match r' with
      | Ok progress => if negb (Progress_more progress) then (o', p', Ok (Some progress))
          else (o', p', Ok (Some progress))
      | Err e => (o', p', Err e) end.1 = (o', p')) by (destruct r'; [apply Hfst|done]).
    rewrite Hs. cbn [fst snd].
    assert (Hn1o : update n p p' o = n o) by (by apply update_other).
    destruct (accept_inv (update n p p') offer answer o' r') as [Hn2 Hg2]; [done| |by apply Hans| |].
    + by rewrite Hf.
    + by rewrite Hf, Hn1o.
    + rewrite Hf in *. split; [done|]. split; [intros x id s H; by apply Hg2, Hg1|]. split; [done|].
      rewrite <- Ht. eapply accept_moves; [apply Hh| |exact Ha]. by rewrite Ht, (Ho o).
  - destruct (Inv_same (update n p p') o Hn1 Hmo) as [Hn2 Hg2]. rewrite update_other in * by done.
    split; [done|]. split; [intros x id s H; by apply Hg2, Hg1|]. split; [done|apply moves_refl].
Qed.

(** *** What two machines still owe each other *)

Lemma sum_list_with_le {A} (f g : A -> nat) l :
  (forall x, f x <= g x)%nat -> (sum_list_with f l <= sum_list_with g l)%nat.
Proof. intros H. induction l as [|x l IH]; cbn; [lia|]. specialize (H x). lia. Qed.

Lemma sum_list_with_lt {A} (f g : A -> nat) l x :
  (forall x, f x <= g x)%nat -> x ∈ l -> (f x < g x)%nat -> (sum_list_with f l < sum_list_with g l)%nat.
Proof.
  intros H Hin Hx. induction l as [|y l IH]; [by apply elem_of_nil in Hin|]. cbn.
  apply elem_of_cons in Hin as [<-|Hin].
  - pose proof (sum_list_with_le f g l H). lia.
  - specialize (H y). specialize (IH Hin). lia.
Qed.

Definition own (n : Nodes) (o : Origin) : N := seen (Model_cursor (n o) o).

Definition owed (n : Nodes) (pair : Origin * Origin) : nat :=
  let '(o, p) := pair in
  if decide (o = p) then 0%nat
  else (N.to_nat (own n o - seen (Model_cursor (n p) o)) + N.to_nat (own n o - ack_of (n o) p) +
        match acks (n o) !! p with Some _ => 0 | None => 1 end)%nat.

Definition all_owed (n : Nodes) : nat := sum_list_with (owed n) (list_prod machines machines).

Definition moved (n n' : Nodes) : Prop := forall o, exists from, moves from (n o) (n' o).

Lemma owed_le n n' pair : Inv n -> moved n n' -> (owed n' pair <= owed n pair)%nat.
Proof.
  intros Hn Hv. destruct pair as [o p]. unfold owed, own. case_decide; [done|].
  destruct (Hv o) as (f & Vo), (Hv p) as (g & Vp).
  pose proof (v_local _ _ _ Vo) as Hl. rewrite (i_origin n Hn) in Hl.
  pose proof (v_cursor _ _ _ Vp o). destruct (v_acks _ _ _ Vo p) as [? Hsome].
  rewrite Hl. destruct (acks (n o) !! p), (acks (n' o) !! p); try lia.
  destruct (Hsome (ex_intro _ _ eq_refl)). done.
Qed.

(** If something moved, one of the two owes less. *)
Lemma owed_lt n n' o p : Inv n -> Inv n' -> moved n n' -> o <> p ->
  moves o (n p) (n' p) ->
  n' p = n p \/ (owed n' (o, p) < owed n (o, p))%nat \/ (owed n' (p, o) < owed n (p, o))%nat.
Proof.
  intros Hn Hn' Hv Hne Vp. destruct (v_some _ _ _ Vp) as [|Hs]; [by left|right].
  pose proof (owed_le n n' (o, p) Hn Hv) as H1. pose proof (owed_le n n' (p, o) Hn Hv) as H2.
  unfold owed, own in *. rewrite !decide_False in * by done.
  destruct (Hv o) as (f & Vo). pose proof (v_local _ _ _ Vo) as Hlo. pose proof (v_local _ _ _ Vp) as Hlp.
  rewrite (i_origin n Hn) in Hlo, Hlp. rewrite Hlo, Hlp in *.
  pose proof (i_seen n' o p Hn' Hne) as Hb. pose proof (i_acks n' Hn' p o (not_eq_sym Hne)) as Ha.
  pose proof (i_seen n' p o Hn' (not_eq_sym Hne)) as Hb'. rewrite Hlo in Hb. rewrite Hlp in Hb'.
  pose proof (v_cursor _ _ _ Vp o). pose proof (v_cursor _ _ _ Vo p). destruct (v_acks _ _ _ Vo p) as [? So].
  destruct (v_acks _ _ _ Vp o) as [? Sp].
  destruct Hs as [Hlt|[Hlt|[Hnone [x Hx]]]]; [left|right|right].
  - destruct (acks (n o) !! p), (acks (n' o) !! p); try lia. by destruct (So (ex_intro _ _ eq_refl)).
  - destruct (acks (n p) !! o), (acks (n' p) !! o); try lia. by destruct (Sp (ex_intro _ _ eq_refl)).
  - rewrite Hnone, Hx in *. lia.
Qed.

Lemma round_moved n o p : Inv n -> o ∈ machines -> p ∈ machines -> o <> p -> moved n (round n o p).
Proof.
  intros Hn Hmo Hmp Hne x. destruct (round_spec n o p Hn Hmo Hmp Hne) as (_ & _ & Vp & Vo).
  destruct (decide (x = o)) as [->|Hxo]; [by exists p|].
  destruct (decide (x = p)) as [->|Hxp]; [by exists o|].
  exists x. unfold round. rewrite !update_other by done. apply moves_refl.
Qed.

Lemma exchange_owed n n' : Inv n -> exchange n n' -> Inv n' /\ grows n n' /\ (all_owed n' < all_owed n)%nat.
Proof.
  intros Hn [o p Hmo Hmp Hne Hdiff ->].
  destruct (round_spec n o p Hn Hmo Hmp Hne) as (Hn' & Hg & Vp & Vo). split; [done|]. split; [done|].
  pose proof (round_moved n o p Hn Hmo Hmp Hne) as Hv.
  set (n' := round n o p) in *.
  assert (Hin : (o, p) ∈ list_prod machines machines /\ (p, o) ∈ list_prod machines machines)
    by (rewrite !list_elem_of_In, !in_prod_iff, <- !list_elem_of_In; done).
  assert (Hlt : (owed n' (o, p) < owed n (o, p))%nat \/ (owed n' (p, o) < owed n (p, o))%nat).
  { destruct (owed_lt n n' o p Hn Hn' Hv Hne Vp) as [Hp|]; [|done].
    destruct (owed_lt n n' p o Hn Hn' Hv (not_eq_sym Hne) Vo) as [Ho|]; [|tauto].
    destruct Hdiff. unfold n', round in Hp, Ho. rewrite update_same in Ho.
    rewrite update_other, update_same in Hp by done. cbn in Hp, Ho.
    rewrite (surjective_pairing (sync_rounds _ _ _ _).1). by f_equal. }
  assert (Hle : forall pair, (owed n' pair <= owed n pair)%nat) by (intros pair; by apply owed_le).
  destruct Hlt as [Hlt|Hlt]; [apply (sum_list_with_lt _ _ _ (o, p))|apply (sum_list_with_lt _ _ _ (p, o))];
    tauto.
Qed.

Lemma exchange_terminates_inv n : Inv n -> Acc (fun n2 n1 => exchange n1 n2) n.
Proof.
  remember (all_owed n) as k eqn:Hk. revert n Hk. induction (lt_wf k) as [k _ IH]. intros n -> Hn.
  constructor. intros n' Hx. destruct (exchange_owed n n' Hn Hx) as (Hn' & _ & Hlt). by eapply IH.
Qed.

(** A round that changes nothing is told by the debts. *)
Lemma round_settled n o p : Inv n -> o ∈ machines -> p ∈ machines -> o <> p ->
  (sync_rounds (n o) (n p) 1 None).1 = (n o, n p) \/ exchange n (round n o p).
Proof.
  intros Hn Hmo Hmp Hne. destruct (round_spec n o p Hn Hmo Hmp Hne) as (Hn' & _ & Vp & Vo).
  pose proof (round_moved n o p Hn Hmo Hmp Hne) as Hv.
  assert (Hafter : (sync_rounds (n o) (n p) 1 None).1 = (round n o p o, round n o p p)).
  { unfold round. rewrite update_same, update_other, update_same by done. apply surjective_pairing. }
  destruct (owed_lt n _ o p Hn Hn' Hv Hne Vp) as [Hp|Hlt].
  - destruct (owed_lt n _ p o Hn Hn' Hv (not_eq_sym Hne) Vo) as [Ho|Hlt]; [left; congruence|right].
    apply (exchange_round n _ o p); [done..| |done]. intros Heq. rewrite Hafter in Heq.
    injection Heq as Ho Hp'. unfold owed, own in Hlt. rewrite Ho, Hp' in Hlt. lia.
  - right. apply (exchange_round n _ o p); [done..| |done]. intros Heq. rewrite Hafter in Heq.
    injection Heq as Ho Hp. unfold owed, own in Hlt. rewrite Ho, Hp in Hlt. lia.
Qed.

Lemma quiet_or_exchange n : Inv n -> quiet n \/ exists n', exchange n n'.
Proof.
  intros Hn.
  assert (H : forall l : list (Origin * Origin), (forall o p, (o, p) ∈ l -> o ∈ machines /\ p ∈ machines) ->
    (forall o p, (o, p) ∈ l -> o <> p -> (sync_rounds (n o) (n p) 1 None).1 = (n o, n p)) \/
    exists n', exchange n n').
  { induction l as [|[o p] l IH]; intros Hl; [left; by intros ? ? ?%elem_of_nil|].
    destruct IH as [IH|IH]; [intros; apply Hl; by right| |by right].
    destruct (Hl o p) as [Hmo Hmp]; [left|]. destruct (decide (o = p)) as [->|Hne].
    - left. intros o' p' [[= -> ->]|Hin]%elem_of_cons; [done|by apply IH].
    - destruct (round_settled n o p Hn Hmo Hmp Hne) as [Hs|Hs]; [left|right; eauto].
      intros o' p' [[= -> ->]|Hin]%elem_of_cons; [done|by apply IH]. }
  assert (Hpairs : forall o p, (o, p) ∈ list_prod machines machines <-> o ∈ machines /\ p ∈ machines).
  { intros o p. by rewrite list_elem_of_In, in_prod_iff, <- !list_elem_of_In. }
  destruct (H (list_prod machines machines)) as [Hq|Hx]; [|left|by right].
  - intros o p. apply Hpairs.
  - intros o p Hmo Hmp. apply Hq. by apply Hpairs.
Qed.

Lemma reaches_quiet n : Inv n -> exists n', rtc exchange n n' /\ quiet n' /\ Inv n' /\ grows n n'.
Proof.
  intros Hn. induction (exchange_terminates_inv n Hn) as [n _ IH].
  destruct (quiet_or_exchange n Hn) as [Hq|[n1 Hx]].
  - exists n. split; [apply rtc_refl|]. split; [done|]. split; [done|]. by intros o id s.
  - destruct (exchange_owed n n1 Hn Hx) as (Hn1 & Hg & _).
    destruct (IH n1 Hx Hn1) as (n2 & Hr & Hq & Hn2 & Hg2). exists n2.
    split; [by eapply rtc_l|]. split; [done|]. split; [done|]. intros o id s H. by apply Hg2, Hg.
Qed.

(** *** The rounds as messages *)

Lemma stored_at m id s : history m -> events m !! id = Some s ->
  exists e, stored (events m) e /\ Event_origin e = EventId_origin id.
Proof.
  intros Hm Hs. destruct (h_key m Hm _ _ Hs) as [Hid _]. exists (Sealed_event s).
  unfold Event_origin. rewrite Hid. split; [|done]. exists s. by rewrite Hid.
Qed.

(** Quiescence can be read off what is owed. *)
Lemma quiet_owed n : Inv n ->
  (forall o p, o ∈ machines -> p ∈ machines -> o <> p -> all_owed (round n o p) = all_owed n) -> quiet n.
Proof.
  intros Hn H o p Hmo Hmp Hne. destruct (round_settled n o p Hn Hmo Hmp Hne) as [|Hx]; [done|].
  apply exchange_owed in Hx as (_ & _ & Hlt); [|done]. rewrite H in Hlt by done. lia.
Qed.

(** A round, with its messages. *)
Definition talk (n : Nodes) (o p : Origin) : Nodes * list Offer * list (Offer * Answer) :=
  match Model_offer (n o) p with
  | Err _ => (n, [], [])
  | Ok offer =>
      let said := Model_respond (n p) offer in
      let n' := update n p said.1 in
      match said.2 with
      | Err _ => (n', [offer], [])
      | Ok answer =>
          (update n' (Offer_from offer) (Model_accept (n' (Offer_from offer)) offer answer).1,
           [offer], [(offer, answer)])
      end
  end.

Lemma talk_network n o p : network n [] [] -> o ∈ machines -> p ∈ machines -> o <> p ->
  network (talk n o p).1.1 (talk n o p).1.2 (talk n o p).2.
Proof.
  intros Hnet Hmo Hmp Hne. destruct (network_inv n [] [] Hnet) as (Hn & _). unfold talk.
  destruct (Model_offer (n o) p) as [offer|] eqn:Hoffer; [|done].
  destruct (offer_fresh n o p offer Hn Hne Hoffer) as (_ & Hfrom & _).
  assert (Hnet1 : network n [offer] []) by by exact (network_offer n [] [] o p offer Hnet Hmo Hne Hoffer).
  destruct (Model_respond (n p) offer) as [m r] eqn:Hr. cbn.
  assert (Hnet2 : network (update n p m) [offer] match r with Ok a => [(offer, a)] | Err _ => [] end).
  { eapply network_respond; [done|done| |done]. by left. }
  destruct r as [answer|]; [|done]. cbn. destruct (Model_accept _ offer answer) as [m' r'] eqn:Ha. cbn.
  eapply network_accept; [done|by rewrite Hfrom|by left|done].
Qed.

(** ** Properties *)

(** C6: However messages are delayed, lost, repeated or reordered, a machine holds of another one
    exactly the exports of what that one wrote: an event it may read is the author's own, any other
    is opaque.  Its cursor is never ahead of the author, and what it is known to hold it holds. *)
Theorem network_exports_only n offers answers o p :
  network n offers answers -> o <> p ->
  (forall e, stored (events (n p)) e -> Event_origin e = o ->
     exists original, stored (events (n o)) original /\ Event_origin original = o /\
       e = Event_export original p /\ visible e p) /\
  ack_of (n o) p <= seen (Model_cursor (n p) o) /\
  seen (Model_cursor (n p) o) <= seen (Model_cursor (n o) o).
Proof.
  intros Hnet Hne. destruct (network_inv n offers answers Hnet) as (Hn & _).
  split; [|split; [by apply (i_acks n Hn)|by apply i_seen]]. intros e He Ho.
  destruct (i_view n Hn p e He) as (e0 & He0 & Ho0 & ->); [congruence|]. rewrite Ho in *.
  exists e0. split; [done|]. split; [done|]. split; [done|].
  destruct (Event_export_cases e0 p) as [[-> Hv]|[-> _]]; [done|apply Event_omitted_visible].
Qed.

(** C2: Machines between which no exchange changes anything hold everything: each holds of every
    other one all it wrote, with its content where it is for this machine too. *)
Theorem network_converges n offers answers o p e :
  omitted_fits -> network n offers answers -> quiet n -> p ∈ machines -> o <> p ->
  stored (events (n o)) e -> Event_origin e = o -> stored (events (n p)) (Event_export e p).
Proof.
  intros Hfit Hnet Hq Hmp Hne He Ho. destruct (network_inv n offers answers Hnet) as (Hn & _).
  eapply (quiet_holds n Hfit Hn Hq (Event_clock e + 1)); [lia|done..].
Qed.

(** C3: Exchanging settles: from any state of the network there is no endless sequence of rounds that
    change something, and rounds alone bring every machine to hold all that any other one wrote. *)
Theorem network_settles n offers answers :
  omitted_fits -> network n offers answers ->
  Acc (fun later earlier => exchange earlier later) n /\
  exists settled, rtc exchange n settled /\ quiet settled /\
    forall o p e, p ∈ machines -> o <> p -> stored (events (n o)) e -> Event_origin e = o ->
      stored (events (settled p)) (Event_export e p).
Proof.
  intros Hfit Hnet. destruct (network_inv n offers answers Hnet) as (Hn & _).
  split; [by apply exchange_terminates_inv|].
  destruct (reaches_quiet n Hn) as (n' & Hr & Hq & Hn' & Hg). exists n'. split; [done|]. split; [done|].
  intros o p e Hmp Hne He Ho. apply (grows_stored n n' o e Hg) in He.
  eapply (quiet_holds n' Hfit Hn' Hq (Event_clock e + 1)); [lia|done..].
Qed.
End network.

(** ** Witnesses *)

Section witnesses.
#[local] Existing Instance sample_codec.

Definition pair_of_machines : list Origin := [machine_a; machine_b].

(** Machine A asks; then the two exchange once. *)
Definition asked : Nodes := update Model_new machine_a (Model_write (Model_new machine_a) ask_body).1.
Definition talked : Nodes := (talk asked machine_a machine_b).1.1.

Lemma asked_network : network pair_of_machines asked [] [].
Proof.
  apply (network_write pair_of_machines Model_new [] [] machine_a ask_body); [apply network_new|left|].
  by intros r.
Qed.

Lemma talked_network : network pair_of_machines talked (talk asked machine_a machine_b).1.2
  (talk asked machine_a machine_b).2.
Proof. apply talk_network; [apply asked_network|left|right; left|vm_compute; done]. Qed.

Lemma sample_omitted_fits : omitted_fits.
Proof.
  intros e. unfold Sealed_new. cbn. change (Event_id (Event_omitted e)) with (Event_id e).
  by destruct (MAX_EVENT_BYTES <? _).
Qed.

Lemma talked_quiet : quiet pair_of_machines talked.
Proof.
  apply quiet_owed; [apply (network_inv _ _ _ _ talked_network)|].
  intros o p [->|[->|[]%elem_of_nil]%elem_of_cons]%elem_of_cons [->|[->|[]%elem_of_nil]%elem_of_cons]%elem_of_cons;
    [intros []; reflexivity|intros _; vm_compute; reflexivity
    |intros _; vm_compute; reflexivity|intros []; reflexivity].
Qed.

Lemma asked_stored : exists e,
  stored (events (asked machine_a)) e /\ Event_origin e = machine_a.
Proof.
  assert (H : bool_decide (is_Some (events (asked machine_a) !! ask_id)) = true) by (vm_compute; reflexivity).
  apply bool_decide_eq_true_1 in H as [s Hs].
  exact (stored_at (asked machine_a) ask_id s (i_history _ _ (proj1 (network_inv _ _ _ _ asked_network)) machine_a) Hs).
Qed.

Lemma machines_differ : machine_a <> machine_b.
Proof. apply (bool_decide_eq_false_1 (machine_a = machine_b)). vm_compute. reflexivity. Qed.

Lemma talked_holds o : bool_decide (is_Some (events (talked o) !! ask_id)) = true ->
  exists e, stored (events (talked o)) e /\ Event_origin e = machine_a.
Proof.
  intros [s Hs]%bool_decide_eq_true_1.
  exact (stored_at (talked o) ask_id s (i_history _ _ (proj1 (network_inv _ _ _ _ talked_network)) o) Hs).
Qed.

Lemma talked_stored : exists e, stored (events (talked machine_b)) e /\ Event_origin e = machine_a.
Proof. apply talked_holds. vm_compute. reflexivity. Qed.

Lemma talked_written : exists e, stored (events (talked machine_a)) e /\ Event_origin e = machine_a.
Proof. apply talked_holds. vm_compute. reflexivity. Qed.

Lemma network_exports_only_witness :
  exists e original, stored (events (talked machine_b)) e /\ Event_origin e = machine_a /\
    stored (events (talked machine_a)) original /\ Event_origin original = machine_a /\
    e = Event_export original machine_b /\ visible e machine_b.
Proof.
  destruct talked_stored as (e & He & Ho).
  destruct (proj1 (network_exports_only _ _ _ _ _ _ talked_network machines_differ) e He Ho) as (e0 & H).
  exists e, e0. split; [exact He|]. split; [exact Ho|]. exact H.
Defined.

Lemma network_converges_witness :
  exists e, stored (events (talked machine_a)) e /\ Event_origin e = machine_a /\
    stored (events (talked machine_b)) (Event_export e machine_b).
Proof.
  destruct talked_written as (e & He & Ho). exists e. split; [exact He|]. split; [exact Ho|].
  refine (network_converges _ _ _ _ _ _ e sample_omitted_fits talked_network talked_quiet _ machines_differ He Ho).
  right. left.
Defined.

Lemma network_settles_witness :
  exists e settled, stored (events (asked machine_a)) e /\ Event_origin e = machine_a /\
    rtc (exchange pair_of_machines) asked settled /\
    stored (events (settled machine_b)) (Event_export e machine_b).
Proof.
  destruct asked_stored as (e & He & Ho).
  destruct (network_settles _ _ _ _ sample_omitted_fits asked_network) as (_ & settled & Hr & _ & H).
  exists e, settled. split; [exact He|]. split; [exact Ho|]. split; [exact Hr|].
  apply (H machine_a machine_b e); [right; left|exact machines_differ|exact He|exact Ho].
Defined.
End witnesses.
