(* ===== verification/Domain.v ===== *)
(** domain.rs: machine names, job and submission identifiers, job references, portable relative
    paths, commands, and remote text made safe for a terminal. *)

From Stdlib Require Import NArith Lia String Ascii.
From stdpp Require Import base gmap list strings.
From S2P Require Import Prelude RustStr RustText.

(** ** Definitions *)

Definition IDENTIFIER_HEX_BYTES : N := 32.

Inductive DomainInvalid :=
| DomainInvalid_Machine
| DomainInvalid_JobId
| DomainInvalid_SubmissionId
| DomainInvalid_JobReference
| DomainInvalid_RelativePath
| DomainInvalid_Command
| DomainInvalid_RemoteText.

Definition check_machine (value : string) : result unit DomainInvalid :=
  match bytes value with
  | [] => Err DomainInvalid_Machine
  | first :: _ =>
      if (128 <? str_len value)
         || negb (is_ascii_alphanumeric first)
         || negb (forallb (fun byte => is_ascii_alphanumeric byte || one_of ".-_@" byte) (bytes value))
      then Err DomainInvalid_Machine else Ok tt
  end.

Abbreviation MachineName := (Validated check_machine).
Definition MachineName_try_from (value : string) : result MachineName DomainInvalid :=
  Validated_try_from check_machine value.

Definition valid_identifier (value : string) : bool :=
  (str_len value =? IDENTIFIER_HEX_BYTES)
  && forallb (fun byte => is_ascii_digit byte || is_a_to_f byte) (bytes value).

Definition JobId_check (value : string) : result unit DomainInvalid :=
  if valid_identifier value then Ok tt else Err DomainInvalid_JobId.
Abbreviation JobId := (Validated JobId_check).
Definition JobId_try_from (value : string) : result JobId DomainInvalid :=
  Validated_try_from JobId_check value.

Definition SubmissionId_check (value : string) : result unit DomainInvalid :=
  if valid_identifier value then Ok tt else Err DomainInvalid_SubmissionId.
Abbreviation SubmissionId := (Validated SubmissionId_check).
Definition SubmissionId_try_from (value : string) : result SubmissionId DomainInvalid :=
  Validated_try_from SubmissionId_check value.

Lemma submission_is_job (submission : SubmissionId) :
  Is_true (is_ok (JobId_check (as_str submission))).
Proof.
  pose proof (as_str_ok submission) as H. unfold SubmissionId_check, JobId_check in *.
  by destruct (valid_identifier _).
Qed.

(** [From<&SubmissionId> for JobId] wraps the same text. *)
Definition JobId_from (submission : SubmissionId) : JobId :=
  mkValidated (as_str submission) (submission_is_job submission).

Record JobReference := JobReference_new { JobReference_machine : MachineName; JobReference_job : JobId }.

Definition JobReference_try_from (value : string) : result JobReference DomainInvalid :=
  let? (machine, job) := ok_or (split_once ":" value) DomainInvalid_JobReference in
  let? machine := MachineName_try_from machine in
  let? job := JobId_try_from job in
  Ok (JobReference_new machine job).

(** A control character, or one of backslash, colon, asterisk, question mark, double quote, less,
    greater and bar, by their codes. *)
Definition path_forbidden (character : N) : bool :=
  is_control character || existsb (N.eqb character) [92; 58; 42; 63; 34; 60; 62; 124].

(** [str::ends_with(['.', ' '])] *)
Definition ends_with_dot_or_space (component : string) : bool :=
  match rev (bytes component) with
  | last :: _ => one_of ". " last
  | [] => false
  end.

(** [str::trim_end_matches(' ')], on an ASCII pattern *)
Definition trim_end_spaces (text : string) : string :=
  of_bytes (trim_end_list (N.eqb 32) (bytes text)).

Definition string_to_ascii_uppercase (text : string) : string :=
  of_bytes (map to_ascii_uppercase (bytes text)).

Definition reserved_stems : list string :=
  ["CON"; "PRN"; "AUX"; "NUL"; "COM1"; "COM2"; "COM3"; "COM4"; "COM5"; "COM6"; "COM7"; "COM8"; "COM9";
   "LPT1"; "LPT2"; "LPT3"; "LPT4"; "LPT5"; "LPT6"; "LPT7"; "LPT8"; "LPT9"]%string.

Definition safe_component (component : string) : bool :=
  if (str_len component =? 0)
     || existsb (String.eqb component) ["."; ".."]%string
     || ends_with_dot_or_space component
     || existsb path_forbidden (chars component)
  then false else
  let stem := match split "." component with
              | first :: _ => trim_end_spaces first
              | [] => EmptyString
              end in
  let upper := string_to_ascii_uppercase stem in
  negb (existsb (String.eqb upper) reserved_stems).

(** The loop of [check_relative_path]; [count] saturates at [usize::MAX]. *)
Fixpoint check_components (count : N) (components : list string) : result unit DomainInvalid :=
  match components with
  | [] => Ok tt
  | component :: components =>
      let count := saturating_add usize_max count 1 in
      if (64 <? count) || negb (safe_component component) then Err DomainInvalid_RelativePath
      else check_components count components
  end.

Definition check_relative_path (value : string) : result unit DomainInvalid :=
  if (str_len value =? 0) || (4096 <? str_len value) then Err DomainInvalid_RelativePath else
  check_components 0 (split "/" value).

Abbreviation RelativePath := (Validated check_relative_path).
Definition RelativePath_try_from (value : string) : result RelativePath DomainInvalid :=
  Validated_try_from check_relative_path value.

(** The loop of [Command::try_from]: the total length, or a refusal. *)
Fixpoint command_total (total : N) (words : list string) : result N DomainInvalid :=
  match words with
  | [] => Ok total
  | word :: words =>
      let? total := ok_or (checked_add usize_max total (str_len word)) DomainInvalid_Command in
      if (8192 <? str_len word) || contains_ascii (ascii_of_N 0) word then Err DomainInvalid_Command
      else command_total total words
  end.

Definition command_check (value : list string) : result unit DomainInvalid :=
  if (N.of_nat (length value) =? 0) || (256 <? N.of_nat (length value))
  then Err DomainInvalid_Command else
  let? total := command_total 0 value in
  if match value with first :: _ => str_len first =? 0 | [] => true end || (65536 <? total)
  then Err DomainInvalid_Command else
  Ok tt.

(** The private fields are only ever set by [TryFrom<Vec<String>>]. *)
Record Command := mkCommand {
  Command_program : string;
  Command_arguments : list string;
  Command_ok : Is_true (is_ok (command_check (Command_program :: Command_arguments)))
}.

Definition Command_try_from (value : list string) : result Command DomainInvalid :=
  match value with
  | [] => Err DomainInvalid_Command
  | program :: arguments =>
      match decide (Is_true (is_ok (command_check (program :: arguments)))) with
      | left H => Ok (mkCommand program arguments H)
      | right _ => Err DomainInvalid_Command
      end
  end.

(** [From<Command> for Vec<String>] *)
Definition Command_words (value : Command) : list string :=
  Command_program value :: Command_arguments value.

Definition RemoteText_check (value : string) : result unit DomainInvalid :=
  if 65536 <? str_len value then Err DomainInvalid_RemoteText else Ok tt.
Abbreviation RemoteText := (Validated RemoteText_check).
Definition RemoteText_try_from (value : string) : result RemoteText DomainInvalid :=
  Validated_try_from RemoteText_check value.

(** The shortest lowercase hexadecimal of a character, as [escape_unicode] prints it. *)
Definition hex_shortest (c : N) : string := hex_fixed (S (N.to_nat (N.log2 c / 4))) c.

(** [char::escape_default], as characters *)
Definition escape_default (c : N) : list N :=
  if c =? 9 then [92; 116]
  else if c =? 13 then [92; 114]
  else if c =? 10 then [92; 110]
  else if (c =? 39) || (c =? 34) || (c =? 92) then [92; c]
  else if in_range 32 126 c then [c]
  else [92; 117; 123] ++ bytes (hex_shortest c) ++ [125].

(** What [terminal_text] does not let through. *)
Definition terminal_unsafe (character : N) : bool :=
  (is_control character && negb (character =? 10))
  || ((character =? 0x61c) || (character =? 0x200e) || (character =? 0x200f)
      || in_range 0x202a 0x202e character || in_range 0x2066 0x2069 character
      || (character =? 0xfeff)).

Definition terminal_chars (text : list N) : list N :=
  flat_map (fun character => if terminal_unsafe character then escape_default character else [character])
    text.

Definition terminal_text (text : string) : string := of_chars (terminal_chars (chars text)).

Definition RemoteText_for_terminal (text : RemoteText) : string := terminal_text (as_str text).

(** *** Portable names *)

(** What a name of a file may be on every system, said without the code.  Letters in any case: *)
Definition any_case (name : list N) (word : string) : Prop :=
  Forall2 (fun b letter => b = letter \/ b + 32 = letter) name (bytes word).
(** a device of Windows: the console, the printer, an auxiliary port, nothing, or one of nine ports of two kinds, *)
Definition device_name (name : list N) : Prop :=
  (exists word, word ∈ ["con"; "prn"; "aux"; "nul"]%string /\ any_case name word) \/
  (exists port letters digit, port ∈ ["com"; "lpt"]%string /\ any_case letters port /\ 49 <= digit <= 57 /\
     name = letters ++ [digit]).
(** which is meant whatever blanks and extension follow, *)
Definition names_device (component : string) : Prop :=
  exists name blanks rest, bytes component = name ++ repeat 32 blanks ++ rest /\ device_name name /\
    (rest = [] \/ exists extension, rest = 46 :: extension).
(** and a component that is an entry of a directory wherever it is written: not empty, without control characters,
    double quotes, asterisks, colons, angle brackets, question marks, backslashes and bars, not ending with a dot
    (as the directory itself and its parent do) or a blank, and no device. *)
Definition portable (component : string) : Prop :=
  component <> EmptyString /\
  (forall c, c ∈ chars component -> 31 < c /\ ~ 127 <= c <= 159 /\ c ∉ [34; 42; 58; 60; 62; 63; 92; 124]) /\
  (forall before, bytes component <> before ++ [46] /\ bytes component <> before ++ [32]) /\
  ~ names_device component.

(** Where a path leads from a directory, component by component *)
Definition step_into (directory : list string) (component : string) : list string :=
  if bool_decide (component = EmptyString \/ component = "."%string) then directory
  else if bool_decide (component = ".."%string) then removelast directory
  else directory ++ [component].
Definition walk_path (directory : list string) (components : list string) : list string :=
  fold_left step_into components directory.

(** ** Lemmas *)

#[export] Instance DomainInvalid_eq_dec : EqDecision DomainInvalid.
Proof. solve_decision. Defined.
Lemma Command_words_inj a b : Command_words a = Command_words b -> a = b.
Proof. destruct a, b; cbn. intros [= -> ->]. f_equal. apply proof_irrel. Qed.
#[export] Instance Command_eq_dec : EqDecision Command := inj_eq_dec _ Command_words_inj.

Lemma split_once_app sep before after :
  contains_ascii sep before = false ->
  split_once sep (String.app before (String sep after)) = Some (before, after).
Proof.
  unfold contains_ascii. induction before as [|a before IH]; cbn.
  - rewrite app_empty. cbn. by rewrite Ascii.eqb_refl.
  - rewrite orb_false_iff, app_cons. intros [Ha Hb]. cbn. rewrite Ascii.eqb_sym, Ha. by rewrite IH.
Qed.

Lemma split_once_inv sep s before after :
  split_once sep s = Some (before, after) -> s = String.app before (String sep after).
Proof.
  revert before. induction s as [|a s IH]; intros before; cbn; [done|].
  destruct (Ascii.eqb_spec a sep) as [->|].
  - by intros [= <- <-].
  - destruct (split_once sep s) as [[b' a']|]; [|done]. intros [= <- <-].
    rewrite app_cons. f_equal. by apply IH.
Qed.

Lemma check_machine_no_colon s : is_ok (check_machine s) = true -> contains_ascii ":" s = false.
Proof.
  unfold check_machine. destruct (bytes s) as [|b bs] eqn:Hb; [done|].
  destruct (forallb _ _) eqn:Hf; [|cbn [negb]; by rewrite orb_true_r]. intros _.
  rewrite <- Hb in Hf. eapply forallb_not_contains; [|exact Hf]. reflexivity.
Qed.

Lemma MachineName_no_colon (m : MachineName) : contains_ascii ":" (as_str m) = false.
Proof. apply check_machine_no_colon, (as_str_check m). Qed.

(** Joining with the separator inverts [split]. *)
Fixpoint join (sep : ascii) (parts : list string) : string :=
  match parts with
  | [] => EmptyString
  | [part] => part
  | part :: parts => String.app part (String sep (join sep parts))
  end.

Lemma split_nonempty sep s : split sep s <> [].
Proof. destruct s as [|a s]; cbn; [done|]. destruct (Ascii.eqb a sep); [done|]. by destruct (split sep s). Qed.

Lemma join_split sep s : join sep (split sep s) = s.
Proof.
  induction s as [|a s IH]; [done|]. cbn. pose proof (split_nonempty sep s) as Hne.
  destruct (Ascii.eqb_spec a sep) as [->|].
  - destruct (split sep s) as [|p ps]; [done|].
    change (String.app EmptyString (String sep (join sep (p :: ps))) = String sep s).
    by rewrite IH, app_empty.
  - destruct (split sep s) as [|p [|q ps]]; [done| |].
    + cbn in IH |- *. by rewrite IH.
    + change (String.app (String a p) (String sep (join sep (q :: ps))) = String a s).
      rewrite app_cons. f_equal. exact IH.
Qed.

Lemma check_components_ok components : forall count, count <= 64 ->
  check_components count components = Ok tt <->
  count + N.of_nat (length components) <= 64 /\ forallb safe_component components = true.
Proof.
  induction components as [|c cs IH]; intros count Hc; cbn [check_components length forallb].
  { split; [split; [lia|done]|done]. }
  unfold saturating_add, usize_max, u64_max. rewrite N.min_l by lia.
  destruct (N.ltb_spec 64 (count + 1)) as [H|H]; cbn [orb].
  { split; [done|]. intros [? _]. lia. }
  destruct (safe_component c); cbn [negb andb]; [|split; [done|by intros [_ ?]]].
  rewrite IH by lia. split; intros [? ?]; split; try done; lia.
Qed.

Lemma command_total_ok words : forall total n,
  command_total total words = Ok n ->
  n = total + foldr (fun w k => str_len w + k) 0 words /\
  Forall (fun w => str_len w <= 8192 /\ contains_ascii (ascii_of_N 0) w = false) words.
Proof.
  induction words as [|w ws IH]; intros total n; cbn [command_total foldr].
  { intros [= <-]. split; [lia|constructor]. }
  destruct (checked_add usize_max total (str_len w)) as [t|] eqn:E; cbn [ok_or]; [|done].
  apply checked_add_Some in E as [-> _].
  destruct (N.ltb_spec 8192 (str_len w)); cbn [orb]; [done|].
  destruct (contains_ascii _ w) eqn:Hz; [done|]. intros [-> Hf]%IH.
  split; [lia|]. by constructor.
Qed.

Lemma command_total_complete words : forall total,
  Forall (fun w => str_len w <= 8192 /\ contains_ascii (ascii_of_N 0) w = false) words ->
  total + foldr (fun w k => str_len w + k) 0 words <= usize_max ->
  command_total total words = Ok (total + foldr (fun w k => str_len w + k) 0 words).
Proof.
  induction words as [|w ws IH]; intros total Hf Hle; cbn [command_total foldr] in *.
  { by rewrite N.add_0_r. }
  inversion Hf as [|?? [Hw Hz] Hf']; subst.
  unfold checked_add. rewrite (proj2 (N.leb_le _ _)) by lia. cbn [ok_or].
  rewrite (proj2 (N.ltb_ge _ _)) by lia. rewrite Hz. cbn [orb].
  rewrite IH by (done || lia). f_equal. lia.
Qed.

Lemma Command_try_from_ok value c : Command_try_from value = Ok c <-> Command_words c = value.
Proof.
  unfold Command_try_from. destruct value as [|p args]; [done|]. split.
  - case_decide; [|done]. by intros [= <-].
  - destruct c as [p' args' Hc]. unfold Command_words. cbn. intros [= -> ->].
    case_decide as H; [|done]. do 2 f_equal. apply proof_irrel.
Qed.

Lemma Command_try_from_total value :
  is_ok (Command_try_from value) = is_ok (command_check value).
Proof.
  unfold Command_try_from. destruct value as [|p args]; [done|].
  case_decide as H; cbn [is_ok]; symmetry.
  - by apply Is_true_true.
  - apply not_true_is_false. by rewrite <- Is_true_true.
Qed.

Lemma safe_component_shape component : safe_component component = true ->
  component <> EmptyString /\ component <> "."%string /\ component <> ".."%string /\
  forall c, c ∈ chars component -> path_forbidden c = false.
Proof.
  unfold safe_component. destruct (N.eqb_spec (str_len component) 0) as [|Hne]; [done|].
  destruct (existsb (String.eqb component) _) eqn:Hdot; [done|].
  destruct (ends_with_dot_or_space component); [done|]. cbn [orb].
  destruct (existsb path_forbidden (chars component)) eqn:Hforb; [done|]. intros _.
  split; [by intros ->|]. split; [by intros ->|]. split; [by intros ->|].
  intros c Hin. destruct (path_forbidden c) eqn:E; [|done]. exfalso.
  apply not_true_iff_false in Hforb. apply Hforb, existsb_exists. exists c.
  split; [by apply list_elem_of_In|done].
Qed.

Lemma check_relative_path_ok value : is_ok (check_relative_path value) = true <->
  0 < str_len value <= 4096 /\ (length (split "/" value) <= 64)%nat /\
  forall component, component ∈ split "/" value -> safe_component component = true.
Proof.
  unfold check_relative_path.
  destruct (N.eqb_spec (str_len value) 0) as [Hz|Hz]; cbn [orb]; [split; [done|lia]|].
  destruct (N.ltb_spec 4096 (str_len value)) as [Hm|Hm]; [split; [done|lia]|].
  assert (Hok : is_ok (check_components 0 (split "/" value)) = true <->
    check_components 0 (split "/" value) = Ok tt).
  { rewrite is_ok_true. split; [by intros [[] ?]|eauto]. }
  rewrite Hok, check_components_ok, forallb_forall by lia. setoid_rewrite list_elem_of_In.
  split; intros H; (split; [lia|]); [split; [lia|apply H]|apply H].
Qed.

(** *** Terminal text *)

Lemma printable_safe b : 32 <= b <= 126 -> terminal_unsafe b = false /\ is_scalar b = true.
Proof.
  intros Hr. split.
  - unfold terminal_unsafe, is_control, in_range.
    repeat match goal with
    | |- context [?x =? ?y] => rewrite (proj2 (N.eqb_neq x y)) by lia
    | |- context [?x <=? ?y] =>
        first [rewrite (proj2 (N.leb_gt x y)) by lia | rewrite (proj2 (N.leb_le x y)) by lia]
    end; done.
  - unfold is_scalar. by rewrite (proj2 (N.ltb_lt _ _)) by lia.
Qed.

Lemma escape_default_safe c b :
  b ∈ escape_default c -> terminal_unsafe b = false /\ is_scalar b = true.
Proof.
  unfold escape_default. intros Hb. apply printable_safe. revert Hb.
  destruct (c =? 9); [set_unfold; intros [->|[->|[]]]; lia|].
  destruct (c =? 13); [set_unfold; intros [->|[->|[]]]; lia|].
  destruct (c =? 10); [set_unfold; intros [->|[->|[]]]; lia|].
  destruct ((c =? 39) || (c =? 34) || (c =? 92)) eqn:Eq.
  { rewrite !orb_true_iff, !N.eqb_eq in Eq. set_unfold. intros [->|[->|[]]]; lia. }
  destruct (in_range 32 126 c) eqn:Er.
  { apply in_range_spec in Er. set_unfold. intros [->|[]]; lia. }
  rewrite !elem_of_app. intros [H|[H|H]].
  - set_unfold in H. destruct H as [->|[->|[->|[]]]]; lia.
  - pose proof (hex_fixed_lower (S (N.to_nat (N.log2 c / 4))) c) as Hf.
    rewrite forallb_forall in Hf. apply list_elem_of_In, Hf in H.
    unfold is_ascii_digit, is_a_to_f in H. rewrite orb_true_iff, !in_range_spec in H. lia.
  - apply list_elem_of_singleton in H as ->. lia.
Qed.

Lemma terminal_chars_safe text b :
  forallb is_scalar text = true -> b ∈ terminal_chars text ->
  terminal_unsafe b = false /\ is_scalar b = true.
Proof.
  intros Hs Hb. unfold terminal_chars in Hb.
  apply list_elem_of_In, in_flat_map in Hb as (c & Hc & Hb). rewrite forallb_forall in Hs.
  destruct (terminal_unsafe c) eqn:E.
  - eapply escape_default_safe. by apply list_elem_of_In.
  - destruct Hb as [<-|[]]. split; [done|]. by apply Hs.
Qed.

Lemma terminal_chars_id text : forallb (fun c => negb (terminal_unsafe c)) text = true ->
  terminal_chars text = text.
Proof.
  unfold terminal_chars. induction text as [|c text IH]; cbn; [done|].
  rewrite andb_true_iff, negb_true_iff. intros [-> H]. cbn. by rewrite IH.
Qed.

Lemma terminal_text_chars text : chars (terminal_text text) = terminal_chars (chars text).
Proof.
  apply chars_of_chars, forallb_forall. intros b Hb.
  by apply (terminal_chars_safe (chars text)); [apply chars_scalar|apply list_elem_of_In].
Qed.

(** ** Properties *)

(** Text from another machine is printed without terminal controls.  Whatever the text, what
    [terminal_text] returns has no control character but the newline and no bidirectional or
    zero-width mark; a text without them is printed as it is; and printing twice changes nothing
    more. *)
Theorem terminal_text_safe (text : string) :
  forallb (fun c => negb (terminal_unsafe c)) (chars (terminal_text text)) = true /\
  (forallb (fun c => negb (terminal_unsafe c)) (chars text) = true ->
     chars (terminal_text text) = chars text) /\
  terminal_text (terminal_text text) = terminal_text text.
Proof.
  assert (Hsafe : forallb (fun c => negb (terminal_unsafe c)) (terminal_chars (chars text)) = true).
  { apply forallb_forall. intros b Hb. apply negb_true_iff.
    by apply (terminal_chars_safe (chars text)); [apply chars_scalar|apply list_elem_of_In]. }
  rewrite terminal_text_chars. split; [done|]. split; [apply terminal_chars_id|].
  unfold terminal_text at 1. by rewrite terminal_text_chars, terminal_chars_id.
Qed.

(** *** Portable paths *)

Lemma one_of_spec_dot_space b : one_of ". " b = true <-> b = 46 \/ b = 32.
Proof. change (one_of ". " b) with ((b =? 46) || ((b =? 32) || false)). rewrite !orb_true_iff, !N.eqb_eq. naive_solver. Qed.

Lemma ends_with_dot_or_space_false component :
  ends_with_dot_or_space component = false <->
  forall before, bytes component <> before ++ [46] /\ bytes component <> before ++ [32].
Proof.
  unfold ends_with_dot_or_space. destruct (bytes component) as [|b l _] eqn:E using rev_ind; cbn.
  { split; [|done]. intros _ before. split; by destruct before. }
  rewrite rev_unit. cbn [existsb]. change (one_of ". " b = false <-> forall before, l ++ [b] <> before ++ [46] /\ l ++ [b] <> before ++ [32]).
  rewrite <- not_true_iff_false, one_of_spec_dot_space. split.
  - intros H before. split; intros [_ [= ->]]%app_inj_2; tauto.
  - intros H [->| ->]; destruct (H l); done.
Qed.

Lemma path_forbidden_false c :
  path_forbidden c = false <-> 31 < c /\ ~ 127 <= c <= 159 /\ c ∉ [34; 42; 58; 60; 62; 63; 92; 124].
Proof.
  unfold path_forbidden, is_control, in_range. rewrite !not_elem_of_cons. cbn [existsb].
  rewrite !orb_false_iff, andb_false_iff, !N.leb_gt, !N.eqb_neq. split.
  - intros ([H1 H2] & H3). split_and!; try tauto; [lia|]. apply not_elem_of_nil.
  - intros (H1 & H2 & H3). split_and!; try tauto. lia.
Qed.

(** The first part of a split *)
Lemma split_first sep s : exists first others rest, split sep s = first :: others /\
  bytes s = bytes first ++ rest /\ N_of_ascii sep ∉ bytes first /\ (rest = [] \/ exists r, rest = N_of_ascii sep :: r).
Proof.
  induction s as [|a s (first & others & rest & Hs & Hb & Hn & Hr)]; cbn [split].
  { exists EmptyString, [], []. split_and!; [done..|apply not_elem_of_nil|by left]. }
  destruct (Ascii.eqb_spec a sep) as [->|Hne].
  - exists EmptyString, (split sep s), (bytes (String sep s)). split_and!; [done..|apply not_elem_of_nil|right; by eexists].
  - rewrite Hs. exists (String a first), others, rest. rewrite !bytes_cons, Hb. split_and!; [done..| |done].
    apply not_elem_of_cons. split; [|done]. intros E. apply Hne. by rewrite <- (ascii_N_embedding a), <- E, ascii_N_embedding.
Qed.

Lemma app_split_unique {A} (x : A) a b r r' : x ∉ a -> x ∉ b -> (r = [] \/ exists t, r = x :: t) ->
  (r' = [] \/ exists t, r' = x :: t) -> a ++ r = b ++ r' -> a = b.
Proof.
  revert b. induction a as [|y a IH]; intros [|z b] Ha Hb Hr Hr'; cbn.
  - done.
  - intros E. destruct Hr as [->|[t ->]]; [done|]. injection E as -> _. destruct Hb. by left.
  - intros E. destruct Hr' as [->|[t ->]]; [done|]. injection E as -> _. destruct Ha. by left.
  - intros [= -> E]. f_equal. apply not_elem_of_cons in Ha as [_ Ha]. apply not_elem_of_cons in Hb as [_ Hb]. by apply (IH b).
Qed.

Lemma drop_while_spec {A} (p : A -> bool) l : exists dropped, l = dropped ++ drop_while p l /\
  Forall (fun x => p x = true) dropped /\ forall x rest, drop_while p l = x :: rest -> p x = false.
Proof.
  induction l as [|x l (dropped & Hl & Hall & Hx)]; cbn; [by exists []|]. destruct (p x) eqn:E.
  - exists (x :: dropped). cbn. rewrite <- Hl. split_and!; [done|by constructor|done].
  - exists []. split_and!; [done|done|]. by intros ?? [= <- <-].
Qed.

Lemma bytes_bound s : Forall (fun b => b < 256) (bytes s).
Proof. induction s as [|a s IH]; [constructor|]. rewrite bytes_cons. constructor; [apply N_ascii_bounded|done]. Qed.

Lemma trim_end_spaces_spec text : exists blanks, bytes text = bytes (trim_end_spaces text) ++ repeat 32 blanks /\
  forall before, bytes (trim_end_spaces text) <> before ++ [32].
Proof.
  destruct (drop_while_spec (N.eqb 32) (rev (bytes text))) as (dropped & Hl & Hall & Hx).
  assert (Ht : bytes text = trim_end_list (N.eqb 32) (bytes text) ++ repeat 32 (length dropped)).
  { rewrite <- (rev_involutive (bytes text)) at 1. rewrite Hl, rev_app_distr. unfold trim_end_list. f_equal.
    apply List.Forall_rev in Hall. rewrite <- (length_rev dropped).
    induction Hall as [|x l Hx32%N.eqb_eq _ IH]; cbn; [done|]. rewrite <- Hx32. by f_equal. }
  assert (Hb : bytes (trim_end_spaces text) = trim_end_list (N.eqb 32) (bytes text)).
  { apply bytes_of_bytes. pose proof (bytes_bound text) as Hbound. rewrite Ht in Hbound. by apply Forall_app in Hbound as [? _]. }
  exists (length dropped). rewrite Hb. split; [done|]. intros before Hend. unfold trim_end_list in Hend.
  assert (E : drop_while (N.eqb 32) (rev (bytes text)) = 32 :: rev before).
  { by rewrite <- (rev_involutive (drop_while _ _)), Hend, rev_unit. }
  by apply Hx in E.
Qed.

Lemma stem_unique (a b : list N) n m : (forall before, a <> before ++ [32]) -> (forall before, b <> before ++ [32]) ->
  a ++ repeat 32 n = b ++ repeat 32 m -> a = b.
Proof.
  assert (repeat_last : forall k, repeat 32 (S k) = repeat 32 k ++ [32]) by (intros k; apply repeat_cons).
  intros Ha Hb. revert m. induction n as [|n IH]; intros m.
  - destruct m as [|m]; [by rewrite !app_nil_r|]. rewrite app_nil_r, repeat_last, app_assoc. intros E. by destruct (Ha (b ++ repeat 32 m)).
  - destruct m as [|m]; rewrite repeat_last, app_assoc.
    + rewrite app_nil_r. intros E. by destruct (Hb (a ++ repeat 32 n)).
    + rewrite (repeat_last m), (app_assoc b). intros [E _]%app_inj_2; [|done]. by eapply IH.
Qed.

(** *** Devices *)

Lemma upper_letter b l : is_ascii_lowercase l = true -> b = l \/ b + 32 = l -> to_ascii_uppercase b = l - 32.
Proof.
  unfold to_ascii_uppercase, is_ascii_lowercase, in_range. intros [H1%N.leb_le H2%N.leb_le]%andb_true_iff [->|H].
  - by rewrite (proj2 (N.leb_le _ _) H1), (proj2 (N.leb_le _ _) H2).
  - rewrite (proj2 (N.leb_gt _ _)) by lia. cbn. lia.
Qed.

Lemma upper_inv b u : to_ascii_uppercase b = u ->
  (65 <= u <= 90 -> b = u + 32 \/ b + 32 = u + 32) /\ (48 <= u <= 57 -> b = u).
Proof.
  unfold to_ascii_uppercase, is_ascii_lowercase, in_range.
  destruct (N.leb_spec 97 b), (N.leb_spec b 122); cbn; lia.
Qed.

Lemma any_case_upper name word : forallb is_ascii_lowercase (bytes word) = true -> any_case name word ->
  map to_ascii_uppercase name = map (fun l => l - 32) (bytes word).
Proof.
  unfold any_case. intros Hl. induction 1 as [|b l name letters H _ IH]; cbn in *; [done|].
  apply andb_true_iff in Hl as [H1 H2]. f_equal; [by apply upper_letter|by apply IH].
Qed.

Lemma upper_any_case name word : map to_ascii_uppercase name = map (fun l => l - 32) (bytes word) ->
  forallb is_ascii_lowercase (bytes word) = true -> any_case name word.
Proof.
  unfold any_case. revert name. induction (bytes word) as [|l letters IH]; intros [|b name]; cbn; try done.
  intros [= H1 H2] [Hl Hall]%andb_true_iff. constructor; [|by apply IH].
  apply upper_inv in H1 as [H1 _]. unfold is_ascii_lowercase, in_range in Hl. apply andb_true_iff in Hl as [?%N.leb_le ?%N.leb_le].
  lia.
Qed.

Lemma digit_cases d : 49 <= d <= 57 -> d ∈ [49; 50; 51; 52; 53; 54; 55; 56; 57].
Proof. intros H. rewrite !elem_of_cons. lia. Qed.

Lemma upper_reserved name :
  In (map to_ascii_uppercase name) (map bytes reserved_stems) <-> device_name name.
Proof.
  split.
  - intros H. cbn in H.
    assert (Hport : forall port digit, In port ["com"; "lpt"]%string -> 49 <= digit <= 57 ->
      map to_ascii_uppercase name = map (fun l => l - 32) (bytes port) ++ [digit] -> device_name name).
    { intros port digit Hp Hd E. right. destruct name as [|b letters _] using rev_ind; [by destruct port|].
      rewrite map_app in E. apply app_inj_2 in E as [E [= E2]]; [|done].
      exists port, letters, digit. apply upper_inv in E2 as [_ E2]. rewrite E2 by lia.
      split_and!; [by apply list_elem_of_In|apply upper_any_case; [done|]|lia..|done].
      destruct Hp as [<-|[<-|[]]]; done. }
    assert (Hword : forall word, In word ["con"; "prn"; "aux"; "nul"]%string ->
      map to_ascii_uppercase name = map (fun l => l - 32) (bytes word) -> device_name name).
    { intros word Hp E. left. exists word. split; [by apply list_elem_of_In|]. apply upper_any_case; [done|].
      destruct Hp as [<-|[<-|[<-|[<-|[]]]]]; done. }
    repeat (destruct H as [H|H]; [symmetry in H;
      first [ by apply (Hword "con"%string); [cbn; tauto|]
            | by apply (Hword "prn"%string); [cbn; tauto|]
            | by apply (Hword "aux"%string); [cbn; tauto|]
            | by apply (Hword "nul"%string); [cbn; tauto|]
            | eapply (Hport "com"%string); [cbn; tauto| |exact H]; lia
            | eapply (Hport "lpt"%string); [cbn; tauto| |exact H]; lia ]|]). done.
  - intros [(word & Hw & H)|(port & letters & digit & Hp & H & Hd & ->)].
    + apply list_elem_of_In in Hw. rewrite (any_case_upper name word) by (try exact H; by destruct Hw as [<-|[<-|[<-|[<-|[]]]]]).
      destruct Hw as [<-|[<-|[<-|[<-|[]]]]]; cbn; tauto.
    + apply list_elem_of_In in Hp. rewrite map_app, (any_case_upper letters port) by (try exact H; by destruct Hp as [<-|[<-|[]]]).
      apply digit_cases, list_elem_of_In in Hd.
      destruct Hp as [<-|[<-|[]]]; repeat (destruct Hd as [<-|Hd]; [cbn; tauto|]); done.
Qed.

Lemma device_name_solid name : device_name name -> 46 ∉ name /\ forall before, name <> before ++ [32].
Proof.
  intros H. apply upper_reserved in H.
  assert (Hup : 46 ∉ map to_ascii_uppercase name /\ 32 ∉ map to_ascii_uppercase name).
  { cbn in H. repeat (destruct H as [<-|H]; [rewrite !not_elem_of_cons; split_and!; (done || apply not_elem_of_nil)|]). done. }
  destruct Hup as [H46 H32]. split.
  - intros Hin. apply H46. apply list_elem_of_In, in_map_iff. exists 46. by apply list_elem_of_In in Hin.
  - intros before ->. apply H32. rewrite map_app. apply elem_of_app. right. by left.
Qed.

Lemma upper_bound s : Forall (fun b => b < 256) (map to_ascii_uppercase (bytes s)).
Proof.
  induction (bytes_bound s) as [|b l Hb _ IH]; cbn; constructor; [|done].
  unfold to_ascii_uppercase. destruct (is_ascii_lowercase b); lia.
Qed.

Lemma names_device_stem component first others : split "." component = first :: others ->
  In (map to_ascii_uppercase (bytes (trim_end_spaces first))) (map bytes reserved_stems) <-> names_device component.
Proof.
  intros Hs. destruct (split_first "." component) as (first' & others' & rest & Hs' & Hb & Hn & Hr).
  rewrite Hs in Hs'. injection Hs' as <- <-. destruct (trim_end_spaces_spec first) as (blanks & Hf & Hend).
  rewrite upper_reserved. split.
  - intros H. exists (bytes (trim_end_spaces first)), blanks, rest. rewrite Hb, Hf, <- app_assoc. done.
  - intros (name & blanks' & rest' & Hb' & Hname & Hr').
    assert (Hsolid : 46 ∉ name /\ forall before, name <> before ++ [32]) by (by apply device_name_solid).
    destruct Hsolid as [Hdot Hlast]. rewrite Hb, app_assoc in Hb'.
    assert (E : bytes first = name ++ repeat 32 blanks').
    { eapply (app_split_unique 46); [exact Hn| |exact Hr|exact Hr'|exact Hb'].
      rewrite not_elem_of_app. split; [exact Hdot|]. intros H%list_elem_of_In%repeat_spec. done. }
    rewrite Hf in E. apply stem_unique in E; [|done..]. by rewrite E.
Qed.

Lemma safe_component_portable component : safe_component component = true <-> portable component.
Proof.
  unfold safe_component, portable. destruct (split "." component) as [|first others] eqn:Hs.
  { by destruct (split_nonempty "." component). }
  rewrite <- (names_device_stem _ _ _ Hs).
  assert (Hres : existsb (String.eqb (string_to_ascii_uppercase (trim_end_spaces first))) reserved_stems = true <->
    In (map to_ascii_uppercase (bytes (trim_end_spaces first))) (map bytes reserved_stems)).
  { rewrite existsb_exists, in_map_iff. unfold string_to_ascii_uppercase. split.
    - intros (x & Hx & <-%String.eqb_eq). eexists. split; [apply bytes_of_bytes, upper_bound|done].
    - intros (x & Hx & Hin). exists x. split; [done|]. by rewrite String.eqb_eq, <- Hx, of_bytes_bytes. }
  rewrite <- Hres, <- ends_with_dot_or_space_false.
  assert (Hchars : existsb path_forbidden (chars component) = false <->
    forall c, c ∈ chars component -> 31 < c /\ ~ 127 <= c <= 159 /\ c ∉ [34; 42; 58; 60; 62; 63; 92; 124]).
  { rewrite <- not_true_iff_false, existsb_exists. setoid_rewrite <- path_forbidden_false. split.
    - intros H c Hc%list_elem_of_In. destruct (path_forbidden c) eqn:E; [|done]. destruct H. eauto.
    - intros H (c & Hc%list_elem_of_In & Hf). by rewrite H in Hf. }
  rewrite <- Hchars. clear Hchars.
  destruct (N.eqb_spec (str_len component) 0) as [Hz|Hz]; [destruct component; [naive_solver|discriminate Hz]|cbn [orb]].
  destruct (existsb (String.eqb component) _) eqn:Hdot; cbn [orb].
  { split; [done|]. intros (_ & _ & H & _). cbn in Hdot. rewrite !orb_true_iff, !String.eqb_eq in Hdot.
    by destruct Hdot as [->|[->|]]. }
  destruct (ends_with_dot_or_space component); cbn [orb]; [naive_solver|].
  destruct (existsb path_forbidden _); [naive_solver|].
  destruct (existsb _ reserved_stems); cbn [negb]; split; try done; [naive_solver|].
  intros _. split_and!; try done. by intros ->.
Qed.

Lemma walk_path_portable components directory : (forall c, c ∈ components -> portable c) ->
  walk_path directory components = directory ++ components.
Proof.
  unfold walk_path. revert directory. induction components as [|c components IH]; intros directory Hall; cbn; [by rewrite app_nil_r|].
  destruct (Hall c (list_elem_of_here _ _)) as (He & _ & Hend & _).
  unfold step_into at 2. rewrite !bool_decide_eq_false_2, IH, <- app_assoc; [done| | |].
  - intros x Hx. apply Hall. by right.
  - intros ->. by destruct (Hend (bytes ".")).
  - intros [->| ->]; [done|]. by destruct (Hend []).
Qed.

(** C31: A relative path stays inside the directory it is resolved in, on every system.  A text is one exactly when it
    has 1 to 4096 bytes and one to 64 components, each of which is portable: not empty, no dot or blank at its end (so
    neither the directory nor its parent), no control character and none that Windows reserves, and no name of a device
    in any case and with any extension.  Walking its components one after the other, one is always below the
    directory one came from, in the entry the components name. *)
Theorem relative_path_stays_inside (value : string) :
  is_ok (RelativePath_try_from value) = true <->
    0 < str_len value <= 4096 /\ (length (split "/" value) <= 64)%nat /\ join "/" (split "/" value) = value /\
    (forall component, component ∈ split "/" value -> portable component) /\
    (forall directory n, walk_path directory (take n (split "/" value)) = directory ++ take n (split "/" value)).
Proof.
  unfold RelativePath_try_from. rewrite Validated_try_from_total, check_relative_path_ok.
  setoid_rewrite safe_component_portable. split.
  - intros (Hlen & Hn & Hsafe). split; [done|]. split; [done|]. split; [apply join_split|]. split; [done|]. intros directory n. apply walk_path_portable.
    intros c Hc. apply Hsafe. rewrite <- (take_drop n (split "/" value)). apply elem_of_app. by left.
  - by intros (Hlen & Hn & _ & Hall & _).
Qed.

(** Commands are bounded and keep their words.  A list of words is a command exactly when it
    has one to 256 words of at most 8192 bytes each and 65536 in all, none with a NUL byte and the
    first not empty; the command's words are that list. *)
Theorem command_words_bounded (value : list string) :
  (is_ok (Command_try_from value) = true <->
     (1 <= length value <= 256)%nat /\
     Forall (fun w => str_len w <= 8192 /\ contains_ascii (ascii_of_N 0) w = false) value /\
     (forall first, head value = Some first -> str_len first <> 0) /\
     foldr (fun w k => str_len w + k) 0 value <= 65536) /\
  (forall c, Command_try_from value = Ok c <-> Command_words c = value).
Proof.
  split; [|intros c; apply Command_try_from_ok].
  rewrite Command_try_from_total. unfold command_check.
  destruct value as [|p args]; [split; [done|intros [? _]; cbn in *; lia]|].
  set (value := p :: args). cbn [head].
  destruct (N.eqb_spec (N.of_nat (length value)) 0) as [|Hz]; [done|]. cbn [orb].
  destruct (N.ltb_spec 256 (N.of_nat (length value))) as [|Hm]; [split; [done|intros [? _]; lia]|].
  destruct (command_total 0 value) as [n|e] eqn:Ht.
  - apply command_total_ok in Ht as [-> Hf]. rewrite N.add_0_l.
    destruct (N.eqb_spec (str_len p) 0) as [Hp|Hp]; cbn [orb].
    { split; [done|]. intros (_ & _ & H & _). by destruct (H p eq_refl). }
    destruct (N.ltb_spec 65536 (foldr (fun w k => str_len w + k) 0 value)) as [Hb|Hb].
    { split; [done|]. intros (_ & _ & _ & ?). lia. }
    split; [|done]. intros _. split; [lia|]. split; [done|]. split; [|done]. by intros ? [= <-].
  - split; [done|]. intros (_ & Hf & _ & Hb). exfalso.
    rewrite (command_total_complete value 0 Hf) in Ht; [done|].
    unfold usize_max, u64_max. lia.
Qed.

(** Job references are canonical: parsing accepts a text exactly when it is the machine, a
    colon and the job of the reference it returns, which is therefore unique. *)
Theorem job_reference_canonical (text : string) (reference : JobReference) :
  JobReference_try_from text = Ok reference <->
  text = String.app (as_str (JobReference_machine reference))
           (String ":" (as_str (JobReference_job reference))).
Proof.
  unfold JobReference_try_from, MachineName_try_from, JobId_try_from. split.
  - destruct (split_once ":" text) as [[m j]|] eqn:E; cbn; [|done].
    apply split_once_inv in E as ->.
    destruct (Validated_try_from check_machine m) as [machine|] eqn:Em; [|done].
    destruct (Validated_try_from JobId_check j) as [job|] eqn:Ej; [|done]. intros [= <-]. cbn.
    apply Validated_try_from_ok in Em as <-. by apply Validated_try_from_ok in Ej as <-.
  - intros ->. rewrite split_once_app by apply MachineName_no_colon. cbn.
    rewrite (proj2 (Validated_try_from_ok _ (JobReference_machine reference)) eq_refl).
    rewrite (proj2 (Validated_try_from_ok _ (JobReference_job reference)) eq_refl).
    by destruct reference.
Qed.

Example paths :
  map (fun p => is_ok (RelativePath_try_from p))
    ["src/main.rs"; "../etc"; "a//b"; "/abs"; "nul.txt"; "a."; "c:\x"; "com10"]%string
  = [true; false; false; false; false; false; false; true].
Proof. vm_compute. reflexivity. Qed.

Example terminal_example :
  terminal_text (of_chars [104; 27; 91; 0x202e; 10]) = of_chars
    ([104] ++ bytes "\u{1b}[\u{202e}" ++ [10]).
Proof. vm_compute. reflexivity. Qed.
