(* ===== verification/JobState.v ===== *)
(** state.rs and job_protocol.rs: the phases of a job, the events that advance it, its stored form,
    and the client protocol its phases refine. *)

From Stdlib Require Import NArith ZArith Lia String Ascii Relations.
From stdpp Require Import base gmap list strings relations.
From S2P Require Import Prelude RustStr Domain.

(** ** Definitions *)

Inductive PhaseKind :=
| PhaseKind_Accepted | PhaseKind_Queued | PhaseKind_Starting | PhaseKind_Running | PhaseKind_Finished.

(** [NonZeroI32]; nothing computes with exit codes, so the width plays no part. *)
Record NonZeroI32 := mkNonZeroI32 {
  NonZeroI32_get : Z;
  NonZeroI32_ok : Is_true (negb (Z.eqb NonZeroI32_get 0))
}.
Definition NonZeroI32_new (code : Z) : option NonZeroI32 :=
  match decide (Is_true (negb (Z.eqb code 0))) with
  | left H => Some (mkNonZeroI32 code H)
  | right _ => None
  end.

Inductive JobOutcome :=
| JobOutcome_Succeeded
| JobOutcome_Failed (code : NonZeroI32)
| JobOutcome_LaunchFailed (reason : RemoteText)
| JobOutcome_Lost
| JobOutcome_Killed
| JobOutcome_MemoryLimitExceeded.

Inductive Phase :=
| Phase_Accepted
| Phase_Queued
| Phase_Starting
| Phase_Running (pid : N)
| Phase_Finished (outcome : JobOutcome).

Record JobState := mkJobState { phase : Phase }.

Inductive RawPhase :=
| RawPhase_Accepted
| RawPhase_Queued
| RawPhase_Starting
| RawPhase_Running (pid : N)
| RawPhase_Finished (outcome : JobOutcome).

Record RawJobState := mkRawJobState { RawJobState_phase : RawPhase }.

Inductive InvalidStoredState := mkInvalidStoredState.

Inductive CommandCompletionError :=
| CommandCompletionError_Unfinished
| CommandCompletionError_InvalidOutcome.

Definition JobState_try_from (value : RawJobState) : result JobState InvalidStoredState :=
  let? phase :=
    match RawJobState_phase value with
    | RawPhase_Accepted => Ok Phase_Accepted
    | RawPhase_Queued => Ok Phase_Queued
    | RawPhase_Starting => Ok Phase_Starting
    | RawPhase_Running pid => if pid =? 0 then Err mkInvalidStoredState else Ok (Phase_Running pid)
    | RawPhase_Finished outcome => Ok (Phase_Finished outcome)
    end in
  Ok (mkJobState phase).

Definition RawJobState_from (value : JobState) : RawJobState :=
  mkRawJobState
    match phase value with
    | Phase_Accepted => RawPhase_Accepted
    | Phase_Queued => RawPhase_Queued
    | Phase_Starting => RawPhase_Starting
    | Phase_Running pid => RawPhase_Running pid
    | Phase_Finished outcome => RawPhase_Finished outcome
    end.

Inductive JobEvent :=
| JobEvent_Queued
| JobEvent_Starting
| JobEvent_Spawned (pid : N)
| JobEvent_Exited (code : Z)
| JobEvent_LaunchFailed (reason : RemoteText)
| JobEvent_SupervisorGone
| JobEvent_Killed
| JobEvent_MemoryLimitExceeded.

Inductive EventKind :=
| EventKind_Queued | EventKind_Starting | EventKind_Spawned | EventKind_Exited
| EventKind_LaunchFailed | EventKind_SupervisorGone | EventKind_Killed
| EventKind_MemoryLimitExceeded.

Record InvalidTransition := mkInvalidTransition {
  InvalidTransition_phase : PhaseKind;
  InvalidTransition_event : EventKind
}.

Definition JobEvent_kind (event : JobEvent) : EventKind :=
  match event with
  | JobEvent_Queued => EventKind_Queued
  | JobEvent_Starting => EventKind_Starting
  | JobEvent_Spawned _ => EventKind_Spawned
  | JobEvent_Exited _ => EventKind_Exited
  | JobEvent_LaunchFailed _ => EventKind_LaunchFailed
  | JobEvent_SupervisorGone => EventKind_SupervisorGone
  | JobEvent_Killed => EventKind_Killed
  | JobEvent_MemoryLimitExceeded => EventKind_MemoryLimitExceeded
  end.

Definition JobState_accepted : JobState := mkJobState Phase_Accepted.

(** [Default for JobState] *)
Definition JobState_default : JobState := JobState_accepted.

Definition JobState_kind (state : JobState) : PhaseKind :=
  match phase state with
  | Phase_Accepted => PhaseKind_Accepted
  | Phase_Queued => PhaseKind_Queued
  | Phase_Starting => PhaseKind_Starting
  | Phase_Running _ => PhaseKind_Running
  | Phase_Finished _ => PhaseKind_Finished
  end.

Definition JobState_outcome (state : JobState) : option JobOutcome :=
  match phase state with
  | Phase_Finished outcome => Some outcome
  | Phase_Accepted | Phase_Queued | Phase_Starting | Phase_Running _ => None
  end.

Definition JobState_pid (state : JobState) : option N :=
  match phase state with
  | Phase_Running pid => Some pid
  | Phase_Accepted | Phase_Queued | Phase_Starting | Phase_Finished _ => None
  end.

Definition command_completion (state : JobState) : result JobEvent CommandCompletionError :=
  match JobState_outcome state with
  | Some JobOutcome_Succeeded => Ok (JobEvent_Exited 0)
  | Some (JobOutcome_Failed code) => Ok (JobEvent_Exited (NonZeroI32_get code))
  | Some (JobOutcome_LaunchFailed reason) => Ok (JobEvent_LaunchFailed reason)
  | Some (JobOutcome_Lost | JobOutcome_Killed | JobOutcome_MemoryLimitExceeded) =>
      Err CommandCompletionError_InvalidOutcome
  | None => Err CommandCompletionError_Unfinished
  end.

(** [&mut self]: the state is returned with the result. *)
Definition advance (state : JobState) (event : JobEvent) : JobState * result unit InvalidTransition :=
  let invalid := Err (mkInvalidTransition (JobState_kind state) (JobEvent_kind event)) in
  let next :=
    match phase state, event with
    | Phase_Accepted, JobEvent_Queued => Ok Phase_Queued
    | (Phase_Accepted | Phase_Queued), JobEvent_Starting => Ok Phase_Starting
    | Phase_Starting, JobEvent_Spawned pid =>
        if negb (pid =? 0) then Ok (Phase_Running pid) else invalid
    | (Phase_Accepted | Phase_Queued | Phase_Starting | Phase_Running _), JobEvent_LaunchFailed reason =>
        Ok (Phase_Finished (JobOutcome_LaunchFailed reason))
    | (Phase_Accepted | Phase_Queued | Phase_Starting | Phase_Running _), JobEvent_SupervisorGone =>
        Ok (Phase_Finished JobOutcome_Lost)
    | Phase_Running _, JobEvent_Exited code =>
        Ok (Phase_Finished match NonZeroI32_new code with
                           | Some code => JobOutcome_Failed code
                           | None => JobOutcome_Succeeded
                           end)
    | (Phase_Accepted | Phase_Queued | Phase_Starting | Phase_Running _), JobEvent_Killed =>
        Ok (Phase_Finished JobOutcome_Killed)
    | Phase_Running _, JobEvent_MemoryLimitExceeded =>
        Ok (Phase_Finished JobOutcome_MemoryLimitExceeded)
    | _, _ => invalid
    end in
  match next with
  | Err e => (state, Err e)
  | Ok next => (mkJobState next, Ok tt)
  end.

(** *** job_protocol.rs *)

Inductive State := State_Absent | State_Accepted | State_Active | State_Finished.

Definition State_from (phase : PhaseKind) : State :=
  match phase with
  | PhaseKind_Accepted => State_Accepted
  | PhaseKind_Queued | PhaseKind_Starting | PhaseKind_Running => State_Active
  | PhaseKind_Finished => State_Finished
  end.

Inductive Action :=
| Action_Submit (same_request : bool)
| Action_Attach
| Action_Disconnect
| Action_Reap.

Inductive JobRefusal := JobRefusal_Missing | JobRefusal_Conflict | JobRefusal_NotActive.

Definition protocol_step (state : State) (action : Action) : result State JobRefusal :=
  match state, action with
  | State_Absent, Action_Submit _ => Ok State_Accepted
  | (State_Accepted | State_Active | State_Finished), Action_Submit false => Err JobRefusal_Conflict
  | (State_Accepted | State_Active | State_Finished), Action_Submit true
  | _, Action_Disconnect
  | (State_Active | State_Finished), Action_Attach => Ok state
  | State_Accepted, Action_Attach => Ok State_Active
  | State_Absent, Action_Attach => Err JobRefusal_Missing
  | State_Active, Action_Reap => Ok State_Finished
  | (State_Absent | State_Accepted | State_Finished), Action_Reap => Err JobRefusal_NotActive
  end.

(** ** Lemmas *)

Lemma NonZeroI32_inj a b : NonZeroI32_get a = NonZeroI32_get b -> a = b.
Proof. destruct a, b; cbn. intros ->. f_equal. apply proof_irrel. Qed.

Lemma NonZeroI32_new_get code : NonZeroI32_new (NonZeroI32_get code) = Some code.
Proof.
  unfold NonZeroI32_new. case_decide as H; [f_equal; by apply NonZeroI32_inj|by destruct code].
Qed.

(** How far a job has come. *)
Definition phase_rank (state : JobState) : N :=
  match JobState_kind state with
  | PhaseKind_Accepted => 0
  | PhaseKind_Queued => 1
  | PhaseKind_Starting => 2
  | PhaseKind_Running => 3
  | PhaseKind_Finished => 4
  end.

Definition wf_state (state : JobState) : Prop := JobState_pid state <> Some 0.

(** [advance_all] folds events, stopping at the first that is refused. *)
Fixpoint advance_all (state : JobState) (events : list JobEvent) :
  JobState * result unit InvalidTransition :=
  match events with
  | [] => (state, Ok tt)
  | event :: events =>
      match advance state event with
      | (state, Ok _) => advance_all state events
      | (state, Err e) => (state, Err e)
      end
  end.

Lemma advance_spec state event :
  match advance state event with
  | (state', Ok _) =>
      phase_rank state < phase_rank state' /\ (wf_state state -> wf_state state')
  | (state', Err e) =>
      state' = state /\ e = mkInvalidTransition (JobState_kind state) (JobEvent_kind event)
  end.
Proof.
  destruct state as [[| | |pid|out]], event as [| |p|code|r| | |]; unfold advance; cbn;
    try destruct (N.eqb_spec p 0); cbn; try done;
    (split; [done|]); unfold wf_state; cbn; congruence.
Qed.

Lemma advance_all_rank events : forall state state',
  advance_all state events = (state', Ok tt) ->
  phase_rank state + N.of_nat (length events) <= phase_rank state' /\
  (wf_state state -> wf_state state').
Proof.
  induction events as [|event events IH]; intros state state'; cbn [advance_all length].
  { intros [= <-]. split; [lia|done]. }
  pose proof (advance_spec state event) as Hs. destruct (advance state event) as [s1 [[]|e]]; [|done].
  destruct Hs as [Hlt Hwf]. intros [Hle Hwf']%IH. split; [lia|auto].
Qed.

Lemma phase_rank_max state : phase_rank state <= 4.
Proof. unfold phase_rank. destruct (JobState_kind state); lia. Qed.

(** ** Properties *)

(** C28: a job only moves forward and ends once.  Every accepted event takes it to a strictly later
    phase and keeps its process identifier nonzero; every refused one leaves it as it was and names
    the phase and the event; a finished job refuses all events; and no more than four events are
    ever accepted. *)
Theorem job_lifecycle (state : JobState) (event : JobEvent) :
  match advance state event with
  | (state', Ok _) => phase_rank state < phase_rank state' /\ (wf_state state -> wf_state state')
  | (state', Err e) =>
      state' = state /\ e = mkInvalidTransition (JobState_kind state) (JobEvent_kind event)
  end /\
  (JobState_outcome state <> None -> is_ok (advance state event).2 = false) /\
  (forall events final, advance_all JobState_accepted events = (final, Ok tt) ->
     (length events <= 4)%nat /\ wf_state final).
Proof.
  split; [apply advance_spec|]. split.
  - destruct state as [[| | |pid|out]]; cbn; try done.
  - intros events final H. apply advance_all_rank in H as [Hle Hwf].
    pose proof (phase_rank_max final) as Hmax. split; [cbn in Hle; lia|]. by apply Hwf.
Qed.

(** C27: jobs refine the client protocol.  Seen through [State::from], each accepted event is a
    sequence of protocol steps (none, an attach, a reap, or an attach and a reap), a fresh job is
    where submitting leads, and in the protocol a submission creates a job only where there is
    none, is idempotent for the same request, conflicts with another one, and a finished job stays
    finished whatever clients do. *)
Theorem job_refines_protocol (state : JobState) (event : JobEvent) (same : bool) :
  (forall state', advance state event = (state', Ok tt) ->
     rtc (fun s s' => exists action, protocol_step s action = Ok s')
       (State_from (JobState_kind state)) (State_from (JobState_kind state'))) /\
  protocol_step State_Absent (Action_Submit same) = Ok (State_from (JobState_kind JobState_default)) /\
  protocol_step (State_from (JobState_kind state)) (Action_Submit same) =
    (if same then Ok (State_from (JobState_kind state)) else Err JobRefusal_Conflict) /\
  (forall action s, protocol_step State_Finished action = Ok s -> s = State_Finished) /\
  (forall s action, protocol_step s action = Ok State_Absent -> s = State_Absent).
Proof.
  split; [|split; [done|split; [|split]]].
  - intros state'.
    assert (Hattach : exists action, protocol_step State_Accepted action = Ok State_Active)
      by (by exists Action_Attach).
    assert (Hreap : exists action, protocol_step State_Active action = Ok State_Finished)
      by (by exists Action_Reap).
    destruct state as [[| | |pid|out]], event as [| |p|code|r| | |]; unfold advance; cbn;
      try destruct (p =? 0); cbn; try done; intros [= <-]; cbn;
      first [ apply rtc_refl | by apply rtc_once | by eapply rtc_l, rtc_once ].
  - by destruct state as [[]], same.
  - intros [[]| | |] s; cbn; by intros [= <-].
  - intros [] [[]| | |]; cbn; done.
Qed.

(** Stored jobs come back.  A state survives the conversion to its stored form and back exactly
    when its process identifier is nonzero, which every reachable state has; and a command's
    recorded completion replays: the event that finished a running job with an exit code or a
    launch failure is the one [command_completion] returns. *)
Theorem job_state_roundtrip (state : JobState) (pid : N) (event : JobEvent) :
  (JobState_try_from (RawJobState_from state) = Ok state <-> wf_state state) /\
  (forall raw, JobState_try_from raw = Ok state -> RawJobState_from state = raw /\ wf_state state) /\
  (match event with JobEvent_Exited _ | JobEvent_LaunchFailed _ => true | _ => false end = true ->
   command_completion (advance (mkJobState (Phase_Running pid)) event).1 = Ok event) /\
  (JobState_outcome state = None -> command_completion state = Err CommandCompletionError_Unfinished).
Proof.
  unfold wf_state, JobState_try_from, RawJobState_from. split; [|split; [|split]].
  - destruct state as [[| | |p|out]]; cbn; try done.
    destruct (N.eqb_spec p 0) as [->|Hp]; cbn; split; congruence.
  - intros [[| | |p|out]]; cbn; try (by intros [= <-]).
    destruct (N.eqb_spec p 0) as [->|Hp]; cbn; [done|]. intros [= <-]. cbn.
    split; [done|congruence].
  - destruct event as [| |p|code|r| | |]; try done. intros _. cbn.
    unfold command_completion; cbn. destruct (NonZeroI32_new code) as [c|] eqn:E.
    + f_equal. f_equal. unfold NonZeroI32_new in E. case_decide; [|done]. by injection E as <-.
    + unfold NonZeroI32_new in E. case_decide as H; [done|].
      destruct (Z.eqb code 0) eqn:Ec; [apply Z.eqb_eq in Ec; by rewrite Ec|].
      exfalso. apply H. by rewrite ?Ec.
  - unfold command_completion. by intros ->.
Qed.
