(* ===== verification/Wire.v ===== *)
(** wire.rs and ingress.rs: length-prefixed control frames, the messages they carry, snapshots, and
    the bounded decoding of what comes in. *)

From Stdlib Require Import NArith ZArith Lia String Ascii.
From stdpp Require Import base gmap list strings.
From S2P Require Import Prelude RustStr RustText Ids Event Ledger ChatWire Domain JobState.

(** ** Definitions *)

Definition MAX_CONTROL_BYTES : N := 1048576.
Definition MAX_SNAPSHOT_BYTES : N := 67108864.
Definition CONTROL_HEADER_BYTES : N := 4.
Definition SNAPSHOT_DIGEST_HEX_CHARS : N := 64.

Record BuildId := BuildId_from_fingerprint { BuildId_fingerprint : N }.

Inductive WireError :=
| WireError_Incomplete
| WireError_Trailing
| WireError_TooLarge
| WireError_Snapshot
| WireError_Json.

Record ControlLength := mkControlLength { ControlLength_bytes : N }.

(** [usize::try_from(u32)] does not fail: [usize] is 64 bits wide. *)
Definition ControlLength_try_from (header : list N) : result ControlLength WireError :=
  let length := from_be_bytes header in
  if MAX_CONTROL_BYTES <? length then Err WireError_TooLarge else Ok (mkControlLength length).

(** [frame.get(..n)] and [frame.get(n..)] *)
Definition get_to (n : N) (frame : list N) : option (list N) :=
  if n <=? N.of_nat (length frame) then Some (take (N.to_nat n) frame) else None.
Definition get_from (n : N) (frame : list N) : option (list N) :=
  if n <=? N.of_nat (length frame) then Some (drop (N.to_nat n) frame) else None.

Definition payload (frame : list N) : result (list N) WireError :=
  let? header := ok_or (get_to CONTROL_HEADER_BYTES frame) WireError_Incomplete in
  let? length_ := ControlLength_try_from header in
  let? expected := ok_or (checked_add usize_max (ControlLength_bytes length_) CONTROL_HEADER_BYTES)
                     WireError_TooLarge in
  if N.of_nat (length frame) <? expected then Err WireError_Incomplete else
  if expected <? N.of_nat (length frame) then Err WireError_Trailing else
  ok_or (get_from CONTROL_HEADER_BYTES frame) WireError_Incomplete.

(** [serde_json::to_vec] and [serde_json::from_slice] are the library's functions. *)
Section json.
Context {T : Type} (to_vec : T -> option (list N)) (from_slice : list N -> option T).

Definition frame (message : T) : result (list N) WireError :=
  let? json := ok_or (to_vec message) WireError_Json in
  if MAX_CONTROL_BYTES <? N.of_nat (length json) then Err WireError_TooLarge else
  let? length_ := (if N.of_nat (length json) <=? u32_max then Ok (N.of_nat (length json))
                   else Err WireError_TooLarge) in
  Ok (to_be_bytes 4 length_ ++ json).

Inductive JsonError := JsonError_TooLarge (limit : N) | JsonError_Invalid.

Definition json (bytes : list N) (limit : N) : result T JsonError :=
  if limit <? N.of_nat (length bytes) then Err (JsonError_TooLarge limit) else
  ok_or (from_slice bytes) JsonError_Invalid.

Definition decode_payload (bytes : list N) : result T WireError :=
  if MAX_CONTROL_BYTES <? N.of_nat (length bytes) then Err WireError_TooLarge else
  ok_or (from_slice bytes) WireError_Json.

(** [decode], and with it [request] and [reply] *)
Definition decode_frame (frame : list N) : result T WireError :=
  let? bytes := payload frame in
  decode_payload bytes.

(** [stored_job] *)
Definition stored_job (bytes : list N) : result T WireError :=
  if MAX_CONTROL_BYTES <? N.of_nat (length bytes) then Err WireError_TooLarge else
  ok_or (from_slice bytes) WireError_Json.

Definition MAX_FOREIGN_BYTES : N := MAX_CONTROL_BYTES.
Definition foreign_json (text : string) : result T JsonError := json (bytes text) MAX_FOREIGN_BYTES.
End json.

(** The private fields are only ever set by [TryFrom<RawSnapshot>]. *)
Record RawSnapshot := mkRawSnapshot { RawSnapshot_bytes : N; RawSnapshot_digest : string }.

Definition snapshot_valid (raw : RawSnapshot) : bool :=
  negb ((MAX_SNAPSHOT_BYTES <? RawSnapshot_bytes raw)
        || negb (str_len (RawSnapshot_digest raw) =? SNAPSHOT_DIGEST_HEX_CHARS)
        || negb (forallb (fun byte => is_ascii_digit byte || is_a_to_f byte)
                   (bytes (RawSnapshot_digest raw)))).

Record Snapshot := mkSnapshot {
  Snapshot_bytes : N;
  Snapshot_digest : string;
  Snapshot_ok : Is_true (snapshot_valid (mkRawSnapshot Snapshot_bytes Snapshot_digest))
}.

Definition Snapshot_new (bytes : N) (digest : string) : result Snapshot WireError :=
  match decide (Is_true (snapshot_valid (mkRawSnapshot bytes digest))) with
  | left H => Ok (mkSnapshot bytes digest H)
  | right _ => Err WireError_Snapshot
  end.

Definition Snapshot_try_from (raw : RawSnapshot) : result Snapshot WireError :=
  Snapshot_new (RawSnapshot_bytes raw) (RawSnapshot_digest raw).

Definition RawSnapshot_from (snapshot : Snapshot) : RawSnapshot :=
  mkRawSnapshot (Snapshot_bytes snapshot) (Snapshot_digest snapshot).

Inductive CleanTarget := CleanTarget_Job (job : JobId) | CleanTarget_Finished.

Inductive Input := Input_Home | Input_Snapshot (snapshot : Snapshot).

Inductive Request :=
| Request_Hello
| Request_Chat (request : ChatRequest)
| Request_Run (submission : SubmissionId) (command : Command) (input : Input)
| Request_List
| Request_Status (job : JobId)
| Request_Logs (job : JobId)
| Request_Wait (job : JobId)
| Request_Kill (job : JobId)
| Request_Clean (target : CleanTarget).

Inductive ErrorCode :=
| ErrorCode_InvalidRequest
| ErrorCode_MissingJob
| ErrorCode_ConflictingSubmission
| ErrorCode_Unsupported
| ErrorCode_CorruptState
| ErrorCode_ResourceLimit
| ErrorCode_Internal.

Inductive Reply :=
| Reply_Hello (build : BuildId)
| Reply_Chat (reply : ChatReply)
| Reply_Accepted (job : JobId)
| Reply_Jobs (jobs : list JobId)
| Reply_Status (state : JobState)
| Reply_Logs (text : RemoteText) (omitted : N)
| Reply_Cleaned (count : N)
| Reply_Error (code : ErrorCode).

Inductive Unexpected := Unexpected_Refused (code : ErrorCode) | Unexpected_Other.

Definition Reply_unexpected (reply : Reply) : Unexpected :=
  match reply with
  | Reply_Error code => Unexpected_Refused code
  | Reply_Hello _ | Reply_Chat _ | Reply_Accepted _ | Reply_Jobs _ | Reply_Status _ | Reply_Logs _ _
  | Reply_Cleaned _ => Unexpected_Other
  end.

(** The macro [reply_variant!]: the value of the expected variant, or what came instead. *)
Definition reply_variant {A} (expected : Reply -> option A) (reply : Reply) : result A Unexpected :=
  match expected reply with
  | Some value => Ok value
  | None => Err (Reply_unexpected reply)
  end.

Definition into_hello :=
  reply_variant (fun r => match r with Reply_Hello build => Some build | _ => None end).
Definition into_accepted :=
  reply_variant (fun r => match r with Reply_Accepted job => Some job | _ => None end).
Definition into_jobs :=
  reply_variant (fun r => match r with Reply_Jobs jobs => Some jobs | _ => None end).
Definition into_status :=
  reply_variant (fun r => match r with Reply_Status state => Some state | _ => None end).
Definition into_logs :=
  reply_variant (fun r => match r with Reply_Logs text omitted => Some (text, omitted) | _ => None end).
Definition into_cleaned :=
  reply_variant (fun r => match r with Reply_Cleaned count => Some count | _ => None end).
Definition into_chat :=
  reply_variant (fun r => match r with Reply_Chat reply => Some reply | _ => None end).

(** ** Equality *)

#[export] Instance RawSnapshot_eq_dec : EqDecision RawSnapshot.
Proof. solve_decision. Defined.
Lemma RawSnapshot_from_inj a b : RawSnapshot_from a = RawSnapshot_from b -> a = b.
Proof. destruct a, b; cbn. intros [= -> ->]. f_equal. apply proof_irrel. Qed.
#[export] Instance Snapshot_eq_dec : EqDecision Snapshot := inj_eq_dec _ RawSnapshot_from_inj.
#[export] Instance Input_eq_dec : EqDecision Input.
Proof. solve_decision. Defined.
#[export] Instance CleanTarget_eq_dec : EqDecision CleanTarget.
Proof. solve_decision. Defined.
#[export] Instance Request_eq_dec : EqDecision Request.
Proof. solve_decision. Defined.

(** ** Lemmas *)

Lemma from_to_be_bytes n : n <= u32_max -> from_be_bytes (to_be_bytes 4 n) = n.
Proof.
  unfold u32_max. intros Hn. cbn [to_be_bytes from_be_bytes fold_left].
  change (256 ^ N.of_nat 3) with 16777216. change (256 ^ N.of_nat 2) with 65536.
  change (256 ^ N.of_nat 1) with 256. change (256 ^ N.of_nat 0) with 1.
  dlia.
Qed.

Lemma to_from_be_bytes l :
  length l = 4%nat -> Forall (fun b => b < 256) l -> to_be_bytes 4 (from_be_bytes l) = l.
Proof.
  destruct l as [|b0 [|b1 [|b2 [|b3 [|]]]]]; try done. intros _ Hf.
  repeat match goal with H : Forall _ (_ :: _) |- _ => inversion H as [|?? ? ?]; subst; clear H end.
  cbn [to_be_bytes from_be_bytes fold_left].
  change (256 ^ N.of_nat 3) with 16777216. change (256 ^ N.of_nat 2) with 65536.
  change (256 ^ N.of_nat 1) with 256. change (256 ^ N.of_nat 0) with 1.
  repeat f_equal; dlia.
Qed.

Lemma length_to_be_bytes w n : length (to_be_bytes w n) = w.
Proof. induction w; cbn; congruence. Qed.

Lemma payload_frame p :
  N.of_nat (length p) <= MAX_CONTROL_BYTES ->
  payload (to_be_bytes 4 (N.of_nat (length p)) ++ p) = Ok p.
Proof.
  intros Hp. unfold payload, get_to, get_from, CONTROL_HEADER_BYTES. rewrite length_app, length_to_be_bytes.
  rewrite (proj2 (N.leb_le 4 _)) by lia. cbn [ok_or]. rewrite take_app_length' by (by rewrite length_to_be_bytes).
  unfold ControlLength_try_from, MAX_CONTROL_BYTES in *.
  rewrite from_to_be_bytes by (unfold u32_max; lia). rewrite (proj2 (N.ltb_ge _ _)) by lia.
  cbn [ControlLength_bytes]. unfold checked_add.
  rewrite (proj2 (N.leb_le _ _)) by (unfold usize_max, u64_max; lia). cbn [ok_or].
  rewrite (proj2 (N.ltb_ge _ _)) by lia. rewrite (proj2 (N.ltb_ge _ _)) by lia.
  by rewrite drop_app_length' by (by rewrite length_to_be_bytes).
Qed.

Lemma payload_ok f p :
  Forall (fun b => b < 256) f -> payload f = Ok p ->
  f = to_be_bytes 4 (N.of_nat (length p)) ++ p /\ N.of_nat (length p) <= MAX_CONTROL_BYTES.
Proof.
  intros Hf. unfold payload, get_to, get_from, CONTROL_HEADER_BYTES, ControlLength_try_from.
  destruct (N.leb_spec 4 (N.of_nat (length f))) as [H4|H4]; cbn [ok_or]; [|done].
  set (n := from_be_bytes (take (N.to_nat 4) f)).
  destruct (N.ltb_spec MAX_CONTROL_BYTES n) as [Hn|Hn]; [done|]. cbn [ControlLength_bytes].
  destruct (checked_add usize_max n 4) as [e|] eqn:He; cbn [ok_or]; [|done].
  apply checked_add_Some in He as [-> _].
  destruct (N.ltb_spec (N.of_nat (length f)) (n + 4)); [done|].
  destruct (N.ltb_spec (n + 4) (N.of_nat (length f))); [done|]. intros [= <-].
  assert (Hlen : N.of_nat (length (drop (N.to_nat 4) f)) = n) by (rewrite length_drop; lia).
  rewrite Hlen. split; [|done]. rewrite <- (take_drop (N.to_nat 4) f) at 1. f_equal. symmetry.
  apply to_from_be_bytes; [rewrite length_take; lia|]. by apply Forall_take.
Qed.

Lemma Snapshot_new_ok b d s :
  Snapshot_new b d = Ok s <-> RawSnapshot_from s = mkRawSnapshot b d.
Proof.
  unfold Snapshot_new, RawSnapshot_from. split.
  - case_decide; [|done]. by intros [= <-].
  - destruct s as [b' d' H]; cbn. intros [= -> ->]. case_decide; [|done]. do 2 f_equal. apply proof_irrel.
Qed.

(** ** Properties *)

(** Control frames are unambiguous.  A byte string is a frame with payload [p] exactly when it is
    the four big-endian bytes of the length of [p] followed by [p], at most 1 MiB; in particular
    framing a message and reading the frame gives its encoding back, one byte less is incomplete and
    one byte more is trailing. *)
Theorem frames_unambiguous (f p : list N) (wellformed : Forall (fun b => b < 256) f) :
  (payload f = Ok p <->
     f = to_be_bytes 4 (N.of_nat (length p)) ++ p /\ N.of_nat (length p) <= MAX_CONTROL_BYTES) /\
  (forall T (to_vec : T -> option (list N)) message,
     frame to_vec message = Ok f -> to_vec message = Some p -> payload f = Ok p) /\
  (payload f = Ok p -> forall extra, payload (f ++ [extra]) = Err WireError_Trailing) /\
  (payload f = Ok p -> forall f' last, f = f' ++ [last] -> payload f' = Err WireError_Incomplete).
Proof.
  assert (Hiff : payload f = Ok p <->
     f = to_be_bytes 4 (N.of_nat (length p)) ++ p /\ N.of_nat (length p) <= MAX_CONTROL_BYTES).
  { split; [by apply payload_ok|]. intros [-> Hp]. by apply payload_frame. }
  split; [done|]. split.
  { intros T to_vec message. unfold frame. destruct (to_vec message) as [j|]; cbn [ok_or]; [|done].
    destruct (N.ltb_spec MAX_CONTROL_BYTES (N.of_nat (length j))); [done|].
    destruct (N.of_nat (length j) <=? u32_max); [|done]. intros [= <-] [= ->].
    by apply payload_frame. }
  assert (Hhead : forall n k, n <= MAX_CONTROL_BYTES ->
    ControlLength_try_from (take 4 (to_be_bytes 4 n ++ k)) = Ok (mkControlLength n)).
  { intros n k Hn. rewrite take_app_length' by (by rewrite length_to_be_bytes). unfold ControlLength_try_from.
    rewrite from_to_be_bytes by (unfold u32_max, MAX_CONTROL_BYTES in *; lia).
    by rewrite (proj2 (N.ltb_ge _ _)) by lia. }
  split; intros [-> Hp]%Hiff.
  - intros extra. rewrite <- app_assoc. unfold payload, get_to, CONTROL_HEADER_BYTES.
    rewrite length_app, length_to_be_bytes, (proj2 (N.leb_le 4 _)) by lia. cbn [ok_or N.to_nat].
    change (Pos.to_nat 4) with 4%nat. rewrite Hhead by done. cbn [ControlLength_bytes].
    unfold checked_add. unfold MAX_CONTROL_BYTES in Hp.
    rewrite (proj2 (N.leb_le _ _)) by (unfold usize_max, u64_max; lia). cbn [ok_or].
    rewrite length_app. cbn [length].
    rewrite (proj2 (N.ltb_ge _ _)), (proj2 (N.ltb_lt _ _)) by lia. done.
  - intros f' last Hf'. destruct p as [|x p0] using rev_ind.
    { apply (f_equal length) in Hf' as Hl. rewrite !length_app, length_to_be_bytes in Hl. cbn in Hl.
      unfold payload, get_to, CONTROL_HEADER_BYTES. by rewrite (proj2 (N.leb_gt 4 _)) by lia. }
    rewrite app_assoc in Hf'. apply app_inj_tail in Hf' as [<- _].
    unfold payload, get_to, CONTROL_HEADER_BYTES.
    rewrite !length_app, length_to_be_bytes, (proj2 (N.leb_le 4 _)) by lia. cbn [ok_or N.to_nat].
    change (Pos.to_nat 4) with 4%nat. rewrite length_app in Hp. cbn [length] in *.
    rewrite Hhead by lia. cbn [ControlLength_bytes]. unfold checked_add.
    unfold MAX_CONTROL_BYTES in Hp.
    rewrite (proj2 (N.leb_le _ _)) by (unfold usize_max, u64_max; lia). cbn [ok_or].
    by rewrite (proj2 (N.ltb_lt _ _)) by lia.
Qed.

Lemma frames_unambiguous_witness : payload [0; 0; 0; 2; 7; 8] = Ok [7; 8].
Proof.
  apply (frames_unambiguous [0; 0; 0; 2; 7; 8] [7; 8]); [repeat constructor|].
  split; [vm_compute; reflexivity|vm_compute; discriminate].
Defined.

(** C32: a message that is sent is the message that is received.  Given that decoding JSON inverts
    encoding it, reading the frame of a message returns that message; and a message has a frame
    whenever its encoding exists and takes at most 1 MiB. *)
Theorem messages_roundtrip {T} (to_vec : T -> option (list N)) (from_slice : list N -> option T)
    (message : T)
    (inverse : forall json, to_vec message = Some json -> from_slice json = Some message) :
  (forall f, frame to_vec message = Ok f -> decode_frame from_slice f = Ok message) /\
  (is_ok (frame to_vec message) = true <->
     exists json, to_vec message = Some json /\ N.of_nat (length json) <= MAX_CONTROL_BYTES).
Proof.
  unfold frame, decode_frame. destruct (to_vec message) as [j|]; cbn [ok_or].
  2:{ split; [done|]. split; [done|naive_solver]. }
  destruct (N.ltb_spec MAX_CONTROL_BYTES (N.of_nat (length j))) as [H|H].
  { split; [done|]. split; [done|]. intros (j' & [= <-] & ?). lia. }
  rewrite (proj2 (N.leb_le _ u32_max)) by (unfold u32_max, MAX_CONTROL_BYTES in *; lia).
  split; [|split; [naive_solver|done]]. intros f Hf.
  replace f with (to_be_bytes 4 (N.of_nat (length j)) ++ j) by congruence.
  rewrite payload_frame by done.
  unfold decode_payload. rewrite (proj2 (N.ltb_ge _ _)) by done.
  by rewrite (inverse j eq_refl).
Qed.

Lemma messages_roundtrip_witness :
  decode_frame Some [0; 0; 0; 3; 1; 2; 3] = Ok [1; 2; 3].
Proof.
  apply (messages_roundtrip Some Some [1; 2; 3] (fun json E => eq_sym E)). vm_compute. reflexivity.
Defined.

(** Snapshots are bounded and named by a digest: a size and a digest make a snapshot exactly when
    the size is at most 64 MiB and the digest is 64 lowercase hexadecimal digits, and it keeps both;
    and each accessor of a reply returns the value of its own variant, the code of an error, and
    nothing else. *)
Theorem snapshots_and_replies (size : N) (digest : string) (reply : Reply) :
  (is_ok (Snapshot_new size digest) = true <->
     size <= MAX_SNAPSHOT_BYTES /\ str_len digest = 64 /\
     Forall (fun b => 48 <= b <= 57 \/ 97 <= b <= 102) (bytes digest)) /\
  (forall s, Snapshot_try_from (RawSnapshot_from s) = Ok s) /\
  (forall job, into_accepted reply = Ok job <-> reply = Reply_Accepted job) /\
  (forall state, into_status reply = Ok state <-> reply = Reply_Status state) /\
  (forall text omitted, into_logs reply = Ok (text, omitted) <-> reply = Reply_Logs text omitted) /\
  (forall code, into_accepted reply = Err (Unexpected_Refused code) <-> reply = Reply_Error code).
Proof.
  split.
  { unfold Snapshot_new. transitivity (snapshot_valid (mkRawSnapshot size digest) = true).
    { case_decide as H; cbn; split; try done.
      - intros _. by apply Is_true_true.
      - intros Hv. exfalso. by apply H, Is_true_true. }
    unfold snapshot_valid, SNAPSHOT_DIGEST_HEX_CHARS. cbn [RawSnapshot_bytes RawSnapshot_digest].
    rewrite negb_true_iff, !orb_false_iff, !negb_false_iff, N.ltb_ge, N.eqb_eq, forallb_forall.
    rewrite Forall_forall. unfold is_ascii_digit, is_a_to_f.
    setoid_rewrite orb_true_iff. setoid_rewrite in_range_spec. setoid_rewrite <- list_elem_of_In.
    tauto. }
  split.
  { intros s. unfold Snapshot_try_from. by apply Snapshot_new_ok. }
  unfold into_accepted, into_status, into_logs, reply_variant.
  destruct reply; cbn; repeat split; intros; simplify_eq; done.
Qed.
