(* ===== verification/Database.v ===== *)
(** chat/store/tables.rs, the prefix of chat/store/handoff.rs and the errors of chat/store.rs: the text
    keys of the chat store's tables, the tables, what they ask of the database library redb, and the
    records they hold as JSON.  Keys compare bytewise, so the text of a key decides the order of its row.
    A database is an argument of everything the store does; its laws say what redb documents: a table is a
    map from keys to values which iterates in the order of the keys, and an operation changes the row it
    names and no other.  A read of an open transaction is taken to succeed, where the code reports an
    error of the storage; a write or a commit may fail. *)

From Stdlib Require Import NArith Lia String Ascii Sorted.
From stdpp Require Import base gmap list strings.
From S2P Require Import Prelude SortedLists RustStr RustText Ids AgentLists Notification Handoff Event Ledger.
From S2P Require Import Policy Wire.

(** ** Definitions *)

(** [\u{1f}] and [\u{7f}] *)
Definition unit_separator : ascii := "031".
Definition delete_char : ascii := "127".

Definition order_key (event : Event) : string :=
  String.app (hex_fixed 16 (Event_clock event))
    (String ":" (String.app (as_str (Event_origin event))
       (String ":" (hex_fixed 16 (nz_get (EventId_seq (Event_id event))))))).

Definition thread_key (conversation : Conversation) (order : string) : string :=
  String.app (Conversation_fmt conversation) (String unit_separator order).

Definition thread_bounds (conversation : Conversation) : string * string :=
  (String.app (Conversation_fmt conversation) (String unit_separator EmptyString),
   String.app (Conversation_fmt conversation)
     (String unit_separator (String delete_char EmptyString))).

Definition joined_key (agent : AgentId) (conversation : Conversation) : string :=
  String.app (AgentId_fmt agent) (String unit_separator (Conversation_fmt conversation)).

Definition room_key (room : RoomId) : string := Conversation_fmt (Conversation_Room room).

Definition event_key (id : EventId) : string := EventId_fmt id.

Definition delivery_key (agent : AgentId) (request : EventId) : string :=
  String.app (AgentId_fmt agent) (String unit_separator (EventId_fmt request)).

(** The [prefix] of the scans over one agent's rows. *)
Definition agent_prefix (agent : AgentId) : string :=
  String.app (AgentId_fmt agent) (String unit_separator EmptyString).

(** ** Comparing texts *)

Local Notation compare := String.compare.

Lemma compare_refl s : compare s s = Eq.
Proof. exact (cmp_refl s). Qed.

Lemma compare_app_same p a b : compare (String.app p a) (String.app p b) = compare a b.
Proof.
  induction p as [|c p IH]; [done|]. rewrite !app_cons. cbn. unfold Ascii.compare.
  by rewrite N.compare_refl.
Qed.

(** Texts of one length decide before what follows them. *)
Lemma compare_app_length a b x y :
  String.length a = String.length b ->
  compare (String.app a x) (String.app b y) = match compare a b with Eq => compare x y | c => c end.
Proof.
  revert b. induction a as [|c a IH]; intros [|d b]; try done. intros [= Hl]. rewrite !app_cons. cbn.
  destruct (Ascii.compare c d); [by apply IH|done|done].
Qed.

Lemma compare_cons c x y : compare (String c x) (String c y) = compare x y.
Proof. cbn. unfold Ascii.compare. by rewrite N.compare_refl. Qed.

(** Fixed-width hexadecimal compares like the numbers. *)
Lemma compare_hex_digit d e : d < 16 -> e < 16 -> Ascii.compare (hex_digit d) (hex_digit e) = (d ?= e).
Proof.
  intros Hd He. unfold Ascii.compare. rewrite !hex_digit_code by done.
  destruct (N.ltb_spec d 10), (N.ltb_spec e 10); destruct (N.compare_spec d e);
    [apply N.compare_eq_iff|apply N.compare_lt_iff|apply N.compare_gt_iff
    |apply N.compare_eq_iff|apply N.compare_lt_iff|apply N.compare_gt_iff
    |apply N.compare_eq_iff|apply N.compare_lt_iff|apply N.compare_gt_iff
    |apply N.compare_eq_iff|apply N.compare_lt_iff|apply N.compare_gt_iff]; lia.
Qed.

Lemma digits_compare k a b x y : x < k -> y < k ->
  (k * a + x ?= k * b + y) = match a ?= b with Eq => x ?= y | c => c end.
Proof.
  intros Hx Hy. destruct (N.compare_spec a b) as [->|H|H].
  - destruct (N.compare_spec x y); [apply N.compare_eq_iff|apply N.compare_lt_iff|apply N.compare_gt_iff]; lia.
  - apply N.compare_lt_iff. nia.
  - apply N.compare_gt_iff. nia.
Qed.

Lemma compare_hex_fixed w n m :
  compare (hex_fixed w n) (hex_fixed w m) = (n mod 16 ^ N.of_nat w ?= m mod 16 ^ N.of_nat w).
Proof.
  induction w as [|w IH].
  { rewrite !N.mod_1_r. done. }
  rewrite Nat2N.inj_succ, N.pow_succ_r', N.mul_comm.
  rewrite !N.Div0.mod_mul_r. rewrite !(N.add_comm (_ mod 16 ^ N.of_nat w)).
  rewrite digits_compare by (apply N.mod_lt, N.pow_nonzero; done).
  change (hex_fixed (S w) ?k) with (String (hex_digit ((k / 16 ^ N.of_nat w) mod 16)) (hex_fixed w k)).
  cbn [String.compare]. rewrite compare_hex_digit by (by apply N.mod_lt). by rewrite IH.
Qed.

Lemma compare_hex_u64 n m : n <= u64_max -> m <= u64_max ->
  compare (hex_fixed 16 n) (hex_fixed 16 m) = (n ?= m).
Proof.
  unfold u64_max. intros Hn Hm. rewrite compare_hex_fixed.
  by rewrite !N.mod_small by (change (16 ^ N.of_nat 16) with 18446744073709551616; lia).
Qed.

(** A range from a text to that text and a last character holds texts with that prefix. *)
Lemma prefix_of_range p c k :
  compare p k <> Gt -> compare k (String.app p (String c EmptyString)) = Lt ->
  exists t, k = String.app p t.
Proof.
  revert k. induction p as [|a p IH]; intros k; [eauto|]. rewrite app_cons.
  destruct k as [|b k]; [done|]. cbn.
  rewrite (Ascii.compare_antisym b a). destruct (Ascii.compare a b) eqn:E; cbn; try done.
  apply Ascii.compare_eq_iff in E as ->. intros H1 H2. destruct (IH k H1 H2) as [t ->].
  exists t. by rewrite app_cons.
Qed.

Lemma range_of_prefix p c t :
  compare t (String c EmptyString) = Lt ->
  compare p (String.app p t) <> Gt /\ compare (String.app p t) (String.app p (String c EmptyString)) = Lt.
Proof.
  intros Ht. rewrite compare_app_same. split; [|done].
  clear Ht. induction p as [|a p IH]; [by destruct t|]. rewrite app_cons. by rewrite compare_cons.
Qed.

(** Texts without the separator are told apart by it. *)
Lemma separated sep a b x y :
  contains_ascii sep a = false -> contains_ascii sep b = false ->
  String.app a (String sep x) = String.app b (String sep y) -> a = b /\ x = y.
Proof.
  revert b. induction a as [|c a IH]; intros [|d b]; rewrite ?app_empty, ?app_cons.
  - by intros _ _ [= ->].
  - intros _ Hb [= <- _]. unfold contains_ascii in Hb. cbn in Hb. by rewrite Ascii.eqb_refl in Hb.
  - intros Ha _ [= -> _]. unfold contains_ascii in Ha. cbn in Ha. by rewrite Ascii.eqb_refl in Ha.
  - unfold contains_ascii. cbn. rewrite !orb_false_iff. intros [_ Ha] [_ Hb] [= -> H].
    by destruct (IH b Ha Hb H) as [-> ->].
Qed.

(** ** Lemmas about the keys *)

Lemma AgentId_fmt_inj a b : AgentId_fmt a = AgentId_fmt b -> a = b.
Proof. intros H%AgentId_canonical. pose proof (proj2 (AgentId_canonical _ b) eq_refl) as Hb. congruence. Qed.
Lemma EventId_fmt_inj a b : EventId_fmt a = EventId_fmt b -> a = b.
Proof. intros H%EventId_canonical. pose proof (proj2 (EventId_canonical _ b) eq_refl) as Hb. congruence. Qed.
Lemma Conversation_fmt_inj a b : Conversation_fmt a = Conversation_fmt b -> a = b.
Proof.
  intros H%Conversation_canonical. pose proof (proj2 (Conversation_canonical _ b) eq_refl) as Hb. congruence.
Qed.

Lemma contains_ascii_cons sep c s : contains_ascii sep (String c s) = Ascii.eqb sep c || contains_ascii sep s.
Proof. done. Qed.

Lemma AgentId_fmt_no_sep a : contains_ascii unit_separator (AgentId_fmt a) = false.
Proof.
  unfold AgentId_fmt. rewrite contains_ascii_app, contains_ascii_cons.
  rewrite (valid_handle_not_contains unit_separator) by (done || apply AgentName_handle).
  by rewrite (Origin_not_contains unit_separator).
Qed.

Lemma Conversation_fmt_no_sep c : contains_ascii unit_separator (Conversation_fmt c) = false.
Proof.
  destruct c as [p|r]; cbn [Conversation_fmt].
  - rewrite !contains_ascii_app, !contains_ascii_cons, !AgentId_fmt_no_sep. done.
  - unfold RoomId_fmt. rewrite !contains_ascii_app, !contains_ascii_cons.
    rewrite (Origin_not_contains unit_separator) by done.
    by rewrite (RoomName_not_contains unit_separator).
Qed.

Lemma length_Origin (o : Origin) : String.length (as_str o) = 32%nat.
Proof.
  pose proof (Origin_lower_hex o) as H. unfold lower_hex in H. apply andb_true_iff in H as [H _].
  apply N.eqb_eq in H. unfold str_len in H. lia.
Qed.

(** Every key of the two kinds begins with a character below [\u{7f}]. *)
Lemma order_key_below e : compare (order_key e) (String delete_char EmptyString) = Lt.
Proof.
  unfold order_key.
  change (hex_fixed 16 ?k) with (String (hex_digit ((k / 16 ^ N.of_nat 15) mod 16)) (hex_fixed 15 k)) at 1.
  rewrite app_cons. cbn [String.compare]. set (d := (_ / _) mod 16). assert (Hd : d < 16) by (by apply N.mod_lt).
  assert (H : Ascii.compare (hex_digit d) delete_char = Lt).
  { unfold Ascii.compare. rewrite hex_digit_code by done. apply N.compare_lt_iff.
    change (N_of_ascii delete_char) with 127. case_match; lia. }
  by rewrite H.
Qed.

(** ** What the keys promise *)

(** The text order of two events' keys is the order of the events. *)
Lemma order_key_compare e1 e2 :
  cmp (order_key e1) (order_key e2) = cmp (Event_order e1) (Event_order e2).
Proof.
  pose proof (Event_bounds e1). pose proof (Event_bounds e2).
  pose proof (nz_bounds (EventId_seq (Event_id e1))). pose proof (nz_bounds (EventId_seq (Event_id e2))).
  unfold order_key, Event_order. unfold cmp at 1, string_Ord.
  rewrite compare_app_length by (by rewrite !length_hex_fixed). rewrite compare_hex_u64 by lia.
  unfold cmp at 1, pair_Ord at 1. unfold cmp at 1, N_Ord.
  destruct (_ ?= _); [|done|done]. rewrite compare_cons.
  rewrite compare_app_length by (by rewrite !length_Origin). rewrite compare_cons.
  rewrite compare_hex_u64 by lia. unfold cmp, pair_Ord. unfold cmp at 1, Validated_Ord. done.
Qed.

Lemma order_key_inj e1 e2 : order_key e1 = order_key e2 -> Event_order e1 = Event_order e2.
Proof.
  intros H. pose proof (order_key_compare e1 e2) as Hc. rewrite H, cmp_refl in Hc.
  by apply cmp_eq_iff.
Qed.

Lemma order_key_lt e1 e2 : cmp_lt (order_key e1) (order_key e2) <-> cmp_lt (Event_order e1) (Event_order e2).
Proof. unfold cmp_lt. by rewrite order_key_compare. Qed.

Lemma thread_key_inj c1 o1 c2 o2 : thread_key c1 o1 = thread_key c2 o2 -> c1 = c2 /\ o1 = o2.
Proof.
  intros H. apply separated in H as [H ->]; [|apply Conversation_fmt_no_sep..].
  split; [by apply Conversation_fmt_inj|done].
Qed.

Lemma thread_key_cmp c o1 o2 : cmp (thread_key c o1) (thread_key c o2) = cmp o1 o2.
Proof. unfold thread_key, cmp, string_Ord. by rewrite compare_app_same, compare_cons. Qed.

Lemma app_single p c t : String.app (String.app p (String c EmptyString)) t = String.app p (String c t).
Proof. induction p as [|d p IH]; [done|]. by rewrite !app_cons, IH. Qed.

(** The range of a conversation holds exactly its events' keys. *)
Lemma thread_range c c' e :
  (cmp_le (thread_bounds c).1 (thread_key c' (order_key e)) /\
   cmp_lt (thread_key c' (order_key e)) (thread_bounds c).2) <-> c' = c.
Proof.
  unfold thread_bounds. cbn [fst snd].
  set (p := String.app (Conversation_fmt c) (String unit_separator EmptyString)).
  assert (Hp : String.app (Conversation_fmt c) (String unit_separator (String delete_char EmptyString))
    = String.app p (String delete_char EmptyString)) by (unfold p; by rewrite app_single).
  rewrite Hp. split.
  - intros [H1 H2]. destruct (prefix_of_range p delete_char (thread_key c' (order_key e))) as [t Ht].
    + unfold cmp_le, cmp_lt in H1. intros Hgt. apply H1. by apply cmp_gt_lt.
    + exact H2.
    + unfold p in Ht. rewrite app_single in Ht. by destruct (thread_key_inj c' (order_key e) c t Ht).
  - intros ->.
    destruct (range_of_prefix p delete_char (order_key e) (order_key_below e)) as [H1 H2].
    unfold p in H1, H2 at 1. rewrite app_single in H1, H2. split; [|exact H2].
    unfold cmp_le, cmp_lt. intros Hlt. apply H1. by apply cmp_gt_lt.
Qed.

Lemma thread_range_before c c' e before :
  (cmp_le (thread_bounds c).1 (thread_key c' (order_key e)) /\
   cmp_lt (thread_key c' (order_key e)) (thread_key c (order_key before))) <->
  c' = c /\ cmp_lt (Event_order e) (Event_order before).
Proof.
  split.
  - intros [H1 H2]. assert (c' = c) as ->.
    { apply (thread_range c c' e). split; [done|]. transitivity (thread_key c (order_key before)); [done|].
      by apply (thread_range c c before). }
    split; [done|]. unfold cmp_lt in H2. rewrite thread_key_cmp in H2. by apply order_key_lt.
  - intros [-> H]. split; [by apply (thread_range c c e)|].
    unfold cmp_lt. rewrite thread_key_cmp. by apply order_key_lt.
Qed.

(** The scan of an agent's rows stops at the first row of another agent. *)
Lemma agent_prefix_strip a b t :
  strip_prefix (agent_prefix a) (String.app (AgentId_fmt b) (String unit_separator t)) =
  if decide (a = b) then Some t else None.
Proof.
  unfold agent_prefix. case_decide as H.
  - subst b. rewrite <- (app_single _ _ t). apply strip_prefix_app.
  - destruct (strip_prefix _ _) as [u|] eqn:E; [|done]. apply strip_prefix_inv in E.
    rewrite app_single in E. apply separated in E as [E _]; [|apply AgentId_fmt_no_sep..].
    apply AgentId_fmt_inj in E. congruence.
Qed.

Lemma delivery_key_inj a1 e1 a2 e2 : delivery_key a1 e1 = delivery_key a2 e2 -> a1 = a2 /\ e1 = e2.
Proof.
  intros H. apply separated in H as [H1 H2]; [|apply AgentId_fmt_no_sep..].
  split; [by apply AgentId_fmt_inj|by apply EventId_fmt_inj].
Qed.

Lemma joined_key_inj a1 c1 a2 c2 : joined_key a1 c1 = joined_key a2 c2 -> a1 = a2 /\ c1 = c2.
Proof.
  intros H. apply separated in H as [H1 H2]; [|apply AgentId_fmt_no_sep..].
  split; [by apply AgentId_fmt_inj|by apply Conversation_fmt_inj].
Qed.

Lemma room_key_inj r1 r2 : room_key r1 = room_key r2 -> r1 = r2.
Proof. unfold room_key. intros H%Conversation_fmt_inj. congruence. Qed.

(** ** Definitions *)

(** The tables, by the types of their values. *)
Inductive TextTable :=
| EVENTS | ORDER | THREADS | JOINED | META | RESOLUTIONS | OPEN | STARTED | PROFILES | MACHINES
| ROOMS | LOCAL_AGENTS | TURNS | READS | DELIVERY | ACTIVITY | ESCALATIONS | URGENT
| HANDOFF_HEADERS | HANDOFF_READERS | HANDOFF_READS | PEERS | LINKS.
#[export] Instance TextTable_eq_dec : EqDecision TextTable.
Proof. solve_decision. Defined.

Inductive NumberTable := ACKS | COUNTERS.
#[export] Instance NumberTable_eq_dec : EqDecision NumberTable.
Proof. solve_decision. Defined.

Inductive Table : Type -> Type :=
| Text_table (t : TextTable) : Table string
| Number_table (t : NumberTable) : Table N
| CURSORS : Table (N * N)
| TOMBSTONES : Table (N * list N).
Coercion Text_table : TextTable >-> Table.
Coercion Number_table : NumberTable >-> Table.

(** The name a table has in the database. *)
Definition label {V} (table : Table V) : string :=
  match table with
  | Text_table t =>
      match t with
      | EVENTS => "events" | ORDER => "order" | THREADS => "threads" | JOINED => "joined"
      | META => "meta" | RESOLUTIONS => "resolutions" | OPEN => "open_asks" | STARTED => "started"
      | PROFILES => "profiles" | MACHINES => "machines" | ROOMS => "rooms"
      | LOCAL_AGENTS => "local_agents" | TURNS => "turns" | READS => "reads"
      | DELIVERY => "delivery" | ACTIVITY => "activity" | ESCALATIONS => "escalations"
      | URGENT => "urgent" | HANDOFF_HEADERS => "handoff_headers"
      | HANDOFF_READERS => "handoff_readers" | HANDOFF_READS => "handoff_reads"
      | PEERS => "peers" | LINKS => "links"
      end
  | Number_table ACKS => "acks"
  | Number_table COUNTERS => "counters"
  | CURSORS => "cursors"
  | TOMBSTONES => "tombstones"
  end%string.

(** redb: [D] is a transaction's view of the database, [S] its storage errors. *)
Class Redb (D S : Type) := {
  redb_get : forall {V}, D -> Table V -> string -> option V;
  redb_iter : forall {V}, D -> Table V -> list (string * V);
  redb_insert : forall {V}, D -> Table V -> string -> V -> D * result unit S;
  redb_remove : forall {V}, D -> Table V -> string -> D * result (option V) S;
  redb_commit : D -> result unit S
}.

(** [table.range(first..last)] and [table.range(first..)] *)
Definition redb_range {D S V} `{Redb D S} (d : D) (t : Table V) (first last : string) : list (string * V) :=
  List.filter (fun row => cmp_leb first row.1 && cmp_ltb row.1 last) (redb_iter d t).
Definition redb_range_from {D S V} `{Redb D S} (d : D) (t : Table V) (first : string) : list (string * V) :=
  List.filter (fun row => cmp_leb first row.1) (redb_iter d t).

Class RedbLaws (D S : Type) `{!Redb D S} : Prop := {
  iter_sorted : forall {V} (d : D) (t : Table V), StronglySorted cmp_lt (map fst (redb_iter d t));
  iter_elem : forall {V} (d : D) (t : Table V) k v, (k, v) ∈ redb_iter d t <-> redb_get d t k = Some v;
  insert_same : forall {V} (d d' : D) (t : Table V) k v, redb_insert d t k v = (d', Ok tt) ->
    forall k', redb_get d' t k' = if decide (k' = k) then Some v else redb_get d t k';
  insert_other : forall {V W} (d d' : D) (t : Table V) (u : Table W) k v,
    redb_insert d t k v = (d', Ok tt) -> label u <> label t ->
    forall k', redb_get d' u k' = redb_get d u k';
  remove_same : forall {V} (d d' : D) (t : Table V) k o, redb_remove d t k = (d', Ok o) ->
    o = redb_get d t k /\
    forall k', redb_get d' t k' = if decide (k' = k) then None else redb_get d t k';
  remove_other : forall {V W} (d d' : D) (t : Table V) (u : Table W) k o,
    redb_remove d t k = (d', Ok o) -> label u <> label t ->
    forall k', redb_get d' u k' = redb_get d u k'
}.

(** The store's errors; [State] stands for those of files beside the database, and those of locks
    and of entropy are not modelled. *)
Inductive StoreError (S : Type) :=
| StoreError_Handoff (refusal : ReadRefusal)
| StoreError_State (error : S)
| StoreError_Storage (error : S)
| StoreError_Json
| StoreError_Record (error : JsonError)
| StoreError_Corrupt (what : string)
| StoreError_IdentityChanged
| StoreError_Format (found : string)
| StoreError_Rejected (rejection : Rejection)
| StoreError_Refused (refusal : Refusal)
| StoreError_Invalid (invalid : Invalid)
| StoreError_Unknown (what : string)
| StoreError_Ambiguous (what : string).
Arguments StoreError_Handoff {S} _.
Arguments StoreError_State {S} _.
Arguments StoreError_Storage {S} _.
Arguments StoreError_Json {S}.
Arguments StoreError_Record {S} _.
Arguments StoreError_Corrupt {S} _.
Arguments StoreError_IdentityChanged {S}.
Arguments StoreError_Format {S} _.
Arguments StoreError_Rejected {S} _.
Arguments StoreError_Refused {S} _.
Arguments StoreError_Invalid {S} _.
Arguments StoreError_Unknown {S} _.
Arguments StoreError_Ambiguous {S} _.

Definition StoreError_from {S} (failure : Failure (StoreError S)) : StoreError S :=
  match failure with
  | Failure_Store error => error
  | Failure_Rejected rejection => StoreError_Rejected rejection
  | Failure_Invalid invalid => StoreError_Invalid invalid
  end.

(** *** Records *)

(** [LocalAgent] of chat/store/views.rs *)
Record LocalAgent := mkLocalAgent { LocalAgent_cwd : string; LocalAgent_session : option string }.
#[export] Instance LocalAgent_eq_dec : EqDecision LocalAgent.
Proof. solve_decision. Defined.

(** serde_json on one type. *)
Class Json (T : Type) := {
  json_to_string : T -> option string;
  json_from_str : string -> option T
}.

Definition MAX_RECORD : N := 1024 * 1024.

Definition store_decode {S T} `{Json T} (text : string) : result T (StoreError S) :=
  map_err StoreError_Record (json (fun b => json_from_str (of_bytes b)) (bytes text) MAX_RECORD).

Definition store_encode {S T} `{Json T} (value : T) : result string (StoreError S) :=
  ok_or (json_to_string value) StoreError_Json.

(** A record is read back as it was written. *)
Class JsonLaws (T : Type) `{!Json T} : Prop := {
  json_inverse : forall (v : T) s, json_to_string v = Some s -> json_from_str s = Some v;
  json_small : forall (v : T) s, json_to_string v = Some s -> str_len s <= MAX_RECORD
}.

(** serde_json and blake3 on the store's records; an event is encoded as it is sealed. *)
Class StoreCodec `{Codec} := {
  Event_from_str : string -> option Event;
  #[global] Resolution_Json :: Json Resolution;
  #[global] Card_Json :: Json Card;
  #[global] MachineCard_Json :: Json MachineCard;
  #[global] Room_Json :: Json Room;
  #[global] Delivery_Json :: Json Delivery;
  #[global] Activity_Json :: Json Activity;
  #[global] Descriptor_Json :: Json Descriptor;
  #[global] LocalAgent_Json :: Json LocalAgent
}.
#[export] Instance Event_Json `{StoreCodec} : Json Event := {
  json_to_string := to_string;
  json_from_str := Event_from_str
}.

Class StoreCodecLaws `{StoreCodec} : Prop := {
  Event_inverse : forall e s, to_string e = Some s -> Event_from_str s = Some e;
  hash_length : forall l, length (blake3_hash l) = 32%nat;
  #[global] Resolution_JsonLaws :: JsonLaws Resolution;
  #[global] Card_JsonLaws :: JsonLaws Card;
  #[global] MachineCard_JsonLaws :: JsonLaws MachineCard;
  #[global] Room_JsonLaws :: JsonLaws Room;
  #[global] Delivery_JsonLaws :: JsonLaws Delivery;
  #[global] Activity_JsonLaws :: JsonLaws Activity;
  #[global] Descriptor_JsonLaws :: JsonLaws Descriptor;
  #[global] LocalAgent_JsonLaws :: JsonLaws LocalAgent
}.

(** *** Writing

    A writing function takes the transaction and gives the one it leaves; [?] stops at the first
    error, and whoever began the transaction drops it then. *)

Declare Scope store_scope.
Delimit Scope store_scope with store.

Definition Write (D S A : Type) : Type := D -> D * result A (StoreError S).

Definition write_ok {D S A} (a : A) : Write D S A := fun d => (d, Ok a).
Definition write_err {D S A} (e : StoreError S) : Write D S A := fun d => (d, Err e).
Definition write_bind {D S A B} (m : Write D S A) (k : A -> Write D S B) : Write D S B :=
  fun d => match m d with (d, Ok a) => k a d | (d, Err e) => (d, Err e) end.
(** A computation that does not touch the database, and one that reads it. *)
Definition write_lift {D S A} (r : result A (StoreError S)) : Write D S A := fun d => (d, r).
Definition write_read {D S A} (f : D -> result A (StoreError S)) : Write D S A := fun d => (d, f d).

Notation "'let*' x ':=' m 'in' k" := (write_bind m (fun x => k))
  (at level 200, x pattern, m at level 100, k at level 200, right associativity) : store_scope.
Notation "'do*' m 'in' k" := (write_bind m (fun _ => k))
  (at level 200, m at level 100, k at level 200, right associativity) : store_scope.

Section redb.
Context {D S : Type} `{!Redb D S}.

Definition table_insert {V} (t : Table V) (k : string) (v : V) : Write D S unit :=
  fun d => let '(d, r) := redb_insert d t k v in (d, map_err StoreError_Storage r).
Definition table_remove {V} (t : Table V) (k : string) : Write D S (option V) :=
  fun d => let '(d, r) := redb_remove d t k in (d, map_err StoreError_Storage r).

(** [for x in xs { body?; }] *)
Fixpoint for_each {A} (xs : list A) (body : A -> Write D S unit) : Write D S unit :=
  match xs with
  | [] => write_ok tt
  | x :: xs => (do* body x in for_each xs body)%store
  end.

(** *** The readers of tables.rs *)

Definition get_json {T} `{Json T} (d : D) (t : Table string) (key : string) :
  result (option T) (StoreError S) :=
  match redb_get d t key with
  | None => Ok None
  | Some value => map_ok Some (store_decode value)
  end.

Definition get_text (d : D) (t : Table string) (key : string) : option string := redb_get d t key.

Definition get_number (d : D) (t : Table N) (key : string) : N := default 0 (redb_get d t key).
End redb.
