(* ===== verification/Views.v ===== *)
(** chat/store/views.rs: what the store's readers answer from its tables. *)

From Stdlib Require Import NArith Lia String Ascii.
From stdpp Require Import base gmap list strings.
From S2P Require Import Prelude SortedLists RustStr Ids AgentLists Notification Handoff Event.
From S2P Require Import Ledger Policy Database Wire.

(** ** Definitions *)

(** Derived order: direct conversations before rooms. *)
#[export] Instance RoomId_Ord : Ord RoomId := fun a b => cmp (RoomId_fields a) (RoomId_fields b).
#[export] Instance RoomId_OrdLaws : OrdLaws RoomId := OrdLaws_inj _ RoomId_fields_inj.
#[export] Instance Conversation_Ord : Ord Conversation := fun a b =>
  match a, b with
  | Conversation_Direct p, Conversation_Direct q => cmp (DirectPair_agents p) (DirectPair_agents q)
  | Conversation_Direct _, Conversation_Room _ => Lt
  | Conversation_Room _, Conversation_Direct _ => Gt
  | Conversation_Room r, Conversation_Room s => cmp r s
  end.

Inductive Stored :=
| Stored_Event (event : Event) (encoded : string)
| Stored_Cleaned (clock : N) (digest : Digest).

Inductive InboxMode := InboxMode_All | InboxMode_Unread | InboxMode_Pending.

Record InboxQuery := mkInboxQuery {
  InboxQuery_after : string;
  InboxQuery_limit : N;
  InboxQuery_mode : InboxMode
}.

Record Presence := mkPresence {
  Presence_queued : N;
  Presence_working_on : option EventId;
  Presence_online : bool;
  Presence_state : ActivityState;
  Presence_latest_call : option Stamp;
  Presence_status : option (Line MAX_STATUS_BYTES)
}.

Definition Presence_default : Presence := mkPresence 0 None false ActivityState_Stalled None None.

Record Directory := mkDirectory {
  Directory_agents : gmap AgentId (Card * Presence);
  Directory_machines : gmap Origin MachineCard
}.

Section views.
Context {D S : Type} `{!Redb D S} `{!Codec} `{!StoreCodec}.
Implicit Types (d : D).

Definition view_stored d (id : EventId) : result (option Stored) (StoreError S) :=
  let key := event_key id in
  match redb_get d EVENTS key with
  | Some encoded =>
      let? event := store_decode encoded in
      if negb (bool_decide (Event_id event = id)) then Err (StoreError_Corrupt "event identity") else
      Ok (Some (Stored_Event event encoded))
  | None =>
      match redb_get d TOMBSTONES key with
      | None => Ok None
      | Some (clock, digest) =>
          if Nat.eqb (length digest) 32
          then Ok (Some (Stored_Cleaned clock (Digest_from_bytes digest)))
          else Err (StoreError_Corrupt "tombstone")
      end
  end.

Definition view_event d (id : EventId) : result (option Event) (StoreError S) :=
  let? stored := view_stored d id in
  Ok (match stored with
      | Some (Stored_Event event _) => Some event
      | Some (Stored_Cleaned _ _) | None => None
      end).

Definition view_cursor d (origin : Origin) : Cursor :=
  match redb_get d CURSORS (as_str origin) with
  | Some (seen, clock) => mkCursor seen clock
  | None => Cursor_default
  end.

Definition view_resolution d (request : EventId) : result (option Resolution) (StoreError S) :=
  get_json d RESOLUTIONS (event_key request).

Definition view_delivery d (agent : AgentId) (request : EventId) : result Delivery (StoreError S) :=
  map_ok (default Delivery_default) (get_json d DELIVERY (delivery_key agent request)).

Definition view_activity d (agent : AgentId) : result (option Activity) (StoreError S) :=
  get_json d ACTIVITY (AgentId_fmt agent).

Definition view_profile d (agent : AgentId) : result (option Card) (StoreError S) :=
  get_json d PROFILES (AgentId_fmt agent).

Definition view_room d (room : RoomId) : result (option Room) (StoreError S) :=
  get_json d ROOMS (room_key room).

Definition usage d : Usage := mkUsage (get_number d COUNTERS "events") (get_number d COUNTERS "bytes").

Definition entries {T} `{Json T} d (t : TextTable) : result (list (string * T)) (StoreError S) :=
  try_map (fun '(key, value) => let? value := store_decode value in Ok (key, value)) (redb_iter d t).

Definition parse_entries {K T} `{Json T} (try_from : string -> result K Invalid) d (t : TextTable) :
  result (list (K * T)) (StoreError S) :=
  let? found := entries d t in
  try_map (fun '(key, value) =>
             map_err (fun _ => StoreError_Corrupt "stored chat key")
               (map_ok (fun key => (key, value)) (try_from key))) found.

Definition view_rooms d : result (list (Conversation * Room)) (StoreError S) :=
  parse_entries Conversation_try_from d ROOMS.

Definition agent_config d (name : AgentName) : result (option LocalAgent) (StoreError S) :=
  get_json d LOCAL_AGENTS (as_str name).

Definition local_agents d : result (list (AgentName * LocalAgent)) (StoreError S) :=
  parse_entries AgentName_try_from d LOCAL_AGENTS.

Definition view_open_asks d : result (list (EventId * AgentId)) (StoreError S) :=
  try_map (fun '(request, responder) =>
             let? request := map_err StoreError_Invalid (EventId_try_from request) in
             let? responder := map_err StoreError_Invalid (AgentId_try_from responder) in
             Ok (request, responder))
    (redb_iter d OPEN).

Definition event_at d (id : string) : result (option Event) (StoreError S) :=
  let? id := map_err StoreError_Invalid (EventId_try_from id) in
  view_event d id.

(** The loop of [thread]: [events] is what has been pushed. *)
Fixpoint thread_loop d (rows : list (string * string)) (limit : N) (events : list Event) :
  result (list Event) (StoreError S) :=
  match rows with
  | [] => Ok events
  | (_, id) :: rows =>
      if limit <=? N.of_nat (length events) then Ok events else
      let? event := event_at d id in
      thread_loop d rows limit (match event with Some event => events ++ [event] | None => events end)
  end.

Definition view_thread d (conversation : Conversation) (limit : N) (before : option Event) :
  result (list Event) (StoreError S) :=
  let '(first, last) := thread_bounds conversation in
  let end_ := match before with
              | Some event => thread_key conversation (order_key event)
              | None => last
              end in
  map_ok (@rev Event) (thread_loop d (rev (redb_range d THREADS first end_)) limit []).

(** The rows of one agent: up to the first key without its prefix. *)
Fixpoint agent_rows {V} (prefix : string) (rows : list (string * V)) : list (string * V) :=
  match rows with
  | [] => []
  | (key, value) :: rows =>
      match strip_prefix prefix key with
      | Some rest => (rest, value) :: agent_rows prefix rows
      | None => []
      end
  end.

Definition conversations_of d (agent : AgentId) : result (list Conversation) (StoreError S) :=
  let prefix := agent_prefix agent in
  let? found := try_map (fun row => map_err StoreError_Invalid (Conversation_try_from row.1))
                  (agent_rows prefix (redb_range_from d JOINED prefix)) in
  let? rooms := view_rooms d in
  let found := found ++ map fst (List.filter (fun '(_, room) =>
                 AgentList_contains (Room_members room) agent) rooms) in
  Ok (dedup (sort found)).

Definition addressed (event : Event) (agent : AgentId) : bool :=
  match Event_body event with
  | Body_Message _ _ _ _ _ _ notice =>
      negb (bool_decide (Event_author event = Some agent))
      && match notice with None => true | Some notice => AgentList_contains (Notice_recipients notice) agent end
  | Body_Resolved _ _ _ _ _ => negb (bool_decide (Event_author event = Some agent))
  | _ => false
  end.

Definition is_message (event : Event) : bool :=
  match Event_body event with Body_Message _ _ _ _ _ _ _ => true | _ => false end.

Definition selected d (agent : AgentId) (mode : InboxMode) (event : Event) : result bool (StoreError S) :=
  match mode with
  | InboxMode_All => Ok true
  | InboxMode_Unread =>
      if is_message event then
        let? delivery := view_delivery d agent (Event_id event) in
        Ok (Delivery_rank delivery <? Delivery_rank Delivery_Read)
      else
        Ok (cmp_ltb (default EmptyString (get_text d READS (AgentId_fmt agent))) (order_key event))
  | InboxMode_Pending =>
      if is_message event then
        let? delivery := view_delivery d agent (Event_id event) in
        Ok (bool_decide (delivery = Delivery_Pending))
      else Ok false
  end.

(** The rows of one conversation after a position, with the order in place of the key. *)
Definition thread_rows d (after : string) (conversation : Conversation) :
  result (list (string * string)) (StoreError S) :=
  let '(_, last) := thread_bounds conversation in
  let? rows := try_map (fun '(key, id) =>
                 let? (_, order) := ok_or (rsplit_once unit_separator key) (StoreError_Corrupt "thread key") in
                 Ok (order, id))
                 (redb_range d THREADS (thread_key conversation after) last) in
  Ok (List.filter (fun '(order, _) => cmp_ltb after order) rows).

Fixpoint messages_loop d (agent : AgentId) (query : InboxQuery) (found : list (string * string))
    (events : list Event) : result (list Event) (StoreError S) :=
  match found with
  | [] => Ok events
  | (_, id) :: found =>
      if InboxQuery_limit query <=? N.of_nat (length events) then Ok events else
      let? event := event_at d id in
      match event with
      | None => messages_loop d agent query found events
      | Some event =>
          let? chosen := selected d agent (InboxQuery_mode query) event in
          messages_loop d agent query found
            (if addressed event agent && chosen then events ++ [event] else events)
      end
  end.

Definition find_messages d (agent : AgentId) (query : InboxQuery) : result (list Event) (StoreError S) :=
  let? conversations := conversations_of d agent in
  let? found := try_map (thread_rows d (InboxQuery_after query)) conversations in
  messages_loop d agent query (sort (concat found)) [].

Definition inbox d (agent : AgentId) (after : string) (limit : N) : result (list Event) (StoreError S) :=
  find_messages d agent (mkInboxQuery after limit InboxMode_All).
Definition selected_inbox d (agent : AgentId) (limit : N) (mode : InboxMode) :
  result (list Event) (StoreError S) :=
  find_messages d agent (mkInboxQuery EmptyString limit mode).
Definition unread d (agent : AgentId) (limit : N) : result (list Event) (StoreError S) :=
  selected_inbox d agent limit InboxMode_Unread.
Definition pending d (agent : AgentId) (limit : N) : result (list Event) (StoreError S) :=
  selected_inbox d agent limit InboxMode_Pending.

(** *** The directory *)

(** What an agent's last activity says of it; the clock is read for each agent. *)
Definition presence_of (now : Stamp) (current : option Activity) : Presence :=
  let state :=
    match current with
    | None => ActivityState_Stalled
    | Some activity =>
        activity_state (Activity_state activity) (Stamp_millis (Activity_at activity)) (Stamp_millis now)
          STALLED_MILLIS
    end in
  mkPresence 0 None (negb (bool_decide (state = ActivityState_Stalled))) state
    (option_map Activity_at current)
    (match current with Some activity => Activity_status activity | None => None end).

(** [directory.agents.get_mut(&agent)] and what is done with the presence it finds. *)
Definition update_presence (agents : gmap AgentId (Card * Presence)) (agent : AgentId)
    (update : Presence -> Presence) : gmap AgentId (Card * Presence) :=
  match agents !! agent with
  | Some (card, presence) => <[agent := (card, update presence)]> agents
  | None => agents
  end.

Definition queue_one (presence : Presence) : Presence :=
  mkPresence (saturating_add usize_max (Presence_queued presence) 1) (Presence_working_on presence)
    (Presence_online presence) (Presence_state presence) (Presence_latest_call presence)
    (Presence_status presence).
Definition work_on (request : EventId) (presence : Presence) : Presence :=
  mkPresence (Presence_queued presence) (Some request) (Presence_online presence)
    (Presence_state presence) (Presence_latest_call presence) (Presence_status presence).

(** The loop over STARTED: the request is parsed only for an agent that is listed. *)
Fixpoint started_loop (rows : list (string * string)) (agents : gmap AgentId (Card * Presence)) :
  result (gmap AgentId (Card * Presence)) (StoreError S) :=
  match rows with
  | [] => Ok agents
  | (request, agent) :: rows =>
      let? agent := map_err StoreError_Invalid (AgentId_try_from agent) in
      match agents !! agent with
      | Some _ =>
          let? request := map_err StoreError_Invalid (EventId_try_from request) in
          started_loop rows (update_presence agents agent (work_on request))
      | None => started_loop rows agents
      end
  end.

Definition directory d (now : AgentId -> Stamp) : result Directory (StoreError S) :=
  let? profiles := parse_entries (T := Card) AgentId_try_from d PROFILES in
  let? agents := try_map (fun '(agent, card) =>
                   let? current := view_activity d agent in
                   Ok (agent, (card, presence_of (now agent) current))) profiles in
  let agents := foldl (fun listed entry => <[entry.1 := entry.2]> listed) ∅ agents in
  let? asks := view_open_asks d in
  let agents := foldl (fun listed ask => update_presence listed ask.2 queue_one) agents asks in
  let? agents := started_loop (redb_iter d STARTED) agents in
  let? machines := parse_entries (T := MachineCard) Origin_try_from d MACHINES in
  Ok (mkDirectory agents (foldl (fun listed entry => <[entry.1 := entry.2]> listed) ∅ machines)).
End views.
