(* ===== verification/Tx.v ===== *)
(** chat/store/tx.rs, the recording half of chat/store/handoff.rs, and [Tx::author] and the
    transactions of chat/store.rs: the ledger kept in the tables of a database. *)

From Stdlib Require Import NArith Lia String Ascii.
From stdpp Require Import base gmap list strings.
From S2P Require Import Prelude SortedLists RustStr Ids AgentLists Notification Handoff Event.
From S2P Require Import Ledger Policy ChatWire Exchange Database Wire Views.

(** ** Definitions *)

(** A [Tx]; [write] is the transaction's view of the database. *)
Record Tx (D : Type) := mkTx { Tx_write : D; Tx_origin : Origin; Tx_appended : bool }.
Arguments mkTx {D} _ _ _.
Arguments Tx_write {D} _.
Arguments Tx_origin {D} _.
Arguments Tx_appended {D} _.

(** A [Store]: the committed database, the identity read from it, and the generation that the
    doorbell file of pulse.rs holds, if there is one. *)
Record Store (D : Type) := mkStore { Store_database : D; Store_origin : Origin; Store_bell : option N }.
Arguments mkStore {D} _ _ _.
Arguments Store_database {D} _.
Arguments Store_origin {D} _.
Arguments Store_bell {D} _.

(** formats.rs: identities of the files under formats/, which the build includes. *)
Record Formats := mkFormats { chat : string; previous_chat : string; legacy_chat : string }.

Definition compatible_chat (formats : Formats) (format : string) : bool :=
  bool_decide (format = chat formats) || bool_decide (format = previous_chat formats)
  || bool_decide (format = legacy_chat formats).

Section tx.
Context {D S : Type} `{!Redb D S} `{!Codec} `{!StoreCodec}.
Local Open Scope store_scope.

Notation Write := (Write D S).

(** *** handoff.rs *)

Definition handoff_prefix (reader : AgentId) (project : Project) (scope : Scope) : string :=
  String.app (AgentId_fmt reader) (String unit_separator
    (String.app (as_str (Project_line project)) (String unit_separator
       (String.app (as_str (Scope_line scope)) (String unit_separator EmptyString))))).

Definition handoff_record (event : Event) : Write unit :=
  match Event_body event with
  | Body_Handoff metadata text _ =>
      let* descriptor := write_lift (map_err StoreError_Invalid
                           (Descriptor_new (Event_id event) metadata text)) in
      let id := event_key (Event_id event) in
      let* encoded := write_lift (store_encode descriptor) in
      do* table_insert HANDOFF_HEADERS id encoded in
      for_each (AgentList_agents (Metadata_permitted_readers metadata)) (fun reader =>
        table_insert HANDOFF_READERS
          (String.app (handoff_prefix reader (Metadata_project metadata) (Metadata_scope metadata))
             (order_key event)) id)
  | _ => write_ok tt
  end.

Definition record_read (actor : AgentId) (handoff observation : EventId) : Write unit :=
  table_insert HANDOFF_READS (delivery_key actor handoff) (event_key observation).

(** *** tx.rs *)

Definition bump (key : string) (amount : N) : Write N :=
  let* value := write_read (fun d =>
    ok_or (checked_add u64_max (get_number d COUNTERS key) amount)
      (StoreError_Corrupt "chat counter overflow")) in
  do* table_insert COUNTERS key value in
  write_ok value.

Definition upsert {T} `{Json T} (table : TextTable) (key : string) (value : option T) : Write unit :=
  match value with
  | Some value =>
      let* encoded := write_lift (store_encode value) in
      table_insert table key encoded
  | None => do* table_remove table key in write_ok tt
  end.

Definition record_receipt (agent : AgentId) (request : EventId) (received : Delivery) : Write unit :=
  let* current := write_read (fun d => view_delivery d agent request) in
  let delivery := Delivery_observe current received in
  let key := delivery_key agent request in
  do* upsert DELIVERY key (Some delivery) in
  if decide (delivery = Delivery_Acknowledged)
  then do* table_remove URGENT key in write_ok tt
  else write_ok tt.

(** The index rows of an event in a conversation. *)
Definition record_thread (event : Event) (order id : string) : Write unit :=
  match Body_conversation (Event_body event) with
  | Some conversation =>
      do* table_insert THREADS (thread_key conversation order) id in
      match conversation with
      | Conversation_Direct agents =>
          for_each [DirectPair_first agents; DirectPair_second agents] (fun agent =>
            table_insert JOINED (joined_key agent conversation) EmptyString)
      | Conversation_Room _ => write_ok tt
      end
  | None => write_ok tt
  end.

Definition record_notice (event : Event) (id : string) : Write unit :=
  match Event_body event with
  | Body_Message conversation _ _ _ _ _ (Some notice) =>
      for_each (AgentList_agents (Notice_recipients notice)) (fun agent =>
        do* table_insert JOINED (joined_key agent conversation) EmptyString in
        if Notice_urgent notice
        then table_insert URGENT (delivery_key agent (Event_id event)) id
        else write_ok tt)
  | _ => write_ok tt
  end.

(** A reply acknowledges the message it answers. *)
Definition record_acknowledgment (event : Event) : Write unit :=
  match Event_body event with
  | Body_Message _ _ _ _ (Intent_Reply request) _ _ =>
      let* found := write_read (fun d => view_event d request) in
      match Event_author event, found with
      | Some author, Some parent =>
          match Event_body parent with
          | Body_Message _ _ _ _ _ _ notice =>
              if negb (bool_decide (Event_author parent = Some author))
                 && match notice with
                    | None => true
                    | Some notice => AgentList_contains (Notice_recipients notice) author
                    end
              then record_receipt author request Delivery_Acknowledged
              else write_ok tt
          | _ => write_ok tt
          end
      | _, _ => write_ok tt
      end
  | _ => write_ok tt
  end.

Definition record (sealed : Sealed) (cursor : Cursor) : Write unit :=
  let event := Sealed_event sealed in
  do* handoff_record event in
  let id := event_key (Event_id event) in
  let order := order_key event in
  do* table_insert EVENTS id (Sealed_encoded sealed) in
  do* table_insert ORDER order id in
  do* record_thread event order id in
  do* record_notice event id in
  do* record_acknowledgment event in
  do* table_insert CURSORS (as_str (Event_origin event)) (seen cursor, Cursor_clock cursor) in
  let* clock := write_read (fun d => Ok (N.max (get_number d COUNTERS "clock") (Event_clock event))) in
  do* table_insert COUNTERS "clock" clock in
  do* bump "events" 1 in
  do* bump "bytes" (str_len (Sealed_encoded sealed)) in
  do* bump "generation" 1 in
  write_ok tt.

Definition project (event : Event) (change : Change) : Write unit :=
  match change with
  | Change_Nothing => write_ok tt
  | Change_Profile agent card => upsert PROFILES (AgentId_fmt agent) card
  | Change_Machine card => upsert MACHINES (as_str (Event_origin event)) (Some card)
  | Change_Room id room => upsert ROOMS (room_key id) room
  | Change_Ask responder => table_insert OPEN (event_key (Event_id event)) (AgentId_fmt responder)
  | Change_Started request agent => table_insert STARTED (event_key request) (AgentId_fmt agent)
  | Change_Resolution request resolution wins =>
      if wins then
        let key := event_key request in
        do* upsert RESOLUTIONS key (Some resolution) in
        do* table_remove OPEN key in
        do* table_remove STARTED key in
        write_ok tt
      else write_ok tt
  | Change_Receipt request agent delivery => record_receipt agent request delivery
  | Change_Activity agent activity => upsert ACTIVITY (AgentId_fmt agent) (Some activity)
  | Change_HandoffRead request agent => record_read agent request (Event_id event)
  end.

Definition Tx_commit (tx : Tx D) (sealed : Sealed) (admitted : Admitted_) : Tx D * result unit (StoreError S) :=
  let '(d, r) :=
    (do* record sealed (Admitted_cursor admitted) in
     project (Sealed_event sealed) (Admitted_change admitted)) (Tx_write tx) in
  (mkTx d (Tx_origin tx) (match r with Ok _ => true | Err _ => Tx_appended tx end), r).

Definition Tx_digest (d : D) (id : EventId) : result (option Digest) (StoreError S) :=
  map_ok (option_map (fun stored =>
    match stored with
    | Stored_Event _ encoded => Digest_of (bytes encoded)
    | Stored_Cleaned _ digest => digest
    end)) (view_stored d id).

Definition Tx_parent (d : D) (id : EventId) : result Parent (StoreError S) :=
  map_ok (fun stored =>
    match stored with
    | Some (Stored_Event event _) =>
        match Event_body event with Body_Omitted => Parent_Opaque | _ => Parent_Present event end
    | Some (Stored_Cleaned _ _) => Parent_Opaque
    | None => Parent_Missing
    end) (view_stored d id).

#[export] Instance Tx_Ledger : Ledger (Tx D) (StoreError S) := {
  Ledger_local := Tx_origin;
  Ledger_cursor tx origin := Ok (view_cursor (Tx_write tx) origin);
  Ledger_digest tx id := Tx_digest (Tx_write tx) id;
  Ledger_parent tx id := Tx_parent (Tx_write tx) id;
  Ledger_resolution tx request := view_resolution (Tx_write tx) request;
  Ledger_clock tx := Ok (get_number (Tx_write tx) COUNTERS "clock");
  Ledger_has_room tx := Ok (fits_received (usage (Tx_write tx)));
  Ledger_commit := Tx_commit
}.

(** The [while] loop of [outgoing]; [fuel] bounds its iterations. *)
Fixpoint outgoing_loop (fuel : nat) (d : D) (local peer : Origin) (seq seen_ : N) (batch : Outgoing) :
  Outgoing * result unit (StoreError S) :=
  match fuel with
  | O => (batch, Ok tt)
  | Datatypes.S fuel =>
      if negb (seq <? seen_) then (batch, Ok tt) else
      match checked_add u64_max seq 1 with
      | None => (batch, Err (StoreError_Corrupt "sequence overflow"))
      | Some seq =>
          match NonZeroU64_new seq with
          | None => (batch, Err (StoreError_Corrupt "zero sequence"))
          | Some number =>
              let id := EventId_new local number in
              let offered :=
                match view_stored d id with
                | Err e => (batch, Err e)
                | Ok (Some (Stored_Event event _)) =>
                    let '(batch, taken) := offer_event batch event peer in
                    (batch, map_err StoreError_Invalid taken)
                | Ok (Some (Stored_Cleaned clock _)) =>
                    match map_err StoreError_Invalid (Event_new id clock Body_Omitted) with
                    | Err e => (batch, Err e)
                    | Ok placeholder =>
                        match map_err StoreError_Invalid (Sealed_new placeholder) with
                        | Err e => (batch, Err e)
                        | Ok sealed =>
                            let '(batch, taken) := Outgoing_offer batch sealed in (batch, Ok taken)
                        end
                    end
                | Ok None => (batch, Err (StoreError_Corrupt "local sequence has a gap"))
                end in
              match offered with
              | (batch, Err e) => (batch, Err e)
              | (batch, Ok true) => outgoing_loop fuel d local peer seq seen_ batch
              | (batch, Ok false) => (batch, Ok tt)
              end
          end
      end
  end.

Definition Tx_outgoing (tx : Tx D) (peer : Origin) (after : N) (batch : Outgoing) :
  Outgoing * result unit (StoreError S) :=
  let seen_ := seen (view_cursor (Tx_write tx) (Tx_origin tx)) in
  outgoing_loop (N.to_nat (seen_ - after)) (Tx_write tx) (Tx_origin tx) peer after seen_ batch.

Definition Tx_record_ack (tx : Tx D) (peer : Origin) (seen_ : N) : Tx D * result unit (StoreError S) :=
  let local := seen (view_cursor (Tx_write tx) (Tx_origin tx)) in
  let current := get_number (Tx_write tx) ACKS (as_str peer) in
  let next := N.max current (N.min seen_ local) in
  if negb (next =? current) then
    let '(d, r) := table_insert ACKS (as_str peer) next (Tx_write tx) in
    (mkTx d (Tx_origin tx) (Tx_appended tx), r)
  else (tx, Ok tt).

#[export] Instance Tx_Outbox : Outbox (Tx D) (StoreError S) := {
  Outbox_outgoing := Tx_outgoing;
  Outbox_ack tx peer := Ok (get_number (Tx_write tx) ACKS (as_str peer));
  Outbox_record_ack := Tx_record_ack
}.

(** *** store.rs *)

Definition Tx_author (tx : Tx D) (priority : Priority) (body : Body) : Tx D * result Event (StoreError S) :=
  match map_err StoreError_Refused (check_capacity (usage (Tx_write tx)) priority) with
  | Err e => (tx, Err e)
  | Ok _ => let '(tx, r) := append tx body in (tx, map_err StoreError_from r)
  end.

Definition verify (d : D) (origin : Origin) : result unit (StoreError S) :=
  if bool_decide (get_text d META "origin" = Some (as_str origin)) then Ok tt
  else Err StoreError_IdentityChanged.

Definition Tx_generation (tx : Tx D) : N := get_number (Tx_write tx) COUNTERS "generation".

(** [initialize]; [entropy] is what the system's random source gives. *)
Definition initialize (formats : Formats) (entropy : list N) : Write Origin :=
  let* known := write_read (fun d => Ok (match get_text d META "origin" with Some _ => true | None => false end)) in
  let* found := write_read (fun d => Ok (get_text d META "format")) in
  do* (match found with
       | Some found =>
           if negb (compatible_chat formats found) then write_err (StoreError_Format found) else
           if negb (bool_decide (found = chat formats)) then table_insert META "format" (chat formats)
           else write_ok tt
       | None =>
           if known : bool then write_err (StoreError_Format "unrecorded")
           else table_insert META "format" (chat formats)
       end) in
  let* text := write_read (fun d => Ok (get_text d META "origin")) in
  match text with
  | Some text => write_lift (map_err StoreError_Invalid (Origin_try_from text))
  | None =>
      let origin := Origin_from_entropy entropy in
      do* table_insert META "origin" (as_str origin) in
      write_ok origin
  end.

(** [Store::open_in] on the committed database [d]; it leaves the doorbell alone. *)
Definition Store_open_in (formats : Formats) (entropy : list N) (d : D) (bell : option N) :
  D * result (Store D) (StoreError S) :=
  match initialize formats entropy d with
  | (_, Err e) => (d, Err e)
  | (write, Ok origin) =>
      match map_err StoreError_Storage (redb_commit write) with
      | Err e => (d, Err e)
      | Ok _ => (write, Ok (mkStore write origin bell))
      end
  end.

(** A transaction.  [rung] says whether the file system lets the doorbell be written, which is asked
    for after the database has committed. *)
Definition Store_write {T} (rung : result unit S) (store : Store D)
    (work : Tx D -> Tx D * result T (StoreError S)) : Store D * result T (StoreError S) :=
  match verify (Store_database store) (Store_origin store) with
  | Err e => (store, Err e)
  | Ok _ =>
      match work (mkTx (Store_database store) (Store_origin store) false) with
      | (_, Err e) => (store, Err e)
      | (tx, Ok value) =>
          let generation := Tx_generation tx in
          let appended := Tx_appended tx in
          match map_err StoreError_Storage (redb_commit (Tx_write tx)) with
          | Err e => (store, Err e)
          | Ok _ =>
              let committed := mkStore (Tx_write tx) (Store_origin store) (Store_bell store) in
              if appended then
                match map_err StoreError_State rung with
                | Err e => (committed, Err e)
                | Ok _ => (mkStore (Tx_write tx) (Store_origin store) (Some generation), Ok value)
                end
              else (committed, Ok value)
          end
      end
  end.

Definition Store_read {T} (store : Store D) (work : D -> result T (StoreError S)) : result T (StoreError S) :=
  let? _ := verify (Store_database store) (Store_origin store) in
  work (Store_database store).

Definition Store_offer (rung : result unit S) (store : Store D) (peer : Origin) :
  Store D * result (result Offer Rejection) (StoreError S) :=
  Store_write rung store (fun tx => (tx, offer tx peer)).
Definition Store_respond (rung : result unit S) (store : Store D) (request : Offer) :
  Store D * result (result Answer Rejection) (StoreError S) :=
  Store_write rung store (fun tx => respond tx request).
Definition Store_accept (rung : result unit S) (store : Store D) (request : Offer) (answer : Answer) :
  Store D * result (result Progress Rejection) (StoreError S) :=
  Store_write rung store (fun tx => accept tx request answer).
Definition Store_author (rung : result unit S) (store : Store D) (priority : Priority) (body : Body) :
  Store D * result Event (StoreError S) :=
  Store_write rung store (fun tx => Tx_author tx priority body).
Definition Store_local_seen (store : Store D) : result N (StoreError S) :=
  Store_read store (fun d => Ok (seen (view_cursor d (Store_origin store)))).
End tx.

(** pulse/bell.rs: [generation], and what [beyond] answers when it next looks at the doorbell. *)
Definition bell_generation (bell : option N) : N := default 0 bell.
Definition bell_beyond (bell : option N) (known : N) : option N :=
  let current := bell_generation bell in
  if known <? current then Some current else None.
