(* ===== verification/TxLaws.v ===== *)
(** What the writers of Tx.v leave in the tables, and the laws of the ledger they keep. *)

From Stdlib Require Import NArith Lia String Ascii.
From stdpp Require Import base gmap list strings.
From S2P Require Import Prelude SortedLists RustStr Ids AgentLists Notification Handoff Event.
From S2P Require Import Ledger Policy ChatWire Exchange Database Wire Views Tx.

(** ** Writers that succeed *)

Section writes.
Context {D S : Type} `{!Redb D S} `{!RedbLaws D S}.
Implicit Types (d : D).

Lemma write_bind_ok {A B} (m : Write D S A) (k : A -> Write D S B) d d' b :
  write_bind m k d = (d', Ok b) <-> exists d1 a, m d = (d1, Ok a) /\ k a d1 = (d', Ok b).
Proof.
  unfold write_bind. destruct (m d) as [d1 [a|e]]; split.
  - eauto.
  - intros (? & ? & [= <- <-] & ?). done.
  - done.
  - by intros (? & ? & ? & _).
Qed.

Lemma table_insert_ok {V} (t : Table V) k v d d' u :
  table_insert t k v d = (d', Ok u) <-> redb_insert d t k v = (d', Ok tt).
Proof.
  unfold table_insert. destruct (redb_insert d t k v) as [d1 [[]|e]]; cbn; destruct u; [|done].
  split; congruence.
Qed.

Lemma table_remove_ok {V} (t : Table V) k d d' o :
  table_remove t k d = (d', Ok o) <-> redb_remove d t k = (d', Ok o).
Proof.
  unfold table_remove. destruct (redb_remove d t k) as [d1 [x|e]]; cbn; split; congruence.
Qed.

Lemma write_lift_ok {A} (r : result A (StoreError S)) d d' a :
  write_lift r d = (d', Ok a) <-> d' = d /\ r = Ok a.
Proof. unfold write_lift. split; [by intros [= -> ->]|by intros [-> ->]]. Qed.

Lemma write_read_ok {A} (f : D -> result A (StoreError S)) d d' a :
  write_read f d = (d', Ok a) <-> d' = d /\ f d = Ok a.
Proof. unfold write_read. split; [by intros [= -> ->]|by intros [-> ->]]. Qed.

Lemma write_ok_ok {A} (a b : A) d d' :
  write_ok (S := S) a d = (d', Ok b) <-> d' = d /\ b = a.
Proof. unfold write_ok. split; [by intros [= -> ->]|by intros [-> ->]]. Qed.

(** The tables a writer leaves alone are those it does not name. *)
Definition frame (labels : list string) d d' : Prop :=
  forall V (t : Table V) k, existsb (String.eqb (label t)) labels = false ->
    redb_get d' t k = redb_get d t k.

Lemma frame_refl labels d : frame labels d d.
Proof. done. Qed.

Lemma frame_trans labels d1 d2 d3 : frame labels d1 d2 -> frame labels d2 d3 -> frame labels d1 d3.
Proof. intros H1 H2 V t k Hl. by rewrite H2, H1. Qed.

Lemma frame_weaken labels labels' d d' :
  (forall l, existsb (String.eqb l) labels' = false -> existsb (String.eqb l) labels = false) ->
  frame labels d d' -> frame labels' d d'.
Proof. intros Hl H V t k Ht. apply H, Hl, Ht. Qed.

Lemma frame_insert {V} (t : Table V) k v labels d d' :
  redb_insert d t k v = (d', Ok tt) -> existsb (String.eqb (label t)) labels = true -> frame labels d d'.
Proof.
  intros H Ht W u k' Hu. apply (insert_other _ _ _ u _ _ H). intros Heq. congruence.
Qed.

Lemma frame_remove {V} (t : Table V) k o labels d d' :
  redb_remove d t k = (d', Ok o) -> existsb (String.eqb (label t)) labels = true -> frame labels d d'.
Proof.
  intros H Ht W u k' Hu. apply (remove_other _ _ _ u _ _ H). intros Heq. congruence.
Qed.

Lemma for_each_frame {A} labels (xs : list A) (body : A -> Write D S unit) d d' :
  (forall x d d', body x d = (d', Ok tt) -> frame labels d d') ->
  for_each xs body d = (d', Ok tt) -> frame labels d d'.
Proof.
  intros Hb. revert d. induction xs as [|x xs IH]; intros d; cbn [for_each].
  - intros [-> _]%write_ok_ok. apply frame_refl.
  - intros (d1 & [] & H1 & H2)%write_bind_ok. eapply frame_trans; [by eapply Hb|by apply IH].
Qed.
End writes.

(** Break a successful writer into the operations it ran. *)
Ltac write_inv :=
  cbv beta zeta in *;
  repeat match goal with
  | H : write_bind _ _ _ = (_, Ok _) |- _ =>
      apply write_bind_ok in H; destruct H as (? & ? & ? & ?); cbv beta zeta in *
  | H : table_insert _ _ _ _ = (_, Ok _) |- _ => apply table_insert_ok in H
  | H : table_remove _ _ _ = (_, Ok _) |- _ => apply table_remove_ok in H
  | H : write_lift _ _ = (_, Ok _) |- _ => apply write_lift_ok in H; destruct H as [-> H]
  | H : write_read _ _ = (_, Ok _) |- _ => apply write_read_ok in H; destruct H as [-> H]
  | H : write_ok _ _ = (_, Ok _) |- _ => apply write_ok_ok in H; destruct H as [-> H]
  | H : (let '(_, _) := ?x in _) = _ |- _ => destruct x eqn:?
  | u : unit |- _ => destruct u
  end; simplify_eq.

(** Follow a lookup back through the operations. *)
Ltac db_lookup :=
  repeat match goal with
  | H : redb_insert ?d ?t ?k ?v = (?d', Ok tt) |- context [redb_get ?d' ?u ?k'] =>
      first [rewrite (insert_same d d' t k v H k')
            |rewrite (insert_other d d' t u k v H) by (cbn; done)]
  | H : redb_remove ?d ?t ?k = (?d', Ok ?o) |- context [redb_get ?d' ?u ?k'] =>
      first [rewrite (proj2 (remove_same d d' t k o H) k')
            |rewrite (remove_other d d' t u k o H) by (cbn; done)]
  | H : frame ?labels ?d ?d' |- context [redb_get ?d' ?u ?k'] =>
      rewrite (H _ u k') by reflexivity
  end.

(** Tell apart concrete keys. *)
Ltac decide_keys := repeat first [rewrite decide_True by done|rewrite decide_False by done].

Ltac frames :=
  repeat match goal with
  | |- frame _ ?d ?d => apply frame_refl
  | H : redb_insert ?d _ _ _ = (?d', Ok tt) |- frame _ ?d _ =>
      eapply frame_trans; [eapply (frame_insert _ _ _ _ _ _ H); reflexivity|]
  | H : redb_remove ?d _ _ = (?d', Ok _) |- frame _ ?d _ =>
      eapply frame_trans; [eapply (frame_remove _ _ _ _ _ _ H); reflexivity|]
  | H : frame _ ?d ?d' |- frame _ ?d _ =>
      eapply frame_trans; [eapply frame_weaken; [|exact H];
        cbn; intros ?; rewrite ?orb_false_iff; tauto|]
  end.

Section tx.
Context {D S : Type} `{!Redb D S} `{!RedbLaws D S} `{!Codec} `{!StoreCodec}.
Implicit Types (d : D).

(** ** What each writer leaves *)

Lemma handoff_record_frame e d d' : handoff_record e d = (d', Ok tt) ->
  frame ["handoff_headers"; "handoff_readers"]%string d d'.
Proof.
  unfold handoff_record. destruct (Event_body e); try (intros; write_inv; apply frame_refl).
  intros. write_inv. frames.
  eapply for_each_frame; [|eassumption]. intros x d1 d2 Hx. write_inv. frames.
Qed.

Lemma upsert_spec {T} `{Json T} (t : TextTable) key (v : option T) d d' :
  upsert t key v d = (d', Ok tt) ->
  frame [label t] d d' /\
  exists text, match v with Some v => json_to_string v = text /\ is_Some text | None => text = None end /\
    forall k, redb_get d' t k = if decide (k = key) then text else redb_get d t k.
Proof.
  destruct v as [v|]; unfold upsert; intros; write_inv.
  - match goal with H : store_encode _ = Ok _ |- _ => apply ok_or_ok in H end.
    split; [eapply frame_insert; [eassumption|]; cbn; by rewrite String.eqb_refl|].
    eexists. split; [split; [eassumption|eauto]|]. intros k. by db_lookup.
  - split; [eapply frame_remove; [eassumption|]; cbn; by rewrite String.eqb_refl|].
    exists None. split; [done|]. intros k. by db_lookup.
Qed.

Lemma record_receipt_spec agent request received d d' :
  record_receipt agent request received d = (d', Ok tt) ->
  frame ["delivery"; "urgent"]%string d d' /\
  exists current text, view_delivery d agent request = Ok current /\
    json_to_string (Delivery_observe current received) = Some text /\
    forall k, redb_get d' DELIVERY k
      = if decide (k = delivery_key agent request) then Some text else redb_get d DELIVERY k.
Proof.
  unfold record_receipt. intros. write_inv.
  match goal with H : upsert _ _ _ _ = _ |- _ => apply upsert_spec in H as (Hf & text & [Ht [? ->]] & Hk) end.
  match goal with Hc : view_delivery _ _ _ = Ok ?c |- _ => rename Hc into Hcur end.
  assert (Hlast : frame ["urgent"]%string x1 d').
  { case_decide; write_inv; frames. }
  split.
  - eapply frame_trans; [eapply frame_weaken; [|exact Hf]|eapply frame_weaken; [|exact Hlast]];
      cbn; intros ?; rewrite ?orb_false_iff; tauto.
  - eexists _, _. split; [exact Hcur|]. split; [exact Ht|]. intros k.
    rewrite (Hlast _ DELIVERY k) by reflexivity. apply Hk.
Qed.

Lemma record_thread_spec e order id d d' : record_thread e order id d = (d', Ok tt) ->
  frame ["threads"; "joined"]%string d d' /\
  forall k, redb_get d' THREADS k =
    match Body_conversation (Event_body e) with
    | Some c => if decide (k = thread_key c order) then Some id else redb_get d THREADS k
    | None => redb_get d THREADS k
    end.
Proof.
  unfold record_thread. destruct (Body_conversation (Event_body e)) as [c|]; intros; write_inv;
    [|split; [frames|done]].
  assert (Hj : frame ["joined"]%string x d').
  { destruct c; [|write_inv; frames].
    eapply for_each_frame; [|eassumption]. intros y d1 d2 Hy. write_inv. frames. }
  split; [frames|]. intros k. by db_lookup.
Qed.

Lemma record_notice_frame e id d d' : record_notice e id d = (d', Ok tt) ->
  frame ["joined"; "urgent"]%string d d'.
Proof.
  unfold record_notice.
  destruct (Event_body e) as [| | | | |? ? ? ? ? ? [n|]| | | | | | |]; try (intros; write_inv; apply frame_refl).
  apply for_each_frame. intros y d1 d2 Hy. write_inv. case_match; write_inv; frames.
Qed.

Lemma record_acknowledgment_frame e d d' : record_acknowledgment e d = (d', Ok tt) ->
  frame ["delivery"; "urgent"]%string d d'.
Proof.
  unfold record_acknowledgment.
  destruct (Event_body e) as [| | | | |? ? ? ? [| |]| | | | | | |]; try (intros; write_inv; apply frame_refl).
  intros. write_inv. repeat (case_match; try (write_inv; apply frame_refl)).
  all: match goal with H : record_receipt _ _ _ _ = _ |- _ => apply record_receipt_spec in H as [H _] end.
  all: frames.
Qed.

Lemma observe_acknowledged v : Delivery_observe v Delivery_Acknowledged = Delivery_Acknowledged.
Proof. by destruct v. Qed.

(** A row of DELIVERY that a recording changes says that the message is acknowledged. *)
Definition acknowledges d d' : Prop := forall k,
  redb_get d' DELIVERY k = redb_get d DELIVERY k \/
  exists text, json_to_string Delivery_Acknowledged = Some text /\ redb_get d' DELIVERY k = Some text.

Lemma record_acknowledgment_delivery e d d' : record_acknowledgment e d = (d', Ok tt) -> acknowledges d d'.
Proof.
  unfold record_acknowledgment.
  destruct (Event_body e) as [| | | | |? ? ? ? [| |]| | | | | | |]; try (intros; write_inv; intros ?; by left).
  intros. write_inv. repeat (case_match; try (write_inv; intros ?; by left)).
  all: match goal with H : record_receipt _ _ _ _ = _ |- _ =>
    apply record_receipt_spec in H as (_ & current & txt & _ & Htext & Hk) end.
  all: rewrite observe_acknowledged in Htext; intros k; rewrite Hk;
    destruct (decide (k = delivery_key a request)); [right; by exists txt|by left].
Qed.

Lemma bump_spec key amount d d' n : bump key amount d = (d', Ok n) ->
  n = get_number d COUNTERS key + amount /\ n <= u64_max /\ redb_insert d COUNTERS key n = (d', Ok tt).
Proof.
  unfold bump. intros. write_inv.
  match goal with H : ok_or _ _ = Ok _ |- _ => apply ok_or_ok, checked_add_Some in H as [-> ?] end. done.
Qed.

(** What recording an event leaves in the tables that hold it. *)
Record recorded (sealed : Sealed) (cursor : Cursor) d d' : Prop := {
  rec_frame : frame ["events"; "order"; "threads"; "joined"; "cursors"; "counters"; "delivery";
    "urgent"; "handoff_headers"; "handoff_readers"]%string d d';
  rec_events : forall k, redb_get d' EVENTS k =
    if decide (k = event_key (Event_id (Sealed_event sealed))) then Some (Sealed_encoded sealed)
    else redb_get d EVENTS k;
  rec_order : forall k, redb_get d' ORDER k =
    if decide (k = order_key (Sealed_event sealed)) then Some (event_key (Event_id (Sealed_event sealed)))
    else redb_get d ORDER k;
  rec_threads : forall k, redb_get d' THREADS k =
    match Body_conversation (Event_body (Sealed_event sealed)) with
    | Some c =>
        if decide (k = thread_key c (order_key (Sealed_event sealed)))
        then Some (event_key (Event_id (Sealed_event sealed))) else redb_get d THREADS k
    | None => redb_get d THREADS k
    end;
  rec_cursors : forall k, redb_get d' CURSORS k =
    if decide (k = as_str (Event_origin (Sealed_event sealed)))
    then Some (seen cursor, Cursor_clock cursor) else redb_get d CURSORS k;
  rec_clock : get_number d' COUNTERS "clock" =
    N.max (get_number d COUNTERS "clock") (Event_clock (Sealed_event sealed));
  rec_usage : usage d' = mkUsage (Policy.events (usage d) + 1)
    (Usage_bytes (usage d) + str_len (Sealed_encoded sealed));
  rec_generation : get_number d' COUNTERS "generation" = get_number d COUNTERS "generation" + 1;
  rec_delivery : acknowledges d d'
}.

Lemma record_spec sealed cursor d d' : record sealed cursor d = (d', Ok tt) -> recorded sealed cursor d d'.
Proof.
  unfold record. intros. write_inv.
  repeat match goal with
  | H : handoff_record _ _ = _ |- _ => apply handoff_record_frame in H
  | H : record_notice _ _ _ = _ |- _ => apply record_notice_frame in H
  | H : record_acknowledgment _ _ = _ |- _ =>
      pose proof (record_acknowledgment_delivery _ _ _ H) as Hack; apply record_acknowledgment_frame in H
  | H : bump _ _ _ = _ |- _ => apply bump_spec in H as (-> & ? & ?)
  | H : record_thread _ _ _ _ = _ |- _ => apply record_thread_spec in H as [? Hthreads]
  end.
  split.
  - frames.
  - intros k. by db_lookup.
  - intros k. by db_lookup.
  - intros k. db_lookup. rewrite Hthreads. case_match; db_lookup; done.
  - intros k. by db_lookup.
  - repeat progress (unfold get_number; db_lookup; decide_keys). done.
  - unfold usage. repeat progress (unfold get_number; db_lookup; decide_keys). done.
  - repeat progress (unfold get_number; db_lookup; decide_keys). done.
  - intros k. specialize (Hack k). db_lookup. revert Hack. by db_lookup.
Qed.

Lemma project_frame e ch d d' : project e ch d = (d', Ok tt) ->
  frame ["profiles"; "machines"; "rooms"; "open_asks"; "started"; "resolutions"; "delivery"; "urgent";
    "activity"; "handoff_reads"]%string d d'.
Proof.
  unfold project, record_read. destruct ch as [| | | | | |? ? []| | |]; intros; write_inv;
    repeat match goal with
    | H : upsert _ _ _ _ = _ |- _ => apply upsert_spec in H as [H _]; cbn in H
    | H : record_receipt _ _ _ _ = _ |- _ => apply record_receipt_spec in H as [H _]
    end; frames.
Qed.

Context `{!StoreCodecLaws}.

Lemma store_decode_encode {T} `{Json T, !JsonLaws T} (v : T) text :
  json_to_string v = Some text -> store_decode (S := S) text = Ok v.
Proof.
  intros Hv. unfold store_decode, json. pose proof (json_small v text Hv) as Hs.
  rewrite str_len_bytes in Hs. apply N.ltb_ge in Hs. rewrite Hs, of_bytes_bytes.
  by rewrite (json_inverse v text Hv).
Qed.

Lemma upsert_get_json {T} `{Json T, !JsonLaws T} (t : TextTable) key (v : option T) d d' :
  upsert t key v d = (d', Ok tt) ->
  frame [label t] d d' /\
  forall k, get_json d' t k = if decide (k = key) then Ok v else get_json (S := S) d t k.
Proof.
  intros (Hf & text & Ht & Hk)%upsert_spec. split; [done|]. intros k. unfold get_json. rewrite Hk.
  case_decide; [|done]. destruct v as [v|]; [|by subst text].
  destruct Ht as [Ht [text' ->]]. by rewrite (store_decode_encode v).
Qed.

Lemma get_json_frame {T} `{Json T} labels (t : TextTable) k d d' :
  frame labels d d' -> existsb (String.eqb (label t)) labels = false ->
  get_json (S := S) (T := T) d' t k = get_json d t k.
Proof. intros Hf Hl. unfold get_json. by rewrite (Hf _ t k Hl). Qed.

(** What projecting a change leaves in the views. *)
Record projected (e : Event) (ch : Change) d d' : Prop := {
  pj_frame : frame ["profiles"; "machines"; "rooms"; "open_asks"; "started"; "resolutions"; "delivery";
    "urgent"; "activity"; "handoff_reads"]%string d d';
  pj_profile : forall x, view_profile d' x =
    match ch with
    | Change_Profile a card => if decide (x = a) then Ok card else view_profile d x
    | _ => view_profile d x
    end;
  pj_machine : forall o, get_json (T := MachineCard) d' MACHINES (as_str o) =
    match ch with
    | Change_Machine card =>
        if decide (o = Event_origin e) then Ok (Some card) else get_json d MACHINES (as_str o)
    | _ => get_json d MACHINES (as_str o)
    end;
  pj_room : forall r, view_room d' r =
    match ch with
    | Change_Room id room => if decide (r = id) then Ok room else view_room d r
    | _ => view_room d r
    end;
  pj_activity : forall x, view_activity d' x =
    match ch with
    | Change_Activity a activity => if decide (x = a) then Ok (Some activity) else view_activity d x
    | _ => view_activity d x
    end;
  pj_resolution : forall r, view_resolution d' r =
    match ch with
    | Change_Resolution request res true =>
        if decide (r = request) then Ok (Some res) else view_resolution d r
    | _ => view_resolution d r
    end;
  pj_open : forall k, redb_get d' OPEN k =
    match ch with
    | Change_Ask responder =>
        if decide (k = event_key (Event_id e)) then Some (AgentId_fmt responder) else redb_get d OPEN k
    | Change_Resolution request _ true =>
        if decide (k = event_key request) then None else redb_get d OPEN k
    | _ => redb_get d OPEN k
    end;
  pj_started : forall k, redb_get d' STARTED k =
    match ch with
    | Change_Started request agent =>
        if decide (k = event_key request) then Some (AgentId_fmt agent) else redb_get d STARTED k
    | Change_Resolution request _ true =>
        if decide (k = event_key request) then None else redb_get d STARTED k
    | _ => redb_get d STARTED k
    end;
  pj_delivery : forall x id,
    match ch with
    | Change_Receipt request agent delivery =>
        exists current, view_delivery d agent request = Ok current /\
          view_delivery d' x id =
            if decide ((x, id) = (agent, request)) then Ok (Delivery_observe current delivery)
            else view_delivery d x id
    | _ => view_delivery d' x id = view_delivery d x id
    end;
  pj_reads : forall k, redb_get d' HANDOFF_READS k =
    match ch with
    | Change_HandoffRead request agent =>
        if decide (k = delivery_key agent request) then Some (event_key (Event_id e))
        else redb_get d HANDOFF_READS k
    | _ => redb_get d HANDOFF_READS k
    end
}.

Lemma decide_inj {A B} `{EqDecision A, EqDecision B} {R} (f : A -> B) (x y : A) (a b : R) :
  (forall x y, f x = f y -> x = y) ->
  (if decide (f x = f y) then a else b) = if decide (x = y) then a else b.
Proof. intros Hf. destruct (decide (f x = f y)), (decide (x = y)); try done; [by destruct (n (Hf _ _ e))|congruence]. Qed.

Lemma project_spec e ch d d' : project e ch d = (d', Ok tt) -> projected e ch d d'.
Proof.
  intros Hp. pose proof (project_frame _ _ _ _ Hp) as Hf. revert Hp.
  unfold project, record_read. destruct ch as [|a card|card|id room|responder|rq a|rq res wins|rq a dl|a act|rq a];
    [..|destruct wins| | |].
  all: intros; write_inv.
  all: repeat match goal with
    | H : upsert _ _ _ _ = _ |- _ => apply upsert_get_json in H as [Hu Hg]; cbn [label] in Hu
    | H : record_receipt _ _ _ _ = _ |- _ =>
        apply record_receipt_spec in H as (Hu & cur & txt & Hcur & Htxt & Hk)
    end.
  all: split; [exact Hf|intros key0;
    unfold view_profile, view_room, view_activity, view_resolution, view_delivery..].
  all: try done.
  all: try (by db_lookup).
  all: try (by (rewrite Hg; apply decide_inj; eauto using AgentId_fmt_inj, as_str_inj, room_key_inj)).
  all: try (eapply get_json_frame; [eassumption|reflexivity]).
  all: try (eapply (get_json_frame ["open_asks"; "started"; "handoff_reads"; "resolutions"]%string);
            [solve [frames]|reflexivity]).
  all: try (eapply (get_json_frame ["open_asks"; "started"; "handoff_reads"]%string);
            [solve [frames]|reflexivity]).
  all: try (intros id0; f_equal;
            eapply (get_json_frame ["profiles"; "machines"; "rooms"; "open_asks"; "started"; "resolutions";
              "activity"; "handoff_reads"]%string); [solve [frames]|reflexivity]).
  - erewrite (get_json_frame ["open_asks"; "started"]%string _ _ x); [|frames|reflexivity].
    rewrite Hg. apply decide_inj, EventId_fmt_inj.
  - intros id0. exists cur. split; [exact Hcur|]. unfold get_json. rewrite Hk.
    destruct (decide ((key0, id0) = (a, rq))) as [[= -> ->]|Hne].
    + rewrite decide_True by done. by rewrite (store_decode_encode _ _ Htxt).
    + rewrite decide_False; [done|]. intros [-> ->]%delivery_key_inj. done.
Qed.

Lemma Tx_commit_ok tx s a tx' : Tx_commit tx s a = (tx', Ok tt) ->
  Tx_origin tx' = Tx_origin tx /\ Tx_appended tx' = true /\
  exists d1, recorded s (Admitted_cursor a) (Tx_write tx) d1 /\
    projected (Sealed_event s) (Admitted_change a) d1 (Tx_write tx').
Proof.
  unfold Tx_commit. destruct (write_bind _ _ _) as [d' [[]|e]] eqn:Hb; [|done]. intros [= <-].
  apply write_bind_ok in Hb as (d1 & [] & Hrec & Hprj). split; [done|]. split; [done|].
  exists d1. split; [by apply record_spec|by apply project_spec].
Qed.

Lemma recorded_projected_frame s a tx d1 d' {V} (t : Table V) k :
  recorded s (Admitted_cursor a) tx d1 -> projected (Sealed_event s) (Admitted_change a) d1 d' ->
  existsb (String.eqb (label t)) ["profiles"; "machines"; "rooms"; "open_asks"; "started";
    "resolutions"; "delivery"; "urgent"; "activity"; "handoff_reads"]%string = false ->
  redb_get d' t k = redb_get d1 t k.
Proof. intros _ Hp Hl. by apply (pj_frame _ _ _ _ Hp). Qed.

(** An event is read back as it was stored. *)
Lemma stored_event_decode s : Sealed_new (Sealed_event s) = Ok s ->
  store_decode (S := S) (Sealed_encoded s) = Ok (Sealed_event s) /\
  Sealed_digest s = Digest_of (bytes (Sealed_encoded s)).
Proof.
  unfold Sealed_new. destruct (to_string (Sealed_event s)) as [text|] eqn:Ht; cbn; [|done].
  destruct (N.ltb_spec MAX_EVENT_BYTES (str_len text)) as [|Hle]; [done|]. intros [= Hs].
  rewrite <- Hs. cbn. split; [|done]. unfold store_decode, json.
  rewrite str_len_bytes in Hle. assert (Hr : (MAX_RECORD <? N.of_nat (length (bytes text))) = false).
  { apply N.ltb_ge. etrans; [exact Hle|]. done. }
  rewrite Hr, of_bytes_bytes. cbn. by rewrite (Event_inverse _ _ Ht).
Qed.

Lemma view_stored_commit s a tx tx' id : Sealed_new (Sealed_event s) = Ok s ->
  Tx_commit tx s a = (tx', Ok tt) ->
  view_stored (Tx_write tx') id =
  if decide (id = Event_id (Sealed_event s))
  then Ok (Some (Stored_Event (Sealed_event s) (Sealed_encoded s))) else view_stored (Tx_write tx) id.
Proof.
  intros Hs (_ & _ & d1 & Hr & Hp)%Tx_commit_ok. unfold view_stored.
  rewrite (recorded_projected_frame _ _ _ _ _ EVENTS _ Hr Hp) by reflexivity.
  rewrite (recorded_projected_frame _ _ _ _ _ TOMBSTONES _ Hr Hp) by reflexivity.
  rewrite (rec_events _ _ _ _ Hr), (rec_frame _ _ _ _ Hr _ TOMBSTONES) by reflexivity.
  unfold event_key. rewrite decide_inj by apply EventId_fmt_inj. case_decide as Hid; [|done].
  destruct (stored_event_decode s Hs) as [-> _]. by rewrite bool_decide_eq_true_2.
Qed.

Lemma view_cursor_commit s a tx tx' o : Tx_commit tx s a = (tx', Ok tt) ->
  view_cursor (Tx_write tx') o =
  if decide (o = Event_origin (Sealed_event s)) then Admitted_cursor a else view_cursor (Tx_write tx) o.
Proof.
  intros (_ & _ & d1 & Hr & Hp)%Tx_commit_ok. unfold view_cursor.
  rewrite (recorded_projected_frame _ _ _ _ _ CURSORS _ Hr Hp) by reflexivity.
  rewrite (rec_cursors _ _ _ _ Hr), decide_inj by apply as_str_inj.
  case_decide; [by destruct (Admitted_cursor a)|done].
Qed.

(** The store is a ledger: everything proved of ledgers holds of it. *)
#[export] Instance Tx_LedgerLaws : LedgerLaws (Tx D) (StoreError S).
Proof.
  split.
  - intros l s a l' r. cbn. unfold Tx_commit. destruct (write_bind _ _ _). by intros [= <- _].
  - intros l s a l' Hc o. cbn. rewrite (view_cursor_commit _ _ _ _ _ Hc). by case_decide.
  - intros l s a l' Hs Hc id. cbn. unfold Tx_digest. rewrite (view_stored_commit _ _ _ _ _ Hs Hc).
    case_decide; [|done]. cbn. by rewrite (proj2 (stored_event_decode s Hs)).
Qed.
End tx.
