(* ===== verification/StoreRefinement.v ===== *)
(** Two ledgers that answer every question alike decide alike: what chat/ledger.rs makes of an event depends on
    the answers only, not on the implementation.  So the chat store refines the in-memory ledger: whatever
    transactions a store runs, its tables represent a ledger that the same calls reach in chat/model.rs, and
    while the store has room the answers are the same.  What is proved of that ledger holds of what is on disk. *)

From Stdlib Require Import NArith Lia String Ascii Relations.
From stdpp Require Import base gmap list strings relations.
From S2P Require Import Prelude SortedLists RustStr Ids AgentLists Notification Handoff Event Ledger.
From S2P Require Import Policy ChatWire Exchange Model History Convergence Sync Wire Database Views Tx.
From S2P Require Import TxLaws.

Section alike.
Context `{codec : Codec} {L1 E1 L2 E2 : Type} `{ledger1 : !Ledger L1 E1} `{ledger2 : !Ledger L2 E2}.

(** ** Definitions *)

(** The same value, or the same refusal; neither is a failure of the store. *)
Definition alike {T} (r1 : result T (Failure E1)) (r2 : result T (Failure E2)) : Prop :=
  match r1, r2 with
  | Ok a, Ok b => a = b
  | Err (Failure_Rejected a), Err (Failure_Rejected b) => a = b
  | Err (Failure_Invalid a), Err (Failure_Invalid b) => a = b
  | _, _ => False
  end.

Record agree (l1 : L1) (l2 : L2) : Prop := {
  ag_local : Ledger_local l1 = Ledger_local l2;
  ag_cursor : forall o, exists c, Ledger_cursor l1 o = Ok c /\ Ledger_cursor l2 o = Ok c;
  ag_digest : forall id, exists d, Ledger_digest l1 id = Ok d /\ Ledger_digest l2 id = Ok d;
  ag_parent : forall id, exists p, Ledger_parent l1 id = Ok p /\ Ledger_parent l2 id = Ok p;
  ag_resolution : forall id, exists r, Ledger_resolution l1 id = Ok r /\ Ledger_resolution l2 id = Ok r;
  ag_clock : exists k, Ledger_clock l1 = Ok k /\ Ledger_clock l2 = Ok k
}.

(** ** Lemmas *)

Lemma alike_bind {T U} (r1 : result T (Failure E1)) r2 (k1 : T -> result U (Failure E1)) k2 :
  alike r1 r2 -> (forall a, alike (k1 a) (k2 a)) ->
  alike (match r1 with Ok x => k1 x | Err e => Err e end) (match r2 with Ok x => k2 x | Err e => Err e end).
Proof. destruct r1 as [a|[]], r2 as [b|[]]; cbn; try done; [by intros ->|by intros ->..]. Qed.

Lemma alike_mismatch {T} e : alike (T := T) (Err (mismatch e)) (Err (mismatch e)).
Proof. done. Qed.

Lemma alike_rejected {T} (r : result T Rejection) : alike (map_err Failure_Rejected r) (map_err Failure_Rejected r).
Proof. by destruct r. Qed.

Lemma alike_invalid {T} (r : result T Invalid) : alike (map_err Failure_Invalid r) (map_err Failure_Invalid r).
Proof. by destruct r. Qed.

Lemma alike_ok_or {T} (o : option T) i : alike (ok_or o (Failure_Invalid i)) (ok_or o (Failure_Invalid i)).
Proof. by destruct o. Qed.

Context (l1 : L1) (l2 : L2) (Hl : agree l1 l2).

Lemma checked_parent_alike e r : alike (checked_parent l1 e r) (checked_parent l2 e r).
Proof.
  unfold checked_parent. destruct (ag_parent _ _ Hl r) as (p & -> & ->). cbn. by destruct (negb _).
Qed.

Lemma resolve_alike e r cand : alike (resolve l1 e r cand) (resolve l2 e r cand).
Proof.
  unfold resolve. destruct (Body_conversation (Event_body e)), (Body_audience (Event_body e)); try done.
  destruct (ag_resolution _ _ Hl r) as (res & -> & ->). cbn [map_err].
  apply alike_bind; [apply checked_parent_alike|]. intros p.
  assert (Hf : forall asker responder (r1 : result Change (Failure E1)) (r2 : result Change (Failure E2)),
    alike r1 r2 -> alike
      (if negb (Candidate_authorized cand asker responder)
       then match Candidate_ending cand with
            | Ending_Answered => Ok Change_Nothing | Ending_Ended _ => Err (mismatch e) end else r1)
      (if negb (Candidate_authorized cand asker responder)
       then match Candidate_ending cand with
            | Ending_Answered => Ok Change_Nothing | Ending_Ended _ => Err (mismatch e) end else r2)).
  { intros asker responder r1 r2 H. destruct (negb _); [by destruct (Candidate_ending cand)|done]. }
  assert (Hp : alike (plain_reply e (Candidate_ending cand)) (plain_reply e (Candidate_ending cand))).
  { unfold plain_reply. by destruct (Candidate_ending cand). }
  destruct p as [parent| |]; [|destruct res; [by apply Hf|done]|done].
  destruct (negb _); [done|]. destruct (ask_of parent) as [[asker responder]|]; [by apply Hf|done].
Qed.

Lemma thread_parent_alike e r : alike (thread_parent l1 e r) (thread_parent l2 e r).
Proof.
  unfold thread_parent. destruct (Body_conversation (Event_body e)), (Body_audience (Event_body e)), (Event_author e); try done.
  apply alike_bind; [apply checked_parent_alike|]. by intros [| |].
Qed.

Lemma change_alike e : alike (change l1 e) (change l2 e).
Proof.
  unfold change. destruct (Event_body e) as [| | | | |? ? ? ? [| |]| |obs aud| | | | |]; try done;
    try apply resolve_alike.
  - unfold handoff_read. apply alike_bind; [by destruct (Event_author e)|]. intros author.
    apply alike_bind; [apply checked_parent_alike|]. intros [parent| |]; try done.
    destruct (Event_body parent); try done.
    apply alike_bind; [by destruct (Descriptor_new _ _ _)|]. intros descriptor.
    apply alike_bind; [by destruct (Descriptor_admit_observation _ _ _ _)|done].
  - unfold receipt. apply alike_bind; [apply thread_parent_alike|].
    intros [context|]; [apply alike_rejected|done].
  - unfold started. apply alike_bind; [apply thread_parent_alike|]. intros [context|]; [|done].
    destruct (ask_of _) as [[? ?]|]; [|done]. by destruct (_ && _).
Qed.

Lemma admit_alike s : alike (admit_sealed l1 s) (admit_sealed l2 s).
Proof.
  unfold admit_sealed. destruct (ag_cursor _ _ Hl (Event_origin (Sealed_event s))) as (c & -> & ->).
  cbn [map_err]. destruct (_ <=? _).
  - destruct (ag_digest _ _ Hl (Event_id (Sealed_event s))) as (d & -> & ->). cbn.
    destruct d; [by case_decide|done].
  - apply alike_bind; [apply alike_ok_or|]. intros expected. destruct (negb _); [done|].
    destruct (_ <=? _); [done|]. apply alike_bind; [apply change_alike|done].
Qed.

Lemma append_event_alike body : alike (append_event l1 body) (append_event l2 body).
Proof.
  unfold append_event. rewrite (ag_local _ _ Hl).
  destruct (ag_cursor _ _ Hl (Ledger_local l2)) as (c & -> & ->). cbn [map_err].
  apply alike_bind; [apply alike_ok_or|]. intros seq.
  destruct (ag_clock _ _ Hl) as (k & -> & ->). cbn [map_err].
  apply alike_bind; [apply alike_ok_or|]. intros clock.
  apply alike_bind; [apply alike_invalid|]. intros e. apply alike_invalid.
Qed.
End alike.

Section refinement.
Context {D S : Type} `{!Redb D S} `{!RedbLaws D S} `{codec : !Codec} `{records : !StoreCodec} `{laws : !StoreCodecLaws}.
Implicit Types (d : D) (m : Model).

(** ** The abstraction relation *)

Definition stored_of (s : Sealed) : Stored := Stored_Event (Sealed_event s) (Sealed_encoded s).

(** The bytes that the encodings of a history take. *)
Definition stored_bytes (E : gmap EventId Sealed) : N :=
  map_fold (fun _ s n => str_len (Sealed_encoded s) + n) 0 E.

(** The tables of [d] hold the ledger [m].  A reply also acknowledges what it answers, and a
    resolution forgets the turn, in the store only. *)
Record represents d m : Prop := {
  rp_identity : get_text d META "origin" = Some (as_str (origin m));
  rp_events : forall id, view_stored (S := S) d id = Ok (stored_of <$> (Model.events m !! id));
  rp_cursor : forall o, view_cursor d o = Model_cursor m o;
  rp_usage : usage d = mkUsage (N.of_nat (size (Model.events m))) (stored_bytes (Model.events m));
  rp_clock : get_number d COUNTERS "clock" = clock m;
  rp_acks : forall o, get_number d ACKS (as_str o) = default 0 (acks m !! o);
  rp_resolution : forall r, view_resolution (S := S) d r = Ok (resolutions m !! r);
  rp_profile : forall a, view_profile (S := S) d a = Ok (profiles m !! a);
  rp_machine : forall o, get_json (S := S) d MACHINES (as_str o) = Ok (machines m !! o);
  rp_room : forall r, view_room (S := S) d r = Ok (rooms m !! r);
  rp_activity : forall a, view_activity (S := S) d a = Ok (activities m !! a);
  rp_open : forall id a, redb_get d OPEN (event_key id) = Some (AgentId_fmt a) <-> (a, id) ∈ open_asks m;
  rp_open_rows : forall k v, redb_get d OPEN k = Some v ->
    exists id a, k = event_key id /\ v = AgentId_fmt a;
  rp_started : forall id v, redb_get d STARTED (event_key id) = Some v ->
    exists a, v = AgentId_fmt a /\ started_by m !! id = Some a;
  rp_delivery : forall a id,
    view_delivery (S := S) d a id = Ok (default Delivery_default (deliveries m !! (id, a))) \/
    view_delivery (S := S) d a id = Ok Delivery_Acknowledged;
  rp_reads : forall a id, is_Some (redb_get d HANDOFF_READS (delivery_key a id)) <-> (id, a) ∈ handoff_reads m;
  rp_threads : forall k v, redb_get d THREADS k = Some v <->
    exists id s c, Model.events m !! id = Some s /\ Body_conversation (Event_body (Sealed_event s)) = Some c /\
      k = thread_key c (order_key (Sealed_event s)) /\ v = event_key id
}.

(** A transaction and a ledger that steps have led to. *)
Record simulates (tx : Tx D) m : Prop := {
  sm_origin : Tx_origin tx = origin m;
  sm_steps : rtc step (Model_new (origin m)) m;
  sm_represents : represents (Tx_write tx) m;
  sm_room : Policy.events (usage (Tx_write tx)) <= Policy.events RECEIVED_LIMIT /\
    Usage_bytes (usage (Tx_write tx)) < Usage_bytes RECEIVED_LIMIT + MAX_EVENT_BYTES
}.

(** ** Lemmas *)

Lemma steps_derived o m : rtc step (Model_new o) m -> history m /\ derived m.
Proof.
  intros Hr. pose proof (history_new o) as Hn. pose proof (derived_new o) as Hd.
  induction Hr as [|m1 m2 m3 H12 H23 IH]; [done|]. eapply IH; eauto using history_step, derived_step.
Qed.

Lemma steps_origin m m' : rtc step m m' -> origin m' = origin m.
Proof.
  induction 1 as [|m1 m2 m3 H12 _ IH]; [done|]. rewrite IH. destruct H12; [|done].
  apply Model_commit_history.
Qed.

Lemma sm_history tx m : simulates tx m -> history m.
Proof. intros H. by apply (steps_derived _ _ (sm_steps _ _ H)). Qed.
Lemma sm_derived tx m : simulates tx m -> derived m.
Proof. intros H. by apply (steps_derived _ _ (sm_steps _ _ H)). Qed.

(** *** The answers are the same *)

Lemma simulates_agree tx m : simulates tx m -> agree (E1 := StoreError S) (E2 := Empty_set) tx m.
Proof.
  intros Hs. pose proof (sm_history _ _ Hs) as Hm. destruct Hs as [Ho _ Hrep _].
  pose proof (rp_events _ _ Hrep) as He. pose proof (rp_cursor _ _ Hrep) as Hc.
  pose proof (rp_clock _ _ Hrep) as Hk. pose proof (rp_resolution _ _ Hrep) as Hr.
  split; cbn; [done|..].
  - intros o. rewrite Hc. eauto.
  - intros id. unfold Tx_digest. rewrite He. destruct (Model.events m !! id) as [s|] eqn:Es; cbn; [|eauto].
    destruct (h_key m Hm _ _ Es) as [_ Hsealed]. rewrite <- (proj2 (stored_event_decode (S := S) s Hsealed)). eauto.
  - intros id. unfold Tx_parent, Model_parent. rewrite He.
    destruct (Model.events m !! id) as [s|]; cbn; [|eauto]. destruct (Event_body (Sealed_event s)); eauto.
  - intros id. rewrite Hr. eauto.
  - rewrite Hk. eauto.
Qed.

Lemma sealed_fits s : Sealed_new (Sealed_event s) = Ok s -> str_len (Sealed_encoded s) <= MAX_EVENT_BYTES.
Proof.
  unfold Sealed_new. destruct (ok_or _ _) as [text|]; [|done].
  destruct (N.ltb_spec MAX_EVENT_BYTES (str_len text)); [done|]. intros [= Hs]. by rewrite <- Hs.
Qed.

(** The rows of THREADS are those of the events that belong to a conversation. *)
Definition thread_rows (E : gmap EventId Sealed) (row : string -> option string) : Prop :=
  forall k v, row k = Some v <->
    exists id s c, E !! id = Some s /\ Body_conversation (Event_body (Sealed_event s)) = Some c /\
      k = thread_key c (order_key (Sealed_event s)) /\ v = event_key id.

Lemma order_key_id e1 e2 : order_key e1 = order_key e2 -> Event_id e1 = Event_id e2.
Proof.
  intros [= Hclock Ho Hs]%order_key_inj. destruct (Event_id e1) as [o1 n1] eqn:E1, (Event_id e2) as [o2 n2] eqn:E2.
  unfold Event_origin in Ho. rewrite E1, E2 in *. cbn in *. by subst.
Qed.

Lemma threads_insert row E s :
  E !! Event_id (Sealed_event s) = None ->
  (forall id s, E !! id = Some s -> Event_id (Sealed_event s) = id /\ Sealed_new (Sealed_event s) = Ok s) ->
  thread_rows E row ->
  thread_rows (<[Event_id (Sealed_event s) := s]> E) (fun k =>
    match Body_conversation (Event_body (Sealed_event s)) with
    | Some c =>
        if decide (k = thread_key c (order_key (Sealed_event s)))
        then Some (event_key (Event_id (Sealed_event s))) else row k
    | None => row k
    end).
Proof.
  intros Hfresh Hkey Hrows k v.
  assert (Hold : row k = Some v -> exists id s0 c, <[Event_id (Sealed_event s) := s]> E !! id = Some s0 /\
    Body_conversation (Event_body (Sealed_event s0)) = Some c /\
    k = thread_key c (order_key (Sealed_event s0)) /\ v = event_key id).
  { intros (id & s0 & c & Hid & H)%Hrows. exists id, s0, c. split; [|done]. rewrite lookup_insert_ne; [done|congruence]. }
  split.
  - destruct (Body_conversation _) as [c|] eqn:Hc; [|exact Hold]. case_decide as Hk; [|exact Hold].
    intros [= <-]. exists (Event_id (Sealed_event s)), s, c. by rewrite lookup_insert_eq.
  - intros (id & s0 & c0 & Hid & Hc0 & -> & ->). destruct (decide (id = Event_id (Sealed_event s))) as [->|Hne].
    + rewrite lookup_insert_eq in Hid. injection Hid as <-. rewrite Hc0. by case_decide.
    + rewrite lookup_insert_ne in Hid by done. destruct (Hkey _ _ Hid) as [Hs0 _].
      assert (Hr : row (thread_key c0 (order_key (Sealed_event s0))) = Some (event_key id)) by (apply Hrows; eauto 10).
      destruct (Body_conversation (Event_body (Sealed_event s))) as [c|]; [|done]. rewrite decide_False; [done|].
      intros [_ Ho%order_key_id]%thread_key_inj. congruence.
Qed.

(** *** A commit keeps the representation *)

Section commit.
Context (tx tx' : Tx D) (m : Model) (s : Sealed) (a : Admitted_).
Hypothesis Hsim : simulates tx m.
Hypothesis Hsealed : Sealed_new (Sealed_event s) = Ok s.
Hypothesis Hadmit : admit_sealed (E := Empty_set) m s = Ok (Decision_Append a).
Hypothesis Hcommit : Tx_commit tx s a = (tx', Ok tt).
Hypothesis Hroom : fits_received (usage (Tx_write tx)) = true.

Let m' := Model_commit m s a.

Lemma commit_step : step m m'.
Proof. by constructor. Qed.

Lemma commit_derived : derived m'.
Proof. eapply derived_step; [apply commit_step|by eapply sm_history|by eapply sm_derived]. Qed.

(** A view of a table that changes with one key changes as the map does. *)
Ltac by_change :=
  unfold m', Model_commit; destruct (Admitted_change a) as [|? []| |? []| | |? ? []| | |]; cbn;
  try done; (case_decide;
  [subst; by rewrite ?lookup_insert_eq, ?lookup_delete_eq
  |by rewrite ?lookup_insert_ne, ?lookup_delete_ne by congruence]).

Lemma acknowledges_delivery d d1 x id : acknowledges d d1 ->
  view_delivery (S := S) d1 x id = view_delivery d x id \/ view_delivery (S := S) d1 x id = Ok Delivery_Acknowledged.
Proof.
  intros H. unfold view_delivery, get_json.
  destruct (H (delivery_key x id)) as [->|(txt & Htxt & ->)]; [by left|right].
  by rewrite (store_decode_encode _ _ Htxt).
Qed.

Lemma commit_fresh : Model.events m !! Event_id (Sealed_event s) = None.
Proof. apply (append_fresh m s a (sm_history _ _ Hsim) Hadmit). Qed.

Lemma commit_usage : usage (Tx_write tx') =
  mkUsage (Policy.events (usage (Tx_write tx)) + 1)
    (Usage_bytes (usage (Tx_write tx)) + str_len (Sealed_encoded s)).
Proof.
  destruct (Tx_commit_ok _ _ _ _ Hcommit) as (_ & _ & d1 & Hr & Hp).
  unfold usage at 1, get_number. rewrite !(pj_frame _ _ _ _ Hp _ COUNTERS) by done.
  exact (rec_usage _ _ _ _ Hr).
Qed.

Lemma commit_size : N.of_nat (size (<[Event_id (Sealed_event s) := s]> (Model.events m))) =
  N.of_nat (size (Model.events m)) + 1.
Proof. rewrite map_size_insert_None by apply commit_fresh. lia. Qed.

Lemma commit_bytes : stored_bytes (<[Event_id (Sealed_event s) := s]> (Model.events m)) =
  stored_bytes (Model.events m) + str_len (Sealed_encoded s).
Proof.
  unfold stored_bytes. rewrite map_fold_insert_L; [lia|intros; lia|apply commit_fresh].
Qed.

Lemma open_stored ag id : (ag, id) ∈ open_asks m -> is_Some (Model.events m !! id).
Proof.
  intros H. apply (d_open _ (sm_derived _ _ Hsim)) in H as [(ask & (s0 & Hs0 & _) & <- & _) _]. eauto.
Qed.

(** The open asks, whose rows are keyed by the ask. *)
Lemma commit_open id ag :
  (ag, id) ∈ open_asks m' <->
  match Admitted_change a with
  | Change_Ask responder =>
      if decide (id = Event_id (Sealed_event s)) then ag = responder else (ag, id) ∈ open_asks m
  | Change_Resolution request _ true => id <> request /\ (ag, id) ∈ open_asks m
  | _ => (ag, id) ∈ open_asks m
  end.
Proof.
  pose proof (d_open _ commit_derived ag id) as Hd. pose proof (open_stored ag id) as Hst.
  revert Hd. unfold m', Model_commit.
  destruct (Admitted_change a) as [|? []| |? []|responder| |r0 res []| | |]; cbn; try done.
  - intros _. case_decide as Hid; [|set_solver]. subst id. rewrite elem_of_union, elem_of_singleton.
    rewrite commit_fresh in Hst. split; [intros [[= ->]|Ho]; [done|]|intros ->; by left].
    by destruct (Hst Ho).
  - intros Hd. destruct (decide (id = r0)) as [->|Hne].
    + split; [|by intros [? _]]. intros [_ Hn]%Hd. by rewrite lookup_insert_eq in Hn.
    + rewrite elem_of_difference, elem_of_singleton. split; [tauto|]. intros [_ ?].
      split; [done|]. congruence.
Qed.

Lemma commit_represents : represents (Tx_write tx') m'.
Proof.
  destruct (Tx_commit_ok _ _ _ _ Hcommit) as (_ & _ & d1 & Hr & Hp).
  pose proof (sm_represents _ _ Hsim) as Hrep. set (d := Tx_write tx) in *. set (d' := Tx_write tx') in *.
  assert (Hj : forall {T} `{Json T} (t : TextTable) k, existsb (String.eqb (label t))
      ["events"; "order"; "threads"; "joined"; "cursors"; "counters"; "delivery"; "urgent";
       "handoff_headers"; "handoff_readers"]%string = false ->
    get_json (S := S) (T := T) d1 t k = get_json d t k).
  { intros. eapply get_json_frame; [apply (rec_frame _ _ _ _ Hr)|done]. }
  assert (Hj_view_resolution : forall r, view_resolution (S := S) d1 r = view_resolution d r) by (intros; by apply Hj).
  assert (Hj_view_profile : forall r, view_profile (S := S) d1 r = view_profile d r) by (intros; by apply Hj).
  assert (Hj_view_room : forall r, view_room (S := S) d1 r = view_room d r) by (intros; by apply Hj).
  assert (Hj_view_activity : forall r, view_activity (S := S) d1 r = view_activity d r) by (intros; by apply Hj).
  destruct (Model_commit_history m s a) as (_ & Hevents & _ & Hclock & Hacks). fold m' in Hevents, Hclock, Hacks.
  split.
  - unfold get_text. rewrite (pj_frame _ _ _ _ Hp _ META), (rec_frame _ _ _ _ Hr _ META) by done.
    destruct (Model_commit_history m s a) as (Hor & _). fold m' in Hor. rewrite Hor. apply (rp_identity _ _ Hrep).
  - intros id. unfold d'. rewrite (view_stored_commit _ _ _ _ _ Hsealed Hcommit), Hevents.
    case_decide; [subst id; by rewrite lookup_insert_eq|].
    rewrite lookup_insert_ne by done. apply (rp_events _ _ Hrep).
  - intros o. unfold d'. rewrite (view_cursor_commit _ _ _ _ _ Hcommit).
    unfold m'. rewrite Model_cursor_commit. by rewrite (rp_cursor _ _ Hrep).
  - unfold d'. rewrite commit_usage. fold d. by rewrite (rp_usage _ _ Hrep), Hevents, commit_size, commit_bytes.
  - unfold get_number. rewrite (pj_frame _ _ _ _ Hp _ COUNTERS) by done.
    fold (get_number d1 COUNTERS "clock"). rewrite (rec_clock _ _ _ _ Hr). fold d.
    by rewrite (rp_clock _ _ Hrep), Hclock.
  - intros o. unfold get_number. rewrite (pj_frame _ _ _ _ Hp _ ACKS) by done.
    rewrite (rec_frame _ _ _ _ Hr _ ACKS) by done. rewrite Hacks. apply (rp_acks _ _ Hrep).
  - intros r. rewrite (pj_resolution _ _ _ _ Hp). rewrite (Hj_view_resolution _).
    rewrite (rp_resolution _ _ Hrep r). by_change.
  - intros x. rewrite (pj_profile _ _ _ _ Hp). rewrite (Hj_view_profile _).
    rewrite (rp_profile _ _ Hrep x). by_change.
  - intros o. rewrite (pj_machine _ _ _ _ Hp). rewrite Hj by done.
    rewrite (rp_machine _ _ Hrep o). by_change.
  - intros r. rewrite (pj_room _ _ _ _ Hp). rewrite (Hj_view_room _).
    rewrite (rp_room _ _ Hrep r). by_change.
  - intros x. rewrite (pj_activity _ _ _ _ Hp). rewrite (Hj_view_activity _).
    rewrite (rp_activity _ _ Hrep x). by_change.
  - intros id ag. rewrite (pj_open _ _ _ _ Hp), (rec_frame _ _ _ _ Hr _ OPEN) by done.
    rewrite commit_open. pose proof (rp_open _ _ Hrep id ag) as Hold.
    destruct (Admitted_change a) as [| | | |responder| |r0 res []| | |]; try done; unfold event_key;
      rewrite decide_inj by apply EventId_fmt_inj; case_decide as Hid; try tauto.
    + split; [intros [= H%AgentId_fmt_inj]|intros ->]; done.
    + split; [done|]. intros [Hne _]. done.
  - intros k v. rewrite (pj_open _ _ _ _ Hp), (rec_frame _ _ _ _ Hr _ OPEN) by done.
    pose proof (rp_open_rows _ _ Hrep k v) as Hold.
    destruct (Admitted_change a) as [| | | |responder| |r0 res []| | |]; try done; case_decide; try done.
    intros [= <-]. eauto.
  - intros id v. rewrite (pj_started _ _ _ _ Hp), (rec_frame _ _ _ _ Hr _ STARTED) by done.
    pose proof (rp_started _ _ Hrep id v) as Hold. unfold m', Model_commit.
    destruct (Admitted_change a) as [|? []| |? []| |r0 ag0|? ? []| | |]; cbn; try done; unfold event_key;
      rewrite decide_inj by apply EventId_fmt_inj; case_decide as Hid; try done.
    + subst id. rewrite lookup_insert_eq. intros [= <-]. eauto.
    + by rewrite lookup_insert_ne by congruence.
  - intros x id. pose proof (pj_delivery _ _ _ _ Hp x id) as Hpj.
    pose proof (fun x id => acknowledges_delivery d d1 x id (rec_delivery _ _ _ _ Hr)) as Hack.
    assert (Hmid : forall x id, view_delivery (S := S) d1 x id = Ok (default Delivery_default (deliveries m !! (id, x))) \/
      view_delivery (S := S) d1 x id = Ok Delivery_Acknowledged).
    { intros x0 id0. destruct (Hack x0 id0) as [->|]; [apply (rp_delivery _ _ Hrep)|by right]. }
    revert Hpj. unfold m', Model_commit.
    destruct (Admitted_change a) as [|? []| |? []| | |? ? []|r0 ag0 dl| |]; cbn; try (intros ->; apply Hmid).
    intros (current & Hcur & ->). case_decide as Heq.
    + injection Heq as -> ->. rewrite lookup_insert_eq. cbn.
      destruct (Hmid ag0 r0) as [H|H]; rewrite Hcur in H; injection H as ->; [by left|right].
      by destruct dl.
    + rewrite lookup_insert_ne by congruence. apply Hmid.
  - intros x id. rewrite (pj_reads _ _ _ _ Hp), (rec_frame _ _ _ _ Hr _ HANDOFF_READS) by done.
    pose proof (rp_reads _ _ Hrep x id) as Hold. unfold m', Model_commit.
    destruct (Admitted_change a) as [|? []| |? []| | |? ? []| | |r0 ag0]; cbn; try done.
    case_decide as Hk.
    + apply delivery_key_inj in Hk as [-> ->]. split; [set_solver|eauto].
    + rewrite elem_of_union, elem_of_singleton, <- Hold. split; [by right|]. intros [[= -> ->]|]; done.
  - intros k v. rewrite (pj_frame _ _ _ _ Hp _ THREADS), (rec_threads _ _ _ _ Hr), Hevents by done.
    fold d. apply (threads_insert (fun k => redb_get d THREADS k) (Model.events m) s commit_fresh);
      [apply (h_key _ (sm_history _ _ Hsim))|exact (rp_threads _ _ Hrep)].
Qed.

Lemma commit_simulates : simulates tx' m'.
Proof.
  destruct (Tx_commit_ok _ _ _ _ Hcommit) as (Ho & _).
  destruct (Model_commit_history m s a) as (Hor & _). fold m' in Hor. split.
  - rewrite Ho, (sm_origin _ _ Hsim). done.
  - rewrite Hor. eapply rtc_r; [apply (sm_steps _ _ Hsim)|apply commit_step].
  - apply commit_represents.
  - rewrite commit_usage. cbn [Policy.events Usage_bytes]. revert Hroom. unfold fits_received, below.
    rewrite andb_true_iff, !N.ltb_lt. intros [He Hb]. pose proof (sealed_fits s Hsealed). lia.
Qed.
End commit.
End refinement.
