(* ===== verification/StoreExchange.v ===== *)
(** Each transaction of the chat store does to what it stores what the same call does to the ledger
    of chat/model.rs; a store that runs out of room takes a prefix. *)

From Stdlib Require Import NArith Lia String Ascii Relations.
From stdpp Require Import base gmap list strings relations.
From S2P Require Import Prelude SortedLists RustStr Ids AgentLists Notification Handoff Event.
From S2P Require Import Ledger Policy ChatWire Exchange Model History Convergence Sync StoreRefinement.
From S2P Require Import Database Wire Views Tx TxLaws StoreRefinement.

Section exchange.
Context {D S : Type} `{!Redb D S} `{!RedbLaws D S} `{codec : !Codec} `{records : !StoreCodec} `{laws : !StoreCodecLaws}.
Implicit Types (tx : Tx D) (m : Model).

(** *** Receiving *)

Lemma receive_one_simulates tx m o e tx' r : simulates tx m -> receive_one tx o e = (tx', r) ->
  match r with
  | Ok b => exists m', receive_one (E := Empty_set) m o e = (m', Ok b) /\ simulates tx' m'
  | Err (Failure_Store _) => True
  | Err f => simulates tx' m /\
      ((exists g, receive_one (E := Empty_set) m o e = (m, Err g) /\
          alike (E1 := StoreError S) (E2 := Empty_set) (T := bool) (Err f) (Err g)) \/
       f = Failure_Rejected Rejection_ResourceLimit /\
         fits_received (usage (Tx_write tx)) = false)
  end.
Proof.
  intros Hs. unfold receive_one. cbn [Ledger_local Tx_Ledger Model_Ledger]. rewrite (sm_origin _ _ Hs).
  destruct (negb _ || _); [intros [= <- <-]; split; [done|left]; by eexists|].
  destruct (Sealed_new e) as [s|inv] eqn:He; cbn [map_err];
    [|intros [= <- <-]; split; [done|left]; by eexists].
  pose proof (admit_alike _ _ (simulates_agree _ _ Hs) s) as Ha.
  destruct (admit_sealed tx s) as [[|a]|f], (admit_sealed m s) as [[|a']|g] eqn:Hm; cbn in Ha; try done;
    [intros [= <- <-]; eauto|injection Ha as <-|destruct f; done..|].
  - cbn [Ledger_has_room Tx_Ledger Model_Ledger map_err].
    destruct (fits_received _) eqn:Hf; [|intros [= <- <-]; split; [done|by right]].
    destruct (Ledger_commit tx s a) as [tx1 [[]|err]] eqn:Hc; cbn; intros [= <- <-]; [|done].
    eexists. split; [done|]. eapply commit_simulates; eauto.
    by rewrite (Sealed_new_event _ _ He).
  - intros [= <- <-]. destruct f; [done|..]; (split; [done|left]; by eexists).
Qed.

(** What [receive] makes of a batch: the same as the model, or it stopped for lack of room and a
    prefix is what the model makes of that prefix. *)
Lemma receive_loop_simulates o es : forall tx m n tx' k rej, simulates tx m ->
  receive_loop tx o es n = (tx', Ok (k, rej)) ->
  exists m', simulates tx' m' /\
    (receive_loop (E := Empty_set) m o es n = (m', Ok (k, rej)) \/
     rej = Some Rejection_ResourceLimit /\ fits_received (usage (Tx_write tx')) = false /\
       exists es1 es2, es = es1 ++ es2 /\ receive_loop (E := Empty_set) m o es1 n = (m', Ok (k, None))).
Proof.
  induction es as [|e es IH]; intros tx m n tx' k rej Hs; cbn [receive_loop].
  { intros [= <- <- <-]. eauto. }
  destruct (receive_one tx o e) as [tx1 r] eqn:Hone. pose proof (receive_one_simulates _ _ _ _ _ _ Hs Hone) as H1.
  destruct r as [b|f].
  - destruct H1 as (m1 & Hm1 & Hs1). rewrite Hm1. intros Hloop.
    assert (Hrest : exists n', receive_loop tx1 o es n' = (tx', Ok (k, rej)) /\
      forall es0, (let '(l, outcome) := (m1, Ok b : result bool (Failure Empty_set)) in
        match outcome with
        | Ok true => receive_loop l o es0 (saturating_add usize_max n 1)
        | _ => receive_loop l o es0 n end) = receive_loop (E := Empty_set) m1 o es0 n').
    { destruct b; eauto. }
    destruct Hrest as (n' & Hl & Heq). destruct (IH _ _ _ _ _ _ Hs1 Hl) as (m' & Hs' & Hm').
    exists m'. split; [done|]. destruct Hm' as [Hm'|(-> & Hfull & es1 & es2 & -> & Hm')].
    + left. rewrite <- Hm', <- Heq. by destruct b.
    + right. split; [done|]. split; [done|]. exists (e :: es1), es2. split; [done|].
      cbn [receive_loop]. rewrite Hm1, <- Hm', <- Heq. by destruct b.
  - destruct f as [err|rejection|inv]; [done|..]; destruct H1 as [Hs1 H1]; intros [= <- <- <-];
      exists m; (split; [done|]).
    + destruct H1 as [(g & -> & Hg)|[[= ->] Hfull]].
      * destruct g as [[]|r'|i]; cbn in Hg; try done. subst r'. by left.
      * right. split; [done|]. pose proof (receive_one_refused _ _ _ _ _ Hone) as [->|[err Hbad]]; [|done].
        split; [done|]. by exists [], (e :: es).
    + destruct H1 as [(g & -> & Hg)|[Hbad _]]; [|done].
      destruct g as [[]|r'|i]; cbn in Hg; try done. by left.
Qed.

Definition stopped_full (tx' : Tx D) m o es m' (k : N) (rej : option Rejection) : Prop :=
  rej = Some Rejection_ResourceLimit /\ fits_received (usage (Tx_write tx')) = false /\
  exists es1 es2 received, es = es1 ++ es2 /\
    receive (E := Empty_set) m o es1 = (m', Ok received) /\
    Received_appended received = k /\ Received_rejected received = None.

Lemma receive_simulates tx m o es tx' received : simulates tx m ->
  receive tx o es = (tx', Ok received) ->
  exists m', simulates tx' m' /\
    Received_seen received = seen (Model_cursor m' o) /\
    (receive (E := Empty_set) m o es = (m', Ok received) \/
     stopped_full tx' m o es m' (Received_appended received) (Received_rejected received)).
Proof.
  intros Hs. unfold receive.
  destruct (receive_loop tx o es 0) as [tx1 [[k rej]|]] eqn:Hl; [|done].
  cbn [Ledger_cursor Tx_Ledger]. intros [= <- <-].
  destruct (receive_loop_simulates _ _ _ _ _ _ _ _ Hs Hl) as (m' & Hs' & Hm').
  pose proof (rp_cursor _ _ (sm_represents _ _ Hs') o) as Hc. cbn.
  exists m'. split; [done|]. split; [by rewrite Hc|].
  destruct Hm' as [->|(-> & Hfull & es1 & es2 & -> & Hm')]; [left; cbn; by rewrite Hc|right].
  split; [done|]. split; [done|]. unfold receive.
  eexists es1, es2, _. rewrite Hm'. cbn. done.
Qed.

(** *** Filling a batch *)

Lemma view_stored_event tx m id e : simulates tx m -> stored (events m) e -> Event_id e = id ->
  exists encoded, view_stored (S := S) (Tx_write tx) id = Ok (Some (Stored_Event e encoded)).
Proof.
  intros Hs (s & Hm & <-) <-. rewrite (rp_events _ _ (sm_represents _ _ Hs)), Hm. cbn. eauto.
Qed.

Lemma outgoing_loop_simulates fuel : forall tx m peer seq batch batch',
  simulates tx m -> seq <= seen (Model_cursor m (origin m)) ->
  (N.to_nat (seen (Model_cursor m (origin m)) - seq) <= fuel)%nat ->
  outgoing_loop (S := S) fuel (Tx_write tx) (origin m) peer seq (seen (Model_cursor m (origin m))) batch
    = (batch', Ok tt) ->
  batch' = offer_all batch (own_events m seq) peer.
Proof.
  induction fuel as [|fuel IH]; intros tx m peer seq batch batch' Hs Hle Hfuel;
    pose proof (sm_history _ _ Hs) as Hm; cbn [outgoing_loop].
  { intros [= <-]. rewrite own_events_end by (done || lia). done. }
  destruct (N.ltb_spec seq (seen (Model_cursor m (origin m)))) as [Hlt|Hge]; cbn [negb];
    [|intros [= <-]; by rewrite own_events_end by (done || lia)].
  destruct (checked_add u64_max seq 1) as [next|] eqn:Hnext; [|done].
  apply checked_add_Some in Hnext as [-> _].
  destruct (NonZeroU64_new (seq + 1)) as [number|] eqn:Hnz; [|done]. apply NonZeroU64_new_Some in Hnz as Hn.
  assert (He : exists e, stored (events m) e /\ Event_id e = EventId_new (origin m) number).
  { destruct (proj2 (h_seen m Hm (EventId_new (origin m) number))) as [s Hst]; [cbn; lia|].
    destruct (h_key m Hm _ _ Hst) as [Hid _]. exists (Sealed_event s). split; [|done].
    exists s. by rewrite Hid. }
  destruct He as (e & He & Hid). destruct (view_stored_event tx m _ e Hs He Hid) as [encoded ->].
  assert (Hseq : seq_of e = seq + 1) by (unfold seq_of; by rewrite Hid).
  pose proof (own_events_step m e Hm He) as Hown. unfold Event_origin in Hown. rewrite Hid in Hown.
  specialize (Hown eq_refl). rewrite Hseq in Hown. replace (seq + 1 - 1) with seq in Hown by lia.
  rewrite Hown. cbn [offer_all].
  destruct (offer_event batch e peer) as [batch1 [[]|inv]]; cbn [map_err]; [|by intros [= <-]|done].
  apply IH; [done|lia|lia].
Qed.

Lemma outgoing_simulates tx m peer after r : simulates tx m -> after <= seen (Model_cursor m (origin m)) ->
  outgoing tx peer after = Ok r -> outgoing (E := Empty_set) m peer after = Ok r.
Proof.
  intros Hs Hle. unfold outgoing. cbn [Outbox_outgoing Tx_Outbox Model_Outbox]. unfold Tx_outgoing.
  rewrite (sm_origin _ _ Hs), (rp_cursor _ _ (sm_represents _ _ Hs)).
  destruct (outgoing_loop _ _ _ _ _ _ _) as [batch [[]|]] eqn:Hl; [|done].
  rewrite (outgoing_loop_simulates _ _ _ _ _ _ _ Hs Hle (le_n _) Hl). by intros [= ->].
Qed.

Lemma Tx_ack tx m peer : simulates tx m ->
  get_number (Tx_write tx) ACKS (as_str peer) = default 0 (acks m !! peer).
Proof. intros Hs. apply (rp_acks _ _ (sm_represents _ _ Hs)). Qed.

Lemma step_acks_seen m : rtc step (Model_new (origin m)) m ->
  forall peer, default 0 (acks m !! peer) <= seen (Model_cursor m (origin m)).
Proof.
  intros Hr. remember (Model_new (origin m)) as m0 eqn:E0. intros peer.
  assert (H0 : forall p, default 0 (acks m0 !! p) <= seen (Model_cursor m0 (origin m0))).
  { subst m0. intros p. cbn. rewrite lookup_empty. cbn. lia. }
  assert (Hh0 : history m0) by (subst; apply history_new).
  clear E0. revert peer. induction Hr as [|m1 m2 m3 H12 H23 IH]; [done|]. apply IH.
  - apply (step_acks _ _ H12); done.
  - by eapply history_step.
Qed.

(** *** The calls of an exchange *)

Lemma offer_simulates tx m peer r : simulates tx m -> offer tx peer = Ok r -> Model_offer m peer = r.
Proof.
  intros Hs. unfold Model_offer, offer. cbn [Outbox_ack Tx_Outbox Model_Outbox Ledger_cursor Tx_Ledger Model_Ledger Ledger_local].
  rewrite (Tx_ack _ _ _ Hs), (rp_cursor _ _ (sm_represents _ _ Hs)), (sm_origin _ _ Hs).
  destruct (outgoing tx peer _) as [b|] eqn:Hout; [|done].
  rewrite (outgoing_simulates _ _ _ _ _ Hs (step_acks_seen _ (sm_steps _ _ Hs) _) Hout). by intros [= <-].
Qed.

Lemma record_ack_simulates tx m peer claimed tx' : simulates tx m ->
  Tx_record_ack (S := S) tx peer claimed = (tx', Ok tt) -> simulates tx' (Model_record_ack m peer claimed).
Proof.
  intros Hs. unfold Tx_record_ack. rewrite (Tx_ack _ _ _ Hs), (sm_origin _ _ Hs), (rp_cursor _ _ (sm_represents _ _ Hs)).
  set (next := N.max _ _). intros Hr.
  assert (Hstep : rtc step (Model_new (origin m)) (Model_record_ack m peer claimed)).
  { eapply rtc_r; [apply (sm_steps _ _ Hs)|constructor]. }
  assert (Hnext : forall o, ack_of (Model_record_ack m peer claimed) o = if decide (o = peer) then next else ack_of m o).
  { intros o. by rewrite ack_of_record. }
  assert (Hacks : Tx_origin tx' = origin m /\ frame ["acks"]%string (Tx_write tx) (Tx_write tx') /\
    forall o, get_number (Tx_write tx') ACKS (as_str o) = if decide (o = peer) then next else ack_of m o).
  { revert Hr. destruct (N.eqb_spec next (default 0 (acks m !! peer))) as [Heq|Hne]; cbn [negb].
    - intros [= <-]. split; [apply (sm_origin _ _ Hs)|]. split; [apply frame_refl|]. intros o. case_decide as Ho.
      + subst o. by rewrite (Tx_ack _ _ _ Hs).
      + apply (Tx_ack _ _ _ Hs).
    - destruct (table_insert ACKS (as_str peer) next (Tx_write tx)) as [d [[]|]] eqn:Hi; intros [= <-].
      split; [done|]. apply table_insert_ok in Hi. cbn. split; [frames|]. intros o. unfold get_number.
      db_lookup. rewrite decide_inj by apply as_str_inj. case_decide; [done|]. apply (Tx_ack _ _ _ Hs). }
  destruct Hacks as (Horigin & Hframe & Hacks).
  assert (Husage : usage (Tx_write tx') = usage (Tx_write tx)).
  { unfold usage, get_number. by rewrite !(Hframe _ COUNTERS) by done. }
  split; [done|exact Hstep| |rewrite Husage; apply (sm_room _ _ Hs)].
  pose proof (sm_represents _ _ Hs) as Hrep.
  assert (Hj : forall {T} `{Json T} (t : TextTable) k,
    get_json (S := S) (T := T) (Tx_write tx') t k = get_json (Tx_write tx) t k).
  { intros. eapply get_json_frame; [exact Hframe|by destruct t]. }
  assert (Hf : forall {V} (t : Table V) k, label t <> "acks"%string -> redb_get (Tx_write tx') t k = redb_get (Tx_write tx) t k).
  { intros V t k Hl. apply Hframe. cbn. by apply String.eqb_neq in Hl as ->. }
  destruct Hrep as [Hid He Hc Hu Hk _ Hres Hp Hmc Hro Hact Ho Hor Hst Hd Hrd]. split; intros.
  all: unfold get_text, view_stored, view_cursor, view_resolution, view_profile, view_room, view_activity, view_delivery in *;
    rewrite ?Hj, ?Hf by done; try done.
  - by rewrite Husage.
  - unfold get_number. by rewrite Hf by done.
  - by rewrite Hacks, <- Hnext.
  - apply Hor. by rewrite <- Hf by done.
  - apply Hst. by rewrite <- Hf by done.
Qed.

(** A batch taken in full, or up to where the store had no more room. *)
Definition took_prefix (tx' : Tx D) m from batch claimed m' (rejected : option Rejection) : Prop :=
  rejected = Some Rejection_ResourceLimit /\ fits_received (usage (Tx_write tx')) = false /\
  exists es1 es2 m1 received, batch = es1 ++ es2 /\
    receive (E := Empty_set) m from es1 = (m1, Ok received) /\ Received_rejected received = None /\
    m' = Model_record_ack m1 from claimed.

Lemma took_frame tx1 tx' m from batch claimed m1 k rejected :
  stopped_full tx1 m from batch m1 k rejected ->
  Tx_record_ack (S := S) tx1 from claimed = (tx', Ok tt) ->
  took_prefix tx' m from batch claimed (Model_record_ack m1 from claimed) rejected.
Proof.
  intros (-> & Hfull & es1 & es2 & received & -> & Hrec & _ & Hnone) Hack. split; [done|]. split.
  - revert Hack. unfold Tx_record_ack. case_match; [|by intros [= <-]].
    destruct (table_insert ACKS _ _ _) as [d [[]|]] eqn:Hi; intros [= <-]. cbn.
    apply table_insert_ok in Hi. unfold usage, get_number in *. revert Hfull. by db_lookup.
  - by exists es1, es2, m1, received.
Qed.

Lemma respond_simulates tx m request tx' r : simulates tx m -> respond tx request = (tx', Ok r) ->
  exists m', simulates tx' m' /\
    (Model_respond m request = (m', r) \/
     exists answer, r = Ok answer /\
       took_prefix tx' m (Offer_from request) (Batch_events (Offer_batch request)) (Offer_seen request) m'
         (Answer_rejected answer)).
Proof.
  intros Hs. unfold Model_respond, respond. cbn [Ledger_local Tx_Ledger Model_Ledger].
  rewrite (sm_origin _ _ Hs). destruct (negb _ || _); [intros [= <- <-]; eauto|].
  cbn [Ledger_cursor Tx_Ledger Model_Ledger]. rewrite (rp_cursor _ _ (sm_represents _ _ Hs)).
  destruct (N.ltb_spec (seen (Model_cursor m (origin m))) (Offer_seen request)) as [|Hle];
    [intros [= <- <-]; eauto|].
  destruct (receive tx _ _) as [tx1 [received|]] eqn:Hrec; [|done].
  destruct (receive_simulates _ _ _ _ _ _ Hs Hrec) as (m1 & Hs1 & Hseen & Hm1).
  cbn [Outbox_record_ack Tx_Outbox Model_Outbox].
  destruct (Tx_record_ack tx1 _ _) as [tx2 [[]|]] eqn:Hack; [|done].
  pose proof (record_ack_simulates _ _ _ _ _ Hs1 Hack) as Hs2.
  destruct (outgoing tx2 _ _) as [b|] eqn:Hout; [|done].
  assert (Hsteps : rtc step m m1).
  { destruct Hm1 as [Hm1|(_ & _ & es1 & es2 & rec' & _ & Hm1 & _)]; by apply receive_steps in Hm1. }
  assert (Horigin : origin m1 = origin m) by (by apply steps_origin).
  assert (Hle2 : Offer_seen request <= seen (Model_cursor (Model_record_ack m1 (Offer_from request) (Offer_seen request))
    (origin (Model_record_ack m1 (Offer_from request) (Offer_seen request))))).
  { change (Offer_seen request <= seen (Model_cursor m1 (origin m1))).
    assert (Hmono : seen (Model_cursor m (origin m)) <= seen (Model_cursor m1 (origin m))); [|rewrite Horigin; lia].
    apply cursor_mono_steps; [done|by eapply sm_history]. }
  pose proof (outgoing_simulates _ _ _ _ _ Hs2 Hle2 Hout) as Hmout.
  intros [= <- <-]. eexists. split; [exact Hs2|]. destruct Hm1 as [Hm1|Hfull].
  - left. rewrite Hm1, Hmout. cbn. by rewrite (sm_origin _ _ Hs2).
  - destruct b as [b|rej]; [right|left; exfalso]; [|].
    + eexists. split; [done|]. cbn. by eapply took_frame.
    + destruct (outgoing_batch _ (Offer_from request) (Offer_seen request) (sm_history _ _ Hs2)) as (b & k & Hb & _).
      rewrite Hmout in Hb. done.
Qed.

Lemma accept_simulates tx m request answer tx' r : simulates tx m -> accept tx request answer = (tx', Ok r) ->
  exists m', simulates tx' m' /\
    (Model_accept m request answer = (m', r) \/
     exists progress, r = Ok progress /\
       took_prefix tx' m (Answer_from answer) (Batch_events (Answer_batch answer)) (Answer_seen answer) m'
         (Received_rejected (Progress_received progress))).
Proof.
  intros Hs. unfold Model_accept, accept. destruct (negb _); [intros [= <- <-]; eauto|].
  cbn [Ledger_local Tx_Ledger Model_Ledger Ledger_cursor].
  rewrite (sm_origin _ _ Hs), (rp_cursor _ _ (sm_represents _ _ Hs)).
  destruct (_ <? _); [intros [= <- <-]; eauto|].
  destruct (receive tx _ _) as [tx1 [received|]] eqn:Hrec; [|done].
  destruct (receive_simulates _ _ _ _ _ _ Hs Hrec) as (m1 & Hs1 & Hseen & Hm1).
  cbn [Outbox_record_ack Tx_Outbox Model_Outbox].
  destruct (Tx_record_ack tx1 _ _) as [tx2 [[]|]] eqn:Hack; [|done].
  pose proof (record_ack_simulates _ _ _ _ _ Hs1 Hack) as Hs2.
  intros [= <- <-]. eexists. split; [exact Hs2|]. destruct Hm1 as [->|Hfull]; [by left|right].
  eexists. split; [done|]. by eapply took_frame.
Qed.

Lemma append_simulates tx m body tx' e : simulates tx m -> fits_received (usage (Tx_write tx)) = true -> append tx body = (tx', Ok e) ->
  exists m', Model_write m body = (m', Ok e) /\ simulates tx' m'.
Proof.
  intros Hs Hroom. unfold Model_write, append.
  pose proof (append_event_alike _ _ (simulates_agree _ _ Hs) body) as Happ.
  destruct (append_event tx body) as [s|f]; [|done].
  destruct (append_event m body) as [s'|g] eqn:Hm; [|done]. cbn in Happ. subst s'.
  apply append_event_ok in Hm as (_ & _ & _ & _ & _ & _ & _ & _ & Hsealed). unfold commit.
  pose proof (admit_alike _ _ (simulates_agree _ _ Hs) s) as Ha.
  destruct (admit_sealed tx s) as [[|a]|f], (admit_sealed m s) as [[|a']|g] eqn:Hm; cbn in Ha; try done.
  injection Ha as <-. destruct (Ledger_commit tx s a) as [tx1 [[]|err]] eqn:Hc; cbn; intros [= <- <-].
  eexists. split; [done|]. by eapply commit_simulates.
Qed.

Lemma author_simulates tx m priority body tx' e : simulates tx m ->
  Tx_author tx priority body = (tx', Ok e) ->
  exists m', Model_write m body = (m', Ok e) /\ simulates tx' m'.
Proof.
  intros Hs. unfold Tx_author. destruct (check_capacity _ _) as [[]|] eqn:Hcap; [|done]. cbn.
  destruct (append tx body) as [tx1 [e1|]] eqn:Happ; intros [= <- <-].
  eapply append_simulates; [done| |exact Happ]. revert Hcap. unfold check_capacity, fits_received, below.
  destruct priority; (destruct (_ && _) eqn:Hb; [intros _|done]); revert Hb;
    unfold ORDINARY_LIMIT, ENDING_LIMIT, RECEIVED_LIMIT; cbn [Policy.events Usage_bytes];
    rewrite !andb_true_iff, !N.ltb_lt; lia.
Qed.

(** *** The generation *)

(** Whoever appends something raises the generation. *)
Definition raises (tx tx' : Tx D) : Prop :=
  Tx_generation (S := S) tx <= Tx_generation tx' /\
  (Tx_appended tx' = true -> Tx_appended tx = true \/ Tx_generation tx < Tx_generation tx').

#[export] Instance raises_preorder : PreOrder raises.
Proof.
  split; [intros tx; split; [lia|by left]|].
  intros tx1 tx2 tx3 [H12 A12] [H23 A23]. split; [lia|].
  intros [[]%A12|]%A23; [by left|right; lia..].
Qed.

Lemma commit_raises tx s a tx' : Tx_commit tx s a = (tx', Ok tt) -> raises tx tx'.
Proof.
  intros (_ & _ & d1 & Hr & Hp)%Tx_commit_ok.
  assert (H : Tx_generation tx' = Tx_generation tx + 1); [|split; [lia|right; lia]].
  unfold Tx_generation, get_number. rewrite (pj_frame _ _ _ _ Hp _ COUNTERS) by done.
  exact (rec_generation _ _ _ _ Hr).
Qed.

Lemma ack_raises tx peer n tx' : Tx_record_ack (S := S) tx peer n = (tx', Ok tt) -> raises tx tx'.
Proof.
  unfold Tx_record_ack. case_match; [|by intros [= <-]].
  destruct (table_insert ACKS _ _ _) as [d [[]|]] eqn:Hi; intros [= <-].
  apply table_insert_ok in Hi. unfold raises, Tx_generation, get_number. cbn. split; [|by left].
  db_lookup. lia.
Qed.

Lemma author_raises priority body tx tx' e : Tx_author tx priority body = (tx', Ok e) -> raises tx tx'.
Proof.
  unfold Tx_author. destruct (map_err _ _); [|by intros [= _ _]].
  destruct (append tx body) as [tx1 [e1|]] eqn:Ha; intros [= <- _].
  by eapply (append_respects (ledger_ops := Tx_Ledger) raises commit_raises).
Qed.
Lemma respond_raises request tx tx' r : respond tx request = (tx', Ok r) -> raises tx tx'.
Proof. apply (respond_respects (ledger_ops := Tx_Ledger) (outbox_ops := Tx_Outbox) raises commit_raises ack_raises). Qed.
Lemma accept_raises request answer tx tx' r : accept tx request answer = (tx', Ok r) -> raises tx tx'.
Proof. apply (accept_respects (ledger_ops := Tx_Ledger) (outbox_ops := Tx_Outbox) raises commit_raises ack_raises). Qed.
End exchange.
