(* ===== verification/Acts.v ===== *)
(** Transaction bodies: what the closures given to [Store::write] do with their [Tx], as a small
    state and error monad, and when such a body keeps the reference ledger ([Admissible]).  An
    instance per primitive and per combinator lets the bodies of the other files be shown admissible
    by instance search. *)

From Stdlib Require Import NArith Lia String Ascii Relations.
From stdpp Require Import base gmap list strings relations.
From S2P Require Import Prelude SortedLists RustStr Ids AgentLists Notification Handoff Event.
From S2P Require Import Ledger Policy ChatWire Exchange Model History Convergence Sync StoreRefinement.
From S2P Require Import Database Wire Views Tx TxLaws StoreRefinement StoreExchange.

(** ** Definitions *)

Declare Scope act_scope.
Delimit Scope act_scope with act.

(** [FnOnce(&mut Tx) -> Result<A, StoreError>] *)
Definition Act (D S A : Type) : Type := Tx D -> Tx D * result A (StoreError S).

Definition act_ok {D S A} (a : A) : Act D S A := fun tx => (tx, Ok a).
Definition act_err {D S A} (e : StoreError S) : Act D S A := fun tx => (tx, Err e).
Definition act_lift {D S A} (r : result A (StoreError S)) : Act D S A := fun tx => (tx, r).
Definition act_read {D S A} (f : D -> result A (StoreError S)) : Act D S A := fun tx => (tx, f (Tx_write tx)).
Definition act_origin {D S} : Act D S Origin := fun tx => (tx, Ok (Tx_origin tx)).
Definition act_bind {D S A B} (m : Act D S A) (k : A -> Act D S B) : Act D S B :=
  fun tx => match m tx with (tx, Ok a) => k a tx | (tx, Err e) => (tx, Err e) end.
(** Writing to a table directly. *)
Definition act_write {D S A} (w : Write D S A) : Act D S A :=
  fun tx => let '(d, r) := w (Tx_write tx) in (mkTx d (Tx_origin tx) (Tx_appended tx), r).

Notation "'let!' x ':=' m 'in' k" := (act_bind m (fun x => k))
  (at level 200, x pattern, m at level 100, k at level 200, right associativity) : act_scope.
Notation "'do!' m 'in' k" := (act_bind m (fun _ => k))
  (at level 200, m at level 100, k at level 200, right associativity) : act_scope.

(** [for x in xs { body?; }] *)
Fixpoint act_each {D S A} (xs : list A) (body : A -> Act D S unit) : Act D S unit :=
  match xs with
  | [] => act_ok tt
  | x :: xs => act_bind (body x) (fun _ => act_each xs body)
  end.

Section acts.
Context {D S : Type} `{!Redb D S} `{codec : !Codec} `{records : !StoreCodec}.

Definition act_author (priority : Priority) (body : Body) : Act D S Event := fun tx => Tx_author tx priority body.

(** The tables that hold what the machine keeps for itself and the reference ledger does not know. *)
Definition own_tables : list string :=
  ["local_agents"; "turns"; "reads"; "escalations"; "peers"; "links"]%string.

Context `{!RedbLaws D S} `{laws : !StoreCodecLaws}.

(** A body after which the tables hold what steps of the reference make of what they held, with a
    higher generation if it recorded an event. *)
Class Admissible {A} (act : Act D S A) : Prop :=
  admissible : forall tx m tx' a, simulates tx m -> act tx = (tx', Ok a) ->
    exists m', simulates tx' m' /\ rtc step m m' /\ raises tx tx'.
End acts.
Arguments own_tables /.

(** ** Lemmas *)

Section admissible.
Context {D S : Type} `{!Redb D S} `{!RedbLaws D S} `{codec : !Codec} `{records : !StoreCodec} `{laws : !StoreCodecLaws}.

#[export] Instance admissible_ok {A} (a : A) : Admissible (act_ok (D := D) (S := S) a).
Proof. intros tx m tx' b Hs [= <- _]. exists m. by split. Qed.
#[export] Instance admissible_err {A} e : Admissible (A := A) (act_err (D := D) (S := S) e).
Proof. by intros tx m tx' b Hs [=]. Qed.
#[export] Instance admissible_lift {A} r : Admissible (A := A) (act_lift (D := D) (S := S) r).
Proof. intros tx m tx' b Hs [= <- _]. exists m. by split. Qed.
#[export] Instance admissible_read {A} f : Admissible (A := A) (act_read (D := D) (S := S) f).
Proof. intros tx m tx' b Hs [= <- _]. exists m. by split. Qed.
#[export] Instance admissible_origin : Admissible (act_origin (D := D) (S := S)).
Proof. intros tx m tx' b Hs [= <- _]. exists m. by split. Qed.

#[export] Instance admissible_bind {A B} (x : Act D S A) (k : A -> Act D S B) :
  Admissible x -> (forall a, Admissible (k a)) -> Admissible (act_bind x k).
Proof.
  intros Hx Hk tx m tx' b Hs. unfold act_bind. destruct (x tx) as [tx1 [a|]] eqn:Hrun; [|done].
  destruct (Hx _ _ _ _ Hs Hrun) as (m1 & Hs1 & Hm1 & Hr1). intros Hrest.
  destruct (Hk a _ _ _ _ Hs1 Hrest) as (m2 & Hs2 & Hm2 & Hr2). exists m2. split; [done|]. split; by etrans.
Qed.

#[export] Instance admissible_author priority body : Admissible (act_author (D := D) (S := S) priority body).
Proof.
  intros tx m tx' e Hs Ha. destruct (author_simulates _ _ _ _ _ _ Hs Ha) as (m' & Hm & Hs').
  exists m'. split; [done|]. split; [by eapply write_steps|by eapply author_raises].
Qed.

#[export] Instance admissible_if {A} (b : bool) (x y : Act D S A) :
  Admissible x -> Admissible y -> Admissible (if b then x else y).
Proof. by destruct b. Qed.
#[export] Instance admissible_decide {A} P `{Decision P} (x y : Act D S A) :
  Admissible x -> Admissible y -> Admissible (if decide P then x else y).
Proof. by destruct (decide P). Qed.
#[export] Instance admissible_option {A B} (o : option B) (x : B -> Act D S A) y :
  (forall b, Admissible (x b)) -> Admissible y ->
  Admissible (match o with Some b => x b | None => y end).
Proof. by destruct o. Qed.

#[export] Instance admissible_each {A} (xs : list A) (body : A -> Act D S unit) :
  (forall x, Admissible (body x)) -> Admissible (act_each xs body).
Proof. intros Hb. induction xs as [|x xs IH]; [apply admissible_ok|by apply admissible_bind]. Qed.

(** Writing to the machine's own tables leaves the ledger as it was. *)
Lemma frame_simulates labels (tx : Tx D) d m : simulates tx m -> frame labels (Tx_write tx) d ->
  Forall (fun l => l ∈ own_tables) labels ->
  simulates (mkTx d (Tx_origin tx) (Tx_appended tx)) m.
Proof.
  intros [Ho Hst Hrep Hroom] Hframe Hl.
  assert (Hf : forall V (t : Table V) k, label t ∉ own_tables -> redb_get d t k = redb_get (Tx_write tx) t k).
  { intros V t k Hn. apply Hframe. apply not_true_iff_false. rewrite existsb_exists.
    intros (x & Hx & Heq%String.eqb_eq). subst x. apply Hn. rewrite Forall_forall in Hl.
    apply Hl. by apply list_elem_of_In. }
  assert (Hu : usage d = usage (Tx_write tx)).
  { unfold usage, get_number. rewrite !Hf; [done|cbn; set_solver..]. }
  split; [done|done| |cbn [Tx_write]; by rewrite Hu].
  destruct Hrep as [Hid He Hc Hus Hk Ha Hres Hp Hmc Hro Hact Hop Hors Hsta Hd Hrd Hth].
  assert (Hf' : forall V (t : Table V) k,
    existsb (String.eqb (label t)) own_tables = false -> redb_get d t k = redb_get (Tx_write tx) t k).
  { intros V t k Hn. apply Hf. intros Hin. apply not_true_iff_false in Hn. apply Hn.
    apply existsb_exists. exists (label t). split; [by apply list_elem_of_In|apply String.eqb_refl]. }
  split; intros; cbn.
  all: unfold get_text, get_number, view_stored, view_cursor, view_resolution, view_profile, view_room,
    view_activity, view_delivery, get_json in *; rewrite ?Hu, ?Hf' by done; try done.
  - apply Hors. by rewrite <- Hf' by done.
  - apply Hsta. by rewrite <- Hf' by done.
Qed.

(** Whether a table is the machine's own. *)
Definition is_own (t : TextTable) : bool := existsb (String.eqb (label t)) own_tables.

Lemma own_keeps (t : TextTable) tx m d : is_own t = true -> simulates tx m ->
  frame [label t] (Tx_write tx) d ->
  exists m', simulates (mkTx d (Tx_origin tx) (Tx_appended tx)) m' /\ rtc step m m' /\
    raises (S := S) tx (mkTx d (Tx_origin tx) (Tx_appended tx)).
Proof.
  intros Ht Hs Hf. exists m. split; [|split; [done|]].
  - eapply frame_simulates; [exact Hs|exact Hf|]. constructor; [|constructor].
    unfold is_own in Ht. apply existsb_exists in Ht as (x & Hx & ->%String.eqb_eq). by apply list_elem_of_In.
  - unfold raises, Tx_generation, get_number. cbn [Tx_write Tx_appended].
    rewrite (Hf _ COUNTERS); [split; [done|by left]|]. cbn. by destruct t.
Qed.

Lemma admissible_insert (t : TextTable) k v : is_own t = true ->
  Admissible (act_write (D := D) (S := S) (table_insert t k v)).
Proof.
  intros Ht tx m tx' a Hs. unfold act_write.
  destruct (table_insert t k v (Tx_write tx)) as [d [[]|]] eqn:Hi; intros [= <- _].
  apply table_insert_ok in Hi. apply (own_keeps t); [done..|].
  eapply frame_insert; [exact Hi|]. cbn. by rewrite String.eqb_refl.
Qed.
Lemma admissible_remove (t : TextTable) k : is_own t = true ->
  Admissible (act_write (D := D) (S := S) (table_remove t k)).
Proof.
  intros Ht tx m tx' a Hs. unfold act_write.
  destruct (table_remove t k (Tx_write tx)) as [d [o|]] eqn:Hi; intros [= <- _].
  apply table_remove_ok in Hi. apply (own_keeps t); [done..|].
  eapply frame_remove; [exact Hi|]. cbn. by rewrite String.eqb_refl.
Qed.
End admissible.
#[export] Hint Extern 1 (Admissible (act_write (table_insert _ _ _))) =>
  (apply admissible_insert; reflexivity) : typeclass_instances.
#[export] Hint Extern 1 (Admissible (act_write (table_remove _ _))) =>
  (apply admissible_remove; reflexivity) : typeclass_instances.

(** Follow a body through its cases. *)
Ltac solve_admissible :=
  repeat match goal with
  | |- forall _, _ => intro
  | |- Admissible (act_bind _ _) => apply admissible_bind
  | |- Admissible (act_each _ _) => apply admissible_each
  | |- Admissible (match ?x with _ => _ end) => destruct x
  | |- Admissible _ => solve [apply _]
  end.
