(* ===== verification/Turns.v ===== *)
(** chat/store/notifications.rs: receipts, urgent messages, and the escalation of questions that nobody answered
    in time.  chat/store/turns.rs: which agents have asks to answer, and the claiming, finishing and recovery of
    the turns in which they answer them. *)

From Stdlib Require Import NArith Lia String Ascii.
From stdpp Require Import base gmap list strings.
From S2P Require Import Prelude SortedLists RustStr Ids AgentLists Notification Handoff Event Ledger Policy.
From S2P Require Import Wire Database Views Tx Acts.

(** ** Definitions *)

(** [str::floor_char_boundary]: a byte that continues a character is 10xxxxxx. *)
Definition continues (a : ascii) : bool := let n := N_of_ascii a in (128 <=? n) && (n <? 192).
Fixpoint floor_char_boundary (s : string) (index : nat) : nat :=
  match index with
  | O => O
  | Datatypes.S below =>
      match String.get index s with
      | Some a => if continues a then floor_char_boundary s below else index
      | None => String.length s
      end
  end.

Section receipts.
Context {D S : Type} `{!Redb D S} `{codec : !Codec} `{records : !StoreCodec}.
Implicit Types (d : D).
Local Open Scope act_scope.

Definition urgent d (agent : AgentId) : result (list EventId) (StoreError S) :=
  let prefix := agent_prefix agent in
  try_map (fun '(_, id) => map_err StoreError_Invalid (EventId_try_from id))
    (agent_rows prefix (redb_range_from d URGENT prefix)).

Definition delivered_to d (agent : AgentId) : result (list EventId) (StoreError S) :=
  let prefix := agent_prefix agent in
  map_ok (@concat EventId)
    (try_map (fun '(request, stage) =>
       let? stage := store_decode (T := Delivery) stage in
       if bool_decide (stage = Delivery_Delivered)
       then map_ok (fun id => [id]) (map_err StoreError_Invalid (EventId_try_from request))
       else Ok []) (agent_rows prefix (redb_range_from d DELIVERY prefix))).

Definition escalation d (request : EventId) : result (option EventId) (StoreError S) :=
  match get_text d ESCALATIONS (event_key request) with
  | None => Ok None
  | Some text => map_ok Some (map_err StoreError_Invalid (EventId_try_from text))
  end.

Definition Tx_receipt (agent : AgentId) (message : Event) (received : Delivery) : Act D S unit :=
  let! local := act_origin in
  if negb (bool_decide (AgentId_origin agent = local))
  then act_err (StoreError_Invalid (mkInvalid "only a local recipient may record a receipt")) else
  let! current := act_read (fun d => view_delivery d agent (Event_id message)) in
  if decide (Delivery_observe current received = current) then act_ok tt else
  let! (conversation, audience) := act_lift (ok_or (Body_thread (Event_body message))
                                     (StoreError_Corrupt "a receipt addresses a message")) in
  do! act_author Priority_Ending
        (Body_Receipt (Event_id message) conversation audience (AgentId_name agent) received) in
  act_ok tt.

Definition check_read (agent : AgentId) (event : Event) : Act D S unit :=
  match Event_body event with
  | Body_Message _ _ _ _ _ _ _ => Tx_receipt agent event Delivery_Read
  | Body_Resolved _ _ _ _ _ => act_ok tt
  | _ => act_err (StoreError_Invalid (mkInvalid "a read addresses a message or ask ending"))
  end.

(** The writes are aborted, whatever they would have done. *)
Definition Store_check_read_receipts (store : Store D) (agent : AgentId) (events : list Event) :
  result unit (StoreError S) :=
  let? _ := verify (Store_database store) (Store_origin store) in
  (act_each events (check_read agent) (mkTx (Store_database store) (Store_origin store) false)).2.

Definition question_state d (request : EventId) : result QuestionState (StoreError S) :=
  let? resolution := view_resolution d request in
  match resolution with
  | Some _ => Ok QuestionState_Answered
  | None =>
      let? escalated := escalation d request in
      Ok (match escalated with Some _ => QuestionState_Escalated | None => QuestionState_Waiting end)
  end.

(** The text that passes a question on. *)
Definition fallback_heading (request : EventId) (question : Question) : string :=
  String.concat "" ["Fallback for unanswered question "; EventId_fmt request; "."; String "010" EmptyString;
    "Expected: "; as_str (Question_expected question); String "010" EmptyString]%string.
Definition fallback_text (request : EventId) (question : Question) (text : Text) : string :=
  let heading := fallback_heading request question in
  let remaining := saturating_sub MAX_TEXT (str_len heading) in
  let last := floor_char_boundary (as_str text) (N.to_nat (N.min remaining (str_len (as_str text)))) in
  String.app heading (String.substring 0 last (as_str text)).

Definition fallback_body (request : EventId) (sender : AgentId) (text : Text) (chain : Chain)
    (notice : Notice) (question : Question) (now : Stamp) : result Body Invalid :=
  let fallback := Question_fallback question in
  let? recipients := Members_try_from [fallback] in
  let? fallback_text := Text_try_from (fallback_text request question text) in
  let? conversation := Conversation_direct sender fallback in
  let? audience := policy_audience [sender; fallback] in
  Ok (Body_Message conversation (AgentId_name sender) fallback_text audience (Intent_Ask fallback chain) now
        (Some (mkNotice recipients true (Notice_subject notice) None))).

(** One open ask of [escalate]: whether it was passed on. *)
Definition escalate_one (now : Stamp) (request : EventId) : Act D S bool :=
  let! local := act_origin in
  if negb (bool_decide (EventId_origin request = local)) then act_ok false else
  let! found := act_read (fun d => view_event d request) in
  match found with
  | None => act_ok false
  | Some parent =>
      match Event_body parent with
      | Body_Message _ _ text _ (Intent_Ask _ chain) at_ (Some notice) =>
          match Notice_question notice with
          | None => act_ok false
          | Some question =>
              let! state := act_read (fun d => question_state d request) in
              if negb (escalation_due (Stamp_millis at_) (Question_wait_millis question) (Stamp_millis now) state)
              then act_ok false else
              let! sender := act_lift (ok_or (Event_author parent) (StoreError_Corrupt "a question has an author")) in
              let! body := act_lift (map_err StoreError_Invalid
                             (fallback_body request sender text chain notice question now)) in
              let! event := act_author Priority_Ending body in
              do! act_write (table_insert ESCALATIONS (event_key request) (event_key (Event_id event))) in
              act_ok true
          end
      | _ => act_ok false
      end
  end.

Fixpoint escalate_loop (now : Stamp) (asks : list (EventId * AgentId)) (count : N) : Act D S N :=
  match asks with
  | [] => act_ok count
  | (request, _) :: asks =>
      let! passed := escalate_one now request in
      escalate_loop now asks (if passed then saturating_add usize_max count 1 else count)
  end.

Definition escalate_work (now : Stamp) : Act D S N :=
  let! asks := act_read view_open_asks in
  escalate_loop now asks 0.

Definition Store_escalate (rung : result unit S) (store : Store D) (now : Stamp) :
  Store D * result N (StoreError S) :=
  Store_write rung store (escalate_work now).
End receipts.

Section admissible.
Context {D S : Type} `{!Redb D S} `{!RedbLaws D S} `{codec : !Codec} `{records : !StoreCodec} `{laws : !StoreCodecLaws}.

#[export] Instance admissible_receipt agent message received :
  Admissible (Tx_receipt (D := D) (S := S) agent message received).
Proof. unfold Tx_receipt. solve_admissible. Qed.

#[export] Instance admissible_check_read agent event : Admissible (check_read (D := D) (S := S) agent event).
Proof. unfold check_read. solve_admissible. Qed.

#[export] Instance admissible_escalate_one now request : Admissible (escalate_one (D := D) (S := S) now request).
Proof. unfold escalate_one. solve_admissible. Qed.

#[export] Instance admissible_escalate now : Admissible (escalate_work (D := D) (S := S) now).
Proof.
  unfold escalate_work. apply admissible_bind; [apply _|]. intros asks. generalize 0.
  induction asks as [|[request responder] asks IH]; intros n; cbn [escalate_loop]; solve_admissible; apply IH.
Qed.
End admissible.

(** ** Definitions *)

Record Turn := mkTurn {
  Turn_request : Event;
  Turn_agent : AgentId;
  Turn_card : Card;
  Turn_config : LocalAgent
}.

Inductive Completion :=
| Completion_Answered (text : Text) (session : string)
| Completion_Failed.

Record Triage := mkTriage { ready : list AgentId; unavailable : list (EventId * AgentId) }.

(** [events.sort_by(|first, second| first.order().cmp(&second.order()))] *)
#[local] Instance by_order : Ord Event := fun first second => cmp (Event_order first) (Event_order second).
Definition sort_by_order (events : list Event) : list Event := @sort Event by_order events.

Section turns.
Context {D S : Type} `{!Redb D S} `{codec : !Codec} `{records : !StoreCodec}.
Implicit Types (d : D) (store : Store D).
Local Open Scope act_scope.

Definition ending (request : Event) (by_ : AgentId) (outcome : Outcome) : result Body (StoreError S) :=
  let? (conversation, audience) :=
    ok_or (Body_thread (Event_body request)) (StoreError_Corrupt "an ask is a message") in
  Ok (Body_Resolved (Event_id request) conversation audience (AgentId_name by_) outcome).

(** The status an agent last gave: of its activity, else of its card. *)
Definition last_status d (agent : AgentId) : result (option (Line MAX_STATUS_BYTES)) (StoreError S) :=
  let? activity := view_activity d agent in
  let? profile := view_profile d agent in
  Ok (match option_bind _ _ Activity_status activity with
      | Some status => Some status
      | None => option_bind _ _ AgentLists.status profile
      end).

Definition worker_activity (now : Stamp) (agent : AgentId) (state : ActivityState) : Act D S unit :=
  let! status := act_read (fun d => last_status d agent) in
  do! act_author Priority_Ending (Body_Activity (AgentId_name agent) (mkActivity state now status)) in
  act_ok tt.

Definition Tx_end (request : Event) (by_ : AgentId) (outcome : Outcome) : Act D S unit :=
  let! known := act_read (fun d => view_resolution d (Event_id request)) in
  match known with
  | Some _ => act_ok tt
  | None =>
      let! body := act_lift (ending request by_ outcome) in
      do! act_author Priority_Ending body in
      act_ok tt
  end.

(** Whether an open ask is for the agent and unclaimed, and the event that asks. *)
Definition open_ask_for d (agent : AgentId) (ask : EventId * AgentId) : result (list Event) (StoreError S) :=
  let '(request, responder) := ask in
  if bool_decide (responder = agent)
     && match redb_get d TURNS (event_key request) with None => true | Some _ => false end
  then map_ok (fun found => match found with Some event => [event] | None => [] end) (view_event d request)
  else Ok [].

Definition open_for d (agent : AgentId) : result (list Event) (StoreError S) :=
  let? asks := view_open_asks d in
  let? found := try_map (open_ask_for d agent) asks in
  Ok (sort_by_order (concat found)).

Definition triage_one d (origin : Origin) (found : Triage) (ask : EventId * AgentId) :
  result Triage (StoreError S) :=
  let '(request, responder) := ask in
  if negb (bool_decide (AgentId_origin responder = origin)) then Ok found else
  let? card := view_profile d responder in
  let? config := agent_config d (AgentId_name responder) in
  Ok (match card, config with
      | Some card, Some _ =>
          match mode card with
          | Mode_Managed =>
              if existsb (fun agent => bool_decide (agent = responder)) (ready found) then found
              else mkTriage (ready found ++ [responder]) (unavailable found)
          | Mode_Interactive => found
          end
      | _, _ => mkTriage (ready found) (unavailable found ++ [(request, responder)])
      end).

Fixpoint triage_loop d (origin : Origin) (asks : list (EventId * AgentId)) (found : Triage) :
  result Triage (StoreError S) :=
  match asks with
  | [] => Ok found
  | ask :: asks => let? found := triage_one d origin found ask in triage_loop d origin asks found
  end.

Definition triage d (origin : Origin) : result Triage (StoreError S) :=
  let? asks := view_open_asks d in
  triage_loop d origin asks (mkTriage [] []).

Definition end_unavailable (ask : EventId * AgentId) : Act D S unit :=
  let '(request, responder) := ask in
  let! found := act_read (fun d => view_event d request) in
  match found with
  | Some event => Tx_end event responder Outcome_Unavailable
  | None => act_ok tt
  end.

Definition dispatch_work : Act D S (list AgentId) :=
  let! local := act_origin in
  let! current := act_read (fun d => triage d local) in
  do! act_each (unavailable current) end_unavailable in
  act_ok (ready current).

Definition Store_dispatchable (rung : result unit S) store : Store D * result (list AgentId) (StoreError S) :=
  match Store_read store (fun d => triage d (Store_origin store)) with
  | Err e => (store, Err e)
  | Ok seen =>
      match unavailable seen with
      | [] => (store, Ok (ready seen))
      | _ => Store_write rung store dispatch_work
      end
  end.

(** The requests an agent has claimed. *)
Definition claimed_by d (agent : AgentId) : result (list EventId) (StoreError S) :=
  try_map (fun row => map_err StoreError_Invalid (EventId_try_from row.1))
    (List.filter (fun row => bool_decide (row.2 = AgentId_fmt agent)) (redb_iter d TURNS)).

Definition interrupt (agent : AgentId) (request : EventId) : Act D S unit :=
  let! found := act_read (fun d => view_event d request) in
  do! (match found with
       | Some event => Tx_end event agent Outcome_Interrupted
       | None => act_ok tt
       end) in
  do! act_write (table_remove TURNS (event_key request)) in
  act_ok tt.

Definition recover_work (now : Stamp) (agent : AgentId) : Act D S N :=
  let! claimed := act_read (fun d => claimed_by d agent) in
  do! act_each claimed (interrupt agent) in
  do! (match claimed with
       | [] => act_ok tt
       | _ => worker_activity now agent ActivityState_Waiting
       end) in
  act_ok (N.of_nat (length claimed)).

Definition Store_recover (rung : result unit S) store (now : Stamp) (agent : AgentId) :
  Store D * result N (StoreError S) := Store_write rung store (recover_work now agent).

Definition claim_work (now : Stamp) (agent : AgentId) : Act D S (option Turn) :=
  let! asks := act_read (fun d => open_for d agent) in
  match asks with
  | [] => act_ok None
  | request :: _ =>
      let! found := act_read (fun d => view_profile d agent) in
      let! card := act_lift (ok_or found (StoreError_Unknown (AgentId_fmt agent))) in
      let! found := act_read (fun d => agent_config d (AgentId_name agent)) in
      let! config := act_lift (ok_or found (StoreError_Unknown (AgentId_fmt agent))) in
      let! (conversation, audience) :=
        act_lift (ok_or (Body_thread (Event_body request)) (StoreError_Corrupt "an ask is a message")) in
      do! act_author Priority_Ending
            (Body_TurnStarted (Event_id request) conversation audience (AgentId_name agent)) in
      do! worker_activity now agent ActivityState_Working in
      do! act_write (table_insert TURNS (event_key (Event_id request)) (AgentId_fmt agent)) in
      act_ok (Some (mkTurn request agent card config))
  end.

Definition Store_claim (rung : result unit S) store (now : Stamp) (agent : AgentId) :
  Store D * result (option Turn) (StoreError S) := Store_write rung store (claim_work now agent).

(** [answered_at] and [now] are two readings of the clock. *)
Definition finish_work (answered_at now : Stamp) (turn : Turn) (completion : Completion) : Act D S unit :=
  do! (match completion with
       | Completion_Answered text session =>
           let! (conversation, audience) :=
             act_lift (ok_or (Body_thread (Event_body (Turn_request turn)))
                         (StoreError_Corrupt "an ask is a message")) in
           do! act_author Priority_Ending
                 (Body_Message conversation (AgentId_name (Turn_agent turn)) text audience
                    (Intent_Reply (Event_id (Turn_request turn))) answered_at None) in
           let config := mkLocalAgent (LocalAgent_cwd (Turn_config turn)) (Some session) in
           let! encoded := act_lift (store_encode config) in
           act_write (table_insert LOCAL_AGENTS (as_str (AgentId_name (Turn_agent turn))) encoded)
       | Completion_Failed => Tx_end (Turn_request turn) (Turn_agent turn) Outcome_Failed
       end) in
  do! act_write (table_remove TURNS (event_key (Event_id (Turn_request turn)))) in
  worker_activity now (Turn_agent turn) ActivityState_Waiting.

Definition Store_finish (rung : result unit S) store (answered_at now : Stamp) (turn : Turn) (completion : Completion) :
  Store D * result unit (StoreError S) := Store_write rung store (finish_work answered_at now turn completion).
End turns.

Section admissible.
Context {D S : Type} `{!Redb D S} `{!RedbLaws D S} `{codec : !Codec} `{records : !StoreCodec} `{laws : !StoreCodecLaws}.

#[export] Instance admissible_worker_activity now agent state :
  Admissible (worker_activity (D := D) (S := S) now agent state).
Proof. unfold worker_activity. solve_admissible. Qed.
#[export] Instance admissible_end request by_ outcome : Admissible (Tx_end (D := D) (S := S) request by_ outcome).
Proof. unfold Tx_end. solve_admissible. Qed.
#[export] Instance admissible_dispatch : Admissible (dispatch_work (D := D) (S := S)).
Proof. unfold dispatch_work, end_unavailable. solve_admissible. Qed.
#[export] Instance admissible_recover now agent : Admissible (recover_work (D := D) (S := S) now agent).
Proof. unfold recover_work, interrupt. solve_admissible. Qed.
#[export] Instance admissible_claim now agent : Admissible (claim_work (D := D) (S := S) now agent).
Proof. unfold claim_work. solve_admissible. Qed.
#[export] Instance admissible_finish answered_at now turn completion :
  Admissible (finish_work (D := D) (S := S) answered_at now turn completion).
Proof. unfold finish_work. solve_admissible. Qed.
End admissible.
