(* ===== verification/Admin.v ===== *)
(** chat/store/admin.rs: peers and links, the machine's card, an agent's configuration and read
    position, and cleaning a conversation. *)

From Stdlib Require Import NArith Lia String Ascii.
From stdpp Require Import base gmap list strings.
From S2P Require Import Prelude SortedLists RustStr Ids AgentLists Notification Handoff Event.
From S2P Require Import Ledger Policy Exchange Model History Database Wire Views Tx TxLaws StoreRefinement Acts.

(** ** Definitions *)

Inductive LinkState := LinkState_Synced | LinkState_Deferred | LinkState_Failed.
Record Link := mkLink { Link_state : LinkState; Link_detail : option string; Link_at : Stamp }.

Section admin.
Context {D S : Type} `{!Redb D S} `{codec : !Codec} `{records : !StoreCodec} `{link_json : !Json Link}.
Implicit Types (d : D) (store : Store D).
Local Open Scope act_scope.

Definition text_entries d (t : TextTable) : list (string * string) := redb_iter d t.

(** A [BTreeMap] collected from rows with distinct keys, in the order of its keys. *)
Definition Store_peers store : result (list (string * Origin)) (StoreError S) :=
  Store_read store (fun d =>
    try_map (fun '(alias, origin) =>
               let? origin := map_err StoreError_Invalid (Origin_try_from origin) in Ok (alias, origin))
      (text_entries d PEERS)).

Definition pin_work (alias : string) (origin : Origin) (replace : bool) : Act D S unit :=
  let! existing := act_read (fun d => Ok (get_text d PEERS alias)) in
  if match existing with
     | Some existing => negb (bool_decide (existing = as_str origin)) && negb replace
     | None => false
     end
  then act_err (StoreError_Refused (Refusal_Invalid (mkInvalid
         "the peer's chat identity changed; confirm with `chat peer replace`")))
  else act_write (table_insert PEERS alias (as_str origin)).

Definition Store_pin (rung : result unit S) store (alias : string) (origin : Origin) (replace : bool) :
  Store D * result unit (StoreError S) :=
  if bool_decide (origin = Store_origin store)
  then (store, Err (StoreError_Corrupt "this machine cannot be its own peer"))
  else Store_write rung store (pin_work alias origin replace).

Definition unpin_work (alias : string) : Act D S bool :=
  let! removed := act_write (table_remove PEERS alias) in
  do! act_write (table_remove LINKS alias) in
  act_ok (match removed with Some _ => true | None => false end).

Definition Store_unpin (rung : result unit S) store (alias : string) : Store D * result bool (StoreError S) :=
  Store_write rung store (unpin_work alias).

Definition Store_links store : result (list (string * Link)) (StoreError S) :=
  Store_read store (fun d =>
    try_map (fun '(alias, link) => let? link := store_decode link in Ok (alias, link)) (text_entries d LINKS)).

Definition record_link_work (alias : string) (link : Link) : Act D S unit :=
  let! encoded := act_lift (store_encode link) in
  act_write (table_insert LINKS alias encoded).

Definition Store_record_link (rung : result unit S) store (alias : string) (link : Link) :
  Store D * result unit (StoreError S) := Store_write rung store (record_link_work alias link).

(** [card] is what the platform says of this machine. *)
Definition publish_work (now : AgentId -> Stamp) (card : MachineCard) : Act D S unit :=
  let! local := act_origin in
  let! listed := act_read (fun d => directory d now) in
  if negb (bool_decide (Directory_machines listed !! local = Some card))
  then do! act_author Priority_Ordinary (Body_Machine card) in act_ok tt
  else act_ok tt.

Definition Store_publish_machine (rung : result unit S) store (now : AgentId -> Stamp) (card : MachineCard) :
  Store D * result unit (StoreError S) := Store_write rung store (publish_work now card).

(** *** Cleaning *)

Definition thread_events d (conversation : Conversation) : list (string * string) :=
  let '(first, last) := thread_bounds conversation in redb_range d THREADS first last.

Definition acknowledged d (local : Origin) (event : Event) : bool :=
  if negb (bool_decide (Event_origin event = local)) then true else
  match Body_audience (Event_body event) with
  | None => true
  | Some audience =>
      forallb (fun peer => negb (get_number d ACKS (as_str peer) <? nz_get (EventId_seq (Event_id event))))
        (List.filter (fun peer => negb (bool_decide (peer = local))) (Audience_members audience))
  end.

(** The events of a conversation that are still there, as they are stored. *)
Definition kept_events d (entries : list (string * string)) : result (list (Event * string)) (StoreError S) :=
  map_ok (@concat (Event * string))
    (try_map (fun '(_, id) =>
       let? id := map_err StoreError_Invalid (EventId_try_from id) in
       map_ok (fun stored => match stored with
                             | Some (Stored_Event event encoded) => [(event, encoded)]
                             | _ => []
                             end) (view_stored d id)) entries).

(** Whether an event may be cleaned. *)
Definition cleanable d (local : Origin) (event : Event) : result unit (StoreError S) :=
  let? _ :=
    match Event_body event with
    | Body_Message _ _ _ _ _ _ (Some notice) =>
        if Notice_urgent notice then
          let? _ := try_map (fun recipient =>
                      let? delivery := view_delivery d recipient (Event_id event) in
                      if negb (bool_decide (delivery = Delivery_Acknowledged))
                      then Err (StoreError_Invalid (mkInvalid
                             "urgent messages must be acknowledged before cleaning"))
                      else Ok tt) (AgentList_agents (Notice_recipients notice)) in
          Ok tt
        else Ok tt
    | _ => Ok tt
    end in
  let open := match redb_get d OPEN (event_key (Event_id event)) with Some _ => true | None => false end in
  if open || negb (acknowledged d local event)
  then Err (StoreError_Refused (Refusal_Invalid (mkInvalid
         "the conversation has an open ask or content its peers have not stored yet")))
  else Ok tt.

Local Open Scope store_scope.

Definition clean_event (kept : Event * string) : Write D S unit :=
  let '(event, encoded) := kept in
  let id := event_key (Event_id event) in
  do* table_remove EVENTS id in
  do* table_remove ORDER (order_key event) in
  table_insert TOMBSTONES id (Event_clock event, Digest_as_bytes (Digest_of (bytes encoded))).

Definition cleaned_bytes (events : list (Event * string)) : N :=
  foldl (fun bytes event => saturating_add u64_max bytes (str_len event.2)) 0 events.

Definition clean_in (local : Origin) (conversation : Conversation) : Write D S N :=
  let* entries := write_read (fun d => Ok (thread_events d conversation)) in
  let* events := write_read (fun d => kept_events d entries) in
  do* write_read (fun d => try_map (fun event => cleanable d local event.1) events) in
  do* for_each entries (fun entry => do* table_remove THREADS entry.1 in write_ok tt) in
  do* for_each events clean_event in
  do* (match conversation with
       | Conversation_Direct pair_ =>
           for_each [DirectPair_first pair_; DirectPair_second pair_] (fun agent =>
             do* table_remove JOINED (joined_key agent conversation) in write_ok tt)
       | Conversation_Room _ => write_ok tt
       end) in
  let count := N.of_nat (length events) in
  let* remaining_events := write_read (fun d => Ok (saturating_sub (get_number d COUNTERS "events") count)) in
  let* remaining_bytes := write_read (fun d =>
    Ok (saturating_sub (get_number d COUNTERS "bytes") (cleaned_bytes events))) in
  do* table_insert COUNTERS "events" remaining_events in
  do* table_insert COUNTERS "bytes" remaining_bytes in
  write_ok count.

(** [clean] does not check the identity and does not ring; compacting the file changes no row and may
    fail after the commit. *)
Definition Store_clean (compacted : result unit S) store (conversation : Conversation) :
  Store D * result N (StoreError S) :=
  match clean_in (Store_origin store) conversation (Store_database store) with
  | (_, Err e) => (store, Err e)
  | (write, Ok removed) =>
      match map_err StoreError_Storage (redb_commit write) with
      | Err e => (store, Err e)
      | Ok _ =>
          let store := mkStore write (Store_origin store) (Store_bell store) in
          match map_err StoreError_Storage compacted with
          | Err e => (store, Err e)
          | Ok _ => (store, Ok removed)
          end
      end
  end.

Local Close Scope store_scope.

(** *** Configuration and read positions *)

Definition Tx_configure (name : AgentName) (config : option LocalAgent) : Act D S unit :=
  match config with
  | Some config =>
      let! encoded := act_lift (store_encode config) in
      act_write (table_insert LOCAL_AGENTS (as_str name) encoded)
  | None => do! act_write (table_remove LOCAL_AGENTS (as_str name)) in act_ok tt
  end.

Definition read_cursor d (agent : AgentId) : string := default EmptyString (get_text d READS (AgentId_fmt agent)).

Definition Tx_mark_read (agent : AgentId) (through : Event) : Act D S unit :=
  let order := order_key through in
  let! current := act_read (fun d => Ok (read_cursor d agent)) in
  if cmp_ltb current order then act_write (table_insert READS (AgentId_fmt agent) order) else act_ok tt.
End admin.

Section admissible.
Context {D S : Type} `{!Redb D S} `{!RedbLaws D S} `{codec : !Codec} `{records : !StoreCodec} `{laws : !StoreCodecLaws}
  `{link_json : !Json Link}.

#[export] Instance admissible_pin alias origin replace : Admissible (pin_work (D := D) (S := S) alias origin replace).
Proof. unfold pin_work. solve_admissible. Qed.
#[export] Instance admissible_unpin alias : Admissible (unpin_work (D := D) (S := S) alias).
Proof. unfold unpin_work. solve_admissible. Qed.
#[export] Instance admissible_record_link alias link : Admissible (record_link_work (D := D) (S := S) alias link).
Proof. unfold record_link_work. solve_admissible. Qed.
#[export] Instance admissible_publish now card : Admissible (publish_work (D := D) (S := S) now card).
Proof. unfold publish_work. solve_admissible. Qed.
#[export] Instance admissible_configure name config : Admissible (Tx_configure (D := D) (S := S) name config).
Proof. unfold Tx_configure. solve_admissible. Qed.
#[export] Instance admissible_mark_read agent through : Admissible (Tx_mark_read (D := D) (S := S) agent through).
Proof. unfold Tx_mark_read. solve_admissible. Qed.
End admissible.

(** ** What cleaning leaves *)

Section cleaning.
Context {D S : Type} `{!Redb D S} `{!RedbLaws D S} `{codec : !Codec} `{records : !StoreCodec} `{laws : !StoreCodecLaws}.
Implicit Types (d : D) (m : Model) (s : Sealed).

Definition belongs (conversation : Conversation) (s : Sealed) : Prop :=
  Body_conversation (Event_body (Sealed_event s)) = Some conversation.
#[export] Instance belongs_dec conversation s : Decision (belongs conversation s).
Proof. unfold belongs. apply _. Defined.

(** The events that a cleaning leaves, and what it makes of one. *)
Definition left_by (conversation : Conversation) (E : gmap EventId Sealed) : gmap EventId Sealed :=
  filter (fun entry => ~ belongs conversation entry.2) E.
Definition swept (conversation : Conversation) (s : Sealed) : Stored :=
  if decide (belongs conversation s) then Stored_Cleaned (Event_clock (Sealed_event s)) (Sealed_digest s)
  else stored_of s.

(** Nobody has to come back to the event: it is no open ask, the recipients of an urgent message have
    acknowledged it, and the machines that an own event is for have all stored it. *)
Record dispensable d m (s : Sealed) : Prop := {
  dp_open : forall a, (a, Event_id (Sealed_event s)) ∉ open_asks m;
  dp_urgent : forall conversation from text audience intent at_ notice,
    Event_body (Sealed_event s) = Body_Message conversation from text audience intent at_ (Some notice) ->
    Notice_urgent notice = true ->
    forall recipient, recipient ∈ AgentList_agents (Notice_recipients notice) ->
      view_delivery (S := S) d recipient (Event_id (Sealed_event s)) = Ok Delivery_Acknowledged;
  dp_stored : forall audience peer,
    Event_origin (Sealed_event s) = origin m -> Body_audience (Event_body (Sealed_event s)) = Some audience ->
    peer ∈ Audience_members audience -> peer <> origin m ->
    nz_get (EventId_seq (Event_id (Sealed_event s))) <= default 0 (acks m !! peer)
}.

(** The tables after the events of a conversation were cleaned from tables that hold [m]. *)
Record cleaned d m (conversation : Conversation) d' : Prop := {
  cl_frame : frame ["threads"; "events"; "order"; "tombstones"; "joined"; "counters"]%string d d';
  cl_stored : forall id, view_stored (S := S) d' id = Ok (swept conversation <$> (Model.events m !! id));
  cl_usage : usage d' = mkUsage (N.of_nat (size (left_by conversation (Model.events m))))
    (stored_bytes (left_by conversation (Model.events m)));
  cl_dispensable : forall id s, Model.events m !! id = Some s -> belongs conversation s -> dispensable d m s
}.

(** *** The events of the conversation *)

(** The rows of the conversation stand for distinct events, which are all that belong to it. *)
Lemma thread_entries d m conversation : represents (S := S) d m -> history m ->
  exists L : list Sealed,
    thread_events (D := D) (S := S) d conversation =
      map (fun s => (thread_key conversation (order_key (Sealed_event s)), event_key (Event_id (Sealed_event s)))) L /\
    NoDup (map (fun s => Event_id (Sealed_event s)) L) /\
    forall s, s ∈ L <-> Model.events m !! Event_id (Sealed_event s) = Some s /\ belongs conversation s.
Proof.
  intros Hrep Hm.
  assert (Hrow : forall k v, (k, v) ∈ thread_events (D := D) (S := S) d conversation <->
    exists s, Model.events m !! Event_id (Sealed_event s) = Some s /\ belongs conversation s /\
      k = thread_key conversation (order_key (Sealed_event s)) /\ v = event_key (Event_id (Sealed_event s))).
  { intros k v. unfold thread_events, redb_range. pose proof (thread_range conversation) as Hrange.
    destruct (thread_bounds conversation) as [first last]. cbn [fst snd] in Hrange.
    rewrite list_elem_of_In, filter_In, <- list_elem_of_In, iter_elem. cbn [fst snd].
    rewrite (rp_threads _ _ Hrep), andb_true_iff, cmp_leb_le, cmp_ltb_lt. split.
    - intros [(id & s & c & Hs & Hc & -> & ->) Hin]. apply Hrange in Hin as ->.
      destruct (h_key _ Hm _ _ Hs) as [Hid _]. exists s. rewrite Hid. by split_and!.
    - intros (s & Hs & Hc & -> & ->). split; [by eauto 10|]. by apply Hrange. }
  assert (Hnodup : NoDup (map fst (thread_events (D := D) (S := S) d conversation))).
  { unfold thread_events, redb_range. destruct (thread_bounds conversation) as [first last].
    pose proof (increasing_NoDup _ (iter_sorted (S := S) d THREADS)) as H. revert H.
    induction (redb_iter d THREADS) as [|row rows IH]; [done|]. cbn [map List.filter]. rewrite NoDup_cons. intros [Hn Hrest].
    destruct (_ && _); [|by apply IH]. cbn [map]. apply NoDup_cons. split; [|by apply IH]. intros Hin. apply Hn.
    apply list_elem_of_In, in_map_iff in Hin as (row' & Heq & Hin). apply filter_In in Hin as [Hin _].
    apply list_elem_of_In, in_map_iff. eauto. }
  assert (Hlist : exists L, thread_events (D := D) (S := S) d conversation =
      map (fun s => (thread_key conversation (order_key (Sealed_event s)), event_key (Event_id (Sealed_event s)))) L /\
      forall s, s ∈ L -> Model.events m !! Event_id (Sealed_event s) = Some s /\ belongs conversation s).
  { assert (Hsub : forall k v, (k, v) ∈ thread_events (D := D) (S := S) d conversation ->
      exists s, Model.events m !! Event_id (Sealed_event s) = Some s /\ belongs conversation s /\
        k = thread_key conversation (order_key (Sealed_event s)) /\ v = event_key (Event_id (Sealed_event s)))
      by (intros k v; apply Hrow).
    revert Hsub. generalize (thread_events (D := D) (S := S) d conversation). intros rows. induction rows as [|[k v] rows IH]; intros Hsub.
    - exists []. split; [done|]. intros s Hs. by apply not_elem_of_nil in Hs.
    - destruct (Hsub k v) as (s & Hs & Hb & -> & ->); [by left|].
      destruct IH as (L & -> & HL); [intros k' v' H; apply Hsub; by right|].
      exists (s :: L). split; [done|]. intros s' [->|]%elem_of_cons; [done|by apply HL]. }
  destruct Hlist as (L & HL & Hin). exists L. split; [done|]. split.
  - rewrite HL, map_map in Hnodup. cbn [fst] in Hnodup. revert Hnodup. clear -Hin. intros Hnodup.
    induction L as [|s L IH]; [constructor|]. cbn [map] in *. apply NoDup_cons in Hnodup as [Hn Hnodup].
    apply NoDup_cons. split; [|apply IH; [intros s' Hs'; apply Hin; by right|done]].
    intros Hid. apply Hn. apply list_elem_of_In, in_map_iff in Hid as (s' & Heq & Hs').
    apply list_elem_of_In in Hs'. assert (s' = s) as ->.
    { destruct (Hin s') as [H' _]; [by right|]. destruct (Hin s) as [H _]; [by left|]. congruence. }
    apply list_elem_of_In, in_map_iff. exists s. by split; [|apply list_elem_of_In].
  - intros s. split; [apply Hin|]. intros [Hs Hb].
    assert (Hel : (thread_key conversation (order_key (Sealed_event s)), event_key (Event_id (Sealed_event s)))
      ∈ thread_events (D := D) (S := S) d conversation) by (apply Hrow; eauto).
    rewrite HL in Hel. apply list_elem_of_In, in_map_iff in Hel as (s' & Heq & Hs'). apply list_elem_of_In in Hs'.
    injection Heq as _ Hid%EventId_fmt_inj. destruct (Hin s' Hs') as [Hs1 _]. rewrite Hid in Hs1. congruence.
Qed.

Lemma kept_entries d m conversation L : represents (S := S) d m -> history m ->
  (forall s, s ∈ L -> Model.events m !! Event_id (Sealed_event s) = Some s) ->
  kept_events (D := D) (S := S) d
    (map (fun s => (thread_key conversation (order_key (Sealed_event s)), event_key (Event_id (Sealed_event s)))) L) =
  Ok (map (fun s => (Sealed_event s, Sealed_encoded s)) L).
Proof.
  intros Hrep Hm. unfold kept_events. induction L as [|s L IH]; intros Hin; [done|]. cbn [map try_map].
  assert (Hid : EventId_try_from (event_key (Event_id (Sealed_event s))) = Ok (Event_id (Sealed_event s)))
    by (by apply EventId_canonical).
  rewrite Hid. cbn [map_err]. rewrite (rp_events _ _ Hrep), (Hin s) by (by left). cbn [fmap option_fmap option_map map_ok stored_of].
  specialize (IH ltac:(intros s' Hs'; apply Hin; by right)).
  destruct (try_map _ _) as [lists|]; cbn [map_ok] in *; [|done]. injection IH as IH. cbn. by rewrite IH.
Qed.
(** *** What is written *)

Definition kept_row (s : Sealed) : Event * string := (Sealed_event s, Sealed_encoded s).
Definition ids (L : list Sealed) : list EventId := map (fun s => Event_id (Sealed_event s)) L.

Lemma clean_events_spec L : forall d d', NoDup (ids L) ->
  for_each (map kept_row L) (clean_event (D := D) (S := S)) d = (d', Ok tt) ->
  frame ["events"; "order"; "tombstones"]%string d d' /\
  (forall id, id ∈ ids L -> redb_get d' EVENTS (event_key id) = None) /\
  (forall s, s ∈ L -> redb_get d' TOMBSTONES (event_key (Event_id (Sealed_event s))) =
     Some (Event_clock (Sealed_event s), Digest_as_bytes (Digest_of (bytes (Sealed_encoded s))))) /\
  (forall id, id ∉ ids L -> redb_get d' EVENTS (event_key id) = redb_get d EVENTS (event_key id) /\
     redb_get d' TOMBSTONES (event_key id) = redb_get d TOMBSTONES (event_key id)).
Proof.
  induction L as [|s L IH]; intros d d' Hnodup; cbn [map for_each].
  - intros [-> _]%write_ok_ok. split; [apply frame_refl|]. split; [by intros id ?%not_elem_of_nil|].
    split; [by intros s ?%not_elem_of_nil|done].
  - intros (d1 & [] & Hone & Hrest)%write_bind_ok. cbn [ids map] in Hnodup. apply NoDup_cons in Hnodup as [Hn Hnodup].
    destruct (IH _ _ Hnodup Hrest) as (Hf & Hgone & Htomb & Hother). clear IH Hrest.
    unfold clean_event, kept_row in Hone. write_inv.
    assert (Hkey : forall id, id <> Event_id (Sealed_event s) -> event_key id <> event_key (Event_id (Sealed_event s)))
      by (intros id Hne Heq%EventId_fmt_inj; done).
    destruct (Hother (Event_id (Sealed_event s)) Hn) as [He1 Ht1].
    split; [frames|]. split; [|split].
    + intros id [->|Hid]%elem_of_cons; [|by apply Hgone]. rewrite He1. db_lookup. by rewrite decide_True.
    + intros s' [->|Hs']%elem_of_cons; [|by apply Htomb]. rewrite Ht1. db_lookup. by rewrite decide_True.
    + intros id [Hne Hid]%not_elem_of_cons. destruct (Hother id Hid) as [-> ->]. split; db_lookup;
        by rewrite decide_False by (by apply Hkey).
Qed.

Lemma remove_each_frame {A} (t : TextTable) (xs : list A) (key : A -> string) d d' :
  for_each xs (fun x => write_bind (table_remove t (key x)) (fun _ => write_ok tt)) d = (d', Ok tt) ->
  frame (S := S) [label t] d d'.
Proof.
  apply for_each_frame. intros x d1 d2 H. write_inv. eapply frame_remove; [eassumption|]. cbn. by rewrite String.eqb_refl.
Qed.

(** *** Counting *)

Lemma left_by_delete conversation L : forall E : gmap EventId Sealed, NoDup (ids L) ->
  (forall s, s ∈ L <-> E !! Event_id (Sealed_event s) = Some s /\ belongs conversation s) ->
  (forall id s, E !! id = Some s -> Event_id (Sealed_event s) = id) ->
  N.of_nat (size E) = N.of_nat (size (left_by conversation E)) + N.of_nat (length L) /\
  stored_bytes E = stored_bytes (left_by conversation E) + foldr (fun s n => str_len (Sealed_encoded s) + n) 0 L.
Proof.
  induction L as [|s L IH]; intros E Hnodup HL Hkey.
  - assert (left_by conversation E = E) as ->.
    { apply map_filter_id. intros id s Hs Hb. cbn in Hb. specialize (Hkey _ _ Hs) as <-.
      by apply (not_elem_of_nil s), HL. }
    cbn. lia.
  - set (id := Event_id (Sealed_event s)). apply NoDup_cons in Hnodup as [Hn Hnodup].
    destruct (proj1 (HL s) ltac:(by left)) as [Hs Hb]. fold id in Hs.
    destruct (IH (delete id E) Hnodup) as [Hsize Hbytes].
    + intros s'. split.
      * intros Hin. destruct (proj1 (HL s')) as [Hs' Hb']; [by right|]. split; [|done].
        rewrite lookup_delete_ne; [done|]. intros Heq. apply Hn. apply list_elem_of_In, in_map_iff. exists s'.
        by split; [|apply list_elem_of_In].
      * intros [[Hne Hs']%lookup_delete_Some Hb']. pose proof (proj2 (HL s') (conj Hs' Hb')) as H. by apply elem_of_cons in H as [->|].
    + intros id' s' [_ H]%lookup_delete_Some. by apply Hkey.
    + assert (Hrest : left_by conversation (delete id E) = left_by conversation E).
      { apply map_eq. intros id'. unfold left_by. rewrite map_filter_delete. destruct (decide (id' = id)) as [->|Hne].
        - rewrite lookup_delete_eq. symmetry. apply map_lookup_filter_None_2. right. intros s' Hs' Hnb.
          rewrite Hs in Hs'. injection Hs' as <-. by apply Hnb.
        - by rewrite lookup_delete_ne. }
      rewrite Hrest in Hsize, Hbytes. cbn [length foldr].
      rewrite <- (insert_delete_id E id s Hs). unfold stored_bytes at 1.
      rewrite map_size_insert_None by apply lookup_delete_eq.
      rewrite map_fold_insert_L; [|intros; lia|apply lookup_delete_eq]. fold (stored_bytes (delete id E)).
      rewrite (insert_delete_id E id s Hs). lia.
Qed.

(** Less is left than there was. *)
Lemma left_by_le conversation (E : gmap EventId Sealed) :
  N.of_nat (size (left_by conversation E)) <= N.of_nat (size E) /\ stored_bytes (left_by conversation E) <= stored_bytes E.
Proof.
  induction E as [|id s E Hid IHs IH] using map_ind; [done|]. unfold left_by. rewrite map_filter_insert.
  rewrite map_size_insert_None by done. unfold stored_bytes at 2. rewrite map_fold_insert_L; [|intros; lia|done].
  fold (stored_bytes E). case_decide.
  - fold (left_by conversation E).
    assert (Hout : left_by conversation E !! id = None) by (apply map_lookup_filter_None_2; by left).
    rewrite map_size_insert_None by done. unfold stored_bytes at 1. rewrite map_fold_insert_L; [|intros; lia|done].
    fold (stored_bytes (left_by conversation E)). lia.
  - rewrite delete_id by done. fold (left_by conversation E). lia.
Qed.

Lemma cleaned_bytes_sum L total : foldr (fun s n => str_len (Sealed_encoded s) + n) 0 L <= total -> total <= u64_max ->
  cleaned_bytes (map kept_row L) = foldr (fun s n => str_len (Sealed_encoded s) + n) 0 L.
Proof.
  intros Hle Hmax. unfold cleaned_bytes.
  assert (H : forall acc, acc + foldr (fun s n => str_len (Sealed_encoded s) + n) 0 L <= u64_max ->
    foldl (fun bytes event => saturating_add u64_max bytes (str_len event.2)) acc (map kept_row L) =
    acc + foldr (fun s n => str_len (Sealed_encoded s) + n) 0 L).
  { clear Hle. induction L as [|s L IH]; intros acc Hacc; cbn [map foldl foldr] in *; [lia|].
    unfold saturating_add at 2. cbn [kept_row snd]. rewrite N.min_l by lia. rewrite IH; lia. }
  rewrite H; lia.
Qed.

Lemma cleanable_dispensable d m s : represents d m -> cleanable (S := S) d (origin m) (Sealed_event s) = Ok tt ->
  dispensable d m s.
Proof.
  intros Hrep. unfold cleanable. intros H.
  match type of H with match ?c with _ => _ end = _ => destruct c as [[]|e] eqn:Hurgent; [|done] end.
  destruct (redb_get d OPEN _) eqn:Hopen; cbn [orb] in H; [done|].
  destruct (acknowledged d (origin m) (Sealed_event s)) eqn:Hack; cbn in H; [|done]. split.
  - intros a Ha. apply (rp_open _ _ Hrep) in Ha. congruence.
  - intros conversation from text audience intent at_ notice Hbody Hu recipient Hr. rewrite Hbody, Hu in Hurgent.
    match type of Hurgent with match ?c with _ => _ end = _ => destruct c as [units|e] eqn:Hall; [|done] end.
    apply try_map_ok in Hall. apply list_elem_of_In in Hr. clear -Hall Hr.
    induction Hall as [|x y xs ys Hx Hall IH]; [done|]. destruct Hr as [->|Hr]; [|by apply IH].
    destruct (view_delivery d recipient _) as [delivery|]; [|done].
    destruct (bool_decide (delivery = Delivery_Acknowledged)) eqn:Hd; [|done]. apply bool_decide_eq_true in Hd. by subst.
  - intros audience peer Ho Haud Hpeer Hne. unfold acknowledged in Hack.
    rewrite bool_decide_eq_true_2 in Hack by done. cbn [negb] in Hack. rewrite Haud in Hack.
    rewrite forallb_forall in Hack. specialize (Hack peer). rewrite (rp_acks _ _ Hrep) in Hack.
    apply N.ltb_ge. apply negb_true_iff, Hack. apply filter_In. split; [by apply list_elem_of_In|].
    by rewrite bool_decide_eq_false_2.
Qed.

(** A cleaning that succeeds *)
Lemma clean_in_ok tx m conversation d' n : simulates (S := S) tx m ->
  clean_in (S := S) (origin m) conversation (Tx_write tx) = (d', Ok n) ->
  cleaned (Tx_write tx) m conversation d' /\
  n + N.of_nat (size (left_by conversation (Model.events m))) = N.of_nat (size (Model.events m)).
Proof.
  intros Hsim. set (d := Tx_write tx). pose proof (sm_represents _ _ Hsim) as Hrep. fold d in Hrep.
  pose proof (sm_history _ _ Hsim) as Hm. pose proof (sm_room _ _ Hsim) as Hroom. fold d in Hroom.
  destruct (thread_entries d m conversation Hrep Hm) as (L & Hentries & Hnodup & HL).
  unfold clean_in. intros H. write_inv.
  rewrite Hentries, (kept_entries d m conversation L Hrep Hm) in * by (intros s Hs; by apply HL).
  simplify_eq. fold kept_row in *.
  assert (Hj : frame ["joined"]%string x7 x9).
  { destruct conversation; [|write_inv; apply frame_refl].
    match goal with H : for_each _ _ x7 = _ |- _ => by apply remove_each_frame in H end. }
  match goal with H : for_each _ _ d = _ |- _ => apply remove_each_frame in H; cbn [label] in H end.
  match goal with H : for_each _ clean_event _ = _ |- _ =>
    apply clean_events_spec in H as (Hf & Hgone & Htomb & Hother); [|exact Hnodup] end.
  change (map (fun s => (Sealed_event s, Sealed_encoded s)) L) with (map kept_row L) in *.
  rewrite !length_map in *.
  destruct (left_by_delete conversation L (Model.events m) Hnodup HL) as [Hsize Hbytes];
    [intros id s Hs; by apply (h_key _ Hm)|].
  split; [|lia].
  pose proof (rp_usage _ _ Hrep) as Hu.
  split.
  - frames.
  - intros id. unfold view_stored.
    assert (He : redb_get x17 EVENTS (event_key id) = redb_get x7 EVENTS (event_key id)) by (by db_lookup).
    assert (Ht : redb_get x17 TOMBSTONES (event_key id) = redb_get x7 TOMBSTONES (event_key id)) by (by db_lookup).
    rewrite He, Ht. destruct (decide (id ∈ ids L)) as [Hin|Hout].
    + rewrite (Hgone id Hin). apply list_elem_of_In, in_map_iff in Hin as (s & <- & Hs). apply list_elem_of_In in Hs.
      rewrite (Htomb s Hs). destruct (proj1 (HL s) Hs) as [Hs' Hb]. rewrite Hs'. cbn.
      rewrite hash_length. cbn. unfold swept. rewrite decide_True by done.
      destruct (h_key _ Hm _ _ Hs') as [_ Hsealed]. destruct (stored_event_decode (S := S) s Hsealed) as [_ Hdigest].
      rewrite Hdigest. done.
    + destruct (Hother id Hout) as [-> ->].
      assert (Hd5 : redb_get x5 EVENTS (event_key id) = redb_get d EVENTS (event_key id)) by (by db_lookup).
      assert (Hd5' : redb_get x5 TOMBSTONES (event_key id) = redb_get d TOMBSTONES (event_key id)) by (by db_lookup).
      rewrite Hd5, Hd5'. pose proof (rp_events _ _ Hrep id) as Hev. unfold view_stored in Hev. rewrite Hev.
      destruct (Model.events m !! id) as [s|] eqn:Hs; [|done]. cbn. unfold swept. rewrite decide_False; [done|].
      intros Hb. apply Hout. destruct (h_key _ Hm _ _ Hs) as [<- _]. apply list_elem_of_In, in_map_iff. exists s.
      split; [done|]. apply list_elem_of_In, HL. by split.
  - assert (Hnum : forall key, get_number x9 COUNTERS key = get_number d COUNTERS key).
    { intros key. unfold get_number. by db_lookup. }
    unfold usage at 1, get_number. db_lookup. decide_keys. rewrite !Hnum.
    unfold usage in Hu, Hroom. injection Hu as Hue Hub. rewrite Hue, Hub in Hroom. cbn [Policy.events Usage_bytes] in Hroom.
    assert (Hmax : Usage_bytes RECEIVED_LIMIT + MAX_EVENT_BYTES <= u64_max) by (vm_compute; discriminate).
    cbn [default]. fold kept_row. rewrite Hue, Hub.
    rewrite (cleaned_bytes_sum L (stored_bytes (Model.events m))) by lia.
    unfold saturating_sub, id. f_equal; lia.
  - intros id s Hs Hb. destruct (h_key _ Hm _ _ Hs) as [Hid _].
    assert (Hin : s ∈ L) by (apply HL; by rewrite Hid).
    apply cleanable_dispensable; [done|].
    match goal with H : try_map _ _ = Ok _ |- _ => apply try_map_ok in H; rename H into Hall end.
    clear -Hall Hin. revert Hall. generalize x4. induction L as [|s' L IH]; intros units Hall; [by apply not_elem_of_nil in Hin|].
    cbn [map] in Hall. inversion Hall as [|? u ? us Hone Hrest]; subst. destruct u.
    apply elem_of_cons in Hin as [->|Hin]; [exact Hone|by apply (IH Hin us)].
Qed.

(** Cleaning a conversation, from the outside *)
Lemma Store_clean_cases compacted store m conversation store' r :
  simulates (S := S) (mkTx (Store_database store) (Store_origin store) false) m ->
  Store_clean compacted store conversation = (store', r) ->
  store' = store /\ is_ok r = false \/
  cleaned (Store_database store) m conversation (Store_database store') /\
  Store_origin store' = Store_origin store /\ Store_bell store' = Store_bell store /\
  exists n, n + N.of_nat (size (left_by conversation (Model.events m))) = N.of_nat (size (Model.events m)) /\
    r = match compacted with Ok _ => Ok n | Err e => Err (StoreError_Storage e) end.
Proof.
  intros Hs. unfold Store_clean. pose proof (sm_origin _ _ Hs) as Ho. cbn in Ho.
  destruct (clean_in _ _ _) as [d' [n|]] eqn:Hc; [|intros [= <- <-]; by left].
  rewrite Ho in Hc. destruct (clean_in_ok _ _ _ _ _ Hs Hc) as [Hcl Hn].
  destruct (redb_commit d'); cbn [map_err]; [|intros [= <- <-]; by left].
  intros H. right. destruct compacted; cbn [map_err] in H; injection H as <- <-; cbn; (split_and!; [done|done|done|]); by exists n.
Qed.
End cleaning.
