(* ===== verification/HandoffStore.v ===== *)
(** The reading half of chat/store/handoff.rs: which handoffs a reader finds, how one is read, and how
    a reading is recorded. *)

From Stdlib Require Import NArith Lia String Ascii.
From stdpp Require Import base gmap list strings.
From S2P Require Import Prelude SortedLists RustStr Ids AgentLists Notification Handoff Event.
From S2P Require Import Ledger Policy Database Wire Views Tx Acts.

(** ** Definitions *)

Definition MAX_HANDOFFS : N := 32.

Record PendingObservation := mkPendingObservation {
  Pending_descriptor : Descriptor;
  Pending_observation : Observation
}.

Record ReadBody := mkReadBody {
  ReadBody_descriptor : Descriptor;
  ReadBody_reader : AgentId;
  ReadBody_text : Text;
  ReadBody_pending : PendingObservation
}.

Section handoff.
Context {D S : Type} `{!Redb D S} `{codec : !Codec} `{records : !StoreCodec}.
Implicit Types (d : D).
Local Open Scope act_scope.

Definition handoff_header d (id : EventId) : result (option Descriptor) (StoreError S) :=
  let? found := get_json d HANDOFF_HEADERS (event_key id) in
  if match found with Some descriptor => negb (bool_decide (Descriptor_id descriptor = id)) | None => false end
  then Err (StoreError_Corrupt "handoff header identity") else Ok found.

Definition handoff_range (reader : AgentId) (project : Project) (scope : Scope) : string * string :=
  let start := handoff_prefix reader project scope in
  (start, String.app start (String delete_char EmptyString)).

(** One row of [discover]. *)
Definition discover_one d (reader : AgentId) (project : Project) (scope : Scope) (row : string * string) :
  result Descriptor (StoreError S) :=
  let? id := map_err StoreError_Invalid (EventId_try_from row.2) in
  let? found := handoff_header d id in
  let? descriptor := ok_or found (StoreError_Corrupt "handoff header missing") in
  let? _ := map_err StoreError_Handoff (Descriptor_authorize descriptor reader descriptor ReadLimit_MAX) in
  if negb (bool_decide (Metadata_project (Descriptor_metadata descriptor) = project))
     || negb (bool_decide (Metadata_scope (Descriptor_metadata descriptor) = scope))
  then Err (StoreError_Corrupt "handoff metadata index") else Ok descriptor.

Definition discover d (reader : AgentId) (project : Project) (scope : Scope) (limit : N) :
  result (list Descriptor) (StoreError S) :=
  if (limit =? 0) || (MAX_HANDOFFS <? limit) then Err (StoreError_Corrupt "handoff metadata limit") else
  let '(start, end_) := handoff_range reader project scope in
  try_map (discover_one d reader project scope)
    (take (N.to_nat limit) (rev (redb_range d HANDOFF_READERS start end_))).

Definition load_using (descriptor : Descriptor) (actor : AgentId) (selected : Descriptor) (limit : ReadLimit)
    (fetch_body : EventId -> result (option Event) (StoreError S)) : result ReadBody (StoreError S) :=
  let? permit := map_err StoreError_Handoff (Descriptor_authorize descriptor actor selected limit) in
  let? found := fetch_body (Descriptor_id descriptor) in
  let? event := ok_or found (StoreError_Unknown (EventId_fmt (Descriptor_id descriptor))) in
  match Event_body event with
  | Body_Handoff metadata text _ =>
      let? _ := map_err StoreError_Handoff (Permit_check_body permit (Event_id event) metadata text) in
      Ok (mkReadBody descriptor actor text (mkPendingObservation descriptor (Permit_observation permit)))
  | _ => Err (StoreError_Corrupt "handoff body kind")
  end.

Definition handoff_read_body d (actor : AgentId) (selected : Descriptor) (limit : ReadLimit) :
  result ReadBody (StoreError S) :=
  let? found := handoff_header d (Descriptor_id selected) in
  let? descriptor := ok_or found (StoreError_Unknown (EventId_fmt (Descriptor_id selected))) in
  load_using descriptor actor selected limit (view_event d).

Definition observed d (actor : AgentId) (handoff : EventId) : bool :=
  match redb_get d HANDOFF_READS (delivery_key actor handoff) with Some _ => true | None => false end.

(** [PendingObservation::commit] *)
Definition observation_work (pending : PendingObservation) : Act D S unit :=
  let descriptor := Pending_descriptor pending in
  let reader := Observation_reader (Pending_observation pending) in
  let! found := act_read (fun d => handoff_header d (Descriptor_id descriptor)) in
  let! actual := act_lift (ok_or found (StoreError_Unknown (EventId_fmt (Descriptor_id descriptor)))) in
  do! act_lift (map_err StoreError_Handoff (Descriptor_authorize actual reader descriptor ReadLimit_MAX)) in
  let! seen := act_read (fun d => Ok (observed d reader (Descriptor_id descriptor))) in
  if seen : bool then act_ok tt else
  do! act_author Priority_Ordinary
        (Body_HandoffRead (Pending_observation pending) (Metadata_audience (Descriptor_metadata descriptor))) in
  act_ok tt.
End handoff.

Section admissible.
Context {D S : Type} `{!Redb D S} `{!RedbLaws D S} `{codec : !Codec} `{records : !StoreCodec} `{laws : !StoreCodecLaws}.

#[export] Instance admissible_observation pending : Admissible (observation_work (D := D) (S := S) pending).
Proof. unfold observation_work. solve_admissible. Qed.
End admissible.
