(* ===== verification/Address.v ===== *)
(** chat/address.rs: the names by which people call machines, agents, rooms and conversations. *)

From Stdlib Require Import NArith Lia String Ascii.
From stdpp Require Import base gmap list strings.
From S2P Require Import Prelude SortedLists RustStr Ids AgentLists Notification Handoff Event.
From S2P Require Import Ledger Policy Exchange Model Database Wire.

(** ** Definitions *)

(** The peers are a [BTreeMap]: rows with distinct aliases, in their order. *)
Record Book := mkBook {
  Book_local : option Origin;
  Book_peers : list (string * Origin);
  Book_machines : gmap Origin MachineCard;
  Book_agents : list AgentId;
  Book_rooms : list RoomId
}.

(** [str::eq_ignore_ascii_case] *)
Definition eq_ignore_ascii_case (a b : string) : bool :=
  bool_decide (map to_ascii_lowercase (bytes a) = map to_ascii_lowercase (bytes b)).

(** [str::strip_suffix] *)
Definition strip_suffix (suffix s : string) : option string :=
  let keep := (String.length s - String.length suffix)%nat in
  if bool_decide (s = String.app (String.substring 0 keep s) suffix)
  then Some (String.substring 0 keep s) else None.

(** [slice::contains] *)
Definition contains {A} `{EqDecision A} (l : list A) (x : A) : bool := existsb (fun y => bool_decide (y = x)) l.

(** [str::rsplit_once] gives the name and the machine of a qualified address. *)
Definition qualified (text : string) : option (string * string) := rsplit_once "@" text.

(** The first eight characters of an identity, which are ASCII. *)
Definition short_origin (origin : Origin) : string := String.substring 0 8 (as_str origin).

Section address.
Context {S : Type}.
Local Notation E := (StoreError S).

Definition unique {T} (print : T -> string) (found : list T) (text : string) : result T E :=
  match found with
  | [only] => Ok only
  | [] => Err (StoreError_Unknown text)
  | _ => Err (StoreError_Ambiguous
                (String.concat "" [text; " ("; String.concat ", " (map print found); ")"])%string)
  end.

(** [add] *)
Definition add_origin (found : list Origin) (origin : Origin) : list Origin :=
  if contains found origin then found else found ++ [origin].

Definition peer_named (book : Book) (alias : string) : option Origin :=
  option_map snd (List.find (fun peer => bool_decide (peer.1 = alias)) (Book_peers book)).

Definition machines_named (book : Book) (text : string) : list Origin :=
  let found :=
    match Book_local book with
    | Some local => if bool_decide (text = "local"%string) then add_origin [] local else []
    | None => []
    end in
  let found := match peer_named book text with Some origin => add_origin found origin | None => found end in
  let found :=
    foldl (fun found origin =>
             match Book_machines book !! origin with
             | Some card =>
                 if eq_ignore_ascii_case (as_str (AgentLists.label card)) text
                    || bool_decide (as_str origin = text)
                 then add_origin found origin else found
             | None => found
             end) found (btree_keys (Book_machines book)) in
  match Origin_try_from text with Ok origin => add_origin found origin | Err _ => found end.

Definition Book_agent (book : Book) (text : string) : result AgentId E :=
  let found :=
    match qualified text with
    | Some (name, machine) =>
        let origins := machines_named book machine in
        List.filter (fun agent => bool_decide (as_str (AgentId_name agent) = name)
                                  && contains origins (AgentId_origin agent)) (Book_agents book)
    | None => List.filter (fun agent => bool_decide (as_str (AgentId_name agent) = text)) (Book_agents book)
    end in
  unique AgentId_fmt found text.

Definition Book_room (book : Book) (text : string) : result RoomId E :=
  match Conversation_try_from text with
  | Ok (Conversation_Room room) =>
      unique RoomId_fmt (List.filter (fun known => bool_decide (known = room)) (Book_rooms book)) text
  | _ =>
      let '(name, origins) :=
        match qualified text with
        | Some (name, machine) => (name, Some (machines_named book machine))
        | None => (text, None)
        end in
      unique RoomId_fmt
        (List.filter (fun room =>
           match origins with
           | None => true
           | Some origins => contains origins (RoomId_origin room)
           end)
           (List.filter (fun room => bool_decide (as_str (RoomId_name room) = name)) (Book_rooms book))) text
  end.

Definition Book_conversation (book : Book) (me : AgentId) (target : string) : result Conversation E :=
  match Conversation_try_from target with
  | Ok conversation => Ok conversation
  | Err _ =>
      match Book_agent book target, Book_room book target with
      | Ok agent, Err _ => map_err StoreError_Invalid (Conversation_direct me agent)
      | Err _, Ok room => Ok (Conversation_Room room)
      | Ok agent, Ok room =>
          Err (StoreError_Ambiguous
                 (String.concat "" [target; " (agent "; AgentId_fmt agent; ", room ";
                    Conversation_fmt (Conversation_Room room); ")"])%string)
      | Err agent, Err (StoreError_Unknown _) => Err agent
      | Err _, Err room => Err room
      end
  end.

Definition machine_label (book : Book) (origin : Origin) : string :=
  if bool_decide (Book_local book = Some origin) then "local"%string else
  match List.find (fun peer => bool_decide (peer.2 = origin)) (Book_peers book) with
  | Some (alias, _) => alias
  | None =>
      match Book_machines book !! origin with
      | None => short_origin origin
      | Some card => as_str (AgentLists.label card)
      end
  end.

Definition agent_label (book : Book) (agent : AgentId) : string :=
  String.concat "@" [as_str (AgentId_name agent); machine_label book (AgentId_origin agent)]%string.

Definition handle {T} (try_from : string -> result T Invalid) (text : string) : result T E :=
  map_err StoreError_Invalid (try_from text).

Definition local_agent (book : Book) (text : string) : result AgentId E :=
  let? local := ok_or (Book_local book) (StoreError_Corrupt "the local machine is unknown") in
  let name :=
    match strip_suffix "@local" text with
    | Some name => name
    | None =>
        match strip_suffix (String.app "@" (as_str local)) text with
        | Some name => name
        | None => text
        end
    end in
  let? name := handle AgentName_try_from name in
  Ok (AgentId_new name local).

Definition local_room (book : Book) (text : string) : result RoomId E :=
  let? local := ok_or (Book_local book) (StoreError_Corrupt "the local machine is unknown") in
  let? name := handle RoomName_try_from text in
  Ok (RoomId_new local name).
End address.
