(* ===== verification/Values.v ===== *)
(** JSON documents as serde_json holds them: the values, their objects as maps in the order of the
    keys, and the lookups and updates the sources use. *)

From Stdlib Require Import NArith Lia String Ascii.
From stdpp Require Import base list strings pretty.
From S2P Require Import Prelude SortedLists RustStr.

(** ** Definitions *)

(** [serde_json::Value]; an object is a [BTreeMap], so its keys are distinct and in order. *)
Inductive Value :=
| Value_Null
| Value_Bool (b : bool)
| Value_Number (text : string)
| Value_String (text : string)
| Value_Array (values : list Value)
| Value_Object (fields : list (string * Value)).

(** [Map::get] *)
Definition field_get (fields : list (string * Value)) (key : string) : option Value :=
  option_map snd (List.find (fun field => bool_decide (field.1 = key)) fields).

(** [Map::insert] *)
Fixpoint field_put (fields : list (string * Value)) (key : string) (value : Value) : list (string * Value) :=
  match fields with
  | [] => [(key, value)]
  | field :: fields =>
      match cmp key field.1 with
      | Lt => (key, value) :: field :: fields
      | Eq => (key, value) :: fields
      | Gt => field :: field_put fields key value
      end
  end.

(** [json!] with an object or an integer *)
Definition json_object (fields : list (string * Value)) : Value :=
  Value_Object (fold_left (fun map field => field_put map field.1 field.2) fields []).
Definition json_integer (n : Z) : Value := Value_Number (pretty n).

(** [Value::get] with a string, and the projections of the variants *)
Definition value_get (value : Value) (key : string) : option Value :=
  match value with Value_Object fields => field_get fields key | _ => None end.
Definition value_as_str (value : Value) : option string :=
  match value with Value_String text => Some text | _ => None end.
Definition value_as_array (value : Value) : option (list Value) :=
  match value with Value_Array values => Some values | _ => None end.
Definition value_as_object (value : Value) : option (list (string * Value)) :=
  match value with Value_Object fields => Some fields | _ => None end.

(** [Value::eq] *)
Fixpoint value_eqb (a b : Value) : bool :=
  match a, b with
  | Value_Null, Value_Null => true
  | Value_Bool a, Value_Bool b => Bool.eqb a b
  | Value_Number a, Value_Number b => String.eqb a b
  | Value_String a, Value_String b => String.eqb a b
  | Value_Array xs, Value_Array ys =>
      (fix all xs ys :=
         match xs, ys with
         | [], [] => true
         | x :: xs, y :: ys => value_eqb x y && all xs ys
         | _, _ => false
         end) xs ys
  | Value_Object xs, Value_Object ys =>
      (fix all xs ys :=
         match xs, ys with
         | [], [] => true
         | x :: xs, y :: ys => String.eqb x.1 y.1 && value_eqb x.2 y.2 && all xs ys
         | _, _ => false
         end) xs ys
  | _, _ => false
  end.

(** ** Lemmas *)

Section induction.
Context (P : Value -> Prop) (Hnull : P Value_Null) (Hbool : forall b, P (Value_Bool b))
  (Hnumber : forall text, P (Value_Number text)) (Hstring : forall text, P (Value_String text))
  (Harray : forall values, Forall P values -> P (Value_Array values))
  (Hobject : forall fields, Forall (fun field => P field.2) fields -> P (Value_Object fields)).

Fixpoint value_induction (v : Value) : P v :=
  match v with
  | Value_Null => Hnull
  | Value_Bool b => Hbool b
  | Value_Number text => Hnumber text
  | Value_String text => Hstring text
  | Value_Array values =>
      Harray values ((fix all values : Forall P values :=
        match values with
        | [] => List.Forall_nil _
        | v :: values => List.Forall_cons _ v values (value_induction v) (all values)
        end) values)
  | Value_Object fields =>
      Hobject fields ((fix all fields : Forall (fun field => P field.2) fields :=
        match fields with
        | [] => List.Forall_nil _
        | field :: fields => List.Forall_cons _ field fields (value_induction field.2) (all fields)
        end) fields)
  end.
End induction.

Lemma value_eqb_eq a b : value_eqb a b = true <-> a = b.
Proof.
  revert b. induction a as [|x|x|x|xs IH|xs IH] using value_induction; intros [|y|y|y|ys|ys]; cbn [value_eqb];
    try (split; [discriminate|congruence]).
  - done.
  - rewrite Bool.eqb_true_iff. split; congruence.
  - rewrite String.eqb_eq. split; congruence.
  - rewrite String.eqb_eq. split; congruence.
  - match goal with |- ?f xs ys = true <-> _ => set (all := f) end.
    assert (H : all xs ys = true <-> xs = ys); [|rewrite H; split; congruence].
    revert ys. induction IH as [|x xs Hx _ IHxs]; intros [|y ys]; cbn; try done.
    rewrite andb_true_iff, Hx, IHxs. split; [intros [-> ->]; done|by intros [= -> ->]].
  - match goal with |- ?f xs ys = true <-> _ => set (all := f) end.
    assert (H : all xs ys = true <-> xs = ys); [|rewrite H; split; congruence].
    revert ys. induction IH as [|[k x] xs Hx _ IHxs]; intros [|[l y] ys]; cbn; try done.
    cbn in Hx. rewrite !andb_true_iff, String.eqb_eq, Hx, IHxs.
    split; [intros [[-> ->] ->]; done|by intros [= -> -> ->]].
Qed.

#[export] Instance Value_eq_dec : EqDecision Value.
Proof.
  intros a b. destruct (value_eqb a b) eqn:E.
  - left. by apply value_eqb_eq.
  - right. intros ->. by rewrite (proj2 (value_eqb_eq b b) eq_refl) in E.
Defined.

Lemma field_get_cons k v fields key :
  field_get ((k, v) :: fields) key = if decide (k = key) then Some v else field_get fields key.
Proof. unfold field_get. cbn. case_bool_decide; by case_decide. Qed.

Lemma field_get_put fields key value key' :
  field_get (field_put fields key value) key' = if decide (key' = key) then Some value else field_get fields key'.
Proof.
  induction fields as [|[k v] fields IH]; cbn [field_put fst].
  - rewrite field_get_cons. repeat case_decide; congruence.
  - destruct (cmp key k) eqn:Hc; rewrite !field_get_cons.
    + apply cmp_eq_iff in Hc. subst k. repeat case_decide; congruence.
    + repeat case_decide; congruence.
    + rewrite IH. repeat case_decide; try congruence. subst.
      by rewrite (proj2 (cmp_eq_iff key key) eq_refl) in Hc.
Qed.

Lemma field_get_elem fields key value : field_get fields key = Some value -> In (key, value) fields.
Proof.
  unfold field_get. destruct (List.find _ fields) as [[k v]|] eqn:Hf; cbn; [|done]. intros [= ->].
  apply List.find_some in Hf as [Hin Hk]. by apply bool_decide_eq_true in Hk as <-.
Qed.
