(* ===== verification/Provider.v ===== *)
(** chat/provider.rs and the session check of process/chat.rs: what the command-line clients of
    language models print, and when it is one complete answer.  JSON is read by serde_json, whose
    parser is an argument. *)

From Stdlib Require Import NArith Lia String Ascii.
From stdpp Require Import base gmap list strings.
From S2P Require Import Prelude SortedLists RustStr AgentLists Wire Values.

(** ** Definitions *)

Definition MAX_OUTPUT : N := 4 * 1024 * 1024.

Record Answer := mkAnswer { Answer_text : string; Answer_session : string }.

Inductive Incomplete_ := Incomplete.

Definition valid_session (session : string) : bool :=
  in_range 1 256 (str_len session)
  && match bytes session with first :: _ => is_ascii_alphanumeric first | [] => false end
  && forallb (fun byte => is_ascii_alphanumeric byte || one_of "-_" byte) (bytes session).

Definition UUID_GROUP_LENGTHS : list N := [8; 4; 4; 4; 12].

Definition resumable (tool : Tool) (session : string) : bool :=
  let groups := split "-" session in
  let uuid := bool_decide (map str_len groups = UUID_GROUP_LENGTHS)
              && forallb (fun group => forallb is_ascii_hexdigit (bytes group)) groups in
  valid_session session
  && match tool with Tool_Codex => uuid | Tool_Claude | Tool_Opencode => true end.

Definition text_of (value : Value) (key : string) : result string Incomplete_ :=
  ok_or (option_bind _ _ value_as_str (value_get value key)) Incomplete.

Definition answer_of (text session : string) : result Answer Incomplete_ :=
  if match trim_chars (chars text) with [] => true | _ => false end || negb (valid_session session)
  then Err Incomplete else Ok (mkAnswer text session).

Record Stream := mkStream { Stream_session : option string; Stream_answer : string; Stream_complete : bool }.
Definition Stream_default : Stream := mkStream None EmptyString false.

Definition Stream_bind (self : Stream) (session : string) : result Stream Incomplete_ :=
  if negb (valid_session session)
     || match Stream_session self with
        | Some previous => negb (bool_decide (previous = session))
        | None => false
        end
  then Err Incomplete else Ok (mkStream (Some session) (Stream_answer self) (Stream_complete self)).

Definition set_answer (self : Stream) (answer : string) : Stream :=
  mkStream (Stream_session self) answer (Stream_complete self).
Definition set_complete (self : Stream) (complete : bool) : Stream :=
  mkStream (Stream_session self) (Stream_answer self) complete.
Definition Stream_clear (self : Stream) : Stream := mkStream (Stream_session self) EmptyString false.

Definition Stream_codex (self : Stream) (event : Value) : result Stream Incomplete_ :=
  let? kind := text_of event "type" in
  if bool_decide (kind = "thread.started"%string) then
    let? session := text_of event "thread_id" in Stream_bind self session
  else if bool_decide (kind = "turn.started"%string) then Ok (Stream_clear self)
  else if bool_decide (kind = "item.completed"%string) then
    let? item := ok_or (value_get event "item") Incomplete in
    let? item_kind := text_of item "type" in
    if bool_decide (item_kind = "agent_message"%string)
    then let? text := text_of item "text" in Ok (set_answer self text)
    else Ok self
  else if bool_decide (kind = "turn.completed"%string) then Ok (set_complete self true)
  else if bool_decide (kind = "turn.failed"%string) || bool_decide (kind = "error"%string) then Err Incomplete
  else Ok self.

Definition Stream_opencode (self : Stream) (event : Value) : result Stream Incomplete_ :=
  let? session := text_of event "sessionID" in
  let? self := Stream_bind self session in
  let? kind := text_of event "type" in
  if bool_decide (kind = "step_start"%string) then Ok (Stream_clear self)
  else if bool_decide (kind = "text"%string) then
    let? part := ok_or (value_get event "part") Incomplete in
    let? text := text_of part "text" in
    Ok (set_answer self (String.app (Stream_answer self) text))
  else if bool_decide (kind = "step_finish"%string) then
    let? part := ok_or (value_get event "part") Incomplete in
    let? reason := text_of part "reason" in
    Ok (set_complete self (bool_decide (reason = "stop"%string)))
  else if bool_decide (kind = "error"%string) then Err Incomplete
  else Ok self.

Definition is_result (event : Value) : bool :=
  bool_decide (option_bind _ _ value_as_str (value_get event "type") = Some "result"%string).

(** [u8::is_ascii_whitespace] *)
Definition is_ascii_whitespace (byte : N) : bool :=
  (byte =? 9) || (byte =? 10) || (byte =? 12) || (byte =? 13) || (byte =? 32).

(** The lines of [output.split(|byte| *byte == b'\n')]. *)
Fixpoint lines_of (line : list N) (output : list N) : list (list N) :=
  match output with
  | [] => [rev line]
  | byte :: output => if byte =? 10 then rev line :: lines_of [] output else lines_of (byte :: line) output
  end.

Section parse.
(** [serde_json::from_slice] *)
Context (from_slice : list N -> option Value).

Definition provider_json (output : list N) : result Value Incomplete_ :=
  map_err (fun _ => Incomplete) (json from_slice output MAX_OUTPUT).

Definition claude (output : list N) : result Answer Incomplete_ :=
  let? value := provider_json output in
  let? result_ :=
    match value with
    | Value_Object _ => Ok value
    | Value_Array events =>
        match List.filter is_result events with
        | [only] => Ok only
        | _ => Err Incomplete
        end
    | Value_Null | Value_Bool _ | Value_Number _ | Value_String _ => Err Incomplete
    end in
  let? kind := text_of result_ "type" in
  if negb (bool_decide (kind = "result"%string))
     || match value_get result_ "is_error" with Some (Value_Bool false) => false | _ => true end
  then Err Incomplete else
  let? text := text_of result_ "result" in
  let? session := text_of result_ "session_id" in
  answer_of text session.

Fixpoint stream_loop (tool : Tool) (lines : list (list N)) (stream : Stream) : result Stream Incomplete_ :=
  match lines with
  | [] => Ok stream
  | line :: lines =>
      let? event := provider_json line in
      let? stream :=
        match tool with
        | Tool_Codex => Stream_codex stream event
        | Tool_Opencode => Stream_opencode stream event
        | Tool_Claude => Err Incomplete
        end in
      stream_loop tool lines stream
  end.

Definition provider_parse (tool : Tool) (output : list N) : result Answer Incomplete_ :=
  match tool with
  | Tool_Claude => claude output
  | _ =>
      let lines := List.filter (fun line => negb (forallb is_ascii_whitespace line)) (lines_of [] output) in
      let? stream := stream_loop tool lines Stream_default in
      if negb (Stream_complete stream) then Err Incomplete else
      let? session := ok_or (Stream_session stream) Incomplete in
      answer_of (Stream_answer stream) session
  end.
End parse.
