(* ===== verification/Ops.v ===== *)
(** chat/ops.rs, first part: sessions, and the operations on profiles, agents and rooms.  What the
    operating system says - the clock, the working directory, paths - is an argument. *)

From Stdlib Require Import NArith Lia String Ascii.
From stdpp Require Import base gmap list strings.
From S2P Require Import Prelude SortedLists RustStr Ids AgentLists Notification Handoff Event.
From S2P Require Import Ledger Policy Exchange Model Database Wire Views Tx Acts Turns Admin Address Provider.

(** ** Definitions *)

(** The errors of processes, locks and synchronization are not modelled. *)
Inductive OpsError (S : Type) :=
| OpsError_Store (error : StoreError S)
| OpsError_Refused (refusal : Refusal)
| OpsError_Invalid (invalid : Invalid)
| OpsError_Usage (what : string)
| OpsError_Anonymous
| OpsError_NotLocal (agent : string).
Arguments OpsError_Store {S} _.
Arguments OpsError_Refused {S} _.
Arguments OpsError_Invalid {S} _.
Arguments OpsError_Usage {S} _.
Arguments OpsError_Anonymous {S}.
Arguments OpsError_NotLocal {S} _.

Record Session (D : Type) := mkSession {
  Session_store : Store D;
  Session_actor : option AgentId;
  Session_turn : option EventId
}.
Arguments mkSession {D} _ _ _.
Arguments Session_store {D} _.
Arguments Session_actor {D} _.
Arguments Session_turn {D} _.

(** What an operation needs of the platform: whether the doorbell can be rung, the clock (read once for
    a whole operation), Unicode's lower case, [Path::file_name], [Path::is_absolute] and the kind of a
    file. *)
Class Environment (S : Type) := {
  env_rung : result unit S;
  env_now : Stamp;
  env_to_lowercase : string -> string;
  env_file_name : string -> option string;
  env_is_absolute : string -> bool;
  env_is_dir : string -> option bool
}.

Record ProfileArgs := mkProfileArgs {
  ProfileArgs_display_name : option string;
  ProfileArgs_role : option string;
  ProfileArgs_description : option string;
  ProfileArgs_skills : option (list string);
  ProfileArgs_project : option string;
  ProfileArgs_status : option string
}.
Record JoinArgs := mkJoinArgs {
  JoinArgs_name : string;
  JoinArgs_tool : option Tool;
  JoinArgs_access : option Access;
  JoinArgs_profile : ProfileArgs
}.
Record StartArgs := mkStartArgs {
  StartArgs_name : string;
  StartArgs_tool : Tool;
  StartArgs_cwd : string;
  StartArgs_access : option Access;
  StartArgs_resume : option string;
  StartArgs_profile : ProfileArgs
}.
Record UpdateArgs := mkUpdateArgs {
  UpdateArgs_name : string;
  UpdateArgs_cwd : option string;
  UpdateArgs_reset_session : bool
}.
Record RoomArgs := mkRoomArgs {
  RoomArgs_name : string;
  RoomArgs_members : list string;
  RoomArgs_topic : option string
}.

Inductive RoomChange := RoomChange_Add | RoomChange_Remove.

Definition MAX_PROJECT_BYTES : N := 128.
Definition MAX_LIMIT : N := 500.

Declare Scope op_scope.
Delimit Scope op_scope with op.

(** [fn(&mut Session) -> Result<A, OpsError>] *)
Definition Op (D S A : Type) : Type := Session D -> Session D * result A (OpsError S).

Definition op_ok {D S A} (a : A) : Op D S A := fun s => (s, Ok a).
Definition op_err {D S A} (e : OpsError S) : Op D S A := fun s => (s, Err e).
Definition op_lift {D S A} (r : result A (OpsError S)) : Op D S A := fun s => (s, r).
Definition op_bind {D S A B} (m : Op D S A) (k : A -> Op D S B) : Op D S B :=
  fun s => match m s with (s, Ok a) => k a s | (s, Err e) => (s, Err e) end.
Definition op_session {D S} : Op D S (Session D) := fun s => (s, Ok s).

Notation "'let%' x ':=' m 'in' k" := (op_bind m (fun x => k))
  (at level 200, x pattern, m at level 100, k at level 200, right associativity) : op_scope.
Notation "'do%' m 'in' k" := (op_bind m (fun _ => k))
  (at level 200, m at level 100, k at level 200, right associativity) : op_scope.

(** [Option::map(..).transpose()?] *)
Definition try_option {A B E} (f : A -> result B E) (o : option A) : result (option B) E :=
  match o with None => Ok None | Some a => map_ok Some (f a) end.

Definition line (max : N) (text : string) : result (option (Line max)) Invalid :=
  match trim_chars (chars text) with
  | [] => Ok None
  | trimmed => map_ok Some (Line_try_from max (of_chars trimmed))
  end.

Definition clamp (limit : N) : N := N.max 1 (N.min limit MAX_LIMIT).

Section ops.
Context {D S : Type} `{!Redb D S} `{codec : !Codec} `{records : !StoreCodec} `{env : !Environment S}.
Local Notation E := (StoreError S).

(** *** Cards *)

Definition paragraph (text : string) : result (option (Paragraph 1024)) Invalid :=
  match trim_chars (chars text) with
  | [] => Ok None
  | trimmed => map_ok Some (Paragraph_try_from 1024 (of_chars trimmed))
  end.

Definition skill_tag (skill : string) : result Tag Invalid :=
  Tag_try_from (env_to_lowercase (of_chars (trim_chars (chars skill)))).

Definition apply_profile (card : Card) (profile : ProfileArgs) : result Card Invalid :=
  let? name := match ProfileArgs_display_name profile with
               | Some name => let? name := line 64 name in ok_or name (mkInvalid "display name")
               | None => Ok (display_name card)
               end in
  let? role_ := match ProfileArgs_role profile with Some role => line 64 role | None => Ok (role card) end in
  let? description_ := match ProfileArgs_description profile with
                       | Some description => paragraph description
                       | None => Ok (description card)
                       end in
  let? skills_ := match ProfileArgs_skills profile with
                  | Some skills => let? tags := try_map skill_tag skills in Skills_collect tags
                  | None => Ok (skills card)
                  end in
  let? project_ := match ProfileArgs_project profile with
                   | Some project => line 128 project
                   | None => Ok (AgentLists.project card)
                   end in
  let? status_ := match ProfileArgs_status profile with
                  | Some status => line 128 status
                  | None => Ok (status card)
                  end in
  Ok (mkCard name role_ description_ skills_ project_ status_ (tool card) (mode card) (access card)).

Definition project_of (cwd : string) : option (Line MAX_PROJECT_BYTES) :=
  match env_file_name cwd with
  | Some name => match Line_try_from MAX_PROJECT_BYTES name with Ok project => Some project | Err _ => None end
  | None => None
  end.

Definition new_card (name : AgentName) (tool_ : Tool) (mode_ : Mode) (access_ : Access) (cwd : string) :
  result Card Invalid :=
  let? shown := Line_try_from 64 (as_str name) in
  let? no_skills := Skills_try_from [] in
  Ok (mkCard shown None None no_skills (project_of cwd) None tool_ mode_ access_).

Definition absolute_directory (cwd : string) : result string (OpsError S) :=
  match env_is_dir cwd with
  | None => Err (OpsError_Usage "the working directory must exist")
  | Some is_dir =>
      if negb (env_is_absolute cwd) || negb is_dir
      then Err (OpsError_Usage "the working directory must be an existing absolute directory")
      else Ok cwd
  end.

(** *** Transaction bodies *)

Local Open Scope act_scope.

Definition act_invalid {A} (r : result A Invalid) : Act D S A := act_lift (map_err StoreError_Invalid r).
Definition act_refuse {A} (what : string) : Act D S A :=
  act_err (StoreError_Refused (Refusal_Invalid (mkInvalid what))).

Definition configure_profile (name : AgentName) (card : Card) (config : LocalAgent) : Act D S unit :=
  do! Tx_configure name (Some config) in
  do! act_author Priority_Ordinary (Body_Profile name card) in
  act_ok tt.

Definition join_work (agent : AgentId) (tool_ : Tool) (access_ : Access) (cwd : string) (profile : ProfileArgs) :
  Act D S unit :=
  let name := AgentId_name agent in
  let! existing := act_read (fun d => view_profile d agent) in
  if match existing with
     | Some card => match mode card with Mode_Managed => true | Mode_Interactive => false end
     | None => false
     end
  then act_refuse "a managed agent already uses this name" else
  let! card := match existing with
               | Some card => act_ok card
               | None => act_invalid (new_card name tool_ Mode_Interactive access_ cwd)
               end in
  let card := mkCard (display_name card) (role card) (description card) (skills card) (AgentLists.project card)
                (status card) tool_ (mode card) access_ in
  let! card := act_invalid (apply_profile card profile) in
  do! configure_profile name card (mkLocalAgent cwd None) in
  do! act_author Priority_Ending
        (Body_Activity name (mkActivity ActivityState_Waiting env_now (status card))) in
  act_ok tt.

Definition start_work (agent : AgentId) (card : Card) (cwd : string) (resume : option string) : Act D S unit :=
  let! existing := act_read (fun d => view_profile d agent) in
  match existing with
  | Some _ => act_refuse "an agent with this name already exists here"
  | None => configure_profile (AgentId_name agent) card (mkLocalAgent cwd resume)
  end.

Definition update_work (agent : AgentId) (cwd : option string) (reset_session : bool) : Act D S Card :=
  let! found := act_read (fun d => agent_config d (AgentId_name agent)) in
  let! config := act_lift (ok_or found (StoreError_Unknown (as_str (AgentId_name agent)))) in
  let config := mkLocalAgent (default (LocalAgent_cwd config) cwd)
                  (if reset_session then None else LocalAgent_session config) in
  do! Tx_configure (AgentId_name agent) (Some config) in
  let! found := act_read (fun d => view_profile d agent) in
  act_lift (ok_or found (StoreError_Unknown (AgentId_fmt agent))).

(** The open asks of a leaving agent end as unavailable. *)
Fixpoint end_asks (agent : AgentId) (asks : list (EventId * AgentId)) (ended : N) : Act D S N :=
  match asks with
  | [] => act_ok ended
  | (request, responder) :: asks =>
      if bool_decide (responder = agent) then
        let! found := act_read (fun d => view_event d request) in
        match found with
        | Some event =>
            do! Tx_end event agent Outcome_Unavailable in
            end_asks agent asks (saturating_add usize_max ended 1)
        | None => end_asks agent asks ended
        end
      else end_asks agent asks ended
  end.

Definition remove_work (agent : AgentId) : Act D S N :=
  let! found := act_read (fun d => view_profile d agent) in
  do! act_lift (ok_or found (StoreError_Unknown (AgentId_fmt agent))) in
  let! asks := act_read view_open_asks in
  let! ended := end_asks agent asks 0 in
  do! act_author Priority_Ending (Body_Left (AgentId_name agent)) in
  do! Tx_configure (AgentId_name agent) None in
  act_ok ended.

Definition profile_work (agent : AgentId) (args : ProfileArgs) : Act D S unit :=
  let! found := act_read (fun d => view_profile d agent) in
  let! card := act_lift (ok_or found (StoreError_Unknown (AgentId_fmt agent))) in
  let! card := act_invalid (apply_profile card args) in
  do! act_author Priority_Ordinary (Body_Profile (AgentId_name agent) card) in
  match ProfileArgs_status args with
  | Some _ =>
      do! act_author Priority_Ending
            (Body_Activity (AgentId_name agent) (mkActivity ActivityState_Working env_now (status card))) in
      act_ok tt
  | None => act_ok tt
  end.

Definition create_room_work (room : RoomId) (state : Room) : Act D S Event :=
  let! existing := act_read (fun d => view_room d room) in
  match existing with
  | Some _ => act_refuse "a room with this name already exists here"
  | None => act_author Priority_Ordinary (Body_Room (RoomId_name room) (Room_topic state) (Room_members state))
  end.

Definition edit_room_work (room : RoomId) (edit : Room -> result Room Invalid) : Act D S Room :=
  let! found := act_read (fun d => view_room d room) in
  let! state := act_lift (ok_or found (StoreError_Unknown (as_str (RoomId_name room)))) in
  let! state := act_invalid (edit state) in
  do! act_author Priority_Ordinary (Body_Room (RoomId_name room) (Room_topic state) (Room_members state)) in
  act_ok state.

Definition close_room_work (room : RoomId) : Act D S Event :=
  let! found := act_read (fun d => view_room d room) in
  do! act_lift (ok_or found (StoreError_Unknown (as_str (RoomId_name room)))) in
  act_author Priority_Ordinary (Body_RoomClosed (RoomId_name room)).

Definition change_members (change : RoomChange) (member : AgentId) (state : Room) : result Room Invalid :=
  let agents := AgentList_agents (Room_members state) in
  let agents :=
    match change with
    | RoomChange_Add => if contains agents member then agents else agents ++ [member]
    | RoomChange_Remove => List.filter (fun agent => negb (bool_decide (agent = member))) agents
    end in
  let? members := Members_try_from (sort agents) in
  Ok (mkRoom (Room_topic state) members).

Definition members_of (book : Book) (me : AgentId) (names : list string) : result Members (OpsError S) :=
  let? agents := foldl (fun agents name =>
                   let? agents := agents in
                   let? agent := map_err OpsError_Store (Book_agent book name) in
                   Ok (if contains agents agent then agents else agents ++ [agent])) (Ok [me]) names in
  map_err OpsError_Invalid (Members_try_from (sort agents)).

(** *** Operations *)

Local Close Scope act_scope.
Local Open Scope op_scope.

Definition op_store {A} (f : Store D -> Store D * result A E) : Op D S A :=
  fun s => let '(store, r) := f (Session_store s) in
           (mkSession store (Session_actor s) (Session_turn s), map_err OpsError_Store r).
Definition op_write {A} (work : Act D S A) : Op D S A := op_store (fun store => Store_write env_rung store work).
Definition op_read {A} (f : D -> result A E) : Op D S A := op_store (fun store => (store, Store_read store f)).
Definition op_of {A} (r : result A E) : Op D S A := op_lift (map_err OpsError_Store r).
Definition op_invalid {A} (r : result A Invalid) : Op D S A := op_lift (map_err OpsError_Invalid r).
Definition op_origin : Op D S Origin := let% s := op_session in op_ok (Store_origin (Session_store s)).
Definition set_actor (actor : AgentId) : Op D S unit :=
  fun s => (mkSession (Session_store s) (Some actor) (Session_turn s), Ok tt).

Definition me : Op D S AgentId :=
  let% s := op_session in op_lift (ok_or (Session_actor s) OpsError_Anonymous).

Definition book_of d (local : Origin) (peers : list (string * Origin)) : result Book E :=
  let? listed := directory d (fun _ => env_now) in
  let? rooms := view_rooms d in
  Ok (mkBook (Some local) peers (Directory_machines listed) (btree_keys (Directory_agents listed))
        (omap (fun entry => match entry.1 with Conversation_Room room => Some room | _ => None end) rooms)).

Definition book : Op D S Book :=
  let% peers := op_store (fun store => (store, Store_peers store)) in
  let% local := op_origin in
  op_read (fun d => book_of d local peers).

Definition bind_actor (actor : string) : Op D S AgentId :=
  let% book := book in
  let% agent := op_of (local_agent book actor) in
  if negb (contains (Book_agents book) agent) then op_err (OpsError_NotLocal (AgentId_fmt agent)) else
  do% set_actor agent in
  op_ok agent.

Definition whoami : Op D S (AgentId * (Card * Presence)) :=
  let% agent := me in
  let% listed := op_read (fun d =>
    let? listed := directory d (fun _ => env_now) in
    ok_or (Directory_agents listed !! agent) (StoreError_Unknown (AgentId_fmt agent))) in
  op_ok (agent, listed).

(** [cwd] is the process's working directory, if the system gives it. *)
Definition join (cwd : option string) (args : JoinArgs) (tool_ : Tool) : Op D S (AgentId * (Card * Presence)) :=
  let% name := op_of (handle AgentName_try_from (JoinArgs_name args)) in
  let% local := op_origin in
  let agent := AgentId_new name local in
  let% cwd := op_lift (ok_or cwd (OpsError_Usage "the current directory is unavailable")) in
  let access_ := default Access_Write (JoinArgs_access args) in
  do% op_write (join_work agent tool_ access_ cwd (JoinArgs_profile args)) in
  do% set_actor agent in
  whoami.

Definition start (args : StartArgs) : Op D S (AgentId * (Card * Presence)) :=
  let% name := op_of (handle AgentName_try_from (StartArgs_name args)) in
  let% cwd := op_lift (absolute_directory (StartArgs_cwd args)) in
  if match StartArgs_resume args with
     | Some resume => negb (resumable (StartArgs_tool args) resume)
     | None => false
     end
  then op_err (OpsError_Usage "the resumed session ID is not valid for this client") else
  let access_ := default Access_Read (StartArgs_access args) in
  let% card := op_invalid (new_card name (StartArgs_tool args) Mode_Managed access_ cwd) in
  let% card := op_invalid (apply_profile card (StartArgs_profile args)) in
  let% local := op_origin in
  let agent := AgentId_new name local in
  do% op_write (start_work agent card cwd (StartArgs_resume args)) in
  op_ok (agent, (card, Presence_default)).

Definition update (args : UpdateArgs) : Op D S (AgentId * (Card * Presence)) :=
  let% name := op_of (handle AgentName_try_from (UpdateArgs_name args)) in
  let% cwd := op_lift (try_option absolute_directory (UpdateArgs_cwd args)) in
  let% local := op_origin in
  let agent := AgentId_new name local in
  let% card := op_write (update_work agent cwd (UpdateArgs_reset_session args)) in
  op_ok (agent, (card, Presence_default)).

Definition remove (name : string) : Op D S (AgentId * N) :=
  let% name := op_of (handle AgentName_try_from name) in
  let% local := op_origin in
  let agent := AgentId_new name local in
  let% ended := op_write (remove_work agent) in
  op_ok (agent, ended).

Definition profile (args : ProfileArgs) : Op D S (AgentId * (Card * Presence)) :=
  let% agent := me in
  do% op_write (profile_work agent args) in
  whoami.

Definition create_room (args : RoomArgs) : Op D S (RoomId * Room) :=
  let% me := me in
  let% book := book in
  let% name := op_of (handle RoomName_try_from (RoomArgs_name args)) in
  let% room := op_of (local_room book (as_str name)) in
  let% topic := op_invalid (try_option (line MAX_ROOM_TOPIC_BYTES) (RoomArgs_topic args)) in
  let% members := op_lift (members_of book me (RoomArgs_members args)) in
  let state := mkRoom (match topic with Some topic => topic | None => None end) members in
  do% op_write (create_room_work room state) in
  op_ok (room, state).

Definition edit_room (room : RoomId) (edit : Room -> result Room Invalid) : Op D S (RoomId * Room) :=
  let% state := op_write (edit_room_work room edit) in
  op_ok (room, state).

Definition change_room (room_name member_name : string) (change : RoomChange) : Op D S (RoomId * Room) :=
  let% book := book in
  let% room := op_of (local_room book room_name) in
  let% member := op_of (Book_agent book member_name) in
  edit_room room (change_members change member).

Definition set_topic (room_name topic : string) : Op D S (RoomId * Room) :=
  let% book := book in
  let% room := op_of (local_room book room_name) in
  let% topic := op_invalid (line MAX_ROOM_TOPIC_BYTES topic) in
  edit_room room (fun state => Ok (mkRoom topic (Room_members state))).

Definition close_room (name : string) : Op D S unit :=
  let% book := book in
  let% room := op_of (local_room book name) in
  do% op_write (close_room_work room) in
  op_ok tt.
End ops.

Section admissible.
Context {D S : Type} `{!Redb D S} `{!RedbLaws D S} `{codec : !Codec} `{records : !StoreCodec} `{laws : !StoreCodecLaws}
  `{env : !Environment S}.

#[export] Instance admissible_configure_profile name card config :
  Admissible (configure_profile (D := D) (S := S) name card config).
Proof. unfold configure_profile. solve_admissible. Qed.
#[export] Instance admissible_join agent tool access cwd profile :
  Admissible (join_work (D := D) (S := S) agent tool access cwd profile).
Proof. unfold join_work, act_refuse, act_invalid. solve_admissible. Qed.
#[export] Instance admissible_start agent card cwd resume :
  Admissible (start_work (D := D) (S := S) agent card cwd resume).
Proof. unfold start_work, act_refuse. solve_admissible. Qed.
#[export] Instance admissible_update agent cwd reset : Admissible (update_work (D := D) (S := S) agent cwd reset).
Proof. unfold update_work. solve_admissible. Qed.
#[export] Instance admissible_end_asks agent asks ended :
  Admissible (end_asks (D := D) (S := S) agent asks ended).
Proof.
  revert ended. induction asks as [|[request responder] asks IH]; intros ended; cbn [end_asks]; solve_admissible; apply IH.
Qed.
#[export] Instance admissible_remove_work agent : Admissible (remove_work (D := D) (S := S) agent).
Proof. unfold remove_work. solve_admissible. Qed.
#[export] Instance admissible_profile_work agent args : Admissible (profile_work (D := D) (S := S) agent args).
Proof. unfold profile_work, act_invalid. solve_admissible. Qed.
#[export] Instance admissible_create_room room state : Admissible (create_room_work (D := D) (S := S) room state).
Proof. unfold create_room_work, act_refuse. solve_admissible. Qed.
#[export] Instance admissible_edit_room room edit : Admissible (edit_room_work (D := D) (S := S) room edit).
Proof. unfold edit_room_work, act_invalid. solve_admissible. Qed.
#[export] Instance admissible_close_room room : Admissible (close_room_work (D := D) (S := S) room).
Proof. unfold close_room_work. solve_admissible. Qed.
End admissible.
