(* ===== verification/Messages.v ===== *)
(** chat/ops.rs, second part, with ops/reads.rs, ops/handoff.rs and the message views of view.rs:
    sending, asking, replying and withdrawing; reading and its receipts; handoffs. *)

From Stdlib Require Import NArith Lia String Ascii.
From stdpp Require Import base gmap list strings.
From S2P Require Import Prelude SortedLists RustStr Ids AgentLists Notification Handoff Event.
From S2P Require Import Ledger Policy Exchange Model Database Wire Views Tx Acts Turns Admin.
From S2P Require Import HandoffStore Address Provider Ops.

(** ** Definitions *)

Record NotificationArgs := mkNotificationArgs {
  NotificationArgs_mentions : list string;
  NotificationArgs_urgent : bool;
  NotificationArgs_subject : option string;
  NotificationArgs_expected : option string;
  NotificationArgs_fallback : option string;
  NotificationArgs_after : N
}.
Record SendArgs := mkSendArgs {
  SendArgs_target : string;
  SendArgs_text : string;
  SendArgs_notification : NotificationArgs
}.
Record AskArgs := mkAskArgs {
  AskArgs_target : string;
  AskArgs_text : string;
  AskArgs_to : option string;
  AskArgs_timeout : N;
  AskArgs_notification : NotificationArgs
}.

Record NotificationRoute := mkNotificationRoute {
  Route_conversation : Conversation;
  Route_room : option Room;
  Route_me : AgentId;
  Route_responder : option AgentId
}.

Definition MAX_WAIT_SECONDS : N := 600.

(** Of view.rs. *)
Record MessageView := mkMessageView {
  MessageView_id : EventId;
  MessageView_conversation : Conversation;
  MessageView_from : string;
  MessageView_kind : string;
  MessageView_text : option string;
  MessageView_responder : option string;
  MessageView_request : option EventId;
  MessageView_at : option Stamp;
  MessageView_delivery : gmap AgentId Delivery
}.

Record AskState := mkAskState {
  AskState_message_id : EventId;
  AskState_state : string;
  AskState_responder : string;
  AskState_answer : option MessageView;
  AskState_ended_by : option EventId;
  AskState_waited_seconds : N;
  AskState_expected : option string;
  AskState_escalated_to : option EventId
}.

Definition AskState_ended (self : AskState) : bool :=
  negb (bool_decide (AskState_state self = "pending"%string) || bool_decide (AskState_state self = "working"%string)).

Definition WAITING_EXIT : N := 3.
Definition AskState_exit_code (self : AskState) : N :=
  if bool_decide (AskState_state self = "answered"%string) then 0
  else if bool_decide (AskState_state self = "pending"%string) || bool_decide (AskState_state self = "working"%string)
  then WAITING_EXIT else 1.

(** [PendingRead] of ops/reads.rs *)
Record PendingRead := mkPendingRead {
  PendingRead_reader : AgentId;
  PendingRead_events : list Event;
  PendingRead_advance_cursor : bool
}.

Definition author_label (book : Book) (event : Event) : string :=
  match Event_author event with
  | None => machine_label book (Event_origin event)
  | Some agent => agent_label book agent
  end.

Definition view_message (book : Book) (event : Event) : option MessageView :=
  match Body_conversation (Event_body event) with
  | None => None
  | Some conversation =>
      let built kind text responder request at_ :=
        Some (mkMessageView (Event_id event) conversation (author_label book event) kind text responder
                request at_ ∅) in
      match Event_body event with
      | Body_Message _ _ text _ intent at_ _ =>
          match intent with
          | Intent_Send => built "send"%string (Some (as_str text)) None None (Some at_)
          | Intent_Ask responder _ =>
              built "ask"%string (Some (as_str text)) (Some (agent_label book responder)) None (Some at_)
          | Intent_Reply request => built "reply"%string (Some (as_str text)) None (Some request) (Some at_)
          end
      | Body_TurnStarted request _ _ _ => built "working"%string None None (Some request) None
      | Body_Resolved request _ _ _ outcome => built (Outcome_as_str outcome) None None (Some request) None
      | _ => None
      end
  end.

Definition view_messages (book : Book) (events : list Event) : list MessageView :=
  omap (view_message book) events.

Definition with_delivery (message : MessageView) (delivery : gmap AgentId Delivery) : MessageView :=
  mkMessageView (MessageView_id message) (MessageView_conversation message) (MessageView_from message)
    (MessageView_kind message) (MessageView_text message) (MessageView_responder message)
    (MessageView_request message) (MessageView_at message) delivery.

Definition view_ask_state (now : Stamp) (book : Book) (request : Event) (resolution : option Resolution)
    (answer : option Event) (working : bool) : AskState :=
  let responder := match ask_of request with
                   | None => EmptyString
                   | Some (_, responder) => agent_label book responder
                   end in
  let state := match option_map Resolution_ending resolution, working with
               | Some Ending_Answered, _ => "answered"%string
               | Some (Ending_Ended outcome), _ => Outcome_as_str outcome
               | None, true => "working"%string
               | None, false => "pending"%string
               end in
  let '(waited_seconds, expected) :=
    match Event_body request with
    | Body_Message _ _ _ _ _ at_ notice =>
        (saturating_sub (Stamp_millis now) (Stamp_millis at_) / MILLIS_PER_SECOND,
         match notice with
         | Some notice => option_map (fun question => as_str (Question_expected question)) (Notice_question notice)
         | None => None
         end)
    | _ => (0, None)
    end in
  mkAskState (Event_id request) state responder
    (match answer with Some event => view_message book event | None => None end)
    (option_map Resolution_event resolution) waited_seconds expected None.

Section messages.
Context {D S : Type} `{!Redb D S} `{codec : !Codec} `{records : !StoreCodec} `{env : !Environment S}.
Local Notation E := (StoreError S).
Local Open Scope act_scope.

(** *** Transaction bodies *)

Definition route d (conversation : Conversation) (me : AgentId) : result (Audience * option Room) E :=
  match conversation with
  | Conversation_Direct pair_ =>
      let? audience := map_err StoreError_Invalid
                         (policy_audience [DirectPair_first pair_; DirectPair_second pair_]) in
      Ok (audience, None)
  | Conversation_Room room =>
      let? found := view_room d room in
      let? state := ok_or found (StoreError_Unknown (as_str (RoomId_name room))) in
      let? _ := map_err StoreError_Refused (check_member state me) in
      let? audience := map_err StoreError_Invalid (policy_audience (AgentList_agents (Room_members state))) in
      Ok (audience, Some state)
  end.

Definition message (conversation : Conversation) (me : AgentId) (audience : Audience) (text : Text)
    (intent : Intent) (notice : option Notice) : Body :=
  Body_Message conversation (AgentId_name me) text audience intent env_now notice.

(** The recipients a message has when it mentions nobody. *)
Definition default_recipients (route : NotificationRoute) : list AgentId :=
  match Route_conversation route, Route_responder route with
  | _, Some responder => [responder]
  | Conversation_Direct pair_, None => option_list (DirectPair_other pair_ (Route_me route))
  | Conversation_Room _, None =>
      match Route_room route with
      | None => []
      | Some room => List.filter (fun agent => negb (bool_decide (agent = Route_me route)))
                       (AgentList_agents (Room_members room))
      end
  end.

Definition check_recipient (route : NotificationRoute) (recipient : AgentId) : result unit E :=
  if bool_decide (recipient = Route_me route)
     || match Route_conversation route with
        | Conversation_Direct pair_ => negb (DirectPair_includes pair_ recipient)
        | Conversation_Room _ => false
        end
  then Err (StoreError_Invalid (mkInvalid "mentions must name another recipient of this conversation"))
  else match Route_room route with
       | Some room => map_err StoreError_Refused (check_member room recipient)
       | None => Ok tt
       end.

Definition question_of (book : Book) (route : NotificationRoute) (args : NotificationArgs) :
  result (option Question) E :=
  match NotificationArgs_expected args, NotificationArgs_fallback args with
  | Some expected, Some fallback =>
      match Route_responder route with
      | Some _ =>
          let? expected := map_err StoreError_Invalid (Line_try_from MAX_EXPECTED_BYTES expected) in
          let? fallback := Book_agent book fallback in
          map_ok Some (map_err StoreError_Invalid (Question_new expected (NotificationArgs_after args) fallback))
      | None => Err (StoreError_Invalid (mkInvalid "expected answers and fallback escalation require chat ask"))
      end
  | None, None => Ok None
  | _, _ => Err (StoreError_Invalid (mkInvalid "expected and fallback must be supplied together"))
  end.

Definition notification (book : Book) (route : NotificationRoute) (args : NotificationArgs) :
  result (option Notice) E :=
  let? recipients :=
    match NotificationArgs_mentions args with
    | [] => Ok (default_recipients route)
    | mentions => try_map (Book_agent book) mentions
    end in
  let? _ := try_map (check_recipient route) recipients in
  let recipients := dedup (sort recipients) in
  let? question := question_of book route args in
  match recipients with
  | [] => Ok None
  | _ =>
      let? members := map_err StoreError_Invalid (Members_try_from recipients) in
      let? subject := map_err StoreError_Invalid
                        (try_option (Line_try_from MAX_SUBJECT_BYTES) (NotificationArgs_subject args)) in
      Ok (Some (mkNotice members (NotificationArgs_urgent args) subject question))
  end.

Definition send_work (book : Book) (conversation : Conversation) (me : AgentId) (text : Text)
    (args : NotificationArgs) : Act D S Event :=
  let! (audience, room) := act_read (fun d => route d conversation me) in
  let! notice := act_lift (notification book (mkNotificationRoute conversation room me None) args) in
  act_author Priority_Ordinary (message conversation me audience text Intent_Send notice).

Definition ask_work (book : Book) (conversation : Conversation) (me responder : AgentId) (chain : Chain)
    (text : Text) (args : NotificationArgs) : Act D S Event :=
  let! (audience, room) := act_read (fun d => route d conversation me) in
  do! act_lift (match room with
                | Some room => map_err StoreError_Refused (check_member room responder)
                | None => Ok tt
                end) in
  let! notice := act_lift (notification book (mkNotificationRoute conversation room me (Some responder)) args) in
  act_author Priority_Ordinary (message conversation me audience text (Intent_Ask responder chain) notice).

Definition known_event d (request : EventId) : result Event E :=
  let? found := view_event d request in
  ok_or found (StoreError_Unknown (EventId_fmt request)).

Definition reply_work (me : AgentId) (request : EventId) (text : Text) : Act D S Event :=
  let! parent := act_read (fun d => known_event d request) in
  let! (conversation, audience) := act_lift (ok_or (Body_thread (Event_body parent))
                                     (StoreError_Unknown (EventId_fmt request))) in
  let! local := act_origin in
  do! (match Event_body parent with
       | Body_Message _ _ _ _ (Intent_Ask responder _) _ _ =>
           if bool_decide (responder = me) then
             let! current := act_read (fun d => view_resolution d request) in
             act_lift (map_err StoreError_Refused (check_resolution current local))
           else act_ok tt
       | _ => act_ok tt
       end) in
  act_author Priority_Ending (message conversation me audience text (Intent_Reply request) None).

Definition withdraw_work (me : AgentId) (request : EventId) : Act D S Event :=
  let! parent := act_read (fun d => known_event d request) in
  if negb (bool_decide (Event_author parent = Some me))
  then act_refuse "only the asker may withdraw an ask" else
  let! local := act_origin in
  let! current := act_read (fun d => view_resolution d request) in
  do! act_lift (map_err StoreError_Refused (check_resolution current local)) in
  let! (conversation, audience) := act_lift (ok_or (Body_thread (Event_body parent))
                                     (StoreError_Unknown (EventId_fmt request))) in
  act_author Priority_Ending
    (Body_Resolved request conversation audience (AgentId_name me) Outcome_Withdrawn).

Definition receipt_work (agent : AgentId) (request : EventId) (stage : Delivery) : Act D S Event :=
  let! event := act_read (fun d => known_event d request) in
  do! Tx_receipt agent event stage in
  act_ok event.

Definition complete_one (reader : AgentId) (selected : Event) : Act D S unit :=
  let! actual := act_read (fun d => known_event d (Event_id selected)) in
  if negb (bool_decide (actual = selected))
  then act_err (StoreError_Corrupt "the selected message changed before read completion") else
  if is_message actual then Tx_receipt reader actual Delivery_Read else act_ok tt.

Definition complete_work (pending : PendingRead) : Act D S unit :=
  do! act_each (PendingRead_events pending) (complete_one (PendingRead_reader pending)) in
  match PendingRead_advance_cursor pending, last (PendingRead_events pending) with
  | true, Some newest => Tx_mark_read (PendingRead_reader pending) newest
  | _, _ => act_ok tt
  end.

(** *** Operations *)

Local Close Scope act_scope.
Local Open Scope op_scope.

Definition text_arg (value : string) : Op D S Text := op_invalid (Text_try_from value).
Definition event_arg (value : string) : Op D S EventId := op_invalid (EventId_try_from value).

Definition send (args : SendArgs) : Op D S Event :=
  let% me := me in
  let% book := book in
  let% conversation := op_of (Book_conversation book me (SendArgs_target args)) in
  let% body := text_arg (SendArgs_text args) in
  op_write (send_work book conversation me body (SendArgs_notification args)).

(** The chain of an ask made while answering another. *)
Definition delegation (me : AgentId) : Op D S Chain :=
  let% session := op_session in
  match Session_turn session with
  | None => op_ok Chain_default
  | Some turn =>
      let% request := op_read (fun d => view_event d turn) in
      match request with
      | Some request =>
          match Event_author request, Event_body request with
          | Some asker, Body_Message _ _ _ _ (Intent_Ask responder chain) _ _ =>
              if bool_decide (responder = me)
              then op_lift (map_err OpsError_Refused (delegated chain asker))
              else op_ok Chain_default
          | _, _ => op_ok Chain_default
          end
      | None => op_ok Chain_default
      end
  end.

Definition ask_responder (book : Book) (me : AgentId) (conversation : Conversation) (to : option string) :
  result AgentId (OpsError S) :=
  match conversation, to with
  | Conversation_Direct pair_, None =>
      ok_or (DirectPair_other pair_ me) (OpsError_Usage "you are not in this conversation")
  | Conversation_Direct _, Some _ => Err (OpsError_Usage "--to is only for asks in a room")
  | Conversation_Room _, Some to => map_err OpsError_Store (Book_agent book to)
  | Conversation_Room _, None => Err (OpsError_Usage "an ask in a room needs --to AGENT")
  end.

(** [ask], up to its waiting for the ending. *)
Definition ask_post (args : AskArgs) : Op D S Event :=
  if MAX_WAIT_SECONDS <? AskArgs_timeout args
  then op_err (OpsError_Usage "the timeout is at most 600 seconds") else
  let% me := me in
  let% book := book in
  let% conversation := op_of (Book_conversation book me (AskArgs_target args)) in
  let% responder := op_lift (ask_responder book me conversation (AskArgs_to args)) in
  let% chain := delegation me in
  do% op_lift (map_err OpsError_Refused (check_ask me responder chain)) in
  let% body := text_arg (AskArgs_text args) in
  op_write (ask_work book conversation me responder chain body (AskArgs_notification args)).

Definition ask_state (request : EventId) : Op D S AskState :=
  let% book := book in
  op_read (fun d =>
    let? event := known_event d request in
    let? resolution := view_resolution d request in
    let? answer :=
      match resolution with
      | Some resolution =>
          if bool_decide (Resolution_ending resolution = Ending_Answered)
          then view_event d (Resolution_event resolution) else Ok None
      | None => Ok None
      end in
    let? listed := directory d (fun _ => env_now) in
    let working := existsb (fun entry => bool_decide (Presence_working_on entry.2.2 = Some request))
                     (map_to_list (Directory_agents listed)) in
    let state := view_ask_state env_now book event resolution answer working in
    let? escalated := escalation d request in
    Ok (mkAskState (AskState_message_id state) (AskState_state state) (AskState_responder state)
          (AskState_answer state) (AskState_ended_by state) (AskState_waited_seconds state)
          (AskState_expected state) escalated)).

Definition reply (message text : string) : Op D S Event :=
  let% me := me in
  let% request := event_arg message in
  let% body := text_arg text in
  op_write (reply_work me request body).

Definition withdraw (message : string) : Op D S Event :=
  let% me := me in
  let% request := event_arg message in
  op_write (withdraw_work me request).

(** Who is told of the delivery of a message. *)
Definition shown_recipients (event : Event) (conversation : Conversation) (notice : option Notice) : list AgentId :=
  match notice with
  | Some notice => AgentList_agents (Notice_recipients notice)
  | None =>
      match conversation with
      | Conversation_Direct pair_ =>
          List.filter (fun agent => negb (bool_decide (Event_author event = Some agent)))
            [DirectPair_first pair_; DirectPair_second pair_]
      | Conversation_Room _ => []
      end
  end.

Definition delivered_view d (events : list Event) (message : MessageView) : result MessageView E :=
  match List.find (fun event => bool_decide (Event_id event = MessageView_id message)) events with
  | None => Ok message
  | Some event =>
      match Event_body event with
      | Body_Message conversation _ _ _ _ _ notice =>
          let? states := try_map (fun agent =>
                           let? delivery := view_delivery d agent (Event_id event) in Ok (agent, delivery))
                           (shown_recipients event conversation notice) in
          Ok (with_delivery message
                (foldl (fun shown entry => <[entry.1 := entry.2]> shown) (MessageView_delivery message) states))
      | _ => Ok message
      end
  end.

Definition message_views (events : list Event) : Op D S (list MessageView) :=
  let% book := book in
  op_read (fun d => try_map (delivered_view d events) (view_messages book events)).

Definition prepare (events : list Event) (advance_cursor : bool) : Op D S PendingRead :=
  let% reader := me in
  if negb advance_cursor && existsb (fun event => negb (is_message event)) events
  then op_err (OpsError_Usage "a full-body read addresses a message") else
  do% op_store (fun store => (store, Store_check_read_receipts store reader events)) in
  op_ok (mkPendingRead reader events advance_cursor).

(** [PendingRead::unread] *)
Definition remaining_unread (pending : PendingRead) : Op D S N :=
  op_read (fun d =>
    let inspected := saturating_add usize_max MAX_LIMIT (N.of_nat (length (PendingRead_events pending))) in
    let? found := unread d (PendingRead_reader pending) inspected in
    let other := List.filter (fun event =>
      negb (existsb (fun selected => bool_decide (Event_id selected = Event_id event)) (PendingRead_events pending)))
      found in
    Ok (N.of_nat (length (take (N.to_nat MAX_LIMIT) other)))).

Definition complete_read (pending : PendingRead) : Op D S unit :=
  let% me := me in
  if negb (bool_decide (me = PendingRead_reader pending))
  then op_err (OpsError_Usage "the delivered messages belong to another acting identity")
  else op_write (complete_work pending).

Definition inbox_op (all : bool) (limit : N) : Op D S (list MessageView * N * PendingRead) :=
  let% me := me in
  let limit := clamp limit in
  let% events := op_read (fun d => if all then inbox d me EmptyString limit else unread d me limit) in
  let% pending := prepare events true in
  let% views := message_views (PendingRead_events pending) in
  let% left_ := remaining_unread pending in
  op_ok (views, left_, pending).

Definition thread_op (target : string) (limit : N) (before : option string) : Op D S (list MessageView) :=
  let% book := book in
  let% session := op_session in
  let% conversation :=
    match Conversation_try_from target, Session_actor session with
    | Ok conversation, _ => op_ok conversation
    | Err _, Some me => op_of (Book_conversation book me target)
    | Err _, None => op_of (map_ok Conversation_Room (Book_room book target))
    end in
  let% before := op_invalid (try_option EventId_try_from before) in
  let% events := op_read (fun d =>
    let? before := match before with Some id => view_event d id | None => Ok None end in
    view_thread d conversation (clamp limit) before) in
  message_views events.

Definition read_message (message : string) : Op D S (list MessageView * N * PendingRead) :=
  do% me in
  let% request := event_arg message in
  let% event := op_read (fun d => known_event d request) in
  let% pending := prepare [event] false in
  let% views := message_views (PendingRead_events pending) in
  let% left_ := remaining_unread pending in
  op_ok (views, left_, pending).

(** The operation [unread]; a transaction that writes nothing. *)
Definition unread_op : Op D S (option N) :=
  let% session := op_session in
  match Session_actor session with
  | None => op_ok None
  | Some me => op_bind (op_write (act_read (fun d => unread d me MAX_LIMIT)))
                 (fun found => op_ok (Some (N.of_nat (length found))))
  end.

Definition receipt_message (message : string) (stage : Delivery) : Op D S (list MessageView * option N) :=
  let% agent := me in
  let% request := event_arg message in
  let% event := op_write (receipt_work agent request stage) in
  let% views := message_views [event] in
  let% left_ := unread_op in
  op_ok (views, left_).

Definition acknowledge (message : string) : Op D S (list MessageView * option N) := receipt_message message Delivery_Acknowledged.

(** *** Handoffs *)

Definition create_handoff (intended : Target) (project_ : Project) (scope_ : Scope) (readers : list AgentId)
    (text : Text) : Op D S Descriptor :=
  let% me := me in
  let% readers := op_invalid (Members_try_from readers) in
  let% metadata := op_invalid (Metadata_new me intended (project_, scope_) readers) in
  let% event := op_write (act_author Priority_Ordinary (Body_Handoff metadata text env_now)) in
  op_invalid (Descriptor_new (Event_id event) metadata text).

Definition handoffs (project_ : Project) (scope_ : Scope) (limit : option N) : Op D S (AgentId * list Descriptor) :=
  let% reader := me in
  let limit := default MAX_HANDOFFS limit in
  if (limit =? 0) || (MAX_HANDOFFS <? limit)
  then op_err (OpsError_Usage "handoff limit must be between 1 and 32") else
  let% found := op_read (fun d => discover d reader project_ scope_ limit) in
  op_ok (reader, found).

Definition read_handoff (selected : Descriptor) (limit : ReadLimit) : Op D S ReadBody :=
  let% reader := me in
  op_read (fun d => handoff_read_body d reader selected limit).

Definition observe_handoff (pending : PendingObservation) : Op D S unit :=
  let% me := me in
  if negb (bool_decide (me = Observation_reader (Pending_observation pending)))
  then op_err (OpsError_Usage "the delivered handoff belongs to another acting identity")
  else op_write (observation_work pending).
End messages.

Section admissible.
Context {D S : Type} `{!Redb D S} `{!RedbLaws D S} `{codec : !Codec} `{records : !StoreCodec} `{laws : !StoreCodecLaws}
  `{env : !Environment S}.

#[export] Instance admissible_send book conversation me text args :
  Admissible (send_work (D := D) (S := S) book conversation me text args).
Proof. unfold send_work. solve_admissible. Qed.
#[export] Instance admissible_ask book conversation me responder chain text args :
  Admissible (ask_work (D := D) (S := S) book conversation me responder chain text args).
Proof. unfold ask_work. solve_admissible. Qed.
#[export] Instance admissible_reply me request text : Admissible (reply_work (D := D) (S := S) me request text).
Proof. unfold reply_work. solve_admissible. Qed.
#[export] Instance admissible_withdraw me request : Admissible (withdraw_work (D := D) (S := S) me request).
Proof. unfold withdraw_work, act_refuse. solve_admissible. Qed.
#[export] Instance admissible_receipt_work agent request stage :
  Admissible (receipt_work (D := D) (S := S) agent request stage).
Proof. unfold receipt_work. solve_admissible. Qed.
#[export] Instance admissible_complete pending : Admissible (complete_work (D := D) (S := S) pending).
Proof. unfold complete_work, complete_one. solve_admissible. Qed.
End admissible.
