(* ===== verification/ChatHook.v ===== *)
(** chat/hook.rs: what the hooks of a language model's client are given - the messages an agent has not seen, within
    fixed bounds - what they record of the agent, and when they block its stop. *)

From Stdlib Require Import NArith Lia String Ascii Sorted.
From stdpp Require Import base gmap list strings pretty.
From S2P Require Import Prelude SortedLists RustStr Ids AgentLists Notification Handoff Event Domain.
From S2P Require Import Ledger Policy Wire Database Views Tx Acts Turns Values.

(** ** Definitions *)

Definition MAX_METADATA_BYTES : N := 64.
Definition MAX_IDENTITY_BYTES : N := 48.
Definition MIN_PREVIEW_BYTES : N := 64.

(** Of args.rs *)
Inductive HookPhase := HookPhase_Start | HookPhase_Pre | HookPhase_Post | HookPhase_Stop.
#[export] Instance HookPhase_eq_dec : EqDecision HookPhase.
Proof. solve_decision. Defined.
Record HookArgs := mkHookArgs {
  HookArgs_phase : HookPhase;
  HookArgs_status : option string;
  HookArgs_client : option Tool;
  HookArgs_if_bound : bool
}.

Record Prepared := mkPrepared {
  Prepared_agent : AgentId;
  Prepared_context : string;
  Prepared_messages : list EventId;
  Prepared_pending_urgent : N;
  Prepared_block_stop : bool
}.

Definition Prepared_output (self : Prepared) (phase : HookPhase) : Value :=
  let event :=
    match phase with
    | HookPhase_Start => "SessionStart"
    | HookPhase_Pre => "PreToolUse"
    | HookPhase_Post => "PostToolUse"
    | HookPhase_Stop => "Stop"
    end%string in
  let details := json_object [("hookEventName", Value_String event); ("additionalContext", Value_String (Prepared_context self))]%string in
  if Prepared_block_stop self then
    let reason := (pretty (Prepared_pending_urgent self) ++
      " urgent chat messages require a reply or `domyjob chat acknowledge MESSAGE_ID`. " ++ Prepared_context self)%string in
    json_object [("decision", Value_String "block"); ("reason", Value_String reason); ("hookSpecificOutput", details)]%string
  else json_object [("hookSpecificOutput", details)]%string.

(** [text.get(..end)], with the greatest end within the limit that is a boundary *)
Definition prefix (text : string) (limit : N) : string :=
  String.substring 0 (floor_char_boundary text (N.to_nat (N.min limit (str_len text)))) text.

Definition line_feed : string := String (ascii_of_N 10) EmptyString.
Definition is_urgent (event : Event) : bool :=
  match Event_body event with
  | Body_Message _ _ _ _ _ _ (Some notice) => Notice_urgent notice
  | _ => false
  end.

(** [replace('\n', " ")] *)
Fixpoint unline (text : string) : string :=
  match text with
  | EmptyString => EmptyString
  | String a rest => String (if N_of_ascii a =? 10 then " "%char else a) (unline rest)
  end.

Definition summary (now : Stamp) (event : Event) : string :=
  match Event_body event with
  | Body_Message conversation _ text _ _ at_ notice =>
      let from := prefix (match Event_author event with Some author => AgentId_fmt author | None => EmptyString end) MAX_IDENTITY_BYTES in
      let conversation := prefix (Conversation_fmt conversation) MAX_IDENTITY_BYTES in
      let subject := prefix match option_bind _ _ Notice_subject notice with Some subject => as_str subject | None => "message"%string end
                       MAX_METADATA_BYTES in
      let priority := (if match notice with Some notice => Notice_urgent notice | None => false end then "urgent" else "normal")%string in
      let expectation :=
        match option_bind _ _ Notice_question notice with
        | Some question =>
            (" Expected: " ++ prefix (as_str (Question_expected question)) MAX_METADATA_BYTES ++ " (waiting " ++
             pretty (saturating_sub (Stamp_millis now) (Stamp_millis at_) / MILLIS_PER_SECOND) ++ "s).")%string
        | None => EmptyString
        end in
      let heading := (EventId_fmt (Event_id event) ++ " from " ++ from ++ " in " ++ conversation ++ " [" ++ priority ++ "] " ++
                      subject ++ "." ++ expectation ++ " ")%string in
      let suffix := (" [read full body: domyjob chat read " ++ EventId_fmt (Event_id event) ++ "]" ++ line_feed)%string in
      let heading := prefix heading (saturating_sub (saturating_sub MAX_SUMMARY_BYTES (str_len suffix)) MIN_PREVIEW_BYTES) in
      let budget := saturating_sub (saturating_sub MAX_SUMMARY_BYTES (str_len heading)) (str_len suffix) in
      let body := unline (terminal_text (as_str text)) in
      (heading ++ prefix body budget ++ suffix)%string
  | _ => EmptyString
  end.

Section hook.
Context {D S : Type} `{!Redb D S} `{codec : !Codec} `{records : !StoreCodec}.
Implicit Types (d : D) (store : Store D).
Local Open Scope act_scope.

(** What the transaction of [prepare] does *)
Definition mark_delivered_read (agent : AgentId) (request : EventId) : Act D S unit :=
  let! message := act_read (fun d => view_event d request) in
  match message with
  | Some message => Tx_receipt agent message Delivery_Read
  | None => act_ok tt
  end.

Definition prepare_status (agent : AgentId) (args : HookArgs) : Act D S (option (Line MAX_STATUS_BYTES)) :=
  match HookArgs_status args with
  | Some EmptyString => act_ok None
  | Some status => let! status := act_lift (map_err StoreError_Invalid (Line_try_from MAX_STATUS_BYTES status)) in act_ok (Some status)
  | None =>
      let! current := act_read (fun d => view_activity d agent) in
      act_ok (option_bind _ _ Activity_status current)
  end.

Definition prepare_work (now : Stamp) (agent : AgentId) (args : HookArgs) : Act D S unit :=
  do! (if bool_decide (HookArgs_phase args = HookPhase_Pre) then
         let! seen := act_read (fun d => delivered_to d agent) in
         act_each seen (mark_delivered_read agent)
       else act_ok tt) in
  let state := if bool_decide (HookArgs_phase args = HookPhase_Stop) then ActivityState_Waiting else ActivityState_Working in
  let! status := prepare_status agent args in
  do! act_author Priority_Ending (Body_Activity (AgentId_name agent) (mkActivity state now status)) in
  act_ok tt.

(** The urgent messages that are still to be delivered, until there are as many as there may be *)
Fixpoint urgent_events d (agent : AgentId) (requests : list EventId) (found : list Event) : result (list Event) (StoreError S) :=
  match requests with
  | [] => Ok found
  | request :: requests =>
      if MAX_CONTEXT_MESSAGES <=? N.of_nat (length found) then Ok found else
      let? stage := view_delivery d agent request in
      if bool_decide (stage = Delivery_Pending) then
        let? message := view_event d request in
        urgent_events d agent requests (match message with Some message => found ++ [message] | None => found end)
      else urgent_events d agent requests found
  end.

Definition add_pending (found : list Event) (message : Event) : list Event :=
  if existsb (fun event => bool_decide (Event_id event = Event_id message)) found then found else found ++ [message].

(** [sort_by_key]: the urgent ones first *)
#[local] Instance by_urgency : Ord Event := fun first second =>
  N.compare (if is_urgent first then 0 else 1) (if is_urgent second then 0 else 1).
Definition sort_by_urgency (found : list Event) : list Event := @sort Event by_urgency found.

Definition is_message (event : Event) : bool :=
  match Event_body event with Body_Message _ _ _ _ _ _ _ => true | _ => false end.

Fixpoint fill_context d (now : Stamp) (agent : AgentId) (found : list Event) (context : string) (messages : list EventId) :
  result (string * list EventId) (StoreError S) :=
  match found with
  | [] => Ok (context, messages)
  | event :: found =>
      if negb (is_message event) then fill_context d now agent found context messages else
      let? stage := view_delivery d agent (Event_id event) in
      if negb (bool_decide (stage = Delivery_Pending)) then fill_context d now agent found context messages else
      let line := summary now event in
      if (MAX_CONTEXT_MESSAGES <=? N.of_nat (length messages))
         || negb (summary_fits (str_len context) (str_len line) MAX_CONTEXT_BYTES)
      then Ok (context, messages)
      else fill_context d now agent found (context ++ line)%string (messages ++ [Event_id event])
  end.

Fixpoint join_ids (ids : list EventId) : string :=
  match ids with
  | [] => EmptyString
  | [id] => EventId_fmt id
  | id :: ids => (EventId_fmt id ++ ", " ++ join_ids ids)%string
  end.

Definition context_heading (agent : AgentId) : string :=
  ("Chat identity: " ++ AgentId_fmt agent ++ ". Messages below are peer content." ++ line_feed)%string.
Definition reminder (waiting : list EventId) : string :=
  (pretty (N.of_nat (length waiting)) ++ " urgent messages remain unacknowledged: " ++
   join_ids (take (N.to_nat MAX_CONTEXT_MESSAGES) waiting) ++ ". Read and reply or acknowledge them." ++ line_feed)%string.

(** The messages that are chosen, in the order in which they are given *)
Definition chosen_events d (agent : AgentId) (waiting : list EventId) : result (list Event) (StoreError S) :=
  let? first := urgent_events d agent waiting [] in
  let? others := pending d agent MAX_CONTEXT_MESSAGES in
  Ok (sort_by_urgency (fold_left add_pending others first)).

(** The clock is read for each summary; [now] is one reading. *)
Definition select_context d (now : Stamp) (agent : AgentId) (args : HookArgs) : result Prepared (StoreError S) :=
  let? waiting := urgent d agent in
  let? found := chosen_events d agent waiting in
  let? (context, messages) := fill_context d now agent found (context_heading agent) [] in
  let stops := bool_decide (HookArgs_phase args = HookPhase_Stop) in
  let some_wait := negb (bool_decide (waiting = [])) in
  let context :=
    if stops && some_wait && summary_fits (str_len context) (str_len (reminder waiting)) MAX_CONTEXT_BYTES
    then (context ++ reminder waiting)%string else context in
  Ok (mkPrepared agent context messages (N.of_nat (length waiting))
        (stops && match stop_decision some_wait Delivery_Pending with StopDecision_Block => true | StopDecision_Allow => false end)).

Definition prepare (rung : result unit S) store (now : Stamp) (agent : AgentId) (args : HookArgs) :
  Store D * result Prepared (StoreError S) :=
  let '(store, r) := Store_escalate rung store now in
  match r with
  | Err e => (store, Err e)
  | Ok _ =>
      let '(store, r) := Store_write rung store (prepare_work now agent args) in
      match r with
      | Err e => (store, Err e)
      | Ok _ => (store, Store_read store (fun d => select_context d now agent args))
      end
  end.

(** What the transaction of [delivered] does *)
Definition deliver_one (agent : AgentId) (request : EventId) : Act D S unit :=
  let! message := act_read (fun d => view_event d request) in
  match message with
  | Some message => Tx_receipt agent message Delivery_Delivered
  | None => act_ok tt
  end.
Definition delivered_work (context : Prepared) : Act D S unit :=
  act_each (Prepared_messages context) (deliver_one (Prepared_agent context)).
Definition delivered (rung : result unit S) store (context : Prepared) : Store D * result unit (StoreError S) :=
  Store_write rung store (delivered_work context).
End hook.

(** ** Lengths *)

Lemma str_len_app a b : str_len (a ++ b) = str_len a + str_len b.
Proof.
  unfold str_len. rewrite <- Nat2N.inj_add. f_equal. induction a as [|x a IH]; [done|]. change (String x a +:+ b) with (String x (a +:+ b)). cbn [String.length]. by rewrite IH.
Qed.

Lemma string_get_none s : forall i, String.get i s = None -> (String.length s <= i)%nat.
Proof. induction s as [|a s IH]; intros [|i]; cbn; try lia; try done. intros H. apply IH in H. lia. Qed.

Lemma floor_char_boundary_le s i : (floor_char_boundary s i <= i)%nat.
Proof.
  induction i as [|i IH]; cbn [floor_char_boundary]; [done|]. destruct (String.get _ s) as [a|] eqn:H.
  - destruct (continues a); lia.
  - by apply string_get_none in H.
Qed.

Lemma substring_length s : forall n m, (String.length (String.substring n m s) <= m)%nat.
Proof.
  induction s as [|a s IH]; intros [|n] [|m]; cbn; try lia.
  - specialize (IH 0%nat m). lia.
  - apply IH.
  - apply (IH n (Datatypes.S m)).
Qed.

Lemma prefix_length text limit : str_len (prefix text limit) <= limit.
Proof.
  unfold prefix, str_len. pose proof (substring_length text 0 (floor_char_boundary text (N.to_nat (N.min limit (N.of_nat (String.length text)))))).
  pose proof (floor_char_boundary_le text (N.to_nat (N.min limit (N.of_nat (String.length text))))). lia.
Qed.

Lemma Origin_length (origin : Origin) : str_len (as_str origin) = 32.
Proof.
  pose proof (as_str_check origin) as H. unfold Origin_check in H. rewrite check_ok in H. unfold lower_hex in H.
  apply andb_true_iff in H as [H _]. by apply N.eqb_eq in H.
Qed.
Lemma EventId_length id : str_len (EventId_fmt id) = 49.
Proof.
  unfold EventId_fmt. rewrite str_len_app, Origin_length. change (String ":" ?s) with (":" ++ s)%string.
  rewrite str_len_app. unfold str_len at 2. rewrite length_hex_fixed. reflexivity.
Qed.
Lemma AgentId_length agent : str_len (AgentId_fmt agent) <= 97.
Proof.
  unfold AgentId_fmt. change (String "@" ?s) with ("@" ++ s)%string. rewrite !str_len_app, Origin_length.
  pose proof (as_str_check (AgentId_name agent)) as H. set (name := as_str (AgentId_name agent)) in *. clearbody name.
  unfold AgentName_check in H. rewrite check_ok in H. unfold valid_handle, in_range in H.
  apply andb_true_iff in H as [[[_ H]%andb_true_iff _]%andb_true_iff _]. apply N.leb_le in H.
  change (str_len "@") with 1. lia.
Qed.

Lemma summary_length now event : str_len (summary now event) <= MAX_SUMMARY_BYTES.
Proof.
  unfold summary. destruct (Event_body event); try done. cbv zeta.
  match goal with |- str_len (prefix ?h _ ++ prefix ?b _ ++ ?s) <= _ => set (heading := h); set (body := b); set (suffix := s) end.
  assert (Hs : str_len suffix = 87).
  { unfold suffix. rewrite !str_len_app, EventId_length. reflexivity. }
  rewrite !str_len_app, Hs. unfold saturating_sub.
  pose proof (prefix_length heading (MAX_SUMMARY_BYTES - 87 - MIN_PREVIEW_BYTES)) as H1.
  set (p := prefix heading (MAX_SUMMARY_BYTES - 87 - MIN_PREVIEW_BYTES)) in *.
  pose proof (prefix_length body (MAX_SUMMARY_BYTES - str_len p - 87)) as H2.
  unfold MAX_SUMMARY_BYTES, MIN_PREVIEW_BYTES in *. lia.
Qed.

Lemma heading_length agent : str_len (context_heading agent) <= 148.
Proof.
  unfold context_heading. rewrite !str_len_app. pose proof (AgentId_length agent).
  change (str_len "Chat identity: ") with 15. change (str_len ". Messages below are peer content.") with 34.
  change (str_len line_feed) with 1. lia.
Qed.

Lemma summary_fits_le used next limit : summary_fits used next limit = true -> used + next <= limit.
Proof.
  unfold summary_fits, checked_add. destruct (_ <=? usize_max); [|done]. intros H%N.leb_le. done.
Qed.
Lemma summary_fits_true used next limit : used + next <= limit -> limit <= usize_max -> summary_fits used next limit = true.
Proof.
  intros H Hl. unfold summary_fits, checked_add. rewrite (proj2 (N.leb_le _ _)) by lia. by apply N.leb_le.
Qed.

(** ** What a hook is given *)

Fixpoint summaries (now : Stamp) (shown : list Event) : string :=
  match shown with
  | [] => EmptyString
  | event :: shown => (summary now event ++ summaries now shown)%string
  end.

Lemma string_app_assoc (a b c : string) : ((a ++ b) ++ c)%string = (a ++ (b ++ c))%string.
Proof.
  induction a as [|x a IH]; [done|]. change (String x ((a +:+ b) +:+ c) = String x (a +:+ (b +:+ c))). by f_equal.
Qed.
Lemma string_app_nil (a : string) : (a ++ EmptyString)%string = a.
Proof. induction a as [|x a IH]; [done|]. change (String x (a +:+ EmptyString) = String x a). by f_equal. Qed.

(** No message that is not urgent comes before one that is. *)
Definition urgent_before (first second : Event) : Prop := is_urgent second = true -> is_urgent first = true.

Lemma by_urgency_le first second : @cmp_leb Event by_urgency first second = false -> urgent_before second first.
Proof. unfold cmp_leb, cmp, by_urgency, urgent_before. by destruct (is_urgent first), (is_urgent second). Qed.
Lemma by_urgency_ge first second : @cmp_leb Event by_urgency first second = true -> urgent_before first second.
Proof. unfold cmp_leb, cmp, by_urgency, urgent_before. by destruct (is_urgent first), (is_urgent second). Qed.

Lemma insert_urgency event found : StronglySorted urgent_before found ->
  StronglySorted urgent_before (@sort_insert Event by_urgency event found) /\
  forall e, In e (@sort_insert Event by_urgency event found) <-> In e (event :: found).
Proof.
  induction 1 as [|x found Hs [IH Hin] Hx]; cbn [sort_insert]; [split; [apply SSorted_cons; [apply SSorted_nil|apply List.Forall_nil]|done]|].
  destruct (cmp_leb event x) eqn:Hc.
  - apply by_urgency_ge in Hc. split; [|done]. constructor; [by constructor|]. constructor; [done|].
    eapply Forall_impl; [exact Hx|]. intros e He Hu. by apply Hc, He.
  - apply by_urgency_le in Hc. split.
    + constructor; [done|]. apply List.Forall_forall. intros e He. apply Hin in He as [<-|He]; [done|].
      rewrite List.Forall_forall in Hx. by apply Hx.
    + intros e. specialize (Hin e). cbn in *. tauto.
Qed.

Lemma sort_urgency found : StronglySorted urgent_before (sort_by_urgency found) /\
  forall e, In e (sort_by_urgency found) <-> In e found.
Proof.
  unfold sort_by_urgency, sort. induction found as [|e found [IH Hin]]; cbn [foldr]; [split; [apply SSorted_nil|done]|].
  destruct (insert_urgency e _ IH) as [H1 H2]. split; [exact H1|]. intros e'. rewrite H2. cbn. by rewrite Hin.
Qed.

Section given.
Context {D S : Type} `{!Redb D S} `{codec : !Codec} `{records : !StoreCodec}.
Implicit Types (d : D).

(** A message that the agent has still to be given *)
Definition eligible d (agent : AgentId) (event : Event) : bool :=
  is_message event &&
  match view_delivery (S := S) d agent (Event_id event) with Ok Delivery_Pending => true | _ => false end.

Lemma fill_context_spec d now agent found : forall context messages c ms,
  fill_context (S := S) d now agent found context messages = Ok (c, ms) ->
  str_len context <= 148 + 512 * N.of_nat (length messages) -> str_len context <= MAX_CONTEXT_BYTES ->
  N.of_nat (length messages) <= MAX_CONTEXT_MESSAGES ->
  exists shown rest, List.filter (eligible d agent) found = shown ++ rest /\ (rest = [] \/ (7 <= length ms)%nat) /\
    ms = messages ++ map Event_id shown /\ c = (context ++ summaries now shown)%string /\
    str_len c <= MAX_CONTEXT_BYTES /\ N.of_nat (length ms) <= MAX_CONTEXT_MESSAGES.
Proof.
  induction found as [|event found IH]; intros context messages c ms; cbn [fill_context].
  { intros [= <- <-] _ H1 H2. exists [], []. cbn. rewrite app_nil_r, string_app_nil. auto 10. }
  cbn [List.filter]. unfold eligible at 1. destruct (is_message event); cbn [negb andb]; [|by apply IH].
  destruct (view_delivery d agent (Event_id event)) as [stage|]; cbn; [|done].
  case_bool_decide as Hs; cbn [negb]; [|destruct stage; [done|by apply IH ..]].
  subst stage. destruct ((_ <=? _) || _) eqn:Hfull.
  - intros [= <- <-] Hlen H1 H2. exists [], (event :: List.filter (eligible d agent) found). cbn. rewrite app_nil_r, string_app_nil.
    split; [done|]. split; [|done]. right. apply orb_true_iff in Hfull as [H%N.leb_le|H%negb_true_iff].
    { unfold MAX_CONTEXT_MESSAGES in H. lia. }
    destruct (decide (7 <= length messages)%nat) as [|Hn]; [done|]. rewrite summary_fits_true in H; [done| |by apply N.leb_le].
    pose proof (summary_length now event). unfold MAX_CONTEXT_BYTES, MAX_SUMMARY_BYTES in *. lia.
  - apply orb_false_iff in Hfull as [Hn%N.leb_gt Hf%negb_false_iff%summary_fits_le]. intros Hfill Hlen H1 H2.
    pose proof (summary_length now event) as Hsum. unfold MAX_SUMMARY_BYTES in Hsum.
    apply IH in Hfill as (shown & rest & Hfilter & Hrest & Hms & Hc & Hb & Hm).
    + exists (event :: shown), rest. rewrite Hfilter. split; [done|]. split; [done|]. rewrite Hms, Hc. split; [by rewrite <- app_assoc|].
      split; [by rewrite string_app_assoc|]. by rewrite <- Hms, <- Hc.
    + rewrite str_len_app, length_app. cbn [length]. lia.
    + rewrite str_len_app. lia.
    + rewrite length_app. cbn [length]. lia.
Qed.

(** What a hook is given is bounded and to the point.  Its context has at most 4096 bytes: the identity of the
    agent, then the summaries of the messages it names, and a reminder at the end if there is room.  These are at most 8
    messages that were chosen and are still to be delivered to the agent, the urgent ones first; all of them are
    given, or else at least 7.  The hook blocks exactly the stop of an agent that urgent messages wait for. *)
Theorem hook_context_is_bounded d now agent args p : select_context (S := S) d now agent args = Ok p ->
  exists waiting chosen shown rest tail, urgent (S := S) d agent = Ok waiting /\ chosen_events (S := S) d agent waiting = Ok chosen /\
    List.filter (eligible d agent) chosen = shown ++ rest /\ (rest = [] \/ (7 <= length shown)%nat) /\
    StronglySorted urgent_before chosen /\
    Prepared_messages p = map Event_id shown /\ N.of_nat (length shown) <= MAX_CONTEXT_MESSAGES /\
    Prepared_context p = (context_heading agent ++ summaries now shown ++ tail)%string /\
    str_len (Prepared_context p) <= MAX_CONTEXT_BYTES /\
    (Prepared_block_stop p = true <-> HookArgs_phase args = HookPhase_Stop /\ waiting <> []).
Proof.
  unfold select_context. destruct (urgent d agent) as [waiting|] eqn:Hw; cbn; [|done].
  destruct (chosen_events d agent waiting) as [chosen|] eqn:Hc; cbn; [|done].
  destruct (fill_context _ _ _ _ _ _) as [[context messages]|] eqn:Hf; cbn; [|done].
  intros [= <-]. cbn [Prepared_messages Prepared_context Prepared_block_stop].
  pose proof (heading_length agent) as Hh.
  apply fill_context_spec in Hf as (shown & rest & Hfilter & Hrest & Hms & Hcx & Hb & Hm);
    [|cbn; lia|unfold MAX_CONTEXT_BYTES; lia|by apply N.leb_le]. cbn in Hms. subst messages. rewrite length_map in *.
  set (remind := _ && _ && summary_fits _ _ _).
  exists waiting, chosen, shown, rest, (if remind then reminder waiting else EmptyString).
  split_and!; try done.
  - unfold chosen_events in Hc. destruct (urgent_events _ _ _ _) as [first|]; cbn in Hc; [|done].
    destruct (pending _ _ _) as [others|]; cbn in Hc; [|done]. injection Hc as <-. apply sort_urgency.
  - destruct remind; rewrite Hcx, ?string_app_nil; [|done]. by rewrite string_app_assoc.
  - destruct remind eqn:Hr; [|done]. unfold remind in Hr. apply andb_true_iff in Hr as [_ Hr%summary_fits_le]. by rewrite str_len_app.
  - rewrite andb_true_iff, bool_decide_eq_true. case_bool_decide as Hn; cbn; [|naive_solver].
    split; [by intros [_ ?]|]. by intros [_ ?].
Qed.
End given.

(** ** The transactions keep a ledger *)

Section admissible.
Context {D S : Type} `{!Redb D S} `{!RedbLaws D S} `{codec : !Codec} `{records : !StoreCodec} `{laws : !StoreCodecLaws}.

#[export] Instance admissible_mark_delivered_read agent request :
  Admissible (mark_delivered_read (D := D) (S := S) agent request).
Proof. unfold mark_delivered_read. solve_admissible. Qed.
#[export] Instance admissible_deliver_one agent request : Admissible (deliver_one (D := D) (S := S) agent request).
Proof. unfold deliver_one. solve_admissible. Qed.
#[export] Instance admissible_prepare_hook now agent args : Admissible (prepare_work (D := D) (S := S) now agent args).
Proof. unfold prepare_work, prepare_status. solve_admissible. Qed.
#[export] Instance admissible_delivered context : Admissible (delivered_work (D := D) (S := S) context).
Proof. unfold delivered_work. solve_admissible. Qed.
End admissible.
