(* ===== verification/StoreRuns.v ===== *)
(** The committed chat store over its life: what a transaction leaves, what every store that
    transactions lead to holds, and what its readers may rely on. *)

From Stdlib Require Import NArith Lia String Ascii Relations.
From stdpp Require Import base gmap list strings relations.
From S2P Require Import ChatHook.
From S2P Require Import Prelude SortedLists RustStr Ids AgentLists Notification Handoff Event.
From S2P Require Import Ledger Policy ChatWire Exchange Model History Convergence Sync StoreRefinement.
From S2P Require Import Database Wire Views Tx TxLaws StoreRefinement StoreExchange.
From S2P Require Import Acts Turns Admin HandoffStore Address Ops Messages.

(** The transactions that record events or exchange them, and what they answer. *)
Inductive Call :=
| Call_author (priority : Priority) (body : Body)
| Call_offer (peer : Origin)
| Call_respond (request : Offer)
| Call_accept (request : Offer) (answer : Answer).

Inductive Reply :=
| Reply_event (event : Event)
| Reply_offer (reply : result Offer Rejection)
| Reply_answer (reply : result Answer Rejection)
| Reply_progress (reply : result Progress Rejection).

(** The batch a call takes in, with whom it is from and what they have seen. *)
Definition Call_batch (call : Call) : option (Origin * list Event * N) :=
  match call with
  | Call_respond request => Some (Offer_from request, Batch_events (Offer_batch request), Offer_seen request)
  | Call_accept _ answer => Some (Answer_from answer, Batch_events (Answer_batch answer), Answer_seen answer)
  | _ => None
  end.

(** The rejection a reply reports of that batch. *)
Definition Reply_rejected (reply : Reply) : option Rejection :=
  match reply with
  | Reply_answer (Ok answer) => Answer_rejected answer
  | Reply_progress (Ok progress) => Received_rejected (Progress_received progress)
  | _ => None
  end.

Section runs.
Context {D S : Type} `{!Redb D S} `{!RedbLaws D S} `{codec : !Codec} `{records : !StoreCodec} `{laws : !StoreCodecLaws}
  `{link_json : !Json Link}.
Implicit Types (store : Store D) (m : Model).

Definition Store_call (rung : result unit S) store (call : Call) : Store D * result Reply (StoreError S) :=
  match call with
  | Call_author priority body => let '(s, r) := Store_author rung store priority body in (s, map_ok Reply_event r)
  | Call_offer peer => let '(s, r) := Store_offer rung store peer in (s, map_ok Reply_offer r)
  | Call_respond request => let '(s, r) := Store_respond rung store request in (s, map_ok Reply_answer r)
  | Call_accept request answer =>
      let '(s, r) := Store_accept rung store request answer in (s, map_ok Reply_progress r)
  end.

Definition Model_call m (call : Call) : Model * result Reply (Failure Empty_set) :=
  match call with
  | Call_author _ body => let '(m, r) := Model_write m body in (m, map_ok Reply_event r)
  | Call_offer peer => (m, Ok (Reply_offer (Model_offer m peer)))
  | Call_respond request => let '(m, r) := Model_respond m request in (m, Ok (Reply_answer r))
  | Call_accept request answer => let '(m, r) := Model_accept m request answer in (m, Ok (Reply_progress r))
  end.

(** A store whose tables hold a ledger that steps have led to. *)
Definition implements store m : Prop :=
  simulates (mkTx (Store_database store) (Store_origin store) false) m.

(** A store without room left took a prefix of the batch and says so. *)
Definition cut_short store' m call m' reply : Prop :=
  Reply_rejected reply = Some Rejection_ResourceLimit /\
  fits_received (usage (Store_database store')) = false /\
  exists from batch claimed es1 es2 m1 received,
    Call_batch call = Some (from, batch, claimed) /\ batch = es1 ++ es2 /\
    receive (E := Empty_set) m from es1 = (m1, Ok received) /\ Received_rejected received = None /\
    m' = Model_record_ack m1 from claimed.

(** The body of the transaction a call runs. *)
Definition Call_work (call : Call) : Act D S Reply := fun tx =>
  match call with
  | Call_author priority body => let '(tx, r) := Tx_author tx priority body in (tx, map_ok Reply_event r)
  | Call_offer peer => (tx, map_ok Reply_offer (offer tx peer))
  | Call_respond request => let '(tx, r) := respond tx request in (tx, map_ok Reply_answer r)
  | Call_accept request answer => let '(tx, r) := accept tx request answer in (tx, map_ok Reply_progress r)
  end.

(** The bodies given to [Store::write] across store.rs, store/*.rs, ops.rs, ops/*.rs and hook.rs.  Cleaning
    a conversation is no such body: admin.rs writes to the database directly. *)
Inductive transaction : forall {T}, Act D S T -> Prop :=
| transaction_call call : transaction (Call_work call)
| transaction_author priority body : transaction (act_author priority body)
| transaction_unread agent : transaction (act_read (fun d => unread d agent MAX_LIMIT))
| transaction_escalate now : transaction (escalate_work now)
| transaction_dispatch : transaction dispatch_work
| transaction_recover now agent : transaction (recover_work now agent)
| transaction_claim now agent : transaction (claim_work now agent)
| transaction_finish answered_at now turn completion : transaction (finish_work answered_at now turn completion)
| transaction_pin alias origin replace : transaction (pin_work alias origin replace)
| transaction_unpin alias : transaction (unpin_work alias)
| transaction_link alias link : transaction (record_link_work alias link)
| transaction_publish now card : transaction (publish_work now card)
| transaction_observation pending : transaction (observation_work pending)
| transaction_join (env : Environment S) agent tool access cwd profile : transaction (join_work agent tool access cwd profile)
| transaction_start agent card cwd resume : transaction (start_work agent card cwd resume)
| transaction_update agent cwd reset : transaction (update_work agent cwd reset)
| transaction_remove agent : transaction (remove_work agent)
| transaction_profile (env : Environment S) agent args : transaction (profile_work agent args)
| transaction_create_room room state : transaction (create_room_work room state)
| transaction_edit_room room edit : transaction (edit_room_work room edit)
| transaction_close_room room : transaction (close_room_work room)
| transaction_send (env : Environment S) book conversation me text args : transaction (send_work book conversation me text args)
| transaction_ask (env : Environment S) book conversation me responder chain text args :
    transaction (ask_work book conversation me responder chain text args)
| transaction_reply (env : Environment S) me request text : transaction (reply_work me request text)
| transaction_withdraw me request : transaction (withdraw_work me request)
| transaction_receipt agent request stage : transaction (receipt_work agent request stage)
| transaction_complete pending : transaction (complete_work pending)
| transaction_hook now agent args : transaction (prepare_work now agent args)
| transaction_delivered context : transaction (delivered_work context).

(** ** Lemmas *)

Lemma Store_write_map {T U} (f : T -> U) rung store work :
  Store_write rung store (fun tx => let '(tx, r) := work tx in (tx, map_ok f r)) =
  let '(s, r) := Store_write (S := S) rung store work in (s, map_ok f r).
Proof.
  unfold Store_write. destruct (verify _ _); [|done]. destruct (work _) as [tx [v|e]]; cbn; [|done].
  destruct (redb_commit _); cbn; [|done]. destruct (Tx_appended tx); [|done]. by destruct rung.
Qed.

Lemma Store_call_write rung store call : Store_call rung store call = Store_write rung store (Call_work call).
Proof.
  destruct call; cbn; unfold Store_author, Store_offer, Store_respond, Store_accept; rewrite <- Store_write_map; done.
Qed.

(** What a transaction leaves: what its body wrote, or nothing of it; only a doorbell that cannot be
    rung makes a committed transaction fail. *)
Lemma Store_write_cases {T} rung store store' (work : Tx D -> Tx D * result T (StoreError S)) r :
  Store_write rung store work = (store', r) ->
  store' = store /\ is_ok r = false \/
  verify (S := S) (Store_database store) (Store_origin store) = Ok tt /\
  exists tx' v, work (mkTx (Store_database store) (Store_origin store) false) = (tx', Ok v) /\
    redb_commit (Tx_write tx') = Ok tt /\
    Store_database store' = Tx_write tx' /\ Store_origin store' = Store_origin store /\
    (r = Ok v /\ Store_bell store' = (if Tx_appended tx' then Some (Tx_generation tx') else Store_bell store) \/
     Tx_appended tx' = true /\ (exists e, rung = Err e /\ r = Err (StoreError_State e)) /\
       Store_bell store' = Store_bell store).
Proof.
  unfold Store_write. destruct (verify _ _) as [[]|] eqn:Hv; [|intros [= <- <-]; by left].
  destruct (work _) as [tx [v|]]; [|intros [= <- <-]; by left].
  destruct (redb_commit (Tx_write tx)) as [[]|] eqn:Hcommit; cbn; [|intros [= <- <-]; by left].
  intros H. right. split; [done|]. exists tx, v. split; [done|]. split; [done|]. revert H.
  destruct (Tx_appended tx); [destruct rung as [[]|e]|]; cbn; intros [= <- <-]; cbn.
  - split; [done|]. split; [done|]. by left.
  - split; [done|]. split; [done|]. right. eauto.
  - split; [done|]. split; [done|]. by left.
Qed.

Definition tx_cut_short (tx' : Tx D) m call m' reply : Prop :=
  exists from batch claimed, Call_batch call = Some (from, batch, claimed) /\
    took_prefix tx' m from batch claimed m' (Reply_rejected reply).

Lemma prefix_steps tx' m from batch claimed m' rejected :
  took_prefix (D := D) (S := S) tx' m from batch claimed m' rejected -> rtc step m m'.
Proof.
  intros (_ & _ & es1 & es2 & m1 & received & _ & Hr & _ & ->). apply receive_steps in Hr.
  eapply rtc_r; [exact Hr|constructor].
Qed.

Lemma Call_simulates tx m call tx' reply : simulates tx m -> Call_work call tx = (tx', Ok reply) ->
  exists m', simulates tx' m' /\ rtc step m m' /\
    (Model_call m call = (m', Ok reply) \/ tx_cut_short tx' m call m' reply).
Proof.
  intros Hs. destruct call as [priority body|peer|request|request answer]; cbn [Call_work Model_call].
  - destruct (Tx_author tx priority body) as [tx1 [e|]] eqn:Ha; intros [= <- <-].
    destruct (author_simulates _ _ _ _ _ _ Hs Ha) as (m' & Hm & Hs'). exists m'.
    split; [done|]. split; [by eapply write_steps|]. left. by rewrite Hm.
  - destruct (offer tx peer) as [r|] eqn:Ho; intros [= <- <-]. exists m. split; [done|]. split; [done|].
    left. by rewrite (offer_simulates _ _ _ _ Hs Ho).
  - destruct (respond tx request) as [tx1 [r|]] eqn:Hr; intros [= <- <-].
    destruct (respond_simulates _ _ _ _ _ Hs Hr) as (m' & Hs' & [Hm|(a & -> & Hcut)]); exists m'; (split; [done|]).
    + split; [by eapply respond_steps|]. left. by rewrite Hm.
    + split; [by eapply prefix_steps|]. right. cbn. eexists _, _, _. split; [done|exact Hcut].
  - destruct (accept tx request answer) as [tx1 [r|]] eqn:Hr; intros [= <- <-].
    destruct (accept_simulates _ _ _ _ _ _ Hs Hr) as (m' & Hs' & [Hm|(a & -> & Hcut)]); exists m'; (split; [done|]).
    + split; [by eapply accept_steps|]. left. by rewrite Hm.
    + split; [by eapply prefix_steps|]. right. cbn. eexists _, _, _. split; [done|exact Hcut].
Qed.

Lemma call_raises call tx tx' reply : Call_work call tx = (tx', Ok reply) -> raises tx tx'.
Proof.
  destruct call as [priority body|peer|request|request answer]; cbn.
  - destruct (Tx_author tx priority body) as [tx1 [e|]] eqn:Ha; intros [= <- _]. by eapply author_raises.
  - by destruct (offer tx peer); intros [= <- _].
  - destruct (respond tx request) as [tx1 [r|]] eqn:Hr; intros [= <- _]. by eapply respond_raises.
  - destruct (accept tx request answer) as [tx1 [r|]] eqn:Hr; intros [= <- _]. by eapply accept_raises.
Qed.

#[export] Instance admissible_call call : Admissible (Call_work call).
Proof.
  intros tx m tx' reply Hs Hw. destruct (Call_simulates _ _ _ _ _ Hs Hw) as (m' & Hs' & Hm & _).
  exists m'. split; [done|]. split; [done|by eapply call_raises].
Qed.

Lemma transaction_admissible {T} (work : Act D S T) : transaction work -> Admissible work.
Proof. destruct 1; solve_admissible. Qed.

Lemma simulates_write tx tx' m : simulates tx m -> Tx_write tx' = Tx_write tx -> Tx_origin tx' = origin m ->
  simulates (D := D) tx' m.
Proof. intros [Ho Hst Hr Hroom] Hw Horigin. split; [congruence|done|by rewrite Hw..]. Qed.

(** *** Opening *)

(** Fresh tables hold nothing. *)
Definition fresh d := forall V (t : Table V) k, redb_get (D := D) (S := S) d t k = None.

Lemma empty_represents d o : (forall V (t : Table V) k, label t <> "meta"%string -> redb_get (D := D) (S := S) d t k = None) ->
  get_text d META "origin" = Some (as_str o) -> represents d (Model_new o).
Proof.
  intros Hd Ho. split; intros; cbn; rewrite ?lookup_empty.
  all: unfold usage, get_number.
  all: unfold view_stored, view_cursor, view_resolution, view_profile, view_room, view_activity, view_delivery,
    get_json, get_number; rewrite ?Hd by done; try done.
  - match goal with H : _ = Some _ |- _ => by rewrite Hd in H end.
  - match goal with H : _ = Some _ |- _ => by rewrite Hd in H end.
  - by left.
  - split; [done|]. intros (id & s & c & Hs & _). by rewrite lookup_empty in Hs.
Qed.

(** Only META changes when a store is opened, and the identity only if there was none. *)
Lemma initialize_ok formats entropy d d' o : initialize (S := S) formats entropy d = (d', Ok o) ->
  frame ["meta"]%string d d' /\ get_text d' META "origin" = Some (as_str o) /\
  get_text d' META "format" = Some (chat formats) /\
  match get_text d META "origin" with
  | Some text => Origin_try_from text = Ok o
  | None => o = Origin_from_entropy entropy
  end.
Proof.
  unfold initialize. intros H. apply write_bind_ok in H as (d1 & known & Hk & H).
  apply write_read_ok in Hk as [-> Hk]. apply write_bind_ok in H as (d2 & found & Hf & H).
  apply write_read_ok in Hf as [-> [= <-]]. apply write_bind_ok in H as (d3 & [] & Hformat & H).
  assert (H3 : frame ["meta"]%string d d3 /\ get_text d3 META "format" = Some (chat formats) /\
    get_text d3 META "origin" = get_text d META "origin").
  { destruct (get_text d META "format") as [f|] eqn:Hf.
    - destruct (negb (compatible_chat formats f)); [done|].
      case_bool_decide as Hc; cbn [negb] in Hformat.
      + apply write_ok_ok in Hformat as [-> _]. subst f. split; [apply frame_refl|done].
      + apply table_insert_ok in Hformat. unfold get_text in *. split; [frames|]. split; by db_lookup.
    - destruct known; [done|]. apply table_insert_ok in Hformat. unfold get_text in *.
      split; [frames|]. split; by db_lookup. }
  destruct H3 as (Hframe & Hfmt & Hor). apply write_bind_ok in H as (d4 & text & Ht & H).
  apply write_read_ok in Ht as [-> [= <-]]. rewrite Hor in H.
  destruct (get_text d META "origin") as [text|] eqn:Horigin.
  - apply write_lift_ok in H as [-> H]. destruct (Origin_try_from text) as [o'|] eqn:Hparse; [|done].
    injection H as ->. split; [done|]. split; [|done]. rewrite Hor.
    apply Validated_try_from_ok in Hparse. by rewrite Hparse.
  - apply write_bind_ok in H as (d5 & [] & Hi & H). apply write_ok_ok in H as [-> ->].
    apply table_insert_ok in Hi. unfold get_text in *. split; [frames|]. split; [|split; [|done]].
    + by db_lookup.
    + by db_lookup.
Qed.

Lemma open_ok formats entropy d bell d' store : Store_open_in formats entropy d bell = (d', Ok store) ->
  exists o, initialize (S := S) formats entropy d = (Store_database store, Ok o) /\ Store_origin store = o /\
    d' = Store_database store /\ Store_bell store = bell.
Proof.
  unfold Store_open_in. destruct (initialize formats entropy d) as [w [o|]] eqn:Hi; [|done].
  destruct (redb_commit w) as [[]|]; [|done]. intros [= <- <-]. eauto.
Qed.

Lemma open_fresh formats entropy d bell d' store : fresh d ->
  Store_open_in formats entropy d bell = (d', Ok store) -> implements store (Model_new (Store_origin store)).
Proof.
  intros Hd (o & Hi & Ho & _)%open_ok. apply initialize_ok in Hi as (Hf & Hor & _).
  assert (Hempty : forall V (t : Table V) k, label t <> "meta"%string -> redb_get (Store_database store) t k = None).
  { intros V t k Hl. rewrite Hf by (cbn; by apply String.eqb_neq in Hl as ->). apply Hd. }
  split; [done|constructor|apply empty_represents; [done|by rewrite Ho]|].
  unfold usage, get_number. cbn. by rewrite !Hempty.
Qed.

Lemma frame_represents d d' m : frame ["meta"]%string d d' -> get_text d' META "origin" = Some (as_str (origin m)) ->
  represents d m -> represents d' m.
Proof.
  intros Hframe Hor [_ He Hc Hu Hk Ha Hres Hp Hmc Hro Hact Ho Hors Hst Hd Hrd Hth].
  assert (Hf : forall V (t : Table V) k, label t <> "meta"%string -> redb_get d' t k = redb_get d t k).
  { intros V t k Hl. apply Hframe. cbn. by apply String.eqb_neq in Hl as ->. }
  split; intros; cbn.
  all: unfold usage, get_number, view_stored, view_cursor, view_resolution, view_profile, view_room, view_activity,
    view_delivery, get_json in *; rewrite ?Hf by done; try done.
  - apply Hors. by rewrite <- Hf by done.
  - apply Hst. by rewrite <- Hf by done.
Qed.

(** Opening a store again, by a build that knows its format, gives the same store. *)
Lemma open_again formats entropy store bell d' store' m : implements store m ->
  Store_open_in formats entropy (Store_database store) bell = (d', Ok store') ->
  implements store' m /\ Store_origin store' = Store_origin store.
Proof.
  intros Hs (o & Hi & Ho & _)%open_ok. apply initialize_ok in Hi as (Hf & Hor & _ & Hprev).
  pose proof (rp_identity _ _ (sm_represents _ _ Hs)) as Hid. cbn in Hid. rewrite Hid in Hprev.
  assert (Heq : o = origin m).
  { apply Validated_try_from_ok in Hprev. by apply as_str_inj. }
  pose proof (sm_origin _ _ Hs) as Hso. cbn in Hso. subst o. split; [|congruence].
  split; [cbn; congruence|apply (sm_steps _ _ Hs)| |].
  - eapply frame_represents; [exact Hf| |apply (sm_represents _ _ Hs)]. cbn. congruence.
  - pose proof (sm_room _ _ Hs) as Hroom. unfold usage, get_number in *. cbn in *. by rewrite !Hf.
Qed.

(** *** Runs *)

(** The stores a machine can have from which no conversation was cleaned: opened fresh, opened again, and
    after any transaction, failed ones too.  After a cleaning the store holds tombstones, which the
    reference ledger does not know. *)
Inductive store_reached (formats : Formats) : Store D -> Prop :=
| reached_fresh entropy d bell d' store : fresh d ->
    Store_open_in formats entropy d bell = (d', Ok store) -> store_reached formats store
| reached_again entropy bell store d' store' : store_reached formats store ->
    Store_open_in formats entropy (Store_database store) bell = (d', Ok store') ->
    store_reached formats store'
| reached_write T rung (work : Act D S T) store store' r : store_reached formats store ->
    transaction work -> Store_write rung store work = (store', r) -> store_reached formats store'.

Lemma call_implements rung store call store' r m : implements store m ->
  Store_call rung store call = (store', r) ->
  exists m', implements store' m' /\ rtc step m m' /\
    forall reply, r = Ok reply -> Model_call m call = (m', Ok reply) \/ cut_short store' m call m' reply.
Proof.
  intros Hs. rewrite Store_call_write.
  intros [[-> Hr]|(_ & tx' & v & Hw & _ & Hd & Ho & Hr)]%Store_write_cases.
  { exists m. split; [done|]. split; [done|]. by intros reply ->. }
  destruct (Call_simulates _ _ _ _ _ Hs Hw) as (m' & Hs' & Hst & Hm). exists m'.
  split; [|split; [done|]].
  - unfold implements. eapply simulates_write; [exact Hs'|done|]. cbn.
    rewrite Ho, (steps_origin _ _ Hst). apply (sm_origin _ _ Hs).
  - intros reply Hreply. assert (v = reply) as ->.
    { destruct Hr as [[-> _]|(_ & (e & _ & ->) & _)]; [by injection Hreply|done]. }
    destruct Hm as [Hm|(from & batch & claimed & Hb & Hrej & Hfull & es1 & es2 & m1 & received & -> & H)];
      [by left|right].
    split; [done|]. split; [by rewrite Hd|]. by exists from, (es1 ++ es2), claimed, es1, es2, m1, received.
Qed.

Lemma write_implements {T} rung store (work : Act D S T) store' r m : Admissible work ->
  implements store m -> Store_write rung store work = (store', r) ->
  exists m', implements store' m' /\ rtc step m m'.
Proof.
  intros Hadm Hs [[-> _]|(_ & tx' & v & Hw & _ & Hd & Ho & _)]%Store_write_cases; [by exists m|].
  destruct (Hadm _ _ _ _ Hs Hw) as (m' & Hs' & Hst & _). exists m'. split; [|done].
  unfold implements. eapply simulates_write; [exact Hs'|done|]. cbn.
  rewrite Ho, (steps_origin _ _ Hst). apply (sm_origin _ _ Hs).
Qed.

Lemma reached_implements formats store : store_reached formats store -> exists m, implements store m.
Proof.
  induction 1 as [entropy d bell d' store Hd Ho|entropy bell store d' store' Hr IH Ho
    |T rung work store store' r Hr IH Hw Hc].
  - eexists. by eapply open_fresh.
  - destruct IH as [m Hm]. exists m. by eapply open_again.
  - destruct IH as [m Hm]. apply transaction_admissible in Hw.
    destruct (write_implements _ _ _ _ _ _ Hw Hm Hc) as (m' & Hm' & _). by exists m'.
Qed.

(** *** What two ledgers with one history share *)

Lemma implements_events store m id : implements store m ->
  view_stored (S := S) (Store_database store) id = Ok (stored_of <$> (Model.events m !! id)).
Proof. intros H. apply (rp_events _ _ (sm_represents _ _ H)). Qed.

Lemma same_events store1 m1 store2 m2 : implements store1 m1 -> implements store2 m2 ->
  (forall id, view_stored (S := S) (Store_database store1) id = view_stored (Store_database store2) id) ->
  Model.events m1 = Model.events m2.
Proof.
  intros H1 H2 Hsame. apply map_eq. intros id. specialize (Hsame id).
  rewrite (implements_events _ _ _ H1), (implements_events _ _ _ H2) in Hsame. injection Hsame as Hsame.
  destruct (Model.events m1 !! id) as [s1|] eqn:E1, (Model.events m2 !! id) as [s2|] eqn:E2; try done.
  cbn in Hsame. injection Hsame as He _.
  destruct (h_key _ (sm_history _ _ H1) _ _ E1) as [_ Hs1].
  destruct (h_key _ (sm_history _ _ H2) _ _ E2) as [_ Hs2]. congruence.
Qed.

(** ** Properties *)

(** C7: the chat store implements the reference ledger.  Take a machine's store from which no
    conversation has been cleaned, whatever else it has been through: opened, written, exchanged with,
    failed in the middle.  Its tables hold a ledger of chat/model.rs.  Any further transaction of the
    program, whether it succeeds or not, moves that ledger by steps the reference allows; one that
    authors, offers, responds or accepts answers what the reference answers, except that a store with
    no room left takes a prefix of the batch, as the reference would take it, and reports the limit.
    Cleaning a conversation, which the reference does not have, either leaves the store as it was or
    turns exactly the events of the conversation into tombstones that keep their clocks and digests;
    the counters then are those of the events that are left, every table with a derived view is
    as it was, and no event is cleaned that someone still has to come back to.  Of what a store does
    after that nothing is said. *)
Theorem store_refines_model (formats : Formats) store (reached : store_reached formats store) :
  exists m, implements store m /\
    (forall T rung (work : Act D S T) store' r, transaction work -> Store_write rung store work = (store', r) ->
      exists m', implements store' m' /\ rtc step m m') /\
    (forall rung call store' r, Store_call rung store call = (store', r) ->
      exists m', implements store' m' /\ rtc step m m' /\
        forall reply, r = Ok reply ->
          Model_call m call = (m', Ok reply) \/ cut_short store' m call m' reply) /\
    (forall compacted conversation store' r, Store_clean compacted store conversation = (store', r) ->
      store' = store /\ is_ok r = false \/
      cleaned (Store_database store) m conversation (Store_database store') /\
      Store_origin store' = Store_origin store /\ Store_bell store' = Store_bell store /\
      exists n, n + N.of_nat (size (left_by conversation (Model.events m))) = N.of_nat (size (Model.events m)) /\
        r = match compacted with Ok _ => Ok n | Err e => Err (StoreError_Storage e) end).
Proof.
  apply reached_implements in reached as [m Hm]. exists m. split; [done|]. split; [|split].
  - intros T rung work store' r Hw%transaction_admissible Hc. by eapply write_implements.
  - intros rung call store' r Hc. by apply (call_implements _ _ _ _ _ _ Hm Hc).
  - intros compacted conversation store' r Hc. by eapply Store_clean_cases.
Qed.

(** C17: a transaction happens as a whole or not at all.  One that fails leaves the store exactly as it
    was, except for one that has committed and then could not ring the doorbell: its events are kept,
    only the doorbell stays as it was.  One that succeeds has committed what its body wrote, and when
    that includes an event it has rung a doorbell that everyone waiting since any earlier generation
    hears. *)
Theorem transaction_is_atomic {T} (formats : Formats) rung (work : Act D S T) store store' r
    (reached : store_reached formats store) (known_work : transaction work)
    (ran : Store_write rung store work = (store', r)) :
  match r with
  | Err e =>
      store' = store \/
      exists fault tx' v, rung = Err fault /\ e = StoreError_State fault /\
        work (mkTx (Store_database store) (Store_origin store) false) = (tx', Ok v) /\
        store' = mkStore (Tx_write tx') (Store_origin store) (Store_bell store)
  | Ok v =>
      exists tx', work (mkTx (Store_database store) (Store_origin store) false) = (tx', Ok v) /\
        Store_database store' = Tx_write tx' /\ Store_origin store' = Store_origin store /\
        if Tx_appended tx'
        then forall known, known <= get_number (Store_database store) COUNTERS "generation" ->
          exists heard, bell_beyond (Store_bell store') known = Some heard /\
            heard = get_number (Store_database store') COUNTERS "generation"
        else Store_bell store' = Store_bell store
  end.
Proof.
  apply reached_implements in reached as [m Hs]. apply transaction_admissible in known_work.
  apply Store_write_cases in ran as [[-> Hr]|(_ & tx' & v & Hw & _ & Hd & Ho & Hr)]; [destruct r; [done|by left]|].
  destruct Hr as [[-> Hbell]|(Happ & (e & -> & ->) & Hbell)].
  - exists tx'. split; [done|]. split; [done|]. split; [done|].
    destruct (known_work _ _ _ _ Hs Hw) as (m' & _ & _ & _ & Hraise).
    destruct (Tx_appended tx'); [|done]. intros known Hk.
    destruct (Hraise eq_refl) as [|Hgt]; [done|]. eexists. rewrite Hbell. unfold bell_beyond. cbn.
    unfold Tx_generation in Hgt. cbn in Hgt.
    rewrite (proj2 (N.ltb_lt _ _)); [by rewrite Hd|]. unfold Tx_generation. lia.
  - right. exists e, tx', v. split; [done|]. split; [done|]. split; [done|]. destruct store'. cbn in *. by subst.
Qed.

(** C18: stores converge.  Take two machines' stores from which no conversation was cleaned, whatever
    else happened to them.  If they hold the same events, they give their users the same answers: how
    an ask ended, which asks are open and whom they wait for, profiles, machine cards, rooms and
    activities, and how far every history has come. *)
Theorem stores_converge (formats1 formats2 : Formats) store1 store2
    (reached1 : store_reached formats1 store1) (reached2 : store_reached formats2 store2)
    (same : forall id, view_stored (S := S) (Store_database store1) id = view_stored (Store_database store2) id) :
  let d1 := Store_database store1 in let d2 := Store_database store2 in
  (forall r, view_resolution (S := S) d1 r = view_resolution d2 r) /\
  (forall id a, redb_get d1 OPEN (event_key id) = Some (AgentId_fmt a) <->
                redb_get d2 OPEN (event_key id) = Some (AgentId_fmt a)) /\
  (forall a, view_profile (S := S) d1 a = view_profile d2 a) /\
  (forall o : Origin, get_json (S := S) (T := MachineCard) d1 MACHINES (as_str o) = get_json d2 MACHINES (as_str o)) /\
  (forall r, view_room (S := S) d1 r = view_room d2 r) /\
  (forall a, view_activity (S := S) d1 a = view_activity d2 a) /\
  (forall o, view_cursor d1 o = view_cursor d2 o) /\
  (forall a id, is_Some (redb_get d1 HANDOFF_READS (delivery_key a id)) <->
                is_Some (redb_get d2 HANDOFF_READS (delivery_key a id))) /\
  usage d1 = usage d2.
Proof.
  apply reached_implements in reached1 as [m1 H1], reached2 as [m2 H2]. cbn.
  pose proof (same_events _ _ _ _ H1 H2 same) as He.
  destruct (derived_unique _ _ (sm_derived _ _ H1) (sm_derived _ _ H2) He)
    as (Hres & Hopen & _ & _ & Hreads & Hprof & Hmach & Hroom & Hact).
  pose proof (fun o => cursor_unique _ _ o (sm_history _ _ H1) (sm_history _ _ H2) He) as Hcur.
  apply sm_represents in H1, H2. cbn in H1, H2. repeat split; intros.
  - by rewrite (rp_resolution _ _ H1), (rp_resolution _ _ H2), Hres.
  - apply (rp_open _ _ H2). rewrite <- Hopen. by apply (rp_open _ _ H1).
  - apply (rp_open _ _ H1). rewrite Hopen. by apply (rp_open _ _ H2).
  - by rewrite (rp_profile _ _ H1), (rp_profile _ _ H2), Hprof.
  - by rewrite (rp_machine _ _ H1), (rp_machine _ _ H2), Hmach.
  - by rewrite (rp_room _ _ H1), (rp_room _ _ H2), Hroom.
  - by rewrite (rp_activity _ _ H1), (rp_activity _ _ H2), Hact.
  - by rewrite (rp_cursor _ _ H1), (rp_cursor _ _ H2), Hcur.
  - apply (rp_reads _ _ H2). rewrite <- Hreads. by apply (rp_reads _ _ H1).
  - apply (rp_reads _ _ H1). rewrite Hreads. by apply (rp_reads _ _ H2).
  - by rewrite (rp_usage _ _ H1), (rp_usage _ _ H2), He.
Qed.

(** Every event of the store can be read, they are those of [E], and the counters say how many there are and how many
    bytes their encodings take. *)
Definition counts store (E : gmap EventId Sealed) : Prop :=
  (forall id, is_ok (view_stored (S := S) (Store_database store) id) = true) /\
  (forall id event encoded, view_stored (S := S) (Store_database store) id = Ok (Some (Stored_Event event encoded)) <->
     exists s, E !! id = Some s /\ Sealed_event s = event /\ Sealed_encoded s = encoded) /\
  usage (Store_database store) = mkUsage (N.of_nat (size E)) (stored_bytes E).

Lemma implements_counts store m : implements store m -> counts store (Model.events m).
Proof.
  intros Hm. split; [intros id; by rewrite (implements_events _ _ _ Hm)|].
  split; [|apply (rp_usage _ _ (sm_represents _ _ Hm))]. intros id event encoded.
  rewrite (implements_events _ _ _ Hm). destruct (Model.events m !! id) as [s|]; cbn; [|naive_solver].
  unfold stored_of. split; [intros [= <- <-]; by exists s|]. by intros (s' & [= <-] & <- & <-).
Qed.

Lemma cleaned_counts store m conversation store' :
  cleaned (S := S) (Store_database store) m conversation (Store_database store') ->
  counts store' (left_by conversation (Model.events m)).
Proof.
  intros Hc. split; [intros id; by rewrite (cl_stored _ _ _ _ Hc)|].
  split; [|apply (cl_usage _ _ _ _ Hc)]. intros id event encoded. rewrite (cl_stored _ _ _ _ Hc).
  unfold left_by. split.
  - destruct (Model.events m !! id) as [s|] eqn:Hs; [|done]. cbn. unfold swept. case_decide as Hb; [done|].
    intros [= <- <-]. exists s. by rewrite map_lookup_filter_Some.
  - intros (s & [Hs Hb]%map_lookup_filter_Some & <- & <-). rewrite Hs. cbn in *. unfold swept. by rewrite decide_False.
Qed.

(** C19: the store keeps count of itself and within its limits.  Of a store from which no conversation was
    cleaned, the counters are the number of the events it holds and the bytes of their encodings, at
    most 400,000 events and less than one GiB and one event; and they still are, of the events that are
    left, right after a conversation is cleaned from it, whether or not the cleaning succeeds. *)
Theorem usage_is_what_is_stored (formats : Formats) store (reached : store_reached formats store) :
  (exists E, counts store E /\
    N.of_nat (size E) <= 400000 /\ stored_bytes E < 1024 * 1024 * 1024 + MAX_EVENT_BYTES) /\
  (forall compacted conversation store' r, Store_clean compacted store conversation = (store', r) ->
    exists E, counts store' E /\
      N.of_nat (size E) <= 400000 /\ stored_bytes E < 1024 * 1024 * 1024 + MAX_EVENT_BYTES).
Proof.
  apply reached_implements in reached as [m Hm].
  pose proof (implements_counts _ _ Hm) as Hcounts. pose proof (sm_room _ _ Hm) as Hroom. cbn [Tx_write] in Hroom.
  rewrite (proj2 (proj2 Hcounts)) in Hroom. assert (Hbounds : exists E, counts store E /\
    N.of_nat (size E) <= 400000 /\ stored_bytes E < 1024 * 1024 * 1024 + MAX_EVENT_BYTES) by (exists (Model.events m); done).
  split; [done|]. intros compacted conversation store' r Hclean.
  destruct (Store_clean_cases _ _ _ _ _ _ Hm Hclean) as [[-> _]|(Hc & _)]; [done|].
  exists (left_by conversation (Model.events m)). split; [by eapply cleaned_counts|].
  destruct (left_by_le conversation (Model.events m)) as [Hsize Hbytes]. cbn in Hroom. lia.
Qed.
End runs.
