(* ===== verification/StoreSamples.v ===== *)
(** A database in memory: an instance of what the chat store asks of redb, with a write that fails when it is told
    to, and an encoding of a few records.  Two stores in it: machine A asks, machine B answers, and they exchange. *)

From Stdlib Require Import NArith Lia String Ascii Sorted Relations.
From stdpp Require Import base gmap list strings relations.
From S2P Require Import Prelude SortedLists RustStr Ids AgentLists Notification Handoff Event Ledger.
From S2P Require Import Policy ChatWire Exchange Model Samples History Convergence Sync Wire.
From S2P Require Import Database Views Tx StoreRefinement Acts Admin Ops StoreRuns.

(** ** Definitions *)

Record Memory := mkMemory {
  texts : TextTable -> gmap string string;
  numbers : NumberTable -> gmap string N;
  cursor_rows : gmap string (N * N);
  tombstone_rows : gmap string (N * list N);
  writes_left : option nat
}.

Definition rows {V} (d : Memory) (t : Table V) : gmap string V :=
  match t in Table V return gmap string V with
  | Text_table t => texts d t
  | Number_table t => numbers d t
  | CURSORS => cursor_rows d
  | TOMBSTONES => tombstone_rows d
  end.

Definition set_rows {V} (d : Memory) (t : Table V) : gmap string V -> Memory :=
  match t in Table V return gmap string V -> Memory with
  | Text_table t => fun r =>
      mkMemory (fun u => if decide (u = t) then r else texts d u) (numbers d) (cursor_rows d)
        (tombstone_rows d) (writes_left d)
  | Number_table t => fun r =>
      mkMemory (texts d) (fun u => if decide (u = t) then r else numbers d u) (cursor_rows d)
        (tombstone_rows d) (writes_left d)
  | CURSORS => fun r => mkMemory (texts d) (numbers d) r (tombstone_rows d) (writes_left d)
  | TOMBSTONES => fun r => mkMemory (texts d) (numbers d) (cursor_rows d) r (writes_left d)
  end.

(** One write less until the fault. *)
Definition spend (d : Memory) : option Memory :=
  match writes_left d with
  | Some O => None
  | Some (S n) =>
      Some (mkMemory (texts d) (numbers d) (cursor_rows d) (tombstone_rows d) (Some n))
  | None => Some d
  end.

Definition rows_in_order {V} (m : gmap string V) : list (string * V) :=
  omap (fun k => pair k <$> (m !! k)) (btree_keys m).

#[export] Instance Memory_Redb : Redb Memory string := {
  redb_get V d t k := rows d t !! k;
  redb_iter V d t := rows_in_order (rows d t);
  redb_insert V d t k v :=
    match spend d with
    | Some d => (set_rows d t (<[k := v]> (rows d t)), Ok tt)
    | None => (d, Err "disk full"%string)
    end;
  redb_remove V d t k :=
    match spend d with
    | Some d => (set_rows d t (delete k (rows d t)), Ok (rows d t !! k))
    | None => (d, Err "disk full"%string)
    end;
  redb_commit d := Ok tt
}.

Definition Memory_empty : Memory := mkMemory (fun _ => ∅) (fun _ => ∅) ∅ ∅ None.
Definition Memory_failing_after (n : nat) (d : Memory) : Memory :=
  mkMemory (texts d) (numbers d) (cursor_rows d) (tombstone_rows d) (Some n).

(** An encoding of the values of a list, by their position. *)
Fixpoint marks (n : nat) : string :=
  match n with O => EmptyString | S n => String "x" (marks n) end.
Fixpoint position {T} `{EqDecision T} (l : list T) (v : T) : option nat :=
  match l with
  | [] => None
  | w :: l => if decide (w = v) then Some O else S <$> position l v
  end.

Definition position_below {T} `{EqDecision T} (l : list T) (v : T) : option nat :=
  match position l v with
  | Some i => if bool_decide (i < 1000)%nat then Some i else None
  | None => None
  end.

Definition listed_Json {T} `{EqDecision T} (l : list T) : Json T := {|
  json_to_string v := marks <$> position_below l v;
  json_from_str s := l !! String.length s
|}.

(** ** Lemmas *)

Lemma rows_set {V W} (d : Memory) (t : Table V) (u : Table W) m :
  label u <> label t -> rows (set_rows d t m) u = rows d u.
Proof.
  destruct t as [t|t| |], u as [u|u| |]; cbn; try done; intros Hl; case_decide; by subst.
Qed.

Lemma rows_set_same {V} (d : Memory) (t : Table V) m : rows (set_rows d t m) t = m.
Proof. destruct t; cbn; try done; by rewrite decide_True. Qed.

Lemma spend_rows {V} (d d' : Memory) (t : Table V) : spend d = Some d' -> rows d' t = rows d t.
Proof. unfold spend. destruct (writes_left d) as [[|n]|]; [done|..]; intros [= <-]; [by destruct t|done]. Qed.

Lemma rows_in_order_elem {V} (m : gmap string V) k v : (k, v) ∈ rows_in_order m <-> m !! k = Some v.
Proof.
  unfold rows_in_order. rewrite list_elem_of_omap. split.
  - intros (k' & _ & H). apply fmap_Some in H as (v' & H & [= -> ->]). done.
  - intros H. exists k. split; [apply btree_keys_elem; eauto|]. by rewrite H.
Qed.

Lemma rows_in_order_keys {V} (m : gmap string V) : map fst (rows_in_order m) = btree_keys m.
Proof.
  unfold rows_in_order. assert (H : forall k, k ∈ btree_keys m -> is_Some (m !! k)) by (intros k; apply btree_keys_elem).
  induction (btree_keys m) as [|k l IH]; [done|]. cbn. destruct (H k) as [v ->]; [left|]. cbn.
  f_equal. apply IH. intros k' Hk'. apply H. by right.
Qed.

#[export] Instance Memory_RedbLaws : RedbLaws Memory string.
Proof.
  split.
  - intros V d t. cbn. rewrite rows_in_order_keys. apply btree_keys_sorted.
  - intros V d t k v. apply rows_in_order_elem.
  - intros V d d' t k v. cbn. destruct (spend d) as [d1|] eqn:Hs; intros [= <-]. intros k'.
    rewrite rows_set_same, (spend_rows _ _ _ Hs). case_decide as Hk.
    + subst. by rewrite lookup_insert_eq.
    + by rewrite lookup_insert_ne by congruence.
  - intros V W d d' t u k v. cbn. destruct (spend d) as [d1|] eqn:Hs; intros [= <-] Hl k'.
    by rewrite rows_set, (spend_rows _ _ _ Hs).
  - intros V d d' t k o. cbn. destruct (spend d) as [d1|] eqn:Hs; intros [= <- <-].
    rewrite (spend_rows _ _ _ Hs). split; [done|]. intros k'. rewrite rows_set_same. case_decide as Hk.
    + subst. by rewrite lookup_delete_eq.
    + by rewrite lookup_delete_ne by congruence.
  - intros V W d d' t u k o. cbn. destruct (spend d) as [d1|] eqn:Hs; intros [= <- _] Hl k'.
    by rewrite rows_set, (spend_rows _ _ _ Hs).
Qed.

Lemma marks_length n : String.length (marks n) = n.
Proof. induction n; cbn; congruence. Qed.

Lemma position_lookup {T} `{EqDecision T} (l : list T) v i : position l v = Some i -> l !! i = Some v.
Proof.
  revert i. induction l as [|w l IH]; intros i; cbn; [done|]. case_decide as H.
  - intros [= <-]. by subst.
  - intros (j & Hj & ->)%fmap_Some. by apply IH.
Qed.

Lemma position_below_lookup {T} `{EqDecision T} (l : list T) v i :
  position_below l v = Some i -> l !! i = Some v /\ (i < 1000)%nat.
Proof.
  unfold position_below. destruct (position l v) as [j|] eqn:Hj; [|done].
  case_bool_decide; [|done]. intros [= <-]. split; [by apply position_lookup|done].
Qed.

Lemma listed_JsonLaws {T} `{EqDecision T} (l : list T) : @JsonLaws T (listed_Json l).
Proof.
  split; cbn; intros v s (i & [Hi Hlt]%position_below_lookup & ->)%fmap_Some.
  - by rewrite marks_length.
  - unfold str_len. rewrite marks_length. unfold MAX_RECORD. lia.
Qed.

(** ** Definitions *)

#[export] Instance memory_codec : Codec := {
  to_string e := marks <$> position_below [ask_event; answer_event] e;
  blake3_hash l := take 32 (l ++ replicate 32 0)
}.

Definition answered : Resolution := {|
  Resolution_event := Event_id answer_event;
  Resolution_clock := 2;
  Resolution_ending := Ending_Answered;
  Resolution_asker := alice_a;
  Resolution_responder := bob_b
|}.

#[export] Instance memory_store_codec : StoreCodec := {
  Event_from_str s := [ask_event; answer_event] !! String.length s;
  Resolution_Json := listed_Json [answered];
  Card_Json := listed_Json [];
  MachineCard_Json := listed_Json [];
  Room_Json := listed_Json [];
  Delivery_Json := listed_Json [Delivery_Delivered; Delivery_Read; Delivery_Acknowledged];
  Activity_Json := listed_Json [];
  Descriptor_Json := listed_Json [];
  LocalAgent_Json := listed_Json []
}.

#[export] Instance memory_store_laws : StoreCodecLaws.
Proof.
  split; [| |apply listed_JsonLaws..].
  - intros e s (i & [Hi _]%position_below_lookup & ->)%fmap_Some. cbn. by rewrite marks_length.
  - intros l. change (length (take 32 (l ++ replicate 32 0)) = 32%nat). rewrite length_take, length_app, length_replicate. lia.
Qed.

Definition sample_formats : Formats := mkFormats "chat-3" "chat-2" "chat-1".

Definition opened (entropy : list N) : Store Memory :=
  match (Store_open_in sample_formats entropy Memory_empty None).2 with
  | Ok store => store
  | Err _ => mkStore Memory_empty machine_a None
  end.

Definition rung : result unit string := Ok tt.

(** One round of an exchange that [s1] begins. *)
Definition exchange_round (s1 s2 : Store Memory) : Store Memory * Store Memory :=
  match Store_offer rung s1 (Store_origin s2) with
  | (s1, Ok (Ok request)) =>
      match Store_respond rung s2 request with
      | (s2, Ok (Ok answer)) => ((Store_accept rung s1 request answer).1, s2)
      | (s2, _) => (s1, s2)
      end
  | (s1, _) => (s1, s2)
  end.

Definition sa_open : Store Memory := opened (replicate 16 170).
Definition sa0 : Store Memory := (Store_author rung sa_open Priority_Ordinary ask_body).1.
Definition sb0 : Store Memory := opened (replicate 16 187).
Definition sab1 : Store Memory * Store Memory := exchange_round sa0 sb0.
Definition sb1 : Store Memory := (Store_author rung sab1.2 Priority_Ordinary answer_body).1.
Definition sab2 : Store Memory * Store Memory := exchange_round sab1.1 sb1.
Definition sa2 : Store Memory := sab2.1.
Definition sb2 : Store Memory := sab2.2.

Example stores_run :
  (as_str (Store_origin sa2), as_str (Store_origin sb2)) = (as_str machine_a, as_str machine_b) /\
  (usage (Store_database sa2), usage (Store_database sb2)) = (mkUsage 2 1, mkUsage 2 1) /\
  redb_iter (Store_database sa2) ORDER = redb_iter (Store_database sb2) ORDER /\
  Store_bell sa2 = Some 2.
Proof. vm_compute. done. Qed.

(** ** The theorems of StoreRuns.v on the samples *)

#[export] Instance memory_links : Json Link := {| json_to_string _ := None; json_from_str _ := None |}.

Lemma opened_reached entropy :
  is_ok (Store_open_in sample_formats entropy Memory_empty None).2 = true ->
  store_reached sample_formats (opened entropy).
Proof.
  unfold opened. destruct (Store_open_in _ _ _ _) as [d [store|]] eqn:Ho; [|done]. intros _.
  eapply reached_fresh; [|exact Ho]. intros V [t|t| |] k; reflexivity.
Qed.

Lemma call_reached call s : store_reached sample_formats s ->
  store_reached sample_formats (Store_call rung s call).1.
Proof.
  intros H. rewrite Store_call_write.
  exact (reached_write sample_formats _ rung _ s _ _ H (transaction_call call) (surjective_pairing _)).
Qed.

Lemma author_reached s priority body : store_reached sample_formats s ->
  store_reached sample_formats (Store_author rung s priority body).1.
Proof.
  intros H%(call_reached (Call_author priority body)). revert H. cbn.
  by destruct (Store_author rung s priority body).
Qed.

Lemma exchange_reached s1 s2 : store_reached sample_formats s1 -> store_reached sample_formats s2 ->
  store_reached sample_formats (exchange_round s1 s2).1 /\ store_reached sample_formats (exchange_round s1 s2).2.
Proof.
  intros H1 H2. unfold exchange_round.
  assert (Ho : store_reached sample_formats (Store_offer rung s1 (Store_origin s2)).1).
  { apply (call_reached (Call_offer (Store_origin s2))) in H1. revert H1. cbn.
    by destruct (Store_offer _ _ _). }
  destruct (Store_offer rung s1 (Store_origin s2)) as [s3 [[request|]|]]; try done. cbn in Ho.
  assert (Hr : store_reached sample_formats (Store_respond rung s2 request).1).
  { apply (call_reached (Call_respond request)) in H2. revert H2. cbn.
    by destruct (Store_respond _ _ _). }
  destruct (Store_respond rung s2 request) as [s4 [[answer|]|]]; try done. cbn in Hr. split; [|done].
  apply (call_reached (Call_accept request answer)) in Ho. revert Ho. cbn.
  by destruct (Store_accept _ _ _ _).
Qed.

Lemma samples_reached :
  store_reached sample_formats sa2 /\ store_reached sample_formats sb2.
Proof.
  assert (Ha : store_reached sample_formats sa0) by (apply author_reached, opened_reached; vm_compute; reflexivity).
  assert (Hb : store_reached sample_formats sb0) by (apply opened_reached; vm_compute; reflexivity).
  destruct (exchange_reached _ _ Ha Hb) as [Ha1 Hb1]. apply exchange_reached; [exact Ha1|].
  apply author_reached. exact Hb1.
Qed.

(** The conversation is cleaned once both machines hold it. *)
Definition swept_store : Store Memory * result N (StoreError string) :=
  Store_clean (Ok tt) sa2 (Conversation_Direct alice_bob).

Lemma store_refines_model_witness :
  Store_bell sa2 = Some 2 /\ swept_store.2 = Ok 2 /\
  exists m m1 m2 reply, implements sa2 m /\ implements (Store_author rung sa2 Priority_Ordinary ask_body).1 m1 /\
    implements (Store_unpin rung sa2 "bob").1 m2 /\
    Model_call m (Call_offer machine_b) = (m, Ok reply) /\
    cleaned (S := string) (Store_database sa2) m (Conversation_Direct alice_bob) (Store_database swept_store.1).
Proof.
  split; [vm_compute; reflexivity|].
  assert (Hswept : swept_store.2 = Ok 2) by (vm_compute; reflexivity). split; [exact Hswept|].
  destruct (store_refines_model sample_formats sa2 (proj1 samples_reached)) as (m & Hm & Hwork & Hcall & Hclean).
  destruct (Hcall rung (Call_author Priority_Ordinary ask_body) _ _ (surjective_pairing _)) as (m1 & Hm1 & _).
  destruct (Hwork _ rung _ _ _ (transaction_unpin "bob") (surjective_pairing _)) as (m2 & Hm2 & _).
  exists m, m1, m2, (Reply_offer (Model_offer m machine_b)). split; [exact Hm|]. split; [|split; [exact Hm2|split; [reflexivity|]]].
  - revert Hm1. cbn. destruct (Store_author rung sa2 Priority_Ordinary ask_body). exact (fun H => H).
  - destruct (Hclean (Ok tt) (Conversation_Direct alice_bob) _ _ (surjective_pairing _)) as [[_ Hr]|[Hc _]]; [|exact Hc].
    fold swept_store in Hr. rewrite Hswept in Hr. discriminate Hr.
Defined.

(** The doorbell cannot be rung, and can. *)
Definition asking : Act Memory string Reply := Call_work (Call_author Priority_Ordinary ask_body).

Lemma transaction_is_atomic_witness :
  usage (Store_database (Store_write (Err "no bell"%string) sa_open asking).1) = mkUsage 1 0 /\
  exists heard, bell_beyond (Store_bell (Store_write rung sa_open asking).1) 0 = Some heard.
Proof.
  split; [vm_compute; reflexivity|].
  assert (Hopen : store_reached sample_formats sa_open) by (apply opened_reached; vm_compute; reflexivity).
  assert (E : is_ok (Store_write rung sa_open asking).2 = true) by (vm_compute; reflexivity).
  pose proof (transaction_is_atomic sample_formats rung asking sa_open _ _ Hopen (transaction_call _)
    (surjective_pairing _)) as H.
  destruct ((Store_write rung sa_open asking).2) as [r|e]; [|discriminate E].
  destruct H as (tx & Hw & _ & _ & H).
  assert (Ha : Tx_appended tx = true).
  { apply (f_equal (fun p => Tx_appended p.1)) in Hw. cbn [fst] in Hw. rewrite <- Hw. vm_compute. reflexivity. }
  rewrite Ha in H. destruct (H 0 (N.le_0_l _)) as (heard & Hh & _). exists heard. exact Hh.
Defined.

Lemma stores_converge_witness :
  view_resolution (S := string) (Store_database sa2) ask_id = view_resolution (Store_database sb2) ask_id /\
  view_resolution (S := string) (Store_database sa2) ask_id = Ok (Some answered) /\
  redb_get (Store_database sa2) OPEN (event_key ask_id) = None.
Proof.
  split; [|split; vm_compute; reflexivity].
  apply (stores_converge (S := string) _ _ _ _ (proj1 samples_reached) (proj2 samples_reached)).
  assert (He : bool_decide (rows (Store_database sa2) EVENTS = rows (Store_database sb2) EVENTS) = true)
    by (vm_compute; reflexivity).
  assert (Ht : bool_decide (rows (Store_database sa2) TOMBSTONES = rows (Store_database sb2) TOMBSTONES) = true)
    by (vm_compute; reflexivity).
  apply bool_decide_eq_true_1 in He, Ht. intros id. unfold view_stored. cbn [redb_get Memory_Redb].
  rewrite He, Ht. reflexivity.
Defined.

Lemma usage_is_what_is_stored_witness :
  (exists E : gmap EventId Sealed, size E = 2%nat /\ counts (S := string) sa2 E) /\
  (exists E : gmap EventId Sealed, size E = 0%nat /\ counts (S := string) swept_store.1 E).
Proof.
  destruct (usage_is_what_is_stored sample_formats sa2 (proj1 samples_reached)) as [(E & Hc & _) Hclean].
  destruct (Hclean (Ok tt) (Conversation_Direct alice_bob) _ _ (surjective_pairing _)) as (E' & Hc' & _).
  split; [exists E|exists E']; (split; [|assumption]); apply Nat2N.inj.
  - assert (H : usage (Store_database sa2) = mkUsage 2 1) by (vm_compute; reflexivity).
    rewrite (proj2 (proj2 Hc)) in H. exact (f_equal Policy.events H).
  - assert (H : usage (Store_database swept_store.1) = mkUsage 0 0) by (vm_compute; reflexivity).
    fold swept_store in Hc'. rewrite (proj2 (proj2 Hc')) in H. exact (f_equal Policy.events H).
Defined.
