(* ===== verification/SourcePaths.v ===== *)
(** source_paths.rs with metadata.rs and read_length.rs: the NUL-terminated list of tracked files
    read under byte, file and path budgets, and the repository metadata left out of it. *)

From Stdlib Require Import NArith Lia String Ascii.
From stdpp Require Import base gmap list strings.
From S2P Require Import Prelude RustStr RustText Domain Wire.

(** ** Definitions *)

(** *** source_paths/metadata.rs *)

Definition METADATA : list string :=
  [".git"; ".jj"; ".hg"; ".svn"; ".pijul"; "_darcs"; ".bzr"; "CVS"]%string.

Definition metadata_bytes (component : list N) : bool :=
  match map to_ascii_lowercase component with
  | [_; _; _] as lowered =>
      existsb (fun name => bool_decide (lowered = bytes name)) [".jj"; ".hg"; "cvs"]%string
  | [_; _; _; _] as lowered =>
      existsb (fun name => bool_decide (lowered = bytes name)) [".git"; ".svn"; ".bzr"]%string
  | [_; _; _; _; _; _] as lowered =>
      existsb (fun name => bool_decide (lowered = bytes name)) [".pijul"; "_darcs"]%string
  | _ => false
  end.

Definition metadata_component (component : string) : bool := metadata_bytes (bytes component).

(** [slice::get(first..end)] *)
Definition get_range (l : list N) (first end_ : N) : option (list N) :=
  if (first <=? end_) && (end_ <=? N.of_nat (length l))
  then Some (take (N.to_nat (end_ - first)) (drop (N.to_nat first) l)) else None.

(** The loop over [end] from [0] to [bytes.len()]; [steps] are the iterations left. *)
Fixpoint metadata_loop (bytes : list N) (steps : nat) (first end_ : N) : bool :=
  match steps with
  | O => false
  | S steps =>
      match bytes !! N.to_nat end_ with
      | Some byte =>
          if byte =? byte_of "/" then
            if match get_range bytes first end_ with Some c => metadata_bytes c | None => false end
            then true
            else metadata_loop bytes steps (saturating_add usize_max end_ 1) (end_ + 1)
          else metadata_loop bytes steps first (end_ + 1)
      | None =>
          if match get_range bytes first end_ with Some c => metadata_bytes c | None => false end
          then true
          else metadata_loop bytes steps (saturating_add usize_max end_ 1) (end_ + 1)
      end
  end.

Definition metadata_path_str (path : string) : bool :=
  metadata_loop (bytes path) (S (length (bytes path))) 0 0.

(** *** source_paths/read_length.rs *)

Record ReadLength := mkReadLength { ReadLength_length : N }.
Definition ReadLength_new (length : N) : option ReadLength :=
  if length <=? MAX_SNAPSHOT_BYTES then Some (mkReadLength length) else None.
Definition ReadLength_limit (self : ReadLength) : N := saturating_add u64_max (ReadLength_length self) 1.
Definition ReadLength_matches (self : ReadLength) (actual : N) : bool := ReadLength_length self =? actual.

(** *** source_paths.rs *)

Definition MAX_FILES : N := 100000.
Definition MAX_PATH_BYTES : N := 16777216.
Definition MAX_TRACKED_BYTES : N := MAX_PATH_BYTES + MAX_FILES.
Definition MAX_RECORD_BYTES : N := 4096.

Inductive TrackedError :=
| TrackedError_Capacity | TrackedError_Empty | TrackedError_Unterminated | TrackedError_NotUtf8
| TrackedError_Invalid (invalid : DomainInvalid).

Record TrackedPaths := mkTrackedPaths { TrackedPaths_paths : list RelativePath }.

Definition metadata_path (path : RelativePath) : bool := metadata_path_str (as_str path).

Record PathBudget := mkPathBudget {
  PathBudget_bytes : N;
  records : N;
  record_bytes : N;
  path_bytes : N
}.
Definition PathBudget_default : PathBudget := mkPathBudget 0 0 0 0.

Inductive Boundary := Boundary_Byte | Boundary_Path.

Definition PathBudget_advance (self : PathBudget) (byte : N) :
  result (PathBudget * Boundary) TrackedError :=
  let? total := ok_or (checked_add usize_max (PathBudget_bytes self) 1) TrackedError_Capacity in
  if (MAX_TRACKED_BYTES <? total) || (MAX_FILES <=? records self) then Err TrackedError_Capacity else
  if byte =? 0 then
    if record_bytes self =? 0 then Err TrackedError_Empty else
    let? count := ok_or (checked_add usize_max (records self) 1) TrackedError_Capacity in
    Ok (mkPathBudget total count 0 (path_bytes self), Boundary_Path)
  else
  let? in_record := ok_or (checked_add usize_max (record_bytes self) 1) TrackedError_Capacity in
  let? in_paths := ok_or (checked_add usize_max (path_bytes self) 1) TrackedError_Capacity in
  if (MAX_RECORD_BYTES <? in_record) || (MAX_PATH_BYTES <? in_paths) then Err TrackedError_Capacity else
  Ok (mkPathBudget total (records self) in_record in_paths, Boundary_Byte).

Definition PathBudget_finish (self : PathBudget) : result unit TrackedError :=
  if record_bytes self =? 0 then Ok tt else Err TrackedError_Unterminated.

(** [String::from_utf8] *)
Definition string_from_utf8 (l : list N) : option string :=
  if utf8_valid l then Some (of_bytes l) else None.

(** The loop of [tracked_paths]. *)
Fixpoint tracked_loop (budget : PathBudget) (record : list N) (paths : list RelativePath)
    (bytes : list N) : result (PathBudget * list RelativePath) TrackedError :=
  match bytes with
  | [] => Ok (budget, paths)
  | byte :: bytes =>
      let? (budget, boundary) := PathBudget_advance budget byte in
      match boundary with
      | Boundary_Byte => tracked_loop budget (record ++ [byte]) paths bytes
      | Boundary_Path =>
          let? text := ok_or (string_from_utf8 record) TrackedError_NotUtf8 in
          let? path := map_err TrackedError_Invalid (RelativePath_try_from text) in
          tracked_loop budget [] (if negb (metadata_path path) then paths ++ [path] else paths) bytes
      end
  end.

Definition tracked_paths (bytes : list N) : result TrackedPaths TrackedError :=
  if MAX_TRACKED_BYTES <? N.of_nat (length bytes) then Err TrackedError_Capacity else
  let? (budget, paths) := tracked_loop PathBudget_default [] [] bytes in
  let? _ := PathBudget_finish budget in
  Ok (mkTrackedPaths paths).

(** ** Lemmas *)

(** ASCII bytes always stand for themselves. *)
Lemma next_char_rest l c rest : next_char l = Some (c, rest) ->
  exists front, l = front ++ rest /\ front <> [] /\ forall b, b ∈ front -> b < 128 -> b = c.
Proof.
  unfold next_char. destruct l as [|b0 r0]; [done|].
  destruct (N.ltb_spec b0 128) as [H|H].
  { intros [= -> ->]. exists [c]. split; [done|]. split; [done|]. intros b Hb _.
    by apply list_elem_of_singleton in Hb. }
  destruct r0 as [|b1 r1]; [done|]. unfold continuation.
  destruct (in_range 194 223 b0 && in_range 128 191 b1) eqn:E2.
  { rewrite andb_true_iff, !in_range_spec in E2. intros [= <- <-]. exists [b0; b1].
    split; [done|]. split; [done|]. set_unfold. intros b [->|[->|[]]]; lia. }
  destruct r1 as [|b2 r2]; [done|].
  match goal with |- context [if ?b then Some (?x, r2) else _] => destruct b eqn:E3 end.
  { rewrite !andb_true_iff, !in_range_spec in E3. intros [= <- <-]. exists [b0; b1; b2].
    split; [done|]. split; [done|]. set_unfold. intros b [->|[->|[->|[]]]]; lia. }
  destruct r2 as [|b3 r3]; [done|].
  match goal with |- context [if ?b then Some (?x, r3) else _] => destruct b eqn:E4 end; [|done].
  rewrite !andb_true_iff, !in_range_spec in E4. intros [= <- <-]. exists [b0; b1; b2; b3].
  split; [done|]. split; [done|]. set_unfold. intros b [->|[->|[->|[->|[]]]]]; lia.
Qed.

Lemma decode_fuel_ascii fuel l b :
  (length l <= fuel)%nat -> b < 128 -> b ∈ l -> Some b ∈ decode_fuel fuel l.
Proof.
  revert l. induction fuel as [|fuel IH]; intros l Hl Hb Hin.
  { destruct l; [by apply elem_of_nil in Hin|cbn in Hl; lia]. }
  destruct l as [|b0 rest]; [by apply elem_of_nil in Hin|]. cbn [decode_fuel].
  destruct (next_char (b0 :: rest)) as [[c rest']|] eqn:E.
  - apply next_char_rest in E as (front & Efront & Hne & Hfront).
    rewrite Efront in Hin. apply elem_of_app in Hin as [Hin|Hin].
    + rewrite (Hfront b Hin Hb). left.
    + right. apply IH; [|done|done]. apply (f_equal length) in Efront.
      rewrite length_app in Efront. destruct front; [done|]. cbn in *. lia.
  - apply elem_of_cons in Hin as [->|Hin].
    + unfold next_char in E. by rewrite (proj2 (N.ltb_lt _ _)) in E.
    + right. apply IH; [cbn in Hl; lia|done|done].
Qed.

Lemma chars_ascii s b : b < 128 -> b ∈ bytes s -> b ∈ chars s.
Proof.
  intros Hb Hin. unfold chars. apply list_elem_of_fmap. exists (Some b). split; [done|].
  by apply decode_fuel_ascii.
Qed.

Lemma split_bytes sep s b : b ∈ bytes s -> b <> N_of_ascii sep ->
  exists component, component ∈ split sep s /\ b ∈ bytes component.
Proof.
  intros Hin Hne. induction s as [|a s IH]; [by apply elem_of_nil in Hin|].
  rewrite bytes_cons in Hin. cbn [split]. destruct (Ascii.eqb_spec a sep) as [->|Ha].
  - apply elem_of_cons in Hin as [->|Hin]; [done|]. destruct (IH Hin) as (c & Hc & Hb).
    exists c. split; [by right|done].
  - destruct (split sep s) as [|first rest] eqn:E.
    + apply elem_of_cons in Hin as [->|Hin].
      * eexists. split; [left|]. rewrite bytes_cons. left.
      * destruct (IH Hin) as (c & Hc & _). by apply elem_of_nil in Hc.
    + apply elem_of_cons in Hin as [->|Hin].
      * eexists. split; [left|]. rewrite bytes_cons. left.
      * destruct (IH Hin) as (c & Hc & Hb). apply elem_of_cons in Hc as [->|Hc].
        -- eexists. split; [left|]. rewrite bytes_cons. by right.
        -- exists c. split; [by right|done].
Qed.

Lemma RelativePath_length (p : RelativePath) :
  0 < N.of_nat (length (bytes (as_str p))) <= 4096.
Proof.
  pose proof (as_str_check p) as H. apply check_relative_path_ok in H as (H & _).
  by rewrite <- str_len_bytes.
Qed.

Lemma RelativePath_no_nul (p : RelativePath) : 0 ∉ bytes (as_str p).
Proof.
  intros Hin. pose proof (as_str_check p) as H. apply check_relative_path_ok in H as (_ & _ & H).
  destruct (split_bytes "/" (as_str p) 0 Hin ltac:(done)) as (c & Hc & Hb).
  apply H, safe_component_shape in Hc as (_ & _ & _ & Hf). apply chars_ascii in Hb; [|lia].
  apply Hf in Hb. discriminate.
Qed.

(** What [git ls-files -z] prints for a list of paths. *)
Definition listing (names : list RelativePath) : list N :=
  concat (map (fun p => bytes (as_str p) ++ [0]) names).

Definition total_bytes (names : list RelativePath) : N :=
  foldr (fun p total => N.of_nat (length (bytes (as_str p))) + total) 0 names.

Definition kept (names : list RelativePath) : list RelativePath :=
  List.filter (fun p => negb (metadata_path p)) names.

Lemma length_listing names : N.of_nat (length (listing names)) = total_bytes names + N.of_nat (length names).
Proof.
  unfold listing. induction names as [|p names IH]; [done|].
  cbn [map concat total_bytes foldr length]. rewrite !length_app. cbn [length]. unfold total_bytes in IH.
  lia.
Qed.

Lemma kept_cons p names paths :
  (if negb (metadata_path p) then paths ++ [p] else paths) ++ kept names = paths ++ kept (p :: names).
Proof.
  unfold kept. cbn [List.filter]. destruct (negb (metadata_path p)); [by rewrite <- app_assoc|done].
Qed.

(** The budget while [record] is being read. *)
Definition reading (budget : PathBudget) (record : list N) : Prop :=
  record_bytes budget = N.of_nat (length record) /\ N.of_nat (length record) <= MAX_RECORD_BYTES /\
  records budget <= MAX_FILES /\
  path_bytes budget <= MAX_PATH_BYTES /\ PathBudget_bytes budget <= MAX_TRACKED_BYTES.

Ltac small := unfold usize_max, u64_max, MAX_TRACKED_BYTES, MAX_PATH_BYTES, MAX_FILES,
  MAX_RECORD_BYTES in *; lia.

Lemma checked_next n : n <= MAX_TRACKED_BYTES -> checked_add usize_max n 1 = Some (n + 1).
Proof. intros H. apply checked_add_Some. small. Qed.

Lemma advance_byte budget record b : b <> 0 -> reading budget record ->
  forall r, PathBudget_advance budget b = Ok r <->
    PathBudget_bytes budget < MAX_TRACKED_BYTES /\ records budget < MAX_FILES /\
    N.of_nat (length record) < MAX_RECORD_BYTES /\ path_bytes budget < MAX_PATH_BYTES /\
    r = (mkPathBudget (PathBudget_bytes budget + 1) (records budget)
           (N.of_nat (length (record ++ [b]))) (path_bytes budget + 1), Boundary_Byte).
Proof.
  intros Hb (Hr & Hlen & Hn & Hp & Ht) r. unfold PathBudget_advance.
  rewrite Hr, !checked_next by small. cbn [ok_or]. rewrite length_app. cbn [length].
  replace (N.of_nat (length record + 1)) with (N.of_nat (length record) + 1) by lia.
  destruct (N.ltb_spec MAX_TRACKED_BYTES (PathBudget_bytes budget + 1)); cbn [orb];
    [split; [done|small]|].
  destruct (N.leb_spec MAX_FILES (records budget)); [split; [done|small]|].
  rewrite (proj2 (N.eqb_neq b 0)) by done.
  destruct (N.ltb_spec MAX_RECORD_BYTES (N.of_nat (length record) + 1)); cbn [orb];
    [split; [done|small]|].
  destruct (N.ltb_spec MAX_PATH_BYTES (path_bytes budget + 1)); [split; [done|small]|].
  split; [intros [= <-]; repeat split; small|]. by intros (_ & _ & _ & _ & ->).
Qed.

Lemma advance_path budget record : reading budget record ->
  forall r, PathBudget_advance budget 0 = Ok r <->
    PathBudget_bytes budget < MAX_TRACKED_BYTES /\ records budget < MAX_FILES /\ record <> [] /\
    r = (mkPathBudget (PathBudget_bytes budget + 1) (records budget + 1) 0 (path_bytes budget),
         Boundary_Path).
Proof.
  intros (Hr & Hlen & Hn & Hp & Ht) r. unfold PathBudget_advance.
  rewrite Hr, !checked_next by small. cbn [ok_or].
  destruct (N.ltb_spec MAX_TRACKED_BYTES (PathBudget_bytes budget + 1)); cbn [orb];
    [split; [done|small]|].
  destruct (N.leb_spec MAX_FILES (records budget)); [split; [done|small]|]. cbn [N.eqb].
  destruct record as [|b record]; cbn [length]; [split; [done|]; by intros (_ & _ & ? & _)|].
  rewrite (proj2 (N.eqb_neq _ 0)) by lia.
  split; [intros [= <-]; repeat split; (done || small)|]. by intros (_ & _ & _ & ->).
Qed.

(** Reading the bytes of one record. *)
Lemma tracked_loop_record l budget record paths rest :
  0 ∉ l -> reading budget record ->
  PathBudget_bytes budget + N.of_nat (length l) <= MAX_TRACKED_BYTES ->
  path_bytes budget + N.of_nat (length l) <= MAX_PATH_BYTES ->
  N.of_nat (length record + length l) <= MAX_RECORD_BYTES ->
  records budget < MAX_FILES ->
  tracked_loop budget record paths (l ++ rest)
  = tracked_loop (mkPathBudget (PathBudget_bytes budget + N.of_nat (length l)) (records budget)
                    (N.of_nat (length (record ++ l))) (path_bytes budget + N.of_nat (length l)))
      (record ++ l) paths rest.
Proof.
  revert budget record. induction l as [|b l IH]; intros budget record Hz Hread Ht Hp Hl Hn.
  { destruct Hread as (Hr & _). rewrite app_nil_r, <- Hr. cbn [length N.of_nat app].
    rewrite !N.add_0_r. by destruct budget. }
  rewrite not_elem_of_cons in Hz. destruct Hz as [Hb Hz]. cbn [app length tracked_loop] in *.
  rewrite (proj2 (advance_byte budget record b (not_eq_sym Hb) Hread _))
    by (repeat split; (reflexivity || small)).
  cbn beta iota. rewrite IH.
  - cbn [PathBudget_bytes records path_bytes]. rewrite <- app_assoc. cbn [app].
    do 2 f_equal; lia.
  - done.
  - destruct Hread as (Hr & Hlen & _). repeat split; cbn; rewrite ?length_app; cbn [length]; small.
  - cbn. lia.
  - cbn. lia.
  - rewrite length_app. cbn [length]. lia.
  - done.
Qed.

Lemma RelativePath_try_from_str (p : RelativePath) : RelativePath_try_from (as_str p) = Ok p.
Proof. by apply Validated_try_from_ok. Qed.

Definition utf8_names (names : list RelativePath) : Prop :=
  Forall (fun p => utf8_valid (bytes (as_str p)) = true) names.

Lemma tracked_loop_listing names : utf8_names names -> forall budget paths,
  reading budget [] ->
  records budget + N.of_nat (length names) <= MAX_FILES ->
  path_bytes budget + total_bytes names <= MAX_PATH_BYTES ->
  PathBudget_bytes budget + N.of_nat (length (listing names)) <= MAX_TRACKED_BYTES ->
  exists budget', tracked_loop budget [] paths (listing names) = Ok (budget', paths ++ kept names) /\
    reading budget' [].
Proof.
  induction 1 as [|p names Hp _ IH]; intros budget paths Hread Hn Hpb Hb.
  { exists budget. cbn. by rewrite app_nil_r. }
  rewrite length_listing in Hb. cbn [total_bytes foldr length] in *.
  fold (total_bytes names) in *. pose proof (RelativePath_length p) as Hlen.
  unfold listing. cbn [map concat]. rewrite <- app_assoc.
  rewrite tracked_loop_record; [|apply RelativePath_no_nul|done|small|small|cbn; small|small].
  cbn [app tracked_loop]. set (b := mkPathBudget _ _ _ _).
  assert (Hb' : reading b (bytes (as_str p))).
  { destruct Hread as (_ & _ & ? & ? & ?). repeat split; cbn; small. }
  assert (Ha : PathBudget_advance b 0 = Ok (mkPathBudget (PathBudget_bytes b + 1) (records b + 1) 0
                                              (path_bytes b), Boundary_Path)).
  { apply (advance_path b _ Hb'). split; [cbn; small|]. split; [cbn; small|]. split; [|reflexivity].
    intros Hnil. rewrite Hnil in Hlen. cbn in Hlen. lia. }
  rewrite Ha. cbn beta iota. unfold string_from_utf8. rewrite Hp, of_bytes_bytes. cbn [ok_or].
  rewrite RelativePath_try_from_str. cbn [map_err]. rewrite <- kept_cons.
  destruct (IH (mkPathBudget (PathBudget_bytes b + 1) (records b + 1) 0 (path_bytes b))
              (if negb (metadata_path p) then paths ++ [p] else paths)) as (b' & E & Hr').
  - destruct Hb' as (_ & _ & ? & ? & ?). repeat split; cbn in *; small.
  - cbn. lia.
  - cbn. lia.
  - rewrite length_listing. cbn. lia.
  - exists b'. unfold listing in E. rewrite E. done.
Qed.

Lemma tracked_loop_inv l : Forall (fun b => b < 256) l -> forall budget record paths budget' paths',
  Forall (fun b => b < 256) record -> reading budget record ->
  tracked_loop budget record paths l = Ok (budget', paths') -> record_bytes budget' = 0 ->
  exists names, record ++ l = listing names /\ utf8_names names /\ paths' = paths ++ kept names /\
    records budget + N.of_nat (length names) <= MAX_FILES /\
    path_bytes budget + total_bytes names <= MAX_PATH_BYTES + N.of_nat (length record).
Proof.
  induction 1 as [|b l Hb _ IH]; intros budget record paths budget' paths' Hrec Hread E Hz.
  { cbn in E. injection E as -> ->. destruct Hread as (Hr & _ & ? & ? & _).
    destruct record; [|cbn in Hr; lia]. exists []. cbn. rewrite app_nil_r.
    repeat split; [constructor|lia|lia]. }
  cbn [tracked_loop] in E.
  destruct (PathBudget_advance budget b) as [[next boundary]|] eqn:Ha; [|done].
  destruct (N.eq_dec b 0) as [->|Hne].
  - apply (advance_path _ _ Hread) in Ha as (Ht & Hn & Hne & [= -> ->]). cbn beta iota in E.
    unfold string_from_utf8 in E. destruct (utf8_valid record) eqn:Hutf; [|done]. cbn [ok_or] in E.
    destruct (RelativePath_try_from (of_bytes record)) as [p|] eqn:Hp; [|done]. cbn [map_err] in E.
    apply Validated_try_from_ok in Hp.
    assert (Hrecord : bytes (as_str p) = record) by (rewrite Hp; by apply bytes_of_bytes).
    apply IH in E as (names & El & Hnames & -> & Hc & Hpb); [|constructor| |done].
    2: { destruct Hread as (_ & _ & ? & ? & ?). repeat split; cbn; small. }
    exists (p :: names). cbn [records path_bytes app length] in *. split.
    { unfold listing. cbn [map concat]. rewrite Hrecord, <- app_assoc. cbn [app]. by rewrite El. }
    split; [constructor; [by rewrite Hrecord|done]|]. split; [by rewrite kept_cons|].
    split; [lia|]. cbn [total_bytes foldr]. fold (total_bytes names). rewrite Hrecord. lia.
  - apply (advance_byte _ _ _ Hne Hread) in Ha as (Ht & Hn & Hr & Hp & [= -> ->]). cbn beta iota in E.
    apply IH in E as (names & El & Hnames & -> & Hc & Hpb); [| | |done].
    + exists names. rewrite <- app_assoc in El. cbn [app] in El. cbn [records path_bytes] in *.
      rewrite length_app in Hpb. cbn [length] in Hpb.
      split; [done|]. split; [done|]. split; [done|]. split; [done|]. lia.
    + apply Forall_app. split; [done|]. by repeat constructor.
    + destruct Hread as (_ & _ & ? & ? & ?). repeat split; cbn; rewrite ?length_app; cbn [length]; small.
Qed.

(** *** Metadata *)

Fixpoint segments (current rest : list N) : list (list N) :=
  match rest with
  | [] => [current]
  | b :: rest => if b =? byte_of "/" then current :: segments [] rest else segments (current ++ [b]) rest
  end.

Lemma segments_current current rest :
  exists first others, segments [] rest = first :: others /\
    segments current rest = (current ++ first) :: others.
Proof.
  assert (H : forall rest, exists first others, forall current,
    segments current rest = (current ++ first) :: others).
  { clear current rest. induction rest as [|b rest (first & others & IH)]; cbn [segments].
    { exists [], []. intros current. by rewrite app_nil_r. }
    destruct (b =? byte_of "/").
    - exists [], (segments [] rest). intros current. by rewrite app_nil_r.
    - exists (b :: first), others. intros current. by rewrite IH, <- app_assoc. }
  destruct (H rest) as (first & others & E). exists first, others. by rewrite !E.
Qed.

Lemma split_segments s : map bytes (split "/" s) = segments [] (bytes s).
Proof.
  induction s as [|a s IH]; [done|]. rewrite bytes_cons. cbn [split segments].
  destruct (segments_current [N_of_ascii a] (bytes s)) as (first & others & E1 & E2).
  rewrite E1 in IH. destruct (Ascii.eqb_spec a "/") as [->|Ha].
  - cbn [map]. rewrite IH, <- E1. done.
  - replace (N_of_ascii a =? byte_of "/") with false.
    2: { symmetry. apply N.eqb_neq. intros E. apply Ha. unfold byte_of in E.
         rewrite <- (ascii_N_embedding a), E. done. }
    cbn [app]. rewrite E2. destruct (split "/" s) as [|p parts]; [done|]. cbn [map] in *.
    injection IH as E3 E4. by rewrite bytes_cons, E3, E4.
Qed.

Lemma get_range_ok l first n : (first + n <= length l)%nat ->
  get_range l (N.of_nat first) (N.of_nat (first + n)) = Some (take n (drop first l)).
Proof.
  intros H. unfold get_range. rewrite !(proj2 (N.leb_le _ _)) by lia. cbn [andb].
  do 2 f_equal; [|f_equal]; lia.
Qed.

Lemma metadata_loop_step l steps first end_ b : l !! N.to_nat end_ = Some b ->
  metadata_loop l (S steps) first end_
  = if b =? byte_of "/" then
      if match get_range l first end_ with Some c => metadata_bytes c | None => false end then true
      else metadata_loop l steps (saturating_add usize_max end_ 1) (end_ + 1)
    else metadata_loop l steps first (end_ + 1).
Proof. intros E. cbn [metadata_loop]. by rewrite E. Qed.

Lemma metadata_loop_spec l rest : forall first n end_,
  N.of_nat (length l) < usize_max -> (first + n + length rest = length l)%nat ->
  rest = drop (first + n) l -> end_ = N.of_nat (first + n) ->
  metadata_loop l (S (length rest)) (N.of_nat first) end_
  = existsb metadata_bytes (segments (take n (drop first l)) rest).
Proof.
  induction rest as [|b rest IH]; intros first n end_ Hl Hlen Hrest ->.
  - cbn [length metadata_loop segments existsb]. rewrite Nat2N.id, lookup_ge_None_2 by (cbn in Hlen; lia).
    rewrite get_range_ok by (cbn in Hlen; lia). by destruct (metadata_bytes _).
  - assert (Hb : l !! (first + n)%nat = Some b).
    { rewrite <- (Nat.add_0_r (first + n)), <- lookup_drop, <- Hrest. done. }
    assert (Hrest' : rest = drop (S (first + n)) l).
    { rewrite <- Nat.add_1_r, <- drop_drop, <- Hrest. done. }
    cbn [length] in Hlen |- *. rewrite (metadata_loop_step _ _ _ _ b) by (by rewrite Nat2N.id).
    cbn [segments]. destruct (b =? byte_of "/").
    + rewrite get_range_ok by lia. cbn [existsb]. destruct (metadata_bytes (take n (drop first l))); [done|].
      unfold saturating_add. rewrite N.min_l by lia. cbn [orb].
      replace (N.of_nat (first + n) + 1) with (N.of_nat (S (first + n))) by lia.
      rewrite (IH (S (first + n)) 0%nat); [done|done|lia|by rewrite Nat.add_0_r|f_equal; lia].
    + rewrite (IH first (S n)); [|done|lia|by rewrite Nat.add_succ_r|lia].
      do 2 f_equal. apply take_S_r. by rewrite lookup_drop.
Qed.

Lemma metadata_path_segments s : N.of_nat (length (bytes s)) < usize_max ->
  metadata_path_str s = existsb metadata_component (split "/" s).
Proof.
  intros H. unfold metadata_path_str.
  pose proof (metadata_loop_spec (bytes s) (bytes s) 0 0 0 H eq_refl eq_refl eq_refl) as E.
  change (N.of_nat 0) with 0 in E. cbn [take drop] in E. rewrite E. clear E.
  rewrite <- split_segments. unfold metadata_component.
  induction (split "/" s) as [|c cs IH]; [done|]. cbn [map existsb]. by rewrite IH.
Qed.

Ltac named n :=
  exists n%string; split;
    [match goal with |- ?P => apply (bool_decide_eq_true_1 P) end|]; vm_compute; reflexivity.

Lemma metadata_bytes_names component :
  metadata_bytes component = true <->
  exists name, name ∈ METADATA /\ map to_ascii_lowercase component = map to_ascii_lowercase (bytes name).
Proof.
  unfold metadata_bytes, METADATA. set (l := map to_ascii_lowercase component). clearbody l. split.
  - intros H. destruct l as [|a [|b [|c [|d [|e [|f [|]]]]]]]; try done;
      apply existsb_exists in H as (name & Hin & Heq); apply bool_decide_eq_true in Heq; rewrite Heq;
      repeat (destruct Hin as [<-|Hin];
              [first [named ".git" | named ".jj" | named ".hg" | named ".svn" | named ".pijul"
                     |named "_darcs" | named ".bzr" | named "CVS"]|]); done.
  - intros (name & Hin & ->). repeat (apply elem_of_cons in Hin as [->|Hin]; [vm_compute; reflexivity|]).
    by apply elem_of_nil in Hin.
Qed.

Lemma kept_iff names p : p ∈ kept names <-> p ∈ names /\
  ~ exists component name, component ∈ split "/" (as_str p) /\ name ∈ METADATA /\
      map to_ascii_lowercase (bytes component) = map to_ascii_lowercase (bytes name).
Proof.
  unfold kept. rewrite !list_elem_of_In, filter_In. unfold metadata_path.
  pose proof (RelativePath_length p) as Hlen.
  rewrite metadata_path_segments, negb_true_iff, <- not_true_iff_false, existsb_exists by small.
  unfold metadata_component. setoid_rewrite metadata_bytes_names.
  split; intros [Hin Hno]; (split; [done|]).
  - intros (c & m & Hc & Hm & E). apply Hno. exists c. split; [by apply list_elem_of_In|]. eauto.
  - intros (c & Hc & m & Hm & E). apply Hno. exists c, m. split; [by apply list_elem_of_In|]. eauto.
Qed.

(** ** Properties *)

(** C40: reading a list of tracked files accepts exactly the NUL-terminated listings of valid
    relative paths in UTF-8, at most 100 000 of them and 16 MiB together, and keeps, in order, those
    without a repository's metadata directory among their components in any letter case. *)
Theorem tracked_paths_exact (listed : list N) (tracked : TrackedPaths)
    (wellformed : Forall (fun b => b < 256) listed) :
  (tracked_paths listed = Ok tracked <->
   exists names : list RelativePath,
     listed = listing names /\ utf8_names names /\
     N.of_nat (length names) <= MAX_FILES /\ total_bytes names <= MAX_PATH_BYTES /\
     TrackedPaths_paths tracked = kept names) /\
  forall names p, p ∈ kept names <-> p ∈ names /\
    ~ exists component name, component ∈ split "/" (as_str p) /\ name ∈ METADATA /\
        map to_ascii_lowercase (bytes component) = map to_ascii_lowercase (bytes name).
Proof.
  split; [|intros names p; apply kept_iff]. unfold tracked_paths. split.
  - destruct (N.ltb_spec MAX_TRACKED_BYTES (N.of_nat (length listed))) as [|Hl]; [done|].
    destruct (tracked_loop PathBudget_default [] [] listed) as [[budget paths]|] eqn:E; [|done].
    unfold PathBudget_finish. destruct (N.eqb_spec (record_bytes budget) 0) as [Hz|]; [|done].
    intros [= <-]. apply tracked_loop_inv in E as (names & El & Hu & Hp & Hn & Hb); [|done|constructor| |done].
    2: { repeat split; cbn; small. }
    exists names. cbn in *. split; [done|]. split; [done|]. split; [lia|]. split; [lia|done].
  - intros (names & -> & Hu & Hn & Hb & Ht). pose proof (length_listing names) as Hlen.
    rewrite (proj2 (N.ltb_ge _ _)) by (rewrite Hlen; small).
    destruct (tracked_loop_listing names Hu PathBudget_default []) as (b & E & Hr).
    + repeat split; cbn; small.
    + cbn. lia.
    + cbn. lia.
    + rewrite Hlen. cbn. small.
    + rewrite E. unfold PathBudget_finish. destruct Hr as (-> & _). cbn.
      destruct tracked as [ps]. cbn in Ht. by subst ps.
Qed.

Definition sample_listing : list N :=
  bytes "src/main.rs" ++ [0] ++ bytes "vendor/.GIT/config" ++ [0] ++ bytes "README.md" ++ [0].

Definition sample_path : RelativePath := mkValidated (check := check_relative_path) "a"%string I.

Lemma tracked_paths_exact_witness :
  map as_str (match tracked_paths sample_listing with Ok t => TrackedPaths_paths t | Err _ => [] end)
  = ["src/main.rs"; "README.md"]%string /\
  exists names tracked, tracked_paths (listing names) = Ok tracked /\ length names = 1%nat.
Proof.
  split; [vm_compute; reflexivity|]. exists [sample_path], (mkTrackedPaths (kept [sample_path])).
  split; [|reflexivity]. apply tracked_paths_exact; [repeat constructor|]. exists [sample_path].
  split; [reflexivity|]. split; [constructor; [vm_compute; reflexivity|constructor]|].
  split; [vm_compute; discriminate|]. split; [vm_compute; discriminate|reflexivity].
Defined.
