(* ===== verification/Policies.v ===== *)
(** resource_budget.rs, resource_policy.rs, process_group.rs, capture_policy.rs and
    worker_handoff.rs: the limits a job runs under, the identifiers it may signal, whether truncated
    output is acceptable, and the order in which a worker takes over a request. *)

From Stdlib Require Import NArith ZArith Lia String Ascii.
From stdpp Require Import base gmap list strings.
From S2P Require Import Prelude RustStr JobState.

(** ** Definitions *)

(** *** resource_budget.rs *)

Record Budget := mkBudget { concurrent : N; high : N; max : N; swap : N }.

Definition Budget_valid (self : Budget) : bool :=
  (0 <? concurrent self) && (concurrent self <=? 2) && (0 <? high self) && (high self <? max self)
  && (max self <=? 11 * 1024 * 1024 * 1024) && (swap self <=? 2 * 1024 * 1024 * 1024).

(** *** resource_policy.rs *)

Record ResourcePolicy := mkResourcePolicy {
  ResourcePolicy_budget : Budget;
  ResourcePolicy_ok : Is_true (Budget_valid ResourcePolicy_budget)
}.

Record RawPolicy := mkRawPolicy {
  version : N;
  max_concurrent_jobs : N;
  slice : string;
  memory_high_bytes : N;
  memory_max_bytes : N;
  memory_swap_max_bytes : N
}.

Inductive InvalidPolicy := mkInvalidPolicy.

Definition ResourcePolicy_try_from (raw : RawPolicy) : result ResourcePolicy InvalidPolicy :=
  let budget := mkBudget (max_concurrent_jobs raw) (memory_high_bytes raw) (memory_max_bytes raw)
                  (memory_swap_max_bytes raw) in
  if (version raw =? 1) && String.eqb (slice raw) "domyjob.slice" then
    match decide (Is_true (Budget_valid budget)) with
    | left H => Ok (mkResourcePolicy budget H)
    | right _ => Err mkInvalidPolicy
    end
  else Err mkInvalidPolicy.

Definition RawPolicy_from (policy : ResourcePolicy) : RawPolicy :=
  let budget := ResourcePolicy_budget policy in
  mkRawPolicy 1 (concurrent budget) "domyjob.slice" (high budget) (max budget) (swap budget).

(** *** process_group.rs *)

Record ProcessGroup := mkProcessGroup { ProcessGroup_get : Z }.
Inductive InvalidProcessGroup := mkInvalidProcessGroup.

Definition ProcessGroup_new (value : Z) : result ProcessGroup InvalidProcessGroup :=
  match NonZeroI32_new value with
  | Some group => if (0 <? NonZeroI32_get group)%Z then Ok (mkProcessGroup (NonZeroI32_get group))
                  else Err mkInvalidProcessGroup
  | None => Err mkInvalidProcessGroup
  end.

(** [str::parse::<i32>]: an optional sign and decimal digits, within the type. *)
Fixpoint parse_digits (negative : bool) (value : Z) (digits : list N) : option Z :=
  match digits with
  | [] => Some value
  | b :: digits =>
      if negb (is_ascii_digit b) then None else
      let digit := Z.of_N (b - 48) in
      let value := (if negative then value * 10 - digit else value * 10 + digit)%Z in
      if (-2147483648 <=? value)%Z && (value <=? 2147483647)%Z
      then parse_digits negative value digits else None
  end.

Definition i32_from_str (text : string) : option Z :=
  match bytes text with
  | [] => None
  | sign :: digits =>
      if sign =? byte_of "-" then
        match digits with [] => None | _ => parse_digits true 0 digits end
      else if sign =? byte_of "+" then
        match digits with [] => None | _ => parse_digits false 0 digits end
      else parse_digits false 0 (sign :: digits)
  end.

Definition ProcessGroup_from_str (text : string) : result ProcessGroup InvalidProcessGroup :=
  match i32_from_str text with
  | Some value => ProcessGroup_new value
  | None => Err mkInvalidProcessGroup
  end.

(** *** capture_policy.rs *)

Inductive CapturePolicy := CapturePolicy_Prefix | CapturePolicy_Complete.
Inductive CaptureAdmission := CaptureAdmission_Accept | CaptureAdmission_RefuseTruncated.

Definition capture_admission (policy : CapturePolicy) (omitted : N) : CaptureAdmission :=
  match policy with
  | CapturePolicy_Prefix => CaptureAdmission_Accept
  | CapturePolicy_Complete =>
      if omitted =? 0 then CaptureAdmission_Accept else CaptureAdmission_RefuseTruncated
  end.

(** *** worker_handoff.rs *)

Inductive HandoffPhase := HandoffPhase_Read | HandoffPhase_Decode | HandoffPhase_Validate | HandoffPhase_Launch.

Record HandoffFailure (E : Type) := mkHandoffFailure { HandoffFailure_phase : HandoffPhase; cause : E }.
Arguments mkHandoffFailure {E} _ _.
Arguments HandoffFailure_phase {E} _.
Arguments cause {E} _.

(** The closures act on the world [W]. *)
Section handoff.
Context {W B T E : Type}.
Context (read : W -> W * result B E) (decode : B -> W -> W * result T E)
  (validate : T -> W -> W * result unit E) (launch : T -> W -> W * result unit E).

Definition failed {A} (phase : HandoffPhase) (r : result A E) : result A (HandoffFailure E) :=
  map_err (mkHandoffFailure phase) r.

Definition start (w : W) : W * result unit (HandoffFailure E) :=
  let '(w, bytes) := read w in
  match failed HandoffPhase_Read bytes with
  | Err e => (w, Err e)
  | Ok bytes =>
      let '(w, request) := decode bytes w in
      match failed HandoffPhase_Decode request with
      | Err e => (w, Err e)
      | Ok request =>
          let '(w, validated) := validate request w in
          match failed HandoffPhase_Validate validated with
          | Err e => (w, Err e)
          | Ok _ =>
              let '(w, launched) := launch request w in
              (w, failed HandoffPhase_Launch launched)
          end
      end
  end.

(** What ran: a request is launched only when it was read, decoded and validated, in that order. *)
Inductive launched (w : W) : T -> W -> Prop :=
| launched_intro w1 b w2 t w3 u :
    read w = (w1, Ok b) -> decode b w1 = (w2, Ok t) -> validate t w2 = (w3, Ok u) -> launched w t w3.

Lemma start_spec w :
  (forall w', start w = (w', Ok tt) <->
     exists t w3, launched w t w3 /\ launch t w3 = (w', Ok tt)) /\
  (forall w' phase e, start w = (w', Err (mkHandoffFailure phase e)) ->
     match phase with
     | HandoffPhase_Read => read w = (w', Err e)
     | HandoffPhase_Decode => exists w1 b, read w = (w1, Ok b) /\ decode b w1 = (w', Err e)
     | HandoffPhase_Validate =>
         exists w1 b w2 t, read w = (w1, Ok b) /\ decode b w1 = (w2, Ok t) /\ validate t w2 = (w', Err e)
     | HandoffPhase_Launch => exists t w3, launched w t w3 /\ launch t w3 = (w', Err e)
     end).
Proof.
  unfold start, failed. destruct (read w) as [w1 [b|e1]] eqn:Er; cbn.
  2: { split; [|by intros w' phase e [= <- <- <-]].
       intros w'. split; [done|]. intros (t & w3 & Hl & _). inversion Hl; congruence. }
  destruct (decode b w1) as [w2 [t|e2]] eqn:Ed; cbn.
  2: { split; [|intros w' phase e [= <- <- <-]; eauto].
       intros w'. split; [done|]. intros (t & w3 & Hl & _). inversion Hl; congruence. }
  destruct (validate t w2) as [w3 [u|e3]] eqn:Ev; cbn.
  2: { split; [|intros w' phase e [= <- <- <-]; eauto 8].
       intros w'. split; [done|]. intros (t' & w3' & Hl & _). inversion Hl; congruence. }
  assert (Hl : launched w t w3) by (econstructor; eassumption).
  destruct (launch t w3) as [w4 [[]|e4]] eqn:El; cbn.
  - split; [|done]. intros w'. split.
    + intros [= <-]. eauto.
    + intros (t' & w3' & Hl' & El'). inversion Hl'; subst. congruence.
  - split; [|intros w' phase e [= <- <- <-]; eauto].
    intros w'. split; [done|]. intros (t' & w3' & Hl' & El'). inversion Hl'; subst. congruence.
Qed.
End handoff.

(** ** Lemmas *)

Lemma ResourcePolicy_inj p q : ResourcePolicy_budget p = ResourcePolicy_budget q -> p = q.
Proof. destruct p as [b H], q as [b' H']. cbn. intros <-. f_equal. apply proof_irrel. Qed.

(** A stored policy comes back, and only budgets within the machine's limits are policies. *)
Lemma resource_policy_roundtrip (policy : ResourcePolicy) (raw : RawPolicy) :
  ResourcePolicy_try_from (RawPolicy_from policy) = Ok policy /\
  (ResourcePolicy_try_from raw = Ok policy -> RawPolicy_from policy = raw) /\
  let budget := ResourcePolicy_budget policy in
  1 <= concurrent budget <= 2 /\ 0 < high budget < max budget /\
  max budget <= 11811160064 /\ swap budget <= 2147483648.
Proof.
  split; [|split].
  - unfold ResourcePolicy_try_from, RawPolicy_from. cbn [version slice N.eqb Pos.eqb andb].
    rewrite String.eqb_refl. cbn [andb].
    destruct (decide _) as [H|H]; [f_equal; apply ResourcePolicy_inj; cbn; by destruct (ResourcePolicy_budget policy)|].
    exfalso. apply H. cbn. pose proof (ResourcePolicy_ok policy). by destruct (ResourcePolicy_budget policy).
  - unfold ResourcePolicy_try_from. destruct (N.eqb_spec (version raw) 1) as [Hv|]; [|done]. cbn [andb].
    destruct (String.eqb_spec (slice raw) "domyjob.slice") as [Hs|]; [|done].
    destruct (decide _) as [H|H]; [|done]. intros [= <-]. unfold RawPolicy_from. cbn.
    rewrite <- Hv, <- Hs. by destruct raw.
  - cbv zeta. pose proof (ResourcePolicy_ok policy) as H. apply Is_true_true in H. unfold Budget_valid in H.
    rewrite !andb_true_iff, !N.leb_le, !N.ltb_lt in H.
    change (11 * 1024 * 1024 * 1024) with 11811160064 in H.
    change (2 * 1024 * 1024 * 1024) with 2147483648 in H. lia.
Qed.

Lemma process_group_positive text group :
  ProcessGroup_from_str text = Ok group -> (0 < ProcessGroup_get group)%Z.
Proof.
  unfold ProcessGroup_from_str. destruct (i32_from_str text) as [v|]; [|done]. unfold ProcessGroup_new.
  destruct (NonZeroI32_new v) as [g|]; [|done]. destruct (Z.ltb_spec 0 (NonZeroI32_get g)); [|done].
  by intros [= <-].
Qed.
