(* ===== verification/Dashboard.v ===== *)
(** dashboard.rs and dashboard/geometry.rs: view selection, refresh generations, terminal restoration,
    the query, and the rectangles a frame is laid out in. *)

From Stdlib Require Import NArith Lia String Ascii.
From stdpp Require Import base gmap list strings.
From S2P Require Import Prelude RustStr RustText Domain.

(** ** Definitions *)

(** *** dashboard.rs *)

Definition MAX_QUERY_BYTES : N := 128.
Definition MIN_VIEW_WIDTH : N := 32.
Definition MIN_VIEW_HEIGHT : N := 10.
Definition SPLIT_VIEW_WIDTH : N := 76.
Definition SIDEBAR_VIEW_WIDTH : N := 112.

Inductive Viewport := Viewport_Minimal | Viewport_Compact | Viewport_Split | Viewport_Sidebar.

Definition viewport (width height : N) : Viewport :=
  if (width <? MIN_VIEW_WIDTH) || (height <? MIN_VIEW_HEIGHT) then Viewport_Minimal
  else if width <? SPLIT_VIEW_WIDTH then Viewport_Compact
  else if width <? SIDEBAR_VIEW_WIDTH then Viewport_Split
  else Viewport_Sidebar.

Inductive Section_ := Section_Machines | Section_Agents | Section_Chats.

Definition Section_next (self : Section_) : Section_ :=
  match self with
  | Section_Machines => Section_Agents
  | Section_Agents => Section_Chats
  | Section_Chats => Section_Machines
  end.

Inductive Movement := Movement_Previous | Movement_Next | Movement_First | Movement_Last.

Definition navigate (selected : option N) (count : N) (movement : Movement) : option N :=
  match checked_sub count 1 with
  | None => None
  | Some last =>
      let current := match selected with
                     | Some current => if current <? count then current else 0
                     | None => 0
                     end in
      match movement with
      | Movement_Previous => Some (saturating_sub current 1)
      | Movement_Next =>
          if negb match selected with Some index => index <? count | None => false end then Some 0
          else let next := saturating_add usize_max current 1 in
               Some (if last <? next then last else next)
      | Movement_First => Some 0
      | Movement_Last => Some last
      end
  end.

Inductive IdentityMatch := IdentityMatch_Exact | IdentityMatch_Different.

Definition exact (identity : IdentityMatch) : bool :=
  match identity with IdentityMatch_Exact => true | IdentityMatch_Different => false end.

Definition retained_selection (identity : IdentityMatch) (position count : N) : option N :=
  if exact identity && (position <? count) then Some position else None.

Definition viewing_identity (identity : IdentityMatch) (registered : bool) : bool :=
  exact identity && registered.

Definition selection_after_refresh (had_selection : bool) (retained : option N) (count : N) : option N :=
  match retained with
  | Some position =>
      if position <? count then Some position
      else if had_selection then None else navigate None count Movement_First
  | None => if had_selection then None else navigate None count Movement_First
  end.

Inductive Freshness := Freshness_Unknown | Freshness_Fresh (elapsed : N) | Freshness_Stale (elapsed : N).

Definition freshness (observed now : option N) (limit : N) : Freshness :=
  match observed, now with
  | Some observed, Some now =>
      match checked_sub now observed with
      | None => Freshness_Unknown
      | Some elapsed => if limit <=? elapsed then Freshness_Stale elapsed else Freshness_Fresh elapsed
      end
  | _, _ => Freshness_Unknown
  end.

Record Refresh := mkRefresh { accepted : N; pending : option N }.
Definition Refresh_default : Refresh := mkRefresh 0 None.

Definition Refresh_request (self : Refresh) : Refresh * option N :=
  match pending self with
  | Some _ => (self, None)
  | None =>
      match checked_add u64_max (accepted self) 1 with
      | None => (self, None)
      | Some generation => (mkRefresh (accepted self) (Some generation), Some generation)
      end
  end.

Definition Refresh_complete (self : Refresh) (generation : N) : Refresh * bool :=
  if negb (bool_decide (pending self = Some generation)) || (generation <=? accepted self)
  then (self, false)
  else (mkRefresh generation None, true).

Definition Refresh_complete_view (self : Refresh) (generation : N) (scope : IdentityMatch) :
  Refresh * bool :=
  let '(self, completed) := Refresh_complete self generation in
  (self, completed && exact scope).

Inductive TerminalStage :=
| TerminalStage_Untouched | TerminalStage_RawAttempted | TerminalStage_ScreenAttempted
| TerminalStage_CursorAttempted.

Inductive RestoreStep := RestoreStep_Cursor | RestoreStep_Screen | RestoreStep_Raw.

Definition TerminalStage_owns (self : TerminalStage) (restore : RestoreStep) : bool :=
  match restore, self with
  | RestoreStep_Cursor, TerminalStage_CursorAttempted => true
  | RestoreStep_Screen, (TerminalStage_ScreenAttempted | TerminalStage_CursorAttempted) => true
  | RestoreStep_Raw, TerminalStage_Untouched => false
  | RestoreStep_Raw, _ => true
  | _, _ => false
  end.

Inductive DisplayChar := DisplayChar_Literal (character : N) | DisplayChar_Escaped (character : N).

Definition display_char (character : N) : DisplayChar :=
  if is_control character || in_range 0x202a 0x202e character || in_range 0x2066 0x2069 character
     || (character =? 0x200e) || (character =? 0x200f)
  then DisplayChar_Escaped character else DisplayChar_Literal character.

(** The text [display] builds, as characters. *)
Definition display (text : string) : string :=
  of_chars (flat_map (fun character => match display_char character with
                                       | DisplayChar_Literal character => [character]
                                       | DisplayChar_Escaped character => escape_default character
                                       end) (chars text)).

Definition query_admits (used character : N) : bool :=
  match display_char character with
  | DisplayChar_Literal _ =>
      match checked_add usize_max used (len_utf8 character) with
      | Some total => total <=? MAX_QUERY_BYTES
      | None => false
      end
  | DisplayChar_Escaped _ => false
  end.

Definition query_push (query : string) (character : N) : string * bool :=
  if negb (query_admits (str_len query) character) then (query, false)
  else (String.app query (of_chars [character]), true).

(** *** dashboard/geometry.rs *)

Definition MAX_COLUMNS : N := 512.
Definition MAX_LINES : N := 256.
Definition MAX_GLYPH_BYTES : N := 128.
Definition PERCENT : N := 100.

Inductive Equality := Equality_Same | Equality_Different.
Inductive PaintPlan := PaintPlan_Unchanged | PaintPlan_ChangedRows | PaintPlan_Resize.

Definition paint_plan (frame_same extent_same : Equality) : PaintPlan :=
  match extent_same, frame_same with
  | Equality_Different, _ => PaintPlan_Resize
  | _, Equality_Same => PaintPlan_Unchanged
  | _, _ => PaintPlan_ChangedRows
  end.

Inductive GeometryRefusal :=
| GeometryRefusal_Capacity | GeometryRefusal_Glyph | GeometryRefusal_Outside.

Record Extent := mkExtent { Extent_width : N; Extent_height : N }.
Record Rect := mkRect { Rect_x : N; Rect_y : N; Rect_width : N; Rect_height : N }.
Record Glyph := mkGlyph { Glyph_columns : N }.
Record Placement := mkPlacement { index : N; next : N }.

Definition Extent_new (width height : N) : result Extent GeometryRefusal :=
  if (MAX_COLUMNS <? width) || (MAX_LINES <? height) then Err GeometryRefusal_Capacity
  else Ok (mkExtent width height).

Definition Extent_area (self : Extent) : Rect := mkRect 0 0 (Extent_width self) (Extent_height self).

Definition Extent_cells (self : Extent) : N :=
  saturating_mul usize_max (Extent_width self) (Extent_height self).

Definition Extent_place (self : Extent) (x y : N) (glyph : Glyph) : result Placement GeometryRefusal :=
  match checked_add u16_max x (Glyph_columns glyph) with
  | None => Err GeometryRefusal_Outside
  | Some next =>
      if (Extent_height self <=? y) || (Extent_width self <? next) then Err GeometryRefusal_Outside
      else Ok (mkPlacement (saturating_add usize_max (saturating_mul usize_max y (Extent_width self)) x) next)
  end.

Definition Glyph_new (columns bytes : N) : result Glyph GeometryRefusal :=
  if (bytes =? 0) || (MAX_GLYPH_BYTES <? bytes) then Err GeometryRefusal_Glyph
  else if columns =? 1 then Ok (mkGlyph 1)
  else if columns =? 2 then Ok (mkGlyph 2)
  else Err GeometryRefusal_Glyph.

Definition Rect_clip (self : Rect) (extent : Extent) : Rect :=
  let x := if Rect_x self <? Extent_width extent then Rect_x self else Extent_width extent in
  let y := if Rect_y self <? Extent_height extent then Rect_y self else Extent_height extent in
  let width := saturating_sub (Extent_width extent) x in
  let height := saturating_sub (Extent_height extent) y in
  mkRect x y (if Rect_width self <? width then Rect_width self else width)
    (if Rect_height self <? height then Rect_height self else height).

Definition Rect_columns (self : Rect) (first : N) : Rect * Rect :=
  let first := if first <? Rect_width self then first else Rect_width self in
  (mkRect (Rect_x self) (Rect_y self) first (Rect_height self),
   mkRect (saturating_add u16_max (Rect_x self) first) (Rect_y self)
     (saturating_sub (Rect_width self) first) (Rect_height self)).

Definition Rect_rows (self : Rect) (first : N) : Rect * Rect :=
  let first := if first <? Rect_height self then first else Rect_height self in
  (mkRect (Rect_x self) (Rect_y self) (Rect_width self) first,
   mkRect (Rect_x self) (saturating_add u16_max (Rect_y self) first) (Rect_width self)
     (saturating_sub (Rect_height self) first)).

Definition Rect_inset (self : Rect) : Rect :=
  mkRect (if Rect_width self =? 0 then Rect_x self else saturating_add u16_max (Rect_x self) 1)
    (if Rect_height self =? 0 then Rect_y self else saturating_add u16_max (Rect_y self) 1)
    (saturating_sub (saturating_sub (Rect_width self) 1) 1)
    (saturating_sub (saturating_sub (Rect_height self) 1) 1).

Definition share (total percent : N) : option N :=
  if PERCENT <? percent then None else
  let scaled := saturating_mul u32_max total percent / PERCENT in
  if scaled <=? u16_max then Some scaled else None.

Definition Rect_centered (self : Rect) (width_percent height_percent : N) : option Rect :=
  width ← share (Rect_width self) width_percent;
  height ← share (Rect_height self) height_percent;
  Some (mkRect (saturating_add u16_max (Rect_x self) (saturating_sub (Rect_width self) width / 2))
          (saturating_add u16_max (Rect_y self) (saturating_sub (Rect_height self) height / 2))
          width height).

(** ** Specification: a rectangle as the set of its cells *)

Definition in_rect (r : Rect) (x y : N) : Prop :=
  Rect_x r <= x < Rect_x r + Rect_width r /\ Rect_y r <= y < Rect_y r + Rect_height r.

(** A rectangle inside the largest frame; every rectangle of a layout is one. *)
Definition framed (r : Rect) : Prop :=
  Rect_x r + Rect_width r <= MAX_COLUMNS /\ Rect_y r + Rect_height r <= MAX_LINES.

(** ** Properties *)

Ltac geometry :=
  unfold in_rect, framed, saturating_add, saturating_sub, u16_max, MAX_COLUMNS, MAX_LINES in *;
  cbn [Rect_x Rect_y Rect_width Rect_height fst snd Extent_width Extent_height] in *.

(** Laying a frame out loses and duplicates no cell.  Splitting a framed rectangle into columns
    or rows partitions its cells; an inset or centered rectangle lies within it; clipping to an
    extent leaves exactly the cells of the rectangle that lie in the extent; and all of them are
    framed again. *)
Theorem layout_partitions (r : Rect) (extent : Extent) (first wp hp : N)
    (inside : framed r)
    (admitted : exists w h, Extent_new w h = Ok extent) :
  (let '(left_, right_) := Rect_columns r first in
   framed left_ /\ framed right_ /\
   forall x y, (in_rect r x y <-> in_rect left_ x y \/ in_rect right_ x y) /\
     ~ (in_rect left_ x y /\ in_rect right_ x y)) /\
  (let '(top, bottom) := Rect_rows r first in
   framed top /\ framed bottom /\
   forall x y, (in_rect r x y <-> in_rect top x y \/ in_rect bottom x y) /\
     ~ (in_rect top x y /\ in_rect bottom x y)) /\
  (framed (Rect_inset r) /\ forall x y, in_rect (Rect_inset r) x y -> in_rect r x y) /\
  (forall c, Rect_centered r wp hp = Some c -> framed c /\ forall x y, in_rect c x y -> in_rect r x y) /\
  (framed (Rect_clip r extent) /\
   forall x y, in_rect (Rect_clip r extent) x y <-> in_rect r x y /\ in_rect (Extent_area extent) x y).
Proof.
  destruct admitted as (w & h & He). revert He. unfold Extent_new.
  destruct (N.ltb_spec MAX_COLUMNS w); [done|]. destruct (N.ltb_spec MAX_LINES h); [done|].
  intros [= <-]. destruct r as [x0 y0 rw rh]. split; [|split; [|split; [|split]]].
  - unfold Rect_columns. geometry. destruct (N.ltb_spec first rw); geometry.
    all: split; [lia|]; split; [lia|]; intros x y; split; lia.
  - unfold Rect_rows. geometry. destruct (N.ltb_spec first rh); geometry.
    all: split; [lia|]; split; [lia|]; intros x y; split; lia.
  - unfold Rect_inset. geometry. destruct (N.eqb_spec rw 0), (N.eqb_spec rh 0); geometry.
    all: split; [lia|]; intros x y; lia.
  - intros c Hc. unfold Rect_centered, share in Hc. cbn [Rect_x Rect_y Rect_width Rect_height] in Hc.
    assert (Hshare : forall total percent s, total <= 512 ->
      (if PERCENT <? percent then None
       else let scaled := saturating_mul u32_max total percent / PERCENT in
            if scaled <=? u16_max then Some scaled else None) = Some s -> s <= total).
    { intros total percent s Ht. unfold PERCENT. destruct (N.ltb_spec 100 percent); [done|].
      cbv zeta. destruct (N.leb_spec (saturating_mul u32_max total percent / 100) u16_max); [|done].
      intros [= <-]. unfold saturating_mul.
      apply N.Div0.div_le_upper_bound. nia. }
    geometry.
    destruct (if PERCENT <? wp then _ else _) as [sw|] eqn:Ew in Hc; [|done].
    cbn [mbind option_bind] in Hc.
    destruct (if PERCENT <? hp then _ else _) as [sh|] eqn:Eh in Hc; [|done].
    cbn [mbind option_bind] in Hc. injection Hc as <-.
    apply Hshare in Ew; [|lia]. apply Hshare in Eh; [|lia]. geometry.
    assert ((rw - sw) / 2 <= rw - sw) by (apply N.Div0.div_le_upper_bound; lia).
    assert ((rh - sh) / 2 <= rh - sh) by (apply N.Div0.div_le_upper_bound; lia).
    generalize dependent ((rw - sw) / 2). generalize dependent ((rh - sh) / 2). intros dh ? dw ?.
    split; [lia|]. intros x y. lia.
  - unfold Rect_clip, Extent_area. geometry.
    destruct (N.ltb_spec x0 w), (N.ltb_spec y0 h); geometry;
      repeat match goal with |- context [?a <? ?b] => destruct (N.ltb_spec a b) end; geometry.
    all: split; [lia|]; intros x y; lia.
Qed.

Lemma layout_partitions_witness :
  framed (Rect_inset (mkRect 0 0 80 25)) /\
  forall x y, in_rect (Rect_inset (mkRect 0 0 80 25)) x y -> in_rect (mkRect 0 0 80 25) x y.
Proof.
  refine (proj1 (proj2 (proj2 (layout_partitions (mkRect 0 0 80 25) (mkExtent 80 25) 30 50 50 _ _)))).
  - vm_compute. split; discriminate.
  - exists 80, 25. vm_compute. reflexivity.
Defined.

(** Glyphs are placed on cells of their own.  In an admitted frame a glyph is placed exactly when
    all its columns fit on an existing line; its cells then lie in the frame's buffer, on one line;
    and glyphs at different positions never start at the same cell. *)
Theorem placements_are_cells (extent : Extent) (glyph : Glyph) (columns nbytes w h x y : N)
    (admitted : Extent_new w h = Ok extent) (drawn : Glyph_new columns nbytes = Ok glyph)
    (u16 : x <= u16_max) :
  (is_ok (Extent_place extent x y glyph) = true <-> y < h /\ x + Glyph_columns glyph <= w) /\
  (forall p, Extent_place extent x y glyph = Ok p ->
     index p + Glyph_columns glyph <= Extent_cells extent /\
     index p / w = y /\ (index p + Glyph_columns glyph - 1) / w = y /\
     next p = x + Glyph_columns glyph /\
     forall x' y' glyph' p', Extent_place extent x' y' glyph' = Ok p' -> 0 < Glyph_columns glyph' ->
       index p' = index p -> x' = x /\ y' = y).
Proof.
  revert admitted drawn. unfold Extent_new, Glyph_new, MAX_COLUMNS, MAX_LINES, u16_max in *.
  destruct (N.ltb_spec 512 w); [done|]. destruct (N.ltb_spec 256 h); [done|]. intros [= <-].
  destruct ((nbytes =? 0) || (MAX_GLYPH_BYTES <? nbytes)); [done|].
  intros Hg. assert (Hc : 0 < Glyph_columns glyph <= 2).
  { destruct (columns =? 1); [injection Hg as <-; cbn; lia|].
    destruct (columns =? 2); [injection Hg as <-; cbn; lia|done]. }
  assert (Hplace : forall x y g p,
    Extent_place (mkExtent w h) x y g = Ok p <->
    y < h /\ x + Glyph_columns g <= w /\ p = mkPlacement (y * w + x) (x + Glyph_columns g)).
  { clear x u16 y. intros x y g p. unfold Extent_place. cbn [Extent_width Extent_height].
    destruct (checked_add u16_max x (Glyph_columns g)) as [n|] eqn:En.
    2: { apply checked_add_None in En. unfold u16_max in En. split; [done|lia]. }
    apply checked_add_Some in En as [-> _].
    destruct (N.leb_spec h y); cbn [orb]; [split; [done|lia]|].
    destruct (N.ltb_spec w (x + Glyph_columns g)); [split; [done|lia]|].
    unfold saturating_add, saturating_mul, usize_max, u64_max.
    assert (y * w <= 256 * 512) by nia. rewrite !N.min_l by lia.
    split; [intros [= <-]|intros (_ & _ & ->)]; done. }
  split.
  - rewrite is_ok_true. setoid_rewrite Hplace. split; [by intros (p & ? & ? & _)|]. intros [? ?]. eauto.
  - intros p Hp. apply Hplace in Hp as (Hy & Hx & ->). cbn [index next].
    unfold Extent_cells, saturating_mul, usize_max, u64_max. cbn [Extent_width Extent_height].
    assert (y * w <= 256 * 512) by nia. assert (w * h <= 256 * 512) by nia.
    assert ((y + 1) * w <= w * h) by nia.
    rewrite N.min_l by lia. split; [lia|].
    split; [symmetry; apply (N.div_unique _ _ _ x); lia|].
    split; [symmetry; apply (N.div_unique _ _ _ (x + Glyph_columns glyph - 1)); lia|].
    split; [done|]. intros x' y' g' p' Hp' Hc' Hi. apply Hplace in Hp' as (Hy' & Hx' & ->).
    cbn [index] in Hi.
    assert (y' = y).
    { rewrite (N.div_unique (y * w + x) w y' x') by lia. symmetry. apply (N.div_unique _ _ _ x); lia. }
    subst. split; [lia|done].
Qed.

Lemma placements_are_cells_witness :
  is_ok (Extent_place (mkExtent 80 25) 78 24 (mkGlyph 2)) = true.
Proof.
  apply (placements_are_cells (mkExtent 80 25) (mkGlyph 2) 2 3 80 25 78 24);
    [vm_compute; reflexivity|vm_compute; reflexivity|vm_compute; discriminate|].
  vm_compute. split; [reflexivity|discriminate].
Defined.

(** Sessions of a dashboard: requests for a refresh and answers that arrive. *)
Inductive RefreshOp := Request | Complete (generation : N) | View (generation : N) (scope : IdentityMatch).

(** The generations accepted, in order. *)
Fixpoint refresh_run (self : Refresh) (ops : list RefreshOp) : Refresh * list N :=
  match ops with
  | [] => (self, [])
  | Request :: ops => refresh_run (Refresh_request self).1 ops
  | Complete g :: ops =>
      let '(self, done) := Refresh_complete self g in
      let '(self, rest) := refresh_run self ops in
      (self, if done then g :: rest else rest)
  | View g scope :: ops =>
      let '(self, shown) := Refresh_complete_view self g scope in
      let '(self, rest) := refresh_run self ops in
      (self, if shown then g :: rest else rest)
  end.

Definition refresh_ok (r : Refresh) : Prop := forall g, pending r = Some g -> g = accepted r + 1.

Lemma Refresh_request_ok r : refresh_ok r ->
  refresh_ok (Refresh_request r).1 /\ accepted (Refresh_request r).1 = accepted r /\
  ((Refresh_request r).2 = None <-> pending r <> None \/ u64_max <= accepted r) /\
  forall g, (Refresh_request r).2 = Some g -> pending (Refresh_request r).1 = Some g /\ g = accepted r + 1.
Proof.
  intros Hr. unfold Refresh_request. destruct (pending r) as [g|] eqn:Ep.
  { split; [done|]. split; [done|]. split; [|done]. split; [by left|done]. }
  destruct (checked_add u64_max (accepted r) 1) as [g|] eqn:Eg.
  - apply checked_add_Some in Eg as [-> Hle]. split; [by intros g [= <-]|]. split; [done|].
    split; [split; [done|]; intros [?|?]; [done|lia]|]. by intros g [= <-].
  - apply checked_add_None in Eg. split; [done|]. split; [done|]. split; [|done].
    split; [right; lia|done].
Qed.

Lemma Refresh_complete_ok r g : refresh_ok r ->
  refresh_ok (Refresh_complete r g).1 /\
  ((Refresh_complete r g).2 = true <-> pending r = Some g) /\
  accepted (Refresh_complete r g).1 = (if (Refresh_complete r g).2 then accepted r + 1 else accepted r) /\
  ((Refresh_complete r g).2 = true -> g = accepted r + 1).
Proof.
  intros Hr. unfold Refresh_complete. destruct (bool_decide_reflect (pending r = Some g)) as [Hp|Hp]; cbn.
  - pose proof (Hr g Hp) as ->. rewrite (proj2 (N.leb_gt _ _)) by lia. cbn. repeat split; done.
  - repeat split; done.
Qed.

Lemma refresh_run_sorted ops : forall r, refresh_ok r ->
  refresh_ok (refresh_run r ops).1 /\ accepted r <= accepted (refresh_run r ops).1 /\
  (forall g, g ∈ (refresh_run r ops).2 -> accepted r < g <= accepted (refresh_run r ops).1) /\
  Sorted.StronglySorted N.lt (refresh_run r ops).2.
Proof.
  induction ops as [|[|g|g scope] ops IH]; intros r Hr; cbn [refresh_run].
  - cbn. split; [done|]. split; [lia|]. split; [intros g Hg; by apply elem_of_nil in Hg|constructor].
  - pose proof (Refresh_request_ok r Hr) as (Hr' & Ha & _). rewrite <- Ha. by apply IH.
  - pose proof (Refresh_complete_ok r g Hr) as (Hr' & _ & Ha & Hg).
    destruct (Refresh_complete r g) as [r' d]. cbn in *. specialize (IH r' Hr').
    destruct (refresh_run r' ops) as [r'' rest]. cbn in *. destruct IH as (H1 & H2 & H3 & H4).
    destruct d; cbn.
    + rewrite (Hg eq_refl). split; [done|]. split; [lia|]. split.
      * intros g' [->|Hin]%elem_of_cons; [lia|]. apply H3 in Hin. lia.
      * constructor; [done|]. apply Forall_forall. intros g' Hin. apply H3 in Hin. lia.
    + rewrite <- Ha. done.
  - unfold Refresh_complete_view. pose proof (Refresh_complete_ok r g Hr) as (Hr' & _ & Ha & Hg).
    destruct (Refresh_complete r g) as [r' d]. cbn in *. specialize (IH r' Hr').
    destruct (refresh_run r' ops) as [r'' rest]. cbn in *. destruct IH as (H1 & H2 & H3 & H4).
    destruct d; cbn.
    + pose proof (Hg eq_refl) as ->. destruct (exact scope).
      * split; [done|]. split; [lia|]. split.
        -- intros g' [->|Hin]%elem_of_cons; [lia|]. apply H3 in Hin. lia.
        -- constructor; [done|]. apply Forall_forall. intros g' Hin. apply H3 in Hin. lia.
      * split; [done|]. split; [lia|]. split; [|done]. intros g' Hin. apply H3 in Hin. lia.
    + rewrite <- Ha. done.
Qed.

(** A dashboard shows fresh answers only.  Whatever requests it makes and whatever answers arrive,
    in any order, late or repeated, the generations it accepts strictly increase, so no answer is
    shown twice or after a newer one; at most one request is outstanding, for the next generation;
    and an answer is accepted exactly when it is the outstanding one. *)
Theorem refresh_generations (ops : list RefreshOp) (generation : N) :
  let r := (refresh_run Refresh_default ops).1 in
  Sorted.StronglySorted N.lt (refresh_run Refresh_default ops).2 /\
  (forall g, pending r = Some g -> g = accepted r + 1) /\
  ((Refresh_complete r generation).2 = true <-> pending r = Some generation) /\
  ((Refresh_request r).2 = None <-> pending r <> None \/ u64_max <= accepted r).
Proof.
  assert (H0 : refresh_ok Refresh_default) by done.
  destruct (refresh_run_sorted ops _ H0) as (H1 & _ & _ & H4). cbv zeta.
  split; [done|]. split; [exact H1|].
  split; [apply (Refresh_complete_ok _ generation H1)|apply (Refresh_request_ok _ H1)].
Qed.

(** *** Selection and query *)

Lemma navigate_range selected count movement :
  (navigate selected count movement = None <-> count = 0) /\
  forall i, navigate selected count movement = Some i -> i < count.
Proof.
  unfold navigate. destruct (checked_sub count 1) as [last|] eqn:El.
  - apply checked_sub_Some in El as [Hc ->]. split.
    + split; [|lia]. destruct movement; try done. by destruct (negb _).
    + intros i. unfold saturating_sub, saturating_add. destruct movement.
      * intros [= <-]. destruct selected as [s|]; [|lia]. destruct (N.ltb_spec s count); lia.
      * destruct selected as [s|]; cbn; [|intros [= <-]; lia].
        destruct (N.ltb_spec s count); cbn; [|intros [= <-]; lia].
        match goal with |- context [?a <? ?b] => destruct (N.ltb_spec a b) end; intros [= <-]; lia.
      * intros [= <-]. lia.
      * intros [= <-]. lia.
  - apply checked_sub_None in El. split; [|done]. split; [lia|done].
Qed.

Lemma query_push_bounded query character : str_len query <= MAX_QUERY_BYTES ->
  is_scalar character = true ->
  str_len (query_push query character).1 <= MAX_QUERY_BYTES.
Proof.
  intros Hq Hc. unfold query_push. destruct (query_admits (str_len query) character) eqn:E; [|done].
  unfold query_admits in E. destruct (display_char character); [|done].
  destruct (checked_add _ _ _) as [t|] eqn:Et; [|done]. apply checked_add_Some in Et as [-> _].
  apply N.leb_le in E. cbn [negb fst]. rewrite str_len_bytes, bytes_app, length_app.
  rewrite str_len_bytes in E. unfold of_chars. cbn [map concat]. rewrite app_nil_r.
  rewrite bytes_of_bytes by (by apply encode_char_bytes). unfold len_utf8 in E. lia.
Qed.
