(* ===== verification/Terminal.v ===== *)
(** terminal_input.rs with sequence.rs, unicode.rs and control.rs: keys, the bounded byte buffer,
    UTF-8 scalars, the parameters of control sequences, and the arithmetic of terminal modes. *)

From Stdlib Require Import NArith ZArith Lia String Ascii.
From stdpp Require Import base gmap list strings.
From S2P Require Import Prelude RustStr RustText.

(** ** Definitions *)

(** *** terminal_input.rs *)

Definition WINDOWS_PROCESSED_INPUT : N := 1.
Definition WINDOWS_LINE_INPUT : N := 2.
Definition WINDOWS_ECHO_INPUT : N := 4.
Definition WINDOWS_WINDOW_INPUT : N := 8.
Definition WINDOWS_QUICK_EDIT : N := 64.
Definition WINDOWS_EXTENDED_FLAGS : N := 128.
Definition WINDOWS_VIRTUAL_INPUT : N := 512.
Definition WINDOWS_PROCESSED_OUTPUT : N := 1.
Definition WINDOWS_VIRTUAL_OUTPUT : N := 4.
Definition WINDOWS_DELAYED_WRAP : N := 8.
Definition MAX_TERMINAL_FD : Z := 65536.
Definition MAX_POLL_MILLIS : N := 100.
Definition WINDOWS_ALT_KEY : N := 18.
Definition NANOS_PER_MILLI : Z := 1000000.

(** Checked arithmetic on signed integers of [bits] bits. *)
Definition signed_checked (bits : N) (value : Z) : option Z :=
  if (- 2 ^ (Z.of_N bits - 1) <=? value)%Z && (value <? 2 ^ (Z.of_N bits - 1))%Z
  then Some value else None.

Definition descriptor_span (fd : Z) : option Z :=
  if (fd <? 0)%Z || (MAX_TERMINAL_FD <=? fd)%Z then None else signed_checked 32 (fd + 1).

Definition poll_nanos (millis : N) : option Z :=
  if MAX_POLL_MILLIS <? millis then None else
  match signed_checked 64 (Z.of_N millis) with
  | Some millis => signed_checked 64 (millis * NANOS_PER_MILLI)
  | None => None
  end.

Record ConsoleViewport := mkConsoleViewport { width : N; height : N }.

(** [u16::try_from] of an [i16]. *)
Definition u16_try_from (value : Z) : option N := if (value <? 0)%Z then None else Some (Z.to_N value).

Definition console_viewport (left_ top right_ bottom : Z) : option ConsoleViewport :=
  left_ ← u16_try_from left_;
  top ← u16_try_from top;
  right_ ← u16_try_from right_;
  bottom ← u16_try_from bottom;
  width ← checked_sub right_ left_;
  width ← checked_add u16_max width 1;
  height ← checked_sub bottom top;
  height ← checked_add u16_max height 1;
  Some (mkConsoleViewport width height).

(** Bitwise complement of a [u32]. *)
Definition not32 (n : N) : N := N.lxor n u32_max.

Definition windows_input_mode (original : N) : N :=
  let removed :=
    N.lor (N.lor (N.lor (N.lor WINDOWS_PROCESSED_INPUT WINDOWS_LINE_INPUT) WINDOWS_ECHO_INPUT)
             WINDOWS_QUICK_EDIT) WINDOWS_VIRTUAL_INPUT in
  N.lor (N.lor (N.land original (not32 removed)) WINDOWS_WINDOW_INPUT) WINDOWS_EXTENDED_FLAGS.

Definition windows_output_mode (original : N) : N :=
  N.lor (N.lor (N.lor original WINDOWS_PROCESSED_OUTPUT) WINDOWS_VIRTUAL_OUTPUT) WINDOWS_DELAYED_WRAP.

Inductive KeyCode :=
| KeyCode_Backspace | KeyCode_Enter | KeyCode_Left | KeyCode_Right | KeyCode_Up | KeyCode_Down
| KeyCode_Home | KeyCode_End | KeyCode_PageUp | KeyCode_PageDown | KeyCode_Tab | KeyCode_BackTab
| KeyCode_Delete | KeyCode_Insert | KeyCode_Esc | KeyCode_F (number : N) | KeyCode_Char (c : N)
| KeyCode_Null.
#[export] Instance KeyCode_eq_dec : EqDecision KeyCode.
Proof. solve_decision. Defined.

Inductive Modifier := Modifier_Control | Modifier_Alt | Modifier_Shift.

Record KeyModifiers := mkKeyModifiers { KeyModifiers_bits : N }.
#[export] Instance KeyModifiers_eq_dec : EqDecision KeyModifiers.
Proof. solve_decision. Defined.

Definition CONTROL : N := 1.
Definition ALT : N := 2.
Definition SHIFT : N := 4.
Definition KeyModifiers_NONE : KeyModifiers := mkKeyModifiers 0.
Definition KeyModifiers_CONTROL : KeyModifiers := mkKeyModifiers CONTROL.
Definition KeyModifiers_ALT : KeyModifiers := mkKeyModifiers ALT.
Definition KeyModifiers_SHIFT : KeyModifiers := mkKeyModifiers SHIFT.

Definition KeyModifiers_contains (self other : KeyModifiers) : bool :=
  N.land (KeyModifiers_bits self) (KeyModifiers_bits other) =? KeyModifiers_bits other.

Definition KeyModifiers_with (self : KeyModifiers) (modifier : Modifier) : KeyModifiers :=
  let flag := match modifier with
              | Modifier_Control => CONTROL
              | Modifier_Alt => ALT
              | Modifier_Shift => SHIFT
              end in
  mkKeyModifiers (N.lor (KeyModifiers_bits self) flag).

Inductive KeyEventKind := KeyEventKind_Press | KeyEventKind_Repeat | KeyEventKind_Release.
#[export] Instance KeyEventKind_eq_dec : EqDecision KeyEventKind.
Proof. solve_decision. Defined.

Record KeyEvent := mkKeyEvent {
  KeyEvent_code : KeyCode;
  KeyEvent_modifiers : KeyModifiers;
  KeyEvent_kind : KeyEventKind
}.
#[export] Instance KeyEvent_eq_dec : EqDecision KeyEvent.
Proof. solve_decision. Defined.

Definition KeyEvent_new (code : KeyCode) (modifiers : KeyModifiers) : KeyEvent :=
  mkKeyEvent code modifiers KeyEventKind_Press.

Definition KeyEvent_with_kind (self : KeyEvent) (kind : KeyEventKind) : KeyEvent :=
  mkKeyEvent (KeyEvent_code self) (KeyEvent_modifiers self) kind.

Inductive Decoded := Decoded_Key (key : KeyEvent) | Decoded_Pending | Decoded_Ignored.
#[export] Instance Decoded_eq_dec : EqDecision Decoded.
Proof. solve_decision. Defined.

(** *** terminal_input/sequence.rs *)

Definition MAX_SEQUENCE_BYTES : N := 32.

(** [bytes] is the fixed array, [used] how much of it is content. *)
Record Sequence := mkSequence { Sequence_bytes : list N; used : N }.

Definition Sequence_default : Sequence := mkSequence (replicate (N.to_nat MAX_SEQUENCE_BYTES) 0) 0.

Definition Sequence_clear (self : Sequence) : Sequence := mkSequence (Sequence_bytes self) 0.

Definition Sequence_len (self : Sequence) : N := used self.

Definition Sequence_content (self : Sequence) : option (list N) :=
  if used self <=? N.of_nat (length (Sequence_bytes self))
  then Some (take (N.to_nat (used self)) (Sequence_bytes self)) else None.

Definition Sequence_push (self : Sequence) (byte : N) : Sequence * bool :=
  match Sequence_bytes self !! N.to_nat (used self) with
  | None => (self, false)
  | Some _ =>
      (mkSequence (<[N.to_nat (used self) := byte]> (Sequence_bytes self))
         (saturating_add usize_max (used self) 1), true)
  end.

(** *** terminal_input/unicode.rs *)

Definition TWO_FIRST : N := 0xc2.
Definition TWO_LAST : N := 0xdf.
Definition THREE_FIRST : N := 0xe0.
Definition THREE_LAST : N := 0xef.
Definition FOUR_FIRST : N := 0xf0.
Definition FOUR_LAST : N := 0xf4.
Definition CONTINUATION_MASK : N := 0xc0.
Definition CONTINUATION : N := 0x80.
Definition PAYLOAD_MASK : N := 0x3f.
Definition PAYLOAD_SHIFT : N := 6.

(** [u32::checked_shl] refuses the shift amount only. *)
Definition checked_shl32 (value shift : N) : option N :=
  if shift <? 32 then Some (N.shiftl value shift mod 2 ^ 32) else None.

(** The loop of [scalar]. *)
Fixpoint scalar_payload (scalar : N) (rest : list N) : option N :=
  match rest with
  | [] => Some scalar
  | byte :: rest =>
      if negb (N.land byte CONTINUATION_MASK =? CONTINUATION) then None else
      shifted ← checked_shl32 scalar PAYLOAD_SHIFT;
      scalar ← checked_add u32_max shifted (N.land byte PAYLOAD_MASK);
      scalar_payload scalar rest
  end.

(** The length of a sequence, the mask of its first byte's payload and its least scalar. *)
Definition scalar_class (first : N) : option (N * N * N) :=
  if in_range TWO_FIRST TWO_LAST first then Some (2, 0x1f, 0x80)
  else if in_range THREE_FIRST THREE_LAST first then Some (3, 0x0f, 0x800)
  else if in_range FOUR_FIRST FOUR_LAST first then Some (4, 0x07, 0x10000)
  else None.

Definition scalar (bytes : list N) : option N :=
  match bytes with
  | [] => None
  | first :: rest =>
      match scalar_class first with
      | None => None
      | Some (length_, mask, minimum) =>
          if negb (N.of_nat (length bytes) =? length_) then None else
          scalar ← scalar_payload (N.land first mask) rest;
          if scalar <? minimum then None else char_from_u32 scalar
      end
  end.

(** *** terminal_input/control.rs *)

Definition DECIMAL : N := 10.
Definition ASCII_ZERO : N := byte_of "0".
Definition MAX_FIELDS : N := 3.
Definition DEFAULT_MODIFIER : N := 1.
Definition MAX_MODIFIER : N := 8.
Definition TILDE_KEYS : list (N * KeyCode) :=
  [(1, KeyCode_Home); (2, KeyCode_Insert); (3, KeyCode_Delete); (4, KeyCode_End);
   (5, KeyCode_PageUp); (6, KeyCode_PageDown); (7, KeyCode_Home); (8, KeyCode_End);
   (11, KeyCode_F 1); (12, KeyCode_F 2); (13, KeyCode_F 3); (14, KeyCode_F 4); (15, KeyCode_F 5);
   (17, KeyCode_F 6); (18, KeyCode_F 7); (19, KeyCode_F 8); (20, KeyCode_F 9); (21, KeyCode_F 10);
   (23, KeyCode_F 11); (24, KeyCode_F 12)].

(** The loop of [fields]. *)
Fixpoint fields_loop (fields : list N) (position : N) (bytes : list N) : option (list N) :=
  match bytes with
  | [] => Some fields
  | byte :: bytes =>
      if (byte =? byte_of ";") || (byte =? byte_of ":") then
        position ← checked_add usize_max position 1;
        if MAX_FIELDS <=? position then None else fields_loop fields position bytes
      else
        digit ← checked_sub byte ASCII_ZERO;
        if DECIMAL <=? digit then None else
        slot ← fields !! N.to_nat position;
        slot ← checked_mul u32_max slot DECIMAL;
        slot ← checked_add u32_max slot digit;
        fields_loop (<[N.to_nat position := slot]> fields) position bytes
  end.

Definition fields (bytes : list N) : option (list N) :=
  fields_loop (replicate (N.to_nat MAX_FIELDS) 0) 0 bytes.

Definition modifiers_flags : list (N * Modifier) :=
  [(1, Modifier_Shift); (2, Modifier_Alt); (4, Modifier_Control)].

Definition modifiers (value : N) : option KeyModifiers :=
  let value := if value =? 0 then DEFAULT_MODIFIER else value in
  if MAX_MODIFIER <? value then None else
  bits ← checked_sub value DEFAULT_MODIFIER;
  Some (foldl (fun modifiers '(flag, modifier) =>
                 if negb (N.land bits flag =? 0) then KeyModifiers_with modifiers modifier else modifiers)
          KeyModifiers_NONE modifiers_flags).

Definition split_last (l : list N) : option (N * list N) :=
  match rev l with
  | [] => None
  | last :: front => Some (last, rev front)
  end.

(** What the final byte of a sequence names: a key, the back tab, or nothing. *)
Definition final_code (last first : N) : option KeyCode :=
  if last =? byte_of "A" then Some KeyCode_Up
  else if last =? byte_of "B" then Some KeyCode_Down
  else if last =? byte_of "C" then Some KeyCode_Right
  else if last =? byte_of "D" then Some KeyCode_Left
  else if last =? byte_of "H" then Some KeyCode_Home
  else if last =? byte_of "F" then Some KeyCode_End
  else if last =? byte_of "P" then Some (KeyCode_F 1)
  else if last =? byte_of "Q" then Some (KeyCode_F 2)
  else if last =? byte_of "R" then Some (KeyCode_F 3)
  else if last =? byte_of "S" then Some (KeyCode_F 4)
  else if last =? byte_of "~" then
    snd <$> List.find (fun '(value, _) => value =? first) TILDE_KEYS
  else if last =? byte_of "u" then
    if first =? 0 then Some KeyCode_Null else KeyCode_Char <$> char_from_u32 first
  else None.

Definition event_kind (kind : N) : option KeyEventKind :=
  if (kind =? 0) || (kind =? DEFAULT_MODIFIER) then Some KeyEventKind_Press
  else if kind =? 2 then Some KeyEventKind_Repeat
  else if kind =? 3 then Some KeyEventKind_Release
  else None.

Definition key (bytes : list N) : option KeyEvent :=
  match split_last bytes with
  | None => None
  | Some (last, parameters) =>
      match fields parameters with
      | Some [first; modifier; kind] =>
          if last =? byte_of "Z" then Some (KeyEvent_new KeyCode_BackTab KeyModifiers_SHIFT) else
          code ← final_code last first;
          modifiers ← modifiers modifier;
          let event := KeyEvent_new code modifiers in
          kind ← event_kind kind;
          Some (KeyEvent_with_kind event kind)
      | _ => None
      end
  end.

(** ** Lemmas *)

(** A sequence holds [l]: its array has its fixed size and [l] is its content. *)
Definition holds (s : Sequence) (l : list N) : Prop :=
  length (Sequence_bytes s) = N.to_nat MAX_SEQUENCE_BYTES /\
  used s = N.of_nat (length l) /\ take (length l) (Sequence_bytes s) = l.

Lemma holds_default : holds Sequence_default [].
Proof. done. Qed.

Lemma holds_clear s l : holds s l -> holds (Sequence_clear s) [].
Proof. intros (H & _ & _). done. Qed.

Lemma holds_bound s l : holds s l -> (length l <= 32)%nat /\ Sequence_len s = N.of_nat (length l).
Proof.
  intros (Hl & Hu & Ht). split; [|done].
  rewrite <- Ht, length_take, Hl. unfold MAX_SEQUENCE_BYTES. lia.
Qed.

Lemma holds_content s l : holds s l -> Sequence_content s = Some l.
Proof.
  intros Hs. pose proof (holds_bound _ _ Hs) as [Hb _]. destruct Hs as (Hl & Hu & Ht).
  unfold Sequence_content. rewrite Hu, Hl, Nat2N.id, Ht.
  by rewrite (proj2 (N.leb_le _ _)) by (unfold MAX_SEQUENCE_BYTES; lia).
Qed.

Lemma holds_push s l b : holds s l -> (length l < 32)%nat ->
  exists s', Sequence_push s b = (s', true) /\ holds s' (l ++ [b]).
Proof.
  intros (Hl & Hu & Ht) Hlt. unfold Sequence_push. rewrite Hu, Nat2N.id.
  destruct (lookup_lt_is_Some_2 (Sequence_bytes s) (length l)) as [x Hx].
  { rewrite Hl. unfold MAX_SEQUENCE_BYTES. lia. }
  rewrite Hx. eexists. split; [reflexivity|]. unfold holds. cbn.
  rewrite length_insert, length_app. cbn. split; [done|]. split.
  - unfold saturating_add, usize_max, u64_max. lia.
  - rewrite Nat.add_1_r, (take_S_r _ _ b).
    + by rewrite take_insert_ge, Ht by lia.
    + apply list_lookup_insert_eq. by eapply lookup_lt_Some.
Qed.

Lemma holds_push_full s l b : holds s l -> (32 <= length l)%nat -> Sequence_push s b = (s, false).
Proof.
  intros (Hl & Hu & Ht) Hge. unfold Sequence_push. rewrite Hu, Nat2N.id.
  rewrite lookup_ge_None_2; [done|]. rewrite Hl. unfold MAX_SEQUENCE_BYTES. lia.
Qed.

(** Masks on bytes, by looking at the 256 of them. *)
Lemma byte_cases (p : N -> bool) : forallb p (map N.of_nat (seq 0 256)) = true ->
  forall b, b < 256 -> p b = true.
Proof.
  intros H b Hb. rewrite forallb_forall in H. apply H, in_map_iff. exists (N.to_nat b).
  split; [apply N2Nat.id|]. apply in_seq. lia.
Qed.

Lemma continuation_mask b : b < 256 ->
  (N.land b CONTINUATION_MASK =? CONTINUATION) = continuation b.
Proof.
  intros Hb. apply eqb_prop.
  apply (byte_cases (fun b => Bool.eqb (N.land b CONTINUATION_MASK =? CONTINUATION) (continuation b)));
    [vm_compute; reflexivity|done].
Qed.

Lemma payload_mask b : b < 256 -> continuation b = true -> N.land b PAYLOAD_MASK = b - 128.
Proof.
  intros Hb Hc. unfold continuation in Hc. apply in_range_spec in Hc.
  unfold PAYLOAD_MASK. change 0x3f with (N.ones 6). rewrite N.land_ones. change (2 ^ 6) with 64. dlia.
Qed.

Lemma scalar_payload_cons s b rest : b < 256 -> s < 67108864 ->
  scalar_payload s (b :: rest)
  = if continuation b then scalar_payload (s * 64 + (b - 128)) rest else None.
Proof.
  intros Hb Hs. cbn [scalar_payload]. rewrite (continuation_mask b Hb).
  destruct (continuation b) eqn:Hc; [|done]. cbn.
  rewrite (payload_mask b Hb Hc). unfold continuation in Hc. apply in_range_spec in Hc.
  rewrite N.shiftl_mul_pow2. change (2 ^ PAYLOAD_SHIFT) with 64.
  rewrite N.mod_small by (change (2 ^ 32) with 4294967296; lia).
  unfold checked_add. rewrite (proj2 (N.leb_le _ _)); [done|]. unfold u32_max. lia.
Qed.

Lemma first_mask b w : N.land b (N.ones w) = b mod 2 ^ w.
Proof. apply N.land_ones. Qed.

Lemma scalar_class_first b : b < 256 ->
  scalar_class b = None \/
  (194 <= b <= 223 /\ scalar_class b = Some (2, 31, 128) /\ N.land b 31 = b - 192) \/
  (224 <= b <= 239 /\ scalar_class b = Some (3, 15, 2048) /\ N.land b 15 = b - 224) \/
  (240 <= b <= 244 /\ scalar_class b = Some (4, 7, 65536) /\ N.land b 7 = b - 240).
Proof.
  intros Hb. unfold scalar_class, TWO_FIRST, TWO_LAST, THREE_FIRST, THREE_LAST, FOUR_FIRST, FOUR_LAST.
  destruct (in_range 0xc2 0xdf b) eqn:E2; [apply in_range_spec in E2|].
  { right; left. split; [done|]. split; [done|]. change 31 with (N.ones 5). rewrite first_mask.
    change (2 ^ 5) with 32. dlia. }
  destruct (in_range 0xe0 0xef b) eqn:E3; [apply in_range_spec in E3|].
  { right; right; left. split; [done|]. split; [done|]. change 15 with (N.ones 4). rewrite first_mask.
    change (2 ^ 4) with 16. dlia. }
  destruct (in_range 0xf0 0xf4 b) eqn:E4; [apply in_range_spec in E4|by left].
  right; right; right. split; [done|]. split; [done|]. change 7 with (N.ones 3). rewrite first_mask.
  change (2 ^ 3) with 8. dlia.
Qed.

Lemma is_scalar_spec c : is_scalar c = true <-> c < 55296 \/ 57343 < c < 1114112.
Proof. unfold is_scalar. rewrite orb_true_iff, andb_true_iff, !N.ltb_lt. lia. Qed.

Lemma char_from_u32_Some c c' : char_from_u32 c = Some c' <-> c = c' /\ is_scalar c = true.
Proof. unfold char_from_u32. destruct (is_scalar c); naive_solver. Qed.

(** [scalar] as a formula, by the class of the first byte. *)
Lemma scalar_two b0 b1 : 194 <= b0 <= 223 -> b1 < 256 ->
  scalar [b0; b1] = if continuation b1 then Some ((b0 - 192) * 64 + (b1 - 128)) else None.
Proof.
  intros H0 H1. destruct (scalar_class_first b0) as [E|[(? & E & M)|[(? & E & M)|(? & E & M)]]]; try lia.
  { exfalso. unfold scalar_class in E. by rewrite (in_range_true TWO_FIRST TWO_LAST) in E. }
  unfold scalar. rewrite E. cbn [length N.of_nat negb N.eqb]. rewrite M, scalar_payload_cons by lia.
  destruct (continuation b1) eqn:Hc; [|done]. unfold continuation in Hc. apply in_range_spec in Hc.
  cbn [mbind option_bind scalar_payload]. rewrite (proj2 (N.ltb_ge _ _)) by lia.
  unfold char_from_u32. by rewrite (proj2 (is_scalar_spec _)) by lia.
Qed.

Lemma scalar_three b0 b1 b2 : 224 <= b0 <= 239 -> b1 < 256 -> b2 < 256 ->
  let c := (b0 - 224) * 4096 + (b1 - 128) * 64 + (b2 - 128) in
  scalar [b0; b1; b2]
  = if continuation b1 && continuation b2 && (2048 <=? c) && is_scalar c then Some c else None.
Proof.
  intros H0 H1 H2 c.
  destruct (scalar_class_first b0) as [E|[(? & E & M)|[(? & E & M)|(? & E & M)]]]; try lia.
  { exfalso. unfold scalar_class in E.
    by rewrite (in_range_false TWO_FIRST TWO_LAST), (in_range_true THREE_FIRST THREE_LAST) in E
      by (unfold TWO_FIRST, TWO_LAST, THREE_FIRST, THREE_LAST; lia). }
  unfold scalar. rewrite E. cbn [length N.of_nat Pos.of_succ_nat Pos.succ negb N.eqb Pos.eqb].
  rewrite M, scalar_payload_cons by lia.
  destruct (continuation b1) eqn:Hc1; [|done]. unfold continuation in Hc1. apply in_range_spec in Hc1.
  rewrite scalar_payload_cons by lia.
  destruct (continuation b2) eqn:Hc2; [|done]. unfold continuation in Hc2. apply in_range_spec in Hc2.
  cbn [mbind option_bind scalar_payload andb].
  replace (((b0 - 224) * 64 + (b1 - 128)) * 64 + (b2 - 128)) with c by (subst c; lia).
  rewrite N.ltb_antisym. by destruct (2048 <=? c).
Qed.

Lemma scalar_four b0 b1 b2 b3 : 240 <= b0 <= 244 -> b1 < 256 -> b2 < 256 -> b3 < 256 ->
  let c := (b0 - 240) * 262144 + (b1 - 128) * 4096 + (b2 - 128) * 64 + (b3 - 128) in
  scalar [b0; b1; b2; b3]
  = if continuation b1 && continuation b2 && continuation b3 && (65536 <=? c) && is_scalar c
    then Some c else None.
Proof.
  intros H0 H1 H2 H3 c.
  destruct (scalar_class_first b0) as [E|[(? & E & M)|[(? & E & M)|(? & E & M)]]]; try lia.
  { exfalso. unfold scalar_class in E.
    by rewrite (in_range_false TWO_FIRST TWO_LAST), (in_range_false THREE_FIRST THREE_LAST),
      (in_range_true FOUR_FIRST FOUR_LAST) in E
      by (unfold TWO_FIRST, TWO_LAST, THREE_FIRST, THREE_LAST, FOUR_FIRST, FOUR_LAST; lia). }
  unfold scalar. rewrite E. cbn [length N.of_nat Pos.of_succ_nat Pos.succ negb N.eqb Pos.eqb].
  rewrite M, scalar_payload_cons by lia.
  destruct (continuation b1) eqn:Hc1; [|done]. unfold continuation in Hc1. apply in_range_spec in Hc1.
  rewrite scalar_payload_cons by lia.
  destruct (continuation b2) eqn:Hc2; [|done]. unfold continuation in Hc2. apply in_range_spec in Hc2.
  rewrite scalar_payload_cons by lia.
  destruct (continuation b3) eqn:Hc3; [|done]. unfold continuation in Hc3. apply in_range_spec in Hc3.
  cbn [mbind option_bind scalar_payload andb].
  replace ((((b0 - 240) * 64 + (b1 - 128)) * 64 + (b2 - 128)) * 64 + (b3 - 128)) with c by (subst c; lia).
  rewrite N.ltb_antisym. by destruct (65536 <=? c).
Qed.

Lemma scalar_encode c : is_scalar c = true -> 128 <= c -> scalar (encode_char c) = Some c.
Proof.
  intros Hs Hge. pose proof (proj1 (is_scalar_spec c) Hs) as Hr.
  unfold encode_char. rewrite (proj2 (N.ltb_ge c 128)) by lia.
  destruct (N.ltb_spec c 2048); [|destruct (N.ltb_spec c 65536)].
  - rewrite scalar_two by dlia. unfold continuation. rewrite in_range_true by dlia. f_equal. dlia.
  - rewrite scalar_three by dlia. unfold continuation. rewrite !in_range_true by dlia. cbn [andb].
    match goal with |- (if (_ <=? ?x) && _ then _ else _) = _ => replace x with c by dlia end.
    by rewrite Hs, (proj2 (N.leb_le _ _)) by lia.
  - rewrite scalar_four by dlia. unfold continuation. rewrite !in_range_true by dlia. cbn [andb].
    match goal with |- (if (_ <=? ?x) && _ then _ else _) = _ => replace x with c by dlia end.
    by rewrite Hs, (proj2 (N.leb_le _ _)) by lia.
Qed.

Lemma scalar_length l c : Forall (fun b => b < 256) l -> scalar l = Some c ->
  exists b0 rest, l = b0 :: rest /\
    (194 <= b0 <= 223 /\ length rest = 1%nat \/ 224 <= b0 <= 239 /\ length rest = 2%nat \/
     240 <= b0 <= 244 /\ length rest = 3%nat).
Proof.
  intros Hl. destruct l as [|b0 rest]; [done|]. apply Forall_cons in Hl as [H0 _].
  intros H. exists b0, rest. split; [done|]. unfold scalar in H.
  destruct (scalar_class_first b0 H0) as [E|[(? & E & M)|[(? & E & M)|(? & E & M)]]];
    rewrite E in H; [done| | |];
    match type of H with context [negb ?b] => destruct b eqn:El; [|done] end;
    apply N.eqb_eq in El; cbn [length] in El; [left|right; left|right; right]; split; (done || lia).
Qed.

(** Only the canonical encoding of a scalar value above ASCII is read as one. *)
Lemma scalar_inv l c : Forall (fun b => b < 256) l -> scalar l = Some c ->
  is_scalar c = true /\ 128 <= c /\ l = encode_char c.
Proof.
  intros Hl H. pose proof (scalar_length l c Hl H) as (b0 & rest & -> & Hlen).
  apply Forall_cons in Hl as [H0 Hr]. unfold encode_char.
  destruct Hlen as [(Hb & Hlen)|[(Hb & Hlen)|(Hb & Hlen)]].
  - destruct rest as [|b1 [|]]; try done. apply Forall_cons in Hr as [H1 _].
    rewrite scalar_two in H by done. destruct (continuation b1) eqn:C1; [|done].
    unfold continuation in C1. apply in_range_spec in C1. injection H as <-.
    rewrite is_scalar_spec. rewrite (proj2 (N.ltb_ge _ _)), (proj2 (N.ltb_lt _ 2048)) by lia.
    split; [lia|]. split; [lia|]. f_equal; [|f_equal]; dlia.
  - destruct rest as [|b1 [|b2 [|]]]; try done. apply Forall_cons in Hr as [H1 Hr].
    apply Forall_cons in Hr as [H2 _]. rewrite scalar_three in H by done.
    destruct (continuation b1) eqn:C1; [|done]. destruct (continuation b2) eqn:C2; [|done].
    cbn [andb] in H. unfold continuation in C1, C2. apply in_range_spec in C1, C2.
    match type of H with (if ?b then _ else _) = _ => destruct b eqn:B; [|done] end.
    apply andb_true_iff in B as [B Hs]. apply N.leb_le in B. injection H as <-. split; [done|].
    rewrite !(proj2 (N.ltb_ge _ _)), (proj2 (N.ltb_lt _ 65536)) by lia.
    split; [lia|]. f_equal; [|f_equal; [|f_equal]]; dlia.
  - destruct rest as [|b1 [|b2 [|b3 [|]]]]; try done. apply Forall_cons in Hr as [H1 Hr].
    apply Forall_cons in Hr as [H2 Hr]. apply Forall_cons in Hr as [H3 _].
    rewrite scalar_four in H by done.
    destruct (continuation b1) eqn:C1; [|done]. destruct (continuation b2) eqn:C2; [|done].
    destruct (continuation b3) eqn:C3; [|done]. cbn [andb] in H. unfold continuation in C1, C2, C3.
    apply in_range_spec in C1, C2, C3.
    match type of H with (if ?b then _ else _) = _ => destruct b eqn:B; [|done] end.
    apply andb_true_iff in B as [B Hs]. apply N.leb_le in B. injection H as <-. split; [done|].
    rewrite !(proj2 (N.ltb_ge _ _)) by lia.
    split; [lia|]. f_equal; [|f_equal; [|f_equal; [|f_equal]]]; dlia.
Qed.

(** The terminal reads characters above ASCII from their canonical UTF-8 encoding and from
    nothing else: overlong forms, surrogates, values past U+10FFFF, stray or missing continuation
    bytes and trailing bytes are all refused. *)
Theorem scalar_canonical (l : list N) (c : N) (wellformed : Forall (fun b => b < 256) l) :
  scalar l = Some c <-> is_scalar c = true /\ 128 <= c /\ l = encode_char c.
Proof.
  split; [by apply scalar_inv|]. intros (Hs & Hc & ->). by apply scalar_encode.
Qed.

Lemma scalar_canonical_witness :
  scalar [0xe3; 0x81; 0x82] = Some 0x3042 /\ scalar [0xed; 0xa0; 0x80] = None.
Proof.
  split; [|vm_compute; reflexivity].
  apply (scalar_canonical [0xe3; 0x81; 0x82] 0x3042); [repeat constructor|].
  vm_compute. repeat split; discriminate.
Defined.

(** The arithmetic of terminals stays in range.  A descriptor set of [fd] spans [fd + 1] exactly
    for descriptors below 65536; a poll timeout converts to nanoseconds exactly up to 100
    milliseconds; and a console window whose corners are [i16]s has a size exactly when its corners
    are ordered and not negative - then the size of the inclusive rectangle, which fits a [u16]. *)
Theorem terminal_arithmetic (fd left_ top right_ bottom : Z) (millis : N)
    (i16 : Forall (fun z => -32768 <= z < 32768)%Z [left_; top; right_; bottom]) :
  descriptor_span fd = (if (0 <=? fd)%Z && (fd <? 65536)%Z then Some (fd + 1)%Z else None) /\
  poll_nanos millis = (if millis <=? 100 then Some (Z.of_N millis * 1000000)%Z else None) /\
  console_viewport left_ top right_ bottom
  = (if (0 <=? left_)%Z && (0 <=? top)%Z && (left_ <=? right_)%Z && (top <=? bottom)%Z
     then Some (mkConsoleViewport (Z.to_N (right_ - left_ + 1)) (Z.to_N (bottom - top + 1)))
     else None).
Proof.
  repeat (apply Forall_cons in i16 as [? i16]). split; [|split].
  - unfold descriptor_span, MAX_TERMINAL_FD. rewrite (Z.leb_antisym fd 0), (Z.ltb_antisym 65536 fd).
    destruct (Z.ltb_spec fd 0); [done|]. destruct (Z.leb_spec 65536 fd); [done|].
    unfold signed_checked. change (2 ^ (Z.of_N 32 - 1))%Z with 2147483648%Z. cbn [negb orb andb].
    by rewrite (proj2 (Z.leb_le _ _)), (proj2 (Z.ltb_lt _ _)) by lia.
  - unfold poll_nanos, MAX_POLL_MILLIS. rewrite N.ltb_antisym. destruct (N.leb_spec millis 100); [|done].
    unfold signed_checked, NANOS_PER_MILLI. change (2 ^ (Z.of_N 64 - 1))%Z with 9223372036854775808%Z.
    cbn [negb]. rewrite (proj2 (Z.leb_le _ (Z.of_N millis))), (proj2 (Z.ltb_lt (Z.of_N millis) _)) by lia.
    cbn [andb]. by rewrite (proj2 (Z.leb_le _ _)), (proj2 (Z.ltb_lt _ _)) by lia.
  - unfold console_viewport, u16_try_from. rewrite (Z.leb_antisym left_ 0), (Z.leb_antisym top 0).
    destruct (Z.ltb_spec left_ 0); [done|]. destruct (Z.ltb_spec top 0); [done|].
    cbn [mbind option_bind negb andb].
    destruct (Z.leb_spec left_ right_), (Z.ltb_spec right_ 0), (Z.leb_spec top bottom),
      (Z.ltb_spec bottom 0); cbn [mbind option_bind andb]; try done; try lia;
      unfold checked_sub, checked_add, u16_max;
      repeat (first [rewrite (proj2 (N.leb_le _ _)) by lia | rewrite (proj2 (N.leb_gt _ _)) by lia];
              cbn [mbind option_bind]; try done).
    do 2 f_equal; lia.
Qed.

Lemma terminal_arithmetic_witness :
  console_viewport 0 10 79 34 = Some (mkConsoleViewport 80 25) /\ poll_nanos 100 = Some 100000000%Z.
Proof.
  pose proof (terminal_arithmetic 3 0 10 79 34 100 ltac:(repeat constructor; lia)) as (_ & Hp & Hv).
  rewrite Hv, Hp. split; reflexivity.
Defined.
