(* ===== verification/Decoder.v ===== *)
(** terminal_input/decoder.rs and terminal_input/utf16.rs: the state machine that turns the bytes of
    a Unix terminal into keys, and the pairing of UTF-16 units of a Windows console. *)

From Stdlib Require Import NArith ZArith Lia String Ascii.
From stdpp Require Import base gmap list strings.
From S2P Require Import Prelude RustStr RustText Terminal.

(** ** Definitions *)

(** *** terminal_input/decoder.rs *)

Definition ESCAPE : N := 27.
Definition BACKSPACE : N := 8.
Definition DELETE : N := 127.
Definition TAB : N := 9.
Definition CARRIAGE_RETURN : N := 13.
Definition LINE_FEED : N := 10.
Definition CONTROL_LAST : N := 26.
Definition ASCII_LAST : N := 127.
Definition TWO_BYTES : N := 2.
Definition THREE_BYTES : N := 3.
Definition FOUR_BYTES : N := 4.
Definition FINAL_FIRST : N := 64.
Definition FINAL_LAST : N := 126.
Definition PARAMETER_FIRST : N := 32.
Definition LEGACY_MOUSE_BYTES : N := 3.

Inductive DecoderState :=
| Ground | Escape | Utf8_ | Control | Discard | Mouse (remaining : N).
#[export] Instance DecoderState_eq_dec : EqDecision DecoderState.
Proof. solve_decision. Defined.

Record Decoder := mkDecoder {
  Decoder_state : DecoderState;
  Decoder_sequence : Sequence;
  expected : N;
  Decoder_modifiers : KeyModifiers
}.

Definition Decoder_default : Decoder := mkDecoder Ground Sequence_default 0 KeyModifiers_NONE.

Definition set_state (self : Decoder) (state : DecoderState) : Decoder :=
  mkDecoder state (Decoder_sequence self) (expected self) (Decoder_modifiers self).
Definition set_sequence (self : Decoder) (sequence : Sequence) : Decoder :=
  mkDecoder (Decoder_state self) sequence (expected self) (Decoder_modifiers self).

Definition Decoder_reset (self : Decoder) : Decoder :=
  mkDecoder Ground (Sequence_clear (Decoder_sequence self)) 0 KeyModifiers_NONE.

Definition Decoder_start_utf8 (self : Decoder) (byte : N) : Decoder * Decoded :=
  let length_ :=
    if in_range TWO_FIRST TWO_LAST byte then Some TWO_BYTES
    else if in_range THREE_FIRST THREE_LAST byte then Some THREE_BYTES
    else if in_range FOUR_FIRST FOUR_LAST byte then Some FOUR_BYTES
    else None in
  match length_ with
  | None => (Decoder_reset self, Decoded_Ignored)
  | Some length_ =>
      let self := mkDecoder (Decoder_state self) (Sequence_clear (Decoder_sequence self)) length_
                    (Decoder_modifiers self) in
      let '(sequence, pushed) := Sequence_push (Decoder_sequence self) byte in
      let self := set_sequence self sequence in
      if pushed then (set_state self Utf8_, Decoded_Pending)
      else (Decoder_reset self, Decoded_Ignored)
  end.

Definition Decoder_ground (self : Decoder) (byte : N) (modifiers : KeyModifiers) : Decoder * Decoded :=
  let self := mkDecoder (Decoder_state self) (Decoder_sequence self) (expected self) modifiers in
  let emit code := (self, Decoded_Key (KeyEvent_new code modifiers)) in
  if byte =? ESCAPE then (set_state self Escape, Decoded_Pending)
  else if (byte =? BACKSPACE) || (byte =? DELETE) then emit KeyCode_Backspace
  else if byte =? TAB then emit KeyCode_Tab
  else if (byte =? CARRIAGE_RETURN) || (byte =? LINE_FEED) then emit KeyCode_Enter
  else if byte =? 0 then emit KeyCode_Null
  else if in_range 1 CONTROL_LAST byte then
    let code := saturating_sub (saturating_add u32_max byte (byte_of "a")) 1 in
    match char_from_u32 code with
    | None => (self, Decoded_Ignored)
    | Some character =>
        (self, Decoded_Key (KeyEvent_new (KeyCode_Char character)
                              (KeyModifiers_with modifiers Modifier_Control)))
    end
  else if byte <=? ASCII_LAST then emit (KeyCode_Char byte)
  else Decoder_start_utf8 self byte.

Definition Decoder_escape (self : Decoder) (byte : N) : Decoder * Decoded :=
  if (byte =? byte_of "[") || (byte =? byte_of "O") then
    (set_state (set_sequence self (Sequence_clear (Decoder_sequence self))) Control, Decoded_Pending)
  else if byte =? ESCAPE then (self, Decoded_Key (KeyEvent_new KeyCode_Esc KeyModifiers_NONE))
  else Decoder_ground (Decoder_reset self) byte KeyModifiers_ALT.

Definition Decoder_utf8 (self : Decoder) (byte : N) : Decoder * Decoded :=
  if negb (N.land byte CONTINUATION_MASK =? CONTINUATION)
  then Decoder_ground (Decoder_reset self) byte KeyModifiers_NONE else
  let '(sequence, pushed) := Sequence_push (Decoder_sequence self) byte in
  let self := set_sequence self sequence in
  if negb pushed then (Decoder_reset self, Decoded_Ignored) else
  if Sequence_len (Decoder_sequence self) <? expected self then (self, Decoded_Pending) else
  let value := Sequence_content (Decoder_sequence self) ≫= scalar in
  let modifiers := Decoder_modifiers self in
  (Decoder_reset self,
   match value with
   | Some character => Decoded_Key (KeyEvent_new (KeyCode_Char character) modifiers)
   | None => Decoded_Ignored
   end).

Definition Decoder_control (self : Decoder) (byte : N) : Decoder * Decoded :=
  if negb (in_range PARAMETER_FIRST FINAL_LAST byte)
  then Decoder_ground (Decoder_reset self) byte KeyModifiers_NONE else
  let final_byte := in_range FINAL_FIRST FINAL_LAST byte in
  let '(sequence, pushed) := Sequence_push (Decoder_sequence self) byte in
  let self := set_sequence self sequence in
  if negb pushed then
    let self := Decoder_reset self in
    (if negb final_byte then set_state self Discard else self, Decoded_Ignored)
  else
  if negb final_byte then (self, Decoded_Pending) else
  let legacy_mouse := (Sequence_len (Decoder_sequence self) =? 1) && (byte =? byte_of "M") in
  let key := Sequence_content (Decoder_sequence self) ≫= key in
  let self := Decoder_reset self in
  let self := if legacy_mouse then set_state self (Mouse LEGACY_MOUSE_BYTES) else self in
  (self, match key with Some key => Decoded_Key key | None => Decoded_Ignored end).

Definition Decoder_decode (self : Decoder) (byte : N) : Decoder * Decoded :=
  match Decoder_state self with
  | Ground => Decoder_ground self byte KeyModifiers_NONE
  | Escape => Decoder_escape self byte
  | Utf8_ => Decoder_utf8 self byte
  | Control => Decoder_control self byte
  | Discard =>
      (if in_range FINAL_FIRST FINAL_LAST byte then Decoder_reset self else self, Decoded_Ignored)
  | Mouse remaining =>
      (if remaining <=? 1 then Decoder_reset self
       else set_state self (Mouse (saturating_sub remaining 1)), Decoded_Ignored)
  end.

Definition Decoder_finish (self : Decoder) : Decoder * Decoded :=
  (Decoder_reset self,
   match Decoder_state self with
   | Escape => Decoded_Key (KeyEvent_new KeyCode_Esc KeyModifiers_NONE)
   | _ => Decoded_Ignored
   end).

Definition Decoder_quiet (self : Decoder) : Decoder * Decoded :=
  match Decoder_state self with
  | Escape => Decoder_finish self
  | _ => (self, Decoded_Pending)
  end.

Definition Decoder_pending (self : Decoder) : bool :=
  match Decoder_state self with Ground => false | _ => true end.

Definition Decoder_buffered_bytes (self : Decoder) : N := Sequence_len (Decoder_sequence self).

(** Feeding several bytes, with every answer. *)
Fixpoint decode_all (self : Decoder) (bytes : list N) : Decoder * list Decoded :=
  match bytes with
  | [] => (self, [])
  | byte :: bytes =>
      let '(self, decoded) := Decoder_decode self byte in
      let '(self, rest) := decode_all self bytes in
      (self, decoded :: rest)
  end.

(** The keys among the answers. *)
Definition keys_of (answers : list Decoded) : list KeyEvent :=
  omap (fun d => match d with Decoded_Key key => Some key | _ => None end) answers.

(** *** terminal_input/utf16.rs *)

Definition HIGH_FIRST : N := 0xd800.
Definition HIGH_LAST : N := 0xdbff.
Definition LOW_FIRST : N := 0xdc00.
Definition LOW_LAST : N := 0xdfff.
Definition SURROGATE_SHIFT : N := 10.
Definition SUPPLEMENTARY_FIRST : N := 0x10000.
Definition VK_F1 : N := 112.
Definition VK_F24 : N := 135.

Record WindowsKey := mkWindowsKey {
  down : Z;
  repeats : N;
  virtual_key : N;
  WindowsKey_unit : N;
  control_state : N
}.

Definition WindowsKey_alt_text (self : WindowsKey) : bool :=
  (down self =? 0)%Z && (virtual_key self =? WINDOWS_ALT_KEY) && negb (WindowsKey_unit self =? 0).

Definition WindowsKey_event_kind (self : WindowsKey) : KeyEventKind :=
  if WindowsKey_alt_text self then KeyEventKind_Press
  else if (down self =? 0)%Z then KeyEventKind_Release
  else if 1 <? repeats self then KeyEventKind_Repeat
  else KeyEventKind_Press.

Record Utf16Decoder := mkUtf16Decoder { high : option N }.
Definition Utf16Decoder_default : Utf16Decoder := mkUtf16Decoder None.
Definition Utf16Decoder_clear (self : Utf16Decoder) : Utf16Decoder := mkUtf16Decoder None.

(** The scalar a low surrogate completes. *)
Definition paired (high : option N) (unit : N) : option N :=
  high ← high;
  offset ← checked_sub high HIGH_FIRST;
  shifted ← checked_shl32 offset SURROGATE_SHIFT;
  low ← checked_sub unit LOW_FIRST;
  sum ← checked_add u32_max shifted low;
  checked_add u32_max sum SUPPLEMENTARY_FIRST.

Definition Utf16Decoder_decode (self : Utf16Decoder) (unit : N) : Utf16Decoder * option N :=
  if in_range HIGH_FIRST HIGH_LAST unit then (mkUtf16Decoder (Some unit), None) else
  (mkUtf16Decoder None,
   scalar ← (if in_range LOW_FIRST LOW_LAST unit then paired (high self) unit else Some unit);
   char_from_u32 scalar).

Definition virtual_keys : list (N * KeyCode) :=
  [(8, KeyCode_Backspace); (9, KeyCode_Tab); (13, KeyCode_Enter); (27, KeyCode_Esc);
   (33, KeyCode_PageUp); (34, KeyCode_PageDown); (35, KeyCode_End); (36, KeyCode_Home);
   (37, KeyCode_Left); (38, KeyCode_Up); (39, KeyCode_Right); (40, KeyCode_Down);
   (45, KeyCode_Insert); (46, KeyCode_Delete)].

Definition Utf16Decoder_key_code (self : Utf16Decoder) (key : WindowsKey) (modifiers : KeyModifiers) :
  Utf16Decoder * KeyModifiers * option KeyCode :=
  if (virtual_key key =? 9) && KeyModifiers_contains modifiers KeyModifiers_SHIFT
  then (self, modifiers, Some KeyCode_BackTab) else
  match List.find (fun '(value, _) => value =? virtual_key key) virtual_keys with
  | Some (_, code) => (self, modifiers, Some code)
  | None =>
      if in_range VK_F1 VK_F24 (virtual_key key) then
        (self, modifiers,
         Some (KeyCode_F (saturating_add u32_max (saturating_sub (virtual_key key) VK_F1) 1)))
      else if WindowsKey_unit key =? 0 then (self, modifiers, None)
      else if in_range 1 CONTROL_LAST (WindowsKey_unit key) then
        let modifiers := KeyModifiers_with modifiers Modifier_Control in
        let scalar := saturating_sub (saturating_add u32_max (WindowsKey_unit key) (byte_of "a")) 1 in
        (self, modifiers, KeyCode_Char <$> char_from_u32 scalar)
      else
        let '(self, character) := Utf16Decoder_decode self (WindowsKey_unit key) in
        (self, modifiers, KeyCode_Char <$> character)
  end.

Definition windows_modifier_masks : list (N * Modifier) :=
  [(N.lor 2 1, Modifier_Alt); (N.lor 8 4, Modifier_Control); (16, Modifier_Shift)].

Definition windows_key (self : Utf16Decoder) (key : WindowsKey) : Utf16Decoder * option KeyEvent :=
  let modifiers :=
    foldl (fun modifiers '(mask, modifier) =>
             if negb (N.land (control_state key) mask =? 0)
             then KeyModifiers_with modifiers modifier else modifiers)
      KeyModifiers_NONE windows_modifier_masks in
  let '(self, modifiers, code) :=
    if WindowsKey_alt_text key then
      let '(self, character) := Utf16Decoder_decode self (WindowsKey_unit key) in
      (self, modifiers, KeyCode_Char <$> character)
    else Utf16Decoder_key_code self key modifiers in
  match code with
  | None => (self, None)
  | Some code =>
      (Utf16Decoder_clear self,
       Some (KeyEvent_with_kind (KeyEvent_new code modifiers) (WindowsKey_event_kind key)))
  end.

(** ** Specification: the decoder without its array

    What has been read of the current character or sequence is a list; the fixed buffer, the
    expected length and the pending modifiers of the code are derived from it. *)

Inductive Spec :=
| SGround | SEscape
| SText (modifiers : KeyModifiers) (read : list N)
| SControl (read : list N)
| SDiscard
| SMouse (remaining : N).

Definition text_length (byte : N) : option N :=
  if in_range 194 223 byte then Some 2
  else if in_range 224 239 byte then Some 3
  else if in_range 240 244 byte then Some 4
  else None.

Definition spec_ground (byte : N) (modifiers : KeyModifiers) : Spec * Decoded :=
  let emit code := (SGround, Decoded_Key (KeyEvent_new code modifiers)) in
  if byte =? 27 then (SEscape, Decoded_Pending)
  else if (byte =? 8) || (byte =? 127) then emit KeyCode_Backspace
  else if byte =? 9 then emit KeyCode_Tab
  else if (byte =? 13) || (byte =? 10) then emit KeyCode_Enter
  else if byte =? 0 then emit KeyCode_Null
  else if byte <=? 26 then
    (SGround, Decoded_Key (KeyEvent_new (KeyCode_Char (byte + 96))
                             (KeyModifiers_with modifiers Modifier_Control)))
  else if byte <=? 127 then emit (KeyCode_Char byte)
  else match text_length byte with
       | Some _ => (SText modifiers [byte], Decoded_Pending)
       | None => (SGround, Decoded_Ignored)
       end.

Definition answer (key : option KeyEvent) : Decoded :=
  match key with Some key => Decoded_Key key | None => Decoded_Ignored end.

Definition spec_text (modifiers : KeyModifiers) (read : list N) (byte : N) : Spec * Decoded :=
  if negb (continuation byte) then spec_ground byte KeyModifiers_NONE else
  let read := read ++ [byte] in
  if match head read ≫= text_length with Some n => N.of_nat (length read) <? n | None => false end
  then (SText modifiers read, Decoded_Pending)
  else (SGround, answer ((fun c => KeyEvent_new (KeyCode_Char c) modifiers) <$> scalar read)).

Definition spec_control (read : list N) (byte : N) : Spec * Decoded :=
  if negb (in_range 32 126 byte) then spec_ground byte KeyModifiers_NONE else
  if N.of_nat (length read) <? 32 then
    if byte <? 64 then (SControl (read ++ [byte]), Decoded_Pending)
    else (if bool_decide (read = []) && (byte =? 77) then SMouse 3 else SGround,
          answer (key (read ++ [byte])))
  else (if byte <? 64 then SDiscard else SGround, Decoded_Ignored).

Definition spec_step (state : Spec) (byte : N) : Spec * Decoded :=
  match state with
  | SGround => spec_ground byte KeyModifiers_NONE
  | SEscape =>
      if (byte =? 91) || (byte =? 79) then (SControl [], Decoded_Pending)
      else if byte =? 27 then (SEscape, Decoded_Key (KeyEvent_new KeyCode_Esc KeyModifiers_NONE))
      else spec_ground byte KeyModifiers_ALT
  | SText modifiers read => spec_text modifiers read byte
  | SControl read => spec_control read byte
  | SDiscard => (if in_range 64 126 byte then SGround else SDiscard, Decoded_Ignored)
  | SMouse remaining => (if remaining <=? 1 then SGround else SMouse (remaining - 1), Decoded_Ignored)
  end.

Fixpoint spec_all (state : Spec) (bytes : list N) : Spec * list Decoded :=
  match bytes with
  | [] => (state, [])
  | byte :: bytes =>
      let '(state, decoded) := spec_step state byte in
      let '(state, rest) := spec_all state bytes in
      (state, decoded :: rest)
  end.

(** ** Lemmas *)

(** A decoder is in a state of the specification. *)
Definition refines (d : Decoder) (s : Spec) : Prop :=
  exists l, holds (Decoder_sequence d) l /\
  match s with
  | SGround => Decoder_state d = Ground /\ l = []
  | SEscape => Decoder_state d = Escape /\ l = []
  | SText modifiers read =>
      Decoder_state d = Utf8_ /\ l = read /\ Decoder_modifiers d = modifiers /\
      (length read < N.to_nat (expected d) <= 4)%nat /\ (head read ≫= text_length) = Some (expected d)
  | SControl read => Decoder_state d = Control /\ l = read
  | SDiscard => Decoder_state d = Discard /\ l = []
  | SMouse remaining => Decoder_state d = Mouse remaining /\ l = []
  end.

Lemma refines_default : refines Decoder_default SGround.
Proof. exists []. by split. Qed.

Lemma refines_reset d s : refines d s -> refines (Decoder_reset d) SGround.
Proof. intros (l & Hl & _). exists []. split; [|done]. by eapply holds_clear. Qed.

Lemma refines_bound d s : refines d s -> Decoder_buffered_bytes d <= 32.
Proof. intros (l & Hl & _). apply holds_bound in Hl as [? E]. unfold Decoder_buffered_bytes. lia. Qed.

(** A step of the code is the step of the specification. *)
Definition matches (r : Decoder * Decoded) (s : Spec * Decoded) : Prop :=
  refines r.1 s.1 /\ r.2 = s.2.

Lemma start_utf8_matches d byte :
  holds (Decoder_sequence d) [] ->
  matches (Decoder_start_utf8 d byte)
    match text_length byte with
    | Some _ => (SText (Decoder_modifiers d) [byte], Decoded_Pending)
    | None => (SGround, Decoded_Ignored)
    end.
Proof.
  intros Hd. unfold Decoder_start_utf8, text_length.
  change TWO_FIRST with 194. change TWO_LAST with 223. change THREE_FIRST with 224.
  change THREE_LAST with 239. change FOUR_FIRST with 240. change FOUR_LAST with 244.
  destruct (holds_push (Sequence_clear (Decoder_sequence d)) [] byte) as (s' & Hp & Hs');
    [by eapply holds_clear|cbn; lia|].
  cbn [Decoder_sequence set_sequence]. rewrite Hp.
  assert (Hnone : matches (Decoder_reset d, Decoded_Ignored) (SGround, Decoded_Ignored)).
  { split; [|done]. exists []. split; [by eapply holds_clear|done]. }
  assert (Hsome : forall n, text_length byte = Some n -> 1 < n <= 4 ->
    matches (mkDecoder Utf8_ s' n (Decoder_modifiers d), Decoded_Pending)
      (SText (Decoder_modifiers d) [byte], Decoded_Pending)).
  { intros n Hn Hb. split; [|done]. exists [byte]. split; [done|]. cbn. split; [done|].
    split; [done|]. split; [done|]. split; [lia|done]. }
  unfold text_length in Hsome.
  destruct (in_range 194 223 byte); [by apply Hsome|].
  destruct (in_range 224 239 byte); [by apply Hsome|].
  destruct (in_range 240 244 byte); [by apply Hsome|exact Hnone].
Qed.

Lemma ground_matches d byte modifiers :
  Decoder_state d = Ground -> holds (Decoder_sequence d) [] ->
  matches (Decoder_ground d byte modifiers) (spec_ground byte modifiers).
Proof.
  intros Hst Hseq. unfold Decoder_ground, spec_ground.
  change ESCAPE with 27. change BACKSPACE with 8. change DELETE with 127. change TAB with 9.
  change CARRIAGE_RETURN with 13. change LINE_FEED with 10. change ASCII_LAST with 127.
  assert (Hstay : forall key, matches (mkDecoder (Decoder_state d) (Decoder_sequence d) (expected d) modifiers,
                     Decoded_Key key) (SGround, Decoded_Key key)).
  { intros key. split; [|done]. by exists []. }
  destruct (byte =? 27); [split; [by exists []|done]|].
  destruct ((byte =? 8) || (byte =? 127)); [apply Hstay|].
  destruct (byte =? 9); [apply Hstay|].
  destruct ((byte =? 13) || (byte =? 10)); [apply Hstay|].
  destruct (N.eqb_spec byte 0) as [|Hz]; [apply Hstay|].
  unfold in_range, CONTROL_LAST. rewrite (proj2 (N.leb_le 1 byte)) by lia. cbn [andb].
  destruct (N.leb_spec byte 26) as [Hc|Hc].
  - unfold saturating_add, saturating_sub. change (byte_of "a") with 97.
    rewrite N.min_l by (unfold u32_max; lia). replace (byte + 97 - 1) with (byte + 96) by lia.
    unfold char_from_u32. rewrite (proj2 (is_scalar_spec _)) by lia. apply Hstay.
  - destruct (byte <=? 127); [apply Hstay|]. by apply start_utf8_matches.
Qed.

Lemma reset_ground_matches d s byte modifiers : refines d s ->
  matches (Decoder_ground (Decoder_reset d) byte modifiers) (spec_ground byte modifiers).
Proof. intros (l & Hl & _). apply ground_matches; [done|]. by eapply holds_clear. Qed.

Lemma text_matches d modifiers read byte : byte < 256 ->
  refines d (SText modifiers read) ->
  matches (Decoder_utf8 d byte) (spec_text modifiers read byte).
Proof.
  intros Hb Hd. pose proof Hd as (l & Hl & Hst & -> & Hm & Hlen & Hexp).
  unfold Decoder_utf8, spec_text. rewrite (continuation_mask byte Hb).
  destruct (continuation byte); [|by eapply reset_ground_matches].
  destruct (holds_push _ _ byte Hl) as (s' & Hp & Hs'); [lia|]. cbn [negb]. rewrite Hp.
  cbn [negb set_sequence Decoder_sequence expected Decoder_modifiers].
  pose proof (holds_bound _ _ Hs') as [_ Hlen']. rewrite Hlen', (holds_content _ _ Hs').
  replace (head (read ++ [byte])) with (head read) by (by destruct read).
  rewrite Hexp. cbn [mbind option_bind].
  destruct (N.ltb_spec (N.of_nat (length (read ++ [byte]))) (expected d)) as [Hlt|Hge].
  - split; [|done]. exists (read ++ [byte]). split; [done|]. cbn. split; [done|]. split; [done|].
    split; [done|]. split; [lia|]. by destruct read.
  - split; [|by rewrite Hm; destruct (scalar (read ++ [byte]))].
    exists []. split; [by eapply holds_clear|done].
Qed.

Lemma control_matches d read byte :
  refines d (SControl read) -> matches (Decoder_control d byte) (spec_control read byte).
Proof.
  intros Hd. pose proof Hd as (l & Hl & Hst & ->).
  unfold Decoder_control, spec_control. change PARAMETER_FIRST with 32. change FINAL_LAST with 126.
  change FINAL_FIRST with 64.
  destruct (in_range 32 126 byte) eqn:Hr; [|by eapply reset_ground_matches]. cbn [negb].
  apply in_range_spec in Hr.
  assert (Hfinal : in_range 64 126 byte = negb (byte <? 64)).
  { destruct (N.ltb_spec byte 64); [apply in_range_false; lia|apply in_range_true; lia]. }
  rewrite Hfinal. destruct (N.ltb_spec (N.of_nat (length read)) 32) as [Hlt|Hge].
  - destruct (holds_push _ _ byte Hl) as (s' & Hp & Hs'); [lia|]. rewrite Hp.
    cbn [negb set_sequence Decoder_sequence].
    destruct (byte <? 64); cbn [negb].
    { split; [|done]. by exists (read ++ [byte]). }
    pose proof (holds_bound _ _ Hs') as [_ Hlen']. rewrite Hlen', (holds_content _ _ Hs').
    replace (N.of_nat (length (read ++ [byte])) =? 1) with (bool_decide (read = [])).
    2: { rewrite length_app. destruct read; [done|]. cbn. symmetry. apply N.eqb_neq. lia. }
    change (byte =? byte_of "M") with (byte =? 77). cbn [mbind option_bind].
    split; [|by destruct (key (read ++ [byte]))].
    exists []. split.
    + destruct (bool_decide (read = []) && (byte =? 77)); by eapply holds_clear.
    + by destruct (bool_decide (read = []) && (byte =? 77)).
  - rewrite (holds_push_full _ _ byte Hl) by lia. cbn [negb set_sequence].
    split; [|done]. exists []. destruct (byte <? 64); cbn; (split; [by eapply holds_clear|done]).
Qed.

Lemma decode_matches d s byte : byte < 256 -> refines d s ->
  matches (Decoder_decode d byte) (spec_step s byte).
Proof.
  intros Hb Hd. pose proof Hd as (l & Hl & Hs). unfold Decoder_decode, spec_step.
  destruct s as [| |modifiers read|read| |remaining].
  - destruct Hs as [Hst ->]. rewrite Hst. by apply ground_matches.
  - destruct Hs as [Hst ->]. rewrite Hst. unfold Decoder_escape.
    change (byte_of "[") with 91. change (byte_of "O") with 79. change ESCAPE with 27.
    destruct ((byte =? 91) || (byte =? 79)).
    { split; [|done]. exists []. split; [by eapply holds_clear|done]. }
    destruct (byte =? 27); [split; [by exists []|done]|]. by eapply reset_ground_matches.
  - destruct Hs as (Hst & _). rewrite Hst. by apply text_matches.
  - destruct Hs as (Hst & _). rewrite Hst. by apply control_matches.
  - destruct Hs as [Hst ->]. rewrite Hst. change FINAL_FIRST with 64. change FINAL_LAST with 126.
    split; [|done]. cbn [fst]. destruct (in_range 64 126 byte); [by eapply refines_reset|done].
  - destruct Hs as [Hst ->]. rewrite Hst. split; [|done]. cbn [fst].
    destruct (remaining <=? 1); [by eapply refines_reset|]. by exists [].
Qed.

Lemma decode_all_matches bytes : Forall (fun b => b < 256) bytes -> forall d s, refines d s ->
  refines (decode_all d bytes).1 (spec_all s bytes).1 /\
  (decode_all d bytes).2 = (spec_all s bytes).2.
Proof.
  induction 1 as [|b bytes Hb _ IH]; intros d s Hd; [done|]. cbn [decode_all spec_all].
  pose proof (decode_matches d s b Hb Hd) as [Hm Ha].
  destruct (Decoder_decode d b) as [d1 a], (spec_step s b) as [s1 a']. cbn in Hm, Ha. subst a'.
  pose proof (IH d1 s1 Hm) as [Hm' Ha'].
  destruct (decode_all d1 bytes) as [d2 rest], (spec_all s1 bytes) as [s2 rest']. cbn in *.
  by subst rest'.
Qed.

Lemma spec_all_app state l k :
  spec_all state (l ++ k)
  = ((spec_all (spec_all state l).1 k).1, (spec_all state l).2 ++ (spec_all (spec_all state l).1 k).2).
Proof.
  revert state. induction l as [|b l IH]; intros state; cbn [app spec_all fst snd].
  { by destruct (spec_all state k). }
  destruct (spec_step state b) as [s a]. rewrite IH.
  destruct (spec_all s l) as [s' rest]. cbn [fst snd]. by destruct (spec_all s' k).
Qed.

Lemma keys_of_app l k : keys_of (l ++ k) = keys_of l ++ keys_of k.
Proof. unfold keys_of. apply omap_app. Qed.

(** Typing one printable character. *)
Definition printable (c : N) : bool := is_scalar c && negb (c <=? 31) && negb (c =? 127).

Definition typed (c : N) : KeyEvent := KeyEvent_new (KeyCode_Char c) KeyModifiers_NONE.

(** The bytes of a character after the first are consumed as text. *)
Lemma spec_text_rest modifiers b0 read rest n :
  text_length b0 = Some n -> N.of_nat (S (length read + length rest)) = n ->
  rest <> [] -> Forall (fun b => continuation b = true) rest ->
  exists answers,
    spec_all (SText modifiers (b0 :: read)) rest = (SGround, answers) /\
    keys_of answers
    = match scalar (b0 :: read ++ rest) with
      | Some c => [KeyEvent_new (KeyCode_Char c) modifiers]
      | None => []
      end.
Proof.
  intros Hn. revert read. induction rest as [|b rest IH]; intros read Hlen Hne Hc; [done|].
  apply Forall_cons in Hc as [Hb Hc]. cbn [spec_all spec_step]. unfold spec_text. rewrite Hb.
  cbn [negb app head mbind option_bind]. rewrite Hn. cbn [length] in Hlen.
  destruct rest as [|b' rest].
  - rewrite (proj2 (N.ltb_ge _ _)) by (cbn [length] in *; rewrite length_app; cbn [length]; lia).
    eexists. split; [reflexivity|]. by destruct (scalar (b0 :: read ++ [b])).
  - rewrite (proj2 (N.ltb_lt _ _)) by (cbn [length] in *; rewrite length_app; cbn [length]; lia).
    destruct (IH (read ++ [b])) as (answers & E & K).
    { rewrite length_app. cbn [length] in *. lia. }
    { done. }
    { done. }
    rewrite E. exists (Decoded_Pending :: answers). split; [done|].
    rewrite <- app_assoc in K. exact K.
Qed.

Lemma encode_char_shape c : is_scalar c = true -> 128 <= c ->
  exists b0 rest n, encode_char c = b0 :: rest /\ text_length b0 = Some n /\
    N.of_nat (S (length rest)) = n /\ rest <> [] /\ 127 < b0 /\
    Forall (fun b => continuation b = true) rest.
Proof.
  rewrite is_scalar_spec. intros Hr Hge. unfold encode_char. rewrite (proj2 (N.ltb_ge c 128)) by lia.
  assert (Hc : forall x, x < 64 -> continuation (128 + x) = true) by (intros; apply in_range_true; lia).
  unfold text_length. destruct (N.ltb_spec c 2048); [|destruct (N.ltb_spec c 65536)].
  - do 3 eexists. split; [reflexivity|]. rewrite in_range_true by dlia.
    do 3 (split; [done|]). split; [dlia|]. repeat (constructor; [apply Hc; dlia|]). constructor.
  - do 3 eexists. split; [reflexivity|]. rewrite (in_range_false 194), in_range_true by dlia.
    do 3 (split; [done|]). split; [dlia|]. repeat (constructor; [apply Hc; dlia|]). constructor.
  - do 3 eexists. split; [reflexivity|].
    rewrite (in_range_false 194), (in_range_false 224), in_range_true by dlia.
    do 3 (split; [done|]). split; [dlia|]. repeat (constructor; [apply Hc; dlia|]). constructor.
Qed.

Lemma spec_ground_first b n modifiers : text_length b = Some n -> 127 < b ->
  spec_ground b modifiers = (SText modifiers [b], Decoded_Pending).
Proof.
  intros Hn Hb. unfold spec_ground. repeat (rewrite (proj2 (N.eqb_neq _ _)) by lia). cbn [orb].
  rewrite !(proj2 (N.leb_gt _ _)) by lia. by rewrite Hn.
Qed.

Lemma spec_typed c : printable c = true ->
  exists answers, spec_all SGround (encode_char c) = (SGround, answers) /\ keys_of answers = [typed c].
Proof.
  unfold printable. rewrite !andb_true_iff, !negb_true_iff. intros [[Hs H31] H127].
  apply N.leb_gt in H31. apply N.eqb_neq in H127. destruct (N.ltb_spec c 128) as [Hlt|Hge].
  - unfold encode_char. rewrite (proj2 (N.ltb_lt _ _)) by done. cbn [spec_all spec_step].
    unfold spec_ground. repeat (rewrite (proj2 (N.eqb_neq _ _)) by lia). cbn [orb].
    rewrite (proj2 (N.leb_gt c 26)), (proj2 (N.leb_le c 127)) by lia. by eexists.
  - destruct (encode_char_shape c Hs Hge) as (b0 & rest & n & E & Hn & Hlen & Hne & Hb & Hc).
    rewrite E. cbn [spec_all spec_step]. rewrite (spec_ground_first b0 n) by done.
    destruct (spec_text_rest KeyModifiers_NONE b0 [] rest n Hn) as (answers & Ea & K); [done..|].
    rewrite Ea. eexists. split; [reflexivity|]. cbn [app] in K. rewrite <- E, scalar_encode in K by done.
    exact K.
Qed.

Lemma spec_typed_all cs : forallb printable cs = true ->
  exists answers, spec_all SGround (concat (map encode_char cs)) = (SGround, answers) /\
    keys_of answers = map typed cs.
Proof.
  induction cs as [|c cs IH]; [by exists []|]. cbn [forallb map concat].
  rewrite andb_true_iff. intros [Hc Hcs].
  destruct (spec_typed c Hc) as (a1 & E1 & K1). destruct (IH Hcs) as (a2 & E2 & K2).
  rewrite spec_all_app, E1. cbn [fst snd]. rewrite E2. exists (a1 ++ a2). split; [done|].
  by rewrite keys_of_app, K1, K2.
Qed.

(** Parameters and a final byte after the introducer. *)
Lemma spec_parameters read ps rest :
  Forall (fun b => 32 <= b < 64) ps -> (length read + length ps <= 32)%nat ->
  spec_all (SControl read) (ps ++ rest)
  = let '(s, answers) := spec_all (SControl (read ++ ps)) rest in
    (s, replicate (length ps) Decoded_Pending ++ answers).
Proof.
  intros Hps. revert read. induction Hps as [|b ps Hb _ IH]; intros read Hlen.
  { rewrite app_nil_r. cbn [app length replicate]. by destruct (spec_all (SControl read) rest). }
  cbn [app length spec_all spec_step replicate] in *. unfold spec_control.
  rewrite in_range_true by lia. cbn [negb].
  rewrite (proj2 (N.ltb_lt (N.of_nat (length read)) 32)), (proj2 (N.ltb_lt b 64)) by lia.
  rewrite IH by (rewrite length_app; cbn [length]; lia). rewrite <- app_assoc. cbn [app].
  by destruct (spec_all (SControl (read ++ b :: ps)) rest).
Qed.

Lemma spec_discard ps final :
  Forall (fun b => 32 <= b < 64) ps -> 64 <= final <= 126 ->
  spec_all SDiscard (ps ++ [final]) = (SGround, replicate (S (length ps)) Decoded_Ignored).
Proof.
  intros Hps Hf. induction Hps as [|b ps Hb _ IH]; cbn [app spec_all spec_step].
  - by rewrite in_range_true by lia.
  - rewrite in_range_false by lia. by rewrite IH.
Qed.

(** UTF-16: the units of a character, as [char::encode_utf16] gives them. *)
Definition encode_utf16 (c : N) : list N :=
  if c <? 0x10000 then [c]
  else [0xd800 + (c - 0x10000) / 1024; 0xdc00 + (c - 0x10000) mod 1024].

Fixpoint decode_units (self : Utf16Decoder) (units : list N) : Utf16Decoder * list N :=
  match units with
  | [] => (self, [])
  | unit :: units =>
      let '(self, decoded) := Utf16Decoder_decode self unit in
      let '(self, rest) := decode_units self units in
      (self, match decoded with Some c => c :: rest | None => rest end)
  end.

(** A remembered unit is a high surrogate. *)
Definition high_ok (d : Utf16Decoder) : Prop :=
  match high d with Some h => 0xd800 <= h <= 0xdbff | None => True end.

Lemma paired_ok h u : 0xd800 <= h <= 0xdbff -> 0xdc00 <= u <= 0xdfff ->
  paired (Some h) u = Some ((h - 0xd800) * 1024 + (u - 0xdc00) + 0x10000).
Proof.
  intros Hh Hu. unfold paired, HIGH_FIRST, LOW_FIRST, SURROGATE_SHIFT. cbn [mbind option_bind].
  rewrite (proj2 (checked_sub_Some h 0xd800 (h - 0xd800))) by (split; [lia|done]).
  assert (Hs : checked_shl32 (h - 0xd800) 10 = Some ((h - 0xd800) * 1024)).
  { unfold checked_shl32. change (10 <? 32) with true. cbv iota. rewrite N.shiftl_mul_pow2.
    change (2 ^ 10) with 1024. change (2 ^ 32) with 4294967296. by rewrite N.mod_small by lia. }
  cbn [mbind option_bind]. rewrite Hs. cbn [mbind option_bind].
  rewrite (proj2 (checked_sub_Some u 0xdc00 (u - 0xdc00))) by (split; [lia|done]).
  cbn [mbind option_bind]. unfold checked_add, u32_max, SUPPLEMENTARY_FIRST.
  rewrite (proj2 (N.leb_le _ _)) by lia. cbn [mbind option_bind].
  by rewrite (proj2 (N.leb_le _ _)) by lia.
Qed.

Lemma utf16_decode_spec d u : high_ok d -> u < 0x10000 ->
  high_ok (Utf16Decoder_decode d u).1 /\
  forall c, (Utf16Decoder_decode d u).2 = Some c <->
    is_scalar c = true /\
    (encode_utf16 c = [u] \/ exists h, high d = Some h /\ encode_utf16 c = [h; u]).
Proof.
  intros Hh Hu. unfold Utf16Decoder_decode.
  destruct (in_range HIGH_FIRST HIGH_LAST u) eqn:Ehi;
    unfold HIGH_FIRST, HIGH_LAST in Ehi.
  { apply in_range_spec in Ehi. split; [done|]. intros c. split; [done|]. rewrite is_scalar_spec.
    unfold encode_utf16. intros [Hs [He|(h & _ & He)]]; destruct (N.ltb_spec c 0x10000); try done.
    - injection He as ->. lia.
    - injection He as <- Hl. exfalso. dlia. }
  assert (Hnhi : ~ 0xd800 <= u <= 0xdbff) by (rewrite <- in_range_spec, Ehi; done).
  split; [done|]. intros c. cbn [snd].
  destruct (in_range LOW_FIRST LOW_LAST u) eqn:Elo; unfold LOW_FIRST, LOW_LAST in Elo.
  - apply in_range_spec in Elo. unfold high_ok in Hh. destruct (high d) as [h|] eqn:Eh.
    + rewrite paired_ok by done. cbn [mbind option_bind]. rewrite char_from_u32_Some.
      unfold encode_utf16. split.
      * intros [<- Hs]. split; [done|]. right. exists h. split; [done|].
        rewrite (proj2 (N.ltb_ge _ _)) by lia. f_equal; [dlia|f_equal; dlia].
      * rewrite is_scalar_spec. intros [Hs [He|(h' & [= <-] & He)]].
        -- destruct (N.ltb_spec c 0x10000); [injection He as ->; lia|done].
        -- destruct (N.ltb_spec c 0x10000); [done|]. injection He as Eh' Eu.
           match goal with |- ?x = c /\ _ => assert (Ex : x = c) by dlia end.
           rewrite Ex. split; [done|]. by apply is_scalar_spec.
    + cbn. split; [done|]. rewrite is_scalar_spec. unfold encode_utf16.
      intros [Hs [He|(h' & ? & He)]]; [|done].
      destruct (N.ltb_spec c 0x10000); [injection He as ->; lia|done].
  - assert (Hnlo : ~ 0xdc00 <= u <= 0xdfff) by (rewrite <- in_range_spec, Elo; done).
    cbn [mbind option_bind]. rewrite char_from_u32_Some. unfold encode_utf16. split.
    + intros [<- Hs]. split; [done|]. left. by rewrite (proj2 (N.ltb_lt _ _)) by lia.
    + intros [Hs [He|(h' & ? & He)]]; destruct (N.ltb_spec c 0x10000); try done.
      * injection He as ->. done.
      * injection He as Eh Eu. exfalso. dlia.
Qed.

Lemma utf16_char d c : is_scalar c = true ->
  exists d', decode_units d (encode_utf16 c) = (d', [c]) /\ high d' = None.
Proof.
  intros Hs. pose proof (proj1 (is_scalar_spec c) Hs) as Hr. unfold encode_utf16.
  destruct (N.ltb_spec c 0x10000) as [Hlt|Hge]; cbn [decode_units]; unfold Utf16Decoder_decode,
    HIGH_FIRST, HIGH_LAST, LOW_FIRST, LOW_LAST.
  - rewrite !in_range_false by lia. cbn [mbind option_bind]. unfold char_from_u32. rewrite Hs.
    by eexists.
  - rewrite (in_range_true 0xd800 0xdbff) by dlia. cbn [high].
    rewrite in_range_false, in_range_true, paired_ok by dlia. cbn [mbind option_bind].
    match goal with |- context [char_from_u32 ?x] => replace x with c by dlia end.
    unfold char_from_u32. rewrite Hs. by eexists.
Qed.

Lemma decode_units_app d l k :
  decode_units d (l ++ k)
  = ((decode_units (decode_units d l).1 k).1, (decode_units d l).2 ++ (decode_units (decode_units d l).1 k).2).
Proof.
  revert d. induction l as [|u l IH]; intros d; cbn [app decode_units fst snd].
  { by destruct (decode_units d k). }
  destruct (Utf16Decoder_decode d u) as [d' c]. rewrite IH.
  destruct (decode_units d' l) as [d'' rest]. cbn [fst snd].
  destruct (decode_units d'' k) as [d3 rest']. by destruct c.
Qed.

Lemma spec_overflow read ps final : length read = 32%nat ->
  Forall (fun b => 32 <= b < 64) ps -> 64 <= final <= 126 ->
  spec_all (SControl read) (ps ++ [final]) = (SGround, replicate (S (length ps)) Decoded_Ignored).
Proof.
  intros Hr Hps Hf. destruct Hps as [|b ps Hb Hps]; cbn [app spec_all spec_step]; unfold spec_control;
    rewrite in_range_true by lia; cbn [negb]; rewrite (proj2 (N.ltb_ge (N.of_nat (length read)) 32)) by lia.
  - by rewrite (proj2 (N.ltb_ge _ _)) by lia.
  - rewrite (proj2 (N.ltb_lt _ _)) by lia. by rewrite spec_discard.
Qed.

Lemma keys_of_none d n : (forall k, d <> Decoded_Key k) -> keys_of (replicate n d) = [].
Proof. intros Hd. induction n; [done|]. cbn. destruct d; [by destruct (Hd key)|done|done]. Qed.

Lemma spec_introduced intro final ps : intro = byte_of "[" \/ intro = byte_of "O" ->
  Forall (fun b => 32 <= b < 64) ps -> 64 <= final <= 126 ->
  exists answers,
    spec_all SGround (ESCAPE :: intro :: ps ++ [final])
    = (if bool_decide (ps = []) && (final =? 77) then SMouse 3 else SGround, answers) /\
    keys_of answers = (if N.of_nat (length ps) <? 32 then option_list (key (ps ++ [final])) else []).
Proof.
  intros Hi Hps Hf. cbn [spec_all spec_step]. change (spec_ground ESCAPE KeyModifiers_NONE)
    with (SEscape, Decoded_Pending). cbn iota. cbn [spec_step].
  replace ((intro =? 91) || (intro =? 79)) with true by (by destruct Hi as [-> | ->]).
  destruct (N.ltb_spec (N.of_nat (length ps)) 32) as [Hlt|Hge].
  - rewrite spec_parameters by (done || cbn [length]; lia). cbn [app spec_all spec_step].
    unfold spec_control. rewrite in_range_true by lia. cbn [negb].
    rewrite (proj2 (N.ltb_lt _ _)), (proj2 (N.ltb_ge _ _)) by lia. eexists. split; [reflexivity|].
    change (keys_of (replicate (length ps) Decoded_Pending ++ [answer (key (ps ++ [final]))])
            = option_list (key (ps ++ [final]))).
    rewrite keys_of_app, keys_of_none by done. by destruct (key (ps ++ [final])).
  - rewrite <- (take_drop 32 ps), <- app_assoc, spec_parameters.
    2: { by apply Forall_take. }
    2: { rewrite length_take. cbn [length]. lia. }
    rewrite spec_overflow; [|rewrite length_app, length_take; cbn [length]; lia|by apply Forall_drop|done].
    rewrite take_drop. eexists. split.
    + rewrite bool_decide_eq_false_2; [reflexivity|]. intros ->. cbn in Hge. lia.
    + change (keys_of (replicate (length (take 32 ps)) Decoded_Pending
                ++ replicate (S (length (drop 32 ps))) Decoded_Ignored) = []).
      by rewrite keys_of_app, !keys_of_none.
Qed.

(** ** Properties *)

(** C39: the decoder with its fixed 32-byte buffer, expected length and pending modifiers implements
    the specification that simply remembers what it has read: on any input it gives the same
    answers, never holds more than 32 bytes, reports a lone escape when input ends exactly when one
    is pending, and after [finish] answers what follows as a new decoder does. *)
Theorem decoder_refines_spec (input more : list N)
    (wellformed : Forall (fun b => b < 256) input) (wellformed' : Forall (fun b => b < 256) more) :
  let '(d, answers) := decode_all Decoder_default input in
  let '(s, answers') := spec_all SGround input in
  answers = answers' /\ refines d s /\ Decoder_buffered_bytes d <= MAX_SEQUENCE_BYTES /\
  ((Decoder_finish d).2 = Decoded_Key (KeyEvent_new KeyCode_Esc KeyModifiers_NONE) <-> s = SEscape) /\
  (decode_all (Decoder_finish d).1 more).2 = (decode_all Decoder_default more).2.
Proof.
  pose proof (decode_all_matches input wellformed _ _ refines_default) as [Hd Ha].
  destruct (decode_all Decoder_default input) as [d answers], (spec_all SGround input) as [s answers'].
  cbn in Hd, Ha. split; [done|]. split; [done|]. split; [by eapply refines_bound|]. split.
  - destruct Hd as (l & _ & Hs). unfold Decoder_finish. cbn [snd].
    destruct s; first [destruct Hs as (Hst & _)]; rewrite Hst; split; done.
  - transitivity (spec_all SGround more).2; [|symmetry].
    + apply decode_all_matches; [done|]. by eapply refines_reset.
    + by apply decode_all_matches; [|apply refines_default].
Qed.

Lemma decoder_refines_spec_witness :
  (Decoder_finish (decode_all Decoder_default [27]).1).2
  = Decoded_Key (KeyEvent_new KeyCode_Esc KeyModifiers_NONE).
Proof.
  pose proof (decoder_refines_spec [27] [97] ltac:(repeat constructor) ltac:(repeat constructor)) as H.
  apply H. reflexivity.
Defined.

(** What is typed is what is read.  The UTF-8 bytes of any text without control characters are
    decoded to one key per character, in order and without modifiers, and the decoder is left with
    nothing pending. *)
Theorem typed_text_decodes (cs : list N) (text : forallb printable cs = true) :
  keys_of (decode_all Decoder_default (bytes (of_chars cs))).2 = map typed cs /\
  Decoder_pending (decode_all Decoder_default (bytes (of_chars cs))).1 = false /\
  Decoder_buffered_bytes (decode_all Decoder_default (bytes (of_chars cs))).1 = 0.
Proof.
  assert (Hs : forallb is_scalar cs = true).
  { apply forallb_forall. intros c Hc. rewrite forallb_forall in text. apply text in Hc.
    unfold printable in Hc. rewrite !andb_true_iff in Hc. apply Hc. }
  unfold of_chars. rewrite bytes_of_bytes by (by apply encoded_bytes).
  destruct (spec_typed_all cs text) as (answers & E & K).
  pose proof (decode_all_matches _ (encoded_bytes cs Hs) _ _ refines_default) as [Hd Ha].
  rewrite E in Hd, Ha. cbn in Hd, Ha.
  destruct (decode_all Decoder_default (concat (map encode_char cs))) as [d as_]. cbn in Hd, Ha.
  subst as_. cbn [fst snd]. split; [done|]. destruct Hd as (l & Hl & Hst & ->). unfold Decoder_pending. rewrite Hst.
  split; [done|]. apply holds_bound in Hl as [_ Hl]. exact Hl.
Qed.

Lemma typed_text_decodes_witness :
  keys_of (decode_all Decoder_default (bytes (of_chars [97; 0xe9; 0x3042; 0x1f600]))).2
  = map typed [97; 0xe9; 0x3042; 0x1f600].
Proof. apply (typed_text_decodes [97; 0xe9; 0x3042; 0x1f600]). vm_compute. reflexivity. Defined.

(** Control sequences are delimited.  An introducer, any parameter bytes and a final byte are
    consumed whole: they give the key their content names, or none; a sequence longer than the
    buffer gives none, and its tail is not mistaken for typing; the decoder is idle afterwards,
    except for the three bytes that follow a legacy mouse report. *)
Theorem control_sequence_delimited (intro final : N) (ps : list N)
    (introducer : intro = byte_of "[" \/ intro = byte_of "O")
    (parameters : Forall (fun b => 32 <= b < 64) ps) (final_byte : 64 <= final <= 126) :
  let r := decode_all Decoder_default (ESCAPE :: intro :: ps ++ [final]) in
  keys_of r.2 = (if N.of_nat (length ps) <? 32 then option_list (key (ps ++ [final])) else []) /\
  Decoder_state r.1 = (if bool_decide (ps = []) && (final =? byte_of "M")
                     then Mouse LEGACY_MOUSE_BYTES else Ground).
Proof.
  destruct (spec_introduced intro final ps) as (answers & E & K); [done..|].
  assert (Hw : Forall (fun b => b < 256) (ESCAPE :: intro :: ps ++ [final])).
  { constructor; [done|]. constructor; [by destruct introducer as [-> | ->]|].
    apply Forall_app. split; [|by repeat constructor; lia].
    eapply Forall_impl; [exact parameters|]. cbn. lia. }
  pose proof (decode_all_matches _ Hw _ _ refines_default) as [Hd Ha].
  rewrite E in Hd, Ha. cbn [fst snd] in Hd, Ha.
  destruct (decode_all Decoder_default (ESCAPE :: intro :: ps ++ [final])) as [d as_].
  cbn [fst snd] in Hd, Ha. subst as_. cbn [fst snd]. split; [done|]. change (byte_of "M") with 77.
  destruct Hd as (l & _ & Hst). by destruct (bool_decide (ps = []) && (final =? 77)); destruct Hst.
Qed.

Lemma control_sequence_delimited_witness :
  keys_of (decode_all Decoder_default (ESCAPE :: byte_of "[" :: [49; 59; 53] ++ [byte_of "A"])).2
  = [KeyEvent_new KeyCode_Up KeyModifiers_CONTROL].
Proof.
  refine (eq_trans (proj1 (control_sequence_delimited (byte_of "[") (byte_of "A") [49; 59; 53]
    (or_introl eq_refl) ltac:(repeat constructor; lia) ltac:(split; vm_compute; discriminate))) _).
  vm_compute. reflexivity.
Defined.

(** A Windows console's UTF-16 is read exactly: whatever a decoder remembers, the units of any
    text are decoded to its characters in order with nothing remembered after them; and a decoder
    gives a character only for its own unit, or for the pair of the high surrogate it remembers and
    the unit, so lone surrogates never become text. *)
Theorem utf16_pairs (d : Utf16Decoder) (unit : N) (cs : list N)
    (valid : high_ok d) (wellformed : unit < 0x10000) (text : forallb is_scalar cs = true) :
  (decode_units d (concat (map encode_utf16 cs))).2 = cs /\
  (cs <> [] -> high (decode_units d (concat (map encode_utf16 cs))).1 = None) /\
  high_ok (Utf16Decoder_decode d unit).1 /\
  forall c, (Utf16Decoder_decode d unit).2 = Some c <->
    is_scalar c = true /\
    (encode_utf16 c = [unit] \/ exists h, high d = Some h /\ encode_utf16 c = [h; unit]).
Proof.
  assert (H : (decode_units d (concat (map encode_utf16 cs))).2 = cs /\
    (cs <> [] -> high (decode_units d (concat (map encode_utf16 cs))).1 = None)).
  { clear valid. revert d. induction cs as [|c cs IH]; intros d; [done|]. cbn [forallb] in text.
    apply andb_true_iff in text as [Hc Hcs]. cbn [map concat]. rewrite decode_units_app.
    destruct (utf16_char d c Hc) as (d' & E & Hn). rewrite E. cbn [fst snd app].
    destruct (IH Hcs d') as [IH1 IH2]. rewrite IH1. split; [done|]. intros _.
    destruct cs; [done|by apply IH2]. }
  destruct H as [H1 H2]. split; [done|]. split; [done|]. by apply utf16_decode_spec.
Qed.

Lemma utf16_pairs_witness :
  (decode_units (mkUtf16Decoder (Some 0xd83d)) (concat (map encode_utf16 [97; 0x1f600]))).2 = [97; 0x1f600].
Proof.
  apply (utf16_pairs (mkUtf16Decoder (Some 0xd83d)) 97 [97; 0x1f600]);
    [vm_compute; split; discriminate|vm_compute; reflexivity|vm_compute; reflexivity].
Defined.
