(* ===== verification/Service.v ===== *)
(** service.rs: the definitions by which launchd, systemd and the Windows task scheduler start the
    chat service, and the escaping of the texts in them.  A text is the list of its characters. *)

From Stdlib Require Import NArith Lia String Ascii.
From stdpp Require Import base list strings.
From S2P Require Import Prelude RustStr.

(** ** Definitions *)

(** The characters of an ASCII literal. *)
Definition lit (s : string) : list N := bytes s.
Definition quote : N := 34.
Definition backslash : N := 92.

Definition SCHTASKS_COMMAND_MAX : N := 261.

Inductive ServiceError :=
| ServiceError_ControlCharacter
| ServiceError_Empty
| ServiceError_SystemdProgram
| ServiceError_SystemdDescription
| ServiceError_WindowsCommand
| ServiceError_CommandTooLong.

Definition XML : list (N * list N) :=
  [(38, lit "&amp;"); (60, lit "&lt;"); (62, lit "&gt;"); (34, lit "&quot;"); (39, lit "&apos;")].
Definition EXEC_START : list (N * list N) :=
  [(92, [92; 92]); (34, [92; 34]); (37, lit "%%"); (36, lit "$$")].
Definition SPECIFIERS : list (N * list N) := [(37, lit "%%")].

Definition unprintable (character : N) : bool :=
  is_control character || (character =? 0xFFFE) || (character =? 0xFFFF).

Definition is_empty (text : list N) : bool := match text with [] => true | _ => false end.

Definition check (required optional : list (list N)) : result unit ServiceError :=
  if existsb is_empty required then Err ServiceError_Empty else
  if existsb unprintable (concat (required ++ optional)) then Err ServiceError_ControlCharacter
  else Ok tt.

Definition escape_char (table : list (N * list N)) (character : N) : list N :=
  match List.find (fun entry => entry.1 =? character) table with
  | Some (_, replacement) => replacement
  | None => [character]
  end.
Definition escape (text : list N) (table : list (N * list N)) : list N :=
  concat (map (escape_char table) text).

(** [join] of slices *)
Fixpoint join_with (separator : list N) (words : list (list N)) : list N :=
  match words with
  | [] => []
  | [word] => word
  | word :: words => word ++ separator ++ join_with separator words
  end.

Definition lines_of_text (lines : list (list N)) : list N := concat (map (fun line => line ++ [10]) lines).

Definition launchd_plist (label program : list N) (args : list (list N)) (log : list N) :
  result (list N) ServiceError :=
  let? _ := check [label; program; log] args in
  let words := map (fun word => escape word XML) (program :: args) in
  let arguments := join_with (lit "</string>" ++ [10] ++ lit "    <string>") words in
  let label := escape label XML in
  let log := escape log XML in
  Ok (lines_of_text
        [ lit "<?xml version=" ++ [quote] ++ lit "1.0" ++ [quote] ++ lit " encoding=" ++ [quote]
            ++ lit "UTF-8" ++ [quote] ++ lit "?>";
          lit "<!DOCTYPE plist PUBLIC " ++ [quote] ++ lit "-//Apple//DTD PLIST 1.0//EN" ++ [quote] ++ lit " "
            ++ [quote] ++ lit "http://www.apple.com/DTDs/PropertyList-1.0.dtd" ++ [quote] ++ lit ">";
          lit "<plist version=" ++ [quote] ++ lit "1.0" ++ [quote] ++ lit ">";
          lit "<dict>";
          lit "  <key>Label</key>";
          lit "  <string>" ++ label ++ lit "</string>";
          lit "  <key>ProgramArguments</key>";
          lit "  <array>";
          lit "    <string>" ++ arguments ++ lit "</string>";
          lit "  </array>";
          lit "  <key>RunAtLoad</key>";
          lit "  <true/>";
          lit "  <key>KeepAlive</key>";
          lit "  <true/>";
          lit "  <key>StandardOutPath</key>";
          lit "  <string>" ++ log ++ lit "</string>";
          lit "  <key>StandardErrorPath</key>";
          lit "  <string>" ++ log ++ lit "</string>";
          lit "</dict>";
          lit "</plist>" ]).

Definition exec_start_word (word : list N) : list N :=
  let escaped := escape word EXEC_START in
  if is_empty word || existsb (fun c => one_of " '\;" c || (c =? quote)) word
  then [quote] ++ escaped ++ [quote]
  else escaped.

Definition systemd_unit (description program : list N) (args : list (list N)) : result (list N) ServiceError :=
  let? _ := check [program] (description :: args) in
  if negb (match program with c :: _ => c =? 47 | [] => false end) || existsb (N.eqb 36) program
  then Err ServiceError_SystemdProgram else
  if match last description with Some c => c =? backslash | None => false end
  then Err ServiceError_SystemdDescription else
  let words := map exec_start_word (program :: args) in
  Ok (lines_of_text
        [ lit "[Unit]";
          lit "Description=" ++ escape description SPECIFIERS;
          [];
          lit "[Service]";
          lit "ExecStart=" ++ join_with (lit " ") words;
          lit "Restart=on-failure";
          lit "KillMode=process";
          [];
          lit "[Install]";
          lit "WantedBy=default.target" ]).

(** The loop of [push_windows_argument], with the backslashes it has just pushed; it gives what it
    pushes and the backslashes at the end. *)
Fixpoint windows_loop (argument : list N) (backslashes : nat) : list N * nat :=
  match argument with
  | [] => ([], backslashes)
  | character :: argument =>
      if character =? backslash then
        let '(pushed, last_) := windows_loop argument (S backslashes) in (character :: pushed, last_)
      else if character =? quote then
        let '(pushed, last_) := windows_loop argument 0 in
        (replicate (S backslashes) backslash ++ character :: pushed, last_)
      else
        let '(pushed, last_) := windows_loop argument 0 in (character :: pushed, last_)
  end.

Definition windows_argument (argument : list N) : list N :=
  let quoted := is_empty argument || existsb (fun c => (c =? 32) || (c =? 9)) argument in
  let '(pushed, backslashes) := windows_loop argument 0 in
  if quoted then [quote] ++ pushed ++ replicate backslashes backslash ++ [quote] else pushed.

(** [encode_utf16().count()] *)
Definition utf16_count (text : list N) : N :=
  foldr (fun c n => (if c <? 0x10000 then 1 else 2) + n) 0 text.

Definition windows_task_command (program : list N) (args : list (list N)) : result (list N) ServiceError :=
  let? _ := check [program] args in
  if existsb (N.eqb quote) program || existsb (N.eqb 37) (concat (program :: args))
  then Err ServiceError_WindowsCommand else
  let command := [quote] ++ program ++ [quote] ++ concat (map (fun argument => 32 :: windows_argument argument) args) in
  if SCHTASKS_COMMAND_MAX <? utf16_count command then Err ServiceError_CommandTooLong else Ok command.

Definition schtasks_create (task command : list N) : list (list N) :=
  [lit "/Create"; lit "/F"; lit "/SC"; lit "ONLOGON"; lit "/RL"; lit "LIMITED"; lit "/TN"; task; lit "/TR"; command].
Definition schtasks_run (task : list N) : list (list N) := [lit "/Run"; lit "/TN"; task].
Definition schtasks_end (task : list N) : list (list N) := [lit "/End"; lit "/TN"; task].
Definition schtasks_delete (task : list N) : list (list N) := [lit "/Delete"; lit "/F"; lit "/TN"; task].
Definition schtasks_query (task : list N) : list (list N) := [lit "/Query"; lit "/TN"; task].

(** The reader of a Windows command line, [windows_argv] of the tests: a word in progress is whether
    it is in quotes, the backslashes just read and the characters before them. *)
Fixpoint windows_argv_from (cs : list N) (word : option (bool * nat * list N)) : list (list N) :=
  match cs, word with
  | [], None => []
  | [], Some (_, backslashes, argument) => [argument ++ replicate backslashes backslash]
  | c :: cs, None =>
      if (c =? 32) || (c =? 9) then windows_argv_from cs None
      else if c =? backslash then windows_argv_from cs (Some (false, 1%nat, []))
      else if c =? quote then windows_argv_from cs (Some (true, 0%nat, []))
      else windows_argv_from cs (Some (false, 0%nat, [c]))
  | c :: cs, Some (quoted, backslashes, argument) =>
      if c =? backslash then windows_argv_from cs (Some (quoted, S backslashes, argument))
      else if c =? quote then
        let argument := argument ++ replicate (backslashes / 2) backslash in
        if Nat.odd backslashes then windows_argv_from cs (Some (quoted, 0%nat, argument ++ [quote]))
        else windows_argv_from cs (Some (negb quoted, 0%nat, argument))
      else
        let argument := argument ++ replicate backslashes backslash in
        if quoted || negb ((c =? 32) || (c =? 9))
        then windows_argv_from cs (Some (quoted, 0%nat, argument ++ [c]))
        else argument :: windows_argv_from cs None
  end.
Definition windows_argv (line : list N) : list (list N) := windows_argv_from line None.

(** ** Windows: the reader gets back what was written *)

Lemma replicate_more {A} (x : A) n l : replicate n x ++ x :: l = replicate (S n) x ++ l.
Proof. induction n as [|n IH]; [done|]. cbn. by rewrite IH. Qed.

Lemma argv_backslashes n q k acc cs :
  windows_argv_from (replicate n backslash ++ cs) (Some (q, k, acc)) =
  windows_argv_from cs (Some (q, (n + k)%nat, acc)).
Proof. revert k. induction n as [|n IH]; intros k; [done|]. cbn. by rewrite IH, Nat.add_succ_r. Qed.

Lemma even_half k : Nat.odd (k + k) = false /\ ((k + k) / 2 = k)%nat.
Proof.
  split.
  - rewrite <- Nat.negb_even. apply negb_false_iff, Nat.even_spec. exists k. lia.
  - symmetry. apply (Nat.div_unique _ 2 _ 0); lia.
Qed.
Lemma odd_half k : Nat.odd (S k + k) = true /\ ((S k + k) / 2 = k)%nat.
Proof.
  split; [apply Nat.odd_spec; exists k; lia|]. symmetry. apply (Nat.div_unique _ 2 _ 1); lia.
Qed.

Definition blank (c : N) : bool := (c =? 32) || (c =? 9).

Lemma argv_loop a : forall q k acc cs pushed m, (q || negb (existsb blank a)) = true ->
  windows_loop a k = (pushed, m) ->
  exists acc', windows_argv_from (pushed ++ cs) (Some (q, k, acc)) = windows_argv_from cs (Some (q, m, acc')) /\
    acc' ++ replicate m backslash = acc ++ replicate k backslash ++ a.
Proof.
  induction a as [|c a IH]; intros q k acc cs pushed m Hq; cbn [windows_loop].
  { intros [= <- <-]. exists acc. by rewrite app_nil_r. }
  cbn [existsb] in Hq. rewrite negb_orb, orb_andb_distrib_r, andb_true_iff in Hq. destruct Hq as [Hc Hq].
  destruct (N.eqb_spec c backslash) as [->|Hb]; [|destruct (N.eqb_spec c quote) as [->|Hquote]].
  - destruct (windows_loop a (S k)) as [p n] eqn:Hl. intros [= <- <-].
    destruct (IH q (S k) acc cs p n Hq Hl) as (acc' & Hr & Ha). exists acc'. cbn. rewrite Hr. split; [done|].
    rewrite Ha. by rewrite replicate_more.
  - destruct (windows_loop a 0) as [p n] eqn:Hl. intros [= <- <-].
    destruct (IH q 0%nat (acc ++ replicate k backslash ++ [quote]) cs p n Hq Hl) as (acc' & Hr & Ha).
    exists acc'. change (backslash :: replicate k backslash ++ quote :: p) with (replicate (S k) backslash ++ quote :: p).
    rewrite <- app_assoc, argv_backslashes. cbn [app windows_argv_from].
    change (quote =? backslash) with false. change (quote =? quote) with true. cbn iota.
    rewrite (proj1 (odd_half k)), (proj2 (odd_half k)). rewrite <- app_assoc, Hr. split; [done|]. rewrite Ha. cbn. by rewrite <- !app_assoc.
  - destruct (windows_loop a 0) as [p n] eqn:Hl. intros [= <- <-].
    destruct (IH q 0%nat (acc ++ replicate k backslash ++ [c]) cs p n Hq Hl) as (acc' & Hr & Ha).
    exists acc'. cbn [app windows_argv_from].
    rewrite (proj2 (N.eqb_neq c backslash) Hb), (proj2 (N.eqb_neq c quote) Hquote).
    unfold blank in Hc. rewrite Hc. rewrite <- app_assoc, Hr. split; [done|]. rewrite Ha. cbn.
    by rewrite <- !app_assoc.
Qed.

Lemma argv_start c cs : blank c = false ->
  windows_argv_from (c :: cs) None = windows_argv_from (c :: cs) (Some (false, 0%nat, [])).
Proof.
  unfold blank. intros Hc. cbn. rewrite Hc. destruct (c =? backslash); [done|]. destruct (c =? quote); [done|].
  by cbn.
Qed.

Lemma windows_loop_head c a : exists c' pushed m, windows_loop (c :: a) 0 = (c' :: pushed, m) /\
  (c' = c \/ c' = backslash).
Proof.
  cbn. destruct (N.eqb_spec c backslash) as [->|]; [|destruct (N.eqb_spec c quote) as [->|]].
  - destruct (windows_loop a 1) as [p m]. repeat eexists. by left.
  - destruct (windows_loop a 0) as [p m]. repeat eexists. by right.
  - destruct (windows_loop a 0) as [p m]. repeat eexists. by left.
Qed.

Lemma argv_argument a rest : windows_argv_from (windows_argument a ++ 32 :: rest) None = a :: windows_argv_from rest None
  /\ windows_argv_from (windows_argument a) None = [a].
Proof.
  unfold windows_argument. fold blank. destruct (windows_loop a 0) as [pushed m] eqn:Hl.
  destruct (is_empty a || existsb _ a) eqn:Hq.
  - assert (H : forall cs, windows_argv_from (([quote] ++ pushed ++ replicate m backslash ++ [quote]) ++ cs) None =
                windows_argv_from cs (Some (false, 0%nat, a))).
    { intros cs. rewrite <- !app_assoc. cbn [app].
      change (windows_argv_from (quote :: ?l) None) with (windows_argv_from l (Some (true, 0%nat, []))).
      destruct (argv_loop a true 0 [] (replicate m backslash ++ quote :: cs) pushed m eq_refl Hl) as (acc & Hr & Ha).
      rewrite Hr, argv_backslashes. cbn [app windows_argv_from].
      change (quote =? backslash) with false. change (quote =? quote) with true. cbn iota.
      rewrite (proj1 (even_half m)), (proj2 (even_half m)). by rewrite Ha. }
    split; [rewrite H; cbn; by rewrite app_nil_r|]. rewrite <- (app_nil_r (_ ++ _ ++ _)), H. cbn. by rewrite app_nil_r.
  - apply orb_false_iff in Hq as [He Hq]. destruct a as [|c a]; [done|].
    destruct (windows_loop_head c a) as (c' & p & m' & Hl' & Hc'). rewrite Hl in Hl'. injection Hl' as -> ->.
    assert (Hb : blank c' = false).
    { destruct Hc' as [-> | ->]; [|done]. by apply orb_false_iff in Hq as [Hc _]. }
    assert (H : forall cs, exists acc, windows_argv_from ((c' :: p) ++ cs) None =
                windows_argv_from cs (Some (false, m', acc)) /\ acc ++ replicate m' backslash = c :: a).
    { intros cs. cbn [app]. rewrite argv_start by done. apply (argv_loop (c :: a) false 0 [] cs (c' :: p) m'); [|done].
      by rewrite Hq. }
    split.
    + destruct (H (32 :: rest)) as (acc & -> & <-). done.
    + destruct (H []) as (acc & Hr & <-). by rewrite <- (app_nil_r (c' :: p)), Hr.
Qed.

Lemma argv_arguments args :
  windows_argv_from (concat (map (fun argument => 32 :: windows_argument argument) args)) None = args.
Proof.
  induction args as [|a [|b args] IH]; [done| |].
  - cbn. rewrite app_nil_r. apply (argv_argument a []).
  - cbn [map concat app] in *. cbn [windows_argv_from N.eqb Pos.eqb orb] in *.
    by rewrite (proj1 (argv_argument a _)), IH.
Qed.

Lemma windows_loop_plain a : existsb (N.eqb quote) a = false -> forall k, exists m, windows_loop a k = (a, m) /\
  (match last a with Some c => c =? backslash | None => false end = false -> a = [] \/ m = 0%nat).
Proof.
  induction a as [|c a IH]; intros Ha k; [eauto|]. cbn [existsb] in Ha. apply orb_false_iff in Ha as [Hc Ha].
  assert (Hlast : forall m n, (match last a with Some c => c =? backslash | None => false end = false -> a = [] \/ m = 0%nat) ->
    (a = [] -> c =? backslash = false -> m = n) -> n = 0%nat ->
    match last (c :: a) with Some c => c =? backslash | None => false end = false -> m = 0%nat).
  { intros m n H Hn -> Hl. destruct a as [|b a]; [by apply Hn|].
    change (last (c :: b :: a)) with (last (b :: a)) in Hl. by destruct (H Hl). }
  cbn [windows_loop]. rewrite (N.eqb_sym c quote), Hc. destruct (c =? backslash) eqn:Hb.
  - destruct (IH Ha (S k)) as (m & -> & Hm). exists m. split; [done|]. intros Hl. right.
    by apply (Hlast m 0%nat).
  - destruct (IH Ha 0%nat) as (m & Hr & Hm). exists m. rewrite Hr. split; [done|]. intros Hl. right.
    apply (Hlast m 0%nat); [done| |done|done]. intros -> _. by injection Hr.
Qed.

Lemma argv_program program rest : existsb (N.eqb quote) program = false ->
  match last program with Some c => c =? backslash | None => false end = false ->
  windows_argv_from ([quote] ++ program ++ [quote] ++ rest) None = windows_argv_from rest (Some (false, 0%nat, program)).
Proof.
  intros Hq Hl. destruct (windows_loop_plain program Hq 0) as (m & Hloop & Hm).
  assert (m = 0%nat) as ->.
  { destruct (Hm Hl) as [->|]; [|done]. by injection Hloop. }
  cbn [app]. change (windows_argv_from (quote :: ?l) None) with (windows_argv_from l (Some (true, 0%nat, []))).
  destruct (argv_loop program true 0 [] (quote :: rest) program 0 eq_refl Hloop) as (acc & -> & Ha).
  rewrite app_nil_r in Ha. cbn in Ha. subst acc. cbn. by rewrite app_nil_r.
Qed.

(** ** Reading the definitions *)

(** *** Readers *)

(** A reader of XML.  A document is read as its tags, each with the text between the tag before it and itself,
    with the entities resolved; behind the last tag is a text again.  An entity that XML does not have, or a tag
    within a tag, is not read. *)
Inductive XmlState := In_text (text : list N) | In_entity (text name : list N) | In_tag (text name : list N).

Definition xml_entity (name : list N) : option N :=
  if bool_decide (name = lit "lt") then Some 60 else
  if bool_decide (name = lit "gt") then Some 62 else
  if bool_decide (name = lit "amp") then Some 38 else
  if bool_decide (name = lit "quot") then Some 34 else
  if bool_decide (name = lit "apos") then Some 39 else None.

Fixpoint xml_read (cs : list N) (state : XmlState) : option (list (list N * list N) * list N) :=
  match cs, state with
  | [], In_text text => Some ([], text)
  | [], _ => None
  | c :: cs, In_text text =>
      if c =? 60 then xml_read cs (In_tag text [])
      else if c =? 38 then xml_read cs (In_entity text [])
      else xml_read cs (In_text (text ++ [c]))
  | c :: cs, In_entity text name =>
      if c =? 59 then match xml_entity name with Some c => xml_read cs (In_text (text ++ [c])) | None => None end
      else xml_read cs (In_entity text (name ++ [c]))
  | c :: cs, In_tag text name =>
      if c =? 62 then
        match xml_read cs (In_text []) with Some (pieces, rest) => Some ((text, name) :: pieces, rest) | None => None end
      else if c =? 60 then None
      else xml_read cs (In_tag text (name ++ [c]))
  end.

(** An element that holds a text, behind the blanks [before] *)
Definition xml_element (before name text : list N) : list (list N * list N) := [(before, name); (text, 47 :: name)].

(** The property list that has this label, these words as arguments of the program and this log *)
Definition plist_pieces (label : list N) (words : list (list N)) (log : list N) : list (list N * list N) :=
  let line := [10] in
  let inner := 10 :: lit "  " in
  let item := 10 :: lit "    " in
  [([], lit "?xml version=" ++ [quote] ++ lit "1.0" ++ [quote] ++ lit " encoding=" ++ [quote] ++ lit "UTF-8" ++ [quote]
          ++ lit "?");
   (line, lit "!DOCTYPE plist PUBLIC " ++ [quote] ++ lit "-//Apple//DTD PLIST 1.0//EN" ++ [quote] ++ lit " " ++ [quote]
            ++ lit "http://www.apple.com/DTDs/PropertyList-1.0.dtd" ++ [quote]);
   (line, lit "plist version=" ++ [quote] ++ lit "1.0" ++ [quote]); (line, lit "dict")] ++
  xml_element inner (lit "key") (lit "Label") ++ xml_element inner (lit "string") label ++
  xml_element inner (lit "key") (lit "ProgramArguments") ++
  [(inner, lit "array")] ++ concat (map (xml_element item (lit "string")) words) ++ [(inner, lit "/array")] ++
  xml_element inner (lit "key") (lit "RunAtLoad") ++ [(inner, lit "true/")] ++
  xml_element inner (lit "key") (lit "KeepAlive") ++ [(inner, lit "true/")] ++
  xml_element inner (lit "key") (lit "StandardOutPath") ++ xml_element inner (lit "string") log ++
  xml_element inner (lit "key") (lit "StandardErrorPath") ++ xml_element inner (lit "string") log ++
  [(line, lit "/dict"); (line, lit "/plist")].

(** A reader of systemd's units.  Lines end with a line break; one whose last backslash is not itself escaped goes on
    with the next. *)
Fixpoint unit_lines (cs line : list N) : list (list N) :=
  match cs with
  | [] => if is_empty line then [] else [line]
  | c :: cs => if c =? 10 then line :: unit_lines cs [] else unit_lines cs (line ++ [c])
  end.
Definition escapes (escaped : bool) (c : N) : bool := negb escaped && (c =? backslash).
Definition continues (line : list N) : bool := fold_left escapes line false.

(** The words of a command.  A word may be quoted; a backslash takes the meaning from a backslash or a quote, and no
    other escapes are read; neither is a word that begins with a semicolon, which would end the command. *)
Definition between {A} (word : option A) : bool := match word with None => true | Some _ => false end.
Fixpoint unit_words (cs : list N) (word : option (option N * bool * list N)) : option (list (list N)) :=
  match cs with
  | [] =>
      match word with
      | None => Some []
      | Some (None, false, read) => Some [read]
      | _ => None
      end
  | c :: cs =>
      if between word && ((c =? 32) || (c =? 9)) then unit_words cs None
      else if between word && (c =? 59) then None
      else
        let '(quoted, escaped, read) := default (None, false, []) word in
        if escaped then
          if (c =? backslash) || (c =? 34) || (c =? 39) then unit_words cs (Some (quoted, false, read ++ [c])) else None
        else if c =? backslash then unit_words cs (Some (quoted, true, read))
        else
          match quoted with
          | Some mark => unit_words cs (Some (if c =? mark then None else quoted, false, if c =? mark then read else read ++ [c]))
          | None =>
              if (c =? 32) || (c =? 9)
              then match unit_words cs None with Some words => Some (read :: words) | None => None end
              else if (c =? 34) || (c =? 39) then unit_words cs (Some (Some c, false, read))
              else unit_words cs (Some (None, false, read ++ [c]))
          end
  end.

(** A text in which every [mark] stands for a value unless it is doubled; the values are not known. *)
Fixpoint undouble (mark : N) (cs : list N) : option (list N) :=
  match cs with
  | [] => Some []
  | c :: cs =>
      if c =? mark then
        match cs with
        | d :: cs => if d =? mark then cons mark <$> undouble mark cs else None
        | [] => None
        end
      else cons c <$> undouble mark cs
  end.

(** The words of a command with the specifiers resolved, and with the variables resolved in all but the program, which
    is the path of a file *)
Definition unit_command (command : list N) : option (list (list N)) :=
  words ← unit_words command None;
  match words with
  | program :: args =>
      program ← undouble 37 program;
      args ← mapM (fun arg => resolved ← undouble 37 arg; undouble 36 resolved) args;
      if bool_decide (head program = Some 47) then Some (program :: args) else None
  | [] => None
  end.

(** *** Escaped texts *)

Definition keys (table : list (N * list N)) : list N := map fst table.

Lemma escape_char_key table c :
  existsb (N.eqb c) (keys table) = false -> escape_char table c = [c].
Proof.
  unfold escape_char. induction table as [|[k r] table IH]; [done|]. cbn [keys map existsb List.find fst].
  intros [Hk Ht]%orb_false_iff. rewrite N.eqb_sym, Hk. by apply IH.
Qed.

Lemma escape_cons table c a : escape (c :: a) table = escape_char table c ++ escape a table.
Proof. done. Qed.

(** A character is one of the table, or stands for itself. *)
Lemma escape_char_cases table c : existsb (N.eqb c) (keys table) = true \/
  existsb (N.eqb c) (keys table) = false /\ escape_char table c = [c].
Proof. destruct (existsb _ _) eqn:E; [by left|right]. split; [done|by apply escape_char_key]. Qed.

Lemma key_cases (l : list N) c : existsb (N.eqb c) l = true -> In c l.
Proof. by intros (k & Hk & ->%N.eqb_eq)%existsb_exists. Qed.

Lemma key_not (l : list N) c k : existsb (N.eqb c) l = false -> In k l -> (c =? k) = false.
Proof.
  intros H Hk. destruct (N.eqb_spec c k) as [->|]; [|done]. apply not_true_iff_false in H. destruct H.
  apply existsb_exists. exists k. split; [done|apply N.eqb_refl].
Qed.

(** *** launchd *)

Lemma xml_read_escaped a : forall cs text, xml_read (escape a XML ++ cs) (In_text text) = xml_read cs (In_text (text ++ a)).
Proof.
  induction a as [|c a IH]; intros cs text; [by rewrite app_nil_r|]. rewrite escape_cons, <- app_assoc.
  replace (text ++ c :: a) with ((text ++ [c]) ++ a) by (by rewrite <- app_assoc). rewrite <- IH. destruct (escape_char_cases XML c) as [Hc|[Hc ->]].
  - apply key_cases in Hc. cbn in Hc. repeat (destruct Hc as [<-|Hc]; [reflexivity|]). done.
  - cbn [app xml_read]. rewrite (key_not _ c 60 Hc), (key_not _ c 38 Hc) by (cbn; tauto). done.
Qed.

Definition prepend (pieces : list (list N * list N)) (r : option (list (list N * list N) * list N)) :=
  match r with Some (more, rest) => Some (pieces ++ more, rest) | None => None end.
Lemma prepend_app a b r : prepend a (prepend b r) = prepend (a ++ b) r.
Proof. destruct r as [[more rest]|]; [|done]. cbn. by rewrite app_assoc. Qed.

Definition next_argument : list N := lit "</string>" ++ [10] ++ lit "    <string>".
Definition last_argument : list N := lit "</string>" ++ [10] ++ lit "  </array>".
Definition xml_join (words : list (list N)) : list N :=
  join_with next_argument (map (fun word => escape word XML) words).
Definition item : list N := 10 :: lit "    ".
Definition inner : list N := 10 :: lit "  ".

(** What a literal part of a definition is read as *)
Definition tag_text (piece : list N * list N) : list N := piece.1 ++ [60] ++ piece.2 ++ [62].
Definition plain_piece (piece : list N * list N) : bool :=
  forallb (fun c => negb ((c =? 60) || (c =? 38))) piece.1 && forallb (fun c => negb ((c =? 60) || (c =? 62))) piece.2.

Lemma xml_read_plain before : forall text cs, forallb (fun c => negb ((c =? 60) || (c =? 38))) before = true ->
  xml_read (before ++ cs) (In_text text) = xml_read cs (In_text (text ++ before)).
Proof.
  induction before as [|c before IH]; intros text cs; [by rewrite app_nil_r|]. cbn [forallb app].
  intros [[H1 H2]%negb_true_iff%orb_false_iff H]%andb_true_iff. cbn [xml_read]. rewrite H1, H2, IH by done. by rewrite <- app_assoc.
Qed.

Lemma xml_read_tag tag : forall text name cs, forallb (fun c => negb ((c =? 60) || (c =? 62))) tag = true ->
  xml_read (tag ++ [62] ++ cs) (In_tag text name) = prepend [(text, name ++ tag)] (xml_read cs (In_text [])).
Proof.
  induction tag as [|c tag IH]; intros text name cs; [intros _; rewrite app_nil_r; reflexivity|]. cbn [forallb].
  intros [[H1 H2]%negb_true_iff%orb_false_iff H]%andb_true_iff.
  change ((c :: tag) ++ [62] ++ cs) with (c :: (tag ++ [62] ++ cs)). cbn [xml_read]. rewrite H1, H2, IH by done. by rewrite <- app_assoc.
Qed.

Lemma xml_read_pieces pieces : forall text cs, forallb plain_piece pieces = true ->
  xml_read (concat (map tag_text pieces) ++ cs) (In_text text) =
  match pieces with
  | [] => xml_read cs (In_text text)
  | (before, name) :: pieces => prepend ((text ++ before, name) :: pieces) (xml_read cs (In_text []))
  end.
Proof.
  induction pieces as [|[before name] pieces IH]; intros text cs; [done|]. cbn [forallb map concat].
  intros [[Hb Ht]%andb_true_iff H]%andb_true_iff. unfold tag_text at 1. cbn [fst snd] in *. rewrite <- !app_assoc, xml_read_plain by done.
  change ([60] ++ name ++ [62] ++ ?l) with (60 :: name ++ [62] ++ l).
  change (xml_read (60 :: ?l) (In_text ?t)) with (xml_read l (In_tag t [])).
  rewrite xml_read_tag, IH by done. destruct pieces as [|[before' name'] pieces]; [done|]. by rewrite prepend_app.
Qed.

Lemma xml_read_literal literal pieces text cs : literal = concat (map tag_text pieces) -> forallb plain_piece pieces = true ->
  xml_read (literal ++ cs) (In_text text) =
  match pieces with
  | [] => xml_read cs (In_text text)
  | (before, name) :: pieces => prepend ((text ++ before, name) :: pieces) (xml_read cs (In_text []))
  end.
Proof. intros ->. apply xml_read_pieces. Qed.

Lemma xml_read_words words : forall word text cs,
  xml_read (xml_join (word :: words) ++ last_argument ++ cs) (In_text text) =
  prepend ((text ++ word, lit "/string") :: concat (map (xml_element item (lit "string")) words) ++ [(inner, lit "/array")])
    (xml_read cs (In_text [])).
Proof.
  unfold xml_join. induction words as [|next words IH]; intros word text cs; cbn [map join_with];
    rewrite <- ?app_assoc, xml_read_escaped.
  - by rewrite (xml_read_literal last_argument [([], lit "/string"); (inner, lit "/array")]), app_nil_r.
  - rewrite (xml_read_literal next_argument [([], lit "/string"); (item, lit "string")]), app_nil_r by reflexivity.
    etransitivity; [apply (f_equal (prepend _)), (IH next [] cs)|]. rewrite prepend_app.
    unfold xml_element. cbn [map concat app]. reflexivity.
Qed.

Definition plist_head : list N := lines_of_text
  [ lit "<?xml version=" ++ [quote] ++ lit "1.0" ++ [quote] ++ lit " encoding=" ++ [quote]
      ++ lit "UTF-8" ++ [quote] ++ lit "?>";
    lit "<!DOCTYPE plist PUBLIC " ++ [quote] ++ lit "-//Apple//DTD PLIST 1.0//EN" ++ [quote] ++ lit " "
      ++ [quote] ++ lit "http://www.apple.com/DTDs/PropertyList-1.0.dtd" ++ [quote] ++ lit ">";
    lit "<plist version=" ++ [quote] ++ lit "1.0" ++ [quote] ++ lit ">";
    lit "<dict>";
    lit "  <key>Label</key>" ] ++ lit "  <string>".
Definition plist_arguments : list N :=
  lit "</string>" ++ [10] ++ lines_of_text [lit "  <key>ProgramArguments</key>"; lit "  <array>"] ++ lit "    <string>".
Definition plist_log : list N :=
  [10] ++ lines_of_text
    [lit "  <key>RunAtLoad</key>"; lit "  <true/>"; lit "  <key>KeepAlive</key>"; lit "  <true/>";
     lit "  <key>StandardOutPath</key>"] ++ lit "  <string>".
Definition plist_error : list N :=
  lit "</string>" ++ [10] ++ lines_of_text [lit "  <key>StandardErrorPath</key>"] ++ lit "  <string>".
Definition plist_tail : list N := lit "</string>" ++ [10] ++ lines_of_text [lit "</dict>"] ++ lit "</plist>".

Lemma Ok_inj {T E} (a b : T) : Ok (E := E) a = Ok b -> a = b.
Proof. congruence. Qed.

#[local] Opaque lit.
Lemma launchd_shape label program args log text : launchd_plist label program args log = Ok text ->
  text = plist_head ++ escape label XML ++ plist_arguments ++ xml_join (program :: args) ++ last_argument
           ++ plist_log ++ escape log XML ++ plist_error ++ escape log XML ++ plist_tail ++ [10].
Proof.
  unfold launchd_plist. destruct (check _ _) as [[]|]; [|done]. cbn zeta. intros <-%Ok_inj.
  unfold plist_head, plist_arguments, last_argument, plist_log, plist_error, plist_tail, lines_of_text, xml_join, next_argument.
  generalize (join_with (lit "</string>" ++ [10] ++ lit "    <string>")
    (map (fun word => escape word XML) (program :: args))).
  intros words. cbn [map concat]. rewrite <- !app_assoc. reflexivity.
Qed.
#[local] Transparent lit.

Lemma launchd_read label program args log text : launchd_plist label program args log = Ok text ->
  xml_read text (In_text []) = Some (plist_pieces label (program :: args) log, [10]).
Proof.
  intros ->%launchd_shape.
  rewrite (xml_read_literal plist_head
    (take 6 (plist_pieces label (program :: args) log) ++ [(inner, lit "string")])), xml_read_escaped by reflexivity.
  rewrite (xml_read_literal plist_arguments (([], lit "/string") :: xml_element inner (lit "key") (lit "ProgramArguments") ++
      [(inner, lit "array"); (item, lit "string")])), xml_read_words by reflexivity.
  rewrite (xml_read_literal plist_log (xml_element inner (lit "key") (lit "RunAtLoad") ++ [(inner, lit "true/")] ++
      xml_element inner (lit "key") (lit "KeepAlive") ++ [(inner, lit "true/")] ++
      xml_element inner (lit "key") (lit "StandardOutPath") ++ [(inner, lit "string")])), xml_read_escaped by reflexivity.
  rewrite (xml_read_literal plist_error (([], lit "/string") :: xml_element inner (lit "key") (lit "StandardErrorPath") ++
      [(inner, lit "string")])), xml_read_escaped by reflexivity.
  rewrite (xml_read_literal plist_tail [([], lit "/string"); ([10], lit "/dict"); ([10], lit "/plist")]) by reflexivity.
  unfold plist_pieces, xml_element. cbn [take map concat app prepend]. rewrite !prepend_app. cbn [prepend app].
  change (xml_read [10] (In_text [])) with (Some ([] : list (list N * list N), [10])). cbn [prepend].
  rewrite !app_nil_r, <- !app_assoc. reflexivity.
Qed.

(** *** systemd *)


(** What escaping leaves is read in two steps. *)
Lemma undouble_other mark c cs : (c =? mark) = false -> undouble mark (c :: cs) = cons c <$> undouble mark cs.
Proof. intros H. cbn. by rewrite H. Qed.
Lemma undouble_twice mark cs : undouble mark (mark :: mark :: cs) = cons mark <$> undouble mark cs.
Proof. cbn. by rewrite N.eqb_refl. Qed.

Definition VARIABLES : list (N * list N) := [(36, lit "$$")].
Definition DOUBLED : list (N * list N) := [(37, lit "%%"); (36, lit "$$")].

Lemma undouble_specifiers a : undouble 37 (escape a SPECIFIERS) = Some a.
Proof.
  induction a as [|c a IH]; [done|]. rewrite escape_cons. destruct (escape_char_cases SPECIFIERS c) as [Hc|[Hc ->]].
  - apply key_cases in Hc as [<-|[]]. cbn. by rewrite IH.
  - cbn [app]. by rewrite undouble_other, IH by (apply (key_not _ c 37 Hc); cbn; tauto).
Qed.

Lemma undouble_variables a : undouble 36 (escape a VARIABLES) = Some a.
Proof.
  induction a as [|c a IH]; [done|]. rewrite escape_cons. destruct (escape_char_cases VARIABLES c) as [Hc|[Hc ->]].
  - apply key_cases in Hc as [<-|[]]. cbn. by rewrite IH.
  - cbn [app]. by rewrite undouble_other, IH by (apply (key_not _ c 36 Hc); cbn; tauto).
Qed.

Lemma undouble_doubled a : undouble 37 (escape a DOUBLED) = Some (escape a VARIABLES).
Proof.
  induction a as [|c a IH]; [done|]. rewrite !escape_cons. destruct (escape_char_cases DOUBLED c) as [Hc|[Hc E]].
  - apply key_cases in Hc as [<-|[<-|[]]]; cbn; by rewrite IH.
  - rewrite E. cbn [app]. rewrite undouble_other, IH by (apply (key_not _ c 37 Hc); cbn; tauto).
    rewrite escape_char_key; [done|]. cbn. by rewrite (key_not _ c 36 Hc) by (cbn; tauto).
Qed.

Lemma escape_variables_none a : existsb (N.eqb 36) a = false -> escape a VARIABLES = a.
Proof.
  induction a as [|c a IH]; [done|]. cbn [existsb]. intros [Hc Ha]%orb_false_iff.
  rewrite escape_cons, IH, escape_char_key by (done || cbn; by rewrite N.eqb_sym, Hc). done.
Qed.

(** Within a word that is quoted, or that needs no quotes, the characters are read back up to what is doubled. *)
Definition needs_quotes (c : N) : bool := one_of " '\;" c || (c =? quote).
Lemma unit_words_escaped a : forall quoted read cs,
  quoted = Some quote \/ quoted = None /\ existsb (fun c => needs_quotes c || (c =? 9)) a = false ->
  unit_words (escape a EXEC_START ++ cs) (Some (quoted, false, read)) =
  unit_words cs (Some (quoted, false, read ++ escape a DOUBLED)).
Proof.
  induction a as [|c a IH]; intros quoted read cs Hq; [by rewrite app_nil_r|].
  assert (Hrest : quoted = Some quote \/ quoted = None /\ existsb (fun c => needs_quotes c || (c =? 9)) a = false).
  { destruct Hq as [|[? H]]; [by left|right]. cbn [existsb] in H. by apply orb_false_iff in H as [_ ?]. }
  rewrite !escape_cons, <- app_assoc.
  replace (read ++ escape_char DOUBLED c ++ escape a DOUBLED) with ((read ++ escape_char DOUBLED c) ++ escape a DOUBLED)
    by (by rewrite <- app_assoc).
  rewrite <- IH by done. destruct (escape_char_cases EXEC_START c) as [Hc|[Hc E]].
  - apply key_cases in Hc. cbn in Hc. destruct Hc as [<-|[<-|[<-|[<-|[]]]]].
    + destruct Hq as [->|[-> Hb]]; [|done]. reflexivity.
    + destruct Hq as [->|[-> Hb]]; [|done]. reflexivity.
    + change (escape_char EXEC_START 37) with [37; 37]. change (escape_char DOUBLED 37) with ([37] ++ [37]).
      rewrite (app_assoc read). destruct Hq as [->|[-> Hb]]; reflexivity.
    + change (escape_char EXEC_START 36) with [36; 36]. change (escape_char DOUBLED 36) with ([36] ++ [36]).
      rewrite (app_assoc read). destruct Hq as [->|[-> Hb]]; reflexivity.
  - assert (E' : escape_char DOUBLED c = [c]).
    { apply escape_char_key. cbn. by rewrite (key_not _ c 37 Hc), (key_not _ c 36 Hc) by (cbn; tauto). }
    rewrite E, E'. cbn [app unit_words between andb default from_option]. unfold id.
    assert (c =? backslash = false) as -> by (apply (key_not _ c 92 Hc); cbn; tauto).
    assert (Hquote : c =? quote = false) by (apply (key_not _ c 34 Hc); cbn; tauto).
    destruct Hq as [->|[-> Hb]]; [by rewrite Hquote|].
    cbn [existsb] in Hb. apply orb_false_iff in Hb as [[Hn H9]%orb_false_iff _].
    apply orb_false_iff in Hn as [Hn _]. unfold one_of in Hn.
    assert (c =? 32 = false /\ c =? 39 = false) as [-> ->].
    { cbn in Hn. rewrite !orb_false_iff in Hn. tauto. }
    unfold quote in Hquote. by rewrite H9, Hquote.
Qed.

Lemma unit_words_word w : existsb (N.eqb 9) w = false -> forall cs,
  unit_words (exec_start_word w ++ 32 :: cs) None =
    match unit_words cs None with Some words => Some (escape w DOUBLED :: words) | None => None end /\
  unit_words (exec_start_word w) None = Some [escape w DOUBLED].
Proof.
  intros Ht cs. unfold exec_start_word. fold needs_quotes.
  destruct (is_empty w || existsb needs_quotes w) eqn:Hq.
  - assert (Hread : forall rest, unit_words (([quote] ++ escape w EXEC_START ++ [quote]) ++ rest) None =
      unit_words rest (Some (None, false, escape w DOUBLED))).
    { intros rest. rewrite <- !app_assoc.
      change (unit_words (escape w EXEC_START ++ [quote] ++ rest) (Some (Some quote, false, [])) =
        unit_words rest (Some (None, false, escape w DOUBLED))).
      rewrite unit_words_escaped by (by left). reflexivity. }
    rewrite Hread, <- (app_nil_r ([quote] ++ _ ++ _)), Hread. done.
  - apply orb_false_iff in Hq as [He Hq]. destruct w as [|c w]; [done|].
    assert (Hplain : existsb (fun c => needs_quotes c || (c =? 9)) (c :: w) = false).
    { apply not_true_iff_false. intros (x & Hx & [H|H%N.eqb_eq]%orb_true_iff)%existsb_exists.
      - apply not_true_iff_false in Hq. apply Hq, existsb_exists. eauto.
      - subst x. apply not_true_iff_false in Ht. apply Ht, existsb_exists. exists 9. done. }
    assert (Hread : forall rest, unit_words (escape (c :: w) EXEC_START ++ rest) None =
      unit_words rest (Some (None, false, escape (c :: w) DOUBLED))).
    { intros rest. transitivity (unit_words (escape (c :: w) EXEC_START ++ rest) (Some (None, false, [])));
        [|apply (unit_words_escaped (c :: w) None [] rest); by right].
      rewrite escape_cons, <- app_assoc. cbn [existsb] in Hplain. apply orb_false_iff in Hplain as [[Hn H9]%orb_false_iff _].
      apply orb_false_iff in Hn as [Hn Hquote]. unfold one_of in Hn.
      assert (Hc : c =? 32 = false /\ c =? 39 = false /\ c =? 92 = false /\ c =? 59 = false).
      { cbn in Hn. rewrite !orb_false_iff in Hn. tauto. }
      destruct Hc as (H32 & H39 & H92 & H59).
      destruct (escape_char_cases EXEC_START c) as [Hc|[Hc E]].
      - apply key_cases in Hc as [<-|[<-|[<-|[<-|[]]]]]; done.
      - rewrite E. cbn [app unit_words between andb default from_option]. by rewrite H32, H9, H59. }
    rewrite Hread, <- (app_nil_r (escape (c :: w) EXEC_START)), Hread. done.
Qed.

Lemma unit_words_command words : words <> [] -> Forall (fun w => existsb (N.eqb 9) w = false) words ->
  unit_words (join_with (lit " ") (map exec_start_word words)) None = Some (map (fun w => escape w DOUBLED) words).
Proof.
  intros Hne H. induction H as [|w words Hw Hws IH]; [done|]. destruct words as [|v words].
  - by apply (unit_words_word w Hw []).
  - cbn [map join_with] in *. change (lit " " ++ ?l) with (32 :: l).
    rewrite (proj1 (unit_words_word w Hw _)), IH; done.
Qed.

Lemma unit_command_read program args : head program = Some 47 -> existsb (N.eqb 36) program = false ->
  Forall (fun w => existsb (N.eqb 9) w = false) (program :: args) ->
  unit_command (join_with (lit " ") (map exec_start_word (program :: args))) = Some (program :: args).
Proof.
  intros Hhead Hdollar Ht. unfold unit_command. rewrite unit_words_command by done. cbn [mbind option_bind map].
  rewrite undouble_doubled. cbn [mbind option_bind].
  assert (Hargs : mapM (fun arg => resolved ← undouble 37 arg; undouble 36 resolved) (map (fun w => escape w DOUBLED) args) = Some args).
  { clear. induction args as [|a args IH]; [done|]. cbn. rewrite undouble_doubled. cbn. rewrite undouble_variables. cbn.
    by rewrite IH. }
  rewrite Hargs. cbn. by rewrite escape_variables_none, bool_decide_eq_true_2.
Qed.

(** *** Lines *)

Lemma unit_lines_text lines : Forall (fun line => existsb (N.eqb 10) line = false) lines ->
  unit_lines (lines_of_text lines) [] = lines.
Proof.
  unfold lines_of_text. induction 1 as [|line lines Hl _ IH]; [done|]. cbn [map concat]. rewrite <- app_assoc.
  assert (Hline : forall text read, existsb (N.eqb 10) text = false ->
    unit_lines (text ++ [10] ++ concat (map (fun line => line ++ [10]) lines)) read = (read ++ text) :: lines).
  { induction text as [|c text IHt]; intros read H; [rewrite app_nil_r; cbn; by rewrite IH|].
    cbn [existsb] in H. apply orb_false_iff in H as [Hc H]. cbn [app unit_lines].
    rewrite N.eqb_sym, Hc. rewrite (IHt _ H). by rewrite <- app_assoc. }
  by rewrite (Hline line []).
Qed.

Lemma continues_escaped a : continues (escape a EXEC_START) = false.
Proof.
  unfold continues. induction a as [|c a IH]; [done|]. rewrite escape_cons, fold_left_app.
  destruct (escape_char_cases EXEC_START c) as [Hc|[Hc E]].
  - apply key_cases in Hc. cbn in Hc. destruct Hc as [<-|[<-|[<-|[<-|[]]]]]; exact IH.
  - rewrite E. cbn [fold_left]. unfold escapes at 2. cbn [negb andb].
    assert (c =? backslash = false) as -> by (apply (key_not _ c 92 Hc); cbn; tauto). exact IH.
Qed.

Lemma continues_words words : continues (join_with (lit " ") (map exec_start_word words)) = false.
Proof.
  assert (Hword : forall w, continues (exec_start_word w) = false).
  { intros w. unfold exec_start_word. destruct (_ || _); [|apply continues_escaped].
    unfold continues. rewrite !fold_left_app. cbn [fold_left]. change (escapes false quote) with false.
    pose proof (continues_escaped w) as H. unfold continues in H. by rewrite H. }
  induction words as [|w words IH]; [done|]. destruct words as [|v words]; [apply Hword|].
  cbn [map join_with] in *. unfold continues in *. rewrite !fold_left_app, Hword. exact IH.
Qed.

(** A line goes on only if it ends with a backslash. *)
Lemma continues_last line : last line <> Some backslash -> continues line = false.
Proof.
  unfold continues. destruct line as [|c line _] using rev_ind; [done|]. rewrite fold_left_app, last_snoc. cbn. unfold escapes.
  intros H. destruct (N.eqb_spec c backslash) as [->|]; [done|]. by rewrite andb_false_r.
Qed.

Lemma last_escape text : last text <> Some backslash -> last (escape text SPECIFIERS) <> Some backslash.
Proof.
  destruct text as [|c text _] using rev_ind; [done|]. rewrite last_snoc. intros Hc. unfold escape.
  rewrite map_app, concat_app. cbn [map concat]. rewrite app_nil_r.
  destruct (escape_char_cases SPECIFIERS c) as [Hk|[Hk ->]]; [|by rewrite last_snoc].
  apply key_cases in Hk. cbn in Hk. destruct Hk as [<-|[]]. change (escape_char SPECIFIERS 37) with ([37] ++ [37]).
  by rewrite app_assoc, last_snoc.
Qed.

(** What is printable has neither tabulators nor line breaks, before and after it is escaped. *)
Lemma printable_without c text : unprintable c = true -> existsb unprintable text = false -> existsb (N.eqb c) text = false.
Proof.
  intros Hc Ht. apply not_true_iff_false. intros (x & Hx & <-%N.eqb_eq)%existsb_exists. apply not_true_iff_false in Ht.
  apply Ht, existsb_exists. eauto.
Qed.

Lemma printable_escape table text : forallb (fun entry => negb (existsb unprintable entry.2)) table = true ->
  existsb unprintable text = false -> existsb unprintable (escape text table) = false.
Proof.
  intros Htable. induction text as [|c text IH]; [done|]. cbn [existsb]. intros [Hc Ht]%orb_false_iff.
  rewrite escape_cons, existsb_app, IH, orb_false_r by done. unfold escape_char.
  destruct (List.find _ table) as [[k r]|] eqn:Hf; [|cbn; by rewrite Hc].
  apply find_some in Hf as [Hin _]. rewrite forallb_forall in Htable. by apply Htable, negb_true_iff in Hin.
Qed.

Lemma printable_words words : forallb (fun w => negb (existsb unprintable w)) words = true ->
  existsb unprintable (join_with (lit " ") (map exec_start_word words)) = false.
Proof.
  assert (Hword : forall w, existsb unprintable w = false -> existsb unprintable (exec_start_word w) = false).
  { intros w Hw. unfold exec_start_word. pose proof (printable_escape EXEC_START w eq_refl Hw) as He.
    destruct (_ || _); [|done]. by rewrite !existsb_app, He. }
  induction words as [|w words IH]; [done|]. cbn [forallb]. intros [Hw%negb_true_iff H]%andb_true_iff.
  destruct words as [|v words]; [by apply Hword|]. cbn [map join_with] in *. rewrite !existsb_app, Hword by done. by apply IH.
Qed.

Lemma service_check_ok required optional : check required optional = Ok tt ->
  forallb (fun w => negb (existsb unprintable w)) (required ++ optional) = true.
Proof.
  unfold check. destruct (existsb is_empty required); [done|]. destruct (existsb unprintable _) eqn:Hu; [done|]. intros _.
  apply forallb_forall. intros t Ht. apply negb_true_iff, not_true_iff_false. intros (c & Hc & H)%existsb_exists.
  apply not_true_iff_false in Hu. apply Hu, existsb_exists. exists c. split; [|done]. apply in_concat. eauto.
Qed.

Lemma systemd_read description program args text : systemd_unit description program args = Ok text ->
  exists described command,
    unit_lines text [] = [lit "[Unit]"; lit "Description=" ++ described; []; lit "[Service]"; lit "ExecStart=" ++ command;
      lit "Restart=on-failure"; lit "KillMode=process"; []; lit "[Install]"; lit "WantedBy=default.target"] /\
    Forall (fun line => continues line = false) (unit_lines text []) /\
    undouble 37 described = Some description /\ unit_command command = Some (program :: args).
Proof.
  unfold systemd_unit. destruct (check [program] (description :: args)) as [[]|] eqn:Hc; [|done].
  destruct (match program with c :: _ => c =? 47 | [] => false end) eqn:Hslash; [|done].
  destruct (existsb (N.eqb 36) program) eqn:Hdollar; [done|]. cbn [negb orb].
  destruct (match last description with Some c => c =? backslash | None => false end) eqn:Hlast; [done|].
  cbn zeta. intros <-%Ok_inj. apply service_check_ok in Hc. cbn [forallb app] in Hc.
  apply andb_true_iff in Hc as [Hprog [Hdesc Hargs]%andb_true_iff]. apply negb_true_iff in Hdesc.
  assert (Hwords : forallb (fun w => negb (existsb unprintable w)) (program :: args) = true) by (cbn [forallb]; by rewrite Hprog).
  exists (escape description SPECIFIERS), (join_with (lit " ") (map exec_start_word (program :: args))).
  pose proof (printable_words _ Hwords) as Hcommand. pose proof (continues_words (program :: args)) as Hgoes.
  assert (Hcmd : unit_command (join_with (lit " ") (map exec_start_word (program :: args))) = Some (program :: args)).
  { apply unit_command_read; [|done|].
    - destruct program as [|c program]; [done|]. apply N.eqb_eq in Hslash. by subst c.
    - apply List.Forall_forall. intros w Hw. rewrite forallb_forall in Hwords. apply Hwords, negb_true_iff in Hw.
      by apply printable_without. }
  set (command := join_with _ _) in *. clearbody command. rewrite unit_lines_text.
  - split; [done|]. split; [|split; [apply undouble_specifiers|done]].
    rewrite !Forall_cons, Forall_nil. split_and!; try reflexivity.
    + apply continues_last. 
      destruct (escape description SPECIFIERS) as [|x l _] eqn:E using rev_ind; [done|].
      rewrite app_assoc, last_snoc. rewrite <- (last_snoc x l), <- E. apply last_escape.
      destruct (last description) as [c|]; [|done]. apply N.eqb_neq in Hlast. congruence.
    + unfold continues in *. rewrite fold_left_app. exact Hgoes.
  - assert (Hplain : forall text, existsb unprintable text = false -> existsb (N.eqb 10) text = false)
      by (intros t; by apply printable_without).
    rewrite !Forall_cons, Forall_nil. split_and!; try reflexivity.
    + rewrite existsb_app. apply orb_false_iff. split; [done|]. by apply Hplain, printable_escape.
    + rewrite existsb_app. apply orb_false_iff. split; [done|]. by apply Hplain.
Qed.

(** ** Properties *)

(** C36: A Windows task starts the program it names with the arguments it was given.  The command is
    the quoted program followed by text from which the reader of command lines gets back exactly the
    arguments, empty ones, spaces, quotes and backslashes included; for a program that does not end
    in a backslash, as no executable does, the reader gets it back too.  The command has at most 261
    UTF-16 units and no percent sign, which the command interpreter would expand. *)
Theorem windows_command_read_back (program : list N) (args : list (list N)) command
    (rendered : windows_task_command program args = Ok command) :
  (exists rest, command = [quote] ++ program ++ [quote] ++ rest /\ windows_argv rest = args) /\
  ~ In quote program /\
  (last program <> Some backslash -> windows_argv command = program :: args) /\
  utf16_count command <= SCHTASKS_COMMAND_MAX /\ ~ In 37 (concat (program :: args)).
Proof.
  unfold windows_task_command in rendered. destruct (check _ _) as [[]|]; [|done].
  destruct (existsb (N.eqb quote) program) eqn:Hq; [done|].
  destruct (existsb (N.eqb 37) _) eqn:Hpercent; [done|]. cbn [orb] in rendered. cbn zeta in rendered.
  destruct (N.ltb_spec SCHTASKS_COMMAND_MAX (utf16_count
    ([quote] ++ program ++ [quote] ++ concat (map (fun argument => 32 :: windows_argument argument) args)))) as [|Hle];
    [done|]. apply Ok_inj in rendered. subst command.
  assert (Hno : forall c text, existsb (N.eqb c) text = false -> ~ In c text).
  { intros c text He Hin. apply not_true_iff_false in He. apply He, existsb_exists. exists c.
    split; [done|apply N.eqb_refl]. }
  split; [eexists; split; [reflexivity|apply argv_arguments]|]. split; [by apply Hno|].
  split; [|split; [done|by apply Hno]].
  intros Hlast. unfold windows_argv. rewrite argv_program; [|done|].
  - destruct args as [|a args]; [cbn; by rewrite app_nil_r|].
    pose proof (argv_arguments (a :: args)) as H. revert H. cbn [map concat app windows_argv_from N.eqb Pos.eqb orb].
    intros ->. cbn. by rewrite app_nil_r.
  - destruct (last program) as [c|]; [|done]. apply N.eqb_neq. congruence.
Qed.

(** C37: Nothing in a service definition can be mistaken for something else.  A reader of XML that resolves the entities
    finds in a launchd agent the tags of the property list and in them exactly the label, the program with its
    arguments and the log that were given.  A reader of units finds in one for systemd the lines that are meant and no
    line that goes on with the next; the description with its specifiers resolved is the one that was given, and the
    command has the program and the arguments as its words, once they were unquoted and the specifiers and variables in
    them were resolved.  (The blanks at the ends of a description are kept by this reader.) *)
Theorem service_definitions_read_back :
  (forall label program args log text, launchd_plist label program args log = Ok text ->
    xml_read text (In_text []) = Some (plist_pieces label (program :: args) log, [10])) /\
  (forall description program args text, systemd_unit description program args = Ok text ->
    exists described command,
      unit_lines text [] = [lit "[Unit]"; lit "Description=" ++ described; []; lit "[Service]"; lit "ExecStart=" ++ command;
        lit "Restart=on-failure"; lit "KillMode=process"; []; lit "[Install]"; lit "WantedBy=default.target"] /\
      Forall (fun line => continues line = false) (unit_lines text []) /\
      undouble 37 described = Some description /\ unit_command command = Some (program :: args)).
Proof. split; [exact launchd_read|exact systemd_read]. Qed.

(** ** Witnesses *)

Lemma windows_command_read_back_witness :
  windows_argv ([quote] ++ lit "C:\my dir\d.exe" ++ [quote] ++ lit " chat C:\dir\ a\\\" ++ [quote] ++ lit "b") =
  [lit "C:\my dir\d.exe"; lit "chat"; lit "C:\dir\"; lit "a\" ++ [quote] ++ lit "b"].
Proof.
  apply (windows_command_read_back (lit "C:\my dir\d.exe")
    [lit "chat"; lit "C:\dir\"; lit "a\" ++ [quote] ++ lit "b"] _ eq_refl). vm_compute. discriminate.
Defined.

Lemma service_definitions_read_back_witness :
  (exists text, launchd_plist (lit "a<b>") (lit "/bin/d") [lit "</string>&amp;"; []] (lit "/log") = Ok text /\
     xml_read text (In_text []) = Some (plist_pieces (lit "a<b>") [lit "/bin/d"; lit "</string>&amp;"; []] (lit "/log"), [10])) /\
  exists text, systemd_unit (lit "100%n") (lit "/bin/d") [lit "a b"; lit "$c;%h"; lit "\"; []] = Ok text /\
    exists described command, undouble 37 described = Some (lit "100%n") /\
      unit_command command = Some [lit "/bin/d"; lit "a b"; lit "$c;%h"; lit "\"; []].
Proof.
  split.
  - destruct (launchd_plist (lit "a<b>") (lit "/bin/d") [lit "</string>&amp;"; []] (lit "/log")) as [text|] eqn:E;
      [|vm_compute in E; discriminate E]. exists text. split; [reflexivity|].
    exact (proj1 service_definitions_read_back _ _ _ _ text E).
  - destruct (systemd_unit (lit "100%n") (lit "/bin/d") [lit "a b"; lit "$c;%h"; lit "\"; []]) as [text|] eqn:E;
      [|vm_compute in E; discriminate E]. exists text. split; [reflexivity|].
    destruct (proj2 service_definitions_read_back _ _ _ text E) as (d & c & _ & _ & Hd & Hc). exists d, c. split; [exact Hd|exact Hc].
Defined.
