(* ===== verification/Clients.v ===== *)
(** hook_clients.rs and mcp_clients.rs: the entries that the program keeps in the configuration of
    other programs - hooks of Codex and Claude, registrations of its MCP server. *)

From Stdlib Require Import NArith Lia String Ascii Sorted.
From stdpp Require Import base list strings.
From S2P Require Import Prelude SortedLists RustStr Wire Values.

(** ** Definitions *)

(** *** hook_clients.rs *)

Definition EVENTS : list (string * string) :=
  [("SessionStart", "start"); ("PreToolUse", "pre"); ("PostToolUse", "post"); ("Stop", "stop")]%string.
Definition STATUS : string := "domyjob: chat lifecycle".
Definition TIMEOUT_SECONDS : string := "30".

Record CodexCommand := mkCodexCommand { CodexCommand_command : string; CodexCommand_windows : string }.

Inductive HookError :=
| HookError_Json (error : JsonError)
| HookError_Shape (what : string).

(** [slice::swap], which panics out of range *)
Definition swap {T} (groups : list T) (a b : nat) : option (list T) :=
  match groups !! a, groups !! b with
  | Some x, Some y => Some (<[b := x]> (<[a := y]> groups))
  | _, _ => None
  end.

(** The loop of [compact_foreign] over the positions from [read]; [None] is a panic. *)
Fixpoint compact_loop {T} (owned : T -> bool) (reads : list nat) (groups : list T) (retained : nat) :
  option (list T * nat) :=
  match reads with
  | [] => Some (groups, retained)
  | read :: reads =>
      if match groups !! read with Some group => negb (owned group) | None => false end
      then match swap groups retained read with
           | Some groups => compact_loop owned reads groups (S retained)
           | None => None
           end
      else compact_loop owned reads groups retained
  end.
Definition compact_foreign {T} (groups : list T) (owned : T -> bool) : option (list T * nat) :=
  compact_loop owned (seq 0 (length groups)) groups 0.

Definition replace_owned {T} (groups : list T) (owned : T -> bool) (replacement : T) : option (list T) :=
  match compact_foreign groups owned with
  | Some (groups, length_) => Some (take length_ groups ++ [replacement])
  | None => None
  end.

Definition is_string (value : option Value) : bool :=
  match value with Some (Value_String _) => true | _ => false end.

Definition owned_group (group : Value) : bool :=
  match option_bind _ _ value_as_array (value_get group "hooks") with
  | Some [handler] =>
      bool_decide (option_bind _ _ value_as_str (value_get handler "type") = Some "command"%string)
      && bool_decide (option_bind _ _ value_as_str (value_get handler "statusMessage") = Some STATUS)
      && is_string (value_get handler "command")
      && is_string (value_get handler "commandWindows")
  | _ => false
  end.

(** Whether [group] has the shape of a matcher group. *)
Definition matcher_group (group : Value) : bool :=
  match group with
  | Value_Object _ =>
      match value_get group "hooks" with
      | Some handlers => match value_as_array handlers with Some _ => true | None => false end
      | None => true
      end
  | _ => false
  end.

(** The groups of an event, which are created if missing, and what puts them back. *)
Definition event_groups (document : Value) (event : string) :
  result (list Value * (list Value -> Value)) HookError :=
  let? root := ok_or (value_as_object document) (HookError_Shape "root") in
  let? events := ok_or (value_as_object (default (Value_Object []) (field_get root "hooks")))
                   (HookError_Shape "hooks map") in
  let? groups := ok_or (value_as_array (default (Value_Array []) (field_get events event)))
                   (HookError_Shape "event groups") in
  if forallb matcher_group groups
  then Ok (groups, fun groups =>
             Value_Object (field_put root "hooks" (Value_Object (field_put events event (Value_Array groups)))))
  else Err (HookError_Shape "matcher group").

Definition codex_group (command : CodexCommand) : Value :=
  Value_Object [("hooks", Value_Array [Value_Object
    [("command", Value_String (CodexCommand_command command));
     ("commandWindows", Value_String (CodexCommand_windows command));
     ("statusMessage", Value_String STATUS);
     ("timeout", Value_Number TIMEOUT_SECONDS);
     ("type", Value_String "command")]%string])]%string.

(** The loop of [codex_merge]; a panic is an error here, and [replace_owned_spec] shows there is none. *)
Fixpoint merge_events (document : Value) (commands : list (string * CodexCommand)) : result Value HookError :=
  match commands with
  | [] => Ok document
  | (event, command) :: commands =>
      let? (groups, put_back) := event_groups document event in
      let? groups := ok_or (replace_owned groups owned_group (codex_group command)) (HookError_Shape "panic") in
      merge_events (put_back groups) commands
  end.

Section codex.
(** [serde_json::from_slice] and [Value::to_string] *)
Context (from_slice : list N -> option Value) (to_string : Value -> string).

(** The document, an absent one being empty. *)
Definition read_document (document : string) : result Value JsonError :=
  match trim_chars (chars document) with
  | [] => Ok (Value_Object [])
  | _ => foreign_json from_slice document
  end.

Definition codex_commands (commands : list CodexCommand) : list (string * CodexCommand) :=
  zip (map fst EVENTS) commands.

Definition codex_merge (document : string) (commands : list CodexCommand) : result string HookError :=
  if MAX_FOREIGN_BYTES <? str_len document
  then Err (HookError_Json (JsonError_TooLarge MAX_FOREIGN_BYTES)) else
  let? original := map_err HookError_Json (read_document document) in
  let? parsed := merge_events original (codex_commands commands) in
  if decide (parsed = original) then Ok document else
  let encoded := to_string parsed in
  if MAX_FOREIGN_BYTES <? str_len encoded
  then Err (HookError_Json (JsonError_TooLarge MAX_FOREIGN_BYTES)) else Ok encoded.
End codex.

Definition claude_group (program phase : string) : Value :=
  Value_Array [Value_Object [("hooks", Value_Array [Value_Object
    [("args", Value_Array (map Value_String ["chat"; "hook"; phase; "--client"; "claude"; "--if-bound"]));
     ("command", Value_String program);
     ("timeout", Value_Number TIMEOUT_SECONDS);
     ("type", Value_String "command")]])]]%string.
Definition claude_settings (program : string) : Value :=
  Value_Object [("hooks"%string, Value_Object
    (foldl (fun hooks entry => field_put hooks entry.1 (claude_group program entry.2)) [] EVENTS))].

(** *** mcp_clients.rs *)

Definition SERVER : string := "domyjob".
Definition OPENCODE_MEMBER : list string := ["mcp"%string; SERVER].
Definition claude_get : list string := ["mcp"; "get"; SERVER]%string.
Definition claude_remove : list string := ["mcp"; "remove"; "--scope"; "user"; SERVER]%string.
Definition claude_add (program : string) : list string :=
  ["mcp"; "add"; "--scope"; "user"; "--transport"; "stdio"; SERVER; "--"; program; "mcp"]%string.
Definition codex_get : list string := ["mcp"; "get"; SERVER; "--json"]%string.
Definition codex_remove : list string := ["mcp"; "remove"; SERVER]%string.
Definition codex_add (program : string) : list string := ["mcp"; "add"; SERVER; "--"; program; "mcp"]%string.

(** [str::lines]: a carriage return before the line feed is dropped, and an empty last line. *)
Definition strip_cr (line : string) : string :=
  match rev (list_ascii_of_string line) with
  | a :: rest => if Ascii.eqb a "013" then string_of_list_ascii (rev rest) else line
  | [] => line
  end.
Fixpoint lines_split (parts : list string) : list string :=
  match parts with
  | [] => []
  | [part] => if bool_decide (part = EmptyString) then [] else [part]
  | part :: parts => strip_cr part :: lines_split parts
  end.
Definition str_lines (text : string) : list string := lines_split (split "010" text).
Definition str_trim (text : string) : string := of_chars (trim_chars (chars text)).

Definition claude_registration_matches (get_output program : string) : bool :=
  let lines := map str_trim (str_lines get_output) in
  existsb (starts_with "Scope: User config") lines
  && forallb (fun wanted => bool_decide (wanted ∈ lines))
       ["Type: stdio"; String.append "Command: " program; "Args: mcp"]%string.

Record CodexTransport := mkCodexTransport {
  CodexTransport_kind : string;
  CodexTransport_command : string;
  CodexTransport_args : list string
}.
Record CodexServer := mkCodexServer { CodexServer_enabled : bool; CodexServer_transport : CodexTransport }.

Definition codex_registration_matches (from_slice : list N -> option CodexServer) (get_json program : string) : bool :=
  match foreign_json from_slice get_json with
  | Ok server =>
      let transport := CodexServer_transport server in
      CodexServer_enabled server
      && bool_decide (CodexTransport_kind transport = "stdio"%string)
      && bool_decide (CodexTransport_command transport = program)
      && bool_decide (CodexTransport_args transport = ["mcp"%string])
  | Err _ => false
  end.

(** [to_string] is the text of a value. *)
Definition opencode_mcp_value (to_string : Value -> string) (program : string) : string :=
  let q := String "034" EmptyString in
  let quoted text := String.append q (String.append text q) in
  String.concat EmptyString
    ["{"; quoted "type"; ":"; quoted "local"; ","; quoted "command"; ":["; to_string (Value_String program); ",";
     quoted "mcp"; "],"; quoted "enabled"; ":true}"]%string.

(** ** Lemmas *)

(** *** Replacing what is owned keeps the rest in order *)

Definition foreign {T} (owned : T -> bool) (groups : list T) : list T :=
  List.filter (fun group => negb (owned group)) groups.

Lemma foreign_app {T} (owned : T -> bool) l1 l2 : foreign owned (l1 ++ l2) = foreign owned l1 ++ foreign owned l2.
Proof. apply List.filter_app. Qed.

Lemma foreign_length {T} (owned : T -> bool) l : (length (foreign owned l) <= length l)%nat.
Proof. apply List.filter_length_le. Qed.

Lemma compact_loop_filter {T} (owned : T -> bool) (todo : list T) : forall original groups read done_,
  original = done_ ++ todo -> length done_ = read -> length groups = length original ->
  take (length (foreign owned done_)) groups = foreign owned done_ -> drop read groups = todo ->
  exists groups', compact_loop owned (seq read (length todo)) groups (length (foreign owned done_)) =
      Some (groups', length (foreign owned original)) /\
    length groups' = length original /\
    take (length (foreign owned original)) groups' = foreign owned original.
Proof.
  induction todo as [|x todo IH]; intros original groups read done_ -> Hread Hlen Htake Hdrop; cbn [length seq compact_loop].
  { exists groups. by rewrite app_nil_r in *. }
  assert (Hx : groups !! read = Some x) by (rewrite <- (Nat.add_0_r read), <- lookup_drop, Hdrop; done).
  rewrite Hx. replace (done_ ++ x :: todo) with ((done_ ++ [x]) ++ todo) by by rewrite <- app_assoc.
  assert (Hle : (length (foreign owned done_) <= read)%nat) by (rewrite <- Hread; apply foreign_length).
  assert (Hlt : (read < length groups)%nat) by by apply lookup_lt_Some in Hx.
  destruct (owned x) eqn:Hown; cbn [negb].
  - assert (Hf : foreign owned (done_ ++ [x]) = foreign owned done_).
    { rewrite foreign_app. unfold foreign at 2. cbn. by rewrite Hown, app_nil_r. }
    rewrite <- Hf. apply IH; [done| |by rewrite <- app_assoc|by rewrite Hf|].
    + rewrite length_app. cbn. lia.
    + rewrite <- (Nat.add_1_r read), <- drop_drop, Hdrop. done.
  - assert (Hf : foreign owned (done_ ++ [x]) = foreign owned done_ ++ [x]).
    { rewrite foreign_app. unfold foreign at 2. cbn. by rewrite Hown. }
    unfold swap. rewrite Hx.
    destruct (groups !! length (foreign owned done_)) as [y|] eqn:Hy; [|apply lookup_ge_None in Hy; lia].
    replace (S (length (foreign owned done_))) with (length (foreign owned (done_ ++ [x])))
      by (rewrite Hf, length_app; cbn; lia).
    apply IH; [done| | | |].
    + rewrite length_app. cbn. lia.
    + by rewrite <- app_assoc, !length_insert.
    + rewrite Hf, length_app. cbn [length]. rewrite Nat.add_1_r.
      rewrite (take_S_r _ _ x).
      * f_equal. rewrite take_insert_ge by lia. by rewrite take_insert_ge by lia.
      * destruct (decide (read = length (foreign owned done_))) as [He|Hne].
        { rewrite <- He in *. rewrite list_lookup_insert_eq by (rewrite length_insert; lia). congruence. }
        rewrite list_lookup_insert_ne by done. apply list_lookup_insert_eq. lia.
    + rewrite !drop_insert_lt by lia.
      rewrite <- (Nat.add_1_r read), <- drop_drop, Hdrop. done.
Qed.

Lemma replace_owned_spec {T} (groups : list T) owned replacement :
  replace_owned groups owned replacement = Some (foreign owned groups ++ [replacement]).
Proof.
  unfold replace_owned, compact_foreign.
  destruct (compact_loop_filter owned groups groups groups 0 []) as (groups' & Hloop & _ & Htake); try done.
  cbn [foreign List.filter length] in Hloop. rewrite Hloop. by rewrite Htake.
Qed.

Lemma foreign_idempotent {T} (owned : T -> bool) groups : foreign owned (foreign owned groups) = foreign owned groups.
Proof.
  induction groups as [|x groups IH]; [done|]. unfold foreign in *. cbn. destruct (owned x) eqn:Hx; cbn; [done|].
  by rewrite Hx; cbn; rewrite IH.
Qed.

(** *** One event *)

Definition hooks_of (document : Value) : list (string * Value) :=
  default [] (option_bind _ _ value_as_object (value_get document "hooks")).
Definition groups_of (document : Value) (event : string) : list Value :=
  default [] (option_bind _ _ value_as_array (field_get (hooks_of document) event)).

(** The keys of an object are in order, as those of a [BTreeMap] are. *)
Definition in_order (fields : list (string * Value)) : Prop := StronglySorted cmp_lt (map fst fields).
Definition ordered_document (document : Value) : Prop :=
  (forall root, document = Value_Object root -> in_order root) /\ in_order (hooks_of document).

Lemma cmp_gt_iff (x y : string) : cmp x y = Gt <-> cmp_lt y x.
Proof. unfold cmp_lt. rewrite (cmp_opp x y). by destruct (cmp x y). Qed.

Lemma field_put_elem fields key value k : In k (map fst (field_put fields key value)) <-> k = key \/ In k (map fst fields).
Proof.
  induction fields as [|[l v] fields IH]; cbn; [naive_solver|].
  destruct (cmp key l) eqn:Hc; cbn; [|naive_solver|rewrite IH; naive_solver].
  apply cmp_eq_iff in Hc. subst. naive_solver.
Qed.

Lemma field_put_sorted fields key value : in_order fields -> in_order (field_put fields key value).
Proof.
  unfold in_order. induction fields as [|[l v] fields IH]; cbn; [repeat constructor|].
  intros [Hs Hall]%StronglySorted_inv. destruct (cmp key l) eqn:Hc; cbn.
  - apply cmp_eq_iff in Hc. subst. by constructor.
  - constructor; [by constructor|]. constructor; [done|].
    eapply Forall_impl; [exact Hall|]. intros k Hk. by etrans.
  - constructor; [by apply IH|]. apply List.Forall_forall. intros k [->|Hk]%field_put_elem.
    + by apply cmp_gt_iff in Hc.
    + rewrite List.Forall_forall in Hall. by apply Hall.
Qed.

Lemma field_put_same fields key value : in_order fields -> field_get fields key = Some value ->
  field_put fields key value = fields.
Proof.
  unfold in_order. induction fields as [|[l v] fields IH]; cbn [map fst]; [done|].
  intros [Hs Hall]%StronglySorted_inv. rewrite field_get_cons. case_decide as Hl.
  - intros [= ->]. subst. cbn [field_put fst]. by rewrite (proj2 (cmp_eq_iff key key) eq_refl).
  - intros Hget. pose proof (field_get_elem _ _ _ Hget) as Hin. cbn [field_put fst].
    assert (Hlt : cmp_lt l key).
    { rewrite List.Forall_forall in Hall. apply Hall. apply in_map_iff. by exists (key, value). }
    apply cmp_gt_iff in Hlt. rewrite Hlt. by rewrite IH.
Qed.

Lemma event_groups_ok document event groups put_back : event_groups document event = Ok (groups, put_back) ->
  exists root, document = Value_Object root /\ groups = groups_of document event /\
    forallb matcher_group groups = true /\
    forall new, put_back new =
      Value_Object (field_put root "hooks" (Value_Object (field_put (hooks_of document) event (Value_Array new)))).
Proof.
  unfold event_groups, groups_of, hooks_of. destruct document as [| | | | |root]; try done. cbn [ok_or value_as_object value_get].
  destruct (field_get root "hooks") as [hooks|] eqn:Hh; cbn [default option_bind].
  - destruct hooks as [| | | | |events]; try done. cbn [ok_or value_as_object default from_option id].
    destruct (field_get events event) as [gs|] eqn:Hg; cbn [default option_bind from_option id].
    + destruct gs as [| | | |gs|]; try done. cbn. destruct (forallb matcher_group gs) eqn:Hm; [|done].
      intros [= <- <-]. by exists root.
    + cbn. intros [= <- <-]. by exists root.
  - cbn. intros [= <- <-]. by exists root.
Qed.

(** A document after the groups of one event have been replaced. *)
Record stepped (event : string) (command : CodexCommand) (before after : Value) : Prop := {
  stepped_groups : groups_of after event = foreign owned_group (groups_of before event) ++ [codex_group command];
  stepped_events : forall event', event' <> event ->
    field_get (hooks_of after) event' = field_get (hooks_of before) event';
  stepped_keys : forall key, key <> "hooks"%string -> value_get after key = value_get before key;
  stepped_ordered : ordered_document before -> ordered_document after;
  stepped_matchers : forallb matcher_group (groups_of after event) = true;
  stepped_shape : exists root, after = Value_Object root /\
    field_get root "hooks" = Some (Value_Object (hooks_of after)) /\
    field_get (hooks_of after) event = Some (Value_Array (groups_of after event))
}.

Lemma hooks_of_put root hooks :
  hooks_of (Value_Object (field_put root "hooks" (Value_Object hooks))) = hooks.
Proof. unfold hooks_of. cbn. rewrite field_get_put. by rewrite decide_True. Qed.

Lemma event_stepped document event command groups put_back : event_groups document event = Ok (groups, put_back) ->
  stepped event command document (put_back (foreign owned_group groups ++ [codex_group command])).
Proof.
  intros (root & -> & -> & Hm & Hput)%event_groups_ok. rewrite Hput. split.
  - unfold groups_of at 1. rewrite hooks_of_put, field_get_put. by rewrite decide_True.
  - intros event' Hne. rewrite hooks_of_put, field_get_put. by rewrite decide_False.
  - intros key Hne. cbn. rewrite field_get_put. by rewrite decide_False.
  - intros [Hroot Hhooks]. split; [|rewrite hooks_of_put; by apply field_put_sorted].
    intros r [= <-]. apply field_put_sorted. by apply Hroot.
  - unfold groups_of at 1. rewrite hooks_of_put, field_get_put, decide_True by done. cbn [option_bind value_as_array default from_option id].
    rewrite forallb_app, andb_true_iff. split; [|done].
    apply forallb_forall. intros g [Hg _]%List.filter_In. rewrite forallb_forall in Hm. by apply Hm.
  - eexists. split; [done|]. rewrite hooks_of_put, !field_get_put, !decide_True by done. split; [done|].
    unfold groups_of. rewrite hooks_of_put, field_get_put, decide_True by done. done.
Qed.

(** *** All events *)

Record merged (commands : list (string * CodexCommand)) (before after : Value) : Prop := {
  merged_groups : forall event command, In (event, command) commands ->
    field_get (hooks_of after) event =
      Some (Value_Array (foreign owned_group (groups_of before event) ++ [codex_group command])) /\
    forallb matcher_group (groups_of after event) = true;
  merged_events : forall event, ~ In event (map fst commands) ->
    field_get (hooks_of after) event = field_get (hooks_of before) event;
  merged_keys : forall key, key <> "hooks"%string -> value_get after key = value_get before key;
  merged_ordered : ordered_document before -> ordered_document after;
  merged_shape : commands = [] \/ exists root, after = Value_Object root /\
    field_get root "hooks" = Some (Value_Object (hooks_of after))
}.

Lemma groups_of_get document event groups :
  field_get (hooks_of document) event = Some (Value_Array groups) -> groups_of document event = groups.
Proof. unfold groups_of. by intros ->. Qed.

Lemma groups_of_same before after event : field_get (hooks_of after) event = field_get (hooks_of before) event ->
  groups_of after event = groups_of before event.
Proof. unfold groups_of. by intros ->. Qed.

Lemma merge_events_spec commands : forall before after, List.NoDup (map fst commands) ->
  merge_events before commands = Ok after -> merged commands before after.
Proof.
  induction commands as [|[event command] commands IH]; intros before after Hnd; cbn [merge_events map fst].
  { intros [= ->]. split; try done. by left. }
  apply NoDup_cons_iff in Hnd as [Hnew Hnd].
  destruct (event_groups before event) as [[groups put_back]|] eqn:He; [|done].
  rewrite replace_owned_spec. cbn [ok_or]. intros Hrest. apply (event_stepped _ _ command) in He.
  set (mid := put_back _) in *. pose proof Hrest as Hlast. apply IH in Hrest as [Hg Hev Hk Ho Hsh]; [|done].
  destruct He as [Sg Se Sk So Sm (root & Hroot & Shooks & Sget)]. split.
  - intros event' command' [[= <- <-]|Hin].
    + rewrite Hev, Sget, Sg by done. split; [done|]. by rewrite (groups_of_same mid after) by by apply Hev.
    + destruct (Hg event' command' Hin) as [-> Hm]. split; [|done].
      assert (event' <> event) by (intros ->; apply Hnew, in_map_iff; by exists (event, command')).
      by rewrite (groups_of_same before mid) by by apply Se.
  - intros event' Hout. cbn in Hout. rewrite Hev by tauto. apply Se. intros ->. apply Hout. by left.
  - intros key Hne. rewrite Hk by done. by apply Sk.
  - intros H. by apply Ho, So.
  - right. destruct Hsh as [->|Hsh]; [|done]. injection Hlast as <-. by exists root.
Qed.

Lemma merge_events_again commands : forall document root,
  document = Value_Object root -> ordered_document document ->
  field_get root "hooks" = Some (Value_Object (hooks_of document)) ->
  (forall event command, In (event, command) commands ->
    exists groups, field_get (hooks_of document) event =
        Some (Value_Array (foreign owned_group groups ++ [codex_group command])) /\
      forallb matcher_group (groups_of document event) = true) ->
  merge_events document commands = Ok document.
Proof.
  induction commands as [|[event command] commands IH]; intros document root Hroot Hord Hhooks Hall; [done|].
  destruct (Hall event command) as (groups & Hget & Hm); [by left|]. cbn [merge_events].
  pose proof (groups_of_get _ _ _ Hget) as Hgroups.
  assert (He : event_groups document event = Ok (groups_of document event, fun new =>
    Value_Object (field_put root "hooks" (Value_Object (field_put (hooks_of document) event (Value_Array new)))))).
  { rewrite Hroot at 1. unfold event_groups. cbn [value_as_object ok_or]. rewrite Hhooks.
    cbn [default from_option id value_as_object ok_or]. rewrite Hget.
    cbn [default from_option id value_as_array ok_or]. rewrite <- Hgroups, Hm. done. }
  rewrite He, replace_owned_spec. cbn [ok_or]. rewrite Hgroups, foreign_app, foreign_idempotent.
  assert (Hown : foreign owned_group [codex_group command] = []) by reflexivity.
  rewrite Hown, app_nil_r. destruct Hord as [Hr Hh].
  rewrite (field_put_same (hooks_of document)), (field_put_same root) by (done || by apply Hr).
  rewrite <- Hroot. eapply IH; [exact Hroot|by split|done|]. intros e c Hin. apply Hall. by right.
Qed.

Lemma codex_commands_nodup commands : List.NoDup (map fst (codex_commands commands)).
Proof.
  unfold codex_commands. assert (H : List.NoDup (map fst EVENTS)).
  { apply NoDup_ListNoDup. apply (bool_decide_eq_true_1 (NoDup (map fst EVENTS))). vm_compute. reflexivity. }
  revert commands H. generalize (map fst EVENTS). intros events. induction events as [|e events IH]; intros [|c commands] H; cbn.
  1-3: constructor.
  apply NoDup_cons_iff in H as [He H]. constructor; [|by apply IH].
  intros ([e' c'] & Heq & Hin)%in_map_iff. cbn in Heq. subst e'. apply He. by apply in_combine_l in Hin.
Qed.

(** ** Properties *)

(** A group that is the program's own, said without the code: it has one hook, a command with a command line for
    Windows too, under the program's own message. *)
Inductive own_group (command windows : string) : Value -> Prop :=
| own_group_intro fields handler :
    field_get fields "hooks" = Some (Value_Array [Value_Object handler]) ->
    field_get handler "type" = Some (Value_String "command") ->
    field_get handler "statusMessage" = Some (Value_String "domyjob: chat lifecycle") ->
    field_get handler "command" = Some (Value_String command) ->
    field_get handler "commandWindows" = Some (Value_String windows) ->
    own_group command windows (Value_Object fields).

(** The groups of others among these, in their order *)
Inductive groups_of_others : list Value -> list Value -> Prop :=
| others_none : groups_of_others [] []
| others_own group groups kept command windows :
    own_group command windows group -> groups_of_others groups kept -> groups_of_others (group :: groups) kept
| others_kept group groups kept :
    (forall command windows, ~ own_group command windows group) ->
    groups_of_others groups kept -> groups_of_others (group :: groups) (group :: kept).

Lemma owned_group_own group : owned_group group = true <-> exists command windows, own_group command windows group.
Proof.
  unfold owned_group. split.
  - destruct group as [| | | | |fields]; try done. cbn. destruct (field_get fields "hooks") as [v|] eqn:Hh; [|done]. cbn.
    destruct v as [| | | |handlers|]; try done. cbn. destruct handlers as [|handler [|]]; try done.
    intros [[[H1%bool_decide_eq_true_1 H2%bool_decide_eq_true_1]%andb_true_iff H3]%andb_true_iff H4]%andb_true_iff.
    destruct handler as [| | | | |handler]; try done. cbn in *.
    assert (Hstr : forall key text, option_bind _ _ value_as_str (field_get handler key) = Some text ->
      field_get handler key = Some (Value_String text)).
    { intros key text. destruct (field_get handler key) as [[]|]; try done. by intros [= ->]. }
    assert (Hany : forall key, is_string (field_get handler key) = true -> exists text, field_get handler key = Some (Value_String text)).
    { intros key. destruct (field_get handler key) as [[]|]; try done. eauto. }
    destruct (Hany _ H3) as [command Hc], (Hany _ H4) as [windows Hw]. exists command, windows.
    eapply own_group_intro; eauto.
  - intros (command & windows & [fields handler Hh Ht Hs Hc Hw]). cbn. rewrite Hh. cbn. by rewrite Ht, Hs, Hc, Hw.
Qed.

Lemma foreign_others groups : groups_of_others groups (foreign owned_group groups).
Proof.
  induction groups as [|group groups IH]; [constructor|]. unfold foreign in *. cbn [List.filter].
  destruct (owned_group group) eqn:Ho; cbn [negb].
  - apply owned_group_own in Ho as (command & windows & Ho). by eapply others_own.
  - constructor; [|done]. intros command windows Hown. apply not_true_iff_false in Ho. apply Ho, owned_group_own. eauto.
Qed.

Lemma codex_group_own command : own_group (CodexCommand_command command) (CodexCommand_windows command) (codex_group command).
Proof. by eapply own_group_intro. Qed.

Section codex_merge.
Context (from_slice : list N -> option Value) (to_string : Value -> string).

(** C38: Installing the Codex hooks changes nothing else.  When it succeeds, each of the hook events has the groups of
    the configuration that were not the program's own, in their order, and after them the program's, with its commands;
    a group is the program's own only if its single hook is a command under the program's message.  Every other event
    and every other setting is as before.  A document that says so already is kept as it is, byte for byte; another one
    is written anew.  And installing again what has been installed changes nothing, provided that the text reads back as
    the value it was written for and objects are kept in the order of their keys. *)
Theorem codex_merge_keeps_the_rest (document : string) (commands : list CodexCommand) (hooks : string)
    (installed : codex_merge from_slice to_string document commands = Ok hooks) :
  exists before after,
    read_document from_slice document = Ok before /\
    (after = before /\ hooks = document \/ after <> before /\ hooks = to_string after) /\
    str_len hooks <= MAX_FOREIGN_BYTES /\
    (forall event command, In (event, command) (codex_commands commands) ->
      exists others own, groups_of after event = others ++ [own] /\ groups_of_others (groups_of before event) others /\
        own_group (CodexCommand_command command) (CodexCommand_windows command) own) /\
    (forall event, ~ In event (map fst (codex_commands commands)) ->
      field_get (hooks_of after) event = field_get (hooks_of before) event) /\
    (forall key, key <> "hooks"%string -> value_get after key = value_get before key) /\
    (ordered_document before -> read_document from_slice hooks = Ok after ->
      codex_merge from_slice to_string hooks commands = Ok hooks).
Proof.
  revert installed. unfold codex_merge at 1. destruct (N.ltb_spec MAX_FOREIGN_BYTES (str_len document)) as [|Hfits]; [done|].
  destruct (read_document from_slice document) as [before|] eqn:Hread; [|done]. cbn [map_err].
  destruct (merge_events before (codex_commands commands)) as [after|] eqn:Hmerge; [|done]. intros Hend.
  pose proof (merge_events_spec _ _ _ (codex_commands_nodup commands) Hmerge) as [Hg Hev Hk Ho Hsh].
  assert (Htext : (after = before /\ hooks = document \/ after <> before /\ hooks = to_string after) /\
    str_len hooks <= MAX_FOREIGN_BYTES).
  { destruct (decide (after = before)) as [->|]; [by injection Hend as <-; auto|].
    destruct (N.ltb_spec MAX_FOREIGN_BYTES (str_len (to_string after))); [done|]. injection Hend as <-. auto. }
  destruct Htext as [Htext Hsize]. exists before, after. split; [done|]. split; [done|]. split; [done|]. split.
  { intros event command Hin. exists (foreign owned_group (groups_of before event)), (codex_group command).
    split; [by apply groups_of_get, Hg|]. split; [apply foreign_others|apply codex_group_own]. }
  split; [done|]. split; [done|].
  intros Hord Hback. unfold codex_merge. rewrite (proj2 (N.ltb_ge _ _) Hsize), Hback. cbn [map_err].
  assert (Hagain : merge_events after (codex_commands commands) = Ok after).
  { destruct Hsh as [->|(root & Hroot & Hhooks)]; [done|].
    eapply merge_events_again; [exact Hroot|by apply Ho|done|].
    intros event command Hin. exists (groups_of before event). by apply Hg. }
  rewrite Hagain. by rewrite decide_True.
Qed.
End codex_merge.

(** ** Witnesses *)

Definition sample_command : CodexCommand := mkCodexCommand "/bin/d" "d.exe".
Definition other_group : Value := Value_Object [("matcher"%string, Value_String "x")].
Definition sample_hooks : Value :=
  Value_Object [("hooks"%string,
    Value_Object [("Stop"%string, Value_Array [codex_group (mkCodexCommand "/old/d" "old.exe"); other_group])]);
    ("other"%string, Value_Null)].

Lemma codex_merge_keeps_the_rest_witness :
  exists before after others own, read_document (fun _ => Some sample_hooks) "d" = Ok before /\
    groups_of after "Stop" = others ++ [own] /\ groups_of_others (groups_of before "Stop") others /\
    own_group "/bin/d" "d.exe" own /\ value_get after "other" = value_get before "other".
Proof.
  destruct (codex_merge_keeps_the_rest (fun _ => Some sample_hooks) (fun _ => "t"%string) "d"
    (replicate 4 sample_command) "t") as (before & after & Hread & _ & _ & Hgroups & _ & Hkeys & _).
  { vm_compute. reflexivity. }
  destruct (Hgroups "Stop"%string sample_command) as (others & own & Hafter & Hothers & Hown).
  { vm_compute. right. right. right. left. reflexivity. }
  exists before, after, others, own. split; [exact Hread|]. split; [exact Hafter|]. split; [exact Hothers|].
  split; [exact Hown|apply Hkeys; discriminate].
Defined.
