(* ===== verification/Programs.v ===== *)
(** Programs that share a world with other programs.  A program is a tree of operations, each of
    which is carried out in one step and answered; between two of its operations every other
    program may take steps.  Holds the tree and its sequencing, its execution against choices the
    environment makes, the interleaving of any number of programs, and the rely-guarantee rules by
    which one program's proof is enough for all the interleavings it takes part in. *)

From Stdlib Require Import NArith Lia.
From stdpp Require Import base gmap relations.
From S2P Require Import Prelude.

(** ** Definitions *)

Inductive Prog {Op : Type} (answer : Op -> Type) (A : Type) : Type :=
| Ret (value : A)
| Do (op : Op) (continue : answer op -> Prog answer A).
Arguments Ret {Op answer A} _.
Arguments Do {Op answer A} _ _.

Section programs.
Context {Op : Type} {answer : Op -> Type}.

Definition call (op : Op) : Prog answer (answer op) := Do op Ret.

Fixpoint prog_bind {A B} (p : Prog answer A) (f : A -> Prog answer B) : Prog answer B :=
  match p with
  | Ret a => f a
  | Do op k => Do op (fun x => prog_bind (k x) f)
  end.

(** Sequencing as [?] has it: an error is the answer of the whole. *)
Definition prog_try {A B E} (p : Prog answer (result A E)) (f : A -> Prog answer (result B E)) :
  Prog answer (result B E) :=
  prog_bind p (fun r => match r with Ok a => f a | Err e => Ret (Err e) end).

(** [map_err], or the conversion [?] makes *)
Definition prog_err {A E F} (f : E -> F) (p : Prog answer (result A E)) : Prog answer (result A F) :=
  prog_bind p (fun r => Ret (map_err f r)).

Definition prog_ok {A E} (a : A) : Prog answer (result A E) := Ret (Ok a).
Definition prog_fail {A E} (e : E) : Prog answer (result A E) := Ret (Err e).
Definition prog_lift {A E} (r : result A E) : Prog answer (result A E) := Ret r.

(** [for x in l { body(x)?; }] *)
Fixpoint prog_for {A E} (l : list A) (body : A -> Prog answer (result unit E)) :
  Prog answer (result unit E) :=
  match l with
  | [] => prog_ok tt
  | x :: l => prog_try (body x) (fun _ => prog_for l body)
  end.
End programs.

Notation "'let^' x ':=' p 'in' q" := (prog_try p (fun x => q))
  (at level 10, x pattern, p at level 200, q at level 200) : rust_scope.
Notation "'do^' p 'in' q" := (prog_try p (fun _ => q))
  (at level 10, p at level 200, q at level 200) : rust_scope.
Notation "'let~' x ':=' p 'in' q" := (prog_bind p (fun x => q))
  (at level 10, x pattern, p at level 200, q at level 200) : rust_scope.
Notation "'do~' p 'in' q" := (prog_bind p (fun _ => q))
  (at level 10, p at level 200, q at level 200) : rust_scope.

(** ** Execution *)

Section execution.
Context {Op : Type} {answer : Op -> Type} {Tid W C : Type}.
Variable perform : Tid -> C -> forall op : Op, W -> option (W * answer op).

(** A program alone: the choices are the environment's, one for each operation.  There is no result
    when an operation waits for something that does not come. *)
Fixpoint run {A} (t : Tid) (choices : nat -> C) (n : nat) (p : Prog answer A) (w : W) :
  option (W * A * nat) :=
  match p with
  | Ret a => Some (w, a, n)
  | Do op k =>
      match perform t (choices n) op w with
      | Some (w, x) => run t choices (S n) (k x) w
      | None => None
      end
  end.

Definition performs (t : Tid) (op : Op) (w : W) (x : answer op) (w' : W) : Prop :=
  exists c, perform t c op w = Some (w', x).

Lemma run_bind {A B} t choices (p : Prog answer A) (f : A -> Prog answer B) : forall n w,
  run t choices n (prog_bind p f) w =
  match run t choices n p w with
  | Some (w, a, n) => run t choices n (f a) w
  | None => None
  end.
Proof.
  induction p as [a|op k IH]; intros n w; cbn; [done|].
  destruct (perform t (choices n) op w) as [[w' x]|]; [apply IH|done].
Qed.
End execution.

(** ** Rely and guarantee *)

Section rely.
Context {Op : Type} {answer : Op -> Type} {Tid W : Type}.
(** A step of a program, what holds of the world at all times, and what each program keeps to. *)
Variable exec : Tid -> forall op : Op, W -> answer op -> W -> Prop.
Variable Inv : W -> Prop.
Variable guar : Tid -> W -> W -> Prop.

(** What a program knows stays true whatever the others do. *)
Definition stable (t : Tid) (P : W -> Prop) : Prop :=
  forall t' w w', t' <> t -> Inv w -> guar t' w w' -> P w -> P w'.

(** What everyone may know once it is true. *)
Definition lasting (P : W -> Prop) : Prop := forall t w w', Inv w -> guar t w w' -> P w -> P w'.

(** [p], started by [t] where [P] holds, takes only steps that keep the invariant and are within
    [G], and ends where [Q] holds, with any steps of the others in between. *)
Fixpoint ok {A} (t : Tid) (G : W -> W -> Prop) (P : W -> Prop) (p : Prog answer A) (Q : A -> W -> Prop) : Prop :=
  match p with
  | Ret a => forall w, Inv w -> P w -> Q a w
  | Do op k =>
      exists R : answer op -> W -> Prop,
        (forall w x w', Inv w -> P w -> exec t op w x w' -> Inv w' /\ guar t w w' /\ G w w' /\ R x w') /\
        (forall x, stable t (R x)) /\
        (forall x, ok t G (R x) (k x) Q)
  end.

Lemma lasting_stable t P : lasting P -> stable t P.
Proof. intros H t' w w' _. apply H. Qed.

Lemma stable_and t P P' : stable t P -> stable t P' -> stable t (fun w => P w /\ P' w).
Proof. intros H H' t' w w' Ht Hi Hg [HP HP']. split; [by eapply H|by eapply H']. Qed.

Lemma stable_const t (P : Prop) : stable t (fun _ => P).
Proof. by intros t' w w'. Qed.

Lemma lasting_and P P' : lasting P -> lasting P' -> lasting (fun w => P w /\ P' w).
Proof. intros H H' t w w' Hi Hg [HP HP']. split; [by eapply H|by eapply H']. Qed.

Lemma lasting_const (P : Prop) : lasting (fun _ => P).
Proof. by intros t w w'. Qed.

Lemma stable_ex {X} t (P : X -> W -> Prop) : (forall x, stable t (P x)) -> stable t (fun w => exists x, P x w).
Proof. intros H t' w w' Ht Hi Hg [x HP]. exists x. by eapply H. Qed.

Lemma stable_ext t (P P' : W -> Prop) : (forall w, P w <-> P' w) -> stable t P -> stable t P'.
Proof. intros H Hs t' w w' Ht Hi Hg. rewrite <- !H. by apply (Hs t'). Qed.

Lemma ok_weaken {A} t G (P P' : W -> Prop) (p : Prog answer A) (Q Q' : A -> W -> Prop) :
  ok t G P p Q -> (forall w, Inv w -> P' w -> P w) -> (forall a w, Inv w -> Q a w -> Q' a w) ->
  ok t G P' p Q'.
Proof.
  revert P P'. induction p as [a|op k IH]; intros P P'; cbn; [eauto|].
  intros (R & Hstep & Hstable & Hk) HP HQ. exists R. split; [|split; [done|]].
  - intros w x w' Hi Hp He. apply (Hstep w x w'); auto.
  - intros x. apply (IH x (R x)); eauto.
Qed.

Lemma ok_pre {A} t G (P P' : W -> Prop) (p : Prog answer A) Q :
  ok t G P p Q -> (forall w, Inv w -> P' w -> P w) -> ok t G P' p Q.
Proof. intros H HP. by eapply ok_weaken. Qed.

Lemma ok_post {A} t G (P : W -> Prop) (p : Prog answer A) (Q Q' : A -> W -> Prop) :
  ok t G P p Q -> (forall a w, Inv w -> Q a w -> Q' a w) -> ok t G P p Q'.
Proof. intros H HQ. by eapply ok_weaken. Qed.

Lemma ok_bind {A B} t G P (p : Prog answer A) (f : A -> Prog answer B) R Q :
  ok t G P p R -> (forall a, ok t G (R a) (f a) Q) -> ok t G P (prog_bind p f) Q.
Proof.
  revert P. induction p as [a|op k IH]; intros P; cbn.
  - intros H Hf. eapply ok_pre; [apply Hf|]. exact H.
  - intros (R' & Hstep & Hstable & Hk) Hf. exists R'. split; [done|]. split; [done|]. auto.
Qed.

Lemma ok_try {A B E} t G P (p : Prog answer (result A E)) (f : A -> Prog answer (result B E)) R Q :
  ok t G P p R -> (forall a, ok t G (R (Ok a)) (f a) Q) -> (forall e w, Inv w -> R (Err e) w -> Q (Err e) w) ->
  ok t G P (prog_try p f) Q.
Proof. intros Hp Hf He. eapply ok_bind; [exact Hp|]. intros [a|e]; [apply Hf|exact (He e)]. Qed.

Lemma ok_err {A E F} t G P (f : E -> F) (p : Prog answer (result A E)) Q :
  ok t G P p (fun r => Q (map_err f r)) -> ok t G P (prog_err f p) Q.
Proof. intros H. eapply ok_bind; [exact H|]. by intros a w. Qed.

Lemma ok_call t (G : W -> W -> Prop) P op Q :
  (forall w x w', Inv w -> P w -> exec t op w x w' -> Inv w' /\ guar t w w' /\ G w w' /\ Q x w') ->
  (forall x, stable t (Q x)) -> ok t G P (call op) Q.
Proof. intros Hstep Hstable. exists Q. split; [done|]. split; [done|]. intros x. by cbn. Qed.

(** What a program's steps and those of the others leave alone may be added on both sides. *)
Lemma ok_frame {A} t (G : W -> W -> Prop) P (p : Prog answer A) Q F :
  stable t F -> (forall w w', Inv w -> F w -> G w w' -> F w') ->
  ok t G P p Q -> ok t G (fun w => P w /\ F w) p (fun a w => Q a w /\ F w).
Proof.
  intros HF HG. revert P. induction p as [a|op k IH]; intros P; cbn.
  { intros H w Hi [HP HFw]. auto. }
  intros (R & Hstep & Hstable & Hk). exists (fun x w => R x w /\ F w). split; [|split].
  - intros w x w' Hi [HP HFw] He. destruct (Hstep w x w' Hi HP He) as (? & ? & ? & ?). eauto 10.
  - intros x. by apply stable_and.
  - intros x. apply IH, Hk.
Qed.

Lemma ok_lasting {A} t (G : W -> W -> Prop) P (p : Prog answer A) Q F :
  lasting F -> ok t G P p Q -> ok t G (fun w => P w /\ F w) p (fun a w => Q a w /\ F w).
Proof.
  intros HF. revert P. induction p as [a|op k IH]; intros P; cbn.
  { intros H w Hi [HP HFw]. auto. }
  intros (R & Hstep & Hstable & Hk). exists (fun x w => R x w /\ F w). split; [|split].
  - intros w x w' Hi [HP HFw] He. destruct (Hstep w x w' Hi HP He) as (? & Hg & ? & ?).
    split_and!; [done..|]. by apply (HF t w w').
  - intros x. apply stable_and; [done|]. by apply lasting_stable.
  - intros x. apply IH, Hk.
Qed.

Lemma ok_within {A} t (G G' : W -> W -> Prop) P (p : Prog answer A) Q :
  (forall w w', G w w' -> G' w w') -> ok t G P p Q -> ok t G' P p Q.
Proof.
  intros HG. revert P. induction p as [a|op k IH]; intros P; cbn; [done|].
  intros (R & Hstep & Hstable & Hk). exists R. split; [|split; [done|eauto]].
  intros w x w' Hi HP He. destruct (Hstep w x w' Hi HP He) as (? & ? & ? & ?). auto.
Qed.

(** Nothing is to be shown of a program that is never started. *)
Lemma ok_absurd {A} t G (P : W -> Prop) (p : Prog answer A) Q : (forall w, Inv w -> P w -> False) -> ok t G P p Q.
Proof.
  revert P. induction p as [a|op k IH]; intros P HP; cbn; [intros w Hi Hw; destruct (HP w Hi Hw)|].
  exists (fun _ _ => False). split; [intros w x w' Hi Hw; destruct (HP w Hi Hw)|]. split; [by intros x t' w w'|].
  intros x. by apply IH.
Qed.

(** Something is there where the program starts, whichever it is. *)
Lemma ok_exists {A} t G (p : Prog answer A) Q : forall X (P : X -> W -> Prop),
  (forall x, ok t G (P x) p Q) -> ok t G (fun w => exists x, P x w) p Q.
Proof.
  induction p as [a|op k IH]; intros X P HP; cbn [ok] in *; [intros w Hi [x Hx]; by apply (HP x)|].
  set (valid := fun (x : X) (R : answer op -> W -> Prop) =>
    (forall w a w', Inv w -> P x w -> exec t op w a w' -> Inv w' /\ guar t w w' /\ G w w' /\ R a w') /\
    (forall a, stable t (R a)) /\ (forall a, ok t G (R a) (k a) Q)).
  exists (fun a w => exists xR : {xR : X * (answer op -> W -> Prop) | valid xR.1 xR.2}, (proj1_sig xR).2 a w).
  split; [|split].
  - intros w a w' Hi [x Hx] He. destruct (HP x) as (R & H1 & H2 & H3).
    destruct (H1 w a w' Hi Hx He) as (? & ? & ? & HR). split; [done|]. split; [done|]. split; [done|].
    exists (exist _ (x, R) (conj H1 (conj H2 H3))). exact HR.
  - intros a. apply stable_ex. intros [[x R] (H1 & H2 & H3)]. apply H2.
  - intros a. apply IH. intros [[x R] (H1 & H2 & H3)]. apply H3.
Qed.

(** A loop keeps what each round keeps. *)
Lemma ok_for {A E} t G P (l : list A) (body : A -> Prog answer (result unit E)) :
  (forall x, In x l -> ok t G P (body x) (fun _ => P)) -> ok t G P (prog_for l body) (fun _ => P).
Proof.
  induction l as [|x l IH]; intros H; cbn [prog_for]; [by intros w|].
  eapply ok_try; [apply H; by left| |done]. intros a. apply IH. intros y Hy. apply H. by right.
Qed.

(** Run alone, a program ends as its proof says. *)
Lemma ok_run {C} (perform : Tid -> C -> forall op : Op, W -> option (W * answer op)) {A} t G P (p : Prog answer A) Q :
  (forall op w x w', performs perform t op w x w' -> exec t op w x w') -> ok t G P p Q ->
  forall choices n w w' a n', Inv w -> P w -> run perform t choices n p w = Some (w', a, n') -> Inv w' /\ Q a w'.
Proof.
  intros Hexec. revert P. induction p as [a|op k IH]; intros P; cbn.
  - intros H choices n w w' a' n' Hi Hp [= <- <- <-]. auto.
  - intros (R & Hstep & _ & Hk) choices n w w' a n' Hi Hp Hrun.
    destruct (perform t (choices n) op w) as [[w1 x]|] eqn:Hx; [|done].
    destruct (Hstep w x w1 Hi Hp) as (Hi1 & _ & _ & HR); [apply Hexec; by exists (choices n)|].
    by apply (IH x (R x) (Hk x) choices (S n) w1 w' a n').
Qed.

(** *** Interleavings *)

(** What the operating system does when a program is over: it releases what the program held. *)
Variable over : Tid -> W -> W.
(** The programs that may be started. *)
Variable startable : Prog answer unit -> Prop.

Record Config := mkConfig { world : W; threads : Tid -> option (Prog answer unit) }.

Context `{EqDecision Tid}.

Definition thread_update (threads : Tid -> option (Prog answer unit)) t p : Tid -> option (Prog answer unit) :=
  fun t' => if decide (t' = t) then p else threads t'.

(** A program starts, takes a step, or is over, whether it returned or was killed. *)
Inductive interleave : Config -> Config -> Prop :=
| interleave_start w ts t p :
    ts t = None -> startable p -> interleave (mkConfig w ts) (mkConfig w (thread_update ts t (Some p)))
| interleave_act w ts t op k x w' :
    ts t = Some (Do op k) -> exec t op w x w' ->
    interleave (mkConfig w ts) (mkConfig w' (thread_update ts t (Some (k x))))
| interleave_over w ts t p :
    ts t = Some p -> interleave (mkConfig w ts) (mkConfig (over t w) (thread_update ts t None)).

Definition moved (w w' : W) : Prop := Inv w /\ exists t, guar t w w'.

Hypothesis over_ok : forall t w, Inv w -> Inv (over t w) /\ guar t w (over t w).

(** What is true of a program that does not run, as long as it does not: that it holds nothing, for instance. *)
Variable rested : Tid -> W -> Prop.
Hypothesis rested_stable : forall t, stable t (rested t).
Hypothesis over_rested : forall t w, Inv w -> rested t (over t w).
Hypothesis startable_ok : forall t p,
  startable p -> exists G, ok t G (rested t) p (fun _ _ => True).

(** Every program of the pool is somewhere in its proof. *)
Definition proved (c : Config) : Prop :=
  Inv (world c) /\
  (forall t p, threads c t = Some p ->
    exists G P, stable t P /\ P (world c) /\ ok t G P p (fun _ _ => True)) /\
  (forall t, threads c t = None -> rested t (world c)).

Lemma proved_start c : Inv (world c) -> (forall t, threads c t = None) -> (forall t, rested t (world c)) -> proved c.
Proof. intros Hi Hn Hr. split; [done|]. split; [|by intros t _]. intros t p. by rewrite Hn. Qed.

(** A move of [t] to a state where it has the rest [o] of its program *)
Lemma proved_update w ts t w' o :
  proved (mkConfig w ts) -> Inv w' -> w' = w \/ guar t w w' ->
  (forall p, o = Some p -> exists G P, stable t P /\ P w' /\ ok t G P p (fun _ _ => True)) ->
  (o = None -> rested t w') -> proved (mkConfig w' (thread_update ts t o)).
Proof.
  intros (Hi & Hts & Hrest) Hi' Hg Hp Ho. cbn [world threads] in *.
  assert (Hkeep : forall t' P, t' <> t -> stable t' P -> P w -> P w').
  { intros t' P Hne Hs HP. destruct Hg as [->|Hg]; [done|]. by apply (Hs t w w'). }
  split; [done|]. split; cbn [world threads]; intros t'; unfold thread_update; case_decide as E.
  - subst t'. exact Hp.
  - intros p' Hp'. destruct (Hts _ _ Hp') as (G & P & Hs & HP & Hok). exists G, P. split; [done|]. split; [|done]. by apply (Hkeep t').
  - subst t'. exact Ho.
  - intros Hn. by apply (Hkeep t'); [| |apply Hrest].
Qed.

Lemma interleave_sound c c' : interleave c c' -> proved c -> proved c' /\ rtc moved (world c) (world c').
Proof.
  intros Hstep Hc. pose proof Hc as (Hi & Hts & Hrest).
  destruct Hstep as [w ts t p Ht Hp|w ts t op k x w' Ht He|w ts t p Ht]; cbn [world threads] in *.
  - split; [|apply rtc_refl]. eapply proved_update; [exact Hc|done|by left| |done]. intros p' [= <-].
    destruct (startable_ok t p Hp) as [G Hok]. exists G, (rested t). auto.
  - destruct (Hts _ _ Ht) as (G & P & Hs & HP & R & Hop & HR & Hk).
    destruct (Hop w x w' Hi HP He) as (Hi' & Hg & _ & Hx).
    split; [|apply rtc_once; split; [done|by exists t]].
    eapply proved_update; [exact Hc|done|by right| |done]. intros p' [= <-]. exists G, (R x). auto.
  - destruct (over_ok t w Hi) as [Hi' Hg].
    split; [|apply rtc_once; split; [done|by exists t]].
    eapply proved_update; [exact Hc|done|by right|done|]. intros _. by apply over_rested.
Qed.

(** A step is a move of one program, if it changes the world at all. *)
Lemma interleave_move c c' :
  interleave c c' -> proved c -> world c' = world c \/ exists t, guar t (world c) (world c').
Proof.
  intros Hstep (Hi & Hts & _). destruct Hstep as [w ts t p Ht Hp|w ts t op k x w' Ht He|w ts t p Ht]; cbn [world threads] in *.
  - by left.
  - destruct (Hts _ _ Ht) as (G & P & Hs & HP & R & Hop & HR & Hk).
    destruct (Hop w x w' Hi HP He) as (_ & Hg & _). right. by exists t.
  - right. exists t. by apply over_ok.
Qed.

(** Whatever is started and however it is interleaved, the invariant holds and the world has only
    made moves that some program guarantees. *)
Lemma interleavings_sound c c' :
  rtc interleave c c' -> proved c -> proved c' /\ rtc moved (world c) (world c').
Proof.
  induction 1 as [c|c1 c2 c3 Hstep _ IH]; intros Hc; [split; [done|apply rtc_refl]|].
  destruct (interleave_sound _ _ Hstep Hc) as [H2 Hm]. destruct (IH H2) as [H3 Hm'].
  split; [done|]. by etransitivity.
Qed.
End rely.
