(* ===== verification/JobDisk.v ===== *)
(** The part of the machine the job store works on: the directories and files of the store, the
    locks on them, and what the operating system answers.  Each operation is one step, which may be
    refused, or fail after it has taken effect; which of these happens, what the random source and a
    listing's order are, and what everything outside the store answers is the environment's choice. *)

From Stdlib Require Import NArith ZArith Lia String Ascii.
From stdpp Require Import base gmap list strings.
From S2P Require Import Prelude RustStr Domain JobState Programs.

(** ** Errors *)

(** An [io::Error] that the code does not take for "not found"; the kinds are those it looks at. *)
Inductive IoError := IoError_Denied | IoError_Busy | IoError_Other (code : N).

Inductive StateError :=
| StateError_Io (error : IoError)
| StateError_Foreign
| StateError_Exposed
| StateError_NotFile
| StateError_NotDirectory
| StateError_TooLarge.

Inductive LockError := LockError_State (error : StateError) | LockError_Io (error : IoError).

(** A [ProcessError]: what it displays as, and whether it is [Login]. *)
Record ProcessError := mkProcessError { ProcessError_text : string; ProcessError_login : bool }.

#[export] Instance IoError_eq_dec : EqDecision IoError.
Proof. solve_decision. Defined.

(** ** Names *)

Inductive Area := Area_Jobs | Area_Staging.

(** Directories that hold plain files: the state directory, the store in it, [incoming] and the
    directory of one job, published or staged. *)
Inductive Place := Place_State | Place_Root | Place_Incoming | Place_Job (area : Area) (name : string).

Inductive Listing := Listing_Jobs | Listing_Staging | Listing_Incoming | Listing_Trash.

Inductive LockKind := LockKind_State | LockKind_Alive | LockKind_Launch.

Inductive LockName :=
| LockName_Order
| LockName_Admission
| LockName_Incoming
| LockName_Job (kind : LockKind) (name : string).

(** A lock is on the file that was opened, not on its name. *)
Inductive LockId :=
| LockId_Order
| LockId_Admission
| LockId_Incoming
| LockId_Job (kind : LockKind) (inode : N).

#[export] Instance Area_eq_dec : EqDecision Area.
Proof. solve_decision. Defined.
#[export] Instance LockKind_eq_dec : EqDecision LockKind.
Proof. solve_decision. Defined.
#[export] Instance LockId_eq_dec : EqDecision LockId.
Proof. solve_decision. Defined.
#[export] Instance LockKind_countable : Countable LockKind.
Proof.
  refine (inj_countable'
    (fun k => match k with LockKind_State => 0 | LockKind_Alive => 1 | LockKind_Launch => 2 end)
    (fun n => match n with 0 => LockKind_State | 1 => LockKind_Alive | _ => LockKind_Launch end) _).
  by intros [].
Defined.
#[export] Instance LockId_countable : Countable LockId.
Proof.
  refine (inj_countable'
    (fun l => match l with
              | LockId_Order => inl 0 | LockId_Admission => inl 1 | LockId_Incoming => inl 2
              | LockId_Job k i => inr (k, i) end)
    (fun s => match s with
              | inl 0 => LockId_Order | inl 1 => LockId_Admission | inl _ => LockId_Incoming
              | inr (k, i) => LockId_Job k i end) _).
  by intros [].
Defined.

(** ** The world *)

Record Workspace := mkWorkspace {
  Workspace_directories : gset string;
  Workspace_files : gmap string (bool * list N)
}.
Definition Workspace_empty : Workspace := mkWorkspace ∅ ∅.

Record JobDir := mkJobDir {
  JobDir_inode : N;
  JobDir_files : gmap string (list N);
  JobDir_workspace : option Workspace
}.

(** What stands under a name: a directory, or something else, a link or a file. *)
Inductive Node := Node_dir (directory : JobDir) | Node_other.
Inductive NodeKind := NodeKind_Directory | NodeKind_Other.
Definition Node_kind (node : Node) : NodeKind :=
  match node with Node_dir _ => NodeKind_Directory | Node_other => NodeKind_Other end.

Record World := mkWorld {
  state_files : gmap string (list N);
  root_files : gmap string (list N);
  incoming : gmap string (list N);
  jobs : gmap string Node;
  staging : gmap string Node;
  trash : gset string;
  locks : gmap LockId N;
  next_inode : N;
  (** every name a directory was ever published under *)
  published : gset string;
  (** which process has opened a lock of the job of which name *)
  users : gset (N * string);
  (** the processes that are over *)
  ended : gset N
}.

Definition area (w : World) (a : Area) : gmap string Node :=
  match a with Area_Jobs => jobs w | Area_Staging => staging w end.

Definition set_area (w : World) (a : Area) (nodes : gmap string Node) : World :=
  match a with
  | Area_Jobs => mkWorld (state_files w) (root_files w) (incoming w) nodes (staging w) (trash w) (locks w)
                   (next_inode w) (published w) (users w) (ended w)
  | Area_Staging => mkWorld (state_files w) (root_files w) (incoming w) (jobs w) nodes (trash w) (locks w)
                      (next_inode w) (published w) (users w) (ended w)
  end.
Definition set_locks (w : World) (l : gmap LockId N) : World :=
  mkWorld (state_files w) (root_files w) (incoming w) (jobs w) (staging w) (trash w) l (next_inode w) (published w) (users w) (ended w).
Definition set_trash (w : World) (entries : gset string) : World :=
  mkWorld (state_files w) (root_files w) (incoming w) (jobs w) (staging w) entries (locks w) (next_inode w) (published w) (users w) (ended w).
Definition take_inode (w : World) : World :=
  mkWorld (state_files w) (root_files w) (incoming w) (jobs w) (staging w) (trash w) (locks w) (next_inode w + 1)
    (published w) (users w) (ended w).
Definition set_published (w : World) (names : gset string) : World :=
  mkWorld (state_files w) (root_files w) (incoming w) (jobs w) (staging w) (trash w) (locks w) (next_inode w) names (users w) (ended w).
(** [t] has opened the lock [l]. *)
Definition mark_user (w : World) (t : N) (l : LockName) : World :=
  match l with
  | LockName_Job _ name =>
      mkWorld (state_files w) (root_files w) (incoming w) (jobs w) (staging w) (trash w) (locks w) (next_inode w)
        (published w) ({[(t, name)]} ∪ users w) (ended w)
  | _ => w
  end.
Definition mark_ended (w : World) (t : N) : World :=
  mkWorld (state_files w) (root_files w) (incoming w) (jobs w) (staging w) (trash w) (locks w) (next_inode w)
    (published w) (users w) ({[t]} ∪ ended w).

Definition directory (w : World) (a : Area) (name : string) : option JobDir :=
  match area w a !! name with Some (Node_dir d) => Some d | _ => None end.
Definition set_directory (w : World) (a : Area) (name : string) (d : JobDir) : World :=
  set_area w a (<[name := Node_dir d]> (area w a)).

(** The files of a directory; there are none where there is no directory. *)
Definition files_at (w : World) (p : Place) : option (gmap string (list N)) :=
  match p with
  | Place_State => Some (state_files w)
  | Place_Root => Some (root_files w)
  | Place_Incoming => Some (incoming w)
  | Place_Job a name => JobDir_files <$> directory w a name
  end.
Definition set_files (w : World) (p : Place) (files : gmap string (list N)) : World :=
  match p with
  | Place_State => mkWorld files (root_files w) (incoming w) (jobs w) (staging w) (trash w) (locks w) (next_inode w) (published w) (users w) (ended w)
  | Place_Root => mkWorld (state_files w) files (incoming w) (jobs w) (staging w) (trash w) (locks w) (next_inode w) (published w) (users w) (ended w)
  | Place_Incoming => mkWorld (state_files w) (root_files w) files (jobs w) (staging w) (trash w) (locks w) (next_inode w) (published w) (users w) (ended w)
  | Place_Job a name =>
      match directory w a name with
      | Some d => set_directory w a name (mkJobDir (JobDir_inode d) files (JobDir_workspace d))
      | None => w
      end
  end.

(** ** Operations *)

(** What the code asks of everything outside the store. *)
Inductive Wake := Wake_Changed | Wake_Broken (message : string) | Wake_Finished.
Inductive RecvTimeoutError := RecvTimeoutError_Timeout | RecvTimeoutError_Disconnected.

Inductive Outside :=
| Ask_PruneBuilds
| Ask_PruneStores
| Ask_Launch (job : JobId)
| Ask_Watch (job : JobId)
| Ask_Limits
| Ask_Announce
| Ask_Permit
| Ask_Capacity
| Ask_Home
| Ask_Prepare (job : JobId)
| Ask_Spawn
| Ask_Wake
| Ask_Exit
| Ask_Stop
| Ask_Completion (event : JobEvent)
| Ask_StopOutput
| Ask_Relay.

Definition reply (q : Outside) : Type :=
  match q with
  | Ask_Launch _ | Ask_Announce | Ask_Stop => result unit ProcessError
  | Ask_Watch _ => result unit string
  | Ask_Limits | Ask_Permit => result bool IoError
  | Ask_Capacity => result Wake RecvTimeoutError
  | Ask_Home => result string IoError
  | Ask_Prepare _ | Ask_StopOutput | Ask_PruneBuilds | Ask_PruneStores => result unit IoError
  | Ask_Spawn => result N ProcessError
  | Ask_Wake => option Wake
  | Ask_Exit => result (option Z) ProcessError
  | Ask_Completion _ => result JobEvent ProcessError
  | Ask_Relay => option (result (N * N) IoError)
  end.

Inductive Op :=
| Op_Stat (a : Area) (name : string)
| Op_MakeDirectory (a : Area) (name : string)
| Op_StatWorkspace (a : Area) (name : string)
| Op_MakeWorkspace (a : Area) (name : string)
| Op_StatInside (name path : string)
| Op_MakeInside (name path : string)
| Op_CreateInside (name path : string) (executable : bool)
| Op_FillInside (name path : string) (content : list N)
| Op_Read (p : Place) (file : string)
| Op_Replace (p : Place) (file : string) (content : list N)
| Op_Append (p : Place) (file : string) (content : list N)
| Op_Create (p : Place) (file : string)
| Op_Remove (p : Place) (file : string)
| Op_List (l : Listing)
| Op_OpenLock (l : LockName)
| Op_FindLock (l : LockName)
| Op_Lock (l : LockId)
| Op_TryLock (l : LockId)
| Op_Release (l : LockId)
| Op_Unlock (l : LockId)
| Op_TrashDirectory (a : Area) (name entry : string)
| Op_TrashWorkspace (name entry : string)
| Op_RemoveTrash (entry : string)
| Op_GrantTrash (entry : string)
| Op_Publish (name : string)
| Op_Entropy
| Op_Ask (q : Outside).

Definition answer (op : Op) : Type :=
  match op with
  | Op_Stat _ _ | Op_StatWorkspace _ _ | Op_StatInside _ _ => result (option NodeKind) IoError
  | Op_MakeDirectory _ _ | Op_MakeWorkspace _ _ => result unit StateError
  | Op_MakeInside _ _ | Op_CreateInside _ _ _ | Op_FillInside _ _ _ => result unit IoError
  | Op_Read _ _ => result (option (list N)) StateError
  | Op_Replace _ _ _ | Op_Append _ _ _ | Op_Create _ _ | Op_Remove _ _ => result unit StateError
  | Op_List _ => result (list string) IoError
  | Op_OpenLock _ => result LockId StateError
  | Op_FindLock _ => result (option LockId) StateError
  | Op_Lock _ | Op_Release _ => result unit IoError
  | Op_TryLock _ => result bool IoError
  | Op_Unlock _ => unit
  | Op_TrashDirectory _ _ _ | Op_TrashWorkspace _ _ | Op_Publish _ => result unit StateError
  | Op_RemoveTrash _ | Op_GrantTrash _ => result unit IoError
  | Op_Entropy => result (list N) unit
  | Op_Ask q => reply q
  end.

Abbreviation Job T := (Prog answer T).

(** *** What the environment chooses *)

(** Refused before, or failed after, the effect. *)
Inductive Fault := Fault_Early (error : StateError) | Fault_Late (error : StateError).

Record Choice := mkChoice {
  Choice_fault : option Fault;
  Choice_entropy : list N;
  Choice_order : list string -> list string;
  Choice_reply : forall q, reply q
}.

Definition io_of (error : StateError) : IoError :=
  match error with StateError_Io e => e | _ => IoError_Other 0 end.

(** The result of an operation whose effect takes [w] to [w']. *)
Definition faulty {T E} (c : Choice) (convert : StateError -> E) (w w' : World) (r : result T E) :
  World * result T E :=
  match Choice_fault c with
  | None => (w', r)
  | Some (Fault_Early e) => (w, Err (convert e))
  | Some (Fault_Late e) => (w', Err (convert e))
  end.

(** What it does when it can only be refused. *)
Definition refusable {T E} (c : Choice) (convert : StateError -> E) (w w' : World) (r : result T E) :
  World * result T E :=
  match Choice_fault c with
  | None => (w', r)
  | Some (Fault_Early e) | Some (Fault_Late e) => (w, Err (convert e))
  end.

(** ENOENT, EEXIST and the like, where the code does not look at the kind. *)
Definition unusual : IoError := IoError_Other 1.

(** An order the file system may list names in. *)
Definition in_some_order (c : Choice) (names : list string) : list string :=
  if bool_decide (Choice_order c names ≡ₚ names) then Choice_order c names else names.

Definition names_at (w : World) (l : Listing) : list string :=
  match l with
  | Listing_Jobs => map fst (map_to_list (jobs w))
  | Listing_Staging => map fst (map_to_list (staging w))
  | Listing_Incoming => map fst (map_to_list (incoming w))
  | Listing_Trash => elements (trash w)
  end.

Definition lock_file (kind : LockKind) : string :=
  match kind with
  | LockKind_State => "state.lock"
  | LockKind_Alive => "alive.lock"
  | LockKind_Launch => "launch.lock"
  end.

(** The file a lock's name stands for, if it can be there. *)
Definition lock_id (w : World) (l : LockName) : option LockId :=
  match l with
  | LockName_Order => Some LockId_Order
  | LockName_Admission => Some LockId_Admission
  | LockName_Incoming => Some LockId_Incoming
  | LockName_Job kind name => LockId_Job kind ∘ JobDir_inode <$> directory w Area_Jobs name
  end.

(** Whether the lock file has been created; those of the store itself are taken to have been. *)
Definition lock_exists (w : World) (l : LockName) : bool :=
  match l with
  | LockName_Job kind name =>
      match directory w Area_Jobs name with
      | Some d => bool_decide (is_Some (JobDir_files d !! lock_file kind))
      | None => false
      end
  | _ => true
  end.

Definition create_lock (w : World) (l : LockName) : World :=
  match l with
  | LockName_Job kind name =>
      match files_at w (Place_Job Area_Jobs name) with
      | Some files =>
          if bool_decide (is_Some (files !! lock_file kind)) then w
          else set_files w (Place_Job Area_Jobs name) (<[lock_file kind := []]> files)
      | None => w
      end
  | _ => w
  end.

Definition make_directory (w : World) (a : Area) (name : string) : World :=
  match area w a !! name with
  | Some _ => w
  | None => take_inode (set_directory w a name (mkJobDir (next_inode w) ∅ None))
  end.

Definition workspace_of (w : World) (a : Area) (name : string) : option Workspace :=
  directory w a name ≫= JobDir_workspace.
Definition set_workspace (w : World) (a : Area) (name : string) (ws : option Workspace) : World :=
  match directory w a name with
  | Some d => set_directory w a name (mkJobDir (JobDir_inode d) (JobDir_files d) ws)
  | None => w
  end.

Definition untouched (d : JobDir) : bool :=
  bool_decide (JobDir_files d = ∅) && match JobDir_workspace d with None => true | Some _ => false end.

(** One operation of the process [t]; no result means that it waits. *)
Definition perform (t : N) (c : Choice) (op : Op) (w : World) : option (World * answer op) :=
  match op return option (World * answer op) with
  | Op_Stat a name => Some (faulty c io_of w w (Ok (Node_kind <$> area w a !! name)))
  | Op_MakeDirectory a name =>
      Some (faulty c id w (make_directory w a name)
              (match area w a !! name with
               | Some Node_other => Err StateError_NotDirectory
               | _ => Ok tt
               end))
  | Op_StatWorkspace a name =>
      Some (faulty c io_of w w (Ok ((fun _ => NodeKind_Directory) <$> workspace_of w a name)))
  | Op_MakeWorkspace a name =>
      Some (match directory w a name with
            | Some d =>
                match JobDir_workspace d with
                | Some _ => faulty c id w w (Ok tt)
                | None => faulty c id w (set_workspace w a name (Some Workspace_empty)) (Ok tt)
                end
            | None => (w, Err (StateError_Io unusual))
            end)
  | Op_StatInside name path =>
      Some (match workspace_of w Area_Staging name with
            | Some ws =>
                faulty c io_of w w
                  (Ok (if decide (path ∈ Workspace_directories ws) then Some NodeKind_Directory
                       else (fun _ => NodeKind_Other) <$> Workspace_files ws !! path))
            | None => (w, Err unusual)
            end)
  | Op_MakeInside name path =>
      Some (match workspace_of w Area_Staging name with
            | Some ws =>
                faulty c io_of w
                  (set_workspace w Area_Staging name
                     (Some (mkWorkspace ({[path]} ∪ Workspace_directories ws) (Workspace_files ws)))) (Ok tt)
            | None => (w, Err unusual)
            end)
  | Op_CreateInside name path executable =>
      Some (match workspace_of w Area_Staging name with
            | Some ws =>
                if decide (path ∈ Workspace_directories ws) then (w, Err unusual) else
                match Workspace_files ws !! path with
                | Some _ => (w, Err unusual)
                | None =>
                    faulty c io_of w
                      (set_workspace w Area_Staging name
                         (Some (mkWorkspace (Workspace_directories ws)
                                  (<[path := (executable, [])]> (Workspace_files ws))))) (Ok tt)
                end
            | None => (w, Err unusual)
            end)
  | Op_FillInside name path content =>
      Some (match workspace_of w Area_Staging name with
            | Some ws =>
                match Workspace_files ws !! path with
                | Some (executable, _) =>
                    faulty c io_of w
                      (set_workspace w Area_Staging name
                         (Some (mkWorkspace (Workspace_directories ws)
                                  (<[path := (executable, content)]> (Workspace_files ws))))) (Ok tt)
                | None => (w, Err unusual)
                end
            | None => (w, Err unusual)
            end)
  | Op_Read p file => Some (faulty c id w w (Ok (files_at w p ≫= fun files => files !! file)))
  | Op_Replace p file content =>
      Some (match files_at w p with
            | Some files => faulty c id w (set_files w p (<[file := content]> files)) (Ok tt)
            | None => (w, Err (StateError_Io unusual))
            end)
  | Op_Append p file content =>
      Some (match files_at w p with
            | Some files =>
                faulty c id w (set_files w p (<[file := default [] (files !! file) ++ content]> files)) (Ok tt)
            | None => (w, Err (StateError_Io unusual))
            end)
  | Op_Create p file =>
      Some (match files_at w p with
            | Some files =>
                match files !! file with
                | Some _ => (w, Err (StateError_Io unusual))
                | None => faulty c id w (set_files w p (<[file := []]> files)) (Ok tt)
                end
            | None => (w, Err (StateError_Io unusual))
            end)
  | Op_Remove p file =>
      Some (match files_at w p with
            | Some files => faulty c id w (set_files w p (delete file files)) (Ok tt)
            | None => faulty c id w w (Ok tt)
            end)
  | Op_List l => Some (faulty c io_of w w (Ok (in_some_order c (names_at w l))))
  | Op_OpenLock l =>
      Some (match lock_id w l with
            | Some id_ => faulty c id w (mark_user (create_lock w l) t l) (Ok id_)
            | None => (w, Err (StateError_Io unusual))
            end)
  | Op_FindLock l => Some (faulty c id w w (Ok (if lock_exists w l then lock_id w l else None)))
  | Op_Lock l =>
      match locks w !! l with
      | None => Some (refusable c io_of w (set_locks w (<[l := t]> (locks w))) (Ok tt))
      | Some _ =>
          match Choice_fault c with
          | Some (Fault_Early e) => Some (w, Err (io_of e))
          | _ => None
          end
      end
  | Op_TryLock l =>
      Some (match locks w !! l with
            | None => refusable c io_of w (set_locks w (<[l := t]> (locks w))) (Ok true)
            | Some _ => refusable c io_of w w (Ok false)
            end)
  | Op_Release l =>
      let w' := if decide (locks w !! l = Some t) then set_locks w (delete l (locks w)) else w in
      Some (faulty c io_of w' w' (Ok tt))
  | Op_Unlock l =>
      Some (if decide (locks w !! l = Some t) then set_locks w (delete l (locks w)) else w, tt)
  | Op_TrashDirectory a name entry =>
      Some (match area w a !! name with
            | Some _ =>
                faulty c id w (set_trash (set_area w a (delete name (area w a))) ({[entry]} ∪ trash w)) (Ok tt)
            | None => (w, Err (StateError_Io unusual))
            end)
  | Op_TrashWorkspace name entry =>
      Some (match workspace_of w Area_Jobs name with
            | Some _ =>
                faulty c id w (set_trash (set_workspace w Area_Jobs name None) ({[entry]} ∪ trash w)) (Ok tt)
            | None => (w, Err (StateError_Io unusual))
            end)
  | Op_RemoveTrash entry => Some (faulty c io_of w (set_trash w (trash w ∖ {[entry]})) (Ok tt))
  | Op_GrantTrash entry => Some (faulty c io_of w w (Ok tt))
  | Op_Publish name =>
      Some (match staging w !! name with
            | Some (Node_dir d) =>
                if match jobs w !! name with
                   | None => true
                   | Some (Node_dir old) => untouched old
                   | Some Node_other => false
                   end
                then faulty c id w
                       (set_published
                          (set_area (set_area w Area_Staging (delete name (staging w))) Area_Jobs
                             (<[name := Node_dir d]> (jobs w)))
                          ({[name]} ∪ published w)) (Ok tt)
                else (w, Err (StateError_Io unusual))
            | _ => (w, Err (StateError_Io unusual))
            end)
  | Op_Entropy =>
      Some (w, match Choice_fault c with None => Ok (Choice_entropy c) | Some _ => Err tt end)
  | Op_Ask q => Some (w, Choice_reply c q)
  end.

(** What the system does when the process [t] is over. *)
Definition release_all (t : N) (w : World) : World :=
  mark_ended (set_locks w (filter (fun entry => entry.2 <> t) (locks w))) t.
