(* ===== verification/JobStore.v ===== *)
(** store.rs, with state_io.rs, state_io/removal.rs, lock.rs and workspace.rs under it: the job store.
    Every function is a program over the operations of [JobDisk]; a lock guard is released where the
    code drops it, on every path. *)

From Stdlib Require Import NArith ZArith Lia String Ascii.
From stdpp Require Import base gmap list strings.
From S2P Require Import Prelude SortedLists RustStr RustText Domain JobState Wire Programs JobDisk.

(** ** What other libraries do *)

(** An entry of a tar archive, as its reader presents it; each part may turn out to be unreadable. *)
Record TarEntry := mkTarEntry {
  TarEntry_is_file : bool;
  TarEntry_path : result (option string) IoError;
  TarEntry_size : result N IoError;
  TarEntry_mode : result N IoError;
  TarEntry_content : result (list N) IoError
}.

(** serde_json, blake3, tar and [str::to_lowercase] *)
Class JobLibraries := {
  state_to_vec : JobState -> option (list N);
  state_from_slice : list N -> option JobState;
  request_to_vec : Request -> option (list N);
  request_from_slice : list N -> option Request;
  digest_hex : list N -> string;
  tar_entries : list N -> result (list (result TarEntry IoError)) IoError;
  to_lowercase : string -> string
}.

(** ** state_io.rs *)

Definition MAX_RECORD_BYTES : N := 1048576.

Definition private_dir (a : Area) (name : string) : Job (result unit StateError) := call (Op_MakeDirectory a name).

(** [private_dir(parent(path)?)]: the directories that are not a job's are there since the store was
    opened. *)
Definition parent_dir (p : Place) : Job (result unit StateError) :=
  match p with
  | Place_Job a name => private_dir a name
  | Place_State | Place_Root | Place_Incoming => prog_ok tt
  end.

Definition read_bytes (p : Place) (file : string) : Job (result (option (list N)) StateError) :=
  let^ content := call (Op_Read p file) in
  match content with
  | None => prog_ok None
  | Some bytes =>
      if MAX_RECORD_BYTES <? N.of_nat (length bytes) then prog_fail StateError_TooLarge else prog_ok (Some bytes)
  end.

(** The bytes are written to a file of their own, which then takes the name. *)
Definition write_bytes (p : Place) (file : string) (bytes : list N) : Job (result unit StateError) :=
  if MAX_RECORD_BYTES <? N.of_nat (length bytes) then prog_fail StateError_TooLarge else
  do^ parent_dir p in
  call (Op_Replace p file bytes).

Definition open_append (p : Place) (file : string) : Job (result unit StateError) :=
  do^ parent_dir p in
  call (Op_Append p file []).

Definition create_empty (p : Place) (file : string) : Job (result unit StateError) :=
  do^ parent_dir p in
  call (Op_Create p file).

Definition remove_file (p : Place) (file : string) : Job (result unit StateError) := call (Op_Remove p file).

(** A fresh name in the trash *)
Definition trash_name : Job (result string StateError) :=
  let~ entropy := call Op_Entropy in
  match entropy with
  | Ok bytes => prog_ok (hex_fixed 32 (from_be_bytes bytes))
  | Err _ => prog_fail (StateError_Io unusual)
  end.

(** [set_aside] of a directory of a job, and of its workspace *)
Definition set_aside (a : Area) (name : string) : Job (result unit StateError) :=
  let^ found := prog_err StateError_Io (call (Op_Stat a name)) in
  match found with
  | None => prog_ok tt
  | Some _ =>
      do^ private_dir a name in
      let^ entry := trash_name in
      call (Op_TrashDirectory a name entry)
  end.

Definition set_aside_workspace (name : string) : Job (result unit StateError) :=
  let^ found := prog_err StateError_Io (call (Op_StatWorkspace Area_Jobs name)) in
  match found with
  | None => prog_ok tt
  | Some _ =>
      do^ call (Op_MakeWorkspace Area_Jobs name) in
      let^ entry := trash_name in
      call (Op_TrashWorkspace name entry)
  end.

Definition publish_dir (name : string) : Job (result unit StateError) :=
  do^ private_dir Area_Staging name in
  call (Op_Publish name).

(** *** removal.rs *)

Definition RETRIES : nat := 3.

Inductive RemovalFailure E := RemovalFailure_Removal (error : E) | RemovalFailure_AfterGrant (denied error : E).
Arguments RemovalFailure_Removal {E} _.
Arguments RemovalFailure_AfterGrant {E} _ _.

Definition after_denial {E} (remove grant : Job (result unit E)) (permission_denied : E -> bool) :
  Job (result unit (RemovalFailure E)) :=
  let~ first := remove in
  match first with
  | Ok _ => prog_ok tt
  | Err error =>
      if negb (permission_denied error) then prog_fail (RemovalFailure_Removal error)
      else prog_err (RemovalFailure_AfterGrant error) (do^ grant in remove)
  end.

(** The [for] loop of [retry], with [attempts] rounds left *)
Fixpoint retry_loop {E} (attempts : nat) (remove : Job (result unit E)) (busy : E -> bool) (pause : Job unit) :
  Job (result unit E) :=
  match attempts with
  | O => remove
  | S attempts =>
      let~ r := remove in
      match r with
      | Ok _ => prog_ok tt
      | Err error => if negb (busy error) then prog_fail error else do~ pause in retry_loop attempts remove busy pause
      end
  end.
Definition retry {E} (remove : Job (result unit E)) (busy : E -> bool) (pause : Job unit) : Job (result unit E) :=
  retry_loop RETRIES remove busy pause.

Definition EMPTY_LIMIT : nat := 64.

Definition removal_busy (error : IoError) : bool := bool_decide (error = IoError_Busy).
Definition permission_denied (error : IoError) : bool := bool_decide (error = IoError_Denied).

(** The loop of [empty_with]: what could not be removed *)
Fixpoint empty_loop (entries : list string) (leftovers : list (string * RemovalFailure IoError)) :
  Job (list (string * RemovalFailure IoError)) :=
  match entries with
  | [] => Ret leftovers
  | entry :: entries =>
      let~ r := after_denial (retry (call (Op_RemoveTrash entry)) removal_busy (Ret tt))
                  (call (Op_GrantTrash entry)) permission_denied in
      empty_loop entries (match r with Ok _ => leftovers | Err failure => leftovers ++ [(entry, failure)] end)
  end.

Definition empty : Job (result (list (string * RemovalFailure IoError)) StateError) :=
  let^ entries := prog_err StateError_Io (call (Op_List Listing_Trash)) in
  let~ leftovers := empty_loop (take EMPTY_LIMIT entries) [] in
  prog_ok leftovers.

(** *** lock.rs *)

Inductive Probe := Probe_Absent | Probe_Free | Probe_Held.

Definition lock_parent (l : LockName) : Place :=
  match l with
  | LockName_Job _ name => Place_Job Area_Jobs name
  | LockName_Order => Place_State
  | LockName_Admission | LockName_Incoming => Place_Root
  end.

Definition open_lock (l : LockName) : Job (result LockId StateError) :=
  do^ parent_dir (lock_parent l) in
  call (Op_OpenLock l).

Definition exclusive (l : LockName) : Job (result LockId LockError) :=
  let^ file := prog_err LockError_State (open_lock l) in
  do^ prog_err LockError_Io (call (Op_Lock file)) in
  prog_ok file.

Definition try_exclusive (l : LockName) : Job (result (option LockId) LockError) :=
  let^ file := prog_err LockError_State (open_lock l) in
  let^ taken := prog_err LockError_Io (call (Op_TryLock file)) in
  prog_ok (if taken : bool then Some file else None).

Definition probe (l : LockName) : Job (result Probe LockError) :=
  let^ found := prog_err LockError_State (call (Op_FindLock l)) in
  match found with
  | None => prog_ok Probe_Absent
  | Some file =>
      let^ taken := prog_err LockError_Io (call (Op_TryLock file)) in
      if taken : bool
      then do^ prog_err LockError_Io (call (Op_Release file)) in prog_ok Probe_Free
      else prog_ok Probe_Held
  end.

(** [Drop for OsLock], at the end of the guard's scope *)
Definition drop_lock (l : LockId) : Job unit := call (Op_Unlock l).
Definition holding {T} (l : LockId) (body : Job T) : Job T :=
  let~ r := body in
  do~ drop_lock l in
  Ret r.

(** ** store.rs *)

Inductive JobStoreError :=
| JobStoreError_State (error : StateError)
| JobStoreError_Lock (error : LockError)
| JobStoreError_Wire (error : WireError)
| JobStoreError_Transition (error : InvalidTransition)
| JobStoreError_WorkspaceIo (error : IoError)
| JobStoreError_WorkspaceBlocked
| JobStoreError_Io (error : IoError)
| JobStoreError_Entropy
| JobStoreError_Missing
| JobStoreError_Conflict
| JobStoreError_Capacity
| JobStoreError_Active
| JobStoreError_Corrupt
| JobStoreError_ArchiveEntry
| JobStoreError_ArchiveMismatch.

Definition KEEP_FINISHED : nat := 32.
Definition KEEP_WORKSPACES : nat := 2.
Definition MAX_JOB_RECORDS : nat := 1024.
Definition ARCHIVE_COPY_BUFFER_BYTES : N := 16384.
Definition MAX_LOG_TAIL_BYTES : N := 16384.
Definition MAX_ARCHIVE_FILES : N := 100000.
Definition MAX_ARCHIVE_PATH_BYTES : N := 16777216.
Definition ARCHIVE_EXECUTABLE_BITS : N := 73.

(** The names of [JobPaths] *)
Definition SPEC : string := "request.json".
Definition STATE : string := "state.json".
Definition CANCEL : string := "cancel".
Definition LOG : string := "output.log".
Definition SUPERVISOR_LOG : string := "supervisor.log".
Definition ORDER : string := "order".

Definition paths (job : JobId) : Place := Place_Job Area_Jobs (as_str job).
Definition staged (job : JobId) : Place := Place_Job Area_Staging (as_str job).
Definition job_lock (kind : LockKind) (job : JobId) : LockName := LockName_Job kind (as_str job).

Definition submission_step (state : State) (same_request : bool) : result unit JobStoreError :=
  match protocol_step state (Action_Submit same_request) with
  | Ok _ => Ok tt
  | Err JobRefusal_Conflict => Err JobStoreError_Conflict
  | Err (JobRefusal_Missing | JobRefusal_NotActive) => Err JobStoreError_Corrupt
  end.

Definition locked (l : LockName) : Job (result LockId JobStoreError) := prog_err JobStoreError_Lock (exclusive l).

Definition read_number (p : Place) (file : string) : Job (result N JobStoreError) :=
  let^ found := prog_err JobStoreError_State (read_bytes p file) in
  match found with
  | None => prog_ok 0
  | Some bytes => prog_lift (ok_or (number_of_bytes bytes) JobStoreError_Corrupt)
  end.

Definition next_sequence : Job (result N JobStoreError) :=
  let^ last_ := read_number Place_Root "sequence" in
  match checked_add u64_max last_ 1 with
  | None => prog_fail JobStoreError_Capacity
  | Some next =>
      do^ prog_err JobStoreError_State (write_bytes Place_Root "sequence" (u64_to_string next)) in
      prog_ok next
  end.

(** [next_opening] and [Store::open]; the directories [open_directory] makes are there. *)
Definition next_opening : Job (result N JobStoreError) :=
  let^ order := locked LockName_Order in
  holding order
    (let^ last_ := read_number Place_State "runner-order" in
     let next := saturating_add u64_max last_ 1 in
     do^ prog_err JobStoreError_State (write_bytes Place_State "runner-order" (u64_to_string next)) in
     prog_ok next).

Definition open_store : Job (result unit JobStoreError) :=
  let^ place := next_opening in
  prog_err JobStoreError_State (write_bytes Place_Root "opened" (u64_to_string place)).

Definition empty_trash : Job unit :=
  do~ empty in
  Ret tt.

Definition verify_job (job : JobId) : Job (result unit JobStoreError) :=
  let^ found := prog_err JobStoreError_Io (call (Op_Stat Area_Jobs (as_str job))) in
  match found with
  | Some NodeKind_Directory => prog_err JobStoreError_State (private_dir Area_Jobs (as_str job))
  | Some NodeKind_Other => prog_fail JobStoreError_Corrupt
  | None => prog_fail JobStoreError_Missing
  end.

Definition new_job_id : Job (result JobId JobStoreError) :=
  let~ entropy := call Op_Entropy in
  match entropy with
  | Ok bytes =>
      prog_lift (map_err (fun _ => JobStoreError_Corrupt) (JobId_try_from (hex_fixed 32 (from_be_bytes bytes))))
  | Err _ => prog_fail JobStoreError_Entropy
  end.

Section store.
Context `{libraries : JobLibraries}.

Definition read_request (job : JobId) : Job (result Request JobStoreError) :=
  do^ verify_job job in
  let^ found := prog_err JobStoreError_State (read_bytes (paths job) SPEC) in
  match found with
  | None => prog_fail JobStoreError_Missing
  | Some bytes => prog_lift (map_err JobStoreError_Wire (decode_payload request_from_slice bytes))
  end.

Definition read_state (job : JobId) : Job (result JobState JobStoreError) :=
  do^ verify_job job in
  let^ found := prog_err JobStoreError_State (read_bytes (paths job) STATE) in
  match found with
  | None => prog_fail JobStoreError_Missing
  | Some bytes => prog_lift (map_err JobStoreError_Wire (stored_job state_from_slice bytes))
  end.

Definition write_state (job : JobId) (state : JobState) : Job (result unit JobStoreError) :=
  let^ bytes := prog_lift (ok_or (state_to_vec state) (JobStoreError_Wire WireError_Json)) in
  prog_err JobStoreError_State (write_bytes (paths job) STATE bytes).

Definition transition (job : JobId) (event : JobEvent) : Job (result JobState JobStoreError) :=
  do^ verify_job job in
  let^ lock := locked (job_lock LockKind_State job) in
  holding lock
    (let^ state := read_state job in
     let '(state, advanced) := advance state event in
     do^ prog_lift (map_err JobStoreError_Transition advanced) in
     do^ write_state job state in
     prog_ok state).

Definition finish_launch_failure (job : JobId) (reason : RemoteText) : Job (result unit JobStoreError) :=
  do^ verify_job job in
  let^ lock := locked (job_lock LockKind_State job) in
  holding lock
    (let^ state := read_state job in
     match JobState_kind state with
     | PhaseKind_Accepted | PhaseKind_Queued | PhaseKind_Starting =>
         let '(state, advanced) := advance state (JobEvent_LaunchFailed reason) in
         do^ prog_lift (map_err JobStoreError_Transition advanced) in
         do^ write_state job state in
         prog_ok tt
     | PhaseKind_Running | PhaseKind_Finished => prog_ok tt
     end).

Definition is_finished_state (s : result State JobRefusal) : bool :=
  match s with Ok State_Finished => true | _ => false end.

Definition status (job : JobId) : Job (result JobState JobStoreError) :=
  do^ verify_job job in
  let^ lock := locked (job_lock LockKind_State job) in
  holding lock
    (let^ state := read_state job in
     match JobState_kind state with
     | PhaseKind_Accepted | PhaseKind_Finished => prog_ok state
     | PhaseKind_Queued | PhaseKind_Starting | PhaseKind_Running =>
         let^ found := prog_err JobStoreError_Lock (probe (job_lock LockKind_Alive job)) in
         match found with
         | Probe_Held => prog_ok state
         | Probe_Absent | Probe_Free =>
             if negb (is_finished_state (protocol_step State_Active Action_Reap))
             then prog_fail JobStoreError_Corrupt
             else
               let '(state, advanced) := advance state JobEvent_SupervisorGone in
               do^ prog_lift (map_err JobStoreError_Transition advanced) in
               do^ write_state job state in
               prog_ok state
         end
     end).

Definition worker_lock (job : JobId) : Job (result (option LockId) JobStoreError) :=
  do^ verify_job job in
  prog_err JobStoreError_Lock (try_exclusive (job_lock LockKind_Alive job)).

Definition launch_lock (job : JobId) : Job (result LockId JobStoreError) :=
  do^ verify_job job in
  locked (job_lock LockKind_Launch job).

Definition request_cancel (job : JobId) : Job (result unit JobStoreError) :=
  do^ verify_job job in
  prog_err JobStoreError_State (write_bytes (paths job) CANCEL []).

Definition cancel_requested (job : JobId) : Job (result bool JobStoreError) :=
  do^ verify_job job in
  let^ found := prog_err JobStoreError_State (call (Op_Read (paths job) CANCEL)) in
  prog_ok (match found with Some _ => true | None => false end).

(** [verified_directory] of the workspace *)
Definition workspace (job : JobId) : Job (result unit JobStoreError) :=
  do^ verify_job job in
  let^ found := prog_err JobStoreError_Io (call (Op_StatWorkspace Area_Jobs (as_str job))) in
  match found with
  | Some NodeKind_Directory => prog_err JobStoreError_State (call (Op_MakeWorkspace Area_Jobs (as_str job)))
  | Some NodeKind_Other => prog_fail JobStoreError_Corrupt
  | None => prog_fail JobStoreError_Missing
  end.

(** The log only grows, so what is read is what was there when its length was taken. *)
Definition log_tail (job : JobId) : Job (result (RemoteText * N) JobStoreError) :=
  do^ verify_job job in
  let^ found := prog_err JobStoreError_State (call (Op_Read (paths job) LOG)) in
  match found with
  | None =>
      prog_lift (let? text := map_err (fun _ => JobStoreError_Corrupt) (RemoteText_try_from EmptyString) in
                 Ok (text, 0))
  | Some content =>
      let length_ := N.of_nat (length content) in
      let taken := N.min length_ MAX_LOG_TAIL_BYTES in
      let omitted := saturating_sub length_ taken in
      let bytes := take (N.to_nat taken) (drop (N.to_nat omitted) content) in
      let text := of_bytes (replace_crlf (from_utf8_lossy bytes)) in
      prog_lift (let? text := map_err (fun _ => JobStoreError_Corrupt) (RemoteText_try_from text) in
                 Ok (text, omitted))
  end.

Definition wait (job : JobId) : Job (result JobState JobStoreError) :=
  do^ verify_job job in
  let^ lock := locked (job_lock LockKind_Alive job) in
  do~ drop_lock lock in
  status job.

(** The loop of [list] *)
Fixpoint list_loop (names : list string) (found : list JobId) : Job (result (list JobId) JobStoreError) :=
  match names with
  | [] => prog_ok found
  | name :: names =>
      if (MAX_JOB_RECORDS <=? length found)%nat then prog_fail JobStoreError_Capacity else
      let^ job := prog_lift (map_err (fun _ => JobStoreError_Corrupt) (JobId_try_from name)) in
      do^ prog_err JobStoreError_State (private_dir Area_Jobs name) in
      list_loop names (found ++ [job])
  end.

Definition list_jobs : Job (result (list JobId) JobStoreError) :=
  let^ names := prog_err JobStoreError_Io (call (Op_List Listing_Jobs)) in
  let^ found := list_loop names [] in
  prog_ok (sort found).

(** [set_aside_finished] with [JobPaths::workspace] or with the directory *)
Inductive Part := Part_Workspace | Part_Directory.
Definition set_aside_part (job : JobId) (part : Part) : Job (result unit StateError) :=
  match part with
  | Part_Workspace => set_aside_workspace (as_str job)
  | Part_Directory => set_aside Area_Jobs (as_str job)
  end.

Definition set_aside_finished (job : JobId) (part : Part) : Job (result bool JobStoreError) :=
  let^ launch := launch_lock job in
  let^ finished :=
    holding launch
      (let^ state := status job in
       match JobState_kind state with
       | PhaseKind_Finished =>
           do^ verify_job job in
           let^ alive := locked (job_lock LockKind_Alive job) in
           do~ drop_lock alive in
           prog_ok true
       | _ => prog_ok false
       end) in
  if finished : bool
  then do^ prog_err JobStoreError_State (set_aside_part job part) in prog_ok true
  else prog_ok false.

Definition shed_workspace (job : JobId) : Job (result bool JobStoreError) := set_aside_finished job Part_Workspace.
Definition clean_one (job : JobId) : Job (result bool JobStoreError) := set_aside_finished job Part_Directory.

(** The first loop of [reclaim]: the finished jobs, with their places *)
Fixpoint finished_loop (jobs : list JobId) (finished : list (N * JobId)) :
  Job (result (list (N * JobId)) JobStoreError) :=
  match jobs with
  | [] => prog_ok finished
  | job :: jobs =>
      let^ state := status job in
      match JobState_kind state with
      | PhaseKind_Finished =>
          let^ place := read_number (paths job) ORDER in
          finished_loop jobs (finished ++ [(place, job)])
      | _ => finished_loop jobs finished
      end
  end.

(** The second: the oldest beyond the kept ones go, then the workspaces of those beyond [shed]; what
    cannot be set aside now is kept. *)
Fixpoint reclaim_loop (index excess : nat) (finished : list (N * JobId)) : Job unit :=
  match finished with
  | [] => Ret tt
  | (_, job) :: finished =>
      do~ (if (index <? excess)%nat then clean_one job else shed_workspace job) in
      reclaim_loop (S index) excess finished
  end.

Definition reclaim : Job (result unit JobStoreError) :=
  let^ jobs := list_jobs in
  let^ finished := finished_loop jobs [] in
  let finished := sort finished in
  let excess := (length finished - KEEP_FINISHED)%nat in
  let shed := (length finished - KEEP_WORKSPACES)%nat in
  do~ reclaim_loop 0 excess (take shed finished) in
  do~ empty_trash in
  prog_ok tt.

Inductive OrphanKind := OrphanKind_Staging | OrphanKind_Incoming.

(** The loop of [cleanup_orphans] *)
Fixpoint orphans_loop (kind : OrphanKind) (index : nat) (names : list string) : Job (result unit JobStoreError) :=
  match names with
  | [] => prog_ok tt
  | name :: names =>
      if (MAX_JOB_RECORDS <=? index)%nat then prog_fail JobStoreError_Capacity else
      do^ prog_lift (map_err (fun _ => JobStoreError_Corrupt) (JobId_try_from name)) in
      do^ (match kind with
           | OrphanKind_Staging => prog_err JobStoreError_State (set_aside Area_Staging name)
           | OrphanKind_Incoming =>
               let^ file := prog_err JobStoreError_State (call (Op_Read Place_Incoming name)) in
               match file with
               | None => prog_fail JobStoreError_Corrupt
               | Some _ => prog_err JobStoreError_State (remove_file Place_Incoming name)
               end
           end) in
      orphans_loop kind (S index) names
  end.

Definition cleanup_orphans (kind : OrphanKind) : Job (result unit JobStoreError) :=
  let directory := match kind with OrphanKind_Staging => Listing_Staging | OrphanKind_Incoming => Listing_Incoming end in
  let^ names := prog_err JobStoreError_Io (call (Op_List directory)) in
  orphans_loop kind 0 names.

(** *** Archives *)

Record ReceivedArchive := mkReceivedArchive {
  ReceivedArchive_path : string;
  ReceivedArchive_descriptor : Snapshot;
  ReceivedArchive_lock : LockId
}.

(** [Drop for ReceivedArchive]: the file goes, then the lock is released. *)
Definition drop_received (received : ReceivedArchive) : Job unit :=
  do~ remove_file Place_Incoming (ReceivedArchive_path received) in
  drop_lock (ReceivedArchive_lock received).

(** [input.read(chunk)] of at most [wanted] bytes, from what each read would give; the end of the list
    is the end of the input. *)
Definition read_chunk (wanted : N) (reads : list (result (list N) IoError)) :
  result (list N) IoError * list (result (list N) IoError) :=
  match reads with
  | [] => (Ok [], [])
  | Err e :: reads => (Err e, reads)
  | Ok bytes :: reads =>
      if N.of_nat (length bytes) <=? wanted then (Ok bytes, reads)
      else (Ok (take (N.to_nat wanted) bytes), Ok (drop (N.to_nat wanted) bytes) :: reads)
  end.

(** The [while] loop of [receive_archive]; [hashed] is what the hasher has been given.  Each round
    takes at least one byte off [remaining], which is fuel enough. *)
Fixpoint receive_loop (fuel : nat) (path : string) (remaining : N) (reads : list (result (list N) IoError))
    (hashed : list N) : Job (result (list N) JobStoreError) :=
  match fuel with
  | O => prog_ok hashed
  | S fuel =>
      if remaining =? 0 then prog_ok hashed else
      let wanted := N.min remaining ARCHIVE_COPY_BUFFER_BYTES in
      let '(chunk, reads) := read_chunk wanted reads in
      let^ chunk := prog_lift (map_err JobStoreError_Io chunk) in
      match chunk with
      | [] => prog_fail JobStoreError_ArchiveMismatch
      | _ =>
          do^ prog_err (fun e => JobStoreError_Io (io_of e)) (call (Op_Append Place_Incoming path chunk)) in
          receive_loop fuel path (saturating_sub remaining (N.of_nat (length chunk))) reads (hashed ++ chunk)
      end
  end.

Definition receive_archive (reads : list (result (list N) IoError)) (snapshot : Snapshot) :
  Job (result ReceivedArchive JobStoreError) :=
  let^ lock := locked LockName_Incoming in
  let~ created :=
    (do^ cleanup_orphans OrphanKind_Incoming in
     let^ id_ := new_job_id in
     do^ prog_err JobStoreError_State (create_empty Place_Incoming (as_str id_)) in
     do^ prog_err JobStoreError_State (open_append Place_Incoming (as_str id_)) in
     prog_ok (as_str id_)) in
  match created with
  | Err e => do~ drop_lock lock in prog_fail e
  | Ok path =>
      let received := mkReceivedArchive path snapshot lock in
      let~ copied := receive_loop (S (N.to_nat (Snapshot_bytes snapshot))) path (Snapshot_bytes snapshot) reads [] in
      match copied with
      | Err e => do~ drop_received received in prog_fail e
      | Ok hashed =>
          if negb (bool_decide (digest_hex hashed = Snapshot_digest snapshot))
          then do~ drop_received received in prog_fail JobStoreError_ArchiveMismatch
          else prog_ok received
      end
  end.

(** [Rooted::make_parents]: every proper prefix of the path, in turn *)
Fixpoint make_parents_loop (name current : string) (parts : list string) : Job (result unit JobStoreError) :=
  match parts with
  | [] | [_] => prog_ok tt
  | part :: parts =>
      let current := match current with
                     | EmptyString => part
                     | _ => String.append current (String.append "/" part)
                     end in
      let^ found := prog_err JobStoreError_WorkspaceIo (call (Op_StatInside name current)) in
      do^ (match found with
           | Some NodeKind_Directory => prog_ok tt
           | Some NodeKind_Other => prog_fail JobStoreError_WorkspaceBlocked
           | None => prog_err JobStoreError_WorkspaceIo (call (Op_MakeInside name current))
           end) in
      make_parents_loop name current parts
  end.
Definition make_parents (name : string) (path : RelativePath) : Job (result unit JobStoreError) :=
  make_parents_loop name EmptyString (split "/" (as_str path)).

(** What the loop of [extract_archive] checks of an entry before it is written: its path, size and
    mode, and the totals so far. *)
Record Totals := mkTotals { Totals_paths : list string; Totals_path_bytes : N; Totals_content_bytes : N }.

Definition admitted_entry (totals : Totals) (entry : TarEntry) : result (Totals * RelativePath * N) JobStoreError :=
  if (MAX_ARCHIVE_FILES <=? N.of_nat (length (Totals_paths totals))) || negb (TarEntry_is_file entry)
  then Err JobStoreError_ArchiveEntry else
  let? path := map_err JobStoreError_Io (TarEntry_path entry) in
  let? text := ok_or path JobStoreError_ArchiveEntry in
  let? validated := map_err (fun _ => JobStoreError_ArchiveEntry) (RelativePath_try_from text) in
  let path_bytes := saturating_add usize_max (Totals_path_bytes totals) (str_len (as_str validated)) in
  let lower := to_lowercase (as_str validated) in
  if (MAX_ARCHIVE_PATH_BYTES <? path_bytes) || bool_decide (lower ∈ Totals_paths totals)
  then Err JobStoreError_ArchiveEntry else
  let? size := map_err JobStoreError_Io (TarEntry_size entry) in
  let content_bytes := saturating_add u64_max (Totals_content_bytes totals) size in
  if MAX_SNAPSHOT_BYTES <? content_bytes then Err JobStoreError_ArchiveEntry else
  Ok (mkTotals (lower :: Totals_paths totals) path_bytes content_bytes, validated, size).

Fixpoint extract_loop (name : string) (entries : list (result TarEntry IoError)) (totals : Totals) :
  Job (result unit JobStoreError) :=
  match entries with
  | [] => prog_ok tt
  | entry :: entries =>
      let^ entry := prog_lift (map_err JobStoreError_Io entry) in
      let^ (totals, validated, size) := prog_lift (admitted_entry totals entry) in
      do^ make_parents name validated in
      let^ mode := prog_lift (map_err JobStoreError_Io (TarEntry_mode entry)) in
      let executable := negb (N.land mode ARCHIVE_EXECUTABLE_BITS =? 0) in
      do^ prog_err JobStoreError_WorkspaceIo (call (Op_CreateInside name (as_str validated) executable)) in
      let^ content := prog_lift (map_err JobStoreError_Io (TarEntry_content entry)) in
      do^ prog_err JobStoreError_Io (call (Op_FillInside name (as_str validated) content)) in
      if negb (N.of_nat (length content) =? size) then prog_fail JobStoreError_ArchiveMismatch else
      extract_loop name entries totals
  end.

Definition extract_archive (job : JobId) (archive : ReceivedArchive) : Job (result unit JobStoreError) :=
  do^ prog_err JobStoreError_State (call (Op_MakeWorkspace Area_Staging (as_str job))) in
  let^ source := prog_err JobStoreError_State (call (Op_Read Place_Incoming (ReceivedArchive_path archive))) in
  let^ content := prog_lift (ok_or source JobStoreError_ArchiveMismatch) in
  let^ entries := prog_lift (map_err JobStoreError_Io (tar_entries content)) in
  extract_loop (as_str job) entries (mkTotals [] 0 0).

(** *** Admission *)

Definition stage (job : JobId) (request : Request) (archive : option ReceivedArchive) :
  Job (result unit JobStoreError) :=
  do^ prog_err JobStoreError_State (private_dir Area_Staging (as_str job)) in
  do^ (match request, archive with
       | Request_Run _ _ (Input_Snapshot expected), Some archive =>
           if bool_decide (ReceivedArchive_descriptor archive = expected)
           then extract_archive job archive
           else prog_fail JobStoreError_ArchiveMismatch
       | Request_Run _ _ Input_Home, None => prog_ok tt
       | _, _ => prog_fail JobStoreError_ArchiveMismatch
       end) in
  let^ encoded := prog_lift (map_err JobStoreError_Wire (frame request_to_vec request)) in
  let^ body := prog_lift (map_err JobStoreError_Wire (payload encoded)) in
  do^ prog_err JobStoreError_State (write_bytes (staged job) SPEC body) in
  let^ initial := prog_lift (ok_or (state_to_vec JobState_accepted) (JobStoreError_Wire WireError_Json)) in
  do^ prog_err JobStoreError_State (write_bytes (staged job) STATE initial) in
  let^ place := next_sequence in
  do^ prog_err JobStoreError_State (write_bytes (staged job) ORDER (u64_to_string place)) in
  prog_err JobStoreError_State (publish_dir (as_str job)).

Definition reserve (submission : SubmissionId) (request : Request) (archive : option ReceivedArchive) :
  Job (result JobId JobStoreError) :=
  let^ admission := locked LockName_Admission in
  holding admission
    (do^ cleanup_orphans OrphanKind_Staging in
     let job := JobId_from submission in
     let^ existing := prog_err JobStoreError_Io (call (Op_Stat Area_Jobs (as_str job))) in
     match existing with
     | Some _ =>
         do^ verify_job job in
         let^ known := read_request job in
         let same_request := bool_decide (known = request) in
         let^ state := read_state job in
         do^ prog_lift (submission_step (State_from (JobState_kind state)) same_request) in
         prog_ok job
     | None =>
         do^ reclaim in
         let^ jobs := list_jobs in
         if (MAX_JOB_RECORDS <=? length jobs)%nat then prog_fail JobStoreError_Capacity else
         do^ prog_lift (submission_step State_Absent true) in
         do^ stage job request archive in
         prog_ok job
     end).

(** The loop of [clean] over the jobs *)
Fixpoint clean_loop (jobs : list JobId) (count : N) : Job (result N JobStoreError) :=
  match jobs with
  | [] => prog_ok count
  | job :: jobs =>
      let^ cleaned := clean_one job in
      if cleaned : bool
      then let^ count := prog_lift (ok_or (checked_add u16_max count 1) JobStoreError_Capacity) in clean_loop jobs count
      else clean_loop jobs count
  end.

Definition clean (target : CleanTarget) : Job (result N JobStoreError) :=
  let^ admission := locked LockName_Admission in
  holding admission
    (match target with
     | CleanTarget_Job job =>
         let^ cleaned := clean_one job in
         do~ empty_trash in
         if cleaned : bool then prog_ok 1 else prog_fail JobStoreError_Active
     | CleanTarget_Finished =>
         let^ jobs := list_jobs in
         let^ count := clean_loop jobs 0 in
         do~ empty_trash in
         prog_ok count
     end).
End store.
