(* ===== verification/JobService.v ===== *)
(** app.rs and the node of transport.rs: what a request does to the job store, and the supervisor that
    runs one job.  Everything outside the store, the supervised command, the watcher of the job's
    directory, the limits of the host and the chat service, is asked of the environment. *)

From Stdlib Require Import NArith ZArith Lia String Ascii.
From stdpp Require Import base gmap list strings.
From S2P Require Import Prelude RustStr RustText Domain JobState ChatWire Wire Programs JobDisk JobStore.

Definition MAX_LOG_BYTES : N := 256 * 1024 * 1024.
Definition MAX_FAILURE_DETAIL_CHARS : nat := 4096.

(** A chat error is what the chat service gives; the others carry what they display as. *)
Inductive AppError :=
| AppError_Chat (text : string)
| AppError_Store (error : JobStoreError)
| AppError_Proc (error : ProcessError)
| AppError_Notify (text : string)
| AppError_Io (text : string)
| AppError_InvalidErrorText.

Section service.
Context `{libraries : JobLibraries}.
(** Whether the host is macOS, the build of the program, what errors display as, and the chat
    service. *)
Variable macos : bool.
Variable build : BuildId.
Variable io_text : IoError -> string.
Variable app_text : AppError -> string.
Variable chat : ChatRequest -> result ChatReply AppError.

Definition in_store {T} (p : Job (result T JobStoreError)) : Job (result T AppError) := prog_err AppError_Store p.
Definition asked_io {T} (r : result T IoError) : result T AppError := map_err (fun e => AppError_Io (io_text e)) r.

Definition launch_failure_reason (text : string) : result RemoteText AppError :=
  map_err (fun _ => AppError_InvalidErrorText)
    (RemoteText_try_from (of_chars (take MAX_FAILURE_DETAIL_CHARS (chars text)))).

(** [process::refuses_submission] *)
Definition refuses_submission (error : ProcessError) : bool := macos && ProcessError_login error.

Definition is_accepted_state (s : State) : bool := match s with State_Accepted => true | _ => false end.
Definition is_active_step (r : result State JobRefusal) : bool :=
  match r with Ok State_Active => true | _ => false end.

Definition start_worker (job : JobId) : Job (result unit AppError) :=
  let^ launch := in_store (launch_lock job) in
  holding launch
    (let^ current := in_store (status job) in
     let state := State_from (JobState_kind current) in
     let attached := protocol_step state Action_Attach in
     if negb (is_active_step attached) || negb (is_accepted_state state) then prog_ok tt else
     let~ launched := call (Op_Ask (Ask_Launch job)) in
     match launched with
     | Ok _ => prog_ok tt
     | Err error =>
         let^ reason := prog_lift (launch_failure_reason (ProcessError_text error)) in
         do^ in_store (finish_launch_failure job reason) in
         if refuses_submission error then prog_fail (AppError_Proc error) else prog_ok tt
     end).

(** [kill_using] with the store's own functions *)
Definition kill (job : JobId) : Job (result Reply AppError) :=
  let^ launch := in_store (launch_lock job) in
  holding launch
    (let^ state := in_store (status job) in
     let^ stopped :=
       in_store
         (match JobState_kind state with
          | PhaseKind_Accepted => transition job JobEvent_Killed
          | PhaseKind_Queued | PhaseKind_Starting | PhaseKind_Running =>
              do^ request_cancel job in
              wait job
          | PhaseKind_Finished => prog_ok state
          end) in
     prog_ok (Reply_Status stopped)).

Definition handle (request : Request) (archive : option ReceivedArchive) : Job (result Reply AppError) :=
  match request with
  | Request_Chat request => prog_lift (map_ok Reply_Chat (chat request))
  | Request_Hello => prog_ok (Reply_Hello build)
  | Request_Run submission _ _ =>
      do^ in_store open_store in
      let^ job := in_store (reserve submission request archive) in
      do^ start_worker job in
      prog_ok (Reply_Accepted job)
  | Request_List =>
      do^ in_store open_store in
      let^ jobs := in_store list_jobs in
      prog_ok (Reply_Jobs jobs)
  | Request_Status job =>
      do^ in_store open_store in
      do^ start_worker job in
      let^ state := in_store (status job) in
      prog_ok (Reply_Status state)
  | Request_Wait job =>
      do^ in_store open_store in
      do^ start_worker job in
      let^ state := in_store (wait job) in
      prog_ok (Reply_Status state)
  | Request_Logs job =>
      do^ in_store open_store in
      let^ (text, omitted) := in_store (log_tail job) in
      prog_ok (Reply_Logs text omitted)
  | Request_Kill job =>
      do^ in_store open_store in
      kill job
  | Request_Clean target =>
      do^ in_store open_store in
      let^ count := in_store (clean target) in
      prog_ok (Reply_Cleaned count)
  end.

Definition error_code (error : AppError) : ErrorCode :=
  match error with
  | AppError_Store JobStoreError_Missing => ErrorCode_MissingJob
  | AppError_Store JobStoreError_Conflict => ErrorCode_ConflictingSubmission
  | AppError_Store JobStoreError_Capacity => ErrorCode_ResourceLimit
  | AppError_Store (JobStoreError_Active | JobStoreError_ArchiveEntry | JobStoreError_ArchiveMismatch) =>
      ErrorCode_InvalidRequest
  | AppError_Store (JobStoreError_Corrupt | JobStoreError_Transition _ | JobStoreError_Wire _) =>
      ErrorCode_CorruptState
  | AppError_Chat _
  | AppError_Store
      (JobStoreError_State _ | JobStoreError_Lock _ | JobStoreError_Io _ | JobStoreError_WorkspaceIo _
      | JobStoreError_WorkspaceBlocked | JobStoreError_Entropy)
  | AppError_Proc _ | AppError_Notify _ | AppError_Io _ | AppError_InvalidErrorText => ErrorCode_Internal
  end.

(** [node]: [request] is the frame it reads, [reads] what the rest of its input gives, [trailing] whether
    there is more of it than there should be.  The reply is what it writes.  Removing unused builds and
    the stores of other formats happens elsewhere than in this store, and a failure of it is only
    printed. *)
Definition node (request : Request) (reads : list (result (list N) IoError)) (trailing : bool) :
  Job (result Reply AppError) :=
  do~ call (Op_Ask Ask_PruneBuilds) in
  do~ call (Op_Ask Ask_PruneStores) in
  let^ archive :=
    match request with
    | Request_Run _ _ (Input_Snapshot snapshot) =>
        do^ in_store open_store in
        let^ received := in_store (receive_archive reads snapshot) in
        prog_ok (Some received)
    | _ => prog_ok None
    end in
  let~ r :=
    (if trailing && match request with Request_Chat (ChatRequest_Wait _ _ _) => false | _ => true end
     then prog_fail (AppError_Store (JobStoreError_Wire WireError_Trailing))
     else let~ r := handle request archive in
          prog_ok (match r with Ok reply => reply | Err error => Reply_Error (error_code error) end)) in
  do~ (match archive with Some received => drop_received received | None => Ret tt end) in
  Ret r.

(** ** The supervisor of a job *)

(** [CancellationWatch::admit_using].  It goes round until there is a permit or a request to cancel;
    [rounds] bounds what is seen of it: a supervisor with no rounds left is one that waits. *)
Fixpoint admit_loop (rounds : nat) (job : JobId) : Job (option (result bool AppError)) :=
  match rounds with
  | O => Ret None
  | S rounds =>
      let~ cancelled := in_store (cancel_requested job) in
      match cancelled with
      | Err e => Ret (Some (Err e))
      | Ok true => Ret (Some (Ok false))
      | Ok false =>
          let~ permit := call (Op_Ask Ask_Permit) in
          match asked_io permit with
          | Err e => Ret (Some (Err e))
          | Ok true => Ret (Some (Ok true))
          | Ok false =>
              let~ woken := call (Op_Ask Ask_Capacity) in
              match woken with
              | Ok Wake_Changed | Err RecvTimeoutError_Timeout => admit_loop rounds job
              | Ok (Wake_Broken message) => Ret (Some (Err (AppError_Io message)))
              | Ok Wake_Finished | Err RecvTimeoutError_Disconnected =>
                  Ret (Some (Err (AppError_Io "admission watcher disconnected")))
              end
          end
      end
  end.

(** The watching thread of [wait_using]: whether it cancelled.  It has no effect on the store but the
    question whether to cancel, so the thread that waits for the command is asked after it. *)
Fixpoint watch_loop (rounds : nat) (job : JobId) : Job (option (result bool AppError)) :=
  match rounds with
  | O => Ret None
  | S rounds =>
      let~ woken := call (Op_Ask Ask_Wake) in
      match woken with
      | Some Wake_Changed =>
          let~ cancelled := in_store (cancel_requested job) in
          match cancelled with
          | Ok true =>
              let~ killed := call (Op_Ask Ask_Stop) in
              Ret (Some (match killed with Ok _ => Ok true | Err e => Err (AppError_Proc e) end))
          | Ok false => watch_loop rounds job
          | Err e => do~ call (Op_Ask Ask_Stop) in Ret (Some (Err e))
          end
      | Some (Wake_Broken message) => do~ call (Op_Ask Ask_Stop) in Ret (Some (Err (AppError_Io message)))
      | Some Wake_Finished => Ret (Some (Ok false))
      | None =>
          do~ call (Op_Ask Ask_Stop) in
          Ret (Some (Err (AppError_Io "cancellation watcher disconnected")))
      end
  end.

(** [CancellationWatch::wait]; nothing while it waits *)
Definition wait_command (rounds : nat) (job : JobId) : Job (option (result JobEvent AppError)) :=
  let~ watched := watch_loop rounds job in
  match watched with
  | None => Ret None
  | Some watched =>
      let~ status := call (Op_Ask Ask_Exit) in
      let~ event :=
        prog_lift (let? cancelled := watched in
                   let? code := map_err AppError_Proc status in
                   Ok (if cancelled : bool then JobEvent_Killed
                       else JobEvent_Exited (default (-1)%Z code))) in
      match event with
      | Err e => Ret (Some (Err e))
      | Ok event =>
          let~ completion := call (Op_Ask (Ask_Completion event)) in
          Ret (Some (map_err AppError_Proc completion))
      end
  end.

Definition finish_logged (job : JobId) (completion : JobEvent) (stopped : result unit IoError)
    (relayed : option (result (N * N) IoError)) : Job (result unit AppError) :=
  do^ prog_lift (asked_io stopped) in
  do^ in_store (transition job completion) in
  prog_lift
    (match relayed with
     | None => Err (AppError_Io "the job output relay panicked")
     | Some (Err e) => Err (AppError_Io (io_text e))
     | Some (Ok _) => Ok tt
     end).

Definition run_logged (rounds : nat) (job : JobId) : Job (option (result unit AppError)) :=
  let~ spawned := call (Op_Ask Ask_Spawn) in
  match spawned with
  | Ok pid =>
      let~ running := in_store (transition job (JobEvent_Spawned pid)) in
      match running with
      | Err e => Ret (Some (Err e))
      | Ok _ =>
          let~ completion := wait_command rounds job in
          match completion with
          | None => Ret None
          | Some (Err e) => Ret (Some (Err e))
          | Some (Ok completion) =>
              let~ stopped := call (Op_Ask Ask_StopOutput) in
              let~ relayed := call (Op_Ask Ask_Relay) in
              let~ r := finish_logged job completion stopped relayed in
              Ret (Some r)
          end
      end
  | Err error =>
      let~ r := (let^ reason := prog_lift (launch_failure_reason (ProcessError_text error)) in
                 do^ in_store (transition job (JobEvent_LaunchFailed reason)) in
                 prog_ok tt) in
      Ret (Some r)
  end.

(** The body of [run_worker_at_using] from its second line on, while the alive lock is held: [None]
    where it waits. *)
Definition run_admitted (rounds : nat) (job : JobId) (input : Input) (required : bool) :
  Job (option (result unit AppError)) :=
  let~ permit := admit_loop rounds job in
  match permit with
  | None => Ret None
  | Some (Err e) => Ret (Some (Err e))
  | Some (Ok false) =>
      let~ r := (do^ in_store (transition job JobEvent_Killed) in prog_ok tt) in
      Ret (Some r)
  | Some (Ok true) =>
      let~ prepared :=
        (do^ (if required
              then do^ in_store (transition job JobEvent_Starting) in prog_ok tt
              else prog_ok tt) in
         do^ (match input with
              | Input_Home => let~ home := call (Op_Ask Ask_Home) in do^ prog_lift (asked_io home) in prog_ok tt
              | Input_Snapshot _ => in_store (workspace job)
              end) in
         let~ launch := call (Op_Ask (Ask_Prepare job)) in
         do^ prog_lift (asked_io launch) in
         let^ cancelled := in_store (cancel_requested job) in
         if cancelled : bool
         then do^ in_store (transition job JobEvent_Killed) in prog_ok false
         else do^ in_store (prog_err JobStoreError_State (open_append (paths job) LOG)) in prog_ok true) in
      match prepared with
      | Err e => Ret (Some (Err e))
      | Ok false => Ret (Some (Ok tt))
      | Ok true => run_logged rounds job
      end
  end.

Definition run_worker (rounds : nat) (job : JobId) : Job (option (result unit AppError)) :=
  let~ alive := in_store (worker_lock job) in
  match alive with
  | Err e => Ret (Some (Err e))
  | Ok None => Ret (Some (Ok tt))
  | Ok (Some alive) =>
      let~ started :=
        (let^ state := in_store (status job) in
         match JobState_kind state with
         | PhaseKind_Accepted =>
             let^ request := in_store (read_request job) in
             match request with
             | Request_Run _ _ input =>
                 let~ watch := call (Op_Ask (Ask_Watch job)) in
                 do^ prog_lift (map_err AppError_Notify watch) in
                 let~ limits := call (Op_Ask Ask_Limits) in
                 let^ required := prog_lift (asked_io limits) in
                 do^ in_store (transition job (if required : bool then JobEvent_Queued else JobEvent_Starting)) in
                 let~ announced := call (Op_Ask Ask_Announce) in
                 do^ prog_lift (map_err AppError_Proc announced) in
                 prog_ok (Some (input, required))
             | _ => prog_fail (AppError_Io "stored request is not a run")
             end
         | _ => prog_ok None
         end) in
      let~ r :=
        (match started with
         | Err e => Ret (Some (Err e))
         | Ok None => Ret (Some (Ok tt))
         | Ok (Some (input, required)) => run_admitted rounds job input required
         end) in
      match r with
      | None => Ret None
      | Some r => do~ drop_lock alive in Ret (Some r)
      end
  end.

(** [worker]; [None] while the supervisor waits *)
Definition worker (rounds : nat) (job : JobId) : Job (option (result unit AppError)) :=
  let~ opened := in_store open_store in
  let~ result :=
    (match opened with
     | Err e => Ret (Some (Err e))
     | Ok _ => run_worker rounds job
     end) in
  match result with
  | None => Ret None
  | Some (Ok _) => Ret (Some (Ok tt))
  | Some (Err error) =>
      let~ reopened := in_store open_store in
      match reopened with
      | Err _ => Ret (Some (Err error))
      | Ok _ =>
          let~ found := verify_job job in
          do~ (match found with
               | Err _ => Ret tt
               | Ok _ =>
                   let~ opened := open_append (paths job) SUPERVISOR_LOG in
                   match opened with
                   | Err _ => Ret tt
                   | Ok _ =>
                       let detail := of_chars (take MAX_FAILURE_DETAIL_CHARS (chars (app_text error))) in
                       do~ call (Op_Append (paths job) SUPERVISOR_LOG (bytes detail ++ [10])) in
                       Ret tt
                   end
               end) in
          match launch_failure_reason (app_text error) with
          | Err _ => Ret (Some (Err error))
          | Ok reason =>
              do~ finish_launch_failure job reason in
              Ret (Some (Err error))
          end
      end
  end.
End service.
