(* ===== verification/JobSteps.v ===== *)
(** What every process keeps to while it works on the job store, and what therefore holds of the store at all
    times: a published job is whole, its request and its place never change, its state only advances, and it is
    set aside only once it has finished.  Then each operation as a step that its process guarantees, and the
    rules by which the programs of [JobStore] are put together from them. *)

From Stdlib Require Import NArith ZArith Lia String Ascii.
From stdpp Require Import base gmap list strings.
From S2P Require Import Prelude SortedLists RustStr Domain JobState Wire Programs RustText JobDisk JobStore.

(** What the codecs promise: what was written is read back, and a state that was read is one the
    program could have. *)
Class JobLibrariesLaws `(libraries : JobLibraries) := {
  state_read_back : forall s b, wf_state s -> state_to_vec s = Some b -> state_from_slice b = Some s;
  state_read_wf : forall b s, state_from_slice b = Some s -> wf_state s;
  request_read_back : forall r b, request_to_vec r = Some b -> request_from_slice b = Some r
}.

Section guarantee.
Context `{laws : JobLibrariesLaws}.

(** ** The records of a job *)

Definition dir_state (d : JobDir) : option JobState :=
  JobDir_files d !! STATE ≫= fun b => match stored_job state_from_slice b with Ok s => Some s | Err _ => None end.
Definition dir_request (d : JobDir) : option Request :=
  JobDir_files d !! SPEC ≫= fun b => match decode_payload request_from_slice b with Ok r => Some r | Err _ => None end.
Definition dir_order (d : JobDir) : option N := JobDir_files d !! ORDER ≫= number_of_bytes.

Definition is_run (r : Request) : bool := match r with Request_Run _ _ _ => true | _ => false end.

Definition whole (d : JobDir) : Prop :=
  (exists r, dir_request d = Some r /\ is_run r = true) /\ is_Some (dir_state d) /\ is_Some (dir_order d).
Definition coreless (d : JobDir) : Prop :=
  JobDir_files d !! SPEC = None /\ JobDir_files d !! STATE = None /\ JobDir_files d !! ORDER = None.
Definition finished_dir (d : JobDir) : Prop :=
  exists s, dir_state d = Some s /\ JobState_kind s = PhaseKind_Finished.
(** What may be set aside: anything but a job that has not finished. *)
Definition disposable (d : JobDir) : Prop := whole d -> finished_dir d.

Definition same_core (d d' : JobDir) : Prop :=
  JobDir_inode d' = JobDir_inode d /\ JobDir_files d' !! SPEC = JobDir_files d !! SPEC /\
  JobDir_files d' !! STATE = JobDir_files d !! STATE /\ JobDir_files d' !! ORDER = JobDir_files d !! ORDER.

(** ** Moves *)

Definition holds (t : N) (l : LockId) (w : World) : Prop := locks w !! l = Some t.

Inductive move (t : N) (w w' : World) (name : string) : option Node -> option Node -> Prop :=
| move_same o : move t w w' name o o
| move_touched d d' :
    same_core d d' ->
    (is_Some (JobDir_workspace d) -> JobDir_workspace d' = JobDir_workspace d \/ disposable d) ->
    move t w w' name (Some (Node_dir d)) (Some (Node_dir d'))
| move_husk d :
    coreless d -> name ∈ published w -> move t w w' name None (Some (Node_dir d))
| move_advanced d d' s s' e :
    JobDir_inode d' = JobDir_inode d -> JobDir_workspace d' = JobDir_workspace d ->
    JobDir_files d' !! SPEC = JobDir_files d !! SPEC -> JobDir_files d' !! ORDER = JobDir_files d !! ORDER ->
    dir_state d = Some s -> dir_state d' = Some s' -> advance s e = (s', Ok tt) ->
    holds t (LockId_Job LockKind_State (JobDir_inode d)) w ->
    move t w w' name (Some (Node_dir d)) (Some (Node_dir d'))
| move_removed n :
    (forall d, n = Node_dir d -> disposable d) -> holds t LockId_Admission w ->
    move t w w' name (Some n) None
| move_published o d :
    whole d -> dir_state d = Some JobState_accepted ->
    (forall old, o = Some old -> exists d0, old = Node_dir d0 /\ coreless d0) ->
    (forall t', (t', name) ∈ users w -> t' ∈ ended w) -> name ∈ published w' ->
    holds t LockId_Admission w -> move t w w' name o (Some (Node_dir d)).

Definition lock_moved (t : N) (before after : option N) : Prop :=
  after = before \/ before = None /\ after = Some t \/ before = Some t /\ after = None.

Record guar (t : N) (w w' : World) : Prop := {
  guar_locks : forall l, lock_moved t (locks w !! l) (locks w' !! l);
  guar_published : published w ⊆ published w';
  guar_users : users w ⊆ users w';
  guar_ended : ended w ⊆ ended w';
  guar_staging : staging w' = staging w \/ holds t LockId_Admission w;
  guar_jobs : forall name, move t w w' name (jobs w !! name) (jobs w' !! name)
}.

Record Inv (w : World) : Prop := {
  inv_published : forall name, is_Some (jobs w !! name) -> name ∈ published w;
  inv_whole : forall name d, jobs w !! name = Some (Node_dir d) -> whole d \/ coreless d
}.

(** What the functions on one job leave alone *)
Record aside (t : N) (w w' : World) : Prop := {
  aside_staging : staging w' = staging w;
  aside_admission : locks w' !! LockId_Admission = locks w !! LockId_Admission;
  aside_published : published w' = published w
}.

(** and what those that do not touch a lock do, too. *)
Record calm (t : N) (w w' : World) : Prop := {
  calm_aside : aside t w w';
  calm_locks : locks w' = locks w
}.

(** A step of a process.  Each process has an identifier of its own, with which nothing is done once it
    is over.  A directory is published under a name as often as the code publishes it there, also when
    the job that had the name was set aside before; what is not followed is one that is published while
    a process that opened a lock of the earlier job is still at work: its lock file is gone, so what it
    locks keeps nobody out. *)
Definition exec (t : N) (op : Op) (w : World) (x : answer op) (w' : World) : Prop :=
  performs perform t op w x w' /\ t ∉ ended w /\
  forall name, op = Op_Publish name -> jobs w' <> jobs w -> forall t', (t', name) ∈ users w -> t' ∈ ended w.

(** ** What is known of a job *)

Definition known (name : string) (w : World) : Prop := name ∈ published w.
(** [t] is at work on the job, whose name is not given to another job as long as it is. *)
Definition uses (t : N) (name : string) (w : World) : Prop := known name w /\ (t, name) ∈ users w.
(** While it is at work, the job's directory is the one with the inode [i], or there is no job any more. *)
Definition tied (t : N) (name : string) (i : N) (w : World) : Prop :=
  uses t name w /\
  (t ∉ ended w -> forall d, directory w Area_Jobs name = Some d -> whole d -> JobDir_inode d = i).
Definition settled (t : N) (name : string) (w : World) : Prop :=
  uses t name w /\ (t ∉ ended w -> forall d, directory w Area_Jobs name = Some d -> disposable d).
(** Its state is [s], and not finished. *)
Definition recorded (t : N) (name : string) (s : JobState) (w : World) : Prop :=
  t ∉ ended w ->
  exists d, directory w Area_Jobs name = Some d /\ whole d /\ dir_state d = Some s /\
            JobState_kind s <> PhaseKind_Finished.

(** ** Lemmas *)

Lemma coreless_not_whole d : coreless d -> ~ whole d.
Proof. intros (_ & H & _) (_ & [s Hs] & _). unfold dir_state in Hs. by rewrite H in Hs. Qed.

Lemma same_core_refl d : same_core d d.
Proof. done. Qed.

Lemma same_core_state d d' : same_core d d' -> dir_state d' = dir_state d.
Proof. intros (_ & _ & H & _). unfold dir_state. by rewrite H. Qed.

Lemma same_core_whole d d' : same_core d d' -> whole d' <-> whole d.
Proof.
  intros Hc. pose proof (same_core_state _ _ Hc) as Hs. destruct Hc as (_ & H1 & _ & H3).
  unfold whole, dir_request, dir_order. by rewrite H1, H3, Hs.
Qed.

Lemma same_core_coreless d d' : same_core d d' -> coreless d' <-> coreless d.
Proof. intros (_ & H1 & H2 & H3). unfold coreless. by rewrite H1, H2, H3. Qed.

Lemma same_core_disposable d d' : same_core d d' -> disposable d' <-> disposable d.
Proof.
  intros Hc. unfold disposable, finished_dir. rewrite (same_core_whole _ _ Hc), (same_core_state _ _ Hc). done.
Qed.

Lemma advanced_whole d d' s s' :
  JobDir_files d' !! SPEC = JobDir_files d !! SPEC -> JobDir_files d' !! ORDER = JobDir_files d !! ORDER ->
  dir_state d = Some s -> dir_state d' = Some s' -> whole d' <-> whole d.
Proof.
  intros H1 H3 Hs Hs'. unfold whole, dir_request, dir_order. rewrite H1, H3, Hs, Hs'. split; intros (? & _ & ?); eauto.
Qed.

Lemma advance_unfinished s e s' : advance s e = (s', Ok tt) -> JobState_kind s <> PhaseKind_Finished.
Proof. destruct s as [[]]; cbn; try done. Qed.

(** *** Every step keeps the invariant *)

Lemma guar_Inv t w w' : guar t w w' -> Inv w -> Inv w'.
Proof.
  intros [_ Hp _ _ _ Hj] [Ip Iw]. split.
  - intros name [n Hn]. pose proof (Hj name) as Hm. rewrite Hn in Hm.
    inversion Hm as [? He|? ? ? ? He| |? ? ? ? ? ? ? ? ? ? ? ? ? He| |]; subst; auto; apply Hp, Ip; rewrite <- He; eauto.
  - intros name d Hn. pose proof (Hj name) as Hm. rewrite Hn in Hm.
    inversion Hm as [? He|d0 ? Hc ? He| |d0 ? s s' e ? ? H1 H2 Hs Hs' ? ? He| |]; subst; auto.
    + by apply (Iw name).
    + destruct (Iw name d0 (eq_sym He)) as [Hw|Hw]; [left; by apply (same_core_whole d0)|right; by apply (same_core_coreless d0)].
    + destruct (Iw name d0 (eq_sym He)) as [Hw|Hw]; [left; by apply (advanced_whole d0 d s s')|].
      destruct Hw as (_ & Hw & _). unfold dir_state in Hs. by rewrite Hw in Hs.
Qed.

Lemma directory_jobs w name d : directory w Area_Jobs name = Some d <-> jobs w !! name = Some (Node_dir d).
Proof. unfold directory, area. destruct (jobs w !! name) as [[]|]; naive_solver. Qed.

(** What a move leaves of a directory that is there afterwards, where no other is published *)
Lemma move_back t w w' name d' u :
  guar t w w' -> (u, name) ∈ users w -> u ∉ ended w ->
  directory w' Area_Jobs name = Some d' -> whole d' ->
  exists d, directory w Area_Jobs name = Some d /\ whole d /\ JobDir_inode d' = JobDir_inode d /\
    (dir_state d' = dir_state d \/
     exists s s' e, dir_state d = Some s /\ dir_state d' = Some s' /\ advance s e = (s', Ok tt) /\
       holds t (LockId_Job LockKind_State (JobDir_inode d)) w).
Proof.
  intros Hg Hu Hl Hd' Hw. apply directory_jobs in Hd'. pose proof (guar_jobs _ _ _ Hg name) as Hm.
  rewrite Hd' in Hm.
  inversion Hm as [? He|d0 ? Hc ? He|? Hcl ? He|d0 ? s s' e ? ? H1 H2 Hs Hs' ? ? He| |? ? ? ? ? Hends]; subst.
  - exists d'. split; [by apply directory_jobs|]. auto.
  - exists d0. split; [by apply directory_jobs|]. split; [by apply (same_core_whole d0 d')|].
    split; [apply Hc|]. left. by apply same_core_state.
  - by apply coreless_not_whole in Hcl.
  - exists d0. split; [by apply directory_jobs|]. split; [by apply (advanced_whole d0 d' s s')|].
    split; [done|]. right. exists s, s', e. done.
  - by destruct (Hl (Hends _ Hu)).
Qed.

Lemma known_lasting name : lasting Inv guar (known name).
Proof. intros t w w' _ Hg. apply (guar_published _ _ _ Hg). Qed.

Lemma uses_lasting u name : lasting Inv guar (uses u name).
Proof. intros t w w' _ Hg [Hk Hu]. split; [by apply (guar_published _ _ _ Hg)|by apply (guar_users _ _ _ Hg)]. Qed.

Lemma tied_lasting u name i : lasting Inv guar (tied u name i).
Proof.
  intros t w w' HI Hg [Hu Ht]. split; [by eapply uses_lasting|]. intros Hl d' Hd' Hw.
  assert (Hl' : u ∉ ended w) by (intros H; by apply Hl, (guar_ended _ _ _ Hg)).
  destruct (move_back _ _ _ _ _ u Hg (proj2 Hu) Hl' Hd' Hw) as (d & Hd & Hwd & -> & _). eauto.
Qed.

Lemma settled_lasting u name : lasting Inv guar (settled u name).
Proof.
  intros t w w' HI Hg [Hu Ht]. split; [by eapply uses_lasting|]. intros Hl d' Hd' Hw.
  assert (Hl' : u ∉ ended w) by (intros H; by apply Hl, (guar_ended _ _ _ Hg)).
  destruct (move_back _ _ _ _ _ u Hg (proj2 Hu) Hl' Hd' Hw) as (d & Hd & Hwd & _ & Hs).
  destruct (Ht Hl' d Hd Hwd) as (s & Hst & Hf). destruct Hs as [Hs|(s0 & s' & e & H1 & H2 & Ha & _)].
  - exists s. by rewrite Hs.
  - apply advance_unfinished in Ha. naive_solver.
Qed.

Lemma holds_stable t l : stable Inv guar t (holds t l).
Proof.
  intros t' w w' Ht _ Hg. unfold holds. intros Hl. destruct (guar_locks _ _ _ Hg l) as [->|[[H _]|[H _]]]; congruence.
Qed.

(** An unfinished state whose lock is held is what it was. *)
Lemma recorded_stable t name i s :
  stable Inv guar t (fun w => (holds t (LockId_Job LockKind_State i) w /\ tied t name i w) /\ recorded t name s w).
Proof.
  intros t' w w' Ht HI Hg [[Hl Hti] Hr].
  split; [split; [by eapply holds_stable|by eapply tied_lasting]|]. intros Hlive.
  assert (Hlive' : t ∉ ended w) by (intros H; by apply Hlive, (guar_ended _ _ _ Hg)).
  destruct (Hr Hlive') as (d & Hd & Hw & Hs & Hu).
  assert (Hi : JobDir_inode d = i) by (by apply Hti). apply directory_jobs in Hd.
  pose proof (guar_jobs _ _ _ Hg name) as Hm. rewrite Hd in Hm.
  inversion Hm as [? He|d0 d' Hc ? He|? ?|d0 d' s0 s' e ? ? H1 H2 Hs0 Hs' ? Hl' He|n Hdis ?|o d' ? ? Hold]; subst.
  - exists d. by rewrite directory_jobs.
  - exists d'. rewrite directory_jobs. split; [done|]. split; [by apply (same_core_whole d d')|].
    split; [|done]. by rewrite (same_core_state d d').
  - unfold holds in *. congruence.
  - destruct (Hdis d eq_refl Hw) as (s1 & Hs1 & Hf). naive_solver.
  - destruct (Hold _ eq_refl) as (d0 & [= <-] & Hc). by apply coreless_not_whole in Hc.
Qed.
End guarantee.

Section steps.
Context `{laws : JobLibrariesLaws}.

Abbreviation guarantee := (guar (libraries := libraries)).
Abbreviation invariant := (Inv (libraries := libraries)).
Abbreviation oks := (ok exec invariant guarantee).
Abbreviation steady := (stable invariant guarantee).
Abbreviation forever := (lasting invariant guarantee).

Lemma faulty_cases {T E} c (convert : StateError -> E) w w1 (r x : result T E) w2 :
  faulty c convert w w1 r = (w2, x) ->
  w2 = w /\ (exists e, x = Err e) \/ w2 = w1 /\ (x = r \/ exists e, x = Err e).
Proof. unfold faulty. destruct (Choice_fault c) as [[]|]; intros [= <- <-]; eauto. Qed.

Lemma refusable_cases {T E} c (convert : StateError -> E) w w1 (r x : result T E) w2 :
  refusable c convert w w1 r = (w2, x) -> w2 = w /\ (exists e, x = Err e) \/ w2 = w1 /\ x = r.
Proof. unfold refusable. destruct (Choice_fault c) as [[]|]; intros [= <- <-]; eauto. Qed.

Lemma lock_moved_refl t o : lock_moved t o o.
Proof. by left. Qed.

Lemma guar_refl t w : guarantee t w w.
Proof. split; [intros l; apply lock_moved_refl|done|done|done|by left|intros name; apply move_same]. Qed.

Lemma aside_refl t w : aside t w w.
Proof. done. Qed.

Lemma calm_refl t w : calm t w w.
Proof. done. Qed.

(** *** Rules for programs *)

Lemma ok_step t (G : World -> World -> Prop) P op Q :
  (forall w x w', invariant w -> P w -> exec t op w x w' -> guarantee t w w' /\ G w w' /\ Q x w') ->
  (forall x, steady t (Q x)) -> oks t G P (call op) Q.
Proof.
  intros H Hs. apply ok_call; [|done]. intros w x w' Hi Hp He. destruct (H w x w' Hi Hp He) as (Hg & HG & HQ).
  split; [by eapply guar_Inv|done].
Qed.

(** A program that may be run wherever the lasting fact [K] holds, and leaves the rest alone *)
Definition runs {T} (t : N) (K : World -> Prop) (p : Job T) (Q : T -> World -> Prop) : Prop :=
  oks t (calm t) K p Q.

(** What holds when a program has answered, if it has not failed *)
Definition on_ok {T E} (Q : T -> World -> Prop) (r : result T E) (w : World) : Prop :=
  match r with Ok a => Q a w | Err _ => True end.

Lemma on_ok_stable {T E} t (Q : T -> World -> Prop) (r : result T E) :
  (forall a, steady t (Q a)) -> steady t (on_ok Q r).
Proof. intros H. destruct r; [apply H|apply stable_const]. Qed.

Lemma ok_err_ok {T E F} t G P (f : E -> F) (p : Job (result T E)) Q :
  oks t G P p (on_ok Q) -> oks t G P (prog_err f p) (on_ok Q).
Proof. intros H. apply ok_err. eapply ok_post; [exact H|]. by intros [] w. Qed.

Lemma ok_try_ok {A B E} t G P (p : Job (result A E)) (f : A -> Job (result B E)) R Q :
  oks t G P p (on_ok R) -> (forall a, oks t G (R a) (f a) (on_ok Q)) -> oks t G P (prog_try p f) (on_ok Q).
Proof. intros Hp Hf. eapply ok_try; [exact Hp|exact Hf|done]. Qed.

Lemma ok_lift {A E} t G (P : World -> Prop) (r : result A E) Q :
  (forall a w, invariant w -> P w -> r = Ok a -> Q a w) -> oks t G P (prog_lift r) (on_ok Q).
Proof. intros H w Hi Hp. destruct r; cbn; auto. Qed.

Lemma ok_ret_ok {A E} t G (P : World -> Prop) (a : A) (Q : A -> World -> Prop) :
  (forall w, invariant w -> P w -> Q a w) -> oks t G P (prog_ok (E := E) a) (on_ok Q).
Proof. intros H w Hi Hp. cbn. auto. Qed.

Lemma ok_fail_ok {A E} t G P (e : E) (Q : A -> World -> Prop) : oks t G P (prog_fail e) (on_ok Q).
Proof. by intros w. Qed.

(** *** Reading *)

Definition read_only (op : Op) : bool :=
  match op with
  | Op_Stat _ _ | Op_StatWorkspace _ _ | Op_StatInside _ _ | Op_Read _ _ | Op_List _ | Op_FindLock _
  | Op_GrantTrash _ | Op_Entropy | Op_Ask _ => true
  | _ => false
  end.

Ltac performed He :=
  let c := fresh "c" in destruct He as [[c He] _]; cbn [perform] in He; try (injection He as He).

Ltac faults He :=
  first [ apply faulty_cases in He as [[-> [? ->]] | [-> He]]
        | apply refusable_cases in He as [[-> [? ->]] | [-> He]] ].

Lemma read_only_same t op w x w' : read_only op = true -> exec t op w x w' -> w' = w.
Proof.
  destruct op; try done; intros _ He; performed He;
    try (first [ by faults He | repeat case_match; first [ by faults He | congruence ] ]).
Qed.

Lemma ok_read t G (P : World -> Prop) op Q :
  read_only op = true -> (forall w, G w w) -> (forall x, steady t (Q x)) ->
  (forall w x, invariant w -> P w -> exec t op w x w -> Q x w) -> oks t G P (call op) Q.
Proof.
  intros Hr HG Hs H. apply ok_step; [|done]. intros w x w' Hi Hp He.
  pose proof (read_only_same _ _ _ _ _ Hr He) as ->. split; [apply guar_refl|]. split; [done|]. by apply (H w x).
Qed.

(** *** Changes of one directory of [jobs] *)

Lemma guar_one t w w' name n :
  jobs w' = <[name := n]> (jobs w) -> locks w' = locks w -> staging w' = staging w -> published w' = published w ->
  users w' = users w -> ended w' = ended w ->
  move t w w' name (jobs w !! name) (Some n) -> guarantee t w w' /\ calm t w w'.
Proof.
  intros Hj Hl Hs Hp Hus He Hm. split; [split; rewrite ?Hl, ?Hp, ?Hus, ?He; try done; [intros l; apply lock_moved_refl|by left|]|].
  2:{ split; [split; by rewrite ?Hl|done]. }
  intros name'. rewrite Hj. destruct (decide (name' = name)) as [->|Hne].
  - by rewrite lookup_insert_eq.
  - rewrite lookup_insert_ne by done. apply move_same.
Qed.

(** Changes elsewhere *)
Lemma guar_none t w w' :
  jobs w' = jobs w -> locks w' = locks w -> staging w' = staging w -> published w' = published w ->
  users w ⊆ users w' -> ended w' = ended w ->
  guarantee t w w' /\ calm t w w'.
Proof.
  intros Hj Hl Hs Hp Hus He. split; [split; rewrite ?Hj, ?Hl, ?Hp, ?He; try done; [intros l; apply lock_moved_refl|by left|]|].
  2:{ split; [split; by rewrite ?Hl|done]. }
  intros name. apply move_same.
Qed.

(** Changes of a lock *)
Lemma guar_lock t w l o :
  lock_moved t (locks w !! l) o ->
  guarantee t w (set_locks w (partial_alter (fun _ => o) l (locks w))) /\
  (l <> LockId_Admission -> aside t w (set_locks w (partial_alter (fun _ => o) l (locks w)))).
Proof.
  intros Hm. split; [split|intros Hne; split]; cbn; try done; [|by left|intros name; apply move_same|].
  - intros l'. destruct (decide (l' = l)) as [->|Hne]; [by rewrite lookup_partial_alter_eq|].
    rewrite lookup_partial_alter_ne by done. apply lock_moved_refl.
  - by rewrite lookup_partial_alter_ne by done.
Qed.

Lemma set_directory_jobs w name d : jobs (set_directory w Area_Jobs name d) = <[name := Node_dir d]> (jobs w).
Proof. done. Qed.

Lemma touched_step t w name d d' :
  directory w Area_Jobs name = Some d -> same_core d d' ->
  (is_Some (JobDir_workspace d) -> JobDir_workspace d' = JobDir_workspace d \/ disposable d) ->
  guarantee t w (set_directory w Area_Jobs name d') /\ calm t w (set_directory w Area_Jobs name d').
Proof.
  intros Hd Hc Hw. apply (guar_one t w _ name (Node_dir d')); try done.
  apply directory_jobs in Hd. rewrite Hd. by apply move_touched.
Qed.

Definition noncore (file : string) : Prop := file <> SPEC /\ file <> STATE /\ file <> ORDER.

Lemma noncore_core d files file v :
  noncore file -> (files = <[file := v]> (JobDir_files d) \/ files = delete file (JobDir_files d)) ->
  same_core d (mkJobDir (JobDir_inode d) files (JobDir_workspace d)).
Proof.
  intros (H1 & H2 & H3) [-> | ->]; unfold same_core; cbn;
    rewrite ?lookup_insert_ne, ?lookup_delete_ne by done; done.
Qed.

(** Where a file may be written without a job being changed *)
Definition outside (p : Place) (file : string) : Prop :=
  match p with Place_Job Area_Jobs _ => noncore file | Place_Job Area_Staging _ => False | _ => True end.

Lemma outside_step t w p file files v :
  outside p file -> files_at w p = Some files ->
  forall files', files' = <[file := v]> files \/ files' = delete file files ->
  guarantee t w (set_files w p files') /\ calm t w (set_files w p files').
Proof.
  intros Ho Hf files' Hf'. destruct p as [| | |[] name]; cbn in Ho, Hf; try done; try (by apply guar_none).
  destruct (directory w Area_Jobs name) as [d|] eqn:Hd; cbn in Hf; [|done]. injection Hf as <-.
  cbn [set_files]. rewrite Hd. apply (touched_step t w name d); [done|by eapply noncore_core|by left].
Qed.

Definition file_op (op : Op) : option (Place * string) :=
  match op with
  | Op_Replace p f _ | Op_Append p f _ | Op_Create p f | Op_Remove p f => Some (p, f)
  | _ => None
  end.

Lemma file_op_step t op p file w x w' :
  file_op op = Some (p, file) -> outside p file -> exec t op w x w' -> guarantee t w w' /\ calm t w w'.
Proof.
  intros Hop Ho He.
  assert (Hsame : guarantee t w w /\ calm t w w) by (split; [apply guar_refl|done]).
  destruct op; try done; cbn in Hop; injection Hop as -> ->; performed He;
    destruct (files_at w p) as [files|] eqn:Hf; repeat case_match;
    try (injection He as <- <-; exact Hsame); faults He; try exact Hsame;
    first [ eapply outside_step; [exact Ho|exact Hf|by left]
          | apply (outside_step t w p file files [] Ho Hf); by right ].
Qed.

Lemma ok_file_op t K op p file :
  file_op op = Some (p, file) -> outside p file -> forever K ->
  runs t K (call op) (fun _ => K).
Proof.
  intros Hop Ho HK. apply ok_step; [|intros _; by apply lasting_stable].
  intros w x w' Hi Hp He. destruct (file_op_step _ _ _ _ _ _ _ Hop Ho He) as [Hg Ha]. eauto.
Qed.

(** *** Making directories *)

Lemma make_directory_step t w name :
  known name w ->
  guarantee t w (make_directory w Area_Jobs name) /\ calm t w (make_directory w Area_Jobs name).
Proof.
  intros Hk. unfold make_directory. cbn [area]. destruct (jobs w !! name) as [n|] eqn:Hn.
  { split; [apply guar_refl|done]. }
  apply (guar_one t w _ name (Node_dir (mkJobDir (next_inode w) ∅ None))); try done.
  rewrite Hn. by apply move_husk.
Qed.

Lemma ok_private_dir t K name :
  forever K -> (forall w, K w -> known name w) -> runs t K (private_dir Area_Jobs name) (fun _ => K).
Proof.
  intros HK Hk. apply ok_step; [|intros _; by apply lasting_stable].
  intros w x w' Hi Hp He. performed He.
  pose proof (make_directory_step t w name (Hk w Hp)) as [Hg Ha].
  faults He; [split_and!; [apply guar_refl|done|done]|]. split_and!; [done|done|by eapply HK].
Qed.

(** Where the directory is there, it is found. *)
Lemma private_dir_present t w a name d x w' :
  directory w a name = Some d -> exec t (Op_MakeDirectory a name) w x w' -> w' = w.
Proof.
  intros Hd He. performed He. unfold make_directory in He. unfold directory in Hd.
  destruct (area w a !! name); [|done]. by faults He.
Qed.

Lemma ok_make_workspace t K name :
  forever K -> runs t K (call (Op_MakeWorkspace Area_Jobs name)) (fun _ => K).
Proof.
  intros HK. apply ok_step; [|intros _; by apply lasting_stable].
  intros w x w' Hi Hp He. performed He.
  assert (Hsame : guarantee t w w /\ calm t w w /\ K w) by (split_and!; [apply guar_refl|done|done]).
  destruct (directory w Area_Jobs name) as [d|] eqn:Hd; [|by injection He as <- <-].
  destruct (JobDir_workspace d) as [ws|] eqn:Hws; [by faults He|]. faults He; [done|].
  unfold set_workspace. rewrite Hd.
  assert (Hs : guarantee t w (set_directory w Area_Jobs name (mkJobDir (JobDir_inode d) (JobDir_files d) (Some Workspace_empty)))
     /\ calm t w (set_directory w Area_Jobs name (mkJobDir (JobDir_inode d) (JobDir_files d) (Some Workspace_empty)))).
  { apply (touched_step t w name d); [done|done|]. rewrite Hws. by intros [??]. }
  destruct Hs as [Hg Ha]. split_and!; [done|done|by eapply HK].
Qed.
(** *** Locks *)

Lemma create_lock_step t w l : guarantee t w (create_lock w l) /\ calm t w (create_lock w l).
Proof.
  assert (Hsame : guarantee t w w /\ calm t w w) by (split; [apply guar_refl|done]).
  destruct l as [| | |kind name]; try exact Hsame. unfold create_lock. cbn [files_at].
  destruct (directory w Area_Jobs name) as [d|] eqn:Hd; cbn [fmap option_fmap option_map]; [|exact Hsame].
  case_bool_decide; [exact Hsame|]. cbn [set_files]. rewrite Hd.
  apply (touched_step t w name d); [done| |by left].
  eapply noncore_core; [|by left]. by destruct kind.
Qed.

Lemma guar_trans_user t w w' l :
  guarantee t w w' /\ calm t w w' -> guarantee t w (mark_user w' t l) /\ calm t w (mark_user w' t l).
Proof.
  intros [[H1 H2 H3 H4 H5 H6] [[A1 A2 A3] B]]. destruct l as [| | |kind name]; [done|done|done|].
  split; [split; cbn; try done; [set_solver|]|split; [split|]; done]. intros name'.
  destruct (H6 name'); by econstructor.
Qed.

Lemma create_lock_directory w l name :
  JobDir_inode <$> directory (create_lock w l) Area_Jobs name = JobDir_inode <$> directory w Area_Jobs name.
Proof.
  destruct l as [| | |kind name']; try done. unfold create_lock. cbn [files_at].
  destruct (directory w Area_Jobs name') as [d|] eqn:Hd; cbn [fmap option_fmap option_map]; [|done].
  case_bool_decide; [done|]. cbn [set_files]. rewrite Hd. unfold set_directory, directory, set_area, area. cbn [jobs].
  destruct (decide (name = name')) as [->|Hne]; [|by rewrite lookup_insert_ne].
  rewrite lookup_insert_eq. unfold directory, area in Hd.
  destruct (jobs w !! name') as [[]|]; try done. by injection Hd as ->.
Qed.

(** What is known of a lock that was opened *)
Definition opened (t : N) (l : LockName) (id_ : LockId) (w : World) : Prop :=
  match l with
  | LockName_Order => id_ = LockId_Order
  | LockName_Admission => id_ = LockId_Admission
  | LockName_Incoming => id_ = LockId_Incoming
  | LockName_Job kind name => exists i, id_ = LockId_Job kind i /\ tied t name i w
  end.

Lemma opened_lasting u l id_ : forever (opened u l id_).
Proof.
  destruct l as [| | |kind name]; try (intros t w w' _ _; done).
  intros t w w' Hi Hg (i & -> & Ht). exists i. split; [done|]. by eapply tied_lasting.
Qed.

Lemma opened_admission t l id_ w : opened t l id_ w -> id_ = LockId_Admission -> l = LockName_Admission.
Proof. destruct l; cbn; [intros ->|done|intros ->|intros (? & -> & _)]; done. Qed.

Definition lock_known (l : LockName) (w : World) : Prop :=
  match l with LockName_Job _ name => known name w | _ => True end.

Lemma ok_open_lock t K l :
  forever K -> (forall w, K w -> lock_known l w) ->
  runs t K (open_lock l) (on_ok (fun id_ w => K w /\ opened t l id_ w)).
Proof.
  intros HK Hk. unfold open_lock. eapply ok_try_ok with (R := fun _ => K).
  - destruct l as [| | |kind name]; cbn [lock_parent parent_dir];
      try (apply (ok_ret_ok t (calm t) K tt (fun _ => K)); auto).
    eapply ok_post; [by apply ok_private_dir|]. by intros [] w.
  - intros _. apply ok_step; [|intros x; apply on_ok_stable; intros id_; apply stable_and;
      [by apply lasting_stable|apply lasting_stable, opened_lasting]].
    intros w x w' Hi Hp He. performed He.
    assert (Hsame : guarantee t w w /\ calm t w w) by (split; [apply guar_refl|done]).
    pose proof (guar_trans_user t w _ l (create_lock_step t w l)) as [Hg Ha].
    destruct (lock_id w l) as [id_|] eqn:Hid; [|injection He as <- <-; by split_and!; try apply Hsame].
    unfold faulty in He. destruct (Choice_fault c) as [[]|]; injection He as <- <-;
      (split_and!; [done || apply Hsame|done|]); try done.
    split; [by eapply HK|]. destruct l as [| | |kind name]; cbn [lock_id] in Hid; try (by injection Hid as <-).
    apply fmap_Some in Hid as (d & Hd & ->). exists (JobDir_inode d). split; [done|].
    split; [split; [apply (guar_published _ _ _ Hg), (Hk w Hp)|cbn; set_solver]|].
    intros _ d' Hd' _. pose proof (create_lock_directory w (LockName_Job kind name) name) as Hc.
    change (directory (create_lock w (LockName_Job kind name)) Area_Jobs name = Some d') in Hd'.
    rewrite Hd, Hd' in Hc. cbn in Hc. by injection Hc.
Qed.

(** Taking a lock, whose name tells where it may be taken *)
Lemma lock_taken t w l :
  locks w !! l = None ->
  guarantee t w (set_locks w (<[l := t]> (locks w))) /\
  (l <> LockId_Admission -> aside t w (set_locks w (<[l := t]> (locks w)))) /\
  holds t l (set_locks w (<[l := t]> (locks w))).
Proof.
  intros Hl. destruct (guar_lock t w l (Some t)) as [Hg Ha]; [right; left; done|].
  split; [exact Hg|]. split; [exact Ha|]. unfold holds. cbn. apply lookup_insert_eq.
Qed.

Lemma ok_lock t (G : World -> World -> Prop) K id_ :
  forever K -> (forall w, G w w) ->
  (forall w, K w -> locks w !! id_ = None -> G w (set_locks w (<[id_ := t]> (locks w)))) ->
  oks t G K (call (Op_Lock id_)) (on_ok (fun _ w => K w /\ holds t id_ w)).
Proof.
  intros HK HG HG'. apply ok_step.
  2:{ intros x. apply on_ok_stable. intros _. apply stable_and; [by apply lasting_stable|apply holds_stable]. }
  intros w x w' Hi Hp He. destruct He as [[c He] _]. cbn [perform] in He.
  destruct (locks w !! id_) as [o|] eqn:Hl.
  - destruct (Choice_fault c) as [[]|]; try done. injection He as <- <-. by split_and!; [apply guar_refl|..].
  - injection He as He. pose proof (lock_taken t w id_ Hl) as (Hg & Ha & Hh).
    faults He; [by split_and!; [apply guar_refl|..]|]. subst x. split_and!; [done|by apply HG'|]. split; [by eapply HK|done].
Qed.

Lemma ok_exclusive t K l :
  l <> LockName_Admission -> forever K -> (forall w, K w -> lock_known l w) ->
  oks t (aside t) K (exclusive l) (on_ok (fun id_ w => (K w /\ opened t l id_ w) /\ holds t id_ w)).
Proof.
  intros Hne HK Hk. unfold exclusive. eapply ok_try_ok; [apply ok_err_ok; eapply ok_within; [by apply calm_aside|by apply ok_open_lock]|].
  intros id_. eapply ok_try_ok with (R := fun _ w => (K w /\ opened t l id_ w) /\ holds t id_ w).
  - apply ok_err_ok. apply ok_lock; [apply lasting_and; [done|apply opened_lasting]|done|].
    intros w [_ Ho] Hl. apply (lock_taken t w id_ Hl). intros ->. by apply Hne, (opened_admission _ _ _ _ Ho).
  - intros _. by apply ok_ret_ok.
Qed.

(** [aside] also when the lock is given back *)
Lemma ok_unlock t (G : World -> World -> Prop) K id_ :
  forever K -> (forall w, G w w) -> (forall w, G w (set_locks w (delete id_ (locks w)))) ->
  oks t G K (call (Op_Unlock id_)) (fun _ => K).
Proof.
  intros HK HG HG'. apply ok_step; [|intros _; by apply lasting_stable].
  intros w x w' Hi Hp He. destruct He as [[c He] _]. cbn [perform] in He. injection He as <- <-.
  case_decide as Hd.
  - destruct (guar_lock t w id_ None) as [Hg _]; [right; right; done|]. split_and!; [exact Hg|done|by eapply HK].
  - by split_and!; [apply guar_refl|..].
Qed.

Lemma aside_unlock t w id_ : id_ <> LockId_Admission -> aside t w (set_locks w (delete id_ (locks w))).
Proof. intros Hne. split; cbn; [done|by rewrite lookup_delete_ne|done]. Qed.

(** The guarded part of a program: the lock is held at its start, and given back at its end. *)
Lemma ok_holding {T E} t K l id_ (body : Job (result T E)) P Q :
  l <> LockName_Admission -> (forall w, P w -> opened t l id_ w) ->
  (forall a, forever (Q a)) -> forever K ->
  oks t (aside t) P body (fun r w => K w /\ opened t l id_ w /\ on_ok Q r w) ->
  oks t (aside t) P (holding id_ body) (fun r w => K w /\ on_ok Q r w).
Proof.
  intros Hne Hop HQ HK Hbody. unfold holding. eapply ok_bind; [exact Hbody|].
  intros r. destruct (decide (id_ = LockId_Admission)) as [->|Hid].
  { eapply ok_pre with (P := fun _ => False); [|intros w _ (_ & Ho & _); by apply Hne, (opened_admission _ _ _ _ Ho)].
    exists (fun _ _ => False). split; [done|]. split; [intros _; apply stable_const|done]. }
  eapply ok_bind with (R := fun _ w => K w /\ on_ok Q r w).
  - eapply ok_pre; [|intros w _ (H1 & _ & H2); exact (conj H1 H2)].
    apply ok_unlock; [|done|intros w; by apply aside_unlock].
    apply lasting_and; [done|]. destruct r; [apply HQ|apply lasting_const].
  - intros _ w _. done.
Qed.
End steps.
