(* ===== verification/JobFunctions.v ===== *)
(** The functions of the job store, each run by one process among others: what each keeps to, and what
    is known when it has answered. *)

From Stdlib Require Import NArith ZArith Lia String Ascii.
From stdpp Require Import base gmap list strings.
From S2P Require Import Prelude SortedLists RustStr RustText Domain JobState Wire Programs JobDisk JobStore JobSteps.

Section functions.
Context `{laws : JobLibrariesLaws}.

Abbreviation guarantee := (guar (libraries := libraries)).
Abbreviation invariant := (Inv (libraries := libraries)).
Abbreviation oks := (ok exec invariant guarantee).
Abbreviation steady := (stable invariant guarantee).
Abbreviation forever := (lasting invariant guarantee).
Abbreviation runs := (runs (libraries := libraries)).

Lemma true_lasting : forever (fun _ => True).
Proof. by intros t w w'. Qed.

(** Where nothing need be known, anything may be. *)
Lemma ok_any {T} t G (P : World -> Prop) (p : Job T) Q : oks t G (fun _ => True) p Q -> oks t G P p Q.
Proof. intros H. eapply ok_pre; [exact H|done]. Qed.

Lemma ok_calm {T} t P (p : Job T) Q : oks t (calm t) P p Q -> oks t (aside t) P p Q.
Proof. apply ok_within. by intros w w' []. Qed.

(** Framing what lasts, and keeping only what was learned *)
Lemma ok_keep {T E} t G P K (p : Job (result T E)) (Q : T -> World -> Prop) :
  forever K -> oks t G P p (on_ok Q) ->
  oks t G (fun w => P w /\ K w) p (on_ok (fun a w => Q a w /\ K w)).
Proof. intros HK Hp. eapply ok_post; [by apply ok_lasting|]. intros [a|e] w _ [HQ Hk]; cbn in *; auto. Qed.

(** *** Reading and writing *)

Lemma ok_read_only t G op (Q : answer op -> World -> Prop) (P : World -> Prop) :
  read_only op = true -> (forall w, G w w) -> (forall x w, Q x w) -> oks t G P (call op) Q.
Proof.
  intros Hr HG HQ. eapply ok_post.
  - apply (ok_read t G P op (fun _ _ => True)); [done|done|intros _; apply stable_const|done].
  - intros a w _ _. apply HQ.
Qed.

(** Reading a file, of which nothing is learned *)
Lemma ok_read_bytes t G p file P : (forall w, G w w) -> oks t G P (read_bytes p file) (on_ok (fun _ _ => True)).
Proof.
  intros HG. unfold read_bytes. eapply ok_try_ok with (R := fun _ _ => True).
  - apply ok_read_only; [done|done|]. by intros [].
  - intros [bytes|]; [destruct (_ <? _)|]; by intros w.
Qed.

Lemma ok_write_bytes t p file bytes K :
  outside p file -> forever K -> (forall w, K w -> match p with Place_Job _ name => known name w | _ => True end) ->
  runs t K (write_bytes p file bytes) (on_ok (fun _ => K)).
Proof.
  intros Ho HK Hk. unfold write_bytes. destruct (_ <? _); [by intros w|].
  eapply ok_try_ok with (R := fun _ => K).
  - destruct p as [| | |[] name]; cbn [parent_dir]; try (by intros w).
    + eapply ok_post; [by apply ok_private_dir|]. by intros [] w.
    + by destruct Ho.
  - intros _. eapply ok_post; [by apply (ok_file_op t K _ p file)|]. by intros [] w.
Qed.

Lemma ok_open_append t p file K :
  outside p file -> forever K -> (forall w, K w -> match p with Place_Job _ name => known name w | _ => True end) ->
  runs t K (open_append p file) (on_ok (fun _ => K)).
Proof.
  intros Ho HK Hk. unfold open_append. eapply ok_try_ok with (R := fun _ => K).
  - destruct p as [| | |[] name]; cbn [parent_dir]; try (by intros w).
    + eapply ok_post; [by apply ok_private_dir|]. by intros [] w.
    + by destruct Ho.
  - intros _. eapply ok_post; [by apply (ok_file_op t K _ p file)|]. by intros [] w.
Qed.

Lemma ok_verify_job t (job : JobId) :
  runs t (fun _ => True) (verify_job job) (on_ok (fun _ => known (as_str job))).
Proof.
  unfold verify_job. eapply ok_try_ok with (R := fun k w => is_Some k -> known (as_str job) w).
  - apply ok_err_ok. apply ok_read; [done|done| |].
    + intros x. apply on_ok_stable. intros k t' w w' _ Hi Hg Hk Hs. eapply known_lasting; eauto.
    + intros w x Hi _ He. destruct He as [[c He] _]. cbn [perform] in He. injection He as He.
      apply faulty_cases in He as [[_ [e ->]] | [_ [-> | [e ->]]]]; cbn; try done.
      intros Hs. apply (inv_published _ Hi). by destruct (jobs w !! as_str job); [|destruct Hs].
  - intros [[]|]; try (apply ok_fail_ok).
    eapply ok_pre with (P := known (as_str job)); [|intros w _ Hk; by apply Hk].
    apply ok_err_ok. eapply ok_post; [apply ok_private_dir; [apply known_lasting|done]|]. by intros [] w.
Qed.

Lemma ok_verified {T} t G K (job : JobId) (f : Job (result T JobStoreError)) Q :
  (forall w w', calm t w w' -> G w w') ->
  oks t G (known (as_str job)) f (on_ok Q) ->
  oks t G K (do^ verify_job job in f) (on_ok Q).
Proof.
  intros HG Hf. eapply ok_try_ok with (R := fun _ => known (as_str job)); [|intros _; exact Hf].
  apply ok_any. eapply ok_within; [exact HG|apply ok_verify_job].
Qed.

Lemma ok_read_request t (job : JobId) :
  runs t (fun _ => True) (read_request job) (on_ok (fun _ => known (as_str job))).
Proof.
  apply ok_verified; [done|]. eapply ok_try_ok with (R := fun _ => known (as_str job)).
  - apply ok_err_ok. eapply ok_post.
    + eapply ok_pre; [apply (ok_keep t _ (fun _ => True) (known (as_str job)));
        [apply known_lasting|by apply ok_read_bytes]|]. by intros w.
    + by intros [] w _ []. 
  - intros [bytes|]; [|apply ok_fail_ok]. apply ok_lift. by intros a w.
Qed.

(** *** Under the lock of a job's state *)

(** The state lock of the directory that was opened is held. *)
Definition critical (t : N) (name : string) (i : N) (w : World) : Prop :=
  holds t (LockId_Job LockKind_State i) w /\ tied t name i w.

Lemma critical_stable t name i : steady t (critical t name i).
Proof. apply stable_and; [apply holds_stable|apply lasting_stable, tied_lasting]. Qed.

(** What a state that was read under the lock says *)
Definition learned (t : N) (name : string) (s : JobState) (w : World) : Prop :=
  wf_state s /\ (JobState_kind s = PhaseKind_Finished -> settled t name w) /\
  (JobState_kind s <> PhaseKind_Finished -> recorded t name s w).

Lemma learned_stable t name i s : steady t (fun w => critical t name i w /\ learned t name s w).
Proof.
  intros t' w w' Ht Hi Hg [Hc (Hwf & Hf & Hu)]. split; [by eapply critical_stable|]. split; [done|]. split.
  - intros H. eapply settled_lasting; eauto.
  - intros H. eapply (recorded_stable t name i s); eauto.
Qed.

Lemma critical_calm t name i w w' :
  invariant w -> critical t name i w -> guarantee t w w' -> calm t w w' -> critical t name i w'.
Proof.
  intros Hi [Hh Ht] Hg [_ Hl]. split; [|by eapply tied_lasting]. unfold holds. by rewrite Hl.
Qed.

Lemma ok_critical {T E} t name i P (p : Job (result T E)) Q :
  oks t (calm t) P p (on_ok Q) ->
  oks t (calm t) (fun w => P w /\ critical t name i w) p (on_ok (fun a w => Q a w /\ critical t name i w)).
Proof.
  intros Hp. unfold critical.
  eapply ok_pre with (P := fun w => (P w /\ holds t (LockId_Job LockKind_State i) w) /\ tied t name i w);
    [|intros w _ (? & ? & ?); auto].
  eapply ok_post.
  - apply ok_lasting; [apply tied_lasting|]. apply ok_frame; [apply holds_stable| |exact Hp].
    intros w w' _ Hh [_ Hl]. unfold holds in *. by rewrite Hl.
  - intros [a|e] w _ [[H1 H2] H3]; cbn in *; auto.
Qed.

Lemma ok_read_state t (job : JobId) i :
  runs t (critical t (as_str job) i) (read_state job)
    (on_ok (fun s w => critical t (as_str job) i w /\ learned t (as_str job) s w)).
Proof.
  set (name := as_str job). unfold read_state.
  eapply ok_try_ok with (R := fun _ => critical t name i).
  { eapply ok_post; [eapply ok_pre; [apply (ok_critical t name i (fun _ => True)), ok_verify_job|]|].
    - by intros w.
    - by intros [] w _ []. }
  intros _. eapply ok_try_ok with (R := fun found w => critical t name i w /\
    match found with
    | Some bytes => forall s, stored_job state_from_slice bytes = Ok s -> learned t name s w
    | None => True
    end).
  - apply ok_err_ok. unfold read_bytes. eapply ok_try_ok with (R := fun found w => critical t name i w /\
      match found with
      | Some bytes => forall s, stored_job state_from_slice bytes = Ok s -> learned t name s w
      | None => True
      end).
    + apply ok_read; [done|done| |].
      * intros x. apply on_ok_stable. intros [bytes|]; [|apply stable_and; [apply critical_stable|apply stable_const]].
        intros t' w w' Ht Hi Hg [Hc Hl]. split; [by eapply critical_stable|]. intros s Hs.
        by destruct (learned_stable t name i s t' w w' Ht Hi Hg (conj Hc (Hl s Hs))).
      * intros w x Hi Hc He. destruct He as [[c He] _]. cbn [perform] in He. injection He as He.
        apply faulty_cases in He as [[_ [e ->]] | [_ [-> | [e ->]]]]; cbn [on_ok]; try done.
        split; [done|]. cbn [files_at]. fold name.
        destruct (directory w Area_Jobs name) as [d|] eqn:Hd; cbn; [|done].
        destruct (JobDir_files d !! STATE) as [bytes|] eqn:Hb; [|done]. intros s Hs.
        assert (Hds : dir_state d = Some s) by (unfold dir_state; rewrite Hb; cbn; by rewrite Hs).
        assert (Hw : whole d).
        { apply directory_jobs in Hd. destruct (inv_whole _ Hi _ _ Hd) as [|(_ & Hn & _)]; congruence. }
        destruct Hc as [_ [Huse Hti]]. split.
        { unfold stored_job in Hs. destruct (_ <? _); [done|].
          destruct (state_from_slice bytes) as [s'|] eqn:Hf; [|done]. injection Hs as <-. by eapply state_read_wf. }
        split; [intros Hf; split; [done|]|intros Hu _; by exists d].
        intros _ d' Hd' _. rewrite Hd in Hd'. injection Hd' as <-. by exists s.
    + intros [bytes|]; [destruct (_ <? _)|]; by intros w.
  - intros [bytes|]; [|apply ok_fail_ok]. apply ok_lift. intros s w Hi [Hc Hl].
    destruct (stored_job _ _) as [s'|] eqn:Hs; [|done]. intros [= <-]. auto.
Qed.

Lemma stored_job_read_back s b :
  wf_state s -> state_to_vec s = Some b -> N.of_nat (length b) <= MAX_RECORD_BYTES ->
  stored_job state_from_slice b = Ok s.
Proof.
  intros Hwf Hb Hl. unfold stored_job. rewrite (proj2 (N.ltb_ge _ _)) by exact Hl.
  by rewrite (state_read_back _ _ Hwf Hb).
Qed.

(** An event that the state admits is written. *)
Lemma ok_write_state t (job : JobId) i s e s' :
  advance s e = (s', Ok tt) -> wf_state s ->
  runs t (fun w => critical t (as_str job) i w /\ recorded t (as_str job) s w) (write_state job s')
    (on_ok (fun _ w => known (as_str job) w /\ (JobState_kind s' = PhaseKind_Finished -> settled t (as_str job) w))).
Proof.
  intros Ha Hwf. set (name := as_str job). unfold write_state.
  eapply ok_try_ok with (R := fun b w => (critical t name i w /\ recorded t name s w) /\ state_to_vec s' = Some b).
  { apply ok_lift. intros b w _ Hc Hb%ok_or_ok. done. }
  intros b. apply ok_err_ok. unfold write_bytes. destruct (N.ltb_spec MAX_RECORD_BYTES (N.of_nat (length b))) as [|Hlen]; [by intros w|].
  eapply ok_try_ok with (R := fun _ w => (critical t name i w /\ recorded t name s w) /\ state_to_vec s' = Some b).
  { cbn [parent_dir]. apply ok_step.
    - intros w x w' Hi [[Hc Hr0] Hb] He. destruct (Hr0 (proj1 (proj2 He))) as (d & Hd & Hr). pose proof (private_dir_present _ _ _ _ _ _ _ Hd He) as ->.
      split; [apply guar_refl|]. split; [done|]. destruct x; [|done]. split; [|done]. split; [done|]. by exists d.
    - intros x. apply on_ok_stable. intros _. apply stable_and; [apply recorded_stable|apply stable_const]. }
  intros _. apply ok_step.
  2:{ intros x. apply on_ok_stable. intros _. apply stable_and; [apply lasting_stable, known_lasting|].
      intros t' w w' _ Hi Hg Hset Hf. eapply settled_lasting; eauto. }
  intros w x w' Hi [[Hc Hr0] Hb] [[c He] [Hlive _]]. destruct (Hr0 Hlive) as (d & Hd & Hw & Hs & Hu).
  cbn [perform] in He. injection He as He. cbn [files_at set_files] in He.
  fold name in He. rewrite Hd in He. cbn in He.
  set (d' := mkJobDir (JobDir_inode d) (<[STATE := b]> (JobDir_files d)) (JobDir_workspace d)) in *.
  assert (Hwf' : wf_state s') by (pose proof (advance_spec s e) as H'; rewrite Ha in H'; by apply H').
  assert (Hs' : dir_state d' = Some s').
  { unfold dir_state, d'. cbn. rewrite lookup_insert_eq. cbn. by rewrite (stored_job_read_back s'). }
  assert (Hinode : JobDir_inode d = i) by (by apply Hc).
  assert (Hg : guarantee t w (set_directory w Area_Jobs name d') /\ calm t w (set_directory w Area_Jobs name d')).
  { apply (guar_one t w _ name (Node_dir d')); try done. apply directory_jobs in Hd. rewrite Hd.
    apply (move_advanced t w _ name d d' s s' e); try done; [by apply lookup_insert_ne..|].
    rewrite Hinode. apply Hc. }
  apply faulty_cases in He as [[-> [err ->]] | [-> He]].
  { split; [apply guar_refl|done]. }
  destruct Hg as [Hg Ha']. split; [done|]. split; [done|].
  destruct He as [-> | [err ->]]; [|done]. cbn. split.
  - eapply known_lasting; [exact Hi|exact Hg|]. apply Hc.
  - intros Hf. split; [eapply uses_lasting; [exact Hi|exact Hg|]; apply Hc|].
    intros _ d2 Hd2 _. unfold directory in Hd2. cbn [area set_directory set_area jobs] in Hd2.
    rewrite lookup_insert_eq in Hd2. injection Hd2 as <-. by exists s'.
Qed.

Lemma ok_false {T} t G (p : Job T) Q : oks t G (fun _ => False) p Q.
Proof.
  induction p as [a|op k IH]; [by intros w|]. exists (fun _ _ => False).
  split; [done|]. split; [intros x; apply stable_const|done].
Qed.

(** The functions that work under the state lock *)
Lemma ok_section {T} t (job : JobId) (body : Job (result T JobStoreError)) Q :
  (forall a, forever (Q a)) ->
  (forall i, oks t (aside t) (critical t (as_str job) i) body (on_ok Q)) ->
  oks t (aside t) (fun _ => True)
    (do^ verify_job job in let^ lock := locked (job_lock LockKind_State job) in holding lock body) (on_ok Q).
Proof.
  intros HQ Hbody. set (name := as_str job) in *. set (l := job_lock LockKind_State job).
  apply ok_verified; [by intros w w' []|].
  eapply ok_try_ok.
  { apply ok_err_ok. apply (ok_exclusive t (known name) l); [done|apply known_lasting|done]. }
  intros id_. eapply ok_post with (Q := fun r w => True /\ on_ok Q r w); [|by intros a w _ []].
  apply (ok_holding t (fun _ => True) l id_ body (fun w => (known name w /\ opened t l id_ w) /\ holds t id_ w) Q);
    [done|by intros w [[_ ?] _]|done|apply true_lasting|].
  eapply ok_post with (Q := fun r w => on_ok Q r w /\ opened t l id_ w); [|by intros a w _ []].
  eapply ok_pre with (P := fun w => ((known name w /\ opened t l id_ w) /\ holds t id_ w) /\ opened t l id_ w);
    [|by intros w _ [[??] ?]].
  apply ok_lasting; [apply opened_lasting|].
  destruct id_ as [| | |kind i];
    try (eapply ok_pre; [apply ok_false|]; by intros w _ [[_ (i & [=] & _)] _]).
  eapply ok_pre; [apply (Hbody i)|]. by intros w _ [[_ (i' & [= -> ->] & Ht)] Hh].
Qed.

(** What is known once a state has been reported *)
Definition reported (t : N) (name : string) (s : JobState) (w : World) : Prop :=
  known name w /\ (JobState_kind s = PhaseKind_Finished -> settled t name w).

Lemma reported_lasting u name s : forever (reported u name s).
Proof.
  intros t w w' Hi Hg [Hk Hf]. split; [by eapply known_lasting|]. intros H. eapply settled_lasting; eauto.
Qed.

Lemma learned_reported t name i s w : critical t name i w -> learned t name s w -> reported t name s w.
Proof. intros [_ [[Hk _] _]] (_ & Hf & _). done. Qed.

Lemma ok_advance {T} t (job : JobId) i s e (f : JobState -> T) Q :
  (forall s' w, advance s e = (s', Ok tt) -> reported t (as_str job) s' w -> Q (f s') w) ->
  oks t (aside t) (fun w => critical t (as_str job) i w /\ learned t (as_str job) s w)
    (let '(s', advanced) := advance s e in
     do^ prog_lift (map_err JobStoreError_Transition advanced) in
     do^ write_state job s' in
     prog_ok (f s')) (on_ok Q).
Proof.
  intros HQ. destruct (advance s e) as [s' [[]|err]] eqn:Ha; [|by intros w]. cbn [map_err].
  eapply ok_try_ok with (R := fun _ w => critical t (as_str job) i w /\ learned t (as_str job) s w);
    [by apply ok_lift|]. intros _.
  apply (ok_pre _ _ _ _ _ (fun w => (critical t (as_str job) i w /\ recorded t (as_str job) s w) /\ wf_state s)).
  2:{ intros w _ (Hc & Hwf & _ & Hu). split; [split; [done|]|done]. apply Hu. by eapply advance_unfinished. }
  destruct (decide (JobState_pid s = Some 0)) as [Hpid|Hpid].
  { eapply ok_pre; [apply ok_false|]. by intros w _ [_ Hwf]. }
  eapply ok_try_ok with (R := fun _ w => known (as_str job) w /\ (JobState_kind s' = PhaseKind_Finished -> settled t (as_str job) w)).
  - apply ok_calm. eapply ok_pre; [by apply (ok_write_state t job i s e s' Ha)|]. by intros w _ [? _].
  - intros _. apply ok_ret_ok. intros w _ H. by apply HQ.
Qed.

Lemma ok_transition t (job : JobId) event :
  oks t (aside t) (fun _ => True) (transition job event) (on_ok (reported t (as_str job))).
Proof.
  unfold transition. apply ok_section; [apply reported_lasting|]. intros i.
  eapply ok_try_ok; [apply ok_calm, ok_read_state|]. intros s. by apply (ok_advance t job i s event (fun s => s)).
Qed.

Lemma ok_finish_launch_failure t (job : JobId) reason :
  oks t (aside t) (fun _ => True) (finish_launch_failure job reason) (on_ok (fun _ => known (as_str job))).
Proof.
  unfold finish_launch_failure. apply ok_section; [intros _; apply known_lasting|]. intros i.
  eapply ok_try_ok; [apply ok_calm, ok_read_state|]. intros s.
  assert (Hret : oks t (aside t) (fun w => critical t (as_str job) i w /\ learned t (as_str job) s w)
    (prog_ok (E := JobStoreError) tt) (on_ok (fun _ => known (as_str job)))).
  { apply ok_ret_ok. by intros w _ [[_ [[? _] _]] _]. }
  destruct (JobState_kind s); try exact Hret;
    apply (ok_advance t job i s (JobEvent_LaunchFailed reason) (fun _ => tt)); by intros s' w _ [].
Qed.

(** *** Asking whether a supervisor lives *)

(** What asking leaves alone *)
Record probing (t : N) (w w' : World) : Prop := {
  probing_aside : aside t w w';
  probing_users : users w' = users w;
  probing_ended : ended w' = ended w;
  probing_jobs : jobs w' = jobs w;
  probing_locks : forall i, locks w' !! LockId_Job LockKind_State i = locks w !! LockId_Job LockKind_State i
}.

Lemma probing_refl t w : probing t w w.
Proof. done. Qed.

Lemma probing_lock t w i o :
  probing t w (set_locks w (partial_alter (fun _ => o) (LockId_Job LockKind_Alive i) (locks w))).
Proof. split; [split|done|done|done|]; cbn; try done; [|intros i']; by rewrite lookup_partial_alter_ne. Qed.

Lemma ok_probe t name :
  oks t (probing t) (fun _ => True) (probe (LockName_Job LockKind_Alive name)) (on_ok (fun _ _ => True)).
Proof.
  unfold probe.
  eapply ok_try_ok with (R := fun found _ => forall f, found = Some f -> exists i, f = LockId_Job LockKind_Alive i).
  - apply ok_err_ok. apply ok_read; [done|done|intros x; apply on_ok_stable; intros a; apply stable_const|].
    intros w x _ _ He. destruct He as [[c He] _]. cbn [perform] in He. injection He as He.
    apply faulty_cases in He as [[_ [e ->]] | [_ [-> | [e ->]]]]; cbn [on_ok]; try done.
    intros f Hf. cbn [lock_id lock_exists] in Hf.
    destruct (directory w Area_Jobs name) as [d|]; [|done].
    case_bool_decide; [|done]. injection Hf as <-. by eexists.
  - intros [f|]; [|by intros w].
    destruct f as [| | |[] i]; try (eapply ok_pre; [apply ok_false|]; intros w _ H; by destruct (H _ eq_refl)).
    eapply ok_try_ok with (R := fun _ _ => True).
    + apply ok_err_ok. apply ok_step; [|intros x; apply on_ok_stable; intros a; apply stable_const].
      intros w x w' _ _ He. destruct He as [[c He] _]. cbn [perform] in He. injection He as He.
      destruct (locks w !! _) as [o|] eqn:Hl; apply refusable_cases in He as [[-> [e ->]] | [-> ->]];
        try (split_and!; [apply guar_refl|apply probing_refl|done]).
      split_and!; [|apply probing_lock|done].
      apply (guar_lock t w (LockId_Job LockKind_Alive i) (Some t)). rewrite Hl. right. by left.
    + intros []; [|by intros w].
      eapply ok_try_ok with (R := fun _ _ => True); [|by intros _ w].
      apply ok_err_ok. apply ok_step; [|intros x; apply on_ok_stable; intros a; apply stable_const].
      intros w x w' _ _ He. destruct He as [[c He] _]. cbn [perform] in He. injection He as He.
      assert (Hx : on_ok (fun _ _ => True) x w') by (by destruct x).
      case_decide as Hd; apply faulty_cases in He as [[-> _] | [-> _]];
        (split_and!; [|first [apply probing_refl|apply probing_lock]|done]); try apply guar_refl;
        (apply (guar_lock t w (LockId_Job LockKind_Alive i) None); rewrite Hd; right; by right).
Qed.

Lemma ok_status t (job : JobId) :
  oks t (aside t) (fun _ => True) (status job) (on_ok (reported t (as_str job))).
Proof.
  unfold status. apply ok_section; [apply reported_lasting|]. intros i.
  eapply ok_try_ok; [apply ok_calm, ok_read_state|]. intros s. set (name := as_str job).
  assert (Hret : oks t (aside t) (fun w => critical t name i w /\ learned t name s w)
    (prog_ok (E := JobStoreError) s) (on_ok (reported t name))).
  { apply ok_ret_ok. intros w _ [Hc Hl]. by eapply learned_reported. }
  assert (Hactive : JobState_kind s <> PhaseKind_Finished ->
    oks t (aside t) (fun w => critical t name i w /\ learned t name s w)
     (let^ found := prog_err JobStoreError_Lock (probe (job_lock LockKind_Alive job)) in
      match found with
      | Probe_Held => prog_ok s
      | Probe_Absent | Probe_Free =>
          if negb (is_finished_state (protocol_step State_Active Action_Reap))
          then prog_fail JobStoreError_Corrupt
          else
            let '(state, advanced) := advance s JobEvent_SupervisorGone in
            do^ prog_lift (map_err JobStoreError_Transition advanced) in
            do^ write_state job state in
            prog_ok state
      end) (on_ok (reported t name))).
  { intros Hu. eapply ok_try_ok with (R := fun _ w => critical t name i w /\ learned t name s w).
    - apply ok_err_ok. eapply ok_within; [intros w w'; apply probing_aside|].
      eapply ok_post; [eapply ok_pre; [apply (ok_frame _ _ _ t (probing t) (fun _ => True) _ (on_ok (fun _ _ => True)));
        [apply (learned_stable t name i s)| |apply ok_probe]|]|].
      + intros w w' Hi [[Hh [Hk Ht]] (Hwf & _ & Hl)] [[_ _ Hp] Hus Hen Hj Hs].
        assert (Hdir : directory w' Area_Jobs name = directory w Area_Jobs name)
          by (unfold directory; cbn [area]; by rewrite Hj).
        split; [split; [unfold holds; by rewrite Hs|]|split; [done|split; [done|]]].
        * unfold tied, uses, known. rewrite Hp, Hdir, Hus, Hen. done.
        * intros _. unfold recorded. rewrite Hdir, Hen. by apply Hl.
      + by intros w.
      + by intros [] w _ [].
    - intros found. assert (Hadv : oks t (aside t) (fun w => critical t name i w /\ learned t name s w)
        (let '(state, advanced) := advance s JobEvent_SupervisorGone in
         do^ prog_lift (map_err JobStoreError_Transition advanced) in
         do^ write_state job state in
         prog_ok state) (on_ok (reported t name)))
        by (by apply (ok_advance t job i s JobEvent_SupervisorGone (fun s => s))).
      destruct found; [exact Hadv|exact Hadv|exact Hret]. }
  destruct (JobState_kind s) eqn:Hk; try exact Hret; by apply Hactive.
Qed.
End functions.
