(* ===== verification/JobReserve.v ===== *)
(** The functions of the job store that admit, list, clean and set aside jobs, under the lock on admission;
    staging and publishing a job, and the functions a request calls: [reserve], [clean] and [receive_archive]. *)

From Stdlib Require Import NArith ZArith Lia String Ascii.
From stdpp Require Import base gmap list strings.
From S2P Require Import Prelude SortedLists RustStr Domain JobState Wire Programs RustText JobDisk JobStore.
From S2P Require Import JobSteps JobFunctions.

Section admission.
Context `{laws : JobLibrariesLaws}.

Abbreviation guarantee := (guar (libraries := libraries)).
Abbreviation invariant := (Inv (libraries := libraries)).
Abbreviation oks := (ok exec invariant guarantee).
Abbreviation steady := (stable invariant guarantee).
Abbreviation forever := (lasting invariant guarantee).

(** *** Locks on a job *)

Lemma ok_locked t l K :
  l <> LockName_Admission -> forever K -> (forall w, K w -> lock_known l w) ->
  oks t (aside t) K (locked l) (on_ok (fun id_ w => K w /\ opened t l id_ w)).
Proof.
  intros Hne HK Hk. apply ok_err_ok. eapply ok_post; [by apply ok_exclusive|]. by intros [] w _; [intros []|].
Qed.

Lemma ok_guarded {T} t l K (body : Job (result T JobStoreError)) Q :
  l <> LockName_Admission -> forever K -> (forall w, K w -> lock_known l w) -> (forall a, forever (Q a)) ->
  oks t (aside t) K body (on_ok Q) ->
  oks t (aside t) K (let^ lock := locked l in holding lock body) (on_ok Q).
Proof.
  intros Hne HK Hk HQ Hbody. eapply ok_try_ok; [by apply ok_locked|]. intros id_.
  eapply ok_post with (Q := fun r w => True /\ on_ok Q r w); [|by intros a w _ []].
  apply (ok_holding t (fun _ => True) l id_ body (fun w => K w /\ opened t l id_ w) Q);
    [done|by intros w []|done|apply true_lasting|].
  eapply ok_post with (Q := fun r w => on_ok Q r w /\ opened t l id_ w); [|by intros a w _ []].
  apply ok_lasting; [apply opened_lasting|done].
Qed.

Lemma opened_unlocked t l id_ w : l <> LockName_Admission -> opened t l id_ w -> id_ <> LockId_Admission.
Proof. intros Hne Ho ->. by apply Hne, (opened_admission _ _ _ _ Ho). Qed.

(** Giving back a lock that was opened under the name [l] *)
Lemma ok_drop_lock t l id_ K :
  l <> LockName_Admission -> forever K -> (forall w, K w -> opened t l id_ w) ->
  oks t (aside t) K (drop_lock id_) (fun _ => K).
Proof.
  intros Hne HK Ho. destruct (decide (id_ = LockId_Admission)) as [->|Hid].
  { eapply ok_pre; [apply ok_false|]. intros w _ Hk. by apply Hne, (opened_admission _ _ _ _ (Ho w Hk)). }
  apply ok_unlock; [done|done|]. intros w. by apply aside_unlock.
Qed.

Lemma ok_launch_lock t (job : JobId) :
  oks t (aside t) (fun _ => True) (launch_lock job)
    (on_ok (fun id_ w => known (as_str job) w /\ opened t (job_lock LockKind_Launch job) id_ w)).
Proof.
  apply ok_verified; [by intros w w' []|]. apply ok_locked; [done|apply known_lasting|done].
Qed.

Lemma ok_worker_lock t (job : JobId) :
  oks t (aside t) (fun _ => True) (worker_lock job)
    (on_ok (fun found w => known (as_str job) w /\
       forall id_, found = Some id_ -> opened t (job_lock LockKind_Alive job) id_ w)).
Proof.
  apply ok_verified; [by intros w w' []|]. apply ok_err_ok. unfold try_exclusive. set (l := job_lock LockKind_Alive job).
  eapply ok_try_ok with (R := fun id_ w => known (as_str job) w /\ opened t l id_ w).
  { apply ok_err_ok, ok_calm. apply ok_open_lock; [apply known_lasting|done]. }
  intros id_.
  assert (HK : forever (fun w => known (as_str job) w /\ opened t l id_ w))
    by (apply lasting_and; [apply known_lasting|apply opened_lasting]).
  eapply ok_try_ok with (R := fun _ w => known (as_str job) w /\ opened t l id_ w).
  - apply ok_err_ok. apply ok_step; [|intros x; apply on_ok_stable; intros a; by apply lasting_stable].
    intros w x w' Hi Hp He. destruct He as [[c He] _]. cbn [perform] in He. injection He as He.
    assert (Hid : id_ <> LockId_Admission) by (by eapply opened_unlocked; [|apply Hp]).
    destruct (locks w !! id_) as [o|] eqn:Hl; apply refusable_cases in He as [[-> [e ->]] | [-> ->]];
      try (by split_and!; [apply guar_refl|..]).
    destruct (lock_taken t w id_ Hl) as (Hg & Ha & _). split_and!; [done|by apply Ha|]. by eapply HK.
  - intros []; apply ok_ret_ok; intros w _ [Hk Ho]; (split; [done|]); intros id' Heq; [|done]. by injection Heq as <-.
Qed.

(** *** The other functions on one job *)

Lemma ok_request_cancel t (job : JobId) :
  oks t (aside t) (fun _ => True) (request_cancel job) (on_ok (fun _ => known (as_str job))).
Proof.
  apply ok_verified; [by intros w w' []|]. apply ok_err_ok, ok_calm. apply ok_write_bytes; [by cbn|apply known_lasting|done].
Qed.

Lemma ok_cancel_requested t (job : JobId) :
  oks t (aside t) (fun _ => True) (cancel_requested job) (on_ok (fun _ => known (as_str job))).
Proof.
  apply ok_verified; [by intros w w' []|].
  eapply ok_try_ok with (R := fun _ => known (as_str job)); [|intros a; by apply ok_ret_ok].
  apply ok_err_ok. apply ok_read; [done|done| |by intros w [] _ Hk _].
  intros x. apply on_ok_stable. intros a. apply lasting_stable, known_lasting.
Qed.

Lemma ok_workspace t (job : JobId) :
  oks t (aside t) (fun _ => True) (workspace job) (on_ok (fun _ _ => True)).
Proof.
  apply ok_verified; [by intros w w' []|]. eapply ok_try_ok with (R := fun _ => known (as_str job)).
  - apply ok_err_ok. apply ok_read; [done|done| |].
    + intros x. apply on_ok_stable. intros a. apply lasting_stable, known_lasting.
    + by intros w [] _ Hk _.
  - intros [[]|]; try (by intros w). apply ok_err_ok, ok_calm.
    eapply ok_post; [apply ok_make_workspace, known_lasting|]. by intros [] w.
Qed.

Lemma ok_log_tail t (job : JobId) :
  oks t (aside t) (fun _ => True) (log_tail job) (on_ok (fun _ _ => True)).
Proof.
  apply ok_verified; [by intros w w' []|]. eapply ok_try_ok with (R := fun _ _ => True).
  - apply ok_err_ok. apply ok_read_only; [done|done|by intros []].
  - intros [content|]; apply ok_lift; by intros a w.
Qed.

Lemma ok_wait t (job : JobId) :
  oks t (aside t) (fun _ => True) (wait job) (on_ok (reported t (as_str job))).
Proof.
  apply ok_verified; [by intros w w' []|]. set (l := job_lock LockKind_Alive job).
  eapply ok_try_ok; [apply (ok_locked t l (known (as_str job))); [done|apply known_lasting|done]|]. intros id_.
  eapply ok_bind.
  - apply (ok_drop_lock t l id_ (fun w => known (as_str job) w /\ opened t l id_ w)); [done| |by intros w []].
    apply lasting_and; [apply known_lasting|apply opened_lasting].
  - intros x. apply ok_any, ok_status.
Qed.

Lemma ok_read_number t G p file : (forall w, G w w) -> oks t G (fun _ => True) (read_number p file) (on_ok (fun _ _ => True)).
Proof.
  intros HG. unfold read_number. eapply ok_try_ok; [apply ok_err_ok; by apply ok_read_bytes|].
  intros [bytes|]; [apply ok_lift|]; by intros a w.
Qed.

Lemma ok_next_sequence t :
  oks t (calm t) (fun _ => True) next_sequence (on_ok (fun n _ => n <= u64_max)).
Proof.
  unfold next_sequence. eapply ok_try_ok; [by apply ok_read_number|]. intros last_.
  destruct (checked_add u64_max last_ 1) as [next|] eqn:Hn; [|by intros w].
  eapply ok_try_ok with (R := fun _ _ => True).
  - apply ok_err_ok. apply ok_write_bytes; [done|apply true_lasting|done].
  - intros _. apply ok_ret_ok. intros w _ _. by apply checked_add_Some in Hn as [_ ?].
Qed.

Lemma ok_open_store t : oks t (aside t) (fun _ => True) open_store (on_ok (fun _ _ => True)).
Proof.
  unfold open_store, next_opening. eapply ok_try_ok with (R := fun _ _ => True).
  - apply ok_guarded; [done|apply true_lasting|done|intros a; apply true_lasting|].
    eapply ok_try_ok; [by apply ok_read_number|]. intros last_.
    eapply ok_try_ok with (R := fun _ _ => True); [|by intros a w].
    apply ok_err_ok, ok_calm. apply ok_write_bytes; [done|apply true_lasting|done].
  - intros place. apply ok_err_ok, ok_calm. eapply ok_post; [apply ok_write_bytes; [done|apply true_lasting|done]|].
    by intros [] w.
Qed.

(** *** The trash *)

Lemma ok_remove_trash t entry : oks t (calm t) (fun _ => True) (call (Op_RemoveTrash entry)) (fun _ _ => True).
Proof.
  apply ok_step; [|intros x; apply stable_const]. intros w x w' _ _ He. destruct He as [[c He] _].
  cbn [perform] in He. injection He as He.
  destruct (guar_none t w (set_trash w (trash w ∖ {[entry]}))) as [Hg Ha]; [done..|].
  apply faulty_cases in He as [[-> _] | [-> _]]; [by split_and!; [apply guar_refl|..]|done].
Qed.

(** Programs that keep nothing and of which nothing is learned *)
Lemma ok_retry_loop {E} t G attempts (remove : Job (result unit E)) busy :
  oks t G (fun _ => True) remove (fun _ _ => True) ->
  oks t G (fun _ => True) (retry_loop attempts remove busy (Ret tt)) (fun _ _ => True).
Proof.
  intros Hr. induction attempts as [|attempts IH]; cbn [retry_loop]; [done|].
  eapply ok_bind; [exact Hr|]. intros [a|e]; [by intros w|]. destruct (negb (busy e)); [by intros w|].
  eapply ok_bind with (R := fun _ _ => True); [by intros w|]. intros _. exact IH.
Qed.

Lemma ok_after_denial {E} t G (remove grant : Job (result unit E)) denied :
  oks t G (fun _ => True) remove (fun _ _ => True) -> oks t G (fun _ => True) grant (fun _ _ => True) ->
  oks t G (fun _ => True) (after_denial remove grant denied) (fun _ _ => True).
Proof.
  intros Hr Hg. unfold after_denial. eapply ok_bind; [exact Hr|]. intros [a|e]; [by intros w|].
  destruct (negb (denied e)); [by intros w|]. apply ok_err. eapply ok_bind; [exact Hg|]. intros [a|e']; [exact Hr|by intros w].
Qed.

Lemma ok_empty_trash t : oks t (calm t) (fun _ => True) empty_trash (fun _ _ => True).
Proof.
  unfold empty_trash. eapply ok_bind with (R := fun _ _ => True); [|by intros a w].
  unfold empty. eapply ok_try with (R := fun _ _ => True); [|intros entries|done].
  - apply ok_err. by apply ok_read_only.
  - eapply ok_bind with (R := fun _ _ => True); [|by intros a w]. generalize (@nil (string * RemovalFailure IoError)).
    induction (take EMPTY_LIMIT entries) as [|entry rest IH]; intros leftovers; cbn [empty_loop]; [by intros w|].
    eapply ok_bind with (R := fun _ _ => True); [|intros r; apply IH].
    apply ok_after_denial; [apply ok_retry_loop, ok_remove_trash|by apply ok_read_only].
Qed.

(** *** Listing *)

Definition all_known (jobs : list JobId) (w : World) : Prop := forall job, job ∈ jobs -> known (as_str job) w.

Lemma all_known_lasting jobs : forever (all_known jobs).
Proof. intros t w w' Hi Hg H job Hj. eapply known_lasting; eauto. Qed.

Lemma in_some_order_perm c names : in_some_order c names ≡ₚ names.
Proof. unfold in_some_order. by case_bool_decide. Qed.

Lemma ok_list_loop t names : forall found,
  oks t (calm t) (fun w => (forall name, name ∈ names -> known name w) /\ all_known found w)
    (list_loop names found) (on_ok all_known).
Proof.
  induction names as [|name names IH]; intros found; cbn [list_loop]; [apply ok_ret_ok; by intros w _ []|].
  destruct (_ <=? _)%nat; [by intros w|].
  eapply ok_try_ok with (R := fun job w => (as_str job = name /\ known name w) /\
    (forall n, n ∈ names -> known n w) /\ all_known found w).
  { apply ok_lift. intros job w _ [Hn Hf] Hj. apply map_err_ok in Hj. split; [split|].
    - unfold JobId_try_from in Hj. by apply Validated_try_from_ok in Hj.
    - apply Hn. by left.
    - split; [|done]. intros n Hin. apply Hn. by right. }
  intros job. eapply ok_try_ok with (R := fun _ w => (as_str job = name /\ known name w) /\
    (forall n, n ∈ names -> known n w) /\ all_known found w).
  - apply ok_err_ok. eapply ok_post; [apply ok_private_dir; [|by intros w [[_ ?] _]]|by intros [] w].
    apply lasting_and; [apply lasting_and; [apply lasting_const|apply known_lasting]|].
    apply lasting_and; [|apply all_known_lasting]. intros t' w w' Hi Hg H n Hn. eapply known_lasting; eauto.
  - intros _. eapply ok_pre; [apply IH|]. intros w _ [[Heq Hk] [Hn Hf]]. split; [done|].
    intros j Hj. apply elem_of_app in Hj as [Hj|Hj]; [by apply Hf|]. apply list_elem_of_singleton in Hj as ->. by rewrite Heq.
Qed.

Lemma ok_list_jobs t : oks t (calm t) (fun _ => True) list_jobs (on_ok all_known).
Proof.
  unfold list_jobs. eapply ok_try_ok with (R := fun names w => forall name, name ∈ names -> known name w).
  - apply ok_err_ok. apply ok_read; [done|done| |].
    + intros x. apply on_ok_stable. intros names t' w w' _ Hi Hg H n Hn. eapply known_lasting; eauto.
    + intros w x Hi _ He. destruct He as [[c He] _]. cbn [perform] in He. injection He as He.
      apply faulty_cases in He as [[_ [e ->]] | [_ [-> | [e ->]]]]; cbn [on_ok]; try done.
      intros name. rewrite in_some_order_perm. cbn [names_at]. intros Hn.
      apply list_elem_of_fmap in Hn as ([name' node] & -> & Hin). apply elem_of_map_to_list in Hin.
      apply (inv_published _ Hi). by exists node.
  - intros names. eapply ok_try_ok; [eapply ok_pre; [apply ok_list_loop|]|].
    + intros w _ Hn. split; [done|]. by intros job Hj%not_elem_of_nil.
    + intros found. apply ok_ret_ok. intros w _ Hf job Hj. apply Hf. by rewrite <- (sort_perm found).
Qed.

(** ** Under the lock on admission *)

Abbreviation admitted t := (holds t LockId_Admission).

(** Any step the process guarantees *)
Definition free (w w' : World) : Prop := True.

Lemma ok_free {T} t (G : World -> World -> Prop) P (p : Job T) Q : oks t G P p Q -> oks t free P p Q.
Proof. by apply ok_within. Qed.

(** What leaves the lock alone may be run under it. *)
Lemma ok_admitted {T} t P (p : Job T) Q :
  oks t (aside t) P p Q -> oks t (aside t) (fun w => P w /\ admitted t w) p (fun r w => Q r w /\ admitted t w).
Proof.
  apply ok_frame; [apply holds_stable|]. intros w w' _ Hh [_ Ha _]. unfold holds. by rewrite Ha.
Qed.

Lemma ok_try_admitted {A B E} t G (p : Job (result A E)) (f : A -> Job (result B E)) P R Q :
  oks t G (fun w => P w /\ admitted t w) p (fun r w => on_ok R r w /\ admitted t w) ->
  (forall a, oks t G (fun w => R a w /\ admitted t w) (f a) (fun r w => on_ok Q r w /\ admitted t w)) ->
  oks t G (fun w => P w /\ admitted t w) (prog_try p f) (fun r w => on_ok Q r w /\ admitted t w).
Proof. intros Hp Hf. eapply ok_try; [exact Hp|exact Hf|]. by intros e w _ [_ ?]. Qed.

(** Whatever was learned may be forgotten. *)
Lemma ok_forget {A E} t G P (p : Job (result A E)) Q :
  oks t G P p (fun r w => on_ok Q r w /\ admitted t w) -> oks t G P p (fun r => admitted t).
Proof. intros H. eapply ok_post; [exact H|]. by intros a w _ []. Qed.

Lemma trash_directory_step t w name entry x w' :
  settled t name w -> admitted t w -> exec t (Op_TrashDirectory Area_Jobs name entry) w x w' ->
  guarantee t w w' /\ aside t w w'.
Proof.
  intros [Hu Hset] Hh [[c He] [Hlive _]]. specialize (Hset Hlive). cbn [perform] in He. injection He as He. cbn [area] in He.
  assert (Hsame : guarantee t w w /\ aside t w w) by (split; [apply guar_refl|done]).
  destruct (jobs w !! name) as [n|] eqn:Hn; [|by injection He as <- <-].
  apply faulty_cases in He as [[-> _] | [-> _]]; [done|]. split; split; cbn; try done.
  - intros l. apply lock_moved_refl.
  - by left.
  - intros name'. destruct (decide (name' = name)) as [->|Hne].
    + rewrite lookup_delete_eq, Hn. apply move_removed; [|done]. intros d ->. apply Hset. by apply directory_jobs.
    + rewrite lookup_delete_ne by done. apply move_same.
Qed.

Lemma trash_workspace_step t w name entry x w' :
  settled t name w -> exec t (Op_TrashWorkspace name entry) w x w' -> guarantee t w w' /\ aside t w w'.
Proof.
  intros [Hu Hset] [[c He] [Hlive _]]. specialize (Hset Hlive). cbn [perform] in He. injection He as He.
  assert (Hsame : guarantee t w w /\ aside t w w) by (split; [apply guar_refl|done]).
  unfold workspace_of, set_workspace in He. destruct (directory w Area_Jobs name) as [d|] eqn:Hd; cbn in He;
    [|by injection He as <- <-].
  destruct (JobDir_workspace d) as [ws|] eqn:Hws; [|by injection He as <- <-].
  apply faulty_cases in He as [[-> _] | [-> _]]; [done|].
  set (d' := mkJobDir (JobDir_inode d) (JobDir_files d) None).
  assert (Hg : forall w', jobs w' = <[name := Node_dir d']> (jobs w) -> locks w' = locks w -> staging w' = staging w ->
    published w' = published w -> users w' = users w -> ended w' = ended w -> guarantee t w w' /\ calm t w w').
  { intros w' Hj Hl Hst Hp Hus Hen. apply (guar_one t w w' name (Node_dir d')); try done. apply directory_jobs in Hd as Hd'.
    rewrite Hd'. apply move_touched; [by unfold same_core|]. intros _. right. by apply Hset. }
  destruct (Hg (set_trash (set_directory w Area_Jobs name d') ({[entry]} ∪ trash w))) as [? []]; done.
Qed.

Lemma ok_trash_name t G P : (forall w, G w w) -> steady t P -> oks t G P trash_name (fun _ => P).
Proof.
  intros HG HP. unfold trash_name. eapply ok_bind with (R := fun _ => P).
  - apply ok_read; [done|done|done|done].
  - intros [bytes|e]; by intros w.
Qed.

Lemma ok_set_aside_part t (job : JobId) part :
  oks t (aside t) (fun w => settled t (as_str job) w /\ admitted t w) (set_aside_part job part)
    (fun r w => on_ok (fun _ => settled t (as_str job)) r w /\ admitted t w).
Proof.
  set (name := as_str job).
  assert (HS : steady t (fun w => settled t name w /\ admitted t w))
    by (apply stable_and; [apply lasting_stable, settled_lasting|apply holds_stable]).
  assert (Hlast : forall op,
    (forall w x w', settled t name w -> admitted t w -> exec t op w x w' -> guarantee t w w' /\ aside t w w') ->
    oks t (aside t) (fun w => settled t name w /\ admitted t w) (call op)
      (fun _ w => settled t name w /\ admitted t w)).
  { intros op Hop. apply ok_step; [|intros _; exact HS]. intros w x w' Hi [Hs Hh] He.
    destruct (Hop w x w' Hs Hh He) as [Hg Ha]. split_and!; [done|done|by eapply settled_lasting|].
    unfold holds. by rewrite (aside_admission _ _ _ Ha). }
  assert (Hdone : oks t (aside t) (fun w => settled t name w /\ admitted t w) (prog_ok (E := StateError) tt)
    (fun r w => on_ok (fun _ => settled t name) r w /\ admitted t w)) by (by intros w).
  destruct part; cbn [set_aside_part]; unfold set_aside_workspace, set_aside.
  - eapply ok_try_admitted with (R := fun _ => settled t name).
    { apply ok_err. eapply ok_post; [apply (ok_read t _ _ _ (fun _ w => settled t name w /\ admitted t w)); [done|done|intros _; exact HS|by intros w x _ ? _]|].
      intros [a|e] w _ [? ?]; done. }
    intros [k|]; [|exact Hdone]. eapply ok_try_admitted with (R := fun _ => settled t name).
    { apply ok_admitted, ok_calm. eapply ok_post; [apply ok_make_workspace, settled_lasting|]. by intros [] w. }
    intros ?. eapply ok_try_admitted with (R := fun _ => settled t name).
    { eapply ok_post; [apply ok_trash_name; [done|exact HS]|]. by intros [] w _ [? ?]. }
    intros entry. eapply ok_post; [apply Hlast|by intros [] w _ [? ?]].
    intros w x w' Hs _. by apply trash_workspace_step.
  - eapply ok_try_admitted with (R := fun _ => settled t name).
    { apply ok_err. eapply ok_post; [apply (ok_read t _ _ _ (fun _ w => settled t name w /\ admitted t w)); [done|done|intros _; exact HS|by intros w x _ ? _]|].
      intros [a|e] w _ [? ?]; done. }
    intros [k|]; [|exact Hdone]. eapply ok_try_admitted with (R := fun _ => settled t name).
    { apply ok_admitted, ok_calm. eapply ok_post; [apply ok_private_dir; [apply settled_lasting|by intros w [[] _]]|].
      by intros [] w. }
    intros ?. eapply ok_try_admitted with (R := fun _ => settled t name).
    { eapply ok_post; [apply ok_trash_name; [done|exact HS]|]. by intros [] w _ [? ?]. }
    intros entry. eapply ok_post; [apply Hlast|by intros [] w _ [? ?]].
    intros w x w' Hs Hh. by apply trash_directory_step.
Qed.

(** A job is set aside once it is known to have finished. *)
Lemma ok_set_aside_finished t (job : JobId) part :
  oks t (aside t) (fun w => True /\ admitted t w) (set_aside_finished job part)
    (fun r w => on_ok (fun cleaned w => cleaned = true -> settled t (as_str job) w) r w /\ admitted t w).
Proof.
  set (name := as_str job). unfold set_aside_finished. set (launch := job_lock LockKind_Launch job).
  eapply ok_try_admitted with (R := fun id_ w => known name w /\ opened t launch id_ w).
  { apply ok_admitted, ok_launch_lock. }
  intros id_. eapply ok_try_admitted with (R := fun (finished : bool) w => finished = true -> settled t name w).
  - apply ok_admitted.
    eapply ok_post with (Q := fun r w => True /\ on_ok (fun (finished : bool) w => finished = true -> settled t name w) r w);
      [|by intros a w _ []].
    apply (ok_holding t (fun _ => True) launch id_ _ (fun w => known name w /\ opened t launch id_ w));
      [done|by intros w []| |apply true_lasting|].
    { intros a t' w w' Hi Hg H Ha. eapply settled_lasting; eauto. }
    eapply ok_post with (Q := fun r w => on_ok (fun (finished : bool) w => finished = true -> settled t name w) r w
      /\ opened t launch id_ w); [|by intros a w _ []].
    apply ok_lasting; [apply opened_lasting|].
    eapply ok_try_ok; [apply ok_any, ok_status|]. intros s.
    destruct (JobState_kind s) eqn:Hk; try (by intros w).
    apply (ok_pre _ _ _ _ _ (settled t name)); [|intros w _ [_ Hf]; by apply Hf].
    eapply ok_try_ok with (R := fun _ => settled t name).
    { apply ok_calm. eapply ok_post; [eapply ok_pre; [apply (ok_keep t (calm t) (fun _ => True) (settled t name));
        [apply settled_lasting|apply ok_verify_job]|]|]; [by intros w|]. by intros [] w _; [intros []|]. }
    intros ?. set (l := job_lock LockKind_Alive job).
    eapply ok_try_ok; [apply (ok_locked t l (settled t name)); [done|apply settled_lasting|by intros w [[] _]]|].
    intros alive. eapply ok_bind.
    + apply (ok_drop_lock t l alive (fun w => settled t name w /\ opened t l alive w)); [done| |by intros w []].
      apply lasting_and; [apply settled_lasting|apply opened_lasting].
    + intros x. apply ok_ret_ok. by intros w _ [].
  - intros [|]; [|by intros w _ []].
    apply (ok_pre _ _ _ _ _ (fun w => settled t name w /\ admitted t w)); [|intros w _ [H ?]; split; [by apply H|done]].
    eapply ok_try_admitted with (R := fun _ => settled t name).
    { apply ok_err. eapply ok_post; [apply ok_set_aside_part|]. by intros [] w. }
    intros ? w _ [Hs Hh]. split; [by intros _|done].
Qed.

Lemma ok_clean_one t (job : JobId) :
  oks t (aside t) (fun w => True /\ admitted t w) (clean_one job)
    (fun r w => on_ok (fun cleaned w => cleaned = true -> settled t (as_str job) w) r w /\ admitted t w).
Proof. apply ok_set_aside_finished. Qed.

Lemma ok_finished_loop t jobs : forall finished,
  oks t (aside t) (fun _ => True) (finished_loop jobs finished) (on_ok (fun _ _ => True)).
Proof.
  induction jobs as [|job jobs IH]; intros finished; cbn [finished_loop]; [by intros w|].
  eapply ok_try_ok; [apply ok_status|]. intros s.
  destruct (JobState_kind s); try (by apply ok_any). apply ok_any.
  eapply ok_try_ok; [by apply ok_read_number|]. intros place. apply IH.
Qed.

Lemma ok_reclaim_loop t excess finished : forall index,
  oks t (aside t) (admitted t) (reclaim_loop index excess finished) (fun _ => admitted t).
Proof.
  induction finished as [|[place job] finished IH]; intros index; cbn [reclaim_loop]; [by intros w|].
  eapply ok_bind with (R := fun _ => admitted t); [|intros r; apply IH].
  eapply ok_pre with (P := fun w => True /\ admitted t w); [|by intros w].
  destruct (_ <? _)%nat; eapply ok_forget; apply ok_set_aside_finished.
Qed.

Lemma ok_reclaim t :
  oks t (aside t) (fun w => True /\ admitted t w) reclaim (fun r w => on_ok (fun _ _ => True) r w /\ admitted t w).
Proof.
  unfold reclaim. eapply ok_try_admitted with (R := fun _ _ => True).
  { apply ok_admitted, ok_calm. eapply ok_post; [apply ok_list_jobs|]. by intros [] w. }
  intros jobs. eapply ok_try_admitted with (R := fun _ _ => True).
  { apply ok_admitted, ok_finished_loop. }
  intros finished. eapply ok_bind with (R := fun _ => admitted t).
  { eapply ok_pre; [apply ok_reclaim_loop|]. by intros w _ []. }
  intros ?. eapply ok_bind with (R := fun _ => admitted t); [|by intros x w].
  eapply ok_pre with (P := fun w => True /\ admitted t w); [|by intros w].
  eapply ok_post; [apply ok_admitted, ok_calm, ok_empty_trash|]. by intros b w _ [].
Qed.

Lemma ok_clean_loop t jobs : forall count,
  oks t (aside t) (fun w => True /\ admitted t w) (clean_loop jobs count)
    (fun r w => on_ok (fun _ _ => True) r w /\ admitted t w).
Proof.
  induction jobs as [|job jobs IH]; intros count; cbn [clean_loop]; [by intros w|].
  eapply ok_try_admitted; [apply ok_clean_one|]. intros cleaned.
  eapply ok_pre with (P := fun w => True /\ admitted t w); [|by intros w _ []].
  destruct cleaned; [|apply IH]. destruct (checked_add _ _ _) as [n|]; [|by intros w _ []].
  eapply ok_try_admitted with (R := fun _ _ => True); [by intros w _ []|]. intros n'. apply IH.
Qed.
End admission.

Section reserve.
Context `{laws : JobLibrariesLaws}.

Abbreviation guarantee := (guar (libraries := libraries)).
Abbreviation invariant := (Inv (libraries := libraries)).
Abbreviation oks := (ok exec invariant guarantee).
Abbreviation steady := (stable invariant guarantee).
Abbreviation forever := (lasting invariant guarantee).
Abbreviation admitted t := (holds t LockId_Admission).

(** What the staged directory holds so far *)
Definition staged_files (name : string) (files : list (string * list N)) (w : World) : Prop :=
  match files with
  | [] => True
  | _ => exists d, directory w Area_Staging name = Some d /\
           Forall (fun entry => JobDir_files d !! entry.1 = Some entry.2) files
  end.

Lemma staged_same name files w w' : staging w' = staging w -> staged_files name files w -> staged_files name files w'.
Proof. intros Hs. unfold staged_files, directory. cbn [area]. by rewrite Hs. Qed.

(** No one else stages while the lock is held. *)
Lemma staged_stable t name files : steady t (fun w => staged_files name files w /\ admitted t w).
Proof.
  intros t' w w' Ht Hi Hg [Hf Hh]. split; [|by eapply holds_stable].
  destruct (guar_staging _ _ _ Hg) as [Hs|Hh']; [by eapply staged_same|]. unfold holds in *. congruence.
Qed.

(** Nothing but what is staged has changed. *)
Record staged_only (w w' : World) : Prop := {
  staged_only_jobs : jobs w' = jobs w;
  staged_only_locks : locks w' = locks w;
  staged_only_published : published w' = published w;
  staged_only_users : users w' = users w;
  staged_only_ended : ended w' = ended w
}.

Lemma staging_step t w w' : staged_only w w' -> admitted t w -> guarantee t w w'.
Proof.
  intros [Hj Hl Hp Hu He] Hh. split; rewrite ?Hj, ?Hl, ?Hp, ?Hu, ?He; try done; [intros l; apply lock_moved_refl|by right|].
  intros name. apply move_same.
Qed.

Definition staging_op (op : Op) : bool :=
  match op with
  | Op_MakeDirectory Area_Staging _ | Op_MakeWorkspace Area_Staging _ | Op_MakeInside _ _ | Op_CreateInside _ _ _
  | Op_FillInside _ _ _ | Op_Replace (Place_Job Area_Staging _) _ _ | Op_TrashDirectory Area_Staging _ _ => true
  | _ => false
  end.

Lemma set_workspace_staging w name ws : staged_only w (set_workspace w Area_Staging name ws).
Proof. unfold set_workspace. by destruct (directory w Area_Staging name). Qed.

Lemma set_files_staging w name files : staged_only w (set_files w (Place_Job Area_Staging name) files).
Proof. cbn. by destruct (directory w Area_Staging name). Qed.

Lemma staging_op_same t op w x w' : staging_op op = true -> exec t op w x w' -> staged_only w w'.
Proof.
  intros Hop [[c He] _]. destruct op as [| [] | | [] | | | | | | [| | |[]] | | | | | | | | | | |[]| | | | | |]; try done;
    cbn [perform] in He; injection He as He; cbn [area] in He;
    repeat (match type of He with context [match ?y with _ => _ end] => destruct y eqn:? end);
    try (injection He as <- <-; done);
    try (apply faulty_cases in He as [[-> _] | [-> _]]; first [done|apply set_workspace_staging|apply set_files_staging|idtac]).
  all: unfold make_directory; cbn [area]; by destruct (staging w !! name).
Qed.

Lemma ok_staging_op t op :
  staging_op op = true -> oks t free (admitted t) (call op) (fun _ => admitted t).
Proof.
  intros Hop. apply ok_step; [|intros _; apply holds_stable]. intros w x w' Hi Hh He.
  pose proof (staging_op_same _ _ _ _ _ Hop He) as Hs.
  split; [by apply staging_step|]. split; [done|]. unfold holds. by rewrite (staged_only_locks _ _ Hs).
Qed.

(** Programs that only stage *)
Abbreviation stages t p := (oks t free (admitted t) p (fun _ => admitted t)).

Lemma stages_try {A B E} t (p : Job (result A E)) (f : A -> Job (result B E)) :
  stages t p -> (forall a, stages t (f a)) -> stages t (prog_try p f).
Proof. intros Hp Hf. eapply ok_try; [exact Hp|exact Hf|done]. Qed.

Lemma stages_err {A E F} t (f : E -> F) (p : Job (result A E)) : stages t p -> stages t (prog_err f p).
Proof. intros Hp. by apply ok_err. Qed.

Lemma stages_ret {A} t (a : A) : stages t (Ret a).
Proof. by intros w. Qed.

Lemma stages_read t op : read_only op = true -> stages t (call op).
Proof. intros Hr. apply ok_read; [done|done|intros _; apply holds_stable|done]. Qed.

Lemma stages_op t op : staging_op op = true -> stages t (call op).
Proof. apply ok_staging_op. Qed.

Lemma stages_make_parents t name parts : forall current, stages t (make_parents_loop name current parts).
Proof.
  induction parts as [|part parts IH]; intros current; cbn [make_parents_loop]; [apply stages_ret|].
  destruct parts as [|next parts]; [apply stages_ret|].
  apply stages_try; [by apply stages_err, stages_read|]. intros found. apply stages_try; [|intros _; apply IH].
  destruct found as [[]|]; [apply stages_ret..|]. by apply stages_err, stages_op.
Qed.

Lemma stages_extract_loop t name entries : forall totals, stages t (extract_loop name entries totals).
Proof.
  induction entries as [|entry entries IH]; intros totals; cbn [extract_loop]; [apply stages_ret|].
  apply stages_try; [apply stages_ret|]. intros e.
  apply stages_try; [apply stages_ret|]. intros [[totals' validated] size].
  apply stages_try; [apply stages_make_parents|]. intros _.
  apply stages_try; [apply stages_ret|]. intros mode.
  apply stages_try; [by apply stages_err, stages_op|]. intros _.
  apply stages_try; [apply stages_ret|]. intros content.
  apply stages_try; [by apply stages_err, stages_op|]. intros _.
  destruct (negb _); [apply stages_ret|]. apply IH.
Qed.

Lemma stages_extract_archive t job archive : stages t (extract_archive job archive).
Proof.
  unfold extract_archive. apply stages_try; [by apply stages_err, stages_op|]. intros _.
  apply stages_try; [by apply stages_err, stages_read|]. intros source.
  apply stages_try; [apply stages_ret|]. intros content.
  apply stages_try; [apply stages_ret|]. intros entries. apply stages_extract_loop.
Qed.

Lemma stages_trash_name t : stages t trash_name.
Proof. apply ok_trash_name; [done|apply holds_stable]. Qed.

Lemma stages_set_aside t name : stages t (set_aside Area_Staging name).
Proof.
  unfold set_aside. apply stages_try; [by apply stages_err, stages_read|]. intros [k|]; [|apply stages_ret].
  apply stages_try; [by apply stages_op|]. intros _.
  apply stages_try; [apply stages_trash_name|]. intros entry. by apply stages_op.
Qed.

Lemma stages_cleanup t : stages t (cleanup_orphans OrphanKind_Staging).
Proof.
  unfold cleanup_orphans. apply stages_try; [by apply stages_err, stages_read|]. intros names.
  generalize 0%nat. induction names as [|name names IH]; intros index; cbn [orphans_loop]; [apply stages_ret|].
  destruct (_ <=? _)%nat; [apply stages_ret|]. apply stages_try; [apply stages_ret|]. intros _.
  apply stages_try; [apply stages_err, stages_set_aside|]. intros _. apply IH.
Qed.

(** *** What is staged *)

Lemma ok_staged_dir t name files :
  oks t free (fun w => staged_files name files w /\ admitted t w) (private_dir Area_Staging name)
    (fun r w => on_ok (fun _ => staged_files name files) r w /\ admitted t w).
Proof.
  destruct files as [|f files].
  { eapply ok_weaken; [apply (ok_staging_op t (Op_MakeDirectory Area_Staging name) eq_refl)|by intros w _ []|].
    by intros [] w _ Hh. }
  apply ok_step.
  - intros w x w' Hi [Hs Hh] He. destruct Hs as (d & Hd & Hf).
    pose proof (private_dir_present _ _ _ _ _ _ _ Hd He) as ->.
    split; [apply guar_refl|]. split; [done|]. split; [|done]. destruct x; [|done]. by exists d.
  - intros [a|e]; [apply staged_stable|]. apply stable_and; [apply stable_const|apply holds_stable].
Qed.

Lemma ok_write_staged t name files file content :
  Forall (fun entry => entry.1 <> file) files ->
  oks t free (fun w => staged_files name files w /\ admitted t w)
    (write_bytes (Place_Job Area_Staging name) file content)
    (fun r w => on_ok (fun _ => staged_files name ((file, content) :: files)) r w /\ admitted t w).
Proof.
  intros Hne. unfold write_bytes. destruct (_ <? _); [by intros w _ []|].
  eapply ok_try_admitted; [apply ok_staged_dir|]. intros x. apply ok_step.
  - intros w r w' Hi [Hs Hh] He.
    pose proof (staging_op_same t (Op_Replace (Place_Job Area_Staging name) file content) w r w' eq_refl He) as Hst.
    split; [by apply staging_step|]. split; [done|]. split; [|unfold holds; by rewrite (staged_only_locks _ _ Hst)].
    destruct He as [[c He] _]. cbn [perform] in He. injection He as He. cbn [files_at set_files] in He.
    destruct (directory w Area_Staging name) as [d|] eqn:Hd; cbn [fmap option_fmap option_map] in He; [|by injection He as <- <-].
    apply faulty_cases in He as [[_ [e ->]] | [-> [-> | [e ->]]]]; try done.
    exists (mkJobDir (JobDir_inode d) (<[file := content]> (JobDir_files d)) (JobDir_workspace d)).
    split; [unfold directory; cbn [area set_directory set_area staging]; by rewrite lookup_insert_eq|]. constructor; [cbn [fst snd JobDir_files]; by rewrite lookup_insert_eq|].
    destruct files as [|f files]; [constructor|]. destruct Hs as (d' & Hd' & Hf). rewrite Hd in Hd'. injection Hd' as <-.
    apply Forall_forall. intros entry He. rewrite Forall_forall in Hne, Hf. cbn [JobDir_files].
    rewrite lookup_insert_ne by (intros ->; by apply (Hne entry)). by apply Hf.
  - intros [a|e]; [apply staged_stable|]. apply stable_and; [apply stable_const|apply holds_stable].
Qed.

(** Steps that are calm leave what is staged. *)
Lemma ok_staged_calm {T} t name files P (p : Job T) Q :
  oks t (calm t) P p Q ->
  oks t free (fun w => P w /\ staged_files name files w /\ admitted t w) p
    (fun r w => Q r w /\ staged_files name files w /\ admitted t w).
Proof.
  intros H. apply (ok_free _ (calm t)). apply ok_frame; [apply staged_stable| |done].
  intros w w' _ [Hs Hh] [[Hst _ _] Hl]. split; [by eapply staged_same|]. unfold holds. by rewrite Hl.
Qed.

Lemma payload_of_frame {T} (to_vec : T -> option (list N)) request encoded body :
  frame to_vec request = Ok encoded -> payload encoded = Ok body ->
  to_vec request = Some body /\ N.of_nat (length body) <= MAX_CONTROL_BYTES.
Proof.
  unfold frame. destruct (to_vec request) as [j|]; cbn [ok_or]; [|done].
  destruct (N.ltb_spec MAX_CONTROL_BYTES (N.of_nat (length j))) as [|Hl]; [done|].
  rewrite (proj2 (N.leb_le _ u32_max)) by (unfold u32_max, MAX_CONTROL_BYTES in *; lia). intros Hf Hp.
  assert (Hf' : encoded = (to_be_bytes 4 (N.of_nat (length j)) ++ j)%list) by congruence.
  rewrite Hf', payload_frame in Hp by done. injection Hp as <-. done.
Qed.

(** The directory that is published is whole, and its job accepted. *)
Lemma publish_step t name request body initial place x w w' :
  request_to_vec request = Some body -> N.of_nat (length body) <= MAX_CONTROL_BYTES -> is_run request = true ->
  state_to_vec JobState_accepted = Some initial -> N.of_nat (length initial) <= MAX_RECORD_BYTES -> place <= u64_max ->
  staged_files name [(ORDER, u64_to_string place); (STATE, initial); (SPEC, body)] w -> admitted t w -> invariant w ->
  exec t (Op_Publish name) w x w' -> guarantee t w w' /\ (forall a, x = Ok a -> known name w') /\ locks w' = locks w.
Proof.
  intros Hbody Hlen Hrun Hinit Hlen' Hplace (d & Hd & Hf) Hh Hi [[c He] [_ Hends]].
  specialize (Hends name eq_refl). cbn [perform] in He. injection He as He.
  unfold directory in Hd. cbn [area] in Hd. destruct (staging w !! name) as [[d'|]|]; try done. injection Hd as ->.
  apply Forall_cons in Hf as [Ho Hf]. apply Forall_cons in Hf as [Hs Hf]. apply Forall_cons in Hf as [Hq _]. cbn in Ho, Hs, Hq.
  assert (Hds : dir_state d = Some JobState_accepted).
  { unfold dir_state. rewrite Hs. cbn. by rewrite (stored_job_read_back JobState_accepted). }
  assert (Hw : whole d).
  { split; [|split; [by rewrite Hds|]].
    - exists request. split; [|done]. unfold dir_request. rewrite Hq. cbn. unfold decode_payload.
      rewrite (proj2 (N.ltb_ge _ _)) by done. by rewrite (request_read_back _ _ Hbody).
    - unfold dir_order. rewrite Ho. cbn. by rewrite number_read_back. }
  destruct (match jobs w !! name with Some (Node_dir old) => untouched old | Some Node_other => false | None => true end)
    eqn:Hj; [|injection He as <- <-; by split_and!; [apply guar_refl|..]].
  assert (Hold : forall old, jobs w !! name = Some old -> exists d0, old = Node_dir d0 /\ coreless d0).
  { intros old Ho'. rewrite Ho' in Hj. destruct old as [d0|]; [|done]. exists d0. split; [done|].
    unfold untouched in Hj. apply andb_true_iff in Hj as [Hj _]. apply bool_decide_eq_true in Hj.
    unfold coreless. by rewrite Hj, !lookup_empty. }
  apply faulty_cases in He as [[-> [e ->]] | [-> Hx]]; [by split_and!; [apply guar_refl|..]|].
  split_and!; [|intros _ _; unfold known; cbn; set_solver|done]. split; cbn; try done.
  - intros l. apply lock_moved_refl.
  - set_solver.
  - by right.
  - intros name'. destruct (decide (name' = name)) as [->|Hne].
    + rewrite lookup_insert_eq. apply move_published; try done; [|cbn; set_solver]. apply Hends. cbn. intros Heq.
      assert (Hn : jobs w !! name = Some (Node_dir d)) by (rewrite <- Heq; apply lookup_insert_eq).
      destruct (Hold _ Hn) as (d0 & [= <-] & Hc). by apply coreless_not_whole in Hc.
    + rewrite lookup_insert_ne by done. apply move_same.
Qed.

Lemma ok_stage t job request archive :
  oks t free (fun w => True /\ admitted t w) (stage job request archive)
    (fun r w => on_ok (fun _ => known (as_str job)) r w /\ admitted t w).
Proof.
  set (name := as_str job). unfold stage.
  assert (Hstages : forall T (p : Job (result T JobStoreError)), stages t p ->
    oks t free (fun w => True /\ admitted t w) p (fun r w => on_ok (fun _ _ => True) r w /\ admitted t w)).
  { intros T p Hp. eapply ok_weaken; [exact Hp|by intros w _ []|]. by intros [] w. }
  eapply ok_try_admitted; [apply Hstages; by apply stages_err, stages_op|]. intros x1.
  destruct (is_run request) eqn:Hrun.
  2:{ eapply ok_try_admitted with (R := fun _ _ => False); [|intros x2; eapply ok_pre; [apply ok_false|by intros w _ []]].
      destruct request, archive; try done; by intros w _ []. }
  eapply ok_try_admitted.
  { apply Hstages. destruct request as [| |sub command [|expected]| | | | | |]; try done; destruct archive as [archive|];
      try apply stages_ret. destruct (bool_decide _); [apply stages_extract_archive|apply stages_ret]. }
  intros x2. eapply ok_try_admitted with (R := fun encoded _ => frame request_to_vec request = Ok encoded).
  { intros w _ [_ Hh]. split; [|done]. by destruct (frame request_to_vec request). }
  intros encoded. eapply ok_try_admitted with (R := fun body _ =>
    request_to_vec request = Some body /\ N.of_nat (length body) <= MAX_CONTROL_BYTES).
  { intros w _ [Hf Hh]. split; [|done]. destruct (payload encoded) as [body|] eqn:Hp; [|done]. by eapply payload_of_frame. }
  intros body.
  destruct (decide (request_to_vec request = Some body /\ N.of_nat (length body) <= MAX_CONTROL_BYTES)) as [[Hb Hl]|Hno];
    [|eapply ok_pre; [apply ok_false|by intros w _ [? _]]].
  eapply ok_try_admitted with (R := fun _ => staged_files name [(SPEC, body)]).
  { apply ok_err. eapply ok_weaken; [apply (ok_write_staged t name []); constructor|by intros w _ [_ ?]|by intros [] w]. }
  intros x3. eapply ok_try_admitted with (R := fun initial w => state_to_vec JobState_accepted = Some initial /\
    staged_files name [(SPEC, body)] w).
  { intros w _ [Hs Hh]. split; [|done]. by destruct (state_to_vec JobState_accepted). }
  intros initial. destruct (decide (state_to_vec JobState_accepted = Some initial)) as [Hinit|Hno];
    [|eapply ok_pre; [apply ok_false|by intros w _ [[? _] _]]].
  destruct (decide (N.of_nat (length initial) <= MAX_RECORD_BYTES)) as [Hlen|Hlen].
  2:{ unfold write_bytes at 1. rewrite (proj2 (N.ltb_lt _ _)) by lia. by intros w _ [_ ?]. }
  eapply ok_try_admitted with (R := fun _ => staged_files name [(STATE, initial); (SPEC, body)]).
  { apply ok_err. eapply ok_weaken; [apply (ok_write_staged t name [(SPEC, body)]); by repeat constructor|by intros w _ [[_ ?] ?]|by intros [] w]. }
  intros x4. eapply ok_try_admitted with (R := fun place w => place <= u64_max /\ staged_files name [(STATE, initial); (SPEC, body)] w).
  { eapply ok_weaken; [apply (ok_staged_calm t name [(STATE, initial); (SPEC, body)]), ok_next_sequence|by intros w _ ?|].
    intros [n|e] w _ (H1 & H2 & H3); split; done. }
  intros place. destruct (decide (place <= u64_max)) as [Hplace|Hno];
    [|eapply ok_pre; [apply ok_false|by intros w _ [[? _] _]]].
  eapply ok_try_admitted with (R := fun _ => staged_files name [(ORDER, u64_to_string place); (STATE, initial); (SPEC, body)]).
  { apply ok_err. eapply ok_weaken; [apply (ok_write_staged t name [(STATE, initial); (SPEC, body)]); by repeat constructor|
      by intros w _ [[_ ?] ?]|by intros [] w]. }
  intros x5. apply ok_err.
  eapply ok_post with (Q := fun (r : result unit StateError) w => on_ok (fun _ => known name) r w /\ admitted t w); [|by intros [] w].
  unfold publish_dir. eapply ok_try_admitted; [apply ok_staged_dir|]. intros x6. apply ok_step.
  - intros w x w' Hi [Hs Hh] He.
    destruct (publish_step t name request body initial place x w w' Hb Hl Hrun Hinit Hlen Hplace Hs Hh Hi He) as (Hg & Hk & Hlk).
    split; [done|]. split; [done|]. split; [|unfold holds; by rewrite Hlk]. destruct x; [by eapply Hk|done].
  - intros [a|e]; apply stable_and; try apply holds_stable; [apply lasting_stable, known_lasting|apply stable_const].
Qed.

(** *** Requests to the store *)

Lemma ok_under_admission {T} t (body : Job (result T JobStoreError)) (Q : T -> World -> Prop) :
  (forall a, forever (Q a)) ->
  oks t free (fun w => True /\ admitted t w) body (fun r w => on_ok Q r w /\ admitted t w) ->
  oks t free (fun _ => True) (let^ admission := locked LockName_Admission in holding admission body) (on_ok Q).
Proof.
  intros HQ Hbody. eapply ok_try_ok with (R := fun id_ w => id_ = LockId_Admission /\ admitted t w).
  - apply ok_err_ok. unfold exclusive.
    eapply ok_try_ok with (R := fun id_ _ => id_ = LockId_Admission).
    { apply ok_err_ok. eapply ok_post; [apply (ok_free _ (calm t)), ok_open_lock; [apply true_lasting|done]|].
      by intros [] w _; [intros []|]. }
    intros id_. eapply ok_try_ok with (R := fun _ w => id_ = LockId_Admission /\ holds t id_ w).
    + apply ok_err_ok. apply ok_lock; [apply lasting_const|done|done].
    + intros x. apply ok_ret_ok. by intros w _ [-> ?].
  - intros id_. eapply ok_bind with (R := fun r w => on_ok Q r w /\ id_ = LockId_Admission).
    + destruct (decide (id_ = LockId_Admission)) as [->|Hne]; [|eapply ok_pre; [apply ok_false|by intros w _ []]].
      eapply ok_weaken; [exact Hbody|by intros w _ []|by intros a w _ []].
    + intros r. eapply ok_bind with (R := fun _ => on_ok Q r); [|by intros x w].
      eapply ok_pre with (P := on_ok Q r); [|by intros w _ []].
      apply ok_unlock; [|done|done]. destruct r; [apply HQ|apply lasting_const].
Qed.

Lemma ok_plain {T} t P (p : Job (result T JobStoreError)) Q :
  oks t (aside t) P p (on_ok Q) ->
  oks t free (fun w => P w /\ admitted t w) p (fun r w => on_ok Q r w /\ admitted t w).
Proof. intros H. eapply ok_free, ok_admitted, H. Qed.

Lemma ok_reserve t submission request archive :
  oks t free (fun _ => True) (reserve submission request archive)
    (on_ok (fun job w => job = JobId_from submission /\ known (as_str job) w)).
Proof.
  unfold reserve. apply ok_under_admission.
  { intros job. apply lasting_and; [apply lasting_const|apply known_lasting]. }
  eapply ok_try_admitted with (R := fun _ _ => True).
  { eapply ok_weaken; [apply stages_cleanup|by intros w _ []|by intros [] w]. }
  intros x1. set (job := JobId_from submission). eapply ok_try_admitted with (R := fun _ _ => True).
  { apply ok_plain. apply ok_err_ok. apply ok_read_only; [done|done|by intros []]. }
  intros [k|].
  - eapply ok_try_admitted; [apply ok_plain, ok_calm, ok_verify_job|]. intros x2.
    assert (Hk : forall T (p : Job (result T JobStoreError)) Q, oks t (aside t) (fun _ => True) p (on_ok Q) ->
      oks t free (fun w => known (as_str job) w /\ admitted t w) p
        (fun r w => on_ok (fun _ => known (as_str job)) r w /\ admitted t w)).
    { intros T p Q Hp. apply ok_plain. eapply ok_post; [eapply ok_pre; [apply (ok_keep t (aside t) (fun _ => True) (known (as_str job)));
        [apply known_lasting|exact Hp]|by intros w]|]. by intros [] w _; [intros []|]. }
    eapply ok_try_admitted; [eapply Hk, ok_calm, ok_read_request|]. intros request'.
    eapply ok_try_admitted with (R := fun _ => known (as_str job)).
    { apply (Hk _ _ (fun _ _ => True)). unfold read_state. apply ok_verified; [by intros w w' []|].
      eapply ok_try_ok with (R := fun _ _ => True).
      - apply ok_err_ok. eapply ok_any. by apply ok_read_bytes.
      - intros [bytes|]; [apply ok_lift|]; by intros a w. }
    intros state. eapply ok_try_admitted with (R := fun _ => known (as_str job)).
    { intros w _ [Hkn Hh]. split; [|done]. by destruct (submission_step _ _). }
    intros x3 w _ [Hkn Hh]. by split.
  - eapply ok_try_admitted; [eapply ok_free, ok_reclaim|]. intros x2.
    eapply ok_try_admitted with (R := fun _ _ => True).
    { apply ok_plain, ok_calm. eapply ok_post; [apply ok_list_jobs|]. by intros [] w. }
    intros jobs_. destruct (_ <=? _)%nat; [by intros w _ []|].
    eapply ok_try_admitted with (R := fun _ _ => True); [by intros w _ []|]. intros x3.
    eapply ok_try_admitted; [apply ok_stage|]. intros x4 w _ [Hkn Hh]. by split.
Qed.

(** A job that was asked to be cleaned, and was, is one that had finished. *)
Lemma ok_clean t target :
  oks t free (fun _ => True) (clean target)
    (on_ok (fun _ w => forall job, target = CleanTarget_Job job -> settled t (as_str job) w)).
Proof.
  unfold clean. apply ok_under_admission.
  { intros _ t' w w' Hi Hg H job Hj. eapply settled_lasting; eauto. }
  assert (Htrash : forall K : World -> Prop, forever K ->
    oks t free (fun w => K w /\ admitted t w) empty_trash (fun _ w => K w /\ admitted t w)).
  { intros K HK. eapply ok_free, ok_admitted, ok_calm.
    eapply ok_weaken; [apply (ok_lasting _ _ _ t (calm t) (fun _ => True) _ (fun _ _ => True) K); [done|apply ok_empty_trash]|by intros w|by intros a w _ []]. }
  destruct target as [job|].
  - eapply ok_try_admitted; [eapply ok_free, ok_clean_one|]. intros cleaned.
    eapply ok_bind; [apply (Htrash (fun w => cleaned = true -> settled t (as_str job) w))|].
    { intros t' w w' Hi Hg H Hc. eapply settled_lasting; eauto. }
    intros x. destruct cleaned; intros w _ [H Hh]; (split; [|done]); [|done].
    intros job' [= <-]. by apply H.
  - eapply ok_try_admitted with (R := fun _ _ => True).
    { apply ok_plain, ok_calm. eapply ok_post; [apply ok_list_jobs|]. by intros [] w. }
    intros jobs_. eapply ok_try_admitted; [eapply ok_free, ok_clean_loop|]. intros count.
    eapply ok_bind; [apply (Htrash (fun _ => True)), true_lasting|]. intros x w _ [_ Hh]. by split.
Qed.
End reserve.
