(* ===== verification/JobRuns.v ===== *)
(** Any number of nodes and supervisors at work on one job store: however their steps interleave, and whatever
    fails or is killed, jobs are neither corrupted nor lost.  Then the job store on concrete inputs: schedules
    that can be played, a codec for the samples, and what happens on them. *)

From Stdlib Require Import NArith ZArith Lia String Ascii.
From stdpp Require Import base gmap list strings relations.
From S2P Require Import Prelude SortedLists RustStr ChatWire Domain JobState Wire Programs RustText JobDisk.
From S2P Require Import JobStore JobService JobSteps JobFunctions JobReserve.

Section runs.
Context `{laws : JobLibrariesLaws}.
Variable macos : bool.
Variable build : BuildId.
Variable io_text : IoError -> string.
Variable app_text : AppError -> string.
Variable chat : ChatRequest -> result ChatReply AppError.

Abbreviation guarantee := (guar (libraries := libraries)).
Abbreviation invariant := (Inv (libraries := libraries)).
Abbreviation oks := (ok exec invariant guarantee).

(** *** Programs that keep to the guarantee *)

Definition safe {T} (t : N) (p : Job T) : Prop := oks t free (fun _ => True) p (fun _ _ => True).

Lemma safe_ret {T} t (a : T) : safe t (Ret a).
Proof. by intros w. Qed.

Lemma safe_bind {A B} t (p : Job A) (f : A -> Job B) : safe t p -> (forall a, safe t (f a)) -> safe t (prog_bind p f).
Proof. intros Hp Hf. eapply ok_bind; [exact Hp|exact Hf]. Qed.

Lemma safe_try {A B E} t (p : Job (result A E)) (f : A -> Job (result B E)) :
  safe t p -> (forall a, safe t (f a)) -> safe t (prog_try p f).
Proof. intros Hp Hf. apply safe_bind; [done|]. intros [a|e]; [apply Hf|apply safe_ret]. Qed.

Lemma safe_err {A E F} t (f : E -> F) (p : Job (result A E)) : safe t p -> safe t (prog_err f p).
Proof. intros Hp. apply safe_bind; [done|]. intros r. apply safe_ret. Qed.

Lemma safe_from {T E} t G (p : Job (result T E)) Q : oks t G (fun _ => True) p (on_ok Q) -> safe t p.
Proof. intros H. eapply ok_free, ok_post; [exact H|done]. Qed.

Lemma safe_read t op : read_only op = true -> safe t (call op).
Proof. intros Hr. by apply ok_read_only. Qed.

Lemma safe_ask t q : safe t (call (Op_Ask q)).
Proof. by apply safe_read. Qed.

Lemma safe_unlock t id_ : safe t (drop_lock id_).
Proof. eapply ok_post; [by apply (ok_unlock t free (fun _ => True)); [apply true_lasting|..]|done]. Qed.

Lemma safe_holding {T} t id_ (body : Job T) : safe t body -> safe t (holding id_ body).
Proof.
  intros Hb. unfold holding. apply safe_bind; [done|]. intros r. apply safe_bind; [apply safe_unlock|].
  intros x. apply safe_ret.
Qed.

Lemma safe_open_store t : safe t open_store.
Proof. eapply safe_from, ok_open_store. Qed.
Lemma safe_status t job : safe t (status job).
Proof. eapply safe_from, ok_status. Qed.
Lemma safe_transition t job event : safe t (transition job event).
Proof. eapply safe_from, ok_transition. Qed.
Lemma safe_finish_launch_failure t job reason : safe t (finish_launch_failure job reason).
Proof. eapply safe_from, ok_finish_launch_failure. Qed.
Lemma safe_launch_lock t job : safe t (launch_lock job).
Proof. eapply safe_from, ok_launch_lock. Qed.
Lemma safe_worker_lock t job : safe t (worker_lock job).
Proof. eapply safe_from, ok_worker_lock. Qed.
Lemma safe_request_cancel t job : safe t (request_cancel job).
Proof. eapply safe_from, ok_request_cancel. Qed.
Lemma safe_cancel_requested t job : safe t (cancel_requested job).
Proof. eapply safe_from, ok_cancel_requested. Qed.
Lemma safe_wait t job : safe t (wait job).
Proof. eapply safe_from, ok_wait. Qed.
Lemma safe_log_tail t job : safe t (log_tail job).
Proof. eapply safe_from, ok_log_tail. Qed.
Lemma safe_workspace t job : safe t (workspace job).
Proof. eapply safe_from, ok_workspace. Qed.
Lemma safe_list_jobs t : safe t list_jobs.
Proof. eapply safe_from, ok_list_jobs. Qed.
Lemma safe_clean t target : safe t (clean target).
Proof. eapply safe_from, ok_clean. Qed.
Lemma safe_reserve t submission request archive : safe t (reserve submission request archive).
Proof. eapply safe_from, ok_reserve. Qed.
Lemma safe_verify_job t job : safe t (verify_job job).
Proof. eapply safe_from, ok_verify_job. Qed.
Lemma safe_read_request t job : safe t (read_request job).
Proof. eapply safe_from, ok_read_request. Qed.

Lemma safe_file_op t op p file : file_op op = Some (p, file) -> outside p file -> safe t (call op).
Proof.
  intros Hop Ho. eapply ok_free, ok_post; [apply (ok_file_op t (fun _ => True) op p file Hop Ho), true_lasting|done].
Qed.

(** Appending where a job is known to be *)
Lemma safe_open_append t (job : JobId) file :
  noncore file -> oks t free (known (as_str job)) (open_append (paths job) file) (fun _ _ => True).
Proof.
  intros Hn. eapply ok_free, ok_post; [by apply (ok_open_append t (paths job) file (known (as_str job)));
    [|apply known_lasting|]|done].
Qed.

Lemma safe_locked t l : lock_known l = (fun _ => True) -> l <> LockName_Admission -> safe t (locked l).
Proof.
  intros Hk Hne. eapply safe_from, (ok_locked t l (fun _ => True)); [done|apply true_lasting|]. intros w _. by rewrite Hk.
Qed.

#[local] Hint Resolve safe_ret safe_ask safe_unlock safe_open_store safe_status safe_transition
  safe_finish_launch_failure safe_launch_lock safe_worker_lock safe_request_cancel safe_cancel_requested safe_wait
  safe_log_tail safe_workspace safe_list_jobs safe_clean safe_reserve safe_verify_job safe_read_request : safe.

(** Takes a program apart; what is left are the calls nothing is known about. *)
Ltac safe_step :=
  lazymatch goal with
  | |- safe _ (prog_try _ _) => apply safe_try; [|intros ?]
  | |- safe _ (prog_bind _ _) => apply safe_bind; [|intros ?]
  | |- safe _ (prog_err _ _) => apply safe_err
  | |- safe _ (in_store _) => apply safe_err
  | |- safe _ (holding _ _) => apply safe_holding
  | |- safe _ (prog_lift _) => apply safe_ret
  | |- safe _ (prog_ok _) => apply safe_ret
  | |- safe _ (prog_fail _) => apply safe_ret
  | |- safe _ (match ?x with _ => _ end) => destruct x
  | |- safe _ _ => solve [auto with safe]
  end.
Ltac safe_auto := repeat safe_step.

(** *** Nodes *)

Lemma safe_receive_loop t path fuel : forall remaining reads hashed,
  safe t (receive_loop fuel path remaining reads hashed).
Proof.
  induction fuel as [|fuel IH]; intros remaining reads hashed; cbn [receive_loop]; [apply safe_ret|].
  destruct (remaining =? 0); [apply safe_ret|]. destruct (read_chunk _ _) as [chunk reads'].
  apply safe_try; [apply safe_ret|]. intros [|b bs]; [apply safe_ret|].
  apply safe_try; [apply safe_err; by eapply safe_file_op|]. intros x. apply IH.
Qed.

Lemma safe_drop_received t received : safe t (drop_received received).
Proof. unfold drop_received. apply safe_bind; [by eapply safe_file_op|]. intros x. apply safe_unlock. Qed.

Lemma safe_receive_archive t reads snapshot : safe t (receive_archive reads snapshot).
Proof.
  unfold receive_archive. apply safe_try; [by apply safe_locked|]. intros lock.
  apply safe_bind.
  - apply safe_try.
    + unfold cleanup_orphans. apply safe_try; [by apply safe_err, safe_read|]. intros names.
      generalize 0%nat. induction names as [|name names IH]; intros index; cbn [orphans_loop]; [apply safe_ret|].
      destruct (_ <=? _)%nat; [apply safe_ret|]. apply safe_try; [apply safe_ret|]. intros x.
      apply safe_try; [|intros y; apply IH]. apply safe_try; [by apply safe_err, safe_read|]. intros [file|]; [|apply safe_ret].
      apply safe_err. by eapply safe_file_op.
    + intros x. apply safe_try.
      { unfold new_job_id. apply safe_bind; [by apply safe_read|]. intros [bytes|]; apply safe_ret. }
      intros id_. apply safe_try; [apply safe_err; unfold create_empty; apply safe_try; [apply safe_ret|]; intros y; by eapply safe_file_op|].
      intros y. apply safe_try; [|intros z; apply safe_ret].
      apply safe_err. unfold open_append. apply safe_try; [apply safe_ret|]. intros z. by eapply safe_file_op.
  - intros [path|e]; [|safe_auto]. apply safe_bind; [apply safe_receive_loop|].
    intros [hashed|e]; [|apply safe_bind; [apply safe_drop_received|]; intros x; apply safe_ret].
    destruct (negb _); [|apply safe_ret]. apply safe_bind; [apply safe_drop_received|]. intros x. apply safe_ret.
Qed.

Lemma safe_start_worker t job : safe t (start_worker macos job).
Proof. unfold start_worker. safe_auto. Qed.

Lemma safe_kill t job : safe t (kill job).
Proof. unfold kill. safe_auto. Qed.

#[local] Hint Resolve safe_start_worker safe_kill safe_receive_archive safe_drop_received : safe.

Lemma safe_handle t request archive : safe t (handle macos build chat request archive).
Proof. unfold handle. safe_auto. Qed.

#[local] Hint Resolve safe_handle : safe.

Lemma safe_node t request reads trailing : safe t (node macos build chat request reads trailing).
Proof. unfold node. safe_auto. Qed.

(** *** Supervisors *)

Lemma safe_admit_loop t rounds job : safe t (admit_loop io_text rounds job).
Proof. induction rounds as [|rounds IH]; cbn [admit_loop]; safe_auto; apply IH. Qed.

Lemma safe_watch_loop t rounds job : safe t (watch_loop rounds job).
Proof. induction rounds as [|rounds IH]; cbn [watch_loop]; safe_auto; apply IH. Qed.

#[local] Hint Resolve safe_admit_loop safe_watch_loop : safe.

Lemma safe_wait_command t rounds job : safe t (wait_command rounds job).
Proof. unfold wait_command. safe_auto. Qed.

Lemma safe_finish_logged t job completion stopped relayed : safe t (finish_logged io_text job completion stopped relayed).
Proof. unfold finish_logged. safe_auto. Qed.

#[local] Hint Resolve safe_wait_command safe_finish_logged : safe.

Lemma safe_run_logged t rounds job : safe t (run_logged io_text rounds job).
Proof. unfold run_logged. safe_auto. Qed.

#[local] Hint Resolve safe_run_logged : safe.

(** What comes after a question about a job may use that the job is there. *)
Lemma safe_try_known {A B E} t (p : Job (result A E)) (f : A -> Job (result B E)) (job : JobId) :
  oks t free (fun _ => True) p (on_ok (fun _ => known (as_str job))) ->
  (forall a, oks t free (known (as_str job)) (f a) (fun _ _ => True)) -> safe t (prog_try p f).
Proof. intros Hp Hf. eapply ok_try; [exact Hp|exact Hf|done]. Qed.

Lemma safe_any {T} t (P : World -> Prop) (p : Job T) : safe t p -> oks t free P p (fun _ _ => True).
Proof. apply ok_any. Qed.

Lemma safe_run_admitted t rounds job input required : safe t (run_admitted io_text rounds job input required).
Proof.
  unfold run_admitted. apply safe_bind; [auto with safe|]. intros [[[]|e]|]; [|safe_auto..].
  apply safe_bind; [|intros [[]|e]; safe_auto].
  apply safe_try; [safe_auto|]. intros x1. apply safe_try; [safe_auto|]. intros x2.
  apply safe_bind; [apply safe_ask|]. intros launch. apply safe_try; [apply safe_ret|]. intros x3.
  apply (safe_try_known t _ _ job).
  - eapply ok_free, ok_err_ok, ok_cancel_requested.
  - intros [|].
    + apply safe_any. safe_auto.
    + eapply ok_bind with (R := fun _ _ => True); [|intros [a|e]; by intros w].
      do 2 apply ok_err. by apply safe_open_append.
Qed.

#[local] Hint Resolve safe_run_admitted : safe.

Lemma safe_run_worker t rounds job : safe t (run_worker io_text rounds job).
Proof. unfold run_worker. safe_auto. Qed.

#[local] Hint Resolve safe_run_worker : safe.

Lemma safe_worker t rounds job : safe t (worker io_text app_text rounds job).
Proof.
  unfold worker. apply safe_bind; [safe_auto|]. intros opened. apply safe_bind; [safe_auto|]. intros [[a|error]|]; [safe_auto| |safe_auto].
  apply safe_bind; [safe_auto|]. intros [b|e]; [|safe_auto].
  eapply ok_bind; [eapply ok_free, ok_verify_job|]. intros found.
  eapply ok_bind with (R := fun _ _ => True); [|intros x; apply safe_any; safe_auto].
  destruct found as [c|e]; [|by intros w]. cbn [on_ok].
  eapply ok_bind with (R := fun _ => known (as_str job)).
  - eapply ok_post; [eapply ok_pre; [apply (ok_lasting _ _ _ t free (fun w => known (as_str job) w) _ (fun _ _ => True) (known (as_str job)));
      [apply known_lasting|by apply safe_open_append]|by intros w]|by intros r w _ []].
  - intros [d|e]; [|by intros w]. eapply ok_bind with (R := fun _ _ => True); [|by intros x w].
    apply safe_any. by eapply safe_file_op.
Qed.

(** ** Processes *)

(** The programs a machine starts: a node for a request, with whatever follows it on its input, and a
    supervisor for a job. *)
Inductive startable : Prog answer unit -> Prop :=
| startable_node request reads trailing :
    startable (let~ r := node macos build chat request reads trailing in Ret tt)
| startable_worker rounds job :
    startable (let~ r := worker io_text app_text rounds job in Ret tt).

Abbreviation step := (interleave exec release_all startable).

Lemma startable_ok t p : startable p -> exists G, oks t G (fun _ => True) p (fun _ _ => True).
Proof.
  intros [request reads trailing|rounds job]; exists free.
  - apply safe_bind; [apply safe_node|]. intros r. apply safe_ret.
  - apply safe_bind; [apply safe_worker|]. intros r. apply safe_ret.
Qed.

Lemma release_all_ok t w : invariant w -> invariant (release_all t w) /\ guarantee t w (release_all t w).
Proof.
  intros Hi. assert (Hg : guarantee t w (release_all t w)).
  { split; cbn; [|done|done|set_solver|by left|intros name; destruct (jobs w !! name); apply move_same]. intros l.
    destruct (locks w !! l) as [o|] eqn:Hl.
    - destruct (decide (o = t)) as [->|Hne].
      + right. right. split; [done|]. apply map_lookup_filter_None_2. right. intros o Ho. naive_solver.
      + left. by apply map_lookup_filter_Some_2.
    - left. apply map_lookup_filter_None_2. by left. }
  split; [by eapply guar_Inv|done].
Qed.

Definition idle (c : Config (Op := Op) (answer := answer) (Tid := N) (W := World)) : Prop := forall t, threads c t = None.

Abbreviation proved := (Programs.proved exec invariant guarantee (fun _ _ => True)).

Lemma idle_proved c : idle c -> invariant (world c) -> proved c.
Proof. intros Hidle Hi. by apply proved_start. Qed.

Lemma steps_sound c c' : rtc step c c' -> proved c ->
  proved c' /\ rtc (moved invariant guarantee) (world c) (world c').
Proof.
  intros Hruns Hc.
  exact (interleavings_sound exec invariant guarantee release_all startable release_all_ok (fun _ _ => True)
    (fun t => stable_const _ _ t True) (fun _ _ _ => I) startable_ok c c' Hruns Hc).
Qed.


(** ** What a job goes through *)

Lemma advance_all_app s events1 s1 events2 :
  advance_all s events1 = (s1, Ok tt) -> advance_all s (events1 ++ events2) = advance_all s1 events2.
Proof.
  revert s. induction events1 as [|e events1 IH]; intros s; cbn [advance_all app]; [by intros [= ->]|].
  destruct (advance s e) as [s' [[]|err]]; [apply IH|done].
Qed.

Lemma advance_all_one s e s' : advance s e = (s', Ok tt) -> advance_all s [e] = (s', Ok tt).
Proof. intros H. cbn. by rewrite H. Qed.

(** [d2] is what has become of the job in [d1]. *)
Record continues (d1 d2 : JobDir) : Prop := {
  continues_whole : whole d2;
  continues_request : dir_request d2 = dir_request d1;
  continues_order : dir_order d2 = dir_order d1;
  continues_state : exists s1 s2 events,
    dir_state d1 = Some s1 /\ dir_state d2 = Some s2 /\ advance_all s1 events = (s2, Ok tt);
  continues_workspace :
    is_Some (JobDir_workspace d1) -> JobDir_workspace d2 = JobDir_workspace d1 \/ finished_dir d2
}.

Lemma continues_refl d : whole d -> continues d d.
Proof.
  intros Hw. split; [done..| |by left]. destruct Hw as (_ & [s Hs] & _). by exists s, s, [].
Qed.

Lemma continues_same_core d1 d d' :
  same_core d d' -> (is_Some (JobDir_workspace d) -> JobDir_workspace d' = JobDir_workspace d \/ disposable d) ->
  continues d1 d -> continues d1 d'.
Proof.
  intros Hc Hws [Hw Hr Ho Hs Hk]. pose proof (same_core_state _ _ Hc) as Hst. split.
  - by apply (same_core_whole d d').
  - rewrite <- Hr. destruct Hc as (_ & H1 & _). unfold dir_request. by rewrite H1.
  - rewrite <- Ho. destruct Hc as (_ & _ & _ & H3). unfold dir_order. by rewrite H3.
  - destruct Hs as (s1 & s2 & events & H1 & H2 & Ha). exists s1, s2, events. by rewrite Hst.
  - intros H1. assert (Hfin : finished_dir d -> finished_dir d') by (unfold finished_dir; by rewrite Hst).
    destruct (Hk H1) as [Heq|Hf]; [|right; by apply Hfin].
    destruct Hws as [Hws|Hd]; [by rewrite Heq|left; congruence|right; apply Hfin, Hd, Hw].
Qed.

Lemma continues_advanced d1 d d' s s' e :
  JobDir_files d' !! SPEC = JobDir_files d !! SPEC -> JobDir_files d' !! ORDER = JobDir_files d !! ORDER ->
  JobDir_workspace d' = JobDir_workspace d ->
  dir_state d = Some s -> dir_state d' = Some s' -> advance s e = (s', Ok tt) ->
  continues d1 d -> continues d1 d'.
Proof.
  intros H1 H3 Hws Hs Hs' Ha [Hw Hr Ho Hst Hk]. split.
  - by apply (advanced_whole d d' s s').
  - rewrite <- Hr. unfold dir_request. by rewrite H1.
  - rewrite <- Ho. unfold dir_order. by rewrite H3.
  - destruct Hst as (s1 & s2 & events & Hs1 & Hs2 & Hev). rewrite Hs in Hs2. injection Hs2 as ->.
    exists s1, s', (events ++ [e])%list. split_and!; [done..|]. rewrite (advance_all_app _ _ _ _ Hev). by apply advance_all_one.
  - intros Hsome. rewrite Hws. destruct (Hk Hsome) as [Heq|(s0 & Hs0 & Hf)]; [by left|].
    apply advance_unfinished in Ha. naive_solver.
Qed.

(** What a step of anything makes of a job's directory: it goes on, or it is set aside, which only happens
    to a job that has finished. *)
Lemma continues_step t w w' name d1 d :
  guarantee t w w' -> directory w Area_Jobs name = Some d -> continues d1 d ->
  (exists d', directory w' Area_Jobs name = Some d' /\ continues d1 d') \/
  (directory w' Area_Jobs name = None /\ finished_dir d).
Proof.
  intros Hg Hd Hc. apply directory_jobs in Hd. pose proof (guar_jobs _ _ _ Hg name) as Hm. rewrite Hd in Hm.
  inversion Hm as [o|d0 d' Hsc Hws| |d0 d' s s' e Hin Hwsp H1 H2 Hs Hs' Ha Hh|n Hdis Hh|o d' ? ? Hold]; subst.
  - left. exists d. by rewrite directory_jobs.
  - left. exists d'. rewrite directory_jobs. split; [done|]. by eapply continues_same_core.
  - left. exists d'. rewrite directory_jobs. split; [done|]. by eapply continues_advanced.
  - right. split; [unfold directory; cbn [area]; by replace (jobs w' !! name) with (@None Node)|]. apply Hdis; [done|apply Hc].
  - destruct (Hold _ eq_refl) as (d0 & [= <-] & Hcl). destruct (coreless_not_whole _ Hcl). apply Hc.
Qed.

(** What a step brings where there was no job: nothing, or one that is published as accepted. *)
Lemma appears_step t w w' name :
  guarantee t w w' -> (forall d, directory w Area_Jobs name = Some d -> ~ whole d) ->
  (forall d, directory w' Area_Jobs name = Some d -> ~ whole d) \/
  (exists d, directory w' Area_Jobs name = Some d /\ whole d /\ dir_state d = Some JobState_accepted).
Proof.
  intros Hg Hno. pose proof (guar_jobs _ _ _ Hg name) as Hm.
  destruct (jobs w' !! name) as [[d'|]|] eqn:Hn.
  2-3: left; intros d Hd%directory_jobs; congruence.
  assert (Hd' : directory w' Area_Jobs name = Some d') by (by apply directory_jobs).
  inversion Hm as [o He|d0 ? Hsc Hws He|? Hcl|d0 ? s s' e ? ? H1 H2 Hs Hs' Ha Hh He| |o ? Hw Hacc]; subst.
  - left. rewrite Hd'. intros ? [= <-]. apply Hno. by apply directory_jobs.
  - left. rewrite Hd'. intros ? [= <-]. rewrite (same_core_whole d0 d') by done. apply Hno. by apply directory_jobs.
  - left. rewrite Hd'. intros ? [= <-]. by apply coreless_not_whole.
  - left. rewrite Hd'. intros ? [= <-]. rewrite (advanced_whole d0 d' s s') by done. apply Hno. by apply directory_jobs.
  - right. by exists d'.
Qed.




Definition empty_world : World := mkWorld ∅ ∅ ∅ ∅ ∅ ∅ ∅ 0 ∅ ∅ ∅.

Lemma empty_world_Inv : invariant empty_world.
Proof. split; cbn; [intros name [n Hn]|intros name d Hn]; by rewrite lookup_empty in Hn. Qed.

(** ** Properties *)


(** What has become of the job of [d1] in [d2]: it has the same request and the same place, its state has
    advanced by events of a job, and it keeps its workspace until it has finished. *)
Definition goes_on (d1 d2 : JobDir) : Prop :=
  dir_request d2 = dir_request d1 /\ dir_order d2 = dir_order d1 /\
  exists s1 s2 events,
    dir_state d1 = Some s1 /\ dir_state d2 = Some s2 /\ advance_all s1 events = (s2, Ok tt) /\
    (JobState_kind s2 <> PhaseKind_Finished -> is_Some (JobDir_workspace d1) ->
     JobDir_workspace d2 = JobDir_workspace d1).

Lemma continues_goes_on d1 d2 : continues d1 d2 -> goes_on d1 d2.
Proof.
  intros [Hw Hr Ho (s1 & s2 & events & H1 & H2 & Ha) Hk]. split; [done|]. split; [done|]. exists s1, s2, events.
  split_and!; [done..|]. intros Hu Hws. destruct (Hk Hws) as [|(s & Hs & Hf)]; [done|]. naive_solver.
Qed.

(** In every configuration that can be reached, a directory with a state is whole. *)
Lemma state_whole w name d :
  invariant w -> directory w Area_Jobs name = Some d -> is_Some (dir_state d) -> whole d.
Proof.
  intros Hi Hd [s Hs]. apply directory_jobs in Hd. destruct (inv_whole _ Hi _ _ Hd) as [|(_ & Hn & _)]; [done|].
  unfold dir_state in Hs. by rewrite Hn in Hs.
Qed.

(** Along a run: the job of [d1] goes on, or it was set aside after it had finished. *)
Lemma job_followed c1 c2 name d1 :
  proved c1 -> directory (world c1) Area_Jobs name = Some d1 -> whole d1 -> rtc step c1 c2 ->
  (exists d2, directory (world c2) Area_Jobs name = Some d2 /\ continues d1 d2) \/
  (exists cm dm cr, rtc step c1 cm /\ directory (world cm) Area_Jobs name = Some dm /\ continues d1 dm /\
     finished_dir dm /\ step cm cr /\ directory (world cr) Area_Jobs name = None /\ rtc step cr c2).
Proof.
  intros Hp Hd1 Hw1. revert c2. apply rtc_ind_r.
  - left. exists d1. split; [done|by apply continues_refl].
  - intros c c' Hruns Hstep [(d & Hd & Hc)|(cm & dm & cr & H1 & H2 & H3 & H4 & H5 & H6 & H7)].
    + destruct (steps_sound c1 c Hruns Hp) as [Hpc _].
      destruct (interleave_move exec invariant guarantee release_all startable release_all_ok _ c c' Hstep Hpc)
        as [Heq|[t Hg]]; [left; exists d; by rewrite Heq|].
      destruct (continues_step t _ _ name d1 d Hg Hd Hc) as [|[Hgone Hf]]; [by left|].
      right. exists c, d, c'. split_and!; [done..|apply rtc_refl].
    + right. exists cm, dm, cr. split_and!; [done..|]. by eapply rtc_r.
Qed.

(** Along a run from where there is no job of the name: if there is one afterwards, it was published. *)
Lemma job_traced c1 c2 name :
  proved c1 -> (forall d, directory (world c1) Area_Jobs name = Some d -> ~ whole d) -> rtc step c1 c2 ->
  (forall d, directory (world c2) Area_Jobs name = Some d -> ~ whole d) \/
  (exists ca cb db d2, rtc step c1 ca /\ (forall d, directory (world ca) Area_Jobs name = Some d -> ~ whole d) /\
     step ca cb /\ directory (world cb) Area_Jobs name = Some db /\ dir_state db = Some JobState_accepted /\
     rtc step cb c2 /\ directory (world c2) Area_Jobs name = Some d2 /\ continues db d2).
Proof.
  intros Hp Hno. revert c2. apply rtc_ind_r; [by left|].
  intros c c' Hruns Hstep IH. destruct (steps_sound c1 c Hruns Hp) as [Hpc _].
  destruct (interleave_move exec invariant guarantee release_all startable release_all_ok _ c c' Hstep Hpc)
    as [Heq|[t Hg]].
  - rewrite Heq. destruct IH as [IH|(ca & cb & db & d & H1 & H2 & H3 & H4 & H5 & H6 & H7 & H8)]; [by left|].
    right. exists ca, cb, db, d. split_and!; try done; by eapply rtc_r.
  - destruct IH as [IH|(ca & cb & db & d & H1 & H2 & H3 & H4 & H5 & H6 & Hd & Hc)].
    + destruct (appears_step t _ _ name Hg IH) as [|(d & Hd & Hw & Ha)]; [by left|].
      right. exists c, c', d, d. split_and!; [done..|apply rtc_refl|done|by apply continues_refl].
    + destruct (continues_step t _ _ name db d Hg Hd Hc) as [(d' & Hd' & Hc')|[Hgone _]].
      * right. exists ca, cb, db, d'. split_and!; try done; by eapply rtc_r.
      * left. intros d'. by rewrite Hgone.
Qed.

(** C8: no job is lost.  While any number of nodes and supervisors run, fail and are killed, a job that
    stands in the store goes on: it keeps its request and its place, its state only advances by the
    events of a job, and it keeps its workspace until it has finished.  Only after it has finished can
    it be set aside; and a job that stands under the name after that is another one, which was since
    published there as accepted and has gone on from there.  A name may be used for as many jobs as are
    submitted under it, given that a process which opened a lock of one of them is over by the time the
    next is published. *)
Theorem jobs_are_never_lost (c0 c1 c2 : Config) (name : string) (d1 : JobDir) :
  idle c0 -> invariant (world c0) -> rtc step c0 c1 -> rtc step c1 c2 ->
  directory (world c1) Area_Jobs name = Some d1 -> is_Some (dir_state d1) ->
  (exists d2, directory (world c2) Area_Jobs name = Some d2 /\ goes_on d1 d2) \/
  (exists cm dm sm cr,
     rtc step c1 cm /\ directory (world cm) Area_Jobs name = Some dm /\ goes_on d1 dm /\
     dir_state dm = Some sm /\ JobState_kind sm = PhaseKind_Finished /\
     step cm cr /\ directory (world cr) Area_Jobs name = None /\ rtc step cr c2 /\
     forall d2, directory (world c2) Area_Jobs name = Some d2 -> is_Some (dir_state d2) ->
       exists ca cb db,
         rtc step cr ca /\ (forall d, directory (world ca) Area_Jobs name = Some d -> dir_state d = None) /\
         step ca cb /\ directory (world cb) Area_Jobs name = Some db /\ dir_state db = Some JobState_accepted /\
         rtc step cb c2 /\ goes_on db d2).
Proof.
  intros Hidle Hi0 H01 H12 Hd1 Hs1.
  assert (Hp : forall c, rtc step c0 c -> proved c)
    by (intros c Hc; by destruct (steps_sound c0 c Hc (idle_proved c0 Hidle Hi0))).
  assert (Hw1 : whole d1) by (eapply state_whole; [apply (Hp c1 H01)|exact Hd1|exact Hs1]).
  destruct (job_followed c1 c2 name d1 (Hp c1 H01) Hd1 Hw1 H12)
    as [(d2 & Hd2 & Hc)|(cm & dm & cr & H1m & Hdm & Hc & (sm & Hsm & Hf) & Hset & Hnone & Hr2)].
  { left. exists d2. split; [done|by apply continues_goes_on]. }
  right. exists cm, dm, sm, cr. split_and!; [done|done|by apply continues_goes_on|done..|]. intros d2 Hd2 Hs2.
  assert (H0r : rtc step c0 cr) by (etransitivity; [exact H01|]; eapply rtc_r; [exact H1m|exact Hset]).
  destruct (job_traced cr c2 name (Hp cr H0r)) as [Hno|(ca & cb & db & d2' & Hra & Hno & Hab & Hdb & Hacc & Hb2 & Hd2' & Hcon)];
    [intros d; by rewrite Hnone|exact Hr2|..].
  { destruct (Hno d2 Hd2). eapply state_whole; [|exact Hd2|exact Hs2]. apply Hp. by etransitivity. }
  exists ca, cb, db. split_and!; [done| |done..|].
  - intros d Hd. destruct (dir_state d) as [s|] eqn:Hs; [|done]. destruct (Hno d Hd).
    eapply state_whole; [|exact Hd|by rewrite Hs]. apply Hp. by etransitivity.
  - rewrite Hd2 in Hd2'. injection Hd2' as <-. by apply continues_goes_on.
Qed.
End runs.

(** ** Playing a schedule *)

Abbreviation Config_ := (Config (Op := Op) (answer := answer) (Tid := N) (W := World)).

Section play.
Context `{libraries : JobLibraries}.
Variable macos : bool.
Variable build : BuildId.
Variable io_text : IoError -> string.
Variable app_text : AppError -> string.
Variable chat : ChatRequest -> result ChatReply AppError.

Abbreviation step := (interleave exec release_all (startable macos build io_text app_text chat)).

(** A turn of the schedule: a process starts, takes up to so many steps with one choice for all of
    them, or is over. *)
Inductive Turn :=
| Turn_node (t : N) (request : Request)
| Turn_worker (t : N) (rounds : nat) (job : JobId)
| Turn_act (t : N) (steps : nat) (c : Choice)
| Turn_over (t : N).

(** Whether the process may take the step: it is not over, and no other is still at work on a job
    whose name is given to another. *)
Definition may_act (t : N) (op : Op) (w : World) : bool :=
  bool_decide (t ∉ ended w) &&
  match op with
  | Op_Publish name => bool_decide (set_Forall (fun user => user.2 = name -> user.1 ∈ ended w) (users w))
  | _ => true
  end.

Fixpoint act (steps : nat) (t : N) (c : Choice) (cfg : Config_) : Config_ :=
  match steps with
  | O => cfg
  | S steps =>
      match threads cfg t with
      | Some (Do op k) =>
          if may_act t op (world cfg)
          then match perform t c op (world cfg) with
               | Some (w, x) => act steps t c (mkConfig w (thread_update (threads cfg) t (Some (k x))))
               | None => cfg
               end
          else cfg
      | _ => cfg
      end
  end.

Definition take_turn (turn : Turn) (cfg : Config_) : Config_ :=
  match turn with
  | Turn_node t request =>
      match threads cfg t with
      | None => mkConfig (world cfg) (thread_update (threads cfg) t
                  (Some (let~ r := node macos build chat request [] false in Ret tt)))
      | Some _ => cfg
      end
  | Turn_worker t rounds job =>
      match threads cfg t with
      | None => mkConfig (world cfg) (thread_update (threads cfg) t
                  (Some (let~ r := worker io_text app_text rounds job in Ret tt)))
      | Some _ => cfg
      end
  | Turn_act t steps c => act steps t c cfg
  | Turn_over t =>
      match threads cfg t with
      | Some _ => mkConfig (release_all t (world cfg)) (thread_update (threads cfg) t None)
      | None => cfg
      end
  end.

Definition play (turns : list Turn) (cfg : Config_) : Config_ := fold_left (fun cfg turn => take_turn turn cfg) turns cfg.

(** What is played is an interleaving. *)
Lemma act_sound steps t c : forall cfg, rtc step cfg (act steps t c cfg).
Proof.
  induction steps as [|steps IH]; intros cfg; cbn [act]; [apply rtc_refl|].
  destruct (threads cfg t) as [[a|op k]|] eqn:Ht; try apply rtc_refl.
  destruct (may_act t op (world cfg)) eqn:Hf; [|apply rtc_refl].
  destruct (perform t c op (world cfg)) as [[w x]|] eqn:Hp; [|apply rtc_refl].
  eapply rtc_l; [|apply IH]. destruct cfg as [w0 ts]. cbn [world threads] in *.
  eapply interleave_act; [exact Ht|]. apply andb_true_iff in Hf as [Hl Hf].
  apply bool_decide_eq_true in Hl. split; [by exists c|]. split; [done|].
  intros name -> _ t' Hu. apply bool_decide_eq_true in Hf. by apply (Hf (t', name)).
Qed.

Lemma play_sound turns : forall cfg, rtc step cfg (play turns cfg).
Proof.
  induction turns as [|turn turns IH]; intros cfg; [apply rtc_refl|]. etransitivity; [|apply (IH (take_turn turn cfg))].
  destruct turn as [t request|t rounds job|t steps c|t]; cbn [take_turn]; [..|apply act_sound|];
    destruct cfg as [w ts]; cbn [world threads]; destruct (ts t) eqn:Ht; try apply rtc_refl; apply rtc_once.
  - by apply interleave_start; [|apply startable_node].
  - by apply interleave_start; [|apply startable_worker].
  - by eapply interleave_over.
Qed.
End play.

(** ** Samples *)

Definition encode_outcome (outcome : JobOutcome) : option (list N) :=
  match outcome with
  | JobOutcome_Succeeded => Some [0]
  | JobOutcome_Lost => Some [1]
  | JobOutcome_Killed => Some [2]
  | JobOutcome_MemoryLimitExceeded => Some [3]
  | JobOutcome_LaunchFailed reason => Some (4 :: bytes (as_str reason))
  | JobOutcome_Failed _ => None
  end.
Definition decode_outcome (l : list N) : option JobOutcome :=
  match l with
  | [0] => Some JobOutcome_Succeeded
  | [1] => Some JobOutcome_Lost
  | [2] => Some JobOutcome_Killed
  | [3] => Some JobOutcome_MemoryLimitExceeded
  | 4 :: reason =>
      match RemoteText_try_from (of_bytes reason) with
      | Ok reason => Some (JobOutcome_LaunchFailed reason)
      | Err _ => None
      end
  | _ => None
  end.

Definition sample_state_to_vec (s : JobState) : option (list N) :=
  match phase s with
  | Phase_Accepted => Some [0]
  | Phase_Queued => Some [1]
  | Phase_Starting => Some [2]
  | Phase_Running pid => Some [3; pid]
  | Phase_Finished outcome => (fun l => 4 :: l) <$> encode_outcome outcome
  end.
Definition sample_state_from_slice (l : list N) : option JobState :=
  match l with
  | [0] => Some (mkJobState Phase_Accepted)
  | [1] => Some (mkJobState Phase_Queued)
  | [2] => Some (mkJobState Phase_Starting)
  | [3; pid] => if pid =? 0 then None else Some (mkJobState (Phase_Running pid))
  | 4 :: outcome => (fun o => mkJobState (Phase_Finished o)) <$> decode_outcome outcome
  | _ => None
  end.

Definition sample_command : Command :=
  mkCommand "true" [] I.
Definition submission_1 : SubmissionId :=
  @mkValidated _ SubmissionId_check "00000000000000000000000000000001" I.
Definition submission_2 : SubmissionId :=
  @mkValidated _ SubmissionId_check "00000000000000000000000000000002" I.
Definition run_1 : Request := Request_Run submission_1 sample_command Input_Home.
Definition run_2 : Request := Request_Run submission_2 sample_command Input_Home.

#[local] Instance sample_libraries : JobLibraries := {
  state_to_vec := sample_state_to_vec;
  state_from_slice := sample_state_from_slice;
  request_to_vec r := if decide (r = run_1) then Some [1] else if decide (r = run_2) then Some [2] else None;
  request_from_slice l := match l with [1] => Some run_1 | [2] => Some run_2 | _ => None end;
  digest_hex _ := EmptyString;
  tar_entries _ := Ok [];
  to_lowercase s := s
}.

#[local] Instance sample_laws : JobLibrariesLaws sample_libraries.
Proof.
  split; cbn.
  - intros [[| | |pid|outcome]] b Hwf; cbn; try (by intros [= <-]).
    + intros [= <-]. unfold wf_state in Hwf. cbn in Hwf. unfold sample_state_from_slice.
      rewrite (proj2 (N.eqb_neq pid 0)) by congruence. done.
    + destruct outcome as [|code|reason| | |]; cbn; intros [= <-]; try done. cbn.
      rewrite of_bytes_bytes. unfold RemoteText_try_from.
      by rewrite (proj2 (Validated_try_from_ok _ reason) eq_refl).
  - intros b s. unfold sample_state_from_slice. intros H. repeat case_match; try done; simplify_eq; try done.
    + unfold wf_state. cbn. intros [= ->]. done.
    + destruct (decode_outcome _); [|done]. cbn in H. by injection H as <-.
  - intros r b. case_decide as H1; [intros [= <-]; by subst|]. case_decide as H2; [intros [= <-]; by subst|done].
Qed.

Definition sample_reply (q : Outside) : reply q :=
  match q with
  | Ask_PruneBuilds => Ok tt
  | Ask_PruneStores => Ok tt
  | Ask_Launch _ => Ok tt
  | Ask_Watch _ => Ok tt
  | Ask_Limits => Ok false
  | Ask_Announce => Ok tt
  | Ask_Permit => Ok true
  | Ask_Capacity => Err RecvTimeoutError_Timeout
  | Ask_Home => Ok EmptyString
  | Ask_Prepare _ => Ok tt
  | Ask_Spawn => Ok 7
  | Ask_Wake => Some Wake_Finished
  | Ask_Exit => Ok (Some 0%Z)
  | Ask_Stop => Ok tt
  | Ask_Completion event => Ok event
  | Ask_StopOutput => Ok tt
  | Ask_Relay => Some (Ok (0, 0))
  end.
Definition calm_choice : Choice := mkChoice None (repeat 0 16) id sample_reply.
Definition sample_build : BuildId := BuildId_from_fingerprint 0.
Definition sample_chat (request : ChatRequest) : result ChatReply AppError := Err (AppError_Chat EmptyString).

Definition sample_start : Config_ := mkConfig empty_world (fun _ => None).
Definition sample_play := play false sample_build (fun _ => EmptyString) (fun _ => EmptyString) sample_chat.

Definition job_1 : JobId := JobId_from submission_1.
Definition submitted : Config_ := sample_play [Turn_node 1 run_1; Turn_act 1 200 calm_choice; Turn_over 1] sample_start.
Definition supervised : Config_ :=
  sample_play [Turn_worker 2 3 job_1; Turn_act 2 400 calm_choice; Turn_over 2] submitted.

(** The job is cleaned once it has finished, and submitted again under the same identifier. *)
Definition resubmitted : Config_ :=
  sample_play
    [Turn_node 3 (Request_Clean (CleanTarget_Job job_1)); Turn_act 3 200 calm_choice; Turn_over 3;
     Turn_node 4 run_1; Turn_act 4 200 calm_choice; Turn_over 4] supervised.

Definition state_of (c : Config_) (job : JobId) : option JobState := directory (world c) Area_Jobs (as_str job) ≫= dir_state.

(** The status of a finished job is asked for while the job is cleaned: the node that asks has seen that
    the directory is there, then the other sets it aside, then the first opens its lock file. *)
Definition raced : Config_ :=
  sample_play
    [Turn_node 3 (Request_Status job_1); Turn_act 3 10 calm_choice;
     Turn_node 4 (Request_Clean (CleanTarget_Job job_1)); Turn_act 4 200 calm_choice; Turn_over 4;
     Turn_act 3 200 calm_choice; Turn_over 3] supervised.

(** The reply a node gives when nothing fails and nothing else runs *)
Definition reply_to (c : Config_) (request : Request) : option (result Reply AppError) :=
  match run perform 9 (fun _ => calm_choice) 0 (node false sample_build sample_chat request [] false) (world c) with
  | Some (_, r, _) => Some r
  | None => None
  end.

Definition accepts (reply : option (result Reply AppError)) : option string :=
  match reply with Some (Ok (Reply_Accepted job)) => Some (as_str job) | _ => None end.

(** The job's directory is back without its files, and from then on every submission is refused as
    missing, and the directory can be cleaned neither by its name nor with the finished jobs; before,
    the same submission is accepted. *)
Lemma abandoned_directory_blocks_submissions :
  (map_to_list ∘ JobDir_files <$> directory (world raced) Area_Jobs (as_str job_1)) =
    Some [("state.lock", []); ("launch.lock", [])]%string /\
  reply_to raced run_2 = Some (Ok (Reply_Error ErrorCode_MissingJob)) /\
  reply_to raced (Request_Clean CleanTarget_Finished) = Some (Ok (Reply_Error ErrorCode_MissingJob)) /\
  reply_to raced (Request_Clean (CleanTarget_Job job_1)) = Some (Ok (Reply_Error ErrorCode_MissingJob)) /\
  accepts (reply_to supervised run_2) = Some (as_str submission_2).
Proof. split_and!; vm_compute; reflexivity. Qed.

(** Up to so many steps of a program, and what is left of it *)
Fixpoint advance_program {T} (steps : nat) (t : N) (p : Job T) (w : World) : Job T * World :=
  match steps, p with
  | S steps, Do op k =>
      match perform t calm_choice op w with
      | Some (w, x) => advance_program steps t (k x) w
      | None => (p, w)
      end
  | _, _ => (p, w)
  end.

Definition waiting_node : Job (result Reply AppError) :=
  node false sample_build sample_chat (Request_Wait job_1) [] false.
Definition phase_of (p : Job (result Reply AppError)) : option Phase :=
  match p with Ret (Ok (Reply_Status s)) => Some (phase s) | _ => None end.
Definition waits_for_alive (p : Job (result Reply AppError)) : bool :=
  match p with Do (Op_Lock (LockId_Job LockKind_Alive _)) _ => true | _ => false end.

(** Two nodes wait for a job that runs, both blocked on the lock its supervisor holds; the supervisor is
    killed; the first node takes the lock and gives it back, then the second takes it.  Whether they
    both wait, the answer of the first node, and what it answers when the second comes later. *)
Definition running : World := world (sample_play [Turn_worker 2 3 job_1; Turn_act 2 69 calm_choice] submitted).
Definition two_waiters (first : nat) : bool * option Phase :=
  let '(p3, w) := advance_program 200 3 waiting_node running in
  let '(p4, w) := advance_program 200 4 waiting_node w in
  let w := release_all 2 w in
  let '(p3', w) := advance_program first 3 p3 w in
  let '(p4', w) := advance_program 1 4 p4 w in
  let '(p3'', _) := advance_program 200 3 p3' w in
  (waits_for_alive p3 && waits_for_alive p4, phase_of p3'').

(** The node that waited for the job's end reports a job that runs, since the other waiter is taken for
    the supervisor; alone it would have found the job lost. *)
Lemma waiting_may_end_early :
  two_waiters 2 = (true, Some (Phase_Running 7)) /\
  two_waiters 200 = (true, Some (Phase_Finished JobOutcome_Lost)).
Proof. split; vm_compute; reflexivity. Qed.

(** ** Witnesses *)

Definition sample_step :=
  interleave exec release_all (startable false sample_build (fun _ => EmptyString) (fun _ => EmptyString) sample_chat).


Lemma submitted_reached : rtc sample_step sample_start submitted.
Proof. unfold submitted, sample_play. apply play_sound. Qed.

Lemma supervised_reached : rtc sample_step submitted supervised.
Proof. unfold supervised, sample_play. apply play_sound. Qed.


Lemma resubmitted_reached : rtc sample_step submitted resubmitted.
Proof. etransitivity; [apply supervised_reached|]. unfold resubmitted, sample_play. apply play_sound. Qed.

(** The job has finished, and the one that stands there in the end is a new one. *)
Lemma resubmitted_afresh :
  state_of supervised job_1 = Some (mkJobState (Phase_Finished JobOutcome_Succeeded)) /\
  state_of resubmitted job_1 = Some JobState_accepted.
Proof. split; vm_compute; reflexivity. Qed.

Lemma sample_start_idle : idle sample_start.
Proof. by intros t. Qed.

Lemma submitted_directory :
  exists d, directory (world submitted) Area_Jobs (as_str job_1) = Some d /\ dir_state d = Some JobState_accepted.
Proof.
  assert (Hs : dir_state <$> directory (world submitted) Area_Jobs (as_str job_1) = Some (Some JobState_accepted))
    by (vm_compute; reflexivity).
  destruct (directory (world submitted) Area_Jobs (as_str job_1)) as [d|]; [|discriminate Hs].
  exists d. split; [reflexivity|]. by injection Hs.
Qed.



Lemma jobs_are_never_lost_witness :
  exists d1, directory (world submitted) Area_Jobs (as_str job_1) = Some d1 /\
  ((exists d2, directory (world resubmitted) Area_Jobs (as_str job_1) = Some d2 /\ goes_on d1 d2) \/
   (exists cm dm sm cr,
     rtc sample_step submitted cm /\ directory (world cm) Area_Jobs (as_str job_1) = Some dm /\ goes_on d1 dm /\
     dir_state dm = Some sm /\ JobState_kind sm = PhaseKind_Finished /\
     sample_step cm cr /\ directory (world cr) Area_Jobs (as_str job_1) = None /\ rtc sample_step cr resubmitted /\
     forall d2, directory (world resubmitted) Area_Jobs (as_str job_1) = Some d2 -> is_Some (dir_state d2) ->
       exists ca cb db,
         rtc sample_step cr ca /\
         (forall d, directory (world ca) Area_Jobs (as_str job_1) = Some d -> dir_state d = None) /\
         sample_step ca cb /\ directory (world cb) Area_Jobs (as_str job_1) = Some db /\
         dir_state db = Some JobState_accepted /\ rtc sample_step cb resubmitted /\ goes_on db d2)).
Proof.
  destruct submitted_directory as (d & Hd & Hs). exists d. split; [exact Hd|].
  apply (jobs_are_never_lost false sample_build (fun _ => EmptyString) (fun _ => EmptyString) sample_chat
    sample_start submitted resubmitted (as_str job_1) d sample_start_idle empty_world_Inv submitted_reached
    resubmitted_reached Hd). rewrite Hs. by exists JobState_accepted.
Defined.
