(* ===== verification/Jsonc.v ===== *)
(** jsonc.rs: editing JSON with comments in place.  A text is the list of its UTF-8 bytes and a position a
    number of bytes, as in the code; positions never reach the bound at which the code's saturating
    additions would differ, since a text is shorter than the address space. *)

From Stdlib Require Import NArith Lia String Ascii.
From stdpp Require Import base list strings.
From S2P Require Import Prelude RustStr Wire.

Abbreviation text := (list N).

(** What the code takes from serde_json: whether a text is a JSON value, the string a text denotes, and
    the text of a string. *)
Class JsonLibrary := {
  ignored_from_slice : list N -> option unit;
  string_from_slice : list N -> option string;
  string_to_text : string -> list N
}.

Inductive JsoncError :=
| JsoncError_Document (error : JsonError)
| JsoncError_Value (error : JsonError)
| JsoncError_EmptyPath
| JsoncError_NotObject (what : string)
| JsoncError_DuplicateKey (what : string).

(** ** The standard library on bytes *)

(** [char::is_char_boundary] on the bytes of a string *)
Definition is_char_boundary (l : text) (at_ : nat) : bool :=
  (at_ =? 0)%nat ||
  match l !! at_ with
  | Some b => negb (continuation b)
  | None => (at_ =? length l)%nat
  end.

(** [str::get(from..to)] and [str::get(from..)] *)
Definition get_range (l : text) (from to : nat) : option text :=
  if (from <=? to)%nat && is_char_boundary l from && is_char_boundary l to
  then Some (take (to - from) (drop from l)) else None.
Definition get_from (l : text) (from : nat) : option text :=
  if is_char_boundary l from then Some (drop from l) else None.
Definition unwrap_or_default (o : option text) : text := match o with Some l => l | None => [] end.

(** [str::char_indices], each character as its bytes *)
Fixpoint char_tail (l : text) : text * text :=
  match l with
  | b :: rest => if continuation b then let '(tail, rest) := char_tail rest in (b :: tail, rest) else ([], l)
  | [] => ([], [])
  end.
Fixpoint char_indices (fuel offset : nat) (l : text) : list (nat * text) :=
  match fuel, l with
  | S fuel, b :: rest =>
      let '(tail, rest) := char_tail rest in
      (offset, b :: tail) :: char_indices fuel (offset + S (length tail)) rest
  | _, _ => []
  end.

Definition take_while (p : N -> bool) : text -> text :=
  fix go l := match l with b :: rest => if p b then b :: go rest else [] | [] => [] end.

Fixpoint is_prefix (prefix l : text) : bool :=
  match prefix, l with
  | [], _ => true
  | a :: prefix, b :: l => (a =? b) && is_prefix prefix l
  | _ :: _, [] => false
  end.

Fixpoint contains (needle l : text) : bool :=
  is_prefix needle l || match l with _ :: l => contains needle l | [] => false end.

(** The position of the first match *)
Fixpoint find_position (p : N -> bool) (l : text) : option nat :=
  match l with
  | b :: rest => if p b then Some O else S <$> find_position p rest
  | [] => None
  end.

(** [rest.windows(2).position(|pair| pair == b"*/")] *)
Fixpoint find_close (l : text) : option nat :=
  match l with
  | a :: ((b :: _) as rest) => if (a =? 42) && (b =? 47) then Some O else S <$> find_close rest
  | _ => None
  end.

(** [str::rfind] of a byte *)
Fixpoint rfind (c : N) (l : text) : option nat :=
  match l with
  | b :: rest => match rfind c rest with Some at_ => Some (S at_) | None => if b =? c then Some O else None end
  | [] => None
  end.

(** [str::lines] *)
Fixpoint split_inclusive (l : text) : list text :=
  match l with
  | [] => []
  | b :: rest =>
      if b =? 10 then [b] :: split_inclusive rest
      else match split_inclusive rest with
           | line :: lines => (b :: line) :: lines
           | [] => [[b]]
           end
  end.
Definition strip_last (c : N) (l : text) : option text :=
  match rev l with b :: rest => if b =? c then Some (rev rest) else None | [] => None end.
Definition line_content (line : text) : text :=
  match strip_last 10 line with
  | None => line
  | Some line => match strip_last 13 line with None => line | Some line => line end
  end.
Definition lines (l : text) : list text := map line_content (split_inclusive l).

(** ** Scanning *)

Definition is_space (b : N) : bool := (b =? 32) || (b =? 9) || (b =? 10) || (b =? 13).
Definition is_blank (b : N) : bool := (b =? 32) || (b =? 9).
Definition is_newline (b : N) : bool := (b =? 10) || (b =? 13).
Definition is_close (b : N) : bool := (b =? 93) || (b =? 125).
Definition is_open (b : N) : bool := (b =? 91) || (b =? 123).

Definition trim_start (p : N -> bool) (l : text) : text := drop_while p l.
Definition trim_end (p : N -> bool) (l : text) : text := trim_end_list p l.
Definition trim_matches (l : text) : text := trim_end is_space (trim_start is_space l).

Definition comment_end (bytes : text) (at_ : nat) : option nat :=
  if (length bytes <? at_)%nat then None else
  let rest := drop at_ bytes in
  if is_prefix [47; 47] rest then
    let length_ := match find_position is_newline rest with Some n => n | None => length rest end in
    Some (at_ + length_)%nat
  else if is_prefix [47; 42] rest then
    match find_close (drop 2 rest) with
    | Some length_ => Some (at_ + length_ + 4)%nat
    | None => None
    end
  else None.

(** The fuel is the number of bytes: every round moves on. *)
Fixpoint skip_trivia_loop (fuel : nat) (bytes : text) (at_ : nat) : nat :=
  match fuel with
  | O => at_
  | S fuel =>
      match comment_end bytes at_ with
      | Some end_ => skip_trivia_loop fuel bytes end_
      | None =>
          match bytes !! at_ with
          | Some byte => if is_space byte then skip_trivia_loop fuel bytes (S at_) else at_
          | None => at_
          end
      end
  end.
Definition skip_trivia (bytes : text) (at_ : nat) : nat := skip_trivia_loop (length bytes) bytes at_.

Definition blank_end (bytes : text) (at_ : nat) : nat := (at_ + length (take_while is_blank (drop at_ bytes)))%nat.

(** The loop of [string_end] over the bytes from [offset] *)
Fixpoint string_end_loop (rest : text) (offset : nat) (escaped : bool) : option nat :=
  match rest with
  | [] => None
  | byte :: rest =>
      if escaped then string_end_loop rest (S offset) false
      else if byte =? 92 then string_end_loop rest (S offset) true
      else if byte =? 34 then Some (S offset)
      else string_end_loop rest (S offset) false
  end.
Definition string_end (bytes : text) (at_ : nat) : nat :=
  match string_end_loop (drop (S at_) bytes) (S at_) false with
  | Some end_ => end_
  | None => length bytes
  end.

Fixpoint container_end_loop (fuel : nat) (bytes : text) (cursor depth : nat) : nat :=
  match fuel with
  | O => cursor
  | S fuel =>
      match bytes !! cursor with
      | None => cursor
      | Some byte =>
          let next := S cursor in
          if byte =? 34 then container_end_loop fuel bytes (string_end bytes cursor) depth
          else if byte =? 47 then
            container_end_loop fuel bytes (match comment_end bytes cursor with Some end_ => end_ | None => next end) depth
          else if is_open byte then container_end_loop fuel bytes next (S depth)
          else if is_close byte then
            let depth := (depth - 1)%nat in
            if (depth =? 0)%nat then next else container_end_loop fuel bytes next depth
          else container_end_loop fuel bytes next depth
      end
  end.
Definition container_end (bytes : text) (at_ : nat) : nat := container_end_loop (length bytes) bytes at_ 0.

Definition is_literal (b : N) : bool := is_ascii_alphanumeric b || (b =? 46) || (b =? 43) || (b =? 45).

Definition value_end (bytes : text) (at_ : nat) : nat :=
  match bytes !! at_ with
  | Some byte =>
      if byte =? 34 then string_end bytes at_
      else if is_open byte then container_end bytes at_
      else (at_ + length (take_while is_literal (drop at_ bytes)))%nat
  | None => (at_ + length (take_while is_literal (drop at_ bytes)))%nat
  end.

(** ** [strip] *)

Definition opens_item (previous : N) : bool :=
  (previous =? 91) || (previous =? 123) || (previous =? 44) || (previous =? 58).

(** The ranges that are to be blanked *)
Fixpoint strip_loop (fuel : nat) (bytes : text) (at_ : nat) (previous : N) : list (nat * nat) :=
  match fuel with
  | O => []
  | S fuel =>
      match bytes !! at_ with
      | None => []
      | Some byte =>
          match comment_end bytes at_ with
          | Some end_ => (at_, end_) :: strip_loop fuel bytes end_ previous
          | None =>
              let trailing :=
                (byte =? 44) && negb (opens_item previous)
                && match bytes !! skip_trivia bytes (S at_) with Some b => is_close b | None => false end in
              let previous := if is_space byte then previous else byte in
              let next := if byte =? 34 then string_end bytes at_ else S at_ in
              (if trailing then [(at_, S at_)] else []) ++ strip_loop fuel bytes next previous
          end
      end
  end.

Fixpoint blank_out (pending : list (nat * nat)) (characters : list (nat * text)) : text :=
  match characters with
  | [] => []
  | (offset, character) :: characters =>
      let pending := drop_while (fun range => (range.2 <=? offset)%nat) pending in
      let blank := match pending with range :: _ => (range.1 <=? offset)%nat && (offset <? range.2)%nat | [] => false end in
      let newline_ := match character with [b] => is_newline b | _ => false end in
      (if blank && negb newline_ then [32] else character) ++ blank_out pending characters
  end.

Definition strip (l : text) : text :=
  blank_out (strip_loop (length l) l 0 91) (char_indices (length l) 0 l).

(** ** Finding a member *)

Record Member := mkMember {
  Member_start : nat;
  Member_value : nat;
  Member_end : nat;
  Member_comma : option nat;
  Member_wanted : bool
}.

Record Object := mkObject { Object_open : nat; Object_close : nat; Object_members : list Member }.

Record Missing := mkMissing { Missing_object : Object; Missing_key : string; Missing_rest : list string }.

Inductive Target :=
| Target_Empty
| Target_Missing (missing : Missing)
| Target_Found (previous : option Member) (member : Member).

(** ** Editing *)

Record Layout := mkLayout { Layout_newline : text; Layout_unit : text }.
Definition INLINE : Layout := mkLayout [] [].

Definition line_indent (l : text) (at_ : nat) : text :=
  let head := unwrap_or_default (get_range l 0 at_) in
  let line := match rfind 10 head with Some position => drop (S position) head | None => head end in
  take_while is_blank line.

Fixpoint first_indent (ls : list text) : option text :=
  match ls with
  | [] => None
  | line :: ls =>
      let content := trim_start is_blank line in
      let indent := take_while is_blank line in
      match content, indent with
      | byte :: _, _ :: _ => if byte =? 34 then Some indent else first_indent ls
      | _, _ => first_indent ls
      end
  end.
Definition unit_ (l : text) : text := match first_indent (lines l) with Some indent => indent | None => [32; 32] end.

Definition newline (l : text) : text := if contains [13; 10] l then [13; 10] else [10].

Fixpoint splice_loop (l : text) (edits : list (nat * nat * text)) (cursor : nat) : text :=
  match edits with
  | [] => unwrap_or_default (get_from l cursor)
  | (from, to, replacement) :: edits =>
      unwrap_or_default (get_range l cursor from) ++ replacement ++ splice_loop l edits to
  end.
Definition splice (l : text) (edits : list (nat * nat * text)) : text := splice_loop l edits 0.

Definition whole_lines (l : text) (start end_ : nat) : option (nat * nat) :=
  match get_range l 0 start with
  | None => None
  | Some head =>
      let line := match rfind 10 head with Some position => S position | None => O end in
      match get_from head line with
      | None => None
      | Some before =>
          if negb (forallb is_blank before) then None else
          let after := blank_end l end_ in
          if (length l <? after)%nat then None else
          let after := if is_prefix [47; 47] (drop after l) then comment_end l after else Some after in
          match after with
          | None => None
          | Some after =>
              let after := if match l !! after with Some b => b =? 13 | None => false end then S after else after in
              match l !! after with
              | Some b => if b =? 10 then Some (line, S after) else None
              | None => None
              end
          end
      end
  end.

Definition removal (l : text) (previous : option Member) (member : Member) : text :=
  let own := match Member_comma member with Some comma => S comma | None => Member_end member end in
  let dangling :=
    match previous with
    | Some before => match Member_comma member with None => Member_comma before | Some _ => None end
    | None => None
    end in
  let edits :=
    match whole_lines l (Member_start member) own, dangling with
    | Some lines, Some comma => [(comma, S comma, []); (lines.1, lines.2, [])]
    | Some lines, None => [(lines.1, lines.2, [])]
    | None, Some comma => [(comma, Member_end member, [])]
    | None, None => [(Member_start member, blank_end l own, [])]
    end in
  splice l edits.

(** The root that [set_member] makes of a text without a value *)
Definition fresh_root (document : text) : text :=
  let comments := trim_end is_space document in
  let line := newline document in
  match comments with
  | [] => [123; 125] ++ line
  | _ => comments ++ line ++ [123; 125] ++ line
  end.

(** ** The operations *)

Section edit.
Context `{json_library : JsonLibrary}.

(** [ingress::foreign_json] on the bytes of a text *)
Definition valid_json (l : text) : result unit JsonError := json ignored_from_slice l MAX_FOREIGN_BYTES.
Definition json_string (l : text) : result string JsonError := json string_from_slice l MAX_FOREIGN_BYTES.

(** The loop of [parse_object] over the members from [at_]: the position where it ends and the members *)
Fixpoint members_loop (fuel : nat) (l : text) (key : string) (at_ : nat) :
  result (nat * list Member) JsoncError :=
  match fuel with
  | O => Ok (at_, [])
  | S fuel =>
      if match l !! at_ with Some byte => byte =? 34 | None => false end then
        let key_end := string_end l at_ in
        let? name := map_err JsoncError_Document (json_string (unwrap_or_default (get_range l at_ key_end))) in
        let value := skip_trivia l (S (skip_trivia l key_end)) in
        let end_ := value_end l value in
        let after := skip_trivia l end_ in
        let comma := if match l !! after with Some byte => byte =? 44 | None => false end then Some after else None in
        let member := mkMember at_ value end_ comma (bool_decide (name = key)) in
        let next := match comma with Some position => skip_trivia l (S position) | None => after end in
        let? rest := members_loop fuel l key next in
        Ok (rest.1, member :: rest.2)
      else Ok (at_, [])
  end.

Definition parse_object (l : text) (open : nat) (key : string) : result (option Object) JsoncError :=
  if match l !! open with Some byte => byte =? 123 | None => false end then
    let? found := members_loop (length l) l key (skip_trivia l (S open)) in
    Ok (Some (mkObject open found.1 found.2))
  else Ok None.

Fixpoint join (keys : list string) : string :=
  match keys with
  | [] => EmptyString
  | [key] => key
  | key :: keys => String.app key (String.app "." (join keys))
  end.

Definition describe (path : list string) (count : nat) : string :=
  match take count path with
  | [] => "the document root"
  | keys => String.app "`" (String.app (join keys) "`")
  end.

(** The members that are wanted, with their places *)
Fixpoint wanted_members (index : nat) (members : list Member) : list (nat * Member) :=
  match members with
  | [] => []
  | member :: members =>
      (if Member_wanted member then [(index, member)] else []) ++ wanted_members (S index) members
  end.

(** The loop of [walk] over the keys that are left, from the object at [open] *)
Fixpoint walk_loop (l : text) (path : list string) (depth : nat) (keys : list string) (open : nat) :
  result Target JsoncError :=
  match keys with
  | [] => Err JsoncError_EmptyPath
  | key :: rest =>
      let? parsed := parse_object l open key in
      let? object := ok_or parsed (JsoncError_NotObject (describe path depth)) in
      match wanted_members 0 (Object_members object) with
      | [] => Ok (Target_Missing (mkMissing object key rest))
      | (index, member) :: others =>
          match others with
          | _ :: _ => Err (JsoncError_DuplicateKey (describe path (S depth)))
          | [] =>
              if (S depth =? length path)%nat
              then Ok (Target_Found (match index with O => None | S before => Object_members object !! before end) member)
              else walk_loop l path (S depth) rest (Member_value member)
          end
      end
  end.

Definition walk (l : text) (path : list string) : result Target JsoncError :=
  let plain := strip l in
  match trim_matches plain with
  | [] => match path with [] => Err JsoncError_EmptyPath | _ => Ok Target_Empty end
  | _ =>
      let? _u := map_err JsoncError_Document (valid_json plain) in
      walk_loop l path 0 path (skip_trivia l 0)
  end.

Fixpoint nest (keys : list string) (value indent : text) (layout : Layout) : text :=
  match keys with
  | [] => value
  | key :: rest =>
      let inner := indent ++ Layout_unit layout in
      let nested := nest rest value inner layout in
      let line := Layout_newline layout in
      [123] ++ line ++ inner ++ string_to_text key ++ [58; 32] ++ nested ++ line ++ indent ++ [125]
  end.

Definition insert (l : text) (missing : Missing) (value : text) : text :=
  let object := Missing_object missing in
  let close := Object_close object in
  let anchor := length (trim_end is_space (unwrap_or_default (get_range l 0 close))) in
  let broken := existsb is_newline (unwrap_or_default (get_range l anchor close)) in
  let last := List.last (map Some (Object_members object)) None in
  let inline := match last with Some _ => negb broken | None => false end in
  let layout := if inline then INLINE else mkLayout (newline l) (unit_ l) in
  let indent := if inline then [] else line_indent l (Object_open object) in
  let inner := indent ++ Layout_unit layout in
  let trailing := match last with
                  | Some member => match Member_comma member with Some _ => [44] | None => [] end
                  | None => []
                  end in
  let nested := nest (Missing_rest missing) value inner layout in
  let member := string_to_text (Missing_key missing) ++ [58; 32] ++ nested ++ trailing in
  let first :=
    match last with
    | Some before =>
        match Member_comma before with
        | None => [(Member_end before, Member_end before, [44])]
        | Some _ => []
        end
    | None => []
    end in
  let second :=
    if inline then (anchor, anchor, [32] ++ member)
    else if broken then (anchor, anchor, Layout_newline layout ++ inner ++ member)
    else (anchor, close, Layout_newline layout ++ inner ++ member ++ Layout_newline layout ++ indent) in
  splice l (first ++ [second]).

(** The code calls itself on the fresh root; one call is always enough ([set_member_total]). *)
Fixpoint set_member_calls (calls : nat) (document : text) (path : list string) (value_json : text) :
  option (result text JsoncError) :=
  match calls with
  | O => None
  | S calls =>
      match map_err JsoncError_Value (valid_json value_json) with
      | Err e => Some (Err e)
      | Ok _ =>
          let value := trim_matches value_json in
          match walk document path with
          | Err e => Some (Err e)
          | Ok (Target_Found _ member) =>
              Some (Ok (splice document [(Member_value member, Member_end member, value)]))
          | Ok (Target_Missing missing) => Some (Ok (insert document missing value))
          | Ok Target_Empty => set_member_calls calls (fresh_root document) path value_json
          end
      end
  end.
Definition set_member := set_member_calls 2.

Definition remove_member (document : text) (path : list string) : result text JsoncError :=
  match walk document path with
  | Ok (Target_Found previous member) => Ok (removal document previous member)
  | Ok (Target_Missing _) | Ok Target_Empty | Err (JsoncError_NotObject _) => Ok document
  | Err error => Err error
  end.
End edit.
