(* ===== verification/JsoncTree.v ===== *)
(** JSON with comments as trees: values, the trivia between them, and the text of a tree.  What the scanners
    of jsonc.rs find in the text of a tree. *)

From Stdlib Require Import NArith Lia String Ascii.
From stdpp Require Import base list strings.
From S2P Require Import Prelude RustStr Wire Jsonc.

(** ** Trees *)

Inductive Trivium :=
| Trivium_blank (b : N)
| Trivium_line (body : text)
| Trivium_block (body : text).

Record ElementOf (A : Type) := mkElement {
  Element_value : A;
  Element_after : list Trivium;
  Element_comma : option (list Trivium)
}.
Arguments mkElement {A}.
Arguments Element_value {A}.
Arguments Element_after {A}.
Arguments Element_comma {A}.

Record Key := mkKey { Key_body : text; Key_before : list Trivium; Key_after : list Trivium }.

(** A literal and the body of a string are kept as they are written; a comma is followed by trivia. *)
Inductive Tree :=
| Tree_literal (l : text)
| Tree_string (body : text)
| Tree_array (lead : list Trivium) (elements : list (ElementOf Tree))
| Tree_object (lead : list Trivium) (members : list (Key * ElementOf Tree)).

Section induction.
Variable P : Tree -> Prop.
Hypothesis literal : forall l, P (Tree_literal l).
Hypothesis string_ : forall body, P (Tree_string body).
Hypothesis array : forall lead es, Forall (fun e => P (Element_value e)) es -> P (Tree_array lead es).
Hypothesis object : forall lead ms, Forall (fun m => P (Element_value m.2)) ms -> P (Tree_object lead ms).

Fixpoint Tree_induction (t : Tree) : P t :=
  match t with
  | Tree_literal l => literal l
  | Tree_string body => string_ body
  | Tree_array lead es =>
      array lead es
        ((fix go es : Forall (fun e => P (Element_value e)) es :=
            match es with
            | [] => List.Forall_nil _
            | mkElement v a c :: es => List.Forall_cons _ (mkElement v a c) es (Tree_induction v) (go es)
            end) es)
  | Tree_object lead ms =>
      object lead ms
        ((fix go ms : Forall (fun m => P (Element_value m.2)) ms :=
            match ms with
            | [] => List.Forall_nil _
            | (k, mkElement v a c) :: ms => List.Forall_cons _ (k, mkElement v a c) ms (Tree_induction v) (go ms)
            end) ms)
  end.
End induction.

(** ** The text of a tree *)

Definition trivium_text (t : Trivium) : text :=
  match t with
  | Trivium_blank b => [b]
  | Trivium_line body => [47; 47] ++ body
  | Trivium_block body => [47; 42] ++ body ++ [42; 47]
  end.
Definition trivia_text (ts : list Trivium) : text := concat (map trivium_text ts).
Definition quoted (body : text) : text := [34] ++ body ++ [34].

Definition tail_text {A} (e : ElementOf A) : text :=
  trivia_text (Element_after e) ++ match Element_comma e with Some ts => [44] ++ trivia_text ts | None => [] end.
Definition key_text (k : Key) : text :=
  quoted (Key_body k) ++ trivia_text (Key_before k) ++ [58] ++ trivia_text (Key_after k).

Fixpoint tree_text (t : Tree) : text :=
  match t with
  | Tree_literal l => l
  | Tree_string body => quoted body
  | Tree_array lead es =>
      [91] ++ trivia_text lead ++ concat (map (fun e => tree_text (Element_value e) ++ tail_text e) es) ++ [93]
  | Tree_object lead ms =>
      [123] ++ trivia_text lead
      ++ concat (map (fun m => key_text m.1 ++ tree_text (Element_value m.2) ++ tail_text m.2) ms) ++ [125]
  end.
Definition element_text (e : ElementOf Tree) : text := tree_text (Element_value e) ++ tail_text e.
Definition member_text (m : Key * ElementOf Tree) : text := key_text m.1 ++ element_text m.2.
Definition members_text (ms : list (Key * ElementOf Tree)) : text := concat (map member_text ms).

(** ** Trees that can be written *)

(** A line comment ends at a newline, or at the end of the text where [last] says so. *)
Fixpoint wf_trivia (last : bool) (ts : list Trivium) : bool :=
  match ts with
  | [] => true
  | Trivium_blank b :: ts => is_space b && wf_trivia last ts
  | Trivium_line body :: ts =>
      negb (existsb is_newline body)
      && match ts with Trivium_blank b :: _ => is_newline b | [] => last | _ => false end
      && wf_trivia last ts
  | Trivium_block body :: ts =>
      bool_decide (find_close (body ++ [42; 47]) = Some (length body)) && wf_trivia last ts
  end.

(** Between the quotation marks each one is escaped, and the last character escapes nothing. *)
Fixpoint wf_string_from (escaped : bool) (body : text) : bool :=
  match body with
  | [] => negb escaped
  | b :: body =>
      if escaped then wf_string_from false body
      else if b =? 92 then wf_string_from true body
      else negb (b =? 34) && wf_string_from false body
  end.
Definition wf_string (body : text) : bool := wf_string_from false body.
Definition wf_literal (l : text) : bool := forallb is_literal l && match l with [] => false | _ => true end.

(** Only the last element has no comma. *)
Fixpoint commas {A} (es : list (ElementOf A)) : bool :=
  match es with
  | [] | [_] => true
  | e :: es => match Element_comma e with Some _ => true | None => false end && commas es
  end.
Definition wf_element (wf : Tree -> bool) (e : ElementOf Tree) : bool :=
  wf (Element_value e) && wf_trivia false (Element_after e)
  && match Element_comma e with Some ts => wf_trivia false ts | None => true end.

Section wf.
Context `{json_library : JsonLibrary}.

Definition key_name (k : Key) : result string JsonError := json_string (quoted (Key_body k)).
Definition wf_key (k : Key) : bool :=
  wf_string (Key_body k) && wf_trivia false (Key_before k) && wf_trivia false (Key_after k) && is_ok (key_name k).

Fixpoint wf_tree (t : Tree) : bool :=
  match t with
  | Tree_literal l => wf_literal l
  | Tree_string body => wf_string body
  | Tree_array lead es =>
      wf_trivia false lead
      && forallb (fun e => wf_tree (Element_value e) && wf_trivia false (Element_after e)
                           && match Element_comma e with Some ts => wf_trivia false ts | None => true end) es
      && commas es
  | Tree_object lead ms =>
      wf_trivia false lead
      && forallb (fun m => wf_key m.1
                           && (wf_tree (Element_value m.2) && wf_trivia false (Element_after m.2)
                               && match Element_comma m.2 with Some ts => wf_trivia false ts | None => true end)) ms
      && commas (map snd ms)
  end.
End wf.

(** ** Scanning the text of a tree *)

(** What can follow trivia *)
Definition stops (l : text) : Prop := match l with b :: _ => is_space b = false /\ b <> 47 | [] => True end.

(** A position where the rest begins with an ASCII byte, or is empty *)
Definition clean (l : text) : Prop := match l with b :: _ => b < 128 | [] => True end.

Lemma drop_at (pre l : text) : drop (length pre) (pre ++ l) = l.
Proof. apply drop_app_length. Qed.

Lemma byte_at (pre l : text) : (pre ++ l) !! length pre = l !! 0%nat.
Proof. rewrite lookup_app_r by lia. by rewrite Nat.sub_diag. Qed.

Lemma boundary_at (pre l : text) : clean l -> is_char_boundary (pre ++ l) (length pre) = true.
Proof.
  intros Hc. unfold is_char_boundary. apply orb_true_iff. right. rewrite byte_at. destruct l as [|b l]; cbn.
  - rewrite app_nil_r. apply Nat.eqb_refl.
  - cbn in Hc. unfold continuation, in_range. destruct (N.leb_spec 128 b); [lia|done].
Qed.

Lemma get_range_boundaries (a b c : text) : is_char_boundary (a ++ b ++ c) (length a) = true -> clean c ->
  get_range (a ++ b ++ c) (length a) (length a + length b) = Some b.
Proof.
  intros Ha Hc. unfold get_range. rewrite (proj2 (Nat.leb_le _ _)) by lia. rewrite Ha.
  replace (is_char_boundary (a ++ b ++ c) (length a + length b)) with true.
  - cbn. rewrite drop_at. replace (length a + length b - length a)%nat with (length b) by lia. by rewrite take_app_length.
  - rewrite (assoc_L (++)), <- length_app. symmetry. by apply boundary_at.
Qed.

Lemma get_range_app (a b c : text) : clean (b ++ c) -> clean c ->
  get_range (a ++ b ++ c) (length a) (length a + length b) = Some b.
Proof. intros Hb. apply get_range_boundaries. by apply boundary_at. Qed.

Lemma get_range_prefix (b c : text) : clean c -> get_range (b ++ c) 0 (length b) = Some b.
Proof. by apply (get_range_boundaries []). Qed.

Lemma get_from_app (a b : text) : clean b -> get_from (a ++ b) (length a) = Some b.
Proof. intros Hb. unfold get_from. rewrite boundary_at by done. by rewrite drop_at. Qed.

Lemma comment_end_none (pre l : text) : match l with b :: _ => b <> 47 | [] => True end ->
  comment_end (pre ++ l) (length pre) = None.
Proof.
  intros Hl. unfold comment_end. rewrite (proj2 (Nat.ltb_ge _ _)) by (rewrite length_app; lia). rewrite drop_at.
  destruct l as [|b l]; [done|]. cbn [is_prefix]. by rewrite (proj2 (N.eqb_neq 47 b)) by congruence.
Qed.

Lemma find_position_app p (l rest : text) : existsb p l = false ->
  match rest with b :: _ => p b = true | [] => True end ->
  match find_position p (l ++ rest) with Some n => n | None => length (l ++ rest) end = length l.
Proof.
  intros Hl Hr. assert (H : match find_position p (l ++ rest) with Some n => n = length l | None => rest = [] end).
  { induction l as [|b l IH]; cbn in *.
    - destruct rest as [|b rest]; [done|]. cbn. by rewrite Hr.
    - apply orb_false_iff in Hl as [Hb Hl]. rewrite Hb. specialize (IH Hl). destruct (find_position p (l ++ rest)); cbn; congruence. }
  destruct (find_position p (l ++ rest)); [done|]. subst. by rewrite app_nil_r.
Qed.

Lemma find_close_cons a b l :
  find_close (a :: b :: l) = if (a =? 42) && (b =? 47) then Some O else S <$> find_close (b :: l).
Proof. done. Qed.

Lemma find_close_app (body rest : text) : find_close (body ++ [42; 47]) = Some (length body) ->
  find_close (body ++ [42; 47] ++ rest) = Some (length body).
Proof.
  induction body as [|a body IH]; [done|]. cbn [app].
  destruct (body ++ [42; 47]) as [|b l] eqn:E1; [by destruct body|].
  destruct (body ++ 42 :: 47 :: rest) as [|b' l'] eqn:E2; [by destruct body|].
  assert (b' = b) as -> by (destruct body; cbn in E1, E2; congruence).
  cbn [app] in IH. rewrite E2 in IH. rewrite !find_close_cons.
  destruct ((a =? 42) && (b =? 47)); [done|]. intros H. cbn [length].
  destruct (find_close (b :: l)) as [n|] eqn:En; [|discriminate H]. cbn in H. injection H as ->.
  by rewrite (IH eq_refl).
Qed.

(** *** Trivia *)

Lemma comment_end_line (pre body rest : text) : existsb is_newline body = false ->
  match rest with b :: _ => is_newline b = true | [] => True end ->
  comment_end (pre ++ [47; 47] ++ body ++ rest) (length pre) = Some (length (pre ++ [47; 47] ++ body)).
Proof.
  intros Hb Hr. unfold comment_end. rewrite (proj2 (Nat.ltb_ge _ _)) by (rewrite length_app; lia). rewrite drop_at.
  cbn [app is_prefix N.eqb Pos.eqb andb]. f_equal.
  pose proof (find_position_app is_newline ([47; 47] ++ body) rest Hb Hr) as H. cbn [app] in H.
  rewrite H. rewrite !length_app. cbn [length]. lia.
Qed.

Lemma comment_end_block (pre body rest : text) : find_close (body ++ [42; 47]) = Some (length body) ->
  comment_end (pre ++ [47; 42] ++ body ++ [42; 47] ++ rest) (length pre) =
    Some (length (pre ++ [47; 42] ++ body ++ [42; 47])).
Proof.
  intros Hb. unfold comment_end. rewrite (proj2 (Nat.ltb_ge _ _)) by (rewrite length_app; lia). rewrite drop_at.
  cbn [app is_prefix N.eqb Pos.eqb andb].
  pose proof (find_close_app body rest Hb) as H. cbn [app] in H.
  change (drop 2 (47 :: 42 :: body ++ 42 :: 47 :: rest)) with (body ++ 42 :: 47 :: rest). rewrite H. f_equal.
  rewrite !length_app. cbn [length]. rewrite length_app. cbn. lia.
Qed.

Lemma space_not_slash b : is_space b = true -> b <> 47.
Proof. by intros H ->. Qed.

Lemma skip_trivia_loop_stops fuel pre post : stops post ->
  skip_trivia_loop fuel (pre ++ post) (length pre) = length pre.
Proof.
  intros Hs. destruct fuel as [|fuel]; [done|]. cbn [skip_trivia_loop].
  rewrite comment_end_none by (destruct post; [done|apply Hs]). rewrite byte_at.
  destruct post as [|b post]; [done|]. cbn. destruct Hs as [-> _]. done.
Qed.

Lemma skip_trivia_loop_text ts post : wf_trivia false ts = true -> stops post ->
  forall fuel pre, (length ts <= fuel)%nat ->
  skip_trivia_loop fuel (pre ++ trivia_text ts ++ post) (length pre) = length (pre ++ trivia_text ts).
Proof.
  intros Hwf Hpost. revert Hwf. unfold trivia_text.
  induction ts as [|t ts IH]; intros Hwf fuel pre Hf.
  { cbn. rewrite app_nil_r. by apply skip_trivia_loop_stops. }
  destruct fuel as [|fuel]; [cbn in Hf; lia|]. cbn [length] in Hf. cbn [map concat skip_trivia_loop].
  assert (Hnext : wf_trivia false ts = true -> skip_trivia_loop fuel (pre ++ (trivium_text t ++ concat (map trivium_text ts)) ++ post)
            (length (pre ++ trivium_text t)) = length (pre ++ trivium_text t ++ concat (map trivium_text ts))).
  { intros Hw. rewrite <- (assoc_L (++)), (assoc_L (++)). rewrite (IH Hw fuel _) by lia. by rewrite (assoc_L (++)). }
  rewrite <- (assoc_L (++)) in Hnext |- *.
  destruct t as [b|body|body]; cbn [trivium_text] in *.
  - apply andb_prop in Hwf as [Hb Hwf]. rewrite comment_end_none by by apply space_not_slash. rewrite byte_at. cbn [lookup list_lookup app].
    rewrite Hb. replace (S (length pre)) with (length (pre ++ [b])) by (rewrite length_app; cbn; lia). apply (Hnext Hwf).
  - apply andb_prop in Hwf as [[Hb Hn]%andb_prop Hwf]. rewrite <- (assoc_L (++)) in Hnext |- *.
    rewrite comment_end_line; [|by apply negb_true_iff|].
    + rewrite (Hnext Hwf). by rewrite <- (assoc_L (++)).
    + by destruct ts as [|[b| |] ts].
  - apply andb_prop in Hwf as [Hb%bool_decide_eq_true Hwf]. rewrite <- !(assoc_L (++)) in Hnext |- *.
    rewrite comment_end_block by done. by rewrite (Hnext Hwf).
Qed.

Lemma trivia_text_length ts : (length ts <= length (trivia_text ts))%nat.
Proof.
  unfold trivia_text. induction ts as [|t ts IH]; [done|]. cbn [map concat]. rewrite length_app.
  destruct t; cbn [trivium_text app length]; lia.
Qed.

Lemma skip_trivia_text pre ts post : wf_trivia false ts = true -> stops post ->
  skip_trivia (pre ++ trivia_text ts ++ post) (length pre) = length (pre ++ trivia_text ts).
Proof.
  intros Hwf Hpost. apply skip_trivia_loop_text; [done..|]. rewrite !length_app. pose proof (trivia_text_length ts). lia.
Qed.

(** *** Strings, containers and values *)

Lemma string_end_loop_text body rest : forall offset escaped, wf_string_from escaped body = true ->
  string_end_loop (body ++ [34] ++ rest) offset escaped = Some (offset + S (length body))%nat.
Proof.
  induction body as [|b body IH]; intros offset escaped; cbn [wf_string_from app string_end_loop length].
  - destruct escaped; [done|]. intros _. cbn. f_equal. lia.
  - destruct escaped; [|destruct (b =? 92); [|destruct (b =? 34); [done|]]]; intros Hb; rewrite (IH _ _ Hb); f_equal; lia.
Qed.

Lemma string_end_text pre body rest : wf_string body = true ->
  string_end (pre ++ quoted body ++ rest) (length pre) = length (pre ++ quoted body).
Proof.
  intros Hb. unfold string_end, quoted. rewrite <- !(assoc_L (++)).
  replace (drop (S (length pre)) (pre ++ [34] ++ body ++ [34] ++ rest)) with (body ++ [34] ++ rest).
  - rewrite (string_end_loop_text body rest _ false Hb). rewrite !length_app. cbn. lia.
  - replace (S (length pre)) with (length (pre ++ [34])) by (rewrite length_app; cbn; lia).
    by rewrite (assoc_L (++) pre [34]), drop_at.
Qed.

(** What [container_end] goes through without a change of depth *)
Definition balanced (l : text) : Prop :=
  forall pre post fuel d, (0 < d)%nat -> (length l <= fuel)%nat ->
  exists fuel', (fuel <= fuel' + length l)%nat /\
    container_end_loop fuel (pre ++ l ++ post) (length pre) d =
    container_end_loop fuel' (pre ++ l ++ post) (length (pre ++ l)) d.

Lemma balanced_nil : balanced [].
Proof. intros pre post fuel d Hd Hf. exists fuel. cbn. rewrite app_nil_r. split; [lia|done]. Qed.

Lemma balanced_app a b : balanced a -> balanced b -> balanced (a ++ b).
Proof.
  intros Ha Hb pre post fuel d Hd Hf. rewrite length_app in Hf.
  destruct (Ha pre (b ++ post) fuel d Hd) as (f1 & Hf1 & E1); [lia|].
  destruct (Hb (pre ++ a) post f1 d Hd) as (f2 & Hf2 & E2); [lia|].
  exists f2. rewrite length_app. split; [lia|].
  rewrite <- !(assoc_L (++)) in E2 |- *. rewrite E1, E2. by rewrite <- (assoc_L (++)).
Qed.

Lemma balanced_concat ls : Forall balanced ls -> balanced (concat ls).
Proof. induction 1; [apply balanced_nil|by apply balanced_app]. Qed.

(** One round of the loop that stays at its depth *)
Lemma balanced_round l b r : l = b :: r ->
  (forall pre post fuel d, (0 < d)%nat ->
     container_end_loop (S fuel) (pre ++ l ++ post) (length pre) d =
     container_end_loop fuel (pre ++ l ++ post) (length (pre ++ l)) d) -> balanced l.
Proof.
  intros -> H pre post fuel d Hd Hf. destruct fuel as [|fuel]; [cbn in Hf; lia|]. exists fuel.
  split; [cbn; lia|]. by apply H.
Qed.

Definition inert (b : N) : bool := negb ((b =? 34) || (b =? 47) || is_open b || is_close b).

Lemma balanced_byte b : inert b = true -> balanced [b].
Proof.
  intros [[[Hq Hs]%orb_false_iff Ho]%orb_false_iff Hc]%negb_true_iff%orb_false_iff. apply (balanced_round _ b []); [done|].
  intros pre post fuel d Hd. cbn [container_end_loop]. rewrite byte_at. cbn. rewrite Hq, Hs, Ho, Hc.
  rewrite length_app. cbn. by rewrite Nat.add_1_r.
Qed.

Lemma balanced_bytes l : forallb inert l = true -> balanced l.
Proof.
  induction l as [|b l IH]; [intros _; apply balanced_nil|]. cbn. intros [Hb Hl]%andb_prop.
  apply (balanced_app [b] l); [by apply balanced_byte|by apply IH].
Qed.

Lemma balanced_string body : wf_string body = true -> balanced (quoted body).
Proof.
  intros Hb. apply (balanced_round _ 34 (body ++ [34])); [done|]. intros pre post fuel d Hd. cbn [container_end_loop].
  rewrite byte_at. change ((quoted body ++ post) !! 0%nat) with (Some 34). cbn [N.eqb Pos.eqb].
  by rewrite (string_end_text pre body post Hb).
Qed.

Lemma balanced_trivia ts : wf_trivia false ts = true -> balanced (trivia_text ts).
Proof.
  unfold trivia_text. induction ts as [|t ts IH]; intros Hwf; [apply balanced_nil|]. cbn [map concat].
  destruct t as [b|body|body]; cbn [trivium_text].
  - apply andb_prop in Hwf as [Hb Hwf]. apply balanced_app; [|by apply IH]. apply balanced_byte. unfold is_space in Hb.
    unfold inert, is_open, is_close. repeat (apply orb_true_iff in Hb as [Hb|Hb]); apply N.eqb_eq in Hb as ->; done.
  - apply andb_prop in Hwf as [[Hb%negb_true_iff Hn]%andb_prop Hwf].
    specialize (IH Hwf). destruct ts as [|[n|?|?] ts]; try done. cbn [map concat trivium_text] in IH |- *.
    intros pre post fuel d Hd Hf. destruct fuel as [|fuel]; [cbn in Hf; lia|].
    destruct (IH (pre ++ [47; 47] ++ body) post fuel d Hd) as (f & Hf' & E); [rewrite !length_app in Hf |- *; cbn in *; lia|].
    exists f. rewrite !length_app in Hf' |- *. split; [cbn in *; lia|]. cbn [container_end_loop].
    rewrite byte_at. rewrite <- !(assoc_L (++)) in E |- *. cbn [app lookup list_lookup N.eqb Pos.eqb].
    pose proof (comment_end_line pre body ([n] ++ concat (map trivium_text ts) ++ post) Hb Hn) as Hc. cbn [app] in Hc, E |- *.
    rewrite Hc. cbn [app] in E. rewrite E. done.
  - apply andb_prop in Hwf as [Hb%bool_decide_eq_true Hwf]. apply balanced_app; [|by apply IH].
    apply (balanced_round _ 47 (42 :: body ++ [42; 47])); [done|]. intros pre post fuel d Hd. cbn [container_end_loop].
    rewrite byte_at. rewrite <- !(assoc_L (++)). cbn [app lookup list_lookup N.eqb Pos.eqb].
    pose proof (comment_end_block pre body post Hb) as Hc. cbn [app] in Hc. by rewrite Hc.
Qed.

Lemma balanced_open o inner c pre post fuel d : is_open o = true -> is_close c = true -> balanced inner ->
  (S (S (length inner)) <= fuel)%nat ->
  exists fuel', (fuel <= fuel' + S (S (length inner)))%nat /\
    container_end_loop fuel (pre ++ ([o] ++ inner ++ [c]) ++ post) (length pre) d =
    if (d =? 0)%nat then length (pre ++ [o] ++ inner ++ [c])
    else container_end_loop fuel' (pre ++ ([o] ++ inner ++ [c]) ++ post) (length (pre ++ [o] ++ inner ++ [c])) d.
Proof.
  intros Ho Hc Hi Hf. destruct fuel as [|fuel]; [lia|].
  destruct (Hi (pre ++ [o]) ([c] ++ post) fuel (S d)) as (f & Hf' & E); [lia|lia|]. destruct f as [|f]; [lia|].
  assert (Ho' : o <> 34 /\ o <> 47 /\ is_close o = false).
  { unfold is_open, is_close in *. apply orb_true_iff in Ho as [->%N.eqb_eq | ->%N.eqb_eq]; done. }
  assert (Hc' : c <> 34 /\ c <> 47 /\ is_open c = false).
  { unfold is_open, is_close in *. apply orb_true_iff in Hc as [->%N.eqb_eq | ->%N.eqb_eq]; done. }
  exists f. split; [lia|]. cbn [container_end_loop]. rewrite byte_at. cbn [app lookup list_lookup].
  rewrite (proj2 (N.eqb_neq o 34)), (proj2 (N.eqb_neq o 47)), Ho by apply Ho'.
  rewrite length_app in E at 1. cbn [length] in E. rewrite Nat.add_1_r in E.
  rewrite <- !(assoc_L (++)) in E |- *. cbn [app] in E |- *. rewrite E. cbn [container_end_loop].
  change (pre ++ o :: inner ++ c :: post) with (pre ++ [o] ++ inner ++ [c] ++ post).
  rewrite !(assoc_L (++)), <- (assoc_L (++) _ [c] post). rewrite byte_at. cbn [app lookup list_lookup].
  rewrite (proj2 (N.eqb_neq c 34)), (proj2 (N.eqb_neq c 47)), Hc by apply Hc'. destruct Hc' as (_ & _ & ->).
  replace (S d - 1)%nat with d by lia.
  replace (S (length ((pre ++ [o]) ++ inner))) with (length (pre ++ o :: inner ++ [c])) by (rewrite !length_app; cbn; rewrite length_app; cbn; lia).
  done.
Qed.

Lemma balanced_container o inner c : is_open o = true -> is_close c = true -> balanced inner ->
  balanced ([o] ++ inner ++ [c]).
Proof.
  intros Ho Hc Hi pre post fuel d Hd Hf.
  destruct (balanced_open o inner c pre post fuel d Ho Hc Hi) as (f & Hf' & E).
  - rewrite !length_app in Hf. cbn in Hf. lia.
  - exists f. rewrite E, (proj2 (Nat.eqb_neq d 0)) by lia. split; [|done]. rewrite !length_app. cbn. lia.
Qed.

Lemma container_end_text o inner c pre post : is_open o = true -> is_close c = true -> balanced inner ->
  container_end (pre ++ ([o] ++ inner ++ [c]) ++ post) (length pre) = length (pre ++ [o] ++ inner ++ [c]).
Proof.
  intros Ho Hc Hi. unfold container_end.
  destruct (balanced_open o inner c pre post (length (pre ++ ([o] ++ inner ++ [c]) ++ post)) 0 Ho Hc Hi) as (f & Hf' & E).
  - rewrite !length_app. cbn. lia.
  - by rewrite E.
Qed.

Lemma take_while_app p l post : forallb p l = true -> match post with b :: _ => p b = false | [] => True end ->
  take_while p (l ++ post) = l.
Proof.
  intros Hl Hp. induction l as [|b l IH]; cbn in *.
  - destruct post as [|b post]; [done|]. cbn. by rewrite Hp.
  - apply andb_prop in Hl as [-> Hl]. by rewrite (IH Hl).
Qed.

Lemma is_literal_inert b : is_literal b = true -> inert b = true /\ is_space b = false /\ b < 128.
Proof.
  unfold is_literal, is_ascii_alphanumeric, is_ascii_alphabetic, is_ascii_lowercase, is_ascii_uppercase, is_ascii_digit, in_range,
    inert, is_open, is_close, is_space.
  intros H. rewrite !orb_true_iff, !andb_true_iff, !N.leb_le, !N.eqb_eq in H.
  split_and!; [apply negb_true_iff|..|lia]; rewrite ?orb_false_iff, ?N.eqb_neq; lia.
Qed.

Section trees.
Context `{json_library : JsonLibrary}.

Lemma wf_object lead ms : wf_tree (Tree_object lead ms) = true <->
  wf_trivia false lead = true /\ Forall (fun m => wf_key m.1 = true /\ wf_element wf_tree m.2 = true) ms /\ commas (map snd ms) = true.
Proof.
  cbn [wf_tree]. rewrite !andb_true_iff, forallb_forall, Forall_forall. unfold wf_element.
  split.
  - intros [[Hl Hm] Hc]. split_and!; [done| |done]. intros m Hin%list_elem_of_In. apply Hm in Hin. by apply andb_prop in Hin.
  - intros (Hl & Hm & Hc). split_and!; [done| |done]. intros m Hin%list_elem_of_In. by apply andb_true_iff, Hm.
Qed.

Lemma balanced_tail {A} (e : ElementOf A) :
  wf_trivia false (Element_after e) = true -> match Element_comma e with Some ts => wf_trivia false ts | None => true end = true ->
  balanced (tail_text e).
Proof.
  intros Ha Hc. unfold tail_text. apply balanced_app; [by apply balanced_trivia|].
  destruct (Element_comma e); [|apply balanced_nil]. apply balanced_app; [by apply balanced_byte|by apply balanced_trivia].
Qed.

Lemma balanced_key k : wf_key k = true -> balanced (key_text k).
Proof.
  intros [[[Hs Hb]%andb_prop Ha]%andb_prop _]%andb_prop. unfold key_text.
  apply balanced_app; [by apply balanced_string|]. apply balanced_app; [by apply balanced_trivia|].
  apply balanced_app; [by apply balanced_byte|by apply balanced_trivia].
Qed.

Lemma wf_array lead es : wf_tree (Tree_array lead es) = true <->
  wf_trivia false lead = true /\ Forall (fun e => wf_element wf_tree e = true) es /\ commas es = true.
Proof.
  cbn [wf_tree]. rewrite !andb_true_iff, forallb_forall, Forall_forall. unfold wf_element.
  split; [intros [[Hl Hm] Hc]|intros (Hl & Hm & Hc)]; split_and!; try done; intros e Hin; apply Hm; by apply list_elem_of_In.
Qed.

(** What stands between the brackets, given that the values in it are balanced *)
Lemma balanced_elements lead es : wf_tree (Tree_array lead es) = true -> Forall (fun e => balanced (tree_text (Element_value e))) es ->
  balanced (trivia_text lead ++ concat (map (fun e => tree_text (Element_value e) ++ tail_text e) es)).
Proof.
  intros (Hl & He & _)%wf_array Hb. apply balanced_app; [by apply balanced_trivia|]. apply balanced_concat. rewrite Forall_map.
  rewrite Forall_forall in He, Hb |- *. intros e Hin. destruct (andb_prop _ _ (He e Hin)) as [[_ Ha]%andb_prop Hc].
  apply balanced_app; [by apply Hb|by apply balanced_tail].
Qed.

Lemma balanced_members lead ms : wf_tree (Tree_object lead ms) = true ->
  Forall (fun m => balanced (tree_text (Element_value m.2))) ms ->
  balanced (trivia_text lead ++ concat (map (fun m => key_text m.1 ++ tree_text (Element_value m.2) ++ tail_text m.2) ms)).
Proof.
  intros (Hl & Hm & _)%wf_object Hb. apply balanced_app; [by apply balanced_trivia|]. apply balanced_concat. rewrite Forall_map.
  rewrite Forall_forall in Hm, Hb |- *. intros m Hin. destruct (Hm m Hin) as [Hk [[_ Ha]%andb_prop Hc]%andb_prop].
  apply balanced_app; [by apply balanced_key|]. apply balanced_app; [by apply Hb|by apply balanced_tail].
Qed.

Lemma wf_values lead es : wf_tree (Tree_array lead es) = true -> Forall (fun e => wf_tree (Element_value e) = true) es.
Proof. intros (_ & He & _)%wf_array. eapply Forall_impl; [exact He|]. by intros e [[H _]%andb_prop _]%andb_prop. Qed.

Lemma wf_member_values lead ms : wf_tree (Tree_object lead ms) = true -> Forall (fun m => wf_tree (Element_value m.2) = true) ms.
Proof. intros (_ & He & _)%wf_object. eapply Forall_impl; [exact He|]. by intros e [_ [[H _]%andb_prop _]%andb_prop]. Qed.

Lemma balanced_tree t : wf_tree t = true -> balanced (tree_text t).
Proof.
  induction t as [l|body|lead es IH|lead ms IH] using Tree_induction; intros Hwf.
  - apply balanced_bytes. apply andb_prop in Hwf as [Hl _]. rewrite forallb_forall in *. intros b Hb. by apply is_literal_inert, Hl.
  - by apply balanced_string.
  - cbn [tree_text]. rewrite (assoc_L (++) (trivia_text lead)). apply (balanced_container 91 _ 93); [done..|].
    apply balanced_elements; [done|]. apply wf_values in Hwf. rewrite Forall_forall in *. auto.
  - cbn [tree_text]. rewrite (assoc_L (++) (trivia_text lead)). apply (balanced_container 123 _ 125); [done..|].
    apply balanced_members; [done|]. apply wf_member_values in Hwf. rewrite Forall_forall in *. auto.
Qed.

(** What can follow a value *)
Definition ends (post : text) : Prop := match post with b :: _ => is_literal b = false | [] => True end.

Lemma value_end_text pre t post : wf_tree t = true -> ends post ->
  value_end (pre ++ tree_text t ++ post) (length pre) = length (pre ++ tree_text t).
Proof.
  intros Hwf Hp. unfold value_end. rewrite byte_at. destruct t as [l|body|lead es|lead ms].
  - cbn [tree_text]. apply andb_prop in Hwf as [Hl Hne]. destruct l as [|b l]; [done|]. cbn [app lookup list_lookup].
    assert (Hb : is_literal b = true) by (by cbn in Hl; apply andb_prop in Hl as [? _]).
    apply is_literal_inert in Hb as [Hi%negb_true_iff _]. rewrite !orb_false_iff in Hi. destruct Hi as [[[Hq Hs] Ho] Hc].
    rewrite Hq, Ho, drop_at. change (b :: l ++ post) with ((b :: l) ++ post). rewrite (take_while_app _ _ _ Hl Hp). by rewrite length_app.
  - change ((tree_text (Tree_string body) ++ post) !! 0%nat) with (Some 34). cbn [N.eqb Pos.eqb]. by apply string_end_text.
  - change ((tree_text (Tree_array lead es) ++ post) !! 0%nat) with (Some 91). cbn [N.eqb Pos.eqb is_open orb].
    cbn [tree_text]. rewrite (assoc_L (++) (trivia_text lead)). apply (container_end_text 91 _ 93); [done..|].
    apply balanced_elements; [done|]. eapply Forall_impl; [by eapply wf_values|]. intros e. apply balanced_tree.
  - change ((tree_text (Tree_object lead ms) ++ post) !! 0%nat) with (Some 123). cbn [N.eqb Pos.eqb is_open orb].
    cbn [tree_text]. rewrite (assoc_L (++) (trivia_text lead)). apply (container_end_text 123 _ 125); [done..|].
    apply balanced_members; [done|]. eapply Forall_impl; [by eapply wf_member_values|]. intros m. apply balanced_tree.
Qed.
End trees.
