(* ===== verification/JsoncEdit.v ===== *)
(** What the operations of jsonc.rs do to the tree a text is of. *)

From Stdlib Require Import NArith Lia String Ascii.
From stdpp Require Import base list strings.
From S2P Require Import Prelude RustStr Wire Jsonc JsoncTree.

(** ** Edits of trees *)

Definition blanks (l : text) : list Trivium := map Trivium_blank l.

(** Trivia before and from the blanks at their end; a line comment ends at its last visible byte. *)
Fixpoint split_blanks (ts : list Trivium) : list Trivium * list Trivium :=
  match ts with
  | [] => ([], [])
  | t :: ts =>
      match split_blanks ts with
      | ([], tail) =>
          match t with
          | Trivium_blank _ => ([], t :: tail)
          | Trivium_line body =>
              let visible := trim_end is_space body in
              ([Trivium_line visible], blanks (drop (length visible) body) ++ tail)
          | Trivium_block _ => ([t], tail)
          end
      | (kept, tail) => (t :: kept, tail)
      end
  end.

(** The indentation of the line that a text ends in *)
Definition indent_of (head : text) : text :=
  take_while is_blank (match rfind 10 head with Some position => drop (S position) head | None => head end).

Inductive Sought :=
| Sought_absent
| Sought_once (before : list (Key * ElementOf Tree)) (key : Key) (element : ElementOf Tree) (after : list (Key * ElementOf Tree))
| Sought_twice.

Definition with_value (e : ElementOf Tree) (t : Tree) : ElementOf Tree := mkElement t (Element_after e) (Element_comma e).

Section edits.
Context `{json_library : JsonLibrary}.

Definition names (key : string) (k : Key) : bool := match key_name k with Ok name => bool_decide (name = key) | Err _ => false end.

Fixpoint seek (key : string) (ms : list (Key * ElementOf Tree)) : Sought :=
  match ms with
  | [] => Sought_absent
  | (k, e) :: ms =>
      if names key k then if existsb (fun m => names key m.1) ms then Sought_twice else Sought_once [] k e ms
      else match seek key ms with
           | Sought_once before k' e' after => Sought_once ((k, e) :: before) k' e' after
           | sought => sought
           end
  end.

(** The key that is written for a name *)
Definition key_body (key : string) : text := let l := string_to_text key in take (length l - 2) (drop 1 l).
Definition new_key (key : string) : Key := mkKey (key_body key) [] [Trivium_blank 32].

Fixpoint nest_tree (keys : list string) (w : Tree) (indent : text) (layout : Layout) : Tree :=
  match keys with
  | [] => w
  | key :: rest =>
      let inner := indent ++ Layout_unit layout in
      Tree_object (blanks (Layout_newline layout ++ inner))
        [(new_key key, mkElement (nest_tree rest w inner layout) (blanks (Layout_newline layout ++ indent)) None)]
  end.

(** A new last member of an object that follows the text [pre] *)
Definition insert_tree (layout : Layout) (pre : text) (lead : list Trivium) (ms : list (Key * ElementOf Tree))
    (key : string) (rest : list string) (w : Tree) : Tree :=
  let indent := indent_of pre in
  let inner := indent ++ Layout_unit layout in
  let fresh := blanks (Layout_newline layout ++ inner) in
  match rev ms with
  | [] =>
      let '(kept, tail) := split_blanks lead in
      let broken := existsb is_newline (trivia_text tail) in
      Tree_object (kept ++ fresh)
        [(new_key key, mkElement (nest_tree rest w inner layout)
            (if broken then tail else blanks (Layout_newline layout ++ indent)) None)]
  | (k, e) :: earlier =>
      let '(kept, tail) := split_blanks (match Element_comma e with Some ts => ts | None => Element_after e end) in
      let broken := existsb is_newline (trivia_text tail) in
      let nested := if broken then nest_tree rest w inner layout else nest_tree rest w [] INLINE in
      let between := kept ++ (if broken then fresh else [Trivium_blank 32]) in
      Tree_object lead
        (rev earlier ++
         match Element_comma e with
         | None => [(k, mkElement (Element_value e) [] (Some between)); (new_key key, mkElement nested tail None)]
         | Some _ => [(k, mkElement (Element_value e) (Element_after e) (Some between));
                      (new_key key, mkElement nested [] (Some tail))]
         end)
  end.

(** The value at a path is replaced, or the member made: [pre] is the text before the tree, [path] the
    whole path and [keys] what is left of it. *)
Fixpoint tree_set (layout : Layout) (path : list string) (depth : nat) (keys : list string) (w : Tree) (pre : text)
    (t : Tree) : result Tree JsoncError :=
  match keys with
  | [] => Err JsoncError_EmptyPath
  | key :: rest =>
      match t with
      | Tree_object lead ms =>
          match seek key ms with
          | Sought_absent => Ok (insert_tree layout pre lead ms key rest w)
          | Sought_twice => Err (JsoncError_DuplicateKey (describe path (S depth)))
          | Sought_once before k e after =>
              let? v := match rest with
                        | [] => Ok w
                        | _ => tree_set layout path (S depth) rest w
                                 (pre ++ [123] ++ trivia_text lead ++ members_text before ++ key_text k) (Element_value e)
                        end in
              Ok (Tree_object lead (before ++ (k, with_value e v) :: after))
          end
      | _ => Err (JsoncError_NotObject (describe path depth))
      end
  end.

(** ** What the scanners find *)

Fixpoint places (base : nat) (ms : list (Key * ElementOf Tree)) (key : string) : list Member :=
  match ms with
  | [] => []
  | (k, e) :: ms =>
      let value := (base + length (key_text k))%nat in
      let end_ := (value + length (tree_text (Element_value e)))%nat in
      let after := (end_ + length (trivia_text (Element_after e)))%nat in
      mkMember base value end_ (match Element_comma e with Some _ => Some after | None => None end) (names key k)
        :: places (base + length (member_text (k, e))) ms key
  end.

Lemma clean_trivia ts post : wf_trivia false ts = true -> clean post -> clean (trivia_text ts ++ post).
Proof.
  intros Hwf Hp. destruct ts as [|[b|body|body] ts]; cbn; [done|..|done|done].
  apply andb_prop in Hwf as [Hb _]. unfold is_space in Hb.
  repeat (apply orb_true_iff in Hb as [Hb|Hb]); apply N.eqb_eq in Hb as ->; done.
Qed.

Lemma ends_trivia ts post : wf_trivia false ts = true -> ends post -> ends (trivia_text ts ++ post).
Proof.
  intros Hwf Hp. destruct ts as [|[b|body|body] ts]; cbn; [done|..|done|done].
  apply andb_prop in Hwf as [Hb _]. unfold is_space in Hb.
  repeat (apply orb_true_iff in Hb as [Hb|Hb]); apply N.eqb_eq in Hb as ->; done.
Qed.

Lemma tree_head t : wf_tree t = true ->
  exists b r, tree_text t = b :: r /\ is_space b = false /\ b <> 47 /\ b < 128.
Proof.
  intros Hwf. destruct t as [l|body|lead es|lead ms]; try by (eexists _, _; split_and!; [reflexivity|..]).
  apply andb_prop in Hwf as [Hl Hne]. destruct l as [|b l]; [done|]. exists b, l. split; [done|].
  cbn in Hl. apply andb_prop in Hl as [Hb%is_literal_inert _]. destruct Hb as (Hi & Hs & Ha). split_and!; [done| |done].
  by intros ->.
Qed.

Lemma tree_stops t post : wf_tree t = true -> stops (tree_text t ++ post).
Proof. intros (b & r & -> & Hs & Hn & _)%tree_head. by split. Qed.

Lemma tree_clean t post : wf_tree t = true -> clean (tree_text t ++ post).
Proof. by intros (b & r & -> & _ & _ & Ha)%tree_head. Qed.

(** What follows the members of an object or one of its elements *)
Lemma members_stop ms post : stops (members_text ms ++ [125] ++ post) /\ clean (members_text ms ++ [125] ++ post)
  /\ ends (members_text ms ++ [125] ++ post).
Proof. destruct ms as [|[k e] ms]; by split_and!. Qed.

Lemma tail_ends e ms post : wf_element wf_tree e = true -> ends (tail_text e ++ members_text ms ++ [125] ++ post) /\
  clean (tail_text e ++ members_text ms ++ [125] ++ post).
Proof.
  intros [[_ Ha]%andb_prop Hc]%andb_prop. unfold tail_text. rewrite <- (assoc_L (++)).
  destruct (members_stop ms post) as (_ & Hcl & He).
  split; [apply ends_trivia|apply clean_trivia]; try done; by destruct (Element_comma e).
Qed.

Lemma skip_trivia_eq l pre ts post : l = pre ++ trivia_text ts ++ post -> wf_trivia false ts = true -> stops post ->
  skip_trivia l (length pre) = length (pre ++ trivia_text ts).
Proof. intros ->. apply skip_trivia_text. Qed.

Lemma byte_eq (l pre : text) b r : l = pre ++ b :: r -> l !! length pre = Some b.
Proof. intros ->. by rewrite byte_at. Qed.

Lemma string_end_eq l pre body rest : l = pre ++ quoted body ++ rest -> wf_string body = true ->
  string_end l (length pre) = length (pre ++ quoted body).
Proof. intros ->. apply string_end_text. Qed.

Lemma value_end_eq l pre t rest : l = pre ++ tree_text t ++ rest -> wf_tree t = true -> ends rest ->
  value_end l (length pre) = length (pre ++ tree_text t).
Proof. intros ->. apply value_end_text. Qed.

Lemma get_range_eq l a b c : l = a ++ b ++ c -> clean (b ++ c) -> clean c ->
  get_range l (length a) (length (a ++ b)) = Some b.
Proof. intros ->. rewrite length_app. apply get_range_app. Qed.

Lemma members_loop_text key ms post : Forall (fun m => wf_key m.1 = true /\ wf_element wf_tree m.2 = true) ms ->
  commas (map snd ms) = true ->
  forall fuel pre, (length ms <= fuel)%nat ->
  members_loop fuel (pre ++ members_text ms ++ [125] ++ post) key (length pre) =
    Ok (length (pre ++ members_text ms), places (length pre) ms key).
Proof.
  induction 1 as [|[k e] ms [Hk He] Hms IH]; intros Hc fuel pre Hf.
  { cbn [members_text map concat]. change (concat []) with ([] : text). rewrite app_nil_r. destruct fuel as [|fuel]; [done|]. cbn [members_loop].
    rewrite byte_at. done. }
  destruct fuel as [|fuel]; [cbn in Hf; lia|]. cbn [length] in Hf. cbn [fst snd] in Hk, He.
  assert (Hcm : commas (map snd ms) = true).
  { cbn in Hc. destruct ms as [|m ms]; [done|]. by apply andb_prop in Hc as [_ Hc]. }
  destruct (andb_prop _ _ Hk) as [[[Hs Hb]%andb_prop Ha]%andb_prop Hn].
  destruct (andb_prop _ _ He) as [[Hv Haf]%andb_prop Hco].
  set (rest := members_text ms ++ [125] ++ post). destruct (members_stop ms post) as (Hst & Hcl & Hen). fold rest in Hst, Hcl, Hen.
  destruct (tail_ends e ms post He) as [Hte Htc]. fold rest in Hte, Htc.
  set (l := pre ++ members_text ((k, e) :: ms) ++ [125] ++ post).
  set (p1 := pre ++ quoted (Key_body k)). set (p2 := p1 ++ trivia_text (Key_before k)). set (p3 := p2 ++ [58]).
  set (p4 := p3 ++ trivia_text (Key_after k)). set (p5 := p4 ++ tree_text (Element_value e)).
  set (p6 := p5 ++ trivia_text (Element_after e)).
  set (tl := match Element_comma e with Some ts => [44] ++ trivia_text ts | None => [] end).
  assert (E0 : l = pre ++ quoted (Key_body k) ++ trivia_text (Key_before k) ++ [58] ++ trivia_text (Key_after k)
      ++ tree_text (Element_value e) ++ tail_text e ++ rest).
  { unfold l, rest, members_text. cbn [map concat]. unfold member_text, element_text, key_text. cbn [fst snd]. by rewrite <- !(assoc_L (++)). }
  assert (E1 : l = p1 ++ trivia_text (Key_before k) ++ [58] ++ trivia_text (Key_after k) ++ tree_text (Element_value e) ++ tail_text e ++ rest)
    by (rewrite E0; unfold p1; by rewrite <- !(assoc_L (++))).
  assert (E3 : l = p3 ++ trivia_text (Key_after k) ++ tree_text (Element_value e) ++ tail_text e ++ rest)
    by (rewrite E1; unfold p3, p2; by rewrite <- !(assoc_L (++))).
  assert (E4 : l = p4 ++ tree_text (Element_value e) ++ tail_text e ++ rest)
    by (rewrite E3; unfold p4; by rewrite <- !(assoc_L (++))).
  assert (E5 : l = p5 ++ trivia_text (Element_after e) ++ tl ++ rest)
    by (rewrite E4; unfold p5, tail_text; by rewrite <- !(assoc_L (++))).
  assert (E6 : l = p6 ++ tl ++ rest) by (rewrite E5; unfold p6; by rewrite <- !(assoc_L (++))).
  assert (Htl : stops (tl ++ rest) /\ clean (tl ++ rest)) by (unfold tl; by destruct (Element_comma e)).
  cbn [members_loop]. rewrite (byte_eq l pre 34 _ E0). cbn [N.eqb Pos.eqb].
  rewrite (string_end_eq l pre _ _ E0 Hs), (get_range_eq l pre _ _ E0); [|done|by apply clean_trivia]. fold p1. cbn [unwrap_or_default].
  unfold key_name in Hn. destruct (json_string (quoted (Key_body k))) as [name|] eqn:Hname; [|done]. cbn [map_err].
  rewrite (skip_trivia_eq l p1 _ _ E1 Hb) by done. fold p2.
  replace (S (length p2)) with (length p3) by (unfold p3; rewrite length_app; cbn; lia).
  rewrite (skip_trivia_eq l p3 _ _ E3 Ha) by by apply tree_stops. fold p4.
  rewrite (value_end_eq l p4 _ _ E4 Hv Hte). fold p5.
  rewrite (skip_trivia_eq l p5 _ _ E5 Haf) by apply Htl. fold p6.
  set (p7 := pre ++ member_text (k, e)).
  assert (E7 : l = p7 ++ rest).
  { unfold l, rest, p7, members_text. cbn [map concat]. by rewrite <- !(assoc_L (++)). }
  assert (E67 : p7 = p6 ++ tl).
  { unfold p7, p6, p5, p4, p3, p2, p1, tl, member_text, element_text, key_text, tail_text. cbn [fst snd]. by rewrite <- !(assoc_L (++)). }
  assert (Hlen : (length p4 = length pre + length (key_text k) /\
                 length p5 = length p4 + length (tree_text (Element_value e)) /\
                 length p6 = length p5 + length (trivia_text (Element_after e)) /\
                 length p7 = length pre + length (member_text (k, e)))%nat).
  { unfold p7, p6, p5, p4, p3, p2, p1, key_text. rewrite !length_app. cbn [length]. lia. }
  destruct Hlen as (L4 & L5 & L6 & L7).
  cbn [places]. unfold names, key_name. rewrite Hname. rewrite <- L4, <- L5, <- L6, <- L7.
  assert (Hnext : forall c, match c with
            | Some position => skip_trivia l (S position) | None => length p6 end = length p7 ->
            (let? rest := members_loop fuel l key match c with Some position => skip_trivia l (S position) | None => length p6 end in
             Ok (rest.1, mkMember (length pre) (length p4) (length p5) c (bool_decide (name = key)) :: rest.2)) =
            Ok (length (pre ++ members_text ((k, e) :: ms)), mkMember (length pre) (length p4) (length p5) c (bool_decide (name = key))
              :: places (length p7) ms key)).
  { intros c ->. rewrite E7. unfold rest. rewrite (IH Hcm) by lia. cbn [fst snd]. f_equal. f_equal. f_equal.
    unfold p7, members_text. cbn [map concat]. by rewrite <- (assoc_L (++)). }
  unfold tl in *. destruct (Element_comma e) as [ts|] eqn:Hcomma.
  - rewrite (byte_eq l p6 44 _ E6). cbn [N.eqb Pos.eqb]. apply (Hnext (Some (length p6))).
    replace (S (length p6)) with (length (p6 ++ [44])) by (rewrite length_app; cbn; lia).
    rewrite (skip_trivia_eq l (p6 ++ [44]) ts rest); [|rewrite E6; by rewrite <- !(assoc_L (++))|done|done].
    rewrite E67. by rewrite <- (assoc_L (++)).
  - assert (ms = []) as ->. { destruct ms as [|m ms]; [done|]. cbn in Hc. by rewrite Hcomma in Hc. }
    rewrite (byte_eq l p6 125 post) by (rewrite E6; done). cbn [N.eqb Pos.eqb]. apply (Hnext None). by rewrite E67, app_nil_r.
Qed.

(** *** Looking for a key *)

Definition place (base : nat) (k : Key) (e : ElementOf Tree) (key : string) : Member :=
  let value := (base + length (key_text k))%nat in
  let end_ := (value + length (tree_text (Element_value e)))%nat in
  let after := (end_ + length (trivia_text (Element_after e)))%nat in
  mkMember base value end_ (match Element_comma e with Some _ => Some after | None => None end) (names key k).

Lemma places_cons base k e ms key :
  places base ((k, e) :: ms) key = place base k e key :: places (base + length (member_text (k, e))) ms key.
Proof. done. Qed.

Lemma places_app base a b key : places base (a ++ b) key = places base a key ++ places (base + length (members_text a)) b key.
Proof.
  revert base. induction a as [|[k e] a IH]; intros base; [cbn; by rewrite Nat.add_0_r|].
  cbn [app]. rewrite !places_cons, IH. cbn [app]. do 3 f_equal. unfold members_text. cbn [map concat]. rewrite length_app. lia.
Qed.

Lemma wanted_none n base ms key : existsb (fun m => names key m.1) ms = false -> wanted_members n (places base ms key) = [].
Proof.
  revert n base. induction ms as [|[k e] ms IH]; intros n base; [done|]. cbn [existsb fst]. intros [Hk Hms]%orb_false_iff.
  rewrite places_cons. cbn [wanted_members Member_wanted place]. rewrite Hk. by apply IH.
Qed.

Lemma wanted_some n base ms key : existsb (fun m => names key m.1) ms = true -> wanted_members n (places base ms key) <> [].
Proof.
  revert n base. induction ms as [|[k e] ms IH]; intros n base; [done|]. cbn [existsb fst].
  rewrite places_cons. cbn [wanted_members Member_wanted place]. destruct (names key k); [done|]. apply IH.
Qed.

Lemma seek_wanted key ms : forall n base,
  match seek key ms with
  | Sought_absent => wanted_members n (places base ms key) = []
  | Sought_once before k e after =>
      ms = before ++ (k, e) :: after /\
      wanted_members n (places base ms key) = [((n + length before)%nat, place (base + length (members_text before)) k e key)]
  | Sought_twice => exists x y others, wanted_members n (places base ms key) = x :: y :: others
  end.
Proof.
  induction ms as [|[k e] ms IH]; intros n base; [done|]. cbn [seek]. rewrite places_cons.
  cbn [wanted_members Member_wanted place]. destruct (names key k) eqn:Hk.
  - destruct (existsb (fun m => names key m.1) ms) eqn:Hms.
    + apply (wanted_some (S n) (base + length (member_text (k, e)))) in Hms.
      destruct (wanted_members _ _) as [|y others] eqn:Hw; [done|]. by eexists _, y, others.
    + rewrite (wanted_none _ _ _ _ Hms). split; [done|]. cbn. unfold place. by rewrite !Nat.add_0_r, Hk.
  - specialize (IH (S n) (base + length (member_text (k, e)))%nat). cbn [app].
    destruct (seek key ms) as [|before k' e' after|]; [done| |done]. destruct IH as [-> ->]. split; [done|].
    cbn [length]. unfold members_text. cbn [map concat]. rewrite length_app.
    replace (n + S (length before))%nat with (S n + length before)%nat by lia. by rewrite Nat.add_assoc.
Qed.
End edits.

(** *** Blanks at the end *)

Lemma trivia_text_app a b : trivia_text (a ++ b) = trivia_text a ++ trivia_text b.
Proof. unfold trivia_text. by rewrite map_app, concat_app. Qed.

Lemma trivia_text_one t : trivia_text [t] = trivium_text t.
Proof. unfold trivia_text. cbn. apply app_nil_r. Qed.

Lemma trivia_text_blanks l : trivia_text (blanks l) = l.
Proof. unfold trivia_text, blanks. induction l as [|b l IH]; [done|]. cbn in *. by rewrite IH. Qed.

Lemma drop_while_all p (l : text) : forallb p l = true -> drop_while p l = [].
Proof. induction l as [|b l IH]; [done|]. cbn. by intros [-> Hl%IH]%andb_prop. Qed.

Lemma drop_while_app p (a b : text) : forallb p a = true -> drop_while p (a ++ b) = drop_while p b.
Proof. induction a as [|c a IH]; [done|]. cbn. by intros [-> Ha%IH]%andb_prop. Qed.

Lemma forallb_rev (p : N -> bool) l : forallb p (rev l) = forallb p l.
Proof. induction l as [|b l IH]; [done|]. cbn. rewrite forallb_app, IH. cbn. rewrite andb_true_r. apply andb_comm. Qed.

(** A text that does not end with a space *)
Definition solid (l : text) : Prop := exists a b, l = a ++ [b] /\ is_space b = false.

Lemma trim_end_solid a b : solid a -> forallb is_space b = true -> trim_end is_space (a ++ b) = a.
Proof.
  intros (a' & c & -> & Hc) Hb. unfold trim_end, trim_end_list. rewrite rev_app_distr, drop_while_app by by rewrite forallb_rev.
  rewrite rev_unit. cbn. rewrite Hc. cbn. by rewrite rev_involutive.
Qed.

Lemma trim_end_split l : exists tail, l = trim_end is_space l ++ tail /\ forallb is_space tail = true /\
  (trim_end is_space l = [] \/ solid (trim_end is_space l)).
Proof.
  assert (H : exists tail, rev l = tail ++ drop_while is_space (rev l) /\ forallb is_space tail = true /\
    match drop_while is_space (rev l) with b :: _ => is_space b = false | [] => True end).
  { induction (rev l) as [|b r IH]; [by exists []|]. cbn. destruct (is_space b) eqn:Hb.
    - destruct IH as (t & E & Ht & Hd). exists (b :: t). split_and!; [cbn; by f_equal|cbn; by rewrite Hb|done].
    - exists []. done. }
  destruct H as (t & E & Ht & Hd). exists (rev t). unfold trim_end, trim_end_list. split_and!.
  - rewrite <- rev_app_distr, <- E. by rewrite rev_involutive.
  - by rewrite forallb_rev.
  - destruct (drop_while is_space (rev l)) as [|b r]; [by left|]. right. exists (rev r), b. done.
Qed.

Lemma split_blanks_text ts kept tail : split_blanks ts = (kept, tail) ->
  trivia_text ts = trivia_text kept ++ trivia_text tail.
Proof.
  revert kept tail. induction ts as [|t ts IH]; intros kept tail; [by intros [= <- <-]|].
  cbn [split_blanks]. destruct (split_blanks ts) as [[|x k] r]; specialize (IH _ _ eq_refl);
    change (trivia_text (t :: ts)) with (trivium_text t ++ trivia_text ts); rewrite IH.
  - destruct t as [b|body|body]; intros [= <- <-]; rewrite ?trivia_text_one; [done| |done].
    destruct (trim_end_split body) as (tail & E & _).
    rewrite trivia_text_app, trivia_text_blanks. cbn [trivium_text].
    replace (drop (length (trim_end is_space body)) body) with tail by (rewrite E at 2; by rewrite drop_at).
    rewrite E at 1. by rewrite <- !(assoc_L (++)).
  - intros [= <- <-]. change (trivia_text (t :: x :: k)) with (trivium_text t ++ trivia_text (x :: k)). by rewrite <- (assoc_L (++)).
Qed.

Lemma wf_trivia_tail last ts kept tail : wf_trivia last ts = true -> split_blanks ts = (kept, tail) ->
  forallb is_space (trivia_text tail) = true /\ Forall (fun t => exists b, t = Trivium_blank b /\ is_space b = true) tail.
Proof.
  revert kept tail. induction ts as [|t ts IH]; intros kept tail Hwf; [by intros [= <- <-]|]. cbn [split_blanks].
  assert (Hts : wf_trivia last ts = true) by (destruct t; apply andb_prop in Hwf; tauto).
  destruct (split_blanks ts) as [[|x k] r]; destruct (IH _ _ Hts eq_refl) as [Ht Hb]; [|by intros [= <- <-]].
  destruct t as [b|body|body]; intros [= <- <-]; [|clear IH|done].
  - apply andb_prop in Hwf as [Hs _]. split; [by change (is_space b && forallb is_space (trivia_text r) = true); rewrite Hs|].
    constructor; [by exists b|done].
  - destruct (trim_end_split body) as (tail & E & Hsp & _).
    replace (drop (length (trim_end is_space body)) body) with tail by (rewrite E at 2; by rewrite drop_at).
    rewrite trivia_text_app, trivia_text_blanks, forallb_app, Hsp. split; [done|]. apply Forall_app. split; [|done].
    unfold blanks. rewrite Forall_map, Forall_forall. rewrite forallb_forall in Hsp. intros b Hin. exists b. split; [done|].
    by apply Hsp, list_elem_of_In.
Qed.

Lemma solid_app a b : solid b -> solid (a ++ b).
Proof. intros (b' & c & -> & Hc). exists (a ++ b'), c. by rewrite (assoc_L (++)). Qed.

Lemma split_blanks_solid ts kept tail : split_blanks ts = (kept, tail) -> kept = [] \/ solid (trivia_text kept).
Proof.
  revert kept tail. induction ts as [|t ts IH]; intros kept tail; [intros [= <- <-]; by left|]. cbn [split_blanks].
  destruct (split_blanks ts) as [[|x k] r]; specialize (IH _ _ eq_refl).
  - destruct t as [b|body|body]; intros [= <- <-]; [by left|right|right].
    + unfold trivia_text. cbn [map concat]. rewrite app_nil_r. cbn [trivium_text].
      destruct (trim_end_split body) as (_ & _ & _ & [-> | Hs]); [by exists [47], 47|by apply solid_app].
    + exists ([47; 42] ++ body ++ [42]), 47. unfold trivia_text. cbn. by rewrite app_nil_r, <- (assoc_L (++)).
  - intros [= <- <-]. right. destruct IH as [|IH]; [done|].
    change (trivia_text (t :: x :: k)) with (trivium_text t ++ trivia_text (x :: k)). by apply solid_app.
Qed.

(** *** Edits of a text *)

Lemma splice_loop_eq l p q s z replacement edits : l = p ++ q ++ s ++ z -> (p = [] \/ clean (q ++ s ++ z)) -> clean (s ++ z) ->
  splice_loop l ((length (p ++ q), length (p ++ q ++ s), replacement) :: edits) (length p) =
  q ++ replacement ++ splice_loop l edits (length (p ++ q ++ s)).
Proof.
  intros -> Hp Hs. cbn [splice_loop]. rewrite length_app, get_range_boundaries; [done| |done].
  destruct Hp as [-> |Hp]; [done|by apply boundary_at].
Qed.

Lemma splice_loop_end l p z : l = p ++ z -> clean z -> splice_loop l [] (length p) = z.
Proof. intros -> Hz. cbn. by rewrite get_from_app. Qed.

Lemma splice_one l p s z replacement : l = p ++ s ++ z -> clean (s ++ z) -> clean z ->
  splice l [(length p, length (p ++ s), replacement)] = p ++ replacement ++ z.
Proof.
  intros E Hs Hz. unfold splice. pose proof (splice_loop_eq l [] p s z replacement [] E (or_introl eq_refl) Hs) as H.
  cbn [app length] in H. rewrite H. do 2 f_equal. apply splice_loop_end; [|done]. by rewrite E, <- (assoc_L (++)).
Qed.

Lemma splice_two l p q s z first replacement : l = p ++ q ++ s ++ z -> clean (q ++ s ++ z) -> clean (s ++ z) -> clean z ->
  splice l [(length p, length p, first); (length (p ++ q), length (p ++ q ++ s), replacement)] = p ++ first ++ q ++ replacement ++ z.
Proof.
  intros E Hq Hs Hz. unfold splice. pose proof (splice_loop_eq l [] p [] (q ++ s ++ z) first
    [(length (p ++ q), length (p ++ q ++ s), replacement)] E (or_introl eq_refl) Hq) as H.
  cbn [app length] in H. rewrite app_nil_r in H. rewrite H. do 2 f_equal.
  rewrite (splice_loop_eq l p q s z) by auto. do 2 f_equal.
  apply splice_loop_end; [|done]. by rewrite E, <- !(assoc_L (++)).
Qed.

(** ** Insertion *)

(** What is known of serde_json: blanks are no value, and the text of a string is read as it. *)
Class JsonLibraryLaws (json_library : JsonLibrary) : Prop := {
  blanks_are_no_value (l : text) : forallb is_space l = true -> ignored_from_slice l = None;
  string_text_quoted (s : string) : exists body, string_to_text s = quoted body /\ wf_string body = true;
  string_text_read (s : string) : string_from_slice (string_to_text s) = Some s
}.

(** Two ways to put texts together *)
Ltac text_eq :=
  change (trivia_text []) with ([] : text); repeat (progress (rewrite <- ?(assoc_L (++)); cbn [app])); reflexivity.

Section laws.
Context `{laws : JsonLibraryLaws}.

Lemma new_key_text key : string_to_text key = quoted (key_body key) /\ wf_string (key_body key) = true.
Proof.
  destruct (string_text_quoted key) as (body & E & Hwf). unfold key_body. rewrite E. unfold quoted.
  replace (take (length ([34] ++ body ++ [34]) - 2) (drop 1 ([34] ++ body ++ [34]))) with body; [done|].
  rewrite !length_app. cbn [length app]. change (drop 1 (34 :: body ++ [34])) with (body ++ [34]). replace (1 + (length body + 1) - 2)%nat with (length body) by lia.
  symmetry. apply take_app_length.
Qed.

Lemma new_member_text key e : member_text (new_key key, e) = string_to_text key ++ [58; 32] ++ element_text e.
Proof. unfold member_text, key_text, new_key. cbn. destruct (new_key_text key) as [-> _]. by rewrite <- (assoc_L (++)). Qed.

Lemma nest_tree_text keys w indent layout : tree_text (nest_tree keys w indent layout) = nest keys (tree_text w) indent layout.
Proof.
  revert indent. induction keys as [|key rest IH]; intros indent; [done|]. cbn [nest_tree nest].
  change (tree_text (Tree_object ?lead ?ms)) with ([123] ++ trivia_text lead ++ members_text ms ++ [125]).
  unfold members_text. cbn [map concat]. rewrite app_nil_r, new_member_text, trivia_text_blanks.
  unfold element_text, tail_text. cbn [Element_value Element_after Element_comma]. rewrite trivia_text_blanks, IH.
  rewrite app_nil_r. by rewrite <- !(assoc_L (++)).
Qed.

(** Where the last member of an object ends, and the trivia that is left before its brace *)
Definition last_trivia (lead : list Trivium) (ms : list (Key * ElementOf Tree)) : list Trivium :=
  match rev ms with
  | [] => lead
  | (_, e) :: _ => match Element_comma e with Some ts => ts | None => Element_after e end
  end.

Lemma tree_solid t : wf_tree t = true -> solid (tree_text t).
Proof.
  intros Hwf. destruct t as [l|body|lead es|lead ms].
  - apply andb_prop in Hwf as [Hl Hne]. destruct l as [|b l] using rev_ind; [done|]. exists l, b. split; [done|].
    rewrite forallb_app in Hl. apply andb_prop in Hl as [_ Hb]. cbn in Hb. rewrite andb_true_r in Hb. by apply is_literal_inert.
  - exists ([34] ++ body), 34. unfold quoted. cbn. done.
  - eexists _, 93. cbn [tree_text]. rewrite !(assoc_L (++)). done.
  - eexists _, 125. cbn [tree_text]. rewrite !(assoc_L (++)). done.
Qed.

Lemma members_text_app a b : members_text (a ++ b) = members_text a ++ members_text b.
Proof. unfold members_text. by rewrite map_app, concat_app. Qed.

Lemma members_text_one m : members_text [m] = member_text m.
Proof. unfold members_text. cbn [map concat]. apply app_nil_r. Qed.

(** [text[anchor..close]] *)
Lemma anchor_text l pre X ts post kept tail :
  l = pre ++ X ++ trivia_text ts ++ [125] ++ post -> solid (pre ++ X) -> wf_trivia false ts = true ->
  split_blanks ts = (kept, tail) ->
  length (trim_end is_space (unwrap_or_default (get_range l 0 (length (pre ++ X ++ trivia_text ts))))) =
    length ((pre ++ X) ++ trivia_text kept) /\
  unwrap_or_default (get_range l (length ((pre ++ X) ++ trivia_text kept)) (length (pre ++ X ++ trivia_text ts))) = trivia_text tail.
Proof.
  intros El HX Hwf Hs. destruct (wf_trivia_tail _ _ _ _ Hwf Hs) as [Hsp Hb]. pose proof (split_blanks_text _ _ _ Hs) as Et.
  assert (Hk : solid ((pre ++ X) ++ trivia_text kept)).
  { destruct (split_blanks_solid _ _ _ Hs) as [-> |Hk]; [|by apply solid_app]. cbn. by rewrite app_nil_r. }
  assert (E : l = (pre ++ X ++ trivia_text ts) ++ [125] ++ post) by (rewrite El; by rewrite <- !(assoc_L (++))).
  split.
  - rewrite E, get_range_prefix by done. cbn [unwrap_or_default]. rewrite Et, !(assoc_L (++)), trim_end_solid by done.
    by rewrite <- (assoc_L (++)).
  - rewrite Et. rewrite (assoc_L (++) X), (assoc_L (++) pre), (assoc_L (++) pre X).
    rewrite (get_range_eq l ((pre ++ X) ++ trivia_text kept) (trivia_text tail) ([125] ++ post)); [done| |..|done].
    + rewrite E, Et. by rewrite <- !(assoc_L (++)).
    + destruct tail as [|t tail]; [done|]. inversion Hb as [|? ? (b & -> & Hsb)]; subst. cbn.
      unfold is_space in Hsb. repeat (apply orb_true_iff in Hsb as [Hsb|Hsb]); apply N.eqb_eq in Hsb as ->; done.
Qed.

Lemma clean_tail ts kept tail post : wf_trivia false ts = true -> split_blanks ts = (kept, tail) -> clean post ->
  clean (trivia_text tail ++ post) /\ clean (trivia_text kept ++ trivia_text tail ++ post).
Proof.
  intros Hwf Hs Hp. destruct (wf_trivia_tail _ _ _ _ Hwf Hs) as [_ Hb]. split.
  - destruct tail as [|t tail]; [done|]. inversion Hb as [|? ? (b & -> & Hsb)]; subst. cbn.
    unfold is_space in Hsb. repeat (apply orb_true_iff in Hsb as [Hsb|Hsb]); apply N.eqb_eq in Hsb as ->; done.
  - rewrite (assoc_L (++)), <- (split_blanks_text _ _ _ Hs). by apply clean_trivia.
Qed.

Lemma line_indent_eq l pre rest : l = pre ++ rest -> clean rest -> line_indent l (length pre) = indent_of pre.
Proof. intros -> Hr. unfold line_indent. by rewrite get_range_prefix. Qed.

Lemma last_place base ms k e key :
  List.last (map Some (places base (ms ++ [(k, e)]) key)) None = Some (place (base + length (members_text ms)) k e key).
Proof. rewrite places_app, map_app. cbn [places map]. apply last_last. Qed.

Definition object_head (lead : list Trivium) (ms : list (Key * ElementOf Tree)) : text := [123] ++ trivia_text lead ++ members_text ms.

Lemma object_text lead ms : tree_text (Tree_object lead ms) = object_head lead ms ++ [125].
Proof. unfold object_head. by rewrite <- !(assoc_L (++)). Qed.

(** The new last member of an object without members *)
Lemma insert_into_empty l pre lead post key rest w :
  l = pre ++ tree_text (Tree_object lead []) ++ post -> wf_trivia false lead = true ->
  insert l (mkMissing (mkObject (length pre) (length (pre ++ object_head lead [])) []) key rest) (tree_text w) =
  pre ++ tree_text (insert_tree (mkLayout (newline l) (unit_ l)) pre lead [] key rest w) ++ post.
Proof.
  intros El Hwf. destruct (split_blanks lead) as [kept tail] eqn:Hs.
  assert (E : l = pre ++ [123] ++ trivia_text lead ++ [125] ++ post).
  { rewrite El, object_text. unfold object_head. by rewrite <- !(assoc_L (++)). }
  assert (E2 : l = ((pre ++ [123]) ++ trivia_text kept) ++ trivia_text tail ++ [125] ++ post).
  { rewrite E, (split_blanks_text _ _ _ Hs). by rewrite <- !(assoc_L (++)). }
  destruct (anchor_text l pre [123] lead post kept tail E) as [Ha Ht]; [by exists pre, 123|done|done|].
  destruct (clean_tail lead kept tail ([125] ++ post) Hwf Hs) as [Hc _]; [done|].
  unfold insert. cbn [Missing_object Missing_key Missing_rest Object_open Object_close Object_members map List.last].
  change (pre ++ object_head lead []) with (pre ++ [123] ++ trivia_text lead ++ []). rewrite app_nil_r.
  rewrite Ha, Ht. cbn [andb]. rewrite (line_indent_eq l pre ([123] ++ trivia_text lead ++ [125] ++ post)) by done.
  cbn [Layout_newline Layout_unit app]. rewrite app_nil_r.
  unfold insert_tree. cbn [rev]. rewrite Hs. cbn [Layout_newline Layout_unit].
  set (inner := indent_of pre ++ unit_ l). set (layout := mkLayout (newline l) (unit_ l)).
  rewrite object_text. unfold object_head. rewrite members_text_one, new_member_text, trivia_text_app, trivia_text_blanks.
  unfold element_text, tail_text. cbn [Element_value Element_after Element_comma]. rewrite app_nil_r, nest_tree_text.
  destruct (existsb is_newline (trivia_text tail)) eqn:Hb.
  - pose proof (splice_one l ((pre ++ [123]) ++ trivia_text kept) [] (trivia_text tail ++ [125] ++ post)) as Hsp.
    rewrite app_nil_r in Hsp. rewrite Hsp by done. by rewrite <- !(assoc_L (++)).
  - replace (length (pre ++ 123 :: trivia_text lead)) with (length (((pre ++ [123]) ++ trivia_text kept) ++ trivia_text tail))
      by (rewrite (split_blanks_text _ _ _ Hs), !length_app; cbn; rewrite length_app; lia).
    rewrite (splice_one l _ (trivia_text tail) ([125] ++ post)) by done.
    rewrite trivia_text_blanks. by rewrite <- !(assoc_L (++)).
Qed.

(** The object up to the end of its last value *)
Definition value_head lead ms k e := object_head lead ms ++ key_text k ++ tree_text (Element_value e).

Lemma value_head_solid pre lead ms k e : wf_tree (Element_value e) = true -> solid (pre ++ value_head lead ms k e).
Proof. intros Hv. unfold value_head. rewrite !(assoc_L (++)). apply solid_app. by apply tree_solid. Qed.

Lemma object_head_last lead ms k e : object_head lead (ms ++ [(k, e)]) = value_head lead ms k e ++ tail_text e.
Proof.
  unfold value_head, object_head. rewrite members_text_app, members_text_one. unfold member_text, element_text. cbn [fst snd].
  by rewrite <- !(assoc_L (++)).
Qed.

Lemma last_value_end pre lead ms k e key :
  Member_end (place (length (pre ++ [123] ++ trivia_text lead) + length (members_text ms)) k e key) =
  length (pre ++ value_head lead ms k e).
Proof. unfold place, value_head, object_head. cbn [Member_end]. rewrite !length_app. cbn. lia. Qed.

(** The layout of a new member after others, as a text and as trivia *)
Lemma insert_after_uncommaed l pre lead ms k e post key rest w :
  l = pre ++ tree_text (Tree_object lead (ms ++ [(k, e)])) ++ post -> wf_element wf_tree e = true -> Element_comma e = None ->
  insert l (mkMissing (mkObject (length pre) (length (pre ++ object_head lead (ms ++ [(k, e)])))
    (places (length (pre ++ [123] ++ trivia_text lead)) (ms ++ [(k, e)]) key)) key rest) (tree_text w) =
  pre ++ tree_text (insert_tree (mkLayout (newline l) (unit_ l)) pre lead (ms ++ [(k, e)]) key rest w) ++ post.
Proof.
  intros El [[Hv Ha]%andb_prop _]%andb_prop Hn. destruct (split_blanks (Element_after e)) as [kept tail] eqn:Hs.
  set (X := value_head lead ms k e).
  assert (Eh : object_head lead (ms ++ [(k, e)]) = X ++ trivia_text (Element_after e)).
  { rewrite object_head_last. unfold tail_text. by rewrite Hn, app_nil_r. }
  assert (E : l = pre ++ X ++ trivia_text (Element_after e) ++ [125] ++ post).
  { rewrite El, object_text, Eh. by rewrite <- !(assoc_L (++)). }
  assert (E2 : l = (pre ++ X) ++ trivia_text kept ++ [] ++ trivia_text tail ++ [125] ++ post).
  { rewrite E, (split_blanks_text _ _ _ Hs). by rewrite <- !(assoc_L (++)). }
  destruct (anchor_text l pre X _ post kept tail E) as [Hanchor Ht]; [by apply value_head_solid|done|done|].
  destruct (clean_tail _ kept tail ([125] ++ post) Ha Hs) as [Hc Hck]; [done|].
  unfold insert. cbn [Missing_object Missing_key Missing_rest Object_open Object_close Object_members].
  rewrite last_place, Eh, Hanchor, Ht. cbn [Member_comma place]. rewrite Hn.
  rewrite (line_indent_eq l pre (object_head lead (ms ++ [(k, e)]) ++ [125] ++ post)) by
    (try done; rewrite El, object_text; by rewrite <- !(assoc_L (++))).
  fold (place (length (pre ++ [123] ++ trivia_text lead) + length (members_text ms)) k e key).
  unfold insert_tree. rewrite rev_unit, rev_involutive, Hn, Hs. cbn [Layout_newline Layout_unit].
  rewrite object_text. unfold object_head. rewrite members_text_app.
  change (members_text [?a; ?b]) with (member_text a ++ members_text [b]). rewrite members_text_one, new_member_text.
  unfold member_text at 1, element_text, tail_text. cbn [fst snd Element_value Element_after Element_comma].
  rewrite !trivia_text_app, !app_nil_r.
  pose proof (splice_two l (pre ++ X) (trivia_text kept) [] (trivia_text tail ++ [125] ++ post)) as Hsp.
  rewrite app_nil_r in Hsp. cbn [place Member_end].
  replace (length (pre ++ [123%N] ++ trivia_text lead) + length (members_text ms) + length (key_text k) + length (tree_text (Element_value e)))%nat
    with (length (pre ++ X)) by (unfold X; by rewrite <- last_value_end with (key := key)).
  destruct (existsb is_newline (trivia_text tail)) eqn:Hb; cbn [negb app Layout_newline Layout_unit INLINE].
  - rewrite nest_tree_text, trivia_text_blanks. rewrite Hsp by done. unfold X, value_head, object_head.
    text_eq.
  - rewrite nest_tree_text. rewrite Hsp by done. unfold X, value_head, object_head. text_eq.
Qed.

Lemma insert_after_comma l pre lead ms k e ts post key rest w :
  l = pre ++ tree_text (Tree_object lead (ms ++ [(k, e)])) ++ post -> Element_comma e = Some ts -> wf_trivia false ts = true ->
  insert l (mkMissing (mkObject (length pre) (length (pre ++ object_head lead (ms ++ [(k, e)])))
    (places (length (pre ++ [123] ++ trivia_text lead)) (ms ++ [(k, e)]) key)) key rest) (tree_text w) =
  pre ++ tree_text (insert_tree (mkLayout (newline l) (unit_ l)) pre lead (ms ++ [(k, e)]) key rest w) ++ post.
Proof.
  intros El Hn Ha. destruct (split_blanks ts) as [kept tail] eqn:Hs.
  set (X := value_head lead ms k e ++ trivia_text (Element_after e) ++ [44]).
  assert (Eh : object_head lead (ms ++ [(k, e)]) = X ++ trivia_text ts).
  { rewrite object_head_last. unfold tail_text, X. rewrite Hn. text_eq. }
  assert (E : l = pre ++ X ++ trivia_text ts ++ [125] ++ post) by (rewrite El, object_text, Eh; text_eq).
  assert (E2 : l = ((pre ++ X) ++ trivia_text kept) ++ [] ++ trivia_text tail ++ [125] ++ post)
    by (rewrite E, (split_blanks_text _ _ _ Hs); text_eq).
  destruct (anchor_text l pre X _ post kept tail E) as [Hanchor Ht]; [|done|done|].
  { unfold X. rewrite !(assoc_L (++)). apply solid_app. by exists [], 44. }
  destruct (clean_tail _ kept tail ([125] ++ post) Ha Hs) as [Hc Hck]; [done|].
  unfold insert. cbn [Missing_object Missing_key Missing_rest Object_open Object_close Object_members].
  rewrite last_place, Eh, Hanchor, Ht. cbn [Member_comma place]. rewrite Hn.
  rewrite (line_indent_eq l pre (object_head lead (ms ++ [(k, e)]) ++ [125] ++ post)) by
    (try done; rewrite El, object_text; by rewrite <- !(assoc_L (++))).
  unfold insert_tree. rewrite rev_unit, rev_involutive, Hn, Hs. cbn [Layout_newline Layout_unit].
  rewrite object_text. unfold object_head. rewrite members_text_app.
  change (members_text [?a; ?b]) with (member_text a ++ members_text [b]). rewrite members_text_one, new_member_text.
  unfold member_text at 1, element_text, tail_text. cbn [fst snd Element_value Element_after Element_comma].
  rewrite !trivia_text_app.
  pose proof (splice_one l ((pre ++ X) ++ trivia_text kept) [] (trivia_text tail ++ [125] ++ post)) as Hsp.
  rewrite app_nil_r in Hsp.
  destruct (existsb is_newline (trivia_text tail)) eqn:Hb; cbn [negb app Layout_newline Layout_unit INLINE].
  - rewrite nest_tree_text, trivia_text_blanks. rewrite Hsp by done. unfold X, value_head, object_head. text_eq.
  - rewrite nest_tree_text. rewrite Hsp by done. unfold X, value_head, object_head. text_eq.
Qed.

Lemma insert_text l pre lead ms post key rest w :
  l = pre ++ tree_text (Tree_object lead ms) ++ post -> wf_tree (Tree_object lead ms) = true ->
  insert l (mkMissing (mkObject (length pre) (length (pre ++ object_head lead ms))
    (places (length (pre ++ [123] ++ trivia_text lead)) ms key)) key rest) (tree_text w) =
  pre ++ tree_text (insert_tree (mkLayout (newline l) (unit_ l)) pre lead ms key rest w) ++ post.
Proof.
  intros El (Hl & Hm & _)%wf_object. destruct ms as [|[k e] ms _] using rev_ind; [by apply insert_into_empty|].
  apply Forall_app in Hm as [_ [[_ He] _]%Forall_cons]. cbn [snd] in He.
  destruct (Element_comma e) as [ts|] eqn:Hn; [|by apply insert_after_uncommaed].
  apply (insert_after_comma l pre lead ms k e ts); [done..|].
  apply andb_prop in He as [_ Hc]. by rewrite Hn in Hc.
Qed.

(** *** The whole document *)

Lemma members_text_length ms : (length ms <= length (members_text ms))%nat.
Proof.
  unfold members_text. induction ms as [|m ms IH]; [done|]. cbn [map concat length]. rewrite length_app.
  enough (1 <= length (member_text m))%nat by lia. unfold member_text, key_text, quoted. cbn. lia.
Qed.

Lemma parse_object_text l pre lead ms post key :
  l = pre ++ tree_text (Tree_object lead ms) ++ post -> wf_tree (Tree_object lead ms) = true ->
  parse_object l (length pre) key =
    Ok (Some (mkObject (length pre) (length (pre ++ object_head lead ms)) (places (length (pre ++ [123] ++ trivia_text lead)) ms key))).
Proof.
  intros El (Hl & Hm & Hc)%wf_object. unfold parse_object.
  assert (E : l = (pre ++ [123]) ++ trivia_text lead ++ members_text ms ++ [125] ++ post)
    by (rewrite El, object_text; unfold object_head; text_eq).
  rewrite (byte_eq l pre 123 (trivia_text lead ++ members_text ms ++ [125] ++ post)) by (rewrite E; text_eq). cbn [N.eqb Pos.eqb].
  replace (S (length pre)) with (length (pre ++ [123])) by (rewrite length_app; cbn; lia).
  rewrite (skip_trivia_eq l _ _ _ E Hl) by apply members_stop.
  assert (Hfuel : (length ms <= length l)%nat).
  { rewrite E, !length_app. pose proof (members_text_length ms). lia. }
  revert Hfuel. generalize (length l). intros fuel Hfuel. rewrite E, (assoc_L (++) (pre ++ [123])), members_loop_text by done.
  cbn [fst snd]. unfold object_head. do 3 f_equal; by rewrite <- ?(assoc_L (++)).
Qed.

Lemma not_object_text l pre t post key : l = pre ++ tree_text t ++ post -> wf_tree t = true ->
  match t with Tree_object _ _ => False | _ => True end -> parse_object l (length pre) key = Ok None.
Proof.
  intros El Hwf Ht. unfold parse_object.
  assert (H : exists b r, tree_text t = b :: r /\ b <> 123).
  { destruct t as [lit|body|lead es|lead ms]; [|by eexists _, _|by eexists _, _|done].
    apply andb_prop in Hwf as [Hl Hne]. destruct lit as [|b lit]; [done|]. exists b, lit. split; [done|].
    cbn in Hl. apply andb_prop in Hl as [[Hi _]%is_literal_inert _]. by intros ->. }
  destruct H as (b & r & Et & Hb). rewrite (byte_eq l pre b (r ++ post)) by by rewrite El, Et.
  by rewrite (proj2 (N.eqb_neq b 123)).
Qed.

(** What walking to a member and editing the text there does is what [tree_set] does. *)
Lemma walk_loop_text l path w : forall keys depth pre t post,
  l = pre ++ tree_text t ++ post -> wf_tree t = true -> (depth + length keys)%nat = length path ->
  let set := tree_set (mkLayout (newline l) (unit_ l)) path depth keys w pre t in
  match walk_loop l path depth keys (length pre) with
  | Err e => set = Err e
  | Ok Target_Empty => False
  | Ok (Target_Missing missing) =>
      exists t', set = Ok t' /\ insert l missing (tree_text w) = pre ++ tree_text t' ++ post
  | Ok (Target_Found _ member) =>
      exists t', set = Ok t' /\
        splice l [(Member_value member, Member_end member, tree_text w)] = pre ++ tree_text t' ++ post
  end.
Proof.
  induction keys as [|key rest IH]; intros depth pre t post El Hwf Hdepth set; [done|]. unfold set. clear set. cbn [walk_loop tree_set].
  destruct t as [lit|body|lead es|lead ms]; [by rewrite (not_object_text l pre _ post key El Hwf)..|].
  rewrite (parse_object_text l pre lead ms post key El Hwf). cbn [ok_or Object_members].
  pose proof (seek_wanted key ms 0 (length (pre ++ [123] ++ trivia_text lead))) as Hseek.
  destruct (seek key ms) as [|before k e after|].
  - rewrite Hseek. eexists. split; [done|]. by apply insert_text.
  - destruct Hseek as [-> ->]. cbn [length] in Hdepth.
    pose proof (proj1 (wf_object _ _) Hwf) as (_ & Hms & _). apply Forall_app in Hms as [_ [[Hk He] Hafter]%Forall_cons]. cbn [fst snd] in Hk, He.
    destruct (andb_prop _ _ He) as [[Hv _]%andb_prop _].
    set (p4 := pre ++ [123] ++ trivia_text lead ++ members_text before ++ key_text k).
    set (post' := tail_text e ++ members_text after ++ [125] ++ post).
    assert (E4 : l = p4 ++ tree_text (Element_value e) ++ post').
    { rewrite El, object_text. unfold object_head, p4, post'. rewrite members_text_app.
      change (members_text ((k, e) :: after)) with (member_text (k, e) ++ members_text after). unfold member_text, element_text.
      cbn [fst snd]. text_eq. }
    destruct (tail_ends e after post He) as [Hte Htc]. fold post' in Hte, Htc.
    assert (Hback : forall v, p4 ++ tree_text v ++ post' =
              pre ++ tree_text (Tree_object lead (before ++ (k, with_value e v) :: after)) ++ post).
    { intros v. rewrite object_text. unfold object_head, p4, post'. rewrite members_text_app.
      change (members_text ((k, ?x) :: after)) with (member_text (k, x) ++ members_text after). unfold member_text, element_text, tail_text.
      cbn [fst snd with_value Element_value Element_after Element_comma]. text_eq. }
    assert (Hplace : Member_value (place (length (pre ++ [123] ++ trivia_text lead) + length (members_text before)) k e key) = length p4 /\
                     Member_end (place (length (pre ++ [123] ++ trivia_text lead) + length (members_text before)) k e key) =
                       length (p4 ++ tree_text (Element_value e))).
    { unfold p4. cbn [place Member_value Member_end]. rewrite !length_app. cbn [length]. lia. }
    destruct Hplace as [Hpv Hpe]. destruct rest as [|key' rest].
    + cbn [length] in Hdepth. rewrite (proj2 (Nat.eqb_eq _ _)) by lia. rewrite Hpv, Hpe. eexists. split; [done|].
      rewrite (splice_one l p4 _ post' (tree_text w) E4) by (try done; by apply tree_clean). apply Hback.
    + cbn [length] in Hdepth. rewrite (proj2 (Nat.eqb_neq _ _)) by lia. rewrite Hpv.
      specialize (IH (S depth) p4 (Element_value e) post' E4 Hv). cbn [length] in IH. specialize (IH ltac:(lia)). cbv zeta in IH.
      destruct (walk_loop l path (S depth) (key' :: rest) (length p4)) as [[|missing|previous member]|err].
      * done.
      * destruct IH as (t' & -> & ->). eexists. split; [done|]. apply Hback.
      * destruct IH as (t' & -> & ->). eexists. split; [done|]. apply Hback.
      * by rewrite IH.
  - destruct Hseek as ([i m] & y & others & ->). done.
Qed.
End laws.
