(* ===== verification/JsoncRuns.v ===== *)
(** Setting a member of a commented JSON document: what becomes of the document. *)

From Stdlib Require Import NArith Lia String Ascii.
From stdpp Require Import base list strings.
From S2P Require Import Prelude RustStr Wire Jsonc JsoncTree JsoncEdit.

(** ** Documents *)

Record Doc := mkDoc { Doc_lead : list Trivium; Doc_root : Tree; Doc_trail : list Trivium }.
Definition doc_text (d : Doc) : text := trivia_text (Doc_lead d) ++ tree_text (Doc_root d) ++ trivia_text (Doc_trail d).

(** The comments of a tree in order, each without the blanks at its end *)
Definition comments_of (ts : list Trivium) : list text :=
  flat_map (fun t => match t with
                     | Trivium_blank _ => []
                     | Trivium_line body => [trim_end is_space body]
                     | Trivium_block body => [body]
                     end) ts.
#[local] Arguments comments_of : simpl never.
Definition tail_comments {A} (e : ElementOf A) : list text :=
  comments_of (Element_after e) ++ match Element_comma e with Some ts => comments_of ts | None => [] end.
Definition key_comments (k : Key) : list text := comments_of (Key_before k) ++ comments_of (Key_after k).
Fixpoint tree_comments (t : Tree) : list text :=
  match t with
  | Tree_literal _ | Tree_string _ => []
  | Tree_array lead es =>
      comments_of lead ++ concat (map (fun e => tree_comments (Element_value e) ++ tail_comments e) es)
  | Tree_object lead ms =>
      comments_of lead
      ++ concat (map (fun m => key_comments m.1 ++ tree_comments (Element_value m.2) ++ tail_comments m.2) ms)
  end.
Definition doc_comments (d : Doc) : list text :=
  comments_of (Doc_lead d) ++ tree_comments (Doc_root d) ++ comments_of (Doc_trail d).

Section documents.
Context `{laws : JsonLibraryLaws}.

Definition wf_doc (d : Doc) : bool :=
  wf_trivia false (Doc_lead d) && wf_tree (Doc_root d) && wf_trivia true (Doc_trail d).

(** The value at a path, where each key on it stands once *)
Definition found (key : string) (t : Tree) : option Tree :=
  match t with
  | Tree_object _ ms => match seek key ms with Sought_once _ _ e _ => Some (Element_value e) | _ => None end
  | _ => None
  end.
Fixpoint tree_get (path : list string) (t : Tree) : option Tree :=
  match path with
  | [] => Some t
  | key :: rest => found key t ≫= tree_get rest
  end.

Definition doc_set (d : Doc) (path : list string) (w : Tree) : result Doc JsoncError :=
  let l := doc_text d in
  map_ok (fun t => mkDoc (Doc_lead d) t (Doc_trail d))
    (tree_set (mkLayout (newline l) (unit_ l)) path 0 path w (trivia_text (Doc_lead d)) (Doc_root d)).

(** ** The operation on texts *)

Lemma trim_matches_nil l : trim_matches l = [] -> forallb is_space l = true.
Proof.
  unfold trim_matches, trim_start. intros H. destruct (trim_end_split (drop_while is_space l)) as (t & E & Ht & _).
  rewrite H in E. cbn in E. clear H. induction l as [|b l IH]; [done|]. cbn in *. destruct (is_space b) eqn:Hb; [by apply IH|].
  subst t. cbn in Ht. by rewrite Hb in Ht.
Qed.

Lemma trim_matches_tree before w after : forallb is_space before = true -> forallb is_space after = true -> wf_tree w = true ->
  trim_matches (before ++ tree_text w ++ after) = tree_text w.
Proof.
  intros Hb Ha Hw. unfold trim_matches, trim_start. rewrite drop_while_app by done.
  destruct (tree_head w Hw) as (b & r & E & Hs & _). replace (drop_while is_space (tree_text w ++ after)) with (tree_text w ++ after).
  - apply trim_end_solid; [by apply tree_solid|done].
  - rewrite E. cbn. by rewrite Hs.
Qed.

Lemma walk_doc d path : wf_doc d = true -> valid_json (strip (doc_text d)) = Ok tt ->
  walk (doc_text d) path = walk_loop (doc_text d) path 0 path (length (trivia_text (Doc_lead d))).
Proof.
  intros [[Hl Hr]%andb_prop _]%andb_prop Hv. unfold walk.
  destruct (trim_matches (strip (doc_text d))) as [|b r] eqn:Ht.
  - apply trim_matches_nil, blanks_are_no_value in Ht. unfold valid_json, json in Hv. rewrite Ht in Hv. by destruct (_ <? _).
  - rewrite Hv. cbn [map_err]. f_equal. apply (skip_trivia_text [] (Doc_lead d) (tree_text (Doc_root d) ++ trivia_text (Doc_trail d)));
      [done|by apply tree_stops].
Qed.

Lemma set_member_doc d path w before after :
  wf_doc d = true -> wf_tree w = true -> forallb is_space before = true -> forallb is_space after = true ->
  valid_json (strip (doc_text d)) = Ok tt -> valid_json (before ++ tree_text w ++ after) = Ok tt ->
  set_member (doc_text d) path (before ++ tree_text w ++ after) = Some (map_ok doc_text (doc_set d path w)).
Proof.
  intros Hd Hw Hb Ha Hv Hvw. unfold set_member. cbn [set_member_calls]. rewrite Hvw. cbn [map_err].
  rewrite trim_matches_tree, walk_doc by done. unfold doc_set.
  pose proof (proj1 (andb_true_iff _ _) Hd) as [[Hl Hr]%andb_prop _].
  pose proof (walk_loop_text (doc_text d) path w path 0 (trivia_text (Doc_lead d)) (Doc_root d) (trivia_text (Doc_trail d))
    eq_refl Hr eq_refl) as H. cbv zeta in H.
  destruct (walk_loop _ _ _ _ _) as [[|missing|previous member]|e]; [done|..|by rewrite H];
    destruct H as (t' & -> & ->); done.
Qed.

(** ** Looking for a key after an edit *)

Definition unnamed (key : string) (ms : list (Key * ElementOf Tree)) : Prop := Forall (fun m => names key m.1 = false) ms.

Lemma seek_absent key ms : seek key ms = Sought_absent <-> unnamed key ms.
Proof.
  induction ms as [|[k e] ms IH]; cbn [seek]; [by split; [constructor|]|].
  unfold unnamed. rewrite Forall_cons. cbn [fst]. destruct (names key k) eqn:Hk.
  - split; [by destruct (existsb _ ms)|by intros [? _]].
  - fold (unnamed key ms). rewrite <- IH. destruct (seek key ms); split; try done; by intros [_ ?].
Qed.

Lemma seek_once key before k e after : seek key (before ++ (k, e) :: after) = Sought_once before k e after <->
  unnamed key before /\ names key k = true /\ unnamed key after.
Proof.
  assert (Hex : existsb (fun m : Key * ElementOf Tree => names key m.1) after = false <-> unnamed key after).
  { clear. unfold unnamed. induction after as [|m after IH]; [by split; [constructor|]|]. cbn. rewrite orb_false_iff, Forall_cons, IH. done. }
  induction before as [|[k' e'] before IH]; cbn [app seek].
  - unfold unnamed at 1. rewrite Forall_nil. destruct (names key k); [|by split; [destruct (seek key after)|intros (_ & ? & _)]].
    rewrite <- Hex. destruct (existsb _ after); split; try done. by intros (_ & _ & ?).
  - unfold unnamed at 1. rewrite Forall_cons. cbn [fst]. fold (unnamed key before). destruct (names key k') eqn:Hk'.
    + clear Hex. split; [destruct (existsb _ (before ++ _)); intros [=]|by intros ([? _] & _)].
    + split.
      * destruct (seek key (before ++ (k, e) :: after)) as [|b1 k1 e1 a1|]; try done.
        intros [= <- <- <- <-]. destruct (proj1 IH eq_refl) as (? & ? & ?). by split_and!.
      * intros ([_ Hb] & Hk & Ha). by rewrite (proj2 IH (conj Hb (conj Hk Ha))).
Qed.

Lemma seek_once_split key ms before k e after : seek key ms = Sought_once before k e after -> ms = before ++ (k, e) :: after.
Proof. intros H. pose proof (seek_wanted key ms 0 0) as Hw. rewrite H in Hw. apply Hw. Qed.

(** ** The new member *)

(** A key that is written is read back: it is not longer than what is read. *)
Definition fits (key : string) : Prop := N.of_nat (length (string_to_text key)) <= MAX_FOREIGN_BYTES.

Lemma new_key_name key : fits key -> key_name (new_key key) = Ok key.
Proof.
  intros Hf. unfold key_name, new_key, json_string, json. cbn [Key_body]. destruct (new_key_text key) as [<- _].
  unfold fits in Hf. rewrite (proj2 (N.ltb_ge _ _)) by exact Hf. by rewrite string_text_read.
Qed.

Lemma names_new key key' : fits key -> names key' (new_key key) = bool_decide (key = key').
Proof. intros Hf. unfold names. by rewrite new_key_name. Qed.

Lemma comments_app a b : comments_of (a ++ b) = comments_of a ++ comments_of b.
Proof. apply flat_map_app. Qed.

Lemma comments_blanks l : comments_of (blanks l) = [].
Proof. induction l as [|b l IH]; [done|]. exact IH. Qed.

Lemma trim_end_idemp l : trim_end is_space (trim_end is_space l) = trim_end is_space l.
Proof.
  destruct (trim_end_split l) as (_ & _ & _ & [-> |Hs]); [done|]. rewrite <- (app_nil_r (trim_end is_space l)) at 1.
  by apply trim_end_solid.
Qed.

Lemma split_blanks_comments ts kept tail : wf_trivia false ts = true -> split_blanks ts = (kept, tail) ->
  comments_of kept = comments_of ts /\ comments_of tail = [].
Proof.
  intros Hwf Hs. split.
  - clear Hwf. revert kept tail Hs. induction ts as [|t ts IH]; intros kept tail; [by intros [= <- <-]|]. cbn [split_blanks].
    destruct (split_blanks ts) as [[|x k] r]; specialize (IH _ _ eq_refl).
    + change (t :: ts) with ([t] ++ ts). rewrite comments_app, <- IH.
      destruct t as [b|body|body]; intros [= <- <-]; unfold comments_of; cbn; by rewrite ?trim_end_idemp.
    + intros [= <- <-]. change (comments_of (t :: x :: k)) with (comments_of ([t] ++ x :: k)).
      change (t :: ts) with ([t] ++ ts). by rewrite !comments_app, IH.
  - destruct (wf_trivia_tail _ _ _ _ Hwf Hs) as [_ Hb]. clear -Hb.
    induction Hb as [|t tail (b & -> & _) _ IH]; [done|]. exact IH.
Qed.

Definition member_comments (m : Key * ElementOf Tree) : list text :=
  key_comments m.1 ++ tree_comments (Element_value m.2) ++ tail_comments m.2.

Lemma object_comments lead ms : tree_comments (Tree_object lead ms) = comments_of lead ++ concat (map member_comments ms).
Proof. done. Qed.

Lemma nest_comments keys w indent layout : tree_comments (nest_tree keys w indent layout) = tree_comments w.
Proof.
  revert indent. induction keys as [|key rest IH]; intros indent; [done|]. cbn [nest_tree]. rewrite object_comments.
  cbn [map concat]. rewrite comments_blanks, app_nil_r. unfold member_comments, tail_comments, key_comments, new_key.
  cbn. rewrite comments_blanks, IH. change (comments_of [Trivium_blank 32]) with (@nil text). cbn. by rewrite !app_nil_r.
Qed.

Definition contents (ms : list (Key * ElementOf Tree)) : list (Key * Tree) := map (fun m => (m.1, Element_value m.2)) ms.

Lemma unnamed_contents key ms ms' : contents ms = contents ms' -> unnamed key ms -> unnamed key ms'.
Proof.
  revert ms'. induction ms as [|[k e] ms IH]; intros [|[k' e'] ms']; cbn; try done. intros [= -> Hv Hms].
  unfold unnamed. rewrite !Forall_cons. intros [Hk Hn]. split; [done|]. by apply (IH ms').
Qed.

(** The object is what it was, with one member more at its end. *)
Lemma insert_tree_shape layout pre lead ms key rest w : wf_tree (Tree_object lead ms) = true ->
  exists lead' ms' e indent' layout',
    insert_tree layout pre lead ms key rest w = Tree_object lead' (ms' ++ [(new_key key, e)]) /\
    Element_value e = nest_tree rest w indent' layout' /\ contents ms' = contents ms /\
    tree_comments (insert_tree layout pre lead ms key rest w) = tree_comments (Tree_object lead ms) ++ tree_comments w.
Proof.
  intros (Hl & Hm & _)%wf_object. unfold insert_tree. destruct ms as [|[k e] ms _] using rev_ind.
  - cbn [rev]. destruct (split_blanks lead) as [kept tail] eqn:Hs. destruct (split_blanks_comments _ _ _ Hl Hs) as [Hk Ht].
    eexists _, [], _, _, _. split_and!; [reflexivity|reflexivity|done|]. rewrite !object_comments, comments_app, comments_blanks, Hk.
    cbn [map concat]. unfold member_comments, tail_comments, key_comments. cbn. rewrite nest_comments.
    change (comments_of [Trivium_blank 32]) with (@nil text). change (comments_of []) with (@nil text). cbn [app].
    destruct (existsb _ _); rewrite ?comments_blanks, ?Ht, !app_nil_r; done.
  - rewrite rev_unit, rev_involutive. apply Forall_app in Hm as [_ [[_ [[_ Ha]%andb_prop Hc]%andb_prop] _]%Forall_cons]. cbn [snd] in Ha, Hc.
    assert (Hblank : forall b f, comments_of (if b : bool then blanks f else [Trivium_blank 32]) = [])
      by (intros [] f; [apply comments_blanks|done]).
    assert (Hnest : forall b i l1 i' l2, tree_comments (if b : bool then nest_tree rest w i l1 else nest_tree rest w i' l2) = tree_comments w)
      by (intros []; intros; apply nest_comments).
    assert (Hif : forall b i l1 i' l2, (if b : bool then nest_tree rest w i l1 else nest_tree rest w i' l2) =
              nest_tree rest w (if b then i else i') (if b then l1 else l2)) by by intros [].
    destruct (Element_comma e) as [ts|] eqn:Hco.
    + destruct (split_blanks ts) as [kept tail] eqn:Hs. destruct (split_blanks_comments _ _ _ Hc Hs) as [Hk Ht].
      eexists lead, (ms ++ [_]), _, _, _. rewrite <- (assoc_L (++)). split_and!; [reflexivity|apply Hif|unfold contents; by rewrite !map_app|].
      rewrite !object_comments, !map_app, !concat_app. cbn [map concat]. unfold member_comments, tail_comments, key_comments.
      cbn. rewrite Hco, comments_app, Hblank, Hnest, Hk, Ht.
      change (comments_of [Trivium_blank 32]) with (@nil text). change (comments_of []) with (@nil text). cbn [app]. by rewrite !app_nil_r, <- !(assoc_L (++)).
    + destruct (split_blanks (Element_after e)) as [kept tail] eqn:Hs. destruct (split_blanks_comments _ _ _ Ha Hs) as [Hk Ht].
      eexists lead, (ms ++ [_]), _, _, _. rewrite <- (assoc_L (++)). split_and!; [reflexivity|apply Hif|unfold contents; by rewrite !map_app|].
      rewrite !object_comments, !map_app, !concat_app. cbn [map concat]. unfold member_comments, tail_comments, key_comments.
      cbn. rewrite Hco, comments_app, Hblank, Hnest, Hk, Ht.
      change (comments_of [Trivium_blank 32]) with (@nil text). change (comments_of []) with (@nil text). cbn [app]. by rewrite !app_nil_r, <- !(assoc_L (++)).
Qed.

(** ** What an edit leaves alone *)

Lemma found_contents key lead ms lead' ms' : contents ms = contents ms' ->
  found key (Tree_object lead ms) = found key (Tree_object lead' ms').
Proof.
  cbn [found].
  assert (Hex : forall ms ms', contents ms = contents ms' ->
    existsb (fun m : Key * ElementOf Tree => names key m.1) ms = existsb (fun m : Key * ElementOf Tree => names key m.1) ms').
  { clear. induction ms as [|[k e] ms IH]; intros [|[k' e'] ms']; cbn; try done. intros [= -> _ H]. by rewrite (IH _ H). }
  revert ms'. induction ms as [|[k e] ms IH]; intros [|[k' e'] ms']; cbn; try done. intros [= -> Hv Hms].
  rewrite (Hex _ _ Hms). destruct (names key k'); [destruct (existsb _ ms'); by f_equal|].
  specialize (IH _ Hms). destruct (seek key ms), (seek key ms'); done.
Qed.

Lemma found_none key lead ms : unnamed key ms -> found key (Tree_object lead ms) = None.
Proof. intros H%seek_absent. cbn. by rewrite H. Qed.

Lemma found_once key lead before k e after : unnamed key before -> names key k = true -> unnamed key after ->
  found key (Tree_object lead (before ++ (k, e) :: after)) = Some (Element_value e).
Proof. intros Hb Hk Ha. cbn. by rewrite (proj2 (seek_once key before k e after)). Qed.

Lemma found_other key lead before k e after : names key k = false ->
  found key (Tree_object lead (before ++ (k, e) :: after)) = found key (Tree_object lead (before ++ after)).
Proof.
  intros Hk. cbn. induction before as [|[k' e'] before IH]; cbn [app seek].
  - rewrite Hk. by destruct (seek key after).
  - rewrite !existsb_app. cbn [existsb fst]. rewrite Hk. cbn [orb]. destruct (names key k'); [by destruct (_ || _)|].
    destruct (seek key (before ++ (k, e) :: after)), (seek key (before ++ after)); naive_solver.
Qed.

(** Two paths that part at some key *)
Definition apart (p q : list string) : Prop :=
  exists common k l p' q', p = common ++ k :: p' /\ q = common ++ l :: q' /\ k <> l.

Lemma apart_cons k l p q : apart (k :: p) (l :: q) <-> k <> l \/ (k = l /\ apart p q).
Proof.
  split.
  - intros ([|c common] & k' & l' & p' & q' & [= -> ->] & [= -> ->] & Hne); [by left|]. right. split; [done|].
    by exists common, k', l', p', q'.
  - intros [Hne|[-> (common & k' & l' & p' & q' & -> & -> & Hne)]]; [by exists [], k, l, p, q|].
    by exists (l :: common), k', l', p', q'.
Qed.

Lemma apart_nil p : ~ apart p [] /\ ~ apart [] p.
Proof. split; intros ([|] & ? & ? & ? & ? & ? & ? & ?); done. Qed.

Lemma found_new key lead key' e : fits key' ->
  found key (Tree_object lead [(new_key key', e)]) = if bool_decide (key' = key) then Some (Element_value e) else None.
Proof. intros Hf. cbn. rewrite names_new by done. by destruct (bool_decide _). Qed.

Lemma nest_get keys w indent layout : Forall fits keys -> tree_get keys (nest_tree keys w indent layout) = Some w.
Proof.
  intros Hf. revert indent. induction Hf as [|key rest Hk _ IH]; intros indent; [done|]. cbn [nest_tree tree_get].
  rewrite found_new by done. rewrite bool_decide_eq_true_2 by done. cbn. apply IH.
Qed.

Lemma nest_get_apart q keys w indent layout : Forall fits keys -> apart q keys -> tree_get q (nest_tree keys w indent layout) = None.
Proof.
  intros Hf. revert q indent. induction Hf as [|key rest Hk _ IH]; intros q indent Hq; [by apply apart_nil in Hq|].
  destruct q as [|k q]; [by apply apart_nil in Hq|]. cbn [nest_tree tree_get]. rewrite found_new by done.
  apply apart_cons in Hq as [Hne|[-> Hq]].
  - by rewrite bool_decide_eq_false_2.
  - rewrite bool_decide_eq_true_2 by done. cbn. by apply IH.
Qed.

Lemma names_unique key key' k : names key k = true -> key <> key' -> names key' k = false.
Proof.
  unfold names. destruct (key_name k) as [name|]; [|done]. intros ->%bool_decide_eq_true Hne. by apply bool_decide_eq_false.
Qed.

Lemma tree_set_get layout path w : forall keys depth pre t t',
  tree_set layout path depth keys w pre t = Ok t' -> wf_tree t = true -> Forall fits keys ->
  tree_get keys t' = Some w /\ forall q, apart q keys -> tree_get q t' = tree_get q t.
Proof.
  induction keys as [|key rest IH]; intros depth pre t t'; [done|]. cbn [tree_set].
  destruct t as [lit|body|lead es|lead ms]; try done. intros Hset Hwf [Hkey Hrest]%Forall_cons.
  destruct (seek key ms) as [|before k e after|] eqn:Hseek; [| |done].
  - injection Hset as <-. apply seek_absent in Hseek.
    destruct (insert_tree_shape layout pre lead ms key rest w Hwf) as (lead' & ms' & e & i & l & -> & He & Hc & _).
    assert (Hms' : unnamed key ms') by by eapply unnamed_contents.
    assert (Hfound : found key (Tree_object lead' (ms' ++ [(new_key key, e)])) = Some (nest_tree rest w i l)).
    { rewrite found_once; [by rewrite He|done|rewrite names_new by done; by apply bool_decide_eq_true|constructor]. }
    split; [cbn [tree_get]; rewrite Hfound; by apply nest_get|]. intros [|k q] Hq; [by apply apart_nil in Hq|].
    cbn [tree_get]. apply apart_cons in Hq as [Hne|[-> Hq]].
    + rewrite found_other, app_nil_r by (rewrite names_new by done; by apply bool_decide_eq_false). by rewrite (found_contents k lead' ms' lead ms Hc).
    + rewrite Hfound, (found_none key lead ms Hseek). cbn. by apply nest_get_apart.
  - pose proof (seek_once_split _ _ _ _ _ _ Hseek) as ->. apply seek_once in Hseek as (Hb & Hk & Ha).
    assert (Hv : wf_tree (Element_value e) = true).
    { apply wf_member_values, Forall_app in Hwf as [_ [Hv _]%Forall_cons]. done. }
    assert (Hgo : forall v, (tree_get rest v = Some w /\ forall q, apart q rest -> tree_get q v = tree_get q (Element_value e)) ->
      tree_get (key :: rest) (Tree_object lead (before ++ (k, with_value e v) :: after)) = Some w /\
      forall q, apart q (key :: rest) -> tree_get q (Tree_object lead (before ++ (k, with_value e v) :: after)) =
        tree_get q (Tree_object lead (before ++ (k, e) :: after))).
    { intros v [Hget Hoth]. cbn [tree_get]. rewrite found_once by done. split; [done|].
      intros [|k' q] Hq; [by apply apart_nil in Hq|]. cbn [tree_get]. apply apart_cons in Hq as [Hne|[-> Hq]].
      - rewrite !found_other by (eapply names_unique; [exact Hk|congruence]). done.
      - rewrite !found_once by done. cbn. by apply Hoth. }
    destruct rest as [|key' rest].
    + injection Hset as <-. apply Hgo. split; [done|]. intros q Hq. by apply apart_nil in Hq.
    + destruct (tree_set layout path (S depth) (key' :: rest) w _ (Element_value e)) as [v|] eqn:Hin; [|done].
      injection Hset as <-. apply Hgo. by eapply IH.
Qed.

(** The value that stands at a path already is written again as it is. *)
Lemma nest_set layout path w : forall keys depth pre indent layout', keys <> [] -> Forall fits keys ->
  tree_set layout path depth keys w pre (nest_tree keys w indent layout') = Ok (nest_tree keys w indent layout').
Proof.
  intros keys. induction keys as [|key rest IH]; intros depth pre indent layout' Hne Hf; [done|]. apply Forall_cons in Hf as [Hk Hf].
  cbn [nest_tree tree_set]. cbn [seek]. rewrite names_new by done. rewrite bool_decide_eq_true_2 by done. cbn [existsb].
  destruct rest as [|key' rest]; [done|]. cbn [Element_value]. rewrite IH by done. done.
Qed.

Lemma tree_set_again layout path w : forall keys depth pre t t' layout' pre',
  tree_set layout path depth keys w pre t = Ok t' -> wf_tree t = true -> Forall fits keys ->
  tree_set layout' path depth keys w pre' t' = Ok t'.
Proof.
  induction keys as [|key rest IH]; intros depth pre t t' layout' pre'; [done|]. cbn [tree_set].
  destruct t as [lit|body|lead es|lead ms]; try done. intros Hset Hwf [Hkey Hrest]%Forall_cons.
  destruct (seek key ms) as [|before k e after|] eqn:Hseek; [| |done].
  - injection Hset as <-. apply seek_absent in Hseek.
    destruct (insert_tree_shape layout pre lead ms key rest w Hwf) as (lead' & ms' & e & i & l & -> & He & Hc & _).
    assert (Hms' : unnamed key ms') by by eapply unnamed_contents.
    rewrite (proj2 (seek_once key ms' (new_key key) e [])).
    2:{ split_and!; [done|rewrite names_new by done; by apply bool_decide_eq_true|constructor]. }
    destruct e as [v a c]. cbn in He. subst v. cbn [Element_value with_value Element_after Element_comma].
    destruct rest as [|key' rest]; [done|]. rewrite nest_set by done. done.
  - pose proof (seek_once_split _ _ _ _ _ _ Hseek) as ->. apply seek_once in Hseek as (Hb & Hk & Ha).
    assert (Hv : wf_tree (Element_value e) = true) by (apply wf_member_values, Forall_app in Hwf as [_ [Hv _]%Forall_cons]; done).
    destruct rest as [|key' rest].
    + injection Hset as <-. by rewrite (proj2 (seek_once key before k (with_value e w) after)).
    + destruct (tree_set layout path (S depth) (key' :: rest) w _ (Element_value e)) as [v|] eqn:Hin; [|done].
      injection Hset as <-. rewrite (proj2 (seek_once key before k (with_value e v) after)) by done. cbn [Element_value with_value].
      by rewrite (IH _ _ _ _ layout' (pre' ++ [123] ++ trivia_text lead ++ members_text before ++ key_text k) Hin Hv Hrest).
Qed.

(** The comments that go are those inside the value that is replaced. *)
Lemma tree_set_comments layout path w : forall keys depth pre t t',
  tree_set layout path depth keys w pre t = Ok t' -> wf_tree t = true ->
  exists a b, tree_comments t = a ++ match tree_get keys t with Some v => tree_comments v | None => [] end ++ b /\
    tree_comments t' = a ++ tree_comments w ++ b.
Proof.
  induction keys as [|key rest IH]; intros depth pre t t'; [done|]. cbn [tree_set].
  destruct t as [lit|body|lead es|lead ms]; try done. intros Hset Hwf.
  destruct (seek key ms) as [|before k e after|] eqn:Hseek; [| |done].
  - injection Hset as <-. destruct (insert_tree_shape layout pre lead ms key rest w Hwf) as (? & ? & ? & ? & ? & _ & _ & _ & ->).
    exists (tree_comments (Tree_object lead ms)), []. cbn [tree_get]. apply seek_absent in Hseek.
    rewrite (found_none key lead ms Hseek). cbn [mbind option_bind]. by rewrite !app_nil_r.
  - pose proof (seek_once_split _ _ _ _ _ _ Hseek) as ->. apply seek_once in Hseek as (Hb & Hk & Ha).
    assert (Hv : wf_tree (Element_value e) = true) by (apply wf_member_values, Forall_app in Hwf as [_ [Hv _]%Forall_cons]; done).
    cbn [tree_get]. rewrite found_once by done. cbn [mbind option_bind].
    assert (Hgo : forall v a b, tree_comments (Element_value e) = a ++ match tree_get rest (Element_value e) with Some v => tree_comments v | None => [] end ++ b ->
      tree_comments v = a ++ tree_comments w ++ b ->
      exists a b, tree_comments (Tree_object lead (before ++ (k, e) :: after)) =
          a ++ match tree_get rest (Element_value e) with Some v => tree_comments v | None => [] end ++ b /\
        tree_comments (Tree_object lead (before ++ (k, with_value e v) :: after)) = a ++ tree_comments w ++ b).
    { intros v a b E1 E2. exists (comments_of lead ++ concat (map member_comments before) ++ key_comments k ++ a),
        (b ++ tail_comments e ++ concat (map member_comments after)).
      rewrite !object_comments, !map_app, !concat_app. cbn [map concat].
      change (member_comments (k, e)) with (key_comments k ++ tree_comments (Element_value e) ++ tail_comments e).
      change (member_comments (k, with_value e v)) with (key_comments k ++ tree_comments v ++ tail_comments e).
      rewrite E1, E2. by rewrite <- !(assoc_L (++)). }
    destruct rest as [|key' rest].
    + injection Hset as <-. apply (Hgo w [] []); cbn; by rewrite ?app_nil_r.
    + destruct (tree_set layout path (S depth) (key' :: rest) w _ (Element_value e)) as [v|] eqn:Hin; [|done].
      injection Hset as <-. destruct (IH _ _ _ _ Hin Hv) as (a & b & E1 & E2). by apply (Hgo v a b).
Qed.

(** ** What is written can be read again *)

Definition starts_newline (x : list Trivium) : Prop := exists b r, x = Trivium_blank b :: r /\ is_newline b = true.

Lemma split_blanks_none ts tail : split_blanks ts = ([], tail) -> tail = ts.
Proof.
  revert tail. induction ts as [|t ts IH]; intros tail; [by intros [= <-]|]. cbn [split_blanks].
  destruct (split_blanks ts) as [[|x k] r]; [|done]. destruct t; intros [= <-]. by rewrite (IH r).
Qed.

Lemma wf_kept last ts kept tail x : wf_trivia last ts = true -> split_blanks ts = (kept, tail) -> wf_trivia false x = true ->
  starts_newline x \/ last = false /\ existsb is_newline (trivia_text tail) = false -> wf_trivia false (kept ++ x) = true.
Proof.
  intros Hwf Hs Hx Hf. revert kept tail Hs Hwf Hf. induction ts as [|t ts IH]; intros kept tail; [by intros [= <- <-]|].
  cbn [split_blanks]. destruct (split_blanks ts) as [[|y k] r] eqn:Ets.
  - apply split_blanks_none in Ets as ->. destruct t as [b|body|body]; intros [= <- <-] Hwf Hf; [done|..].
    + apply andb_prop in Hwf as [[Hb%negb_true_iff Hn]%andb_prop Hts].
      destruct (trim_end_split body) as (rest & E & _). cbn [app wf_trivia]. rewrite Hx, andb_true_r. apply andb_true_iff. split.
      * rewrite E, existsb_app in Hb. apply orb_false_iff in Hb as [-> _]. done.
      * destruct Hf as [(b & r & -> & Hr)|[-> Hf]]; [done|]. exfalso. rewrite trivia_text_app, existsb_app in Hf.
        apply orb_false_iff in Hf as [_ Hf]. destruct ts as [|[b|?|?] ts]; try done. cbn in Hf, Hn. by rewrite Hn in Hf.
    + apply andb_prop in Hwf as [Hb _]. cbn [app wf_trivia]. by rewrite Hb.
  - intros [= <- <-] Hwf Hf. specialize (IH _ _ eq_refl).
    destruct t as [b|body|body]; cbn [app wf_trivia] in *; apply andb_prop in Hwf as [Hb Hts]; specialize (IH Hts Hf); cbn [app] in IH;
      try (by rewrite Hb).
    rewrite IH, andb_true_r. apply andb_prop in Hb as [-> Hn]. cbn.
    destruct ts as [|[b|?|?] ts]; try done. cbn [split_blanks] in Ets. destruct (split_blanks ts) as [[|? ?] ?]; [done|].
    by injection Ets as <- <- <-.
Qed.

Lemma wf_tail ts kept tail : wf_trivia false ts = true -> split_blanks ts = (kept, tail) -> wf_trivia false tail = true.
Proof.
  intros Hwf Hs. destruct (wf_trivia_tail _ _ _ _ Hwf Hs) as [_ Hb]. clear Hwf Hs.
  induction Hb as [|t tail' (b & -> & Hsp) _ IH]; [done|]. cbn. by rewrite Hsp.
Qed.

Lemma wf_blanks l : forallb is_space l = true -> wf_trivia false (blanks l) = true.
Proof. induction l as [|b l IH]; [done|]. cbn. by intros [-> Hl%IH]%andb_prop. Qed.

Lemma take_while_forallb p (l : text) : forallb p (take_while p l) = true.
Proof. induction l as [|b l IH]; [done|]. cbn. destruct (p b) eqn:Hb; [cbn; by rewrite Hb|done]. Qed.

Lemma blank_is_space l : forallb is_blank l = true -> forallb is_space l = true.
Proof.
  rewrite !forallb_forall. intros H b Hb%H. unfold is_blank, is_space in *. by rewrite Hb.
Qed.

(** The layouts the code uses: a newline and some blanks, or nothing *)
Definition wf_layout (layout : Layout) : Prop :=
  (exists b r, Layout_newline layout = b :: r /\ is_newline b = true) /\
  forallb is_space (Layout_newline layout) = true /\ forallb is_space (Layout_unit layout) = true.

Lemma layout_of_text l : wf_layout (mkLayout (newline l) (unit_ l)).
Proof.
  split_and!; cbn.
  - unfold newline. destruct (contains _ _); by eexists _, _.
  - unfold newline. by destruct (contains _ _).
  - unfold unit_. assert (H : forall ls i, first_indent ls = Some i -> forallb is_blank i = true).
    { induction ls as [|line ls IH]; intros i; [done|]. cbn [first_indent].
      destruct (trim_start is_blank line) as [|b c]; [apply IH|]. destruct (take_while is_blank line) as [|x y] eqn:E; [apply IH|].
      destruct (b =? 34); [|apply IH]. intros [= <-]. rewrite <- E. apply take_while_forallb. }
    destruct (first_indent (lines l)) as [i|] eqn:E; [|done]. by apply blank_is_space, (H _ _ E).
Qed.

Lemma indent_spaces pre : forallb is_space (indent_of pre) = true.
Proof. apply blank_is_space, take_while_forallb. Qed.

Lemma wf_new_key key : fits key -> wf_key (new_key key) = true.
Proof.
  intros Hf. unfold wf_key. rewrite (new_key_name key Hf). cbn -[wf_string]. destruct (new_key_text key) as [_ ->]. done.
Qed.

Lemma wf_member key v after comma : fits key -> wf_tree v = true -> wf_trivia false after = true ->
  match comma with Some ts => wf_trivia false ts | None => true end = true ->
  wf_key (new_key key) = true /\ wf_element wf_tree (mkElement v after comma) = true.
Proof. intros Hf Hv Ha Hc. split; [by apply wf_new_key|]. unfold wf_element. cbn. by rewrite Hv, Ha. Qed.

Lemma wf_nest keys w indent layout : Forall fits keys -> wf_tree w = true ->
  forallb is_space (Layout_newline layout) = true -> forallb is_space (Layout_unit layout) = true ->
  forallb is_space indent = true -> wf_tree (nest_tree keys w indent layout) = true.
Proof.
  intros Hf Hw Hn Hu. revert indent. induction Hf as [|key rest Hk _ IH]; intros indent Hi; [done|]. cbn [nest_tree].
  apply wf_object. split_and!; [apply wf_blanks; by rewrite !forallb_app, Hn, Hi, Hu| |done].
  constructor; [|constructor]. apply wf_member; [done| |apply wf_blanks; by rewrite forallb_app, Hn, Hi|done].
  apply IH. by rewrite forallb_app, Hi, Hu.
Qed.

Lemma commas_snoc {A} (es : list (ElementOf A)) e : commas (es ++ [e]) = forallb (fun e => match Element_comma e with Some _ => true | None => false end) es.
Proof.
  induction es as [|x es IH]; [done|]. cbn [app forallb]. rewrite <- IH. destruct es as [|y es]; [|done]. cbn. by rewrite andb_true_r.
Qed.

Lemma wf_insert layout pre lead ms key rest w : wf_tree (Tree_object lead ms) = true -> wf_tree w = true -> wf_layout layout ->
  Forall fits (key :: rest) -> wf_tree (insert_tree layout pre lead ms key rest w) = true.
Proof.
  intros (Hl & Hm & Hc)%wf_object Hw ((b & r & Enl & Hnl) & Hn & Hu) [Hkey Hrest]%Forall_cons.
  pose proof (indent_spaces pre) as Hi. unfold insert_tree.
  assert (Hfresh : wf_trivia false (blanks (Layout_newline layout ++ indent_of pre ++ Layout_unit layout)) = true)
    by (apply wf_blanks; by rewrite !forallb_app, Hn, Hi, Hu).
  assert (Hstart : starts_newline (blanks (Layout_newline layout ++ indent_of pre ++ Layout_unit layout)))
    by (rewrite Enl; by eexists _, _).
  assert (Hnest : wf_tree (nest_tree rest w (indent_of pre ++ Layout_unit layout) layout) = true)
    by (apply wf_nest; try done; by rewrite forallb_app, Hi, Hu).
  assert (Hinline : wf_tree (nest_tree rest w [] INLINE) = true) by by apply wf_nest.
  destruct ms as [|[k e] ms _] using rev_ind.
  - cbn [rev]. destruct (split_blanks lead) as [kept tail] eqn:Hs. apply wf_object.
    split_and!; [by apply (wf_kept false lead kept tail); auto| |done]. constructor; [|constructor]. apply wf_member; [done..| |done].
    destruct (existsb _ _); [by apply (wf_tail lead kept)|]. apply wf_blanks. by rewrite forallb_app, Hn, Hi.
  - rewrite rev_unit, rev_involutive. apply Forall_app in Hm as [Hms [[Hk [[Hv Ha]%andb_prop Hco]%andb_prop] _]%Forall_cons].
    cbn [fst snd] in Hk, Hv, Ha, Hco. rewrite map_app in Hc. cbn [map snd] in Hc. rewrite commas_snoc in Hc.
    assert (Hbetween : forall ts kept tail, wf_trivia false ts = true -> split_blanks ts = (kept, tail) ->
      wf_trivia false (kept ++ (if existsb is_newline (trivia_text tail)
        then blanks (Layout_newline layout ++ indent_of pre ++ Layout_unit layout) else [Trivium_blank 32])) = true).
    { intros ts kept tail Hwf Hs. apply (wf_kept false ts kept tail); [done..| |]; destruct (existsb is_newline (trivia_text tail)) eqn:Hb; eauto. }
    assert (Hvalue : forall b : bool, wf_tree (if b then nest_tree rest w (indent_of pre ++ Layout_unit layout) layout else nest_tree rest w [] INLINE) = true)
      by by intros [].
    assert (Hdone : forall a1 ts c2 a2, wf_trivia false a1 = true -> wf_trivia false ts = true -> wf_trivia false a2 = true ->
      match c2 with Some ts => wf_trivia false ts | None => true end = true -> forall v, wf_tree v = true ->
      wf_tree (Tree_object lead (ms ++ [(k, mkElement (Element_value e) a1 (Some ts)); (new_key key, mkElement v a2 c2)])) = true).
    { intros a1 ts c2 a2 H1 H2 H3 H4 v Hwv. apply wf_object. split_and!; [done|..].
      - apply Forall_app. split; [done|]. constructor; [split; [done|]; unfold wf_element; cbn; by rewrite Hv, H1, H2|].
        constructor; [by apply wf_member|constructor].
      - rewrite map_app. cbn [map snd]. change [?x; ?y] with ([x] ++ [y]). rewrite (assoc_L (++)), commas_snoc, forallb_app, Hc. done. }
    destruct (Element_comma e) as [ts|].
    + destruct (split_blanks ts) as [kept tail] eqn:Hs. apply Hdone; try done; [by apply (Hbetween ts)|by apply (wf_tail ts kept)].
    + destruct (split_blanks (Element_after e)) as [kept tail] eqn:Hs.
      apply Hdone; try done; [by apply (Hbetween (Element_after e))|by apply (wf_tail (Element_after e) kept)].
Qed.

Lemma wf_tree_set layout path w : wf_tree w = true -> wf_layout layout -> forall keys depth pre t t',
  tree_set layout path depth keys w pre t = Ok t' -> wf_tree t = true -> Forall fits keys -> wf_tree t' = true.
Proof.
  intros Hw Hlay. induction keys as [|key rest IH]; intros depth pre t t'; [done|]. cbn [tree_set].
  destruct t as [lit|body|lead es|lead ms]; try done. intros Hset Hwf Hfits.
  destruct (seek key ms) as [|before k e after|] eqn:Hseek; [| |done].
  - injection Hset as <-. by apply wf_insert.
  - pose proof (seek_once_split _ _ _ _ _ _ Hseek) as ->. apply wf_object in Hwf as (Hl & Hm & Hc).
    apply Forall_app in Hm as [Hb [[Hk [[Hv Ha]%andb_prop Hco]%andb_prop] Haf]%Forall_cons]. cbn [fst snd] in Hk, Hv, Ha, Hco.
    assert (Hgo : forall v, wf_tree v = true -> wf_tree (Tree_object lead (before ++ (k, with_value e v) :: after)) = true).
    { intros v Hwv. apply wf_object. split_and!; [done|..].
      - apply Forall_app. split; [done|]. constructor; [|done]. split; [done|]. unfold wf_element, with_value. cbn. by rewrite Hwv, Ha.
      - rewrite map_app in Hc |- *. cbn [map snd] in Hc |- *. clear -Hc.
        assert (H : forall x y l1 l2, Element_comma (A := Tree) x = Element_comma y -> commas (l1 ++ x :: l2) = commas (l1 ++ y :: l2)).
        { intros x y l1 l2 E. induction l1 as [|z l1 IH]; cbn; [destruct l2; by rewrite ?E|].
          rewrite IH. by destruct l1. }
        by rewrite (H _ e). }
    apply Forall_cons in Hfits as [Hkey Hrest]. destruct rest as [|key' rest].
    + injection Hset as <-. by apply Hgo.
    + destruct (tree_set layout path (S depth) (key' :: rest) w _ (Element_value e)) as [v|] eqn:Hin; [|done].
      injection Hset as <-. apply Hgo. by eapply IH.
Qed.

Lemma tree_set_errors layout path w : forall keys depth pre t e, tree_set layout path depth keys w pre t = Err e ->
  e = JsoncError_EmptyPath \/ (exists what, e = JsoncError_NotObject what) \/ exists what, e = JsoncError_DuplicateKey what.
Proof.
  induction keys as [|key rest IH]; intros depth pre t e; cbn [tree_set]; [intros [= <-]; by left|].
  destruct t as [lit|body|lead es|lead ms]; try (intros [= <-]; right; left; by eexists).
  destruct (seek key ms) as [|before k el after|]; [done| |intros [= <-]; right; right; by eexists].
  destruct rest as [|key' rest]; [done|].
  destruct (tree_set layout path (S depth) (key' :: rest) w _ (Element_value el)) as [v|e'] eqn:Hin; [done|].
  intros [= <-]. by eapply IH.
Qed.

(** ** Properties *)

Lemma set_member_refused_value document path value e : valid_json value = Err e ->
  set_member document path value = Some (Err (JsoncError_Value e)).
Proof. intros H. unfold set_member. cbn [set_member_calls]. by rewrite H. Qed.

Lemma set_member_refused_document document path value e : valid_json value = Ok tt ->
  existsb (fun b => negb (is_space b)) (strip document) = true -> valid_json (strip document) = Err e ->
  set_member document path value = Some (Err (JsoncError_Document e)).
Proof.
  intros Hv Hsolid He. unfold set_member. cbn [set_member_calls]. rewrite Hv. cbn [map_err]. unfold walk.
  destruct (trim_matches (strip document)) as [|b l] eqn:Ht; [|by rewrite He].
  apply trim_matches_nil in Ht. rewrite forallb_forall in Ht. apply existsb_exists in Hsolid as (b & Hb & Hn).
  by rewrite (Ht b Hb) in Hn.
Qed.

(** C33: Setting a member edits the document in place.  A text that is refused as the JSON of the value, whatever the
    document, and a document that is not blank and is refused without its comments and trailing commas, are reported
    as such and nothing is written.  On the text of any other commented document the operation either reports that the
    path runs into a value that is no object or a key that stands twice, or yields the text of a document that has the
    new value at the path, the old value at every path that parts from it, the same trivia around the root, and every
    comment but those inside the value that was replaced, in the same order. *)
Theorem set_member_edits_the_tree :
  (forall document path value e, valid_json value = Err e ->
    set_member document path value = Some (Err (JsoncError_Value e))) /\
  (forall document path value e, valid_json value = Ok tt ->
    existsb (fun b => negb (is_space b)) (strip document) = true -> valid_json (strip document) = Err e ->
    set_member document path value = Some (Err (JsoncError_Document e))) /\
  forall (d : Doc) (path : list string) (w : Tree) (before after : text),
    wf_doc d = true -> wf_tree w = true -> forallb is_space before = true -> forallb is_space after = true -> Forall fits path ->
    valid_json (strip (doc_text d)) = Ok tt -> valid_json (before ++ tree_text w ++ after) = Ok tt ->
    set_member (doc_text d) path (before ++ tree_text w ++ after) = Some (map_ok doc_text (doc_set d path w)) /\
    match doc_set d path w with
    | Err e => e = JsoncError_EmptyPath \/ (exists what, e = JsoncError_NotObject what) \/ exists what, e = JsoncError_DuplicateKey what
    | Ok d' =>
        wf_doc d' = true /\ tree_get path (Doc_root d') = Some w /\
        (forall q, apart q path -> tree_get q (Doc_root d') = tree_get q (Doc_root d)) /\
        Doc_lead d' = Doc_lead d /\ Doc_trail d' = Doc_trail d /\
        exists a b, doc_comments d = a ++ match tree_get path (Doc_root d) with Some v => tree_comments v | None => [] end ++ b /\
          doc_comments d' = a ++ tree_comments w ++ b
    end.
Proof.
  split; [exact set_member_refused_value|]. split; [exact set_member_refused_document|].
  intros d path w before after Hd Hw Hb Ha Hf Hv Hvw. split; [by apply set_member_doc|]. unfold doc_set.
  destruct (proj1 (andb_true_iff _ _) Hd) as [[Hl Hr]%andb_prop Ht].
  destruct (tree_set _ path 0 path w _ (Doc_root d)) as [t'|e] eqn:Hset; cbn [map_ok].
  - destruct (tree_set_get _ _ _ _ _ _ _ _ Hset Hr Hf) as [Hget Hoth].
    destruct (tree_set_comments _ _ _ _ _ _ _ _ Hset Hr) as (a & b & E1 & E2). cbn [Doc_root Doc_lead Doc_trail].
    split_and!; [|done..|].
    + unfold wf_doc. cbn [Doc_root Doc_lead Doc_trail]. rewrite Hl, Ht, andb_true_r. cbn.
      eapply wf_tree_set; [exact Hw|apply layout_of_text|exact Hset|exact Hr|exact Hf].
    + exists (comments_of (Doc_lead d) ++ a), (b ++ comments_of (Doc_trail d)). unfold doc_comments. cbn [Doc_root Doc_lead Doc_trail].
      rewrite E1, E2. by rewrite <- !(assoc_L (++)).
  - by eapply tree_set_errors.
Qed.

(** Setting a member twice is setting it once: on the text that the operation has written the
    operation changes nothing, so that a registration that is in place is recognized by writing it
    again and comparing. *)
Theorem set_member_is_idempotent (d : Doc) (path : list string) (w : Tree) (value updated : text) :
  wf_doc d = true -> wf_tree w = true -> Forall fits path -> value = tree_text w -> valid_json value = Ok tt ->
  valid_json (strip (doc_text d)) = Ok tt -> set_member (doc_text d) path value = Some (Ok updated) ->
  valid_json (strip updated) = Ok tt -> set_member updated path value = Some (Ok updated).
Proof.
  intros Hd Hw Hf -> Hvw Hv Hset Hv'.
  pose proof (set_member_doc d path w [] [] Hd Hw eq_refl eq_refl Hv) as Hdoc. cbn [app] in Hdoc. rewrite app_nil_r in Hdoc.
  rewrite (Hdoc Hvw) in Hset. unfold doc_set in Hset.
  destruct (proj1 (andb_true_iff _ _) Hd) as [[Hl Hr]%andb_prop Ht].
  destruct (tree_set _ path 0 path w _ (Doc_root d)) as [t'|e] eqn:Hts; [|done]. cbn [map_ok] in Hset. injection Hset as <-.
  set (d' := mkDoc (Doc_lead d) t' (Doc_trail d)) in *.
  assert (Hd' : wf_doc d' = true).
  { unfold wf_doc, d'. cbn [Doc_root Doc_lead Doc_trail]. rewrite Hl, Ht, andb_true_r. cbn.
    eapply wf_tree_set; [exact Hw|apply layout_of_text|exact Hts|exact Hr|exact Hf]. }
  pose proof (set_member_doc d' path w [] [] Hd' Hw eq_refl eq_refl Hv') as Hdoc'. cbn [app] in Hdoc'. rewrite app_nil_r in Hdoc'.
  rewrite (Hdoc' Hvw). unfold doc_set. unfold d' at 1 3. cbn [Doc_root Doc_lead Doc_trail].
  rewrite (tree_set_again _ _ _ _ _ _ _ _ _ _ Hts Hr Hf). done.
Qed.
End documents.
