(* ===== verification/JsoncStrip.v ===== *)
(** What [strip] makes of the text of a tree: the text of the same tree in plain JSON. *)

From Stdlib Require Import NArith Lia String Ascii.
From stdpp Require Import base list strings.
From S2P Require Import Prelude RustStr Wire Jsonc JsoncTree JsoncEdit JsoncRuns.

(** ** Plain trees *)

(** A comment with a space for each character that is no newline *)
Definition blanked (l : text) : text :=
  flat_map (fun c : nat * text => if match c.2 with [b] => is_newline b | _ => false end then c.2 else [32])
    (char_indices (length l) 0 l).

Definition plain_trivia (ts : list Trivium) : list Trivium :=
  flat_map (fun t => match t with Trivium_blank b => [t] | _ => blanks (blanked (trivium_text t)) end) ts.

(** A comma is kept where another element follows. *)
Definition plain_element (last : bool) (v : Tree) (e : ElementOf Tree) : ElementOf Tree :=
  match Element_comma e with
  | None => mkElement v (plain_trivia (Element_after e)) None
  | Some ts =>
      if last then mkElement v (plain_trivia (Element_after e) ++ [Trivium_blank 32] ++ plain_trivia ts) None
      else mkElement v (plain_trivia (Element_after e)) (Some (plain_trivia ts))
  end.
Definition plain_key (k : Key) : Key := mkKey (Key_body k) (plain_trivia (Key_before k)) (plain_trivia (Key_after k)).

Fixpoint plain_tree (t : Tree) : Tree :=
  match t with
  | Tree_literal l => Tree_literal l
  | Tree_string body => Tree_string body
  | Tree_array lead es =>
      Tree_array (plain_trivia lead)
        ((fix go es := match es with
                       | [] => []
                       | e :: rest => plain_element (match rest with [] => true | _ => false end) (plain_tree (Element_value e)) e :: go rest
                       end) es)
  | Tree_object lead ms =>
      Tree_object (plain_trivia lead)
        ((fix go ms := match ms with
                       | [] => []
                       | m :: rest =>
                           (plain_key m.1, plain_element (match rest with [] => true | _ => false end) (plain_tree (Element_value m.2)) m.2) :: go rest
                       end) ms)
  end.
Definition plain_doc (d : Doc) : Doc := mkDoc (plain_trivia (Doc_lead d)) (plain_tree (Doc_root d)) (plain_trivia (Doc_trail d)).

(** JSON without comments and without a comma after the last element *)
Definition blanks_only (ts : list Trivium) : bool := forallb (fun t => match t with Trivium_blank _ => true | _ => false end) ts.
Fixpoint separated {A} (es : list (ElementOf A)) : bool :=
  match es with
  | [] => true
  | [e] => match Element_comma e with Some _ => false | None => true end
  | _ :: es => separated es
  end.
Definition plain_tail {A} (e : ElementOf A) : bool :=
  blanks_only (Element_after e) && match Element_comma e with Some ts => blanks_only ts | None => true end.
Fixpoint is_plain (t : Tree) : bool :=
  match t with
  | Tree_literal _ | Tree_string _ => true
  | Tree_array lead es => blanks_only lead && forallb (fun e => is_plain (Element_value e) && plain_tail e) es && separated es
  | Tree_object lead ms =>
      blanks_only lead
      && forallb (fun m => blanks_only (Key_before m.1) && blanks_only (Key_after m.1) && (is_plain (Element_value m.2) && plain_tail m.2)) ms
      && separated (map snd ms)
  end.
Definition is_plain_doc (d : Doc) : bool := blanks_only (Doc_lead d) && is_plain (Doc_root d) && blanks_only (Doc_trail d).

(** ** Characters *)

Lemma char_tail_app l rest : match rest with b :: _ => continuation b = false | [] => True end ->
  char_tail (l ++ rest) = let '(t, r) := char_tail l in (t, r ++ rest).
Proof.
  intros Hr. induction l as [|b l IH]; cbn.
  - destruct rest as [|b rest]; [done|]. cbn. by rewrite Hr.
  - destruct (continuation b); [|done]. rewrite IH. by destruct (char_tail l).
Qed.

Lemma char_tail_length l : (length (char_tail l).1 + length (char_tail l).2 = length l)%nat.
Proof. induction l as [|b l IH]; [done|]. cbn. destruct (continuation b); [|done]. destruct (char_tail l); cbn in *; lia. Qed.

Lemma clean_continuation (l : text) : clean l -> match l with b :: _ => continuation b = false | [] => True end.
Proof. destruct l as [|b l]; [done|]. cbn. unfold continuation, in_range. intros H. destruct (N.leb_spec 128 b); [lia|done]. Qed.

Lemma char_indices_fuel n : forall l fuel fuel' offset, (length l <= n)%nat -> (length l <= fuel)%nat -> (length l <= fuel')%nat ->
  char_indices fuel offset l = char_indices fuel' offset l.
Proof.
  induction n as [|n IH]; intros [|b l] [|fuel] [|fuel'] offset Hn Hf Hf'; cbn in *; try done; try lia.
  pose proof (char_tail_length l) as Hl. destruct (char_tail l) as [t r]. cbn in Hl. f_equal. apply IH; lia.
Qed.

Definition starts_character (l : text) : Prop := match l with b :: _ => continuation b = false | [] => True end.

Lemma char_indices_app n : forall a b offset, (length a <= n)%nat -> starts_character b ->
  char_indices (length (a ++ b)) offset (a ++ b) =
  char_indices (length a) offset a ++ char_indices (length b) (offset + length a) b.
Proof.
  induction n as [|n IH]; intros [|x a] b offset Hn Hb; cbn in Hn; try (cbn; by rewrite Nat.add_0_r); try lia.
  cbn [app length char_indices]. rewrite char_tail_app by done.
  pose proof (char_tail_length a) as Hl. destruct (char_tail a) as [t r]. cbn in Hl. cbn [app]. f_equal.
  rewrite (char_indices_fuel (length (r ++ b)) (r ++ b) _ (length (r ++ b))) by (rewrite ?length_app; lia).
  rewrite (IH r b) by (try done; lia). rewrite (char_indices_fuel (length r) r (length a) (length r)) by lia.
  f_equal. f_equal. lia.
Qed.

Lemma char_indices_shift n : forall l fuel offset, (length l <= n)%nat ->
  char_indices fuel offset l = map (fun c => ((offset + c.1)%nat, c.2)) (char_indices fuel 0 l).
Proof.
  induction n as [|n IH]; intros [|b l] [|fuel] offset Hn; cbn in *; try done; try lia.
  pose proof (char_tail_length l) as Hl. destruct (char_tail l) as [t r]. cbn in *. rewrite Nat.add_0_r. f_equal.
  rewrite (IH r fuel (offset + S (length t))%nat) by lia. rewrite (IH r fuel (S (length t))) by lia. rewrite map_map.
  apply map_ext. intros [o c]. cbn. f_equal. lia.
Qed.

Lemma char_indices_bounds n : forall l fuel offset, (length l <= n)%nat ->
  Forall (fun c => (offset <= c.1 < offset + length l)%nat) (char_indices fuel offset l).
Proof.
  induction n as [|n IH]; intros [|b l] [|fuel] offset Hn; cbn in *; try (by constructor); try lia.
  pose proof (char_tail_length l) as Hl. destruct (char_tail l) as [t r]. cbn in *. constructor; [cbn; lia|].
  eapply Forall_impl; [apply IH; lia|]. intros [o c]. cbn. lia.
Qed.

Lemma char_indices_text n : forall l fuel offset, (length l <= n)%nat -> (length l <= fuel)%nat ->
  concat (map snd (char_indices fuel offset l)) = l.
Proof.
  assert (Ht : forall l, (char_tail l).1 ++ (char_tail l).2 = l).
  { induction l as [|b l IH]; [done|]. cbn. destruct (continuation b); [|done]. destruct (char_tail l); cbn in *. by rewrite IH. }
  induction n as [|n IH]; intros [|b l] [|fuel] offset Hn Hf; cbn in *; try done; try lia.
  pose proof (char_tail_length l) as Hl. specialize (Ht l). destruct (char_tail l) as [t r]. cbn in *.
  rewrite (IH r fuel) by lia. by rewrite Ht.
Qed.

(** ** Blanking *)

Definition within (from to : nat) (ranges : list (nat * nat)) : Prop :=
  Forall (fun r => (from <= r.1 /\ r.1 < r.2 /\ r.2 <= to)%nat) ranges.

Lemma drop_ranges_all offset ranges : Forall (fun r : nat * nat => (r.2 <= offset)%nat) ranges ->
  forall more, drop_while (fun range => (range.2 <=? offset)%nat) (ranges ++ more) = drop_while (fun range => (range.2 <=? offset)%nat) more.
Proof. induction 1 as [|r ranges Hr _ IH]; intros more; [done|]. cbn. by rewrite (proj2 (Nat.leb_le _ _) Hr). Qed.

Lemma drop_ranges_none offset ranges : Forall (fun r : nat * nat => (offset < r.2)%nat) ranges ->
  drop_while (fun range => (range.2 <=? offset)%nat) ranges = ranges.
Proof. destruct 1 as [|r ranges Hr _]; [done|]. cbn. by rewrite (proj2 (Nat.leb_gt _ _) Hr). Qed.

Lemma drop_while_split {A} (p : A -> bool) l : exists dropped, l = dropped ++ drop_while p l /\ Forall (fun a => p a = true) dropped.
Proof.
  induction l as [|a l IH]; [by exists []|]. cbn. destruct (p a) eqn:Ha; [|by exists []].
  destruct IH as (d & E & Hd). exists (a :: d). split; [cbn; by f_equal|by constructor].
Qed.

(** Ranges of the first part do not reach the second. *)
Lemma blank_out_app edge from to r1 r2 c1 c2 : within from edge r1 -> within edge to r2 ->
  Forall (fun c : nat * text => (c.1 < edge)%nat) c1 -> Forall (fun c : nat * text => (edge <= c.1)%nat) c2 ->
  blank_out (r1 ++ r2) (c1 ++ c2) = blank_out r1 c1 ++ blank_out r2 c2.
Proof.
  intros H1 H2 Hc1 Hc2. revert r1 H1. induction Hc1 as [|[o c] c1 Ho _ IH]; intros r1 H1; cbn [app].
  - cbn [blank_out]. destruct Hc2 as [|[o c] c2 Ho _]; [done|]. cbn [blank_out app]. rewrite drop_ranges_all; [done|].
    eapply Forall_impl; [exact H1|]. cbn in *. lia.
  - cbn [blank_out].
    assert (E : drop_while (fun range => (range.2 <=? o)%nat) (r1 ++ r2) = drop_while (fun range => (range.2 <=? o)%nat) r1 ++ r2).
    { clear IH. cbn in Ho. induction H1 as [|r r1 Hr _ IH]; cbn [app].
      - apply drop_ranges_none. eapply Forall_impl; [exact H2|]. cbn. lia.
      - cbn [drop_while]. by destruct (r.2 <=? o)%nat. }
    rewrite E. destruct (drop_while_split (fun range : nat * nat => (range.2 <=? o)%nat) r1) as (d & Er & _).
    assert (H1' : within from edge (drop_while (fun range => (range.2 <=? o)%nat) r1)).
    { unfold within in *. rewrite Er in H1. by apply Forall_app in H1 as [_ H1]. }
    rewrite (IH _ H1'). rewrite <- (assoc_L (++)). f_equal. f_equal.
    destruct (drop_while _ r1) as [|r rest]; [|done]. cbn [app]. destruct H2 as [|[a b] r2 Hr _]; [done|]. cbn in *.
    by rewrite (proj2 (Nat.leb_gt a o)) by lia.
Qed.

Lemma blank_out_none characters : blank_out [] characters = concat (map snd characters).
Proof. induction characters as [|[o c] characters IH]; [done|]. cbn. by rewrite IH. Qed.

Lemma blank_out_whole from to characters : Forall (fun c : nat * text => (from <= c.1 < to)%nat) characters ->
  blank_out [(from, to)] characters =
    flat_map (fun c : nat * text => if match c.2 with [b] => is_newline b | _ => false end then c.2 else [32]) characters.
Proof.
  induction 1 as [|[o c] characters [Ha Hb] _ IH]; [done|]. cbn [blank_out flat_map]. cbn in Ha, Hb.
  cbn [drop_while snd fst]. rewrite (proj2 (Nat.leb_gt to o)) by lia. cbn [fst snd].
  rewrite (proj2 (Nat.leb_le from o)), (proj2 (Nat.ltb_lt o to)) by lia. rewrite IH. cbn [andb]. by destruct (match c with [b] => is_newline b | _ => false end).
Qed.

(** ** The scan of a text *)

(** Scanning [bs] before [post] after the byte [prev]: what is scanned next, and what [bs] becomes *)
Definition strips (post bs : text) (prev prev' : N) (out : text) : Prop :=
  forall pre fuel, (length bs <= fuel)%nat ->
  exists ranges fuel', (fuel <= fuel' + length bs)%nat /\
    strip_loop fuel (pre ++ bs ++ post) (length pre) prev =
      ranges ++ strip_loop fuel' (pre ++ bs ++ post) (length (pre ++ bs)) prev' /\
    within (length pre) (length (pre ++ bs)) ranges /\
    blank_out ranges (char_indices (length bs) (length pre) bs) = out.

Lemma strips_nil post prev : strips post [] prev prev [].
Proof.
  intros pre fuel _. exists [], fuel. cbn [app length]. rewrite app_nil_r. split_and!; [lia|done|constructor|done].
Qed.

Lemma within_weaken from to from' to' ranges : (from' <= from)%nat -> (to <= to')%nat -> within from to ranges -> within from' to' ranges.
Proof. intros H1 H2 H. eapply Forall_impl; [exact H|]. cbn. lia. Qed.

Lemma strips_app a b post p q r o1 o2 : clean b -> strips (b ++ post) a p q o1 -> strips post b q r o2 ->
  strips post (a ++ b) p r (o1 ++ o2).
Proof.
  intros Hc Ha Hb pre fuel Hf. rewrite length_app in Hf.
  destruct (Ha pre fuel) as (r1 & f1 & Hf1 & E1 & W1 & B1); [lia|].
  destruct (Hb (pre ++ a) f1) as (r2 & f2 & Hf2 & E2 & W2 & B2); [lia|].
  exists (r1 ++ r2), f2. rewrite <- !(assoc_L (++)) in E2 |- *. rewrite E1, E2. rewrite length_app. split_and!; [lia| |..].
  - by rewrite <- !(assoc_L (++)).
  - apply Forall_app. split; [eapply within_weaken; [| |exact W1]|eapply within_weaken; [| |exact W2]]; rewrite ?length_app; lia.
  - rewrite <- length_app, (char_indices_app (length a)) by (done || by apply clean_continuation).
    rewrite (blank_out_app (length (pre ++ a)) (length pre) (length ((pre ++ a) ++ b))); [|done|done|..].
    + by rewrite B1, <- length_app, B2.
    + eapply Forall_impl; [by apply (char_indices_bounds (length a))|]. intros c. cbn. rewrite length_app. lia.
    + eapply Forall_impl; [by apply (char_indices_bounds (length b))|]. intros c. cbn. rewrite length_app. lia.
Qed.

(** A step that blanks nothing *)
Lemma strips_step bs b r post prev prev' : bs = b :: r -> b <> 44 ->
  (forall pre, comment_end (pre ++ bs ++ post) (length pre) = None) ->
  (forall pre, (if b =? 34 then string_end (pre ++ bs ++ post) (length pre) else S (length pre)) = length (pre ++ bs)) ->
  prev' = (if is_space b then prev else b) -> strips post bs prev prev' bs.
Proof.
  intros E Hb Hc Hn -> pre fuel Hf. destruct fuel as [|fuel]; [rewrite E in Hf; cbn in Hf; lia|].
  exists [], fuel. split_and!; [rewrite E; cbn; lia| |constructor|].
  - cbn [strip_loop app]. rewrite byte_at. replace ((bs ++ post) !! 0%nat) with (Some b) by (by rewrite E).
    rewrite Hc, Hn, (proj2 (N.eqb_neq b 44) Hb). done.
  - rewrite blank_out_none. by apply (char_indices_text (length bs)).
Qed.

Lemma strips_byte b post prev : b <> 44 -> b <> 34 -> b <> 47 -> strips post [b] prev (if is_space b then prev else b) [b].
Proof.
  intros Hc Hq Hs. apply (strips_step _ b []); [done..| | |done].
  - intros pre. by apply comment_end_none.
  - intros pre. rewrite (proj2 (N.eqb_neq b 34) Hq), length_app. cbn. lia.
Qed.

Lemma strips_string body post prev : wf_string body = true -> strips post (quoted body) prev 34 (quoted body).
Proof.
  intros Hb. apply (strips_step _ 34 (body ++ [34])); [done..| | |done].
  - intros pre. by apply comment_end_none.
  - intros pre. by rewrite string_end_text.
Qed.

Lemma blanked_indices l offset : blank_out [(offset, (offset + length l)%nat)] (char_indices (length l) offset l) = blanked l.
Proof.
  rewrite (blank_out_whole offset (offset + length l)) by by apply (char_indices_bounds (length l)).
  unfold blanked. rewrite (char_indices_shift (length l) l (length l) offset) by done.
  induction (char_indices (length l) 0 l) as [|[o c] cs IH]; [done|]. cbn. by rewrite IH.
Qed.

Lemma strips_comma ts c r prev : wf_trivia false ts = true -> stops (c :: r) -> c < 128 ->
  strips (trivia_text ts ++ c :: r) [44] prev 44 (if negb (opens_item prev) && is_close c then [32] else [44]).
Proof.
  intros Hwf Hst Hc pre fuel Hf. destruct fuel as [|fuel]; [cbn in Hf; lia|].
  exists (if negb (opens_item prev) && is_close c then [(length pre, S (length pre))] else []), fuel.
  rewrite length_app. cbn [length]. split_and!; [lia| |..].
  - cbn [strip_loop]. rewrite comment_end_none by done. rewrite byte_at. cbn [app lookup list_lookup].
    replace (S (length pre)) with (length (pre ++ [44])) by (rewrite length_app; cbn; lia).
    rewrite (skip_trivia_eq _ (pre ++ [44]) ts (c :: r)) by (try done; by rewrite <- !(assoc_L (++))).
    replace ((pre ++ 44 :: trivia_text ts ++ c :: r) !! length ((pre ++ [44]) ++ trivia_text ts)) with (Some c).
    + cbn [N.eqb Pos.eqb andb is_space orb]. rewrite length_app. cbn [length]. by replace (length pre + 1)%nat with (S (length pre)) by lia.
    + symmetry. apply (byte_eq _ _ c r). by rewrite <- !(assoc_L (++)).
  - destruct (_ && _); [|constructor]. constructor; [cbn; lia|constructor].
  - destruct (_ && _); [|done].
    pose proof (blanked_indices [44] (length pre)) as H. cbn [length] in H. by rewrite Nat.add_1_r in H.
Qed.

(** A comment, one step *)
Lemma strips_comment bs r post prev : bs = 47 :: r -> r <> [] ->
  (forall pre, comment_end (pre ++ bs ++ post) (length pre) = Some (length (pre ++ bs))) ->
  strips post bs prev prev (blanked bs).
Proof.
  intros E Hr Hc pre fuel Hf. destruct fuel as [|fuel]; [rewrite E in Hf; cbn in Hf; lia|].
  exists [(length pre, length (pre ++ bs))], fuel. split_and!; [rewrite E; cbn; lia| |..].
  - cbn [strip_loop]. rewrite byte_at. replace ((bs ++ post) !! 0%nat) with (Some 47) by (by rewrite E).
    by rewrite Hc.
  - constructor; [|constructor]. rewrite E, length_app. cbn. lia.
  - rewrite length_app. apply blanked_indices.
Qed.

Lemma blanked_clean l post : clean post -> clean (blanked l ++ post).
Proof.
  intros Hp. unfold blanked. destruct l as [|b l]; [done|]. cbn. destruct (char_tail l) as [t r]. cbn.
  destruct t; [|done]. destruct (is_newline b) eqn:Hb; [|done]. cbn. unfold is_newline in Hb.
  apply orb_true_iff in Hb as [->%N.eqb_eq | ->%N.eqb_eq]; done.
Qed.

Lemma plain_trivia_app a b : plain_trivia (a ++ b) = plain_trivia a ++ plain_trivia b.
Proof. apply flat_map_app. Qed.

Lemma plain_trivia_cons t ts : plain_trivia (t :: ts) = plain_trivia [t] ++ plain_trivia ts.
Proof. by rewrite <- plain_trivia_app. Qed.

Lemma strips_trivia last ts post prev : wf_trivia last ts = true -> (last = true -> post = []) ->
  strips post (trivia_text ts) prev prev (trivia_text (plain_trivia ts)).
Proof.
  intros Hwf Hlast. induction ts as [|t ts IH]; [apply strips_nil|].
  change (trivia_text (t :: ts)) with (trivium_text t ++ trivia_text ts).
  rewrite plain_trivia_cons, trivia_text_app.
  assert (Hts : wf_trivia last ts = true) by (destruct t; apply andb_prop in Hwf; tauto).
  assert (Hclean : clean (trivia_text ts)).
  { destruct ts as [|[b|body|body] ts]; try done. cbn in Hts |- *. apply andb_prop in Hts as [Hb _]. unfold is_space in Hb.
    repeat (apply orb_true_iff in Hb as [Hb|Hb]); apply N.eqb_eq in Hb as ->; done. }
  apply (strips_app _ _ _ prev prev prev); [done| |by apply IH]. destruct t as [b|body|body].
  - apply andb_prop in Hwf as [Hb _]. cbn [trivium_text].
    pose proof (strips_byte b (trivia_text ts ++ post) prev) as H. rewrite Hb in H.
    apply H; intros ->; done.
  - apply andb_prop in Hwf as [[Hb%negb_true_iff Hn]%andb_prop _].
    change (trivia_text (plain_trivia [Trivium_line body])) with (trivia_text (blanks (blanked (trivium_text (Trivium_line body))) ++ [])).
    rewrite app_nil_r, trivia_text_blanks. apply (strips_comment _ (47 :: body)); [done..|]. intros pre.
    cbn [trivium_text]. rewrite <- (assoc_L (++)). apply comment_end_line; [done|].
    destruct ts as [|[b|?|?] ts]; try done. destruct last; [|done]. by rewrite (Hlast eq_refl).
  - apply andb_prop in Hwf as [Hb%bool_decide_eq_true _].
    change (trivia_text (plain_trivia [Trivium_block body])) with (trivia_text (blanks (blanked (trivium_text (Trivium_block body))) ++ [])).
    rewrite app_nil_r, trivia_text_blanks. apply (strips_comment _ (42 :: body ++ [42; 47])); [done..|]. intros pre.
    cbn [trivium_text]. rewrite <- !(assoc_L (++)). by apply comment_end_block.
Qed.

(** ** Trees *)

Fixpoint plain_elements (es : list (ElementOf Tree)) : list (ElementOf Tree) :=
  match es with
  | [] => []
  | e :: rest => plain_element (match rest with [] => true | _ => false end) (plain_tree (Element_value e)) e :: plain_elements rest
  end.
Fixpoint plain_members (ms : list (Key * ElementOf Tree)) : list (Key * ElementOf Tree) :=
  match ms with
  | [] => []
  | m :: rest =>
      (plain_key m.1, plain_element (match rest with [] => true | _ => false end) (plain_tree (Element_value m.2)) m.2)
      :: plain_members rest
  end.
Definition elements_text (es : list (ElementOf Tree)) : text := concat (map element_text es).

Lemma plain_array lead es : plain_tree (Tree_array lead es) = Tree_array (plain_trivia lead) (plain_elements es).
Proof. done. Qed.
Lemma plain_object lead ms : plain_tree (Tree_object lead ms) = Tree_object (plain_trivia lead) (plain_members ms).
Proof. done. Qed.

Lemma is_literal_step b : is_literal b = true -> b <> 44 /\ b <> 34 /\ b <> 47 /\ is_space b = false /\ opens_item b = false.
Proof.
  unfold is_literal, is_ascii_alphanumeric, is_ascii_alphabetic, is_ascii_lowercase, is_ascii_uppercase, is_ascii_digit, in_range,
    is_space, opens_item.
  intros H. rewrite !orb_true_iff, !andb_true_iff, !N.leb_le, !N.eqb_eq in H.
  split_and!; rewrite ?orb_false_iff, ?N.eqb_neq; lia.
Qed.

Lemma strips_literal l post prev : forallb is_literal l = true -> l <> [] ->
  exists prev', opens_item prev' = false /\ strips post l prev prev' l.
Proof.
  revert prev. induction l as [|b l IH]; intros prev Hl Hne; [done|]. cbn in Hl. apply andb_prop in Hl as [Hb Hl].
  destruct (is_literal_step b Hb) as (H1 & H2 & H3 & Hs & Ho).
  pose proof (strips_byte b (l ++ post) prev H1 H2 H3) as Hstep. rewrite Hs in Hstep.
  destruct l as [|c l]; [exists b; by split|]. destruct (IH b Hl) as (p' & Hp' & Hrest); [done|].
  exists p'. split; [done|]. apply (strips_app [b] (c :: l) post prev b p' [b] (c :: l)); [|done..].
  destruct (andb_prop _ _ Hl) as [[_ [_ Hc2]]%is_literal_inert _]. exact Hc2.
Qed.

Section trees.
Context `{json_library : JsonLibrary}.

(** After a value: [c] is what follows the element. *)
Lemma strips_tail last e v c r prev : wf_element wf_tree e = true -> opens_item prev = false -> stops (c :: r) -> c < 128 ->
  is_close c = last -> exists prev', strips (c :: r) (tail_text e) prev prev' (tail_text (plain_element last v e)).
Proof.
  intros [[_ Ha]%andb_prop Hco]%andb_prop Hp Hst Hc Hlast. unfold tail_text, plain_element.
  destruct (Element_comma e) as [ts|]; cbn [Element_after Element_comma].
  - assert (Hcts : clean (trivia_text ts)).
    { rewrite <- (app_nil_r (trivia_text ts)). by apply clean_trivia. }
    exists 44. pose proof (strips_comma ts c r prev Hco Hst Hc) as Hcomma. rewrite Hp, Hlast in Hcomma. cbn [negb andb] in Hcomma.
    pose proof (strips_trivia false (Element_after e) (([44] ++ trivia_text ts) ++ c :: r) prev Ha (fun H => match Bool.diff_false_true H with end)) as H1.
    pose proof (strips_trivia false ts (c :: r) 44 Hco (fun H => match Bool.diff_false_true H with end)) as H3.
    pose proof (strips_app [44] (trivia_text ts) (c :: r) prev 44 44 _ _ Hcts Hcomma H3) as H23.
    pose proof (strips_app _ ([44] ++ trivia_text ts) (c :: r) prev prev 44 _ _ ltac:(done) H1 H23) as H.
    destruct last; cbn [Element_after Element_comma]; rewrite ?trivia_text_app, ?app_nil_r; exact H.
  - exists prev. rewrite !app_nil_r. by apply (strips_trivia false).
Qed.

Lemma clean_tree t : wf_tree t = true -> clean (tree_text t).
Proof. intros H. rewrite <- (app_nil_r (tree_text t)). by apply tree_clean. Qed.

Lemma clean_tail_text e : wf_element wf_tree e = true -> clean (tail_text e).
Proof.
  intros [[_ Ha]%andb_prop _]%andb_prop. unfold tail_text. apply clean_trivia; [done|]. by destruct (Element_comma e).
Qed.

Lemma strips_key k post prev : wf_key k = true -> strips post (key_text k) prev 58 (key_text (plain_key k)).
Proof.
  intros [[[Hs Hb]%andb_prop Ha]%andb_prop _]%andb_prop. unfold key_text, plain_key. cbn [Key_body Key_before Key_after].
  assert (Hcl : forall ts, wf_trivia false ts = true -> clean (trivia_text ts)).
  { intros ts Hts. rewrite <- (app_nil_r (trivia_text ts)). by apply clean_trivia. }
  apply (strips_app _ _ _ prev 34 58); [by apply clean_trivia|by apply strips_string|].
  apply (strips_app _ _ _ 34 34 58); [done|by apply (strips_trivia false)|].
  apply (strips_app _ _ _ 34 58 58); [by apply Hcl|by apply (strips_byte 58)|by apply (strips_trivia false)].
Qed.

Definition stripped (t : Tree) : Prop := wf_tree t = true -> forall post prev,
  exists prev', opens_item prev' = false /\ strips post (tree_text t) prev prev' (tree_text (plain_tree t)).

(** What follows an element: a bracket that closes where it is the last, and none where it is not *)
Definition follows (last : bool) (l : text) : Prop :=
  exists c r, l = c :: r /\ stops (c :: r) /\ c < 128 /\ is_close c = last.

Lemma tree_follows t post : wf_tree t = true -> follows false (tree_text t ++ post).
Proof.
  intros Hwf. destruct (tree_head t Hwf) as (b & r & E & Hs & Hsl & Hlt). exists b, (r ++ post). rewrite E. split_and!; [done..|].
  destruct t as [l|body|lead es|lead ms]; cbn in E; try by injection E as <- _.
  apply andb_prop in Hwf as [Hl _]. subst l. destruct (andb_prop _ _ Hl) as [[Hi _]%is_literal_inert _].
  unfold inert in Hi. apply negb_true_iff in Hi. by apply orb_false_iff in Hi as [_ Hi].
Qed.

Lemma strips_element last e rest prev : wf_element wf_tree e = true -> stripped (Element_value e) -> follows last rest ->
  exists prev', strips rest (element_text e) prev prev' (element_text (plain_element last (plain_tree (Element_value e)) e)).
Proof.
  intros Hw Hst (c & r & -> & Hstop & Hc & Hlast). pose proof (andb_prop _ _ (proj1 (andb_prop _ _ Hw))) as [Hv _].
  destruct (Hst Hv (tail_text e ++ c :: r) prev) as (p1 & Hp1 & H1).
  destruct (strips_tail last e (plain_tree (Element_value e)) c r p1 Hw Hp1 Hstop Hc Hlast) as (p2 & H2).
  exists p2. unfold element_text.
  replace (Element_value (plain_element last (plain_tree (Element_value e)) e)) with (plain_tree (Element_value e))
    by (unfold plain_element; destruct (Element_comma e), last; done).
  apply (strips_app _ _ _ prev p1 p2); [by apply clean_tail_text|done|done].
Qed.

Lemma commas_rest {A} (e : ElementOf A) es : commas (e :: es) = true -> commas es = true.
Proof. cbn. destruct es; [done|]. by intros [_ H]%andb_prop. Qed.

Definition is_last {A} (l : list A) : bool := match l with [] => true | _ => false end.

Lemma strips_elements es post : Forall (fun e => wf_element wf_tree e = true) es -> Forall (fun e => stripped (Element_value e)) es ->
  forall prev, exists prev', strips ([93] ++ post) (elements_text es) prev prev' (elements_text (plain_elements es)).
Proof.
  intros Hwf Hst. induction Hst as [|e es He Hes IH]; intros prev; [exists prev; apply strips_nil|].
  apply Forall_cons in Hwf as [Hw Hws]. change (plain_elements (e :: es)) with
    (plain_element (is_last es) (plain_tree (Element_value e)) e :: plain_elements es).
  unfold elements_text in *. cbn [map concat].
  assert (Hf : follows (is_last es) (concat (map element_text es) ++ [93] ++ post) /\ clean (concat (map element_text es))).
  { destruct Hws as [|e' es Hw' _]; [split; [by exists 93, post|done]|].
    pose proof (andb_prop _ _ (proj1 (andb_prop _ _ Hw'))) as [Hv' _]. cbn [map concat]. unfold element_text at 1 3.
    rewrite <- !(assoc_L (++)). split; [by apply tree_follows|by apply tree_clean]. }
  destruct Hf as [Hf Hcl]. destruct (strips_element _ e _ prev Hw He Hf) as (p1 & H1).
  destruct (IH Hws p1) as (p2 & H2). exists p2. by apply (strips_app _ _ _ prev p1 p2).
Qed.

Lemma strips_members ms post : Forall (fun m => wf_key m.1 = true /\ wf_element wf_tree m.2 = true) ms ->
  Forall (fun m => stripped (Element_value m.2)) ms ->
  forall prev, exists prev', strips ([125] ++ post) (members_text ms) prev prev' (members_text (plain_members ms)).
Proof.
  intros Hwf Hst. induction Hst as [|[k e] ms He Hes IH]; intros prev; [exists prev; apply strips_nil|].
  apply Forall_cons in Hwf as [[Hk Hw] Hws]. cbn [fst snd] in Hk, Hw, He. change (plain_members ((k, e) :: ms)) with
    ((plain_key k, plain_element (is_last ms) (plain_tree (Element_value e)) e) :: plain_members ms).
  unfold members_text in *. cbn [map concat]. unfold member_text at 1 3. cbn [fst snd].
  assert (Hf : follows (is_last ms) (concat (map member_text ms) ++ [125] ++ post) /\ clean (concat (map member_text ms))).
  { destruct Hws as [|[k' e'] ms [Hk' _] _]; [split; [by exists 125, post|done]|].
    split; [by eexists 34, _|done]. }
  destruct Hf as [Hf Hcl]. destruct (strips_element _ e _ 58 Hw He Hf) as (p1 & H1).
  destruct (IH Hws p1) as (p2 & H2). exists p2. apply (strips_app _ _ _ prev p1 p2); [done| |done].
  apply (strips_app _ _ _ prev 58 p1); [|by apply strips_key|done].
  unfold element_text. apply tree_clean. by pose proof (andb_prop _ _ (proj1 (andb_prop _ _ Hw))) as [Hv' _].
Qed.

Lemma strips_brackets o inner c post prev p1 out : is_open o = true -> is_close c = true -> clean inner ->
  strips ([c] ++ post) inner o p1 out -> exists prev', opens_item prev' = false /\
    strips post ([o] ++ inner ++ [c]) prev prev' ([o] ++ out ++ [c]).
Proof.
  intros Ho Hc Hcl Hi. exists c.
  assert (Ho' : o <> 44 /\ o <> 34 /\ o <> 47 /\ is_space o = false).
  { unfold is_open in Ho. apply orb_true_iff in Ho as [->%N.eqb_eq | ->%N.eqb_eq]; done. }
  assert (Hc' : c <> 44 /\ c <> 34 /\ c <> 47 /\ is_space c = false /\ opens_item c = false /\ c < 128).
  { unfold is_close in Hc. apply orb_true_iff in Hc as [->%N.eqb_eq | ->%N.eqb_eq]; done. }
  destruct Ho' as (O1 & O2 & O3 & O4). destruct Hc' as (C1 & C2 & C3 & C4 & C5 & C6). split; [done|].
  pose proof (strips_byte o ((inner ++ [c]) ++ post) prev O1 O2 O3) as H1. rewrite O4 in H1.
  pose proof (strips_byte c post p1 C1 C2 C3) as H2. rewrite C4 in H2.
  apply (strips_app [o] (inner ++ [c]) post prev o c [o] (out ++ [c])); [|done|].
  - destruct inner; done.
  - by apply (strips_app inner [c] post o p1 c out [c]).
Qed.

Lemma strips_tree t : stripped t.
Proof.
  induction t as [l|body|lead es IH|lead ms IH] using Tree_induction; intros Hwf post prev.
  - apply andb_prop in Hwf as [Hl Hne]. apply strips_literal; [done|by destruct l].
  - exists 34. split; [done|]. by apply strips_string.
  - apply wf_array in Hwf as (Hl & He & _).
    change (tree_text (Tree_array lead es)) with ([91] ++ trivia_text lead ++ elements_text es ++ [93]).
    rewrite plain_array. change (tree_text (Tree_array ?a ?b)) with ([91] ++ trivia_text a ++ elements_text b ++ [93]).
    rewrite !(assoc_L (++) (trivia_text _)).
    destruct (strips_elements es post He IH 91) as (p1 & H1).
    assert (Hcl : clean (elements_text es)).
    { destruct He as [|e es He _]; [done|]. unfold elements_text. cbn [map concat]. unfold element_text at 1. rewrite <- (assoc_L (++)).
      apply tree_clean. by pose proof (andb_prop _ _ (proj1 (andb_prop _ _ He))) as [Hv' _]. }
    apply (strips_brackets 91 _ 93 post prev p1); [done..|by apply clean_trivia|].
    apply (strips_app _ _ _ 91 91 p1); [done|by apply (strips_trivia false)|done].
  - apply wf_object in Hwf as (Hl & Hm & _). rewrite plain_object, !object_text. unfold object_head. rewrite <- !(assoc_L (++)).
    rewrite !(assoc_L (++) (trivia_text _)).
    destruct (strips_members ms post Hm IH 123) as (p1 & H1).
    assert (Hcl : clean (members_text ms)) by (by destruct ms as [|[k e] ms]).
    apply (strips_brackets 123 _ 125 post prev p1); [done..|by apply clean_trivia|].
    apply (strips_app _ _ _ 123 123 p1); [done|by apply (strips_trivia false)|done].
Qed.
End trees.

Lemma plain_trivia_blanks ts : blanks_only (plain_trivia ts) = true.
Proof.
  unfold blanks_only, plain_trivia. induction ts as [|t ts IH]; [done|]. cbn [flat_map]. rewrite forallb_app, IH, andb_true_r.
  destruct t as [b|body|body]; [done|..]; generalize (blanked (trivium_text (Trivium_line body)));
    generalize (blanked (trivium_text (Trivium_block body))); intros l1 l2; cbn [blanks].
  - unfold blanks. by induction l2.
  - unfold blanks. by induction l1.
Qed.

Lemma plain_element_tail last v e : plain_tail (plain_element last v e) = true /\ Element_value (plain_element last v e) = v.
Proof.
  unfold plain_element, plain_tail. destruct (Element_comma e) as [ts|], last; cbn [Element_after Element_comma Element_value];
    unfold blanks_only; rewrite ?forallb_app; fold blanks_only; rewrite ?plain_trivia_blanks; done.
Qed.

Lemma plain_tree_plain t : is_plain (plain_tree t) = true.
Proof.
  induction t as [l|body|lead es IH|lead ms IH] using Tree_induction; [done..| |].
  - rewrite plain_array. cbn [is_plain]. rewrite plain_trivia_blanks. cbn [andb]. induction IH as [|e es He _ IH]; [done|].
    apply andb_prop in IH as [IH1 IH2]. cbn [plain_elements forallb].
    destruct (plain_element_tail (match es with [] => true | _ => false end) (plain_tree (Element_value e)) e) as [-> ->].
    rewrite He, IH1. cbn [andb]. destruct es as [|e' es]; [|exact IH2]. cbn. unfold plain_element. by destruct (Element_comma e).
  - rewrite plain_object. cbn [is_plain]. rewrite plain_trivia_blanks. cbn [andb]. induction IH as [|[k e] ms He _ IH]; [done|].
    apply andb_prop in IH as [IH1 IH2]. cbn [plain_members forallb map fst snd]. cbn [snd] in He.
    destruct (plain_element_tail (match ms with [] => true | _ => false end) (plain_tree (Element_value e)) e) as [-> ->].
    unfold plain_key at 1 2. cbn [Key_before Key_after]. rewrite !plain_trivia_blanks, He, IH1. cbn [andb].
    destruct ms as [|m ms]; [|exact IH2]. cbn. unfold plain_element. by destruct (Element_comma e).
Qed.

(** ** Documents *)

Section documents.
Context `{json_library : JsonLibrary}.

Lemma strips_whole bs prev' out : strips [] bs 91 prev' out -> strip bs = out.
Proof.
  intros H. destruct (H [] (length bs)) as (ranges & f & Hf & E & _ & B); [done|]. cbn [app length] in E, B.
  unfold strip. rewrite app_nil_r in E. rewrite E.
  replace (strip_loop f bs (length bs) prev') with (@nil (nat * nat)); [by rewrite app_nil_r|].
  destruct f as [|f]; [done|]. cbn [strip_loop]. by rewrite (proj2 (lookup_ge_None bs (length bs))) by lia.
Qed.

Lemma wf_doc_parts d : wf_doc d = true -> wf_trivia false (Doc_lead d) = true /\ wf_tree (Doc_root d) = true /\ wf_trivia true (Doc_trail d) = true.
Proof. by intros [[Hl Hr]%andb_prop Ht]%andb_prop. Qed.

(** C34: [strip] turns the text of a commented document into the text of the same document in plain
    JSON: each character of a comment that is no newline and each comma before a closing bracket becomes a
    space, and every other byte - those of strings that look like comments or commas among them -
    stays as it is. *)
Theorem strip_is_plain (d : Doc) : wf_doc d = true ->
  strip (doc_text d) = doc_text (plain_doc d) /\ is_plain_doc (plain_doc d) = true.
Proof.
  intros (Hl & Hr & Ht)%wf_doc_parts. split.
  - destruct (strips_tree (Doc_root d) Hr (trivia_text (Doc_trail d) ++ []) 91) as (p1 & _ & H1).
    pose proof (strips_trivia true (Doc_trail d) [] p1 Ht (fun _ => eq_refl)) as H2.
    apply (strips_whole _ p1). unfold doc_text, plain_doc. cbn [Doc_lead Doc_root Doc_trail].
    apply (strips_app _ _ _ 91 91 p1); [by apply tree_clean|by apply (strips_trivia false)|].
    apply (strips_app _ _ _ 91 p1 p1); [|done|done].
    destruct (Doc_trail d) as [|[b|?|?] ts]; try done. cbn in Ht |- *. apply andb_prop in Ht as [Hb _]. unfold is_space in Hb.
    repeat (apply orb_true_iff in Hb as [Hb|Hb]); apply N.eqb_eq in Hb as ->; done.
  - unfold is_plain_doc, plain_doc. cbn [Doc_lead Doc_root Doc_trail]. by rewrite !plain_trivia_blanks, plain_tree_plain.
Qed.
End documents.
