(* ===== verification/JsoncTotal.v ===== *)
(** [set_member] on texts that hold no value, and that one call of itself is always enough; then the editing of
    commented JSON on a concrete document. *)

From Stdlib Require Import NArith Lia String Ascii.
From stdpp Require Import base list strings.
From S2P Require Import Prelude RustStr Wire Jsonc JsoncTree JsoncEdit JsoncRuns JsoncStrip.

(** ** Suffixes of UTF-8 *)

Definition valid_loop (fuel : nat) (l : text) : bool :=
  forallb (fun c => match c with Some _ => true | None => false end) (decode_fuel fuel l).

Lemma next_char_inv b r c rest : next_char (b :: r) = Some (c, rest) ->
  continuation b = false /\ exists tail, r = tail ++ rest /\ Forall (fun x => continuation x = true) tail.
Proof.
  assert (Hhead : forall lo hi, in_range lo hi b = true -> 192 <= lo -> continuation b = false).
  { intros lo hi [H _]%in_range_spec Hlo. unfold continuation, in_range. rewrite (proj2 (N.leb_gt b 191)) by lia. apply andb_false_r. }
  unfold next_char. destruct (N.ltb_spec b 128) as [H|H].
  { intros [= _ <-]. split; [|by exists []]. unfold continuation, in_range. by rewrite (proj2 (N.leb_gt 128 b)). }
  destruct r as [|b1 r1]; [done|].
  destruct (in_range 194 223 b && continuation b1) eqn:E2.
  { apply andb_prop in E2 as [E0 E1]. intros [= _ <-]. split; [by eapply Hhead|]. exists [b1]. split; [done|by repeat constructor]. }
  destruct r1 as [|b2 r2]; [done|].
  match goal with |- context [if ?c then Some (?x, r2) else _] => destruct c eqn:E3 end.
  { rewrite !andb_true_iff in E3. destruct E3 as [[[[E3 ?] ?] _] _]. intros [= _ <-]. split; [by eapply Hhead|]. exists [b1; b2]. split; [done|by repeat constructor]. }
  destruct r2 as [|b3 r3]; [done|].
  match goal with |- context [if ?c then Some (?x, r3) else _] => destruct c eqn:E4 end; [|done].
  rewrite !andb_true_iff in E4. destruct E4 as [[[[[E4 ?] ?] ?] _] _]. intros [= _ <-]. split; [by eapply Hhead|]. exists [b1; b2; b3]. split; [done|by repeat constructor].
Qed.

Lemma valid_loop_cons fuel b r : valid_loop (S fuel) (b :: r) = true ->
  continuation b = false /\ exists tail rest, r = tail ++ rest /\ Forall (fun x => continuation x = true) tail /\ valid_loop fuel rest = true.
Proof.
  unfold valid_loop. cbn [decode_fuel]. destruct (next_char (b :: r)) as [[c rest]|] eqn:E; [|done]. cbn. intros H.
  destruct (next_char_inv _ _ _ _ E) as (Hb & tail & -> & Ht). split; [done|]. by exists tail, rest.
Qed.

(** From any ASCII byte on, a valid text is valid; so no continuation follows it. *)
Lemma valid_suffix a s : a < 128 -> forall fuel p, valid_loop fuel (p ++ a :: s) = true -> (length (p ++ a :: s) <= fuel)%nat ->
  exists fuel', valid_loop fuel' s = true /\ (length s <= fuel')%nat.
Proof.
  intros Ha. induction fuel as [|fuel IH]; intros p Hv Hf; [rewrite length_app in Hf; cbn in Hf; lia|].
  destruct p as [|b p]; cbn [app] in *.
  - unfold valid_loop in Hv. cbn [decode_fuel next_char] in Hv. rewrite (proj2 (N.ltb_lt a 128) Ha) in Hv. cbn in Hv, Hf.
    exists fuel. split; [done|lia].
  - apply valid_loop_cons in Hv as (_ & tail & rest & E & Ht & Hv). cbn in Hf.
    assert (H : exists p', rest = p' ++ a :: s).
    { clear IH Hv Hf. revert p E. induction Ht as [|x tail Hx Ht IHt]; intros p E; [by exists p|].
      destruct p as [|y p]; cbn in E; injection E as <- E; [|by apply (IHt p)].
      unfold continuation, in_range in Hx. rewrite (proj2 (N.leb_gt 128 a)) in Hx by lia. done. }
    destruct H as [p' ->]. apply (IH p' Hv). rewrite E in Hf. rewrite length_app in Hf. lia.
Qed.

Definition well_encoded (l : text) : Prop := exists fuel, valid_loop fuel l = true /\ (length l <= fuel)%nat.

Lemma well_encoded_after p a s : a < 128 -> well_encoded (p ++ a :: s) -> well_encoded s.
Proof. intros Ha (fuel & Hv & Hf). by apply (valid_suffix a s Ha fuel p). Qed.

Lemma well_encoded_from p a s : a < 128 -> well_encoded (p ++ a :: s) -> well_encoded (a :: s).
Proof.
  intros Ha Hw. apply well_encoded_after in Hw as (fuel & Hv & Hf); [|done]. exists (S fuel). split; [|cbn; lia].
  unfold valid_loop in *. cbn [decode_fuel next_char]. by rewrite (proj2 (N.ltb_lt a 128) Ha).
Qed.

Lemma well_encoded_head l : well_encoded l -> match l with b :: _ => continuation b = false | [] => True end.
Proof.
  intros (fuel & Hv & Hf). destruct l as [|b l]; [done|]. destruct fuel as [|fuel]; [cbn in Hf; lia|].
  by apply valid_loop_cons in Hv as [H _].
Qed.

(** ** The ranges of a scan *)

Lemma find_position_bound p l n : find_position p l = Some n -> (n < length l)%nat.
Proof.
  revert n. induction l as [|b l IH]; intros n; [done|]. cbn. destruct (p b); [intros [= <-]; lia|].
  destruct (find_position p l); [|done]. cbn. intros [= <-]. specialize (IH _ eq_refl). lia.
Qed.

Lemma find_close_bound l n : find_close l = Some n -> (n + 2 <= length l)%nat.
Proof.
  revert n. induction l as [|a l IH]; intros n; [done|]. destruct l as [|b l]; [done|]. rewrite find_close_cons.
  destruct (_ && _); [intros [= <-]; cbn; lia|]. destruct (find_close (b :: l)) as [m|]; [|done]. cbn. intros [= <-].
  specialize (IH _ eq_refl). cbn in *. lia.
Qed.

Lemma is_prefix_app p l : is_prefix p l = true -> exists r, l = p ++ r.
Proof.
  revert l. induction p as [|a p IH]; intros [|b l]; cbn; try done; [by exists []|by exists (b :: l)|].
  intros [->%N.eqb_eq [r ->]%IH]%andb_prop. by exists r.
Qed.

Lemma find_position_split p l : exists body rest, l = body ++ rest /\ existsb p body = false /\
  match find_position p l with Some n => n | None => length l end = length body /\
  match rest with b :: _ => p b = true | [] => True end.
Proof.
  induction l as [|b l IH]; [by exists [], []|]. cbn [find_position]. destruct (p b) eqn:Hb.
  - exists [], (b :: l). done.
  - destruct IH as (body & rest & -> & Hex & Hn & Hr). exists (b :: body), rest. cbn. rewrite Hb, Hex.
    split_and!; [done..| |done]. destruct (find_position p (body ++ rest)); cbn in *; lia.
Qed.

Lemma find_close_split l n : find_close l = Some n -> exists body rest, l = body ++ [42; 47] ++ rest /\ length body = n /\
  find_close (body ++ [42; 47]) = Some (length body).
Proof.
  revert n. induction l as [|a l IH]; intros n; [done|]. destruct l as [|b l]; [done|]. rewrite find_close_cons.
  destruct ((a =? 42) && (b =? 47)) eqn:E.
  - intros [= <-]. apply andb_prop in E as [->%N.eqb_eq ->%N.eqb_eq]. by exists [], l.
  - destruct (find_close (b :: l)) as [m|]; [|done]. cbn. intros [= <-].
    destruct (IH m eq_refl) as (body & rest & E1 & <- & Hc). exists (a :: body), rest. split_and!; [cbn; by rewrite E1|done|].
    cbn [app]. destruct (body ++ [42; 47]) as [|x y] eqn:Eb; [by destruct body|]. rewrite find_close_cons.
    assert (x = b) as -> by (destruct body; cbn in Eb, E1; congruence). rewrite E, Hc. done.
Qed.

(** The two kinds of comments *)
Lemma comment_end_inv pre rest e : comment_end (pre ++ rest) (length pre) = Some e ->
  (exists body rest', rest = [47; 47] ++ body ++ rest' /\ existsb is_newline body = false /\
     match rest' with b :: _ => is_newline b = true | [] => True end /\ e = length (pre ++ [47; 47] ++ body)) \/
  (exists body rest', rest = [47; 42] ++ body ++ [42; 47] ++ rest' /\ find_close (body ++ [42; 47]) = Some (length body) /\
     e = length (pre ++ [47; 42] ++ body ++ [42; 47])).
Proof.
  intros H. pose proof H as H0. unfold comment_end in H0.
  rewrite (proj2 (Nat.ltb_ge _ _)) in H0 by (rewrite length_app; lia). rewrite drop_at in H0.
  destruct (is_prefix [47; 47] rest) eqn:E1.
  - clear H0. apply is_prefix_app in E1 as [r ->]. left.
    destruct (find_position_split is_newline r) as (body & rest' & -> & Hex & _ & Hr). exists body, rest'. split_and!; [done..|].
    rewrite comment_end_line in H by done. by injection H.
  - destruct (is_prefix [47; 42] rest) eqn:E2; [|done]. apply is_prefix_app in E2 as [r ->].
    change (drop 2 ([47; 42] ++ r)) with r in H0. destruct (find_close r) as [n|] eqn:Ec; [|done]. clear H0. right.
    destruct (find_close_split r n Ec) as (body & rest' & -> & <- & Hc). exists body, rest'. split_and!; [done..|].
    rewrite comment_end_block in H by done. by injection H.
Qed.

Lemma comment_end_bounds bytes at_ e : (at_ <= length bytes)%nat -> comment_end bytes at_ = Some e -> (at_ < e <= length bytes)%nat.
Proof.
  intros Ha H. pose proof (take_drop at_ bytes) as E. set (pre := take at_ bytes) in *.
  assert (Hl : length pre = at_) by (unfold pre; rewrite length_take; lia). rewrite <- E, <- Hl in H |- *.
  apply comment_end_inv in H as [(body & rest & -> & _ & _ & ->)|(body & rest & -> & _ & ->)]; rewrite !length_app; cbn; lia.
Qed.

Lemma string_end_bounds bytes at_ : (at_ < length bytes)%nat -> (at_ < string_end bytes at_ <= length bytes)%nat.
Proof.
  intros Ha. unfold string_end.
  assert (H : forall rest offset escaped e, string_end_loop rest offset escaped = Some e -> (offset < e <= offset + length rest)%nat).
  { induction rest as [|b rest IH]; intros offset escaped e; [done|]. cbn. destruct escaped; [intros H%IH; lia|].
    destruct (b =? 92); [intros H%IH; lia|]. destruct (b =? 34); [intros [= <-]; lia|intros H%IH; lia]. }
  destruct (string_end_loop _ _ _) as [e|] eqn:E; [|lia]. apply H in E. rewrite length_drop in E. lia.
Qed.

Lemma strip_loop_within bytes : forall fuel at_ prev, (at_ <= length bytes)%nat ->
  within at_ (length bytes) (strip_loop fuel bytes at_ prev).
Proof.
  induction fuel as [|fuel IH]; intros at_ prev Ha; [constructor|]. cbn [strip_loop].
  destruct (bytes !! at_) as [byte|] eqn:Hb; [|constructor]. apply lookup_lt_Some in Hb as Hlt.
  destruct (comment_end bytes at_) as [e|] eqn:Hc.
  - pose proof (comment_end_bounds _ _ _ Ha Hc). constructor; [cbn; lia|]. eapply within_weaken; [| |apply IH]; lia.
  - assert (Hnext : (at_ < (if (byte =? 34)%N then string_end bytes at_ else S at_) <= length bytes)%nat).
    { destruct (byte =? 34); [by apply string_end_bounds|lia]. }
    apply Forall_app. split; [destruct (_ && _); [|constructor]; constructor; [cbn; lia|constructor]|].
    eapply within_weaken; [| |apply IH]; lia.
Qed.

(** ** Texts without a value *)

Lemma strip_step pre b r fuel : comment_end (pre ++ b :: r) (length pre) = None ->
  strip_loop (S fuel) (pre ++ b :: r) (length pre) 91 =
  strip_loop fuel (pre ++ b :: r) (if b =? 34 then string_end (pre ++ b :: r) (length pre) else S (length pre))
    (if is_space b then 91 else b).
Proof.
  intros Hc. cbn [strip_loop]. rewrite byte_at, Hc. cbn [lookup list_lookup].
  change (opens_item 91) with true. cbn [negb]. rewrite andb_false_r. done.
Qed.

(** The scan goes on behind a piece that is blanked or blank. *)
Lemma blank_rest pre c rest fuel fuel' ranges : c <> [] -> starts_character rest ->
  strip_loop fuel (pre ++ c ++ rest) (length pre) 91 = ranges ++ strip_loop fuel' ((pre ++ c) ++ rest) (length (pre ++ c)) 91 ->
  within (length pre) (length (pre ++ c)) ranges ->
  forallb is_space (blank_out (strip_loop fuel (pre ++ c ++ rest) (length pre) 91)
    (char_indices (length (c ++ rest)) (length pre) (c ++ rest))) = true ->
  forallb is_space (blank_out (strip_loop fuel' ((pre ++ c) ++ rest) (length (pre ++ c)) 91)
    (char_indices (length rest) (length (pre ++ c)) rest)) = true.
Proof.
  intros Hne Hclean -> Hin. rewrite (char_indices_app (length c)) by done. rewrite <- length_app.
  rewrite (blank_out_app (length (pre ++ c)) (length pre) (length ((pre ++ c) ++ rest))); [|done|..].
  - rewrite forallb_app. by intros [_ H]%andb_prop.
  - apply strip_loop_within. rewrite !length_app. lia.
  - eapply Forall_impl; [by apply (char_indices_bounds (length c))|]. intros x. cbn. rewrite length_app. lia.
  - eapply Forall_impl; [by apply (char_indices_bounds (length rest))|]. intros x. cbn. lia.
Qed.

Lemma newline_ascii b : is_newline b = true -> b < 128.
Proof. unfold is_newline. by intros [->%N.eqb_eq | ->%N.eqb_eq]%orb_true_iff. Qed.

(** A text that [strip] leaves blank is trivia. *)
Lemma blank_text n : forall rest pre fuel, (length rest <= n)%nat -> (length rest <= fuel)%nat -> well_encoded rest ->
  forallb is_space (blank_out (strip_loop fuel (pre ++ rest) (length pre) 91) (char_indices (length rest) (length pre) rest)) = true ->
  exists ts, wf_trivia true ts = true /\ rest = trivia_text ts.
Proof.
  induction n as [|n IH]; intros rest pre fuel Hn Hf Hw Hblank.
  { destruct rest; [by exists []|cbn in Hn; lia]. }
  destruct rest as [|b r]; [by exists []|]. destruct fuel as [|fuel]; [cbn in Hf; lia|].
  assert (Hgo : forall c rest' ranges, b :: r = c ++ rest' -> c <> [] -> well_encoded rest' ->
    strip_loop (S fuel) (pre ++ c ++ rest') (length pre) 91 = ranges ++ strip_loop fuel (pre ++ c ++ rest') (length (pre ++ c)) 91 ->
    within (length pre) (length (pre ++ c)) ranges -> exists ts, wf_trivia true ts = true /\ rest' = trivia_text ts).
  { intros c rest' ranges E Hne Hwe Es Hin. rewrite E in Hblank, Hn, Hf.
    assert (Hlc : (0 < length c)%nat) by (destruct c; [done|cbn; lia]). rewrite length_app in Hn, Hf.
    apply (IH rest' (pre ++ c) fuel); [lia|lia|done|]. apply (blank_rest pre c rest' (S fuel) fuel ranges); [done| | |done|done].
    - by apply well_encoded_head.
    - by rewrite <- (assoc_L (++)). }
  destruct (comment_end (pre ++ b :: r) (length pre)) as [e|] eqn:Hc.
  - assert (Hstep : strip_loop (S fuel) (pre ++ b :: r) (length pre) 91 = [(length pre, e)] ++ strip_loop fuel (pre ++ b :: r) e 91).
    { cbn [strip_loop]. by rewrite byte_at, Hc. }
    apply comment_end_inv in Hc as [(body & rest' & E & Hex & Hr & ->)|(body & rest' & E & Hcl & ->)]; rewrite E in Hstep, Hw.
    + destruct (Hgo ([47; 47] ++ body) rest' [(length pre, length (pre ++ [47; 47] ++ body))]) as (ts & Hts & ->); [by rewrite E, <- (assoc_L (++))|done|..].
      * destruct rest' as [|x rest']; [by exists O|]. rewrite (assoc_L (++)) in Hw. by apply (well_encoded_from _ x rest' (newline_ascii _ Hr)) in Hw.
      * by rewrite <- !(assoc_L (++)).
      * constructor; [cbn; rewrite !length_app; cbn; lia|constructor].
      * exists (Trivium_line body :: ts). split; [|rewrite E; by rewrite (assoc_L (++))]. cbn [wf_trivia]. rewrite Hex, Hts, andb_true_r. cbn.
        destruct ts as [|[x|?|?] ts]; done.
    + destruct (Hgo ([47; 42] ++ body ++ [42; 47]) rest' [(length pre, length (pre ++ [47; 42] ++ body ++ [42; 47]))]) as (ts & Hts & ->);
        [by rewrite E, <- !(assoc_L (++))|done|..].
      * apply (well_encoded_after ([47; 42] ++ body ++ [42]) 47 rest'); [done|]. by rewrite <- !(assoc_L (++)).
      * by rewrite <- !(assoc_L (++)).
      * constructor; [cbn; rewrite !length_app; cbn; lia|constructor].
      * exists (Trivium_block body :: ts). cbn [wf_trivia]. rewrite Hts, bool_decide_eq_true_2 by done. split; [done|]. rewrite E.
        change (trivia_text (Trivium_block body :: ts)) with (([47; 42] ++ body ++ [42; 47]) ++ trivia_text ts). by rewrite <- !(assoc_L (++)).
  - pose proof (strip_step pre b r fuel Hc) as Hstep. destruct (is_space b) eqn:Hs.
    + assert (Hb : b < 128 /\ (b =? 34) = false).
      { unfold is_space in Hs. repeat (apply orb_true_iff in Hs as [Hs|Hs]); apply N.eqb_eq in Hs as ->; done. }
      destruct Hb as [Hb Hq]. rewrite Hq in Hstep.
      destruct (Hgo [b] r []) as (ts & Hts & ->); [done|done|by apply (well_encoded_after [] b r)| |constructor|].
      * rewrite length_app. cbn [length app]. by rewrite Nat.add_1_r.
      * exists (Trivium_blank b :: ts). split; [cbn; by rewrite Hs|done].
    + exfalso. rewrite Hstep in Hblank. cbn [length char_indices] in Hblank. destruct (char_tail r) as [t r']. cbn [blank_out] in Hblank.
      match type of Hblank with context [strip_loop fuel ?l ?a b] => pose proof (strip_loop_within l fuel a b) as Hin end.
      assert (Hnext : (length pre < (if (b =? 34)%N then string_end (pre ++ b :: r) (length pre) else S (length pre)) <= length (pre ++ b :: r))%nat).
      { assert (length pre < length (pre ++ b :: r))%nat by (rewrite length_app; cbn; lia).
        destruct (b =? 34); [by apply string_end_bounds|lia]. }
      specialize (Hin ltac:(lia)). rewrite drop_ranges_none in Hblank by (eapply Forall_impl; [exact Hin|]; cbn; lia).
      destruct Hin as [|[x y] ranges Hx _]; cbn [andb fst snd] in *.
      * cbn in Hblank. by rewrite Hs in Hblank.
      * cbn in Hx. rewrite (proj2 (Nat.leb_gt x (length pre))) in Hblank by lia. cbn in Hblank. by rewrite Hs in Hblank.
Qed.

(** ** The fresh root *)

Section total.
Context `{laws : JsonLibraryLaws}.

Definition fresh_doc (document : text) (ts : list Trivium) : Doc :=
  let line := newline document in
  let lead := match trim_end is_space document with [] => [] | _ => (split_blanks ts).1 ++ blanks line end in
  mkDoc lead (Tree_object [] []) (blanks line).

Lemma newline_spaces l : forallb is_space (newline l) = true.
Proof. unfold newline. by destruct (contains _ _). Qed.

Lemma wf_trivia_weaken last ts : wf_trivia false ts = true -> wf_trivia last ts = true.
Proof.
  induction ts as [|t ts IH]; [done|]. destruct t as [b|body|body]; cbn; intros H; apply andb_prop in H as [H Hts];
    rewrite (IH Hts), andb_true_r; [done| |done]. apply andb_prop in H as [-> H]. by destruct ts as [|[]].
Qed.

Lemma fresh_doc_text ts : wf_trivia true ts = true ->
  fresh_root (trivia_text ts) = doc_text (fresh_doc (trivia_text ts) ts) /\ wf_doc (fresh_doc (trivia_text ts) ts) = true.
Proof.
  intros Hwf. unfold fresh_root, fresh_doc. set (line := newline (trivia_text ts)).
  assert (Hline : wf_trivia false (blanks line) = true) by (apply wf_blanks, newline_spaces).
  assert (Hstart : starts_newline (blanks line)) by (unfold line, newline; destruct (contains _ _); by eexists _, _).
  destruct (split_blanks ts) as [kept tail] eqn:Hs. destruct (wf_trivia_tail _ _ _ _ Hwf Hs) as [Hsp _].
  assert (Htrim : trim_end is_space (trivia_text ts) = trivia_text kept).
  { rewrite (split_blanks_text _ _ _ Hs). destruct (split_blanks_solid _ _ _ Hs) as [-> |Hk]; [|by apply trim_end_solid].
    change (trivia_text []) with ([] : text). cbn [app]. destruct (trim_end_split (trivia_text tail)) as (t & E & _ & [H|(a & b & H & Hb)]); [done|].
    rewrite E, H, !forallb_app in Hsp. cbn in Hsp. rewrite Hb in Hsp. by destruct (forallb is_space a). }
  rewrite Htrim. unfold doc_text, wf_doc. cbn [fst].
  destruct (trivia_text kept) as [|b r] eqn:Ek; cbn [Doc_lead Doc_root Doc_trail].
  - split; [cbn; by rewrite trivia_text_blanks|]. cbn. by apply wf_trivia_weaken.
  - split; [rewrite trivia_text_app, trivia_text_blanks, Ek; cbn; by rewrite <- (assoc_L (++))|].
    rewrite (wf_kept true ts kept tail) by auto. cbn. by apply wf_trivia_weaken.
Qed.

Lemma trim_matches_blank l : forallb is_space l = true -> trim_matches l = [].
Proof. intros H. unfold trim_matches, trim_start. by rewrite drop_while_all. Qed.

Lemma blanked_spaces l : forallb is_space (blanked l) = true.
Proof.
  unfold blanked. induction (char_indices (length l) 0 l) as [|[o c] cs IH]; [done|]. cbn. rewrite forallb_app, IH, andb_true_r.
  destruct c as [|b [|]]; [done| |done]. destruct (is_newline b) eqn:Hb; [|done]. cbn. unfold is_newline in Hb. unfold is_space.
  apply orb_true_iff in Hb as [->%N.eqb_eq | ->%N.eqb_eq]; done.
Qed.

Lemma strip_trivia ts : wf_trivia true ts = true -> forallb is_space (strip (trivia_text ts)) = true.
Proof.
  intros Hwf. rewrite (strips_whole (trivia_text ts) 91 (trivia_text (plain_trivia ts))) by by apply (strips_trivia true).
  clear -Hwf. induction ts as [|t ts IH]; [done|]. rewrite plain_trivia_cons, trivia_text_app, forallb_app, IH
    by (destruct t; apply andb_prop in Hwf; tauto).
  destruct t as [b|body|body].
  - apply andb_prop in Hwf as [Hb _]. cbn. by rewrite Hb.
  - unfold plain_trivia. cbn [flat_map]. by rewrite app_nil_r, trivia_text_blanks, blanked_spaces.
  - unfold plain_trivia. cbn [flat_map]. by rewrite app_nil_r, trivia_text_blanks, blanked_spaces.
Qed.

Lemma strip_doc_visible d : wf_doc d = true -> forallb is_space (strip (doc_text d)) = false.
Proof.
  intros Hd. destruct (strip_is_plain d Hd) as [-> _]. unfold doc_text, plain_doc. cbn [Doc_lead Doc_root Doc_trail].
  apply wf_doc_parts in Hd as (_ & Hr & _).
  enough (H : forallb is_space (tree_text (plain_tree (Doc_root d))) = false) by (rewrite !forallb_app, H; cbn; apply andb_false_r).
  destruct (Doc_root d) as [l|body|lead es|lead ms]; [|done|by rewrite plain_array|by rewrite plain_object].
  cbn. apply andb_prop in Hr as [Hl Hne]. destruct l as [|b l]; [done|]. destruct (andb_prop _ _ Hl) as [Hb _].
  apply is_literal_step in Hb as (_ & _ & _ & Hs & _). cbn. by rewrite Hs.
Qed.

Lemma walk_loop_not_empty l path : forall keys depth open, walk_loop l path depth keys open <> Ok Target_Empty.
Proof.
  induction keys as [|key rest IH]; intros depth open; [done|]. cbn [walk_loop].
  destruct (parse_object l open key) as [[object|]|]; cbn [ok_or]; try done.
  destruct (wanted_members 0 (Object_members object)) as [|[index member] [|]]; try done.
  destruct (S depth =? length path)%nat; [done|apply IH].
Qed.

Lemma walk_empty l path : walk l path = Ok Target_Empty -> forallb is_space (strip l) = true.
Proof.
  unfold walk. destruct (trim_matches (strip l)) as [|b r] eqn:E; [intros _; by apply trim_matches_nil|].
  destruct (map_err JsoncError_Document (valid_json (strip l))); [|done]. intros H. by apply walk_loop_not_empty in H.
Qed.

(** C35: [set_member] always answers: a text that holds no value gets an object at its end, behind its
    comments, and in that text the second walk always finds a value, so that the operation calls itself
    at most once; and for every commented document without a value the member is made in that object. *)
Theorem set_member_total (document value : text) (path : list string) : well_encoded document ->
  set_member document path value <> None /\
  forall ts w, document = trivia_text ts -> wf_trivia true ts = true -> value = tree_text w -> wf_tree w = true -> path <> [] ->
    valid_json value = Ok tt -> valid_json (strip (doc_text (fresh_doc document ts))) = Ok tt ->
    set_member document path value = Some (map_ok doc_text (doc_set (fresh_doc document ts) path w)).
Proof.
  intros Hw. split.
  - unfold set_member. cbn [set_member_calls]. destruct (map_err JsoncError_Value (valid_json value)); [|done].
    destruct (walk document path) as [[|missing|previous member]|e] eqn:Hwalk; try done.
    destruct (walk (fresh_root document) path) as [[|missing|previous member]|e] eqn:Hagain; try done.
    apply walk_empty in Hwalk, Hagain.
    destruct (blank_text (length document) document [] (length document)) as (ts & Hts & ->); [done..|].
    destruct (fresh_doc_text ts Hts) as [E Hd]. rewrite E, strip_doc_visible in Hagain by done. discriminate Hagain.
  - intros ts w -> Hts -> Hwt Hne Hv Hvd. destruct (fresh_doc_text ts Hts) as [E Hd].
    pose proof (set_member_doc _ path w [] [] Hd Hwt eq_refl eq_refl Hvd) as H. cbn [app] in H. rewrite app_nil_r in H.
    specialize (H Hv). rewrite <- H. unfold set_member. cbn [set_member_calls]. rewrite Hv. cbn [map_err].
    assert (Hwalk : walk (trivia_text ts) path = Ok Target_Empty).
    { unfold walk. rewrite trim_matches_blank by by apply strip_trivia. by destruct path. }
    rewrite Hwalk, E. pose proof (walk_doc _ path Hd Hvd) as Hwd. rewrite Hwd.
    destruct (walk_loop _ _ _ _ _) as [[|missing|previous member]|e] eqn:Hl; try done.
    by apply walk_loop_not_empty in Hl.
Qed.
End total.

(** ** A small reader and printer of strings *)

Definition needs_escape (b : N) : bool := (b =? 34) || (b =? 92).
Definition escaped (l : text) : text := flat_map (fun b => if needs_escape b then [92; b] else [b]) l.
Fixpoint unescaped (l : text) : option text :=
  match l with
  | [] => None
  | b :: rest =>
      if b =? 34 then match rest with [] => Some [] | _ => None end
      else if b =? 92 then match rest with c :: rest => cons c <$> unescaped rest | [] => None end
      else cons b <$> unescaped rest
  end.

#[local] Instance sample_json : JsonLibrary := {
  ignored_from_slice l := if forallb is_space l then None else Some tt;
  string_from_slice l := match l with b :: rest => if b =? 34 then of_bytes <$> unescaped rest else None | [] => None end;
  string_to_text s := quoted (escaped (bytes s))
}.

Lemma escaped_cons b l : escaped (b :: l) = (if needs_escape b then [92; b] else [b]) ++ escaped l.
Proof. done. Qed.

Lemma unescaped_escaped l : unescaped (escaped l ++ [34]) = Some l.
Proof.
  induction l as [|b l IH]; [done|]. rewrite escaped_cons. unfold needs_escape.
  destruct (b =? 34) eqn:E1; cbn [orb]; [apply N.eqb_eq in E1 as ->|destruct (b =? 92) eqn:E2; [apply N.eqb_eq in E2 as ->|]];
    cbn; rewrite ?E1, ?E2, IH; done.
Qed.

Lemma wf_escaped l : wf_string (escaped l) = true.
Proof.
  unfold wf_string. induction l as [|b l IH]; [done|]. rewrite escaped_cons. unfold needs_escape.
  destruct (b =? 34) eqn:E1; cbn [orb]; [|destruct (b =? 92) eqn:E2]; cbn; rewrite ?E1, ?E2; done.
Qed.

#[local] Instance sample_json_laws : JsonLibraryLaws sample_json.
Proof.
  split.
  - intros l H. cbn. by rewrite H.
  - intros s. exists (escaped (bytes s)). split; [done|apply wf_escaped].
  - intros s. cbn. unfold quoted. cbn. rewrite unescaped_escaped. cbn. by rewrite of_bytes_bytes.
Qed.

(** ** A document *)

Definition note : list Trivium := [Trivium_line (bytes " Keep this note.  "); Trivium_blank 10].
Definition two_spaces : list Trivium := [Trivium_blank 10; Trivium_blank 32; Trivium_blank 32].
Definition sample_servers : Tree :=
  Tree_object [] [(mkKey (bytes "other") [] [Trivium_blank 32],
    mkElement (Tree_array [] [mkElement (Tree_literal (bytes "1")) [] (Some [Trivium_block (bytes " one, ")])]) [] None)].
Definition sample_doc : Doc :=
  mkDoc note
    (Tree_object two_spaces
       [(mkKey (bytes "model") [] [Trivium_blank 32],
         mkElement (Tree_string (bytes "a // b, }")) [Trivium_block (bytes " Keep this choice. ")] (Some two_spaces));
        (mkKey (bytes "mcp") [] [], mkElement sample_servers [] (Some (Trivium_blank 32 :: note)))])
    [Trivium_blank 10].
Definition sample_path : list string := ["mcp"; "domyjob"; "command"]%string.
Definition sample_value : Tree := Tree_string (bytes "/bin/domyjob").
Definition sample_updated : text :=
  match doc_set sample_doc sample_path sample_value with Ok d => doc_text d | Err _ => [] end.

Lemma set_member_edits_the_tree_witness :
  set_member (doc_text sample_doc) sample_path ([32] ++ tree_text sample_value ++ []) =
    Some (map_ok doc_text (doc_set sample_doc sample_path sample_value)) /\
  match doc_set sample_doc sample_path sample_value with
  | Err e => e = JsoncError_EmptyPath \/ (exists what, e = JsoncError_NotObject what) \/ exists what, e = JsoncError_DuplicateKey what
  | Ok d' =>
      wf_doc d' = true /\ tree_get sample_path (Doc_root d') = Some sample_value /\
      (forall q, apart q sample_path -> tree_get q (Doc_root d') = tree_get q (Doc_root sample_doc)) /\
      Doc_lead d' = Doc_lead sample_doc /\ Doc_trail d' = Doc_trail sample_doc /\
      exists a b, doc_comments sample_doc =
          a ++ match tree_get sample_path (Doc_root sample_doc) with Some v => tree_comments v | None => [] end ++ b /\
        doc_comments d' = a ++ tree_comments sample_value ++ b
  end.
Proof.
  apply (proj2 (proj2 set_member_edits_the_tree) sample_doc sample_path sample_value [32] []);
    first [vm_compute; reflexivity | repeat constructor; vm_compute; discriminate].
Defined.

Lemma set_member_is_idempotent_witness :
  set_member (doc_text sample_doc) sample_path (tree_text sample_value) = Some (Ok sample_updated) /\
  set_member sample_updated sample_path (tree_text sample_value) = Some (Ok sample_updated).
Proof.
  split; [vm_compute; reflexivity|].
  apply (set_member_is_idempotent sample_doc sample_path sample_value (tree_text sample_value) sample_updated);
    first [reflexivity | vm_compute; reflexivity | repeat constructor; vm_compute; discriminate].
Defined.

Lemma strip_is_plain_witness :
  strip (doc_text sample_doc) = doc_text (plain_doc sample_doc) /\ is_plain_doc (plain_doc sample_doc) = true.
Proof. apply strip_is_plain. vm_compute. reflexivity. Defined.

Lemma set_member_total_witness :
  set_member (trivia_text note) sample_path (tree_text sample_value) <> None /\
  forall ts w, trivia_text note = trivia_text ts -> wf_trivia true ts = true -> tree_text sample_value = tree_text w -> wf_tree w = true ->
    sample_path <> [] -> valid_json (tree_text sample_value) = Ok tt ->
    valid_json (strip (doc_text (fresh_doc (trivia_text note) ts))) = Ok tt ->
    set_member (trivia_text note) sample_path (tree_text sample_value) =
      Some (map_ok doc_text (doc_set (fresh_doc (trivia_text note) ts) sample_path w)).
Proof. apply set_member_total. exists (length (trivia_text note)). split; vm_compute; reflexivity || lia. Defined.
