(* ===== verification/BuildDisk.v ===== *)
(** What app/builds.rs works on: the directory [versions] with one directory for each installed build,
    the private stages in it from which builds are published, the two records of the whole, and the locks:
    the lock of the selection, and one lock of usage for each build.  Each operation is one step of the
    process that asks for it, which may be refused or fail after it has taken effect; what the environment
    chooses is a [BuildChoice]. *)

From Stdlib Require Import NArith Lia String Ascii.
From stdpp Require Import base gmap list strings.
From S2P Require Import Prelude SortedLists RustStr RustText Programs.

(** The kinds of [io::Error] the code looks at *)
Inductive ErrorKind := ErrorKind_NotFound | ErrorKind_PermissionDenied | ErrorKind_InvalidData | ErrorKind_Other.

#[export] Instance ErrorKind_eq_dec : EqDecision ErrorKind.
Proof. solve_decision. Defined.

(** An absolute path, as its components *)
Abbreviation Path := (list string).

Definition parent (path : Path) : option Path :=
  match path with [] => None | _ => Some (removelast path) end.
Definition file_name (path : Path) : option string := last path.

(** ** The world *)

(** Locks are on files, and a file keeps its identity when its directory is renamed. *)
Definition BuildLock := option N.
Definition Selection : BuildLock := None.
Definition UsageLock (inode : N) : BuildLock := Some inode.

Inductive Holding := Holding_exclusive (owner : N) | Holding_shared (owners : list N).

#[export] Instance BuildLock_eq_dec : EqDecision BuildLock.
Proof. unfold BuildLock. apply _. Defined.
#[export] Instance BuildLock_countable : Countable BuildLock.
Proof. unfold BuildLock. apply _. Defined.

(** What is in [bin]: files, or something else *)
Inductive BinEntry := BinEntry_file (content : list N) | BinEntry_other.
Inductive Bin := Bin_directory (entries : gmap string BinEntry) | Bin_other.

Record BuildDir := mkBuildDir {
  usage_lock : option N;
  started : option (list N);
  bin : option Bin
}.
Definition BuildDir_empty : BuildDir := mkBuildDir None None None.

(** An entry of [versions]: an installed build, the stage of an admission (with the candidate in it,
    and whose it is), or a file or link *)
Inductive VersionsEntry :=
| Entry_build (directory : BuildDir)
| Entry_stage (owner : N) (candidate : option BuildDir)
| Entry_other.

Inductive FileKind := FileKind_directory | FileKind_file | FileKind_other.

Record Versions := mkVersions {
  entries : gmap string VersionsEntry;
  order_record : option (list N);
  pinned_record : option (list N);
  build_locks : gmap BuildLock Holding;
  next_usage : N;
  (** every launch of an admitted program, and whether the program was there *)
  launches : list bool
}.

Definition set_entries (w : Versions) (e : gmap string VersionsEntry) : Versions :=
  mkVersions e (order_record w) (pinned_record w) (build_locks w) (next_usage w) (launches w).
Definition set_build_locks (w : Versions) (l : gmap BuildLock Holding) : Versions :=
  mkVersions (entries w) (order_record w) (pinned_record w) l (next_usage w) (launches w).
Definition take_usage (w : Versions) : Versions :=
  mkVersions (entries w) (order_record w) (pinned_record w) (build_locks w) (next_usage w + 1) (launches w).

(** A directory the code works in: the candidate of a stage, or a published build *)
Inductive Target := Target_candidate (stage : string) | Target_published (name : string).
Definition Target_name (target : Target) : string :=
  match target with Target_candidate name | Target_published name => name end.

Definition build_at (w : Versions) (target : Target) : option BuildDir :=
  match target with
  | Target_candidate stage => match entries w !! stage with Some (Entry_stage _ c) => c | _ => None end
  | Target_published name => match entries w !! name with Some (Entry_build d) => Some d | _ => None end
  end.
Definition set_build (w : Versions) (target : Target) (d : BuildDir) : Versions :=
  match target with
  | Target_candidate stage =>
      match entries w !! stage with
      | Some (Entry_stage owner _) => set_entries w (<[stage := Entry_stage owner (Some d)]> (entries w))
      | _ => w
      end
  | Target_published name => set_entries w (<[name := Entry_build d]> (entries w))
  end.

(** What [symlink_metadata] and opening look at *)
Inductive BuildPlace := Place_build (name : string) | Place_bin (name : string) | Place_program (name file : string).

Definition bin_entry (d : BuildDir) (file : string) : option BinEntry :=
  match bin d with Some (Bin_directory files) => files !! file | _ => None end.

(** The kind of what is there, and how long it is if it is a file *)
Definition kind_at (w : Versions) (place : BuildPlace) : option (FileKind * N) :=
  match place with
  | Place_build name =>
      match entries w !! name with
      | Some (Entry_build _) | Some (Entry_stage _ _) => Some (FileKind_directory, 0)
      | Some Entry_other => Some (FileKind_other, 0)
      | None => None
      end
  | Place_bin name =>
      match build_at w (Target_published name) ≫= bin with
      | Some (Bin_directory _) => Some (FileKind_directory, 0)
      | Some Bin_other => Some (FileKind_other, 0)
      | None => None
      end
  | Place_program name file =>
      match build_at w (Target_published name) ≫= fun d => bin_entry d file with
      | Some (BinEntry_file content) => Some (FileKind_file, N.of_nat (length content))
      | Some BinEntry_other => Some (FileKind_other, 0)
      | None => None
      end
  end.

Inductive BuildRecord := Record_order | Record_pinned | Record_started (name : string).

Definition record_at (w : Versions) (r : BuildRecord) : option (list N) :=
  match r with
  | Record_order => order_record w
  | Record_pinned => pinned_record w
  | Record_started name => build_at w (Target_published name) ≫= started
  end.
(** Where a record may be written *)
Definition record_writable (w : Versions) (r : BuildRecord) : bool :=
  match r with
  | Record_started name => match build_at w (Target_published name) with Some _ => true | None => false end
  | _ => true
  end.
Definition set_record (w : Versions) (r : BuildRecord) (content : list N) : Versions :=
  match r with
  | Record_order =>
      mkVersions (entries w) (Some content) (pinned_record w) (build_locks w) (next_usage w) (launches w)
  | Record_pinned =>
      mkVersions (entries w) (order_record w) (Some content) (build_locks w) (next_usage w) (launches w)
  | Record_started name =>
      match build_at w (Target_published name) with
      | Some d => set_build w (Target_published name) (mkBuildDir (usage_lock d) (Some content) (bin d))
      | None => w
      end
  end.

(** ** Operations *)

(** A [DirEntry]: its name and its file type *)
Abbreviation DirEntry := (string * result FileKind ErrorKind)%type.

Inductive Ownership := Ownership_Private | Ownership_Exposed | Ownership_Foreign.

Inductive BuildOp :=
| BuildOp_CurrentExe
| BuildOp_Canonicalize (path : Path)
| BuildOp_MakeVersions
| BuildOp_MakeStage
| BuildOp_MakeCandidate (stage : string)
| BuildOp_FindProgram (target : Target) (file : string)
| BuildOp_MakeBin (target : Target)
| BuildOp_PutProgram (target : Target) (file : string) (content : list N)
| BuildOp_OpenSelection
| BuildOp_OpenUsage (target : Target)
| BuildOp_FindUsage (name : string)
| BuildOp_Shared (lock : BuildLock)
| BuildOp_Exclusive (lock : BuildLock)
| BuildOp_TryExclusive (lock : BuildLock)
| BuildOp_Unlock (lock : BuildLock)
| BuildOp_Stat (place : BuildPlace)
| BuildOp_Open (place : BuildPlace)
| BuildOp_Publish (stage name : string)
| BuildOp_RemoveOuter (stage : string)
| BuildOp_DropStage (stage : string)
| BuildOp_Read (r : BuildRecord)
| BuildOp_Truncate (r : BuildRecord)
| BuildOp_Append (r : BuildRecord) (content : list N)
| BuildOp_List
| BuildOp_Remove (name : string)
| BuildOp_Launch (name file : string).

Definition build_answer (op : BuildOp) : Type :=
  match op with
  | BuildOp_CurrentExe | BuildOp_Canonicalize _ => result Path ErrorKind
  | BuildOp_MakeVersions | BuildOp_MakeCandidate _ | BuildOp_MakeBin _ | BuildOp_PutProgram _ _ _
  | BuildOp_OpenSelection | BuildOp_Shared _ | BuildOp_Exclusive _ | BuildOp_Publish _ _
  | BuildOp_RemoveOuter _ | BuildOp_Truncate _ | BuildOp_Append _ _ | BuildOp_Remove _
  | BuildOp_Launch _ _ => result unit ErrorKind
  | BuildOp_MakeStage => result string ErrorKind
  | BuildOp_FindProgram _ _ | BuildOp_TryExclusive _ => result bool ErrorKind
  | BuildOp_OpenUsage _ => result N ErrorKind
  | BuildOp_FindUsage _ => result (option N) ErrorKind
  | BuildOp_Unlock _ | BuildOp_DropStage _ => unit
  | BuildOp_Stat _ => result FileKind ErrorKind
  | BuildOp_Open _ => result (FileKind * N * Ownership) ErrorKind
  | BuildOp_Read _ => result (option (list N)) ErrorKind
  | BuildOp_List => result (list (result DirEntry ErrorKind)) ErrorKind
  end.

Abbreviation Build T := (Prog build_answer T).

(** Refused before, or failed after, the effect *)
Inductive BuildFault := BuildFault_early (error : ErrorKind) | BuildFault_late (error : ErrorKind).

Record BuildChoice := mkBuildChoice {
  Choice_build_fault : option BuildFault;
  (** a name for a stage, a path, an ownership *)
  Choice_name : string;
  Choice_path : Path;
  Choice_ownership : Ownership;
  (** what the entries of a directory are presented as, given what they are *)
  Choice_listing : list (string * FileKind) -> list (result DirEntry ErrorKind);
  (** what a removal that fails leaves: the lock, the record, the directory [bin] and what is in it *)
  Choice_left : bool * bool * bool * bool
}.

Definition build_faulty {T} (c : BuildChoice) (w w' : Versions) (r : result T ErrorKind) :
  Versions * result T ErrorKind :=
  match Choice_build_fault c with
  | None => (w', r)
  | Some (BuildFault_early e) => (w, Err e)
  | Some (BuildFault_late e) => (w', Err e)
  end.

(** An operation that can only be refused *)
Definition build_refusable {T} (c : BuildChoice) (w w' : Versions) (r : result T ErrorKind) :
  Versions * result T ErrorKind :=
  match Choice_build_fault c with
  | None => (w', r)
  | Some (BuildFault_early e) | Some (BuildFault_late e) => (w, Err e)
  end.

Definition STAGE_PREFIX : string := ".admission-".

Definition entry_kind (entry : VersionsEntry) : FileKind :=
  match entry with Entry_build _ | Entry_stage _ _ => FileKind_directory | Entry_other => FileKind_other end.

(** What is left of a build when removing it fails *)
Definition left_over (left : bool * bool * bool * bool) (d : BuildDir) : BuildDir :=
  match left with
  | (lock, record, directory, files) =>
      mkBuildDir (if lock then usage_lock d else None) (if record then started d else None)
        (if directory
         then match bin d with
              | Some (Bin_directory entries) => Some (Bin_directory (if files then entries else ∅))
              | b => b
              end
         else None)
  end.

Definition empty_directory (entry : VersionsEntry) : bool :=
  match entry with
  | Entry_build (mkBuildDir None None None) | Entry_stage _ None => true
  | _ => false
  end.

(** *** Locks *)

Definition owners (w : Versions) (l : BuildLock) : list N :=
  match build_locks w !! l with Some (Holding_shared ts) => ts | _ => [] end.
Definition owner (w : Versions) (l : BuildLock) : option N :=
  match build_locks w !! l with Some (Holding_exclusive t) => Some t | _ => None end.

(** The list without its first [t] *)
Fixpoint remove_one (t : N) (l : list N) : list N :=
  match l with
  | [] => []
  | t' :: l => if decide (t' = t) then l else t' :: remove_one t l
  end.

Definition shared_by (ts : list N) : option Holding :=
  match ts with [] => None | _ => Some (Holding_shared ts) end.

Definition unlock (t : N) (h : Holding) : option Holding :=
  match h with
  | Holding_exclusive t' => if decide (t' = t) then None else Some h
  | Holding_shared ts => shared_by (remove_one t ts)
  end.

(** Every hold of a process ends with it. *)
Definition unlock_all (t : N) (h : Holding) : option Holding :=
  match h with
  | Holding_exclusive t' => if decide (t' = t) then None else Some h
  | Holding_shared ts => shared_by (filter (fun t' => t' <> t) ts)
  end.

Definition set_holding (w : Versions) (l : BuildLock) (h : option Holding) : Versions :=
  set_build_locks w (partial_alter (fun _ => h) l (build_locks w)).

Definition release_builds (t : N) (w : Versions) : Versions :=
  set_build_locks w (omap (unlock_all t) (build_locks w)).

(** The lock file is created where it is missing. *)
Definition open_usage (w : Versions) (target : Target) (d : BuildDir) : Versions * N :=
  match usage_lock d with
  | Some i => (w, i)
  | None => (take_usage (set_build w target (mkBuildDir (Some (next_usage w)) (started d) (bin d))), next_usage w)
  end.

Definition make_bin (d : BuildDir) : option BuildDir :=
  match bin d with
  | None => Some (mkBuildDir (usage_lock d) (started d) (Some (Bin_directory ∅)))
  | Some (Bin_directory _) => Some d
  | Some Bin_other => None
  end.

(** One operation of the process [t]; no result means that it waits. *)
Definition build_perform (t : N) (c : BuildChoice) (op : BuildOp) (w : Versions) :
  option (Versions * build_answer op) :=
  match op return option (Versions * build_answer op) with
  | BuildOp_CurrentExe => Some (build_faulty c w w (Ok (Choice_path c)))
  | BuildOp_Canonicalize _ => Some (build_faulty c w w (Ok (Choice_path c)))
  | BuildOp_MakeVersions => Some (build_faulty c w w (Ok tt))
  | BuildOp_MakeStage =>
      let name := (STAGE_PREFIX ++ Choice_name c)%string in
      Some (match entries w !! name with
            | Some _ => (w, Err ErrorKind_Other)
            | None => build_refusable c w (set_entries w (<[name := Entry_stage t None]> (entries w))) (Ok name)
            end)
  | BuildOp_MakeCandidate stage =>
      Some (match entries w !! stage with
            | Some (Entry_stage o None) =>
                build_faulty c w (set_entries w (<[stage := Entry_stage o (Some BuildDir_empty)]> (entries w))) (Ok tt)
            | Some (Entry_stage _ (Some _)) => build_faulty c w w (Ok tt)
            | _ => (w, Err ErrorKind_NotFound)
            end)
  | BuildOp_FindProgram target file =>
      Some (build_faulty c w w
              (Ok (match build_at w target ≫= fun d => bin_entry d file with Some _ => true | None => false end)))
  | BuildOp_MakeBin target =>
      Some (match build_at w target with
            | Some d =>
                match make_bin d with
                | Some d' => build_faulty c w (set_build w target d') (Ok tt)
                | None => (w, Err ErrorKind_Other)
                end
            | None =>
                match target, entries w !! Target_name target with
                | Target_published name, None =>
                    build_faulty c w
                      (set_build w target (mkBuildDir None None (Some (Bin_directory ∅)))) (Ok tt)
                | _, _ => (w, Err ErrorKind_NotFound)
                end
            end)
  | BuildOp_PutProgram target file content =>
      Some (match build_at w target with
            | Some d =>
                match bin d with
                | Some (Bin_directory files) =>
                    match files !! file with
                    | Some BinEntry_other => (w, Err ErrorKind_Other)
                    | _ =>
                        build_faulty c w
                          (set_build w target
                             (mkBuildDir (usage_lock d) (started d)
                                (Some (Bin_directory (<[file := BinEntry_file content]> files))))) (Ok tt)
                    end
                | _ => (w, Err ErrorKind_NotFound)
                end
            | None => (w, Err ErrorKind_NotFound)
            end)
  | BuildOp_OpenSelection => Some (build_faulty c w w (Ok tt))
  | BuildOp_OpenUsage target =>
      Some (match build_at w target with
            | Some d => let '(w', i) := open_usage w target d in build_faulty c w w' (Ok i)
            | None => (w, Err ErrorKind_NotFound)
            end)
  | BuildOp_FindUsage name =>
      Some (build_faulty c w w (Ok (build_at w (Target_published name) ≫= usage_lock)))
  | BuildOp_Shared l =>
      match build_locks w !! l with
      | Some (Holding_exclusive _) =>
          match Choice_build_fault c with Some (BuildFault_early e) => Some (w, Err e) | _ => None end
      | _ => Some (build_refusable c w (set_holding w l (Some (Holding_shared (t :: owners w l)))) (Ok tt))
      end
  | BuildOp_Exclusive l =>
      match build_locks w !! l with
      | Some _ =>
          match Choice_build_fault c with Some (BuildFault_early e) => Some (w, Err e) | _ => None end
      | None => Some (build_refusable c w (set_holding w l (Some (Holding_exclusive t))) (Ok tt))
      end
  | BuildOp_TryExclusive l =>
      Some (match build_locks w !! l with
            | Some _ => build_refusable c w w (Ok false)
            | None => build_refusable c w (set_holding w l (Some (Holding_exclusive t))) (Ok true)
            end)
  | BuildOp_Unlock l => Some (set_holding w l (build_locks w !! l ≫= unlock t), tt)
  | BuildOp_Stat place =>
      Some (match kind_at w place with
            | Some (kind, _) => build_faulty c w w (Ok kind)
            | None => (w, Err ErrorKind_NotFound)
            end)
  | BuildOp_Open place =>
      Some (match kind_at w place with
            | Some (kind, len) => build_faulty c w w (Ok (kind, len, Choice_ownership c))
            | None => (w, Err ErrorKind_NotFound)
            end)
  | BuildOp_Publish stage name =>
      Some (match entries w !! stage with
            | Some (Entry_stage o (Some d)) =>
                if decide (name = stage) then (w, Err ErrorKind_Other) else
                if match entries w !! name with None => true | Some entry => empty_directory entry end
                then build_faulty c w
                       (set_entries w (<[name := Entry_build d]> (<[stage := Entry_stage o None]> (entries w)))) (Ok tt)
                else (w, Err ErrorKind_Other)
            | _ => (w, Err ErrorKind_NotFound)
            end)
  | BuildOp_RemoveOuter stage =>
      Some (match entries w !! stage with
            | Some (Entry_stage _ None) => build_faulty c w (set_entries w (delete stage (entries w))) (Ok tt)
            | Some _ => (w, Err ErrorKind_Other)
            | None => (w, Err ErrorKind_NotFound)
            end)
  | BuildOp_DropStage stage =>
      Some (match entries w !! stage with
            | Some (Entry_stage o candidate) =>
                match Choice_build_fault c with
                | None => set_entries w (delete stage (entries w))
                | Some _ =>
                    set_entries w (<[stage := Entry_stage o (left_over (Choice_left c) <$> candidate)]> (entries w))
                end
            | _ => w
            end, tt)
  | BuildOp_Read r => Some (build_faulty c w w (Ok (record_at w r)))
  | BuildOp_Truncate r =>
      Some (if record_writable w r then build_faulty c w (set_record w r []) (Ok tt) else (w, Err ErrorKind_NotFound))
  | BuildOp_Append r content =>
      Some (if record_writable w r
            then build_faulty c w (set_record w r (default [] (record_at w r) ++ content)) (Ok tt)
            else (w, Ok tt))
  | BuildOp_List =>
      Some (build_faulty c w w
              (Ok (Choice_listing c (map (fun e => (e.1, entry_kind e.2)) (map_to_list (entries w))))))
  | BuildOp_Remove name =>
      Some (match entries w !! name with
            | Some (Entry_build d) =>
                match Choice_build_fault c with
                | None => (set_entries w (delete name (entries w)), Ok tt)
                | Some (BuildFault_early e) => (w, Err e)
                | Some (BuildFault_late e) =>
                    (set_entries w (<[name := Entry_build (left_over (Choice_left c) d)]> (entries w)), Err e)
                end
            | Some _ => build_faulty c w (set_entries w (delete name (entries w))) (Ok tt)
            | None => (w, Err ErrorKind_NotFound)
            end)
  | BuildOp_Launch name file =>
      let found := match kind_at w (Place_program name file) with Some (FileKind_file, _) => true | _ => false end in
      Some (build_faulty c w
              (mkVersions (entries w) (order_record w) (pinned_record w) (build_locks w) (next_usage w)
                 (found :: launches w))
              (if found then Ok tt else Err ErrorKind_NotFound))
  end.
