(* ===== verification/Builds.v ===== *)
(** builds.rs, with retention.rs, bounded.rs ([read]), platform/replacement.rs
    ([publish_owned_directory]) and platform/user_files.rs ([install_executable]) under it, and the callers
    of app/transport.rs and app/chat/setup.rs: every function is a program over the operations of [BuildDisk],
    which releases a lock where the code drops its guard, on every path. *)

From Stdlib Require Import NArith Lia String Ascii.
From stdpp Require Import base gmap list strings.
From S2P Require Import Prelude SortedLists RustStr RustText Programs BuildDisk.

Definition KEEP_IDLE : nat := 2.
Definition BUILD_TAG_HEX_BYTES : N := 16.
Definition MAX_ORDER_RECORD_BYTES : N := 32.

(** ** Pure functions *)

(** retention.rs *)
Definition beyond_newest {T} `{Ord T} (items : list T) (keep : nat) : list T := drop keep (rev (sort items)).

Definition is_build_tag (name : string) : bool :=
  (str_len name =? BUILD_TAG_HEX_BYTES) && forallb is_ascii_hexdigit (bytes name).

Definition installed_directory (executable : Path) : option Path :=
  bin ← parent executable;
  build ← parent bin;
  versions ← parent build;
  bin_name ← file_name bin;
  versions_name ← file_name versions;
  if String.eqb bin_name "bin" && String.eqb versions_name "versions" then Some build else None.

(** [directory.parent().ok_or_else(..)]; the model has the one directory [versions] of the world. *)
Definition versions_of (directory : Path) : result Path ErrorKind := ok_or (parent directory) ErrorKind_Other.

Definition name_of (directory : Path) : string := default "" (file_name directory).

(** bounded.rs *)
Definition bounded (limit : N) (content : list N) : option (list N) :=
  if N.of_nat (length content) <=? limit then Some content else None.

(** ** Locks *)

Definition let_go (l : BuildLock) : Build unit := call (BuildOp_Unlock l).
Definition guarded {T} (l : BuildLock) (body : Build T) : Build T :=
  let~ r := body in
  do~ let_go l in
  Ret r.

(** ** Records *)

(** [std::fs::write]: the file is emptied, then written. *)
Definition raw_write (r : BuildRecord) (content : list N) : Build (result unit ErrorKind) :=
  do^ call (BuildOp_Truncate r) in
  call (BuildOp_Append r content).

Definition record (r : BuildRecord) : Build (result (option string) ErrorKind) :=
  let^ content := call (BuildOp_Read r) in
  match content with
  | None => prog_ok None
  | Some content =>
      match bounded MAX_ORDER_RECORD_BYTES content with
      | Some content =>
          prog_ok (if utf8_valid content then Some (of_chars (trim_chars (chars (of_bytes content)))) else None)
      | None => prog_ok None
      end
  end.

Definition number (r : BuildRecord) : Build (result (option N) ErrorKind) :=
  let^ text := record r in
  prog_ok (text ≫= fun text => u64_from_str (bytes text)).

Definition next_place_unlocked : Build (result N ErrorKind) :=
  let^ last := number Record_order in
  let next := saturating_add u64_max (default 0 last) 1 in
  do^ raw_write Record_order (u64_to_string next) in
  prog_ok next.

(** ** Marking a build as in use *)

Definition hold_executable (executable : Path) : Build (result (option BuildLock) ErrorKind) :=
  let^ executable := call (BuildOp_Canonicalize executable) in
  match installed_directory executable with
  | None => prog_ok None
  | Some directory =>
      let name := name_of directory in
      let^ versions := prog_lift (versions_of directory) in
      do^ call BuildOp_OpenSelection in
      do^ call (BuildOp_Exclusive Selection) in
      guarded Selection
        (let^ file := call (BuildOp_OpenUsage (Target_published name)) in
         let guard := UsageLock file in
         do^ call (BuildOp_Shared guard) in
         let~ marked :=
           (let^ place := next_place_unlocked in
            raw_write (Record_started name) (u64_to_string place)) in
         match marked with
         | Ok _ => prog_ok (Some guard)
         | Err e => do~ let_go guard in prog_fail e
         end)
  end.

Definition hold_current : Build (result (option BuildLock) ErrorKind) :=
  let^ executable := call BuildOp_CurrentExe in
  hold_executable executable.

(** ** Admission *)

Definition check_owned (ownership : Ownership) : result unit ErrorKind :=
  match ownership with
  | Ownership_Private | Ownership_Exposed => Ok tt
  | Ownership_Foreign => Err ErrorKind_PermissionDenied
  end.

Definition is_directory (kind : FileKind) : bool := match kind with FileKind_directory => true | _ => false end.
Definition is_regular (kind : FileKind) : bool := match kind with FileKind_file => true | _ => false end.

Definition check_directory (place : BuildPlace) : Build (result unit ErrorKind) :=
  let^ kind := call (BuildOp_Stat place) in
  if negb (is_directory kind) then prog_fail ErrorKind_InvalidData else
  let^ (kind, _, ownership) := call (BuildOp_Open place) in
  if negb (is_directory kind) then prog_fail ErrorKind_InvalidData else
  prog_lift (check_owned ownership).

Definition hold_published (name file : string) : Build (result BuildLock ErrorKind) :=
  do^ check_directory (Place_build name) in
  do^ check_directory (Place_bin name) in
  let^ kind := call (BuildOp_Stat (Place_program name file)) in
  if negb (is_regular kind) then prog_fail ErrorKind_InvalidData else
  let^ (kind, len, ownership) := call (BuildOp_Open (Place_program name file)) in
  if negb (is_regular kind) || (len =? 0) then prog_fail ErrorKind_InvalidData else
  do^ prog_lift (check_owned ownership) in
  let^ usage := prog_err (fun _ => ErrorKind_Other) (call (BuildOp_FindUsage name)) in
  match usage with
  | None => prog_fail ErrorKind_NotFound
  | Some file =>
      do^ call (BuildOp_Shared (UsageLock file)) in
      prog_ok (UsageLock file)
  end.

(** platform/user_files.rs *)
Definition install_executable (target : Target) (file : string) (source : list N) : Build (result unit ErrorKind) :=
  let^ found := call (BuildOp_FindProgram target file) in
  if found : bool then prog_ok tt else
  do^ call (BuildOp_MakeBin target) in
  call (BuildOp_PutProgram target file source).

(** platform/replacement.rs *)
Definition publish_owned_directory (stage name : string) : Build (result unit ErrorKind) :=
  let~ renamed := call (BuildOp_Publish stage name) in
  match renamed with
  | Err e => do~ call (BuildOp_DropStage stage) in prog_fail e
  | Ok _ => call (BuildOp_RemoveOuter stage)
  end.

Definition drop_stage (stage : string) : Build unit := call (BuildOp_DropStage stage).

(** The stage is removed when what comes first fails. *)
Definition or_discard {T} (stage : string) (body : Build (result T ErrorKind)) : Build (result T ErrorKind) :=
  let~ r := body in
  match r with
  | Ok a => prog_ok a
  | Err e => do~ drop_stage stage in prog_fail e
  end.

Record Admission := mkAdmission {
  Admission_name : string;
  Admission_file : string;
  Admission_usage : BuildLock
}.

(** The first part of [admit_using]: the private candidate, held by its usage lock *)
Definition stage_candidate (source : list N) (program : Path) (stage : string) :
  Build (result (string * BuildLock) ErrorKind) :=
  do^ prog_err (fun _ => ErrorKind_Other) (call (BuildOp_MakeCandidate stage)) in
  let^ file := prog_lift (ok_or (file_name program) ErrorKind_Other) in
  do^ prog_err (fun _ => ErrorKind_Other) (install_executable (Target_candidate stage) file source) in
  let^ usage_file := call (BuildOp_OpenUsage (Target_candidate stage)) in
  do^ call (BuildOp_Shared (UsageLock usage_file)) in
  prog_ok (file, UsageLock usage_file).

(** Its second part, up to the end of the selection *)
Definition select_candidate (name file stage : string) (staged_usage : BuildLock) :
  Build (result BuildLock ErrorKind) :=
  let~ selected := (do^ call BuildOp_OpenSelection in call (BuildOp_Exclusive Selection)) in
  match selected with
  | Err e => do~ let_go staged_usage in do~ drop_stage stage in prog_fail e
  | Ok _ =>
      let~ found := call (BuildOp_Stat (Place_build name)) in
      match found with
      | Ok _ =>
          let~ existing := hold_published name file in
          do~ let_go Selection in
          do~ let_go staged_usage in
          do~ drop_stage stage in
          Ret existing
      | Err ErrorKind_NotFound =>
          do~ let_go staged_usage in
          guarded Selection
            (do^ publish_owned_directory stage name in
             hold_published name file)
      | Err e =>
          do~ let_go Selection in
          do~ let_go staged_usage in
          do~ drop_stage stage in
          prog_fail e
      end
  end.

Definition admit_build (source : list N) (program : Path) : Build (result Admission ErrorKind) :=
  let^ directory := prog_lift (ok_or (installed_directory program) ErrorKind_Other) in
  let name := name_of directory in
  let^ versions := prog_lift (versions_of directory) in
  do^ call BuildOp_MakeVersions in
  let^ stage := call BuildOp_MakeStage in
  let^ (file, staged_usage) := or_discard stage (stage_candidate source program stage) in
  let^ usage := select_candidate name file stage staged_usage in
  prog_ok (mkAdmission name file usage).

(** ** Pinning *)

Definition pin (program : Path) : Build (result unit ErrorKind) :=
  let^ directory := prog_lift (ok_or (installed_directory program) ErrorKind_Other) in
  let^ versions := prog_lift (versions_of directory) in
  raw_write Record_pinned (bytes (name_of directory)).

(** ** Pruning *)

(** A build nobody uses: when it was started last, its name, and the lock that keeps it unused *)
Definition Idle : Type := N * string * BuildLock.

Fixpoint let_go_all (idle : list Idle) : Build unit :=
  match idle with
  | [] => Ret tt
  | (_, usage) :: idle => do~ let_go usage in let_go_all idle
  end.

(** The first loop; the builds it found idle are released by its caller. *)
Fixpoint prune_scan (keep : string) (pinned : option string) (found : list (result DirEntry ErrorKind))
    (idle : list Idle) : Build (list Idle * result unit ErrorKind) :=
  match found with
  | [] => Ret (idle, Ok tt)
  | Err e :: _ => Ret (idle, Err e)
  | Ok (name, kind) :: found =>
      if String.eqb name keep || bool_decide (pinned = Some name) then prune_scan keep pinned found idle else
      match kind with
      | Err e => Ret (idle, Err e)
      | Ok kind =>
          if negb (is_directory kind) || negb (is_build_tag name) then prune_scan keep pinned found idle else
          let~ file := call (BuildOp_OpenUsage (Target_published name)) in
          match file with
          | Err e => Ret (idle, Err e)
          | Ok file =>
              let~ taken := call (BuildOp_TryExclusive (UsageLock file)) in
              match taken with
              | Err e => Ret (idle, Err e)
              | Ok false => prune_scan keep pinned found idle
              | Ok true =>
                  let~ place := number (Record_started name) in
                  match place with
                  | Err e => do~ let_go (UsageLock file) in Ret (idle, Err e)
                  | Ok place => prune_scan keep pinned found (idle ++ [(default 0 place, name, UsageLock file)])
                  end
              end
          end
      end
  end.

(** The second loop *)
Fixpoint remove_builds (unneeded : list (N * string)) (removed : list string) :
  Build (result (list string) ErrorKind) :=
  match unneeded with
  | [] => prog_ok removed
  | (_, name) :: unneeded =>
      let~ r := call (BuildOp_Remove name) in
      match r with
      | Ok _ => remove_builds unneeded (removed ++ [name])
      | Err ErrorKind_PermissionDenied => remove_builds unneeded removed
      | Err e => prog_fail e
      end
  end.

Definition prune (keep : string) : Build (result (list string) ErrorKind) :=
  let~ found := call BuildOp_List in
  match found with
  | Err ErrorKind_NotFound => prog_ok []
  | Err e => prog_fail e
  | Ok found =>
      do^ call BuildOp_OpenSelection in
      do^ call (BuildOp_Exclusive Selection) in
      guarded Selection
        (let^ pinned := record Record_pinned in
         let~ (idle, scanned) := prune_scan keep pinned found [] in
         let~ removed :=
           match scanned with
           | Err e => prog_fail e
           | Ok _ => remove_builds (beyond_newest (map fst idle) KEEP_IDLE) []
           end in
         do~ let_go_all idle in
         Ret (map_ok sort removed))
  end.

(** ** What uses them *)

(** app/transport.rs: the program that was admitted is launched and waited for. *)
Definition publish_node (source : list N) (program : Path) : Build (result unit ErrorKind) :=
  let^ admission := admit_build source program in
  let~ result := call (BuildOp_Launch (Admission_name admission) (Admission_file admission)) in
  do~ let_go (Admission_usage admission) in
  Ret result.

(** app/chat/setup.rs, where [target] is the program the build is installed as *)
Definition stable_program (source : list N) (target : Path) : Build (result Path ErrorKind) :=
  let^ directory := prog_lift (ok_or (installed_directory target) ErrorKind_Other) in
  let^ file := prog_lift (ok_or (file_name target) ErrorKind_Other) in
  do^ install_executable (Target_published (name_of directory)) file source in
  do^ pin target in
  prog_ok target.
