(* ===== verification/BuildSteps.v ===== *)
(** What every process keeps to while it works on the installed builds: a build whose lock of usage is held
    by someone loses nothing, locks of usage are taken exclusively only under the lock of the selection, and
    stages are left to those who made them.  Then each operation as a step that its process guarantees, and
    what the functions of [Builds] that hold and publish builds guarantee and establish. *)

From Stdlib Require Import NArith Lia String Ascii.
From stdpp Require Import base gmap list strings.
From S2P Require Import Prelude SortedLists RustStr Programs RustText BuildDisk Builds.

(** ** Definitions *)

(** How often a process has a lock, shared *)
Definition hold_count (t : N) (l : BuildLock) (w : Versions) : nat :=
  length (filter (fun t' => t' = t) (owners w l)).
Definition shares (t : N) (l : BuildLock) (w : Versions) : Prop := hold_count t l w <> 0%nat.
Definition excludes (t : N) (l : BuildLock) (w : Versions) : Prop := owner w l = Some t.

Definition usage_of (entry : VersionsEntry) : option N :=
  match entry with
  | Entry_build d | Entry_stage _ (Some d) => usage_lock d
  | _ => None
  end.
Definition usage_at (w : Versions) (name : string) : option N := entries w !! name ≫= usage_of.

(** A program that can be launched *)
Definition runnable (d : BuildDir) (file : string) : Prop :=
  exists content, bin_entry d file = Some (BinEntry_file content) /\ content <> [].

Record BuildInv (w : Versions) : Prop := {
  inv_unique : forall n1 n2 i, usage_at w n1 = Some i -> usage_at w n2 = Some i -> n1 = n2;
  inv_fresh : forall n i, usage_at w n = Some i -> i < next_usage w;
  inv_locked : forall i, is_Some (build_locks w !! UsageLock i) -> i < next_usage w;
  inv_selection : forall t i, excludes t (UsageLock i) w -> excludes t Selection w;
  inv_used : forall t i, shares t (UsageLock i) w -> exists n e,
    entries w !! n = Some e /\ usage_of e = Some i /\ forall o c, e = Entry_stage o c -> o = t;
  inv_stages : forall n o c, entries w !! n = Some (Entry_stage o c) -> is_build_tag n = false;
  inv_launches : Forall (fun found => found = true) (launches w)
}.

Inductive build_change (t : N) (w : Versions) : option VersionsEntry -> option VersionsEntry -> Prop :=
| change_same o : build_change t w o o
| change_kept d d' :
    (usage_lock d' = usage_lock d \/ usage_lock d = None /\ excludes t Selection w) ->
    (forall file, runnable d file -> runnable d' file) ->
    build_change t w (Some (Entry_build d)) (Some (Entry_build d'))
| change_made d :
    usage_lock d = None \/ excludes t Selection w -> build_change t w None (Some (Entry_build d))
| change_shrunk d i o :
    usage_lock d = Some i -> excludes t (UsageLock i) w -> build_change t w (Some (Entry_build d)) o
| change_stage c o : build_change t w (Some (Entry_stage t c)) o
| change_staged c : build_change t w None (Some (Entry_stage t c)).

Record build_guar (t : N) (w w' : Versions) : Prop := {
  guar_counts : forall l t', t' <> t -> hold_count t' l w' = hold_count t' l w;
  guar_excludes : forall l t', t' <> t -> excludes t' l w' <-> excludes t' l w;
  guar_entries : forall name, build_change t w (entries w !! name) (entries w' !! name)
}.

Definition build_exec (t : N) (op : BuildOp) (w : Versions) (x : build_answer op) (w' : Versions) : Prop :=
  performs build_perform t op w x w'.

Abbreviation oks := (ok build_exec BuildInv build_guar).
Abbreviation steady := (stable BuildInv build_guar).

(** *** What a process knows *)

(** Nothing is taken by it that a prune takes. *)
Definition quiet (t : N) (w : Versions) : Prop := forall i, ~ excludes t (UsageLock i) w.
(** A stage of its own, whose lock it does not hold *)
Definition mine (t : N) (stage : string) (w : Versions) : Prop :=
  exists c, entries w !! stage = Some (Entry_stage t c) /\
    forall d i, c = Some d -> usage_lock d = Some i -> hold_count t (UsageLock i) w = 0%nat.
(** The candidate in it, held by its lock once *)
Definition stage_held (t : N) (stage : string) (i : N) (w : Versions) : Prop :=
  exists d, entries w !! stage = Some (Entry_stage t (Some d)) /\ usage_lock d = Some i /\
    hold_count t (UsageLock i) w = 1%nat.
(** A build with its lock *)
Definition installed (name : string) (i : N) (w : Versions) : Prop :=
  exists d, entries w !! name = Some (Entry_build d) /\ usage_lock d = Some i.
Definition launchable (name file : string) (w : Versions) : Prop :=
  exists d, entries w !! name = Some (Entry_build d) /\ runnable d file.
Definition launchable_by (name file : string) (i : N) (w : Versions) : Prop :=
  exists d, entries w !! name = Some (Entry_build d) /\ usage_lock d = Some i /\ runnable d file.

(** ** Locks *)

Lemma lock_exclusive_not_shared t t' l w : excludes t l w -> ~ shares t' l w.
Proof. unfold excludes, shares, hold_count, owner, owners. destruct (build_locks w !! l) as [[]|]; cbn; intros ? ?; congruence. Qed.

Lemma set_holding_at w l h : build_locks (set_holding w l h) !! l = h.
Proof. unfold set_holding, set_build_locks. cbn. apply lookup_partial_alter_eq. Qed.
Lemma set_holding_ne w l h l' : l' <> l -> build_locks (set_holding w l h) !! l' = build_locks w !! l'.
Proof. intros H. unfold set_holding, set_build_locks. cbn. by rewrite lookup_partial_alter_ne. Qed.

Lemma owners_ne w l h l' : l' <> l -> owners (set_holding w l h) l' = owners w l'.
Proof. intros H. unfold owners. by rewrite set_holding_ne. Qed.
Lemma owner_ne w l h l' : l' <> l -> owner (set_holding w l h) l' = owner w l'.
Proof. intros H. unfold owner. by rewrite set_holding_ne. Qed.

Lemma filter_remove_one t t' l :
  t' <> t -> filter (fun x => x = t') (remove_one t l) = filter (fun x => x = t') l.
Proof.
  intros Hne. induction l as [|x l IH]; [done|]. cbn [remove_one]. case_decide as Hx.
  - subst. by rewrite filter_cons_False.
  - rewrite !filter_cons. by rewrite IH.
Qed.
Lemma count_remove_one t l :
  length (filter (fun x => x = t) (remove_one t l)) = pred (length (filter (fun x => x = t) l)).
Proof.
  induction l as [|x l IH]; [done|]. cbn [remove_one]. case_decide as Hx.
  - subst. by rewrite filter_cons_True.
  - rewrite !filter_cons_False by done. done.
Qed.

Lemma owners_shared_by ts :
  match shared_by ts with Some (Holding_shared ts) => ts | _ => [] end = ts.
Proof. by destruct ts. Qed.

(** What changing a lock does to everyone *)
Record relock (t : N) (w w' : Versions) : Prop := {
  relock_entries : entries w' = entries w;
  relock_next : next_usage w' = next_usage w;
  relock_launches : launches w' = launches w;
  relock_counts : forall l t', t' <> t -> hold_count t' l w' = hold_count t' l w;
  relock_excludes : forall l t', t' <> t -> excludes t' l w' <-> excludes t' l w
}.

Lemma relock_guar t w w' : relock t w w' -> build_guar t w w'.
Proof. intros [He _ _ Hc Hx]. split; [done|done|]. intros name. rewrite He. apply change_same. Qed.

Lemma take_shared t w l :
  owner w l = None ->
  let w' := set_holding w l (Some (Holding_shared (t :: owners w l))) in
  relock t w w' /\ hold_count t l w' = S (hold_count t l w) /\
  (forall l', l' <> l -> hold_count t l' w' = hold_count t l' w) /\
  (forall l' t', excludes t' l' w' <-> excludes t' l' w).
Proof.
  intros Ho w'.
  assert (Hx : forall l' t', excludes t' l' w' <-> excludes t' l' w).
  { intros l' t'. unfold excludes. destruct (decide (l' = l)) as [->|Hne].
    - unfold w', owner at 1. rewrite set_holding_at. by rewrite Ho.
    - unfold w'. by rewrite owner_ne. }
  assert (Hat : owners w' l = t :: owners w l) by (unfold w', owners; by rewrite set_holding_at).
  split; [split; try done|].
  - intros l' t' Hne. unfold hold_count. destruct (decide (l' = l)) as [->|Hl].
    + rewrite Hat. by rewrite filter_cons_False.
    + unfold w'. by rewrite owners_ne.
  - split; [|split; [|done]].
    + unfold hold_count. rewrite Hat. by rewrite filter_cons_True.
    + intros l' Hl. unfold hold_count, w'. by rewrite owners_ne.
Qed.

Lemma take_exclusive t w l :
  build_locks w !! l = None ->
  let w' := set_holding w l (Some (Holding_exclusive t)) in
  relock t w w' /\ excludes t l w' /\
  (forall l', l' <> l -> excludes t l' w' <-> excludes t l' w) /\
  (forall l' t', hold_count t' l' w' = hold_count t' l' w).
Proof.
  intros Hl w'.
  assert (Hc : forall l' t', hold_count t' l' w' = hold_count t' l' w).
  { intros l' t'. unfold hold_count. destruct (decide (l' = l)) as [->|Hne].
    - unfold w', owners. by rewrite set_holding_at, Hl.
    - unfold w'. by rewrite owners_ne. }
  assert (Hat : owner w' l = Some t) by (unfold w', owner; by rewrite set_holding_at).
  split; [split; try done|].
  - intros l' t' Hne. unfold excludes. destruct (decide (l' = l)) as [->|Hne'].
    + rewrite Hat. unfold owner. rewrite Hl. naive_solver.
    + unfold w'. by rewrite owner_ne.
  - split; [done|]. split; [|done]. intros l' Hne. unfold excludes, w'. by rewrite owner_ne.
Qed.

Lemma release_lock t w l :
  let w' := set_holding w l (build_locks w !! l ≫= unlock t) in
  relock t w w' /\ hold_count t l w' = pred (hold_count t l w) /\ ~ excludes t l w' /\
  (forall l', l' <> l -> hold_count t l' w' = hold_count t l' w /\ (excludes t l' w' <-> excludes t l' w)).
Proof.
  intros w'.
  assert (Hat : owners w' l = remove_one t (owners w l)).
  { unfold w', owners. rewrite set_holding_at. destruct (build_locks w !! l) as [[t'|ts]|]; cbn; [|apply owners_shared_by|done].
    by case_decide. }
  assert (Hox : owner w' l = if decide (owner w l = Some t) then None else owner w l).
  { unfold w', owner. rewrite set_holding_at. destruct (build_locks w !! l) as [[t'|ts]|]; cbn; [|by destruct (remove_one t ts)|done].
    repeat case_decide; naive_solver. }
  split; [split; try done|].
  - intros l' t' Hne. unfold hold_count. destruct (decide (l' = l)) as [->|Hl].
    + by rewrite Hat, filter_remove_one.
    + unfold w'. by rewrite owners_ne.
  - intros l' t' Hne. unfold excludes. destruct (decide (l' = l)) as [->|Hl].
    + rewrite Hox. case_decide; naive_solver.
    + unfold w'. by rewrite owner_ne.
  - split; [|split].
    + unfold hold_count. rewrite Hat. apply count_remove_one.
    + unfold excludes. rewrite Hox. by case_decide.
    + intros l' Hl. unfold hold_count, excludes, w'. by rewrite owners_ne, owner_ne.
Qed.

(** ** Steps that keep the invariant *)

Lemma build_guar_refl t w : build_guar t w w.
Proof. split; [done|done|]. intros name. apply change_same. Qed.

Lemma relock_inv t w w' :
  relock t w w' ->
  (forall i, is_Some (build_locks w' !! UsageLock i) -> is_Some (build_locks w !! UsageLock i) \/ i < next_usage w) ->
  (forall i, excludes t (UsageLock i) w' -> excludes t Selection w') ->
  (forall i, shares t (UsageLock i) w' -> shares t (UsageLock i) w \/ exists n e,
     entries w !! n = Some e /\ usage_of e = Some i /\ forall o c, e = Entry_stage o c -> o = t) ->
  BuildInv w -> BuildInv w'.
Proof.
  intros [He Hn Hla Hc Hx] Hl Hs Hu [I1 I2 I3 I4 I5 I6 I7]. unfold usage_at in *.
  split; rewrite ?He, ?Hn, ?Hla; unfold usage_at; rewrite ?He; try done.
  - intros i Hi. destruct (Hl i Hi); auto.
  - intros t' i. destruct (decide (t' = t)) as [->|Hne]; [apply Hs|]. rewrite !Hx by done. apply I4.
  - intros t' i. destruct (decide (t' = t)) as [->|Hne].
    + intros [H|H]%Hu; [by apply I5|done].
    + unfold shares. rewrite Hc by done. apply I5.
Qed.

Section entry_step.
Variables (t : N) (w w' : Versions) (n : string).
Hypothesis same_locks : build_locks w' = build_locks w.
Hypothesis same_launches : launches w' = launches w.
Hypothesis same_others : forall n', n' <> n -> entries w' !! n' = entries w !! n'.
Hypothesis changed : build_change t w (entries w !! n) (entries w' !! n).
Hypothesis stays : forall e i, entries w !! n = Some e -> usage_of e = Some i -> (exists t', shares t' (UsageLock i) w) ->
  exists e', entries w' !! n = Some e' /\ usage_of e' = Some i /\
    forall o c, e' = Entry_stage o c -> exists c', e = Entry_stage o c'.
Hypothesis stages : forall o c, entries w' !! n = Some (Entry_stage o c) -> is_build_tag n = false.

Lemma same_holds t' l : hold_count t' l w' = hold_count t' l w /\ (excludes t' l w' <-> excludes t' l w).
Proof. unfold hold_count, excludes, owner, owners. by rewrite same_locks. Qed.

Lemma entry_guar : build_guar t w w'.
Proof.
  split; [intros; apply same_holds..|]. intros name. destruct (decide (name = n)) as [->|Hne]; [done|].
  rewrite same_others by done. apply change_same.
Qed.

(** The lock of the entry is the one it had, if it has one, or a new one. *)
Lemma entry_inv :
  (next_usage w' = next_usage w /\ (forall i, usage_at w' n = Some i -> usage_at w n = Some i) \/
   next_usage w' = next_usage w + 1 /\ usage_at w' n = Some (next_usage w)) ->
  BuildInv w -> BuildInv w'.
Proof.
  intros Hn [I1 I2 I3 I4 I5 I6 I7].
  assert (Hother : forall n', n' <> n -> usage_at w' n' = usage_at w n').
  { intros n' Hne. unfold usage_at. by rewrite same_others. }
  assert (Hle : next_usage w <= next_usage w') by lia.
  assert (Hold : forall n' i, usage_at w' n' = Some i ->
            usage_at w n' = Some i \/ n' = n /\ i = next_usage w /\ next_usage w' = next_usage w + 1).
  { intros n' i. destruct (decide (n' = n)) as [->|Hne]; [|rewrite Hother by done; auto].
    destruct Hn as [[_ H]|[H1 H2]]; [auto|]. rewrite H2. intros [= <-]. auto. }
  split.
  - intros n1 n2 i [H1|(-> & E1 & _)]%Hold [H2|(-> & E2 & _)]%Hold; [by eapply I1| | |done]; exfalso.
    + pose proof (I2 _ _ H1). lia.
    + pose proof (I2 _ _ H2). lia.
  - intros n' i [H1|(_ & E1 & H2)]%Hold; [pose proof (I2 _ _ H1)|]; lia.
  - intros i. rewrite same_locks. intros Hi. apply I3 in Hi. lia.
  - intros t' i. rewrite !(proj2 (same_holds _ _)). apply I4.
  - intros t' i. unfold shares. rewrite (proj1 (same_holds _ _)). intros Hs.
    destruct (I5 t' i Hs) as (n' & e & He & Hu & Ho).
    destruct (decide (n' = n)) as [->|Hne].
    + destruct (stays e i He Hu) as (e' & He' & Hu' & Ho'); [by exists t'|]. exists n, e'.
      split; [done|]. split; [done|]. intros o c Hc. destruct (Ho' o c Hc) as [c' ->]. by eapply Ho.
    + exists n', e. by rewrite same_others.
  - intros n' o c. destruct (decide (n' = n)) as [->|Hne]; [apply stages|]. rewrite same_others by done. apply I6.
  - by rewrite same_launches.
Qed.
End entry_step.

(** *** Kinds of change *)

(** A published build is changed, its lock kept, or given one. *)
Lemma step_kept t w w' n d d' :
  entries w !! n = Some (Entry_build d) ->
  w' = set_entries w (<[n := Entry_build d']> (entries w)) -> usage_lock d' = usage_lock d ->
  (forall file, runnable d file -> runnable d' file) ->
  BuildInv w -> BuildInv w' /\ build_guar t w w'.
Proof.
  intros Hd -> Hl Hr Hi.
  assert (Hsame : forall n', n' <> n -> <[n:=Entry_build d']> (entries w) !! n' = entries w !! n').
  { intros n' Hne. by rewrite lookup_insert_ne. }
  split.
  - eapply (entry_inv w _ n); try done.
    + cbn. rewrite Hd, lookup_insert_eq. intros e i [= <-]. cbn. intros Hu _. exists (Entry_build d').
      split; [done|]. split; [by cbn; rewrite Hl|done].
    + cbn. rewrite lookup_insert_eq. intros o c. done.
    + left. split; [done|]. intros i. unfold usage_at. cbn. rewrite lookup_insert_eq, Hd. cbn. by rewrite Hl.
  - eapply (entry_guar t w _ n); try done. cbn. rewrite Hd, lookup_insert_eq. apply change_kept; auto.
Qed.

Lemma step_given t w n d d' :
  entries w !! n = Some (Entry_build d) -> usage_lock d = None -> usage_lock d' = Some (next_usage w) -> bin d' = bin d ->
  excludes t Selection w -> BuildInv w ->
  let w' := take_usage (set_entries w (<[n := Entry_build d']> (entries w))) in
  BuildInv w' /\ build_guar t w w'.
Proof.
  intros Hd Hn Hl Hb Hx Hi w'.
  assert (Hsame : forall n', n' <> n -> <[n:=Entry_build d']> (entries w) !! n' = entries w !! n').
  { intros n' Hne. by rewrite lookup_insert_ne. }
  split.
  - eapply (entry_inv w _ n); try done.
    + cbn. rewrite Hd. intros e i [= <-]. cbn. by rewrite Hn.
    + cbn. rewrite lookup_insert_eq. done.
    + right. split; [done|]. unfold usage_at. cbn. by rewrite lookup_insert_eq.
  - eapply (entry_guar t w _ n); try done. cbn. rewrite Hd, lookup_insert_eq. apply change_kept; [auto|].
    intros file. unfold runnable, bin_entry. by rewrite Hb.
Qed.

(** A directory is made where there was nothing. *)
Lemma step_made t w n d :
  entries w !! n = None -> usage_lock d = None -> BuildInv w ->
  let w' := set_entries w (<[n := Entry_build d]> (entries w)) in
  BuildInv w' /\ build_guar t w w'.
Proof.
  intros Hn Hl Hi w'.
  assert (Hsame : forall n', n' <> n -> <[n:=Entry_build d]> (entries w) !! n' = entries w !! n').
  { intros n' Hne. by rewrite lookup_insert_ne. }
  split.
  - eapply (entry_inv w _ n); try done.
    + cbn. by rewrite Hn.
    + cbn. by rewrite lookup_insert_eq.
    + left. split; [done|]. intros i. unfold usage_at. cbn. rewrite lookup_insert_eq. cbn. by rewrite Hl.
  - eapply (entry_guar t w _ n); try done. cbn. rewrite Hn, lookup_insert_eq. apply change_made. auto.
Qed.

(** A build loses something, or is gone, while its lock is held exclusively. *)
Lemma step_shrunk t w n d i o :
  entries w !! n = Some (Entry_build d) -> usage_lock d = Some i -> excludes t (UsageLock i) w ->
  (forall e, o = Some e -> exists d', e = Entry_build d' /\ (usage_lock d' = Some i \/ usage_lock d' = None)) -> BuildInv w ->
  let w' := set_entries w (partial_alter (fun _ => o) n (entries w)) in
  BuildInv w' /\ build_guar t w w'.
Proof.
  intros Hd Hl Hx Ho Hi w'.
  assert (Hsame : forall n', n' <> n -> partial_alter (fun _ => o) n (entries w) !! n' = entries w !! n').
  { intros n' Hne. by rewrite lookup_partial_alter_ne. }
  assert (Hat : entries w' !! n = o) by (cbn; apply lookup_partial_alter_eq).
  split.
  - eapply (entry_inv w _ n); try done.
    + rewrite Hd. intros e j [= <-]. cbn. rewrite Hl. intros [= <-] [t' Ht'].
      by apply (lock_exclusive_not_shared _ t' _ _ Hx) in Ht'.
    + rewrite Hat. intros o' c Hc. destruct (Ho _ Hc) as (d' & ? & _). done.
    + left. split; [done|]. unfold usage_at. rewrite Hat, Hd. cbn. rewrite Hl. intros j.
      destruct o as [e|]; cbn; [|done]. destruct (Ho e eq_refl) as (d' & -> & [H|H]); cbn; rewrite H; done.
  - eapply (entry_guar t w _ n); try done. rewrite Hat, Hd. by eapply change_shrunk.
Qed.

(** A stage is changed by its owner: its lock is kept, or given up by one who does not hold it. *)
Lemma step_stage t w n c o :
  entries w !! n = Some (Entry_stage t c) ->
  (forall i, usage_of (Entry_stage t c) = Some i -> hold_count t (UsageLock i) w = 0%nat \/ o ≫= usage_of = Some i) ->
  (forall i, o ≫= usage_of = Some i -> usage_of (Entry_stage t c) = Some i) ->
  (forall e, o = Some e -> exists c', e = Entry_stage t c') -> BuildInv w ->
  let w' := set_entries w (partial_alter (fun _ => o) n (entries w)) in
  BuildInv w' /\ build_guar t w w'.
Proof.
  intros Hc Hu Hb Ho Hi w'.
  assert (Hsame : forall n', n' <> n -> partial_alter (fun _ => o) n (entries w) !! n' = entries w !! n').
  { intros n' Hne. by rewrite lookup_partial_alter_ne. }
  assert (Hat : entries w' !! n = o) by (cbn; apply lookup_partial_alter_eq).
  split.
  - eapply (entry_inv w _ n); try done.
    + rewrite Hc, Hat. intros e i [= <-] Hui [t' Ht'].
      destruct (inv_used w Hi t' i Ht') as (n' & e & He & Hue & Hoe).
      assert (n' = n) as ->.
      { apply (inv_unique w Hi n' n i); unfold usage_at; [by rewrite He|by rewrite Hc]. }
      rewrite Hc in He. injection He as <-. assert (t = t') as <- by by eapply Hoe.
      destruct (Hu i Hui) as [H|H]; [done|]. destruct o as [e|]; [|done].
      exists e. split; [done|]. split; [done|]. intros o c' ->. destruct (Ho _ eq_refl) as [c'' [= -> ->]]. eauto.
    + rewrite Hat. intros o' c' Hc'. destruct (Ho _ Hc') as [c'' [= -> ->]]. by eapply inv_stages.
    + left. split; [done|]. unfold usage_at. rewrite Hat, Hc. cbn [option_bind mbind]. intros i Hi'. by apply Hb.
  - eapply (entry_guar t w _ n); try done. rewrite Hat, Hc. apply change_stage.
Qed.

(** The candidate gets its lock. *)
Lemma step_stage_given t w n d d' :
  entries w !! n = Some (Entry_stage t (Some d)) -> usage_lock d = None -> usage_lock d' = Some (next_usage w) ->
  BuildInv w ->
  let w' := take_usage (set_entries w (<[n := Entry_stage t (Some d')]> (entries w))) in
  BuildInv w' /\ build_guar t w w' /\ hold_count t (UsageLock (next_usage w)) w' = 0%nat.
Proof.
  intros Hd Hn Hl Hi w'.
  assert (Hsame : forall n', n' <> n -> <[n:=Entry_stage t (Some d')]> (entries w) !! n' = entries w !! n').
  { intros n' Hne. by rewrite lookup_insert_ne. }
  split_and!.
  - eapply (entry_inv w _ n); try done.
    + cbn. rewrite Hd. intros e i [= <-]. cbn. by rewrite Hn.
    + cbn. rewrite lookup_insert_eq. intros o c [= <- <-]. by eapply inv_stages.
    + right. split; [done|]. unfold usage_at. cbn. by rewrite lookup_insert_eq.
  - eapply (entry_guar t w _ n); try done. cbn. rewrite Hd. apply change_stage.
  - unfold hold_count, owners. cbn. destruct (build_locks w !! UsageLock (next_usage w)) as [h|] eqn:Hh; [|done].
    assert (next_usage w < next_usage w) by (apply (inv_locked w Hi); by rewrite Hh). lia.
Qed.

Abbreviation free_hand := (fun _ _ : Versions => True).
Abbreviation does t P p Q := (oks t free_hand P p Q).

(** ** Rules *)

Lemma build_faulty_cases {T} c w w1 (r x : result T ErrorKind) w2 :
  build_faulty c w w1 r = (w2, x) ->
  w2 = w /\ (exists e, x = Err e) \/ w2 = w1 /\ (x = r \/ exists e, x = Err e).
Proof. unfold build_faulty. destruct (Choice_build_fault c) as [[]|]; intros [= <- <-]; eauto. Qed.

Lemma build_refusable_cases {T} c w w1 (r x : result T ErrorKind) w2 :
  build_refusable c w w1 r = (w2, x) -> w2 = w /\ (exists e, x = Err e) \/ w2 = w1 /\ x = r.
Proof. unfold build_refusable. destruct (Choice_build_fault c) as [[]|]; intros [= <- <-]; eauto. Qed.

Ltac carried_out He :=
  let c := fresh "c" in destruct He as [c He]; cbn [build_perform] in He; try apply (inj Some) in He.

Lemma does_op t P op Q :
  (forall w x w', BuildInv w -> P w -> build_exec t op w x w' -> (BuildInv w' /\ build_guar t w w') /\ Q x w') ->
  (forall x, steady t (Q x)) -> does t P (call op) Q.
Proof.
  intros H Hs. apply ok_call; [|done]. intros w x w' Hi Hp He. destruct (H w x w' Hi Hp He) as [[Hi' Hg] HQ].
  by split_and!.
Qed.

(** What holds of an answer, by whether it is an error *)
Definition either {A} (Q : A -> Versions -> Prop) (E : Versions -> Prop) (r : result A ErrorKind) : Versions -> Prop :=
  match r with Ok a => Q a | Err _ => E end.

Lemma either_steady {A} t (Q : A -> Versions -> Prop) E r :
  (forall a, steady t (Q a)) -> steady t E -> steady t (either Q E r).
Proof. intros HQ HE. destruct r; [apply HQ|exact HE]. Qed.

Lemma does_try {A B} t P (p : Build (result A ErrorKind)) (f : A -> Build (result B ErrorKind)) R E Q :
  does t P p (either R E) -> (forall a, does t (R a) (f a) (either Q E)) -> does t P (prog_try p f) (either Q E).
Proof. intros Hp Hf. eapply ok_try; [exact Hp|exact Hf|done]. Qed.

Lemma does_err {A} t P f (p : Build (result A ErrorKind)) Q E :
  does t P p (either Q E) -> does t P (prog_err f p) (either Q E).
Proof. intros H. apply ok_err. eapply ok_post; [exact H|]. by intros [] w. Qed.

Lemma does_ok {A} t (P : Versions -> Prop) (a : A) (Q : A -> Versions -> Prop) E :
  (forall w, BuildInv w -> P w -> Q a w) -> does t P (prog_ok a) (either Q E).
Proof. intros H. exact H. Qed.

Lemma does_fail {A} t (P : Versions -> Prop) e (Q : A -> Versions -> Prop) (E : Versions -> Prop) :
  (forall w, BuildInv w -> P w -> E w) -> does t P (prog_fail e) (either Q E).
Proof. intros H. exact H. Qed.

Lemma does_lift {A} t (P : Versions -> Prop) (r : result A ErrorKind) : does t P (prog_lift r) (either (fun _ => P) P).
Proof. intros w Hi Hp. by destruct r. Qed.

Lemma does_pre {A} t (P P' : Versions -> Prop) (p : Build A) Q :
  does t P p Q -> (forall w, BuildInv w -> P' w -> P w) -> does t P' p Q.
Proof. intros H HP. by eapply ok_weaken. Qed.

Lemma does_post {A} t (P : Versions -> Prop) (p : Build A) (Q Q' : A -> Versions -> Prop) :
  does t P p Q -> (forall a w, BuildInv w -> Q a w -> Q' a w) -> does t P p Q'.
Proof. intros H HQ. by eapply ok_weaken. Qed.

(** ** Looking *)

Definition looks (op : BuildOp) : bool :=
  match op with
  | BuildOp_CurrentExe | BuildOp_Canonicalize _ | BuildOp_MakeVersions | BuildOp_FindProgram _ _
  | BuildOp_OpenSelection | BuildOp_FindUsage _ | BuildOp_Stat _ | BuildOp_Open _ | BuildOp_Read _ | BuildOp_List => true
  | _ => false
  end.

Lemma looks_same t op w x w' : looks op = true -> build_exec t op w x w' -> w' = w.
Proof.
  destruct op; try done; intros _ He; carried_out He;
    first [ by apply build_faulty_cases in He as [[-> _]|[-> _]]
          | destruct (kind_at w place) as [[]|]; [by apply build_faulty_cases in He as [[-> _]|[-> _]]|congruence] ].
Qed.

Lemma does_look t P op Q :
  looks op = true -> (forall x, steady t (Q x)) ->
  (forall w x, BuildInv w -> P w -> build_exec t op w x w -> Q x w) -> does t P (call op) Q.
Proof.
  intros Hl Hs H. apply does_op; [|done]. intros w x w' Hi Hp He. pose proof (looks_same _ _ _ _ _ Hl He) as ->.
  split; [split; [done|apply build_guar_refl]|]. by apply H.
Qed.

Lemma does_look_same t P op : looks op = true -> steady t P -> does t P (call op) (fun _ => P).
Proof. intros Hl Hs. by apply does_look. Qed.

(** The same, where the answer may be an error *)
Lemma does_look_either {A} t P (p : Build (result A ErrorKind)) :
  does t P p (fun _ => P) -> does t P p (either (fun _ => P) P).
Proof. intros H. eapply does_post; [exact H|]. by intros [] w. Qed.

(** ** What is steady *)

Lemma excludes_steady t l : steady t (excludes t l).
Proof. intros t' w w' Hne _ Hg. by apply (guar_excludes _ _ _ Hg). Qed.
Lemma quiet_steady t : steady t (quiet t).
Proof. intros t' w w' Hne _ Hg H i Hx. apply (H i). by apply (guar_excludes _ _ _ Hg). Qed.

Definition selecting (t : N) (w : Versions) : Prop := excludes t Selection w /\ quiet t w.
Lemma selecting_steady t : steady t (selecting t).
Proof. apply stable_and; [apply excludes_steady|apply quiet_steady]. Qed.

Lemma stage_steady t stage c : steady t (fun w => entries w !! stage = Some (Entry_stage t c)).
Proof.
  intros t' w w' Hne _ Hg He. pose proof (guar_entries _ _ _ Hg stage) as Hc. rewrite He in Hc.
  by inversion Hc; subst.
Qed.

Lemma mine_steady t stage : steady t (mine t stage).
Proof.
  intros t' w w' Hne Hi Hg (c & Hc & H). exists c. split; [by apply (stage_steady t stage c t' w)|].
  intros d i Hd Hl. rewrite (guar_counts _ _ _ Hg) by done. by eapply H.
Qed.

Lemma staged_steady t stage i : steady t (stage_held t stage i).
Proof.
  intros t' w w' Hne Hi Hg (d & Hd & Hl & H). exists d.
  split; [by apply (stage_steady t stage (Some d) t' w)|]. by rewrite (guar_counts _ _ _ Hg).
Qed.

(** A build does not change for the worse unless its lock is taken exclusively. *)
Lemma build_stays t w w' name d i :
  build_guar t w w' -> entries w !! name = Some (Entry_build d) -> usage_lock d = Some i -> ~ excludes t (UsageLock i) w ->
  exists d', entries w' !! name = Some (Entry_build d') /\ usage_lock d' = Some i /\
    forall file, runnable d file -> runnable d' file.
Proof.
  intros Hg Hd Hl Hx. pose proof (guar_entries _ _ _ Hg name) as Hc. rewrite Hd in Hc.
  inversion Hc as [o Ho|d1 d2 H1 H2 Hd1|d1 H1|d1 i1 o H1 H2 Hd1|c o|]; subst; [by exists d| |].
  - exists d2. split; [done|]. destruct H1 as [->|[H1 _]]; [done|congruence].
  - rewrite Hl in H1. by injection H1 as <-.
Qed.

Definition selected_by (t : N) (name file : string) (i : N) (w : Versions) : Prop :=
  selecting t w /\ launchable_by name file i w.

(** While one selects, nobody else takes a lock of usage exclusively. *)
Lemma selecting_excludes t t' i w : BuildInv w -> excludes t Selection w -> t' <> t -> ~ excludes t' (UsageLock i) w.
Proof. intros Hi Hs Hne Hx. apply (inv_selection w Hi) in Hx. unfold excludes in *. congruence. Qed.

Lemma installed_steady t name i : steady t (fun w => excludes t Selection w /\ installed name i w).
Proof.
  intros t' w w' Hne Hi Hg [Hs (d & Hd & Hl)]. split; [by apply (excludes_steady t Selection t' w)|].
  destruct (build_stays t' w w' name d i) as (d' & ? & ? & _); try done; [|by exists d'].
  by apply (selecting_excludes t).
Qed.

Lemma selected_steady t name file i : steady t (selected_by t name file i).
Proof.
  intros t' w w' Hne Hi Hg [Hs (d & Hd & Hl & Hr)]. split; [by apply (selecting_steady t t' w)|].
  destruct (build_stays t' w w' name d i) as (d' & ? & ? & Hr'); try done; [|exists d'; auto].
  by apply (selecting_excludes t); [|apply Hs|].
Qed.

(** An admitted build: in use, and there *)
Definition admitted (t : N) (name file : string) (i : N) (w : Versions) : Prop :=
  shares t (UsageLock i) w /\ launchable_by name file i w.

Lemma admitted_steady t name file i : steady t (admitted t name file i).
Proof.
  intros t' w w' Hne Hi Hg [Hs (d & Hd & Hl & Hr)]. split.
  { unfold shares in *. by rewrite (guar_counts _ _ _ Hg). }
  destruct (build_stays t' w w' name d i) as (d' & ? & ? & Hr'); try done; [|exists d'; auto].
  intros Hx. by apply (lock_exclusive_not_shared _ t _ _ Hx).
Qed.

#[export] Hint Resolve selecting_steady mine_steady staged_steady selected_steady admitted_steady excludes_steady
  quiet_steady installed_steady stage_steady stable_and stable_const : steady.
#[export] Hint Extern 4 (stable _ _ _ (either _ _ ?r)) => apply either_steady; [intros ?|] : steady.

(** ** Locks *)

(** Facts on which the lock of the selection has no bearing *)
Definition beyond_selection (P : Versions -> Prop) : Prop := forall w w',
  entries w' = entries w -> (forall i, build_locks w' !! UsageLock i = build_locks w !! UsageLock i) -> P w -> P w'.

Lemma beyond_counts w w' t i :
  (forall i, build_locks w' !! UsageLock i = build_locks w !! UsageLock i) ->
  hold_count t (UsageLock i) w' = hold_count t (UsageLock i) w.
Proof. intros H. unfold hold_count, owners. by rewrite H. Qed.

Lemma mine_beyond t stage : beyond_selection (mine t stage).
Proof.
  intros w w' He Hl (c & Hc & H). exists c. rewrite He. split; [done|]. intros d i Hd Hi.
  rewrite (beyond_counts w w') by done. by eapply H.
Qed.
Lemma staged_beyond t stage i : beyond_selection (stage_held t stage i).
Proof.
  intros w w' He Hl (d & Hd & Hi & H). exists d. rewrite He. by rewrite (beyond_counts w w').
Qed.
Lemma admitted_beyond t name file i : beyond_selection (admitted t name file i).
Proof.
  intros w w' He Hl [Hs H]. split; [unfold shares in *; by rewrite (beyond_counts w w')|].
  unfold launchable_by in *. by rewrite He.
Qed.
Lemma true_beyond (P : Prop) : beyond_selection (fun _ => P).
Proof. by intros w w'. Qed.
Lemma and_beyond P P' : beyond_selection P -> beyond_selection P' -> beyond_selection (fun w => P w /\ P' w).
Proof. intros H H' w w' He Hl [HP HP']. split; eauto. Qed.

Lemma usage_ne_selection i : UsageLock i <> Selection.
Proof. done. Qed.

Lemma does_select t P :
  steady t P -> beyond_selection P ->
  does t P (call (BuildOp_Exclusive Selection)) (either (fun _ w => selecting t w /\ P w) P).
Proof.
  intros Hs Hb. apply does_op; [|auto with steady]. intros w x w' Hi Hp He. carried_out He.
  destruct (build_locks w !! Selection) as [h|] eqn:Hl.
  { destruct (Choice_build_fault c) as [[e|]|]; try done. injection He as <- <-. by split; [split; [|apply build_guar_refl]|]. }
  injection He as He. apply build_refusable_cases in He as [[-> [e ->]]|[-> ->]].
  { by split; [split; [|apply build_guar_refl]|]. }
  destruct (take_exclusive t w Selection Hl) as (Hr & Hx & Hne & Hc).
  set (w1 := set_holding w Selection (Some (Holding_exclusive t))) in *.
  assert (Hq : quiet t w1).
  { intros i. rewrite Hne by done. intros Hxi. apply (inv_selection w Hi) in Hxi. unfold excludes, owner in Hxi.
    by rewrite Hl in Hxi. }
  split; [split; [|by apply relock_guar]|].
  - apply (relock_inv t w); try done.
    + intros i. unfold w1. rewrite set_holding_ne by done. auto.
    + intros i. unfold shares. rewrite Hc. auto.
  - split; [done|]. apply (Hb w); [done| |done]. intros i. unfold w1. by rewrite set_holding_ne.
Qed.

Lemma does_deselect t P :
  steady t P -> beyond_selection P -> does t (fun w => selecting t w /\ P w) (let_go Selection) (fun _ => P).
Proof.
  intros Hs Hb. apply does_op; [|done]. intros w x w' Hi [[Hx Hq] Hp] He. carried_out He. injection He as <- _.
  destruct (release_lock t w Selection) as (Hr & Hc & Hn & Hne).
  set (w1 := set_holding w Selection _) in *.
  split; [split; [|by apply relock_guar]|].
  - apply (relock_inv t w); try done.
    + intros i. unfold w1. rewrite set_holding_ne by done. auto.
    + intros i. rewrite (proj2 (Hne _ (usage_ne_selection i))). intros Hxi. by apply Hq in Hxi.
    + intros i. unfold shares. rewrite (proj1 (Hne _ (usage_ne_selection i))). auto.
  - apply (Hb w); [done| |done]. intros i. unfold w1. by rewrite set_holding_ne.
Qed.

Lemma does_share t i P Q E :
  (forall w, BuildInv w -> P w -> exists n e, entries w !! n = Some e /\ usage_of e = Some i /\
     forall o c, e = Entry_stage o c -> o = t) ->
  (forall w, BuildInv w -> P w -> owner w (UsageLock i) = None ->
     Q (set_holding w (UsageLock i) (Some (Holding_shared (t :: owners w (UsageLock i)))))) ->
  (forall w, P w -> E w) -> steady t Q -> steady t E ->
  does t P (call (BuildOp_Shared (UsageLock i))) (either (fun _ => Q) E).
Proof.
  intros Hu HQ HE HsQ HsE. apply does_op; [|intros x; apply either_steady; auto].
  intros w x w' Hi Hp He. carried_out He.
  destruct (owner w (UsageLock i)) as [t'|] eqn:Ho.
  { unfold owner in Ho. destruct (build_locks w !! UsageLock i) as [[]|]; try done.
    destruct (Choice_build_fault c) as [[e|]|]; try done. injection He as <- <-.
    split; [split; [done|apply build_guar_refl]|]. cbn. auto. }
  assert (He' : build_refusable c w (set_holding w (UsageLock i) (Some (Holding_shared (t :: owners w (UsageLock i))))) (Ok tt) = (w', x)).
  { unfold owner in Ho. destruct (build_locks w !! UsageLock i) as [[]|]; try done; by injection He. }
  apply build_refusable_cases in He' as [[-> [e ->]]|[-> ->]].
  { split; [split; [done|apply build_guar_refl]|]. cbn. auto. }
  destruct (take_shared t w (UsageLock i) Ho) as (Hr & Hc & Hne & Hx).
  set (w1 := set_holding w (UsageLock i) _) in *.
  split; [split; [|by apply relock_guar]|by apply HQ].
  destruct (Hu w Hi Hp) as (n & e & Hn & Hue & Hoe).
  apply (relock_inv t w); try done.
  - intros j. destruct (decide (j = i)) as [->|Hj].
    + intros _. right. eapply (inv_fresh w Hi n). unfold usage_at. by rewrite Hn.
    + unfold w1. rewrite set_holding_ne by (intros [= Hij]; done). auto.
  - intros j. rewrite !Hx. apply (inv_selection w Hi).
  - intros j. destruct (decide (j = i)) as [->|Hj]; [intros _; right; by exists n, e|].
    unfold shares. rewrite Hne by (intros [= Hij]; done). auto.
Qed.

Lemma does_unshare t i P Q :
  (forall w, BuildInv w -> P w -> Q (set_holding w (UsageLock i) (build_locks w !! UsageLock i ≫= unlock t))) ->
  steady t Q -> does t P (let_go (UsageLock i)) (fun _ => Q).
Proof.
  intros HQ HsQ. apply does_op; [|done]. intros w x w' Hi Hp He. carried_out He. injection He as <- _.
  specialize (HQ w Hi Hp).
  destruct (release_lock t w (UsageLock i)) as (Hr & Hc & Hn & Hne).
  set (w1 := set_holding w (UsageLock i) _) in *.
  split; [split; [|by apply relock_guar]|done].
  apply (relock_inv t w); try done.
  - intros j. destruct (decide (j = i)) as [->|Hj].
    + unfold w1. rewrite set_holding_at. left. by destruct (build_locks w !! UsageLock i).
    + unfold w1. rewrite set_holding_ne by (intros [= Hij]; done). auto.
  - intros j. destruct (decide (j = i)) as [->|Hj]; [done|].
    rewrite (proj2 (Hne (UsageLock j) ltac:(intros [= Hij]; done))).
    rewrite (proj2 (Hne Selection (not_eq_sym (usage_ne_selection i)))). apply (inv_selection w Hi).
  - intros j. unfold shares. destruct (decide (j = i)) as [->|Hj]; [rewrite Hc; left; lia|].
    rewrite (proj1 (Hne (UsageLock j) ltac:(intros [= Hij]; done))). auto.
Qed.

(** Whatever was held, letting go of it is harmless, and leaves a selection as it was. *)
Lemma does_let_go_any t i : does t (fun _ => True) (let_go (UsageLock i)) (fun _ _ => True).
Proof. apply does_unshare; [done|apply stable_const]. Qed.

(** ** Stages *)

(** A stage without a lock yet *)
Definition bare (t : N) (stage : string) (w : Versions) : Prop :=
  exists c, entries w !! stage = Some (Entry_stage t c) /\ forall d, c = Some d -> usage_lock d = None.

Lemma bare_steady t stage : steady t (bare t stage).
Proof. apply stable_ex. intros c. apply stable_and; [apply stage_steady|apply stable_const]. Qed.
Lemma bare_mine t stage w : bare t stage w -> mine t stage w.
Proof. intros (c & Hc & H). exists c. split; [done|]. intros d i Hd. rewrite (H d Hd). done. Qed.
#[local] Hint Resolve bare_steady : steady.

(** A candidate without a lock may be changed as its owner likes. *)
Lemma step_bare t stage w c c' :
  entries w !! stage = Some (Entry_stage t c) -> (forall d, c = Some d -> usage_lock d = None) ->
  (forall d, c' = Some d -> usage_lock d = None) -> BuildInv w ->
  (BuildInv (set_entries w (<[stage := Entry_stage t c']> (entries w))) /\
   build_guar t w (set_entries w (<[stage := Entry_stage t c']> (entries w)))) /\
  bare t stage (set_entries w (<[stage := Entry_stage t c']> (entries w))).
Proof.
  intros Hc Hn Hn' Hi. split.
  - eapply (step_stage t w stage c (Some (Entry_stage t c'))); [done|..|done].
    + intros i. destruct c as [d|]; cbn; [by rewrite (Hn d eq_refl)|done].
    + intros i. destruct c' as [d|]; cbn; [by rewrite (Hn' d eq_refl)|done].
    + intros e [= <-]. by exists c'.
  - exists c'. split; [cbn; by rewrite lookup_insert_eq|done].
Qed.

Lemma step_none t w : BuildInv w -> BuildInv w /\ build_guar t w w.
Proof. intros Hi. split; [done|apply build_guar_refl]. Qed.

Lemma stage_names name : is_build_tag (STAGE_PREFIX ++ name)%string = false.
Proof. unfold is_build_tag. by apply andb_false_intro2. Qed.

Lemma does_make_stage t : does t (fun _ => True) (call BuildOp_MakeStage) (either (bare t) (fun _ => True)).
Proof.
  apply does_op; [|auto with steady]. intros w x w' Hi _ He. carried_out He.
  destruct (entries w !! _) as [e|] eqn:Hn; [injection He as <- <-; by split; [apply step_none|]|].
  apply build_refusable_cases in He as [[-> [e ->]]|[-> ->]]; [by split; [apply step_none|]|].
  set (name := (STAGE_PREFIX ++ Choice_name c)%string) in *.
  assert (Hsame : forall n', n' <> name -> <[name:=Entry_stage t None]> (entries w) !! n' = entries w !! n').
  { intros n' Hne. by rewrite lookup_insert_ne. }
  split; [split|].
  - eapply (entry_inv w _ name); try done; cbn.
    + by rewrite Hn.
    + intros _ _ _. apply stage_names.
    + left. split; [done|]. intros i. unfold usage_at. cbn. by rewrite lookup_insert_eq.
  - eapply (entry_guar t w _ name); try done. cbn. rewrite Hn, lookup_insert_eq. apply change_staged.
  - exists None. split; [cbn; by rewrite lookup_insert_eq|done].
Qed.

Lemma does_make_candidate t stage :
  does t (bare t stage) (call (BuildOp_MakeCandidate stage)) (either (fun _ => bare t stage) (bare t stage)).
Proof.
  apply does_op; [|auto with steady]. intros w x w' Hi Hb He. carried_out He.
  pose proof Hb as (c' & Hc & Hn). rewrite Hc in He. destruct c' as [d|].
  { apply build_faulty_cases in He as [[-> [e ->]]|[-> [->|[e ->]]]]; by split; [apply step_none|]. }
  destruct (step_bare t stage w None (Some BuildDir_empty) Hc Hn) as [Hs Hb']; [by intros d [= <-]|done|].
  apply build_faulty_cases in He as [[-> [e ->]]|[-> [->|[e ->]]]]; [by split; [apply step_none|]|by split..].
Qed.

Lemma bare_build_at t stage w d :
  bare t stage w -> build_at w (Target_candidate stage) = Some d ->
  entries w !! stage = Some (Entry_stage t (Some d)) /\ usage_lock d = None.
Proof. intros (c & Hc & Hn) H. cbn in H. rewrite Hc in H. subst c. auto. Qed.

Lemma bare_set_build t stage w d d' :
  bare t stage w -> build_at w (Target_candidate stage) = Some d -> usage_lock d' = None -> BuildInv w ->
  (BuildInv (set_build w (Target_candidate stage) d') /\ build_guar t w (set_build w (Target_candidate stage) d')) /\
  bare t stage (set_build w (Target_candidate stage) d').
Proof.
  intros Hb Hd Hn Hi. destruct (bare_build_at _ _ _ _ Hb Hd) as [Hc Hn0]. cbn [set_build]. rewrite Hc.
  apply (step_bare t stage w (Some d)); [done|by intros ? [= <-]..|done].
Qed.

Lemma does_install_candidate t stage file source :
  does t (bare t stage) (install_executable (Target_candidate stage) file source)
    (either (fun _ => bare t stage) (bare t stage)).
Proof.
  unfold install_executable. eapply does_try.
  { apply does_look_either, does_look_same; [done|apply bare_steady]. }
  intros [|]; [by apply does_ok|].
  eapply does_try with (R := fun _ => bare t stage).
  - apply does_op; [|auto with steady]. intros w x w' Hi Hb He. carried_out He.
    destruct (build_at w (Target_candidate stage)) as [d|] eqn:Hd; [|injection He as <- <-; by split; [apply step_none|]].
    destruct (bare_build_at _ _ _ _ Hb Hd) as [Hc Hn].
    destruct (make_bin d) as [d'|] eqn:Hm; [|injection He as <- <-; by split; [apply step_none|]].
    assert (Hn' : usage_lock d' = None).
    { unfold make_bin in Hm. destruct (bin d) as [[]|]; try done; by injection Hm as <-. }
    destruct (bare_set_build t stage w d d' Hb Hd Hn' Hi) as [Hs Hb'].
    apply build_faulty_cases in He as [[-> [e ->]]|[-> [->|[e ->]]]]; [by split; [apply step_none|]|by split..].
  - intros _. apply does_op; [|auto with steady]. intros w x w' Hi Hb He. carried_out He.
    assert (Hsame : forall e, (w', x) = (w, Err e) -> (BuildInv w' /\ build_guar t w w') /\
              either (fun _ : unit => bare t stage) (bare t stage) x w').
    { intros e [= -> ->]. by split; [apply step_none|]. }
    destruct (build_at w (Target_candidate stage)) as [d|] eqn:Hd; [|by eapply Hsame].
    destruct (bare_build_at _ _ _ _ Hb Hd) as [Hc Hn].
    destruct (bin d) as [[files|]|] eqn:Hbin; [|by eapply Hsame..].
    set (d' := mkBuildDir _ _ _) in He.
    destruct (bare_set_build t stage w d d' Hb Hd Hn Hi) as [Hs Hb'].
    destruct (files !! file) as [[content|]|]; [|by eapply Hsame|];
      (apply build_faulty_cases in He as [[-> [e ->]]|[-> [->|[e ->]]]]; [by split; [apply step_none|]|by split..]).
Qed.

Definition unheld (t : N) (stage : string) (i : N) (w : Versions) : Prop :=
  exists d, entries w !! stage = Some (Entry_stage t (Some d)) /\ usage_lock d = Some i /\
    hold_count t (UsageLock i) w = 0%nat.

Lemma unheld_steady t stage i : steady t (unheld t stage i).
Proof.
  intros t' w w' Hne Hi Hg (d & Hd & Hl & H). exists d.
  split; [by apply (stage_steady t stage (Some d) t' w)|]. by rewrite (guar_counts _ _ _ Hg).
Qed.
Lemma unheld_mine t stage i w : unheld t stage i w -> mine t stage w.
Proof. intros (d & Hd & Hl & H). exists (Some d). split; [done|]. intros ? j [= <-]. rewrite Hl. by intros [= <-]. Qed.
#[local] Hint Resolve unheld_steady : steady.

Lemma does_open_candidate t stage :
  does t (bare t stage) (call (BuildOp_OpenUsage (Target_candidate stage))) (either (unheld t stage) (mine t stage)).
Proof.
  apply does_op; [|auto with steady]. intros w x w' Hi Hb He. carried_out He.
  destruct (build_at w (Target_candidate stage)) as [d|] eqn:Hd;
    [|injection He as <- <-; split; [by apply step_none|by apply bare_mine]].
  destruct (bare_build_at _ _ _ _ Hb Hd) as [Hc Hn]. unfold open_usage in He. rewrite Hn in He.
  cbn [set_build] in He. rewrite Hc in He. set (d' := mkBuildDir _ _ _) in He.
  destruct (step_stage_given t w stage d d') as (Hi' & Hg & Hcount); [done..|].
  set (w1 := take_usage _) in *.
  assert (Hu : unheld t stage (next_usage w) w1).
  { exists d'. split; [cbn; by rewrite lookup_insert_eq|done]. }
  apply build_faulty_cases in He as [[-> [e ->]]|[-> [->|[e ->]]]]; split; try done.
  - by apply step_none.
  - by apply bare_mine.
  - by eapply unheld_mine.
Qed.

(** Facts on the locks alone *)
Definition on_locks (P : Versions -> Prop) : Prop := forall w w', build_locks w' = build_locks w -> P w -> P w'.

Lemma selecting_on_locks t : on_locks (selecting t).
Proof. intros w w' Hl. unfold selecting, quiet, excludes, owner. by rewrite Hl. Qed.
Lemma true_on_locks (P : Prop) : on_locks (fun _ => P).
Proof. by intros w w'. Qed.

(** Facts on locks and on other entries than a stage *)
Definition beside (t : N) (stage : string) (P : Versions -> Prop) : Prop := forall w w' c,
  build_locks w' = build_locks w -> entries w !! stage = Some (Entry_stage t c) ->
  (forall n, n <> stage -> entries w' !! n = entries w !! n) -> P w -> P w'.

Lemma on_locks_beside t stage P : on_locks P -> beside t stage P.
Proof. intros H w w' c Hl _ _. by apply H. Qed.

Lemma launchable_beside t stage name file i : beside t stage (launchable_by name file i).
Proof.
  intros w w' c _ Hs Hne (d & Hd & H). exists d. split; [|done].
  rewrite Hne; [done|]. intros ->. congruence.
Qed.
Lemma admitted_beside t stage name file i : beside t stage (admitted t name file i).
Proof.
  intros w w' c Hl Hs Hne [Hsh H]. split; [|by eapply launchable_beside].
  unfold shares, hold_count, owners in *. by rewrite Hl.
Qed.

Lemma does_drop_stage t stage P :
  steady t P -> beside t stage P -> does t (fun w => mine t stage w /\ P w) (drop_stage stage) (fun _ => P).
Proof.
  intros HsP HP. apply does_op; [|done]. intros w x w' Hi [(c & Hc & Hn) Hp] He. carried_out He.
  rewrite Hc in He. injection He as He _.
  assert (H0 : forall i, usage_of (Entry_stage t c) = Some i -> hold_count t (UsageLock i) w = 0%nat).
  { intros i. destruct c as [d|]; cbn; [|done]. by apply Hn. }
  destruct (Choice_build_fault c0) as [fault|]; subst w';
    (split; [|apply (HP w _ c); [done|done| |done]; intros n Hne; cbn; by rewrite ?lookup_insert_ne, ?lookup_delete_ne by done]).
  - eapply (step_stage t w stage c (Some _)); [done|auto|..|done].
    + intros i. destruct c as [d|]; cbn; [|done]. by destruct (Choice_left c0) as [[[[] ?] ?] ?].
    + intros e [= <-]. eauto.
  - by eapply (step_stage t w stage c None); auto.
Qed.

Lemma does_remove_outer t stage P :
  steady t P -> on_locks P -> does t (fun w => mine t stage w /\ P w) (call (BuildOp_RemoveOuter stage)) (fun _ => P).
Proof.
  intros HsP HP. apply does_op; [|done]. intros w x w' Hi [(c & Hc & Hn) Hp] He. carried_out He.
  rewrite Hc in He. destruct c as [d|]; [injection He as <- _; by split; [apply step_none|]|].
  apply build_faulty_cases in He as [[-> _]|[-> _]]; [by split; [apply step_none|]|].
  split; [by eapply (step_stage t w stage None None)|by apply (HP w)].
Qed.
