(* ===== verification/BuildFunctions.v ===== *)
(** What the functions of [Builds] guarantee to everyone else, and establish for who calls them. *)

From Stdlib Require Import NArith Lia String Ascii.
From stdpp Require Import base gmap list strings.
From S2P Require Import Prelude SortedLists RustStr RustText Programs BuildDisk Builds BuildSteps.

#[local] Hint Resolve mine_beyond staged_beyond admitted_beyond true_beyond and_beyond selecting_on_locks true_on_locks on_locks_beside admitted_beside : steady.

(** ** Admission *)

(** The directory of the candidate takes the name of the build. *)
Lemma step_publish t w stage name d :
  entries w !! stage = Some (Entry_stage t (Some d)) -> stage <> name -> is_build_tag name = true ->
  match entries w !! name with None => true | Some entry => empty_directory entry end = true ->
  (forall i, usage_lock d = Some i -> hold_count t (UsageLock i) w = 0%nat) ->
  excludes t Selection w -> BuildInv w ->
  let w' := set_entries w (<[name := Entry_build d]> (<[stage := Entry_stage t None]> (entries w))) in
  (BuildInv w' /\ build_guar t w w') /\ mine t stage w'.
Proof.
  intros Hs Hne Htag Hempty Hcount Hx Hi w'.
  assert (Hstage : entries w' !! stage = Some (Entry_stage t None)).
  { cbn. rewrite lookup_insert_ne by done. apply lookup_insert_eq. }
  assert (Hname : entries w' !! name = Some (Entry_build d)) by (cbn; apply lookup_insert_eq).
  assert (Hother : forall n, n <> stage -> n <> name -> entries w' !! n = entries w !! n).
  { intros n H1 H2. cbn. by rewrite !lookup_insert_ne. }
  assert (Hused : usage_at w stage = usage_lock d) by (unfold usage_at; by rewrite Hs).
  assert (Hbefore : usage_at w name = None).
  { unfold usage_at. destruct (entries w !! name) as [[[[i|] [s|] [b|]]|o [c|]|]|]; done. }
  assert (Hold : forall n i, usage_at w' n = Some i -> exists n', usage_at w n' = Some i /\
            (n = name /\ n' = stage \/ n <> name /\ n' = n)).
  { intros n i. unfold usage_at at 1. destruct (decide (n = name)) as [->|H1].
    - rewrite Hname. cbn. intros Hd. exists stage. by rewrite Hused; auto.
    - destruct (decide (n = stage)) as [->|H2]; [by rewrite Hstage|]. rewrite Hother by done. eauto. }
  split; [split|].
  - destruct Hi as [I1 I2 I3 I4 I5 I6 I7]. split; try done.
    + intros n1 n2 i H1 H2. destruct (Hold _ _ H1) as (m1 & E1 & D1). destruct (Hold _ _ H2) as (m2 & E2 & D2).
      pose proof (I1 _ _ _ E1 E2) as ->.
      destruct D1 as [[-> ->]|[Hn1 ->]]; destruct D2 as [[-> E]|[Hn2 E]]; subst; try done.
      * unfold usage_at in H2. by rewrite Hstage in H2.
      * unfold usage_at in H1. by rewrite Hstage in H1.
    + intros n i H1. destruct (Hold _ _ H1) as (m1 & E1 & _). by apply I2 in E1.
    + intros t' i Hsh. destruct (I5 t' i Hsh) as (n & e & He & Hu & Ho).
      assert (Hat : usage_at w n = Some i) by (unfold usage_at; by rewrite He).
      destruct (decide (n = stage)) as [->|Hns].
      * exfalso. rewrite Hs in He. injection He as <-. assert (t = t') as <- by by eapply Ho.
        cbn in Hu. by apply Hcount in Hu.
      * destruct (decide (n = name)) as [->|Hnn]; [congruence|]. exists n, e. by rewrite Hother.
    + intros n o c. destruct (decide (n = name)) as [->|H1]; [by rewrite Hname|].
      destruct (decide (n = stage)) as [->|H2]; [intros _; by eapply I6|]. rewrite Hother by done. apply I6.
  - split; [done|done|]. intros n. destruct (decide (n = name)) as [->|H1].
    + rewrite Hname. destruct (entries w !! name) as [[[[i|] [s|] [b|]]|o [c|]|]|] eqn:Hn; try done.
      * apply change_kept; [by auto|]. intros file (content & Hb & _). by cbn in Hb.
      * pose proof (inv_stages w Hi name o None Hn). congruence.
      * apply change_made. auto.
    + destruct (decide (n = stage)) as [->|H2]; [rewrite Hs, Hstage; apply change_stage|].
      rewrite Hother by done. apply change_same.
  - exists None. done.
Qed.

Lemma does_publish t stage name :
  is_build_tag name = true ->
  does t (fun w => selecting t w /\ mine t stage w) (publish_owned_directory stage name) (fun _ => selecting t).
Proof.
  intros Htag. unfold publish_owned_directory. eapply ok_bind with (R := fun _ w => selecting t w /\ mine t stage w).
  - apply does_op; [|auto with steady]. intros w x w' Hi [Hsel (c & Hc & Hn)] He. carried_out He.
    assert (Hnone : forall e, (w', x) = (w, Err e) -> (BuildInv w' /\ build_guar t w w') /\ selecting t w' /\ mine t stage w').
    { intros e [= -> ->]. split; [by apply step_none|]. split; [done|by exists c]. }
    rewrite Hc in He. destruct c as [d|]; [|by eapply Hnone]. case_decide as Hne; [by eapply Hnone|].
    destruct (match entries w !! name with None => true | Some entry => empty_directory entry end) eqn:Hempty;
      [|by eapply Hnone].
    destruct (step_publish t w stage name d) as [Hs Hm]; try done; [by intros i; apply Hn|apply Hsel|].
    apply build_faulty_cases in He as [[-> [e ->]]|[-> _]]; [by eapply Hnone|].
    split; [done|]. split; [|done]. by eapply selecting_on_locks.
  - intros [[]|e].
    + eapply does_pre; [by apply (does_remove_outer t stage (selecting t)); auto with steady|naive_solver].
    + eapply ok_bind with (R := fun _ => selecting t); [|by intros a w].
      eapply does_pre; [by apply (does_drop_stage t stage (selecting t)); auto with steady|naive_solver].
Qed.

(** ** Holding what is published *)

Lemma does_check_directory t P place :
  steady t P -> does t P (check_directory place) (either (fun _ => P) P).
Proof.
  intros Hs. unfold check_directory. eapply does_try; [by apply does_look_either, does_look_same|].
  intros kind. destruct (negb _); [by apply does_fail|].
  eapply does_try; [by apply does_look_either, does_look_same|]. intros [[k len] o].
  destruct (negb _); [by apply does_fail|]. apply does_lift.
Qed.

Lemma launchable_from_open t name file w kind len ownership :
  build_exec t (BuildOp_Open (Place_program name file)) w (Ok (kind, len, ownership)) w ->
  is_regular kind = true -> len <> 0 -> launchable name file w.
Proof.
  intros He Hk Hlen. carried_out He. unfold kind_at in He.
  destruct (build_at w (Target_published name)) as [d|] eqn:Hd; cbn [option_bind mbind] in He; [|done].
  destruct (bin_entry d file) as [[content|]|] eqn:Hb; [| |done].
  - exists d. split.
    { unfold build_at in Hd. destruct (entries w !! name) as [[]|]; try done. by injection Hd as ->. }
    exists content. split; [done|]. intros ->. apply build_faulty_cases in He as [[_ [e ?]]|[_ [H|[e ?]]]]; try done.
    injection H as _ -> _. by apply Hlen.
  - apply build_faulty_cases in He as [[_ [e ?]]|[_ [H|[e ?]]]]; try done. by injection H as -> _ _.
Qed.

Section hold_published.
Variables (t : N) (name file : string) (P : Versions -> Prop).
Hypothesis P_steady : steady t P.
Hypothesis P_shared : forall w i, BuildInv w -> P w -> launchable_by name file i w -> owner w (UsageLock i) = None ->
  P (set_holding w (UsageLock i) (Some (Holding_shared (t :: owners w (UsageLock i))))).

(** While one selects, what is there stays. *)
Lemma launchable_steady : steady t (fun w => selecting t w /\ launchable name file w).
Proof.
  intros t' w w' Hne Hi Hg [Hs (d & Hd & Hr)]. split; [by apply (selecting_steady t t' w)|].
  pose proof (guar_entries _ _ _ Hg name) as Hc. rewrite Hd in Hc.
  inversion Hc as [o Ho|d1 d2 H1 H2 Hd1|d1 H1|d1 i1 o H1 H2 Hd1|c o|]; subst; [by exists d|by exists d2; auto|].
  by apply (selecting_excludes t t' i1 w Hi (proj1 Hs)) in H2.
Qed.

Lemma does_hold_published :
  does t (fun w => selecting t w /\ P w) (hold_published name file)
    (either (fun usage w => (exists i, usage = UsageLock i /\ admitted t name file i w) /\ selecting t w /\ P w)
       (fun w => selecting t w /\ P w)).
Proof.
  assert (Hs : steady t (fun w => selecting t w /\ P w)) by auto with steady.
  unfold hold_published.
  eapply does_try; [by apply does_check_directory|]. intros ?.
  eapply does_try; [by apply does_check_directory|]. intros ?.
  eapply does_try; [by apply does_look_either, does_look_same|]. intros kind0.
  destruct (negb _); [by apply does_fail|].
  eapply does_try with (R := fun '(k, len, o) w => (selecting t w /\ P w) /\
    (negb (is_regular k) || (len =? 0) = false -> launchable name file w)).
  { apply does_look; [done| |].
    - intros x. apply either_steady; [|done]. intros [[k len] o].
      destruct (negb (is_regular k) || (len =? 0)).
      + eapply stable_ext; [|exact Hs]. intros w. naive_solver.
      + eapply stable_ext; [|apply stable_and; [exact launchable_steady|exact P_steady]]. intros w. naive_solver.
    - intros w [[[k len] o]|e] Hi Hp He; [|done]. split; [done|]. intros [Hk%negb_false_iff Hl%N.eqb_neq]%orb_false_iff.
      by eapply launchable_from_open. }
  intros [[k len] o]. destruct (negb (is_regular k) || (len =? 0)).
  { apply does_fail. by intros w _ [? _]. }
  eapply does_pre with (P := fun w => (selecting t w /\ launchable name file w) /\ P w); [|naive_solver].
  eapply does_try with (R := fun _ w => (selecting t w /\ launchable name file w) /\ P w).
  { eapply does_post with (Q := either (fun _ w => (selecting t w /\ launchable name file w) /\ P w)
      (fun w => (selecting t w /\ launchable name file w) /\ P w)); [apply does_lift|].
    intros [[]|e] w _ H; [exact H|]. cbn in *. naive_solver. }
  intros ?.
  eapply does_try with (R := fun usage w => match usage with
    | Some i => (selecting t w /\ launchable_by name file i w) /\ P w
    | None => selecting t w /\ P w end).
  { apply does_err, does_look; [done| |].
    - intros x. apply either_steady; [|done]. intros [i|]; [|done].
      apply stable_and; [apply (selected_steady t name file i)|done].
    - intros w x Hi [[Hsel (d & Hd & Hr)] Hp] He. carried_out He.
      assert (Hat : build_at w (Target_published name) = Some d) by (unfold build_at; by rewrite Hd). rewrite Hat in He.
      cbn [option_bind mbind] in He.
      apply build_faulty_cases in He as [[_ [e ->]]|[_ [->|[e ->]]]]; cbn; [done| |done].
      destruct (usage_lock d) as [i|] eqn:Hl; [|done]. split; [|done]. split; [done|]. by exists d. }
  intros [i|]; [|by apply does_fail].
  eapply does_try with (R := fun _ w => admitted t name file i w /\ selecting t w /\ P w).
  - apply does_share; [|  | |auto with steady|done].
    + intros w Hi [[_ (d & Hd & Hl & _)] _]. by exists name, (Entry_build d).
    + intros w Hi [[Hsel Hla] Hp] Ho. destruct (take_shared t w (UsageLock i) Ho) as (Hr & Hc & Hne & Hx).
      split; [split; [unfold shares; by rewrite Hc|]|].
      * by unfold launchable_by in *.
      * split; [|by apply P_shared]. destruct Hsel as [Hs1 Hs2]. split; [by apply Hx|]. intros j Hj. apply Hx in Hj. by apply Hs2 in Hj.
    + naive_solver.
  - intros _. apply does_ok. intros w _ (H1 & H2 & H3). split; [|done]. by exists i.
Qed.
End hold_published.

(** ** Admitting *)

Lemma unheld_shared t stage i w :
  unheld t stage i w -> owner w (UsageLock i) = None ->
  stage_held t stage i (set_holding w (UsageLock i) (Some (Holding_shared (t :: owners w (UsageLock i))))).
Proof.
  intros (d & Hd & Hl & H0) Ho. destruct (take_shared t w (UsageLock i) Ho) as (_ & Hc & _).
  exists d. split; [done|]. split; [done|]. by rewrite Hc, H0.
Qed.

Lemma staged_unshared t stage i w :
  BuildInv w -> stage_held t stage i w -> mine t stage (set_holding w (UsageLock i) (build_locks w !! UsageLock i ≫= unlock t)).
Proof.
  intros Hi (d & Hd & Hl & H1). destruct (release_lock t w (UsageLock i)) as (_ & Hc & _).
  exists (Some d). split; [done|]. intros ? j [= <-]. rewrite Hl. intros [= <-]. by rewrite Hc, H1.
Qed.

Lemma does_stage_candidate t source program stage :
  does t (bare t stage) (stage_candidate source program stage)
    (either (fun p w => exists i, p.2 = UsageLock i /\ stage_held t stage i w) (mine t stage)).
Proof.
  assert (Hb : forall {A} (p : Build (result A ErrorKind)) Q,
    does t (bare t stage) p (either Q (bare t stage)) -> does t (bare t stage) p (either Q (mine t stage))).
  { intros A p Q H. eapply does_post; [exact H|]. intros [] w _; [done|]. apply bare_mine. }
  unfold stage_candidate. eapply does_try; [apply Hb, does_err, does_make_candidate|]. intros ?.
  eapply does_try; [apply Hb, does_lift|]. intros file.
  eapply does_try; [apply Hb, does_err, does_install_candidate|]. intros ?.
  eapply does_try; [apply does_open_candidate|]. intros i.
  eapply does_try with (R := fun _ => stage_held t stage i).
  - apply does_share; [| | |auto with steady..].
    + intros w _ (d & Hd & Hl & _). exists stage, (Entry_stage t (Some d)). split; [done|]. split; [done|].
      by intros o c [= -> _].
    + intros w _. apply unheld_shared.
    + apply unheld_mine.
  - intros ?. apply does_ok. intros w _ H. by exists i.
Qed.

Lemma does_discard {A} t stage (body : Build (result A ErrorKind)) P Q :
  does t P body (either Q (mine t stage)) ->
  does t P (or_discard stage body) (either Q (fun _ => True)).
Proof.
  intros H. eapply ok_bind; [exact H|]. intros [a|e]; [by apply does_ok|].
  eapply ok_bind; [|intros x; by apply does_fail].
  eapply does_pre; [apply (does_drop_stage t stage (fun _ => True)); auto with steady|done].
Qed.

(** The private lock is let go and the stage removed, whatever else is known. *)
Lemma does_discard_staged {A} t stage i P (p : Build A) Q :
  steady t P -> beside t stage P ->
  (forall w, BuildInv w -> stage_held t stage i w -> P w -> P (set_holding w (UsageLock i) (build_locks w !! UsageLock i ≫= unlock t))) ->
  does t P p Q ->
  does t (fun w => stage_held t stage i w /\ P w) (do~ let_go (UsageLock i) in do~ drop_stage stage in p) Q.
Proof.
  intros Hs Hl Hu Hp. eapply ok_bind with (R := fun _ w => mine t stage w /\ P w).
  - apply does_unshare; [|auto with steady]. intros w Hi [H1 H2]. split; [by apply staged_unshared|auto].
  - intros ?. eapply ok_bind; [by apply does_drop_stage|]. intros ?. exact Hp.
Qed.

Lemma selecting_unshared t i w :
  selecting t w -> selecting t (set_holding w (UsageLock i) (build_locks w !! UsageLock i ≫= unlock t)).
Proof.
  intros [Hs Hq]. destruct (release_lock t w (UsageLock i)) as (_ & _ & Hx & Hne). split; [by apply Hne|].
  intros j Hj. destruct (decide (j = i)) as [->|Hji]; [done|].
  apply (Hq j). by apply (Hne (UsageLock j)); [intros [= ?]|].
Qed.

Lemma staged_shared t stage i name file w j :
  BuildInv w -> stage_held t stage i w -> launchable_by name file j w -> owner w (UsageLock j) = None ->
  stage_held t stage i (set_holding w (UsageLock j) (Some (Holding_shared (t :: owners w (UsageLock j))))).
Proof.
  intros Hi (d & Hd & Hl & H1) (d' & Hd' & Hl' & _) Ho.
  assert (Hij : j <> i).
  { intros ->. assert (name = stage) as ->.
    { apply (inv_unique w Hi name stage i); unfold usage_at; [by rewrite Hd'|by rewrite Hd]. }
    congruence. }
  destruct (take_shared t w (UsageLock j) Ho) as (_ & _ & Hne & _). exists d. split; [done|]. split; [done|].
  by rewrite Hne by (intros [= ?]; done).
Qed.

(** What was admitted stays admitted when another lock is let go. *)
Lemma admitted_unshared t name file i j w :
  j <> i -> admitted t name file i w ->
  admitted t name file i (set_holding w (UsageLock j) (build_locks w !! UsageLock j ≫= unlock t)).
Proof.
  intros Hij [Hs Hl]. destruct (release_lock t w (UsageLock j)) as (_ & _ & _ & Hne). split; [|done].
  unfold shares in *. by rewrite (proj1 (Hne (UsageLock i) ltac:(intros [= ?]; done))).
Qed.
Lemma admitted_on_stage t name file i stage w j :
  BuildInv w -> admitted t name file i w -> stage_held t stage j w -> j <> i.
Proof.
  intros Hi [_ (d & Hd & Hl & _)] (d' & Hd' & Hl' & _) ->.
  assert (name = stage) as ->.
  { apply (inv_unique w Hi name stage i); unfold usage_at; [by rewrite Hd|by rewrite Hd']. }
  congruence.
Qed.

(** ** The selection *)

Definition admission_answer (t : N) (name file : string) : result BuildLock ErrorKind -> Versions -> Prop :=
  either (fun usage w => exists j, usage = UsageLock j /\ admitted t name file j w) (fun _ => True).

Lemma answer_steady t name file r : steady t (admission_answer t name file r).
Proof.
  apply either_steady; [|apply stable_const]. intros usage. apply stable_ex. intros j.
  apply stable_and; [apply stable_const|apply admitted_steady].
Qed.
Lemma answer_beyond t name file r : beyond_selection (admission_answer t name file r).
Proof.
  destruct r as [usage|e]; [|by intros w w']. intros w w' He Hl (j & -> & Ha). exists j. split; [done|].
  by apply (admitted_beyond t name file j w).
Qed.
Lemma answer_beside t stage name file r : beside t stage (admission_answer t name file r).
Proof.
  destruct r as [usage|e]; [|by intros w w' c]. intros w w' c Hl Hs Hne (j & -> & Ha).
  exists j. split; [done|]. by eapply admitted_beside.
Qed.
#[local] Hint Resolve answer_steady answer_beyond answer_beside : steady.

(** One that finds the build published gives up its own candidate. *)
Lemma does_join t name file stage i :
  does t (fun w => selecting t w /\ stage_held t stage i w)
    (let~ existing := hold_published name file in
     do~ let_go Selection in
     do~ let_go (UsageLock i) in
     do~ drop_stage stage in
     Ret existing) (admission_answer t name file).
Proof.
  eapply ok_bind with (R := fun r w => selecting t w /\ stage_held t stage i w /\ admission_answer t name file r w).
  - eapply does_post; [apply (does_hold_published t name file (stage_held t stage i)); [auto with steady|]|].
    + intros w j Hi Hst Hl Ho. by eapply staged_shared.
    + unfold admission_answer. intros [usage|e] w _; cbn; naive_solver.
  - intros r. eapply ok_bind.
    + apply (does_deselect t (fun w => stage_held t stage i w /\ admission_answer t name file r w)).
      * auto with steady.
      * auto with steady.
    + intros ?. apply does_discard_staged; [auto with steady..| |].
      * intros w Hi Hst. destruct r as [usage|e]; [|done]. intros (j & -> & Ha). exists j. split; [done|].
        apply admitted_unshared; [by eapply admitted_on_stage|done].
      * by intros w.
Qed.

(** One that does not publishes it. *)
Lemma does_publish_first t name file stage i :
  is_build_tag name = true ->
  does t (fun w => selecting t w /\ stage_held t stage i w)
    (do~ let_go (UsageLock i) in
     guarded Selection (do^ publish_owned_directory stage name in hold_published name file))
    (admission_answer t name file).
Proof.
  intros Htag. eapply ok_bind with (R := fun _ w => selecting t w /\ mine t stage w).
  - apply does_unshare; [|auto with steady]. intros w Hi [H1 H2]. split; [by apply selecting_unshared|by apply staged_unshared].
  - intros ?. unfold guarded. eapply ok_bind with (R := fun r w => selecting t w /\ admission_answer t name file r w).
    + eapply does_post with (Q := either (fun usage w => (exists j, usage = UsageLock j /\ admitted t name file j w) /\ selecting t w)
        (selecting t)).
      2:{ unfold admission_answer. intros [u|e] w _ H; cbn in *; naive_solver. }
      eapply does_try with (R := fun _ => selecting t).
      { eapply does_post; [by apply does_publish|]. by intros [] w. }
      intros ?. eapply does_pre; [eapply does_post; [apply (does_hold_published t name file (fun _ => True))|]|].
      * apply stable_const.
      * done.
      * intros [u|e] w _ H; cbn in *; naive_solver.
      * done.
    + intros r. eapply ok_bind; [|intros x w _ H; exact H].
      apply (does_deselect t (admission_answer t name file r)); auto with steady.
Qed.

Lemma does_select_candidate t name file stage i :
  is_build_tag name = true ->
  does t (stage_held t stage i) (select_candidate name file stage (UsageLock i)) (admission_answer t name file).
Proof.
  intros Htag. unfold select_candidate.
  eapply ok_bind with (R := either (fun _ w => selecting t w /\ stage_held t stage i w) (stage_held t stage i)).
  { eapply does_try; [apply does_look_either, does_look_same; [done|auto with steady]|]. intros ?.
    apply does_select; auto with steady. }
  assert (Hgive : forall e, does t (fun w => stage_held t stage i w /\ True)
    (do~ let_go (UsageLock i) in do~ drop_stage stage in prog_fail e) (admission_answer t name file)).
  { intros e. apply does_discard_staged; [auto with steady..|done|]. by apply does_fail. }
  intros [[]|e]; [|eapply does_pre; [apply Hgive|done]].
  eapply ok_bind with (R := fun _ w => selecting t w /\ stage_held t stage i w).
  { apply does_look_same; [done|auto with steady]. }
  intros [kind|e]; [apply does_join|].
  assert (Hother : does t (fun w => selecting t w /\ stage_held t stage i w)
    (do~ let_go Selection in do~ let_go (UsageLock i) in do~ drop_stage stage in prog_fail e) (admission_answer t name file)).
  { eapply ok_bind; [apply (does_deselect t (stage_held t stage i)); auto with steady|]. intros ?.
    eapply does_pre; [apply Hgive|done]. }
  destruct e; try exact Hother. by apply does_publish_first.
Qed.

Lemma does_admit t source program :
  (forall directory, installed_directory program = Some directory -> is_build_tag (name_of directory) = true) ->
  does t (fun _ => True) (admit_build source program)
    (either (fun a w => exists j, Admission_usage a = UsageLock j /\
       admitted t (Admission_name a) (Admission_file a) j w) (fun _ => True)).
Proof.
  intros Htag. unfold admit_build.
  eapply does_try with (R := fun directory _ => is_build_tag (name_of directory) = true).
  { intros w _ _. destruct (installed_directory program) as [directory|]; cbn; auto. }
  intros directory.
  eapply does_try with (R := fun _ _ => is_build_tag (name_of directory) = true).
  { eapply does_post; [apply does_lift|]. by intros [] w. }
  intros ?. destruct (is_build_tag (name_of directory)) eqn:Hname; [clear Htag|by apply ok_absurd].
  eapply does_try with (R := fun _ _ => True).
  { eapply does_pre; [apply does_look_either, does_look_same; [done|auto with steady]|done]. }
  intros ?. eapply does_try; [apply does_make_stage|]. intros stage.
  eapply does_try; [apply does_discard, does_stage_candidate|]. intros [file [i|]]; cbn [snd].
  2:{ apply ok_absurd. by intros w _ (i & ? & _). }
  eapply does_try with (R := fun usage w => exists j, usage = UsageLock j /\ admitted t (name_of directory) file j w).
  - eapply does_pre; [by apply does_select_candidate|]. by intros w _ (j & [= ->] & H).
  - intros u. apply does_ok. intros w _ (j & -> & H). by exists j.
Qed.
