(* ===== verification/BuildRuns.v ===== *)
(** What marking a build as in use, pruning, pinning and installing guarantee to everyone else; and any number
    of processes that do so at once: however their steps interleave, and whatever fails or is killed, a build in
    use loses nothing, what is launched is there, and who selects never waits for a lock of usage. *)

From Stdlib Require Import NArith Lia String Ascii.
From stdpp Require Import base gmap list strings relations.
From S2P Require Import Prelude SortedLists RustStr Programs RustText BuildDisk Builds BuildSteps BuildFunctions.

#[local] Hint Resolve true_beyond and_beyond selecting_on_locks true_on_locks : steady.

(** ** Records *)

Lemma does_record_step t r w content P :
  on_locks P -> record_writable w r = true -> P w -> BuildInv w ->
  (BuildInv (set_record w r content) /\ build_guar t w (set_record w r content)) /\ P (set_record w r content).
Proof.
  intros HP Hr Hp Hi.
  assert (Hother : entries (set_record w r content) = entries w -> build_locks (set_record w r content) = build_locks w ->
    next_usage (set_record w r content) = next_usage w -> launches (set_record w r content) = launches w ->
    (BuildInv (set_record w r content) /\ build_guar t w (set_record w r content)) /\ P (set_record w r content)).
  { intros H1 H2 H3 H4. split; [|by apply (HP w)].
    assert (Hre : relock t w (set_record w r content)).
    { split; try done; intros; unfold hold_count, excludes, owner, owners; by rewrite H2. }
    split; [|by apply relock_guar]. apply (relock_inv t w); try done.
    - intros i. rewrite H2. auto.
    - intros i. unfold excludes, owner. rewrite H2. apply (inv_selection w Hi).
    - intros i. unfold shares, hold_count, owners. rewrite H2. auto. }
  destruct r as [| |name]; [by apply Hother..|]. cbn [set_record record_writable] in *. unfold build_at in *.
  destruct (entries w !! name) as [[d| |]|] eqn:Hd; try done. cbn [set_build]. split; [|by apply (HP w)].
  by apply (step_kept t w _ name d (mkBuildDir (usage_lock d) (Some content) (bin d))).
Qed.

Lemma does_write t r content P :
  steady t P -> on_locks P -> does t P (raw_write r content) (either (fun _ => P) P).
Proof.
  intros Hs HP.
  assert (H : forall w w' c (x : result unit ErrorKind) text, BuildInv w -> P w -> record_writable w r = true ->
    build_faulty c w (set_record w r text) (Ok tt) = (w', x) ->
    (BuildInv w' /\ build_guar t w w') /\ either (fun _ => P) P x w').
  { intros w w' c x text Hi Hp Hr He. destruct (does_record_step t r w text P HP Hr Hp Hi) as [Hs' Hp'].
    apply build_faulty_cases in He as [[-> [e ->]]|[-> [->|[e ->]]]]; by split; [apply step_none|] || by split. }
  unfold raw_write. eapply does_try with (R := fun _ => P); [|intros ?];
    (apply does_op; [|intros x; apply either_steady; auto]); intros w x w' Hi Hp He; carried_out He;
    (destruct (record_writable w r) eqn:Hr; [by eapply H|injection He as <- <-; by split; [apply step_none|]]).
Qed.

Lemma does_record t r P : steady t P -> does t P (record r) (either (fun _ => P) P).
Proof.
  intros Hs. unfold record. eapply does_try; [by apply does_look_either, does_look_same|].
  intros [content|]; [|by apply does_ok]. destruct (bounded _ _); by apply does_ok.
Qed.

Lemma does_number t r P : steady t P -> does t P (number r) (either (fun _ => P) P).
Proof. intros Hs. unfold number. eapply does_try; [by apply does_record|]. intros text. by apply does_ok. Qed.

Lemma does_next_place t P : steady t P -> on_locks P -> does t P next_place_unlocked (either (fun _ => P) P).
Proof.
  intros Hs HP. unfold next_place_unlocked. eapply does_try; [by apply does_number|]. intros last.
  eapply does_try; [by apply does_write|]. intros ?. by apply does_ok.
Qed.

(** ** Opening the lock of a build *)

(** Facts that opening the lock of a build leaves *)
Definition grown (w w' : Versions) : Prop :=
  build_locks w' = build_locks w /\
  forall n d, entries w !! n = Some (Entry_build d) -> exists d', entries w' !! n = Some (Entry_build d') /\
    forall i, usage_lock d = Some i -> usage_lock d' = Some i.

Lemma does_open_usage t name P :
  steady t P -> (forall w w', grown w w' -> P w -> P w') -> (forall w, P w -> excludes t Selection w) ->
  does t P (call (BuildOp_OpenUsage (Target_published name)))
    (either (fun i w => P w /\ installed name i w) P).
Proof.
  intros Hs Hg Hx. apply does_op.
  2:{ intros x. apply either_steady; [|done]. intros i.
      eapply stable_ext; [|apply (stable_and _ _ _ P (fun w => excludes t Selection w /\ installed name i w));
        [done|apply installed_steady]].
      intros w. split; [naive_solver|]. intros [H1 H2]. auto. }
  intros w x w' Hi Hp He. carried_out He. unfold build_at in He.
  destruct (entries w !! name) as [[d| |]|] eqn:Hd; try (injection He as <- <-; by split; [apply step_none|]).
  unfold open_usage in He. destruct (usage_lock d) as [i|] eqn:Hl.
  - assert (Hin : installed name i w) by (by exists d).
    apply build_faulty_cases in He as [[-> [e ->]]|[-> [->|[e ->]]]]; by split; [apply step_none|].
  - set (d' := mkBuildDir (Some (next_usage w)) (started d) (bin d)) in *.
    destruct (step_given t w name d d') as [Hi' Hgu]; try done; [by apply Hx|].
    cbn [set_build] in He. set (w1 := take_usage (set_entries w (<[name := Entry_build d']> (entries w)))) in *.
    assert (Hgr : grown w w1).
    { split; [done|]. intros n e Hn. cbn. destruct (decide (n = name)) as [->|Hne].
      - rewrite lookup_insert_eq. exists d'. split; [done|]. rewrite Hd in Hn. injection Hn as <-. by rewrite Hl.
      - rewrite lookup_insert_ne by done. by exists e. }
    assert (Hin : installed name (next_usage w) w1).
    { exists d'. split; [cbn; by rewrite lookup_insert_eq|done]. }
    apply build_faulty_cases in He as [[-> [e ->]]|[-> [->|[e ->]]]]; [by split; [apply step_none|]|..];
      (split; [done|]); cbn; [split; [|done]|]; by eapply Hg.
Qed.

Lemma grown_locks P w w' : on_locks P -> grown w w' -> P w -> P w'.
Proof. intros HP [Hl _]. by apply HP. Qed.

(** ** Marking a build as in use *)

Definition holding_answer (t : N) : result (option BuildLock) ErrorKind -> Versions -> Prop :=
  either (fun guard w => forall l, guard = Some l -> exists i, l = UsageLock i) (fun _ => True).

Lemma does_hold_executable t executable :
  does t (fun _ => True) (hold_executable executable) (holding_answer t).
Proof.
  unfold hold_executable. eapply does_try with (R := fun _ _ => True).
  { apply does_look_either, does_look_same; [done|apply stable_const]. }
  intros path. destruct (installed_directory path) as [directory|]; [|by apply does_ok].
  eapply does_try; [eapply does_post; [apply does_lift|by intros [] w]|]. intros ?.
  eapply does_try; [apply does_look_either, does_look_same; [done|apply stable_const]|]. intros ?.
  eapply does_try with (R := fun _ => selecting t).
  { eapply does_post; [by apply (does_select t (fun _ => True)); auto with steady|]. intros [] w _; cbn; naive_solver. }
  intros ?. unfold guarded. set (name := name_of directory).
  eapply ok_bind with (R := fun r w => selecting t w /\ forall guard l, r = Ok guard -> guard = Some l -> exists i, l = UsageLock i).
  - eapply does_post with (Q := either (fun guard w => selecting t w /\ forall l, guard = Some l -> exists i, l = UsageLock i) (selecting t)).
    2:{ intros [g|e] w _ H; cbn in *; naive_solver. }
    eapply does_try with (R := fun i w => selecting t w /\ installed name i w).
    { apply does_open_usage; [auto with steady|..].
      - intros w w'. apply grown_locks. auto with steady.
      - by intros w [H _]. }
    intros i. eapply does_try with (R := fun _ => selecting t).
    + apply does_share; [| |by intros w [H _]|auto with steady..].
      * intros w Hi [_ (d & Hd & Hl)]. by exists name, (Entry_build d).
      * intros w Hi [[Hs Hq] _] Ho. destruct (take_shared t w (UsageLock i) Ho) as (_ & _ & _ & Hx).
        split; [by apply Hx|]. intros j Hj. apply Hx in Hj. by apply Hq in Hj.
    + intros ?. eapply ok_bind.
      * eapply does_try; [apply does_next_place; auto with steady|]. intros place.
        apply does_write; auto with steady.
      * intros [|e]; [apply does_ok; intros w _ H; split; [exact H|]; intros l [= <-]; by exists i|].
        eapply ok_bind; [apply (does_unshare t i _ (selecting t)); [|auto with steady]|].
        -- intros w _. apply selecting_unshared.
        -- intros ?. by apply does_fail.
  - intros r. eapply ok_bind; [apply (does_deselect t (fun _ => forall guard l, r = Ok guard -> guard = Some l -> exists i, l = UsageLock i)); auto with steady|].
    intros ? w _ H. destruct r as [g|e]; cbn; [|done]. intros l. by apply H.
Qed.

Lemma does_hold_current t : does t (fun _ => True) hold_current (holding_answer t).
Proof.
  unfold hold_current. eapply does_try with (R := fun _ _ => True); [|intros e; apply does_hold_executable].
  apply does_look_either, does_look_same; [done|apply stable_const].
Qed.

(** ** Pruning *)

(** The locks of usage it holds exclusively are among [locks]. *)
Definition taken (t : N) (locks : list BuildLock) (w : Versions) : Prop :=
  excludes t Selection w /\ forall i, excludes t (UsageLock i) w -> UsageLock i ∈ locks.

Lemma taken_steady t locks : steady t (taken t locks).
Proof.
  intros t' w w' Hne Hi Hg [Hs H]. split; [by apply (excludes_steady t Selection t' w)|].
  intros i Hx. apply H. by apply (guar_excludes _ _ _ Hg).
Qed.
Lemma taken_on_locks t locks : on_locks (taken t locks).
Proof. intros w w' Hl. unfold taken, excludes, owner. by rewrite Hl. Qed.

(** A build nobody else can get hold of *)
Definition seized (t : N) (name : string) (l : BuildLock) (w : Versions) : Prop :=
  exists i, l = UsageLock i /\ excludes t (UsageLock i) w /\ installed name i w.

Definition all_seized (t : N) (found : list (string * BuildLock)) (w : Versions) : Prop :=
  NoDup (map fst found) /\ forall name l, (name, l) ∈ found -> seized t name l w.

Lemma seized_steady t name l : steady t (fun w => excludes t Selection w /\ seized t name l w).
Proof.
  intros t' w w' Hne Hi Hg [Hs (i & -> & Hx & Hin)].
  destruct (installed_steady t name i t' w w' Hne Hi Hg (conj Hs Hin)) as [Hs' Hin'].
  split; [done|]. exists i. split; [done|]. split; [|done]. by apply (excludes_steady t (UsageLock i) t' w).
Qed.

Lemma all_seized_steady t found : steady t (fun w => excludes t Selection w /\ all_seized t found w).
Proof.
  intros t' w w' Hne Hi Hg [Hs [Hn H]]. split; [by apply (excludes_steady t Selection t' w)|].
  split; [done|]. intros name l Hin. by apply (seized_steady t name l t' w w' Hne Hi Hg (conj Hs (H name l Hin))).
Qed.

Lemma grown_seized t name l w w' : grown w w' -> seized t name l w -> seized t name l w'.
Proof.
  intros [Hl Hg] (i & -> & Hx & (d & Hd & Hi)). exists i. split; [done|].
  split; [unfold excludes, owner in *; by rewrite Hl|]. destruct (Hg name d Hd) as (d' & Hd' & H). exists d'. auto.
Qed.

(** What a scan has found so far *)
Definition idle_locks (idle : list Idle) : list (string * BuildLock) := map (fun p => (p.1.2, p.2)) idle.
Definition scanning (t : N) (idle : list Idle) (w : Versions) : Prop :=
  taken t (map snd idle) w /\ all_seized t (idle_locks idle) w.

Lemma scanning_steady t idle : steady t (scanning t idle).
Proof.
  eapply stable_ext; [|apply (stable_and _ _ _ (taken t (map snd idle))
    (fun w => excludes t Selection w /\ all_seized t (idle_locks idle) w)); [apply taken_steady|apply all_seized_steady]].
  intros w. unfold scanning, taken. naive_solver.
Qed.
Lemma grown_scanning t idle w w' : grown w w' -> scanning t idle w -> scanning t idle w'.
Proof.
  intros Hg [H1 [H2 H3]]. split; [by eapply grown_locks; [apply taken_on_locks|..]|]. split; [done|].
  intros name l Hin. eapply grown_seized; [done|auto].
Qed.
#[local] Hint Resolve scanning_steady taken_steady taken_on_locks : steady.

Lemma scanning_place t idle s s' name l w :
  scanning t (idle ++ [(s, name, l)]) w -> scanning t (idle ++ [(s', name, l)]) w.
Proof. unfold scanning, idle_locks. by rewrite !map_app. Qed.

Lemma all_seized_app t found name l w :
  all_seized t (found ++ [(name, l)]) w <-> all_seized t found w /\ seized t name l w /\ name ∉ map fst found.
Proof.
  unfold all_seized. rewrite map_app, NoDup_app. cbn. split.
  - intros [(H1 & H2 & _) H3]. split; [split; [done|]|split].
    + intros n l' Hin. apply H3. apply elem_of_app. by left.
    + apply H3. apply elem_of_app. right. by apply list_elem_of_singleton.
    + intros Hin. by apply (H2 name Hin), list_elem_of_singleton.
  - intros [[H1 H2] [H3 H4]]. split.
    + split; [done|]. split; [|apply NoDup_singleton]. intros n Hn ->%list_elem_of_singleton. done.
    + intros n l' [Hin|[= -> ->]%list_elem_of_singleton]%elem_of_app; auto.
Qed.

Lemma seized_kept t name l i h w :
  l <> UsageLock i -> seized t name l w -> seized t name l (set_holding w (UsageLock i) h).
Proof.
  intros Hne (j & -> & Hx & Hin). exists j. split; [done|]. split; [|done]. unfold excludes. by rewrite owner_ne.
Qed.

(** Two builds do not have one lock. *)
Lemma seized_other t name name' l i w :
  BuildInv w -> seized t name l w -> installed name' i w -> name' <> name -> l <> UsageLock i.
Proof.
  intros Hi (j & -> & _ & (d & Hd & Hl)) (d' & Hd' & Hl') Hne [= ->]. apply Hne.
  apply (inv_unique w Hi name' name i); unfold usage_at; [by rewrite Hd'|by rewrite Hd].
Qed.

Lemma does_try_usage t idle name i :
  does t (fun w => scanning t idle w /\ installed name i w) (call (BuildOp_TryExclusive (UsageLock i)))
    (either (fun b : bool => if b then scanning t (idle ++ [(0, name, UsageLock i)]) else scanning t idle) (scanning t idle)).
Proof.
  apply does_op; [|intros [[]|e]; cbn; auto with steady].
  intros w x w' Hi [Hsc Hin] He. carried_out He.
  destruct (build_locks w !! UsageLock i) as [h|] eqn:Hl.
  { apply build_refusable_cases in He as [[-> [e ->]]|[-> ->]]; by split; [apply step_none|]. }
  apply build_refusable_cases in He as [[-> [e ->]]|[-> ->]]; [by split; [apply step_none|]|].
  destruct (take_exclusive t w (UsageLock i) Hl) as (Hr & Hx & Hne & Hc).
  set (w1 := set_holding w (UsageLock i) (Some (Holding_exclusive t))) in *.
  destruct Hsc as [[Hs Hall] Hseized]. pose proof Hin as (d & Hd & Hlock).
  assert (Hs1 : excludes t Selection w1) by (by apply Hne).
  split; [split; [|by apply relock_guar]|].
  - apply (relock_inv t w); try done.
    + intros j. destruct (decide (j = i)) as [->|Hj].
      * intros _. right. eapply (inv_fresh w Hi name). unfold usage_at. by rewrite Hd.
      * unfold w1. rewrite set_holding_ne by (intros [= ?]; done). auto.
    + intros j. unfold shares. rewrite Hc. auto.
  - cbn. unfold scanning, idle_locks. rewrite !map_app. cbn. split; [split; [done|]|].
    + intros j. destruct (decide (j = i)) as [->|Hj]; [intros _; apply elem_of_app; right; by apply list_elem_of_singleton|].
      rewrite Hne by (intros [= ?]; done). intros Hj'%Hall. apply elem_of_app. by left.
    + apply all_seized_app. split; [|split].
      * destruct Hseized as [H1 H2]. split; [done|]. intros n l Hnl. apply seized_kept; [|auto].
        destruct (H2 n l Hnl) as (j & -> & Hxj & _). intros [= ->]. unfold excludes, owner in Hxj. by rewrite Hl in Hxj.
      * by exists i.
      * intros ([n l] & Hn & Hnl)%list_elem_of_fmap. cbn in Hn. subst n.
        destruct (proj2 Hseized name l Hnl) as (j & -> & Hxj & (d' & Hd' & Hl')).
        assert (j = i) as -> by congruence. unfold excludes, owner in Hxj. by rewrite Hl in Hxj.
Qed.

Lemma does_let_go_last t idle name i :
  does t (scanning t (idle ++ [(0, name, UsageLock i)])) (let_go (UsageLock i)) (fun _ => scanning t idle).
Proof.
  apply does_unshare; [|auto with steady]. intros w Hi [[Hs Hall] Hseized].
  unfold idle_locks in Hseized. rewrite map_app in Hall, Hseized. apply all_seized_app in Hseized as (Hold & Hnew & Hfresh).
  destruct (release_lock t w (UsageLock i)) as (_ & _ & Hx & Hne).
  split; [split|].
  - by apply Hne.
  - intros j Hj. destruct (decide (j = i)) as [->|Hji]; [done|].
    apply (Hne (UsageLock j)) in Hj; [|by intros [= ?]]. apply Hall in Hj as [?|[= ->]%list_elem_of_singleton]%elem_of_app; done.
  - destruct Hold as [H1 H2]. split; [done|]. intros n l Hnl. apply seized_kept; [|by apply H2].
    destruct Hnew as (j & [= <-] & _ & Hin). eapply seized_other; [done|by apply H2|done|].
    intros Hn. apply Hfresh, list_elem_of_fmap. exists (n, l). split; [done|exact Hnl].
Qed.

Lemma does_prune_scan t keep pinned found : forall idle,
  does t (scanning t idle) (prune_scan keep pinned found idle) (fun r => scanning t r.1).
Proof.
  induction found as [|[[name kind]|e] found IH]; intros idle; cbn [prune_scan]; [by intros w|..|by intros w].
  destruct (_ || _); [apply IH|]. destruct kind as [kind|e]; [|by intros w].
  destruct (_ || _); [apply IH|].
  eapply ok_bind.
  { apply does_open_usage; [auto with steady|apply grown_scanning|by intros w [[H _] _]]. }
  intros [file|e]; [|by intros w].
  eapply ok_bind; [apply does_try_usage|]. intros [[]|e]; [|apply IH|by intros w].
  eapply ok_bind; [apply does_number; apply scanning_steady|]. intros [place|e].
  - eapply does_pre; [apply IH|]. intros w _. apply scanning_place.
  - eapply ok_bind; [apply does_let_go_last|]. by intros ? w.
Qed.

(** Which locks are taken is known; letting go of all of them leaves none. *)
Lemma does_let_go_all t idle :
  (forall p, p ∈ idle -> is_Some p.2) ->
  does t (taken t (map snd idle)) (let_go_all idle) (fun _ => selecting t).
Proof.
  induction idle as [|[p [i|]] idle IH]; intros Hu; cbn [let_go_all].
  - intros w _ [Hs Hall]. split; [done|]. intros i Hi. apply Hall in Hi. by apply not_elem_of_nil in Hi.
  - eapply ok_bind; [apply (does_unshare t i _ (taken t (map snd idle))); [|auto with steady]|].
    + intros w _ [Hs Hall]. destruct (release_lock t w (UsageLock i)) as (_ & _ & Hx & Hne). split; [by apply Hne|].
      intros j Hj. destruct (decide (j = i)) as [->|Hji]; [done|].
      apply (Hne (UsageLock j)) in Hj; [|by intros [= ?]]. apply Hall in Hj as [[= ->]|?]%elem_of_cons; done.
    + intros ?. apply IH. intros q Hq. apply Hu. by apply elem_of_cons; right.
  - destruct (Hu (p, None)) as [x Hx]; [apply elem_of_cons; by left|done].
Qed.

(** A build that is seized is removed, and nothing that is known of the others is lost. *)
Lemma does_remove t locks name l others :
  does t (fun w => taken t locks w /\ all_seized t ((name, l) :: others) w) (call (BuildOp_Remove name))
    (fun _ w => taken t locks w /\ all_seized t others w).
Proof.
  assert (Hst : steady t (fun w => taken t locks w /\ all_seized t others w)).
  { eapply stable_ext; [|apply (stable_and _ _ _ (taken t locks) (fun w => excludes t Selection w /\ all_seized t others w));
      [apply taken_steady|apply all_seized_steady]]. intros w. unfold taken. naive_solver. }
  apply does_op; [|done]. intros w x w' Hi [Ht [[Hn Hnd]%NoDup_cons Hall]] He. carried_out He.
  destruct (Hall name l) as (i & -> & Hx & (d & Hd & Hl)); [apply elem_of_cons; by left|]. rewrite Hd in He.
  assert (Hafter : forall o, (forall e, o = Some e -> exists d', e = Entry_build d' /\ (usage_lock d' = Some i \/ usage_lock d' = None)) ->
    let w1 := set_entries w (partial_alter (fun _ => o) name (entries w)) in
    (BuildInv w1 /\ build_guar t w w1) /\ taken t locks w1 /\ all_seized t others w1).
  { intros o Ho w1. split; [by eapply step_shrunk|]. split; [by apply (taken_on_locks t locks w)|]. split; [done|].
    intros n l' Hnl. destruct (Hall n l') as (j & -> & Hxj & (dj & Hdj & Hlj)); [apply elem_of_cons; by right|].
    exists j. split; [done|]. split; [done|]. exists dj. split; [|done]. cbn. rewrite lookup_partial_alter_ne; [done|].
    intros ->. apply Hn, list_elem_of_fmap. by exists (n, UsageLock j). }
  destruct (Choice_build_fault c) as [[e|e]|]; injection He as <- <-.
  - split; [by apply step_none|]. split; [done|]. split; [done|]. intros n l' Hnl. apply Hall, elem_of_cons. by right.
  - apply (Hafter (Some _)). intros e' [= <-]. eexists. split; [done|].
    destruct (Choice_left c) as [[[[] ?] ?] ?]; cbn; auto.
  - by apply (Hafter None).
Qed.

Lemma does_remove_builds t locks : forall others unneeded removed,
  map snd unneeded = map fst others ->
  does t (fun w => taken t locks w /\ all_seized t others w) (remove_builds unneeded removed) (fun _ => taken t locks).
Proof.
  intros others unneeded. revert others. induction unneeded as [|[s name] unneeded IH]; intros others removed Hm; cbn [remove_builds].
  { by intros w _ [H _]. }
  destruct others as [|[n l] others]; [done|]. injection Hm as <- Hm.
  eapply ok_bind; [apply does_remove|]. intros [[]|e]; [by apply IH|].
  destruct e; try (by apply IH); by intros w _ [H _].
Qed.

(** Part of what was seized, in any order *)
Lemma all_seized_part t found part w :
  NoDup (map fst part) -> (forall p, p ∈ part -> p ∈ found) -> all_seized t found w -> all_seized t part w.
Proof. intros Hn Hsub [_ H]. split; [done|]. intros name l Hin. auto. Qed.

Lemma beyond_newest_part {T} `{EqDecision T, OrdLaws T} (items : list T) keep :
  exists kept, kept ++ beyond_newest items keep ≡ₚ items.
Proof.
  exists (take keep (rev (sort items))). unfold beyond_newest. rewrite take_drop.
  transitivity (sort items); [symmetry; apply Permutation_rev|apply sort_perm].
Qed.

Lemma unneeded_seized t (idle : list Idle) w :
  all_seized t (idle_locks idle) w ->
  exists others, map snd (beyond_newest (map fst idle) KEEP_IDLE) = map fst others /\ all_seized t others w.
Proof.
  intros Hall. destruct (beyond_newest_part (map fst idle) KEEP_IDLE) as [kept Hk].
  set (unneeded := beyond_newest (map fst idle) KEEP_IDLE) in *.
  destruct (Permutation_map_inv fst idle Hk) as (idle' & Heq & Hperm).
  symmetry in Heq. apply map_eq_app in Heq as (idle1 & idle2 & -> & _ & Hmap).
  exists (idle_locks idle2). split.
  { rewrite <- Hmap. unfold idle_locks. by rewrite !map_map. }
  assert (Hp : map fst (idle_locks idle) ≡ₚ map fst (idle_locks idle1) ++ map fst (idle_locks idle2)).
  { unfold idle_locks. by rewrite <- !map_app, Hperm. }
  eapply all_seized_part; [| |exact Hall].
  - destruct Hall as [Hn _]. rewrite Hp in Hn. by apply NoDup_app in Hn as (_ & _ & Hn).
  - intros q ([p n] & -> & Hin)%list_elem_of_fmap. apply list_elem_of_fmap. exists (p, n). split; [done|].
    rewrite Hperm. apply elem_of_app. by right.
Qed.

Lemma scanned_usages t idle w : scanning t idle w -> forall p, p ∈ idle -> is_Some p.2.
Proof.
  intros [_ [_ H]] [[s name] l] Hin. destruct (H name l) as (i & -> & _); [|by exists i].
  apply list_elem_of_fmap. by exists (s, name, l).
Qed.

Lemma decide_pure {A} t (C : Prop) `{Decision C} (P : Versions -> Prop) (p : Build A) Q :
  (forall w, BuildInv w -> P w -> C) -> (C -> does t P p Q) -> does t P p Q.
Proof. intros HP Hp. destruct (decide C) as [HC|HC]; [auto|]. apply ok_absurd. intros w Hi Hw. eauto. Qed.

Lemma does_prune t keep : does t (fun _ => True) (prune keep) (fun _ _ => True).
Proof.
  unfold prune. eapply ok_bind with (R := fun _ _ => True).
  { apply does_look_same; [done|apply stable_const]. }
  intros [found|[]]; [|by intros w..]. eapply ok_post with (Q := either (fun _ _ => True) (fun _ => True)); [|done].
  eapply does_try; [apply does_look_either, does_look_same; [done|apply stable_const]|]. intros ?.
  eapply does_try with (R := fun _ => selecting t).
  { eapply does_post; [by apply (does_select t (fun _ => True)); auto with steady|]. intros [] w _; cbn; naive_solver. }
  intros ?. unfold guarded. eapply ok_bind with (R := fun _ => selecting t).
  2:{ intros r. eapply ok_bind; [eapply does_pre; [apply (does_deselect t (fun _ => True)); auto with steady|done]|].
      intros ? w _ _. by destruct r. }
  eapply ok_post with (Q := either (fun _ => selecting t) (selecting t)); [|by intros []].
  eapply does_try; [apply does_record, selecting_steady|]. intros pinned.
  eapply ok_bind.
  { eapply does_pre; [apply (does_prune_scan t keep pinned found [])|]. intros w _ [Hs Hq].
    split; [split; [done|]; intros i Hi; by apply Hq in Hi|]. split; [apply NoDup_nil_2|].
    intros name l Hin. by apply not_elem_of_nil in Hin. }
  intros [idle scanned]. cbn [fst].
  apply (decide_pure t (Forall (fun p : Idle => is_Some p.2) idle)); [|intros Hus].
  { intros w _ H. apply Forall_forall. by apply (scanned_usages t idle w). }
  rewrite Forall_forall in Hus.
  eapply ok_bind with (R := fun _ => taken t (map snd idle)).
  - destruct scanned as [?|e]; [|by intros w _ [H _]].
    eapply does_pre; [|intros w _ [Ht Hs]; destruct (unneeded_seized t idle w Hs) as (others & Hm & Ho);
      exact (ex_intro (fun others => map snd (beyond_newest (map fst idle) KEEP_IDLE) = map fst others /\
        taken t (map snd idle) w /\ all_seized t others w) others (conj Hm (conj Ht Ho)))].
    apply (ok_exists _ _ _ _ _ _ _ _ (fun others w => map snd (beyond_newest (map fst idle) KEEP_IDLE) = map fst others /\
      taken t (map snd idle) w /\ all_seized t others w)).
    intros others. apply (decide_pure t (map snd (beyond_newest (map fst idle) KEEP_IDLE) = map fst others)); [naive_solver|].
    intros Hm. eapply does_pre; [by apply does_remove_builds|]. naive_solver.
  - intros removed. eapply ok_bind; [by apply does_let_go_all|]. intros ?. by destruct removed; intros w.
Qed.

#[local] Hint Resolve true_on_locks : steady.

(** ** Processes *)

(** What a process does between marking its own build as in use and its end *)
Inductive Task :=
| Task_publish (source : list N) (program : Path)
| Task_prune (keep : string)
| Task_install (source : list N) (target : Path).

Definition perform_task (task : Task) : Build unit :=
  match task with
  | Task_publish source program => do~ publish_node source program in Ret tt
  | Task_prune keep => do~ prune keep in Ret tt
  | Task_install source target => do~ stable_program source target in Ret tt
  end.

Fixpoint perform_tasks (tasks : list Task) : Build unit :=
  match tasks with
  | [] => Ret tt
  | task :: tasks => do~ perform_task task in perform_tasks tasks
  end.

(** main.rs: an error leaves the process without a hold on its build. *)
Definition process (tasks : list Task) : Build unit :=
  let~ held := hold_current in
  do~ perform_tasks tasks in
  match held with
  | Ok (Some guard) => let_go guard
  | _ => Ret tt
  end.

(** Builds are installed under tags, and programs are not empty. *)
Definition sound_task (task : Task) : Prop :=
  match task with
  | Task_publish source program =>
      forall directory, installed_directory program = Some directory -> is_build_tag (name_of directory) = true
  | Task_prune _ => True
  | Task_install source _ => source <> []
  end.

Definition startable (p : Build unit) : Prop := exists tasks, Forall sound_task tasks /\ p = process tasks.

(** ** What they guarantee *)

Lemma step_put t w name d file content files :
  entries w !! name = Some (Entry_build d) -> bin d = Some (Bin_directory files) -> content <> [] -> BuildInv w ->
  let d' := mkBuildDir (usage_lock d) (started d) (Some (Bin_directory (<[file := BinEntry_file content]> files))) in
  BuildInv (set_entries w (<[name := Entry_build d']> (entries w))) /\
  build_guar t w (set_entries w (<[name := Entry_build d']> (entries w))).
Proof.
  intros Hd Hb Hc Hi d'. apply (step_kept t w _ name d d'); try done.
  intros f (c & Hf & Hne). unfold runnable, bin_entry in *. cbn. rewrite Hb in Hf.
  destruct (decide (f = file)) as [->|Hff]; [exists content; by rewrite lookup_insert_eq|].
  exists c. by rewrite lookup_insert_ne.
Qed.

Lemma does_install_published t name file source :
  source <> [] ->
  does t (fun _ => True) (install_executable (Target_published name) file source) (fun _ _ => True).
Proof.
  intros Hsource. eapply ok_post with (Q := either (fun _ _ => True) (fun _ => True)); [|done].
  unfold install_executable. eapply does_try with (R := fun _ _ => True).
  { apply does_look_either, does_look_same; [done|apply stable_const]. }
  intros [|]; [by apply does_ok|].
  assert (Hall : forall op, (forall w x w', BuildInv w -> build_exec t op w x w' -> BuildInv w' /\ build_guar t w w') ->
    does t (fun _ => True) (call op) (fun _ _ => True)).
  { intros op H. apply does_op; [|intros x; apply stable_const]. intros w x w' Hi _ He. split; [|done]. by apply (H w x w'). }
  eapply does_try with (R := fun _ _ => True); [eapply ok_post; [apply Hall|by intros []]|intros ?; eapply ok_post; [apply Hall|by intros []]];
    intros w x w' Hi He; carried_out He; unfold build_at in He; cbn [Target_name set_build] in He.
  - destruct (entries w !! name) as [[d| |]|] eqn:Hd; try (injection He as <- _; by apply step_none).
    + destruct (make_bin d) as [d'|] eqn:Hm; [|injection He as <- _; by apply step_none].
      apply build_faulty_cases in He as [[-> _]|[-> _]]; [by apply step_none|].
      unfold make_bin in Hm. destruct (bin d) as [[files|]|] eqn:Hb; try done; injection Hm as <-.
      * by apply (step_kept t w _ name d d).
      * apply (step_kept t w _ name d (mkBuildDir (usage_lock d) (started d) (Some (Bin_directory ∅)))); try done.
        intros f (c' & Hf & _). unfold bin_entry in Hf. by rewrite Hb in Hf.
    + apply build_faulty_cases in He as [[-> _]|[-> _]]; [by apply step_none|]. by apply step_made.
  - destruct (entries w !! name) as [[d| |]|] eqn:Hd; try (injection He as <- _; by apply step_none).
    destruct (bin d) as [[files|]|] eqn:Hb; try (injection He as <- _; by apply step_none).
    destruct (files !! file) as [[content|]|]; try (injection He as <- _; by apply step_none);
      (apply build_faulty_cases in He as [[-> _]|[-> _]]; [by apply step_none|]; by eapply step_put).
Qed.

Definition keeps {A} (t : N) (p : Build A) : Prop := does t (fun _ => True) p (fun _ _ => True).

Lemma keeps_ret {A} t (a : A) : keeps t (Ret a).
Proof. by intros w. Qed.
Lemma keeps_bind {A B} t (p : Build A) (f : A -> Build B) : keeps t p -> (forall a, keeps t (f a)) -> keeps t (prog_bind p f).
Proof. intros Hp Hf. eapply ok_bind; [exact Hp|exact Hf]. Qed.
Lemma keeps_try {A B E} t (p : Build (result A E)) (f : A -> Build (result B E)) :
  keeps t p -> (forall a, keeps t (f a)) -> keeps t (prog_try p f).
Proof. intros Hp Hf. apply keeps_bind; [done|]. intros [a|e]; [apply Hf|apply keeps_ret]. Qed.
Lemma keeps_from {A} t (p : Build A) Q : does t (fun _ => True) p Q -> keeps t p.
Proof. intros H. eapply does_post; [exact H|done]. Qed.

Lemma keeps_pin t program : keeps t (pin program).
Proof.
  unfold pin. apply keeps_try; [apply keeps_ret|]. intros directory. apply keeps_try; [apply keeps_ret|]. intros ?.
  eapply keeps_from, (does_write t _ _ (fun _ => True)); [apply stable_const|auto with steady].
Qed.

Lemma keeps_stable_program t source target : source <> [] -> keeps t (stable_program source target).
Proof.
  intros Hs. unfold stable_program. repeat (apply keeps_try; [apply keeps_ret|]; intros ?).
  apply keeps_try; [by apply does_install_published|]. intros ?.
  apply keeps_try; [apply keeps_pin|]. intros ?. apply keeps_ret.
Qed.

(** What was admitted is there when it is launched. *)
Lemma does_launch t name file i :
  does t (admitted t name file i) (call (BuildOp_Launch name file)) (fun _ _ => True).
Proof.
  apply does_op; [|intros x; apply stable_const]. intros w x w' Hi [_ (d & Hd & _ & (content & Hc & _))] He.
  carried_out He. split; [|done].
  assert (Hk : kind_at w (Place_program name file) = Some (FileKind_file, N.of_nat (length content))).
  { unfold kind_at, build_at. rewrite Hd. cbn [option_bind mbind]. by rewrite Hc. }
  rewrite Hk in He. apply build_faulty_cases in He as [[-> _]|[-> _]]; [by apply step_none|].
  split.
  - destruct Hi as [I1 I2 I3 I4 I5 I6 I7]. split; try done. cbn. by constructor.
  - split; [done|done|]. intros n. apply change_same.
Qed.

Lemma keeps_publish_node t source program :
  (forall directory, installed_directory program = Some directory -> is_build_tag (name_of directory) = true) ->
  keeps t (publish_node source program).
Proof.
  intros Htag. unfold publish_node. eapply ok_post with (Q := either (fun _ _ => True) (fun _ => True)); [|done].
  eapply does_try; [by apply does_admit|]. intros a. destruct (Admission_usage a) as [i|] eqn:Hu.
  2:{ apply ok_absurd. intros w _ (j & Hj & _). by rewrite Hu in Hj. }
  eapply ok_bind with (R := fun _ _ => True).
  - eapply does_pre; [apply (does_launch t _ _ i)|]. intros w _ (j & Hj & H). rewrite Hu in Hj. by injection Hj as ->.
  - intros r. eapply ok_bind; [apply does_let_go_any|]. intros ? w _ _. by destruct r.
Qed.

Lemma keeps_tasks t tasks : Forall sound_task tasks -> keeps t (perform_tasks tasks).
Proof.
  induction 1 as [|task tasks Htask _ IH]; cbn [perform_tasks]; [apply keeps_ret|].
  apply keeps_bind; [|intros ?; exact IH]. destruct task as [source program|keep|source target]; cbn [perform_task];
    (apply keeps_bind; [|intros ?; apply keeps_ret]).
  - by apply keeps_publish_node.
  - apply does_prune.
  - by apply keeps_stable_program.
Qed.

Lemma keeps_process t tasks : Forall sound_task tasks -> keeps t (process tasks).
Proof.
  intros Ht. unfold process. eapply ok_bind; [apply does_hold_current|]. intros held.
  assert (Hrest : forall k : Build unit, keeps t k -> does t (holding_answer t held) (do~ perform_tasks tasks in k) (fun _ _ => True)).
  { intros k Hk. eapply does_pre; [apply keeps_bind; [by apply keeps_tasks|intros ?; exact Hk]|done]. }
  destruct held as [[[i|]|]|e]; [apply Hrest, does_let_go_any| |apply Hrest, keeps_ret..].
  apply ok_absurd. intros w _ H. by destruct (H None eq_refl).
Qed.

(** ** All of them together *)

Lemma filter_owners (t t' : N) (ts : list N) :
  t' <> t -> filter (fun x => x = t') (filter (fun x => x <> t) ts) = filter (fun x => x = t') ts.
Proof.
  intros Hne. rewrite list_filter_filter. apply list_filter_iff. intros x. naive_solver.
Qed.

Lemma release_builds_at t w l : build_locks (release_builds t w) !! l = build_locks w !! l ≫= unlock_all t.
Proof. unfold release_builds. cbn. apply lookup_omap. Qed.

(** A process that is over has let go of everything, and of nothing else. *)
Lemma release_builds_ok t w : BuildInv w -> BuildInv (release_builds t w) /\ build_guar t w (release_builds t w).
Proof.
  intros Hi. set (w' := release_builds t w).
  assert (Hown : forall l, owners w' l = filter (fun x => x <> t) (owners w l)).
  { intros l. unfold owners, w'. rewrite release_builds_at. destruct (build_locks w !! l) as [[t'|ts]|]; cbn; [|apply owners_shared_by|done].
    by case_decide. }
  assert (Hex : forall l t', excludes t' l w' <-> excludes t' l w /\ t' <> t).
  { intros l t'. unfold excludes, owner, w'. rewrite release_builds_at.
    destruct (build_locks w !! l) as [[t0|ts]|]; cbn; [case_decide; naive_solver| |naive_solver].
    destruct (filter _ ts); cbn; naive_solver. }
  assert (Hself : forall l, hold_count t l w' = 0%nat).
  { intros l. unfold hold_count. rewrite Hown. induction (owners w l) as [|x xs IH]; [done|].
    destruct (decide (x = t)) as [->|Hne]; [by rewrite filter_cons_False by (intros H; by apply H)|].
    rewrite filter_cons_True by done. by rewrite filter_cons_False. }
  assert (Hr : relock t w w').
  { split; try done.
    - intros l t' Hne. unfold hold_count. rewrite Hown. by rewrite filter_owners.
    - intros l t' Hne. rewrite Hex. naive_solver. }
  split; [|by apply relock_guar]. apply (relock_inv t w); try done.
  - intros i. unfold w'. rewrite release_builds_at. intros [h Hh]. left. by destruct (build_locks w !! UsageLock i).
  - intros i [_ H]%Hex. done.
  - intros i. unfold shares. by rewrite Hself.
Qed.

Definition no_builds : Versions := mkVersions ∅ None None ∅ 0 [].
Abbreviation pool := (Config (Op := BuildOp) (answer := build_answer) (Tid := N) (W := Versions)).

(** Processes come and go, from a machine with no builds. *)
Definition reachable (c : pool) : Prop :=
  exists threads, rtc (interleave build_exec release_builds startable) (mkConfig no_builds threads) c /\
    forall t, threads t = None.

Lemma no_builds_inv : BuildInv no_builds.
Proof.
  split; cbn.
  - intros n1 n2 i H. unfold usage_at in H. cbn in H. by rewrite lookup_empty in H.
  - intros n i H. unfold usage_at in H. cbn in H. by rewrite lookup_empty in H.
  - intros i. rewrite lookup_empty. by intros [? ?].
  - intros t i H. unfold excludes, owner in H. cbn in H. by rewrite lookup_empty in H.
  - intros t i H. unfold shares, hold_count, owners in H. cbn in H. by rewrite lookup_empty in H.
  - intros n o c H. by rewrite lookup_empty in H.
  - constructor.
Qed.

Lemma started_keeps t p : startable p -> exists G, ok build_exec BuildInv build_guar t G (fun _ => True) p (fun _ _ => True).
Proof. intros (tasks & Hs & ->). exists free_hand. by apply keeps_process. Qed.

Lemma reachable_proved (c : pool) : reachable c -> proved build_exec BuildInv build_guar (fun _ _ => True) c.
Proof.
  intros (threads & Hsteps & Hnone).
  eapply (interleavings_sound build_exec BuildInv build_guar release_builds startable release_builds_ok (fun _ _ => True)
      (fun t => stable_const _ _ t True) (fun _ _ _ => I) started_keeps);
    [exact Hsteps|]. by apply proved_start; [apply no_builds_inv|..].
Qed.

(** C14: Whatever processes do to the installed builds, in any interleaving, with any failures and kills, a build
    whose lock of usage is held by any process survives each step: its directory keeps its lock, and
    every program in it stays runnable. *)
Theorem builds_in_use_are_kept (c c' : pool) name d i t :
  reachable c -> interleave build_exec release_builds startable c c' ->
  entries (world c) !! name = Some (Entry_build d) -> usage_lock d = Some i -> shares t (UsageLock i) (world c) ->
  exists d', entries (world c') !! name = Some (Entry_build d') /\ usage_lock d' = Some i /\
    forall file, runnable d file -> runnable d' file.
Proof.
  intros Hr Hstep Hd Hl Hs. pose proof (reachable_proved c Hr) as Hp.
  destruct (interleave_move build_exec BuildInv build_guar release_builds startable release_builds_ok (fun _ _ => True) _ _ Hstep Hp)
    as [->|[t' Hg]]; [by exists d|].
  eapply build_stays; [done..|]. intros Hx. by apply (lock_exclusive_not_shared _ t _ _ Hx).
Qed.

(** C15: Every program that is launched after its admission is there to be launched: between the
    admission and the end of the launch no prune removes it. *)
Theorem every_launch_finds_its_program (c : pool) :
  reachable c -> Forall (fun found => found = true) (launches (world c)).
Proof. intros Hr. apply (inv_launches _ (proj1 (reachable_proved c Hr))). Qed.

(** A process that holds the lock of the selection never waits for a lock of usage: shared or not, it
    gets it or an error at once, so the order in which the two kinds of locks are taken cannot deadlock. *)
Theorem selection_never_waits_for_usage (c : pool) t i choice :
  reachable c -> excludes t Selection (world c) -> quiet t (world c) ->
  build_perform t choice (BuildOp_Shared (UsageLock i)) (world c) <> None.
Proof.
  intros Hr Hs Hq. pose proof (proj1 (reachable_proved c Hr)) as Hi. cbn.
  destruct (build_locks (world c) !! UsageLock i) as [[t'|ts]|] eqn:Hl; [|done..].
  assert (Hx : excludes t' (UsageLock i) (world c)) by (unfold excludes, owner; by rewrite Hl).
  pose proof (inv_selection _ Hi t' i Hx) as Hs'. unfold excludes in Hs, Hs'.
  assert (t' = t) as -> by congruence. by apply Hq in Hx.
Qed.
