(* ===== verification/BuildSelection.v ===== *)
(** What a prune removes when nothing gets in its way: of the builds that are idle, those beyond the two that
    were started last.  Then the installed builds on concrete inputs: schedules that can be played. *)

From Stdlib Require Import NArith Lia String Ascii Sorted.
From stdpp Require Import base gmap list strings sorting relations.
From S2P Require Import Prelude SortedLists RustStr Programs RustText BuildDisk Builds BuildSteps BuildFunctions.
From S2P Require Import BuildRuns.

(** ** What is idle *)

(** When a build was started last, by its record *)
Definition number_in (content : option (list N)) : option N :=
  (content ≫= bounded MAX_ORDER_RECORD_BYTES) ≫= number_of_bytes.
Definition text_in (content : option (list N)) : option string :=
  (content ≫= bounded MAX_ORDER_RECORD_BYTES) ≫= fun content =>
  if utf8_valid content then Some (of_chars (trim_chars (chars (of_bytes content)))) else None.

Definition in_use (w : Versions) (d : BuildDir) : bool :=
  match usage_lock d with Some i => bool_decide (is_Some (build_locks w !! UsageLock i)) | None => false end.

Definition idle_build (w : Versions) (keep : string) (pinned : option string) (name : string) : option (N * string) :=
  if String.eqb name keep || bool_decide (pinned = Some name) || negb (is_build_tag name) then None else
  match entries w !! name with
  | Some (Entry_build d) => if in_use w d then None else Some (default 0 (number_in (started d)), name)
  | _ => None
  end.

Definition listing (w : Versions) : list (string * FileKind) :=
  map (fun e => (e.1, entry_kind e.2)) (map_to_list (entries w)).
Definition idle_builds (w : Versions) (keep : string) : list (N * string) :=
  omap (fun e => idle_build w keep (text_in (pinned_record w)) e.1) (listing w).

Definition faultless (choices : nat -> BuildChoice) : Prop := forall n, Choice_build_fault (choices n) = None.

Section alone.
Variables (t : N) (choices : nat -> BuildChoice).
Hypothesis no_faults : faultless choices.

Abbreviation alone := (run build_perform t choices).

Lemma faulty_none {T} n w w' (r : result T ErrorKind) : build_faulty (choices n) w w' r = (w', r).
Proof. unfold build_faulty. by rewrite no_faults. Qed.
Lemma refusable_none {T} n w w' (r : result T ErrorKind) : build_refusable (choices n) w w' r = (w', r).
Proof. unfold build_refusable. by rewrite no_faults. Qed.

(** Reading *)
Lemma run_record n r w : alone n (record r) w = Some (w, Ok (text_in (record_at w r)), S n).
Proof.
  unfold record, text_in. cbn. rewrite faulty_none. destruct (record_at w r) as [content|]; [|done]. cbn.
  unfold bounded. by destruct (_ <=? _).
Qed.

Lemma run_number n r w : alone n (number r) w = Some (w, Ok (number_in (record_at w r)), S n).
Proof.
  unfold number, prog_try. rewrite run_bind, run_record. cbn. unfold text_in, number_in.
  destruct (record_at w r ≫= bounded MAX_ORDER_RECORD_BYTES) as [content|]; [|done]. cbn. unfold number_of_bytes.
  by destruct (utf8_valid content).
Qed.

(** ** The scan *)

(** What one step of the scan does to the verdict on other builds: nothing *)
Lemma idle_build_ext w w' keep pinned name :
  entries w' !! name = entries w !! name ->
  (forall d i, entries w !! name = Some (Entry_build d) -> usage_lock d = Some i ->
     build_locks w' !! UsageLock i = build_locks w !! UsageLock i) ->
  idle_build w' keep pinned name = idle_build w keep pinned name.
Proof.
  intros He Hl. unfold idle_build, in_use. rewrite He. destruct (_ || _ || _); [done|].
  destruct (entries w !! name) as [[d| |]|]; try done. destruct (usage_lock d) as [i|] eqn:Hu; [|done].
  by rewrite (Hl d i).
Qed.

(** Builds are as they were, but for locks that were created. *)
Definition alike (e e' : option VersionsEntry) : Prop :=
  match e, e' with
  | Some (Entry_build d), Some (Entry_build d') => started d' = started d /\ bin d' = bin d
  | _, _ => e' = e
  end.
Definition same_builds (w w' : Versions) : Prop := forall name, alike (entries w !! name) (entries w' !! name).

Lemma alike_refl e : alike e e.
Proof. by destruct e as [[]|]. Qed.
Lemma alike_trans e e' e'' : alike e e' -> alike e' e'' -> alike e e''.
Proof.
  intros H H'. destruct e as [[d|o c|]|]; [|by (cbn in H; subst e'; exact H')..].
  destruct e' as [[d'|o c|]|]; cbn in H; try done.
  destruct e'' as [[d''|o c|]|]; cbn in *; try done. destruct H as [<- <-]. exact H'.
Qed.
Lemma same_builds_trans w w' w'' : same_builds w w' -> same_builds w' w'' -> same_builds w w''.
Proof. intros H H' name. by eapply alike_trans. Qed.

Definition present (e : string * FileKind) : result DirEntry ErrorKind := Ok (e.1, Ok e.2).

(** The lock of an eligible build: where it is, and whether it is taken *)
Lemma run_open n w name d :
  BuildInv w -> entries w !! name = Some (Entry_build d) ->
  exists w1 i, alone n (call (BuildOp_OpenUsage (Target_published name))) w = Some (w1, Ok i, S n) /\
    build_locks w1 = build_locks w /\ same_builds w w1 /\
    (in_use w d = match build_locks w !! UsageLock i with Some _ => true | None => false end) /\
    (exists d1, entries w1 !! name = Some (Entry_build d1) /\ started d1 = started d) /\
    (forall name', name' <> name -> entries w1 !! name' = entries w !! name' /\
       forall d' i', entries w !! name' = Some (Entry_build d') -> usage_lock d' = Some i' -> i' <> i).
Proof.
  intros Hi Hd. cbn. unfold build_at. rewrite Hd. unfold open_usage, in_use.
  destruct (usage_lock d) as [i|] eqn:Hl; rewrite faulty_none.
  - exists w, i. split; [done|]. split; [done|]. split; [intros ?; apply alike_refl|].
    split.
    { destruct (build_locks w !! UsageLock i); [by apply bool_decide_eq_true_2|]. apply bool_decide_eq_false_2. by intros [??]. }
    split; [by exists d|]. intros name' Hne. split; [done|]. intros d' i' Hd' Hl' ->. apply Hne.
    apply (inv_unique w Hi name' name i); unfold usage_at; [by rewrite Hd'|by rewrite Hd].
  - eexists _, (next_usage w). split; [done|]. cbn. split; [done|]. split; [|split; [|split]].
    + intros name'. cbn. destruct (decide (name' = name)) as [->|Hne].
      * by rewrite lookup_insert_eq, Hd.
      * rewrite lookup_insert_ne by done. apply alike_refl.
    + destruct (build_locks w !! UsageLock (next_usage w)) as [h|] eqn:Hh; [|done].
      assert (next_usage w < next_usage w) by (apply (inv_locked w Hi); by rewrite Hh). lia.
    + rewrite lookup_insert_eq. eexists. split; done.
    + intros name' Hne. rewrite lookup_insert_ne by done. split; [done|]. intros d' i' Hd' Hl' ->.
      assert (next_usage w < next_usage w); [|lia]. apply (inv_fresh w Hi name'). unfold usage_at. by rewrite Hd'.
Qed.

Lemma run_try n w i :
  alone n (call (BuildOp_TryExclusive (UsageLock i))) w =
  match build_locks w !! UsageLock i with
  | Some _ => Some (w, Ok false, S n)
  | None => Some (set_holding w (UsageLock i) (Some (Holding_exclusive t)), Ok true, S n)
  end.
Proof. cbn. destruct (build_locks w !! UsageLock i); by rewrite refusable_none. Qed.

Lemma run_scan keep pinned names : forall n w idle,
  BuildInv w -> scanning t idle w -> NoDup (map fst names) ->
  (forall name kind, (name, kind) ∈ names -> entry_kind <$> entries w !! name = Some kind) ->
  exists w' n' new,
    alone n (prune_scan keep pinned (map present names) idle) w = Some (w', (idle ++ new, Ok tt), n') /\
    map fst new = omap (fun e => idle_build w keep pinned e.1) names /\ same_builds w w'.
Proof.
  induction names as [|[name kind] names IH]; intros n w idle Hi Hsc Hn Hk.
  { exists w, n, []. rewrite app_nil_r. split; [done|]. split; [done|]. intros ?. apply alike_refl. }
  cbn [map fst] in Hn. apply NoDup_cons in Hn as [Hfresh Hn].
  assert (Hrest : forall w' idle' n, BuildInv w' -> scanning t idle' w' -> same_builds w w' ->
    (forall name', name' <> name -> idle_build w' keep pinned name' = idle_build w keep pinned name') ->
    exists w'' n' new,
      alone n (prune_scan keep pinned (map present names) idle') w' = Some (w'', (idle' ++ new, Ok tt), n') /\
      map fst new = omap (fun e => idle_build w keep pinned e.1) names /\ same_builds w w'').
  { intros w' idle' n' Hi' Hsc' Hsame Hverdict.
    destruct (IH n' w' idle' Hi' Hsc' Hn) as (w'' & n'' & new & Hrun & Hnew & Hs).
    { intros name' kind' Hin. specialize (Hsame name'). specialize (Hk name' kind' (proj2 (elem_of_cons _ _ _) (or_intror Hin))).
      destruct (entries w !! name') as [[d|o c|]|], (entries w' !! name') as [[d'|o' c'|]|]; cbn in *; naive_solver. }
    exists w'', n'', new. split; [done|]. split; [|by eapply same_builds_trans].
    rewrite Hnew. clear -Hverdict Hfresh. induction names as [|e names IH]; [done|]. cbn.
    rewrite Hverdict; [|intros He; apply Hfresh; cbn; rewrite <- He; apply elem_of_cons; by left].
    rewrite IH; [done|]. intros H. apply Hfresh. cbn. apply elem_of_cons. by right. }
  assert (Hskip : idle_build w keep pinned name = None -> exists w' n' new,
    alone n (prune_scan keep pinned (map present names) idle) w = Some (w', (idle ++ new, Ok tt), n') /\
    map fst new = omap (fun e => idle_build w keep pinned e.1) ((name, kind) :: names) /\ same_builds w w').
  { intros Hnone. cbn [omap list_omap fst]. rewrite Hnone. apply Hrest; try done. intros ?. apply alike_refl. }
  cbn [map prune_scan present fst snd]. unfold idle_build in Hskip at 1.
  destruct (String.eqb name keep || bool_decide (pinned = Some name)) eqn:Hkept; [by apply Hskip|].
  destruct (is_build_tag name) eqn:Htag; [|rewrite orb_true_r; by apply Hskip]. cbn [negb orb] in Hskip |- *.
  specialize (Hk name kind (proj2 (elem_of_cons _ _ _) (or_introl eq_refl))).
  destruct (entries w !! name) as [[d|o c|]|] eqn:Hd; cbn in Hk; try done; injection Hk as <-; cbn [is_directory negb orb];
    [|by rewrite (inv_stages w Hi name o c Hd) in Htag|by apply Hskip].
  rewrite run_bind.
  destruct (run_open n w name d Hi Hd) as (w1 & i & Hopen & Hlocks & Hsame1 & Huse & (d1 & Hd1 & Hstart) & Hother).
  rewrite Hopen. cbn iota beta.
  destruct (ok_run _ _ _ build_perform t _ _ _ _ (fun _ _ _ _ H => H)
    (does_open_usage t name (scanning t idle) (scanning_steady t idle) (grown_scanning t idle) (fun w H => proj1 (proj1 H)))
    choices n w w1 _ _ Hi Hsc Hopen) as [Hi1 [Hsc1 Hin1]].
  rewrite run_bind, run_try, Hlocks. rewrite Huse in Hskip.
  assert (Hverdict1 : forall name', name' <> name -> idle_build w1 keep pinned name' = idle_build w keep pinned name').
  { intros name' Hne. apply idle_build_ext; [by apply Hother|]. intros ? ? _ _. by rewrite Hlocks. }
  destruct (build_locks w !! UsageLock i) as [h|] eqn:Hfree.
  { cbn [omap list_omap fst]. unfold idle_build at 1. rewrite Hkept, Htag, Hd, Huse. cbn [negb orb]. by apply Hrest. }
  clear Hskip. pose proof (run_try (S n) w1 i) as Htry. rewrite Hlocks, Hfree in Htry.
  destruct (ok_run _ _ _ build_perform t _ _ _ _ (fun _ _ _ _ H => H) (does_try_usage t idle name i)
    choices (S n) w1 _ _ _ Hi1 (conj Hsc1 Hin1) Htry) as [Hi2 Hsc2].
  set (w2 := set_holding w1 (UsageLock i) (Some (Holding_exclusive t))) in *.
  cbn iota beta. rewrite run_bind, run_number. cbn iota beta.
  assert (Hrec : record_at w2 (Record_started name) = started d).
  { unfold record_at, build_at. cbn. rewrite Hd1. cbn. by rewrite Hstart. }
  rewrite Hrec. set (place := default 0 (number_in (started d))).
  destruct (Hrest w2 (idle ++ [(place, name, UsageLock i)]) (S (S (S n)))) as (w' & n' & new & Hrun & Hnew & Hs).
  { done. }
  { by apply (scanning_place t idle 0 place). }
  { done. }
  { intros name' Hne. rewrite <- (Hverdict1 name' Hne). destruct (Hother name' Hne) as [He Hlock].
    apply idle_build_ext; [done|]. intros d' i' Hd' Hl'. unfold w2. rewrite set_holding_ne; [done|].
    rewrite He in Hd'. intros [= ->]. by apply (Hlock d' i). }
  exists w', n', ((place, name, UsageLock i) :: new). split; [by rewrite <- app_assoc in Hrun|]. split; [|done].
  cbn [omap list_omap fst map]. unfold idle_build at 1. rewrite Hkept, Htag, Hd, Huse. cbn [negb orb]. by rewrite Hnew.
Qed.
(** ** The removal *)

Lemma run_let_go_all (idle : list Idle) : forall n w,
  exists w' n', alone n (let_go_all idle) w = Some (w', tt, n') /\ entries w' = entries w.
Proof.
  induction idle as [|[p l] idle IH]; intros n w; cbn [let_go_all]; [by exists w, n|].
  rewrite run_bind. cbn. destruct (IH (S n) (set_holding w l (build_locks w !! l ≫= unlock t))) as (w' & n' & Hr & He).
  exists w', n'. by rewrite He.
Qed.

Lemma run_remove unneeded : forall removed n w,
  NoDup (map snd unneeded) ->
  (forall name, name ∈ map snd unneeded -> exists d, entries w !! name = Some (Entry_build d)) ->
  exists w' n', alone n (remove_builds unneeded removed) w = Some (w', Ok (removed ++ map snd unneeded), n') /\
    forall name, entries w' !! name = if decide (name ∈ map snd unneeded) then None else entries w !! name.
Proof.
  induction unneeded as [|[s name] unneeded IH]; intros removed n w Hn Hall; cbn [remove_builds map snd].
  { exists w, n. rewrite app_nil_r. split; [done|]. intros name. by rewrite decide_False by apply not_elem_of_nil. }
  cbn [map snd] in Hn, Hall. apply NoDup_cons in Hn as [Hfresh Hn].
  destruct (Hall name (proj2 (elem_of_cons _ _ _) (or_introl eq_refl))) as [d Hd].
  rewrite run_bind. cbn. rewrite Hd, no_faults. cbn.
  destruct (IH (removed ++ [name]) (S n) (set_entries w (delete name (entries w))) Hn) as (w' & n' & Hrun & Hat).
  { intros name' Hin. cbn. rewrite lookup_delete_ne by (intros ->; done). apply Hall, elem_of_cons. by right. }
  exists w', n'. split; [by rewrite <- app_assoc in Hrun|]. intros name'. rewrite Hat. cbn.
  destruct (decide (name' = name)) as [->|Hne].
  - rewrite decide_False by done. rewrite lookup_delete_eq. by rewrite decide_True by (apply elem_of_cons; by left).
  - rewrite lookup_delete_ne by done. destruct (decide (name' ∈ map snd unneeded)) as [Hin|Hin].
    + by rewrite decide_True by (apply elem_of_cons; by right).
    + by rewrite decide_False by (intros [?|?]%elem_of_cons; done).
Qed.

End alone.

(** ** The newest *)

Lemma beyond_newest_spec {T} `{EqDecision T, OrdLaws T} (items : list T) keep :
  exists kept, kept ++ beyond_newest items keep ≡ₚ items /\ length kept = Nat.min keep (length items) /\
    forall k g, k ∈ kept -> g ∈ beyond_newest items keep -> cmp_le g k.
Proof.
  exists (take keep (rev (sort items))). unfold beyond_newest. rewrite take_drop. split; [|split].
  - transitivity (sort items); [symmetry; apply Permutation_rev|apply sort_perm].
  - by rewrite length_take, length_rev, sort_perm.
  - assert (Hs : StronglySorted cmp_le (rev (drop keep (rev (sort items))) ++ rev (take keep (rev (sort items))))).
    { rewrite <- rev_app_distr, take_drop, rev_involutive. apply Sorted_StronglySorted; [|apply sort_sorted].
      intros x y z Hxy Hyz Hzx. unfold cmp_le in *. destruct (cmp_total y x) as [Hl|[->|Hl]]; [done..|].
      apply Hyz. by eapply cmp_lt_trans. }
    intros k g Hk Hg. eapply StronglySorted_app_1_elem_of; [exact Hs|..]; by rewrite list_elem_of_In, <- in_rev, <- list_elem_of_In.
Qed.

(** ** Pruning alone *)

(** C16: Run without failures while nobody selects, a prune answers with exactly the builds it removed, in
    order; they and those it kept are all the builds nobody uses that are neither its own nor pinned, two
    of them are kept (or all, if there are not more), each started no earlier than any that was removed, and
    every other build is as it was. *)
Theorem prune_removes_the_oldest_idle t choices w keep names :
  BuildInv w -> faultless choices -> build_locks w !! Selection = None ->
  Choice_listing (choices 0%nat) (listing w) = map present names -> names ≡ₚ listing w ->
  exists w' n kept gone,
    run build_perform t choices 0 (prune keep) w = Some (w', Ok (sort (map snd gone)), n) /\
    kept ++ gone ≡ₚ idle_builds w keep /\ length kept = Nat.min KEEP_IDLE (length (idle_builds w keep)) /\
    (forall k g, k ∈ kept -> g ∈ gone -> cmp_le g k) /\
    forall name, if decide (name ∈ map snd gone) then entries w' !! name = None
                 else alike (entries w !! name) (entries w' !! name).
Proof.
  intros Hi Hf Hsel Hlist Hperm.
  set (w1 := set_holding w Selection (Some (Holding_exclusive t))).
  assert (Hexcl : run build_perform t choices 2 (call (BuildOp_Exclusive Selection)) w = Some (w1, Ok tt, 3%nat)).
  { cbn. rewrite Hsel. by rewrite refusable_none. }
  destruct (ok_run _ _ _ build_perform t _ _ _ _ (fun _ _ _ _ H => H)
    (does_select t (fun _ => True) (stable_const _ _ _ _) (true_beyond True)) choices 2 w _ _ _ Hi I Hexcl) as [Hi1 [[Hs1 Hq1] _]].
  assert (Hsc : scanning t [] w1).
  { split; [split; [done|]; intros i Hx; by apply Hq1 in Hx|]. split; [apply NoDup_nil_2|]. intros ? ? Hin. by apply not_elem_of_nil in Hin. }
  assert (Hnames : NoDup (map fst names)).
  { rewrite Hperm. unfold listing. rewrite map_map. apply NoDup_fst_map_to_list. }
  destruct (run_scan t choices Hf keep (text_in (pinned_record w)) names 4 w1 [] Hi1 Hsc Hnames) as (w2 & n2 & idle & Hscan & Hidle & Hsame).
  { intros name kind Hin. rewrite Hperm in Hin. unfold listing in Hin.
    apply list_elem_of_fmap in Hin as ([name' e] & [= -> ->] & Hin). apply elem_of_map_to_list in Hin. cbn. by rewrite Hin. }
  assert (Hverdicts : map fst idle ≡ₚ idle_builds w keep).
  { rewrite Hidle. unfold idle_builds. rewrite <- Hperm. apply reflexive_eq, list_omap_ext.
    apply Forall2_same_length_lookup. split; [done|]. intros j e e' He He'. assert (e = e') as <- by congruence.
    apply idle_build_ext; [done|]. intros ? i _ _. unfold w1. by rewrite set_holding_ne. }
  destruct (ok_run _ _ _ build_perform t _ _ _ _ (fun _ _ _ _ H => H)
    (does_prune_scan t keep (text_in (pinned_record w)) (map present names) []) choices 4 w1 _ _ _ Hi1 Hsc Hscan) as [Hi2 Hsc2].
  cbn [fst app] in Hsc2.
  destruct (unneeded_seized t idle w2 (proj2 Hsc2)) as (others & Hothers & Hseized).
  set (gone := beyond_newest (map fst idle) KEEP_IDLE) in *.
  destruct (run_remove t choices Hf gone [] n2 w2) as (w3 & n3 & Hremove & Hat).
  { rewrite Hothers. apply Hseized. }
  { intros name. rewrite Hothers. intros ([n l] & -> & Hin)%list_elem_of_fmap.
    destruct (proj2 Hseized n l Hin) as (i & _ & _ & (d & Hd & _)). by exists d. }
  destruct (run_let_go_all t choices idle n3 w3) as (w4 & n4 & Hgo & He4).
  destruct (beyond_newest_spec (map fst idle) KEEP_IDLE) as (kept & Hpart & Hlen & Hle). fold gone in Hpart, Hle.
  exists (set_holding w4 Selection (build_locks w4 !! Selection ≫= unlock t)), (S n4), kept, gone.
  split; [|split; [by rewrite Hpart|split; [by rewrite <- Hverdicts|split; [done|]]]].
  - unfold prune. rewrite run_bind. cbn [run call build_perform]. rewrite faulty_none by done. cbn [run]. fold (listing w). rewrite Hlist.
    unfold prog_try at 1. rewrite run_bind. cbn [run call build_perform]. rewrite faulty_none by done. cbn [run].
    unfold prog_try at 1. rewrite run_bind. cbn [run call build_perform]. rewrite Hsel, refusable_none by done. cbn [run]. fold w1.
    unfold guarded. rewrite run_bind.
    unfold prog_try. rewrite run_bind, run_record by done. cbn iota beta. change (record_at w1 Record_pinned) with (pinned_record w).
    rewrite run_bind, Hscan. cbn iota beta. rewrite run_bind. cbn [app].
    fold gone. rewrite Hremove. cbn iota beta. rewrite run_bind, Hgo. done.
  - intros name. change (entries (set_holding _ _ _)) with (entries w4). rewrite He4, Hat.
    case_decide; [done|]. exact (Hsame name).
Qed.

(** ** Playing a schedule *)

#[export] Instance sound_task_dec task : Decision (sound_task task).
Proof.
  destruct task as [source program|keep|source target]; cbn; [|apply _..].
  destruct (installed_directory program) as [directory|]; [|left; by intros ?].
  destruct (is_build_tag (name_of directory)) eqn:H; [left; by intros ? [= <-]|].
  right. intros Hall. by rewrite (Hall directory eq_refl) in H.
Defined.

Abbreviation step := (interleave build_exec release_builds startable).

Inductive BuildTurn :=
| BuildTurn_start (t : N) (tasks : list Task)
| BuildTurn_act (t : N) (steps : nat) (c : BuildChoice)
| BuildTurn_over (t : N).

Fixpoint build_act (steps : nat) (t : N) (c : BuildChoice) (cfg : pool) : pool :=
  match steps with
  | O => cfg
  | S steps =>
      match threads cfg t with
      | Some (Do op k) =>
          match build_perform t c op (world cfg) with
          | Some (w, x) => build_act steps t c (mkConfig w (thread_update (threads cfg) t (Some (k x))))
          | None => cfg
          end
      | _ => cfg
      end
  end.

Definition take_build_turn (turn : BuildTurn) (cfg : pool) : pool :=
  match turn with
  | BuildTurn_start t tasks =>
      match threads cfg t with
      | None =>
          if decide (Forall sound_task tasks)
          then mkConfig (world cfg) (thread_update (threads cfg) t (Some (process tasks)))
          else cfg
      | Some _ => cfg
      end
  | BuildTurn_act t steps c => build_act steps t c cfg
  | BuildTurn_over t =>
      match threads cfg t with
      | Some _ => mkConfig (release_builds t (world cfg)) (thread_update (threads cfg) t None)
      | None => cfg
      end
  end.

Definition play_builds (turns : list BuildTurn) : pool :=
  fold_left (fun cfg turn => take_build_turn turn cfg) turns (mkConfig no_builds (fun _ => None)).

Lemma build_act_sound steps t c : forall cfg, rtc step cfg (build_act steps t c cfg).
Proof.
  induction steps as [|steps IH]; intros cfg; cbn [build_act]; [apply rtc_refl|].
  destruct (threads cfg t) as [[a|op k]|] eqn:Ht; try apply rtc_refl.
  destruct (build_perform t c op (world cfg)) as [[w x]|] eqn:Hp; [|apply rtc_refl].
  eapply rtc_l; [|apply IH]. destruct cfg as [w0 ts]. cbn [world threads] in *.
  eapply interleave_act; [exact Ht|]. by exists c.
Qed.

Lemma take_build_turn_sound turn cfg : rtc step cfg (take_build_turn turn cfg).
Proof.
  destruct turn as [t tasks|t steps c|t]; cbn [take_build_turn]; [|apply build_act_sound|];
    destruct cfg as [w ts]; cbn [world threads]; destruct (ts t) eqn:Ht; try apply rtc_refl.
  - case_decide as Hs; [|apply rtc_refl]. apply rtc_once, interleave_start; [done|]. by exists tasks.
  - by eapply rtc_once, interleave_over.
Qed.

(** What is played is reached. *)
Lemma played_reachable turns : reachable (play_builds turns).
Proof.
  exists (fun _ => None). split; [|done]. unfold play_builds.
  generalize (mkConfig (Op := BuildOp) (answer := build_answer) no_builds (fun _ : N => None)) as cfg.
  induction turns as [|turn turns IH]; intros cfg; cbn [fold_left]; [apply rtc_refl|].
  etransitivity; [apply take_build_turn_sound|apply IH].
Qed.

(** ** Samples *)

Definition smooth : BuildChoice :=
  mkBuildChoice None "a" ["tmp"; "domyjob"]%string Ownership_Private (map present) (true, true, true, true).

Definition tag_a : string := "aaaaaaaaaaaaaaaa".
Definition tag_b : string := "bbbbbbbbbbbbbbbb".
Definition tag_c : string := "cccccccccccccccc".
Definition tag_d : string := "dddddddddddddddd".
Definition program_of (tag : string) : Path := ["home"; "domyjob"; "versions"; tag; "bin"; "domyjob"]%string.

(** One process has admitted a build and is about to launch it; another has published three and pruned. *)
Definition admitted_turns : list BuildTurn :=
  [BuildTurn_start 1 [Task_publish [7] (program_of tag_a)]; BuildTurn_act 1 25 smooth;
   BuildTurn_start 2 [Task_publish [7] (program_of tag_b); Task_publish [7] (program_of tag_c);
     Task_publish [7] (program_of tag_d); Task_prune "0000000000000000"]; BuildTurn_act 2 200 smooth].
Definition launch_turns : list BuildTurn := admitted_turns ++ [BuildTurn_act 1 1 smooth].

Definition next_op (t : N) (c : pool) : option BuildOp :=
  match threads c t with Some (Do op _) => Some op | _ => None end.
Definition installed_names (c : pool) : list string :=
  filter (fun name => bool_decide (is_Some (entries (world c) !! name))) [tag_a; tag_b; tag_c; tag_d].

(** The oldest of those nobody uses is gone. *)
Example about_to_launch :
  next_op 1 (play_builds admitted_turns) = Some (BuildOp_Launch tag_a "domyjob") /\
  installed_names (play_builds admitted_turns) = [tag_a; tag_c; tag_d].
Proof. vm_compute. done. Qed.

(** The build that is in use, at the moment before it is launched *)
Definition build_in_use (c : pool) : option BuildDir :=
  match entries (world c) !! tag_a with Some (Entry_build d) => Some d | _ => None end.

Lemma play_builds_snoc turns turn : play_builds (turns ++ [turn]) = take_build_turn turn (play_builds turns).
Proof. unfold play_builds. by rewrite fold_left_app. Qed.

Lemma one_act t op c cfg :
  next_op t cfg = Some op -> (forall w, build_perform t c op w <> None) -> step cfg (take_build_turn (BuildTurn_act t 1 c) cfg).
Proof.
  destruct cfg as [w0 ts]. unfold next_op. cbn [take_build_turn build_act world threads]. intros Hop Hp.
  destruct (ts t) as [[a|op' k]|] eqn:Ht; try done. injection Hop as ->. specialize (Hp w0).
  destruct (build_perform t c op w0) as [[w x]|] eqn:He; [|done].
  eapply interleave_act; [exact Ht|]. by exists c.
Qed.

Lemma launch_is_a_step : step (play_builds admitted_turns) (play_builds launch_turns).
Proof.
  unfold launch_turns. rewrite play_builds_snoc. eapply one_act; [exact (proj1 about_to_launch)|]. by intros w.
Qed.

Lemma in_use_at_launch :
  match entries (world (play_builds admitted_turns)) !! tag_a with
  | Some (Entry_build d) => bool_decide (usage_lock d = Some 0) && bool_decide (hold_count 1 (UsageLock 0) (world (play_builds admitted_turns)) = 1%nat)
  | _ => false
  end = true.
Proof. vm_compute. reflexivity. Qed.

Lemma builds_in_use_are_kept_witness :
  exists d', entries (world (play_builds launch_turns)) !! tag_a = Some (Entry_build d') /\ usage_lock d' = Some 0.
Proof.
  pose proof in_use_at_launch as H.
  destruct (entries (world (play_builds admitted_turns)) !! tag_a) as [[d|o c|]|] eqn:Hd; [|done..].
  apply andb_true_iff in H as [Hl%bool_decide_eq_true Hc%bool_decide_eq_true].
  destruct (builds_in_use_are_kept (play_builds admitted_turns) (play_builds launch_turns) tag_a d 0 1
    (played_reachable _) launch_is_a_step Hd Hl) as (d' & Hd' & Hl' & _); [unfold shares; by rewrite Hc|].
  exists d'. exact (conj Hd' Hl').
Defined.

Lemma every_launch_finds_its_program_witness :
  launches (world (play_builds launch_turns)) <> [] /\
  Forall (fun found => found = true) (launches (world (play_builds launch_turns))).
Proof.
  split; [vm_compute; discriminate|]. exact (every_launch_finds_its_program _ (played_reachable launch_turns)).
Defined.

(** A pin that is set while a prune is under way comes too late: the prune has read which build is pinned,
    and setting up neither selects nor holds the build it installs. *)
Definition pin_turns : list BuildTurn :=
  [BuildTurn_start 1 (map (fun tag => Task_install [7] (program_of tag)) [tag_a; tag_b; tag_c; tag_d]); BuildTurn_act 1 100 smooth;
   BuildTurn_start 2 [Task_prune "0000000000000000"]; BuildTurn_act 2 6 smooth;
   BuildTurn_start 3 [Task_install [7] (program_of tag_a)]; BuildTurn_act 3 100 smooth;
   BuildTurn_act 2 100 smooth].

Lemma pin_may_come_too_late : exists c, reachable c /\
  next_op 2 c = None /\ pinned_record (world c) = Some (bytes tag_a) /\ entries (world c) !! tag_a = None.
Proof.
  exists (play_builds pin_turns). split; [apply played_reachable|]. vm_compute. done.
Qed.

(** Pruned alone: four builds, the pinned one kept *)
Definition four_builds : Versions := world (play_builds (take 2 pin_turns)).

Lemma prune_removes_the_oldest_idle_witness : exists w' n kept gone,
  run build_perform 5 (fun _ => smooth) 0 (prune "0000000000000000") four_builds =
    Some (w', Ok (E := ErrorKind) (sort (map snd gone)), n) /\
  length kept = 2%nat /\ (forall k g : N * string, k ∈ kept -> g ∈ gone -> cmp_le g k).
Proof.
  destruct (prune_removes_the_oldest_idle 5 (fun _ => smooth) four_builds "0000000000000000" (listing four_builds))
    as (w' & n & kept & gone & H1 & _ & H2 & H3 & _).
  - exact (proj1 (reachable_proved _ (played_reachable (take 2 pin_turns)))).
  - intros n. reflexivity.
  - vm_compute. reflexivity.
  - reflexivity.
  - reflexivity.
  - exists w', n, kept, gone. split; [exact H1|]. split; [|exact H3]. rewrite H2. vm_compute. reflexivity.
Defined.
