(* ===== verification/Frame.v ===== *)
(** tui/frame.rs: the grid of cells a view is drawn on, with the drawing of glyphs, lines, paragraphs, panels
    and lists.  How wide a text is and how it divides into graphemes are unicode_width and
    unicode_segmentation, the class [FrameText]. *)

From Stdlib Require Import NArith Lia String Ascii.
From stdpp Require Import base list strings.
From S2P Require Import Prelude RustStr Dashboard.

Class FrameText := {
  str_width : string -> N;
  graphemes : string -> list string
}.

(** ** Data *)

Definition MARKER_COLUMNS : N := 2.

Inductive Wrap := Wrap_Clip | Wrap_Fold.
(** Each part a [u8] *)
Inductive Color := Color_Rgb (red green blue : ascii).

Record Style := mkStyle { foreground : option Color; background : option Color; bold : bool }.
Definition Style_default : Style := mkStyle None None false.

Record Flow := mkFlow { Flow_style : Style; Flow_scroll : N; Flow_wrap : Wrap }.
Record PanelStyle := mkPanelStyle { PanelStyle_normal : Style; PanelStyle_border : Style }.
Record ListStyle := mkListStyle {
  ListStyle_selected : option N; ListStyle_normal : Style; ListStyle_highlight : Style
}.

#[export] Instance Wrap_eq_dec : EqDecision Wrap.
Proof. solve_decision. Defined.
#[export] Instance Color_eq_dec : EqDecision Color.
Proof. solve_decision. Defined.
#[export] Instance Style_eq_dec : EqDecision Style.
Proof. solve_decision. Defined.

Definition Style_fg (self : Style) (color : Color) : Style := mkStyle (Some color) (background self) (bold self).
Definition Style_bg (self : Style) (color : Color) : Style := mkStyle (foreground self) (Some color) (bold self).
Definition Style_bold (self : Style) : Style := mkStyle (foreground self) (background self) true.

Definition overlay (self other : Style) : Style :=
  mkStyle (match foreground other with Some color => Some color | None => foreground self end)
    (match background other with Some color => Some color | None => background self end)
    (bold self || bold other).

(** A [DisplayText] is the string [display] built. *)
Record Span := mkSpan { Span_text : string; Span_style : Style }.
Definition Span_styled (text : string) (style : Style) : Span := mkSpan (display text) style.

Record TextLine := mkLine { spans : list Span }.
Definition Line_styled (text : string) (style : Style) : TextLine := mkLine [Span_styled text style].
Definition Line_from (text : string) : TextLine := Line_styled text Style_default.

Record Cell := mkCell { symbol : string; style : Style; continuation : bool }.
#[export] Instance Cell_eq_dec : EqDecision Cell.
Proof. solve_decision. Defined.

Definition Cell_blank (style : Style) : Cell := mkCell (display " ") style false.

Record Grid := mkGrid { extent : Extent; cells : list Cell }.

Definition Grid_new (width height : N) : result Grid GeometryRefusal :=
  let? extent := Extent_new width height in
  Ok (mkGrid extent (replicate (N.to_nat (Extent_cells extent)) (Cell_blank Style_default))).

Definition Grid_area (self : Grid) : Rect := Extent_area (extent self).

Definition Grid_row (self : Grid) (y : N) : option (list Cell) :=
  let width := Rect_width (Grid_area self) in
  start ← checked_mul usize_max y width;
  end_ ← checked_add usize_max start width;
  if y <? Rect_height (Grid_area self)
  then if end_ <=? N.of_nat (length (cells self))
       then Some (take (N.to_nat width) (drop (N.to_nat start) (cells self)))
       else None
  else None.

(** ** Drawing *)

(** [start..end] *)
Definition range (start end_ : N) : list N := map (fun i => start + N.of_nat i) (seq 0 (N.to_nat (end_ - start))).

Definition erase (cells : list Cell) (index : nat) : list Cell :=
  match cells !! index with
  | None => cells
  | Some original =>
      let style := style original in
      let cells :=
        if continuation original
        then match index with O => cells | S previous => <[previous := Cell_blank style]> cells end
        else cells in
      let cells := <[index := Cell_blank style]> cells in
      match cells !! S index with
      | Some next => if continuation next then <[S index := Cell_blank style]> cells else cells
      | None => cells
      end
  end.

Section drawing.
Context `{FrameText}.

Definition put (self : Grid) (x y : N) (text : string) (style : Style) : Grid * result N GeometryRefusal :=
  match Glyph_new (str_width text) (str_len text) with
  | Err refusal => (self, Err refusal)
  | Ok glyph =>
      match Extent_place (extent self) x y glyph with
      | Err refusal => (self, Err refusal)
      | Ok placement =>
          let at_ := N.to_nat (index placement) in
          let erased := erase (cells self) at_ in
          let erased := if 1 <? Glyph_columns glyph then erase erased (S at_) else erased in
          if (at_ <? length erased)%nat then
            let written := <[at_ := mkCell text style false]> erased in
            if 1 <? Glyph_columns glyph then
              if (S at_ <? length written)%nat
              then (mkGrid (extent self) (<[S at_ := mkCell (display " ") style true]> written), Ok (next placement))
              else (mkGrid (extent self) written, Err GeometryRefusal_Outside)
            else (mkGrid (extent self) written, Ok (next placement))
          else (mkGrid (extent self) erased, Err GeometryRefusal_Outside)
      end
  end.

(** [let _clipped = self.put(..)] *)
Definition put_ (self : Grid) (x y : N) (text : string) (style : Style) : Grid := fst (put self x y text style).

Definition fill (self : Grid) (area : Rect) (style : Style) : Grid :=
  let area := Rect_clip area (extent self) in
  let blank := display " " in
  fold_left (fun self y =>
    fold_left (fun self x => put_ self x y blank style)
      (range (Rect_x area) (saturating_add u16_max (Rect_x area) (Rect_width area))) self)
    (range (Rect_y area) (saturating_add u16_max (Rect_y area) (Rect_height area))) self.

Definition glyph_text (text : string) : string * N :=
  let text := if str_width text =? 0 then ("◌" ++ text)%string else text in
  let escaped := display text in
  match Glyph_new (str_width escaped) (str_len escaped) with
  | Ok glyph => (escaped, Glyph_columns glyph)
  | Err _ => (display "?", 1)
  end.

(** The graphemes of a line, each with the style of its span *)
Definition line_graphemes (line : TextLine) : list (string * Style) :=
  flat_map (fun span => map (fun grapheme => (grapheme, Span_style span)) (graphemes (Span_text span))) (spans line).

(** What drawing a part of a paragraph comes to: on to the next line, from row [row], or the end *)
Inductive Drawn := Drawn_line (grid : Grid) (row : N) | Drawn_all (grid : Grid).

Fixpoint paragraph_line (area : Rect) (flow : Flow) (end_ first last_ : N) (line : list (string * Style))
    (self : Grid) (row x : N) : Drawn :=
  match line with
  | [] => Drawn_line self row
  | (grapheme, span_style) :: line =>
      let '(text, columns) := glyph_text grapheme in
      let beyond := end_ <? saturating_add u16_max x columns in
      if beyond && bool_decide (Flow_wrap flow = Wrap_Clip) then Drawn_line self row else
      let row := if beyond then saturating_add usize_max row 1 else row in
      let x := if beyond then Rect_x area else x in
      if last_ <=? row then Drawn_all self else
      let self :=
        if first <=? row then
          let offset := saturating_sub row first in
          if offset <=? u16_max
          then put_ self x (saturating_add u16_max (Rect_y area) offset) text (overlay (Flow_style flow) span_style)
          else self
        else self in
      paragraph_line area flow end_ first last_ line self row (saturating_add u16_max x columns)
  end.

Fixpoint paragraph_lines (area : Rect) (flow : Flow) (end_ first last_ : N) (lines : list TextLine)
    (self : Grid) (row : N) : Grid :=
  match lines with
  | [] => self
  | line :: lines =>
      match paragraph_line area flow end_ first last_ (line_graphemes line) self row (Rect_x area) with
      | Drawn_all self => self
      | Drawn_line self row =>
          let row := saturating_add usize_max row 1 in
          if last_ <=? row then self else paragraph_lines area flow end_ first last_ lines self row
      end
  end.

Definition paragraph (self : Grid) (area : Rect) (lines : list TextLine) (flow : Flow) : Grid :=
  let area := Rect_clip area (extent self) in
  if (Rect_width area =? 0) || (Rect_height area =? 0) then self else
  let end_ := saturating_add u16_max (Rect_x area) (Rect_width area) in
  let first := Flow_scroll flow in
  let last_ := saturating_add usize_max first (Rect_height area) in
  paragraph_lines area flow end_ first last_ lines self 0.

Definition draw_line (self : Grid) (area : Rect) (line : TextLine) (base : Style) : Grid :=
  paragraph self area [line] (mkFlow base 0 Wrap_Clip).

Definition panel (self : Grid) (area : Rect) (title : string) (palette : PanelStyle) : Grid * Rect :=
  let area := Rect_clip area (extent self) in
  let self := fill self area (PanelStyle_normal palette) in
  if (Rect_width area =? 0) || (Rect_height area =? 0) then (self, Rect_inset area) else
  let border := PanelStyle_border palette in
  let right := saturating_sub (saturating_add u16_max (Rect_x area) (Rect_width area)) 1 in
  let bottom := saturating_sub (saturating_add u16_max (Rect_y area) (Rect_height area)) 1 in
  let horizontal := display "─" in
  let vertical := display "│" in
  let self := fold_left (fun self x =>
    put_ (put_ self x (Rect_y area) horizontal border) x bottom horizontal border)
    (range (Rect_x area) (right + 1)) self in
  let self := fold_left (fun self y =>
    put_ (put_ self (Rect_x area) y vertical border) right y vertical border)
    (range (Rect_y area) (bottom + 1)) self in
  let self := fold_left (fun self '(x, y, glyph) => put_ self x y (display glyph) border)
    [(Rect_x area, Rect_y area, "╭"%string); (right, Rect_y area, "╮"%string);
     (Rect_x area, bottom, "╰"%string); (right, bottom, "╯"%string)] self in
  let inner := Rect_inset area in
  (draw_line self (mkRect (Rect_x inner) (Rect_y area) (Rect_width inner) 1) (Line_from title) border, inner).

(** The first item shown, so that the selected one fits: the [while] loop, with at most [fuel] rounds *)
Fixpoint list_start (fuel : nat) (items : list (list TextLine)) (limit selected height start : N) : N :=
  match fuel with
  | O => start
  | S fuel =>
      if (limit <? height) && (start <? selected)
      then list_start fuel items limit selected
             (saturating_sub height (match items !! N.to_nat start with Some item => N.of_nat (length item) | None => 0 end))
             (saturating_add usize_max start 1)
      else start
  end.

(** The lines of one item; [None] when the area is full *)
Fixpoint list_item (area : Rect) (active : bool) (style : Style) (offset : nat) (lines : list TextLine)
    (self : Grid) (row : N) : Grid * option N :=
  match lines with
  | [] => (self, Some row)
  | line :: lines =>
      if Rect_height area <=? row then (self, None) else
      let row_area := mkRect (Rect_x area) (saturating_add u16_max (Rect_y area) row) (Rect_width area) 1 in
      let self := fill self row_area style in
      let '(marker, text) := Rect_columns row_area MARKER_COLUMNS in
      let self := if active && (offset =? 0)%nat then draw_line self marker (Line_from "› ") style else self in
      let self := draw_line self text line style in
      list_item area active style (S offset) lines self (saturating_add u16_max row 1)
  end.

Fixpoint list_items (area : Rect) (palette : ListStyle) (index_ : N) (items : list (list TextLine))
    (self : Grid) (row : N) : Grid :=
  match items with
  | [] => self
  | item :: items =>
      let active := bool_decide (ListStyle_selected palette = Some index_) in
      let style := if active then overlay (ListStyle_normal palette) (ListStyle_highlight palette)
                   else ListStyle_normal palette in
      match list_item area active style 0 item self row with
      | (self, None) => self
      | (self, Some row) => list_items area palette (index_ + 1) items self row
      end
  end.

Definition draw_list (self : Grid) (area : Rect) (items : list (list TextLine)) (palette : ListStyle) : Grid :=
  let area := Rect_clip area (extent self) in
  let start :=
    match ListStyle_selected palette with
    | Some selected =>
        if selected <? N.of_nat (length items) then
          let height := fold_right N.add 0 (map (fun item => N.of_nat (length item)) (take (S (N.to_nat selected)) items)) in
          list_start (N.to_nat selected) items (Rect_height area) selected height 0
        else 0
    | None => 0
    end in
  list_items area palette start (drop (N.to_nat start) items) self 0.
End drawing.
