(* ===== verification/FrameDraws.v ===== *)
(** A frame is whole whatever is drawn on it: each wide glyph has its second cell beside it on the same row,
    no second cell is without its first, and so each row prints exactly as wide as the frame is.  Putting one
    glyph touches the cells it covers, and every operation draws within the area it was given. *)

From Stdlib Require Import NArith Lia String Ascii.
From stdpp Require Import base list strings.
From S2P Require Import Prelude RustStr Dashboard Frame.

(** What is asked of unicode_width: the glyphs drawn by the frame itself are one column wide. *)
Definition frame_glyphs : list string := [" "; "?"; "─"; "│"; "╭"; "╮"; "╰"; "╯"]%string.
Class FrameTextLaws `(frame_text : FrameText) : Prop := {
  one_column : forall glyph, glyph ∈ frame_glyphs -> str_width glyph = 1
}.

Section whole.
Context `{laws : FrameTextLaws}.

(** ** Definitions *)

Definition wide (c : Cell) : bool := negb (continuation c) && (str_width (symbol c) =? 2).
Definition narrow (c : Cell) : bool := negb (continuation c) && negb (str_width (symbol c) =? 2).

(** The values of [DisplayText]: only [display] builds them. *)
Definition displayed (text : string) : Prop := exists raw, text = display raw.

Definition sound_cell (c : Cell) : Prop :=
  displayed (symbol c) /\
  if continuation c then symbol c = display " "
  else exists glyph, Glyph_new (str_width (symbol c)) (str_len (symbol c)) = Ok glyph.

Record whole_cells (w : nat) (l : list Cell) : Prop := {
  whole_wide : forall i c, l !! i = Some c -> wide c = true ->
    (S i mod w <> 0)%nat /\ exists n, l !! S i = Some n /\ continuation n = true;
  whole_continuation : forall i c, l !! i = Some c -> continuation c = true ->
    exists j p, i = S j /\ l !! j = Some p /\ wide p = true;
  whole_sound : forall i c, l !! i = Some c -> sound_cell c
}.

Record whole (g : Grid) : Prop := {
  whole_extent : exists w h, Extent_new w h = Ok (extent g);
  whole_length : length (cells g) = N.to_nat (Extent_width (extent g) * Extent_height (extent g));
  whole_grid : whole_cells (N.to_nat (Extent_width (extent g))) (cells g)
}.

(** How many columns a cell takes when its row is printed *)
Definition printed (c : Cell) : N := if continuation c then 0 else str_width (symbol c).
Definition row_columns (row : list Cell) : N := fold_right N.add 0 (map printed row).

(** ** Lemmas *)

Lemma space_width : str_width " " = 1.
Proof. apply one_column. left. Qed.

Lemma display_space : display " " = " "%string.
Proof. reflexivity. Qed.

Lemma blank_narrow style : narrow (Cell_blank style) = true.
Proof. unfold narrow. cbn [Cell_blank continuation symbol negb andb]. by rewrite display_space, space_width. Qed.

Lemma blank_sound style : sound_cell (Cell_blank style).
Proof.
  unfold sound_cell. cbn [Cell_blank continuation symbol]. split; [by eexists|].
  rewrite display_space, space_width. by eexists.
Qed.

Lemma cell_kind c : (wide c = true /\ narrow c = false /\ continuation c = false) \/
  (wide c = false /\ narrow c = true /\ continuation c = false) \/
  (wide c = false /\ narrow c = false /\ continuation c = true).
Proof. unfold wide, narrow. destruct (continuation c), (str_width (symbol c) =? 2); cbn; auto. Qed.

Ltac kinds :=
  repeat match goal with
  | H : narrow ?c = true |- _ => destruct (cell_kind c) as [(? & ? & ?)|[(? & ? & ?)|(? & ? & ?)]]; try congruence; clear H
  end.

Lemma narrow_wide c : narrow c = true -> wide c = false.
Proof. intros H. by kinds. Qed.
Lemma narrow_continuation c : narrow c = true -> continuation c = false.
Proof. intros H. by kinds. Qed.
Lemma wide_continuation c : wide c = true -> continuation c = false.
Proof. unfold wide. by destruct (continuation c). Qed.

Lemma insert_cases {A} (l : list A) i x j y :
  <[i := x]> l !! j = Some y -> (j = i /\ y = x /\ (i < length l)%nat) \/ (j <> i /\ l !! j = Some y).
Proof. intros [(-> & -> & ?)|[? ?]]%list_lookup_insert_Some; auto. Qed.

(** A narrow cell may be replaced by another. *)
Lemma whole_narrow w l i c c' :
  whole_cells w l -> l !! i = Some c -> narrow c = true -> narrow c' = true -> sound_cell c' ->
  whole_cells w (<[i := c']> l).
Proof.
  intros [Hw Hc Hs] Hi Hn Hn' Hs'. split.
  - intros j d [(-> & -> & _)|[Hj Hd]]%insert_cases Hwide; [by rewrite narrow_wide in Hwide|].
    destruct (Hw j d Hd Hwide) as (Hm & n & Hnx & Hcn). split; [done|]. exists n. split; [|done].
    rewrite list_lookup_insert_ne; [done|]. intros ->. apply narrow_continuation in Hn. congruence.
  - intros j d [(-> & -> & _)|[Hj Hd]]%insert_cases Hcont; [by rewrite narrow_continuation in Hcont|].
    destruct (Hc j d Hd Hcont) as (k & p & -> & Hp & Hwp). exists k, p. split; [done|]. split; [|done].
    rewrite list_lookup_insert_ne; [done|]. intros ->. apply narrow_wide in Hn. congruence.
  - intros j d [(-> & -> & _)|[Hj Hd]]%insert_cases; [done|by apply (Hs j)].
Qed.

(** A wide glyph may be replaced by two narrow cells, *)
Lemma whole_split w l i c n a b :
  whole_cells w l -> l !! i = Some c -> wide c = true -> l !! S i = Some n ->
  narrow a = true -> narrow b = true -> sound_cell a -> sound_cell b ->
  whole_cells w (<[S i := b]> (<[i := a]> l)).
Proof.
  intros [Hw Hc Hs] Hi Hwide Hnx Ha Hb Hsa Hsb.
  destruct (Hw i c Hi Hwide) as (_ & n' & Hn' & Hcn). assert (n' = n) as -> by congruence. clear Hn'. split.
  - intros j d [(-> & -> & _)|[Hj [(-> & -> & _)|[Hj' Hd]]%insert_cases]]%insert_cases Hwd;
      [by rewrite narrow_wide in Hwd..|].
    destruct (Hw j d Hd Hwd) as (Hm & m & Hmx & Hcm). split; [done|]. exists m. split; [|done].
    assert (i <> S j) by (intros ->; apply wide_continuation in Hwide; congruence).
    by rewrite !list_lookup_insert_ne by lia.
  - intros j d [(-> & -> & _)|[Hj [(-> & -> & _)|[Hj' Hd]]%insert_cases]]%insert_cases Hcd;
      [by rewrite narrow_continuation in Hcd..|].
    destruct (Hc j d Hd Hcd) as (k & p & -> & Hp & Hwp). exists k, p. split; [done|]. split; [|done].
    assert (S i <> k) by (intros <-; apply wide_continuation in Hwp; congruence).
    by rewrite !list_lookup_insert_ne by lia.
  - intros j d [(-> & -> & _)|[Hj [(-> & -> & _)|[Hj' Hd]]%insert_cases]]%insert_cases; [done..|by apply (Hs j)].
Qed.

(** and two narrow cells of one row by a wide glyph. *)
Lemma whole_join w l i c n a b :
  whole_cells w l -> l !! i = Some c -> l !! S i = Some n -> narrow c = true -> narrow n = true ->
  wide a = true -> continuation b = true -> sound_cell a -> sound_cell b -> (S i mod w <> 0)%nat ->
  whole_cells w (<[S i := b]> (<[i := a]> l)).
Proof.
  intros [Hw Hc Hs] Hi Hnx Hnc Hnn Ha Hb Hsa Hsb Hm.
  assert (Hwb : wide b = false) by (unfold wide; by rewrite Hb). apply wide_continuation in Ha as Hca.
  assert (Hli : (i < length l)%nat) by (by apply lookup_lt_Some in Hi).
  assert (Hls : (S i < length l)%nat) by (by apply lookup_lt_Some in Hnx). split.
  - intros j d [(-> & -> & _)|[Hj [(-> & -> & _)|[Hj' Hd]]%insert_cases]]%insert_cases Hwd; [congruence| |].
    + split; [done|]. exists b. by rewrite list_lookup_insert_eq by (rewrite length_insert; lia).
    + destruct (Hw j d Hd Hwd) as (Hmj & m & Hmx & Hcm). split; [done|]. exists m. split; [|done].
      assert (i <> S j) by (intros ->; apply narrow_continuation in Hnc; congruence).
      by rewrite !list_lookup_insert_ne by lia.
  - intros j d [(-> & -> & _)|[Hj [(-> & -> & _)|[Hj' Hd]]%insert_cases]]%insert_cases Hcd; [|congruence|].
    + exists i, a. split; [done|]. split; [|done]. rewrite list_lookup_insert_ne by lia. by apply list_lookup_insert_eq.
    + destruct (Hc j d Hd Hcd) as (k & p & -> & Hp & Hwp). exists k, p. split; [done|]. split; [|done].
      assert (S i <> k) by (intros <-; apply narrow_wide in Hnn; congruence).
      by rewrite !list_lookup_insert_ne by lia.
  - intros j d [(-> & -> & _)|[Hj [(-> & -> & _)|[Hj' Hd]]%insert_cases]]%insert_cases; [done..|by apply (Hs j)].
Qed.

(** What is beside a cell of a whole frame changes only when it is the other half of a wide glyph. *)
Definition kept (c c' : Cell) : Prop := c' = c \/ narrow c = false /\ exists style, c' = Cell_blank style.

Lemma kept_refl c : kept c c.
Proof. by left. Qed.
Lemma kept_trans a b c : kept a b -> kept b c -> kept a c.
Proof.
  intros [-> |[Ha (s & ->)]] Hbc; [done|]. destruct Hbc as [-> |[Hb _]]; [by right; eauto|].
  by rewrite blank_narrow in Hb.
Qed.

Lemma no_continuation w l i c n :
  whole_cells w l -> l !! i = Some c -> wide c = false -> l !! S i = Some n -> continuation n = false.
Proof.
  intros Hl Hi Hc Hn. destruct (continuation n) eqn:E; [|done].
  destruct (whole_continuation _ _ Hl _ _ Hn E) as (j & p & [= <-] & Hp & Hwp). congruence.
Qed.

(** Erasing blanks one narrow cell or both halves of a wide glyph. *)
Lemma erase_cases w l i :
  whole_cells w l ->
  (l !! i = None /\ erase l i = l) \/
  (exists c, l !! i = Some c /\ narrow c = true /\ erase l i = <[i := Cell_blank (style c)]> l) \/
  (exists j c n st, (i = j \/ i = S j) /\ l !! j = Some c /\ wide c = true /\ l !! S j = Some n /\ continuation n = true /\ erase l i = <[S j := Cell_blank st]> (<[j := Cell_blank st]> l)).
Proof.
  intros Hl. unfold erase. destruct (l !! i) as [c|] eqn:Hi; [right|by left]. cbv zeta.
  destruct (cell_kind c) as [(Hw & Hn & Hc)|[(Hw & Hn & Hc)|(Hw & Hn & Hc)]]; rewrite Hc; [right|left|right].
  - destruct (whole_wide _ _ Hl _ _ Hi Hw) as (_ & n & Hnx & Hcn). exists i, c, n, (style c).
    rewrite list_lookup_insert_ne by lia. rewrite Hnx, Hcn. by auto 10.
  - exists c. split; [done|]. split; [done|]. rewrite list_lookup_insert_ne by lia.
    destruct (l !! S i) as [n|] eqn:Hnx; [|done]. by rewrite (no_continuation _ _ _ _ _ Hl Hi Hw Hnx).
  - destruct (whole_continuation _ _ Hl _ _ Hi Hc) as (j & p & -> & Hp & Hwp). exists j, p, c, (style c).
    rewrite !list_lookup_insert_ne by lia.
    assert (match l !! S (S j) with Some n => continuation n = false | None => True end) as Hnx.
    { destruct (l !! S (S j)) as [n|] eqn:E; [|done]. by apply (no_continuation _ _ _ _ _ Hl Hi Hw E). }
    destruct (l !! S (S j)) as [n|]; [rewrite Hnx|]; by auto 10.
Qed.

Record erased (w i : nat) (l l' : list Cell) : Prop := {
  erased_whole : whole_cells w l';
  erased_length : length l' = length l;
  erased_narrow : forall c, l' !! i = Some c -> narrow c = true;
  erased_kept : forall j c, j <> i -> l !! j = Some c -> exists c', l' !! j = Some c' /\ kept c c'
}.

Lemma erase_erased w l i : whole_cells w l -> erased w i l (erase l i).
Proof.
  intros Hl. destruct (erase_cases w l i Hl) as [(Hi & ->)|[(c & Hi & Hn & ->)|(j & c & n & st & Hij & Hj & Hw & Hnx & Hcn & ->)]].
  - split; [done|done|congruence|]. intros j c _ Hc. eauto using kept_refl.
  - split; [|by rewrite length_insert| |].
    + apply (whole_narrow w l i c); [done..|apply blank_narrow|apply blank_sound].
    + intros d [(_ & -> & _)|[? _]]%insert_cases; [apply blank_narrow|done].
    + intros j d Hj Hd. rewrite list_lookup_insert_ne by done. eauto using kept_refl.
  - assert (Hnn : narrow n = false) by (destruct (narrow n) eqn:E; [|done]; apply narrow_continuation in E; congruence).
    assert (Hnc : narrow c = false) by (destruct (narrow c) eqn:E; [|done]; apply narrow_wide in E; congruence).
    split; [|by rewrite !length_insert| |].
    + apply (whole_split w l j c n); eauto using blank_narrow, blank_sound.
    + intros d [(_ & -> & _)|[? [(_ & -> & _)|[? _]]%insert_cases]]%insert_cases; [apply blank_narrow..|].
      destruct Hij; congruence.
    + intros k d Hk Hd. apply lookup_lt_Some in Hj as Hjl, Hnx as Hnl.
      destruct (decide (k = S j)) as [->|Hkj].
      { rewrite list_lookup_insert_eq by (rewrite length_insert; lia).
        eexists. split; [done|]. right. split; [congruence|by eexists]. }
      rewrite list_lookup_insert_ne by done. destruct (decide (k = j)) as [->|Hkj'].
      { rewrite list_lookup_insert_eq by lia. eexists. split; [done|]. right. split; [congruence|by eexists]. }
      rewrite list_lookup_insert_ne by done. eauto using kept_refl.
Qed.

Lemma narrow_kept c c' : narrow c = true -> kept c c' -> c' = c.
Proof. by intros Hn [-> |[Hf _]]; [|congruence]. Qed.
End whole.

Section draws.
Context `{laws : FrameTextLaws}.

(** ** Definitions *)

Definition cell_at (g : Grid) (x y : N) : option Cell :=
  if (x <? Extent_width (extent g)) && (y <? Extent_height (extent g))
  then cells g !! N.to_nat (y * Extent_width (extent g) + x) else None.

(** What drawing within [area] does to a grid *)
Record draws (area : N -> N -> Prop) (g g' : Grid) : Prop := {
  draws_whole : whole g';
  draws_extent : extent g' = extent g;
  draws_kept : forall x y c, ~ area x y -> cell_at g x y = Some c -> exists c', cell_at g' x y = Some c' /\ kept c c'
}.

Definition covered (x y columns : N) (x' y' : N) : Prop := y' = y /\ x <= x' < x + columns.

(** ** Lemmas *)

Lemma draws_refl area g : whole g -> draws area g g.
Proof. intros Hg. split; [done|done|]. eauto using kept_refl. Qed.

Lemma draws_trans area a b c : draws area a b -> draws area b c -> draws area a c.
Proof.
  intros [_ Eab Kab] [Wc Ebc Kbc]. split; [done|congruence|]. intros x y d Ho Hd.
  destruct (Kab x y d Ho Hd) as (d' & Hd' & K). destruct (Kbc x y d' Ho Hd') as (e & He & K').
  eauto using kept_trans.
Qed.

Lemma draws_weaken (area area' : N -> N -> Prop) a b :
  (forall x y, area x y -> area' x y) -> draws area a b -> draws area' a b.
Proof. intros Hi [W E K]. split; [done|done|]. eauto. Qed.

Lemma draws_fold {A} area (f : Grid -> A -> Grid) l g :
  (forall g a, whole g -> a ∈ l -> draws area g (f g a)) -> whole g -> draws area g (fold_left f l g).
Proof.
  revert g. induction l as [|a l IH]; intros g Hf Hg; cbn [fold_left]; [by apply draws_refl|].
  assert (D : draws area g (f g a)) by (apply Hf; [done|left]).
  apply (draws_trans _ _ _ _ D), IH; [|apply D]. intros g' b Hw Hb. apply Hf; [done|by right].
Qed.

Lemma range_spec a b i : i ∈ range a b <-> a <= i < b.
Proof.
  unfold range. rewrite list_elem_of_fmap. split.
  - intros (n & -> & Hn%elem_of_seq). lia.
  - intros Hi. exists (N.to_nat (i - a)). split; [lia|]. apply elem_of_seq. lia.
Qed.

Lemma whole_bounds g : whole g -> Extent_width (extent g) <= 512 /\ Extent_height (extent g) <= 256.
Proof.
  intros [(w & h & E) _ _]. revert E. unfold Extent_new, MAX_COLUMNS, MAX_LINES.
  destruct (N.ltb_spec 512 w); [done|]. destruct (N.ltb_spec 256 h); [done|]. by intros [= <-].
Qed.

(** Cells are at one place each. *)
Lemma cells_apart w x y x' y' : x < w -> x' < w -> ~ (x = x' /\ y = y') -> N.to_nat (y * w + x) <> N.to_nat (y' * w + x').
Proof. intros Hx Hx' Hne E. apply Hne. assert (y * w + x = y' * w + x') by lia. assert (y = y') by nia. split; [nia|done]. Qed.

Lemma place_Ok g x y glyph p :
  whole g -> 0 < Glyph_columns glyph -> Extent_place (extent g) x y glyph = Ok p ->
  y < Extent_height (extent g) /\ x + Glyph_columns glyph <= Extent_width (extent g) /\
  N.to_nat (index p) = N.to_nat (y * Extent_width (extent g) + x) /\ next p = x + Glyph_columns glyph.
Proof.
  intros Hg Hc. destruct (whole_bounds g Hg) as [Bw Bh]. unfold Extent_place.
  destruct (checked_add u16_max x (Glyph_columns glyph)) as [n|] eqn:En; [|done].
  apply checked_add_Some in En as [-> _].
  destruct (N.leb_spec (Extent_height (extent g)) y); cbn [orb]; [done|].
  destruct (N.ltb_spec (Extent_width (extent g)) (x + Glyph_columns glyph)); [done|].
  intros [= <-]. cbn [index next]. unfold saturating_add, saturating_mul, usize_max, u64_max.
  assert (y * Extent_width (extent g) <= 256 * 512) by nia. rewrite !N.min_l by lia. done.
Qed.

Lemma Glyph_new_columns columns bytes glyph :
  Glyph_new columns bytes = Ok glyph -> Glyph_columns glyph = columns /\ (columns = 1 \/ columns = 2).
Proof.
  unfold Glyph_new. destruct (_ || _); [done|].
  destruct (N.eqb_spec columns 1); [intros [= <-]; auto|]. destruct (N.eqb_spec columns 2); [intros [= <-]; auto|done].
Qed.

Lemma whole_set g cells' :
  whole g -> length cells' = length (cells g) -> whole_cells (N.to_nat (Extent_width (extent g))) cells' ->
  whole (mkGrid (extent g) cells').
Proof. intros [E L W] HL HW. split; cbn [extent cells]; [done|by rewrite HL|done]. Qed.

Lemma cell_at_Some g x y c :
  cell_at g x y = Some c <-> x < Extent_width (extent g) /\ y < Extent_height (extent g) /\
    cells g !! N.to_nat (y * Extent_width (extent g) + x) = Some c.
Proof.
  unfold cell_at. destruct (N.ltb_spec x (Extent_width (extent g))), (N.ltb_spec y (Extent_height (extent g)));
    cbn [andb]; split; try done; try (intros (? & ? & ?); done); try lia. all: intros; naive_solver lia.
Qed.

Lemma next_cell w x y : N.to_nat (y * w + (x + 1)) = S (N.to_nat (y * w + x)).
Proof. lia. Qed.

Lemma next_in_row w x y : x + 1 < w -> (S (N.to_nat (y * w + x)) mod N.to_nat w <> 0)%nat.
Proof.
  intros Hx. rewrite <- next_cell. rewrite <- N2Nat.inj_mod.
  rewrite N.add_comm, N.Div0.mod_add, N.mod_small by lia. lia.
Qed.

(** *** Putting one glyph *)

(** What putting a glyph at a place comes to: the cells before, with its place erased, then the glyph. *)
Lemma put_Err g x y text st refusal : snd (put g x y text st) = Err refusal -> whole g -> fst (put g x y text st) = g.
Proof.
  unfold put. destruct (Glyph_new (str_width text) (str_len text)) as [glyph|r] eqn:EG; [|done].
  destruct (Extent_place (extent g) x y glyph) as [p|r] eqn:EP; [|done]. cbv zeta.
  intros HE Hg. exfalso. revert HE. apply Glyph_new_columns in EG as [Ec Hc].
  destruct (place_Ok g x y glyph p Hg) as (Hy & Hx & Ei & _); [lia|done|].
  assert (Hlen : (N.to_nat (index p) < length (cells g))%nat) by (rewrite (whole_length g Hg), Ei; nia).
  pose proof (erase_erased _ _ (N.to_nat (index p)) (whole_grid g Hg)) as E1.
  destruct (N.ltb_spec 1 (Glyph_columns glyph)).
  - pose proof (erase_erased _ _ (S (N.to_nat (index p))) (erased_whole _ _ _ _ E1)) as E2.
    rewrite length_insert, (erased_length _ _ _ _ E2), (erased_length _ _ _ _ E1).
    destruct (Nat.ltb_spec (N.to_nat (index p)) (length (cells g))); [|lia].
    destruct (Nat.ltb_spec (S (N.to_nat (index p))) (length (cells g))) as [|Hn]; [done|].
    rewrite (whole_length g Hg), Ei in Hn. nia.
  - rewrite (erased_length _ _ _ _ E1). by destruct (Nat.ltb_spec (N.to_nat (index p)) (length (cells g))); [|lia].
Qed.

Lemma put_narrow g x y text st glyph p :
  whole g -> Glyph_new (str_width text) (str_len text) = Ok glyph -> Extent_place (extent g) x y glyph = Ok p ->
  str_width text = 1 ->
  let i := N.to_nat (y * Extent_width (extent g) + x) in
  fst (put g x y text st) = mkGrid (extent g) (<[i := mkCell text st false]> (erase (cells g) i)).
Proof.
  intros Hg HG HP H1 i. unfold put. rewrite HG, HP. cbv zeta. apply Glyph_new_columns in HG as Hc.
  destruct (place_Ok g x y glyph p Hg) as (Hy & Hx & Ei & _); [lia|done|].
  replace (1 <? Glyph_columns glyph) with false by (symmetry; apply N.ltb_ge; lia).
  rewrite Ei. fold i. rewrite (erased_length _ _ _ _ (erase_erased _ _ i (whole_grid g Hg))).
  destruct (Nat.ltb_spec i (length (cells g))) as [|Hn]; [done|]. rewrite (whole_length g Hg) in Hn. nia.
Qed.

Lemma put_wide g x y text st glyph p :
  whole g -> Glyph_new (str_width text) (str_len text) = Ok glyph -> Extent_place (extent g) x y glyph = Ok p ->
  str_width text = 2 ->
  let i := N.to_nat (y * Extent_width (extent g) + x) in
  fst (put g x y text st) = mkGrid (extent g) (<[S i := mkCell (display " ") st true]>
    (<[i := mkCell text st false]> (erase (erase (cells g) i) (S i)))).
Proof.
  intros Hg HG HP H2 i. unfold put. rewrite HG, HP. cbv zeta. apply Glyph_new_columns in HG as Hc.
  destruct (place_Ok g x y glyph p Hg) as (Hy & Hx & Ei & _); [lia|done|].
  replace (1 <? Glyph_columns glyph) with true by (symmetry; apply N.ltb_lt; lia).
  rewrite Ei. fold i.
  pose proof (erase_erased _ _ i (whole_grid g Hg)) as E1.
  pose proof (erase_erased _ _ (S i) (erased_whole _ _ _ _ E1)) as E2.
  rewrite length_insert, (erased_length _ _ _ _ E2), (erased_length _ _ _ _ E1).
  assert ((S i < length (cells g))%nat) by (rewrite (whole_length g Hg); nia).
  destruct (Nat.ltb_spec i (length (cells g))); [|lia]. by destruct (Nat.ltb_spec (S i) (length (cells g))); [|lia].
Qed.

Lemma put_Ok g x y text st n :
  whole g -> snd (put g x y text st) = Ok n ->
  exists glyph p, Glyph_new (str_width text) (str_len text) = Ok glyph /\ Extent_place (extent g) x y glyph = Ok p /\
    (str_width text = 1 \/ str_width text = 2) /\ x + str_width text <= Extent_width (extent g) /\
    y < Extent_height (extent g).
Proof.
  intros Hg. unfold put. destruct (Glyph_new _ _) as [glyph|] eqn:HG; [|done].
  destruct (Extent_place (extent g) x y glyph) as [p|] eqn:HP; [|done]. intros _. exists glyph, p.
  destruct (Glyph_new_columns _ _ _ HG) as [<- Hc].
  destruct (place_Ok g x y glyph p Hg) as (Hy & Hx & _ & _); [lia|done|]. done.
Qed.

Lemma put_draws g x y text st :
  whole g -> displayed text -> draws (covered x y (str_width text)) g (put_ g x y text st).
Proof.
  intros Hg Hdt. unfold put_.
  destruct (snd (put g x y text st)) as [n|r] eqn:EO; [|rewrite (put_Err _ _ _ _ _ _ EO Hg); by apply draws_refl].
  destruct (put_Ok g x y text st n Hg EO) as (glyph & p & HG & HP & Hc & Hx & Hy).
  set (i := N.to_nat (y * Extent_width (extent g) + x)).
  pose proof (erase_erased _ _ i (whole_grid g Hg)) as E1.
  assert (Hli : (i < length (cells g))%nat) by (rewrite (whole_length g Hg); nia).
  destruct (lookup_lt_is_Some_2 (erase (cells g) i) i) as [d Hd]; [rewrite (erased_length _ _ _ _ E1); done|].
  pose proof (erased_narrow _ _ _ _ E1 d Hd) as Hdn.
  destruct Hc as [H1|H2].
  - rewrite (put_narrow g x y text st glyph p) by done. fold i. split; [|done|].
    + apply whole_set; [done|by rewrite length_insert, (erased_length _ _ _ _ E1)|].
      apply (whole_narrow _ _ i d); [apply E1|done|done|unfold narrow; cbn; by rewrite H1|]. split; [done|]. by exists glyph.
    + intros x' y' c Ho (Hx' & Hy' & Hc)%cell_at_Some. setoid_rewrite cell_at_Some. cbn [extent cells].
      assert (Hne : N.to_nat (y' * Extent_width (extent g) + x') <> i).
      { apply cells_apart; [done|lia|]. intros [-> ->]. apply Ho. unfold covered. lia. }
      rewrite list_lookup_insert_ne by done.
      destruct (erased_kept _ _ _ _ E1 _ c Hne Hc) as (c' & Hc' & K). eauto.
  - rewrite (put_wide g x y text st glyph p) by done. fold i.
    pose proof (erase_erased _ _ (S i) (erased_whole _ _ _ _ E1)) as E2.
    assert (Hsi : (S i < length (cells g))%nat) by (rewrite (whole_length g Hg); nia).
    destruct (erased_kept _ _ _ _ E2 i d (Nat.neq_succ_diag_r i) Hd) as (d' & Hd' & K).
    rewrite (narrow_kept _ _ Hdn K) in Hd'.
    destruct (lookup_lt_is_Some_2 (erase (erase (cells g) i) (S i)) (S i)) as [e He];
      [rewrite (erased_length _ _ _ _ E2), (erased_length _ _ _ _ E1); done|].
    pose proof (erased_narrow _ _ _ _ E2 e He) as Hen. split; [|done|].
    + apply whole_set; [done|by rewrite !length_insert, (erased_length _ _ _ _ E2), (erased_length _ _ _ _ E1)|].
      apply (whole_join _ _ i d e); try done; [apply E2|unfold wide; cbn; by rewrite H2|split; [done|by exists glyph]|by split; [exists " "%string|]|].
      apply next_in_row. lia.
    + intros x' y' c Ho (Hx' & Hy' & Hc)%cell_at_Some. setoid_rewrite cell_at_Some. cbn [extent cells].
      assert (Hne : N.to_nat (y' * Extent_width (extent g) + x') <> i).
      { apply cells_apart; [done|lia|]. intros [-> ->]. apply Ho. unfold covered. lia. }
      assert (Hne' : N.to_nat (y' * Extent_width (extent g) + x') <> S i).
      { unfold i. rewrite <- next_cell. apply cells_apart; [done|lia|]. intros [-> ->]. apply Ho. unfold covered. lia. }
      rewrite !list_lookup_insert_ne by lia.
      destruct (erased_kept _ _ _ _ E1 _ c Hne Hc) as (c' & Hc' & K').
      destruct (erased_kept _ _ _ _ E2 _ c' Hne' Hc') as (c'' & Hc'' & K''). eauto 10 using kept_trans.
Qed.

Lemma put_within (area : N -> N -> Prop) g x y text st :
  whole g -> displayed text -> (forall x' y', covered x y (str_width text) x' y' -> area x' y') -> draws area g (put_ g x y text st).
Proof. intros Hg Hd Ha. eapply draws_weaken; [exact Ha|]. by apply put_draws. Qed.

(** A glyph that fits is put where it was asked for. *)
Lemma put_shows g x y text st :
  whole g -> is_ok (snd (put g x y text st)) = true ->
  cell_at (put_ g x y text st) x y = Some (mkCell text st false).
Proof.
  intros Hg HO. unfold put_.
  apply is_ok_true in HO as [n HO]. destruct (put_Ok g x y text st n Hg HO) as (glyph & p & HG & HP & Hc & Hx & Hy).
  pose proof (erase_erased _ _ (N.to_nat (y * Extent_width (extent g) + x)) (whole_grid g Hg)) as E1.
  assert (Hli : (N.to_nat (y * Extent_width (extent g) + x) < length (cells g))%nat) by (rewrite (whole_length g Hg); nia).
  apply cell_at_Some. destruct Hc as [H1|H2].
  - rewrite (put_narrow g x y text st glyph p) by done. cbn [extent cells]. repeat split; [lia|done|].
    apply list_lookup_insert_eq. by rewrite (erased_length _ _ _ _ E1).
  - rewrite (put_wide g x y text st glyph p) by done. cbn [extent cells]. repeat split; [lia|done|].
    rewrite list_lookup_insert_ne by lia. apply list_lookup_insert_eq.
    pose proof (erase_erased _ _ (S (N.to_nat (y * Extent_width (extent g) + x))) (erased_whole _ _ _ _ E1)) as E2.
    by rewrite (erased_length _ _ _ _ E2), (erased_length _ _ _ _ E1).
Qed.

(** *** Rows *)

(** A row is narrow cells and wide cells with their second halves. *)
Inductive row_ok : list Cell -> Prop :=
| row_nil : row_ok []
| row_narrow c l : narrow c = true -> sound_cell c -> row_ok l -> row_ok (c :: l)
| row_wide c n l : wide c = true -> continuation n = true -> sound_cell c -> row_ok l -> row_ok (c :: n :: l).

Lemma row_ok_columns l : row_ok l -> row_columns l = N.of_nat (length l).
Proof.
  unfold row_columns. induction 1 as [|c l Hn [_ Hs] _ IH|c n l Hw Hc [_ Hs] _ IH]; cbn [map fold_right length]; [done|..];
    rewrite IH; unfold printed.
  - rewrite (narrow_continuation c Hn) in *. destruct Hs as [glyph Hg]. apply Glyph_new_columns in Hg as [_ Hg].
    revert Hn. unfold narrow. rewrite andb_true_iff, !negb_true_iff, N.eqb_neq. intros [_ Hn]. lia.
  - rewrite (wide_continuation c Hw), Hc. revert Hw. unfold wide. rewrite andb_true_iff, N.eqb_eq. lia.
Qed.

Lemma row_ok_parts n l :
  (length l <= n)%nat -> (forall c, l !! 0%nat = Some c -> continuation c = false) ->
  (forall i c, l !! i = Some c -> wide c = true -> exists d, l !! S i = Some d /\ continuation d = true) ->
  (forall i c, l !! S i = Some c -> continuation c = true -> exists p, l !! i = Some p /\ wide p = true) ->
  (forall i c, l !! i = Some c -> sound_cell c) -> row_ok l.
Proof.
  revert l. induction n as [|n IH]; intros [|c l] Hlen H0 Hw Hc Hs; cbn [length] in Hlen; [constructor|lia|constructor|].
  specialize (H0 c eq_refl) as Hcc. destruct (cell_kind c) as [(Hcw & _)|[(_ & Hcn & _)|(_ & _ & ?)]]; [..|congruence].
  - destruct (Hw 0%nat c eq_refl Hcw) as (d & Hd & Hdc). destruct l as [|d' l]; [done|]. injection Hd as ->.
    cbn [length] in Hlen. constructor; [done|done|by apply (Hs 0%nat)|]. apply IH; [lia|..].
    + intros e He. destruct (continuation e) eqn:E; [|done]. destruct (Hc 1%nat e He E) as (p & [= <-] & Hp).
      apply wide_continuation in Hp. congruence.
    + intros i e He. apply (Hw (S (S i)) e He).
    + intros i e He. apply (Hc (S (S i)) e He).
    + intros i e He. apply (Hs (S (S i)) e He).
  - constructor; [done|by apply (Hs 0%nat)|]. apply IH; [lia|..].
    + intros e He. destruct (continuation e) eqn:E; [|done]. destruct (Hc 0%nat e He E) as (p & [= <-] & Hp).
      apply narrow_wide in Hcn. congruence.
    + intros i e He. apply (Hw (S i) e He).
    + intros i e He. apply (Hc (S i) e He).
    + intros i e He. apply (Hs (S i) e He).
Qed.

Lemma row_lookup g x y row :
  Grid_row g y = Some row -> whole g -> x < Extent_width (extent g) ->
  y < Extent_height (extent g) /\ row !! N.to_nat x = cells g !! N.to_nat (y * Extent_width (extent g) + x).
Proof.
  intros Hr Hg Hx. revert Hr. unfold Grid_row, Grid_area, Extent_area. cbn [Rect_width Rect_height].
  destruct (checked_mul usize_max y (Extent_width (extent g))) as [start|] eqn:E1; [|done]. cbn [mbind option_bind].
  destruct (checked_add usize_max start (Extent_width (extent g))) as [end_|] eqn:E2; [|done]. cbn [mbind option_bind].
  destruct (N.ltb_spec y (Extent_height (extent g))); [|done]. destruct (_ <=? _); [|done]. intros [= <-].
  split; [done|]. unfold checked_mul in E1. destruct (_ <=? _); [|done]. injection E1 as <-.
  rewrite lookup_take_lt, lookup_drop by lia. f_equal. lia.
Qed.

Lemma Grid_row_ok g y :
  whole g -> y < Extent_height (extent g) ->
  exists row, Grid_row g y = Some row /\ length row = N.to_nat (Extent_width (extent g)) /\ row_ok row /\
    forall x, x < Extent_width (extent g) -> row !! N.to_nat x = cell_at g x y.
Proof.
  intros Hg Hy. destruct (whole_bounds g Hg) as [Bw Bh]. pose proof (whole_length g Hg) as HL.
  assert (exists row, Grid_row g y = Some row /\ length row = N.to_nat (Extent_width (extent g))) as (row & Hr & Hlen).
  { unfold Grid_row, Grid_area, Extent_area, checked_mul, checked_add, usize_max, u64_max. cbn [Rect_width Rect_height].
    assert (y * Extent_width (extent g) <= 256 * 512) by nia.
    rewrite (proj2 (N.leb_le _ _)) by lia. cbn [mbind option_bind].
    rewrite (proj2 (N.leb_le _ _)) by lia. cbn [mbind option_bind]. rewrite (proj2 (N.ltb_lt _ _)) by done.
    assert ((y + 1) * Extent_width (extent g) <= Extent_width (extent g) * Extent_height (extent g)) by nia.
    rewrite (proj2 (N.leb_le _ _)) by lia. eexists. split; [done|]. rewrite length_take, length_drop. lia. }
  exists row. split; [done|]. split; [done|].
  assert (Hx : forall x, x < Extent_width (extent g) -> row !! N.to_nat x = cells g !! N.to_nat (y * Extent_width (extent g) + x))
    by (intros x Hx; by apply row_lookup).
  assert (Hi : forall i c, row !! i = Some c -> (i < N.to_nat (Extent_width (extent g)))%nat /\
    cells g !! N.to_nat (y * Extent_width (extent g) + N.of_nat i) = Some c).
  { intros i c Hc. apply lookup_lt_Some in Hc as Hl. rewrite Hlen in Hl. split; [done|]. rewrite <- Hx by lia.
    by rewrite Nat2N.id. }
  assert (Hback : forall i c, (i < N.to_nat (Extent_width (extent g)))%nat ->
    cells g !! N.to_nat (y * Extent_width (extent g) + N.of_nat i) = Some c -> row !! i = Some c).
  { intros i c Hl Hc. rewrite <- Hx in Hc by lia. by rewrite Nat2N.id in Hc. }
  destruct (whole_grid g Hg) as [Ww Wc Ws]. set (w := Extent_width (extent g)) in *.
  assert (Hmod : forall i, (i < N.to_nat w)%nat -> (N.to_nat (y * w + N.of_nat i) mod N.to_nat w = i)%nat).
  { intros i Hl. replace (N.to_nat (y * w + N.of_nat i)) with (i + N.to_nat y * N.to_nat w)%nat by nia.
    rewrite Nat.Div0.mod_add. by apply Nat.mod_small. }
  split.
  - apply (row_ok_parts (length row)); [done|..].
    + intros c Hc. destruct (continuation c) eqn:E; [|done]. destruct (Hi _ _ Hc) as [Hl Hcc].
      destruct (Wc _ _ Hcc E) as (j & p & Ej & Hp & Hpw). destruct (Ww _ _ Hp Hpw) as [Hm _]. exfalso. apply Hm.
      rewrite <- Ej. by apply (Hmod 0%nat).
    + intros i c Hc Hcw. destruct (Hi _ _ Hc) as [Hl Hcc]. destruct (Ww _ _ Hcc Hcw) as (Hm & d & Hd & Hdc).
      exists d. split; [|done]. assert (S i < N.to_nat w)%nat as Hsl.
      { destruct (Nat.eq_dec (S i) (N.to_nat w)) as [E|]; [|lia]. exfalso. apply Hm.
        replace (S (N.to_nat (y * w + N.of_nat i))) with ((N.to_nat y + 1) * N.to_nat w)%nat by nia.
        apply Nat.Div0.mod_mul. }
      apply Hback; [done|]. rewrite <- Hd. f_equal. lia.
    + intros i c Hc Hcc. destruct (Hi _ _ Hc) as [Hl Hcl]. destruct (Wc _ _ Hcl Hcc) as (j & p & Ej & Hp & Hpw).
      exists p. split; [|done]. apply Hback; [lia|]. rewrite <- Hp. f_equal. lia.
    + intros i c Hc. destruct (Hi _ _ Hc) as [_ Hcc]. by apply (Ws _ _ Hcc).
  - intros x Hxw. rewrite Hx by done. unfold cell_at. fold w.
    by rewrite (proj2 (N.ltb_lt _ _) Hxw), (proj2 (N.ltb_lt _ _) Hy).
Qed.
End draws.

(** The drawing operations with their arguments *)
Inductive DrawOp :=
| Draw_fill (area : Rect) (style : Style)
| Draw_line (area : Rect) (line : TextLine) (base : Style)
| Draw_paragraph (area : Rect) (lines : list TextLine) (flow : Flow)
| Draw_panel (area : Rect) (title : string) (palette : PanelStyle)
| Draw_list (area : Rect) (items : list (list TextLine)) (palette : ListStyle).

Definition op_area (op : DrawOp) : Rect :=
  match op with
  | Draw_fill area _ | Draw_line area _ _ | Draw_paragraph area _ _ | Draw_panel area _ _ | Draw_list area _ _ => area
  end.

(** A folded paragraph needs the width of a wide glyph. *)
Definition foldable (op : DrawOp) (extent : Extent) : Prop :=
  match op with
  | Draw_paragraph area _ flow => Flow_wrap flow = Wrap_Fold -> Rect_width (Rect_clip area extent) <> 1
  | _ => True
  end.

Section inside.
Context `{laws : FrameTextLaws}.

Definition draw_op (g : Grid) (op : DrawOp) : Grid :=
  match op with
  | Draw_fill area style => fill g area style
  | Draw_line area line base => draw_line g area line base
  | Draw_paragraph area lines flow => paragraph g area lines flow
  | Draw_panel area title palette => fst (panel g area title palette)
  | Draw_list area items palette => draw_list g area items palette
  end.

(** ** Lemmas *)

Definition within (r : Rect) (e : Extent) : Prop :=
  Rect_x r + Rect_width r <= Extent_width e /\ Rect_y r + Rect_height r <= Extent_height e.

Lemma clip_within r e : within (Rect_clip r e) e.
Proof.
  unfold within, Rect_clip, saturating_sub. cbn [Rect_x Rect_y Rect_width Rect_height].
  repeat match goal with |- context [?a <? ?b] => destruct (N.ltb_spec a b) end; lia.
Qed.

Lemma clip_area r e x y : in_rect (Rect_clip r e) x y -> in_rect r x y.
Proof.
  unfold in_rect, Rect_clip, saturating_sub. cbn [Rect_x Rect_y Rect_width Rect_height].
  repeat match goal with |- context [?a <? ?b] => destruct (N.ltb_spec a b) end; lia.
Qed.

Lemma unsaturated max a b : a + b <= max -> saturating_add max a b = a + b.
Proof. unfold saturating_add. lia. Qed.

Lemma put_inside area g x y text st :
  whole g -> displayed text -> Rect_x area <= x -> x + str_width text <= Rect_x area + Rect_width area ->
  Rect_y area <= y < Rect_y area + Rect_height area -> draws (in_rect area) g (put_ g x y text st).
Proof. intros Hg Hd H1 H2 H3. apply put_within; [done..|]. unfold covered, in_rect. intros x' y' [-> H4]. lia. Qed.

Lemma frame_glyph_displayed glyph : glyph ∈ frame_glyphs -> displayed glyph.
Proof.
  unfold frame_glyphs. rewrite !elem_of_cons, elem_of_nil. intros Hl. exists glyph.
  repeat destruct Hl as [->|Hl]; [reflexivity..|done].
Qed.

Lemma put_glyph area g x y glyph st :
  whole g -> glyph ∈ frame_glyphs -> in_rect area x y -> draws (in_rect area) g (put_ g x y glyph st).
Proof.
  intros Hg Hl [Hx Hy]. pose proof (one_column glyph Hl). apply put_inside; [done|by apply frame_glyph_displayed|lia..].
Qed.

Lemma fill_inside area g st : whole g -> draws (in_rect (Rect_clip area (extent g))) g (fill g area st).
Proof.
  intros Hg. unfold fill. set (r := Rect_clip area (extent g)).
  destruct (whole_bounds g Hg) as [Bw Bh]. assert (within r (extent g)) as [Wx Wy] by apply clip_within.
  apply draws_fold; [|done]. intros g1 y Hg1. unfold saturating_add, u16_max. rewrite N.min_l by lia.
  intros Hy%range_spec. apply draws_fold; [|done]. intros g2 x Hg2. rewrite N.min_l by lia. intros Hx%range_spec.
  apply put_glyph; [done|left|]. unfold in_rect. lia.
Qed.

(** A glyph is at most two columns wide, and as wide as it says. *)
Lemma glyph_text_columns grapheme :
  displayed (fst (glyph_text grapheme)) /\
  str_width (fst (glyph_text grapheme)) = snd (glyph_text grapheme) /\
  (snd (glyph_text grapheme) = 1 \/ snd (glyph_text grapheme) = 2).
Proof.
  unfold glyph_text. cbv zeta. destruct (Glyph_new _ _) as [glyph|] eqn:E; cbn [fst snd].
  - apply Glyph_new_columns in E as [-> ?]. split; [by eexists|done].
  - split; [by exists "?"%string|]. split; [|by left]. apply one_column. right. left.
Qed.

Definition drawn_to (to : Grid -> Prop) (d : Drawn) : Prop :=
  match d with Drawn_line g' _ | Drawn_all g' => to g' end.
Definition drawn_draws (area : Rect) (g : Grid) (d : Drawn) : Prop :=
  drawn_to (draws (in_rect area) g) d.

Section paragraph.
Context (area : Rect) (flow : Flow) (end_ first last_ : N).
Context (bounded : Rect_x area + Rect_width area <= 512 /\ Rect_y area + Rect_height area <= 256).
Context (limits : end_ = Rect_x area + Rect_width area /\ first = Flow_scroll flow /\
  last_ = saturating_add usize_max first (Rect_height area)).
Context (room : Flow_wrap flow = Wrap_Fold -> Rect_width area <> 1) (some : 0 < Rect_width area).

Lemma paragraph_line_inside line g row x :
  whole g -> Rect_x area <= x <= end_ ->
  drawn_draws area g (paragraph_line area flow end_ first last_ line g row x).
Proof using laws bounded limits room some.
  destruct limits as (-> & -> & ->). revert g row x.
  induction line as [|[grapheme st] line IH]; intros g row x Hg Hx; cbn [paragraph_line]; [by apply draws_refl|].
  destruct (glyph_text grapheme) as [text columns] eqn:EG.
  destruct (glyph_text_columns grapheme) as (Hd & Ew & Hc). rewrite EG in Hd, Ew, Hc. cbn [fst snd] in Hd, Ew, Hc.
  cbv zeta. rewrite (unsaturated u16_max x columns) by (unfold u16_max; lia).
  set (beyond := _ <? x + columns).
  destruct (beyond && bool_decide (Flow_wrap flow = Wrap_Clip)) eqn:EB; [by apply draws_refl|].
  set (row' := if beyond then _ else row). set (x' := if beyond then Rect_x area else x).
  assert (Hx' : Rect_x area <= x' /\ x' + columns <= Rect_x area + Rect_width area).
  { unfold x'. destruct beyond eqn:Eb; [|apply N.ltb_ge in Eb; lia]. cbn [andb] in EB.
    destruct (Flow_wrap flow) eqn:Ef; [done|]. specialize (room eq_refl). lia. }
  destruct (N.leb_spec (saturating_add usize_max (Flow_scroll flow) (Rect_height area)) row') as [|Hl]; [by apply draws_refl|].
  unfold saturating_add in Hl.
  set (g' := if Flow_scroll flow <=? row' then _ else g).
  assert (D : draws (in_rect area) g g').
  { unfold g'. destruct (N.leb_spec (Flow_scroll flow) row') as [Hf|]; [|by apply draws_refl].
    destruct (_ <=? u16_max) eqn:Eo; [|by apply draws_refl]. unfold saturating_sub, saturating_add, u16_max.
    rewrite N.min_l by lia. apply put_inside; [done|done|lia..]. }
  specialize (IH g' row' (saturating_add u16_max x' columns) (draws_whole _ _ _ D)).
  rewrite (unsaturated u16_max x' columns) in * by (unfold u16_max; lia). specialize (IH ltac:(lia)).
  destruct (paragraph_line _ _ _ _ _ _ _ _ _); unfold drawn_draws in *; cbn [drawn_to] in *; by eapply draws_trans.
Qed.

Lemma paragraph_lines_inside lines g row :
  whole g -> draws (in_rect area) g (paragraph_lines area flow end_ first last_ lines g row).
Proof using laws bounded limits room some.
  revert g row. induction lines as [|line lines IH]; intros g row Hg; cbn [paragraph_lines]; [by apply draws_refl|].
  pose proof (paragraph_line_inside (line_graphemes line) g row (Rect_x area) Hg) as D.
  specialize (D ltac:(lia)).
  destruct (paragraph_line _ _ _ _ _ _ _ _ _) as [g' row'|g']; unfold drawn_draws in *; cbn [drawn_to] in D; [|done].
  cbv zeta. destruct (_ <=? _); [done|]. eapply draws_trans; [exact D|]. apply IH, D.
Qed.
End paragraph.

Lemma paragraph_inside area lines flow g :
  whole g -> (Flow_wrap flow = Wrap_Fold -> Rect_width (Rect_clip area (extent g)) <> 1) ->
  draws (in_rect (Rect_clip area (extent g))) g (paragraph g area lines flow).
Proof.
  intros Hg room. unfold paragraph. cbv zeta. set (r := Rect_clip area (extent g)) in *.
  destruct (whole_bounds g Hg) as [Bw Bh]. assert (within r (extent g)) as [Wx Wy] by apply clip_within.
  destruct (N.eqb_spec (Rect_width r) 0), (N.eqb_spec (Rect_height r) 0); cbn [orb]; try by apply draws_refl.
  apply paragraph_lines_inside; [lia| |done|lia|done].
  unfold saturating_add, u16_max. rewrite N.min_l by lia. done.
Qed.

Lemma draw_line_inside area line base g :
  whole g -> draws (in_rect (Rect_clip area (extent g))) g (draw_line g area line base).
Proof. intros Hg. by apply paragraph_inside. Qed.

(** Drawing with an area inside of another is drawing inside of that one. *)
Lemma draws_clip area inner e g g' :
  (forall x y, in_rect inner x y -> in_rect area x y) ->
  draws (in_rect (Rect_clip inner e)) g g' -> draws (in_rect area) g g'.
Proof. intros Hi. apply draws_weaken. intros x y Hin%clip_area. by apply Hi. Qed.

Lemma draws_then area g g1 g2 :
  draws area g g1 -> (whole g1 -> extent g1 = extent g -> draws area g1 g2) -> draws area g g2.
Proof. intros D H. eapply draws_trans; [exact D|]. apply H; apply D. Qed.

Lemma put_glyphs area g x y x' y' glyph st :
  whole g -> glyph ∈ frame_glyphs -> in_rect area x y -> in_rect area x' y' ->
  draws (in_rect area) g (put_ (put_ g x y glyph st) x' y' glyph st).
Proof.
  intros Hg Hl H1 H2. eapply draws_then; [by apply (put_glyph area g x y glyph)|]. intros Hg' _. by apply put_glyph.
Qed.

Lemma panel_inside area title palette g :
  whole g -> draws (in_rect (Rect_clip area (extent g))) g (fst (panel g area title palette)).
Proof.
  intros Hg. unfold panel. cbv zeta.
  destruct (whole_bounds g Hg) as [Bw Bh]. assert (within (Rect_clip area (extent g)) (extent g)) as [Wx Wy] by apply clip_within.
  set (r := Rect_clip area (extent g)) in *. clearbody r. set (g1 := fill g r (PanelStyle_normal palette)).
  assert (D1 : draws (in_rect r) g g1) by (eapply (draws_clip r r); [done|by apply fill_inside]).
  destruct (N.eqb_spec (Rect_width r) 0) as [|Hw], (N.eqb_spec (Rect_height r) 0) as [|Hh]; cbn [orb fst]; try done.
  rewrite !unsaturated by (unfold u16_max; lia).
  eapply draws_then; [exact D1|]. intros Hg1 _. set (g2 := fold_left _ _ g1). set (g3 := fold_left _ _ g2).
  set (g4 := fold_left _ _ g3).
  assert (D2 : draws (in_rect r) g1 g2).
  { apply draws_fold; [|done]. intros g' x Hg' Hx%range_spec.
    apply (put_glyphs r); [done|do 2 right; left|unfold in_rect, saturating_sub in *; lia..]. }
  assert (D3 : draws (in_rect r) g2 g3).
  { apply draws_fold; [|apply D2]. intros g' y Hg' Hy%range_spec.
    apply (put_glyphs r); [done|do 3 right; left|unfold in_rect, saturating_sub in *; lia..]. }
  assert (D4 : draws (in_rect r) g3 g4).
  { apply draws_fold; [|apply D3]. intros g' [[x y] glyph] Hg' Hc. rewrite !elem_of_cons in Hc.
    destruct Hc as [[= -> -> ->]|[[= -> -> ->]|[[= -> -> ->]|[[= -> -> ->]|Hc]]]]; [..|by apply elem_of_nil in Hc];
      apply put_glyph; try done; unfold in_rect, saturating_sub; try lia; unfold frame_glyphs; rewrite !elem_of_cons; auto 10. }
  eapply draws_trans; [exact D2|]. eapply draws_trans; [exact D3|]. eapply draws_trans; [exact D4|].
  eapply (draws_clip r); [|apply draw_line_inside, D4].
  intros x y. unfold in_rect, Rect_inset. cbn [Rect_x Rect_y Rect_width Rect_height].
  destruct (N.eqb_spec (Rect_width r) 0); [lia|]. rewrite unsaturated by (unfold u16_max; lia).
  unfold saturating_sub. lia.
Qed.

Lemma columns_area r first x y :
  Rect_x r + Rect_width r <= 512 ->
  in_rect (fst (Rect_columns r first)) x y \/ in_rect (snd (Rect_columns r first)) x y -> in_rect r x y.
Proof.
  intros Hb. unfold Rect_columns, in_rect. cbn [fst snd Rect_x Rect_y Rect_width Rect_height].
  destruct (N.ltb_spec first (Rect_width r)); rewrite unsaturated by (unfold u16_max; lia); unfold saturating_sub; lia.
Qed.

Section list.
Context (area : Rect) (bounded : Rect_x area + Rect_width area <= 512 /\ Rect_y area + Rect_height area <= 256).

Lemma list_item_inside active st offset lines g row :
  whole g -> draws (in_rect area) g (fst (list_item area active st offset lines g row)).
Proof using laws bounded.
  revert offset g row. induction lines as [|line lines IH]; intros offset g row Hg; cbn [list_item]; [by apply draws_refl|].
  destruct (N.leb_spec (Rect_height area) row) as [|Hr]; [by apply draws_refl|]. cbv zeta.
  rewrite unsaturated by (unfold u16_max; lia).
  set (r := mkRect (Rect_x area) (Rect_y area + row) (Rect_width area) 1).
  assert (Hra : forall x y, in_rect r x y -> in_rect area x y).
  { intros x y. unfold r, in_rect. cbn [Rect_x Rect_y Rect_width Rect_height]. lia. }
  pose proof (columns_area r MARKER_COLUMNS) as Hc. destruct (Rect_columns r MARKER_COLUMNS) as [marker rest].
  cbn [fst snd] in Hc.
  eapply draws_then; [eapply (draws_clip area r); [done|by apply fill_inside]|]. intros Hg1 _.
  set (g2 := if active && (offset =? 0)%nat then _ else _).
  assert (D2 : draws (in_rect area) (fill g r st) g2).
  { unfold g2. destruct (_ && _); [|by apply draws_refl].
    eapply (draws_clip area marker); [|by apply draw_line_inside]. intros x y Hin. apply Hra, Hc; [cbn; lia|by left]. }
  eapply draws_then; [exact D2|]. intros Hg2 _.
  eapply draws_then; [eapply (draws_clip area rest); [|by apply draw_line_inside]|intros Hg3 _; by apply IH].
  intros x y Hin. apply Hra, Hc; [cbn; lia|by right].
Qed.

Lemma list_items_inside palette index_ items g row :
  whole g -> draws (in_rect area) g (list_items area palette index_ items g row).
Proof using laws bounded.
  revert index_ g row. induction items as [|item items IH]; intros index_ g row Hg; cbn [list_items]; [by apply draws_refl|].
  cbv zeta. pose proof (list_item_inside (bool_decide (ListStyle_selected palette = Some index_))
    (if bool_decide (ListStyle_selected palette = Some index_)
     then overlay (ListStyle_normal palette) (ListStyle_highlight palette) else ListStyle_normal palette) 0 item g row Hg) as D.
  destruct (list_item _ _ _ _ _ _ _) as [g' [row'|]]; cbn [fst] in D; [|done].
  eapply draws_then; [exact D|]. intros Hg' _. by apply IH.
Qed.
End list.

Lemma draw_list_inside area items palette g :
  whole g -> draws (in_rect (Rect_clip area (extent g))) g (draw_list g area items palette).
Proof.
  intros Hg. unfold draw_list. cbv zeta. apply list_items_inside; [|done].
  destruct (whole_bounds g Hg). destruct (clip_within area (extent g)). lia.
Qed.

Lemma draw_op_inside g op :
  whole g -> foldable op (extent g) -> draws (in_rect (Rect_clip (op_area op) (extent g))) g (draw_op g op).
Proof.
  intros Hg Hf. destruct op; cbn [draw_op op_area foldable] in *.
  - by apply fill_inside.
  - by apply draw_line_inside.
  - by apply paragraph_inside.
  - by apply panel_inside.
  - by apply draw_list_inside.
Qed.

(** *** A paragraph keeps the frame whole even where it leaves its area. *)

Lemma paragraph_line_whole area flow end_ first last_ line g row x :
  whole g -> drawn_to (draws (fun _ _ => True) g) (paragraph_line area flow end_ first last_ line g row x).
Proof.
  revert g row x. induction line as [|[grapheme st] line IH]; intros g row x Hg; cbn [paragraph_line]; [by apply draws_refl|].
  destruct (glyph_text grapheme) as [text columns] eqn:EG.
  destruct (glyph_text_columns grapheme) as (Hd & _). rewrite EG in Hd. cbn [fst] in Hd. cbv zeta.
  destruct (_ && bool_decide _); [by apply draws_refl|]. destruct (_ <=? _); [by apply draws_refl|].
  set (g' := if _ <=? _ then _ else g).
  assert (D : draws (fun _ _ => True) g g').
  { unfold g'. repeat (destruct (_ <=? _); [|by apply draws_refl]). by apply put_within. }
  match goal with |- drawn_to _ (paragraph_line _ _ _ _ _ _ g' ?r ?x') => pose proof (IH g' r x' (draws_whole _ _ _ D)) as D' end.
  destruct (paragraph_line _ _ _ _ _ _ g' _ _); cbn [drawn_to] in *; by eapply draws_trans.
Qed.

Lemma paragraph_lines_whole area flow end_ first last_ lines g row :
  whole g -> draws (fun _ _ => True) g (paragraph_lines area flow end_ first last_ lines g row).
Proof.
  revert g row. induction lines as [|line lines IH]; intros g row Hg; cbn [paragraph_lines]; [by apply draws_refl|].
  pose proof (paragraph_line_whole area flow end_ first last_ (line_graphemes line) g row (Rect_x area) Hg) as D.
  destruct (paragraph_line _ _ _ _ _ _ _ _ _) as [g' row'|g']; cbn [drawn_to] in D; [|done].
  cbv zeta. destruct (_ <=? _); [done|]. eapply draws_trans; [exact D|]. apply IH, D.
Qed.

Lemma draw_op_whole g op : whole g -> whole (draw_op g op) /\ extent (draw_op g op) = extent g.
Proof.
  intros Hg. destruct op as [area st|area line base|area lines flow|area title palette|area items palette].
  - pose proof (draw_op_inside g (Draw_fill area st) Hg I) as D. split; apply D.
  - pose proof (draw_op_inside g (Draw_line area line base) Hg I) as D. split; apply D.
  - cbn [draw_op]. unfold paragraph. cbv zeta. destruct (_ || _); [done|].
    pose proof (paragraph_lines_whole (Rect_clip area (extent g)) flow
      (saturating_add u16_max (Rect_x (Rect_clip area (extent g))) (Rect_width (Rect_clip area (extent g)))) (Flow_scroll flow)
      (saturating_add usize_max (Flow_scroll flow) (Rect_height (Rect_clip area (extent g)))) lines g 0 Hg) as D.
    split; apply D.
  - pose proof (draw_op_inside g (Draw_panel area title palette) Hg I) as D. split; apply D.
  - pose proof (draw_op_inside g (Draw_list area items palette) Hg I) as D. split; apply D.
Qed.

Lemma draw_ops_whole ops g : whole g -> whole (fold_left draw_op ops g) /\ extent (fold_left draw_op ops g) = extent g.
Proof.
  revert g. induction ops as [|op ops IH]; intros g Hg; cbn [fold_left]; [done|].
  destruct (draw_op_whole g op Hg) as [Hw <-]. by apply IH.
Qed.

Lemma Grid_new_whole width height g : Grid_new width height = Ok g -> whole g.
Proof.
  unfold Grid_new. destruct (Extent_new width height) as [e|] eqn:Ee; [|done]. intros [= <-].
  assert (Hb : Extent_width e <= 512 /\ Extent_height e <= 256).
  { revert Ee. unfold Extent_new, MAX_COLUMNS, MAX_LINES.
    destruct (N.ltb_spec 512 width); [done|]. destruct (N.ltb_spec 256 height); [done|]. by intros [= <-]. }
  assert (Ec : Extent_cells e = Extent_width e * Extent_height e).
  { unfold Extent_cells, saturating_mul, usize_max, u64_max.
    assert (Extent_width e * Extent_height e <= 512 * 256) by nia. lia. }
  split; cbn [extent cells]; [by eauto|by rewrite length_replicate, Ec|].
  assert (Hrep : forall i c, replicate (N.to_nat (Extent_cells e)) (Cell_blank Style_default) !! i = Some c ->
    c = Cell_blank Style_default) by (intros i c [-> _]%lookup_replicate; done).
  split; intros i c ->%Hrep.
  - intros Hw. pose proof (narrow_wide _ (blank_narrow Style_default)). congruence.
  - done.
  - apply blank_sound.
Qed.
End inside.
