(* ===== verification/Painter.v ===== *)
(** tui/output.rs and platform/terminal.rs: the renderer that paints the rows of a frame that changed, the
    bytes a row is painted with, and the session that puts the terminal in its modes and takes it out of them
    again; then what the painter writes as a terminal reads it.  A [write!] is one write of the formatted text. *)

From Stdlib Require Import NArith Lia String Ascii.
From stdpp Require Import base list strings pretty.
From S2P Require Import Prelude RustStr RustText Domain Dashboard Frame FrameDraws.

#[export] Instance Rect_eq_dec : EqDecision Rect.
Proof. solve_decision. Defined.
#[export] Instance Extent_eq_dec : EqDecision Extent.
Proof. solve_decision. Defined.
#[export] Instance Grid_eq_dec : EqDecision Grid.
Proof. solve_decision. Defined.

(** ** Steps that keep a state and may fail *)

Definition step (S E A : Type) : Type := S -> S * result A E.
Definition step_ok {S E A} (a : A) : step S E A := fun s => (s, Ok a).
Definition step_try {S E A B} (m : step S E A) (k : A -> step S E B) : step S E B :=
  fun s => match m s with (s, Ok a) => k a s | (s, Err e) => (s, Err e) end.
Notation "'do!' m 'in' k" := (step_try m (fun _ => k)) (at level 200, m at level 100, k at level 200).

(** ** The terminal's bytes *)

Class Output (W E : Type) := {
  write_all : string -> step W E unit;
  flush : step W E unit
}.

Definition esc : ascii := ascii_of_N 27.
Definition RESET : string := String esc "[0m".
Definition BOLD : string := String esc "[1m".
Definition CLEAR : string := String esc "[2J".
Definition SCREEN_ENTER : string := String esc "[?1049h".
Definition SCREEN_LEAVE : string := String esc "[?1049l".
Definition CURSOR_HIDE : string := String esc "[?25l".
Definition CURSOR_SHOW : string := String esc "[?25h".
Definition FOREGROUND : N := 38.
Definition BACKGROUND : N := 48.
Definition ANSI_ORIGIN : N := 1.

Section terminal.
Context {W E : Type} {output : Output W E}.

Definition clear_frame : step W E unit := write_all CLEAR.

Definition color (layer : N) (color : Color) : step W E unit :=
  let '(Color_Rgb red green blue) := color in
  write_all (String esc ("[" ++ pretty layer ++ ";2;" ++ pretty (N_of_ascii red) ++ ";" ++ pretty (N_of_ascii green)
                     ++ ";" ++ pretty (N_of_ascii blue) ++ "m")).

Definition cell_style (value : Style) : step W E unit :=
  do! write_all RESET in
  do! (match foreground value with Some foreground => color FOREGROUND foreground | None => step_ok tt end) in
  do! (match background value with Some background => color BACKGROUND background | None => step_ok tt end) in
  if bold value then write_all BOLD else step_ok tt.

Fixpoint paint_cells (cells : list Cell) (previous : option Style) : step W E unit :=
  match cells with
  | [] => step_ok tt
  | cell :: cells =>
      if continuation cell then paint_cells cells previous else
      do! (if bool_decide (previous <> Some (style cell)) then cell_style (style cell) else step_ok tt) in
      do! write_all (symbol cell) in
      paint_cells cells (if bool_decide (previous <> Some (style cell)) then Some (style cell) else previous)
  end.

Definition paint_row (y : N) (cells : list Cell) : step W E unit :=
  let row := saturating_add u32_max y ANSI_ORIGIN in
  do! write_all (String esc ("[" ++ pretty row ++ ";1H")) in
  paint_cells cells None.

Definition finish_frame : step W E unit :=
  do! write_all RESET in flush.
End terminal.

(** ** The renderer *)

Class Paint (P E : Type) := {
  Paint_clear : step P E unit;
  Paint_row : N -> list Cell -> step P E unit;
  Paint_finish : step P E unit
}.

#[export] Instance Native {W E} `{Output W E} : Paint W E := {
  Paint_clear := clear_frame;
  Paint_row := paint_row;
  Paint_finish := finish_frame
}.

Record Renderer (P : Type) := mkRenderer { painter : P; previous : option Grid }.
Arguments mkRenderer {P} painter previous.
Arguments painter {P} r.
Arguments previous {P} r.

Definition Renderer_new {P} (painter : P) : Renderer P := mkRenderer painter None.

(** What fails when a frame is drawn: the painter, or a row of the frame that is not there *)
Inductive DrawError (E : Type) := DrawError_Painter (error : E) | DrawError_RowAbsent.
Arguments DrawError_Painter {E} error.
Arguments DrawError_RowAbsent {E}.

Definition Equality_new (same : bool) : Equality := if same then Equality_Same else Equality_Different.
Definition is_unchanged (plan : PaintPlan) : bool := match plan with PaintPlan_Unchanged => true | _ => false end.
Definition is_resize (plan : PaintPlan) : bool := match plan with PaintPlan_Resize => true | _ => false end.

Section renderer.
Context {P E : Type} `{Paint P E}.

Definition painted {A} (m : step P E A) : step P (DrawError E) A :=
  fun painter => let '(painter, answer) := m painter in
    (painter, match answer with Ok a => Ok a | Err error => Err (DrawError_Painter error) end).

Fixpoint draw_rows (resized : bool) (previous : option Grid) (next : Grid) (rows : list N) : step P (DrawError E) unit :=
  match rows with
  | [] => step_ok tt
  | y :: rows =>
      match Grid_row next y with
      | None => fun painter => (painter, Err DrawError_RowAbsent)
      | Some row =>
          if negb resized && bool_decide ((previous ≫= fun previous => Grid_row previous y) = Some row)
          then draw_rows resized previous next rows
          else do! painted (Paint_row y row) in draw_rows resized previous next rows
      end
  end.

Definition Renderer_draw (next : Grid) : step (Renderer P) (DrawError E) unit := fun self =>
  let plan := paint_plan (Equality_new (bool_decide (previous self = Some next)))
    (Equality_new (match previous self with
                   | Some previous => bool_decide (Grid_area previous = Grid_area next)
                   | None => false
                   end)) in
  if is_unchanged plan then (self, Ok tt) else
  let resized := is_resize plan in
  let '(painter, answer) :=
    (do! (if resized then painted Paint_clear else step_ok tt) in
     do! draw_rows resized (previous self) next (range 0 (Rect_height (Grid_area next))) in
     painted Paint_finish) (painter self) in
  match answer with
  | Ok _ => (mkRenderer painter (Some next), Ok tt)
  | Err error => (mkRenderer painter (previous self), Err error)
  end.
End renderer.

(** ** The session *)

Inductive Setup := Setup_Raw | Setup_Screen | Setup_Cursor.

Class Modes (M E : Type) := {
  setup : Setup -> step M E unit;
  restore : RestoreStep -> step M E unit
}.

Record SessionFailure (E : Type) := mkSessionFailure { primary : option E; cleanup : list E }.
Arguments mkSessionFailure {E} primary cleanup.
Arguments primary {E} s.
Arguments cleanup {E} s.

Section session.
Context {M E T : Type} `{Modes M E}.

(** The stage reached, and whether entering succeeded *)
Definition enter : M -> (M * TerminalStage) * result unit E := fun modes =>
  let stage := TerminalStage_RawAttempted in
  match setup Setup_Raw modes with
  | (modes, Err error) => ((modes, stage), Err error)
  | (modes, Ok _) =>
      let stage := TerminalStage_ScreenAttempted in
      match setup Setup_Screen modes with
      | (modes, Err error) => ((modes, stage), Err error)
      | (modes, Ok _) =>
          let stage := TerminalStage_CursorAttempted in
          let '(modes, answer) := setup Setup_Cursor modes in ((modes, stage), answer)
      end
  end.

Fixpoint cleanup_modes (stage : TerminalStage) (steps : list RestoreStep) (modes : M) : M * list E :=
  match steps with
  | [] => (modes, [])
  | step :: steps =>
      if TerminalStage_owns stage step then
        let '(modes, answer) := restore step modes in
        let '(modes, rest) := cleanup_modes stage steps modes in
        (modes, match answer with Ok _ => rest | Err error => error :: rest end)
      else cleanup_modes stage steps modes
  end.

Definition session (work : step M E T) : M -> M * result T (SessionFailure E) := fun modes =>
  let '((modes, stage), entered) := enter modes in
  let '(modes, result_) := match entered with Ok _ => work modes | Err error => (modes, Err error) end in
  let '(modes, cleanup) := cleanup_modes stage [RestoreStep_Cursor; RestoreStep_Screen; RestoreStep_Raw] modes in
  (modes,
   match result_, cleanup with
   | Ok value, [] => Ok value
   | Ok _, cleanup => Err (mkSessionFailure None cleanup)
   | Err error, cleanup => Err (mkSessionFailure (Some error) cleanup)
   end).
End session.

(** ** The terminal *)

(** Cells hold the text that starts there and its style; the second half of a wide text holds nothing. *)
Record Term := mkTerm {
  at_row : N; at_column : N; pen : Style; screen : N -> N -> option (string * Style)
}.

(** The parameters of a control sequence and its final byte *)
Fixpoint control_parameters (l digits : list N) (read : list N) : option (list N * N) :=
  match l with
  | [] => None
  | b :: l =>
      if is_ascii_digit b then control_parameters l (digits ++ [b]) read else
      parameter ← parse_decimal 0 digits;
      match l with
      | [] => Some (read ++ [parameter], b)
      | _ => if b =? byte_of ";" then control_parameters l [] (read ++ [parameter]) else None
      end
  end.

Definition set_pen (t : Term) (style : Style) : Term := mkTerm (at_row t) (at_column t) style (screen t).

Definition select_graphics (t : Term) (parameters : list N) : Term :=
  match parameters with
  | [code] =>
      if code =? 0 then set_pen t Style_default
      else if code =? 1 then set_pen t (Style_bold (pen t)) else t
  | [layer; mode; red; green; blue] =>
      let color := Color_Rgb (ascii_of_N red) (ascii_of_N green) (ascii_of_N blue) in
      if negb (mode =? 2) then t
      else if layer =? 38 then set_pen t (Style_fg (pen t) color)
      else if layer =? 48 then set_pen t (Style_bg (pen t) color) else t
  | _ => t
  end.

Definition Term_control (t : Term) (parameters : list N) (final : N) : Term :=
  if final =? byte_of "m" then select_graphics t parameters
  else if final =? byte_of "H" then
    match parameters with
    | [row; column] => mkTerm (row - 1) (column - 1) (pen t) (screen t)
    | _ => t
    end
  else if (final =? byte_of "J") && bool_decide (parameters = [2])
  then mkTerm (at_row t) (at_column t) (pen t) (fun _ _ => None)
  else t.

Section screen.
Context `{laws : FrameTextLaws}.

Definition Term_text (t : Term) (s : string) : Term :=
  mkTerm (at_row t) (at_column t + str_width s) (pen t) (fun row column =>
    if (row =? at_row t) && (at_column t <=? column) && (column <? at_column t + str_width s)
    then if column =? at_column t then Some (s, pen t) else None
    else screen t row column).

Definition Term_write (t : Term) (s : string) : Term :=
  match bytes s with
  | b0 :: rest =>
      if b0 =? N_of_ascii esc then
        match rest with
        | b1 :: rest =>
            if b1 =? byte_of "[" then
              match control_parameters rest [] [] with
              | Some (parameters, final) => Term_control t parameters final
              | None => t
              end
            else t
        | [] => t
        end
      else Term_text t s
  | [] => t
  end.

(** What is asked of the output: a write that succeeds has reached the terminal, and flushing changes
    nothing there. *)
Class OutputLaws (W E : Type) `{Output W E} := {
  terminal : W -> Term;
  write_reaches w s w' : write_all s w = (w', Ok tt) -> terminal w' = Term_write (terminal w) s;
  flush_keeps w w' : flush w = (w', Ok tt) -> terminal w' = terminal w
}.

(** The terminal shows the frame. *)
Definition cell_shown (c : Cell) : option (string * Style) :=
  if continuation c then None else Some (symbol c, style c).
Definition shows (t : Term) (g : Grid) : Prop :=
  forall x y c, cell_at g x y = Some c -> screen t y x = cell_shown c.

(** ** Lemmas: control sequences *)

Lemma parameters_digits ds l digits read :
  Forall (fun b => is_ascii_digit b = true) ds ->
  control_parameters (ds ++ l) digits read = control_parameters l (digits ++ ds) read.
Proof.
  intros Hd. revert digits. induction Hd as [|b ds Hb _ IH]; intros digits; cbn [app]; [by rewrite app_nil_r|].
  cbn [control_parameters]. rewrite Hb, IH. by rewrite <- app_assoc.
Qed.

Lemma parameter_more n l b read :
  n <= u64_max -> l <> [] -> is_ascii_digit b = false -> b = byte_of ";" ->
  control_parameters (bytes (pretty n) ++ b :: l) [] read = control_parameters l [] (read ++ [n]).
Proof.
  intros Hn Hl Hb ->. destruct (u64_text n Hn) as (Hd & _ & Hp). unfold u64_to_string in *.
  rewrite parameters_digits by done. cbn [app control_parameters]. rewrite Hb, Hp. by destruct l.
Qed.

Lemma parameter_last n b read :
  n <= u64_max -> is_ascii_digit b = false ->
  control_parameters (bytes (pretty n) ++ [b]) [] read = Some (read ++ [n], b).
Proof.
  intros Hn Hb. destruct (u64_text n Hn) as (Hd & _ & Hp). unfold u64_to_string in *.
  rewrite parameters_digits by done. cbn [app control_parameters]. by rewrite Hb, Hp.
Qed.

Lemma write_control t rest parameters final :
  control_parameters (bytes rest) [] [] = Some (parameters, final) ->
  Term_write t (String esc (String "[" rest)) = Term_control t parameters final.
Proof. intros E. unfold Term_write. rewrite !bytes_cons. cbn [N.eqb]. by rewrite E. Qed.

Lemma write_color t layer red green blue :
  layer = FOREGROUND \/ layer = BACKGROUND ->
  Term_write t (String esc ("[" ++ pretty layer ++ ";2;" ++ pretty (N_of_ascii red) ++ ";" ++ pretty (N_of_ascii green)
    ++ ";" ++ pretty (N_of_ascii blue) ++ "m"))
  = set_pen t (if layer =? FOREGROUND then Style_fg (pen t) (Color_Rgb red green blue)
               else Style_bg (pen t) (Color_Rgb red green blue)).
Proof.
  intros Hl. pose proof (N_ascii_bounded red). pose proof (N_ascii_bounded green). pose proof (N_ascii_bounded blue).
  change ("[" ++ ?s)%string with (String "[" s).
  rewrite (write_control t _ [layer; 2; N_of_ascii red; N_of_ascii green; N_of_ascii blue] (byte_of "m")).
  - destruct Hl as [-> | ->]; unfold Term_control, select_graphics; rewrite !ascii_N_embedding; reflexivity.
  - rewrite !bytes_app. unfold FOREGROUND, BACKGROUND in *.
    change (bytes ";2;") with (byte_of ";" :: (bytes (pretty 2%N) ++ [byte_of ";"])).
    change (bytes ";") with [byte_of ";"]. change (bytes "m") with [byte_of "m"]. cbn [app].
    rewrite parameter_more; [|unfold u64_max; lia|by destruct (bytes (pretty 2%N))|done|done].
    rewrite <- app_assoc. cbn [app].
    rewrite parameter_more; [|unfold u64_max; lia|by destruct (bytes (pretty (N_of_ascii red)))|done|done].
    rewrite parameter_more; [|unfold u64_max; lia|by destruct (bytes (pretty (N_of_ascii green)))|done|done].
    rewrite parameter_more; [|unfold u64_max; lia|by destruct (bytes (pretty (N_of_ascii blue)))|done|done].
    by rewrite parameter_last by (unfold u64_max; done || lia).
Qed.

Lemma write_reset t : Term_write t RESET = set_pen t Style_default.
Proof. reflexivity. Qed.
Lemma write_bold t : Term_write t BOLD = set_pen t (Style_bold (pen t)).
Proof. reflexivity. Qed.
Lemma write_clear t : Term_write t CLEAR = mkTerm (at_row t) (at_column t) (pen t) (fun _ _ => None).
Proof. reflexivity. Qed.

Lemma write_move t y :
  y <= u16_max ->
  Term_write t (String esc ("[" ++ pretty (saturating_add u32_max y ANSI_ORIGIN) ++ ";1H"))
  = mkTerm y 0 (pen t) (screen t).
Proof.
  unfold u16_max. intros Hy.
  assert (E : saturating_add u32_max y ANSI_ORIGIN = y + 1) by (unfold saturating_add, u32_max, ANSI_ORIGIN; lia).
  rewrite E. change ("[" ++ ?s)%string with (String "[" s).
  rewrite (write_control t _ [y + 1; 1] (byte_of "H")).
  - unfold Term_control. cbn. f_equal. lia.
  - rewrite bytes_app. change (bytes ";1H") with (byte_of ";" :: (bytes (pretty 1%N) ++ [byte_of "H"])).
    rewrite parameter_more; [|unfold u64_max; lia|by destruct (bytes (pretty 1%N))|done|done].
    by rewrite parameter_last by (unfold u64_max; done || lia).
Qed.

(** ** Lemmas: text *)

Lemma encode_char_small c b : b ∈ encode_char c -> b < 128 -> b = c.
Proof.
  unfold encode_char. destruct (c <? 128); [by intros ->%list_elem_of_singleton|].
  destruct (c <? 2048); [|destruct (c <? 65536)]; rewrite !elem_of_cons, elem_of_nil; intros Hb Hs;
    repeat destruct Hb as [-> | Hb]; try done; dlia.
Qed.

Lemma displayed_bytes raw : N_of_ascii esc ∉ bytes (display raw).
Proof.
  unfold display, of_chars. set (cs := flat_map _ _).
  assert (Hcs : forall c, c ∈ cs -> c <> 27 /\ is_scalar c = true).
  { intros c (d & Hd & Hc)%list_elem_of_In%in_flat_map. destruct (display_char d) as [e|e] eqn:E; unfold display_char in E.
    - destruct (_ || _) eqn:Eb in E; [done|]. injection E as <-. destruct Hc as [<-|[]]. split.
      + intros ->. by cbn in Eb.
      + pose proof (chars_scalar raw) as Hs. rewrite forallb_forall in Hs. by apply Hs.
    - apply list_elem_of_In, escape_default_safe in Hc as [Hu Hs]. split; [|done]. intros ->. by cbn in Hu. }
  rewrite bytes_of_bytes.
  - rewrite list_elem_of_In. intros (l & (c & <- & Hc)%in_map_iff & Hb)%in_concat.
    apply list_elem_of_In, encode_char_small in Hb; [|done]. by destruct (Hcs c (proj2 (list_elem_of_In _ _) Hc)).
  - apply encoded_bytes, forallb_forall. intros c Hc. apply Hcs. by apply list_elem_of_In.
Qed.

Lemma write_symbol t c : sound_cell c -> continuation c = false -> Term_write t (symbol c) = Term_text t (symbol c).
Proof.
  intros [[raw Hraw] Hs] Hc. rewrite Hc in Hs. destruct Hs as [glyph Hg]. unfold Term_write.
  pose proof (displayed_bytes raw) as Hno. rewrite <- Hraw in Hno.
  destruct (bytes (symbol c)) as [|b l] eqn:E.
  - rewrite str_len_bytes, E in Hg. done.
  - destruct (N.eqb_spec b (N_of_ascii esc)) as [-> |]; [|done]. exfalso. apply Hno. left.
Qed.

(** ** Lemmas: painting a row *)

Section painting.
Context {W E : Type} `{OutputLaws W E}.

(** A step that succeeds has done [f] to the terminal. *)
Definition reaches (m : step W E unit) (f : Term -> Term) : Prop :=
  forall w w', m w = (w', Ok tt) -> terminal w' = f (terminal w).

Lemma reaches_ok : reaches (step_ok tt) (fun t => t).
Proof. by intros w w' [= <-]. Qed.

Lemma reaches_write s : reaches (write_all s) (fun t => Term_write t s).
Proof. intros w w'. apply write_reaches. Qed.

Lemma reaches_then m k f g : reaches m f -> reaches k g -> reaches (do! m in k) (fun t => g (f t)).
Proof.
  intros Hm Hk w w'. unfold step_try. destruct (m w) as [w1 [[]|e]] eqn:E1; [|done]. intros E2.
  by rewrite (Hk _ _ E2), (Hm _ _ E1).
Qed.

Lemma cell_style_reaches value : reaches (cell_style value) (fun t => set_pen t value).
Proof.
  assert (Hlayer : forall layer c, layer = FOREGROUND \/ layer = BACKGROUND ->
    reaches (color layer c) (fun t => set_pen t (if layer =? FOREGROUND then Style_fg (pen t) c else Style_bg (pen t) c))).
  { intros layer [red green blue] Hl w w' Hw. rewrite (reaches_write _ _ _ Hw). by apply write_color. }
  intros w w' Hw. unfold cell_style in Hw.
  eapply reaches_then in Hw; [|apply reaches_write|].
  2: { apply reaches_then; [|apply reaches_then].
       - instantiate (1 := fun t => match foreground value with Some c => set_pen t (Style_fg (pen t) c) | None => t end).
         destruct (foreground value); [apply (Hlayer FOREGROUND); by left|apply reaches_ok].
       - instantiate (1 := fun t => match background value with Some c => set_pen t (Style_bg (pen t) c) | None => t end).
         destruct (background value); [apply (Hlayer BACKGROUND); by right|apply reaches_ok].
       - instantiate (1 := fun t => if bold value then set_pen t (Style_bold (pen t)) else t).
         destruct (bold value); [|apply reaches_ok]. intros v v' Hv. by rewrite (reaches_write _ _ _ Hv), write_bold. }
  rewrite Hw, write_reset. destruct value as [[fg|] [bg|] []]; reflexivity.
Qed.

(** What a terminal shows after the cells [l] were painted from its cursor *)
Record row_painted (l : list Cell) (t t' : Term) : Prop := {
  painted_row : at_row t' = at_row t;
  painted_column : at_column t' = at_column t + N.of_nat (length l);
  painted_cells : forall i c, l !! i = Some c -> screen t' (at_row t) (at_column t + N.of_nat i) = cell_shown c;
  painted_beside : forall y x, ~ (y = at_row t /\ at_column t <= x < at_column t + N.of_nat (length l)) ->
    screen t' y x = screen t y x
}.

(** A narrow or wide cell is painted with its second half, [h], if it has one. *)
Lemma text_painted t t1 c h :
  at_row t1 = at_row t -> at_column t1 = at_column t -> screen t1 = screen t -> pen t1 = style c -> continuation c = false ->
  str_width (symbol c) = N.of_nat (S (length h)) -> (forall d, d ∈ h -> continuation d = true) ->
  row_painted (c :: h) t (Term_text t1 (symbol c)).
Proof.
  intros Er Ec Es Ep Hc Hw Hh. split; unfold Term_text; cbn [at_row at_column pen screen]; rewrite ?Er, ?Ec, ?Hw.
  - done.
  - cbn [length]. lia.
  - intros i d Hd. apply lookup_lt_Some in Hd as Hl. cbn [length] in Hl.
    rewrite N.eqb_refl, (proj2 (N.leb_le _ _)), (proj2 (N.ltb_lt _ _)) by lia. cbn [andb].
    destruct i as [|i]; cbn [lookup list_lookup] in Hd.
    + injection Hd as <-. unfold cell_shown. rewrite Hc, Ep, (proj2 (N.eqb_eq _ _)) by lia. done.
    + unfold cell_shown. rewrite (Hh d (list_elem_of_lookup_2 _ _ _ Hd)), (proj2 (N.eqb_neq _ _)) by lia. done.
  - intros y x Ho. cbn [length] in Ho. rewrite Es. destruct (N.eqb_spec y (at_row t)) as [->|]; [|done].
    destruct (N.leb_spec (at_column t) x); [|done]. destruct (N.ltb_spec x (at_column t + N.of_nat (S (length h)))); [|done].
    exfalso. apply Ho. lia.
Qed.

Lemma row_painted_app l l' t t1 t2 : row_painted l t t1 -> row_painted l' t1 t2 -> row_painted (l ++ l') t t2.
Proof.
  intros [R1 C1 S1 B1] [R2 C2 S2 B2]. rewrite R1, C1 in *. split; [done|rewrite C2, length_app; lia| |].
  - intros i c [Hc|[Hl Hc]]%lookup_app_Some.
    + apply lookup_lt_Some in Hc as Hl. rewrite B2 by lia. by apply S1.
    + rewrite <- (S2 _ _ Hc). f_equal. lia.
  - intros y x Ho. rewrite length_app in Ho. rewrite B2, B1; [done|lia..].
Qed.

Lemma paint_cell c l prev w w' :
  continuation c = false -> sound_cell c -> paint_cells (c :: l) prev w = (w', Ok tt) ->
  (forall st, prev = Some st -> pen (terminal w) = st) ->
  exists w1 t1, paint_cells l (Some (style c)) w1 = (w', Ok tt) /\ terminal w1 = Term_text t1 (symbol c) /\
    at_row t1 = at_row (terminal w) /\ at_column t1 = at_column (terminal w) /\
    screen t1 = screen (terminal w) /\ pen t1 = style c.
Proof.
  intros Hc Hs Hp Hst. cbn [paint_cells] in Hp. rewrite Hc in Hp.
  replace (if bool_decide (prev <> Some (style c)) then Some (style c) else prev) with (Some (style c)) in Hp
    by (case_bool_decide as Hd; done).
  unfold step_try in Hp. set (m := if bool_decide _ then _ else _) in Hp. destruct (m w) as [w0 [[]|e]] eqn:E0; [|done].
  destruct (write_all (symbol c) w0) as [w1 [[]|e]] eqn:E1; [|done].
  exists w1, (terminal w0). split; [done|]. split; [rewrite (write_reaches _ _ _ E1); by apply write_symbol|].
  unfold m in E0. case_bool_decide as Hd.
  - by rewrite (cell_style_reaches _ _ _ E0).
  - injection E0 as <-. by rewrite (Hst _ Hd).
Qed.

Lemma paint_cells_shown l prev w w' :
  row_ok l -> paint_cells l prev w = (w', Ok tt) -> (forall st, prev = Some st -> pen (terminal w) = st) ->
  row_painted l (terminal w) (terminal w').
Proof.
  intros Hl. revert prev w. induction Hl as [|c l Hn Hs Hl IH|c n l Hw Hc Hs Hl IH]; intros prev w Hp Hst.
  - injection Hp as <-. split; cbn [length]; [done|lia|done|done].
  - apply narrow_continuation in Hn as Hc. destruct (paint_cell _ _ _ _ _ Hc Hs Hp Hst) as (w1 & t1 & Hp1 & Et & Er & Ec & Es & Ep).
    apply (row_painted_app [c] l _ (terminal w1)).
    + rewrite Et. apply text_painted; try done; [|by intros d Hd%elem_of_nil].
      destruct Hs as [_ Hs]. rewrite Hc in Hs. destruct Hs as [glyph [_ Hg]%Glyph_new_columns].
      revert Hn. unfold narrow. rewrite andb_true_iff, !negb_true_iff, N.eqb_neq. intros [_ Hn]. cbn. lia.
    + apply (IH _ _ Hp1). intros st [= <-]. by rewrite Et.
  - apply wide_continuation in Hw as Hcc. destruct (paint_cell _ _ _ _ _ Hcc Hs Hp Hst) as (w1 & t1 & Hp1 & Et & Er & Ec & Es & Ep).
    apply (row_painted_app [c; n] l _ (terminal w1)).
    + rewrite Et. apply text_painted; try done; [|by intros d ->%list_elem_of_singleton].
      revert Hw. unfold wide. rewrite andb_true_iff, N.eqb_eq. intros [_ Hw]. done.
    + cbn [paint_cells] in Hp1. rewrite Hc in Hp1. apply (IH _ _ Hp1). intros st [= <-]. by rewrite Et.
Qed.

Lemma paint_row_shown y row w w' :
  y <= u16_max -> row_ok row -> paint_row y row w = (w', Ok tt) ->
  (forall i c, row !! i = Some c -> screen (terminal w') y (N.of_nat i) = cell_shown c) /\
  (forall y' x, y' <> y -> screen (terminal w') y' x = screen (terminal w) y' x).
Proof.
  intros Hy Hr. unfold paint_row, step_try.
  destruct (write_all _ w) as [w1 [[]|e]] eqn:E1; [|done]. apply write_reaches in E1. rewrite write_move in E1 by done.
  intros Hp. destruct (paint_cells_shown row None w1 w' Hr Hp) as [_ _ Hs Hb]; [done|]. rewrite E1 in Hs, Hb.
  cbn [at_row at_column screen] in Hs, Hb. split; [exact Hs|]. intros y' x Hne. apply Hb. naive_solver.
Qed.
End painting.

(** ** What the renderer asks of its painter *)

Class PaintLaws (P E : Type) `{Paint P E} := {
  view : P -> N -> N -> option (string * Style);
  clear_blanks p p' : Paint_clear p = (p', Ok tt) -> forall y x, view p' y x = None;
  row_shown y row p p' : y <= u16_max -> row_ok row -> Paint_row y row p = (p', Ok tt) ->
    (forall i c, row !! i = Some c -> view p' y (N.of_nat i) = cell_shown c) /\
    (forall y' x, y' <> y -> view p' y' x = view p y' x);
  finish_keeps p p' : Paint_finish p = (p', Ok tt) -> forall y x, view p' y x = view p y x
}.

#[export] Instance Native_laws {W E} `{OutputLaws W E} : PaintLaws W E.
Proof.
  refine {| view := fun w => screen (terminal w) |}.
  - intros w w' Hw y x. apply write_reaches in Hw. by rewrite Hw, write_clear.
  - intros y row w w'. apply paint_row_shown.
  - intros w w'. cbn [Paint_finish Native]. unfold finish_frame, step_try.
    destruct (write_all RESET w) as [w1 [[]|e]] eqn:E1; [|done]. intros E2 y x.
    rewrite (flush_keeps _ _ E2), (write_reaches _ _ _ E1). done.
Defined.
End screen.
