(* ===== verification/FrameRuns.v ===== *)
(** What the user sees: frames drawn by the operations of the grid and painted by the renderer are on the
    screen cell by cell, and drawing never leaves its area or breaks a wide glyph; with concrete widths, a
    terminal that takes every write, the witnesses, and the modes of the terminal entered and left. *)

From Stdlib Require Import NArith Lia String Ascii.
From stdpp Require Import base list strings pretty.
From S2P Require Import Prelude RustStr Dashboard Frame FrameDraws Painter.

(** ** Definitions *)

Section runs.
Context `{laws : FrameTextLaws} {P E : Type} `{plaws : !Paint P E} `{!PaintLaws P E}.

(** A frame as the views make it: a new grid and any drawing operations. *)
Definition frame_of (g : Grid) : Prop :=
  exists width height blank ops, Grid_new width height = Ok blank /\ g = fold_left draw_op ops blank.

(** Draw one frame after the other, up to the first error. *)
Fixpoint draw_frames (frames : list Grid) : step (Renderer P) (DrawError E) unit :=
  match frames with
  | [] => step_ok tt
  | frame :: frames => do! Renderer_draw frame in draw_frames frames
  end.

Definition view_shows (p : P) (g : Grid) : Prop :=
  forall x y c, cell_at g x y = Some c -> view p y x = cell_shown c.

(** The renderer's memory is what is on the screen. *)
Definition in_step (r : Renderer P) : Prop :=
  forall g, previous r = Some g -> whole g /\ view_shows (painter r) g.

(** ** Lemmas *)

Lemma frame_of_whole g : frame_of g -> whole g.
Proof. intros (w & h & blank & ops & Hb & ->). by apply draw_ops_whole, (Grid_new_whole w h). Qed.

Lemma painted_Ok (m : step P E unit) p p' : painted m p = (p', Ok tt) -> m p = (p', Ok tt).
Proof. unfold painted. destruct (m p) as [q [[]|e]]; [by intros [= ->]|done]. Qed.

Definition row_seen (p : P) (g : Grid) (y : N) : Prop :=
  forall x c, cell_at g x y = Some c -> view p y x = cell_shown c.

Lemma row_seen_same p g g' y row :
  whole g -> whole g' -> extent g = extent g' -> y < Extent_height (extent g) ->
  Grid_row g y = Some row -> Grid_row g' y = Some row -> row_seen p g y -> row_seen p g' y.
Proof.
  intros Hg Hg' He Hy Hr Hr' Hs x c Hc. apply (Hs x).
  destruct (Grid_row_ok g y Hg Hy) as (row1 & E1 & _ & _ & L1).
  destruct (Grid_row_ok g' y Hg') as (row2 & E2 & _ & _ & L2); [by rewrite <- He|].
  apply cell_at_Some in Hc as Hx. destruct Hx as (Hx & _). rewrite <- L1 by by rewrite He.
  rewrite <- L2 in Hc by done. congruence.
Qed.

Lemma draw_rows_seen resized prev next rows p p' :
  draw_rows resized prev next rows p = (p', Ok tt) -> whole next -> NoDup rows ->
  (forall y, y ∈ rows -> y < Extent_height (extent next)) ->
  (resized = false -> forall g, prev = Some g -> whole g /\ extent g = extent next /\ forall y, y ∈ rows -> row_seen p g y) ->
  (forall y, y ∈ rows -> row_seen p' next y) /\ (forall y x, y ∉ rows -> view p' y x = view p y x).
Proof.
  intros Hd Hn. revert p Hd. induction rows as [|y rows IH]; intros p Hd Hdup Hin Hprev.
  { injection Hd as <-. split; [by intros y Hy%elem_of_nil|done]. }
  apply NoDup_cons in Hdup as [Hny Hdup]. cbn [draw_rows] in Hd.
  assert (Hy : y < Extent_height (extent next)) by (apply Hin; left).
  destruct (Grid_row_ok next y Hn Hy) as (row & Hrow & Hlen & Hok & Hcells). rewrite Hrow in Hd.
  assert (Hrest : forall z, z ∈ rows -> z < Extent_height (extent next)) by (intros z Hz; apply Hin; by right).
  assert (exists q, draw_rows resized prev next rows q = (p', Ok tt) /\ row_seen q next y /\
    (forall z x, z <> y -> view q z x = view p z x)) as (q & Hq & Hseen & Hsame).
  { destruct (negb resized && _) eqn:Es.
    - apply andb_prop in Es as [Er Es]. apply negb_true_iff in Er. apply bool_decide_eq_true in Es.
      destruct prev as [g|]; [|done]. destruct (Hprev Er g eq_refl) as (Hg & He & Hs). exists p. split; [done|].
      split; [|done]. apply (row_seen_same p g next y row); try done; [by rewrite He|]. apply Hs. left.
    - unfold step_try in Hd. destruct (painted (Paint_row y row) p) as [q [[]|e]] eqn:Ep; [|done].
      exists q. split; [done|]. apply painted_Ok, row_shown in Ep as [Hs Hb]; [|destruct (whole_bounds next Hn); unfold u16_max; lia|done].
      split; [|done]. intros x c Hc. rewrite <- (N2Nat.id x). apply Hs.
      apply cell_at_Some in Hc as Hx. destruct Hx as (Hx & _). by rewrite Hcells. }
  destruct (IH q Hq Hdup Hrest) as [Hall Hkeep].
  { intros Er g Hg. destruct (Hprev Er g Hg) as (Hw & He & Hs). split; [done|]. split; [done|].
    intros z Hz x c Hc. rewrite Hsame by (intros ->; done). apply (Hs z); [by right|done]. }
  split.
  - intros z [->|Hz]%elem_of_cons; [|by apply Hall]. intros x c Hc. rewrite Hkeep by done. by apply Hseen.
  - intros z x [Hz1 Hz2]%not_elem_of_cons. by rewrite Hkeep, Hsame.
Qed.

Lemma range_NoDup a b : NoDup (range a b).
Proof. unfold range. apply NoDup_fmap_2; [intros i j; lia|apply NoDup_seq]. Qed.

Lemma area_extent g g' : Grid_area g = Grid_area g' -> extent g = extent g'.
Proof. unfold Grid_area, Extent_area. destruct (extent g), (extent g'). by intros [= -> ->]. Qed.

(** One frame: the renderer's memory and the screen move to it together. *)
Lemma Renderer_draw_shows next r r' :
  whole next -> in_step r -> Renderer_draw next r = (r', Ok tt) ->
  previous r' = Some next /\ view_shows (painter r') next /\ in_step r'.
Proof.
  intros Hn Hin Hd.
  assert (previous r' = Some next /\ view_shows (painter r') next) as [Hp Hs].
  2: { split; [done|]. split; [done|]. intros g Hg. rewrite Hp in Hg. injection Hg as <-. done. }
  unfold Renderer_draw in Hd. set (plan := paint_plan _ _) in Hd. cbv zeta in Hd.
  destruct (is_unchanged plan) eqn:Eu.
  { injection Hd as <-. unfold plan, Equality_new in Eu.
    case_bool_decide as Es; [|by case_match]. split; [done|]. by apply Hin. }
  destruct (step_try _ _ (painter r)) as [p [[]|e]] eqn:Er; [|done]. injection Hd as <-. cbn [previous painter].
  split; [done|]. unfold step_try in Er.
  destruct ((if is_resize plan then painted Paint_clear else step_ok tt) (painter r)) as [p0 [[]|e]] eqn:E0; [|done].
  destruct (draw_rows _ _ _ _ p0) as [p1 [[]|e]] eqn:E1; [|done]. apply painted_Ok in Er.
  apply draw_rows_seen in E1 as [Hall _]; [|done|apply range_NoDup|by intros y [_ Hy]%range_spec|].
  - intros x y c Hc. rewrite (finish_keeps _ _ Er). apply Hall; [|done]. apply cell_at_Some in Hc as (_ & Hy & _).
    apply range_spec. split; [lia|done].
  - intros Ez g Hg. destruct (Hin g Hg) as [Hw Hv]. split; [done|]. rewrite Ez in E0. injection E0 as <-.
    split; [|intros y _ x c; apply Hv].
    unfold plan, Equality_new in Ez. rewrite Hg in Ez. case_bool_decide; case_bool_decide as Ea; try done; by apply area_extent.
Qed.

(** A row of a whole frame is always there. *)
Lemma draw_rows_present resized prev next rows p p' :
  whole next -> (forall y, y ∈ rows -> y < Extent_height (extent next)) ->
  draw_rows resized prev next rows p <> (p', Err DrawError_RowAbsent).
Proof.
  intros Hn. revert p. induction rows as [|y rows IH]; intros p Hin; [done|]. cbn [draw_rows].
  destruct (Grid_row_ok next y Hn) as (row & -> & _); [apply Hin; left|].
  assert (Hrest : forall q, draw_rows resized prev next rows q <> (p', Err DrawError_RowAbsent))
    by (intros q; apply IH; intros z Hz; apply Hin; by right).
  destruct (_ && _); [apply Hrest|]. unfold step_try, painted.
  destruct (Paint_row y row p) as [q [[]|e]]; [apply Hrest|done].
Qed.

Lemma Renderer_draw_present next r r' : whole next -> Renderer_draw next r <> (r', Err DrawError_RowAbsent).
Proof.
  intros Hn. unfold Renderer_draw. cbv zeta. destruct (is_unchanged _); [done|]. unfold step_try at 1, painted at 2.
  set (first := if is_resize _ then _ else _).
  assert (Hfirst : forall q e, first (painter r) = (q, Err e) -> e <> DrawError_RowAbsent).
  { intros q e. unfold first, painted. destruct (is_resize _); [|done]. destruct (Paint_clear _) as [q' [[]|e']]; [done|].
    by intros [= <- <-]. }
  destruct (first (painter r)) as [q [[]|e]] eqn:E1; [|intros [= <- ->]; by apply (Hfirst q DrawError_RowAbsent)].
  unfold step_try. set (resized := is_resize _).
  destruct (draw_rows resized (previous r) next _ q) as [q1 [[]|e]] eqn:E2.
  - unfold painted. by destruct (Paint_finish q1) as [q2 [[]|e]].
  - intros [= <- ->]. revert E2. apply draw_rows_present; [done|]. by intros y [_ Hy]%range_spec.
Qed.

(** ** Properties *)

(** C29: what was drawn is what is on the screen.  However many frames are drawn one after the other, each by
    any drawing operations on a new grid, and whatever was on the screen before, when the renderer reports
    no error the screen shows the last of them cell by cell, although only the rows that changed were
    painted; a wide glyph takes two columns, so that every row prints exactly as wide as the frame.  The
    renderer fails only where its painter does, and the same frame again paints nothing. *)
Theorem screen_shows_the_frame (p : P) (frames : list Grid) (last_ : Grid) (r : Renderer P)
    (all : Forall frame_of (frames ++ [last_]))
    (ok : draw_frames (frames ++ [last_]) (Renderer_new p) = (r, Ok tt)) :
  view_shows (painter r) last_ /\
  (forall y, y < Extent_height (extent last_) -> exists row, Grid_row last_ y = Some row /\
     length row = N.to_nat (Extent_width (extent last_)) /\ row_columns row = Extent_width (extent last_)) /\
  Renderer_draw last_ r = (r, Ok tt) /\
  (forall next r', frame_of next -> Renderer_draw next r <> (r', Err DrawError_RowAbsent)).
Proof.
  assert (Hin : in_step (Renderer_new p)) by done. revert ok Hin. generalize (Renderer_new p) as r0.
  assert (Hlast : frame_of last_) by (rewrite Forall_app, Forall_singleton in all; tauto).
  intros r0 ok Hin. assert (previous r = Some last_ /\ view_shows (painter r) last_) as [Hp Hs].
  { revert r0 ok Hin. induction frames as [|g frames IH]; intros r0 ok Hin; cbn [app draw_frames] in ok; unfold step_try in ok.
    - destruct (Renderer_draw last_ r0) as [r1 [[]|e]] eqn:ED; [|done]. injection ok as <-.
      apply Renderer_draw_shows in ED; [naive_solver|by apply frame_of_whole|done].
    - destruct (Renderer_draw g r0) as [r1 [[]|e]] eqn:ED; [|done]. cbn [app] in all. apply Forall_cons in all as [Hg all].
      apply Renderer_draw_shows in ED as (_ & _ & Hin1); [|by apply frame_of_whole|done]. by apply (IH all r1). }
  split; [done|]. split; [|split].
  - intros y Hy. destruct (Grid_row_ok last_ y (frame_of_whole _ Hlast) Hy) as (row & Hrow & Hlen & Hok & _).
    exists row. split; [done|]. split; [done|]. rewrite (row_ok_columns row Hok), Hlen. lia.
  - unfold Renderer_draw. rewrite Hp. by rewrite !bool_decide_eq_true_2.
  - intros next r' Hn. by apply Renderer_draw_present, frame_of_whole.
Qed.
End runs.

(** C30: drawing stays inside its area.  Whatever is drawn, the frame keeps its extent and its wide glyphs
    whole: each has its second cell beside it in the same row.  An operation given an area (a folded
    paragraph: not one a single column wide) changes no cell outside of it, but that a wide glyph cut at
    the area's border leaves a blank in place of its half outside. *)
Theorem drawing_stays_inside `{laws : FrameTextLaws} (g : Grid) (op : DrawOp) (ready : whole g) :
  whole (draw_op g op) /\ extent (draw_op g op) = extent g /\
  (foldable op (extent g) -> forall x y c, cell_at g x y = Some c -> ~ in_rect (op_area op) x y ->
     exists c', cell_at (draw_op g op) x y = Some c' /\
       (c' = c \/ (continuation c = true \/ str_width (symbol c) = 2) /\ exists style, c' = Cell_blank style)).
Proof.
  destruct (draw_op_whole g op ready) as [Hw He]. split; [done|]. split; [done|]. intros Hf x y c Hc Ho.
  destruct (draws_kept _ _ _ (draw_op_inside g op ready Hf) x y c) as (c' & Hc' & K); [by intros ?%clip_area|done|].
  exists c'. split; [done|]. destruct K as [->|[Hn Hb]]; [by left|]. right. split; [|done].
  unfold narrow in Hn. destruct (continuation c); [by left|]. right. by apply negb_false_iff, N.eqb_eq in Hn.
Qed.

(** Characters from U+3000 on are wide; every character is a grapheme of its own. *)
#[export] Instance sample_text : FrameText := {
  str_width s := fold_right N.add 0 (map (fun c => if 0x3000 <=? c then 2 else 1) (chars s));
  graphemes s := map (fun c => of_chars [c]) (chars s)
}.

#[export] Instance sample_laws : FrameTextLaws sample_text.
Proof.
  split. intros glyph. unfold frame_glyphs. rewrite !elem_of_cons, elem_of_nil. intros Hl.
  repeat destruct Hl as [->|Hl]; [reflexivity..|done].
Defined.

(** An output that is the terminal itself *)
#[export] Instance sample_output : Output Term unit := {
  write_all s := fun t => (Term_write t s, Ok tt);
  flush := step_ok tt
}.

#[export] Instance sample_output_laws : OutputLaws Term unit.
Proof. refine {| terminal := fun t => t |}; [by intros s w w' [= <-]|by intros w w' [= <-]]. Defined.

Definition sample_terminal : Term := mkTerm 7 3 Style_default (fun _ _ => Some ("left over"%string, Style_default)).
Definition sample_style : Style := mkStyle (Some (Color_Rgb "000" "128" "255")) None true.
Definition sample_blank : Grid := match Grid_new 9 4 with Ok g => g | Err _ => mkGrid (mkExtent 0 0) [] end.
Definition sample_ops : list DrawOp :=
  [Draw_panel (mkRect 0 0 9 4) "作業" (mkPanelStyle Style_default sample_style);
   Draw_list (mkRect 1 1 7 2) [[Line_from "一二三四"]; [Line_from "two"]] (mkListStyle (Some 1) Style_default sample_style)].
Definition sample_frame : Grid := fold_left draw_op sample_ops sample_blank.

Definition sample_run : Renderer Term * result unit (DrawError unit) :=
  draw_frames [sample_blank; sample_frame] (Renderer_new sample_terminal).

Lemma screen_shows_the_frame_witness :
  view_shows (painter (fst sample_run)) sample_frame /\
  screen (painter (fst sample_run)) 1 3 = Some ("一"%string, Style_default) /\
  screen (painter (fst sample_run)) 1 4 = None /\ screen (painter (fst sample_run)) 2 1 = Some ("›"%string, sample_style).
Proof.
  split; [|split; [vm_compute; reflexivity|split; vm_compute; reflexivity]].
  apply (screen_shows_the_frame sample_terminal [sample_blank] sample_frame (fst sample_run)).
  - constructor; [exists 9, 4, sample_blank, []; split; [vm_compute; reflexivity|reflexivity]|].
    constructor; [exists 9, 4, sample_blank, sample_ops; split; [vm_compute; reflexivity|reflexivity]|constructor].
  - assert (Hok : snd sample_run = Ok tt) by (vm_compute; reflexivity).
    change (sample_run = (fst sample_run, Ok tt)). rewrite <- Hok. apply surjective_pairing.
Defined.

Lemma drawing_stays_inside_witness :
  whole (draw_op sample_blank (Draw_fill (mkRect 0 0 3 1) sample_style)) /\
  extent (draw_op sample_blank (Draw_fill (mkRect 0 0 3 1) sample_style)) = mkExtent 9 4.
Proof.
  assert (Hw : whole sample_blank) by (apply (Grid_new_whole 9 4); vm_compute; reflexivity).
  destruct (drawing_stays_inside sample_blank (Draw_fill (mkRect 0 0 3 1) sample_style) Hw) as (H1 & H2 & _).
  split; [exact H1|]. rewrite H2. vm_compute. reflexivity.
Defined.

(** A paragraph folded into a single column leaves it: the wide glyph does not fit, and is drawn in the
    next row all the same. *)
Example folded_too_narrow :
  cell_at (draw_op sample_blank (Draw_paragraph (mkRect 2 0 1 4) [Line_from "字"] (mkFlow Style_default 0 Wrap_Fold))) 3 1
  = Some (mkCell " " Style_default true).
Proof. vm_compute. reflexivity. Qed.

(** ** The modes of the terminal *)

Inductive ModeEvent := Event_Setup (mode : Setup) | Event_Work | Event_Restore (mode : RestoreStep).

Section modes.
Context {M E T : Type} `{Modes M E}.

(** The same modes, with the log of what was done *)
#[export] Instance Logged : Modes (M * list ModeEvent) E := {
  setup mode '(modes, log) := let '(modes, answer) := setup mode modes in ((modes, log ++ [Event_Setup mode]), answer);
  restore mode '(modes, log) := let '(modes, answer) := restore mode modes in ((modes, log ++ [Event_Restore mode]), answer)
}.

Definition logged_work (work : step M E T) : step (M * list ModeEvent) E T := fun '(modes, log) =>
  let '(modes, answer) := work modes in ((modes, log ++ [Event_Work]), answer).

Definition undo (mode : Setup) : RestoreStep :=
  match mode with Setup_Raw => RestoreStep_Raw | Setup_Screen => RestoreStep_Screen | Setup_Cursor => RestoreStep_Cursor end.

(** The terminal is given back as it was found.  A session sets up raw input, the alternate screen and
    the cursor in this order, up to the first that fails, and works only when none did; whatever happened,
    it then undoes each mode it attempted, the one that failed too, once and last first, and undoing goes
    on when one cannot be undone.  It succeeds only when it worked, and a mode that failed is reported. *)
Theorem session_restores_the_terminal (work : step M E T) (modes : M) :
  exists modes' answer attempted worked,
    session (logged_work work) (modes, []) =
      ((modes', map Event_Setup attempted ++ (if worked : bool then [Event_Work] else [])
                ++ map (fun mode => Event_Restore (undo mode)) (rev attempted)), answer) /\
    attempted `prefix_of` [Setup_Raw; Setup_Screen; Setup_Cursor] /\ attempted <> [] /\
    (worked = true -> attempted = [Setup_Raw; Setup_Screen; Setup_Cursor]) /\
    (is_ok answer = true -> worked = true) /\
    (forall failure, answer = Err failure -> worked = false -> primary failure <> None).
Proof.
  unfold session, enter. cbn [setup Logged].
  destruct (setup Setup_Raw modes) as [m1 [[]|e1]]; [destruct (setup Setup_Screen m1) as [m2 [[]|e2]];
    [destruct (setup Setup_Cursor m2) as [m3 [[]|e3]]|]|]; cbn [cleanup_modes TerminalStage_owns restore Logged app];
    [unfold logged_work; destruct (work m3) as [m4 [value|e4]]| | |]; cbn [cleanup_modes TerminalStage_owns restore Logged app].
  all: repeat match goal with |- context [restore ?r ?m] => destruct (restore r m) as [? [[]|?]] end.
  all: eexists _, _.
  all: first [exists [Setup_Raw; Setup_Screen; Setup_Cursor], true; split; [reflexivity|]
             |exists [Setup_Raw; Setup_Screen; Setup_Cursor], false; split; [reflexivity|]
             |exists [Setup_Raw; Setup_Screen], false; split; [reflexivity|]
             |exists [Setup_Raw], false; split; [reflexivity|]].
  all: split; [by eexists|]; split; [done|]; split; [done|]; split; [done|].
  all: by intros failure [= <-].
Qed.
End modes.
