(* ===== verification/ChatSync.v ===== *)
(** chat/sync.rs: exchanging with the peers of a machine and reporting on each, answering a peer, and
    waiting for something new.  The store, the channels to the peers and the clock are asked one operation
    at a time, and between two of them other processes may change what the next one answers. *)

From Stdlib Require Import NArith Lia String Ascii.
From stdpp Require Import base gmap list strings pretty.
From S2P Require Import Prelude SortedLists RustStr Ids AgentLists Notification Handoff Event.
From S2P Require Import Ledger ChatWire Exchange Domain Database Admin Programs.

(** ** Definitions *)

Definition MAX_ROUNDS : nat := 64.
Definition HEARTBEAT_SECONDS : N := 25.
Definition PULSE_TICK_MILLIS : N := 2000.

(** Errors of other components carry what they display as. *)
Inductive SyncError :=
| SyncError_Store (text : string)
| SyncError_Transport (text : string)
| SyncError_Pulse (text : string)
| SyncError_Runner (text : string)
| SyncError_Machine (text : string)
| SyncError_Rejected (rejection : Rejection)
| SyncError_Unexpected
| SyncError_UnknownPeer (alias : string).

(** [impl Display for Rejection] *)
Definition Rejection_fmt (rejection : Rejection) : string :=
  match rejection with
  | Rejection_MissingDependency event request =>
      (EventId_fmt event ++ " depends on " ++ EventId_fmt request ++ ", which has not arrived yet")%string
  | Rejection_Gap origin expected => ("expected sequence " ++ pretty expected ++ " from " ++ as_str origin)%string
  | Rejection_Conflict event => (EventId_fmt event ++ " conflicts with the stored event of the same ID")%string
  | Rejection_ClockRegression event => (EventId_fmt event ++ " does not advance its origin's clock")%string
  | Rejection_Mismatch event => (EventId_fmt event ++ " does not match the request it answers")%string
  | Rejection_Unauthorized event => (EventId_fmt event ++ " arrived from a machine that did not write it")%string
  | Rejection_ResourceLimit => "the receiving ledger has reached its storage limit"
  | Rejection_WrongPeer => "the request was meant for another machine"
  | Rejection_AheadOfHistory => "the peer claims history that does not exist here"
  | Rejection_Inconsistent => "the stored ledger is not consecutive"
  end.

Definition SyncError_fmt (error : SyncError) : string :=
  match error with
  | SyncError_Store text | SyncError_Transport text | SyncError_Pulse text | SyncError_Runner text
  | SyncError_Machine text => text
  | SyncError_Rejected rejection => Rejection_fmt rejection
  | SyncError_Unexpected => "the peer answered with an unexpected chat reply"
  | SyncError_UnknownPeer alias => (alias ++ " is not a chat peer; run `domyjob chat setup " ++ alias ++ "`")%string
  end.

(** *** What is asked of the store, of the peers and of the clock *)

Inductive SyncOp :=
| Op_Peers
| Op_Offer (peer : Origin)
| Op_Accept (offer : Offer) (answer : Answer)
| Op_Respond (offer : Offer)
| Op_RecordLink (alias : string) (link : Link)
| Op_Publish
| Op_LocalSeen
| Op_Dispatch
| Op_Stamp
| Op_Chat (machine : MachineName) (request : ChatRequest) (deadline : N)
| Op_After (seconds : N)
| Op_Expired (deadline : N)
| Op_Abandoned
| Op_Watch (tick : N)
| Op_Pulse (deadline : N).

(** Errors come as what they display as. *)
Definition sync_answer (op : SyncOp) : Type :=
  match op with
  | Op_Peers => result (list (string * Origin)) string
  | Op_Offer _ => result (result Offer Rejection) string
  | Op_Accept _ _ => result (result Progress Rejection) string
  | Op_Respond _ => result (result Answer Rejection) string
  | Op_RecordLink _ _ | Op_Publish | Op_Dispatch | Op_Watch _ | Op_Pulse _ => result unit string
  | Op_LocalSeen => result N string
  | Op_Stamp => Stamp
  | Op_Chat _ _ _ => result ChatReply string
  | Op_After _ => N
  | Op_Expired _ | Op_Abandoned => bool
  end.

Abbreviation SyncProg := (Prog sync_answer).

Definition asked {A} (error : string -> SyncError) (p : SyncProg (result A string)) : SyncProg (result A SyncError) :=
  prog_err error p.
(** [??] on an answer of the store that may refuse *)
Definition admitted {A} (p : SyncProg (result (result A Rejection) string)) : SyncProg (result A SyncError) :=
  let^ answer := asked SyncError_Store p in prog_lift (map_err SyncError_Rejected answer).

(** *** Channels *)

Class Channel (C : Type) := {
  Channel_call : C -> ChatRequest -> N -> SyncProg (result ChatReply SyncError)
}.

Record Ssh := mkSsh { Ssh_machine : MachineName }.
(** [impl Display for Invalid], of a machine's name *)
Definition domain_text (error : DomainInvalid) : string :=
  match error with
  | DomainInvalid_Machine => "machine name must be a single SSH destination of at most 128 ASCII bytes"
  | DomainInvalid_JobId => "job identifier must be 32 lowercase hexadecimal digits"
  | DomainInvalid_SubmissionId => "submission identifier must be 32 lowercase hexadecimal digits"
  | DomainInvalid_JobReference => "job reference must be MACHINE:JOB"
  | DomainInvalid_RelativePath => "path must be a portable relative path within 4096 bytes and 64 components"
  | DomainInvalid_Command => "command must have 1 to 256 arguments and use at most 64 KiB"
  | DomainInvalid_RemoteText => "remote text must fit within 64 KiB"
  end.
Definition Ssh_new (alias : string) : result Ssh SyncError :=
  map_ok mkSsh (map_err (fun error => SyncError_Machine (domain_text error)) (MachineName_try_from alias)).

#[export] Instance Ssh_Channel : Channel Ssh := {
  Channel_call self request deadline := asked SyncError_Transport (call (Op_Chat (Ssh_machine self) request deadline))
}.

(** *** Exchanging *)

Inductive SyncOutcome :=
| SyncOutcome_Synced
| SyncOutcome_Partial
| SyncOutcome_Deferred (rejection : Rejection)
| SyncOutcome_Failed (detail : string).

Definition classify (rejection : Rejection) : SyncOutcome :=
  match rejection with
  | Rejection_MissingDependency _ _ => SyncOutcome_Deferred rejection
  | Rejection_WrongPeer =>
      SyncOutcome_Failed "the peer's chat identity changed; confirm it with `domyjob chat peer replace`"
  | _ => SyncOutcome_Failed (Rejection_fmt rejection)
  end.

Section exchange.
Context {C : Type} `{Channel C}.

(** [for _ in 0..MAX_ROUNDS]: [rounds] of them are left. *)
Fixpoint exchange_rounds (rounds : nat) (peer : Origin) (channel : C) (deadline appended : N) :
  SyncProg (result (SyncOutcome * N) SyncError) :=
  match rounds with
  | O => prog_ok (SyncOutcome_Partial, appended)
  | S rounds =>
      let^ offer := admitted (call (Op_Offer peer)) in
      let^ reply := Channel_call channel (ChatRequest_Exchange offer) deadline in
      match reply with
      | ChatReply_Rejected rejection => prog_ok (classify rejection, appended)
      | ChatReply_Identity _ | ChatReply_Changed | ChatReply_Heartbeat => prog_fail SyncError_Unexpected
      | ChatReply_Exchanged answer =>
          let^ progress := admitted (call (Op_Accept offer answer)) in
          let appended := saturating_add usize_max appended (Received_appended (Progress_received progress)) in
          match (match Progress_refused progress with
                 | Some rejection => Some rejection
                 | None => Received_rejected (Progress_received progress)
                 end) with
          | Some rejection => prog_ok (classify rejection, appended)
          | None =>
              if negb (Progress_more progress) then prog_ok (SyncOutcome_Synced, appended)
              else exchange_rounds rounds peer channel deadline appended
          end
      end
  end.

Definition exchange (peer : Origin) (channel : C) (deadline : N) : SyncProg (result (SyncOutcome * N) SyncError) :=
  exchange_rounds MAX_ROUNDS peer channel deadline 0.
End exchange.

(** *** Reporting *)

Record PeerReport := mkPeerReport { machine : string; PeerReport_state : LinkState; PeerReport_detail : option string }.
Record Report := mkReport { Report_peers : list PeerReport }.

#[export] Instance LinkState_eq_dec : EqDecision LinkState.
Proof. solve_decision. Defined.

Definition Report_complete (self : Report) : bool :=
  forallb (fun peer => bool_decide (PeerReport_state peer = LinkState_Synced)) (Report_peers self).

(** The link an outcome is recorded as *)
Definition link_of (outcome : SyncOutcome) : LinkState * option string :=
  match outcome with
  | SyncOutcome_Synced => (LinkState_Synced, None)
  | SyncOutcome_Partial => (LinkState_Deferred, Some "more events remain"%string)
  | SyncOutcome_Deferred rejection => (LinkState_Deferred, Some (Rejection_fmt rejection))
  | SyncOutcome_Failed detail => (LinkState_Failed, Some detail)
  end.

Definition record (alias : string) (outcome : SyncOutcome) : SyncProg (result PeerReport SyncError) :=
  let '(state, detail) := link_of outcome in
  let~ at_ := call Op_Stamp in
  do^ asked SyncError_Store (call (Op_RecordLink alias (mkLink state detail at_))) in
  prog_ok (mkPeerReport alias state detail).

Definition is_deferred (outcome : SyncOutcome) : bool :=
  match outcome with SyncOutcome_Deferred _ => true | _ => false end.

Section sync_with.
Context {C : Type} `{Channel C}.
Variable connect : string -> result C SyncError.

(** The inner loop, over the peers of one pass: what it adds to [deferred] and [outcomes], and whether
    anything was stored *)
Fixpoint sync_pass (pending deferred : list (string * Origin)) (outcomes : list (string * SyncOutcome)) (progressed : bool)
    (deadline : N) : SyncProg (list (string * Origin) * list (string * SyncOutcome) * bool) :=
  match pending with
  | [] => Ret (deferred, outcomes, progressed)
  | (alias, origin) :: pending =>
      let~ exchanged := match connect alias with
                        | Ok channel => exchange origin channel deadline
                        | Err error => prog_fail error
                        end in
      let '(outcome, progressed) :=
        match exchanged with
        | Ok (outcome, appended) => (outcome, progressed || (0 <? appended))
        | Err error => (SyncOutcome_Failed (SyncError_fmt error), progressed)
        end in
      let deferred := if is_deferred outcome then deferred ++ [(alias, origin)] else deferred in
      sync_pass pending deferred (outcomes ++ [(alias, outcome)]) progressed deadline
  end.

(** The outer loop, with [passes] of them left: the outcomes, and whether anything was stored *)
Fixpoint sync_passes (passes : nat) (pending : list (string * Origin)) (outcomes : list (string * SyncOutcome))
    (stored_any : bool) (deadline : N) : SyncProg (list (string * SyncOutcome) * bool) :=
  match passes with
  | O => Ret (outcomes, stored_any)
  | S passes =>
      let~ (deferred, outcomes, progressed) := sync_pass pending [] outcomes false deadline in
      let stored_any := stored_any || progressed in
      if match deferred with [] => true | _ => false end || negb progressed then Ret (outcomes, stored_any) else
      let outcomes := List.filter (fun '(alias, _) =>
        negb (existsb (fun '(retry, _) => String.eqb retry alias) deferred)) outcomes in
      sync_passes passes deferred outcomes stored_any deadline
  end.

Fixpoint record_all (outcomes : list (string * SyncOutcome)) (reports : list PeerReport) :
  SyncProg (result (list PeerReport) SyncError) :=
  match outcomes with
  | [] => prog_ok reports
  | (alias, outcome) :: outcomes =>
      let^ report := record alias outcome in record_all outcomes (reports ++ [report])
  end.

(** [first.machine.cmp(&second.machine)] *)
#[local] Instance by_machine : Ord PeerReport := fun first second => cmp (machine first) (machine second).

(** The peer asked for that is none *)
Definition unknown_peer (only : option string) (peers : list (string * Origin)) : option string :=
  match only with
  | Some alias => if existsb (fun '(known, _) => String.eqb known alias) peers then None else Some alias
  | None => None
  end.
Definition selected (only : option string) (peers : list (string * Origin)) : list (string * Origin) :=
  List.filter (fun '(alias, _) => match only with Some chosen => String.eqb chosen alias | None => true end) peers.

Definition sync_with (only : option string) (deadline : N) : SyncProg (result Report SyncError) :=
  let^ peers := asked SyncError_Store (call Op_Peers) in
  match unknown_peer only peers with
  | Some alias => prog_fail (SyncError_UnknownPeer alias)
  | None =>
      let pending := selected only peers in
      let~ (outcomes, stored_any) := sync_passes (S (length pending)) pending [] false deadline in
      do^ (if (stored_any : bool) then asked SyncError_Runner (call Op_Dispatch) else prog_ok tt) in
      let^ reports := record_all outcomes [] in
      prog_ok (mkReport (@sort PeerReport by_machine reports))
  end.
End sync_with.

Definition sync (only : option string) (deadline : N) : SyncProg (result Report SyncError) :=
  sync_with Ssh_new only deadline.

Definition identify {C} `{Channel C} (channel : C) (deadline : N) : SyncProg (result Origin SyncError) :=
  let^ reply := Channel_call channel ChatRequest_Identity deadline in
  match reply with
  | ChatReply_Identity origin => prog_ok origin
  | _ => prog_fail SyncError_Unexpected
  end.

(** *** Answering *)

Section serve.
(** [store.origin()] *)
Variable local : Origin.

(** The loop of [wait], with [rounds] of it left; [None] when they are used up *)
Fixpoint wait_rounds (rounds : nat) (seen deadline : N) : SyncProg (result (option ChatReply) SyncError) :=
  match rounds with
  | O => prog_ok None
  | S rounds =>
      let^ local_seen := asked SyncError_Store (call Op_LocalSeen) in
      if seen <? local_seen then prog_ok (Some ChatReply_Changed) else
      let~ expired := call (Op_Expired deadline) in
      let~ over := if (expired : bool) then Ret true else call Op_Abandoned in
      if over then prog_ok (Some ChatReply_Heartbeat) else
      do^ asked SyncError_Pulse (call (Op_Pulse deadline)) in
      wait_rounds rounds seen deadline
  end.

Definition wait (rounds : nat) (seen deadline : N) : SyncProg (result (option ChatReply) SyncError) :=
  do^ asked SyncError_Pulse (call (Op_Watch PULSE_TICK_MILLIS)) in
  wait_rounds rounds seen deadline.

Definition serve (rounds : nat) (request : ChatRequest) : SyncProg (result (option ChatReply) SyncError) :=
  match request with
  | ChatRequest_Identity =>
      do^ asked SyncError_Store (call Op_Publish) in
      prog_ok (Some (ChatReply_Identity local))
  | ChatRequest_Exchange offer =>
      let^ answer := asked SyncError_Store (call (Op_Respond offer)) in
      let reply := match answer with
                   | Ok answer => ChatReply_Exchanged answer
                   | Err rejection => ChatReply_Rejected rejection
                   end in
      do^ asked SyncError_Runner (call Op_Dispatch) in
      prog_ok (Some reply)
  | ChatRequest_Wait _ to seen =>
      if bool_decide (to = local) then
        let~ deadline := call (Op_After HEARTBEAT_SECONDS) in
        wait rounds seen deadline
      else prog_ok (Some (ChatReply_Rejected Rejection_WrongPeer))
  end.
End serve.
