(* ===== verification/SyncNetwork.v ===== *)
(** An exchange that ends as synced has brought each side what the other one had written when it began,
    whatever every machine of the network does in the meantime. *)

From Stdlib Require Import NArith Lia String Ascii Sorted Relations.
From stdpp Require Import base gmap list strings relations.
From S2P Require Import Prelude SortedLists RustStr Ids AgentLists Notification Handoff Event.
From S2P Require Import Ledger ChatWire Exchange Model Samples History Sync Network Domain Database Programs ChatSync.

(** ** Definitions *)

(** The network: every machine's ledger, the offers made and the answers given. *)
Record Net := mkNet { nodes : Nodes; offers : list Offer; answers : list (Offer * Answer) }.

Section network.
Context `{codec : Codec} (machines : list Origin).

(** One step of the network, by any machine *)
Inductive net_step : Net -> Net -> Prop :=
| net_write n ofs ans o body :
    o ∈ machines -> answers_readable (n o) body ->
    net_step (mkNet n ofs ans) (mkNet (update n o (Model_write (n o) body).1) ofs ans)
| net_offer n ofs ans o peer offer :
    o ∈ machines -> o <> peer -> Model_offer (n o) peer = Ok offer ->
    net_step (mkNet n ofs ans) (mkNet n (offer :: ofs) ans)
| net_respond n ofs ans o offer m r :
    o ∈ machines -> offer ∈ ofs -> Model_respond (n o) offer = (m, r) ->
    net_step (mkNet n ofs ans)
      (mkNet (update n o m) ofs (match r with Ok answer => (offer, answer) :: ans | Err _ => ans end))
| net_accept n ofs ans offer answer m r :
    Offer_from offer ∈ machines -> (offer, answer) ∈ ans -> Model_accept (n (Offer_from offer)) offer answer = (m, r) ->
    net_step (mkNet n ofs ans) (mkNet (update n (Offer_from offer) m) ofs ans).

Definition reached (w : Net) : Prop := network machines (nodes w) (offers w) (answers w).

(** What the operations of an exchange by [o] do: offering and accepting are transactions of its own
    ledger, which may fail and then leave it as it was; a call is answered by some machine that was given the
    request, or it fails. *)
Inductive happens (o : Origin) : forall op, Net -> sync_answer op -> Net -> Prop :=
| happens_offer w peer offer w' :
    Model_offer (nodes w o) peer = Ok offer -> w' = mkNet (nodes w) (offer :: offers w) (answers w) ->
    happens o (Op_Offer peer) w (Ok (Ok offer)) w'
| happens_refused w peer rejection :
    happens o (Op_Offer peer) w (Ok (Err rejection)) w
| happens_offer_fails w peer text : happens o (Op_Offer peer) w (Err text) w
| happens_answered w machine offer deadline q m answer w' :
    q ∈ machines -> offer ∈ offers w -> Model_respond (nodes w q) offer = (m, Ok answer) ->
    w' = mkNet (update (nodes w) q m) (offers w) ((offer, answer) :: answers w) ->
    happens o (Op_Chat machine (ChatRequest_Exchange offer) deadline) w (Ok (ChatReply_Exchanged answer)) w'
| happens_otherwise w machine request deadline reply :
    (forall answer, reply <> ChatReply_Exchanged answer) ->
    happens o (Op_Chat machine request deadline) w (Ok reply) w
| happens_call_fails w machine request deadline text : happens o (Op_Chat machine request deadline) w (Err text) w
| happens_accept w offer answer m r w' :
    (offer, answer) ∈ answers w -> Offer_from offer = o -> Model_accept (nodes w o) offer answer = (m, r) ->
    w' = mkNet (update (nodes w) o m) (offers w) (answers w) ->
    happens o (Op_Accept offer answer) w (Ok r) w'
| happens_accept_fails w offer answer text : happens o (Op_Accept offer answer) w (Err text) w.

(** A run of [o], with any steps of the network before each operation and at the end *)
Fixpoint runs {A} (o : Origin) (p : SyncProg A) (w : Net) (a : A) (w' : Net) : Prop :=
  match p with
  | Ret value => a = value /\ rtc net_step w w'
  | Do op k => exists w1 x w2, rtc net_step w w1 /\ happens o op w1 x w2 /\ runs o (k x) w2 a w'
  end.

(** ** Lemmas *)

Lemma net_step_network w w' : reached w -> net_step w w' -> reached w'.
Proof. intros Hw Hs. destruct Hs; cbn; [eapply network_write|eapply network_offer|eapply network_respond|eapply network_accept]; eauto. Qed.

Lemma reached_inv w : reached w -> Inv machines (nodes w).
Proof. by intros [H _]%network_inv. Qed.

Lemma net_step_grows w w' : reached w -> net_step w w' ->
  grows (nodes w) (nodes w') /\ offers w ⊆ offers w' /\ answers w ⊆ answers w'.
Proof.
  intros Hw Hs. destruct (network_inv _ _ _ _ Hw) as (Hn & Hof & Han).
  destruct Hs as [n ofs ans o body Hm Hr|n ofs ans o peer offer Hm Hne Hoffer|n ofs ans o offer m r Hm Hin Hr|n ofs ans offer answer m r Hm Hin Ha];
    cbn [nodes offers answers] in *.
  - split; [by apply (write_inv machines)|done].
  - split; [by intros o' id s|]. split; [set_solver|done].
  - split; [by destruct (respond_inv machines n o offer m r Hn Hm (Hof _ Hin) Hr) as (_ & Hg & _)|]. split; [done|].
    destruct r; [set_solver|done].
  - split; [|done]. by destruct (accept_inv machines n offer answer m r Hn Hm (Han _ _ Hin) Ha).
Qed.

Record later (w w' : Net) : Prop := {
  later_reached : reached w';
  later_grows : grows (nodes w) (nodes w');
  later_offers : offers w ⊆ offers w';
  later_answers : answers w ⊆ answers w'
}.

Lemma later_trans w1 w2 w3 : later w1 w2 -> later w2 w3 -> later w1 w3.
Proof. intros [? G1 ? ?] [? G2 ? ?]. split; [done| |set_solver..]. intros o id s Hs. by apply G2, G1. Qed.

Lemma steps_later w w' : reached w -> rtc net_step w w' -> later w w'.
Proof.
  intros Hw H. revert Hw. induction H as [w|w1 w2 w3 Hs _ IH]; intros Hw; [split; [done|by intros o id s|done|done]|].
  pose proof (net_step_network _ _ Hw Hs) as Hw2. destruct (net_step_grows _ _ Hw Hs) as (G & O & A).
  eapply later_trans; [by split|by apply IH].
Qed.

Lemma happens_later o op w x w' : o ∈ machines -> (forall peer, op = Op_Offer peer -> o <> peer) ->
  reached w -> happens o op w x w' -> later w w'.
Proof.
  intros Ho Hne Hw Hs.
  destruct Hs as [w peer offer w' H1 ->| | |w machine offer deadline q m answer w' H1 H2 H3 ->| | |w offer answer m r w' H1 H2 H3 ->|];
    try (split; [done|by intros o' id s|done|done]).
  - apply steps_later; [done|]. apply rtc_once. destruct w. by eapply net_offer; [done|by apply Hne|].
  - apply steps_later; [done|]. apply rtc_once. destruct w. exact (net_respond _ _ _ _ _ _ _ H1 H2 H3).
  - apply steps_later; [done|]. apply rtc_once. destruct w. subst o. by eapply net_accept.
Qed.

(** *** What one message brings *)

(** What [o] wrote in [n] is with [p] in [n'], as it is for [p]. *)
Definition given (n : Nodes) (o p : Origin) (n' : Nodes) : Prop :=
  forall e, stored (events (n o)) e -> Event_origin e = o -> stored (events (n' p)) (Event_export e p).

Lemma given_later n o p n' n'' : given n o p n' -> grows n' n'' -> given n o p n''.
Proof. intros H Hg e He Ho. apply (grows_stored n' n''); [done|]. by apply H. Qed.

Lemma given_earlier n0 n o p n' : grows n0 n -> given n o p n' -> given n0 o p n'.
Proof. intros Hg H e He Ho. apply H; [|done]. by apply (grows_stored n0 n). Qed.

Lemma receive_loop_all m from es : forall m0 k m' k', m0 = m -> history m0 ->
  receive_loop (E := Empty_set) m0 from es k = (m', Ok (k', None)) ->
  forall e, e ∈ es -> seq_of e <= seen (Model_cursor m' from).
Proof.
  intros m0 k m' k' -> Hm. revert m k Hm. induction es as [|x es IH]; intros m k Hm; cbn [receive_loop].
  { by intros _ e ?%elem_of_nil. }
  destruct (receive_one m from x) as [m1 [b|f]] eqn:Hone.
  2: { destruct f as [[]| |]; intros [= ]. }
  pose proof (receive_one_extends _ _ _ _ _ Hm Hone) as [Hm1 _].
  assert (Hx : seq_of x <= seen (Model_cursor m1 from)).
  { destruct b.
    - assert (Hc0 : Ledger_cursor (E := Empty_set) m from = Ok (Model_cursor m from)) by done.
      destruct (receive_one_cursor _ _ _ _ _ Hc0 Hone) as (_ & _ & Hc & _).
      change (Ok (E := Empty_set) (Model_cursor m1 from) = Ok (mkCursor (seq_of x) (Event_clock x))) in Hc.
      injection Hc as ->. done.
    - apply receive_one_false in Hone as (-> & Ho & _ & s & _ & Hs & Ha).
      apply admit_duplicate_iff in Ha as (c & Hc & Hle & _). rewrite Hs, Ho in *. cbn in Hc. injection Hc as <-. done. }
  intros Hl e [->|He]%elem_of_cons.
  - assert (Hmono : forall k, receive_loop (E := Empty_set) m1 from es k = (m', Ok (k', None)) -> seq_of x <= seen (Model_cursor m' from)).
    { intros j Hj. pose proof (receive_loop_extends _ _ _ _ _ _ Hm1 Hj) as [Hm' Hext].
      etrans; [exact Hx|]. by apply cursor_mono; [..|apply Hext]. }
    destruct b; by eapply Hmono.
  - destruct b; eapply IH; eauto.
Qed.

Lemma receive_all m from es m' rec : history m -> receive (E := Empty_set) m from es = (m', Ok rec) ->
  Received_rejected rec = None -> forall e, e ∈ es -> seq_of e <= seen (Model_cursor m' from).
Proof.
  intros Hm. unfold receive. destruct (receive_loop m from es 0) as [m1 [[k rej]|[]]] eqn:Hl. cbn.
  intros [= <- <-]. cbn. intros ->. by eapply receive_loop_all.
Qed.

(** A batch that says there is no more has everything. *)
Definition complete_batch (m : Model) (peer : Origin) (after : N) (b : Batch) : Prop :=
  exists k, Batch_events b = map (fun e => Event_export e peer) (take k (own_events m after)) /\
    (Batch_more b = false -> k = length (own_events m after) \/
       exists e, own_events m after !! k = Some e /\ is_ok (Sealed_new (Event_export e peer)) = false).

Lemma complete_batch_in m peer after b e : omitted_fits -> history m -> complete_batch m peer after b -> Batch_more b = false ->
  stored (events m) e -> Event_origin e = origin m -> after < seq_of e -> Event_export e peer ∈ Batch_events b.
Proof.
  intros Hfit Hm (k & Hb & Hk) Hmore He Ho Ha. rewrite Hb.
  assert (Hin : e ∈ own_events m after) by (by apply own_events_stored).
  destruct (Hk Hmore) as [->|(x & Hx & Hbad)].
  - rewrite take_ge by done. apply list_elem_of_fmap. eauto.
  - exfalso. apply list_elem_of_lookup_2, own_events_stored in Hx as ((s & Hs & Hse) & _ & _); [|done].
    destruct (h_key _ Hm _ _ Hs) as [_ Hok]. rewrite Hse in Hok. apply not_true_iff_false in Hbad. apply Hbad.
    destruct (Event_export_cases x peer) as [[-> _]|[-> _]]; [|apply Hfit]; by rewrite Hok.
Qed.

Lemma respond_complete m offer m' answer : history m -> Model_respond m offer = (m', Ok answer) ->
  origin m' = origin m /\ history m' /\ complete_batch m' (Offer_from offer) (Offer_seen offer) (Answer_batch answer) /\
  Offer_to offer = origin m /\ Offer_from offer <> origin m /\ Answer_from answer = origin m /\
  exists m1 rec, receive (E := Empty_set) m (Offer_from offer) (Batch_events (Offer_batch offer)) = (m1, Ok rec) /\
    m' = Model_record_ack m1 (Offer_from offer) (Offer_seen offer) /\ Answer_rejected answer = Received_rejected rec.
Proof.
  intros Hm. unfold Model_respond, respond. cbn [Ledger_local Model_Ledger].
  destruct (bool_decide_reflect (Offer_to offer = origin m)) as [Hto|]; cbn [negb orb]; [|done].
  destruct (bool_decide_reflect (Offer_from offer = origin m)) as [|Hfrom]; [done|].
  cbn [Ledger_cursor Model_Ledger]. destruct (seen (Model_cursor m (origin m)) <? Offer_seen offer); [done|].
  destruct (receive m (Offer_from offer) (Batch_events (Offer_batch offer))) as [m1 [rec|[]]] eqn:Hr.
  pose proof (receive_extends _ _ _ _ _ Hm Hr) as (Hm1 & Hx & _). cbn [Outbox_record_ack Model_Outbox].
  set (m2 := Model_record_ack m1 (Offer_from offer) (Offer_seen offer)).
  assert (Hm2 : history m2) by (by apply record_ack_history).
  destruct (outgoing_batch m2 (Offer_from offer) (Offer_seen offer) Hm2) as (b & k & Ho & Hb & Hmore & _).
  rewrite Ho. cbn. intros [= <- <-]. cbn. split; [apply (x_origin _ _ _ Hx)|]. split; [done|].
  split; [exists k; auto|]. split; [done|]. split; [done|]. split; [apply (x_origin _ _ _ Hx)|]. eauto 10.
Qed.

Lemma accept_complete m offer answer m' progress : Model_accept m offer answer = (m', Ok progress) ->
  Answer_from answer = Offer_to offer /\
  exists m1 rec, receive (E := Empty_set) m (Answer_from answer) (Batch_events (Answer_batch answer)) = (m1, Ok rec) /\
    m' = Model_record_ack m1 (Answer_from answer) (Answer_seen answer) /\
    progress = mkProgress rec (Answer_rejected answer)
      ((Batch_more (Offer_batch offer) && match Answer_rejected answer with None => true | _ => false end)
       || (Batch_more (Answer_batch answer) && match Received_rejected rec with None => true | _ => false end)).
Proof.
  unfold Model_accept, accept. destruct (bool_decide_reflect (Answer_from answer = Offer_to offer)) as [Hf|]; cbn [negb]; [|done].
  cbn [Ledger_cursor Ledger_local Model_Ledger]. destruct (_ <? _); [done|].
  destruct (receive m (Answer_from answer) (Batch_events (Answer_batch answer))) as [m1 [rec|[]]] eqn:Hr.
  cbn. intros [= <- <-]. split; [done|]. eauto.
Qed.

(** A complete batch that was received without a refusal has brought everything. *)
Lemma received_given n0 n o p after b m1 rec k : omitted_fits ->
  Inv machines n0 -> Inv machines (update n p (Model_record_ack m1 o k)) -> o <> p ->
  grows n0 (update n p (Model_record_ack m1 o k)) -> complete_batch (n0 o) p after b -> Batch_more b = false ->
  after <= seen (Model_cursor (n0 p) o) ->
  history (n p) -> receive (E := Empty_set) (n p) o (Batch_events b) = (m1, Ok rec) -> Received_rejected rec = None ->
  given n0 o p (update n p (Model_record_ack m1 o k)).
Proof.
  intros Hfit Hn0 Hn' Hne Hg Hb Hmore Hafter Hp Hr Hrej e He Ho.
  destruct (N.le_gt_cases (seq_of e) (seen (Model_cursor (n0 p) o))) as [Hle|Hgt].
  - apply (grows_stored n0); [done|]. by apply (held_below machines n0 o p).
  - apply (held_below machines _ o p); [done|done|by apply (grows_stored n0)|done|].
    rewrite update_same. change (seq_of e <= seen (Model_cursor m1 o)).
    assert (Hin : Event_export e p ∈ Batch_events b).
    { apply (complete_batch_in (n0 o) p after); [done|apply (i_history _ _ Hn0)|done|done|done| |lia].
      by rewrite (i_origin _ _ Hn0). }
    pose proof (receive_all _ _ _ _ _ Hp Hr Hrej _ Hin) as Hle.
    assert (Hseq : seq_of (Event_export e p) = seq_of e) by (by destruct (Event_export_cases e p) as [[-> _]|[-> _]]).
    by rewrite Hseq in Hle.
Qed.

(** *** One round, and the exchange *)

Lemma offer_happened o peer w offer w' : happens o (Op_Offer peer) w (Ok (Ok offer)) w' ->
  Model_offer (nodes w o) peer = Ok offer /\ w' = mkNet (nodes w) (offer :: offers w) (answers w).
Proof.
  assert (H : forall op x, happens o op w x w' ->
    match op return sync_answer op -> Prop with
    | Op_Offer peer => fun x => forall offer, x = Ok (Ok offer) ->
        Model_offer (nodes w o) peer = Ok offer /\ w' = mkNet (nodes w) (offer :: offers w) (answers w)
    | _ => fun _ => True
    end x) by (intros op x []; by try (intros ? [= <-])).
  intros Hh. exact (H _ _ Hh _ eq_refl).
Qed.

Lemma call_answered o machine offer deadline w answer w' :
  happens o (Op_Chat machine (ChatRequest_Exchange offer) deadline) w (Ok (ChatReply_Exchanged answer)) w' ->
  exists q m, q ∈ machines /\ offer ∈ offers w /\ Model_respond (nodes w q) offer = (m, Ok answer) /\
    w' = mkNet (update (nodes w) q m) (offers w) ((offer, answer) :: answers w).
Proof.
  assert (H : forall op x, happens o op w x w' ->
    match op return sync_answer op -> Prop with
    | Op_Chat _ request _ => fun x => forall offer answer, request = ChatRequest_Exchange offer -> x = Ok (ChatReply_Exchanged answer) ->
        exists q m, q ∈ machines /\ offer ∈ offers w /\ Model_respond (nodes w q) offer = (m, Ok answer) /\
          w' = mkNet (update (nodes w) q m) (offers w) ((offer, answer) :: answers w)
    | _ => fun _ => True
    end x).
  { intros op x []; try done.
    - intros offer' answer' [= <-] [= <-]. eauto 10.
    - intros offer' answer' _ [= ->]. by edestruct H. }
  intros Hh. exact (H _ _ Hh _ _ eq_refl eq_refl).
Qed.

Lemma accept_happened o offer answer w progress w' : happens o (Op_Accept offer answer) w (Ok (Ok progress)) w' ->
  exists m, (offer, answer) ∈ answers w /\ Offer_from offer = o /\ Model_accept (nodes w o) offer answer = (m, Ok progress) /\
    w' = mkNet (update (nodes w) o m) (offers w) (answers w).
Proof.
  assert (H : forall op x, happens o op w x w' ->
    match op return sync_answer op -> Prop with
    | Op_Accept offer answer => fun x => forall progress, x = Ok (Ok progress) ->
        exists m, (offer, answer) ∈ answers w /\ Offer_from offer = o /\ Model_accept (nodes w o) offer answer = (m, Ok progress) /\
          w' = mkNet (update (nodes w) o m) (offers w) (answers w)
    | _ => fun _ => True
    end x) by (intros op x []; try done; intros ? [= ->]; eauto 10).
  intros Hh. exact (H _ _ Hh _ eq_refl).
Qed.

Lemma classify_not_synced rejection : classify rejection <> SyncOutcome_Synced.
Proof. by destruct rejection. Qed.

(** The messages of a round that did not fail *)
Record messages (o p : Origin) (w w' : Net) (offer : Offer) (answer : Answer) (progress : Progress) (w2 w3 w4 w5 : Net) : Prop := {
  ms_offer : Model_offer (nodes w o) p = Ok offer;
  ms_offered : w2 = mkNet (nodes w) (offer :: offers w) (answers w);
  ms_sent : rtc net_step w2 w3;
  ms_answer : exists q m, q ∈ machines /\ offer ∈ offers w3 /\ Model_respond (nodes w3 q) offer = (m, Ok answer) /\
    w4 = mkNet (update (nodes w3) q m) (offers w3) ((offer, answer) :: answers w3);
  ms_returned : rtc net_step w4 w5;
  ms_accept : exists m, (offer, answer) ∈ answers w5 /\ Offer_from offer = o /\
    Model_accept (nodes w5 o) offer answer = (m, Ok progress) /\ w' = mkNet (update (nodes w5) o m) (offers w5) (answers w5)
}.

Definition finished (progress : Progress) : Prop :=
  Progress_refused progress = None /\ Received_rejected (Progress_received progress) = None /\ Progress_more progress = false.

Lemma round_runs o p (channel : Ssh) deadline rounds appended w total w' :
  runs o (exchange_rounds (S rounds) p channel deadline appended) w (Ok (SyncOutcome_Synced, total)) w' ->
  exists w1 w6 offer answer progress w2 w3 w4 w5, rtc net_step w w1 /\
    messages o p w1 w6 offer answer progress w2 w3 w4 w5 /\
    (finished progress /\ rtc net_step w6 w' \/
     exists appended', runs o (exchange_rounds rounds p channel deadline appended') w6 (Ok (SyncOutcome_Synced, total)) w').
Proof.
  cbn [exchange_rounds]. intros (w1 & x & w2 & H1 & Hoff & H).
  destruct x as [[offer|rejection]|text]; cbn in H; [|by destruct H as [[= ] _]..].
  destruct H as (w3 & x & w4 & H2 & Hcall & H).
  destruct x as [[|answer| | |]|text]; cbn in H; try (by destruct H as [[= ] _]).
  2: { destruct H as [[= Hc _] _]. by destruct (classify_not_synced _ (eq_sym Hc)). }
  destruct H as (w5 & x & w6 & H3 & Hacc & H).
  destruct x as [[progress|rejection]|text]; cbn in H; [|by destruct H as [[= ] _]..].
  exists w1, w6, offer, answer, progress, w2, w3, w4, w5. split; [done|]. split.
  { apply offer_happened in Hoff as [? ->]. split; [done|done|done|by apply call_answered in Hcall|done|by apply accept_happened]. }
  unfold finished.
  destruct (Progress_refused progress) as [rejection|]; cbn in H.
  { destruct H as [[= Hc _] _]. by destruct (classify_not_synced _ (eq_sym Hc)). }
  destruct (Received_rejected (Progress_received progress)) as [rejection|]; cbn in H.
  { destruct H as [[= Hc _] _]. by destruct (classify_not_synced _ (eq_sym Hc)). }
  destruct (Progress_more progress); cbn in H; [right; eauto|left]. by destruct H as [_ H].
Qed.

Section round.
Context (o p : Origin) (w w' : Net) (offer : Offer) (answer : Answer) (progress : Progress) (w2 w3 w4 w5 : Net).
Hypothesis Hround : messages o p w w' offer answer progress w2 w3 w4 w5.
Hypothesis Hw : reached w.
Hypothesis Ho : o ∈ machines.
Hypothesis Hne : o <> p.

Lemma ms_later2 : later w w3.
Proof.
  assert (H2 : later w w2).
  { apply (happens_later o (Op_Offer p) w (Ok (Ok offer))); [done|by intros ? [= <-]|done|].
    by apply happens_offer; [apply (ms_offer _ _ _ _ _ _ _ _ _ _ _ Hround)|apply (ms_offered _ _ _ _ _ _ _ _ _ _ _ Hround)]. }
  eapply later_trans; [exact H2|]. apply steps_later; [apply (later_reached _ _ H2)|]. apply (ms_sent _ _ _ _ _ _ _ _ _ _ _ Hround).
Qed.

Lemma ms_later4 : later w3 w4.
Proof.
  destruct (ms_answer _ _ _ _ _ _ _ _ _ _ _ Hround) as (q & m & Hq & Hin & Hr & E).
  apply steps_later; [apply (later_reached _ _ ms_later2)|]. rewrite E. apply rtc_once. clear - Hq Hin Hr. destruct w3. exact (net_respond _ _ _ _ _ _ _ Hq Hin Hr).
Qed.

Lemma ms_later5 : later w4 w5.
Proof. apply steps_later; [apply (later_reached _ _ ms_later4)|]. apply (ms_returned _ _ _ _ _ _ _ _ _ _ _ Hround). Qed.

Lemma ms_later6 : later w5 w'.
Proof.
  destruct (ms_accept _ _ _ _ _ _ _ _ _ _ _ Hround) as (m & Hin & Hf & Ha & E).
  apply steps_later; [apply (later_reached _ _ ms_later5)|]. rewrite E. apply rtc_once.
  assert (Hmem : Offer_from offer ∈ machines) by (by rewrite Hf). rewrite <- Hf in Ha |- *.
  clear - Hmem Hin Ha. destruct w5. exact (net_accept _ _ _ _ _ _ _ Hmem Hin Ha).
Qed.

(** What the offer was: what the offering machine wrote that its peer is not known to have *)
Lemma ms_offer_batch : exists b, offer = mkOffer o p (ack_of (nodes w o) p) (seen (Model_cursor (nodes w o) p)) b /\
  complete_batch (nodes w o) p (ack_of (nodes w o) p) b.
Proof.
  pose proof (reached_inv _ Hw) as Hn.
  destruct (Model_offer_batch (nodes w o) p (i_history _ _ Hn o)) as (b & k & Hb & H1 & H2 & _).
  rewrite (ms_offer _ _ _ _ _ _ _ _ _ _ _ Hround), (i_origin _ _ Hn o) in Hb. injection Hb as Hb.
  exists b. split; [exact Hb|]. by exists k.
Qed.

Hypothesis Hfit : omitted_fits.
Hypothesis Hfin : finished progress.

Lemma ms_complete : exists m1 rec m2 rec2,
  receive (E := Empty_set) (nodes w3 p) o (Batch_events (Offer_batch offer)) = (m1, Ok rec) /\
  Received_rejected rec = None /\ Batch_more (Offer_batch offer) = false /\
  nodes w4 = update (nodes w3) p (Model_record_ack m1 o (Offer_seen offer)) /\
  complete_batch (nodes w4 p) o (Offer_seen offer) (Answer_batch answer) /\ Batch_more (Answer_batch answer) = false /\
  receive (E := Empty_set) (nodes w5 o) p (Batch_events (Answer_batch answer)) = (m2, Ok rec2) /\
  Received_rejected rec2 = None /\ nodes w' = update (nodes w5) o (Model_record_ack m2 p (Answer_seen answer)).
Proof.
  pose proof (reached_inv _ (later_reached _ _ ms_later2)) as Hn3.
  destruct (ms_answer _ _ _ _ _ _ _ _ _ _ _ Hround) as (q & m & Hq & _ & Hr & H4).
  destruct ms_offer_batch as (b & Hoff & _).
  destruct (respond_complete _ _ _ _ (i_history _ _ Hn3 q) Hr) as (_ & _ & Hb & Hto & _ & Hfrom & m1 & rec & Hrec & Hm & Hrej).
  rewrite (i_origin _ _ Hn3 q) in Hto, Hfrom. rewrite Hoff in Hto. cbn in Hto. subst q.
  assert (Hof : Offer_from offer = o) by (by rewrite Hoff). rewrite Hof in Hrec, Hm, Hb.
  destruct (ms_accept _ _ _ _ _ _ _ _ _ _ _ Hround) as (m' & _ & _ & Ha & H6).
  destruct (accept_complete _ _ _ _ _ Ha) as (_ & m2 & rec2 & Hrec2 & Hm2 & Hp).
  rewrite Hfrom in Hrec2, Hm2. destruct Hfin as (F1 & F2 & F3). rewrite Hp in F1, F2, F3. cbn in F1, F2, F3.
  rewrite F1, F2 in F3. rewrite !andb_true_r in F3. apply orb_false_iff in F3 as [F3 F4].
  exists m1, rec, m2, rec2. split; [done|]. split; [by rewrite <- Hrej|]. split; [done|].
  rewrite H4, H6. cbn. rewrite update_same. split; [by rewrite Hm|]. split; [done|]. split; [done|]. split; [done|]. split; [done|]. by rewrite Hm2.
Qed.

Lemma round_given : given (nodes w) o p (nodes w') /\ given (nodes w) p o (nodes w').
Proof.
  destruct ms_complete as (m1 & rec & m2 & rec2 & R1 & J1 & B1 & N4 & C2 & B2 & R2 & J2 & N6).
  destruct ms_offer_batch as (b & Hoff & C1).
  pose proof ms_later2 as L2. pose proof ms_later4 as L4. pose proof ms_later5 as L5. pose proof ms_later6 as L6.
  pose proof (reached_inv _ Hw) as Hn. pose proof (fun x y (L : later x y) => reached_inv _ (later_reached _ _ L)) as I.
  split.
  - apply (given_later _ _ _ (nodes w4)); [|apply (later_trans _ _ _ L5 L6)]. rewrite N4.
    apply (received_given _ _ _ _ (ack_of (nodes w o) p) b m1 rec); rewrite <- ?N4; try done.
    + by eapply I.
    + apply (later_trans _ _ _ L2 L4).
    + by rewrite Hoff in B1.
    + by apply (i_acks _ _ Hn).
    + by apply (i_history _ _ (I _ _ L2)).
    + by rewrite Hoff in R1.
  - apply (given_earlier _ (nodes w4)); [apply (later_trans _ _ _ L2 L4)|]. rewrite N6.
    apply (received_given _ _ _ _ (Offer_seen offer) (Answer_batch answer) m2 rec2); rewrite <- ?N6; try done.
    + by eapply I.
    + by eapply I.
    + apply (later_trans _ _ _ L5 L6).
    + rewrite Hoff. cbn. apply cursor_mono; [apply (i_history _ _ Hn)|apply (i_history _ _ (I _ _ L4))|].
      intros id s. apply (later_grows _ _ (later_trans _ _ _ L2 L4)).
    + by apply (i_history _ _ (I _ _ L5)).
Qed.
End round.

(** *** An exchange that nothing disturbs *)

Definition synced_at_once (n : Nodes) (o p : Origin) : bool :=
  match Model_offer (n o) p with
  | Ok offer =>
      match Model_respond (n p) offer with
      | (m, Ok answer) =>
          match Model_accept (update n p m o) offer answer with
          | (_, Ok progress) =>
              match Progress_refused progress, Received_rejected (Progress_received progress) with
              | None, None => negb (Progress_more progress)
              | _, _ => false
              end
          | _ => false
          end
      | _ => false
      end
  | _ => false
  end.

Lemma synced_at_once_runs o p (channel : Ssh) deadline w : reached w -> p ∈ machines -> synced_at_once (nodes w) o p = true ->
  exists total w', runs o (ChatSync.exchange p channel deadline) w (Ok (SyncOutcome_Synced, total)) w'.
Proof.
  intros Hw Hp. unfold synced_at_once.
  destruct (Model_offer (nodes w o) p) as [offer|] eqn:Hoff; [|done].
  destruct (Model_respond (nodes w p) offer) as [m [answer|]] eqn:Hr; [|done].
  destruct (Model_accept (update (nodes w) p m o) offer answer) as [m' [progress|]] eqn:Ha; [|done].
  destruct (Progress_refused progress) eqn:E1; [done|].
  destruct (Received_rejected (Progress_received progress)) eqn:E2; [done|]. intros E3%negb_true_iff.
  assert (Hf : Offer_from offer = o).
  { pose proof (reached_inv _ Hw) as Hn. destruct (Model_offer_batch (nodes w o) p (i_history _ _ Hn o)) as (b & k & Hb & _).
    rewrite Hoff, (i_origin _ _ Hn o) in Hb. by injection Hb as ->. }
  set (w1 := mkNet (nodes w) (offer :: offers w) (answers w)).
  set (w2 := mkNet (update (nodes w) p m) (offers w1) ((offer, answer) :: answers w1)).
  set (w3 := mkNet (update (nodes w2) o m') (offers w2) (answers w2)).
  eexists _, w3. unfold ChatSync.exchange, MAX_ROUNDS. cbn [exchange_rounds].
  exists w, (Ok (Ok offer)), w1. split; [done|]. split; [by apply happens_offer|].
  exists w1, (Ok (ChatReply_Exchanged answer)), w2. split; [done|].
  split; [by apply (happens_answered o w1 _ offer _ p m answer); [|left| |]|].
  exists w2, (Ok (Ok progress)), w3. split; [done|].
  split; [by apply (happens_accept o w2 offer answer m' (Ok progress)); [left| | |]|].
  cbn. rewrite E1, E2, E3. cbn. split; [reflexivity|done].
Qed.

(** C4: When an exchange with a peer ends as synced, then the peer holds everything this machine had written
    when the exchange began, and this machine holds everything the peer had written then, each as it is for
    the one that holds it: whatever every machine of the network writes, offers, answers and accepts
    between any two messages of the exchange, and however many of its rounds it needed. *)
Theorem synced_peers_hold_each_others_events o p (channel : Ssh) deadline w total w' :
  omitted_fits -> reached w -> o ∈ machines -> o <> p ->
  runs o (ChatSync.exchange p channel deadline) w (Ok (SyncOutcome_Synced, total)) w' ->
  given (nodes w) o p (nodes w') /\ given (nodes w) p o (nodes w').
Proof.
  intros Hfit. unfold ChatSync.exchange. generalize MAX_ROUNDS, 0 => rounds appended.
  revert w appended. induction rounds as [|rounds IH]; intros w appended Hw Ho Hne H; [by destruct H as [[= ] _]|].
  apply round_runs in H as (w1 & w6 & offer & answer & progress & w2 & w3 & w4 & w5 & H1 & Hr & H).
  pose proof (steps_later _ _ Hw H1) as L1. pose proof (later_reached _ _ L1) as Hw1.
  pose proof (later_trans _ _ _ (ms_later2 _ _ _ _ _ _ _ _ _ _ _ Hr Hw1 Ho Hne)
    (later_trans _ _ _ (ms_later4 _ _ _ _ _ _ _ _ _ _ _ Hr Hw1 Ho Hne)
    (later_trans _ _ _ (ms_later5 _ _ _ _ _ _ _ _ _ _ _ Hr Hw1 Ho Hne) (ms_later6 _ _ _ _ _ _ _ _ _ _ _ Hr Hw1 Ho Hne)))) as L6.
  destruct H as [[Hfin Hend]|[appended' Hrest]].
  - pose proof (steps_later _ _ (later_reached _ _ L6) Hend) as L7.
    destruct (round_given _ _ _ _ _ _ _ _ _ _ _ Hr Hw1 Ho Hne Hfit Hfin) as [G1 G2].
    split; eapply given_earlier; try apply (later_grows _ _ L1); (eapply given_later; [|apply (later_grows _ _ L7)]); done.
  - destruct (IH _ _ (later_reached _ _ L6) Ho Hne Hrest) as [G1 G2].
    pose proof (later_grows _ _ (later_trans _ _ _ L1 L6)) as G. split; by eapply given_earlier.
Qed.
End network.

(** ** Witness *)

Section witnesses.
#[local] Existing Instance sample_codec.

Definition sample_channel : Ssh := mkSsh (mkValidated (check := check_machine) "b" I).

(** Machine A, which has asked something, exchanges with machine B. *)
Lemma synced_peers_hold_each_others_events_witness :
  exists e total w', stored (events (Network.asked machine_a)) e /\ Event_origin e = machine_a /\
    runs pair_of_machines machine_a (ChatSync.exchange machine_b sample_channel 0)
      (mkNet Network.asked [] []) (Ok (SyncOutcome_Synced, total)) w' /\
    stored (events (nodes w' machine_b)) (Event_export e machine_b).
Proof.
  destruct asked_stored as (e & He & Ho).
  destruct (synced_at_once_runs pair_of_machines machine_a machine_b sample_channel 0 (mkNet Network.asked [] []))
    as (total & w' & Hrun); [exact asked_network|right; left|vm_compute; reflexivity|].
  exists e, total, w'. split; [exact He|]. split; [exact Ho|]. split; [exact Hrun|].
  refine (proj1 (synced_peers_hold_each_others_events pair_of_machines machine_a machine_b _ _
    (mkNet Network.asked [] []) _ _ sample_omitted_fits asked_network _ machines_differ Hrun) e He Ho). left.
Defined.
End witnesses.
