(* ===== verification/SyncRuns.v ===== *)
(** What [sync_with] reports, whatever the store and the peers answer: who is reported and as what, how often
    peers are called, and that peers are missing from a report only when every pass stored something. *)

From Stdlib Require Import NArith Lia String Ascii Sorted.
From stdpp Require Import base gmap list strings pretty.
From S2P Require Import Prelude SortedLists RustStr Ids AgentLists Notification Handoff Event.
From S2P Require Import Ledger ChatWire Exchange Samples Domain Database Admin Programs ChatSync.

(** ** Traces: the operations of a run with their answers *)

Abbreviation Asked answer := {op : _ & answer op}.

Section traces.
Context {Op : Type} {answer : Op -> Type}.

Fixpoint traced {A} (p : Prog answer A) (t : list (Asked answer)) (r : A) : Prop :=
  match p with
  | Ret a => t = [] /\ r = a
  | Do op k => exists x t', t = existT op x :: t' /\ traced (k x) t' r
  end.

Lemma traced_bind {A B} (p : Prog answer A) (f : A -> Prog answer B) t r :
  traced (prog_bind p f) t r <-> exists t1 t2 a, t = t1 ++ t2 /\ traced p t1 a /\ traced (f a) t2 r.
Proof.
  revert t. induction p as [a|op k IH]; intros t; cbn [prog_bind traced].
  - split; [intros H; by exists [], t, a|]. by intros (t1 & t2 & a' & -> & [-> ->] & H).
  - split.
    + intros (x & t' & -> & (t1 & t2 & a & -> & H1 & H2)%IH). exists (existT op x :: t1), t2, a. eauto 10.
    + intros (t1 & t2 & a & -> & (x & t' & -> & H1) & H2). exists x, (t' ++ t2). split; [done|]. apply IH. eauto 10.
Qed.

Lemma traced_try {A B E} (p : Prog answer (result A E)) (f : A -> Prog answer (result B E)) t r :
  traced (prog_try p f) t r ->
  (exists e, traced p t (Err e) /\ r = Err e) \/
  (exists t1 t2 a, t = t1 ++ t2 /\ traced p t1 (Ok a) /\ traced (f a) t2 r).
Proof.
  intros (t1 & t2 & [a|e] & -> & H1 & H2)%traced_bind; [right; eauto 10|left]. cbn in H2. destruct H2 as [-> ->].
  rewrite app_nil_r. eauto.
Qed.

Lemma traced_try_Ok {A B E} (p : Prog answer (result A E)) (f : A -> Prog answer (result B E)) t b :
  traced (prog_try p f) t (Ok b) -> exists t1 t2 a, t = t1 ++ t2 /\ traced p t1 (Ok a) /\ traced (f a) t2 (Ok b).
Proof. intros [(e & _ & ?)|H]%traced_try; [done|exact H]. Qed.

Lemma traced_err {A E F} (g : E -> F) (p : Prog answer (result A E)) t r :
  traced (prog_err g p) t r -> exists r', traced p t r' /\ r = map_err g r'.
Proof.
  intros (t1 & t2 & r' & -> & H1 & H2)%traced_bind. cbn in H2. destruct H2 as [-> ->]. rewrite app_nil_r. eauto.
Qed.

(** The run in which [oracle] answers the [n]-th operation and those after it *)
Fixpoint replay {A} (oracle : nat -> forall op, answer op) (n : nat) (p : Prog answer A) : list (Asked answer) * A :=
  match p with
  | Ret a => ([], a)
  | Do op k => let '(t, a) := replay oracle (S n) (k (oracle n op)) in (existT op (oracle n op) :: t, a)
  end.

Lemma replay_traced {A} oracle (p : Prog answer A) : forall n, traced p (fst (replay oracle n p)) (snd (replay oracle n p)).
Proof.
  induction p as [a|op k IH]; intros n; cbn [traced replay]; [done|].
  specialize (IH (oracle n op) (S n)). destruct (replay oracle (S n) (k (oracle n op))) as [t a]. eauto.
Qed.

Lemma traced_call (op : Op) t x : traced (call op) t x <-> t = [existT op x].
Proof. cbn. split; [by intros (x' & t' & -> & -> & ->)|]. intros ->. eauto. Qed.
End traces.

(** ** Definitions *)

Abbreviation SyncTrace := (list (Asked sync_answer)).

(** An exchange that stored something *)
Definition stored_some (asked : Asked sync_answer) : bool :=
  match asked with
  | existT (Op_Accept _ _) (Ok (Ok progress)) => 0 <? Received_appended (Progress_received progress)
  | _ => false
  end.
Definition is_offer (asked : Asked sync_answer) : bool :=
  match asked with existT (Op_Offer _) _ => true | _ => false end.

Definition count (p : Asked sync_answer -> bool) (t : SyncTrace) : nat := length (List.filter p t).

Lemma count_app p t1 t2 : count p (t1 ++ t2) = (count p t1 + count p t2)%nat.
Proof. unfold count. by rewrite List.filter_app, length_app. Qed.

(** Peers and their links as recorded *)
Definition recorded (asked : Asked sync_answer) : list (string * LinkState * option string) :=
  match asked with
  | existT (Op_RecordLink alias link) (Ok _) => [(alias, Link_state link, Link_detail link)]
  | _ => []
  end.
Definition reported (report : PeerReport) : string * LinkState * option string :=
  (machine report, PeerReport_state report, PeerReport_detail report).

Section runs.
Context {C : Type} `{Channel C}.
Variable connect : string -> result C SyncError.
(** Channels answer calls; they do not touch the store. *)
Hypothesis quiet_channel : forall channel request deadline t r, traced (Channel_call channel request deadline) t r ->
  count stored_some t = 0%nat /\ count is_offer t = 0%nat /\ flat_map recorded t = [].

(** *** One exchange *)

(** An answer of the store that may refuse, as [??] passes it on *)
Definition passed {A} (x : result (result A Rejection) string) : result A SyncError :=
  match x with
  | Ok (Ok a) => Ok a
  | Ok (Err rejection) => Err (SyncError_Rejected rejection)
  | Err text => Err (SyncError_Store text)
  end.

Lemma offer_traced peer t r : traced (admitted (call (Op_Offer peer))) t r ->
  exists x, t = [existT (Op_Offer peer) x] /\ r = passed x.
Proof. cbn. intros ([[a|rejection]|text] & t' & -> & H1); cbn in H1; destruct H1 as [-> ->]; by eexists. Qed.

Lemma accept_traced offer answer t r : traced (admitted (call (Op_Accept offer answer))) t r ->
  exists x, t = [existT (Op_Accept offer answer) x] /\ r = passed x.
Proof. cbn. intros ([[a|rejection]|text] & t' & -> & H1); cbn in H1; destruct H1 as [-> ->]; by eexists. Qed.

Lemma exchange_rounds_counts rounds peer channel deadline : forall appended t r,
  traced (exchange_rounds rounds peer channel deadline appended) t r ->
  (count is_offer t <= rounds)%nat /\ flat_map recorded t = [] /\
  forall outcome total, r = Ok (outcome, total) -> appended < total -> (0 < count stored_some t)%nat.
Proof using quiet_channel.
  induction rounds as [|rounds IH]; intros appended t r; cbn [exchange_rounds].
  { cbn. intros [-> ->]. split; [done|]. split; [done|]. intros o n [= _ <-] Hn. lia. }
  intros [(e & (x & -> & _)%offer_traced & ->)|(t1 & t2 & offer & -> & (x & -> & _)%offer_traced & H2)]%traced_try;
    [by split; [cbn; lia|]|].
  apply traced_try in H2 as [(e & (Q1 & Q2 & Q3)%quiet_channel & ->)|(t3 & t4 & reply & -> & (Q1 & Q2 & Q3)%quiet_channel & H4)].
  { rewrite !count_app, flat_map_app, Q2, Q3. by split; [cbn; lia|]. }
  rewrite !count_app, !flat_map_app, Q1, Q2, Q3.
  assert (Hend : forall (r' : result (SyncOutcome * N) SyncError), traced (Ret r') t4 r ->
    (forall outcome total, r' = Ok (outcome, total) -> total = appended) ->
    (count is_offer [existT (Op_Offer peer) x] + (0 + count is_offer t4) <= S rounds)%nat /\
    flat_map recorded [existT (Op_Offer peer) x] ++ [] ++ flat_map recorded t4 = [] /\
    forall outcome total, r = Ok (outcome, total) -> appended < total ->
      (0 < count stored_some [existT (Op_Offer peer) x] + (0 + count stored_some t4))%nat).
  { intros r' [-> ->] Hr. split; [cbn; lia|]. split; [done|]. intros o n Hr' Hn. apply Hr in Hr'. lia. }
  destruct reply as [origin|answer| | |rejection]; [apply (Hend _ H4); done| |apply (Hend _ H4); done|apply (Hend _ H4); done|
    apply (Hend _ H4); by intros o n [= _ <-]].
  clear Hend.
  apply traced_try in H4 as [(e & (y & -> & Hy)%accept_traced & ->)|(t5 & t6 & progress & -> & (y & -> & Hy)%accept_traced & H6)];
    [by split; [cbn; lia|]|].
  assert (y = Ok (Ok progress)) as ->. { destruct y as [[a|]|]; cbn in Hy; try done. by injection Hy as ->. }
  rewrite !count_app, flat_map_app. cbv zeta in H6.
  set (now := saturating_add _ _ _) in H6.
  assert (Hnow : appended < now -> stored_some (existT (Op_Accept offer answer) (Ok (Ok progress))) = true).
  { unfold now, saturating_add. cbn. intros Hn. apply N.ltb_lt. lia. }
  assert (Hone : forall n (E : SyncOutcome * N), n < now -> n = appended ->
    (0 < count stored_some [existT (Op_Accept offer answer) (Ok (Ok progress))])%nat).
  { intros n E Hn ->. unfold count. cbn [List.filter]. rewrite (Hnow Hn). cbn. lia. }
  set (acc := existT (Op_Accept offer answer) (Ok (Ok progress)) : Asked sync_answer) in *.
  assert (Hacc : count is_offer [acc] = 0%nat /\ flat_map recorded [acc] = []) by done. destruct Hacc as [A1 A2].
  rewrite A1, A2. clearbody acc.
  destruct (match Progress_refused progress with Some _ => _ | None => _ end) as [rejection|].
  { destruct H6 as [-> ->]. split; [cbn; lia|]. split; [done|]. intros o n [= _ <-] Hn.
    specialize (Hone appended (o, now) Hn eq_refl). lia. }
  destruct (negb (Progress_more progress)).
  { destruct H6 as [-> ->]. split; [cbn; lia|]. split; [done|]. intros o n [= _ <-] Hn.
    specialize (Hone appended (o, now) Hn eq_refl). lia. }
  apply IH in H6 as (I1 & I2 & I3). split; [cbn; lia|]. split; [by rewrite I2|].
  intros o n Hr Hn. destruct (N.lt_ge_cases appended now) as [Hlt|Hge].
  - specialize (Hone appended (o, now) Hlt eq_refl). lia.
  - assert (0 < count stored_some t6)%nat by (apply (I3 o n Hr); lia). lia.
Qed.

(** *** Passes *)

Lemma sync_pass_counts deadline pending : forall deferred outcomes progressed t deferred' outcomes' progressed',
  traced (sync_pass connect pending deferred outcomes progressed deadline) t (deferred', outcomes', progressed') ->
  (count is_offer t <= MAX_ROUNDS * length pending)%nat /\ flat_map recorded t = [] /\
  map fst outcomes' = map fst outcomes ++ map fst pending /\
  (exists d, deferred' = deferred ++ d /\ d `sublist_of` pending) /\
  (progressed' = true -> progressed = true \/ (0 < count stored_some t)%nat).
Proof using quiet_channel.
  induction pending as [|[alias origin] pending IH]; intros deferred outcomes progressed t deferred' outcomes' progressed';
    cbn [sync_pass].
  { intros [-> [= -> -> ->]]. split; [cbn; lia|]. split; [done|]. split; [by rewrite app_nil_r|].
    split; [exists []; by rewrite app_nil_r|auto]. }
  intros (t1 & t2 & exchanged & -> & H1 & H2)%traced_bind.
  assert (H1' : (count is_offer t1 <= MAX_ROUNDS)%nat /\ flat_map recorded t1 = [] /\
    forall outcome total, exchanged = Ok (outcome, total) -> 0 < total -> (0 < count stored_some t1)%nat).
  { destruct (connect alias) as [channel|error]; [by apply (exchange_rounds_counts MAX_ROUNDS origin channel deadline 0)|].
    destruct H1 as [-> ->]. split; [cbn; lia|done]. }
  destruct H1' as (E1 & E2 & E3).
  set (pair := match exchanged with Ok _ => _ | Err _ => _ end) in H2. destruct pair as [outcome now] eqn:Ep. unfold pair in Ep.
  apply IH in H2 as (I1 & I2 & I3 & (d & -> & Hd) & I5).
  rewrite !count_app, flat_map_app, E2, I2. split; [cbn [length]; lia|]. split; [done|].
  split; [rewrite I3, map_app, <- app_assoc; done|]. split.
  - destruct (is_deferred outcome).
    + exists ((alias, origin) :: d). rewrite <- app_assoc. split; [done|]. by constructor.
    + exists d. split; [done|]. by constructor.
  - intros [Hnow|?]%I5; [|right; lia]. destruct exchanged as [[o n]|error]; injection Ep as <- <-; [|auto].
    apply orb_true_iff in Hnow as [?|Hn%N.ltb_lt]; [by left|]. right. specialize (E3 o n eq_refl Hn). lia.
Qed.

Lemma retried_split (names retried : list string) :
  NoDup names -> retried `sublist_of` names ->
  List.filter (fun a => negb (existsb (fun r => String.eqb r a) retried)) names ++ retried ≡ₚ names.
Proof.
  intros Hn Hs. apply NoDup_Permutation.
  - apply NoDup_app. split; [by apply NoDup_ListNoDup, List.NoDup_filter, NoDup_ListNoDup|]. split.
    + intros a [_ Ha]%list_elem_of_In%List.filter_In Hr. apply negb_true_iff, not_true_iff_false in Ha. apply Ha.
      apply existsb_exists. exists a. split; [by apply list_elem_of_In|apply String.eqb_refl].
    + by eapply sublist_NoDup.
  - done.
  - intros a. rewrite elem_of_app, list_elem_of_In, List.filter_In, <- list_elem_of_In. split.
    + intros [[? _]|Hr]; [done|]. by eapply elem_of_sublist.
    + intros Ha. destruct (decide (a ∈ retried)) as [|Hr]; [by right|left]. split; [done|].
      apply negb_true_iff, not_true_iff_false. intros (b & Hb & ->%String.eqb_eq)%existsb_exists.
      apply Hr. by apply list_elem_of_In.
Qed.

Lemma filter_names (outcomes : list (string * SyncOutcome)) (deferred : list (string * Origin)) :
  map fst (List.filter (fun '(alias, _) => negb (existsb (fun '(retry, _) => String.eqb retry alias) deferred)) outcomes)
  = List.filter (fun a => negb (existsb (fun r => String.eqb r a) (map fst deferred))) (map fst outcomes).
Proof.
  induction outcomes as [|[a o] outcomes IH]; [done|]. cbn [List.filter map fst].
  assert (E : existsb (fun '(retry, _) => String.eqb retry a) deferred
    = existsb (fun r => String.eqb r a) (map fst deferred)).
  { clear. induction deferred as [|[r x] deferred IH]; [done|]. cbn. by rewrite IH. }
  rewrite E. destruct (negb _); cbn [map fst]; by rewrite IH.
Qed.

Lemma sublist_map {A B} (f : A -> B) l k : l `sublist_of` k -> map f l `sublist_of` map f k.
Proof. induction 1; cbn; by constructor. Qed.

Lemma sync_passes_counts deadline passes : forall pending outcomes stored_any t outcomes' stored',
  traced (sync_passes connect passes pending outcomes stored_any deadline) t (outcomes', stored') ->
  NoDup (map fst outcomes ++ map fst pending) ->
  (count is_offer t <= MAX_ROUNDS * (passes * length pending))%nat /\ flat_map recorded t = [] /\
  exists lost, map fst outcomes' ++ lost ≡ₚ map fst outcomes ++ map fst pending /\
    (lost <> [] -> (passes <= count stored_some t)%nat).
Proof using quiet_channel.
  induction passes as [|passes IH]; intros pending outcomes stored_any t outcomes' stored' Ht Hd; cbn [sync_passes] in Ht.
  { destruct Ht as [-> [= -> ->]]. split; [cbn; lia|]. split; [done|]. exists (map fst pending). split; [done|].
    cbn. lia. }
  apply traced_bind in Ht as (t1 & t2 & [[deferred outcomes1] progressed] & -> & H1 & H2).
  apply sync_pass_counts in H1 as (P1 & P2 & P3 & (d & -> & P4) & P5). cbn [app] in H2. cbv zeta in H2.
  rewrite !count_app, flat_map_app, P2.
  destruct (match d with [] => true | _ => false end || negb progressed) eqn:Eb.
  { destruct H2 as [-> [= -> ->]]. split; [change (count is_offer []) with 0%nat; nia|]. split; [done|]. exists []. rewrite app_nil_r, P3. done. }
  apply orb_false_iff in Eb as [_ Ep%negb_false_iff].
  assert (Hsub : map fst d `sublist_of` map fst outcomes1).
  { rewrite P3. apply sublist_inserts_l, sublist_map, P4. }
  pose proof (retried_split (map fst outcomes1) (map fst d)) as Hperm. rewrite <- filter_names in Hperm.
  rewrite P3 in Hperm at 1. specialize (Hperm Hd Hsub).
  apply IH in H2 as (I1 & I2 & lost & I3 & I4).
  2: { rewrite Hperm, P3. exact Hd. }
  assert (Hlen : (length d <= length pending)%nat) by (by apply sublist_length).
  split; [|split; [by rewrite I2|]].
  - assert (passes * length d <= passes * length pending)%nat by nia. cbn [Nat.mul] in *. nia.
  - exists lost. rewrite I3, Hperm, P3. split; [done|]. intros Hl. specialize (I4 Hl).
    destruct (P5 Ep) as [?|?]; [done|lia].
Qed.

(** *** Recording *)

Lemma record_all_recorded outcomes : forall reports t reports',
  traced (record_all outcomes reports) t (Ok reports') ->
  count is_offer t = 0%nat /\ count stored_some t = 0%nat /\
  exists new, reports' = reports ++ new /\ map machine new = map fst outcomes /\ flat_map recorded t = map reported new.
Proof.
  induction outcomes as [|[alias outcome] outcomes IH]; intros reports t reports'; cbn [record_all].
  { intros [-> [= ->]]. split; [done|]. split; [done|]. exists []. by rewrite app_nil_r. }
  intros (t1 & t2 & report & -> & H1 & H2)%traced_try_Ok.
  assert (exists at_ state detail, report = mkPeerReport alias state detail /\
    t1 = [existT Op_Stamp at_; existT (Op_RecordLink alias (mkLink state detail at_)) (Ok tt)]) as (at_ & state & detail & -> & ->).
  { unfold record in H1. destruct (link_of outcome) as [state detail]. cbn in H1.
    destruct H1 as (at_ & t' & -> & [[]|text] & t'' & -> & H1); cbn in H1; destruct H1 as [-> H1]; [|done].
    injection H1 as ->. eauto 10. }
  apply IH in H2 as (I1 & I2 & new & -> & I4 & I5). rewrite !count_app, flat_map_app, I5.
  split; [by rewrite I1|]. split; [by rewrite I2|].
  exists (mkPeerReport alias state detail :: new). rewrite <- app_assoc. split; [done|]. cbn [map machine]. by rewrite I4.
Qed.

(** ** Properties *)

Lemma by_machine_sorted reports :
  @sort PeerReport by_machine reports ≡ₚ reports /\ map machine (@sort PeerReport by_machine reports) = sort (map machine reports).
Proof.
  assert (Hinsert : forall r l, @sort_insert PeerReport by_machine r l ≡ₚ r :: l /\
    map machine (@sort_insert PeerReport by_machine r l) = sort_insert (machine r) (map machine l)).
  { intros r l. induction l as [|x l [IH1 IH2]]; [done|]. cbn [sort_insert map].
    change (@cmp_leb PeerReport by_machine r x) with (cmp_leb (machine r) (machine x)).
    destruct (cmp_leb (machine r) (machine x)); [done|]. cbn [map]. split; [rewrite IH1; apply Permutation_swap|by rewrite IH2]. }
  induction reports as [|r reports [IH1 IH2]]; [done|]. cbn [sort foldr map].
  destruct (Hinsert r (@sort PeerReport by_machine reports)) as [H1 H2]. split.
  - change (foldr (@sort_insert PeerReport by_machine) [] reports) with (@sort PeerReport by_machine reports).
    by rewrite H1, IH1.
  - change (foldr (@sort_insert PeerReport by_machine) [] reports) with (@sort PeerReport by_machine reports).
    by rewrite H2, IH2.
Qed.

(** C5: synchronizing reports on each peer once, and ends.  Whatever the store and the peers answer and whatever
    fails, a report names only peers that were asked for, each at most once and in the order of their names, and
    the links recorded in the store are those of the report.  With [n] peers no more than [64 * n * (n + 1)]
    batches are offered.  All peers asked for are reported as long as no more than [n] exchanges stored
    something (with more, a peer whose events wait for those of another one may be missing). *)
Theorem sync_reports_each_peer_once (only : option string) (deadline : N) (t : SyncTrace) (report : Report)
    (ran : traced (sync_with connect only deadline) t (Ok report)) :
  exists peers rest, t = existT Op_Peers (Ok peers) :: rest /\
    (NoDup (map fst peers) ->
     let chosen := map fst (selected only peers) in
     let names := map machine (Report_peers report) in
     (match only with Some alias => chosen = [alias] | None => chosen = map fst peers end) /\
     NoDup names /\ Sorted cmp_le names /\ (forall name, name ∈ names -> name ∈ chosen) /\
     flat_map recorded t ≡ₚ map reported (Report_peers report) /\
     (count is_offer t <= MAX_ROUNDS * (length chosen * (length chosen + 1)))%nat /\
     ((count stored_some t <= length chosen)%nat -> names ≡ₚ chosen)).
Proof using quiet_channel.
  unfold sync_with in ran.
  apply traced_try_Ok in ran as (t1 & t2 & peers & -> & ([peers'|text] & H1 & E1)%traced_err & H2); [|done].
  injection E1 as <-. apply (traced_call (answer := sync_answer) Op_Peers) in H1 as ->. exists peers, t2. split; [done|]. intros Hd chosen names.
  destruct (unknown_peer only peers) as [alias|] eqn:Eu; [by destruct H2|].
  apply traced_bind in H2 as (t3 & t4 & [outcomes stored_any] & -> & H3 & H4).
  apply traced_try_Ok in H4 as (t5 & t6 & [] & -> & H5 & H6).
  apply traced_try_Ok in H6 as (t7 & t8 & reports & -> & H7 & [-> Hr]). injection Hr as ->.
  assert (H5' : count is_offer t5 = 0%nat /\ count stored_some t5 = 0%nat /\ flat_map recorded t5 = []).
  { destruct stored_any; [|by destruct H5 as [-> _]]. apply traced_err in H5 as ([[]|text] & ->%(traced_call (answer := sync_answer) Op_Dispatch) & _); done. }
  destruct H5' as (D1 & D2 & D3).
  assert (Hsel : NoDup (map fst (selected only peers))).
  { eapply sublist_NoDup; [exact Hd|]. apply sublist_map. unfold selected. clear.
    induction peers as [|x peers IH]; cbn; [done|]. destruct (match x with (alias, _) => _ end); by constructor. }
  apply sync_passes_counts in H3 as (P1 & P2 & lost & P3 & P4); [|exact Hsel]. cbn [map app] in P3.
  apply record_all_recorded in H7 as (R1 & R2 & new & -> & R4 & R5). cbn [app Report_peers] in *.
  destruct (by_machine_sorted new) as [S1 S2].
  assert (Hnames : names ≡ₚ map fst outcomes) by (unfold names; by rewrite S1, R4).
  assert (Hchosen : names ++ lost ≡ₚ chosen) by (by rewrite Hnames, P3).
  change (existT Op_Peers (Ok peers) :: t3 ++ t5 ++ t7 ++ []) with
    ([existT Op_Peers (Ok peers) : Asked sync_answer] ++ t3 ++ t5 ++ t7 ++ []).
  assert (Hnil : forall p, count p [] = 0%nat) by done.
  rewrite !count_app, !flat_map_app, D1, D2, D3, P2, R1, R2, R5, app_nil_r.
  split; [|split; [|split; [|split; [|split; [|split]]]]].
  - unfold chosen, selected. destruct only as [alias|]; [|clear; induction peers as [|[]]; cbn; by f_equal].
    cbn in Eu. destruct (existsb _ peers) eqn:Ex; [|done]. clear -Hd Ex. induction peers as [|[a o] peers IH]; [done|].
    cbn in *. apply NoDup_cons in Hd as [Ha Hd]. destruct (String.eqb_spec alias a) as [->|Hne].
    + rewrite String.eqb_refl in *. cbn. f_equal. clear -Ha. induction peers as [|[b o'] peers IH]; [done|]. cbn in *.
      apply not_elem_of_cons in Ha as [Hb Ha]. destruct (String.eqb_spec a b); [done|]. by apply IH.
    + destruct (String.eqb_spec a alias) as [->|]; [done|]. by apply IH.
  - eapply sublist_NoDup; [|apply (sublist_inserts_r lost); reflexivity]. rewrite Hchosen. exact Hsel.
  - unfold names. rewrite S2. apply sort_sorted.
  - intros name Hn. rewrite <- Hchosen. apply elem_of_app. by left.
  - cbn. by rewrite S1.
  - unfold chosen in *. rewrite length_map in *.
    change (count is_offer [existT Op_Peers (Ok peers)]) with 0%nat.
    set (n := length (selected only peers)) in *. replace (n * (n + 1))%nat with (S n * n)%nat by lia. rewrite Hnil. lia.
  - intros Hc. rewrite <- Hchosen. destruct lost as [|x lost]; [by rewrite app_nil_r|]. exfalso.
    specialize (P4 ltac:(done)). unfold chosen in Hc. rewrite length_map in Hc.
    change (count stored_some [existT Op_Peers (Ok peers)]) with 0%nat in Hc. rewrite Hnil in Hc. lia.
Qed.
End runs.

(** ** Samples *)

Lemma Ssh_quiet (channel : Ssh) request deadline t r : traced (Channel_call channel request deadline) t r ->
  count stored_some t = 0%nat /\ count is_offer t = 0%nat /\ flat_map recorded t = [].
Proof.
  cbn [Channel_call Ssh_Channel]. intros ([reply|text] & ->%(traced_call (answer := sync_answer) (Op_Chat _ _ _)) & _)%traced_err; done.
Qed.

Definition two_peers : list (string * Origin) := [("a"%string, machine_a); ("b"%string, machine_b)].
Definition some_offer : Offer := mkOffer machine_a machine_b 0 0 Batch_default.
Definition some_answer : Answer := mkAnswer machine_b 0 Batch_default None.

(** Each peer gives one new event and then one that depends on an event it does not hold itself. *)
Definition interlocked (n : nat) (op : SyncOp) : sync_answer op :=
  match op with
  | Op_Peers => Ok two_peers
  | Op_Offer _ => Ok (Ok some_offer)
  | Op_Accept _ _ => Ok (Ok (mkProgress (mkReceived 1 1 (Some (Rejection_MissingDependency ask_id ask_id))) None true))
  | Op_Respond _ => Ok (Ok some_answer)
  | Op_RecordLink _ _ | Op_Publish | Op_Dispatch | Op_Watch _ | Op_Pulse _ => Ok tt
  | Op_LocalSeen => Ok 0
  | Op_Stamp => Stamp_from_unix_millis 0
  | Op_Chat _ _ _ => Ok (ChatReply_Exchanged some_answer)
  | Op_After seconds => seconds
  | Op_Expired _ | Op_Abandoned => false
  end.
(** The same, with peers that cannot be reached *)
Definition unreachable (n : nat) (op : SyncOp) : sync_answer op :=
  match op with
  | Op_Chat _ _ _ => Err "no route"%string
  | op => interlocked n op
  end.

(** When every pass stores something, peers that are deferred are neither reported nor recorded, and the
    report counts as complete. *)
Example deferred_peers_go_unreported :
  snd (replay interlocked 0 (sync None 0)) = Ok (mkReport []) /\ Report_complete (mkReport []) = true /\
  flat_map recorded (fst (replay interlocked 0 (sync None 0))) = [] /\
  count stored_some (fst (replay interlocked 0 (sync None 0))) = 6%nat.
Proof. vm_compute. auto. Qed.

Lemma sync_reports_each_peer_once_witness :
  snd (replay unreachable 0 (sync None 0)) =
    Ok (mkReport [mkPeerReport "a" LinkState_Failed (Some "no route"%string);
                  mkPeerReport "b" LinkState_Failed (Some "no route"%string)]) /\
  (count is_offer (fst (replay unreachable 0 (sync None 0))) <= MAX_ROUNDS * 6)%nat.
Proof.
  split; [vm_compute; reflexivity|].
  pose proof (replay_traced unreachable (sync None 0) 0) as Ht.
  set (report := mkReport [mkPeerReport "a" LinkState_Failed (Some "no route"%string);
                  mkPeerReport "b" LinkState_Failed (Some "no route"%string)]).
  assert (Hr : snd (replay unreachable 0 (sync None 0)) = Ok report) by (vm_compute; reflexivity).
  rewrite Hr in Ht.
  destruct (sync_reports_each_peer_once Ssh_new Ssh_quiet None 0 _ report Ht) as (peers & rest & Et & H).
  assert (Ep : peers = two_peers).
  { assert (Eh : head (fst (replay unreachable 0 (sync None 0))) = Some (existT Op_Peers (Ok two_peers))) by (vm_compute; reflexivity).
    rewrite Et in Eh. apply (f_equal (fun a : option (Asked sync_answer) =>
      match a with Some (existT Op_Peers (Ok peers)) => peers | _ => [] end)) in Eh. exact Eh. }
  subst peers. destruct H as (_ & _ & _ & _ & _ & H & _); [|exact H].
  apply (bool_decide_unpack (NoDup (map fst two_peers))). vm_compute. exact I.
Defined.
