(* ===== verification/Runner.v ===== *)
(** chat/runner.rs: launching a worker for each agent that has asks to answer, and the worker, which answers
    them one turn after the other; with the locks of chat/store.rs and the launching of process.rs.  The
    functions are programs whose operations are carried out on one site: the store of a machine, the
    locks of its agents and the processes that were launched on it. *)

From Stdlib Require Import NArith Lia String Ascii.
From stdpp Require Import base gmap list strings.
From S2P Require Import Prelude SortedLists RustStr Ids AgentLists Notification Handoff Event.
From S2P Require Import Ledger Policy Database Wire Views Tx Acts Turns Values Provider Programs.

(** ** Definitions *)

(** [layout::AgentLock] *)
Inductive AgentLock := AgentLock_Launch | AgentLock_Queue.

(** Errors of processes carry what they display as. *)
Inductive RunnerError (S : Type) :=
| RunnerError_Store (error : StoreError S)
| RunnerError_Process (text : string)
| RunnerError_Launch (text : string)
| RunnerError_Incomplete
| RunnerError_Invalid (invalid : Invalid)
| RunnerError_NotLocal (agent : string)
| RunnerError_SessionChanged.
Arguments RunnerError_Store {S} _.
Arguments RunnerError_Process {S} _.
Arguments RunnerError_Launch {S} _.
Arguments RunnerError_Incomplete {S}.
Arguments RunnerError_Invalid {S} _.
Arguments RunnerError_NotLocal {S} _.
Arguments RunnerError_SessionChanged {S}.

(** [process::chat::Invocation] *)
Record Invocation := mkInvocation {
  Invocation_tool : Tool;
  Invocation_access : Access;
  Invocation_cwd : string;
  Invocation_session : option string;
  Invocation_prompt : string;
  Invocation_agent : AgentId;
  Invocation_turn : EventId
}.

(** What launching reads from a worker that is ready *)
Definition READY : list N := [82].

Section runner.
Context {D S : Type} `{!Redb D S} `{codec : !Codec} `{records : !StoreCodec}.

(** *** What is asked of the site *)

(** The last five are of the model: a process reads its arguments, notes how it ended, returns, goes on beyond the
    rounds that were given to it, and other programs of the machine use the store. *)
Inductive RunnerOp :=
| Op_Open
| Op_Dispatchable
| Op_Lock (agent : AgentId)
| Op_TryLock (probe : bool) (agent : AgentId)
| Op_Drop (lock : AgentLock) (agent : AgentId)
| Op_Unwind (lock : AgentLock) (agent : AgentId)
| Op_OpenLog
| Op_Spawn (agent : string)
| Op_Signal (child : N)
| Op_Announce
| Op_Recover (agent : AgentId)
| Op_Claim (agent : AgentId)
| Op_Finish (turn : Turn) (completion : Completion)
| Op_Place (turn : Turn) (conversation : Conversation) (asker : AgentId)
| Op_Run (invocation : Invocation)
| Op_Complain (request : EventId) (error : RunnerError S)
| Op_Argument
| Op_Note (fine : bool)
| Op_Return
| Op_Onward
| Op_Elsewhere (store : Store D).

Definition runner_answer (op : RunnerOp) : Type :=
  match op with
  | Op_Open => result Origin (StoreError S)
  | Op_Dispatchable => result (list AgentId) (StoreError S)
  | Op_Lock _ => result unit (StoreError S)
  | Op_TryLock _ _ => result bool (StoreError S)
  | Op_OpenLog => result unit (StoreError S)
  | Op_Spawn _ => result N string
  | Op_Signal _ => result (list N) string
  | Op_Announce => result unit string
  | Op_Recover _ => result N (StoreError S)
  | Op_Claim _ => result (option Turn) (StoreError S)
  | Op_Finish _ _ => result unit (StoreError S)
  | Op_Place _ _ _ => result string (StoreError S)
  | Op_Run _ => result (list N) string
  | Op_Argument => string
  | Op_Drop _ _ | Op_Unwind _ _ | Op_Complain _ _ | Op_Note _ | Op_Return | Op_Onward | Op_Elsewhere _ => unit
  end.

Abbreviation RunnerProg A := (Prog runner_answer (result A (RunnerError S))).

Definition of_store {A} (p : Prog runner_answer (result A (StoreError S))) : RunnerProg A := prog_err RunnerError_Store p.

(** A guard goes out of scope at the end of [body], *)
Definition dropping {A} (lock : AgentLock) (agent : AgentId) (body : RunnerProg A) : RunnerProg A :=
  let~ r := body in
  do~ call (Op_Drop lock agent) in
  Ret r.
(** or only where [body] fails, as the error is passed on, since otherwise it is dropped by hand. *)
Definition dropping_on_error {A} (lock : AgentLock) (agent : AgentId) (body : RunnerProg A) : RunnerProg A :=
  let~ r := body in
  match r with
  | Ok a => prog_ok a
  | Err e => do~ call (Op_Unwind lock agent) in prog_fail e
  end.

(** *** Dispatching *)

(** [process::launch_chat_worker], as [launch_worker_command] of process/unix.rs has it *)
Definition launch_chat_worker (agent : string) : RunnerProg unit :=
  let^ child := prog_err RunnerError_Launch (call (Op_Spawn agent)) in
  let^ signal := prog_err RunnerError_Launch (call (Op_Signal child)) in
  if bool_decide (signal = READY) then prog_ok tt
  else prog_fail (RunnerError_Launch "the worker exited before announcing readiness: no readiness signal").

Definition dispatch_one (agent : AgentId) : RunnerProg unit :=
  do^ of_store (call (Op_Lock agent)) in
  dropping AgentLock_Launch agent
    (let^ free := of_store (call (Op_TryLock true agent)) in
     if (free : bool) then
       do~ call (Op_Drop AgentLock_Queue agent) in
       do^ of_store (call Op_OpenLog) in
       launch_chat_worker (AgentId_fmt agent)
     else prog_ok tt).

Definition dispatch : RunnerProg unit :=
  let^ agents := of_store (call Op_Dispatchable) in
  prog_for agents dispatch_one.

(** *** One turn *)

Definition describe (card : option Card) (agent : AgentId) : string :=
  match card with
  | None => AgentId_fmt agent
  | Some card =>
      (as_str (display_name card) ++ " (" ++ AgentId_fmt agent ++ ")" ++
       match role card with Some role => ", " ++ as_str role | None => "" end)%string
  end.

Definition quotation (text : string) : string :=
  String (ascii_of_N 34) (text ++ String (ascii_of_N 34) EmptyString).

(** What the transaction of [prompt] reads *)
Definition place (d : D) (conversation : Conversation) (asker : AgentId) : result string (StoreError S) :=
  let? asker_card := view_profile d asker in
  let? place :=
    match conversation with
    | Conversation_Direct _ => Ok "a direct message"%string
    | Conversation_Room named =>
        let? state := view_room d named in
        let topic := match option_bind _ _ Room_topic state with
                     | Some topic => (" about " ++ quotation (as_str topic))%string
                     | None => EmptyString
                     end in
        Ok ("the room " ++ as_str (RoomId_name named) ++ topic)%string
    end in
  Ok (describe asker_card asker ++ " asked you in " ++ place)%string.

Definition line_end : string := String (ascii_of_N 10) EmptyString.

Definition prompt (turn : Turn) : RunnerProg string :=
  match Event_body (Turn_request turn) with
  | Body_Message conversation _ text _ _ _ _ =>
      let^ asker := prog_lift (ok_or (Event_author (Turn_request turn))
                                 (RunnerError_Store (StoreError_Corrupt "an ask has an author"))) in
      let^ place := of_store (call (Op_Place turn conversation asker)) in
      prog_ok ("You are " ++ describe (Some (Turn_card turn)) (Turn_agent turn) ++ "." ++ line_end ++
               place ++ "; the message ID is " ++ EventId_fmt (Event_id (Turn_request turn)) ++ "." ++ line_end ++ line_end ++
               as_str text ++ line_end ++ line_end ++
               "Give your answer as your final response; domyjob stores it as the reply to this exact message." ++ line_end ++
               "To consult another agent, find one with the chat_directory tool and ask it with chat_ask.")%string
  | _ => prog_fail (RunnerError_Store (StoreError_Corrupt "a turn answers a message"))
  end.

(** [serde_json::from_slice] *)
Context (from_slice : list N -> option Value).

Definition run_turn (turn : Turn) : RunnerProg Completion :=
  let^ prompt := prompt turn in
  let^ output := prog_err RunnerError_Process
    (call (Op_Run (mkInvocation (tool (Turn_card turn)) (access (Turn_card turn)) (LocalAgent_cwd (Turn_config turn))
                     (LocalAgent_session (Turn_config turn)) prompt (Turn_agent turn) (Event_id (Turn_request turn))))) in
  let^ answer := prog_lift (map_err (fun _ => RunnerError_Incomplete) (provider_parse from_slice (tool (Turn_card turn)) output)) in
  if match LocalAgent_session (Turn_config turn) with
     | Some previous => negb (bool_decide (previous = Answer_session answer))
     | None => false
     end
  then prog_fail RunnerError_SessionChanged else
  let^ text := prog_lift (map_err RunnerError_Invalid (Text_try_from (Answer_text answer))) in
  prog_ok (Completion_Answered text (Answer_session answer)).

(** *** The worker *)

(** The loop, with [rounds] of it left; [None] when they are used up *)
Fixpoint worker_rounds (rounds : nat) (agent : AgentId) : RunnerProg (option unit) :=
  match rounds with
  | O => prog_ok None
  | Datatypes.S rounds =>
      do^ of_store (call (Op_Lock agent)) in
      let^ claimed := dropping_on_error AgentLock_Launch agent (of_store (call (Op_Claim agent))) in
      match claimed with
      | None =>
          do~ call (Op_Drop AgentLock_Queue agent) in
          do~ call (Op_Drop AgentLock_Launch agent) in
          prog_ok (Some tt)
      | Some turn =>
          do~ call (Op_Drop AgentLock_Launch agent) in
          let~ ran := run_turn turn in
          let~ completion :=
            match ran with
            | Ok completion => Ret completion
            | Err error =>
                do~ call (Op_Complain (Event_id (Turn_request turn)) error) in
                Ret Completion_Failed
            end in
          do^ of_store (call (Op_Finish turn completion)) in
          worker_rounds rounds agent
      end
  end.

Definition worker (rounds : nat) (agent : string) : RunnerProg (option unit) :=
  let^ origin := of_store (call Op_Open) in
  let^ agent := prog_lift (map_err RunnerError_Invalid (AgentId_try_from agent)) in
  if negb (bool_decide (AgentId_origin agent = origin)) then prog_fail (RunnerError_NotLocal (AgentId_fmt agent)) else
  let^ guard := of_store (call (Op_TryLock false agent)) in
  if (guard : bool) then
    dropping_on_error AgentLock_Queue agent
      (do^ prog_err RunnerError_Launch (call Op_Announce) in
       do^ of_store (call (Op_Recover agent)) in
       worker_rounds rounds agent)
  else
    do^ prog_err RunnerError_Launch (call Op_Announce) in
    prog_ok (Some tt).

(** *** Processes *)

Definition dispatcher : Prog runner_answer unit :=
  let~ r := dispatch in
  call (Op_Note (is_ok r)).
Definition chat_worker (rounds : nat) : Prog runner_answer unit :=
  let~ agent := call Op_Argument in
  let~ ended := worker rounds agent in
  match ended with
  | Ok None => call Op_Onward
  | _ => call Op_Return
  end.
Definition elsewhere (store : Store D) : Prog runner_answer unit := call (Op_Elsewhere store).

(** *** The site *)

(** What happened, oldest first, with the process that did it; [Looked] has the store that was looked at, [Idled]
    the one in which nothing was left to claim. *)
Inductive Happening :=
| Looked (t : N) (store : Store D) (found : list AgentId)
| Locked (t : N) (agent : AgentId)
| Spawned (t : N) (child : N) (agent : string)
| Recovered (t : N) (agent : AgentId)
| Claimed (t : N) (turn : Turn)
| Idled (t : N) (agent : AgentId) (store : Store D)
| Finished (t : N) (turn : Turn)
| GaveUp (t : N) (agents : list AgentId)
| Noted (t : N) (fine : bool).

(** Of the lock of an agent's queue it is known who has it, and whether to work or only to see that it is free. *)
Record Site := mkSite {
  store : Store D;
  launches : gmap AgentId N;
  queues : gmap AgentId (N * bool);
  arguments : gmap N string;
  announced : gset N;
  happened : list Happening
}.

(** What the system, the clock and the clients of language models add to an operation *)
Record RunnerChoice := mkRunnerChoice {
  Choice_fails : option (StoreError S);
  Choice_refused : option string;
  Choice_rung : result unit S;
  Choice_now : Stamp;
  Choice_answered : Stamp;
  Choice_child : N;
  Choice_delivered : bool;
  Choice_output : result (list N) string
}.

Definition set_site (w : Site) (s : Store D) (new : list Happening) : Site :=
  mkSite s (launches w) (queues w) (arguments w) (announced w) (happened w ++ new).

(** The end of a lock *)
Definition drop_queue (t : N) (agent : AgentId) (w : Site) : Site :=
  match queues w !! agent with
  | Some (holder, _) =>
      if bool_decide (holder = t)
      then mkSite (store w) (launches w) (delete agent (queues w)) (arguments w) (announced w) (happened w)
      else w
  | None => w
  end.
(** The end of a lock because of an error: a worker that had its queue gives up. *)
Definition unwind_queue (t : N) (agent : AgentId) (w : Site) : Site :=
  set_site (drop_queue t agent w) (store w)
    (if bool_decide (queues w !! agent = Some (t, false)) then [GaveUp t [agent]] else []).
Definition drop_launch (t : N) (agent : AgentId) (w : Site) : Site :=
  if bool_decide (launches w !! agent = Some t)
  then mkSite (store w) (delete agent (launches w)) (queues w) (arguments w) (announced w) (happened w)
  else w.

Definition tried {A} (c : RunnerChoice) (w : Site) (effect : Site * result A (StoreError S)) :
  option (Site * result A (StoreError S)) :=
  Some (match Choice_fails c with Some e => (w, Err e) | None => effect end).

(** The locks that a process leaves behind are free. *)
Definition released (t : N) (w : Site) : Site :=
  mkSite (store w) (filter (fun entry => entry.2 <> t) (launches w)) (filter (fun entry => entry.2.1 <> t) (queues w))
    (arguments w) (announced w) (happened w).

(** An operation of a process; [None] while it waits *)
Definition runner_perform (t : N) (c : RunnerChoice) (op : RunnerOp) (w : Site) : option (Site * runner_answer op) :=
  match op return option (Site * runner_answer op) with
  | Op_Open => tried c w (w, Ok (Store_origin (store w)))
  | Op_Dispatchable =>
      tried c w (let '(s, r) := Store_dispatchable (Choice_rung c) (store w) in
                 (set_site w s (match r with Ok found => [Looked t (store w) found] | Err _ => [] end), r))
  | Op_Lock agent =>
      match Choice_fails c, launches w !! agent with
      | Some e, _ => Some (w, Err e)
      | None, Some _ => None
      | None, None =>
          Some (mkSite (store w) (<[agent := t]> (launches w)) (queues w) (arguments w) (announced w)
                  (happened w ++ [Locked t agent]), Ok tt)
      end
  | Op_TryLock probe agent =>
      tried c w (match queues w !! agent with
                 | Some _ => (w, Ok false)
                 | None => (mkSite (store w) (launches w) (<[agent := (t, probe)]> (queues w)) (arguments w) (announced w)
                              (happened w), Ok true)
                 end)
  | Op_Drop AgentLock_Queue agent => Some (drop_queue t agent w, tt)
  | Op_Unwind AgentLock_Queue agent => Some (unwind_queue t agent w, tt)
  | Op_Drop AgentLock_Launch agent | Op_Unwind AgentLock_Launch agent => Some (drop_launch t agent w, tt)
  | Op_OpenLog => tried c w (w, Ok tt)
  | Op_Spawn agent =>
      match Choice_refused c with
      | Some text => Some (w, Err text)
      | None =>
          match arguments w !! Choice_child c with
          | Some _ => None
          | None =>
              Some (mkSite (store w) (launches w) (queues w) (<[Choice_child c := agent]> (arguments w)) (announced w)
                      (happened w ++ [Spawned t (Choice_child c) agent]), Ok (Choice_child c))
          end
      end
  | Op_Signal child =>
      Some (w, match Choice_refused c with
               | Some text => Err text
               | None => Ok (if bool_decide (child ∈ announced w) then READY else [])
               end)
  | Op_Announce =>
      let w' := mkSite (store w) (launches w) (queues w) (arguments w) ({[t]} ∪ announced w) (happened w) in
      Some (match Choice_refused c with
            | Some text => (if Choice_delivered c then w' else w, Err text)
            | None => (w', Ok tt)
            end)
  | Op_Recover agent =>
      tried c w (let '(s, r) := Store_recover (Choice_rung c) (store w) (Choice_now c) agent in
                 (set_site w s [Recovered t agent], r))
  | Op_Claim agent =>
      tried c w (let '(s, r) := Store_claim (Choice_rung c) (store w) (Choice_now c) agent in
                 (set_site w s (match r with
                                | Ok (Some turn) => [Claimed t turn]
                                | Ok None => [Idled t agent s]
                                | Err _ => []
                                end), r))
  | Op_Finish turn completion =>
      tried c w (let '(s, r) := Store_finish (Choice_rung c) (store w) (Choice_answered c) (Choice_now c) turn completion in
                 (set_site w s (match r with Ok _ => [Finished t turn] | Err _ => [] end), r))
  | Op_Place turn conversation asker =>
      tried c w (w, Store_read (store w) (fun d => place d conversation asker))
  | Op_Run _ => Some (w, Choice_output c)
  | Op_Complain _ _ => Some (w, tt)
  | Op_Argument => match arguments w !! t with Some agent => Some (w, agent) | None => None end
  | Op_Note fine => Some (set_site w (store w) [Noted t fine], tt)
  | Op_Return => Some (released t w, tt)
  | Op_Onward => None
  | Op_Elsewhere s => Some (set_site w s [], tt)
  end.

(** What is left of a process that is over, be it that it was killed: those it worked for are given up. *)
Definition working (t : N) (w : Site) : list AgentId :=
  map fst (filter (fun entry => entry.2 = (t, false)) (map_to_list (queues w))).
Definition runner_over (t : N) (w : Site) : Site :=
  set_site (released t w) (store w) [GaveUp t (working t w)].

Inductive runner_startable : Prog runner_answer unit -> Prop :=
| startable_dispatcher : runner_startable dispatcher
| startable_chat_worker rounds : runner_startable (chat_worker rounds)
| startable_elsewhere s : runner_startable (elsewhere s).
End runner.
Arguments RunnerOp D S : clear implicits.
Arguments Site D : clear implicits.
Arguments Happening D : clear implicits.
Arguments RunnerChoice S : clear implicits.
