(* ===== verification/RunnerSteps.v ===== *)
(** What every process keeps to that dispatches or works for the agents of a machine, and what therefore holds of
    the site at all times: what was launched is known, agents that were found to have asks are looked after,
    turns are worked on one after the other.  Then each operation as a step that its process guarantees, and
    what a process knows that no other one changes. *)

From Stdlib Require Import NArith Lia String Ascii.
From stdpp Require Import base gmap list strings relations.
From S2P Require Import Prelude SortedLists RustStr Ids AgentLists Notification Handoff Event.
From S2P Require Import Ledger Policy Database Wire Views Tx Acts Turns Values Provider Programs Runner.

Section steps.
Context {D S : Type} `{!Redb D S} `{codec : !Codec} `{records : !StoreCodec}.
Implicit Types (w : Site D) (e : Happening D) (a : AgentId) (i k : nat).

(** ** Definitions *)

Definition runner_exec (t : N) (op : RunnerOp D S) w (x : runner_answer op) w' : Prop := performs runner_perform t op w x w'.

(** Something happened at the place [i] of the history or later. *)
Definition since w i e : Prop := exists k, (i <= k)%nat /\ happened w !! k = Some e.

(** A worker found nothing left to do for the agent, or gave up. *)
Definition served e a : Prop := (exists t store, e = Idled t a store) \/ exists t agents, e = GaveUp t agents /\ a ∈ agents.

(** Since the place [i], the agent is looked after: a worker was done with it, or one has its queue and
    will look at its asks again. *)
Definition attended w a i : Prop :=
  (exists e, since w i e /\ served e a) \/
  exists h, queues w !! a = Some (h, false) /\ (launches w !! a = Some h -> since w i (Locked h a)).

(** A claimed turn was finished, or the worker that claimed it gave up. *)
Definition closes e (t : N) (turn : Turn) : Prop :=
  e = Finished t turn \/ exists agents, e = GaveUp t agents /\ Turn_agent turn ∈ agents.
Definition settled w i (t : N) (turn : Turn) : Prop :=
  exists k e, (i < k)%nat /\ happened w !! k = Some e /\ closes e t turn.

Definition by_ e : N :=
  match e with
  | Looked t _ _ | Locked t _ | Spawned t _ _ | Recovered t _ | Claimed t _ | Idled t _ _ | Finished t _ | GaveUp t _
  | Noted t _ => t
  end.
(** The agent whose turns an event is about *)
Definition concerns e : option AgentId :=
  match e with
  | Claimed _ turn => Some (Turn_agent turn)
  | Recovered _ a | Idled _ a _ => Some a
  | _ => None
  end.

(** An ask of a managed agent of this machine, claimed or not *)
Definition asked (s : Store D) (request : EventId) a : Prop :=
  exists asks card config, view_open_asks (Store_database s) = Ok (E := StoreError S) asks /\ (request, a) ∈ asks /\
    AgentId_origin a = Store_origin s /\ view_profile (Store_database s) a = Ok (E := StoreError S) (Some card) /\
    mode card = Mode_Managed /\ agent_config (Store_database s) (AgentId_name a) = Ok (E := StoreError S) (Some config).

Record RunnerInv w : Prop := {
  inv_probe : forall a h, queues w !! a = Some (h, true) -> launches w !! a = Some h;
  inv_announced : forall c, c ∈ announced w -> is_Some (arguments w !! c);
  inv_spawned : forall i d c s, happened w !! i = Some (Spawned d c s) -> arguments w !! c = Some s;
  inv_covered : forall i d c a, happened w !! i = Some (Spawned d c (AgentId_fmt a)) -> c ∈ announced w ->
    launches w !! a = Some d -> ~ since w i (Locked d a) -> attended w a i;
  inv_spawner : forall a d b i c, queues w !! a = Some (d, b) -> launches w !! a = Some d ->
    happened w !! i = Some (Spawned d c (AgentId_fmt a)) -> since w i (Locked d a);
  inv_noted : forall i j d s found a, happened w !! i = Some (Looked d s found) -> happened w !! j = Some (Noted d true) ->
    (i < j)%nat -> (forall k s' f', (i < k < j)%nat -> happened w !! k <> Some (Looked d s' f')) ->
    a ∈ found -> attended w a i;
  inv_looked : forall i t s found request a, happened w !! i = Some (Looked t s found) -> asked s request a -> a ∈ found;
  inv_idled : forall i t a s, happened w !! i = Some (Idled t a s) -> open_for (Store_database s) a = Ok (E := StoreError S) [];
  inv_claimed : forall i t turn, happened w !! i = Some (Claimed t turn) ->
    settled w i t turn \/ queues w !! Turn_agent turn = Some (t, false);
  inv_alone : forall i j t turn e, happened w !! i = Some (Claimed t turn) -> happened w !! j = Some e -> (i < j)%nat ->
    concerns e = Some (Turn_agent turn) -> exists k e, (i < k < j)%nat /\
      happened w !! k = Some e /\ closes e t turn
}.

(** What a process may add to the history *)
Record allowed (t : N) w e : Prop := {
  allowed_by : by_ e = t;
  allowed_concerns : forall a, concerns e = Some a -> queues w !! a = Some (t, false);
  allowed_spawn : forall d c s, e = Spawned d c s -> arguments w !! c = None
}.

Record runner_guar (t : N) w w' : Prop := {
  guar_launches : forall a h, h <> t -> launches w' !! a = Some h <-> launches w !! a = Some h;
  guar_queues : forall a h b, h <> t -> queues w' !! a = Some (h, b) <-> queues w !! a = Some (h, b);
  guar_happened : exists new, happened w' = happened w ++ new /\ Forall (allowed t w) new /\
    forall a, launches w' !! a = Some t -> launches w !! a = Some t \/ Locked t a ∈ new;
  guar_attended : forall a i, (i <= length (happened w))%nat -> attended w a i -> attended w' a i;
  guar_arguments : forall c s, arguments w !! c = Some s -> arguments w' !! c = Some s;
  guar_announced : forall c, c <> t -> c ∈ announced w' <-> c ∈ announced w
}.

(** The locks a process has *)
Definition has (t : N) (launch : option AgentId) (queue : option (AgentId * bool)) w : Prop :=
  (forall a, launches w !! a = Some t <-> launch = Some a) /\
  (forall a b, queues w !! a = Some (t, b) <-> queue = Some (a, b)).

Abbreviation oks := (ok runner_exec RunnerInv runner_guar).
Abbreviation stables := (stable RunnerInv runner_guar).
Definition anything w w' : Prop := True.

(** ** Histories that grow *)

Lemma since_grow w w' new i e : happened w' = happened w ++ new -> since w i e -> since w' i e.
Proof. intros Hn (k & Hk & He). exists k. split; [done|]. rewrite Hn. by apply lookup_app_l_Some. Qed.

Lemma since_new w w' e i : happened w' = happened w ++ [e] -> (i <= length (happened w))%nat -> since w' i e.
Proof. intros Hn Hi. exists (length (happened w)). split; [done|]. rewrite Hn. by apply list_lookup_middle. Qed.

Lemma since_lt w i e : since w i e -> (i < length (happened w))%nat.
Proof. intros (k & Hk & He%lookup_lt_Some). lia. Qed.

Lemma since_app w w' new i e : happened w' = happened w ++ new -> since w' i e -> since w i e \/ e ∈ new.
Proof.
  intros Hn (k & Hk & He). rewrite Hn in He. apply lookup_app_Some in He as [He|[_ He]].
  - left. by exists k.
  - right. by apply list_elem_of_lookup_2 in He.
Qed.

Lemma settled_grow w w' new i t turn : happened w' = happened w ++ new -> settled w i t turn -> settled w' i t turn.
Proof.
  intros Hn (k & e & Hk & He & Hc). exists k, e. split; [done|]. split; [|done]. rewrite Hn. by apply lookup_app_l_Some.
Qed.

Lemma lookup_grow w w' new i e : happened w' = happened w ++ new -> happened w !! i = Some e -> happened w' !! i = Some e.
Proof. intros -> H. by apply lookup_app_l_Some. Qed.

(** Going on being looked after *)
Lemma attended_grow w w' new a i : happened w' = happened w ++ new ->
  (forall h, queues w !! a = Some (h, false) -> (launches w !! a = Some h -> since w i (Locked h a)) ->
     queues w' !! a = Some (h, false) /\ (launches w' !! a = Some h -> launches w !! a = Some h \/ since w' i (Locked h a)) \/
     exists e, since w' i e /\ served e a) ->
  attended w a i -> attended w' a i.
Proof.
  intros Hn Hq [(e & He & Hs)|(h & Hh & Hl)]; [left; exists e; split; [by eapply since_grow|done]|].
  destruct (Hq h Hh Hl) as [[Hh' Hl']|He]; [right; exists h; split; [done|]|by left].
  intros [H|H]%Hl'; [|done]. eapply since_grow; [exact Hn|auto].
Qed.

Lemma attended_lt w a i j : attended w a j -> (i <= j)%nat -> attended w a i.
Proof.
  assert (Hs : forall e, since w j e -> (i <= j)%nat -> since w i e) by (intros e (k & Hk & He) Hij; exists k; split; [lia|done]).
  intros [(e & He & Hv)|(h & Hh & Hl)] Hij; [left|right]; eauto 10.
Qed.

Lemma attended_same w w' new a i : happened w' = happened w ++ new -> queues w' = queues w -> launches w' = launches w ->
  attended w a i -> attended w' a i.
Proof. intros Hn Hq Hl. eapply attended_grow; [exact Hn|]. intros h Hh _. left. rewrite Hq, Hl. auto. Qed.

(** ** The invariant, step by step *)

(** All turns of an agent that the process claimed are settled. *)
Definition quiet (t : N) a w : Prop :=
  forall i turn, happened w !! i = Some (Claimed t turn) -> Turn_agent turn = a -> settled w i t turn.

(** What a step of [t] that adds at most one event has to keep, beyond what it guarantees the others *)
Record sound_step (t : N) w w' (new : list (Happening D)) : Prop := {
  step_guar : runner_guar t w w';
  step_happened : happened w' = happened w ++ new;
  step_one : new = [] \/ exists e, new = [e];
  step_probe : forall a h, queues w' !! a = Some (h, true) -> launches w' !! a = Some h;
  step_announced : forall c, c ∈ announced w' -> is_Some (arguments w' !! c);
  step_spawned : forall d c s, Spawned d c s ∈ new -> arguments w' !! c = Some s /\ c ∉ announced w';
  step_covered : forall i d a, t ∉ announced w -> t ∈ announced w' -> happened w !! i = Some (Spawned d t (AgentId_fmt a)) ->
    launches w !! a = Some d -> ~ since w i (Locked d a) -> attended w a i;
  step_spawner : forall a b i c, queues w' !! a = Some (t, b) -> launches w' !! a = Some t ->
    happened w' !! i = Some (Spawned t c (AgentId_fmt a)) -> since w' i (Locked t a);
  step_noted : forall i s found a, Noted t true ∈ new -> happened w !! i = Some (Looked t s found) ->
    (forall k s' f', (i < k)%nat -> happened w !! k <> Some (Looked t s' f')) -> a ∈ found -> attended w a i;
  step_looked : forall s found request a, Looked t s found ∈ new -> asked s request a -> a ∈ found;
  step_idled : forall a s, Idled t a s ∈ new -> open_for (Store_database s) a = Ok (E := StoreError S) [];
  step_claimed : forall turn, Claimed t turn ∈ new -> queues w' !! Turn_agent turn = Some (t, false);
  step_left : forall i turn, happened w !! i = Some (Claimed t turn) -> queues w' !! Turn_agent turn <> Some (t, false) ->
    settled w' i t turn;
  step_quiet : forall e a, e ∈ new -> concerns e = Some a -> quiet t a w
}.

Section step.
Context (t : N) (w w' : Site D) (new : list (Happening D)).
Hypothesis Hi : RunnerInv w.
Hypothesis Hs : sound_step t w w' new.

Lemma step_allowed e : e ∈ new -> allowed t w e.
Proof.
  intros He. destruct (guar_happened _ _ _ (step_guar _ _ _ _ Hs)) as (new' & Hn & Hall & _).
  rewrite (step_happened _ _ _ _ Hs) in Hn. apply app_inv_head in Hn. subst new'.
  rewrite Forall_forall in Hall. by apply Hall.
Qed.

(** Every event is an old one, or the new one in the last place. *)
Lemma step_lookup i e : happened w' !! i = Some e ->
  happened w !! i = Some e \/ i = length (happened w) /\ e ∈ new.
Proof.
  rewrite (step_happened _ _ _ _ Hs). intros [H|[Hi' He]]%lookup_app_Some; [by left|right].
  split; [|by apply list_elem_of_lookup_2 in He]. apply lookup_lt_Some in He.
  destruct (step_one _ _ _ _ Hs) as [->|[e' ->]]; cbn in He; lia.
Qed.

Lemma step_launch a d : launches w' !! a = Some d -> launches w !! a = Some d \/ d = t /\ Locked t a ∈ new.
Proof.
  intros Hd. destruct (decide (d = t)) as [->|Hne].
  - destruct (guar_happened _ _ _ (step_guar _ _ _ _ Hs)) as (new' & Hn & _ & Hl).
    rewrite (step_happened _ _ _ _ Hs) in Hn. apply app_inv_head in Hn. subst new'. destruct (Hl a Hd); auto.
  - left. by apply (guar_launches _ _ _ (step_guar _ _ _ _ Hs)).
Qed.

Lemma step_since i e : since w i e -> since w' i e.
Proof. apply since_grow with new, Hs. Qed.

Lemma step_attended a i : (i < length (happened w))%nat -> attended w a i -> attended w' a i.
Proof. intros H. apply (guar_attended _ _ _ (step_guar _ _ _ _ Hs)). lia. Qed.

Lemma step_last i e : (i <= length (happened w))%nat -> e ∈ new -> since w' i e.
Proof.
  intros Hle He. destruct (step_one _ _ _ _ Hs) as [->|[e' ->]]; [by apply elem_of_nil in He|].
  apply list_elem_of_singleton in He. subst e'. by apply (since_new w), Hle; apply Hs.
Qed.

Lemma sound_covered i d c a : happened w' !! i = Some (Spawned d c (AgentId_fmt a)) -> c ∈ announced w' ->
  launches w' !! a = Some d -> ~ since w' i (Locked d a) -> attended w' a i.
Proof.
  intros [H|[_ H]]%step_lookup Hc Hd Hl.
  2: { destruct (step_spawned _ _ _ _ Hs _ _ _ H) as [_ Hn]. done. }
  pose proof (lookup_lt_Some _ _ _ H) as Hlt.
  destruct (step_launch _ _ Hd) as [Hd'|[-> Hin]]; [|destruct Hl; apply step_last; [lia|done]].
  apply step_attended; [done|].
  assert (Hl' : ~ since w i (Locked d a)) by (intros ?; by apply Hl, step_since).
  destruct (decide (c = t)) as [->|Hne].
  - destruct (decide (t ∈ announced w)) as [Ha|Ha]; [by eapply inv_covered|by eapply (step_covered _ _ _ _ Hs)].
  - apply (guar_announced _ _ _ (step_guar _ _ _ _ Hs)) in Hc; [|done]. by eapply inv_covered.
Qed.

Lemma sound_spawner a d b i c : queues w' !! a = Some (d, b) -> launches w' !! a = Some d ->
  happened w' !! i = Some (Spawned d c (AgentId_fmt a)) -> since w' i (Locked d a).
Proof.
  intros Hq Hl H. destruct (decide (d = t)) as [->|Hne]; [by eapply (step_spawner _ _ _ _ Hs)|].
  apply (guar_queues _ _ _ (step_guar _ _ _ _ Hs)) in Hq; [|done].
  apply (guar_launches _ _ _ (step_guar _ _ _ _ Hs)) in Hl; [|done].
  apply step_lookup in H as [H|[_ H]]; [by eapply step_since, inv_spawner|].
  by destruct (allowed_by _ _ _ (step_allowed _ H)).
Qed.

Lemma sound_noted i j d s found a : happened w' !! i = Some (Looked d s found) -> happened w' !! j = Some (Noted d true) ->
  (i < j)%nat -> (forall k s' f', (i < k < j)%nat -> happened w' !! k <> Some (Looked d s' f')) ->
  a ∈ found -> attended w' a i.
Proof.
  intros H1 H2 Hlt Hno Ha.
  assert (Hold : forall k e, happened w !! k = Some e -> happened w' !! k = Some e).
  { intros k e. apply lookup_grow with new, Hs. }
  apply step_lookup in H2 as [H2|[-> H2]].
  - pose proof (lookup_lt_Some _ _ _ H2) as Hj. apply step_lookup in H1 as [H1|[-> _]]; [|lia].
    apply step_attended; [lia|]. eapply (inv_noted _ Hi); [exact H1|exact H2|done| |done].
    intros k s' f' Hk Hx. by apply (Hno k s' f'); [|apply Hold].
  - apply step_lookup in H1 as [H1|[-> _]]; [|lia]. apply step_attended; [by apply lookup_lt_Some in H1|].
    pose proof (allowed_by _ _ _ (step_allowed _ H2)) as Hd. cbn in Hd. subst d.
    eapply (step_noted _ _ _ _ Hs); [exact H2|exact H1| |done].
    intros k s' f' Hk Hx. apply (Hno k s' f'); [|by apply Hold]. apply lookup_lt_Some in Hx. lia.
Qed.

Lemma sound_claimed i t' turn : happened w' !! i = Some (Claimed t' turn) ->
  settled w' i t' turn \/ queues w' !! Turn_agent turn = Some (t', false).
Proof.
  intros [H|[-> H]]%step_lookup.
  - destruct (inv_claimed _ Hi _ _ _ H) as [Hset|Hq]; [left; by eapply settled_grow, Hset; apply Hs|].
    destruct (decide (t' = t)) as [->|Hne].
    + destruct (decide (queues w' !! Turn_agent turn = Some (t, false))) as [|Hn]; [by right|left].
      by apply (step_left _ _ _ _ Hs).
    + right. by apply (guar_queues _ _ _ (step_guar _ _ _ _ Hs)).
  - right. pose proof (allowed_by _ _ _ (step_allowed _ H)) as Hd. cbn in Hd. subst t'. by apply (step_claimed _ _ _ _ Hs).
Qed.

Lemma sound_alone i j t' turn e : happened w' !! i = Some (Claimed t' turn) -> happened w' !! j = Some e -> (i < j)%nat ->
  concerns e = Some (Turn_agent turn) -> exists k e, (i < k < j)%nat /\
    happened w' !! k = Some e /\ closes e t' turn.
Proof.
  intros H1 H2 Hlt Hc. assert (Hold : forall k e, happened w !! k = Some e -> happened w' !! k = Some e).
  { intros k e0. apply lookup_grow with new, Hs. }
  apply step_lookup in H2 as [H2|[-> H2]].
  - pose proof (lookup_lt_Some _ _ _ H2) as Hj. apply step_lookup in H1 as [H1|[-> _]]; [|lia].
    destruct (inv_alone _ Hi _ _ _ _ _ H1 H2 Hlt Hc) as (k & e' & Hk & Hx & Hcl). exists k, e'. auto.
  - apply step_lookup in H1 as [H1|[-> _]]; [|lia].
    assert (Hset : settled w i t' turn).
    { pose proof (allowed_concerns _ _ _ (step_allowed _ H2) _ Hc) as Hq.
      destruct (inv_claimed _ Hi _ _ _ H1) as [|Hq']; [done|]. rewrite Hq in Hq'. injection Hq' as <-.
      by eapply (step_quiet _ _ _ _ Hs). }
    destruct Hset as (k & e' & Hk & Hx & Hcl). exists k, e'. split; [|auto]. by apply lookup_lt_Some in Hx.
Qed.

Lemma sound_inv : RunnerInv w'.
Proof.
  split.
  - apply (step_probe _ _ _ _ Hs).
  - apply (step_announced _ _ _ _ Hs).
  - intros i d c s [H|[_ H]]%step_lookup; [|by apply (step_spawned _ _ _ _ Hs) in H as [H _]].
    apply (guar_arguments _ _ _ (step_guar _ _ _ _ Hs)). by eapply inv_spawned.
  - apply sound_covered.
  - apply sound_spawner.
  - apply sound_noted.
  - intros i t' s found request a [H|[_ H]]%step_lookup Ha; [by eapply inv_looked|].
    pose proof (allowed_by _ _ _ (step_allowed _ H)) as Hd. cbn in Hd. subst t'. by eapply (step_looked _ _ _ _ Hs).
  - intros i t' a s [H|[_ H]]%step_lookup; [by eapply inv_idled|].
    pose proof (allowed_by _ _ _ (step_allowed _ H)) as Hd. cbn in Hd. subst t'. by apply (step_idled _ _ _ _ Hs) in H.
  - apply sound_claimed.
  - apply sound_alone.
Qed.
End step.

(** ** The operations *)

(** What only adds to the history, or changes the store *)
Lemma happen_ok t w s new : RunnerInv w -> new = [] \/ (exists e, new = [e]) ->
  (forall e, e ∈ new -> by_ e = t /\ (forall a, e <> Locked t a) /\ (forall c s, e <> Spawned t c s) /\
     (forall a, concerns e = Some a -> queues w !! a = Some (t, false) /\ quiet t a w) /\
     (forall a s, e = Idled t a s -> open_for (Store_database s) a = Ok (E := StoreError S) []) /\
     (e = Noted t true -> forall i s found a, happened w !! i = Some (Looked t s found) ->
        (forall k s' f', (i < k)%nat -> happened w !! k <> Some (Looked t s' f')) -> a ∈ found -> attended w a i) /\
     (forall s found request a, e = Looked t s found -> asked s request a -> a ∈ found)) ->
  RunnerInv (set_site w s new) /\ runner_guar t w (set_site w s new).
Proof.
  intros Hi Hone Hnew.
  assert (Hg : runner_guar t w (set_site w s new)).
  { split; try done.
    - exists new. split; [done|]. split; [|by left]. rewrite Forall_forall. intros e He.
      destruct (Hnew e He) as (Hb & _ & Hsp & Hc & _). split; [done|intros a Ha; by apply Hc|].
      intros d c s' ->. cbn in Hb. subst d. by destruct (Hsp c s').
    - intros a i _. by eapply attended_same. }
  split; [|done]. apply (sound_inv t w _ new Hi). split; try done.
  - apply (inv_probe _ Hi).
  - apply (inv_announced _ Hi).
  - intros d c s' He. destruct (Hnew _ He) as (Hb & _ & Hsp & _). cbn in Hb. subst d. by destruct (Hsp c s').
  - intros a b i c Hq Hl. cbn in Hq, Hl. intros [H|[_ H]]%lookup_app_Some.
    + eapply since_grow; [done|]. by eapply inv_spawner.
    + apply list_elem_of_lookup_2 in H. destruct (Hnew _ H) as (_ & _ & Hsp & _). by destruct (Hsp c (AgentId_fmt a)).
  - intros i s' found a He. destruct (Hnew _ He) as (_ & _ & _ & _ & _ & Hn & _). by apply Hn.
  - intros s' found request a He. destruct (Hnew _ He) as (_ & _ & _ & _ & _ & _ & Hl). by apply Hl.
  - intros a s' He. destruct (Hnew _ He) as (_ & _ & _ & _ & Hd & _). by apply Hd.
  - intros turn He. destruct (Hnew _ He) as (_ & _ & _ & Hc & _). by apply Hc.
  - intros i turn H Hq. destruct (inv_claimed _ Hi _ _ _ H); [by eapply settled_grow|done].
  - intros e a He Ha. destruct (Hnew _ He) as (_ & _ & _ & Hc & _). by apply Hc.
Qed.

(** What adds nothing to the history and leaves the locks alone *)
Lemma silent_ok t w : RunnerInv w -> RunnerInv w /\ runner_guar t w w.
Proof.
  intros Hi. split; [done|]. split; try done. exists []. split; [by rewrite app_nil_r|]. split; [done|by left].
Qed.

Definition lock_launch (t : N) a w : Site D :=
  mkSite (store w) (<[a := t]> (launches w)) (queues w) (arguments w) (announced w) (happened w ++ [Locked t a]).

Lemma lock_ok t a w : RunnerInv w -> launches w !! a = None ->
  RunnerInv (lock_launch t a w) /\ runner_guar t w (lock_launch t a w).
Proof.
  intros Hi Hfree.
  assert (Hl : forall a' h, launches (lock_launch t a w) !! a' = Some h ->
    launches w !! a' = Some h \/ h = t /\ a' = a).
  { intros a' h. unfold lock_launch. cbn. rewrite lookup_insert_Some. naive_solver. }
  assert (Hg : runner_guar t w (lock_launch t a w)).
  { split; try done; cbn.
    - intros a' h Hne. rewrite lookup_insert_Some. split; [naive_solver|]. intros Ha. right. split; [congruence|done].
    - exists [Locked t a]. split; [done|]. split; [by constructor; [split|]|].
      intros a' [H|[_ ->]]%Hl; [by left|right; by left].
    - intros a' i Hle. apply attended_grow with [Locked t a]; [done|]. intros h Hh _. left. split; [done|].
      intros [H|[-> ->]]%Hl; [by left|right; by apply (since_new w)]. }
  split; [|done]. apply (sound_inv t w _ [Locked t a] Hi). split; try done; cbn.
  - eauto.
  - intros a' h Hq. pose proof (inv_probe _ Hi _ _ Hq) as Hp. rewrite lookup_insert_ne; [done|]. intros ->. congruence.
  - apply (inv_announced _ Hi).
  - intros d c s He. by apply list_elem_of_singleton in He.
  - intros a' b i c Hq Hla. intros [H|[_ H]]%lookup_app_Some; [|by apply list_elem_of_lookup_2, list_elem_of_singleton in H].
    apply lookup_insert_Some in Hla as [[<- _]|[_ Hla]].
    + apply (since_new w); [done|]. apply lookup_lt_Some in H. lia.
    + eapply since_grow; [done|]. by eapply inv_spawner.
  - intros i s found a' He. by apply list_elem_of_singleton in He.
  - intros s found request a' He. by apply list_elem_of_singleton in He.
  - intros a' s He. by apply list_elem_of_singleton in He.
  - intros turn He. by apply list_elem_of_singleton in He.
  - intros i turn H Hq. destruct (inv_claimed _ Hi _ _ _ H); [by eapply settled_grow|done].
  - intros e a' He. apply list_elem_of_singleton in He. by subst e.
Qed.

Definition lock_queue (t : N) (probe : bool) a w : Site D :=
  mkSite (store w) (launches w) (<[a := (t, probe)]> (queues w)) (arguments w) (announced w) (happened w).

(** Who takes the lock of a queue to see whether it is free has the launch lock, and has launched nothing since;
    who takes it to work does not have the launch lock. *)
Lemma try_ok t (probe : bool) a w : RunnerInv w -> queues w !! a = None ->
  (if probe then launches w !! a = Some t /\
     forall i c, happened w !! i = Some (Spawned t c (AgentId_fmt a)) -> since w i (Locked t a)
   else launches w !! a <> Some t) ->
  RunnerInv (lock_queue t probe a w) /\ runner_guar t w (lock_queue t probe a w).
Proof.
  intros Hi Hfree Hhow.
  assert (Hg : runner_guar t w (lock_queue t probe a w)).
  { split; try done; cbn.
    - intros a' h b Hne. rewrite lookup_insert_Some. split; [naive_solver|]. intros Ha. right. split; [congruence|done].
    - exists []. split; [by rewrite app_nil_r|]. split; [done|by left].
    - intros a' i Hle. apply attended_grow with []; [by rewrite app_nil_r|]. intros h Hh _. left. cbn. split; [|auto].
      rewrite lookup_insert_ne; [done|]. intros ->. congruence. }
  split; [|done]. apply (sound_inv t w _ [] Hi). split; try done; cbn.
  - by rewrite app_nil_r.
  - by left.
  - intros a' h. rewrite lookup_insert_Some. intros [[<- [= <- ->]]|[_ Hq]]; [by apply Hhow|by apply (inv_probe _ Hi)].
  - apply (inv_announced _ Hi).
  - by intros d c s ?%elem_of_nil.
  - intros a' b i c Hq Hl H. change (since w i (Locked t a')).
    apply lookup_insert_Some in Hq as [[<- [= <-]]|[_ Hq]]; [|by eapply inv_spawner].
    destruct probe; [by eapply Hhow|done].
  - by intros i s found a' ?%elem_of_nil.
  - by intros s found request a' ?%elem_of_nil.
  - by intros a' s ?%elem_of_nil.
  - by intros turn ?%elem_of_nil.
  - intros i turn H Hq. destruct (inv_claimed _ Hi _ _ _ H) as [|Hq']; [done|]. destruct Hq.
    rewrite lookup_insert_ne; [done|]. intros E. rewrite <- E in Hq'. congruence.
  - by intros e a' ?%elem_of_nil.
Qed.

(** The lock of a queue is given back by who only looked, by a worker that was done and still has the launch
    lock, or by one that gives up. *)
Definition caught_up (t : N) a w : Prop :=
  forall i, since w i (Locked t a) -> exists s, since w i (Idled t a s).
Definition may_leave (t : N) a w : Prop :=
  queues w !! a = Some (t, false) -> launches w !! a = Some t /\ caught_up t a w /\ quiet t a w.

(** [w'] is [w] without the queue's lock, with [new] happened *)
Record given_back (t : N) a w w' (new : list (Happening D)) : Prop := {
  given_happened : happened w' = happened w ++ new;
  given_new : new = [] \/ new = [GaveUp t [a]];
  given_launches : launches w' = launches w;
  given_arguments : arguments w' = arguments w;
  given_announced : announced w' = announced w;
  given_queues : forall a' h b, queues w' !! a' = Some (h, b) <-> queues w !! a' = Some (h, b) /\ (a' = a -> h <> t)
}.

Lemma drop_queue_given t a w : given_back t a w (drop_queue t a w) [].
Proof.
  unfold drop_queue. destruct (queues w !! a) as [[holder probe]|] eqn:Hq; [case_bool_decide as E|].
  - subst holder. split; try done; [by rewrite app_nil_r|by left|]. intros a' h b. cbn. rewrite lookup_delete_Some.
    split; [|naive_solver]. intros [Hne H]. split; [done|]. by intros ->.
  - split; try done; [by rewrite app_nil_r|by left|]. intros a' h b. split; [|naive_solver]. intros H. split; [done|].
    intros -> ->. congruence.
  - split; try done; [by rewrite app_nil_r|by left|]. intros a' h b. split; [|naive_solver]. intros H. split; [done|].
    intros ->. congruence.
Qed.

Lemma unwind_queue_given t a w :
  given_back t a w (unwind_queue t a w) (if bool_decide (queues w !! a = Some (t, false)) then [GaveUp t [a]] else []).
Proof.
  destruct (drop_queue_given t a w). split; try done; [cbn; by rewrite given_happened0, app_nil_r|].
  case_bool_decide; auto.
Qed.

Lemma given_back_ok t a w w' new : RunnerInv w -> given_back t a w w' new -> (new = [] -> may_leave t a w) ->
  RunnerInv w' /\ runner_guar t w w'.
Proof.
  intros Hi [Hn Hnew Hl Har Han Hq] Hleave.
  assert (Hone : forall e, e ∈ new -> e = GaveUp t [a] /\ new = [GaveUp t [a]]).
  { intros e He. destruct Hnew as [->| ->]; [by apply elem_of_nil in He|]. by apply list_elem_of_singleton in He. }
  assert (Hg : runner_guar t w w').
  { split; rewrite ?Hl, ?Har, ?Han; try done.
    - intros a' h b Hne. rewrite Hq. naive_solver.
    - exists new. split; [done|]. split; [|by left]. rewrite Forall_forall. intros e He. by destruct (Hone e He) as [-> _].
    - intros a' i Hle. eapply attended_grow; [exact Hn|]. intros h Hh Hlk. rewrite Hq, Hl.
      destruct (decide (a' = a /\ h = t)) as [[-> ->]|Hne].
      2: { left. split; [|auto]. split; [done|]. intros -> ->. by apply Hne. }
      right. destruct Hnew as [E|E].
      + destruct (Hleave E Hh) as (Hla & Hc & _).
        destruct (Hc i (Hlk Hla)) as [s Hid]. exists (Idled t a s). split; [by eapply since_grow|]. left. eauto.
      + exists (GaveUp t [a]). split; [apply (since_new w); [by rewrite Hn, E|done]|]. right. exists t, [a]. split; [done|by left]. }
  split; [|done]. apply (sound_inv t w _ new Hi). split; rewrite ?Hl, ?Har, ?Han; try done.
  - destruct Hnew as [->| ->]; [by left|right; eauto].
  - intros a' h [H Hne]%Hq. by apply (inv_probe _ Hi).
  - apply (inv_announced _ Hi).
  - intros d c s He. by destruct (Hone _ He).
  - intros a' b i c Hqa Hla. rewrite Hn. intros [H|[_ H]]%lookup_app_Some.
    + apply Hq in Hqa as [Hqa _]. eapply since_grow; [exact Hn|]. by eapply inv_spawner.
    + apply list_elem_of_lookup_2 in H. by destruct (Hone _ H).
  - intros i s found a' He. by destruct (Hone _ He).
  - intros s found request a' He. by destruct (Hone _ He).
  - intros a' s He. by destruct (Hone _ He).
  - intros turn He. by destruct (Hone _ He).
  - intros i turn H Hqa. destruct (inv_claimed _ Hi _ _ _ H) as [|Hq']; [by eapply settled_grow|].
    assert (Ha : Turn_agent turn = a).
    { destruct (decide (Turn_agent turn = a)) as [|Hne]; [done|]. destruct Hqa. by apply Hq. }
    destruct Hnew as [E|E].
    + rewrite Ha in Hq'. destruct (Hleave E Hq') as (_ & _ & Hquiet). eapply settled_grow; [exact Hn|]. by apply Hquiet.
    + exists (length (happened w)), (GaveUp t [a]). split; [by apply lookup_lt_Some in H|].
      split; [rewrite Hn, E; by apply list_lookup_middle|]. right. exists [a]. split; [done|]. rewrite Ha. by left.
  - intros e a' He. by destruct (Hone _ He) as [-> _].
Qed.

Lemma drop_queue_ok t a w : RunnerInv w -> may_leave t a w ->
  RunnerInv (drop_queue t a w) /\ runner_guar t w (drop_queue t a w).
Proof. intros Hi Hm. by eapply given_back_ok; [|apply drop_queue_given|]. Qed.

Lemma unwind_queue_ok t a w : RunnerInv w ->
  RunnerInv (unwind_queue t a w) /\ runner_guar t w (unwind_queue t a w).
Proof.
  intros Hi. eapply given_back_ok; [done|apply unwind_queue_given|]. case_bool_decide as E; [done|]. by intros _ H%E.
Qed.

Lemma drop_launch_ok t a w : RunnerInv w -> queues w !! a <> Some (t, true) ->
  RunnerInv (drop_launch t a w) /\ runner_guar t w (drop_launch t a w).
Proof.
  intros Hi Hfree. unfold drop_launch. case_bool_decide as E; [|by apply silent_ok].
  set (w' := mkSite _ _ _ _ _ _).
  assert (Hl : forall a' h, launches w' !! a' = Some h -> launches w !! a' = Some h).
  { intros a' h. unfold w'. cbn. rewrite lookup_delete_Some. by intros [_ H]. }
  assert (Hg : runner_guar t w w').
  { split; try done.
    - intros a' h Hne. split; [apply Hl|]. intros H. unfold w'. cbn. rewrite lookup_delete_ne; [done|]. intros ->. congruence.
    - exists []. split; [by rewrite app_nil_r|]. split; [done|]. intros a' H. left. by apply Hl.
    - intros a' i Hle. apply attended_grow with []; [by rewrite app_nil_r|]. intros h Hh _. left. split; [done|]. intros H. left. by apply Hl. }
  split; [|done]. apply (sound_inv t w _ [] Hi). split; try done.
  - by rewrite app_nil_r.
  - by left.
  - intros a' h Hq. unfold w'. cbn. rewrite lookup_delete_ne; [by apply (inv_probe _ Hi)|]. intros <-.
    pose proof (inv_probe _ Hi _ _ Hq). replace h with t in * by congruence. done.
  - apply (inv_announced _ Hi).
  - by intros d c s ?%elem_of_nil.
  - intros a' b i c Hq Hla%Hl H. change (since w i (Locked t a')). by eapply inv_spawner.
  - by intros i s found a' ?%elem_of_nil.
  - by intros s found request a' ?%elem_of_nil.
  - by intros a' s ?%elem_of_nil.
  - by intros turn ?%elem_of_nil.
  - intros i turn H Hq. by destruct (inv_claimed _ Hi _ _ _ H).
  - by intros e a' ?%elem_of_nil.
Qed.

Definition spawn (t child : N) (agent : string) w : Site D :=
  mkSite (store w) (launches w) (queues w) (<[child := agent]> (arguments w)) (announced w)
    (happened w ++ [Spawned t child agent]).

Lemma spawn_ok t child agent w : RunnerInv w -> arguments w !! child = None -> (forall a b, queues w !! a <> Some (t, b)) ->
  RunnerInv (spawn t child agent w) /\ runner_guar t w (spawn t child agent w).
Proof.
  intros Hi Hfresh Hfree.
  assert (Hg : runner_guar t w (spawn t child agent w)).
  { split; try done.
    - exists [Spawned t child agent]. split; [done|]. split; [|by left]. constructor; [|done]. split; [done..|]. by intros d c s [= _ <- _].
    - intros a i Hle. by eapply attended_same.
    - intros c s Hc. cbn. rewrite lookup_insert_ne; [done|]. intros ->. congruence. }
  split; [|done]. apply (sound_inv t w _ [Spawned t child agent] Hi). split; try done; cbn.
  - eauto.
  - apply (inv_probe _ Hi).
  - intros c Hc. apply lookup_insert_is_Some. destruct (decide (child = c)) as [|Hne]; [by left|right]. split; [done|]. by apply (inv_announced _ Hi).
  - intros d c s He. apply list_elem_of_singleton in He. injection He as -> -> ->. rewrite lookup_insert_eq. split; [done|].
    intros Hc. apply (inv_announced _ Hi) in Hc as [? ?]. congruence.
  - intros a b i c Hq. by apply Hfree in Hq.
  - intros i s found a He. by apply list_elem_of_singleton in He.
  - intros s found request a He. by apply list_elem_of_singleton in He.
  - intros a s He. by apply list_elem_of_singleton in He.
  - intros turn He. by apply list_elem_of_singleton in He.
  - intros i turn H Hq. destruct (inv_claimed _ Hi _ _ _ H); [by eapply settled_grow|done].
  - intros e a He. apply list_elem_of_singleton in He. by subst e.
Qed.

(** What a worker has to know before it announces that it is ready: whoever waits for that since it launched
    the worker may tell that the agent is looked after. *)
Definition covered (t : N) (s : string) w : Prop :=
  arguments w !! t = Some s /\
  forall i d a, happened w !! i = Some (Spawned d t (AgentId_fmt a)) -> launches w !! a = Some d ->
    ~ since w i (Locked d a) -> attended w a i.

Definition announce (t : N) w : Site D :=
  mkSite (store w) (launches w) (queues w) (arguments w) ({[t]} ∪ announced w) (happened w).

Lemma announce_ok t s w : RunnerInv w -> covered t s w ->
  RunnerInv (announce t w) /\ runner_guar t w (announce t w).
Proof.
  intros Hi [Ht Hc].
  assert (Hg : runner_guar t w (announce t w)).
  { split; try done; cbn; [|set_solver]. exists []. split; [by rewrite app_nil_r|]. split; [done|by left]. }
  split; [|done]. apply (sound_inv t w _ [] Hi). split; try done; cbn.
  - by rewrite app_nil_r.
  - by left.
  - apply (inv_probe _ Hi).
  - intros c [->%elem_of_singleton|H]%elem_of_union; [by eexists|by apply (inv_announced _ Hi)].
  - by intros d c s' ?%elem_of_nil.
  - intros i d a _ _. apply Hc.
  - intros a b i c Hq Hla H. change (since w i (Locked t a)). by eapply inv_spawner.
  - by intros i s' found a' ?%elem_of_nil.
  - by intros s' found request a' ?%elem_of_nil.
  - by intros a' s' ?%elem_of_nil.
  - by intros turn ?%elem_of_nil.
  - intros i turn H Hq. by destruct (inv_claimed _ Hi _ _ _ H).
  - by intros e a' ?%elem_of_nil.
Qed.

(** ** What others leave alone *)

Section stable.
Context (t t' : N) (w w' : Site D).
Hypothesis Hne : t' <> t.
Hypothesis Hg : runner_guar t' w w'.

Lemma own_lookup i e : by_ e = t -> happened w' !! i = Some e -> happened w !! i = Some e.
Proof.
  intros He. destruct (guar_happened _ _ _ Hg) as (new & -> & Hall & _).
  intros [H|[_ H]]%lookup_app_Some; [done|]. apply list_elem_of_lookup_2 in H. rewrite Forall_forall in Hall.
  destruct (allowed_by _ _ _ (Hall _ H)). congruence.
Qed.

Lemma own_since i e : by_ e = t -> since w' i e -> since w i e.
Proof. intros He (k & Hk & H). exists k. split; [done|]. by apply own_lookup. Qed.

Lemma kept_lookup i e : happened w !! i = Some e -> happened w' !! i = Some e.
Proof. destruct (guar_happened _ _ _ Hg) as (new & Hn & _). by apply lookup_grow with new. Qed.

Lemma kept_since i e : since w i e -> since w' i e.
Proof. destruct (guar_happened _ _ _ Hg) as (new & Hn & _). by apply since_grow with new. Qed.

Lemma kept_settled i s turn : settled w i s turn -> settled w' i s turn.
Proof. destruct (guar_happened _ _ _ Hg) as (new & Hn & _). by apply settled_grow with new. Qed.

Lemma has_kept launch queue : has t launch queue w -> has t launch queue w'.
Proof.
  intros [H1 H2]. split.
  - intros a. rewrite <- H1. by apply (guar_launches _ _ _ Hg).
  - intros a b. rewrite <- H2. by apply (guar_queues _ _ _ Hg).
Qed.

Lemma quiet_kept a : quiet t a w -> quiet t a w'.
Proof. intros H i turn Hc Ha. apply kept_settled, H; [by apply own_lookup|done]. Qed.

Lemma caught_up_kept a : caught_up t a w -> caught_up t a w'.
Proof. intros H i Hl. destruct (H i) as [s Hs]; [by apply own_since|]. exists s. by apply kept_since. Qed.

Lemma covered_kept s : RunnerInv w -> covered t s w -> covered t s w'.
Proof.
  intros Hi [Ha Hc]. split; [by apply (guar_arguments _ _ _ Hg)|].
  intros i d a Hsp Hl Hno. destruct (guar_happened _ _ _ Hg) as (new & Hn & Hall & Hnew). rewrite Forall_forall in Hall.
  assert (Hold : happened w !! i = Some (Spawned d t (AgentId_fmt a))).
  { rewrite Hn in Hsp. apply lookup_app_Some in Hsp as [|[_ H]]; [done|]. apply list_elem_of_lookup_2, Hall in H.
    pose proof (allowed_spawn _ _ _ H _ _ _ eq_refl). congruence. }
  apply (guar_attended _ _ _ Hg); [apply lookup_lt_Some in Hold; lia|].
  apply (Hc i d); [done| |by intros ?; apply Hno, kept_since].
  destruct (decide (d = t')) as [->|Hd]; [|by apply (guar_launches _ _ _ Hg)].
  destruct (Hnew _ Hl) as [|Hin]; [done|]. destruct Hno. apply list_elem_of_lookup_1 in Hin as [k Hk].
  exists (length (happened w) + k)%nat. apply lookup_lt_Some in Hold. split; [lia|]. rewrite Hn. by rewrite lookup_app_r, Nat.add_comm, Nat.add_sub by lia.
Qed.
End stable.

Lemma has_stable t launch queue : stables t (has t launch queue).
Proof. intros t' w w' Hne _ Hg. by apply (has_kept t t'). Qed.
Lemma quiet_stable t a : stables t (quiet t a).
Proof. intros t' w w' Hne _ Hg. by apply (quiet_kept t t'). Qed.
Lemma caught_up_stable t a : stables t (caught_up t a).
Proof. intros t' w w' Hne _ Hg. by apply (caught_up_kept t t'). Qed.
Lemma covered_stable t s : stables t (covered t s).
Proof. intros t' w w' Hne Hi Hg. by apply (covered_kept t t'). Qed.

(** One operation *)
Lemma call_ok t P op (Q : runner_answer op -> Site D -> Prop) :
  (forall c w x w', RunnerInv w -> P w -> runner_perform t c op w = Some (w', x) ->
     (RunnerInv w' /\ runner_guar t w w') /\ Q x w') ->
  (forall x, stables t (Q x)) -> oks t anything P (call op) Q.
Proof.
  intros H Hs. apply ok_call; [|done]. intros w x w' Hi Hp [c Hc]. destruct (H c w x w' Hi Hp Hc) as [[? ?] ?]. done.
Qed.

Lemma stable_result {A E} t (P : A -> Site D -> Prop) (Q : E -> Site D -> Prop) (r : result A E) :
  (forall x, stables t (P x)) -> (forall y, stables t (Q y)) ->
  stables t (fun w => match r with Ok x => P x w | Err y => Q y w end).
Proof. intros HP HQ. destruct r; auto. Qed.

(** An operation that only asks *)
Lemma ask_ok t P op :
  stables t P ->
  (forall c w x w', runner_perform t c op w = Some (w', x) -> w' = w) ->
  oks t anything P (call op) (fun _ => P).
Proof.
  intros Hs Hsame. apply call_ok; [|done]. intros c w x w' Hi Hp Hc. apply Hsame in Hc as ->.
  split; [by apply silent_ok|done].
Qed.
End steps.
