(* ===== verification/RunnerRuns.v ===== *)
(** Any number of processes that dispatch and work for the agents of one machine: turns of an agent are worked on
    one after the other, and an agent that was found to have asks is looked after until it has none left.  Then
    a dispatcher and a worker of one agent at work on a store in memory. *)

From Stdlib Require Import NArith Lia String Ascii.
From stdpp Require Import base gmap list strings relations.
From S2P Require Import Prelude SortedLists RustStr Ids AgentLists Notification Handoff Event.
From S2P Require Import Ledger Policy Database Wire Views Tx Acts Turns Values Provider Programs.
From S2P Require Import Samples StoreSamples Runner RunnerSteps.

Section runs.
Context {D S : Type} `{!Redb D S} `{codec : !Codec} `{records : !StoreCodec}.
Context (from_slice : list N -> option Value).
Implicit Types (w : Site D) (e : Happening D) (a : AgentId) (i k : nat).

Abbreviation oks := (ok runner_exec RunnerInv runner_guar).
Abbreviation stables := (stable RunnerInv runner_guar).

(** ** Dispatching *)

(** [d] has looked for agents that have asks, and those that it is done with are looked after. *)
Definition based (d : N) i (found done_ : list AgentId) w : Prop :=
  (exists s, happened w !! i = Some (Looked d s found)) /\
  (forall k s' f', (i < k)%nat -> happened w !! k <> Some (Looked d s' f')) /\
  forall a, a ∈ done_ -> attended w a i.

Lemma based_stable d i found done_ : stables d (based d i found done_).
Proof.
  intros t' w w' Hne _ Hg ([s Hs] & Hlast & Hall). split; [|split].
  - exists s. by apply (kept_lookup t' w w').
  - intros k s' f' Hk Hx. apply (Hlast k s' f' Hk). by apply (own_lookup d t' w w').
  - intros a Ha. apply (guar_attended _ _ _ Hg); [apply lookup_lt_Some in Hs; lia|by apply Hall].
Qed.

(** Own steps that look for no agents *)
Lemma based_step d i found done_ w w' new : based d i found done_ w -> runner_guar d w w' ->
  happened w' = happened w ++ new -> (forall s f, Looked d s f ∉ new) -> based d i found done_ w'.
Proof.
  intros ([s Hs] & Hlast & Hall) Hg Hn Hnew. split; [|split].
  - exists s. by apply (kept_lookup d w w').
  - intros k s' f' Hk. rewrite Hn. intros [H|[_ H]]%lookup_app_Some; [by apply (Hlast k s' f')|].
    apply list_elem_of_lookup_2 in H. by apply (Hnew s' f').
  - intros a Ha. apply (guar_attended _ _ _ Hg); [apply lookup_lt_Some in Hs; lia|by apply Hall].
Qed.

(** [d] has launched nothing for [a] since it took the launch lock. *)
Definition unspawned (d : N) a w : Prop :=
  forall i c, happened w !! i = Some (Spawned d c (AgentId_fmt a)) -> since w i (Locked d a).

Lemma unspawned_stable d a : stables d (unspawned d a).
Proof.
  intros t' w w' Hne _ Hg H i c Hs. apply (kept_since t' w w'); [done|]. apply (H i c). by apply (own_lookup d t' w w').
Qed.

(** [d] has launched [c] for [a], and not given the launch lock back. *)
Definition spawned_at (d c : N) a i w : Prop :=
  exists j, (i < j)%nat /\ happened w !! j = Some (Spawned d c (AgentId_fmt a)) /\ ~ since w j (Locked d a).

Lemma spawned_at_stable d c a i : stables d (spawned_at d c a i).
Proof.
  intros t' w w' Hne _ Hg (j & Hj & Hs & Hno). exists j. split; [done|]. split; [by apply (kept_lookup t' w w')|].
  intros H. apply Hno. by apply (own_since d t' w w').
Qed.

(** What is true after a success, and after a failure *)
Abbreviation outcome Q F := (fun r w => match r with Ok x => Q x w | Err _ => F w end).

Lemma out_err {A E F'} (g : E -> F') t P (p : Prog runner_answer (result A E)) (Q : A -> Site D -> Prop) (F : Site D -> Prop) :
  oks t anything P p (outcome Q F) -> oks t anything P (prog_err g p) (outcome Q F).
Proof. intros H. apply ok_err. eapply ok_post; [exact H|]. by intros []. Qed.

Lemma out_try {A B E} t P (p : Prog runner_answer (result A E)) (f : A -> Prog runner_answer (result B E))
    (Q : A -> Site D -> Prop) (Q' : B -> Site D -> Prop) (F F' : Site D -> Prop) :
  oks t anything P p (outcome Q F) -> (forall x, oks t anything (Q x) (f x) (outcome Q' F')) ->
  (forall w, F w -> F' w) -> oks t anything P (prog_try p f) (outcome Q' F').
Proof. intros Hp Hf HF. eapply ok_try; [exact Hp|exact Hf|]. intros y w _. apply HF. Qed.

Lemma out_ok {A E} t (P : Site D -> Prop) (x : A) (Q : A -> Site D -> Prop) F :
  (forall w, P w -> Q x w) -> oks t anything P (prog_ok (E := E) x) (outcome Q F).
Proof. intros H w _. apply H. Qed.
Lemma out_fail {A E} t (P : Site D -> Prop) (y : E) (Q : A -> Site D -> Prop) (F : Site D -> Prop) :
  (forall w, P w -> F w) -> oks t anything P (prog_fail (A := A) y) (outcome Q F).
Proof. intros H w _. apply H. Qed.

Definition nothing w : Prop := True.
Lemma nothing_stable t : stables t nothing.
Proof. by intros t' w w'. Qed.
#[local] Hint Resolve has_stable quiet_stable caught_up_stable covered_stable based_stable unspawned_stable
  spawned_at_stable nothing_stable stable_and stable_const : core.

(** The locks after the steps that change them *)
Lemma has_locked t a queue w : has t None queue w -> launches w !! a = None -> has t (Some a) queue (lock_launch t a w).
Proof.
  intros [H1 H2] Hf. split; [|exact H2]. intros a'. cbn. rewrite lookup_insert_Some, H1. naive_solver.
Qed.
Lemma has_tried t launch probe a w : has t launch None w -> queues w !! a = None ->
  has t launch (Some (a, probe)) (lock_queue t probe a w).
Proof.
  intros [H1 H2] Hf. split; [exact H1|]. intros a' b. cbn. rewrite lookup_insert_Some, H2. naive_solver.
Qed.
Lemma has_dropped t launch a b w w' new : given_back t a w w' new -> has t launch (Some (a, b)) w -> has t launch None w'.
Proof.
  intros [_ _ Hl _ _ Hq] [H1 H2].
  split; [intros a'; by rewrite Hl|]. intros a' b'. rewrite Hq, H2. naive_solver.
Qed.
Lemma has_unlocked t queue a w : has t (Some a) queue w -> has t None queue (drop_launch t a w).
Proof.
  intros [H1 H2]. unfold drop_launch. rewrite bool_decide_eq_true_2 by (by apply H1). split; [|exact H2].
  intros a'. cbn. rewrite lookup_delete_Some, H1. naive_solver.
Qed.

Lemma lock_call_ok d i found done_ a :
  oks d anything (fun w => based d i found done_ w /\ has d None None w) (call (Op_Lock a))
    (outcome (fun _ w => based d i found done_ w /\ has d (Some a) None w /\ unspawned d a w) nothing).
Proof.
  apply call_ok.
  - intros c w x w' Hi [Hb Hh] Hc. cbn in Hc.
    destruct (Choice_fails c) as [y|]; [injection Hc as <- <-; by split; [apply silent_ok|]|].
    destruct (launches w !! a) eqn:Hf; [done|]. injection Hc as <- <-.
    pose proof (lock_ok d a w Hi Hf) as Hok. split; [exact Hok|]. split; [|split; [by apply has_locked|]].
    + eapply (based_step _ _ _ _ w); [done|apply Hok|done|]. intros s f Hx. by apply list_elem_of_singleton in Hx.
    + intros k c' Hk. apply (since_new w); [done|]. apply lookup_lt_Some in Hk. cbn in Hk. rewrite length_app in Hk. cbn in Hk. 
      apply Nat.lt_succ_r. lia.
  - intros x. apply stable_result; auto.
Qed.

Lemma probe_call_ok d i found done_ a :
  oks d anything (fun w => based d i found done_ w /\ has d (Some a) None w /\ unspawned d a w) (call (Op_TryLock true a))
    (outcome (fun (free : bool) w =>
       if free then based d i found done_ w /\ has d (Some a) (Some (a, true)) w /\ unspawned d a w
       else based d i found (done_ ++ [a]) w /\ has d (Some a) None w) (has d (Some a) None)).
Proof.
  apply call_ok.
  - intros c w x w' Hi (Hb & Hh & Hu) Hc. cbn in Hc. unfold tried in Hc. injection Hc as Hc.
    destruct (Choice_fails c) as [y|]; [injection Hc as <- <-; by split; [apply silent_ok|]|].
    destruct (queues w !! a) as [[h probe]|] eqn:Hq; injection Hc as <- <-.
    + split; [by apply silent_ok|]. split; [|done]. destruct Hb as (Hs & Hlast & Hall). split; [done|]. split; [done|].
      intros a' [Ha|Ha%list_elem_of_singleton]%elem_of_app; [by apply Hall|subst a'].
      assert (Hne : h <> d) by (intros ->; by apply (proj2 Hh) in Hq).
      pose proof (proj2 (proj1 Hh a) eq_refl) as Hl.
      destruct probe; [pose proof (inv_probe _ Hi _ _ Hq); congruence|]. right. exists h. split; [done|]. congruence.
    + assert (Hok : RunnerInv (lock_queue d true a w) /\ runner_guar d w (lock_queue d true a w)).
      { apply try_ok; [done|done|]. split; [by apply (proj1 Hh)|exact Hu]. }
      split; [exact Hok|]. split; [|split; [by apply has_tried|exact Hu]].
      eapply (based_step _ _ _ _ w _ []); [done|apply Hok|by rewrite app_nil_r|]. by intros s f ?%elem_of_nil.
  - intros x. apply stable_result; [|auto]. intros []; auto.
Qed.

Lemma drop_probe_ok d i found done_ a :
  oks d anything (fun w => based d i found done_ w /\ has d (Some a) (Some (a, true)) w /\ unspawned d a w)
    (call (Op_Drop AgentLock_Queue a))
    (fun _ w => based d i found done_ w /\ has d (Some a) None w /\ unspawned d a w).
Proof.
  apply call_ok; [|auto]. intros c w x w' Hi (Hb & Hh & Hu) Hc. cbn in Hc. injection Hc as <- <-.
  assert (Hok : RunnerInv (drop_queue d a w) /\ runner_guar d w (drop_queue d a w)).
  { apply drop_queue_ok; [done|]. intros Hq. by apply (proj2 Hh) in Hq. }
  pose proof (drop_queue_given d a w) as Hg. pose proof (given_happened _ _ _ _ _ Hg) as Hn.
  split; [exact Hok|]. split; [|split; [by eapply has_dropped|]].
  - eapply (based_step _ _ _ _ w); [done|apply Hok|exact Hn|]. by intros s f ?%elem_of_nil.
  - intros k c'. rewrite Hn, app_nil_r. intros Hk. eapply since_grow; [exact Hn|]. by eapply Hu.
Qed.

Lemma open_log_ok d P : stables d P ->
  oks d anything P (call Op_OpenLog) (outcome (fun _ => P) P).
Proof.
  intros HP. apply call_ok; [|intros []; auto]. intros c w x w' Hi Hp Hc. cbn in Hc. unfold tried in Hc. injection Hc as Hc.
  destruct (Choice_fails c); injection Hc as <- <-; (split; [by apply silent_ok|done]).
Qed.

Lemma spawn_call_ok d i found done_ a :
  oks d anything (fun w => based d i found done_ w /\ has d (Some a) None w /\ unspawned d a w)
    (call (Op_Spawn (AgentId_fmt a)))
    (outcome (fun child w => based d i found done_ w /\ has d (Some a) None w /\ spawned_at d child a i w) (has d (Some a) None)).
Proof.
  apply call_ok.
  - intros c w x w' Hi (Hb & Hh & Hu) Hc. cbn in Hc.
    destruct (Choice_refused c) as [y|]; [injection Hc as <- <-; by split; [apply silent_ok|]|].
    destruct (arguments w !! Choice_child c) eqn:Ha; [done|]. injection Hc as <- <-.
    assert (Hok : RunnerInv (spawn d (Choice_child c) (AgentId_fmt a) w) /\
      runner_guar d w (spawn d (Choice_child c) (AgentId_fmt a) w)).
    { apply spawn_ok; [done|done|]. intros a' b H. by apply (proj2 Hh) in H. }
    split; [exact Hok|]. split; [|split].
    + eapply (based_step _ _ _ _ w); [done|apply Hok|done|]. intros s f Hx. by apply list_elem_of_singleton in Hx.
    + exact Hh.
    + exists (length (happened w)). destruct Hb as ([s Hs] & _). apply lookup_lt_Some in Hs.
      split; [done|]. cbn. split; [by apply list_lookup_middle|].
      intros (k & Hk & Hx). cbn in Hx. apply lookup_app_Some in Hx as [Hx%lookup_lt_Some|[_ Hx]]; [lia|].
      by apply list_elem_of_lookup_2, list_elem_of_singleton in Hx.
  - intros x. apply stable_result; auto.
Qed.

Lemma signal_ok d i found done_ a child :
  oks d anything (fun w => based d i found done_ w /\ has d (Some a) None w /\ spawned_at d child a i w)
    (call (Op_Signal child))
    (outcome (fun signal w => (signal = READY -> based d i found (done_ ++ [a]) w) /\ has d (Some a) None w) (has d (Some a) None)).
Proof.
  apply call_ok.
  - intros c w x w' Hi (Hb & Hh & (j & Hj & Hs & Hno)) Hc. cbn in Hc. injection Hc as <- <-. split; [by apply silent_ok|].
    destruct (Choice_refused c); [done|]. split; [|done]. case_bool_decide as Ha; [|done]. intros _.
    destruct Hb as (Hl & Hlast & Hall). split; [done|]. split; [done|].
    intros a' [Ha'|Ha'%list_elem_of_singleton]%elem_of_app; [by apply Hall|subst a'].
    apply attended_lt with j; [|lia]. eapply (inv_covered _ Hi); [exact Hs|exact Ha|by apply (proj1 Hh)|exact Hno].
  - intros x. apply stable_result; [|auto]. intros signal. apply stable_and; [|auto].
    intros t' w w' Hne Hi Hg H Heq. by eapply based_stable, H.
Qed.

Lemma launch_ok d i found done_ a :
  oks d anything (fun w => based d i found done_ w /\ has d (Some a) None w /\ unspawned d a w)
    (launch_chat_worker (AgentId_fmt a))
    (outcome (fun _ w => based d i found (done_ ++ [a]) w /\ has d (Some a) None w) (has d (Some a) None)).
Proof.
  unfold launch_chat_worker. eapply out_try; [apply out_err, spawn_call_ok| |done]. intros child.
  eapply out_try; [apply out_err, signal_ok| |done]. intros signal. case_bool_decide.
  - apply out_ok. intros w [Hb Hh]. auto.
  - apply out_fail. by intros w [_ Hh].
Qed.

Lemma dispatch_one_ok d i found done_ a :
  oks d anything (fun w => based d i found done_ w /\ has d None None w) (dispatch_one a)
    (outcome (fun _ w => based d i found (done_ ++ [a]) w /\ has d None None w) nothing).
Proof.
  unfold dispatch_one. eapply out_try; [apply out_err, lock_call_ok| |done]. intros u0. unfold dropping.
  eapply (ok_bind _ _ _ _ _ _ _ _ (outcome (fun _ w => based d i found (done_ ++ [a]) w /\ has d (Some a) None w) (has d (Some a) None))).
  - eapply out_try; [apply out_err, probe_call_ok| |done]. intros [|]; [|by apply out_ok].
    eapply ok_bind; [apply drop_probe_ok|]. intros ?.
    eapply out_try; [apply out_err; apply (open_log_ok d (fun w => based d i found done_ w /\ has d (Some a) None w /\ unspawned d a w)); auto
      | |by intros w (_ & Hh & _)]. intros ?. apply launch_ok.
  - intros r. eapply (ok_bind _ _ _ _ _ _ _ _ (fun _ w => match r with Ok _ => based d i found (done_ ++ [a]) w /\ has d None None w | Err _ => nothing w end)).
    + apply call_ok; [|intros []; destruct r; auto]. intros c w x w' Hi Hp Hc. cbn in Hc. injection Hc as <- <-.
      assert (Hh : has d (Some a) None w) by (by destruct r as [u|y]; [destruct Hp|]).
      assert (Hok : RunnerInv (drop_launch d a w) /\ runner_guar d w (drop_launch d a w)).
      { apply drop_launch_ok; [done|]. intros Hq. by apply (proj2 Hh) in Hq. }
      split; [exact Hok|]. destruct r as [u|y]; [|done]. destruct Hp as [Hb _]. split; [|by eapply has_unlocked].
      eapply (based_step _ _ _ _ w _ []); [done|apply Hok| |by intros s f ?%elem_of_nil].
      unfold drop_launch. case_bool_decide; by rewrite app_nil_r.
    + intros _ w _ Hp. by destruct r.
Qed.

Lemma dispatch_loop_ok d i found : forall l done_,
  oks d anything (fun w => based d i found done_ w /\ has d None None w) (prog_for l dispatch_one)
    (outcome (fun _ w => based d i found (done_ ++ l) w) nothing).
Proof.
  induction l as [|a l IH]; intros done_; cbn [prog_for].
  - apply out_ok. intros w [Hb _]. by rewrite app_nil_r.
  - eapply out_try; [apply dispatch_one_ok| |done]. intros ?.
    eapply ok_post; [apply IH|]. intros [u|y] w _; [|done]. by rewrite <- app_assoc.
Qed.

(** A transaction that succeeds *)
Lemma write_value {T} rung (s s' : Store D) (work : Act D S T) value : Store_write rung s work = (s', Ok value) ->
  exists tx, work (mkTx (Store_database s) (Store_origin s) false) = (tx, Ok value) /\ Store_database s' = Tx_write tx.
Proof.
  unfold Store_write. destruct (verify _ _); [|done]. destruct (work _) as [tx [v|y]]; [|done].
  destruct (map_err _ (redb_commit _)); [|done]. destruct (Tx_appended tx).
  - destruct (map_err _ rung); [|done]. intros [= <- <-]. by exists tx.
  - intros [= <- <-]. by exists tx.
Qed.

(** The agents that are found are those that have asks. *)
Lemma triage_loop_found (d : D) origin request a card config : AgentId_origin a = origin ->
  view_profile d a = Ok (E := StoreError S) (Some card) -> mode card = Mode_Managed ->
  agent_config d (AgentId_name a) = Ok (E := StoreError S) (Some config) ->
  forall asks found found', triage_loop d origin asks found = Ok (E := StoreError S) found' ->
    (request, a) ∈ asks \/ a ∈ ready found -> a ∈ ready found'.
Proof.
  intros Ho Hp Hm Hc. induction asks as [|[r responder] asks IH]; intros found found'; cbn [triage_loop].
  { intros [= <-] [?%elem_of_nil|]; done. }
  destruct (triage_one d origin found (r, responder)) as [found1|] eqn:H1; [|done]. cbn. intros H2 Hin.
  apply (IH _ _ H2). destruct Hin as [[[= -> ->]|]%elem_of_cons|Hin]; [right|by left|right].
  - unfold triage_one in H1. rewrite bool_decide_eq_true_2, Hp in H1 by done. cbn in H1. rewrite Hc in H1. cbn in H1.
    rewrite Hm in H1. injection H1 as <-. destruct (existsb _ _) eqn:Hex; cbn; [|set_solver].
    apply existsb_exists in Hex as (x & Hx & ->%bool_decide_eq_true_1). by apply list_elem_of_In.
  - unfold triage_one in H1. destruct (negb _); [by injection H1 as <-|].
    destruct (view_profile d responder) as [card'|]; [|done]. cbn in H1.
    destruct (agent_config d (AgentId_name responder)) as [config'|]; [|done]. cbn in H1. injection H1 as <-.
    destruct card' as [card'|]; [|done]. destruct config' as [config'|]; [|done]. destruct (mode card'); [|done].
    destruct (existsb _ _); cbn; set_solver.
Qed.

Lemma dispatchable_found rung (s s' : Store D) found request a :
  Store_dispatchable rung s = (s', Ok found) -> asked s request a -> a ∈ found.
Proof.
  intros H (asks & card & config & Hasks & Hin & Ho & Hp & Hm & Hc).
  assert (Ht : forall t, triage (Store_database s) (Store_origin s) = Ok (E := StoreError S) t -> a ∈ ready t).
  { intros t. unfold triage. rewrite Hasks. cbn. intros Ht. eapply triage_loop_found; eauto. }
  revert H. unfold Store_dispatchable, Store_read. destruct (verify _ _); [|done]. cbn.
  destruct (triage _ _) as [seen|] eqn:Hs; [|done]. destruct (unavailable seen); [intros [= _ <-]; by apply Ht|].
  intros (tx & Hw & _)%write_value. revert Hw. unfold dispatch_work, act_bind, act_origin, act_read. cbn. rewrite Hs.
  destruct (act_each _ _ _) as [tx' [u|]]; [|done]. intros [= _ <-]. by apply Ht.
Qed.

(** A process that dispatches keeps to what it guarantees, and what it notes is so. *)
Lemma dispatcher_ok d : oks d anything (has d None None) dispatcher (fun _ _ => True).
Proof.
  unfold dispatcher. eapply (ok_bind _ _ _ _ _ _ _ _ (outcome (fun _ w => exists i found, based d i found found w) nothing)).
  - unfold dispatch.
    eapply (out_try _ _ _ _ (fun found w => exists i, based d i found [] w /\ has d None None w)); [apply out_err| |done].
    + apply call_ok.
      * intros c w x w' Hi Hh Hc. cbn in Hc. unfold tried in Hc. injection Hc as Hc.
        destruct (Choice_fails c); [injection Hc as <- <-; by split; [apply silent_ok|]|].
        destruct (Store_dispatchable _ (store w)) as [s r] eqn:Hd. injection Hc as <- <-.
        split.
        { apply happen_ok; [done|destruct r; eauto|]. intros e He.
          destruct r; [|by apply elem_of_nil in He]. apply list_elem_of_singleton in He. subst e. split_and!; try done.
          intros s' found request a [= <- <-]. by eapply dispatchable_found. }
        destruct r as [found|y]; [|done]. exists (length (happened w)). split; [|exact Hh].
        split; [exists (store w); by apply list_lookup_middle|]. split; [|by intros a ?%elem_of_nil].
        intros k s' f' Hk Hx. apply lookup_lt_Some in Hx. cbn in Hx. rewrite length_app in Hx. cbn in Hx. lia.
      * intros x. apply stable_result; [|auto]. intros found. apply stable_ex. auto.
    + intros found. apply ok_exists. intros i. eapply ok_post; [apply (dispatch_loop_ok d i found found [])|].
      intros [u|y] w _; [|done]. cbn. eauto.
  - intros r. apply call_ok; [|done]. intros c w x w' Hi Hp Hc. cbn in Hc. injection Hc as <- <-. split; [|done].
    apply happen_ok; [done|eauto|]. intros e He. apply list_elem_of_singleton in He. subst e.
    split_and!; try done. intros [= Hr] i s found a Hs Hno Ha. destruct r as [u|]; [|done].
    destruct Hp as (i' & found' & [s' Hs'] & Hlast & Hall).
    assert (i = i') as ->.
    { destruct (Nat.lt_trichotomy i i') as [H|[H|H]]; [|done|].
      - by destruct (Hno _ _ _ H Hs').
      - by destruct (Hlast _ _ _ H Hs). }
    rewrite Hs in Hs'. injection Hs' as _ <-. by apply Hall.
Qed.

(** ** Working *)

(** What a claim that finds nothing, and one that finds a turn, say of the store *)
Lemma claim_work_value now a tx tx' r : claim_work (D := D) (S := S) now a tx = (tx', Ok r) ->
  match r with
  | Some turn => Turn_agent turn = a
  | None => tx' = tx /\ open_for (Tx_write tx) a = Ok (E := StoreError S) []
  end.
Proof.
  unfold claim_work, act_bind, act_read, act_lift, act_ok.
  destruct (open_for (Tx_write tx) a) as [[|request asks]|y]; [by intros [= <- <-]| |done].
  repeat (match goal with |- context [match ?x with _ => _ end] => destruct x eqn:? end; try done).
  all: by intros [= <- <-].
Qed.

Lemma claim_none rung (s s' : Store D) now a : Store_claim rung s now a = (s', Ok None) ->
  open_for (Store_database s') a = Ok (E := StoreError S) [].
Proof. intros (tx & Hw & ->)%write_value. by apply claim_work_value in Hw as [-> H]. Qed.

Lemma claim_agent rung (s s' : Store D) now a turn : Store_claim rung s now a = (s', Ok (Some turn)) -> Turn_agent turn = a.
Proof. intros (tx & Hw & _)%write_value. by apply claim_work_value in Hw. Qed.

Definition at_work (t : N) a launch w : Prop := has t launch (Some (a, false)) w /\ quiet t a w.
(** All turns of the agent that were claimed are settled but this one. *)
Definition pending (t : N) a turn w : Prop :=
  forall i turn', happened w !! i = Some (Claimed t turn') -> Turn_agent turn' = a -> settled w i t turn' \/ turn' = turn.

Lemma pending_stable t a turn : stables t (pending t a turn).
Proof.
  intros t' w w' Hne _ Hg H i turn' Hc Ha. apply (own_lookup t t' w w') in Hc; [|done..].
  destruct (H i turn' Hc Ha); [left; by apply (kept_settled t' w w')|by right].
Qed.
Lemma at_work_stable t a launch : stables t (at_work t a launch).
Proof. apply stable_and; auto. Qed.
#[local] Hint Resolve pending_stable at_work_stable : core.

Lemma quiet_step t a w w' new : quiet t a w -> happened w' = happened w ++ new -> (forall turn, Claimed t turn ∉ new) -> quiet t a w'.
Proof.
  intros Hq Hn Hno i turn. rewrite Hn. intros [H|[_ H]]%lookup_app_Some Ha.
  - eapply settled_grow; [exact Hn|]. by apply Hq.
  - apply list_elem_of_lookup_2 in H. by apply Hno in H.
Qed.

(** Operations that only ask, in a row *)
Lemma still_try {A B E} t P (p : Prog runner_answer (result A E)) (f : A -> Prog runner_answer (result B E)) :
  oks t anything P p (fun _ => P) -> (forall x, oks t anything P (f x) (fun _ => P)) -> oks t anything P (prog_try p f) (fun _ => P).
Proof. intros Hp Hf. eapply ok_try; [exact Hp|exact Hf|done]. Qed.
Lemma still_err {A E F} (g : E -> F) t P (p : Prog runner_answer (result A E)) :
  oks t anything P p (fun _ => P) -> oks t anything P (prog_err g p) (fun _ => P).
Proof. intros H. apply ok_err. exact H. Qed.
Lemma still_ret {A} t P (x : A) : oks t anything P (Ret x) (fun _ => P).
Proof. by intros w. Qed.

Lemma run_turn_ok t P turn : stables t P -> oks t anything P (run_turn from_slice turn) (fun _ => P).
Proof.
  intros HP. unfold run_turn, prompt, of_store. apply still_try.
  - destruct (Event_body _); try apply still_ret. apply still_try; [apply still_ret|]. intros asker.
    apply still_try; [|intros ?; apply still_ret]. apply still_err, ask_ok; [done|].
    intros c w x w' Hc. cbn in Hc. unfold tried in Hc. destruct (Choice_fails c); by injection Hc.
  - intros text. apply still_try; [apply still_err, ask_ok; [done|]|].
    + intros c w x w' Hc. by injection Hc.
    + intros output. apply still_try; [apply still_ret|]. intros answer.
      destruct (match _ with Some _ => _ | None => _ end); [apply still_ret|].
      apply still_try; [apply still_ret|]. intros ?. apply still_ret.
Qed.

Lemma work_lock_ok t a :
  oks t anything (at_work t a None) (call (Op_Lock a)) (outcome (fun _ => at_work t a (Some a)) (has t None (Some (a, false)))).
Proof.
  apply call_ok.
  - intros c w x w' Hi [Hh Hq] Hc. cbn in Hc.
    destruct (Choice_fails c); [injection Hc as <- <-; by split; [apply silent_ok|]|].
    destruct (launches w !! a) eqn:Hf; [done|]. injection Hc as <- <-. split; [by apply lock_ok|].
    split; [by apply has_locked|]. eapply quiet_step; [done..|]. intros turn Hx. by apply list_elem_of_singleton in Hx.
  - intros x. apply stable_result; auto.
Qed.

Lemma claim_ok t a :
  oks t anything (at_work t a (Some a)) (call (Op_Claim a))
    (outcome (fun claimed w => match claimed with
                               | None => at_work t a (Some a) w /\ caught_up t a w
                               | Some turn => has t (Some a) (Some (a, false)) w /\ pending t a turn w
                               end) (has t (Some a) (Some (a, false)))).
Proof.
  apply call_ok.
  - intros c w x w' Hi [Hh Hq] Hc. cbn in Hc. unfold tried in Hc. injection Hc as Hc.
    destruct (Choice_fails c); [injection Hc as <- <-; by split; [apply silent_ok|]|].
    destruct (Store_claim _ (store w) _ a) as [s r] eqn:Hclaim. injection Hc as <- <-.
    assert (Hmine : queues w !! a = Some (t, false)) by (by apply (proj2 Hh)). split.
    { apply happen_ok; [done|destruct r as [[turn|]|]; eauto|]. intros e He. destruct r as [[turn|]|y]; [| |by apply elem_of_nil in He];
        apply list_elem_of_singleton in He; subst e; split_and!; try done.
      - intros a' [= <-]. by rewrite (claim_agent _ _ _ _ _ _ Hclaim).
      - by intros a' [= <-].
      - intros a' s' [= <- <-]. by eapply claim_none. }
    destruct r as [[turn|]|y]; [| |exact Hh].
    + split; [exact Hh|]. intros i turn' [H|[_ H]]%lookup_app_Some Ha; [left|right].
      * eapply settled_grow; [done|]. by apply Hq.
      * apply list_elem_of_lookup_2, list_elem_of_singleton in H. by injection H.
    + split; [split; [exact Hh|]|].
      * eapply quiet_step; [done..|]. intros turn Hx. by apply list_elem_of_singleton in Hx.
      * intros i [H|H]%(since_app w _ [Idled t a s]); [|by apply list_elem_of_singleton in H|done].
        exists s. apply (since_new w); [done|]. apply since_lt in H. lia.
  - intros x. apply stable_result; [|auto]. intros [turn|]; auto.
Qed.

Lemma finish_ok t a turn completion :
  oks t anything (fun w => has t None (Some (a, false)) w /\ pending t a turn w) (call (Op_Finish turn completion))
    (outcome (fun _ => at_work t a None) (has t None (Some (a, false)))).
Proof.
  apply call_ok.
  - intros c w x w' Hi [Hh Hp] Hc. cbn in Hc. unfold tried in Hc. injection Hc as Hc.
    destruct (Choice_fails c); [injection Hc as <- <-; by split; [apply silent_ok|]|].
    destruct (Store_finish _ (store w) _ _ turn completion) as [s r]. injection Hc as <- <-. split.
    { apply happen_ok; [done|destruct r; eauto|]. intros e He. destruct r; [|by apply elem_of_nil in He].
      apply list_elem_of_singleton in He. by subst e. }
    destruct r as [u|y]; [|exact Hh]. split; [exact Hh|].
    intros i turn' [H|[_ H]]%lookup_app_Some Ha; [|by apply list_elem_of_lookup_2, list_elem_of_singleton in H].
    destruct (Hp i turn' H Ha) as [Hset|<-]; [by eapply settled_grow|].
    exists (length (happened w)), (Finished t turn'). split; [by apply lookup_lt_Some in H|]. split; [by apply list_lookup_middle|by left].
  - intros x. apply stable_result; auto.
Qed.

(** Giving the launch lock back, in the middle of the work *)
Lemma unlock_ok t a P (Q : Site D -> Prop) : stables t Q ->
  (forall w, P w -> has t (Some a) (Some (a, false)) w) ->
  (forall w, P w -> Q (drop_launch t a w)) ->
  oks t anything P (call (Op_Drop AgentLock_Launch a)) (fun _ => Q) /\
  oks t anything P (call (Op_Unwind AgentLock_Launch a)) (fun _ => Q).
Proof.
  intros Hs Hh HQ. split; (apply call_ok; [|done]); intros c w x w' Hi Hp Hc; cbn in Hc; injection Hc as <- <-;
    (split; [|by apply HQ]); (apply drop_launch_ok; [done|]); intros Hq; apply (Hh w Hp) in Hq; done.
Qed.

Lemma drop_launch_happened t a w : happened (drop_launch t a w) = happened w ++ [].
Proof. unfold drop_launch. case_bool_decide; by rewrite app_nil_r. Qed.

Definition in_turn (t : N) a turn w : Prop := has t None (Some (a, false)) w /\ pending t a turn w.
Lemma in_turn_stable t a turn : stables t (in_turn t a turn).
Proof. apply stable_and; auto. Qed.
#[local] Hint Resolve in_turn_stable : core.

Lemma start_turn_ok t a turn : oks t anything (fun w => has t (Some a) (Some (a, false)) w /\ pending t a turn w)
  (call (Op_Drop AgentLock_Launch a)) (fun _ => in_turn t a turn).
Proof.
  eapply unlock_ok; [auto|by intros w [? _]|]. intros w [Hh Hp]. split; [by eapply has_unlocked|].
  pose proof (drop_launch_happened t a w) as Hn.
  intros i turn'. rewrite Hn, app_nil_r. intros H Ha. destruct (Hp i turn' H Ha); [left; by eapply settled_grow|by right].
Qed.

Lemma completion_ok t P (ran : result Completion (RunnerError S)) request : stables t P ->
  oks t anything P
    (match ran with
     | Ok completion => Ret completion
     | Err error => prog_bind (call (Op_Complain request error)) (fun _ => Ret Completion_Failed)
     end) (fun _ => P).
Proof.
  intros HP. destruct ran as [completion|y]; [apply still_ret|].
  eapply ok_bind; [apply ask_ok; [done|]|intros ?; apply still_ret]. intros c w x w' Hc. by injection Hc.
Qed.

(** The worker that found nothing gives both locks back. *)
Lemma done_ok t a : oks t anything (fun w => at_work t a (Some a) w /\ caught_up t a w) (call (Op_Drop AgentLock_Queue a))
  (fun _ => has t (Some a) None).
Proof.
  apply call_ok; [|auto]. intros c w x w' Hi [[Hh Hq] Hc] Hp. cbn in Hp. injection Hp as <- <-.
  split; [|by eapply has_dropped, Hh; apply drop_queue_given].
  apply drop_queue_ok; [done|]. intros _. split_and!; [by apply (proj1 Hh)|done..].
Qed.

Lemma unlock_last_ok t a : oks t anything (has t (Some a) None) (call (Op_Drop AgentLock_Launch a)) (fun _ => has t None None).
Proof.
  apply call_ok; [|auto]. intros c w x w' Hi Hh Hp. cbn in Hp. injection Hp as <- <-.
  split; [|by eapply has_unlocked]. apply drop_launch_ok; [done|]. intros Hq. by apply (proj2 Hh) in Hq.
Qed.

(** A worker that has ended has no lock. *)
Definition ended (t : N) (r : option unit) w : Prop := match r with Some _ => has t None None w | None => True end.

Lemma worker_rounds_ok t a rounds :
  oks t anything (at_work t a None) (worker_rounds from_slice rounds a) (outcome (ended t) (has t None (Some (a, false)))).
Proof.
  induction rounds as [|rounds IH]; cbn [worker_rounds]; [by apply out_ok|].
  eapply out_try; [apply out_err, work_lock_ok| |done]. intros u0.
  eapply (out_try _ _ _ _ (fun claimed w => match claimed with
                               | None => at_work t a (Some a) w /\ caught_up t a w
                               | Some turn => has t (Some a) (Some (a, false)) w /\ pending t a turn w
                               end) _ (has t None (Some (a, false)))); [| |done].
  - unfold dropping_on_error. eapply ok_bind; [apply out_err, claim_ok|]. intros [claimed|y]; [by intros w|].
    eapply ok_bind; [eapply (unlock_ok t a _ (has t None (Some (a, false)))); [auto|done|]|].
    + intros w. apply has_unlocked.
    + intros u1. by apply out_fail.
  - intros [turn|].
    + eapply ok_bind; [apply start_turn_ok|]. intros u1.
      eapply ok_bind; [apply run_turn_ok; auto|]. intros ran.
      eapply ok_bind; [apply completion_ok; auto|]. intros completion.
      eapply out_try; [apply out_err, finish_ok|intros u2; exact IH|done].
    + eapply ok_bind; [apply done_ok|]. intros u1. eapply ok_bind; [apply unlock_last_ok|]. intros u2. by apply out_ok.
Qed.

Lemma recover_ok t a :
  oks t anything (at_work t a None) (call (Op_Recover a)) (outcome (fun _ => at_work t a None) (has t None (Some (a, false)))).
Proof.
  apply call_ok.
  - intros c w x w' Hi [Hh Hq] Hc. cbn in Hc. unfold tried in Hc. injection Hc as Hc.
    destruct (Choice_fails c); [injection Hc as <- <-; by split; [apply silent_ok|]|].
    destruct (Store_recover _ (store w) _ a) as [s r]. injection Hc as <- <-. split.
    { apply happen_ok; [done|eauto|]. intros e He. apply list_elem_of_singleton in He. subst e. split_and!; try done.
      intros a' [= <-]. split; [by apply (proj2 Hh)|done]. }
    destruct r as [u|y]; [|exact Hh]. split; [exact Hh|]. eapply quiet_step; [done..|].
    intros turn Hx. by apply list_elem_of_singleton in Hx.
  - intros x. apply stable_result; auto.
Qed.

(** A worker that tries for the queue finds out that the agent is looked after, be it by itself. *)
Lemma work_try_ok t s a : AgentId_fmt a = s ->
  oks t anything (fun w => arguments w !! t = Some s /\ has t None None w) (call (Op_TryLock false a))
    (outcome (fun (guard : bool) w => covered t s w /\ if guard then at_work t a None w else has t None None w) (has t None None)).
Proof.
  intros Hs. apply call_ok.
  - intros c w x w' Hi [Harg Hh] Hc. cbn in Hc. unfold tried in Hc. injection Hc as Hc.
    destruct (Choice_fails c); [injection Hc as <- <-; by split; [apply silent_ok|]|].
    assert (Hmine : forall i d a', happened w !! i = Some (Spawned d t (AgentId_fmt a')) -> a' = a).
    { intros i d a' H. apply (inv_spawned _ Hi) in H. apply AgentId_fmt_inj. congruence. }
    destruct (queues w !! a) as [[h probe]|] eqn:Hq; injection Hc as <- <-.
    + split; [by apply silent_ok|]. split; [|exact Hh]. split; [exact Harg|]. intros i d a' H Hl Hno.
      pose proof (Hmine _ _ _ H) as ->. right. exists h.
      assert (Hd : launches w !! a = Some h -> False).
      { intros Hl'. assert (h = d) as -> by congruence. by apply Hno, (inv_spawner _ Hi a d probe i t). }
      destruct probe; [by destruct (Hd (inv_probe _ Hi _ _ Hq))|]. split; [done|]. by intros ?%Hd.
    + assert (Hn : launches w !! a <> Some t) by (by intros H%(proj1 Hh)).
      split; [by apply try_ok|]. split; [split; [exact Harg|]|split; [by apply has_tried|]].
      * intros i d a' H Hl Hno. pose proof (Hmine _ _ _ H) as ->. right. exists t. split; [apply lookup_insert_eq|done].
      * intros i turn H Ha. destruct (inv_claimed _ Hi _ _ _ H) as [|Hq']; [done|]. rewrite Ha in Hq'. congruence.
  - intros x. apply stable_result; [|auto]. intros [|]; auto.
Qed.

Lemma announce_call_ok t s P : stables t P -> (forall w, P w -> P (announce t w)) ->
  oks t anything (fun w => covered t s w /\ P w) (call Op_Announce) (outcome (fun _ => P) P).
Proof.
  intros HP Hsame. apply call_ok; [|intros []; auto].
  intros c w x w' Hi [Hc Hp] Ha. cbn in Ha. injection Ha as Ha.
  destruct (Choice_refused c); [|injection Ha as <- <-; split; [by eapply announce_ok|by apply Hsame]].
  destruct (Choice_delivered c); injection Ha as <- <-;
    [split; [by eapply announce_ok|by apply Hsame]|split; [by apply silent_ok|done]].
Qed.

(** A process that returns has no lock left to give back. *)
Lemma return_ok t : oks t anything (has t None None) (call Op_Return) (fun _ _ => True).
Proof.
  apply call_ok; [|by intros x t' w w']. intros c w x w' Hi [Hl Hq] Hc. cbn in Hc. injection Hc as <- _. split; [|done].
  assert (released t w = w) as ->; [|by apply silent_ok]. unfold released.
  rewrite !map_filter_id; [by destruct w|..].
  - intros a [h b] H. cbn. intros ->. by apply Hq in H.
  - intros a h H. cbn. intros ->. by apply Hl in H.
Qed.
Lemma onward_ok t P : oks t anything P (call Op_Onward) (fun _ _ => True).
Proof. apply call_ok; [|by intros x t' w w']. by intros c w x w' _ _ Hc. Qed.

(** A worker keeps to what it guarantees. *)
Lemma chat_worker_ok t rounds : oks t anything (has t None None) (chat_worker from_slice rounds) (fun _ _ => True).
Proof.
  unfold chat_worker. eapply (ok_bind _ _ _ _ _ _ _ _ (fun s w => arguments w !! t = Some s /\ has t None None w)).
  { apply call_ok.
    - intros c w x w' Hi Hh Hc. cbn in Hc. destruct (arguments w !! t) eqn:Ha; [|done]. injection Hc as <- <-.
      split; [by apply silent_ok|done].
    - intros s. apply stable_and; [|auto]. intros t' w w' _ _ Hg. by apply (guar_arguments _ _ _ Hg). }
  intros s. set (P := fun w => arguments w !! t = Some s /\ has t None None w).
  assert (HP : stables t P).
  { apply stable_and; [|auto]. intros t' w w' _ _ Hg. by apply (guar_arguments _ _ _ Hg). }
  eapply (ok_bind _ _ _ _ _ _ _ _ (outcome (ended t) (has t None None))).
  2: { intros r. destruct r as [[u|]|y]; [apply return_ok|apply onward_ok|apply return_ok]. }
  unfold worker. eapply (out_try _ _ _ _ (fun _ => P) _ P); [apply out_err| |by intros w [_ Hh]].
  { eapply ok_post; [apply (ask_ok t P Op_Open); [done|]|by intros []]. intros c w x w' Hc. cbn in Hc. unfold tried in Hc.
    destruct (Choice_fails c); by injection Hc. }
  intros origin. destruct (AgentId_try_from s) as [a|y] eqn:Hs; [|by intros w _ [_ Hh]].
  apply AgentId_canonical in Hs.
  match goal with |- ok _ _ _ _ _ _ (prog_try _ ?f) ?Q => change (oks t anything P (f a) Q); cbv beta end.
  destruct (negb _); [by intros w _ [_ Hh]|].
  eapply out_try; [apply out_err, work_try_ok, Hs| |done]. intros [|].
  - unfold dropping_on_error. eapply (ok_bind _ _ _ _ _ _ _ _ (outcome (ended t) (has t None (Some (a, false))))).
    + eapply out_try; [apply out_err, (announce_call_ok t s (at_work t a None)); auto| |by intros w [? _]]. intros u0.
      eapply out_try; [apply out_err, recover_ok|intros u1; apply worker_rounds_ok|done].
    + intros [r|y]; [by intros w|]. eapply (ok_bind _ _ _ _ _ _ _ _ (fun _ => has t None None)); [|by intros u0 w].
      apply call_ok; [|auto]. intros c w x w' Hi Hh Hc. cbn in Hc. injection Hc as <- <-.
      split; [by apply unwind_queue_ok|]. eapply has_dropped, Hh. apply unwind_queue_given.
  - eapply out_try; [apply out_err, (announce_call_ok t s (has t None None)); auto|by intros u0 w|done].
Qed.

Lemma elsewhere_ok t s : oks t anything (has t None None) (elsewhere s) (fun _ _ => True).
Proof.
  apply call_ok; [|auto]. intros c w x w' Hi Hh Hc. cbn in Hc. injection Hc as <- <-. split; [|done].
  apply happen_ok; [done|by left|by intros e ?%elem_of_nil].
Qed.

(** ** All processes together *)

Lemma working_queues t a w : a ∈ working t w <-> queues w !! a = Some (t, false).
Proof.
  unfold working. rewrite list_elem_of_fmap. split.
  - intros ([a' h] & -> & [Hh Hin]%list_elem_of_filter). cbn in Hh. subst h. by apply elem_of_map_to_list in Hin.
  - intros H. exists (a, (t, false)). split; [done|]. apply list_elem_of_filter. split; [done|]. by apply elem_of_map_to_list.
Qed.

Lemma over_queues t w a h b : queues (runner_over t w) !! a = Some (h, b) <-> queues w !! a = Some (h, b) /\ h <> t.
Proof. cbn. by rewrite map_lookup_filter_Some. Qed.
Lemma over_launches t w a h : launches (runner_over t w) !! a = Some h <-> launches w !! a = Some h /\ h <> t.
Proof. cbn. by rewrite map_lookup_filter_Some. Qed.

Lemma over_ok t w : RunnerInv w -> RunnerInv (runner_over t w) /\ runner_guar t w (runner_over t w).
Proof.
  intros Hi.
  assert (Hg : runner_guar t w (runner_over t w)).
  { split; try done.
    - intros a h Hne. rewrite over_launches. naive_solver.
    - intros a h b Hne. rewrite over_queues. naive_solver.
    - exists [GaveUp t (working t w)]. split; [done|]. split; [by constructor; [split|]|].
      intros a [_ H]%over_launches. done.
    - intros a i Hle. apply attended_grow with [GaveUp t (working t w)]; [done|]. intros h Hh _.
      destruct (decide (h = t)) as [->|Hne].
      + right. exists (GaveUp t (working t w)). split; [by apply (since_new w)|]. right. exists t, (working t w).
        split; [done|]. by apply working_queues.
      + left. split; [by apply over_queues|]. intros [H _]%over_launches. by left. }
  split; [|done]. apply (sound_inv t w _ [GaveUp t (working t w)] Hi). split; try done.
  - eauto.
  - intros a h [H Hne]%over_queues. apply over_launches. split; [by apply (inv_probe _ Hi)|done].
  - apply (inv_announced _ Hi).
  - intros d c s He. by apply list_elem_of_singleton in He.
  - intros a b i c [_ H]%over_queues. done.
  - intros i s found a He. by apply list_elem_of_singleton in He.
  - intros s found request a He. by apply list_elem_of_singleton in He.
  - intros a s He. by apply list_elem_of_singleton in He.
  - intros turn He. by apply list_elem_of_singleton in He.
  - intros i turn H Hq. destruct (inv_claimed _ Hi _ _ _ H) as [|Hq']; [by eapply settled_grow|].
    exists (length (happened w)), (GaveUp t (working t w)). split; [by apply lookup_lt_Some in H|].
    split; [by apply list_lookup_middle|]. right. exists (working t w). split; [done|]. by apply working_queues.
  - intros e a He. apply list_elem_of_singleton in He. by subst e.
Qed.

Lemma over_rested t w : RunnerInv w -> has t None None (runner_over t w).
Proof. intros _. split; [intros a; rewrite over_launches|intros a b; rewrite over_queues]; naive_solver. Qed.

Lemma startable_runs t p : runner_startable from_slice p -> exists G, ok runner_exec RunnerInv runner_guar t G (has t None None) p (fun _ _ => True).
Proof.
  intros [|rounds|s]; exists anything; [apply dispatcher_ok|apply chat_worker_ok|apply elsewhere_ok].
Qed.

Definition new_site (s : Store D) : Site D := mkSite s ∅ ∅ ∅ ∅ [].
Abbreviation pool := (Config (Op := RunnerOp D S) (answer := runner_answer) (Tid := N) (W := Site D)).
Abbreviation step := (interleave runner_exec runner_over (runner_startable from_slice)).

(** From a machine on which nothing runs, with any store *)
Definition reachable (c : pool) : Prop :=
  exists s threads, rtc step (mkConfig (new_site s) threads) c /\ forall t, threads t = None.

Lemma new_site_inv s : RunnerInv (new_site s).
Proof.
  split; cbn; intros *; rewrite ?lookup_empty, ?lookup_nil; try done; set_solver.
Qed.

Lemma runner_proved (c : pool) : reachable c -> proved runner_exec RunnerInv runner_guar (fun t => has t None None) c.
Proof.
  intros (s & threads & Hsteps & Hnone).
  eapply (interleavings_sound runner_exec RunnerInv runner_guar runner_over (runner_startable from_slice) over_ok
    (fun t => has t None None) (fun t => has_stable t None None) over_rested startable_runs); [exact Hsteps|].
  apply proved_start; [apply new_site_inv|done|]. intros t. by split; intros *; cbn; rewrite lookup_empty.
Qed.

(** C10: No ask is left lying.  Once a dispatch that looked at an ask of a managed agent has ended well, the
    agent is looked after: a worker found after that look that the agent had nothing left to claim, or a worker
    of the agent failed or was killed after it, or a worker of the agent has its queue and still runs.  Any
    number of processes may dispatch and work at the same time, and the store may change in any way. *)
Theorem dispatched_asks_are_attended (c : pool) i j d s found request a :
  reachable c -> happened (world c) !! i = Some (Looked d s found) -> asked s request a ->
  happened (world c) !! j = Some (Noted d true) -> (i < j)%nat ->
  (forall k s' f', (i < k < j)%nat -> happened (world c) !! k <> Some (Looked d s' f')) ->
  (exists k t s', (i < k)%nat /\ happened (world c) !! k = Some (Idled t a s') /\
     open_for (Store_database s') a = Ok (E := StoreError S) []) \/
  (exists k t agents, (i < k)%nat /\ happened (world c) !! k = Some (GaveUp t agents) /\ a ∈ agents) \/
  (exists t p, queues (world c) !! a = Some (t, false) /\ threads c t = Some p).
Proof.
  intros Hr H1 Ha H2 Hlt Hno. pose proof (runner_proved c Hr) as (Hi & _ & Hrest).
  assert (Hat : attended (world c) a i).
  { eapply (inv_noted _ Hi); [exact H1|exact H2|done|done|]. by eapply (inv_looked _ Hi). }
  destruct Hat as [(e & (k & Hk & He) & Hs)|(h & Hh & _)].
  - assert (Hne : k <> i) by (intros ->; rewrite H1 in He; injection He as <-; destruct Hs as [(? & ? & ?)|(? & ? & ? & _)]; done).
    destruct Hs as [(t & s' & ->)|(t & agents & -> & Hin)]; [left|right; left].
    + exists k, t, s'. split; [lia|]. split; [done|]. by eapply (inv_idled _ Hi).
    + exists k, t, agents. split; [lia|]. done.
  - right. right. exists h. destruct (threads c h) as [p|] eqn:Hp; [by exists p|].
    destruct (Hrest h Hp) as [_ Hq]. by apply Hq in Hh.
Qed.

(** C11: The turns of an agent are worked on one after the other: after a worker has claimed a turn, no worker of
    this agent claims or recovers anything, or finds nothing to do, before the turn was finished or its worker
    failed or was killed.  So a turn is recorded as interrupted only when its worker is gone. *)
Theorem turns_are_worked_on_alone (c : pool) i j t turn e :
  reachable c -> happened (world c) !! i = Some (Claimed t turn) -> happened (world c) !! j = Some e -> (i < j)%nat ->
  concerns e = Some (Turn_agent turn) -> exists k e', (i < k < j)%nat /\ happened (world c) !! k = Some e' /\ closes e' t turn.
Proof. intros Hr. apply (inv_alone _ (proj1 (runner_proved c Hr))). Qed.

End runs.

(** ** Samples *)

(** *** What the sample store holds *)

Definition alice_b : AgentId := AgentId_new alice machine_b.
Definition pair_b : DirectPair := mkDirectPair alice_b bob_b I.
Definition only_b : Audience := mkAudience [machine_b] I.
Definition talk_b : Conversation := Conversation_Direct pair_b.
Definition at_0 : Stamp := Stamp_from_unix_millis 0.

Definition ask_b : EventId := EventId_new machine_b (nz 1 I).
Definition events_b : list Event := [
  mkEvent ask_b 1 (Body_Message talk_b alice hello only_b (Intent_Ask bob_b Chain_default) at_0 None) I;
  mkEvent (EventId_new machine_b (nz 2 I)) 2 (Body_TurnStarted ask_b talk_b only_b bob) I;
  mkEvent (EventId_new machine_b (nz 3 I)) 3 (Body_Activity bob (mkActivity ActivityState_Working at_0 None)) I;
  mkEvent (EventId_new machine_b (nz 4 I)) 4 (Body_Resolved ask_b talk_b only_b bob Outcome_Failed) I;
  mkEvent (EventId_new machine_b (nz 5 I)) 5 (Body_Activity bob (mkActivity ActivityState_Waiting at_0 None)) I
].

Definition failed_b : Resolution := {|
  Resolution_event := EventId_new machine_b (nz 4 I);
  Resolution_clock := 4;
  Resolution_ending := Ending_Ended Outcome_Failed;
  Resolution_asker := alice_b;
  Resolution_responder := bob_b
|}.
Definition bob_card : Card :=
  mkCard (@mkValidated _ (Line_check 64) "Bob" I) None None (mkSkills [] I) None None Tool_Claude Mode_Managed Access_Read.
Definition bob_config : LocalAgent := mkLocalAgent "/home/bob" None.

#[local] Instance runner_codec : Codec := {
  to_string e := marks <$> position_below events_b e;
  blake3_hash l := take 32 (l ++ replicate 32 0)
}.
#[local] Instance runner_store_codec : StoreCodec := {
  Event_from_str s := events_b !! String.length s;
  Resolution_Json := listed_Json [failed_b];
  Card_Json := listed_Json [bob_card];
  MachineCard_Json := listed_Json [];
  Room_Json := listed_Json [];
  Delivery_Json := listed_Json [Delivery_Delivered; Delivery_Read; Delivery_Acknowledged];
  Activity_Json := listed_Json [mkActivity ActivityState_Working at_0 None; mkActivity ActivityState_Waiting at_0 None];
  Descriptor_Json := listed_Json [];
  LocalAgent_Json := listed_Json [bob_config]
}.

(** Machine B with a managed agent that was asked something *)
Definition opened_b : Store Memory :=
  match (Store_open_in sample_formats (replicate 16 187) Memory_empty None).2 with
  | Ok store => store
  | Err _ => mkStore Memory_empty machine_b None
  end.
Definition with_row (s : Store Memory) (t : TextTable) (k v : string) : Store Memory :=
  mkStore (redb_insert (Store_database s) t k v).1 (Store_origin s) (Store_bell s).
Definition store_b : Store Memory :=
  let s := (Store_author rung opened_b Priority_Ordinary
              (Body_Message talk_b alice hello only_b (Intent_Ask bob_b Chain_default) at_0 None)).1 in
  with_row (with_row s PROFILES (AgentId_fmt bob_b) (default EmptyString (json_to_string bob_card)))
    LOCAL_AGENTS (as_str bob) (default EmptyString (json_to_string bob_config)).

(** *** Playing *)

Definition no_json (l : list N) : option Value := None.
Abbreviation sample_pool := (Config (Op := RunnerOp Memory string) (answer := runner_answer) (Tid := N) (W := Site Memory)).
Definition sample_step := interleave runner_exec runner_over (runner_startable no_json).

(** Nothing fails but the client of the language model. *)
Definition calm (child : N) : RunnerChoice string := mkRunnerChoice None None rung at_0 at_0 child true (Err "no client"%string).

Inductive Move := Move_dispatch (t : N) | Move_work (t : N) (rounds : nat) | Move_act (t : N) (steps : nat) (child : N).

Fixpoint act (steps : nat) (t child : N) (c : sample_pool) : sample_pool :=
  match steps with
  | O => c
  | S steps =>
      match threads c t with
      | Some (Do op k) =>
          match runner_perform t (calm child) op (world c) with
          | Some (w, x) => act steps t child (mkConfig w (thread_update (threads c) t (Some (k x))))
          | None => c
          end
      | _ => c
      end
  end.
Definition start (t : N) (p : Prog runner_answer unit) (c : sample_pool) : sample_pool :=
  match threads c t with
  | None => mkConfig (world c) (thread_update (threads c) t (Some p))
  | Some _ => c
  end.
Definition move (c : sample_pool) (m : Move) : sample_pool :=
  match m with
  | Move_dispatch t => start t dispatcher c
  | Move_work t rounds => start t (chat_worker no_json rounds) c
  | Move_act t steps child => act steps t child c
  end.
Definition play (moves : list Move) (c : sample_pool) : sample_pool := fold_left move moves c.

Definition sample_start : sample_pool := mkConfig (new_site store_b) (fun _ => None).

(** The dispatcher 1 launches the worker 2, which takes the queue; the dispatcher ends. *)
Definition launched : sample_pool :=
  play [Move_dispatch 1; Move_act 1 6 2; Move_work 2 3; Move_act 2 4 0; Move_act 1 9 0] sample_start.
(** The worker does all there is to do. *)
Definition worked : sample_pool := play [Move_act 2 99 0] launched.

(** *** What is played is an interleaving. *)

Lemma runner_act_sound steps t child : forall c, rtc sample_step c (act steps t child c).
Proof.
  induction steps as [|steps IH]; intros c; cbn [act]; [apply rtc_refl|].
  destruct (threads c t) as [[a|op k]|] eqn:Ht; try apply rtc_refl.
  destruct (runner_perform t (calm child) op (world c)) as [[w x]|] eqn:Hp; [|apply rtc_refl].
  eapply rtc_l; [|apply IH]. destruct c as [w0 ts]. cbn [world threads] in *.
  eapply interleave_act; [exact Ht|]. by exists (calm child).
Qed.

Lemma start_sound t p c : runner_startable no_json p -> rtc sample_step c (start t p c).
Proof.
  intros Hp. unfold start. destruct (threads c t) eqn:Ht; [apply rtc_refl|]. apply rtc_once.
  destruct c as [w ts]. by apply interleave_start.
Qed.

Lemma runner_play_sound moves : forall c, rtc sample_step c (play moves c).
Proof.
  induction moves as [|m moves IH]; intros c; [apply rtc_refl|]. cbn. etransitivity; [|apply IH].
  destruct m as [t|t rounds|t steps child]; cbn [move];
    [apply start_sound, startable_dispatcher|apply start_sound, startable_chat_worker|apply runner_act_sound].
Qed.

Lemma launched_reachable : reachable no_json launched.
Proof. exists store_b, (fun _ => None). split; [|done]. apply runner_play_sound. Qed.

Lemma worked_reachable : reachable no_json worked.
Proof.
  exists store_b, (fun _ => None). split; [|done]. etransitivity; [|apply runner_play_sound]. apply runner_play_sound.
Qed.

(** [asked], decided *)
Definition asked_check (s : Store Memory) (request : EventId) (a : AgentId) : bool :=
  match view_open_asks (S := string) (Store_database s) with
  | Ok asks => bool_decide ((request, a) ∈ asks)
  | Err _ => false
  end && bool_decide (AgentId_origin a = Store_origin s) &&
  match view_profile (S := string) (Store_database s) a with
  | Ok (Some card) => bool_decide (mode card = Mode_Managed)
  | _ => false
  end &&
  match agent_config (S := string) (Store_database s) (AgentId_name a) with Ok (Some _) => true | _ => false end.

Lemma asked_check_sound s request a : asked_check s request a = true -> asked s request a.
Proof.
  unfold asked_check. intros [[[H1 H2%bool_decide_eq_true_1]%andb_true_iff H3]%andb_true_iff H4]%andb_true_iff.
  destruct (view_open_asks _) as [asks|] eqn:Ha; [|done]. apply bool_decide_eq_true_1 in H1.
  destruct (view_profile _ _) as [[card|]|] eqn:Hp; try done. apply bool_decide_eq_true_1 in H3.
  destruct (agent_config _ _) as [[config|]|] eqn:Hc; try done. by exists asks, card, config.
Qed.

Lemma looked_at : exists s found, happened (world launched) !! 0%nat = Some (Looked 1 s found) /\ asked s ask_b bob_b.
Proof.
  assert (H : match happened (world launched) !! 0%nat with
              | Some (Looked 1 s found) => asked_check s ask_b bob_b
              | _ => false
              end = true) by (vm_compute; reflexivity).
  destruct (happened (world launched) !! 0%nat) as [[[|[]] s found| | | | | | | |]|]; try discriminate H.
  exists s, found. split; [reflexivity|]. by apply asked_check_sound.
Qed.

Definition kind (e : Happening Memory) : N :=
  match e with
  | Looked _ _ _ => 0 | Locked _ _ => 1 | Spawned _ _ _ => 2 | Recovered _ _ => 3 | Claimed _ _ => 4 | Idled _ _ _ => 5
  | Finished _ _ => 6 | GaveUp _ _ => 7 | Noted _ _ => 8
  end.
Lemma launched_kinds : map kind (happened (world launched)) = [0; 1; 2; 8].
Proof. vm_compute. reflexivity. Qed.

Lemma noted_at : happened (world launched) !! 3%nat = Some (Noted 1 true).
Proof.
  assert (H : match happened (world launched) !! 3%nat with Some (Noted 1 true) => true | _ => false end = true)
    by (vm_compute; reflexivity).
  by destruct (happened (world launched) !! 3%nat) as [[| | | | | | | |[|[]] []]|]; try discriminate H.
Qed.

Lemma looked_once (l : list (Happening Memory)) k t s f :
  map kind l = [0; 1; 2; 8] -> (0 < k < 3)%nat -> l !! k <> Some (Looked t s f).
Proof.
  intros Hl Hk H. assert (Hkind : map kind l !! k = Some 0) by (change (map kind l) with (kind <$> l); by rewrite list_lookup_fmap, H).
  rewrite Hl in Hkind. destruct k as [|[|[|[|k]]]]; try lia; discriminate Hkind.
Qed.

(** ** The theorems on the samples *)

(** The worker was launched and has the queue. *)
Lemma dispatched_asks_are_attended_witness :
  exists s found, happened (world launched) !! 0%nat = Some (Looked 1 s found) /\ asked s ask_b bob_b /\
  ((exists k t s', (0 < k)%nat /\ happened (world launched) !! k = Some (Idled t bob_b s') /\
      open_for (Store_database s') bob_b = Ok (E := StoreError string) []) \/
   (exists k t agents, (0 < k)%nat /\ happened (world launched) !! k = Some (GaveUp t agents) /\ bob_b ∈ agents) \/
   (exists t p, queues (world launched) !! bob_b = Some (t, false) /\ threads launched t = Some p)).
Proof.
  destruct looked_at as (s & found & Hl & Ha). exists s, found. split; [exact Hl|]. split; [exact Ha|].
  exact (dispatched_asks_are_attended no_json launched 0 3 1 s found ask_b bob_b launched_reachable
    Hl Ha noted_at (Nat.lt_0_succ 2) (fun k s' f' => looked_once _ k 1 s' f' launched_kinds)).
Defined.

(** The turn was claimed, then finished; then nothing was left. *)
Definition claims_then_idles (l : list (Happening Memory)) : bool :=
  match l !! 6%nat, l !! 9%nat with
  | Some (Claimed t turn), Some (Idled t' a s) => (t =? 2) && (t' =? 2) && bool_decide (a = Turn_agent turn)
  | _, _ => false
  end.
Lemma claims_then_idles_at l : claims_then_idles l = true ->
  exists turn s, l !! 6%nat = Some (Claimed 2 turn) /\ l !! 9%nat = Some (Idled 2 (Turn_agent turn) s).
Proof.
  unfold claims_then_idles. destruct (l !! 6%nat) as [[]|]; try done. destruct (l !! 9%nat) as [[]|]; try done.
  intros [[->%N.eqb_eq ->%N.eqb_eq]%andb_true_iff ->%bool_decide_eq_true_1]%andb_true_iff. eauto.
Qed.
Lemma worked_claims : claims_then_idles (happened (world worked)) = true.
Proof. vm_compute. reflexivity. Qed.

Lemma turns_are_worked_on_alone_witness :
  exists turn s e k, happened (world worked) !! 6%nat = Some (Claimed 2 turn) /\
    happened (world worked) !! 9%nat = Some (Idled 2 (Turn_agent turn) s) /\
    (6 < k < 9)%nat /\ happened (world worked) !! k = Some e /\ closes e 2 turn.
Proof.
  destruct (claims_then_idles_at _ worked_claims) as (turn & s & H6 & H9).
  assert (Hlt : (6 < 9)%nat) by (apply Nat.ltb_lt; reflexivity).
  pose proof (turns_are_worked_on_alone no_json worked 6 9 2 turn (Idled 2 (Turn_agent turn) s) worked_reachable H6 H9
    Hlt eq_refl) as (k & e & Hk & He & Hc).
  exists turn, s, e, k. exact (conj H6 (conj H9 (conj Hk (conj He Hc)))).
Defined.
