(* ===== verification/ChatServe.v ===== *)
(** chat/serve.rs: the service that keeps one follower per peer and starts and stops them as peers come and
    go, and a follower, which exchanges with its peer whenever one of both sides has something new. *)

From Stdlib Require Import NArith Lia String Ascii.
From stdpp Require Import base gmap list strings.
From S2P Require Import Prelude SortedLists RustStr Ids AgentLists Notification Handoff Event.
From S2P Require Import Ledger ChatWire Exchange Model Sync Domain Database Admin Programs ChatSync SyncRuns.

(** ** Definitions *)

Definition EXCHANGE_SECONDS : N := 60.
Definition MAX_BACKOFF_MILLIS : N := 60000.
Definition QUESTION_REFRESH_MILLIS : N := 1000.
Definition HEARTBEAT_GRACE_SECONDS : N := 15.
Definition INITIAL_BACKOFF_MILLIS : N := 1000.
Definition BACKOFF_FACTOR : N := 2.

Inductive Signal :=
| Signal_Local
| Signal_Remote (result_ : result ChatReply SyncError)
| Signal_Stop.
(** [clock::Waited] *)
Inductive Waited :=
| Waited_Received (signal : Signal)
| Waited_Expired
| Waited_Closed.

(** *** Following one peer *)

Inductive FollowOp :=
| Follow_Sync (seconds : N)
| Follow_Pause (millis : N)
| Follow_StartWait
| Follow_Receive (millis : N).

Definition follow_answer (op : FollowOp) : Type :=
  match op with
  | Follow_Sync _ => result Report SyncError
  | Follow_Pause _ | Follow_StartWait => unit
  | Follow_Receive _ => Waited
  end.

Definition next_backoff (backoff : N) : N := N.min (saturating_mul u64_max backoff BACKOFF_FACTOR) MAX_BACKOFF_MILLIS.

Definition pause (backoff : N) : Prog follow_answer N :=
  do~ call (Follow_Pause backoff) in
  Ret (next_backoff backoff).

(** The loop, with [rounds] of it left; [None] when they are used up *)
Fixpoint follow_rounds (rounds : nat) (backoff : N) (waiting exchange : bool) : Prog follow_answer (option unit) :=
  match rounds with
  | O => Ret None
  | S rounds =>
      let~ backoff :=
        if exchange then
          let~ report := call (Follow_Sync EXCHANGE_SECONDS) in
          match report with
          | Ok report => if Report_complete report then Ret INITIAL_BACKOFF_MILLIS else pause backoff
          | Err _ => pause backoff
          end
        else Ret backoff in
      do~ (if waiting then Ret tt else call Follow_StartWait) in
      let~ got := call (Follow_Receive MAX_BACKOFF_MILLIS) in
      match got with
      | Waited_Received Signal_Stop | Waited_Closed => Ret (Some tt)
      | Waited_Received Signal_Local | Waited_Expired => follow_rounds rounds backoff true true
      | Waited_Received (Signal_Remote (Ok ChatReply_Heartbeat)) => follow_rounds rounds backoff false false
      | Waited_Received (Signal_Remote (Ok _)) => follow_rounds rounds backoff false true
      | Waited_Received (Signal_Remote (Err _)) =>
          let~ backoff := pause backoff in
          follow_rounds rounds backoff false true
      end
  end.

Definition follow (rounds : nat) : Prog follow_answer (option unit) :=
  follow_rounds rounds INITIAL_BACKOFF_MILLIS false true.

(** The thread that [start_wait] begins; [seen] is what was read of the cursor before. *)
Definition start_wait (alias : string) (local peer : Origin) (seen : result N string) : SyncProg (result ChatReply SyncError) :=
  let^ seen := prog_lift (map_err SyncError_Store seen) in
  let^ channel := prog_lift (Ssh_new alias) in
  let~ deadline := call (Op_After (saturating_add u64_max HEARTBEAT_SECONDS HEARTBEAT_GRACE_SECONDS)) in
  Channel_call channel (ChatRequest_Wait local peer seen) deadline.

(** *** The service *)

Inductive ServeOp :=
| Serve_Escalate
| Serve_Peers
| Serve_Stop (alias : string)
| Serve_Start (alias : string) (origin : Origin)
| Serve_Pulse (millis : N)
| Serve_Local (alias : string).

Definition serve_answer (op : ServeOp) : Type :=
  match op with
  | Serve_Escalate => result unit string
  | Serve_Peers => result (gmap string Origin) string
  | Serve_Pulse _ => result bool string
  | Serve_Stop _ | Serve_Start _ _ | Serve_Local _ => unit
  end.

(** The peers that are followed, each by a thread that was given an alias and an origin *)
Abbreviation Workers := (gmap string Origin).

Fixpoint stop_stale (stale : list string) (workers : Workers) : Prog serve_answer Workers :=
  match stale with
  | [] => Ret workers
  | alias :: stale =>
      match workers !! alias with
      | Some _ => do~ call (Serve_Stop alias) in stop_stale stale (delete alias workers)
      | None => stop_stale stale workers
      end
  end.

Fixpoint start_missing (peers : list (string * Origin)) (workers : Workers) : Prog serve_answer Workers :=
  match peers with
  | [] => Ret workers
  | (alias, origin) :: peers =>
      match workers !! alias with
      | Some _ => start_missing peers workers
      | None => do~ call (Serve_Start alias origin) in start_missing peers (<[alias := origin]> workers)
      end
  end.

Definition peers_in_order (peers : gmap string Origin) : list (string * Origin) :=
  omap (fun alias => pair alias <$> peers !! alias) (btree_keys peers).

Definition reconcile (workers : Workers) : Prog serve_answer (result Workers string) :=
  let^ peers := call Serve_Peers in
  let stale := List.filter (fun alias => match peers !! alias with Some _ => false | None => true end) (btree_keys workers) in
  let~ workers := stop_stale stale workers in
  let~ workers := start_missing (peers_in_order peers) workers in
  prog_ok workers.

Fixpoint notify (aliases : list string) : Prog serve_answer unit :=
  match aliases with
  | [] => Ret tt
  | alias :: aliases => do~ call (Serve_Local alias) in notify aliases
  end.

(** The loop of [serve], with [rounds] of it left *)
Fixpoint service_rounds (rounds : nat) (workers : Workers) : Prog serve_answer (result unit string) :=
  match rounds with
  | O => prog_ok tt
  | S rounds =>
      do^ call Serve_Escalate in
      let^ workers := reconcile workers in
      let^ rung := call (Serve_Pulse QUESTION_REFRESH_MILLIS) in
      do~ (if (rung : bool) then notify (btree_keys workers) else Ret tt) in
      service_rounds rounds workers
  end.

(** *** What a run has done *)

Abbreviation FollowTrace := (list (Asked follow_answer)).

(** The pause that is due after a run: it doubles with each pause, and begins anew when a synchronization is
    complete. *)
Definition backoff_step (backoff : N) (asked : Asked follow_answer) : N :=
  match asked with
  | existT (Follow_Sync _) (Ok report) => if Report_complete report then INITIAL_BACKOFF_MILLIS else backoff
  | existT (Follow_Pause _) _ => next_backoff backoff
  | _ => backoff
  end.
Definition backoff_after (t : FollowTrace) : N := fold_left backoff_step t INITIAL_BACKOFF_MILLIS.

(** Whether a wait is under way after a run *)
Definition waiting_step (waiting : bool) (asked : Asked follow_answer) : bool :=
  match asked with
  | existT Follow_StartWait _ => true
  | existT (Follow_Receive _) (Waited_Received (Signal_Remote _)) => false
  | _ => waiting
  end.
Definition waiting_after (t : FollowTrace) : bool := fold_left waiting_step t false.

Definition is_stop (got : Waited) : bool :=
  match got with Waited_Received Signal_Stop | Waited_Closed => true | _ => false end.

(** ** Following *)

Definition paced (before : FollowTrace) (asked : Asked follow_answer) : Prop :=
  match asked with
  | existT (Follow_Pause millis) _ => millis = backoff_after before
  | existT Follow_StartWait _ => waiting_after before = false
  | existT (Follow_Receive millis) _ => waiting_after before = true /\ millis = MAX_BACKOFF_MILLIS
  | existT (Follow_Sync seconds) _ => seconds = EXCHANGE_SECONDS
  end.

(** All that a run does, after what was done before it *)
Fixpoint all_paced (before t : FollowTrace) : Prop :=
  match t with
  | [] => True
  | asked :: t => paced before asked /\ all_paced (before ++ [asked]) t
  end.

Lemma all_paced_app before t1 t2 : all_paced before (t1 ++ t2) <-> all_paced before t1 /\ all_paced (before ++ t1) t2.
Proof.
  revert before. induction t1 as [|x t1 IH]; intros before; cbn; [rewrite app_nil_r; naive_solver|].
  rewrite IH, <- app_assoc. naive_solver.
Qed.

Lemma all_paced_at before t t1 asked t2 : all_paced before t -> t = t1 ++ asked :: t2 -> paced (before ++ t1) asked.
Proof. intros H ->. apply all_paced_app in H as [_ [H _]]. exact H. Qed.

Lemma backoff_after_app t1 t2 : backoff_after (t1 ++ t2) = fold_left backoff_step t2 (backoff_after t1).
Proof. apply fold_left_app. Qed.
Lemma waiting_after_app t1 t2 : waiting_after (t1 ++ t2) = fold_left waiting_step t2 (waiting_after t1).
Proof. apply fold_left_app. Qed.

Lemma backoff_bounds t : INITIAL_BACKOFF_MILLIS <= backoff_after t <= MAX_BACKOFF_MILLIS.
Proof.
  unfold backoff_after. cut (forall b, INITIAL_BACKOFF_MILLIS <= b <= MAX_BACKOFF_MILLIS ->
    INITIAL_BACKOFF_MILLIS <= fold_left backoff_step t b <= MAX_BACKOFF_MILLIS).
  { intros H. apply H. by split. }
  induction t as [|[op x] t IH]; intros b Hb; [exact Hb|]. apply IH. destruct op; cbn; try done.
  - destruct x as [report|]; [|done]. by destruct (Report_complete report).
  - unfold next_backoff, saturating_mul, INITIAL_BACKOFF_MILLIS, MAX_BACKOFF_MILLIS, BACKOFF_FACTOR, u64_max in *. lia.
Qed.

Lemma pause_paced before backoff t r : traced (pause backoff) t r -> backoff = backoff_after before ->
  all_paced before t /\ r = backoff_after (before ++ t) /\ waiting_after (before ++ t) = waiting_after before.
Proof.
  intros (x & t' & -> & -> & ->) ->. rewrite backoff_after_app, waiting_after_app. done.
Qed.

(** The two parts of a round before it receives *)
Lemma sync_paced before backoff (exchange : bool) t r :
  traced (if exchange then
            let~ report := call (Follow_Sync EXCHANGE_SECONDS) in
            match report with
            | Ok report => if Report_complete report then Ret INITIAL_BACKOFF_MILLIS else pause backoff
            | Err _ => pause backoff
            end
          else Ret backoff)%rust t r -> backoff = backoff_after before ->
  all_paced before t /\ r = backoff_after (before ++ t) /\ waiting_after (before ++ t) = waiting_after before.
Proof.
  destruct exchange; intros H Hb; [|destruct H as [-> ->]; by rewrite app_nil_r].
  apply traced_bind in H as (t1 & t2 & report & -> & H1%(traced_call (answer := follow_answer) (Follow_Sync _)) & H2). subst t1.
  rewrite all_paced_app, app_assoc. set (before' := before ++ [existT (Follow_Sync EXCHANGE_SECONDS) report]).
  assert (Hw : waiting_after before' = waiting_after before) by (unfold before'; by rewrite waiting_after_app).
  assert (Hstep : backoff_after before' = backoff_step backoff (existT (Follow_Sync EXCHANGE_SECONDS) report)).
  { unfold before'. by rewrite backoff_after_app, Hb. }
  destruct report as [report|y]; cbn in Hstep; [destruct (Report_complete report)|].
  - destruct H2 as [-> ->]. by rewrite app_nil_r, Hstep.
  - apply (pause_paced before') in H2 as (Q1 & Q2 & Q3); [|done]. by rewrite Q3.
  - apply (pause_paced before') in H2 as (Q1 & Q2 & Q3); [|done]. by rewrite Q3.
Qed.

Lemma wait_paced before (waiting : bool) t u :
  traced (if waiting then Ret tt else call Follow_StartWait) t u -> waiting = waiting_after before ->
  all_paced before t /\ backoff_after (before ++ t) = backoff_after before /\ waiting_after (before ++ t) = true.
Proof.
  destruct waiting; intros H Hw; [destruct H as [-> _]; by rewrite app_nil_r|].
  destruct u. apply (traced_call (answer := follow_answer) Follow_StartWait) in H. subst t.
  rewrite backoff_after_app, waiting_after_app. by cbn.
Qed.

(** A run that was told to stop *)
Definition is_end (asked : Asked follow_answer) : bool :=
  match asked with existT (Follow_Receive _) got => is_stop got | _ => false end.
Definition stopped (t : FollowTrace) : bool :=
  match last t with Some asked => is_end asked | None => false end.

Lemma stopped_app t1 x t2 : is_end x = false -> stopped (t1 ++ x :: t2) = stopped t2.
Proof. intros Hx. unfold stopped. rewrite last_app, last_cons. by destruct (last t2). Qed.
Lemma stopped_last t1 x : stopped (t1 ++ [x]) = is_end x.
Proof. unfold stopped. by rewrite last_snoc. Qed.

Lemma follow_rounds_paced rounds : forall before backoff waiting exchange t r,
  traced (follow_rounds rounds backoff waiting exchange) t r ->
  backoff = backoff_after before -> waiting = waiting_after before ->
  all_paced before t /\ r = (if stopped t then Some tt else None).
Proof.
  induction rounds as [|rounds IH]; intros before backoff waiting exchange t r; cbn [follow_rounds].
  { by intros [-> ->] _ _. }
  intros (t1 & t2 & backoff1 & -> & H1 & H2)%traced_bind Hb Hw.
  apply (sync_paced before) in H1 as (P1 & -> & W1); [|done]. rewrite <- W1 in Hw.
  apply traced_bind in H2 as (t3 & t4 & u & -> & H3 & H4).
  apply (wait_paced (before ++ t1)) in H3 as (P3 & B3 & W3); [|done].
  apply traced_bind in H4 as (t5 & t6 & got & -> & H5%(traced_call (answer := follow_answer) (Follow_Receive _)) & H6). subst t5.
  set (x := existT (Follow_Receive MAX_BACKOFF_MILLIS) got : Asked follow_answer).
  set (before' := (before ++ t1) ++ t3). rewrite <- app_assoc in W3, B3.
  rewrite app_assoc in W3, B3. fold before' in W3, B3.
  assert (B4 : backoff_after (before' ++ [x]) = backoff_after (before ++ t1)) by (rewrite backoff_after_app; exact B3).
  assert (W4 : waiting_after (before' ++ [x]) = waiting_step true x) by (rewrite waiting_after_app, W3; done).
  assert (Hx : paced before' x) by done.
  enough (H : all_paced (before' ++ [x]) t6 /\ r = (if stopped (x :: t6) then Some tt else None)).
  { destruct H as [Hp Hr]. rewrite !all_paced_app. fold before'. cbn [all_paced app]. split; [auto|].
    rewrite Hr. unfold stopped. rewrite app_assoc, last_app, last_cons. by destruct (last t6). }
  assert (Hgo : is_stop got = false -> all_paced (before' ++ [x]) t6 /\ r = (if stopped t6 then Some tt else None) ->
    all_paced (before' ++ [x]) t6 /\ r = (if stopped (x :: t6) then Some tt else None)).
  { intros Hg [Hp Hr]. split; [done|]. change (x :: t6) with ([] ++ x :: t6). by rewrite stopped_app. }
  destruct got as [[|[[| | | |]|y]|]| |]; try (apply Hgo; [done|]; eapply IH; [exact H6|by rewrite B4|by rewrite W4]).
  - apply Hgo; [done|]. apply traced_bind in H6 as (t7 & t8 & b & -> & H7 & H8).
    pose proof H7 as (v & t9 & E7 & E9 & _). subst t9.
    apply (pause_paced (before' ++ [x])) in H7 as (P7 & -> & W7); [|by rewrite B4].
    apply (IH ((before' ++ [x]) ++ t7)) in H8 as [P8 R8]; [|done|by rewrite W7, W4].
    rewrite all_paced_app. split; [done|]. subst t7. rewrite R8.
    by rewrite <- (stopped_app [] (existT (Follow_Pause (backoff_after (before ++ t1))) v) t8 eq_refl).
  - by destruct H6 as [-> ->].
  - by destruct H6 as [-> ->].
Qed.

(** A follower paces itself.  Whatever its synchronizations and waits come to, at most one wait is under way
    at a time, and one always is while it listens, for at most [MAX_BACKOFF_MILLIS]; each pause it makes is the
    one that is due, which doubles from one failure to the next and begins anew after a complete
    synchronization, and lies between one second and one minute; and it ends exactly when it is told to stop. *)
Theorem follower_paces_itself rounds (t : FollowTrace) r : traced (follow rounds) t r ->
  (forall t1 x t2, t = t1 ++ x :: t2 -> paced t1 x) /\
  (forall t1 millis t2, t = t1 ++ existT (Follow_Pause millis) tt :: t2 -> INITIAL_BACKOFF_MILLIS <= millis <= MAX_BACKOFF_MILLIS) /\
  r = (if stopped t then Some tt else None).
Proof.
  intros H. apply (follow_rounds_paced rounds []) in H as [Hp Hr]; [|done..].
  assert (Hat : forall t1 x t2, t = t1 ++ x :: t2 -> paced t1 x) by (intros t1 x t2; exact (all_paced_at [] t t1 x t2 Hp)).
  split; [exact Hat|]. split; [|exact Hr]. intros t1 millis t2 E%Hat. cbn in E. subst millis. apply backoff_bounds.
Qed.

(** ** Reconciling *)

Definition stops (asked : Asked serve_answer) : list string :=
  match asked with existT (Serve_Stop alias) _ => [alias] | _ => [] end.
Definition starts (asked : Asked serve_answer) : list (string * Origin) :=
  match asked with existT (Serve_Start alias origin) _ => [(alias, origin)] | _ => [] end.

Lemma stop_stale_traced stale : forall workers t r, traced (stop_stale stale workers) t r ->
  flat_map starts t = [] /\
  (forall alias, r !! alias = if decide (alias ∈ stale) then None else workers !! alias) /\
  (forall alias, alias ∈ flat_map stops t <-> alias ∈ stale /\ is_Some (workers !! alias)) /\ NoDup (flat_map stops t).
Proof.
  induction stale as [|s stale IH]; intros workers t r; cbn [stop_stale].
  { intros [-> ->]. cbn. split; [done|]. split; [by intros alias; rewrite decide_False by apply not_elem_of_nil|].
    split; [|constructor]. intros alias. rewrite !elem_of_nil. naive_solver. }
  destruct (workers !! s) as [o|] eqn:Hs.
  - intros ([] & t' & -> & (H1 & H2 & H3 & H4)%IH). cbn. split; [done|]. split; [|split].
    + intros alias. rewrite H2. destruct (decide (alias = s)) as [->|Hne].
      * rewrite (decide_True _ _ (list_elem_of_here s stale)), lookup_delete_eq. by case_decide.
      * rewrite lookup_delete_ne by done. apply decide_ext. rewrite elem_of_cons. naive_solver.
    + intros alias. rewrite elem_of_cons, H3, elem_of_cons. split.
      * intros [->|[Hin Hx]]; [by eauto|]. rewrite lookup_delete_is_Some in Hx. naive_solver.
      * intros [[->|Hin] Hx]; [by left|]. destruct (decide (alias = s)) as [->|]; [by left|right].
        split; [done|]. by rewrite lookup_delete_ne.
    + constructor; [|done]. rewrite H3. intros [_ Hx]. rewrite lookup_delete_eq in Hx. by destruct Hx.
  - intros (H1 & H2 & H3 & H4)%IH. split; [done|]. split; [|split; [|done]].
    + intros alias. rewrite H2. destruct (decide (alias = s)) as [->|Hne].
      * rewrite (decide_True _ _ (list_elem_of_here s stale)), Hs. by case_decide.
      * apply decide_ext. rewrite elem_of_cons. naive_solver.
    + intros alias. rewrite H3, elem_of_cons. split; [naive_solver|]. intros [[->|Hin] Hx]; [|done].
      rewrite Hs in Hx. by destruct Hx.
Qed.

Lemma start_missing_traced peers : forall workers t r, NoDup (map fst peers) -> traced (start_missing peers workers) t r ->
  flat_map stops t = [] /\
  flat_map starts t = List.filter (fun '(alias, _) => match workers !! alias with Some _ => false | None => true end) peers /\
  (forall alias origin, r !! alias = Some origin <->
     workers !! alias = Some origin \/ workers !! alias = None /\ (alias, origin) ∈ peers).
Proof.
  induction peers as [|[s o] peers IH]; intros workers t r Hd; cbn [start_missing].
  { intros [-> ->]. cbn. split; [done|]. split; [done|]. intros alias origin. rewrite elem_of_nil. naive_solver. }
  cbn in Hd. apply NoDup_cons in Hd as [Hs Hd]. cbn [List.filter].
  destruct (workers !! s) as [o'|] eqn:Hw.
  - intros (H1 & H2 & H3)%IH; [|done]. split; [done|]. split; [done|]. intros alias origin. rewrite H3, elem_of_cons.
    split; [naive_solver|]. intros [|[Hn [[= -> ->]|]]]; [by left|congruence|by right].
  - intros ([] & t' & -> & (H1 & H2 & H3)%IH); [|done]. cbn. split; [done|]. split.
    + f_equal. rewrite H2. apply List.filter_ext_in. intros [alias origin] Hin. rewrite lookup_insert_ne; [done|].
      intros ->. apply Hs. apply list_elem_of_fmap. exists (alias, origin). split; [done|]. by apply list_elem_of_In.
    + intros alias origin. rewrite H3, elem_of_cons. destruct (decide (alias = s)) as [->|Hne].
      * rewrite lookup_insert_eq, Hw. split.
        -- intros [[= ->]|[? _]]; [|done]. right. split; [done|by left].
        -- intros [?|[_ [[= ->]|Hin]]]; [done|by left|]. destruct Hs. apply list_elem_of_fmap. by exists (s, origin).
      * rewrite lookup_insert_ne by done. naive_solver.
Qed.

Lemma peers_in_order_elem (peers : gmap string Origin) alias origin :
  (alias, origin) ∈ peers_in_order peers <-> peers !! alias = Some origin.
Proof.
  unfold peers_in_order. rewrite list_elem_of_omap. split.
  - intros (k & _ & H). destruct (peers !! k) as [o|] eqn:Hk; [|done]. by injection H as <- <-.
  - intros H. exists alias. split; [|by rewrite H]. apply btree_keys_elem. by exists origin.
Qed.

Lemma peers_in_order_names (peers : gmap string Origin) : map fst (peers_in_order peers) = btree_keys peers.
Proof.
  unfold peers_in_order. assert (H : forall l, (forall alias, alias ∈ l -> is_Some (peers !! alias)) ->
    map fst (omap (fun alias => pair alias <$> peers !! alias) l) = l).
  { induction l as [|alias l IH]; intros Hl; [done|]. cbn. destruct (Hl alias) as [o Ho]; [by left|].
    rewrite Ho. cbn. f_equal. apply IH. intros k Hk. apply Hl. by right. }
  apply H. intros alias. apply btree_keys_elem.
Qed.

Lemma NoDup_fst_filter {A B} (p : A * B -> bool) l : NoDup (map fst l) -> NoDup (map fst (List.filter p l)).
Proof.
  induction l as [|x l IH]; [done|]. cbn. intros [Hx Hd]%NoDup_cons. destruct (p x); [|by apply IH]. cbn.
  apply NoDup_cons. split; [|by apply IH]. intros (y & Hy & Hin)%list_elem_of_fmap. apply Hx, list_elem_of_fmap.
  exists y. split; [done|]. rewrite list_elem_of_In, filter_In in Hin. by apply list_elem_of_In, Hin.
Qed.

Lemma sort_nodup (m : gmap string Origin) : NoDup (btree_keys m).
Proof. unfold btree_keys. rewrite sort_perm. apply NoDup_fst_map_to_list. Qed.

(** Reconciling leaves one follower per peer: those whose peer is gone are stopped, once each; peers without one
    get one, with the origin that was read; and those that follow a peer already go on as they were
    begun, with the origin they were given then. *)
Theorem reconcile_follows_the_peers (workers workers' : Workers) t : traced (reconcile workers) t (Ok workers') ->
  exists peers rest, t = existT Serve_Peers (Ok peers) :: rest /\
    (forall alias, workers' !! alias = match peers !! alias, workers !! alias with
                                       | Some _, Some followed => Some followed
                                       | Some origin, None => Some origin
                                       | None, _ => None
                                       end) /\
    NoDup (flat_map stops rest) /\
    (forall alias, alias ∈ flat_map stops rest <-> is_Some (workers !! alias) /\ peers !! alias = None) /\
    NoDup (map fst (flat_map starts rest)) /\
    (forall alias origin, (alias, origin) ∈ flat_map starts rest <-> peers !! alias = Some origin /\ workers !! alias = None).
Proof.
  intros (t1 & t2 & peers & -> & H1%(traced_call (answer := serve_answer) Serve_Peers) & H2)%traced_try_Ok. subst t1.
  apply traced_bind in H2 as (t3 & t4 & kept & -> & (S1 & S2 & S3 & S4)%stop_stale_traced & H2).
  apply traced_bind in H2 as (t5 & t6 & r & -> & H5 & [-> Hr]). injection Hr as <-. rewrite app_nil_r.
  assert (Hd : NoDup (map fst (peers_in_order peers))) by (rewrite peers_in_order_names; apply sort_nodup).
  apply start_missing_traced in H5 as (M1 & M2 & M3); [|done].
  assert (Hstale : forall alias, alias ∈ List.filter (fun alias => match peers !! alias with Some _ => false | None => true end) (btree_keys workers)
    <-> is_Some (workers !! alias) /\ peers !! alias = None).
  { intros alias. rewrite list_elem_of_In, filter_In, <- list_elem_of_In, btree_keys_elem. destruct (peers !! alias); naive_solver. }
  assert (Hkept : forall alias, kept !! alias = match peers !! alias with Some _ => workers !! alias | None => None end).
  { intros alias. rewrite S2. case_decide as E; rewrite Hstale in E; [by destruct E as [_ ->]|].
    destruct (peers !! alias) eqn:Hp; [done|]. destruct (workers !! alias) eqn:Hw; [|done]. destruct E. eauto. }
  exists peers, (t3 ++ t5). split; [done|]. rewrite !flat_map_app, M1, S1, app_nil_r. cbn [app].
  split; [|split; [done|split; [|split]]].
  - intros alias. apply option_eq. intros o. rewrite M3, Hkept, peers_in_order_elem.
    destruct (peers !! alias) as [p|] eqn:Hp; [|naive_solver]. destruct (workers !! alias); naive_solver.
  - intros alias. rewrite S3, Hstale. naive_solver.
  - rewrite M2. by apply NoDup_fst_filter.
  - intros alias o. rewrite M2, list_elem_of_In, filter_In, <- list_elem_of_In, peers_in_order_elem, Hkept.
    split; [intros [Hp H]|intros [Hp H]]; rewrite Hp in *; [split; [done|]; by destruct (workers !! alias)|by rewrite H].
Qed.

(** ** Examples *)

(** Two synchronizations fail, with nothing heard in between; then the follower is told to stop. *)
Definition failing_peer (n : nat) (op : FollowOp) : follow_answer op :=
  match op with
  | Follow_Sync _ => Err SyncError_Unexpected
  | Follow_Pause _ => tt
  | Follow_StartWait => tt
  | Follow_Receive _ => if (n <? 5)%nat then Waited_Expired else Waited_Received Signal_Stop
  end.

Lemma follower_paces_itself_witness :
  let t := fst (replay failing_peer 0 (follow 9)) in
  (exists t1 t2 t3, t = t1 ++ existT (Follow_Pause 1000) tt :: t2 ++ existT (Follow_Pause 2000) tt :: t3) /\
  (forall t1 millis t2, t = t1 ++ existT (Follow_Pause millis) tt :: t2 -> INITIAL_BACKOFF_MILLIS <= millis <= MAX_BACKOFF_MILLIS) /\
  snd (replay failing_peer 0 (follow 9)) = Some tt.
Proof.
  cbn zeta. destruct (follower_paces_itself 9 _ _ (replay_traced failing_peer (follow 9) 0)) as (_ & Hp & Hr).
  split; [|split; [exact Hp|reflexivity]].
  exists [existT (Follow_Sync 60) (Err SyncError_Unexpected)],
    [existT Follow_StartWait tt; existT (Follow_Receive 60000) Waited_Expired; existT (Follow_Sync 60) (Err SyncError_Unexpected)],
    [existT (Follow_Receive 60000) (Waited_Received Signal_Stop)].
  vm_compute. reflexivity.
Defined.

(** After the identity of a peer was replaced, its follower goes on to wait for the old one.  The peer refuses such
    a wait at once, the exchange with the new identity is complete, and the next wait is refused: the follower
    never pauses. *)
Definition refusing_peer (n : nat) (op : FollowOp) : follow_answer op :=
  match op with
  | Follow_Sync _ => Ok (mkReport [])
  | Follow_Pause _ => tt
  | Follow_StartWait => tt
  | Follow_Receive _ => Waited_Received (Signal_Remote (Ok (ChatReply_Rejected Rejection_WrongPeer)))
  end.
Definition is_pause (asked : Asked follow_answer) : bool := match asked with existT (Follow_Pause _) _ => true | _ => false end.
Definition is_sync (asked : Asked follow_answer) : bool := match asked with existT (Follow_Sync _) _ => true | _ => false end.

Lemma refused_waits_are_not_paced rounds :
  let t := fst (replay refusing_peer 0 (follow rounds)) in
  length (List.filter is_sync t) = rounds /\ List.filter is_pause t = [].
Proof.
  unfold follow. cut (forall n backoff, let t := fst (replay refusing_peer n (follow_rounds rounds backoff false true)) in
    length (List.filter is_sync t) = rounds /\ List.filter is_pause t = []); [intros H; apply H|].
  induction rounds as [|rounds IH]; intros n backoff; [done|]. cbn.
  specialize (IH (S (S (S n))) INITIAL_BACKOFF_MILLIS).
  destruct (replay refusing_peer (S (S (S n))) _) as [t r]. cbn in *. destruct IH as [-> ->]. done.
Qed.

(** Reconciling keeps the follower of a peer whose identity was replaced, with the identity it had. *)
Lemma replaced_peer_is_followed_as_before (alias : string) (old new : Origin) t workers' :
  traced (reconcile {[alias := old]}) (existT Serve_Peers (Ok {[alias := new]}) :: t) (Ok workers') ->
  workers' !! alias = Some old.
Proof.
  intros (peers & rest & E & H & _)%reconcile_follows_the_peers.
  apply (f_equal (fun l => match l with existT Serve_Peers (Ok p) :: _ => p | _ => ∅ end)) in E. subst peers.
  by rewrite H, !lookup_singleton_eq.
Qed.
