(* ===== verification/Mcp.v ===== *)
(** mcp.rs: the server that offers the chat to a language model's client, one JSON-RPC message on a line.  The
    loop reads requests and answers them, except for the calls of tools, each of which runs in a thread of its
    own; the threads share the output, the phase of the handshake, the identity of the session, and the calls
    that are active, each with the flag by which it is cancelled.  What an operation answers with is view.rs. *)

From Stdlib Require Import NArith ZArith Lia String Ascii.
From stdpp Require Import base gmap list strings pretty.
From S2P Require Import Prelude SortedLists RustStr Ids AgentLists Notification Handoff Event.
From S2P Require Import Wire Database Views Tx Acts HandoffStore Values Ops Messages Programs ChatSync.

(** ** Definitions *)

(** *** JSON *)

Fixpoint digits_value (value : Z) (digits : list N) : option Z :=
  match digits with
  | [] => Some value
  | b :: digits => if is_ascii_digit b then digits_value (value * 10 + (Z.of_N b - 48)) digits else None
  end.
(** An integer as serde_json reads one: it has no needless zeros, and -0 is a float. *)
Definition integer_value (text : string) : option Z :=
  let whole (digits : list N) :=
    match digits with
    | [] => None
    | [48] => None
    | 48 :: _ => None
    | _ => digits_value 0 digits
    end in
  match bytes text with
  | [48] => Some 0%Z
  | 45 :: digits => option_map Z.opp (whole digits)
  | digits => whole digits
  end.
(** [Value::is_i64 || Value::is_u64] *)
Definition is_integer (value : Value) : bool :=
  match value with
  | Value_Number text =>
      match integer_value text with
      | Some n => (- 2 ^ 63 <=? n)%Z && (n <? 2 ^ 64)%Z
      | None => false
      end
  | _ => false
  end.
Definition is_string (value : Value) : bool := match value with Value_String _ => true | _ => false end.
Definition is_object (value : Value) : bool := match value with Value_Object _ => true | _ => false end.
Definition is_null (value : Value) : bool := match value with Value_Null => true | _ => false end.

(** [deny_unknown_fields], and a field that is an [Option] *)
Definition only_fields (names : list string) (fields : list (string * Value)) : bool :=
  forallb (fun field => existsb (String.eqb field.1) names) fields.
Definition not_null (value : option Value) : option Value :=
  match value with Some Value_Null => None | _ => value end.

(** *** Requests *)

Definition VERSIONS : list string := ["2025-06-18"; "2025-03-26"; "2024-11-05"]%string.
Definition MAX_CALLS : N := 32.
Definition PARSE_ERROR : Z := -32700.
Definition INVALID_REQUEST : Z := -32600.
Definition METHOD_NOT_FOUND : Z := -32601.
Definition INVALID_PARAMS : Z := -32602.
Definition INTERNAL_ERROR : Z := -32603.
Definition SERVER_NOT_INITIALIZED : Z := -32002.
Definition REQUEST_REFUSED : Z := -32000.
Definition INSTRUCTIONS : string :=
  "Chat with AI agents on this and other machines. Call chat_whoami, or chat_join to register this session under a name before sending. Use chat_directory to find the agent whose role and skills fit a task, then chat_ask it; chat_ask waits for the answer and chat_wait resumes waiting. Replies go to exact message IDs. Results report `unread`; read them with chat_inbox. For scoped continuation, use chat_handoff_list and chat_handoff_read under your own chat_join identity.".

Record Request := mkRequest {
  Request_jsonrpc : string;
  Request_id : option Value;
  Request_method : string;
  Request_params : Value
}.
Record Call := mkCall {
  Call_name : string;
  Call_arguments : Value;
  Call__meta : option Value
}.
Definition empty_arguments : Value := json_object [].

(** [decode] of a request.  What serde derives also takes the fields in their order, as an array. *)
Definition decode_request (value : Value) : option Request :=
  match value with
  | Value_Object fields =>
      if negb (only_fields ["jsonrpc"; "id"; "method"; "params"]%string fields) then None else
      match option_bind _ _ value_as_str (field_get fields "jsonrpc"), option_bind _ _ value_as_str (field_get fields "method") with
      | Some jsonrpc, Some method =>
          Some (mkRequest jsonrpc (not_null (field_get fields "id")) method (default Value_Null (field_get fields "params")))
      | _, _ => None
      end
  | Value_Array [Value_String jsonrpc; id; Value_String method] => Some (mkRequest jsonrpc (not_null (Some id)) method Value_Null)
  | Value_Array [Value_String jsonrpc; id; Value_String method; params] =>
      Some (mkRequest jsonrpc (not_null (Some id)) method params)
  | _ => None
  end.

Definition decode_call (value : Value) : option Call :=
  match value with
  | Value_Object fields =>
      if negb (only_fields ["name"; "arguments"; "_meta"]%string fields) then None else
      match option_bind _ _ value_as_str (field_get fields "name") with
      | Some name => Some (mkCall name (default empty_arguments (field_get fields "arguments")) (not_null (field_get fields "_meta")))
      | None => None
      end
  | Value_Array [Value_String name] => Some (mkCall name empty_arguments None)
  | Value_Array [Value_String name; arguments] => Some (mkCall name arguments None)
  | Value_Array [Value_String name; arguments; meta] => Some (mkCall name arguments (not_null (Some meta)))
  | _ => None
  end.

(** [error] and [result] *)
Definition mcp_error (id : Value) (code : Z) (message : string) : Value :=
  json_object [("jsonrpc", Value_String "2.0"); ("id", id);
    ("error", json_object [("code", json_integer code); ("message", Value_String message)])]%string.
Definition mcp_result (id value : Value) : Value :=
  json_object [("jsonrpc", Value_String "2.0"); ("id", id); ("result", value)]%string.

Definition parse (from_slice : list N -> option Value) (bytes : list N) : result Request Value :=
  let? value := map_err (fun _ => mcp_error Value_Null PARSE_ERROR "Parse error") (json from_slice bytes MAX_CONTROL_BYTES) in
  let? request := ok_or (decode_request value) (mcp_error Value_Null INVALID_REQUEST "Invalid Request") in
  if negb (bool_decide (Request_jsonrpc request = "2.0"%string))
     || match Request_id request with Some id => negb (is_string id) && negb (is_integer id) | None => false end
     || negb (is_null (Request_params request)) && negb (is_object (Request_params request))
  then Err (mcp_error Value_Null INVALID_REQUEST "Invalid Request")
  else Ok request.

(** *** Tools *)

Inductive Effect := Effect_Read | Effect_Write | Effect_Destructive.
#[export] Instance Effect_eq_dec : EqDecision Effect.
Proof. solve_decision. Defined.

Definition annotations (title : string) (effect : Effect) : Value :=
  json_object [
    ("title", Value_String title);
    ("readOnlyHint", Value_Bool (bool_decide (effect = Effect_Read)));
    ("destructiveHint", Value_Bool (bool_decide (effect = Effect_Destructive)));
    ("idempotentHint", Value_Bool (bool_decide (effect = Effect_Read)));
    ("openWorldHint", Value_Bool false)]%string.

(** The arguments of args.rs that operations do not name otherwise *)
Record EmptyArgs := mkEmptyArgs {}.
Record DirectoryArgs := mkDirectoryArgs { DirectoryArgs_query : option string }.
Record NameArgs := mkNameArgs { NameArgs_name : string }.
Record MemberArgs := mkMemberArgs { MemberArgs_room : string; MemberArgs_member : string }.
Record TopicArgs := mkTopicArgs { TopicArgs_room : string; TopicArgs_topic : string }.
Record ReplyArgs := mkReplyArgs { ReplyArgs_message : string; ReplyArgs_text : string }.
Record MessageArgs := mkMessageArgs { MessageArgs_message : string; MessageArgs_timeout : N }.
Record InboxArgs := mkInboxArgs { InboxArgs_all : bool; InboxArgs_limit : N }.
Record ThreadArgs := mkThreadArgs { ThreadArgs_target : string; ThreadArgs_limit : N; ThreadArgs_before : option string }.
Record HandoffCreateArgs := mkHandoffCreateArgs {
  HandoffCreateArgs_project : Project;
  HandoffCreateArgs_scope : Scope;
  HandoffCreateArgs_intended_recipient : Target;
  HandoffCreateArgs_permitted_readers : list AgentId;
  HandoffCreateArgs_text : Text
}.
Record HandoffListArgs := mkHandoffListArgs {
  HandoffListArgs_project : Project;
  HandoffListArgs_scope : Scope;
  HandoffListArgs_limit : option N
}.
Record HandoffReadArgs := mkHandoffReadArgs {
  HandoffReadArgs_descriptor : Descriptor;
  HandoffReadArgs_max_bytes : ReadLimit
}.

(** The rows of [tools!], in its order *)
Inductive ChatTool :=
| chat_join | chat_whoami | chat_directory | chat_profile | chat_agent_start | chat_agent_remove | chat_rooms
| chat_room_create | chat_room_add | chat_room_remove | chat_room_topic | chat_send | chat_ask | chat_reply
| chat_withdraw | chat_wait | chat_inbox | chat_thread | chat_read | chat_handoff_create | chat_handoff_list
| chat_handoff_read | chat_acknowledge.
#[export] Instance ChatTool_eq_dec : EqDecision ChatTool.
Proof. solve_decision. Defined.

Definition tools : list ChatTool := [
  chat_join; chat_whoami; chat_directory; chat_profile; chat_agent_start; chat_agent_remove; chat_rooms;
  chat_room_create; chat_room_add; chat_room_remove; chat_room_topic; chat_send; chat_ask; chat_reply;
  chat_withdraw; chat_wait; chat_inbox; chat_thread; chat_read; chat_handoff_create; chat_handoff_list;
  chat_handoff_read; chat_acknowledge].

(** name, title, description and effect *)
Definition tool_row (tool : ChatTool) : string * string * string * Effect :=
  (match tool with
   | chat_join => ("chat_join", "Join", "Register this session as an agent with a profile and act as it.", Effect_Write)
   | chat_whoami => ("chat_whoami", "Who am I", "Show the agent this session acts as, with its profile and unread count.", Effect_Read)
   | chat_directory => ("chat_directory", "Directory", "Find agents and rooms by name, role, skill, project, or description.", Effect_Read)
   | chat_profile => ("chat_profile", "Update profile", "Change this agent's display name, role, description, skills, project, or status.", Effect_Write)
   | chat_agent_start => ("chat_agent_start", "Start agent", "Register a managed agent whose turns this machine runs with an AI CLI.", Effect_Write)
   | chat_agent_remove => ("chat_agent_remove", "Remove agent", "Remove a local agent and end the asks waiting on it.", Effect_Destructive)
   | chat_rooms => ("chat_rooms", "Rooms", "List rooms with their topics and members.", Effect_Read)
   | chat_room_create => ("chat_room_create", "Create room", "Create a room owned by this machine with you and the given agents.", Effect_Write)
   | chat_room_add => ("chat_room_add", "Add member", "Add an agent to a room owned by this machine.", Effect_Write)
   | chat_room_remove => ("chat_room_remove", "Remove member", "Remove an agent from a room owned by this machine.", Effect_Write)
   | chat_room_topic => ("chat_room_topic", "Set topic", "Set or clear a room's topic.", Effect_Write)
   | chat_send => ("chat_send", "Send", "Send a message to an agent or a room.", Effect_Write)
   | chat_ask => ("chat_ask", "Ask", "Ask one agent and wait for its answer or ending.", Effect_Write)
   | chat_reply => ("chat_reply", "Reply", "Reply to an exact message ID.", Effect_Write)
   | chat_withdraw => ("chat_withdraw", "Withdraw", "Withdraw an ask you sent.", Effect_Write)
   | chat_wait => ("chat_wait", "Wait", "Show an ask's state, waiting up to `timeout` seconds for its ending.", Effect_Read)
   | chat_inbox => ("chat_inbox", "Inbox", "Read the messages addressed to you that you have not read.", Effect_Write)
   | chat_thread => ("chat_thread", "Thread", "Read a conversation with an agent or a room.", Effect_Read)
   | chat_read => ("chat_read", "Read message", "Read the full body of an addressed message and record it as read.", Effect_Write)
   | chat_handoff_create => ("chat_handoff_create", "Create handoff", "Create a project-scoped handoff under your identity with explicit named reader grants.", Effect_Write)
   | chat_handoff_list => ("chat_handoff_list", "List handoffs", "Discover bounded handoff metadata granted to your identity in one exact project and scope.", Effect_Read)
   | chat_handoff_read => ("chat_handoff_read", "Read handoff", "Read one granted handoff using its exact descriptor and record your observation after delivery.", Effect_Write)
   | chat_acknowledge => ("chat_acknowledge", "Acknowledge", "Acknowledge an addressed message and release its urgent stop block.", Effect_Write)
   end)%string.
Definition tool_name (tool : ChatTool) : string := (tool_row tool).1.1.1.
Definition tool_title (tool : ChatTool) : string := (tool_row tool).1.1.2.
Definition tool_description (tool : ChatTool) : string := (tool_row tool).1.2.
Definition tool_effect (tool : ChatTool) : Effect := (tool_row tool).2.
Definition tool_named (name : string) : option ChatTool := List.find (fun tool => String.eqb (tool_name tool) name) tools.

(** The type of its arguments *)
Definition tool_args (tool : ChatTool) : Type :=
  match tool with
  | chat_join => JoinArgs
  | chat_whoami | chat_rooms => EmptyArgs
  | chat_directory => DirectoryArgs
  | chat_profile => ProfileArgs
  | chat_agent_start => StartArgs
  | chat_agent_remove => NameArgs
  | chat_room_create => RoomArgs
  | chat_room_add | chat_room_remove => MemberArgs
  | chat_room_topic => TopicArgs
  | chat_send => SendArgs
  | chat_ask => AskArgs
  | chat_reply => ReplyArgs
  | chat_withdraw | chat_wait | chat_read | chat_acknowledge => MessageArgs
  | chat_inbox => InboxArgs
  | chat_thread => ThreadArgs
  | chat_handoff_create => HandoffCreateArgs
  | chat_handoff_list => HandoffListArgs
  | chat_handoff_read => HandoffReadArgs
  end.

(** An operation of ops.rs with its arguments *)
Inductive Work :=
| ops_join (args : JoinArgs) (tool : Tool)
| ops_whoami
| ops_directory (args : DirectoryArgs)
| ops_profile (args : ProfileArgs)
| ops_start (args : StartArgs)
| ops_remove (args : NameArgs)
| ops_rooms
| ops_create_room (args : RoomArgs)
| ops_change_room (args : MemberArgs) (change : RoomChange)
| ops_set_topic (args : TopicArgs)
| ops_send (args : SendArgs)
| ops_ask (args : AskArgs)
| ops_reply (args : ReplyArgs)
| ops_withdraw (args : MessageArgs)
| ops_wait (args : MessageArgs)
| ops_inbox (args : InboxArgs)
| ops_thread (args : ThreadArgs)
| ops_read_message (args : MessageArgs)
| ops_create_handoff (args : HandoffCreateArgs)
| ops_handoffs (args : HandoffListArgs)
| ops_read_handoff (args : HandoffReadArgs)
| ops_acknowledge (args : MessageArgs).

(** What a row of [tools!] runs *)
Definition tool_work {S : Type} (tool : ChatTool) (client : option Tool) : tool_args tool -> result Work (OpsError S) :=
  match tool return tool_args tool -> result Work (OpsError S) with
  | chat_join => fun args =>
      let? tool := ok_or (match JoinArgs_tool args with Some tool => Some tool | None => client end)
                     (OpsError_Usage "this client is unknown; pass tool") in
      Ok (ops_join args tool)
  | chat_whoami => fun _ => Ok ops_whoami
  | chat_directory => fun args => Ok (ops_directory args)
  | chat_profile => fun args => Ok (ops_profile args)
  | chat_agent_start => fun args => Ok (ops_start args)
  | chat_agent_remove => fun args => Ok (ops_remove args)
  | chat_rooms => fun _ => Ok ops_rooms
  | chat_room_create => fun args => Ok (ops_create_room args)
  | chat_room_add => fun args => Ok (ops_change_room args RoomChange_Add)
  | chat_room_remove => fun args => Ok (ops_change_room args RoomChange_Remove)
  | chat_room_topic => fun args => Ok (ops_set_topic args)
  | chat_send => fun args => Ok (ops_send args)
  | chat_ask => fun args => Ok (ops_ask args)
  | chat_reply => fun args => Ok (ops_reply args)
  | chat_withdraw => fun args => Ok (ops_withdraw args)
  | chat_wait => fun args => Ok (ops_wait args)
  | chat_inbox => fun args => Ok (ops_inbox args)
  | chat_thread => fun args => Ok (ops_thread args)
  | chat_read => fun args => Ok (ops_read_message args)
  | chat_handoff_create => fun args => Ok (ops_create_handoff args)
  | chat_handoff_list => fun args => Ok (ops_handoffs args)
  | chat_handoff_read => fun args => Ok (ops_read_handoff args)
  | chat_acknowledge => fun args => Ok (ops_acknowledge args)
  end.

Definition reads (name : string) : bool :=
  match tool_named name with
  | Some tool => bool_decide (tool_effect tool = Effect_Read)
  | None => false
  end.

(** *** What operations answer, of view.rs *)

Record AgentView := mkAgentView {
  AgentView_agent : string;
  AgentView_id : AgentId;
  AgentView_machine : string;
  AgentView_os : option Os;
  AgentView_card : Card;
  AgentView_presence : Presence;
  AgentView_reachability : string
}.
Record RoomView := mkRoomView {
  RoomView_room : string;
  RoomView_id : Conversation;
  RoomView_topic : option string;
  RoomView_members : list string
}.
Record DirectoryView := mkDirectoryView {
  DirectoryView_agents : list AgentView;
  DirectoryView_rooms : list RoomView
}.

Inductive McpOutcome :=
| Outcome_Agent (agent : AgentId) (card : Card) (presence : Presence)
| Outcome_Removed (agent : AgentId) (ended : N)
| Outcome_Directory (directory : DirectoryView)
| Outcome_Rooms (rooms : list RoomView)
| Outcome_Posted (event : Event)
| Outcome_HandoffCreated (descriptor : Descriptor)
| Outcome_HandoffMetadata (reader : AgentId) (descriptors : list Descriptor)
| Outcome_HandoffBody (body : ReadBody)
| Outcome_Asked (state : AskState)
| Outcome_Events (events : list MessageView) (unread : option N) (pending : option PendingRead).

Definition outcome_pending_read (self : McpOutcome) : option PendingRead :=
  match self with Outcome_Events _ _ pending => pending | _ => None end.
Definition outcome_pending_handoff (self : McpOutcome) : option PendingObservation :=
  match self with Outcome_HandoffBody body => Some (ReadBody_pending body) | _ => None end.

(** What serde derives for the parts of an outcome *)
Class Shown := {
  show_agent : AgentId -> Value;
  show_card : Card -> Value;
  show_presence : Presence -> Value;
  show_directory : DirectoryView -> Value;
  show_room : RoomView -> Value;
  show_event_id : EventId -> Value;
  show_descriptor : Descriptor -> Value;
  show_body : ReadBody -> Value;
  show_ask : AskState -> Value;
  show_message : MessageView -> Value
}.

(** [Outcome::json] *)
Definition outcome_json `{!Shown} (self : McpOutcome) : Value :=
  match self with
  | Outcome_Agent agent card presence =>
      json_object [("agent", show_agent agent); ("card", show_card card); ("presence", show_presence presence)]%string
  | Outcome_Removed agent ended => json_object [("removed", show_agent agent); ("ended_asks", json_integer (Z.of_N ended))]%string
  | Outcome_Directory directory => show_directory directory
  | Outcome_Rooms rooms => json_object [("rooms", Value_Array (map show_room rooms))]%string
  | Outcome_Posted event => json_object [("message_id", show_event_id (Event_id event))]%string
  | Outcome_HandoffCreated descriptor => json_object [("handoff", show_descriptor descriptor)]%string
  | Outcome_HandoffMetadata reader descriptors =>
      json_object [("reader", show_agent reader); ("handoffs", Value_Array (map show_descriptor descriptors))]%string
  | Outcome_HandoffBody body => show_body body
  | Outcome_Asked state => show_ask state
  | Outcome_Events events unread _ =>
      json_object [("events", Value_Array (map show_message events));
        ("unread", match unread with Some count => json_integer (Z.of_N count) | None => Value_Null end)]%string
  end.

(** *** The server *)

Inductive Phase := Phase_New | Phase_Negotiated | Phase_Ready.
#[export] Instance Phase_eq_dec : EqDecision Phase.
Proof. solve_decision. Defined.

Inductive PendingDelivery :=
| PendingDelivery_Messages (pending : PendingRead)
| PendingDelivery_Handoff (pending : PendingObservation).

Definition PendingDelivery_admits (self : PendingDelivery) (delivered : ResponseDelivery) (cancelled : bool) : bool :=
  match self with
  | PendingDelivery_Messages _ => reading_after_delivery delivered cancelled
  | PendingDelivery_Handoff _ =>
      observation_after_delivery
        match delivered with
        | ResponseDelivery_Original => DeliveryOutcome_OriginalBody
        | ResponseDelivery_Replaced => DeliveryOutcome_Replaced
        end cancelled
  end.

(** The session of a call: a copy of the server's, with the flag of the call.  The store is the machine's. *)
Record Handle := mkHandle {
  Handle_actor : option AgentId;
  Handle_turn : option EventId;
  Handle_cancelled : nat
}.
Record DeliveryCompletion := mkDeliveryCompletion {
  DeliveryCompletion_session : Handle;
  DeliveryCompletion_pending : PendingDelivery
}.
Record CallReply := mkCallReply {
  CallReply_value : Value;
  CallReply_completion : option DeliveryCompletion
}.
Definition plain_reply (value : Value) : CallReply := mkCallReply value None.

Section server.
Context {D S : Type} `{!Redb D S} `{codec : !Codec} `{records : !StoreCodec} `{shown : !Shown}.
(** serde_json; [str::to_lowercase]; the schemas of the arguments and what serde derives for them; the display of an
    error; the version of the package *)
Context (to_string : Value -> string) (from_slice : list N -> option Value) (to_lowercase : string -> string)
  (schema : ChatTool -> Value) (decode_args : forall tool, Value -> result (tool_args tool) string)
  (display : OpsError S -> string) (version : string).

(** [catalog] *)
Definition catalog : list Value :=
  map (fun tool => json_object [
    ("name", Value_String (tool_name tool));
    ("title", Value_String (tool_title tool));
    ("description", Value_String (tool_description tool));
    ("inputSchema", schema tool);
    ("annotations", annotations (tool_title tool) (tool_effect tool))]%string) tools.

(** [PendingDelivery::complete] *)
Definition complete `{!Environment S} (self : PendingDelivery) : Op D S unit :=
  match self with
  | PendingDelivery_Messages pending => complete_read pending
  | PendingDelivery_Handoff pending => observe_handoff pending
  end.

(** An active call, as its thread has it *)
Record Active := mkActive { Active_id : Value; Active_params : Value; Active_cancelled : nat }.

(** What the threads do with what they share.  A critical section of the phase is one operation; that of the calls is
    from taking the lock to giving it up.  An operation of ops.rs is one of the environment, which answers as it likes
    and leaves the store as it likes.  The last is of the model: others use the store. *)
Inductive McpOp :=
| Op_ReadLine
| Op_Write (bytes : list N)
| Op_Phase (update : Phase -> Phase)
| Op_Client
| Op_SetClient (client : option Tool)
| Op_Session
| Op_Adopt (session : Handle)
| Op_LockCalls
| Op_UnlockCalls
| Op_CallsGet (key : string)
| Op_CallsLen
| Op_CallsInsert (key : string) (cancelled : nat)
| Op_CallsRemove (key : string)
| Op_NewFlag
| Op_Load (flag : nat)
| Op_Store (flag : nat)
| Op_Spawn (call : Active)
| Op_Argument
| Op_Refresh (session : Handle)
| Op_Warn (report : Report)
| Op_Work (session : Handle) (work : Work)
| Op_Unread (session : Handle)
| Op_Complete (session : Handle) (pending : PendingDelivery)
| Op_Elsewhere (store : Store D).

Definition mcp_answer (op : McpOp) : Type :=
  match op with
  | Op_ReadLine => result (option (list N)) string
  | Op_Write _ => result unit string
  | Op_Phase _ => Phase
  | Op_Client => option Tool
  | Op_Session => option AgentId * option EventId
  | Op_CallsGet _ => option nat
  | Op_CallsLen => N
  | Op_NewFlag => nat
  | Op_Load _ => bool
  | Op_Argument => Active
  | Op_Refresh _ => result (option Report) (OpsError S)
  | Op_Work _ _ => option AgentId * result McpOutcome (OpsError S)
  | Op_Unread _ => result (option N) (OpsError S)
  | Op_Complete _ _ => result unit (OpsError S)
  | Op_SetClient _ | Op_Adopt _ | Op_LockCalls | Op_UnlockCalls | Op_CallsInsert _ _ | Op_CallsRemove _ | Op_Store _
  | Op_Spawn _ | Op_Warn _ | Op_Elsewhere _ => unit
  end.
Abbreviation McpProg A := (Prog mcp_answer A).

Definition to_vec (value : Value) : list N := bytes (to_string value).

Definition oversized (value : Value) : Value :=
  mcp_error (default Value_Null (value_get value "id")) INTERNAL_ERROR "The result exceeds 1 MiB; request fewer events".

Definition send (value : Value) : McpProg (result ResponseDelivery string) :=
  let bytes := to_vec value in
  let '(bytes, delivered) :=
    if MAX_CONTROL_BYTES <? N.of_nat (length bytes)
    then (to_vec (oversized value), ResponseDelivery_Replaced)
    else (bytes, ResponseDelivery_Original) in
  do^ call (Op_Write bytes) in
  prog_ok delivered.

(** [pointer("/clientInfo/name")] *)
Definition client_name (params : Value) : option Value :=
  option_bind _ _ (fun info => value_get info "name") (value_get params "clientInfo").

Definition client_tool (params : Value) : option Tool :=
  match option_bind _ _ value_as_str (client_name params) with
  | None => None
  | Some name =>
      let name := to_lowercase name in
      if str_contains "claude" name then Some Tool_Claude
      else if str_contains "codex" name then Some Tool_Codex
      else if str_contains "opencode" name then Some Tool_Opencode
      else None
  end.

Definition initialize (id params : Value) : McpProg Value :=
  let requested := option_bind _ _ value_as_str (value_get params "protocolVersion") in
  let valid :=
    bool_decide (is_Some requested)
    && match value_get params "capabilities" with Some value => is_object value | None => false end
    && match client_name params with Some value => is_string value | None => false end in
  let~ phase := call (Op_Phase (fun phase =>
    if negb valid || negb (bool_decide (phase = Phase_New)) then phase else Phase_Negotiated)) in
  if negb valid || negb (bool_decide (phase = Phase_New)) then Ret (mcp_error id INVALID_PARAMS "Invalid initialization") else
  do~ call (Op_SetClient (client_tool params)) in
  let answered :=
    match requested with
    | Some requested => if existsb (String.eqb requested) VERSIONS then requested else "2025-06-18"%string
    | None => "2025-06-18"%string
    end in
  Ret (mcp_result id (json_object [
    ("protocolVersion", Value_String answered);
    ("capabilities", json_object [("tools", json_object [])]);
    ("serverInfo", json_object [("name", Value_String "domyjob"); ("version", Value_String version)]);
    ("instructions", Value_String INSTRUCTIONS)]%string)).

Inductive CallError :=
| CallError_Unknown
| CallError_Arguments (problem : string)
| CallError_Ops (problem : OpsError S).

(** [session.refresh()] and [warn], of ops.rs *)
Definition refreshed (session : Handle) : McpProg (result unit (OpsError S)) :=
  let^ report := call (Op_Refresh session) in
  match report with
  | Some report => do~ call (Op_Warn report) in prog_ok tt
  | None => prog_ok tt
  end.

(** [ops::around]; the session comes back as it was left, also where the operation fails. *)
Definition around (session : Handle) (read : bool) (work : result Work (OpsError S)) :
  McpProg (Handle * result McpOutcome (OpsError S)) :=
  let~ before := if read then refreshed session else prog_ok tt in
  match before with
  | Err problem => Ret (session, Err problem)
  | Ok _ =>
      match work with
      | Err problem => Ret (session, Err problem)
      | Ok work =>
          let~ worked := call (Op_Work session work) in
          let session := mkHandle worked.1 (Handle_turn session) (Handle_cancelled session) in
          match worked.2 with
          | Err problem => Ret (session, Err problem)
          | Ok outcome =>
              let~ after := if read then prog_ok tt else refreshed session in
              match after with
              | Err problem => Ret (session, Err problem)
              | Ok _ => Ret (session, Ok outcome)
              end
          end
      end
  end.

Definition dispatch (session : Handle) (name : string) (input : Value) (client : option Tool) :
  McpProg (Handle * result McpOutcome CallError) :=
  match tool_named name with
  | None => Ret (session, Err CallError_Unknown)
  | Some tool =>
      match decode_args tool input with
      | Err problem => Ret (session, Err (CallError_Arguments problem))
      | Ok arguments =>
          let~ done := around session (reads name) (tool_work tool client arguments) in
          Ret (done.1, map_err CallError_Ops done.2)
      end
  end.

(** The unread messages are counted in any case, as the pattern has both. *)
Definition rendered_outcome_using (outcome : McpOutcome) (unread : McpProg (result (option N) (OpsError S))) : McpProg Value :=
  let value := outcome_json outcome in
  if bool_decide (is_Some (outcome_pending_read outcome))
     || match outcome with
        | Outcome_HandoffCreated _ | Outcome_HandoffMetadata _ _ | Outcome_HandoffBody _ => true
        | _ => false
        end
  then Ret value else
  let~ unread := unread in
  match value, unread with
  | Value_Object fields, Ok (Some count) => Ret (Value_Object (field_put fields "unread" (json_integer (Z.of_N count))))
  | _, _ => Ret value
  end.

(** What a tool that answered [value], or failed, is answered with *)
Definition tool_result (id value : Value) : Value :=
  mcp_result id (json_object [
    ("content", Value_Array [json_object [("type", Value_String "text"); ("text", Value_String (to_string value))]]);
    ("structuredContent", value);
    ("isError", Value_Bool false)]%string).
Definition tool_failure (id : Value) (problem : OpsError S) : Value :=
  mcp_result id (json_object [
    ("content", Value_Array [json_object [("type", Value_String "text"); ("text", Value_String (display problem))]]);
    ("isError", Value_Bool true)]%string).

Definition pending_of (outcome : McpOutcome) : option PendingDelivery :=
  match outcome_pending_read outcome with
  | Some pending => Some (PendingDelivery_Messages pending)
  | None => option_map PendingDelivery_Handoff (outcome_pending_handoff outcome)
  end.

(** [Server::call] *)
Definition mcp_call (id params : Value) (cancelled : nat) : McpProg (option CallReply) :=
  match decode_call params with
  | None => Ret (Some (plain_reply (mcp_error id INVALID_PARAMS "Invalid tool parameters")))
  | Some request =>
      let~ shared := call Op_Session in
      let session := mkHandle shared.1 shared.2 cancelled in
      let~ client := call Op_Client in
      let~ done := dispatch session (Call_name request) (Call_arguments request) client in
      let '(session, outcome) := done in
      let~ stopped := call (Op_Load cancelled) in
      if (stopped : bool) then Ret None else
      do~ if bool_decide (Call_name request = "chat_join"%string) && is_ok outcome
          then call (Op_Adopt session) else Ret tt in
      match outcome with
      | Ok outcome =>
          let~ value := rendered_outcome_using outcome (call (Op_Unread session)) in
          Ret (Some (mkCallReply (tool_result id value) (option_map (mkDeliveryCompletion session) (pending_of outcome))))
      | Err CallError_Unknown => Ret (Some (plain_reply (mcp_error id INVALID_PARAMS "Unknown tool")))
      | Err (CallError_Arguments problem) =>
          Ret (Some (plain_reply (mcp_error id INVALID_PARAMS (String.append "Invalid arguments: " problem))))
      | Err (CallError_Ops problem) => Ret (Some (plain_reply (tool_failure id problem)))
      end
  end.

Inductive McpError := McpError_Ops (problem : OpsError S) | McpError_Io (text : string).

Definition deliver_call (reply : CallReply) (cancelled : nat) : McpProg (result unit McpError) :=
  let~ stopped := call (Op_Load cancelled) in
  if (stopped : bool) then prog_ok tt else
  let^ delivered := prog_err McpError_Io (send (CallReply_value reply)) in
  do~ call Op_LockCalls in
  let~ completed :=
    match CallReply_completion reply with
    | None => prog_ok tt
    | Some completion =>
        let~ stopped := call (Op_Load cancelled) in
        if PendingDelivery_admits (DeliveryCompletion_pending completion) delivered stopped
        then prog_err McpError_Ops (call (Op_Complete (DeliveryCompletion_session completion) (DeliveryCompletion_pending completion)))
        else prog_ok tt
    end in
  do~ call Op_UnlockCalls in
  Ret completed.

Definition respond (id : Value) (method : string) (params : Value) : McpProg Value :=
  let~ phase := call (Op_Phase (fun phase => phase)) in
  let ready := bool_decide (phase = Phase_Ready) in
  if String.eqb method "initialize" then initialize id params
  else if String.eqb method "ping" then Ret (mcp_result id (json_object []))
  else if String.eqb method "tools/list" && ready then Ret (mcp_result id (json_object [("tools", Value_Array catalog)]%string))
  else if String.eqb method "tools/list" || String.eqb method "tools/call"
  then Ret (mcp_error id SERVER_NOT_INITIALIZED "Server not initialized")
  else Ret (mcp_error id METHOD_NOT_FOUND "Method not found").

Definition key (id : Value) : string := to_string id.

Definition notification (method : string) (params : Value) : McpProg unit :=
  if String.eqb method "notifications/initialized" then
    do~ call (Op_Phase (fun phase => if bool_decide (phase = Phase_Negotiated) then Phase_Ready else phase)) in
    Ret tt
  else if String.eqb method "notifications/cancelled" then
    match value_get params "requestId" with
    | None => Ret tt
    | Some id =>
        do~ call Op_LockCalls in
        let~ found := call (Op_CallsGet (key id)) in
        do~ (match found with Some flag => call (Op_Store flag) | None => Ret tt end : McpProg unit) in
        call Op_UnlockCalls
    end
  else Ret tt.

(** *** The loop *)

(** [read_line] of what is still to come: a line with its end, or as much of it as one byte more than the limit; no
    line at the end of the input *)
Fixpoint take_line (limit : nat) (input : list N) : list N * list N :=
  match limit, input with
  | Datatypes.S limit, byte :: input =>
      if byte =? 10 then ([byte], input)
      else let '(line, rest) := take_line limit input in (byte :: line, rest)
  | _, _ => ([], input)
  end.
Definition read_line (input : list N) : option (list N) * list N :=
  match take_line (N.to_nat (MAX_CONTROL_BYTES + 1)) input with
  | ([], rest) => (None, rest)
  | (line, rest) => (Some line, rest)
  end.

(** Whether a call is refused, and otherwise its place among those that are active *)
Definition admit_call (id : Value) (cancelled : nat) : McpProg (option string) :=
  do~ call Op_LockCalls in
  let~ found := call (Op_CallsGet (key id)) in
  let~ refusal :=
    match found with
    | Some _ => Ret (Some "request id is already active"%string)
    | None =>
        let~ active := call Op_CallsLen in
        if MAX_CALLS <=? active then Ret (Some "too many active requests"%string)
        else do~ call (Op_CallsInsert (key id) cancelled) in Ret None
    end in
  do~ call Op_UnlockCalls in
  Ret refusal.

(** A request that is not refused, answered or handed to a thread *)
Definition serve_request (id : Value) (request : Request) : McpProg (result unit string) :=
  let~ calls :=
    (if String.eqb (Request_method request) "tools/call" then
       let~ phase := call (Op_Phase (fun phase => phase)) in
       Ret (bool_decide (phase = Phase_Ready))
     else Ret false : McpProg bool) in
  if negb calls then
    let~ value := respond id (Request_method request) (Request_params request) in
    let^ _ := send value in
    prog_ok tt
  else
    let~ cancelled := call Op_NewFlag in
    let~ refusal := admit_call id cancelled in
    match refusal with
    | Some message =>
        let^ _ := send (mcp_error id REQUEST_REFUSED message) in
        prog_ok tt
    | None =>
        do~ call (Op_Spawn (mkActive id (Request_params request) cancelled)) in
        prog_ok tt
    end.

(** [serve_io], with [rounds] of its loop left; [None] when they are used up *)
Fixpoint serve_io (rounds : nat) : McpProg (result (option unit) string) :=
  match rounds with
  | O => prog_ok None
  | Datatypes.S rounds =>
      let^ line := call Op_ReadLine in
      match line with
      | None => prog_ok (Some tt)
      | Some line =>
          if MAX_CONTROL_BYTES <? N.of_nat (length line) then
            let^ _ := send (mcp_error Value_Null INVALID_REQUEST "Request exceeds 1 MiB") in
            prog_fail "oversized MCP request"%string
          else
            do^ match parse from_slice line with
                | Err problem => let^ _ := send problem in prog_ok tt
                | Ok request =>
                    match Request_id request with
                    | None =>
                        do~ notification (Request_method request) (Request_params request) in
                        prog_ok tt
                    | Some id => serve_request id request
                    end
                end in
            serve_io rounds
      end
  end.

(** The thread of a call, which [serve_io] spawns *)
Definition call_thread : McpProg unit :=
  let~ active := call Op_Argument in
  let~ reply := mcp_call (Active_id active) (Active_params active) (Active_cancelled active) in
  do~ match reply with
      | Some reply => let~ _ := deliver_call reply (Active_cancelled active) in Ret tt
      | None => Ret tt
      end in
  do~ call Op_LockCalls in
  do~ call (Op_CallsRemove (key (Active_id active))) in
  call Op_UnlockCalls.

Definition main_thread (rounds : nat) : McpProg unit :=
  let~ _ := serve_io rounds in
  Ret tt.
Definition elsewhere (store : Store D) : McpProg unit := call (Op_Elsewhere store).

(** *** What the threads share *)

(** What happened, oldest first, with the thread that did it.  The number of a flag is that of the call it belongs to. *)
Inductive McpEvent :=
| Received (t : N) (line : list N)
| Sent (t : N) (bytes : list N)
| Spoiled (t : N)
| Moved (t : N) (old new : Phase)
| Accepted (t : N) (key : string) (flag : nat)
| Begun (t : N) (flag : nat)
| Worked (t : N) (session : Handle) (work : Work) (outcome : result McpOutcome (OpsError S))
| Cancelled (t : N) (flag : nat)
| Completed (t : N) (session : Handle) (pending : PendingDelivery)
| Freed (t : N) (key : string)
| Broke (t : N).

Record Server := mkServer {
  input : list N;
  output : list N;
  phase : Phase;
  actor : option AgentId;
  turn : option EventId;
  client : option Tool;
  calls : gmap string nat;
  flags : list bool;
  calls_lock : option N;
  spawned : gmap N (Active * bool);
  machine_store : Store D;
  events : list McpEvent
}.

(** What the system, the client's pipes and the chat add to an operation *)
Record McpChoice := mkMcpChoice {
  Choice_failed : option string;
  Choice_written : nat;
  Choice_child : N;
  Choice_actor : option AgentId;
  Choice_store : Store D;
  Choice_outcome : result McpOutcome (OpsError S);
  Choice_refresh : result (option Report) (OpsError S);
  Choice_environment : Environment S
}.

(** A change of each part, with what happened *)
Definition with_events (w : Server) (new : list McpEvent) : Server :=
  mkServer (input w) (output w) (phase w) (actor w) (turn w) (client w) (calls w) (flags w) (calls_lock w) (spawned w)
    (machine_store w) (events w ++ new).
Definition set_input (w : Server) (rest : list N) : Server :=
  mkServer rest (output w) (phase w) (actor w) (turn w) (client w) (calls w) (flags w) (calls_lock w) (spawned w)
    (machine_store w) (events w).
Definition add_output (w : Server) (bytes : list N) : Server :=
  mkServer (input w) (output w ++ bytes) (phase w) (actor w) (turn w) (client w) (calls w) (flags w) (calls_lock w) (spawned w)
    (machine_store w) (events w).
Definition set_phase (w : Server) (new : Phase) : Server :=
  mkServer (input w) (output w) new (actor w) (turn w) (client w) (calls w) (flags w) (calls_lock w) (spawned w)
    (machine_store w) (events w).
Definition set_client (w : Server) (new : option Tool) : Server :=
  mkServer (input w) (output w) (phase w) (actor w) (turn w) new (calls w) (flags w) (calls_lock w) (spawned w)
    (machine_store w) (events w).
Definition adopt (w : Server) (session : Handle) : Server :=
  mkServer (input w) (output w) (phase w) (Handle_actor session) (turn w) (client w) (calls w) (flags w) (calls_lock w)
    (spawned w) (machine_store w) (events w).
Definition set_calls (w : Server) (new : gmap string nat) : Server :=
  mkServer (input w) (output w) (phase w) (actor w) (turn w) (client w) new (flags w) (calls_lock w) (spawned w)
    (machine_store w) (events w).
Definition set_flags (w : Server) (new : list bool) : Server :=
  mkServer (input w) (output w) (phase w) (actor w) (turn w) (client w) (calls w) new (calls_lock w) (spawned w)
    (machine_store w) (events w).
Definition set_lock (w : Server) (holder : option N) : Server :=
  mkServer (input w) (output w) (phase w) (actor w) (turn w) (client w) (calls w) (flags w) holder (spawned w)
    (machine_store w) (events w).
Definition set_spawned (w : Server) (new : gmap N (Active * bool)) : Server :=
  mkServer (input w) (output w) (phase w) (actor w) (turn w) (client w) (calls w) (flags w) (calls_lock w) new
    (machine_store w) (events w).
Definition set_store (w : Server) (new : Store D) : Server :=
  mkServer (input w) (output w) (phase w) (actor w) (turn w) (client w) (calls w) (flags w) (calls_lock w) (spawned w)
    new (events w).

(** The session changes its identity only by joining. *)
Definition actor_after (session : Handle) (work : Work) (joined : option AgentId) : option AgentId :=
  match work with ops_join _ _ => joined | _ => Handle_actor session end.

(** An operation of a thread; [None] while it waits *)
Definition mcp_perform (t : N) (c : McpChoice) (op : McpOp) (w : Server) : option (Server * mcp_answer op) :=
  match op return option (Server * mcp_answer op) with
  | Op_ReadLine =>
      match Choice_failed c with
      | Some text => Some (w, Err text)
      | None =>
          let '(line, rest) := read_line (input w) in
          Some (with_events (set_input w rest) (match line with Some line => [Received t line] | None => [] end), Ok line)
      end
  | Op_Write bytes =>
      match Choice_failed c with
      | Some text => Some (with_events (add_output w (take (Choice_written c) (bytes ++ [10]))) [Spoiled t], Err text)
      | None => Some (with_events (add_output w (bytes ++ [10])) [Sent t bytes], Ok tt)
      end
  | Op_Phase update =>
      let new := update (phase w) in
      Some (with_events (set_phase w new) (if bool_decide (new = phase w) then [] else [Moved t (phase w) new]), phase w)
  | Op_Client => Some (w, client w)
  | Op_SetClient new => Some (set_client w new, tt)
  | Op_Session => Some (w, (actor w, turn w))
  | Op_Adopt session => Some (adopt w session, tt)
  | Op_LockCalls =>
      match calls_lock w with
      | Some _ => None
      | None => Some (set_lock w (Some t), tt)
      end
  | Op_UnlockCalls => Some (set_lock w None, tt)
  | Op_CallsGet key => Some (w, calls w !! key)
  | Op_CallsLen => Some (w, N.of_nat (size (calls w)))
  | Op_CallsInsert key flag => Some (with_events (set_calls w (<[key := flag]> (calls w))) [Accepted t key flag], tt)
  | Op_CallsRemove key => Some (with_events (set_calls w (delete key (calls w))) [Freed t key], tt)
  | Op_NewFlag => Some (set_flags w (flags w ++ [false]), length (flags w))
  | Op_Load flag => match flags w !! flag with Some value => Some (w, value) | None => None end
  | Op_Store flag => Some (with_events (set_flags w (<[flag := true]> (flags w))) [Cancelled t flag], tt)
  | Op_Spawn active =>
      match spawned w !! Choice_child c with
      | Some _ => None
      | None =>
          if Choice_child c =? 0 then None
          else Some (set_spawned w (<[Choice_child c := (active, false)]> (spawned w)), tt)
      end
  | Op_Argument =>
      match spawned w !! t with
      | Some (active, false) =>
          Some (with_events (set_spawned w (<[t := (active, true)]> (spawned w))) [Begun t (Active_cancelled active)], active)
      | _ => None
      end
  | Op_Refresh _ => Some (set_store w (Choice_store c), Choice_refresh c)
  | Op_Warn _ => Some (w, tt)
  | Op_Work session work =>
      Some (with_events (set_store w (Choice_store c)) [Worked t session work (Choice_outcome c)],
            (actor_after session work (Choice_actor c), Choice_outcome c))
  | Op_Unread session =>
      let '(after, r) := @unread_op D S _ _ _ (Choice_environment c)
                           (mkSession (machine_store w) (Handle_actor session) (Handle_turn session)) in
      Some (set_store w (Session_store after), r)
  | Op_Complete session pending =>
      let '(after, r) := @complete (Choice_environment c) pending
                           (mkSession (machine_store w) (Handle_actor session) (Handle_turn session)) in
      Some (with_events (set_store w (Session_store after)) [Completed t session pending], r)
  | Op_Elsewhere s => Some (set_store w s, tt)
  end.

(** What is left of a thread that is over: it holds nothing.  A call that did not come to its end keeps its place. *)
Definition owns (t : N) (flag : nat) (w : Server) : Prop :=
  exists active begun, spawned w !! t = Some (active, begun) /\ Active_cancelled active = flag.
Definition left_active (t : N) (w : Server) : bool :=
  match spawned w !! t with
  | Some (active, _) => bool_decide (calls w !! key (Active_id active) = Some (Active_cancelled active))
  | None => false
  end.
Definition mcp_over (t : N) (w : Server) : Server :=
  with_events (set_lock w (if bool_decide (calls_lock w = Some t) then None else calls_lock w))
    (if left_active t w then [Broke t] else []).

Inductive mcp_startable : McpProg unit -> Prop :=
| startable_call : mcp_startable call_thread
| startable_other s : mcp_startable (elsewhere s).
End server.

(** ** Lemmas *)

(** What is taken as a request is one of JSON-RPC 2.0, with an identifier and parameters as the protocol has them. *)
Lemma parse_accepts from_slice bytes request : parse from_slice bytes = Ok request ->
  N.of_nat (length bytes) <= MAX_CONTROL_BYTES /\ Request_jsonrpc request = "2.0"%string /\
  (forall id, Request_id request = Some id -> is_string id = true \/ is_integer id = true) /\
  (Request_params request = Value_Null \/ is_object (Request_params request) = true).
Proof.
  unfold parse, json. destruct (N.ltb_spec MAX_CONTROL_BYTES (N.of_nat (length bytes))); [done|].
  destruct (from_slice bytes) as [value|]; [|done]. cbn. destruct (decode_request value) as [found|]; [|done]. cbn.
  destruct (negb _ || _ || _) eqn:Hb; [done|]. intros [= ->].
  apply orb_false_iff in Hb as [[H1 H2]%orb_false_iff H3].
  apply negb_false_iff, bool_decide_eq_true_1 in H1. split; [done|]. split; [done|]. split.
  - intros id Hid. rewrite Hid in H2. apply andb_false_iff in H2 as [H2|H2]; apply negb_false_iff in H2; auto.
  - apply andb_false_iff in H3 as [H3|H3]; apply negb_false_iff in H3; [left|by right].
    by destruct (Request_params request).
Qed.

(** A name is of one tool at most, and every tool that is listed is found under its name. *)
Lemma tool_named_row name tool : tool_named name = Some tool <-> tool_name tool = name.
Proof.
  split.
  - intros [_ H]%List.find_some. by apply String.eqb_eq.
  - intros <-. by destruct tool.
Qed.

(** The hints that a client sees say what the server does around the tool. *)
Lemma hints_are_honest tool : value_get (annotations (tool_title tool) (tool_effect tool)) "readOnlyHint" =
  Some (Value_Bool (reads (tool_name tool))).
Proof. by destruct tool. Qed.

(** What is no object can still be taken as a request. *)
Example array_taken_as_request :
  decode_request (Value_Array [Value_String "2.0"; json_integer 7; Value_String "ping"]%string) =
  Some (mkRequest "2.0" (Some (json_integer 7)) "ping" Value_Null).
Proof. reflexivity. Qed.
