(* ===== verification/McpRuns.v ===== *)
(** What holds of the server of mcp.rs whatever its client sends, however its threads are interleaved, and
    whatever the operations of the chat answer: tools are called only after the handshake, a bounded number
    of calls is active, each request identifier once at a time, and what was read is recorded only when the
    answer reached the client whole and was not cancelled. *)

From Stdlib Require Import NArith ZArith Lia String Ascii.
From stdpp Require Import base gmap list strings pretty relations.
From S2P Require Import Prelude SortedLists RustStr Ids AgentLists Notification Handoff Event.
From S2P Require Import Wire Database Views Tx Acts HandoffStore Values Ops Messages Programs ChatSync.
From S2P Require Import Samples StoreSamples Mcp.

(** ** Definitions *)

Section runs.
Context {D S : Type} `{!Redb D S} `{codec : !Codec} `{records : !StoreCodec} `{shown : !Shown}.
Context (to_string : Value -> string) (from_slice : list N -> option Value) (to_lowercase : string -> string)
  (schema : ChatTool -> Value) (decode_args : forall tool, Value -> result (tool_args tool) string)
  (display : OpsError S -> string) (version : string).

Abbreviation event := (McpEvent (S := S)).
Abbreviation server := (Server (D := D) (S := S)).
Implicit Types (w : server) (h : list event) (e : event) (t : N) (k : string) (f : nat).

(** *** What a history says *)

(** The calls that are active after it, the phase, and whether a flag was set *)
Definition open_calls_step (open : gmap string nat) e : gmap string nat :=
  match e with
  | Accepted _ k f => <[k := f]> open
  | Freed _ k => delete k open
  | _ => open
  end.
Definition open_calls h : gmap string nat := fold_left open_calls_step h ∅.
Definition phase_step (p : Phase) e : Phase := match e with Moved _ _ new => new | _ => p end.
Definition phase_of h : Phase := fold_left phase_step h Phase_New.
#[local] Arguments open_calls : simpl never.
#[local] Arguments phase_of : simpl never.
Definition cancelled_in h f : Prop := exists t, Cancelled t f ∈ h.

(** The line that was received last *)
Definition received_step (last_ : option (list N)) e : option (list N) := match e with Received _ line => Some line | _ => last_ end.
Definition last_received h : option (list N) := fold_left received_step h None.
#[local] Arguments last_received : simpl never.

(** The thread that did something; to break off is nothing it does. *)
Definition acts e : option N :=
  match e with
  | Received t _ | Sent t _ | Spoiled t | Moved t _ _ | Accepted t _ _ | Begun t _ | Worked t _ _ _ | Cancelled t _
  | Completed t _ _ | Freed t _ => Some t
  | Broke _ => None
  end.
(** It has not freed the identifier of a call. *)
Definition going_in h t : Prop := forall k, Freed t k ∉ h.

(** A request to initialize the server, complete as the protocol has it, and the notification that it may begin *)
Definition asks_to_initialize (request : Request) : Prop :=
  Request_method request = "initialize"%string /\ is_Some (Request_id request) /\
  exists protocol capabilities info name,
    value_get (Request_params request) "protocolVersion" = Some (Value_String protocol) /\
    value_get (Request_params request) "capabilities" = Some (Value_Object capabilities) /\
    value_get (Request_params request) "clientInfo" = Some info /\ value_get info "name" = Some (Value_String name).
Definition says_it_is_ready (request : Request) : Prop :=
  Request_method request = "notifications/initialized"%string /\ Request_id request = None.
Definition line_says (line : list N) (what : Request -> Prop) : Prop :=
  exists request, parse from_slice line = Ok request /\ what request.

(** The thread did the work that has [pending] to record, and then sent the answer, within the limit. *)
Definition delivered_in h t (session : Handle) (pending : PendingDelivery) : Prop :=
  exists h1 h2 h3 before work outcome id,
    let answer := to_vec to_string (tool_result to_string id (outcome_json outcome)) in
    h = h1 ++ Worked t before work (Ok outcome) :: h2 ++ Sent t answer :: h3 /\
    pending_of outcome = Some pending /\ Handle_cancelled before = Handle_cancelled session /\
    N.of_nat (length answer) <= MAX_CONTROL_BYTES.

(** What may happen next *)
Definition allowed_here h e : Prop :=
  match e with
  | Accepted _ k _ => open_calls h !! k = None /\ N.of_nat (size (open_calls h)) < MAX_CALLS /\ phase_of h = Phase_Ready
  | Completed t session pending => ~ cancelled_in h (Handle_cancelled session) /\ delivered_in h t session pending
  | Moved _ old new =>
      old = phase_of h /\ exists line, last_received h = Some line /\
      (old = Phase_New /\ new = Phase_Negotiated /\ line_says line asks_to_initialize \/
       old = Phase_Negotiated /\ new = Phase_Ready /\ line_says line says_it_is_ready)
  | Freed t k => exists f, Begun t f ∈ h /\ open_calls h !! k = Some f
  | _ => True
  end.
Definition allowed_next h e : Prop := (forall t, acts e = Some t -> going_in h t) /\ allowed_here h e.
Definition valid h : Prop := forall i e, h !! i = Some e -> allowed_next (take i h) e.

Record McpInv w : Prop := {
  inv_valid : valid (events w);
  inv_calls : calls w = open_calls (events w);
  inv_phase : phase w = phase_of (events w);
  inv_flags : forall f, cancelled_in (events w) f -> flags w !! f = Some true;
  inv_known : forall k f, calls w !! k = Some f -> (f < length (flags w))%nat;
  inv_spawned : forall t active begun, spawned w !! t = Some (active, begun) -> (Active_cancelled active < length (flags w))%nat;
  inv_owner : forall t t' f, owns t f w -> owns t' f w -> t = t';
  inv_waiting : forall t active, spawned w !! t = Some (active, false) ->
    calls w !! key to_string (Active_id active) = Some (Active_cancelled active);
  inv_freed : forall t k, Freed t k ∈ events w -> exists active, spawned w !! t = Some (active, true);
  inv_begun : forall t active, spawned w !! t = Some (active, true) -> Begun t (Active_cancelled active) ∈ events w;
  inv_main : spawned w !! 0 = None
}.

Record mcp_guar t w w' : Prop := {
  guar_events : exists new, events w' = events w ++ new /\ forall e t', e ∈ new -> acts e = Some t' -> t' = t;
  guar_received : t <> 0 -> last_received (events w') = last_received (events w);
  guar_lock : forall t', t' <> t -> calls_lock w = Some t' <-> calls_lock w' = Some t';
  guar_set : forall f, flags w !! f = Some true -> flags w' !! f = Some true;
  guar_unset : forall f, flags w !! f = Some false -> flags w' !! f = Some false \/ calls_lock w = Some t;
  guar_length : (length (flags w) <= length (flags w'))%nat;
  guar_calls : calls w' = calls w \/ calls_lock w = Some t;
  guar_kept : forall k f, calls w !! k = Some f -> calls w' !! k = Some f \/ owns t f w;
  guar_spawned : forall t' active begun, spawned w !! t' = Some (active, begun) ->
    exists begun', spawned w' !! t' = Some (active, begun') /\ (t' <> t -> begun' = begun);
  guar_spawn : t <> 0 -> forall t', spawned w !! t' = None -> spawned w' !! t' = None;
  guar_ready : phase w = Phase_Ready -> phase w' = Phase_Ready;
  guar_input : t <> 0 -> input w' = input w
}.

Definition mcp_exec t (op : McpOp (D := D)) w (x : mcp_answer op) w' : Prop := performs (mcp_perform (S := S)) t op w x w'.
Abbreviation oks := (ok mcp_exec McpInv mcp_guar).
Abbreviation stables := (stable McpInv mcp_guar).

(** Nothing but the loop reads. *)
Definition keeps_input w w' : Prop := input w' = input w.

(** Steps that leave alone what the threads rely on *)
Definition plain e : Prop :=
  match e with Sent _ _ | Spoiled _ | Worked _ _ _ _ | Broke _ => True | _ => False end.
Record idle t w w' : Prop := {
  idle_calls : calls w' = calls w;
  idle_flags : flags w' = flags w;
  idle_lock : calls_lock w' = calls_lock w;
  idle_spawned : spawned w' = spawned w;
  idle_phase : phase w' = phase w;
  idle_events : events w' = events w \/
    exists e, events w' = events w ++ [e] /\ plain e /\ forall t', acts e = Some t' -> t' = t /\ going_in (events w) t
}.

(** ** Histories *)

Lemma open_calls_snoc h e : open_calls (h ++ [e]) = open_calls_step (open_calls h) e.
Proof. unfold open_calls. by rewrite fold_left_app. Qed.
Lemma phase_of_snoc h e : phase_of (h ++ [e]) = phase_step (phase_of h) e.
Proof. unfold phase_of. by rewrite fold_left_app. Qed.
Lemma last_received_snoc h e : last_received (h ++ [e]) = received_step (last_received h) e.
Proof. unfold last_received. by rewrite fold_left_app. Qed.
Lemma cancelled_snoc h e f : cancelled_in (h ++ [e]) f <-> cancelled_in h f \/ exists t, e = Cancelled t f.
Proof.
  unfold cancelled_in. setoid_rewrite elem_of_app. setoid_rewrite list_elem_of_singleton. split.
  - intros [t [H|H]]; eauto.
  - intros [[t H]|[t H]]; eauto.
Qed.

Lemma valid_nil : valid [].
Proof. by intros i e H. Qed.

Lemma valid_snoc h e : valid (h ++ [e]) <-> valid h /\ allowed_next h e.
Proof.
  split.
  - intros H. split.
    + intros i e' Hi. pose proof (lookup_lt_Some _ _ _ Hi) as Hlt.
      specialize (H i e' (lookup_app_l_Some _ _ _ _ Hi)). rewrite take_app_le in H by lia. done.
    + specialize (H (length h) e (list_lookup_middle _ _ _ _ eq_refl)). by rewrite take_app_length in H.
  - intros [H He] i e' Hi. apply lookup_app_Some in Hi as [Hi|[Hle Hi]].
    + pose proof (lookup_lt_Some _ _ _ Hi). rewrite take_app_le by lia. by apply H.
    + apply list_lookup_singleton_Some in Hi as [Hn <-]. replace i with (length h) by lia. by rewrite take_app_length.
Qed.

Lemma valid_take h i : valid h -> valid (take i h).
Proof.
  intros H j e Hj. apply lookup_take_Some in Hj as [Hj Hlt]. rewrite take_take, Nat.min_l by lia. by apply H.
Qed.

(** What was accepted is open until it is freed. *)
Lemma open_calls_freed h1 h2 k f : valid (h1 ++ h2) -> open_calls h1 !! k = Some f ->
  open_calls (h1 ++ h2) !! k = Some f \/
  exists n t, h2 !! n = Some (Freed t k) /\ open_calls (h1 ++ take n h2) !! k = Some f.
Proof.
  intros Hv H1. induction h2 as [|e h2 IH] using rev_ind; [left; by rewrite app_nil_r|].
  rewrite app_assoc in Hv. apply valid_snoc in Hv as [Hv [_ He]].
  destruct (IH Hv) as [Hk|(n & t & Hn & Hf)].
  2: { right. exists n, t. split; [by apply lookup_app_l_Some|]. apply lookup_lt_Some in Hn. by rewrite take_app_le by lia. }
  assert (Hlast : forall t, e = Freed t k -> exists n t, (h2 ++ [e]) !! n = Some (Freed t k) /\
    open_calls (h1 ++ take n (h2 ++ [e])) !! k = Some f).
  { intros t ->. exists (length h2), t. split; [by apply list_lookup_middle|]. by rewrite take_app_length. }
  rewrite app_assoc, open_calls_snoc. destruct e; cbn [open_calls_step]; auto.
  - left. destruct He as (He & _). rewrite lookup_insert_ne; [done|]. intros ->. by rewrite Hk in He.
  - destruct (decide (k = key)) as [->|Hne]; [right; eauto|left; by rewrite lookup_delete_ne].
Qed.

Lemma open_calls_bounded h : valid h -> N.of_nat (size (open_calls h)) <= MAX_CALLS.
Proof.
  induction h as [|e h IH] using rev_ind; [done|]. intros [Hv [_ He]]%valid_snoc. specialize (IH Hv). rewrite open_calls_snoc.
  destruct e; cbn [open_calls_step allowed_here] in *; try done.
  - destruct He as (Hk & Hsize & _). rewrite map_size_insert_None by done. cbn in *. rewrite Nat2N.inj_succ. apply N.le_succ_l. exact Hsize.
  - pose proof (map_subseteq_size _ _ (delete_subseteq (open_calls h) key)) as Hs. lia.
Qed.

Lemma last_received_at h line : last_received h = Some line ->
  exists i t, h !! i = Some (Received t line) /\ forall j t' line', h !! j = Some (Received t' line') -> (j <= i)%nat.
Proof.
  induction h as [|e h IH] using rev_ind; [done|]. rewrite last_received_snoc.
  assert (Hold : (forall t' line', e <> Received t' line') -> last_received h = Some line ->
    exists i t, (h ++ [e]) !! i = Some (Received t line) /\
      forall j t' line', (h ++ [e]) !! j = Some (Received t' line') -> (j <= i)%nat).
  { intros Hno H. destruct (IH H) as (i & t & Hi & Hlast). exists i, t. split; [by apply lookup_app_l_Some|].
    intros j t' line' [Hj|[_ Hj]]%lookup_app_Some; [by apply (Hlast j t' line')|]. apply list_elem_of_lookup_2, list_elem_of_singleton in Hj.
    by destruct (Hno t' line'). }
  destruct e; cbn [received_step]; try (apply Hold; done). intros [= ->]. exists (length h), t.
  split; [by apply list_lookup_middle|]. intros j t' line' Hj%lookup_lt_Some. rewrite length_app in Hj. cbn in Hj. lia.
Qed.

Lemma last_received_some h i t line : h !! i = Some (Received t line) -> is_Some (last_received h).
Proof.
  revert i. induction h as [|e h IH] using rev_ind; intros i; [done|]. rewrite last_received_snoc.
  intros [Hi|[_ Hi]]%lookup_app_Some.
  - destruct e; cbn [received_step]; try (by eapply IH). by eexists.
  - apply list_elem_of_lookup_2, list_elem_of_singleton in Hi. subst e. by eexists.
Qed.

(** The phase tells which requests there were. *)
Lemma phase_lines h : valid h ->
  (phase_of h <> Phase_New -> exists i t line, h !! i = Some (Received t line) /\ line_says line asks_to_initialize) /\
  (phase_of h = Phase_Ready -> exists i n t t' line line', (i < n)%nat /\ h !! i = Some (Received t line) /\
     line_says line asks_to_initialize /\ h !! n = Some (Received t' line') /\ line_says line' says_it_is_ready).
Proof.
  induction h as [|e h IH] using rev_ind; [done|]. intros [Hv [_ He]]%valid_snoc. destruct (IH Hv) as [H1 H2].
  rewrite phase_of_snoc.
  assert (Hgrow : forall j x, h !! j = Some x -> (h ++ [e]) !! j = Some x) by (intros j x; apply lookup_app_l_Some).
  assert (H1' : phase_of h <> Phase_New -> exists i t line, (h ++ [e]) !! i = Some (Received t line) /\ line_says line asks_to_initialize).
  { intros (i & t & line & Hi & Hsays)%H1. exists i, t, line. auto. }
  assert (H2' : phase_of h = Phase_Ready -> exists i n t t' line line', (i < n)%nat /\ (h ++ [e]) !! i = Some (Received t line) /\
     line_says line asks_to_initialize /\ (h ++ [e]) !! n = Some (Received t' line') /\ line_says line' says_it_is_ready).
  { intros (i & n & t & t' & line & line' & Hlt & Hi & Hs & Hn & Hs')%H2. exists i, n, t, t', line, line'. split_and!; auto. }
  destruct e; cbn [phase_step]; auto. destruct He as (Hold & line & Hline & Hhow).
  destruct (last_received_at _ _ Hline) as (n & t' & Hn & Hlast).
  destruct Hhow as [(-> & -> & Hsays)|(-> & -> & Hsays)].
  - split; [|done]. intros _. exists n, t', line. auto.
  - destruct H1 as (i & t1 & line1 & Hi & Hsays1); [by rewrite <- Hold|]. split; [by intros _; exists i, t1, line1; auto|].
    intros _. exists i, n, t1, t', line1, line. split; [|split_and!; auto].
    pose proof (Hlast _ _ _ Hi). destruct (decide (i = n)) as [->|]; [|lia]. rewrite Hn in Hi. injection Hi as <- <-.
    destruct Hsays as (r & Hr & Hm & _), Hsays1 as (r1 & Hr1 & Hm1 & _). rewrite Hr in Hr1. injection Hr1 as <-. by rewrite Hm in Hm1.
Qed.

Lemma delivered_grow h new t session pending : delivered_in h t session pending -> delivered_in (h ++ new) t session pending.
Proof.
  intros (h1 & h2 & h3 & before & work & outcome & id & -> & H). exists h1, h2, (h3 ++ new), before, work, outcome, id.
  split; [|exact H]. rewrite <- !app_assoc. cbn. by rewrite <- app_assoc.
Qed.

(** ** Steps *)

Lemma owns_same t f w w' : spawned w' = spawned w -> owns t f w' <-> owns t f w.
Proof. intros E. unfold owns. by rewrite E. Qed.

Lemma idle_history t w w' : idle t w w' -> (valid (events w) -> valid (events w')) /\
  open_calls (events w') = open_calls (events w) /\ phase_of (events w') = phase_of (events w) /\
  (forall f, cancelled_in (events w') f <-> cancelled_in (events w) f) /\
  last_received (events w') = last_received (events w) /\ (forall t' k, Freed t' k ∈ events w' <-> Freed t' k ∈ events w) /\
  exists new, events w' = events w ++ new /\ forall e t', e ∈ new -> acts e = Some t' -> t' = t.
Proof.
  intros Hw. destruct (idle_events _ _ _ Hw) as [->|(e & -> & He & Hg)].
  - split_and!; try done. exists []. split; [by rewrite app_nil_r|]. by intros e t' ?%elem_of_nil.
  - rewrite open_calls_snoc, phase_of_snoc, last_received_snoc. split_and!; [|by destruct e|by destruct e| |by destruct e| |].
    + intros H. apply valid_snoc. split; [done|]. split; [|by destruct e]. intros t' Ht. by destruct (Hg t' Ht) as [-> ?].
    + intros f. rewrite cancelled_snoc. split; [intros [H|[t' ->]]; [done|destruct He]|auto].
    + intros t' k. rewrite elem_of_app, list_elem_of_singleton. split; [intros [H|<-]; [done|destruct He]|auto].
    + exists [e]. split; [done|]. intros e' t' ->%list_elem_of_singleton Ht. by apply Hg.
Qed.

Lemma idle_ok t w w' : McpInv w -> idle t w w' -> (t <> 0 -> input w' = input w) -> McpInv w' /\ mcp_guar t w w'.
Proof.
  intros Hi Hw Hin. destruct (idle_history _ _ _ Hw) as (Hv & Ho & Hp & Hc & Hr & Hf & new & Hn & Hnew).
  pose proof (idle_calls _ _ _ Hw) as E1. pose proof (idle_flags _ _ _ Hw) as E2. pose proof (idle_lock _ _ _ Hw) as E3.
  pose proof (idle_spawned _ _ _ Hw) as E4. pose proof (idle_phase _ _ _ Hw) as E5. split; split.
  - apply Hv, Hi.
  - rewrite E1, Ho. apply Hi.
  - rewrite E5, Hp. apply Hi.
  - intros f. rewrite Hc, E2. apply Hi.
  - rewrite E1, E2. apply Hi.
  - rewrite E2, E4. apply Hi.
  - intros t1 t2 f. rewrite !(owns_same _ _ _ _ E4). apply Hi.
  - rewrite E4, E1. apply Hi.
  - intros t' k. rewrite Hf, E4. apply Hi.
  - intros t' active. rewrite E4, Hn, elem_of_app. left. by apply (inv_begun _ Hi).
  - rewrite E4. apply Hi.
  - by exists new.
  - by intros _.
  - by rewrite E3.
  - by rewrite E2.
  - rewrite E2. auto.
  - by rewrite E2.
  - by left.
  - rewrite E1. auto.
  - rewrite E4. eauto.
  - by rewrite E4.
  - by rewrite E5.
  - done.
Qed.

(** A thread that has freed a call is one that was spawned for it; the loop is none of them. *)
Lemma main_going w : McpInv w -> going_in (events w) 0.
Proof. intros Hi k H. destruct (inv_freed _ Hi _ _ H) as [active Ha]. by rewrite (inv_main _ Hi) in Ha. Qed.

(** One event more, which is allowed *)
Lemma snoc_acts h t e : acts e = Some t -> exists new, h ++ [e] = h ++ new /\ forall e' t', e' ∈ new -> acts e' = Some t' -> t' = t.
Proof. intros He. exists [e]. split; [done|]. intros e' t' ->%list_elem_of_singleton Ht. congruence. Qed.
Lemma none_acts h t : exists new : list event, h = h ++ new /\ forall e' t', e' ∈ new -> acts e' = Some t' -> t' = t.
Proof. exists []. split; [by rewrite app_nil_r|]. by intros e' t' ?%elem_of_nil. Qed.
Lemma freed_snoc h e t k : Freed t k ∈ h ++ [e] <-> Freed t k ∈ h \/ e = Freed t k.
Proof. rewrite elem_of_app, list_elem_of_singleton. naive_solver. Qed.
Lemma elem_snoc h e e' : e' ∈ h -> e' ∈ h ++ [e].
Proof. intros H. apply elem_of_app. by left. Qed.

Lemma take_calls w w' t : McpInv w -> calls_lock w = None ->
  w' = set_lock w (Some t) -> McpInv w' /\ mcp_guar t w w'.
Proof.
  intros Hi Hl ->. split; [by destruct Hi|]. split; cbn; auto; [apply none_acts| |eauto].
  intros t' Hne. rewrite Hl. naive_solver.
Qed.

Lemma give_calls w w' t : McpInv w -> calls_lock w = Some t ->
  w' = set_lock w None -> McpInv w' /\ mcp_guar t w w'.
Proof.
  intros Hi Hl ->. split; [by destruct Hi|]. split; cbn; auto; [apply none_acts| |eauto].
  intros t' Hne. rewrite Hl. naive_solver.
Qed.

(** The loop hears a line. *)
Lemma receive_ok w line rest : McpInv w ->
  let w' := with_events (set_input w rest) [Received 0 line] in McpInv w' /\ mcp_guar 0 w w'.
Proof.
  intros Hi w'. split.
  - split; cbn; try apply Hi.
    + apply valid_snoc. split; [apply Hi|]. split; [intros t [= <-]; by apply main_going|done].
    + rewrite open_calls_snoc. apply Hi.
    + rewrite phase_of_snoc. apply Hi.
    + intros f [H|[t' H]]%cancelled_snoc; [by apply Hi|done].
    + intros t k [H|H]%freed_snoc; [by apply (inv_freed _ Hi t k)|done].
    + intros t active H. by apply elem_snoc, (inv_begun _ Hi).
  - split; cbn; auto; [by apply snoc_acts|done|eauto|done].
Qed.

(** A step of the phase is one of the two that there are, at the request for it. *)
Lemma move_ok w old new line : McpInv w -> phase w = old -> last_received (events w) = Some line ->
  old = Phase_New /\ new = Phase_Negotiated /\ line_says line asks_to_initialize \/
  old = Phase_Negotiated /\ new = Phase_Ready /\ line_says line says_it_is_ready ->
  let w' := with_events (set_phase w new) [Moved 0 old new] in McpInv w' /\ mcp_guar 0 w w'.
Proof.
  intros Hi Ho Hline Hn w'. pose proof (inv_phase _ Hi) as Hp. split.
  - split; cbn; try apply Hi.
    + apply valid_snoc. split; [apply Hi|]. split; [intros t [= <-]; by apply main_going|]. cbn. rewrite <- Hp. eauto.
    + rewrite open_calls_snoc. apply Hi.
    + by rewrite phase_of_snoc.
    + intros f [H|[t' H]]%cancelled_snoc; [by apply Hi|done].
    + intros t k [H|H]%freed_snoc; [by apply (inv_freed _ Hi t k)|done].
    + intros t active H. by apply elem_snoc, (inv_begun _ Hi).
  - split; cbn; auto; [by apply snoc_acts|done|eauto|]. intros Hr. destruct Hn as [(-> & -> & _)|(-> & -> & _)]; congruence.
Qed.

(** What was accepted is new, and there is room for it. *)
Lemma accept_ok w k f : McpInv w -> calls_lock w = Some 0 -> calls w !! k = None ->
  N.of_nat (size (calls w)) < MAX_CALLS -> phase w = Phase_Ready -> (f < length (flags w))%nat ->
  let w' := with_events (set_calls w (<[k := f]> (calls w))) [Accepted 0 k f] in McpInv w' /\ mcp_guar 0 w w'.
Proof.
  intros Hi Hl Hk Hs Hr Hf w'. pose proof (inv_calls _ Hi) as Hc. pose proof (inv_phase _ Hi) as Hp. split.
  - split; cbn; try apply Hi.
    + apply valid_snoc. split; [apply Hi|]. split; [intros t [= <-]; by apply main_going|]. cbn. by rewrite <- Hc, <- Hp.
    + rewrite open_calls_snoc. cbn. by rewrite Hc.
    + rewrite phase_of_snoc. apply Hi.
    + intros f' [H|[t' H]]%cancelled_snoc; [by apply Hi|done].
    + intros k' f' [[_ <-]|[_ H]]%lookup_insert_Some; [done|by eapply (inv_known _ Hi)].
    + intros t' active H. rewrite lookup_insert_ne; [by apply (inv_waiting _ Hi t')|]. intros ->. by rewrite (inv_waiting _ Hi _ _ H) in Hk.
    + intros t' k' [H|H]%freed_snoc; [by apply (inv_freed _ Hi t' k')|done].
    + intros t' active H. by apply elem_snoc, (inv_begun _ Hi).
  - split; cbn; auto; [by apply snoc_acts|done| |eauto]. intros k' f' H. left. rewrite lookup_insert_ne; [done|]. by intros ->; rewrite H in Hk.
Qed.

(** A thread frees its own call, which it has begun. *)
Lemma free_ok t w active : McpInv w -> going_in (events w) t -> calls_lock w = Some t -> spawned w !! t = Some (active, true) ->
  calls w !! key to_string (Active_id active) = Some (Active_cancelled active) ->
  let k := key to_string (Active_id active) in
  let w' := with_events (set_calls w (delete k (calls w))) [Freed t k] in McpInv w' /\ mcp_guar t w w'.
Proof.
  intros Hi Hgo Hl Ht Hk k w'. assert (Hown : owns t (Active_cancelled active) w) by (exists active, true; done). split.
  - split; cbn; try apply Hi.
    + apply valid_snoc. split; [apply Hi|]. split; [by intros t' [= <-]|]. exists (Active_cancelled active).
      split; [by apply (inv_begun _ Hi)|]. by rewrite <- (inv_calls _ Hi).
    + rewrite open_calls_snoc. cbn. by rewrite (inv_calls _ Hi).
    + rewrite phase_of_snoc. apply Hi.
    + intros f' [H|[t' H]]%cancelled_snoc; [by apply Hi|done].
    + intros k' f' [_ H]%lookup_delete_Some. by eapply (inv_known _ Hi).
    + intros t' active' H. pose proof (inv_waiting _ Hi _ _ H) as Hw. rewrite lookup_delete_ne; [done|].
      intros Heq. fold k in Hk. rewrite <- Heq, Hk in Hw. injection Hw as Hf.
      assert (Hown' : owns t' (Active_cancelled active) w) by (exists active', false; done).
      pose proof (inv_owner _ Hi _ _ _ Hown' Hown) as ->.
      by rewrite Ht in H.
    + intros t' k' [H|[= <- _]]%freed_snoc; [by apply (inv_freed _ Hi t' k')|by exists active].
    + intros t' active' H. by apply elem_snoc, (inv_begun _ Hi).
  - split; cbn; auto; [by apply snoc_acts|by rewrite last_received_snoc| |eauto]. intros k' f' H. destruct (decide (k = k')) as [<-|Hne].
    + right. fold k in Hk. rewrite Hk in H. by injection H as <-.
    + left. by rewrite lookup_delete_ne.
Qed.

Lemma new_flag_ok t w : McpInv w -> let w' := set_flags w (flags w ++ [false]) in McpInv w' /\ mcp_guar t w w'.
Proof.
  intros Hi w'. split.
  - split; cbn; try apply Hi.
    + intros f H. apply lookup_app_l_Some. by apply Hi.
    + intros k' f' H. rewrite length_app. pose proof (inv_known _ Hi _ _ H). lia.
    + intros t' active begun H. rewrite length_app. pose proof (inv_spawned _ Hi _ _ _ H). lia.
  - split; cbn; auto; [apply none_acts| | |rewrite length_app; lia|eauto]; intros f H; [|left]; by apply lookup_app_l_Some.
Qed.

Lemma set_flag_ok w f : McpInv w -> calls_lock w = Some 0 -> (f < length (flags w))%nat ->
  let w' := with_events (set_flags w (<[f := true]> (flags w))) [Cancelled 0 f] in McpInv w' /\ mcp_guar 0 w w'.
Proof.
  intros Hi Hl Hf w'. split.
  - split; cbn; try apply Hi.
    + apply valid_snoc. split; [apply Hi|]. split; [intros t [= <-]; by apply main_going|done].
    + rewrite open_calls_snoc. apply Hi.
    + rewrite phase_of_snoc. apply Hi.
    + intros f' [H|[t' [= _ ->]]]%cancelled_snoc; [|by apply list_lookup_insert_eq].
      destruct (decide (f = f')) as [->|Hne]; [by apply list_lookup_insert_eq|].
      rewrite list_lookup_insert_ne by done. by apply Hi.
    + intros k' f' H. rewrite length_insert. by eapply (inv_known _ Hi).
    + intros t' active begun H. rewrite length_insert. by eapply (inv_spawned _ Hi).
    + intros t' k' [H|H]%freed_snoc; [by apply (inv_freed _ Hi t' k')|done].
    + intros t' active H. by apply elem_snoc, (inv_begun _ Hi).
  - split; cbn; auto; [by apply snoc_acts|done| |by rewrite length_insert|eauto]. intros f' H.
    destruct (decide (f = f')) as [->|Hne]; [by apply list_lookup_insert_eq|]. by rewrite list_lookup_insert_ne.
Qed.

(** The loop spawns a thread for a call it has accepted, with a flag no other thread has. *)
Lemma spawn_thread_ok w child active : McpInv w -> spawned w !! child = None -> child <> 0 ->
  (Active_cancelled active < length (flags w))%nat -> (forall t, ~ owns t (Active_cancelled active) w) ->
  calls w !! key to_string (Active_id active) = Some (Active_cancelled active) ->
  let w' := set_spawned w (<[child := (active, false)]> (spawned w)) in McpInv w' /\ mcp_guar 0 w w'.
Proof.
  intros Hi Hc Hnz Hf Hno Hk w'.
  assert (Hown : forall t f, owns t f w' -> t = child /\ f = Active_cancelled active \/ owns t f w).
  { intros t f (a & b & Ha & Hfa). cbn in Ha. apply lookup_insert_Some in Ha as [[<- [= <- <-]]|[_ Ha]]; [by left|].
    right. by exists a, b. }
  split.
  - split; cbn; try apply Hi.
    + intros t a b [[<- [= <- <-]]|[_ H]]%lookup_insert_Some; [done|by eapply (inv_spawned _ Hi)].
    + intros t t' f [[-> ->]|H1]%Hown [[-> H]|H2]%Hown; try done.
      * by destruct (Hno t').
      * subst f. by destruct (Hno t).
      * by eapply (inv_owner _ Hi).
    + intros t a [[<- [= <-]]|[_ H]]%lookup_insert_Some; [done|by apply (inv_waiting _ Hi t)].
    + intros t k H. destruct (inv_freed _ Hi _ _ H) as [a Ha]. exists a. rewrite lookup_insert_ne; [done|]. intros ->. by rewrite Hc in Ha.
    + intros t a [[<- [=]]|[_ H]]%lookup_insert_Some. by apply (inv_begun _ Hi).
    + rewrite lookup_insert_ne by done. apply Hi.
  - split; cbn; auto; [apply none_acts| |done]. intros t a b H. exists b. rewrite lookup_insert_ne; [done|].
    intros ->. by rewrite Hc in H.
Qed.

Lemma begin_ok t w active : McpInv w -> spawned w !! t = Some (active, false) ->
  let w' := with_events (set_spawned w (<[t := (active, true)]> (spawned w))) [Begun t (Active_cancelled active)] in
  McpInv w' /\ mcp_guar t w w' /\ going_in (events w') t.
Proof.
  intros Hi Ht w'.
  assert (Hown : forall t' f, owns t' f w' -> owns t' f w).
  { intros t' f (a & b & Ha & Hfa). cbn in Ha. apply lookup_insert_Some in Ha as [[<- [= <- <-]]|[_ Ha]].
    - by exists active, false.
    - by exists a, b. }
  assert (Hgo : going_in (events w) t).
  { intros k H. destruct (inv_freed _ Hi _ _ H) as [a Ha]. by rewrite Ht in Ha. }
  split; [|split].
  - split; cbn; try apply Hi.
    + apply valid_snoc. split; [apply Hi|]. split; [by intros t' [= <-]|done].
    + rewrite open_calls_snoc. apply Hi.
    + rewrite phase_of_snoc. apply Hi.
    + intros f' [H|[t' H]]%cancelled_snoc; [by apply Hi|done].
    + intros t' a b [[<- [= <- <-]]|[_ H]]%lookup_insert_Some; by eapply (inv_spawned _ Hi).
    + intros t1 t2 f H1%Hown H2%Hown. by eapply (inv_owner _ Hi).
    + intros t' a [[<- [=]]|[_ H]]%lookup_insert_Some. by apply (inv_waiting _ Hi t').
    + intros t' k [H|H]%freed_snoc; [|done]. destruct (inv_freed _ Hi _ _ H) as [a Ha]. exists a.
      rewrite lookup_insert_ne; [done|]. intros ->. by rewrite Ht in Ha.
    + intros t' a [[<- [= <-]]|[_ H]]%lookup_insert_Some; [apply elem_of_app; right; by left|by apply elem_snoc, (inv_begun _ Hi)].
    + rewrite lookup_insert_ne; [apply Hi|]. intros ->. by rewrite (inv_main _ Hi) in Ht.
  - split; cbn; auto; [by apply snoc_acts|by rewrite last_received_snoc| |].
    + intros t' a b H. destruct (decide (t' = t)) as [->|Hne].
      * rewrite Ht in H. injection H as <- <-. exists true. by rewrite lookup_insert_eq.
      * exists b. by rewrite lookup_insert_ne.
    + intros Hne t' H. rewrite lookup_insert_ne; [done|]. intros ->. by rewrite Ht in H.
  - by intros k [H%Hgo|H]%freed_snoc.
Qed.

(** What is recorded was delivered and not cancelled. *)
Lemma complete_ok t w s session pending : McpInv w -> going_in (events w) t -> flags w !! Handle_cancelled session = Some false ->
  delivered_in (events w) t session pending ->
  let w' := with_events (set_store w s) [Completed t session pending] in McpInv w' /\ mcp_guar t w w'.
Proof.
  intros Hi Hgo Hf Hd w'. split.
  - split; cbn; try apply Hi.
    + apply valid_snoc. split; [apply Hi|]. split; [by intros t' [= <-]|]. split; [|done]. intros Hc. apply (inv_flags _ Hi) in Hc. congruence.
    + rewrite open_calls_snoc. apply Hi.
    + rewrite phase_of_snoc. apply Hi.
    + intros f' [H|[t' H]]%cancelled_snoc; [by apply Hi|done].
    + intros t' k [H|H]%freed_snoc; [by apply (inv_freed _ Hi t' k)|done].
    + intros t' active H. by apply elem_snoc, (inv_begun _ Hi).
  - split; cbn; auto; [by apply snoc_acts|by rewrite last_received_snoc|eauto].
Qed.

(** ** What a thread knows *)

Definition unlocked t w : Prop := calls_lock w <> Some t.
Definition locked t w : Prop := calls_lock w = Some t.
(** It runs the call [active], which keeps its place. *)
Definition mine t (active : Active) w : Prop :=
  going_in (events w) t /\ spawned w !! t = Some (active, true) /\
  calls w !! key to_string (Active_id active) = Some (Active_cancelled active).
(** It did work for the call of the flag. *)
Definition worked t (outcome : McpOutcome) f w : Prop :=
  exists before work, Worked t before work (Ok outcome) ∈ events w /\ Handle_cancelled before = f.
(** The reply answers work that it did. *)
Definition answers t f (reply : option CallReply) w : Prop :=
  forall value session pending, reply = Some (mkCallReply value (Some (mkDeliveryCompletion session pending))) ->
    Handle_cancelled session = f /\ exists outcome id,
      worked t outcome f w /\ pending_of outcome = Some pending /\ value = tool_result to_string id (outcome_json outcome).

Definition calm t (P : server -> Prop) : Prop := stables t P /\ forall w w', idle t w w' -> P w -> P w'.
(** As long as it is so, the thread may act. *)
Definition live t (P : server -> Prop) : Prop := calm t P /\ forall w, McpInv w -> P w -> going_in (events w) t.
(** What a history tells is never lost. *)
Definition recorded (P : list event -> Prop) : Prop := forall h new, P h -> P (h ++ new).

Lemma recorded_calm t P : recorded P -> calm t (fun w => P (events w)).
Proof.
  intros HP. split.
  - intros t' w w' _ _ Hg H. destruct (guar_events _ _ _ Hg) as (new & -> & _). by apply HP.
  - intros w w' Hw H. destruct (idle_history _ _ _ Hw) as (_ & _ & _ & _ & _ & _ & new & -> & _). by apply HP.
Qed.

Lemma calm_and t P Q : calm t P -> calm t Q -> calm t (fun w => P w /\ Q w).
Proof. intros [H1 H2] [H3 H4]. split; [by apply stable_and|]. intros w w' Hw [HP HQ]. eauto. Qed.
Lemma calm_all t X (P : X -> server -> Prop) : (forall x, calm t (P x)) -> calm t (fun w => forall x, P x w).
Proof.
  intros H. split.
  - intros t' w w' Ht Hi Hg HP x. by eapply (proj1 (H x)).
  - intros w w' Hw HP x. by eapply (proj2 (H x)).
Qed.
Lemma calm_imp t (X : Prop) P : calm t P -> calm t (fun w => X -> P w).
Proof. intros [H1 H2]. split; [intros t' w w' Ht Hi Hg HP x; eapply H1; eauto|intros w w' Hw HP x; eauto]. Qed.
Lemma calm_const t (X : Prop) : calm t (fun _ => X).
Proof. by split; [intros t' w w'|]. Qed.

Lemma live_calm t P : live t P -> calm t P.
Proof. by intros [? _]. Qed.
Lemma live_and t P Q : live t P -> calm t Q -> live t (fun w => P w /\ Q w).
Proof. intros [H1 H2] HQ. split; [by apply calm_and|]. intros w Hi [HP _]. by apply H2. Qed.
Lemma live_main P : calm 0 P -> live 0 P.
Proof. intros HP. split; [done|]. intros w Hi _. by apply main_going. Qed.

Definition going t w : Prop := going_in (events w) t.
Lemma going_calm t : calm t (going t).
Proof.
  split; unfold going.
  - intros t' w w' Ht Hi Hg H k. destruct (guar_events _ _ _ Hg) as (new & -> & Hnew).
    intros [Hin|Hin]%elem_of_app; [by apply (H k)|]. destruct Ht. symmetry. by apply (Hnew _ _ Hin).
  - intros w w' Hw H k. destruct (idle_history _ _ _ Hw) as (_ & _ & _ & _ & _ & Hf & _). rewrite Hf. apply H.
Qed.

Lemma unlocked_calm t : calm t (unlocked t).
Proof.
  split; unfold unlocked.
  - intros t' w w' Ht Hi Hg H Hl. apply H. by apply (guar_lock _ _ _ Hg).
  - intros w w' Hw. by rewrite (idle_lock _ _ _ Hw).
Qed.
Lemma locked_calm t : calm t (locked t).
Proof.
  split; unfold locked.
  - intros t' w w' Ht Hi Hg H. by apply (guar_lock _ _ _ Hg).
  - intros w w' Hw. by rewrite (idle_lock _ _ _ Hw).
Qed.
Lemma mine_calm t active : calm t (mine t active).
Proof.
  unfold mine. apply calm_and; [apply going_calm|]. split.
  - intros t' w w' Ht Hi Hg [H1 H2]. destruct (guar_spawned _ _ _ Hg _ _ _ H1) as (b & H1' & Hb). split.
    + by rewrite H1', Hb.
    + destruct (guar_kept _ _ _ Hg _ _ H2) as [|Ho]; [done|]. destruct Ht.
      eapply (inv_owner _ Hi); [exact Ho|by exists active, true].
  - intros w w' Hw. by rewrite (idle_spawned _ _ _ Hw), (idle_calls _ _ _ Hw).
Qed.
Lemma mine_live t active : live t (mine t active).
Proof. split; [apply mine_calm|]. by intros w _ [? _]. Qed.
Lemma worked_calm t outcome f : calm t (worked t outcome f).
Proof.
  apply (recorded_calm t (fun h => exists before work, Worked t before work (Ok outcome) ∈ h /\ Handle_cancelled before = f)).
  intros h new (before & work & H & Hf). exists before, work. rewrite elem_of_app. auto.
Qed.
Lemma answers_calm t f reply : calm t (answers t f reply).
Proof.
  split.
  - intros t' w w' Ht Hi Hg H value session pending E. destruct (H _ _ _ E) as (Hf & outcome & id & Hw & Hp & Hv).
    split; [done|]. exists outcome, id. split; [|done]. by eapply (proj1 (worked_calm t outcome f)).
  - intros w w' Hw H value session pending E. destruct (H _ _ _ E) as (Hf & outcome & id & Hd & Hp & Hv).
    split; [done|]. exists outcome, id. split; [|done]. by eapply (proj2 (worked_calm t outcome f)).
Qed.
Hint Resolve unlocked_calm locked_calm mine_calm worked_calm answers_calm calm_and calm_const : calm.

(** ** Operations *)

Lemma mcp_step_ok t P op (Q : mcp_answer op -> server -> Prop) :
  (forall c w x w', McpInv w -> P w -> mcp_perform (S := S) t c op w = Some (w', x) ->
     (McpInv w' /\ mcp_guar t w w') /\ keeps_input w w' /\ Q x w') ->
  (forall x, stables t (Q x)) -> oks t keeps_input P (call op) Q.
Proof.
  intros H HQ. apply ok_call; [|done]. intros w x w' Hi HP [c Hc]. destruct (H c w x w' Hi HP Hc) as ([? ?] & ? & ?). done.
Qed.

(** Operations that leave alone what the threads rely on *)
Definition is_quiet (op : McpOp (D := D)) : bool :=
  match op with
  | Op_Write _ | Op_Client | Op_SetClient _ | Op_Session | Op_Adopt _ | Op_CallsGet _ | Op_CallsLen | Op_Load _
  | Op_Refresh _ | Op_Warn _ | Op_Work _ _ | Op_Unread _ | Op_Elsewhere _ => true
  | _ => false
  end.

Lemma idle_silent t w w' : calls w' = calls w -> flags w' = flags w -> calls_lock w' = calls_lock w ->
  spawned w' = spawned w -> phase w' = phase w -> events w' = events w -> idle t w w'.
Proof. by split; [..|left]. Qed.
Lemma idle_event t w w' e : calls w' = calls w -> flags w' = flags w -> calls_lock w' = calls_lock w ->
  spawned w' = spawned w -> phase w' = phase w -> events w' = events w ++ [e] -> plain e ->
  (forall t', acts e = Some t' -> t' = t /\ going_in (events w) t) -> idle t w w'.
Proof. intros. split; try done. right. by exists e. Qed.

Lemma quiet_idle t c op w x w' : is_quiet op = true -> going_in (events w) t ->
  mcp_perform (S := S) t c op w = Some (w', x) -> idle t w w' /\ keeps_input w w'.
Proof.
  destruct op; try discriminate; intros _ Hgo; cbn -[unread_op]; intros H;
    try (injection H as <- <-; by split; [apply idle_silent|]).
  - destruct (Choice_failed c); injection H as <- <-; (split; [eapply idle_event; try done; by intros t' [= <-]|done]).
  - destruct (flags w !! flag); [|done]. injection H as <- <-. by split; [apply idle_silent|].
  - injection H as <- <-. split; [|done]. eapply idle_event; try done. by intros t' [= <-].
  - destruct (@unread_op _ _ _ _ _ _ _) as [after r]. injection H as <- <-. by split; [apply idle_silent|].
Qed.

(** Such an operation, and what is learned from it *)
Lemma learn_ok t P op (Q : mcp_answer op -> server -> Prop) : live t P -> is_quiet op = true ->
  (forall c w x w', McpInv w -> P w -> mcp_perform (S := S) t c op w = Some (w', x) -> Q x w') ->
  (forall x, stables t (Q x)) -> oks t keeps_input P (call op) (fun x w => P w /\ Q x w).
Proof.
  intros [[HP1 HP2] Hgo] Hq HQ Hs. apply mcp_step_ok.
  - intros c w x w' Hi Hp Hc. destruct (quiet_idle _ _ _ _ _ _ Hq (Hgo w Hi Hp) Hc) as [Hw Hin]. split; [|split; [done|]].
    + by apply idle_ok.
    + split; [by eapply HP2|by eapply HQ].
  - intros x. by apply stable_and.
Qed.
Lemma quiet_ok t P op : live t P -> is_quiet op = true -> oks t keeps_input P (call op) (fun _ => P).
Proof.
  intros HP Hq. eapply ok_post; [apply (learn_ok t P op (fun _ _ => True)); try done|by intros x w _ [? _]].
Qed.
(** Looking at the phase changes nothing. *)
Lemma phase_ok t P Q : calm t P -> (forall p, stables t (Q p)) -> (forall w, P w -> Q (phase w) w) ->
  oks t keeps_input P (call (Op_Phase (fun p => p))) (fun p w => P w /\ Q p w).
Proof.
  intros [HP1 HP2] Hs HQ. apply mcp_step_ok; [|intros x; by apply stable_and].
  intros c w x w' Hi Hp Hc. cbn in Hc. rewrite bool_decide_eq_true_2 in Hc by done. injection Hc as <- <-.
  assert (Hw : idle t w (with_events (set_phase w (phase w)) [])).
  { apply idle_silent; try done. cbn. by rewrite app_nil_r. }
  split; [by apply idle_ok|]. split; [done|]. split; [by eapply HP2|].
  replace (with_events _ _) with w by (destruct w; unfold with_events, set_phase; cbn; by rewrite app_nil_r).
  by apply HQ.
Qed.

(** ** Programs *)

Lemma value_ok {A} t P (a : A) (Q : A -> server -> Prop) : (forall w, P w -> Q a w) -> oks t keeps_input P (Ret a) Q.
Proof. intros H w _. apply H. Qed.
Hint Resolve value_ok : calm.

Lemma recorded_worked t outcome f : recorded (fun h => exists before work, Worked (S := S) t before work (Ok outcome) ∈ h /\ Handle_cancelled before = f).
Proof. intros h new (before & work & H & Hf). exists before, work. rewrite elem_of_app. auto. Qed.

Lemma refreshed_ok t P session : live t P -> oks t keeps_input P (refreshed session) (fun _ => P).
Proof.
  intros HP. unfold refreshed. eapply ok_try; [by apply quiet_ok| |done]. intros [report|]; [|by apply value_ok].
  eapply ok_bind; [by apply quiet_ok|]. intros u. by apply value_ok.
Qed.

Lemma around_ok t P session read work : live t P ->
  oks t keeps_input P (around session read work) (fun done w => P w /\ Handle_cancelled done.1 = Handle_cancelled session /\
    forall outcome, done.2 = Ok outcome -> worked t outcome (Handle_cancelled session) w).
Proof.
  intros HP. unfold around. eapply (ok_bind _ _ _ _ _ _ _ _ (fun _ => P)).
  { destruct read; [by apply refreshed_ok|by apply value_ok]. }
  intros [u|y]; [|by apply value_ok]. destruct work as [work|y]; [|by apply value_ok].
  eapply (ok_bind _ _ _ _ _ _ _ _ (fun x w => P w /\ forall outcome, x.2 = Ok outcome -> worked t outcome (Handle_cancelled session) w)).
  { apply learn_ok; [done..| |].
    - intros c w x w' _ _ Hc. cbn in Hc. injection Hc as <- <-. cbn. intros outcome Ho. exists session, work.
      rewrite Ho. split; [|done]. apply elem_of_app. right. by left.
    - intros x. apply calm_all. intros outcome. apply calm_imp, worked_calm. }
  intros [joined [outcome|y]]; [|by apply value_ok; cbn; intros w [? _]]. cbn [fst snd].
  set (K := fun w => P w /\ worked t outcome (Handle_cancelled session) w).
  assert (HK : live t K) by (apply live_and; [done|apply worked_calm]).
  eapply (ok_bind _ _ _ _ _ _ _ _ (fun _ => K)).
  { destruct read; [apply value_ok|eapply ok_pre; [by apply refreshed_ok|]]; intros w; intros; destruct_and?; split; auto. }
  intros [u'|y]; apply value_ok; intros w [Hw Hk]; (split; [done|]; split; [done|]); intros o [= <-]. done.
Qed.

Lemma dispatch_ok t P session name input client : live t P ->
  oks t keeps_input P (dispatch decode_args session name input client)
    (fun done w => P w /\ Handle_cancelled done.1 = Handle_cancelled session /\
      forall outcome, done.2 = Ok outcome -> worked t outcome (Handle_cancelled session) w).
Proof.
  intros HP. unfold dispatch. destruct (tool_named name) as [tool|]; [|by apply value_ok].
  destruct (decode_args tool input) as [arguments|y]; [|by apply value_ok].
  eapply ok_bind; [by apply around_ok|]. intros [after r]. apply value_ok. intros w (Hw & Hf & Ho). split; [done|]. split; [done|].
  intros outcome. destruct r; [|done]. intros [= <-]. by apply Ho.
Qed.

(** What is still to be recorded is answered as it is. *)
Lemma rendered_ok t P outcome session : live t P ->
  oks t keeps_input P (rendered_outcome_using outcome (call (Op_Unread session)))
    (fun value w => P w /\ (is_Some (pending_of outcome) -> value = outcome_json outcome)).
Proof.
  intros HP. unfold rendered_outcome_using. destruct (bool_decide _ || _) eqn:Hb; [by apply value_ok|].
  assert (Hnone : pending_of outcome = None).
  { apply orb_false_iff in Hb as [H1 H2]. apply bool_decide_eq_false_1 in H1. unfold pending_of.
    destruct (outcome_pending_read outcome); [by destruct H1; eexists|]. by destruct outcome. }
  rewrite Hnone. eapply ok_bind; [by apply quiet_ok|].
  intros [[count|]|y]; [destruct (outcome_json outcome)|destruct (outcome_json outcome)|destruct (outcome_json outcome)];
    apply value_ok; intros w Hw; (split; [done|]; by intros [? ?]).
Qed.

Lemma mcp_call_ok t P id params f : live t P ->
  oks t keeps_input P (mcp_call to_string decode_args display id params f) (fun reply w => P w /\ answers t f reply w).
Proof.
  intros HP. unfold mcp_call.
  assert (Hplain : forall value w, P w -> P w /\ answers t f (Some (plain_reply value)) w) by (intros value w Hw; by split).
  destruct (decode_call params) as [request|]; [|by apply value_ok].
  eapply ok_bind; [by apply quiet_ok|]. intros [a tn]. eapply ok_bind; [by apply quiet_ok|]. intros client.
  eapply ok_bind; [by apply dispatch_ok|]. intros [session r]. cbn [fst snd Handle_cancelled].
  set (K := fun w => P w /\ Handle_cancelled session = f /\ forall outcome, r = Ok outcome -> worked t outcome f w).
  assert (HK : live t K).
  { apply live_and; [done|]. apply calm_and; [apply calm_const|]. apply calm_all. intros outcome. apply calm_imp, worked_calm. }
  eapply (ok_bind _ _ _ _ _ _ _ _ (fun _ => K)); [by apply quiet_ok|]. intros [|].
  { apply value_ok. intros w [Hw _]. by split. }
  eapply (ok_bind _ _ _ _ _ _ _ _ (fun _ => K)); [destruct (_ && _); [by apply quiet_ok|by apply value_ok]|]. intros u.
  destruct r as [outcome|[|problem|problem]]; [|apply value_ok; intros w [Hw _]; exact (Hplain _ w Hw) ..].
  eapply ok_bind; [by apply rendered_ok|]. intros value. apply value_ok. intros w [[Hw [Hs Ho]] Hv]. split; [done|].
  intros value' session' pending [= <- Hp]. destruct (pending_of outcome) as [p|] eqn:Hpo; [|done]. injection Hp as <- <-.
  split; [done|]. exists outcome, id. split; [by apply Ho|]. split; [done|]. f_equal. apply Hv. by eexists.
Qed.

(** An answer that was sent as it is follows what it answers. *)
Lemma send_ok t P value (Q : list event -> Prop) : live t P -> recorded Q ->
  (forall w, P w -> N.of_nat (length (to_vec to_string value)) <= MAX_CONTROL_BYTES ->
     Q (events w ++ [Sent t (to_vec to_string value)])) ->
  oks t keeps_input P (send to_string value) (fun r w => P w /\ (r = Ok ResponseDelivery_Original -> Q (events w))).
Proof.
  intros HP HQ Hsent. unfold send. destruct (N.ltb_spec MAX_CONTROL_BYTES (N.of_nat (length (to_vec to_string value)))) as [Hlt|Hle].
  - eapply ok_try; [by apply quiet_ok|intros u; by apply value_ok|done].
  - eapply (ok_try _ _ _ _ _ _ _ _ (fun r w => P w /\ (r = Ok tt -> Q (events w)))).
    + apply learn_ok; [done..| |].
      * intros c w x w' _ Hw Hc. cbn in Hc. destruct (Choice_failed c); injection Hc as <- <-; [done|]. intros _. exact (Hsent w Hw Hle).
      * intros x. apply calm_imp, (recorded_calm t Q HQ).
    + intros []. apply value_ok. intros w [Hw Hq]. split; [done|]. intros _. by apply Hq.
    + by intros y w _ [Hw _].
Qed.

Lemma send_plain t P value : live t P -> oks t keeps_input P (send to_string value) (fun _ => P).
Proof. intros HP. eapply ok_post; [by apply (send_ok t P value (fun _ => True))|by intros r w _ [? _]]. Qed.

(** ** The calls *)

Lemma calls_lock_ok t P : calm t P -> (forall w, P w -> P (set_lock w (Some t))) ->
  oks t keeps_input P (call Op_LockCalls) (fun _ w => P w /\ locked t w).
Proof.
  intros HP Hsame. apply mcp_step_ok.
  - intros c w x w' Hi Hw Hc. cbn in Hc. destruct (calls_lock w) eqn:Hl; [done|]. injection Hc as <- <-.
    split; [by apply take_calls|]. split; [done|]. split; [by apply Hsame|done].
  - intros x. apply calm_and; [done|apply locked_calm].
Qed.
Lemma calls_unlock_ok t P : calm t P -> (forall w, P w -> P (set_lock w None)) ->
  oks t keeps_input (fun w => P w /\ locked t w) (call Op_UnlockCalls) (fun _ w => P w /\ unlocked t w).
Proof.
  intros HP Hsame. apply mcp_step_ok.
  - intros c w x w' Hi [Hw Hl] Hc. cbn in Hc. injection Hc as <- <-.
    split; [by apply give_calls|]. split; [done|]. split; [by apply Hsame|done].
  - intros x. apply calm_and; [done|apply unlocked_calm].
Qed.

(** Taking the lock or giving it up changes nothing else. *)
Lemma mine_lock t active w holder : mine t active w -> mine t active (set_lock w holder).
Proof. done. Qed.

(** The flag of a call is not set while its thread holds the lock and has seen that it is not. *)
Definition unset t f w : Prop := locked t w -> flags w !! f = Some false.
Lemma unset_stable t f : stables t (unset t f).
Proof.
  intros t' w w' Ht Hi Hg H Hl. apply (guar_lock _ _ _ Hg) in Hl; [|done].
  destruct (guar_unset _ _ _ Hg f (H Hl)) as [|Hl']; [done|]. unfold locked in Hl. congruence.
Qed.

(** What the answer must have done for its reading to be recorded *)
Definition recordable t f (completion : option DeliveryCompletion) h : Prop :=
  forall session pending, completion = Some (mkDeliveryCompletion session pending) ->
    Handle_cancelled session = f /\ delivered_in h t session pending.
Lemma recordable_recorded t f completion : recorded (recordable t f completion).
Proof. intros h new H session pending E. destruct (H _ _ E). split; [done|]. by apply delivered_grow. Qed.

Lemma delivered_sent t f value completion w : answers t f (Some (mkCallReply value completion)) w ->
  N.of_nat (length (to_vec to_string value)) <= MAX_CONTROL_BYTES ->
  recordable t f completion (events w ++ [Sent t (to_vec to_string value)]).
Proof.
  intros Ha Hle session pending ->. destruct (Ha _ _ _ eq_refl) as (Hf & outcome & id & (before & work & Hin & Hb) & Hp & ->).
  split; [done|]. apply list_elem_of_split in Hin as (h1 & h2 & Hh). exists h1, h2, [], before, work, outcome, id.
  rewrite Hh, <- app_assoc. cbn. split; [done|]. split; [done|]. split; [congruence|done].
Qed.

Lemma admits_inv pending delivered stopped : PendingDelivery_admits pending delivered stopped = true ->
  delivered = ResponseDelivery_Original /\ stopped = false.
Proof. by destruct pending, delivered, stopped. Qed.

Lemma complete_call_ok t active completion delivered :
  let f := Active_cancelled active in
  let known w := mine t active w /\ (delivered = ResponseDelivery_Original -> recordable t f completion (events w)) in
  oks t keeps_input (fun w => known w /\ locked t w)
    match completion with
    | None => prog_ok tt
    | Some completion =>
        let~ stopped := call (Op_Load f) in
        if PendingDelivery_admits (DeliveryCompletion_pending completion) delivered stopped
        then prog_err McpError_Ops (call (Op_Complete (DeliveryCompletion_session completion) (DeliveryCompletion_pending completion)))
        else prog_ok tt
    end (fun _ w => mine t active w /\ locked t w).
Proof.
  intros f known. destruct completion as [[session pending]|]; [|by apply value_ok; intros w [[? _] ?]].
  set (K := fun w => known w /\ locked t w).
  assert (HK : live t K).
  { apply live_and; [|apply locked_calm]. apply live_and; [apply mine_live|]. apply calm_imp, (recorded_calm t _ (recordable_recorded t f _)). }
  eapply (ok_bind _ _ _ _ _ _ _ _ (fun stopped w => K w /\ (stopped = false -> unset t f w))).
  { apply learn_ok; [done..| |].
    - intros c w x w' _ _ Hc. cbn in Hc. destruct (flags w !! f) as [v|] eqn:Hv; [|done]. injection Hc as <- <-. intros ->. by intros _.
    - intros x t' w w' Ht Hi Hg H E. eapply (unset_stable t f); eauto. }
  intros stopped. cbn [DeliveryCompletion_pending DeliveryCompletion_session].
  destruct (PendingDelivery_admits pending delivered stopped) eqn:Ha; [|by apply value_ok; intros w [[[? _] ?] _]].
  apply admits_inv in Ha as [-> ->]. apply ok_err, mcp_step_ok; [|intros x; apply calm_and; [apply mine_calm|apply locked_calm]].
  intros c w x w' Hi [[[Hm Hr] Hl] Hu] Hc. destruct (Hr eq_refl _ _ eq_refl) as [Hf Hd]. cbn -[complete] in Hc.
  destruct (@complete _ _ _ _ _ _ _ _) as [after r]. injection Hc as <- <-.
  split; [apply complete_ok; [done|apply Hm| |done]; rewrite Hf; by apply Hu|]. split; [done|]. split; [|exact Hl].
  split; [|apply Hm]. by intros k [H%(proj1 Hm)|H]%freed_snoc.
Qed.

Lemma deliver_call_ok t active reply :
  let f := Active_cancelled active in
  oks t keeps_input (fun w => (mine t active w /\ unlocked t w) /\ answers t f (Some reply) w)
    (deliver_call to_string reply f) (fun _ w => mine t active w /\ unlocked t w).
Proof.
  intros f. unfold deliver_call. set (K := fun w => (mine t active w /\ unlocked t w) /\ answers t f (Some reply) w).
  assert (HK : live t K) by (apply live_and; [apply live_and; [apply mine_live|]|]; auto with calm).
  eapply (ok_bind _ _ _ _ _ _ _ _ (fun _ => K)); [by apply quiet_ok|]. intros [|]; [by apply value_ok; intros w [? _]|].
  destruct reply as [value completion]. cbn [CallReply_value CallReply_completion].
  eapply (ok_try _ _ _ _ _ _ _ _ (fun r w => K w /\ (r = Ok ResponseDelivery_Original -> recordable t f completion (events w)))).
  - apply ok_err. eapply ok_post; [apply (send_ok t K value (recordable t f completion) HK (recordable_recorded _ _ _))|].
    + intros w [_ Ha] Hle. by apply delivered_sent.
    + intros r w _ [Hk Hr]. split; [done|]. destruct r; [|done]. intros [= ->]. by apply Hr.
  - intros delivered.
    set (K1 := fun w => mine t active w /\ (delivered = ResponseDelivery_Original -> recordable t f completion (events w))).
    assert (HK1 : calm t K1).
    { apply calm_and; [apply mine_calm|]. apply calm_imp, (recorded_calm t _ (recordable_recorded t f _)). }
    eapply (ok_bind _ _ _ _ _ _ _ _ (fun _ w => K1 w /\ locked t w)).
    { eapply ok_pre; [by apply calls_lock_ok|]. intros w _ [[[Hm _] _] Hr]. split; [done|]. intros ->. by apply Hr. }
    intros u. eapply ok_bind; [apply complete_call_ok|]. intros r.
    eapply (ok_bind _ _ _ _ _ _ _ _ (fun _ w => mine t active w /\ unlocked t w)); [by apply calls_unlock_ok; [apply mine_calm|]|].
    intros u'. by apply value_ok.
  - intros y w _ [[? _] _]. done.
Qed.

Lemma call_thread_ok t : oks t keeps_input (unlocked t) (call_thread to_string decode_args display) (fun _ => unlocked t).
Proof.
  unfold call_thread. eapply (ok_bind _ _ _ _ _ _ _ _ (fun active w => mine t active w /\ unlocked t w)).
  { apply mcp_step_ok; [|intros x; by apply calm_and; auto with calm].
    intros c w x w' Hi Hu Hc. cbn in Hc. destruct (spawned w !! t) as [[active []]|] eqn:Ht; try done. injection Hc as <- <-.
    destruct (begin_ok t w active Hi Ht) as (H1 & H2 & H3). split; [done|]. split; [done|]. split; [|done]. split; [exact H3|].
    split; cbn; [by rewrite lookup_insert_eq|]. by apply (inv_waiting _ Hi t). }
  intros active. set (K := fun w => mine t active w /\ unlocked t w).
  assert (HK : live t K) by (apply live_and; [apply mine_live|auto with calm]).
  eapply ok_bind; [by apply mcp_call_ok|]. intros reply.
  eapply (ok_bind _ _ _ _ _ _ _ _ (fun _ => K)).
  { destruct reply as [reply|]; [|by apply value_ok; intros w [? _]].
    eapply ok_bind; [apply deliver_call_ok|]. intros r. by apply value_ok. }
  intros u. eapply (ok_bind _ _ _ _ _ _ _ _ (fun _ w => mine t active w /\ locked t w)).
  { eapply ok_pre; [by apply calls_lock_ok; [apply mine_calm|]|]. by intros w _ [? _]. }
  intros u'. eapply (ok_bind _ _ _ _ _ _ _ _ (fun _ w => True /\ locked t w)).
  { apply mcp_step_ok; [|intros x; apply calm_and; auto with calm].
    intros c w x w' Hi [[Hgo [Ht Hk]] Hl] Hc. cbn in Hc. injection Hc as <- <-. split; [by apply free_ok|]. done. }
  intros u''. eapply ok_post; [by apply calls_unlock_ok; [apply calm_const|]|]. by intros x w _ [_ ?].
Qed.

Lemma mcp_elsewhere_ok t s : oks t keeps_input (unlocked t) (Mcp.elsewhere s) (fun _ => unlocked t).
Proof.
  apply mcp_step_ok; [|intros x; apply unlocked_calm]. intros c w x w' Hi Hu Hc. cbn in Hc. injection Hc as <- <-.
  split; [|done]. apply idle_ok; [done|by apply idle_silent|done].
Qed.

(** ** The loop *)

(** The flag belongs to no thread yet. *)
Definition fresh f w : Prop := (f < length (flags w))%nat /\ forall t, ~ owns t f w.
(** What the loop has let in *)
Definition entered f k w : Prop := fresh f w /\ calls w !! k = Some f.
Definition is_ready w : Prop := phase w = Phase_Ready.

Lemma fresh_calm f : calm 0 (fresh f).
Proof.
  split.
  - intros t' w w' Ht Hi Hg [Hf Hno]. split; [pose proof (guar_length _ _ _ Hg); lia|].
    intros t (active & begun & Ha & Hc). destruct (spawned w !! t) as [[a b]|] eqn:E.
    + destruct (guar_spawned _ _ _ Hg _ _ _ E) as (b' & Hb & _). rewrite Hb in Ha. injection Ha as -> _. apply (Hno t). by exists active, b.
    + by rewrite (guar_spawn _ _ _ Hg Ht t E) in Ha.
  - intros w w' Hw [Hf Hno]. unfold fresh. rewrite (idle_flags _ _ _ Hw). split; [done|]. intros t.
    rewrite (owns_same _ _ _ _ (idle_spawned _ _ _ Hw)). apply Hno.
Qed.
Lemma entered_calm f k : calm 0 (entered f k).
Proof.
  split.
  - intros t' w w' Ht Hi Hg [Hf Hk]. split; [by eapply (proj1 (fresh_calm f))|].
    destruct (guar_kept _ _ _ Hg _ _ Hk) as [|Ho]; [done|]. by destruct (proj2 Hf t').
  - intros w w' Hw [Hf Hk]. split; [by eapply (proj2 (fresh_calm f))|]. by rewrite (idle_calls _ _ _ Hw).
Qed.
Lemma ready_calm t : calm t is_ready.
Proof.
  split; unfold is_ready.
  - intros t' w w' _ _ Hg. apply (guar_ready _ _ _ Hg).
  - intros w w' Hw. by rewrite (idle_phase _ _ _ Hw).
Qed.
Hint Resolve fresh_calm entered_calm ready_calm : calm.

(** What is seen of the calls under the lock stays. *)
Lemma seen_calls (X : gmap string nat -> Prop) t : stables t (fun w => locked t w -> X (calls w)).
Proof.
  intros t' w w' Ht Hi Hg H Hl. apply (guar_lock _ _ _ Hg) in Hl; [|done].
  destruct (guar_calls _ _ _ Hg) as [->|Hl']; [by apply H|]. unfold locked in Hl. congruence.
Qed.

Lemma admit_call_ok id f :
  oks 0 keeps_input (fun w => (fresh f w /\ is_ready w) /\ unlocked 0 w) (admit_call to_string id f)
    (fun refusal w => (match refusal with None => entered f (key to_string id) w | Some _ => True end) /\ unlocked 0 w).
Proof.
  unfold admit_call. set (P := fun w => fresh f w /\ is_ready w). assert (HP : calm 0 P) by (unfold P; auto with calm).
  eapply (ok_bind _ _ _ _ _ _ _ _ (fun _ w => P w /\ locked 0 w)).
  { eapply ok_pre; [by apply calls_lock_ok|]. by intros w _ [? _]. }
  intros u. set (PL := fun w => P w /\ locked 0 w). assert (HPL : calm 0 PL) by (unfold PL; auto with calm).
  assert (HLPL : live 0 PL) by (by apply live_main).
  eapply (ok_bind _ _ _ _ _ _ _ _ (fun found w => PL w /\ (locked 0 w -> calls w !! key to_string id = found))).
  { apply learn_ok; [done..| |intros x; apply (seen_calls (fun m => m !! key to_string id = x))].
    intros c w x w' _ _ Hc. cbn in Hc. by injection Hc as <- <-. }
  intros found. set (R := fun (refusal : option string) w => match refusal with None => entered f (key to_string id) w | Some _ => True end).
  assert (HR : forall r, calm 0 (R r)) by (intros [|]; [apply calm_const|apply entered_calm]).
  eapply (ok_bind _ _ _ _ _ _ _ _ (fun r w => R r w /\ locked 0 w)).
  - destruct found as [g|]; [by apply value_ok; intros w [[_ ?] _]|].
    set (PN := fun w => PL w /\ (locked 0 w -> calls w !! key to_string id = None)).
    eapply (ok_bind _ _ _ _ _ _ _ _ (fun n w => PN w /\ (locked 0 w -> N.of_nat (size (calls w)) = n))).
    { apply mcp_step_ok.
      - intros c w x w' Hi Hp Hc. cbn in Hc. injection Hc as <- <-. split; [by apply idle_ok; [|apply idle_silent|]|]. by split.
      - intros x. apply stable_and; [|apply (seen_calls (fun m => N.of_nat (size m) = x))].
        apply stable_and; [apply HPL|apply (seen_calls (fun m => m !! key to_string id = None))]. }
    intros n. destruct (N.leb_spec MAX_CALLS n) as [|Hn]; [by apply value_ok; intros w [[[_ ?] _] _]|].
    eapply (ok_bind _ _ _ _ _ _ _ _ (fun _ w => entered f (key to_string id) w /\ locked 0 w)); [|by intros u'; apply value_ok].
    apply mcp_step_ok; [|intros x; apply calm_and; auto with calm].
    intros c w x w' Hi [[[[Hf Hr] Hl] Hk] Hs] Hc. cbn in Hc. injection Hc as <- <-.
    split; [apply accept_ok; [done|done|by apply Hk|by rewrite Hs|done|apply Hf]|]. split; [done|]. split; [|done].
    split; [done|]. cbn. by rewrite lookup_insert_eq.
  - intros r. eapply (ok_bind _ _ _ _ _ _ _ _ (fun _ w => R r w /\ unlocked 0 w)); [|by intros u'; apply value_ok].
    apply calls_unlock_ok; [done|]. by destruct r.
Qed.

(** The loop has heard a line, and nothing after it. *)
Definition heard line w : Prop := last_received (events w) = Some line.
Lemma heard_calm line : calm 0 (heard line).
Proof.
  split; unfold heard.
  - intros t' w w' Ht _ Hg. by rewrite (guar_received _ _ _ Hg Ht).
  - intros w w' Hw. destruct (idle_history _ _ _ Hw) as (_ & _ & _ & _ & Hr & _). by rewrite Hr.
Qed.
Hint Resolve heard_calm : calm.
Definition attentive line w : Prop := unlocked 0 w /\ heard line w.
Lemma attentive_calm line : calm 0 (attentive line).
Proof. unfold attentive. auto with calm. Qed.
Lemma attentive_live line : live 0 (attentive line).
Proof. apply live_main, attentive_calm. Qed.

(** The changes of the phase that leave it as it is *)
Lemma idle_phase_ok w : McpInv w -> McpInv (with_events (set_phase w (phase w)) []) /\ mcp_guar 0 w (with_events (set_phase w (phase w)) []).
Proof. intros Hi. apply idle_ok; [done| |done]. apply idle_silent; try done. cbn. by rewrite app_nil_r. Qed.

Lemma valid_initialize params : bool_decide (is_Some (option_bind _ _ value_as_str (value_get params "protocolVersion")))
    && match value_get params "capabilities" with Some value => is_object value | None => false end
    && match client_name params with Some value => Mcp.is_string value | None => false end = true ->
  exists protocol capabilities info name,
    value_get params "protocolVersion" = Some (Value_String protocol) /\
    value_get params "capabilities" = Some (Value_Object capabilities) /\
    value_get params "clientInfo" = Some info /\ value_get info "name" = Some (Value_String name).
Proof.
  unfold client_name. intros [[[protocol H1]%bool_decide_eq_true_1 H2]%andb_true_iff H3]%andb_true_iff.
  destruct (value_get params "protocolVersion") as [[]|]; try done. cbn in H1. injection H1 as ->.
  destruct (value_get params "capabilities") as [[]|]; try done.
  destruct (value_get params "clientInfo") as [info|]; [|done]. cbn in H3.
  destruct (value_get info "name") as [[]|] eqn:Hn; try done. do 4 eexists. split_and!; try done.
Qed.

Lemma mcp_initialize_ok id line request : parse from_slice line = Ok request ->
  Request_method request = "initialize"%string -> Request_id request = Some id ->
  oks 0 keeps_input (attentive line) (initialize to_lowercase version id (Request_params request)) (fun _ => unlocked 0).
Proof.
  intros Hparse Hm Hid. unfold initialize.
  match goal with |- context [if negb ?v || _ then Ret (mcp_error _ _ _) else _] => destruct v eqn:Hvalid end; cbn [negb orb].
  - apply valid_initialize in Hvalid as Hfields.
    eapply (ok_bind _ _ _ _ _ _ _ _ (fun _ => unlocked 0)).
    + apply mcp_step_ok; [|intros x; apply unlocked_calm]. intros c w x w' Hi [Hw Hline] Hc. cbn in Hc.
      injection Hc as <- <-. split; [|by split]. destruct (bool_decide (phase w = Phase_New)) eqn:Hp; cbn [negb].
      * apply bool_decide_eq_true_1 in Hp. rewrite Hp, bool_decide_eq_false_2 by done. apply (move_ok w _ _ line); try done.
        left. split_and!; try done. exists request. split; [done|]. split; [done|]. split; [by rewrite Hid; eexists|done].
      * rewrite bool_decide_eq_true_2 by done. by apply idle_phase_ok.
    + intros p. destruct (negb _); [by apply value_ok|]. eapply ok_bind; [apply quiet_ok; [apply live_main, unlocked_calm|done]|].
      intros u. by apply value_ok.
  - eapply (ok_bind _ _ _ _ _ _ _ _ (fun _ => unlocked 0)); [|intros p; by apply value_ok].
    apply mcp_step_ok; [|intros x; apply unlocked_calm]. intros c w x w' Hi [Hw _] Hc. cbn in Hc.
    injection Hc as <- <-. split; [|by split]. rewrite bool_decide_eq_true_2 by done. by apply idle_phase_ok.
Qed.

Lemma looked_ok t P : calm t P -> oks t keeps_input P (call (Op_Phase (fun p => p))) (fun p w => P w /\ (p = Phase_Ready -> is_ready w)).
Proof. intros HP. apply phase_ok; [done|intros p; apply calm_imp, ready_calm|]. by intros w _. Qed.

Lemma respond_ok id line request : parse from_slice line = Ok request -> Request_id request = Some id ->
  oks 0 keeps_input (attentive line)
    (respond to_lowercase schema version id (Request_method request) (Request_params request)) (fun _ => unlocked 0).
Proof.
  intros Hparse Hid. unfold respond. eapply ok_bind; [apply looked_ok, attentive_calm|]. intros p.
  eapply ok_pre; [|intros w _ [H _]; exact H].
  destruct (String.eqb_spec (Request_method request) "initialize") as [Hm|_]; [by apply mcp_initialize_ok|].
  repeat match goal with |- context [if ?b then _ else _] => destruct b end; by apply value_ok; intros w [? _].
Qed.

Lemma notification_ok line request : parse from_slice line = Ok request -> Request_id request = None ->
  oks 0 keeps_input (attentive line) (notification to_string (Request_method request) (Request_params request)) (fun _ => unlocked 0).
Proof.
  intros Hparse Hid. unfold notification. destruct (String.eqb_spec (Request_method request) "notifications/initialized") as [Hm|_].
  { eapply (ok_bind _ _ _ _ _ _ _ _ (fun _ => unlocked 0)); [|by intros u; apply value_ok].
    apply mcp_step_ok; [|intros x; apply unlocked_calm]. intros c w x w' Hi [Hw Hline] Hc. cbn in Hc.
    injection Hc as <- <-. split; [|by split]. destruct (bool_decide (phase w = Phase_Negotiated)) eqn:Hp.
    - apply bool_decide_eq_true_1 in Hp. rewrite Hp. rewrite bool_decide_eq_false_2 by done. apply (move_ok w _ _ line); try done.
      right. split_and!; try done. by exists request.
    - rewrite bool_decide_eq_true_2 by done. by apply idle_phase_ok. }
  destruct (String.eqb _ _); [|by apply value_ok; intros w [? _]]. set (params := Request_params request).
  - destruct (value_get params _) as [id|]; [|by apply value_ok; intros w [? _]].
    eapply (ok_bind _ _ _ _ _ _ _ _ (fun _ w => True /\ locked 0 w)).
    { eapply ok_pre; [by apply (calls_lock_ok 0 (fun _ => True)); [apply calm_const|]|done]. }
    intros u. set (L := fun w => True /\ locked 0 w). assert (HL : calm 0 L) by (unfold L; auto with calm).
    assert (HLL : live 0 L) by (by apply live_main).
    eapply (ok_bind _ _ _ _ _ _ _ _ (fun found w => L w /\ forall f, found = Some f -> (f < length (flags w))%nat)).
    { apply learn_ok; [done..| |].
      - intros c w x w' Hi _ Hc. cbn in Hc. injection Hc as <- <-. intros f. apply (inv_known _ Hi).
      - intros x t' w w' _ _ Hg H f E. pose proof (H f E). pose proof (guar_length _ _ _ Hg). lia. }
    intros found. eapply (ok_bind _ _ _ _ _ _ _ _ (fun _ => L)).
    + destruct found as [f|]; [|by apply value_ok; intros w [? _]]. apply mcp_step_ok; [|intros x; apply HL].
      intros c w x w' Hi [[_ Hl] Hf] Hc. cbn in Hc. injection Hc as <- <-. split; [apply set_flag_ok; auto|done].
    + intros u'. eapply ok_post; [by apply (calls_unlock_ok 0 (fun _ => True)); [apply calm_const|]|]. by intros x w _ [_ ?].
Qed.

Lemma serve_request_ok id line request : parse from_slice line = Ok request -> Request_id request = Some id ->
  oks 0 keeps_input (attentive line) (serve_request to_string to_lowercase schema version id request) (fun _ => unlocked 0).
Proof.
  intros Hparse Hid. unfold serve_request. set (U := unlocked 0). assert (HU : calm 0 U) by apply unlocked_calm.
  assert (HLU : live 0 U) by (by apply live_main). pose proof (attentive_calm line) as HA.
  eapply (ok_bind _ _ _ _ _ _ _ _ (fun ready w => attentive line w /\ (ready = true -> is_ready w))).
  { destruct (String.eqb _ _); [|by apply value_ok]. eapply ok_bind; [by apply looked_ok|]. intros p. apply value_ok.
    intros w [Hw Hp]. split; [done|]. intros H%bool_decide_eq_true_1. by apply Hp. }
  intros [|]; cbn [negb].
  - eapply (ok_bind _ _ _ _ _ _ _ _ (fun f w => (fresh f w /\ is_ready w) /\ U w)).
    { apply mcp_step_ok; [|intros x; unfold U; auto with calm; apply calm_and; auto with calm].
      intros c w x w' Hi [[Hw _] Hr] Hc. cbn in Hc. injection Hc as <- <-. split; [by apply new_flag_ok|]. split; [done|].
      split; [|done]. split; [|by apply Hr]. split; [cbn; rewrite length_app; cbn; lia|].
      intros t (active & begun & Ha & Hf). pose proof (inv_spawned _ Hi _ _ _ Ha). lia. }
    intros f. eapply ok_bind; [apply admit_call_ok|]. intros [message|].
    + eapply (ok_try _ _ _ _ _ _ _ _ (fun _ => U)); [|by intros d; apply value_ok|done].
      eapply ok_pre; [by apply send_plain|]. by intros w _ [_ ?].
    + eapply (ok_bind _ _ _ _ _ _ _ _ (fun _ => U)); [|by intros u; apply value_ok].
      apply mcp_step_ok; [|intros x; apply HU]. intros c w x w' Hi [[Hf Hk] Hw] Hc. cbn in Hc.
      destruct (spawned w !! Choice_child c) eqn:Hs; [done|]. destruct (N.eqb_spec (Choice_child c) 0); [done|]. injection Hc as <- <-.
      split; [by apply spawn_thread_ok; [..|apply Hf|apply Hf|]|done].
  - eapply (ok_bind _ _ _ _ _ _ _ _ (fun _ => U)); [eapply ok_pre; [by apply respond_ok|by intros w _ [? _]]|]. intros value.
    eapply (ok_try _ _ _ _ _ _ _ _ (fun _ => U)); [by apply send_plain|by intros d; apply value_ok|done].
Qed.

Lemma take_line_app limit l : let '(line, rest) := take_line limit l in l = line ++ rest.
Proof.
  revert limit. induction l as [|b l IH]; intros [|limit]; cbn; try done. destruct (b =? 10); [done|].
  specialize (IH limit). destruct (take_line limit l) as [line rest]. by rewrite IH.
Qed.
Lemma read_line_shorter l line rest : read_line l = (Some line, rest) -> (length rest < length l)%nat.
Proof.
  unfold read_line. pose proof (take_line_app (N.to_nat (MAX_CONTROL_BYTES + 1)) l) as H.
  destruct (take_line _ l) as [[|b line'] rest']; [done|]. intros [= _ <-]. rewrite H, length_app. cbn. lia.
Qed.

(** What the loop does, with as many rounds as there are bytes, and one *)
Definition remaining (X : Prop) (rounds : nat) w : Prop := X -> (length (input w) < rounds)%nat.
Lemma remaining_stable X rounds : stables 0 (remaining X rounds).
Proof. intros t' w w' Ht _ Hg H HX. rewrite (guar_input _ _ _ Hg Ht). by apply H. Qed.

Lemma remaining_frame {A} X rounds P (p : Prog mcp_answer A) Q : oks 0 keeps_input P p Q ->
  oks 0 (fun _ _ => True) (fun w => P w /\ remaining X rounds w) p (fun a w => Q a w /\ remaining X rounds w).
Proof.
  intros H. eapply ok_within; [|apply ok_frame; [apply remaining_stable| |exact H]]; [done|].
  intros w w' _ Hr Hg HX. rewrite Hg. by apply Hr.
Qed.

Lemma serve_io_ok X rounds :
  oks 0 (fun _ _ => True) (fun w => unlocked 0 w /\ remaining X rounds w)
    (serve_io to_string from_slice to_lowercase schema version rounds)
    (fun r w => unlocked 0 w /\ (X -> r <> Ok None)).
Proof.
  induction rounds as [|rounds IH]; cbn [serve_io].
  { intros w _ [Hw Hr]. split; [done|]. intros HX. by apply Nat.nlt_0_r in Hr. }
  set (U := unlocked 0). assert (HU : calm 0 U) by apply unlocked_calm. assert (HLU : live 0 U) by (by apply live_main).
  eapply (ok_try _ _ _ _ _ _ _ _ (fun r w => U w /\
    match r with Ok (Some line) => heard line w /\ remaining X rounds w | _ => True end)).
  - apply ok_call.
    + intros w x w' Hi [Hw Hr] [c Hc]. cbn -[read_line] in Hc.
      destruct (Choice_failed c); [injection Hc as <- <-; destruct (idle_ok 0 w w Hi) as [? ?]; [by apply idle_silent|done|done]|].
      destruct (read_line (input w)) as [[line|] rest] eqn:Hl; injection Hc as <- <-.
      * destruct (receive_ok w line rest Hi) as [Hi' Hg]. do 4 (split; [done|]). split.
        -- unfold heard. cbn. by rewrite last_received_snoc.
        -- intros HX. apply read_line_shorter in Hl. specialize (Hr HX). change (length rest < rounds)%nat. lia.
      * destruct (idle_ok 0 w (with_events (set_input w rest) []) Hi) as [? ?]; [|done|done].
        apply idle_silent; try done. cbn. by rewrite app_nil_r.
    + intros [[line|]|y]; apply stable_and; try apply HU; try apply calm_const.
      apply stable_and; [apply heard_calm|apply remaining_stable].
  - intros [line|]; [|by intros w _ [? _]].
    destruct (MAX_CONTROL_BYTES <? N.of_nat (length line)).
    + eapply ok_try; [eapply ok_pre; [apply remaining_frame, (send_plain 0 U), HLU|]| |]; [|by intros d w _ [? _]..].
      by intros w _ (? & _ & ?).
    + eapply (ok_try _ _ _ _ _ _ _ _ (fun _ w => U w /\ remaining X rounds w)); [|intros u; apply IH|by intros y w _ [? _]].
      eapply ok_pre; [apply (remaining_frame X rounds (attentive line) _ (fun _ => U))|by intros w _ (? & ? & ?)].
      destruct (parse from_slice line) as [request|problem] eqn:Hparse.
      * destruct (Request_id request) as [id|] eqn:Hid; [by apply serve_request_ok|].
        eapply ok_bind; [by apply notification_ok|]. intros u. by apply value_ok.
      * eapply (ok_try _ _ _ _ _ _ _ _ (fun _ => U)); [|by intros d; apply value_ok|done].
        eapply ok_pre; [by apply send_plain|]. by intros w _ [? _].
  - by intros y w _ [? _].
Qed.

Lemma main_thread_ok rounds : oks 0 (fun _ _ => True) (unlocked 0)
  (main_thread to_string from_slice to_lowercase schema version rounds) (fun _ _ => True).
Proof.
  unfold main_thread. eapply ok_bind; [|by intros r w].
  eapply ok_pre; [apply (serve_io_ok False)|]. intros w _ Hw. split; [exact Hw|]. intros [].
Qed.

(** ** All threads together *)

Lemma mcp_over_ok t w : McpInv w -> McpInv (mcp_over to_string t w) /\ mcp_guar t w (mcp_over to_string t w).
Proof.
  intros Hi. set (l := set_lock w (if bool_decide (calls_lock w = Some t) then None else calls_lock w)).
  assert (Hl : McpInv l /\ mcp_guar t w l).
  { subst l. case_bool_decide as Ht; [by apply give_calls|].
    destruct w; cbn in *. apply idle_ok; [done|by apply idle_silent|done]. }
  destruct Hl as [Hil Hgl].
  assert (Hidle : idle t l (mcp_over to_string t w)).
  { unfold mcp_over. fold l. destruct (left_active _ _ _); [by eapply idle_event|].
    apply idle_silent; try done. cbn. by rewrite app_nil_r. }
  destruct (idle_ok t l (mcp_over to_string t w) Hil Hidle) as [Hi' Hg']; [done|]. split; [done|].
  split; try apply Hgl.
  - destruct (guar_events _ _ _ Hg') as (new & Hn & Hnew). by exists new.
  - apply (guar_received _ _ _ Hg').
Qed.

Lemma mcp_over_rested t w : McpInv w -> unlocked t (mcp_over to_string t w).
Proof. intros _. unfold unlocked, mcp_over. cbn. by case_bool_decide. Qed.

Lemma mcp_startable_runs t p : mcp_startable to_string decode_args display p ->
  exists G, ok mcp_exec McpInv mcp_guar t G (unlocked t) p (fun _ _ => True).
Proof.
  intros [|s]; exists keeps_input; (eapply ok_post; [|by intros]); [apply call_thread_ok|apply mcp_elsewhere_ok].
Qed.

Abbreviation pool := (Config (Op := McpOp (D := D)) (answer := mcp_answer (S := S)) (Tid := N) (W := server)).
Definition mcp_step : pool -> pool -> Prop :=
  interleave mcp_exec (mcp_over to_string) (mcp_startable to_string decode_args display).

(** The server as [serve] starts it on an input, for a session and a store *)
Definition new_server (sent : list N) (who : option AgentId) (at_ : option EventId) (s : Store D) : server :=
  mkServer sent [] Phase_New who at_ None ∅ [] None ∅ s [].
Definition served (sent : list N) (who : option AgentId) (at_ : option EventId) (s : Store D) (rounds : nat) : pool :=
  mkConfig (new_server sent who at_ s) (fun t => if decide (t = 0) then
    Some (main_thread to_string from_slice to_lowercase schema version rounds) else None).
Definition reachable (c : pool) : Prop :=
  exists sent who at_ s rounds, rtc mcp_step (served sent who at_ s rounds) c.

Lemma new_server_inv sent who at_ s : McpInv (new_server sent who at_ s).
Proof.
  split; cbn; try apply valid_nil; try done.
  - by intros f [t H%elem_of_nil].
  - intros t t' f (? & ? & H & _). cbn in H. by rewrite lookup_empty in H.
  - by intros t k ?%elem_of_nil.
Qed.

Lemma server_proved (c : pool) : reachable c -> proved mcp_exec McpInv mcp_guar unlocked c.
Proof.
  intros (sent & who & at_ & s & rounds & Hsteps).
  eapply (interleavings_sound mcp_exec McpInv mcp_guar (mcp_over to_string) (mcp_startable to_string decode_args display) mcp_over_ok
    unlocked (fun t => proj1 (unlocked_calm t)) mcp_over_rested mcp_startable_runs); [exact Hsteps|].
  split; [apply new_server_inv|]. split; cbn.
  - intros t p. case_decide as Ht; [|done]. intros [= <-]. subst t. exists (fun _ _ => True), (unlocked 0).
    split; [apply unlocked_calm|]. split; [done|apply main_thread_ok].
  - by intros t _.
Qed.

Lemma reachable_inv (c : pool) : reachable c -> McpInv (world c).
Proof. intros H. apply (server_proved c H). Qed.

(** C12: What was read is recorded only when its answer was delivered.  Whenever the server records that messages or a
    handoff were read, the thread of the call did the work that has exactly this to record, then wrote the whole
    answer as it is, which is within the limit, and until then the call was not cancelled, whatever else the client sent
    and however the threads were interleaved. *)
Theorem reads_are_recorded_after_delivery (c : pool) j t session pending :
  reachable c -> events (world c) !! j = Some (Completed t session pending) ->
  exists i n before work outcome id, (i < n < j)%nat /\
    events (world c) !! i = Some (Worked t before work (Ok outcome)) /\ pending_of outcome = Some pending /\
    events (world c) !! n = Some (Sent t (to_vec to_string (tool_result to_string id (outcome_json outcome)))) /\
    N.of_nat (length (to_vec to_string (tool_result to_string id (outcome_json outcome)))) <= MAX_CONTROL_BYTES /\
    Handle_cancelled before = Handle_cancelled session /\
    forall m t', (m < j)%nat -> events (world c) !! m <> Some (Cancelled t' (Handle_cancelled session)).
Proof.
  intros Hr Hj. pose proof (inv_valid _ (reachable_inv c Hr) _ _ Hj) as [_ [Hno (h1 & h2 & h3 & before & work & outcome & id & Hh & Hp & Hb & Hle)]].
  set (h := events (world c)) in *. pose proof (lookup_lt_Some _ _ _ Hj) as Hlt.
  assert (Hlook : forall i e, take j h !! i = Some e -> h !! i = Some e /\ (i < j)%nat).
  { intros i e [H1 H2]%lookup_take_Some. done. }
  assert (Hi : take j h !! length h1 = Some (Worked t before work (Ok outcome))) by (rewrite Hh; by apply list_lookup_middle).
  assert (Hk : take j h !! (length h1 + Datatypes.S (length h2))%nat = Some (Sent t (to_vec to_string (tool_result to_string id (outcome_json outcome))))).
  { rewrite Hh, lookup_app_r by lia. replace (_ - _)%nat with (Datatypes.S (length h2)) by lia. cbn. by apply list_lookup_middle. }
  apply Hlook in Hi as [Hi _]. apply Hlook in Hk as [Hk Hkj].
  exists (length h1), (length h1 + Datatypes.S (length h2))%nat, before, work, outcome, id. split; [lia|].
  do 5 (split; [done|]). intros m t' Hm H. apply Hno. exists t'. apply list_elem_of_lookup_2 with m. by apply lookup_take_Some.
Qed.

(** C13: A call is let in only after the handshake, and alone under its identifier.  Before a call of a tool is
    accepted, the client had sent a complete request to initialize the server and, later, the notification that it is
    ready.  If a call was accepted under the same identifier before, then in between the thread that had begun that very
    call has freed the identifier, and that thread has come to its end: it works, sends and records nothing after it.
    And at no time are more than 32 calls active. *)
Theorem calls_are_admitted_in_turn (c : pool) j t k f :
  reachable c -> events (world c) !! j = Some (Accepted t k f) ->
  (exists i n t1 t2 line line', (i < n < j)%nat /\
     events (world c) !! i = Some (Received t1 line) /\ line_says line asks_to_initialize /\
     events (world c) !! n = Some (Received t2 line') /\ line_says line' says_it_is_ready) /\
  (forall i t' f', (i < j)%nat -> events (world c) !! i = Some (Accepted t' k f') ->
     exists b n worker, (b < n)%nat /\ (i < n < j)%nat /\
       events (world c) !! b = Some (Begun worker f') /\ events (world c) !! n = Some (Freed worker k) /\
       forall m e, (n < m)%nat -> events (world c) !! m = Some e -> acts e <> Some worker) /\
  N.of_nat (size (calls (world c))) <= 32.
Proof.
  intros Hr Hj. pose proof (reachable_inv c Hr) as Hi. pose proof (inv_valid _ Hi) as Hv. set (h := events (world c)) in *.
  destruct (Hv _ _ Hj) as (_ & Hk & _ & Hp). split; [|split].
  - destruct (phase_lines _ (valid_take h j Hv)) as [_ H]. destruct (H Hp) as (i & n & t1 & t2 & line & line' & Hlt & H1 & Hs1 & H2 & Hs2).
    apply lookup_take_Some in H1 as [H1 _], H2 as [H2 Hn]. exists i, n, t1, t2, line, line'. split; [lia|]. auto.
  - intros i t' f' Hlt Hacc.
    assert (Hsplit : take j h = take (Datatypes.S i) h ++ drop (Datatypes.S i) (take j h)).
    { rewrite <- (take_drop (Datatypes.S i) (take j h)) at 1. by rewrite take_take, Nat.min_l by lia. }
    destruct (open_calls_freed (take (Datatypes.S i) h) (drop (Datatypes.S i) (take j h)) k f') as [Hg|(n & worker & Hn & Hopen)].
    + rewrite <- Hsplit. by apply valid_take.
    + rewrite (take_S_r _ _ _ Hacc), open_calls_snoc. cbn. by rewrite lookup_insert_eq.
    + rewrite <- Hsplit in Hg. by rewrite Hg in Hk.
    + rewrite lookup_drop in Hn. apply lookup_take_Some in Hn as [Hn Hnj]. set (m := (Datatypes.S i + n)%nat) in *.
      destruct (Hv _ _ Hn) as (_ & f1 & Hb & Hf1).
      assert (Htake : take (Datatypes.S i) h ++ take n (drop (Datatypes.S i) (take j h)) = take m h).
      { rewrite <- (take_drop (Datatypes.S i) (take m h)), take_take, Nat.min_l by lia. f_equal.
        rewrite <- !skipn_firstn_comm, !take_take || idtac. rewrite take_drop_commute, take_take. do 2 f_equal. lia. }
      rewrite Htake, Hf1 in Hopen. injection Hopen as ->.
      apply list_elem_of_lookup in Hb as [b Hb]. apply lookup_take_Some in Hb as [Hb Hbm].
      exists b, m, worker. split; [done|]. split; [lia|]. split; [done|]. split; [done|].
      intros x e Hx He Hacts. destruct (Hv _ _ He) as [Hgo _]. apply (Hgo _ Hacts k).
      apply list_elem_of_lookup_2 with m. by apply lookup_take_Some.
  - rewrite (inv_calls _ Hi). apply open_calls_bounded, Hv.
Qed.

(** The loop never runs out of rounds when there is one more than bytes to read. *)
Theorem server_reads_to_the_end rounds choices n w w' r n' :
  McpInv w -> unlocked 0 w -> (length (input w) < rounds)%nat ->
  run (mcp_perform (S := S)) 0 choices n (serve_io to_string from_slice to_lowercase schema version rounds) w = Some (w', r, n') ->
  r <> Ok None.
Proof.
  intros Hi Hu Hlt Hrun.
  destruct (ok_run mcp_exec McpInv mcp_guar (mcp_perform (S := S)) 0 _ _ _ _ (fun op w x w' H => H) (serve_io_ok True rounds)
    choices n w w' r n' Hi) as [_ [_ H]]; [|done|by apply H].
  split; [done|]. by intros _.
Qed.
End runs.

(** ** Samples *)

(** A client that initializes the server, says that it is ready, and reads bob's inbox.  The lines stand for the
    requests, and are read as them. *)
Definition bob_here : AgentId := AgentId_new bob machine_b.
Definition store_here : Store Memory := sab1.2.
Definition inbox_here : list Event :=
  match unread (S := string) (Store_database store_here) bob_here 5 with Ok found => found | Err _ => [] end.
Definition reading_here : PendingRead := mkPendingRead bob_here inbox_here true.

Definition initialize_request : Value := json_object [
  ("jsonrpc", Value_String "2.0"); ("id", json_integer 1); ("method", Value_String "initialize");
  ("params", json_object [("protocolVersion", Value_String "2025-06-18"); ("capabilities", json_object []);
    ("clientInfo", json_object [("name", Value_String "codex")])])]%string.
Definition initialized_request : Value := json_object [
  ("jsonrpc", Value_String "2.0"); ("method", Value_String "notifications/initialized")]%string.
Definition inbox_request (id : Z) : Value := json_object [
  ("jsonrpc", Value_String "2.0"); ("id", json_integer id); ("method", Value_String "tools/call");
  ("params", json_object [("name", Value_String "chat_inbox")])]%string.

Definition sample_from_slice (line : list N) : option Value :=
  match line with
  | 49 :: _ => Some initialize_request
  | 50 :: _ => Some initialized_request
  | 51 :: _ => Some (inbox_request 7)
  | 52 :: _ => Some (inbox_request 8)
  | _ => None
  end.
Definition sample_to_string (value : Value) : string :=
  match value with Value_Number text => text | Value_Object _ => "{}" | _ => "?" end.
Definition sample_decode_args (tool : ChatTool) (arguments : Value) : result (tool_args tool) string :=
  match tool return result (tool_args tool) string with
  | chat_inbox => Ok (mkInboxArgs false 50)
  | _ => Err "not in the sample"%string
  end.
#[local] Instance sample_shown : Shown := {
  show_agent _ := Value_Null; show_card _ := Value_Null; show_presence _ := Value_Null; show_directory _ := Value_Null;
  show_room _ := Value_Null; show_event_id _ := Value_Null; show_descriptor _ := Value_Null; show_body _ := Value_Null;
  show_ask _ := Value_Null; show_message _ := Value_Null
}.
Definition sample_environment : Environment string := {|
  env_rung := rung; env_now := Stamp_from_unix_millis 0; env_to_lowercase s := s; env_file_name _ := None;
  env_is_absolute _ := true; env_is_dir _ := None
|}.

Abbreviation sample_pool := (Config (Op := McpOp (D := Memory)) (answer := mcp_answer (S := string)) (Tid := N)
  (W := Server (D := Memory) (S := string))).
Definition sample_mcp_step : sample_pool -> sample_pool -> Prop :=
  mcp_step sample_to_string sample_decode_args (fun _ => EmptyString).

(** Nothing fails; the child is a thread that the loop spawns. *)
Definition easy (child : N) : McpChoice (D := Memory) (S := string) :=
  mkMcpChoice None 0 child None store_here (Ok (Outcome_Events [] (Some 0) (Some reading_here))) (Ok None) sample_environment.

Fixpoint go (steps : nat) (t child : N) (c : sample_pool) : sample_pool :=
  match steps with
  | O => c
  | S steps =>
      match threads c t with
      | Some (Do op k) =>
          match mcp_perform t (easy child) op (world c) with
          | Some (w, x) => go steps t child (mkConfig w (thread_update (threads c) t (Some (k x))))
          | None => c
          end
      | _ => c
      end
  end.
Definition begin_call (t : N) (c : sample_pool) : sample_pool :=
  match threads c t with
  | None => mkConfig (world c) (thread_update (threads c) t (Some (call_thread sample_to_string sample_decode_args (fun _ => EmptyString))))
  | Some _ => c
  end.

Definition sample_input : list N := [49; 10; 50; 10; 51; 10; 52; 10; 51; 10].
Definition sample_served : sample_pool :=
  served sample_to_string sample_from_slice (fun s => s) (fun _ => Value_Null) "1.0" sample_input (Some bob_here) None store_here 11.
(** The loop spawns the call 7 and goes on to the next; its thread runs while the loop does not; then the same
    identifier comes again. *)
Definition sample_called : sample_pool := go 16 0 1 sample_served.
Definition sample_read : sample_pool := go 60 1 0 (begin_call 1 sample_called).
Definition sample_again : sample_pool := go 60 0 3 (go 9 0 2 sample_read).

(** What is played is an interleaving. *)
Lemma go_sound steps t child : forall c, rtc sample_mcp_step c (go steps t child c).
Proof.
  induction steps as [|steps IH]; intros c; cbn [go]; [apply rtc_refl|].
  destruct (threads c t) as [[a|op k]|] eqn:Ht; try apply rtc_refl.
  destruct (mcp_perform t (easy child) op (world c)) as [[w x]|] eqn:Hp; [|apply rtc_refl].
  eapply rtc_l; [|apply IH]. destruct c as [w0 ts]. cbn [world threads] in *.
  eapply interleave_act; [exact Ht|]. by exists (easy child).
Qed.

Lemma begin_call_sound t c : rtc sample_mcp_step c (begin_call t c).
Proof.
  unfold begin_call. destruct (threads c t) eqn:Ht; [apply rtc_refl|]. apply rtc_once.
  destruct c as [w ts]. apply interleave_start; [exact Ht|]. apply startable_call.
Qed.

Lemma sample_again_reachable :
  reachable sample_to_string sample_from_slice (fun s => s) (fun _ => Value_Null) sample_decode_args (fun _ => EmptyString) "1.0" sample_again.
Proof.
  exists sample_input, (Some bob_here), None, store_here, 11%nat.
  transitivity sample_called; [apply go_sound|]. transitivity (begin_call 1 sample_called); [apply begin_call_sound|].
  transitivity sample_read; [apply go_sound|]. transitivity (go 9 0 2 sample_read); apply go_sound.
Qed.

(** The message of the sample is in the answer, and its reading is recorded after it was sent. *)
Definition completes_at (h : list (McpEvent (S := string))) (j : nat) (t : N) : option (Handle * PendingDelivery) :=
  match h !! j with
  | Some (Completed t' session pending) => if t =? t' then Some (session, pending) else None
  | _ => None
  end.
Lemma completes_at_sound h j t session pending :
  completes_at h j t = Some (session, pending) -> h !! j = Some (Completed t session pending).
Proof.
  unfold completes_at. destruct (h !! j) as [[]|]; try done. destruct (N.eqb_spec t t0) as [->|]; [|done]. by intros [= -> ->].
Qed.
Lemma sample_completes : completes_at (events (world sample_again)) 10 1 =
  Some (mkHandle (Some bob_here) None 0, PendingDelivery_Messages reading_here).
Proof. vm_compute. reflexivity. Qed.

Lemma reads_are_recorded_after_delivery_witness :
  length inbox_here = 1%nat /\ exists i n before work outcome id, (i < n < 10)%nat /\
    events (world sample_again) !! i = Some (Worked 1 before work (Ok outcome)) /\
    pending_of outcome = Some (PendingDelivery_Messages reading_here) /\
    events (world sample_again) !! n =
      Some (Sent 1 (to_vec sample_to_string (tool_result sample_to_string id (outcome_json outcome)))).
Proof.
  split; [vm_compute; reflexivity|].
  destruct (reads_are_recorded_after_delivery sample_to_string sample_from_slice (fun s => s) (fun _ => Value_Null)
    sample_decode_args (fun _ => EmptyString) "1.0" sample_again 10 1 (mkHandle (Some bob_here) None 0)
    (PendingDelivery_Messages reading_here) sample_again_reachable (completes_at_sound _ _ _ _ _ sample_completes))
    as (i & n & before & work & outcome & id & Hlt & Hi & Hp & Hn & _).
  exists i, n, before, work, outcome, id. exact (conj Hlt (conj Hi (conj Hp Hn))).
Defined.

(** The identifier 7 is used twice, one call after the other. *)
Definition accepts_at (h : list (McpEvent (S := string))) (j : nat) : option (N * string * nat) :=
  match h !! j with Some (Accepted t k f) => Some (t, k, f) | _ => None end.
Lemma accepts_at_sound h j t k f : accepts_at h j = Some (t, k, f) -> h !! j = Some (Accepted t k f).
Proof. unfold accepts_at. destruct (h !! j) as [[]|]; try done. by intros [= -> -> ->]. Qed.
Lemma sample_accepts : accepts_at (events (world sample_again)) 6 = Some (0, "7"%string, 0%nat) /\
  accepts_at (events (world sample_again)) 15 = Some (0, "7"%string, 2%nat).
Proof. vm_compute. done. Qed.

Lemma calls_are_admitted_in_turn_witness :
  exists n t, (6 < n < 15)%nat /\ events (world sample_again) !! n = Some (Freed t "7").
Proof.
  destruct (calls_are_admitted_in_turn sample_to_string sample_from_slice (fun s => s) (fun _ => Value_Null)
    sample_decode_args (fun _ => EmptyString) "1.0" sample_again 15 0 "7" 2 sample_again_reachable
    (accepts_at_sound _ _ _ _ _ (proj2 sample_accepts))) as (_ & H & _).
  destruct (H 6%nat 0 0%nat) as (b & n & t & _ & Hn & _ & Hf & _).
  - apply Nat.ltb_lt. reflexivity.
  - exact (accepts_at_sound _ _ _ _ _ (proj1 sample_accepts)).
  - exists n, t. exact (conj Hn Hf).
Defined.
